(* ===== verification/_CoqProject ===== *)
-Q . S2P
Prelude.v
BTree.v
Time.v
Identity.v
Exit.v
Float64.v
Policy.v
Epochs.v
Readiness.v
DeadlineQueue.v
StopLadder.v
Restart.v
Lifecycle.v
NestedExit.v
Supervisor.v
SupervisorLemmas.v
SupervisorInv.v
SupervisorProps.v
SupervisorOrder.v
SupervisorMembers.v
Mailbox.v
MailboxInv.v
MailboxErrors.v
MailboxProps.v
MailboxOrder.v
Waiters.v
Latch.v
Watch.v
OneShot.v
Disposal.v
Interleave.v
MailboxOps.v
Futures.v
FuturesProps.v
CallProps.v
CallInv.v
FuturesDemo.v
WakerProxy.v
Gate.v
TimerStore.v
Raw.v
RawProps.v
RawHistory.v
RawSolo.v
RawLife.v
Handler.v
MailboxInbox.v
Offload.v
Member.v
MemberProps.v
MailboxMember.v
Snapshot.v
Hubs.v
LifecycleHub.v
Scope.v
ScopeLogic.v
ScopeProps.v
ScopeResidency.v
ScopeControlProps.v
ScopeClosed.v
Plan.v
PlanProps.v
Effects.v
Dynamic.v
DynamicProps.v
DynamicClaims.v
DriverState.v
Driver.v
DriverEvents.v
DriverLoop.v
DriverPanics.v
Mirror.v
DriverLogic.v
DriverRefine.v
DriverAdmission.v
DriverRun.v
DriverMailbox.v
DriverLedger.v
DriverEpilogue.v
DriverDemo.v
