(* ===== verification/Prelude.v ===== *)
(** * Shelterwood: a verification development

    Shelterwood is an actor-supervision library in three crates.
    [shelterwood-core] is pure decision logic: identities, policies, exits, the
    per-child machines of [engine.rs] and the structural reducer of
    [supervisor.rs].  [shelterwood-runtime] adapts an async runtime.
    [shelterwood] holds the mailboxes, the driver that feeds the core machines
    and performs what they command, and the public tree API.  A driver owns
    one scope incarnation: it admits children into the reducer, reports their
    edges ([Spawned], [Ready], [IncarnationComplete], ...), runs [Settle] and
    performs the returned commands; child exits go through [dispatch_exit] and
    [schedule_restart]; stops climb a [StopLadder] armed in the
    [DeadlineQueue]; actors receive from mailbox cells that outlive their
    incarnations.  Driver and clients share member and scope cells: every
    write to them runs in a transaction under the observation gate of their
    tree, which stages snapshots and lifecycle events, installs them, unlocks,
    and then performs the wakes and drops it deferred.

    ** Conventions

    Code that can panic or abort returns an [outcome] ([Ret], [Panics],
    [ProcessAborts]); machine integers are [Z] with their limits written out
    ([u64_max]); [BTreeMap] is a finite map with ordered iteration
    ([BTree.v]); mutation is explicit state passing; a mutable reference to a
    command buffer becomes a returned list.  A lock is one atomic transition,
    so an interleaving of threads is a sequence of operations; code that is
    not under a lock (the waiter protocol, the atomics of the latch, watch and
    one-shot, the gate capture loops) is a step relation over its program
    points.  Channels of the async runtime are parameters: a class states what
    their documentation promises, and an instance shows it can hold.
    Durations and
    instants are nanosecond counts under the abstract [Clock] of [Time.v],
    whose ceiling stands for the platform's largest [Instant].

    ** Files

    - [Prelude.v], [BTree.v]: the outcome monad, runs of operations, ordered
      maps, shared lemmas and automation.
    - [Time.v]: [deadline.rs].  [Identity.v]: [identity.rs].  [Exit.v]:
      [exit.rs].  [Float64.v], [Policy.v]: [policy.rs], with [f64] as the
      Standard Library's binary64 specification floats; [f64::powi], whose
      precision the platform decides, is a parameter.
    - [Epochs.v], [Readiness.v], [DeadlineQueue.v]: the files of the same name
      under [engine/].
    - [StopLadder.v], [Restart.v], [Lifecycle.v]: the parts of [engine.rs] -
      [StopLadder]; [arbitrate], [dispatch_exit], [IntensityState],
      [RestartState], [schedule_restart]; [ScopeLifecycle].  [NestedExit.v]:
      the exits of nested scopes ([driver/nested.rs]) and the reasons read
      back from them.
    - [Supervisor.v]: [supervisor.rs], one definition per method.
      [SupervisorLemmas.v]: its loops and local steps.  [SupervisorInv.v]: the
      driver's requests as operations, the [run]s they form, and the invariant
      of every run.  [SupervisorProps.v], [SupervisorOrder.v],
      [SupervisorMembers.v]: its theorems.
    - [Mailbox.v]: [mailbox/cell.rs] with [cell/state.rs],
      [cell/operation.rs] and [cell/effects.rs], [errors.rs], the bind token
      of [mailbox.rs] and the slot of [waker.rs].  [MailboxInv.v]: runs and
      the invariant.  [MailboxErrors.v]: the protocol of its callers and the
      absence of panics.  [MailboxProps.v], [MailboxOrder.v]: its theorems.
    - [Waiters.v], [Latch.v], [Watch.v], [OneShot.v]: the files of the same
      name of the runtime crate.  [Waiters.Waitable] is the interface through
      which the registry's protocol serves both the latch and the watch.
      [Disposal.v]: [disposal.rs] with the submission of [blocking.rs].
    - [Interleave.v]: code between critical sections, its executions among the
      steps of an environment, and their weakest preconditions.
      [MailboxOps.v]: what others do to a parked send.  [Futures.v]: the
      futures of [mailbox/futures.rs], [deadline.rs], [reply.rs] and
      [capability.rs].  [FuturesProps.v]: sends and deadlines;
      [CallProps.v], [CallInv.v]: replies and calls; [FuturesDemo.v]: schedules of a send and a call.
    - [WakerProxy.v]: [waker_proxy.rs] and
      [proxied_sleep.rs], polls through a proxy and the wakes that race them.
    - [Gate.v]: [panic.rs], [cells/gate.rs] and, in [Handoff], the gate
      capture loops of [cells/member.rs].
    - [TimerStore.v]: [raw/context/timers.rs].
      [Raw.v]: [raw/context.rs] with [select.rs] and [resources.rs] - the
      operations of a raw actor and the selection of its next input, as code
      between which other threads act; its mailbox is any [Inbox].
      [RawProps.v]: the laws of such a mailbox and the loop's invariant;
      [RawHistory.v]: histories of calls; [RawSolo.v]: undisturbed
      selections.  [RawLife.v]: [raw/definition.rs] and
      [raw/disposal.rs], the end of an incarnation.  [Handler.v]:
      [actor.rs], callbacks over a raw context.  [MailboxInbox.v]: the
      mailbox cell as an [Inbox], and an actor that runs on it.
      [Offload.v]: [raw/offload.rs], the task of an offload and its
      cancellers.
    - [Member.v]: [cells/member.rs]; its mailbox is any [MailboxControl].
      [MemberProps.v]: its theorems.  [MailboxMember.v]: the mailbox cell as
      such a control.
    - [Snapshot.v], [Hubs.v], [LifecycleHub.v]: [cells/observe.rs] and the
      broadcast wrapper of [channel.rs].
    - [Scope.v]: [cells/scope.rs] and the files under [cells/scope/], as
      operations on a [Forest] of cells that return the notes they leave in
      their transaction.  [ScopeLogic.v]: the proof rules for such operations
      and [scope_exec], the operations a tree undergoes.  [ScopeProps.v],
      [ScopeResidency.v], [ScopeControlProps.v], [ScopeClosed.v]: its
      theorems, the last with a concrete forest they apply to.
    - [Plan.v]: [plan.rs] and [definition.rs], slots and plans over the forest.
      [PlanProps.v]: their theorems, and a tree being declared, lowered and
      dropped.
    - [Effects.v]: the monad of operations that pass a state and leave notes,
      relations its steps respect, and ledgers of what they owe.
    - [Dynamic.v]: [driver/admission_control.rs] and [cells/admission.rs], the
      control plane of dynamic scopes over a [Store] of shared state.
      [DynamicProps.v]: the response ledger; [DynamicClaims.v]: its theorems
      and a live dynamic scope.
    - [DriverState.v], [Driver.v], [DriverEvents.v], [DriverLoop.v]: the files
      of [driver/] - the runtime record of a scope incarnation and its
      bookkeeping; spawning, stopping, removal, startup and the command loop;
      the handlers of each event; collection, dispatch, the wait, prologue and
      epilogue.  A driver operates on its own record and on the [Store].
    - [DriverPanics.v]: which panics an operation can raise.  [Mirror.v],
      [DriverLogic.v]: what driver and reducer agree on and the proof rules
      for it; [DriverRefine.v], [DriverAdmission.v]: every operation keeps the agreement; [DriverRun.v]:
      runs of a driver and their theorems.  [DriverLedger.v],
      [DriverEpilogue.v]: the responses a driver owes.  [DriverMailbox.v]: the
      mailbox cell as a driver sees it.  [DriverDemo.v]: drivers that run.

    ** What the theorems show

    - Supervision: the source's [check_invariants] holds in every reachable
      state; a child moves only along the
      incarnation graph; ordered startup constructs members one at a time in
      admission order; an ordered drain stops the last incomplete member,
      never gets stuck, and ends when stop requests are carried out; one
      settlement pass reaches a fixpoint; startup completion, [Finished] and
      each removal's finalization are issued once, in the right state; drain
      reasons are arbitrated by precedence; keys are never reused.
    - Engine machines: the stop ladder never skips or repeats a rung and never
      fabricates an expired grace; the deadline queue refines a sorted list
      and the epochs a counter; the intensity window, the restart counters and
      the readiness gate compute what their contracts state; lifecycle
      publications are ordered.
    - Identity, exits, policies: memberships are never reissued; evidence
      folding keeps the strongest; a structured stop reason is read back
      through any number of nested scopes; backoff delays stay within bounds for every
      [powi]; defaults resolve to the innermost setting.
    - Mailboxes: messages are conserved; a queue is one FIFO line across its
      buffer and its parked senders and stays within capacity; withdrawal,
      latest-value replacement, non-blocking sends and termination have their
      exact outcomes; callers that keep the protocol never meet a panic.
    - Futures: whatever other threads do between two steps of a poll or of a
      drop, a timed send and a call account for their message and for the
      reply, in agreement with the result they return, time out only after
      their budget, and never panic.
    - Runtime primitives: no interleaving of polls, publications and
      cancellations strands a waiter or leaks a registration; the completion
      gate linearizes its calls; a reader marked up to date has read the
      current value; a one-shot delivers its value once or hands it back; a
      proxied poll loses no wake and keeps no waker; a value handed to
      isolated disposal is destroyed once, never by a critical submitter, and
      disposal drains.
    - Raw actors: the timer store refines a map of alarms; whatever a handler
      calls and other threads do, no assertion of the loop fails; a fired
      timer is served within the deliveries its batch captured, unless a
      receive unwinds; an
      undisturbed selection ends in two turns and misses nothing; the future
      of an offload is destroyed once, after its last poll, and its completion
      published after its wake; a panic is never masked when the incarnation
      ends, also by a hard abort.  The handler loop keeps the protocol of
      callbacks: init first, the frozen prefix only when it drains, the stop
      callback last and never after a failure.
    - Cells: one transaction moves a snapshot hub at most one edge, performs
      all it owes whatever panics, and a waiting receiver catches up; a
      lifecycle subscription accounts for every event; writers of a member
      exclude each other across gate handoffs; the first terminalizer wins and
      tears the mailbox down once; a scope's events are numbered without gaps,
      agree with its record, and announce and withdraw residents in pairs;
      stop verdicts resolve by precedence; a shutdown request is neither lost
      nor taken twice; a closed stream belongs to a terminal scope.
    - Plans: a construction has one owner at any time and is disposed of once;
      lowering takes all slots or none; an abandoned builder or plan
      terminalizes whatever it declared.
    - Dynamic membership: each response of an admission or removal is owed by
      one obligation or settled once, and answered unless its caller abandoned
      it; a refused reservation names the first
      condition that refuses it and changes nothing.
    - Driver: between any two operations of a driver the shared store may be
      changed in any way, and still its requests are a legal run of the
      reducer, whose commands are all performed when an operation ends: a
      member commanded to stop is stopping, disposing, joined or gone; its
      children are the reducer's members with a task exactly
      where a record is active or stopping, a task is launched only for a
      startable member of a scope that does not drain, and none of its
      structural assertions fails; when its loop has completed and its
      epilogue has run, no caller is left waiting on the scope.

    ** Runs and their hypotheses

    [SupervisorInv.run] admits the requests the driver makes: a membership is
    admitted once, while the scope neither drains nor has finished, and a
    drain carries a live reason; every event may arrive at any time.
    [MailboxInv.mrun] allows every sender, receiver, future and lifecycle
    request in any order, with the operation handles the cell issued.
    [DriverRun.driven] alternates the driver's operations with arbitrary
    changes of the store; it asks that an admitted membership is one the
    reducer does not hold, which the lineages of [Identity.v] provide.  An
    operation of the driver between two of its await points is one step: the
    driver owns its record, and reads of shared state inside an operation see
    the state the operation began with and its own writes.
    [Futures.others] are the steps between those of a future: any request of
    the mailbox that does not use the future's own operation, time passing,
    and the steps of the reply's sender.  The runtime's timer is a parameter
    that is asked only not to fire early.  [RawHistory.history] alternates
    the calls of a raw actor with [RawProps.others]: senders and the driver
    act on the mailbox, the clock advances, latches fire, completions arrive.
    [RawProps.InboxLaws] asks of the mailbox that others never add behind a
    cutoff; [MailboxInbox.v] proves it of the mailbox cell.

    ** Fuel

    Loops that are not structural take fuel.  The ordered start and stop loops
    visit each key at most once and get two steps more than there are children
    ([start_loop] and [stop_loop] are characterised as first-match searches in
    [SupervisorLemmas.v], which shows the fuel never decides).  Promotion and
    the discharge of waiters get one step more than there are waiters, each
    step removing one; pruning a heap gets one step per stored entry.  The
    poll loop of a send gets its two iterations, the second with the waker it
    cloned; that it needs no third is proved with the absence of panics.  The
    driver's methods call each other in a cycle ([flush_supervisor_effects],
    [spawn_child], [begin_terminal_disposal], ...): [Driver.perform] takes fuel
    for the depth of that recursion, and running out of it is a panic of its
    own message, which the theorems on panics tell apart from every assertion.
    A selection of the raw loop takes the number of its turns: two suffice
    undisturbed, and running out is the value [StillSelecting]; the stages
    within a turn get one step more than their captured prefix.  A run of the
    callback loop takes the number of its receives; what has not ended by then
    is [HandlerWaits], and a run that finds shutdown requested and discards its
    mailbox needs two.

    ** Not modelled

    Rendering ([Display], [Debug]); mutex poisoning; the guards of
    [cells/retained.rs], which decide on which thread a payload is destroyed;
    the accumulators of the mailbox's [effects.rs], so its destructors and
    wakers are commands in a list; the retirement of a future's timer and
    wakers; trees, which forward to builders and cells; tasks; the runtime
    crate's adapters of threads, timers and tasks.  Of raw actors: [run_blocking], the signal that wakes a parked receive, and
    panics of user hashing and equality.  Of the driver: the watcher tasks of
    [spawn.rs], [report.rs], the root monitor of [system.rs], what a handler
    does while it unwinds, and most debug-only assertions.

    ** Further work

    What remains: the driver's task-side reports and watchers, the depth of its
    recursion, and the timing of restarts under load. *)

From stdpp Require Export base tactics list strings gmap sorting.
From Stdlib Require Export ZArith Lia.

#[global] Open Scope Z_scope.

Declare Scope sw_scope.
Delimit Scope sw_scope with sw.

(** ** Outcomes of code that can panic or abort

    A Rust function that contains [assert!], [expect] or [panic!] may unwind,
    and the identity counters abort the whole process at their limit.  [Ret]
    is an ordinary return. *)
Inductive outcome (A : Type) : Type :=
| Ret (a : A)
| Panics (message : string)
| ProcessAborts.
Arguments Ret {A} _.
Arguments Panics {A} _.
Arguments ProcessAborts {A}.

#[export] Instance outcome_ret : MRet outcome := fun A a => Ret a.
#[export] Instance outcome_bind : MBind outcome := fun A B f m =>
  match m with
  | Ret a => f a
  | Panics s => Panics s
  | ProcessAborts => ProcessAborts
  end.
#[export] Instance outcome_fmap : FMap outcome := fun A B f m =>
  match m with
  | Ret a => Ret (f a)
  | Panics s => Panics s
  | ProcessAborts => ProcessAborts
  end.

(** [expect] of the standard library on an [Option]. *)
Definition expect {A} (message : string) (o : option A) : outcome A :=
  match o with Some a => Ret a | None => Panics message end.

(** [assert!(condition, message)]. *)
Definition assert_that (condition : bool) (message : string) : outcome unit :=
  if condition then Ret () else Panics message.

(** [m] returns normally with a value satisfying [P]. *)
Definition returns {A} (m : outcome A) (P : A -> Prop) : Prop :=
  match m with Ret a => P a | _ => False end.

Lemma bind_Ret_inv {A B} (m : outcome A) (f : A -> outcome B) b :
  (m ≫= f) = Ret b -> exists a, m = Ret a /\ f a = Ret b.
Proof. destruct m; simpl; naive_solver. Qed.

(** ** Sequences of operations *)

(** Runs a list of operations, collecting their observations. *)
Fixpoint run_ops {S O R} (exec : S -> O -> outcome (R * S)) (s : S) (ops : list O)
  : outcome (list R * S) :=
  match ops with
  | [] => Ret ([], s)
  | o :: ops =>
      '(r, s) ← exec s o;
      '(rs, s) ← run_ops exec s ops;
      Ret (r :: rs, s)
  end.

Lemma run_ops_app {S O R} (exec : S -> O -> outcome (R * S)) s a b :
  run_ops exec s (a ++ b) =
  ('(ra, s) ← run_ops exec s a; '(rb, s) ← run_ops exec s b; Ret (ra ++ rb, s)).
Proof.
  revert s. induction a as [|o a IH]; intros s; simpl.
  { destruct (run_ops exec s b) as [[rb s']| |]; done. }
  destruct (exec s o) as [[r s']| |]; simpl; [|done..]. rewrite IH.
  destruct (run_ops exec s' a) as [[ra s1]| |]; simpl; [|done..].
  by destruct (run_ops exec s1 b) as [[rb s2]| |].
Qed.

(** Maps the final state. *)
Definition map_state {R S T} (f : S -> T) (m : outcome (R * S)) : outcome (R * T) :=
  '(r, s) ← m; Ret (r, f s).

(** [core::result::Result]. *)
Inductive result (A E : Type) : Type :=
| Ok (a : A)
| Err (e : E).
Arguments Ok {A E} _.
Arguments Err {A E} _.

(** ** Machine integers

    A [w]-bit unsigned integer is a [Z] in [0, 2^w).  Arithmetic that the
    source performs with [checked_*] or [saturating_*] is written out. *)
Definition u64_max : Z := 2 ^ 64 - 1.
Definition i32_max : Z := 2 ^ 31 - 1.
Definition is_u64 (n : Z) : Prop := 0 <= n <= u64_max.

Definition checked_add_u64 (a b : Z) : option Z :=
  if a + b <=? u64_max then Some (a + b) else None.

Definition saturating_add_u64 (a b : Z) : Z := Z.min (a + b) u64_max.

(** [u64::try_from(len).unwrap_or(u64::MAX)] of a collection length. *)
Definition len_u64 {A} (l : list A) : Z := Z.min (Z.of_nat (length l)) u64_max.

Lemma saturating_add_u64_is_u64 a b : is_u64 a -> 0 <= b -> is_u64 (saturating_add_u64 a b).
Proof. unfold is_u64, saturating_add_u64, u64_max. lia. Qed.

(** ** Option helpers of the standard library *)
Definition is_some_and {A} (o : option A) (p : A -> bool) : bool :=
  match o with Some a => p a | None => false end.

Definition unwrap_or {A} (o : option A) (d : A) : A :=
  match o with Some a => a | None => d end.

Definition option_or {A} (a b : option A) : option A :=
  match a with Some _ => a | None => b end.

(** [bool::then_some]. *)
Definition then_some {A} (b : bool) (a : A) : option A := if b then Some a else None.

(** The derived [Ord] of [Option<u64>]: [None] is below every [Some]. *)
Definition option_ltb (a b : option Z) : bool :=
  match a, b with
  | None, Some _ => true
  | Some x, Some y => x <? y
  | _, None => false
  end.

Lemma is_some_and_true {A} (o : option A) p :
  is_some_and o p = true <-> exists a, o = Some a /\ p a = true.
Proof. destruct o as [x|]; simpl; split; [eauto|by intros (? & [= ->] & ?)|done|by intros (? & ? & ?)]. Qed.

(** ** Shared automation *)
Create HintDb sw discriminated.
#[export] Hint Constants Transparent : sw.

(** Reflects the boolean comparisons of the hypotheses and of the goal. *)
Ltac zreflect :=
  repeat match goal with
  | H : (_ <=? _) = true |- _ => apply Z.leb_le in H
  | H : (_ <=? _) = false |- _ => apply Z.leb_gt in H
  | H : (_ <? _) = true |- _ => apply Z.ltb_lt in H
  | H : (_ <? _) = false |- _ => apply Z.ltb_ge in H
  | H : (_ =? _) = true |- _ => apply Z.eqb_eq in H
  | H : (_ =? _) = false |- _ => apply Z.eqb_neq in H
  | H : (_ >=? _) = true |- _ => apply Z.geb_le in H
  | H : (_ >? _) = true |- _ => apply Z.gtb_lt in H
  | H : (_ && _)%bool = true |- _ => apply andb_true_iff in H as [? ?]
  | H : (_ || _)%bool = false |- _ => apply orb_false_iff in H as [? ?]
  | H : negb _ = true |- _ => apply negb_true_iff in H
  | H : negb _ = false |- _ => apply negb_false_iff in H
  end.

(** Splits every [match] of the goal and cleans up. *)
Ltac cases := repeat (case_match; simplify_eq/=); zreflect.

(** Splits the [match]es of a hypothesis. *)
Ltac cases_in H :=
  repeat match type of H with
  | context [ match ?x with _ => _ end ] => destruct x eqn:?; simplify_eq/=
  end; zreflect.

(** ** Lists *)

Section lists.
Context {A : Type}.
Implicit Types l : list A.

Lemma StronglySorted_app_inv (R : relation A) l1 l2 :
  StronglySorted R (l1 ++ l2) ->
  StronglySorted R l1 /\ StronglySorted R l2 /\
  (forall x y, x ∈ l1 -> y ∈ l2 -> R x y).
Proof.
  induction l1 as [|a l1 IH]; simpl; intros Hs.
  { split_and!; [constructor|done|]. intros x y Hx. inversion Hx. }
  inversion Hs as [|? ? Hs' HF]; simplify_eq.
  destruct (IH Hs') as (H1 & H2 & H3). rewrite Forall_app in HF.
  destruct HF as [HF1 HF2]. rewrite Forall_forall in HF2.
  split_and!; [by constructor|done|].
  intros x y [->|Hx]%elem_of_cons Hy; eauto.
Qed.

Lemma StronglySorted_app_2 (R : relation A) l1 l2 :
  StronglySorted R l1 -> StronglySorted R l2 ->
  (forall x y, x ∈ l1 -> y ∈ l2 -> R x y) ->
  StronglySorted R (l1 ++ l2).
Proof.
  induction 1 as [|a l1 Hs IH HF]; simpl; [done|]. intros H2 Hx.
  constructor.
  - apply IH; [done|]. intros; apply Hx; [by right|done].
  - rewrite Forall_app. split; [done|]. rewrite Forall_forall.
    intros y Hy. apply Hx; [left|done].
Qed.

Lemma filter_app_all (P : A -> Prop) `{!forall x, Decision (P x)} l :
  Forall P l -> filter P l = l.
Proof.
  induction 1 as [|x l Hx Hl IH]; [done|].
  by rewrite filter_cons_True, IH.
Qed.

Lemma filter_none (P : A -> Prop) `{!forall x, Decision (P x)} l :
  Forall (fun x => ~ P x) l -> filter P l = [].
Proof.
  induction 1 as [|x l Hx Hl IH]; [done|]. by rewrite filter_cons_False.
Qed.
Lemma NoDup_fmap_inj_on {B} (f : A -> B) l x y :
  NoDup (f <$> l) -> x ∈ l -> y ∈ l -> f x = f y -> x = y.
Proof.
  induction l as [|a l IH]; simpl; intros Hnd Hx Hy Hf; [by apply elem_of_nil in Hx|].
  apply NoDup_cons in Hnd as [Ha Hnd].
  apply elem_of_cons in Hx as [->|Hx].
  - apply elem_of_cons in Hy as [->|Hy]; [done|].
    destruct Ha. rewrite Hf. by apply list_elem_of_fmap_2.
  - apply elem_of_cons in Hy as [->|Hy]; [|auto].
    destruct Ha. rewrite <- Hf. by apply list_elem_of_fmap_2.
Qed.

(** The sum of a measure over a list. *)
Definition sum_of (g : A -> nat) (l : list A) : nat := sum_list (g <$> l).

Lemma sum_of_insert g l i k k' : l !! i = Some k -> (sum_of g (<[i:=k']> l) + g k = sum_of g l + g k')%nat.
Proof.
  unfold sum_of. revert i. induction l as [|x l IH]; intros [|i] H; simplify_eq/=; [lia|]. specialize (IH i H). lia.
Qed.
Lemma sum_of_app g l k : sum_of g (l ++ [k]) = (sum_of g l + g k)%nat.
Proof. unfold sum_of. rewrite fmap_app. cbn [fmap list_fmap]. generalize (g <$> l). intros q. induction q as [|x q IH]; simpl; lia. Qed.
Lemma sum_of_zero g l k : k ∈ l -> sum_of g l = 0%nat -> g k = 0%nat.
Proof. unfold sum_of. induction 1 as [x l|x y l _ IH]; intros H; simplify_eq/=; [lia|]. apply IH. lia. Qed.
Lemma sum_of_ge g l i k : l !! i = Some k -> (g k <= sum_of g l)%nat.
Proof. unfold sum_of. revert i. induction l as [|x l IH]; intros [|i] H; simplify_eq/=; [lia|]. specialize (IH i H). lia. Qed.
End lists.
