(* ===== verification/BTree.v ===== *)
(** * Ordered maps

    [std::collections::BTreeMap] with [u64] keys: a finite map from [Z] whose
    iteration, range and end-point operations follow the key order. *)

From S2P Require Import Prelude.

Section btree.
Context {V : Type}.
Implicit Types m : gmap Z V.

(** Keys in ascending order. *)
Definition bt_keys m : list Z := merge_sort Z.le (fst <$> map_to_list m).

(** [range((Excluded(k), Unbounded)).map(key)]. *)
Definition bt_keys_after (k : Z) m : list Z := filter (fun j => k < j) (bt_keys m).

(** [range(..k).next_back()]. *)
Definition bt_prev (k : Z) m : option Z := last (filter (fun j => j < k) (bt_keys m)).

Definition bt_first m : option Z := head (bt_keys m).
Definition bt_last m : option Z := last (bt_keys m).
Definition bt_next (k : Z) m : option Z := head (bt_keys_after k m).

(** [values().all(p)]. *)
Definition bt_all (p : V -> bool) m : bool :=
  forallb (fun kv => p (snd kv)) (map_to_list m).

Lemma bt_keys_Permutation m : bt_keys m ≡ₚ (map_to_list m).*1.
Proof. apply merge_sort_Permutation. Qed.

Lemma elem_of_bt_keys m k : k ∈ bt_keys m <-> is_Some (m !! k).
Proof.
  rewrite bt_keys_Permutation, list_elem_of_fmap. split.
  - intros ([? v] & -> & H%elem_of_map_to_list). eauto.
  - intros [v Hv]. exists (k, v). by rewrite elem_of_map_to_list.
Qed.

Lemma bt_keys_NoDup m : NoDup (bt_keys m).
Proof. rewrite bt_keys_Permutation. apply NoDup_fst_map_to_list. Qed.

Lemma bt_keys_sorted_le m : StronglySorted Z.le (bt_keys m).
Proof. apply (StronglySorted_merge_sort Z.le). Qed.

Lemma bt_keys_sorted m : StronglySorted Z.lt (bt_keys m).
Proof.
  generalize (bt_keys_NoDup m) (bt_keys_sorted_le m). generalize (bt_keys m).
  induction 1 as [|x l Hx Hnd IH]; intros Hs; constructor; inversion Hs; simplify_eq; auto.
  rewrite Forall_forall in *. intros y Hy. specialize (H2 y Hy).
  assert (x ≠ y) by (intros ->; done). lia.
Qed.

Lemma length_bt_keys m : length (bt_keys m) = size m.
Proof. by rewrite bt_keys_Permutation, length_fmap, length_map_to_list. Qed.

Lemma bt_all_true p m :
  bt_all p m = true <-> (forall k v, m !! k = Some v -> p v = true).
Proof.
  unfold bt_all. rewrite forallb_forall. split.
  - intros H k v Hk. apply (H (k, v)), list_elem_of_In. by rewrite elem_of_map_to_list.
  - intros H [k v] Hk%list_elem_of_In%elem_of_map_to_list. by eapply H.
Qed.

Lemma bt_all_false p m :
  bt_all p m = false <-> exists k v, m !! k = Some v /\ p v = false.
Proof.
  split.
  - unfold bt_all. intros H.
    assert (exists kv, kv ∈ map_to_list m /\ p kv.2 = false) as ([k v] & Hk & Hp).
    { induction (map_to_list m) as [|kv l IH]; simpl in H; [done|].
      destruct (p kv.2) eqn:E; [|exists kv; split; [left|done]].
      destruct (IH H) as (kv' & Hin & Hp). exists kv'. split; [by right|done]. }
    apply elem_of_map_to_list in Hk. eauto.
  - intros (k & v & Hk & Hp). apply not_true_iff_false. rewrite bt_all_true.
    intros H. rewrite (H _ _ Hk) in Hp. done.
Qed.

(** Generic facts about the end points of a strictly sorted list. *)
Lemma head_sorted_Some (l : list Z) j :
  StronglySorted Z.lt l -> (head l = Some j <-> j ∈ l /\ forall i, i ∈ l -> j <= i).
Proof.
  intros Hs. destruct l as [|x l]; simpl; [set_solver|].
  inversion Hs as [|? ? _ HF]; simplify_eq. rewrite Forall_forall in HF. split.
  - intros [= ->]. split; [left|].
    intros i [->|Hi]%elem_of_cons; [lia|]. specialize (HF i Hi). lia.
  - intros [[->|Hj]%elem_of_cons Hmin]; [done|].
    specialize (HF j Hj). specialize (Hmin x ltac:(left)). lia.
Qed.

Lemma last_sorted_Some (l : list Z) j :
  StronglySorted Z.lt l -> (last l = Some j <-> j ∈ l /\ forall i, i ∈ l -> i <= j).
Proof.
  intros Hs. destruct l as [|x l' _] using rev_ind; [set_solver|].
  rewrite last_snoc.
  apply StronglySorted_app_inv in Hs as (_ & _ & Hlt). split.
  - intros [= ->]. split; [set_solver|].
    intros i [Hi|Hi]%elem_of_app; [|set_solver].
    specialize (Hlt i j Hi ltac:(set_solver)). lia.
  - intros [[Hj|Hj]%elem_of_app Hmax]; [|set_solver].
    specialize (Hlt j x Hj ltac:(set_solver)). specialize (Hmax x ltac:(set_solver)). lia.
Qed.

Lemma StronglySorted_filter {A} (R : relation A) (P : A -> Prop)
    `{!forall x, Decision (P x)} l :
  StronglySorted R l -> StronglySorted R (filter P l).
Proof.
  induction 1 as [|x l Hs IH HF]; [constructor|].
  rewrite filter_cons. case_decide; [|done]. constructor; [done|].
  rewrite Forall_forall in *. intros y [? ?]%list_elem_of_filter. auto.
Qed.

Lemma elem_of_keys_after k m j :
  j ∈ bt_keys_after k m <-> k < j /\ is_Some (m !! j).
Proof. unfold bt_keys_after. by rewrite list_elem_of_filter, elem_of_bt_keys. Qed.

Lemma bt_next_Some k m j :
  bt_next k m = Some j <->
  k < j /\ is_Some (m !! j) /\ forall i, k < i -> is_Some (m !! i) -> j <= i.
Proof.
  unfold bt_next. rewrite head_sorted_Some by apply StronglySorted_filter, bt_keys_sorted.
  setoid_rewrite elem_of_keys_after. naive_solver.
Qed.

Lemma bt_next_None k m :
  bt_next k m = None <-> forall i, k < i -> m !! i = None.
Proof.
  unfold bt_next. rewrite head_None. split.
  - intros H i Hi. apply eq_None_not_Some. intros ?.
    assert (i ∈ bt_keys_after k m) as Hin by (by apply elem_of_keys_after).
    rewrite H in Hin. set_solver.
  - intros H. apply elem_of_nil_inv. intros i [Hi [v Hv]]%elem_of_keys_after.
    rewrite H in Hv; done.
Qed.

Lemma bt_prev_Some k m j :
  bt_prev k m = Some j <->
  j < k /\ is_Some (m !! j) /\ forall i, i < k -> is_Some (m !! i) -> i <= j.
Proof.
  unfold bt_prev. rewrite last_sorted_Some by apply StronglySorted_filter, bt_keys_sorted.
  setoid_rewrite list_elem_of_filter. setoid_rewrite elem_of_bt_keys. naive_solver.
Qed.

Lemma bt_prev_None k m :
  bt_prev k m = None <-> forall i, i < k -> m !! i = None.
Proof.
  unfold bt_prev. rewrite last_None. split.
  - intros H i Hi. apply eq_None_not_Some. intros ?.
    assert (i ∈ filter (fun j => j < k) (bt_keys m)) as Hin
      by (by rewrite list_elem_of_filter, elem_of_bt_keys).
    rewrite H in Hin. set_solver.
  - intros H. apply elem_of_nil_inv.
    intros i [Hi [v Hv]%elem_of_bt_keys]%list_elem_of_filter. rewrite H in Hv; done.
Qed.

Lemma bt_last_Some m j :
  bt_last m = Some j <-> is_Some (m !! j) /\ forall i, is_Some (m !! i) -> i <= j.
Proof.
  unfold bt_last. rewrite last_sorted_Some by apply bt_keys_sorted.
  setoid_rewrite elem_of_bt_keys. done.
Qed.

Lemma bt_last_None m : bt_last m = None <-> m = ∅.
Proof.
  unfold bt_last. rewrite last_None. split.
  - intros H. apply map_eq. intros i. rewrite lookup_empty. apply eq_None_not_Some.
    intros Hi%elem_of_bt_keys. rewrite H in Hi. set_solver.
  - intros ->. apply elem_of_nil_inv. intros i [v Hv]%elem_of_bt_keys.
    by rewrite lookup_empty in Hv.
Qed.

Lemma bt_first_Some m j :
  bt_first m = Some j <-> is_Some (m !! j) /\ forall i, is_Some (m !! i) -> j <= i.
Proof.
  unfold bt_first. rewrite head_sorted_Some by apply bt_keys_sorted.
  setoid_rewrite elem_of_bt_keys. done.
Qed.

Lemma bt_first_None m : bt_first m = None <-> m = ∅.
Proof.
  unfold bt_first. rewrite head_None. split.
  - intros H. apply map_eq. intros i. rewrite lookup_empty. apply eq_None_not_Some.
    intros Hi%elem_of_bt_keys. rewrite H in Hi. set_solver.
  - intros ->. apply elem_of_nil_inv. intros i [v Hv]%elem_of_bt_keys.
    by rewrite lookup_empty in Hv.
Qed.

(** Strictly sorted lists with the same elements are equal. *)
Lemma sorted_ext (l1 l2 : list Z) :
  StronglySorted Z.lt l1 -> StronglySorted Z.lt l2 ->
  (forall x, x ∈ l1 <-> x ∈ l2) -> l1 = l2.
Proof.
  intros H1. revert l2. induction H1 as [|x l1 H1 IH HF1]; intros l2 H2 Hx.
  - destruct l2 as [|y l2]; [done|]. exfalso. specialize (Hx y). set_solver.
  - destruct H2 as [|y l2 H2 HF2]; [exfalso; specialize (Hx x); set_solver|].
    rewrite Forall_forall in HF1, HF2.
    assert (x = y) as ->.
    { pose proof (proj1 (Hx x) ltac:(left)) as Hin1.
      pose proof (proj2 (Hx y) ltac:(left)) as Hin2.
      apply elem_of_cons in Hin1 as [?|Hin1]; [done|].
      apply elem_of_cons in Hin2 as [?|Hin2]; [done|].
      specialize (HF1 _ Hin2). specialize (HF2 _ Hin1). lia. }
    f_equal. apply IH; [done|]. intros z. specialize (Hx z).
    rewrite !elem_of_cons in Hx. split; intros Hz.
    + specialize (HF1 z Hz). destruct Hx as [Hx _]. destruct Hx as [->|?]; auto; lia.
    + specialize (HF2 z Hz). destruct Hx as [_ Hx]. destruct Hx as [->|?]; auto; lia.
Qed.

(** Inserting the largest key appends it; deleting the smallest drops it. *)
Lemma bt_keys_insert_last m k v :
  (forall i, is_Some (m !! i) -> i < k) -> bt_keys (<[k := v]> m) = bt_keys m ++ [k].
Proof.
  intros Hk. apply sorted_ext; [apply bt_keys_sorted| |].
  - apply StronglySorted_app_2; [apply bt_keys_sorted|repeat constructor|].
    intros x y Hx%elem_of_bt_keys ->%list_elem_of_singleton. by apply Hk.
  - intros x. rewrite elem_of_app, !elem_of_bt_keys, lookup_insert_is_Some, list_elem_of_singleton.
    destruct (decide (x = k)); naive_solver.
Qed.

Lemma bt_keys_insert_id m k v :
  is_Some (m !! k) -> bt_keys (<[k := v]> m) = bt_keys m.
Proof.
  intros Hk. apply sorted_ext; [apply bt_keys_sorted..|].
  intros x. rewrite !elem_of_bt_keys, lookup_insert_is_Some.
  destruct (decide (k = x)); naive_solver.
Qed.

Lemma bt_keys_delete m k :
  bt_keys (delete k m) = filter (fun j => j ≠ k) (bt_keys m).
Proof.
  apply sorted_ext; [apply bt_keys_sorted|apply StronglySorted_filter, bt_keys_sorted|].
  intros x. rewrite list_elem_of_filter, !elem_of_bt_keys, lookup_delete_is_Some. naive_solver.
Qed.

Lemma bt_first_cons m k : bt_first m = Some k -> bt_keys m = k :: bt_keys (delete k m).
Proof.
  unfold bt_first. intros H. rewrite bt_keys_delete.
  pose proof (bt_keys_sorted m) as Hs.
  destruct (bt_keys m) as [|x l]; simplify_eq/=. inversion Hs as [|? ? Hs' HF]; simplify_eq.
  rewrite filter_cons_False by naive_solver. f_equal. symmetry. apply filter_app_all.
  rewrite Forall_forall in *. intros y Hy ->. specialize (HF k Hy). lia.
Qed.

(** Moving a cursor to the next or previous key drops exactly that key. *)
Lemma bt_next_cons k m j :
  bt_next k m = Some j -> bt_keys_after k m = j :: bt_keys_after j m.
Proof.
  intros (Hkj & Hj & Hmin)%bt_next_Some. apply sorted_ext.
  - apply StronglySorted_filter, bt_keys_sorted.
  - constructor; [apply StronglySorted_filter, bt_keys_sorted|].
    rewrite Forall_forall. by intros x [? _]%elem_of_keys_after.
  - intros x. rewrite elem_of_cons, !elem_of_keys_after. split.
    + intros [Hx Hs]. destruct (decide (x = j)); [by left|right].
      split; [|done]. specialize (Hmin x Hx Hs). lia.
    + intros [->|[Hx Hs]]; [done|]. split; [lia|done].
Qed.

Definition bt_keys_before (k : Z) m : list Z := filter (fun j => j < k) (bt_keys m).

Lemma bt_prev_snoc k m j :
  bt_prev k m = Some j -> bt_keys_before k m = bt_keys_before j m ++ [j].
Proof.
  intros (Hkj & Hj & Hmax)%bt_prev_Some. unfold bt_keys_before. apply sorted_ext.
  - apply StronglySorted_filter, bt_keys_sorted.
  - apply StronglySorted_app_2;
      [apply StronglySorted_filter, bt_keys_sorted|repeat constructor|].
    by intros x y [? _]%list_elem_of_filter ->%list_elem_of_singleton.
  - intros x. rewrite elem_of_app, !list_elem_of_filter, !elem_of_bt_keys, list_elem_of_singleton.
    split.
    + intros [Hx Hs]. destruct (decide (x = j)); [by right|left].
      split; [|done]. specialize (Hmax x Hx Hs). lia.
    + intros [[Hx Hs]| ->]; [|done]. split; [lia|done].
Qed.
End btree.
