(* ===== verification/Time.v ===== *)
(** * Clock arithmetic and deadlines

    [std::time::Duration] and [std::time::Instant] as nanosecond counts, and
    [crates/shelterwood-core/src/deadline.rs]: an absolute deadline, or one
    too distant to be armed. *)

From S2P Require Import Prelude.

(** ** Durations

    A [Duration] is a [u64] number of seconds and a nanosecond remainder below
    one billion; it is represented here by its total nanosecond count. *)
Module Duration.
Definition NANOS_PER_SEC : Z := 1000000000.
Definition ZERO : Z := 0.
Definition MAX : Z := u64_max * NANOS_PER_SEC + 999999999.
Definition valid (d : Z) : Prop := 0 <= d <= MAX.
Definition from_secs (s : Z) : Z := s * NANOS_PER_SEC.
Definition from_millis (ms : Z) : Z := ms * 1000000.
Definition is_zero (d : Z) : bool := d =? 0.

(** [Duration::new(seconds, nanos)] for a remainder below one billion. *)
Definition new (seconds nanos : Z) : Z := seconds * NANOS_PER_SEC + nanos.

(** [Ord::clamp]. *)
Definition clamp (d lo hi : Z) : Z := Z.max lo (Z.min d hi).
End Duration.

(** ** Instants

    The monotonic clock counts nanoseconds from an arbitrary origin up to a
    platform ceiling; only additions are ceiling-checked. *)
Class Clock := { instant_max : Z }.

(** The 64-bit Unix clock: [i64] seconds and a nanosecond remainder. *)
Definition unix_clock : Clock :=
  {| instant_max := (2 ^ 63 - 1) * Duration.NANOS_PER_SEC + 999999999 |}.

Module Instant.
Section with_clock.
Context {clock : Clock}.

Definition representable (i : Z) : Prop := i <= instant_max.

Definition checked_add (i d : Z) : option Z :=
  if i + d <=? instant_max then Some (i + d) else None.

Definition checked_duration_since (later earlier : Z) : option Z :=
  if earlier <=? later then Some (later - earlier) else None.

Definition saturating_duration_since (later earlier : Z) : Z :=
  Z.max 0 (later - earlier).
End with_clock.
End Instant.

(** ** [DeadlineBudget] *)
Module DeadlineBudget.
Record t := new { duration : Z }.
Definition ZERO : t := new Duration.ZERO.
Definition is_zero (b : t) : bool := Duration.is_zero (duration b).
End DeadlineBudget.

(** ** [Deadline] *)
Module Deadline.
Section with_clock.
Context {clock : Clock}.

Record t := mk { instant : option Z }.

Definition ARMING_HEADROOM : Z := Duration.from_secs 1.

Definition at_ (i : Z) : t :=
  mk ((fun _ => i) <$> Instant.checked_add i ARMING_HEADROOM).

Definition after (started_at duration : Z) : t :=
  match Instant.checked_add started_at duration with
  | None => mk None
  | Some i => if Duration.is_zero duration then mk (Some i) else at_ i
  end.

Definition after_budget (started_at : Z) (budget : DeadlineBudget.t) : t :=
  after started_at (DeadlineBudget.duration budget).

Definition is_due (d : t) (now : Z) : bool :=
  is_some_and (instant d) (fun deadline => now >=? deadline).

Definition is_overdue (d : t) (now : Z) : bool :=
  is_some_and (instant d) (fun deadline => now >? deadline).

(** The budget can be handed to the timer: it is zero, or its end leaves
    the arming headroom below the clock ceiling. *)
Definition armable (started_at duration : Z) : Prop :=
  started_at + duration <= instant_max /\
  (duration = 0 \/ started_at + duration + ARMING_HEADROOM <= instant_max).

#[export] Instance armable_dec s d : Decision (armable s d).
Proof. unfold armable. apply _. Defined.

Lemma after_spec started_at duration :
  instant (after started_at duration) =
  if decide (armable started_at duration)
  then Some (started_at + duration) else None.
Proof.
  unfold after, at_, Instant.checked_add, Duration.is_zero, armable.
  destruct (_ <=? _) eqn:E1; simpl; [destruct (duration =? 0) eqn:E2; simpl|];
    [| destruct (_ + ARMING_HEADROOM <=? _) eqn:E3; simpl |];
    zreflect; case_decide; done || lia.
Qed.

Lemma after_exact started_at duration i :
  instant (after started_at duration) = Some i -> i = started_at + duration.
Proof. rewrite after_spec. case_decide; naive_solver. Qed.

Lemma after_zero started_at :
  started_at <= instant_max ->
  instant (after started_at 0) = Some started_at.
Proof.
  intros. rewrite after_spec. rewrite decide_True; [f_equal; lia|].
  unfold armable. lia.
Qed.

Lemma is_due_iff d now :
  is_due d now = true <-> exists i, instant d = Some i /\ i <= now.
Proof.
  unfold is_due. rewrite is_some_and_true.
  split; intros (i & ? & ?); exists i; split; try done; by apply Z.geb_le.
Qed.
End with_clock.
End Deadline.
