(* ===== verification/Identity.v ===== *)
(** * Identity

    [crates/shelterwood-core/src/identity.rs]: the abort-at-the-limit
    counters, membership fences, incarnations, and the identity domain of one
    scope ([ScopeIdentity]).  [NEXT_LINEAGE], a process-wide static, is passed
    explicitly. *)

From S2P Require Import Prelude.

(** ** Counters *)

(** [exhausted]: the one overflow branch of every identity counter. *)
Definition exhausted {A} : outcome A := ProcessAborts.

Module MonotonicCounter.
Record t := from_current { current : Z }.
Definition new : t := from_current 0.

Definition successor (current : Z) : outcome Z :=
  match checked_add_u64 current 1 with
  | Some next => Ret next
  | None => exhausted
  end.

Definition mint (c : t) : outcome (Z * t) :=
  next ← successor (current c);
  Ret (next, from_current next).

(** [n] consecutive mints. *)
Fixpoint mint_n (n : nat) (c : t) : outcome (list Z * t) :=
  match n with
  | O => Ret ([], c)
  | S n =>
      '(k, c) ← mint c;
      '(ks, c) ← mint_n n c;
      Ret (k :: ks, c)
  end.
End MonotonicCounter.

(** [AtomicMonotonicCounter::mint]: the compare-and-swap loop is one atomic
    read-modify-write, and the counter is left untouched at the limit. *)
Module AtomicMonotonicCounter.
Record t := mk { value : Z }.
Definition new : t := mk 0.
Definition load (c : t) : Z := value c.

(** [try_update(|current| current.checked_add(1))]: the previous value and
    the stored state. *)
Definition try_update (c : t) : option Z * t :=
  match checked_add_u64 (value c) 1 with
  | Some next => (Some (value c), mk next)
  | None => (None, c)
  end.

Definition mint (c : t) : outcome (Z * t) :=
  match try_update c with
  | (Some previous, c') => Ret (previous + 1, c')
  | (None, _) => exhausted
  end.
End AtomicMonotonicCounter.

Lemma successor_Ret c n :
  MonotonicCounter.successor c = Ret n <-> n = c + 1 /\ c + 1 <= u64_max.
Proof.
  unfold MonotonicCounter.successor, checked_add_u64.
  destruct (_ <=? _) eqn:E; zreflect; naive_solver lia.
Qed.

Lemma successor_Abort c :
  MonotonicCounter.successor c = ProcessAborts <-> u64_max < c + 1.
Proof.
  unfold MonotonicCounter.successor, checked_add_u64, exhausted.
  destruct (_ <=? _) eqn:E; zreflect; naive_solver lia.
Qed.

Lemma mint_Ret c k c' :
  MonotonicCounter.mint c = Ret (k, c') <->
  k = MonotonicCounter.current c + 1 /\ k <= u64_max /\
  c' = MonotonicCounter.from_current k.
Proof.
  unfold MonotonicCounter.mint, mbind, outcome_bind.
  destruct (MonotonicCounter.successor _) eqn:E;
    [apply successor_Ret in E as [-> ?]| |apply successor_Abort in E];
    [naive_solver lia| |naive_solver lia].
  unfold MonotonicCounter.successor, exhausted in E. by destruct (checked_add_u64 _ _).
Qed.

Lemma atomic_mint_Ret c k c' :
  AtomicMonotonicCounter.mint c = Ret (k, c') <->
  k = AtomicMonotonicCounter.value c + 1 /\ k <= u64_max /\
  c' = AtomicMonotonicCounter.mk k.
Proof.
  unfold AtomicMonotonicCounter.mint, AtomicMonotonicCounter.try_update, checked_add_u64.
  destruct (_ <=? _) eqn:E; zreflect; naive_solver lia.
Qed.

(** ** Fences, memberships and incarnations *)

Record Generation := mkGeneration { generation_get : Z }.
Definition generation_supersedes (self other : Generation) : bool :=
  generation_get self >? generation_get other.

Record Lineage := mkLineage { lineage_get : Z }.

Record Fence := mkFence { lineage : Lineage; generation : Generation }.

#[export] Instance Generation_eq_dec : EqDecision Generation.
Proof. solve_decision. Defined.
#[export] Instance Lineage_eq_dec : EqDecision Lineage.
Proof. solve_decision. Defined.
#[export] Instance Fence_eq_dec : EqDecision Fence.
Proof. solve_decision. Defined.

Definition fence_supersedes (self other : Fence) : bool :=
  bool_decide (lineage self = lineage other) &&
  generation_supersedes (generation self) (generation other).

Record Membership := mkMembership { fence : Fence }.
#[export] Instance Membership_eq_dec : EqDecision Membership.
Proof. solve_decision. Defined.
#[export] Program Instance Membership_countable : Countable Membership :=
  inj_countable'
    (fun m => (lineage_get (lineage (fence m)), generation_get (generation (fence m))))
    (fun p => mkMembership (mkFence (mkLineage p.1) (mkGeneration p.2))) _.
Next Obligation. by intros [[[] []]]. Qed.

Definition membership_supersedes (self other : Membership) : bool :=
  fence_supersedes (fence self) (fence other).

Record Incarnation := mkIncarnation
  { incarnation_membership : Membership; incarnation_generation : Generation }.
#[export] Instance Incarnation_eq_dec : EqDecision Incarnation.
Proof. solve_decision. Defined.

Definition incarnation_supersedes (self other : Incarnation) : bool :=
  bool_decide (incarnation_membership self = incarnation_membership other) &&
  generation_supersedes (incarnation_generation self) (incarnation_generation other).

(** ** [FenceCounter] and [IncarnationCounter] *)

Module FenceCounter.
Record t := mk { lineage : Lineage; generations : MonotonicCounter.t }.

Definition new (l : Lineage) : t := mk l MonotonicCounter.new.

Definition from_fence (f : Fence) : t :=
  match f with
  | mkFence l g => mk l (MonotonicCounter.from_current (generation_get g))
  end.

Definition mint (c : t) : outcome (Fence * t) :=
  '(g, gs) ← MonotonicCounter.mint (generations c);
  Ret (mkFence (lineage c) (mkGeneration g), mk (lineage c) gs).

Definition issued (c : t) : Fence :=
  mkFence (lineage c) (mkGeneration (MonotonicCounter.current (generations c))).
End FenceCounter.

Module IncarnationCounter.
Record t := mk { membership : Membership; generations : MonotonicCounter.t }.

Definition mint (c : t) : outcome (Incarnation * t) :=
  '(g, gs) ← MonotonicCounter.mint (generations c);
  Ret (mkIncarnation (membership c) (mkGeneration g), mk (membership c) gs).
End IncarnationCounter.

(** ** Grants *)

Definition ChildId := string.

Record ProvisionalMembership := mkProvisional
  { provisional_id : ChildId; provisional_membership : Membership }.

Module MintedMembership.
Record t := mk
  { provisional : ProvisionalMembership; incarnation_counter : IncarnationCounter.t }.

Definition new (id : ChildId) (m : Membership) : t :=
  mk (mkProvisional id m) (IncarnationCounter.mk m MonotonicCounter.new).

Definition id (m : t) : ChildId := provisional_id (provisional m).

Definition into_pair (m : t) : Membership * IncarnationCounter.t :=
  (provisional_membership (provisional m), incarnation_counter m).

Definition into_provisional_parts (m : t)
  : Membership * ProvisionalMembership * IncarnationCounter.t :=
  (provisional_membership (provisional m), provisional m, incarnation_counter m).
End MintedMembership.

Inductive MembershipReconciliation :=
| Adopted
| Minted (m : MintedMembership.t).

(** ** [ScopeIdentity] *)

Module ScopeIdentity.
Record t := mk { memberships : gmap ChildId FenceCounter.t }.

Definition new : t := mk ∅.

Definition fresh_counter (next_lineage : AtomicMonotonicCounter.t)
  : outcome (FenceCounter.t * AtomicMonotonicCounter.t) :=
  '(l, next_lineage) ← AtomicMonotonicCounter.mint next_lineage;
  Ret (FenceCounter.new (mkLineage l), next_lineage).

Definition mint_membership (next_lineage : AtomicMonotonicCounter.t) (s : t)
    (id : ChildId) : outcome (MintedMembership.t * AtomicMonotonicCounter.t * t) :=
  '(f, next_lineage, c) ←
    match memberships s !! id with
    | Some entry =>
        '(f, c) ← FenceCounter.mint entry; Ret (f, next_lineage, c)
    | None =>
        '(entry, next_lineage) ← fresh_counter next_lineage;
        '(f, c) ← FenceCounter.mint entry; Ret (f, next_lineage, c)
    end;
  Ret (MintedMembership.new id (mkMembership f), next_lineage,
       mk (<[id := c]> (memberships s))).

Definition adopt_or_mint_membership (s : t) (provisional : ProvisionalMembership)
    : outcome (MembershipReconciliation * t) :=
  let id := provisional_id provisional in
  match memberships s !! id with
  | Some entry =>
      '(f, c) ← FenceCounter.mint entry;
      Ret (Minted (MintedMembership.new id (mkMembership f)),
           mk (<[id := c]> (memberships s)))
  | None =>
      Ret (Adopted,
           mk (<[id := FenceCounter.from_fence
                         (fence (provisional_membership provisional))]>
               (memberships s)))
  end.

Definition evict (s : t) (id : ChildId) (m : Membership) : t :=
  match memberships s !! id with
  | None => s
  | Some entry =>
      if decide (FenceCounter.issued entry = fence m)
      then mk (delete id (memberships s))
      else s
  end.
End ScopeIdentity.

(** ** Counter theorems *)

(** [n] consecutive mints return exactly the next [n] integers, in
    order; when the range would pass [u64::MAX] the process aborts instead of
    wrapping. *)
Theorem mint_n_exact (n : nat) (c : Z) :
  MonotonicCounter.mint_n n (MonotonicCounter.from_current c) =
  if decide (n = 0%nat \/ c + Z.of_nat n <= u64_max)
  then Ret (seqZ (c + 1) (Z.of_nat n), MonotonicCounter.from_current (c + Z.of_nat n))
  else ProcessAborts.
Proof.
  revert c. induction n as [|n IH]; intros c.
  { rewrite decide_True by auto. simpl. do 3 f_equal; lia. }
  simpl MonotonicCounter.mint_n. destruct (decide (c + 1 <= u64_max)) as [Hc|Hc].
  - rewrite (proj2 (mint_Ret _ (c + 1) (MonotonicCounter.from_current (c + 1)))) by auto.
    simpl mbind. rewrite IH. repeat case_decide; simpl; try done; try lia.
    all: rewrite (seqZ_cons (c + 1)) by lia.
    all: replace (Z.pred (Z.of_nat (S n))) with (Z.of_nat n) by lia.
    all: replace (Z.succ (c + 1)) with (c + 1 + 1) by lia.
    all: by replace (c + 1 + Z.of_nat n) with (c + Z.of_nat (S n)) by lia.
  - rewrite decide_False by lia. unfold MonotonicCounter.mint. simpl.
    by rewrite (proj2 (successor_Abort c)) by lia.
Qed.

(** ** Supersession is a strict partial order, total on one lineage *)

Lemma generation_supersedes_lt a b :
  generation_supersedes a b = true <-> generation_get b < generation_get a.
Proof. apply Z.gtb_lt. Qed.

Lemma fence_supersedes_spec a b :
  fence_supersedes a b = true <->
  lineage a = lineage b /\ generation_get (generation b) < generation_get (generation a).
Proof.
  unfold fence_supersedes.
  by rewrite andb_true_iff, bool_decide_eq_true, generation_supersedes_lt.
Qed.

Lemma membership_supersedes_spec a b :
  membership_supersedes a b = true <->
  lineage (fence a) = lineage (fence b) /\
  generation_get (generation (fence b)) < generation_get (generation (fence a)).
Proof. apply fence_supersedes_spec. Qed.

Lemma membership_supersedes_irrefl a : membership_supersedes a a = false.
Proof. apply not_true_iff_false. rewrite membership_supersedes_spec. lia. Qed.

Lemma membership_supersedes_trans a b c :
  membership_supersedes a b = true -> membership_supersedes b c = true ->
  membership_supersedes a c = true.
Proof. rewrite !membership_supersedes_spec. intuition (congruence || lia). Qed.

Lemma fence_ext (a b : Fence) :
  lineage a = lineage b -> generation_get (generation a) = generation_get (generation b) -> a = b.
Proof. destruct a as [[] []], b as [[] []]; simpl. congruence. Qed.

Lemma incarnation_supersedes_spec a b :
  incarnation_supersedes a b = true <->
  incarnation_membership a = incarnation_membership b /\
  generation_get (incarnation_generation b) < generation_get (incarnation_generation a).
Proof.
  unfold incarnation_supersedes.
  by rewrite andb_true_iff, bool_decide_eq_true, generation_supersedes_lt.
Qed.

(** ** Histories of one scope's identity domain

    The world is the process-wide lineage counter, one scope's domain and the
    memberships that domain has handed out, newest first.  Other scopes may
    mint lineages at any time ([foreign_lineage]).  Adopting a provisional
    membership requires the linearity the token carries: its lineage was
    minted already and has never been used in this scope. *)
Record world := mkWorld
  { next_lineage : AtomicMonotonicCounter.t;
    domain : ScopeIdentity.t;
    history : list Membership }.

Definition initial_world (n : Z) : world :=
  mkWorld (AtomicMonotonicCounter.mk n) ScopeIdentity.new [].

Definition minted_membership (m : MintedMembership.t) : Membership :=
  provisional_membership (MintedMembership.provisional m).

Inductive identity_step : world -> world -> Prop :=
| step_mint id nl s h m nl' s' :
    ScopeIdentity.mint_membership nl s id = Ret (m, nl', s') ->
    identity_step (mkWorld nl s h) (mkWorld nl' s' (minted_membership m :: h))
| step_reconcile_minted p nl s h m s' :
    ScopeIdentity.adopt_or_mint_membership s p = Ret (Minted m, s') ->
    identity_step (mkWorld nl s h) (mkWorld nl s' (minted_membership m :: h))
| step_adopted p nl s h s' :
    ScopeIdentity.adopt_or_mint_membership s p = Ret (Adopted, s') ->
    lineage_get (lineage (fence (provisional_membership p)))
      <= AtomicMonotonicCounter.value nl ->
    Forall (fun m => lineage (fence m) ≠ lineage (fence (provisional_membership p))) h ->
    identity_step (mkWorld nl s h) (mkWorld nl s' (provisional_membership p :: h))
| step_evict id m nl s h :
    identity_step (mkWorld nl s h) (mkWorld nl (ScopeIdentity.evict s id m) h)
| step_foreign_lineage nl l nl' s h :
    AtomicMonotonicCounter.mint nl = Ret (l, nl') ->
    identity_step (mkWorld nl s h) (mkWorld nl' s h).

(** Newer memberships of a lineage supersede the older ones. *)
Definition ordered_history : list Membership -> Prop :=
  StronglySorted (fun newer older =>
    lineage (fence newer) = lineage (fence older) ->
    membership_supersedes newer older = true).

Record identity_inv (w : world) : Prop := {
  inv_lineage_bound m :
    m ∈ history w ->
    lineage_get (lineage (fence m)) <= AtomicMonotonicCounter.value (next_lineage w);
  inv_tracked_issued id c :
    ScopeIdentity.memberships (domain w) !! id = Some c ->
    mkMembership (FenceCounter.issued c) ∈ history w;
  inv_tracked_newest id c m :
    ScopeIdentity.memberships (domain w) !! id = Some c -> m ∈ history w ->
    lineage (fence m) = FenceCounter.lineage c ->
    generation_get (generation (fence m)) <= MonotonicCounter.current (FenceCounter.generations c);
  inv_lineages_distinct id1 id2 c1 c2 :
    ScopeIdentity.memberships (domain w) !! id1 = Some c1 ->
    ScopeIdentity.memberships (domain w) !! id2 = Some c2 ->
    FenceCounter.lineage c1 = FenceCounter.lineage c2 -> id1 = id2;
  inv_ordered : ordered_history (history w)
}.

Lemma fence_mint_Ret c f c' :
  FenceCounter.mint c = Ret (f, c') <->
  f = FenceCounter.issued c' /\ FenceCounter.lineage c' = FenceCounter.lineage c /\
  MonotonicCounter.current (FenceCounter.generations c')
    = MonotonicCounter.current (FenceCounter.generations c) + 1 /\
  MonotonicCounter.current (FenceCounter.generations c') <= u64_max.
Proof.
  unfold FenceCounter.mint. split.
  - intros ((g & gs) & (-> & ? & ->)%mint_Ret & [= <- <-])%bind_Ret_inv. done.
  - destruct c' as [l' [cur]]; simpl. intros (-> & -> & -> & ?).
    rewrite (proj2 (mint_Ret _ _ (MonotonicCounter.from_current _))) by eauto. done.
Qed.

(** The two ways a domain grows: a tracked id mints its successor, or an
    untracked id starts a lineage never used before in this scope. *)
Lemma grow_tracked_inv nl s h id c f c' :
  identity_inv (mkWorld nl s h) ->
  ScopeIdentity.memberships s !! id = Some c -> FenceCounter.mint c = Ret (f, c') ->
  identity_inv (mkWorld nl
    (ScopeIdentity.mk (<[id := c']> (ScopeIdentity.memberships s))) (mkMembership f :: h)).
Proof.
  intros [Hb Hi Hn Hd Ho] Hid (-> & Hl & Hg & _)%fence_mint_Ret; simpl in *.
  split; simpl.
  - intros m [->|Hm]%elem_of_cons; [|auto]. specialize (Hb _ (Hi _ _ Hid)). simpl in Hb.
    simpl. by rewrite Hl.
  - intros id' c0. rewrite lookup_insert. case_decide; [intros [= <-]; left|right; eauto].
  - intros id' c0 m. rewrite lookup_insert, elem_of_cons. case_decide as He.
    + intros [= <-] [->|Hm] Hlm; simpl; [lia|]. rewrite Hl in Hlm.
      specialize (Hn _ _ _ Hid Hm Hlm). lia.
    + intros Hc0 [->|Hm] Hlm; simpl in *; [|eauto]. destruct He.
      eapply Hd; eauto. congruence.
  - intros id1 id2 c1 c2. rewrite !lookup_insert. repeat case_decide; simplify_eq; [done|..];
      intros; simplify_eq; (symmetry + idtac); eapply Hd; eauto; congruence.
  - constructor; [done|]. rewrite Forall_forall. intros m Hm Hlm.
    rewrite membership_supersedes_spec. split; [done|]. simpl in *.
    specialize (Hn id c m Hid Hm). rewrite Hl in Hlm. specialize (Hn (eq_sym Hlm)). lia.
Qed.

Lemma grow_fresh_inv nl nl' s h id c :
  identity_inv (mkWorld nl s h) ->
  AtomicMonotonicCounter.value nl <= AtomicMonotonicCounter.value nl' ->
  lineage_get (FenceCounter.lineage c) <= AtomicMonotonicCounter.value nl' ->
  Forall (fun m => lineage (fence m) ≠ FenceCounter.lineage c) h ->
  identity_inv (mkWorld nl'
    (ScopeIdentity.mk (<[id := c]> (ScopeIdentity.memberships s)))
    (mkMembership (FenceCounter.issued c) :: h)).
Proof.
  intros [Hb Hi Hn Hd Ho] Hnl Hl Hf; simpl in *. rewrite Forall_forall in Hf.
  assert (Hfresh : forall id' c0, ScopeIdentity.memberships s !! id' = Some c0 ->
            FenceCounter.lineage c0 ≠ FenceCounter.lineage c).
  { intros id' c0 H. by apply (Hf _ (Hi _ _ H)). }
  split; simpl.
  - intros m [->|Hm]%elem_of_cons; [done|]. specialize (Hb _ Hm). lia.
  - intros id' c0. rewrite lookup_insert. case_decide; [intros [= <-]; left|right; eauto].
  - intros id' c0 m. rewrite lookup_insert, elem_of_cons. case_decide as He.
    + intros [= <-] [->|Hm] Hlm; simpl; [lia|]. by destruct (Hf _ Hm).
    + intros Hc0 [->|Hm] Hlm; simpl in *; [|eauto]. by destruct (Hfresh _ _ Hc0).
  - intros id1 id2 c1 c2. rewrite !lookup_insert. repeat case_decide; intros; simplify_eq;
      try done; [exfalso; eapply Hfresh; eauto..|eauto].
  - constructor; [done|]. rewrite Forall_forall. intros m Hm Hlm. by destruct (Hf _ Hm).
Qed.

Lemma identity_inv_initial n : identity_inv (initial_world n).
Proof. split; simpl; try done; [set_solver..|constructor]. Qed.

Lemma advance_lineage_inv nl nl' s h :
  identity_inv (mkWorld nl s h) ->
  AtomicMonotonicCounter.value nl <= AtomicMonotonicCounter.value nl' ->
  identity_inv (mkWorld nl' s h).
Proof.
  intros [Hb Hi Hn Hd Ho] Hle. split; simpl in *; eauto.
  intros m Hm. specialize (Hb m Hm). lia.
Qed.

Lemma evict_inv nl s h id m :
  identity_inv (mkWorld nl s h) -> identity_inv (mkWorld nl (ScopeIdentity.evict s id m) h).
Proof.
  intros [Hb Hi Hn Hd Ho]. unfold ScopeIdentity.evict.
  destruct (_ !! id) eqn:E; [case_decide|]; [|by split..].
  split; simpl in *; auto.
  - intros id' c []%lookup_delete_Some. eauto.
  - intros id' c m' []%lookup_delete_Some. eauto.
  - intros ???? []%lookup_delete_Some []%lookup_delete_Some. eauto.
Qed.

Lemma from_fence_issued f : FenceCounter.issued (FenceCounter.from_fence f) = f.
Proof. by destruct f as [[] []]. Qed.

Lemma identity_step_inv w w' : identity_inv w -> identity_step w w' -> identity_inv w'.
Proof.
  intros Hw Hs. destruct Hs as
    [id nl s h m nl' s' Hm|p nl s h m s' Hm|p nl s h s' Hm Hle Hf|id m nl s h|nl l nl' s h Hm].
  - apply bind_Ret_inv in Hm as ([[f nl1] c] & Hm & [= <- <- <-]). unfold minted_membership; simpl.
    destruct (_ !! id) as [entry|] eqn:E.
    + apply bind_Ret_inv in Hm as ([f1 c1] & Hm & [= <- <- <-]). by eapply grow_tracked_inv.
    + apply bind_Ret_inv in Hm as ([entry nl2] & Hm1 & Hm2).
      apply bind_Ret_inv in Hm2 as ([f1 c1] & (-> & Hl & _)%fence_mint_Ret & [= <- <- <-]).
      apply bind_Ret_inv in Hm1 as ([l nl3] & (-> & _ & ->)%atomic_mint_Ret & [= <- <-]).
      simpl in *. apply grow_fresh_inv with nl; simpl; rewrite ?Hl; simpl; [done|lia..|].
      rewrite Forall_forall. intros m Hm Heq. pose proof (inv_lineage_bound _ Hw m Hm) as Hb.
      rewrite Heq in Hb. simpl in Hb. lia.
  - unfold ScopeIdentity.adopt_or_mint_membership in Hm.
    destruct (_ !! _) as [entry|] eqn:E; [|done].
    apply bind_Ret_inv in Hm as ([f1 c1] & Hm & [= <- <-]). by eapply grow_tracked_inv.
  - unfold ScopeIdentity.adopt_or_mint_membership in Hm.
    destruct (_ !! _) as [entry|] eqn:E.
    { by apply bind_Ret_inv in Hm as ([f1 c1] & ? & ?). }
    simplify_eq. destruct p as [id [f]]; simpl in *. rewrite <- (from_fence_issued f) at 2.
    destruct f as [l g]. by apply grow_fresh_inv with nl.
  - by apply evict_inv.
  - apply atomic_mint_Ret in Hm as (-> & _ & ->). eapply advance_lineage_inv; [done|simpl; lia].
Qed.

Lemma identity_reachable_inv n w : rtc identity_step (initial_world n) w -> identity_inv w.
Proof.
  intros Hr. pose proof (identity_inv_initial n) as Hi. revert Hi.
  induction Hr; eauto using identity_step_inv.
Qed.

Lemma ordered_history_NoDup h : ordered_history h -> NoDup h.
Proof.
  induction 1 as [|m h Hs IH HF]; constructor; [|done].
  intros Hin. rewrite Forall_forall in HF. specialize (HF m Hin eq_refl).
  by rewrite membership_supersedes_irrefl in HF.
Qed.

(** Along every history of a scope's identity domain - mints,
    reconciliations, evictions, and lineages minted elsewhere in the process -
    no membership is ever issued twice, and of two memberships of one lineage
    the later one supersedes the earlier one. *)
Theorem memberships_never_reused n w :
  rtc identity_step (initial_world n) w ->
  NoDup (history w) /\ ordered_history (history w).
Proof.
  intros Hw%identity_reachable_inv. split; [|apply Hw].
  apply ordered_history_NoDup, Hw.
Qed.

(** Once the membership a scope currently tracks for an id is
    evicted, the next mint for that id starts a lineage no earlier membership
    of the scope belongs to, so it is incomparable with all of them. *)
Theorem remint_after_evict_incomparable n w id c m nl' s' :
  rtc identity_step (initial_world n) w ->
  ScopeIdentity.memberships (domain w) !! id = Some c ->
  ScopeIdentity.mint_membership (next_lineage w)
    (ScopeIdentity.evict (domain w) id (mkMembership (FenceCounter.issued c))) id
    = Ret (m, nl', s') ->
  forall old, old ∈ history w ->
    membership_supersedes (minted_membership m) old = false /\
    membership_supersedes old (minted_membership m) = false.
Proof.
  intros Hw%identity_reachable_inv Hc Hm old Hold.
  unfold ScopeIdentity.evict in Hm. rewrite Hc, decide_True in Hm by done.
  apply bind_Ret_inv in Hm as ([[f nl1] c'] & Hm & [= <- <- <-]). simpl in *.
  rewrite lookup_delete_eq in Hm.
  apply bind_Ret_inv in Hm as ([entry nl2] & Hm1 & Hm2).
  apply bind_Ret_inv in Hm2 as ([f1 c1] & (-> & Hl & _)%fence_mint_Ret & [= <- <- <-]).
  apply bind_Ret_inv in Hm1 as ([l nl3] & (-> & _ & ->)%atomic_mint_Ret & [= <- <-]).
  pose proof (inv_lineage_bound _ Hw old Hold) as Hb. unfold minted_membership. simpl in *.
  split; apply not_true_iff_false; rewrite membership_supersedes_spec; simpl;
    rewrite Hl; simpl; intros [He _]; [rewrite <- He in Hb|rewrite He in Hb]; simpl in Hb; lia.
Qed.

(** A scope mints [worker] twice, evicts it and mints it again. *)
Definition demo_mint (w : world) (id : ChildId) : world :=
  match ScopeIdentity.mint_membership (next_lineage w) (domain w) id with
  | Ret (m, nl, s) => mkWorld nl s (minted_membership m :: history w)
  | _ => w
  end.

Definition demo_world : world := demo_mint (demo_mint (initial_world 0) "worker") "worker".

Lemma demo_world_reachable : rtc identity_step (initial_world 0) demo_world.
Proof.
  eapply rtc_l; [apply (step_mint "worker"); reflexivity|].
  apply rtc_once, (step_mint "worker"). reflexivity.
Qed.

Lemma memberships_never_reused_witness :
  length (history demo_world) = 2%nat /\ NoDup (history demo_world) /\
  ordered_history (history demo_world).
Proof.
  split; [reflexivity|]. exact (memberships_never_reused 0 demo_world demo_world_reachable).
Defined.

Lemma remint_after_evict_incomparable_witness :
  exists m old, old ∈ history demo_world /\
    membership_supersedes (minted_membership m) old = false /\
    membership_supersedes old (minted_membership m) = false.
Proof.
  eexists _, (mkMembership (mkFence (mkLineage 1) (mkGeneration 2))).
  split; [by left|].
  eapply (remint_after_evict_incomparable 0 demo_world "worker");
    [exact demo_world_reachable|reflexivity|reflexivity|by left].
Defined.
