(* ===== verification/Exit.v ===== *)
(** * Exits and stop reasons

    [crates/shelterwood-core/src/exit.rs]: structured child exits, their
    provenance-based equality, the stop-reason lattice, and the folds that
    reconcile competing evidence about one incarnation. *)

From S2P Require Import Prelude Time Identity.

(** ** Data *)

Inductive Cancellation := NotObserved | Observed.
Inductive GracePhase := WithinGrace | AfterGrace.
#[export] Instance Cancellation_eq_dec : EqDecision Cancellation.
Proof. solve_decision. Defined.
#[export] Instance GracePhase_eq_dec : EqDecision GracePhase.
Proof. solve_decision. Defined.

Record IntensityTrip := mkIntensityTrip
  { max_restarts : Z; observed_restarts : Z; within : Z }.
#[export] Instance IntensityTrip_eq_dec : EqDecision IntensityTrip.
Proof. solve_decision. Defined.

(** A type-erased user error, seen through the text it displays. *)
Record DynError := mkDynError { display : string }.

(** The allocation behind an [Arc<ExitErrorInner>] has an address; cloning an
    [ExitError] copies the address. *)
Definition Address := Z.

Inductive ExitKind :=
| Completed
| Failed (error : ExitError)
| Panicked (message : option string)
| ReadinessTimedOut (deadline : Z)
| Aborted (phase : GracePhase)
| NeverStarted
with Exit := mkExit (kind : ExitKind) (cancellation : Cancellation)
with ExitError := mkExitError (address : Address) (inner : ExitErrorInner)
with ExitErrorInner :=
| Application (error : DynError)
| StructuredIntensityTrip (trip : IntensityTrip)
| StructuredStartupFailure (failure : StartupFailure)
with StartupFailure := mkStartupFailure (cause : StartupFailureCause)
with StartupFailureCause :=
| CauseChild (id : ChildId) (membership : Membership) (exit : Exit)
| CauseLowering (undefined : list ChildId).

Definition exit_kind (e : Exit) : ExitKind := let 'mkExit k _ := e in k.
Definition exit_cancellation (e : Exit) : Cancellation := let 'mkExit _ c := e in c.
Definition error_address (e : ExitError) : Address := let 'mkExitError a _ := e in a.
Definition error_inner (e : ExitError) : ExitErrorInner := let 'mkExitError _ i := e in i.
Definition failure_cause (f : StartupFailure) : StartupFailureCause :=
  let 'mkStartupFailure c := f in c.

Definition ExitResult := result unit ExitError.

Module StopReason.
Inductive t :=
| Finished
| ShutdownRequested
| IntensityTripped (trip : IntensityTrip)
| StartupFailed (failure : StartupFailure)
| NeverStarted.
End StopReason.

Module StopPrecedence.
Inductive t := Finished | IntensityTripped | StartupFailed | ShutdownRequested | NeverStarted.

(** Derived order: declaration order. *)
Definition discriminant (p : t) : Z :=
  match p with
  | Finished => 0 | IntensityTripped => 1 | StartupFailed => 2
  | ShutdownRequested => 3 | NeverStarted => 4
  end.
End StopPrecedence.

Inductive StartupError :=
| StartupError_StartupFailed (failure : StartupFailure)
| StartupError_IntensityTripped (trip : IntensityTrip)
| StartupError_ShutdownRequested.

(** ** Constructors of exits *)

Definition completed (c : Cancellation) : Exit := mkExit Completed c.
Definition failed (e : ExitError) (c : Cancellation) : Exit := mkExit (Failed e) c.
Definition panicked (m : option string) (c : Cancellation) : Exit := mkExit (Panicked m) c.
Definition readiness_timed_out (d : Z) (c : Cancellation) : Exit := mkExit (ReadinessTimedOut d) c.
Definition aborted (p : GracePhase) (c : Cancellation) : Exit := mkExit (Aborted p) c.
Definition never_started : Exit := mkExit NeverStarted NotObserved.

Definition is_failure (e : Exit) : bool :=
  match exit_kind e with Completed => false | _ => true end.

(** ** [ExitError]

    Every constructor allocates: the allocator hands out the next address. *)
Definition Allocator := Z.

Definition allocate (inner : ExitErrorInner) (next : Allocator) : ExitError * Allocator :=
  (mkExitError next inner, next + 1).

Definition message (m : string) : Allocator -> ExitError * Allocator :=
  allocate (Application (mkDynError m)).

(** The blanket [From<E: Error>] conversion erases every error, structured
    payload types included, as an application error. *)
Definition from_error (e : DynError) : Allocator -> ExitError * Allocator :=
  allocate (Application e).

Definition structured_intensity_trip_error (t : IntensityTrip)
  : Allocator -> ExitError * Allocator := allocate (StructuredIntensityTrip t).

Definition structured_startup_failure_error (f : StartupFailure)
  : Allocator -> ExitError * Allocator := allocate (StructuredStartupFailure f).

Definition intensity_trip (e : ExitError) : option IntensityTrip :=
  match error_inner e with
  | StructuredIntensityTrip t => Some t
  | Application _ | StructuredStartupFailure _ => None
  end.

Definition startup_failure (e : ExitError) : option StartupFailure :=
  match error_inner e with
  | StructuredStartupFailure f => Some f
  | Application _ | StructuredIntensityTrip _ => None
  end.

(** [Error::source] of a startup failure. *)
Definition startup_failure_source (f : StartupFailure) : option ExitErrorInner :=
  match failure_cause f with
  | CauseChild _ _ exit =>
      match exit_kind exit with
      | Failed error => Some (error_inner error)
      | _ => None
      end
  | CauseLowering _ => None
  end.

(** ** Stop reasons *)

Definition stop_reason_into_nested_result (reason : StopReason.t) (next : Allocator)
  : ExitResult * Allocator :=
  match reason with
  | StopReason.Finished | StopReason.ShutdownRequested => (Ok (), next)
  | StopReason.IntensityTripped trip =>
      let '(e, next) := structured_intensity_trip_error trip next in (Err e, next)
  | StopReason.StartupFailed failure =>
      let '(e, next) := structured_startup_failure_error failure next in (Err e, next)
  | StopReason.NeverStarted =>
      let '(e, next) := message "nested scope never started" next in (Err e, next)
  end.

Definition stop_reason_root_exit (reason : StopReason.t) (next : Allocator)
  : Exit * Allocator :=
  match reason with
  | StopReason.Finished => (completed NotObserved, next)
  | StopReason.ShutdownRequested => (completed Observed, next)
  | StopReason.IntensityTripped trip =>
      let '(e, next) := structured_intensity_trip_error trip next in
      (failed e NotObserved, next)
  | StopReason.StartupFailed failure =>
      let '(e, next) := structured_startup_failure_error failure next in
      (failed e NotObserved, next)
  | StopReason.NeverStarted => (never_started, next)
  end.

Definition stop_reason_precedence (reason : StopReason.t) : StopPrecedence.t :=
  match reason with
  | StopReason.Finished => StopPrecedence.Finished
  | StopReason.IntensityTripped _ => StopPrecedence.IntensityTripped
  | StopReason.StartupFailed _ => StopPrecedence.StartupFailed
  | StopReason.ShutdownRequested => StopPrecedence.ShutdownRequested
  | StopReason.NeverStarted => StopPrecedence.NeverStarted
  end.

(** Derived [Ord] on precedences. *)
Definition precedence_gtb (a b : StopPrecedence.t) : bool :=
  StopPrecedence.discriminant a >? StopPrecedence.discriminant b.

(** ** Equality *)

Definition exit_kind_eq (left right : ExitKind) : bool :=
  match left with
  | Completed => match right with Completed => true | _ => false end
  | Failed l => match right with
      | Failed r => error_address l =? error_address r | _ => false end
  | Panicked l => match right with
      | Panicked r => bool_decide (l = r) | _ => false end
  | ReadinessTimedOut l => match right with
      | ReadinessTimedOut r => l =? r | _ => false end
  | Aborted l => match right with
      | Aborted r => bool_decide (l = r) | _ => false end
  | NeverStarted => match right with NeverStarted => true | _ => false end
  end.

Definition exit_eq (self other : Exit) : bool :=
  bool_decide (exit_cancellation self = exit_cancellation other) &&
  exit_kind_eq (exit_kind self) (exit_kind other).

(** Derived equalities that reach an [Exit]. *)
Definition startup_failure_eq (a b : StartupFailure) : bool :=
  match failure_cause a, failure_cause b with
  | CauseChild i m e, CauseChild i' m' e' =>
      bool_decide (i = i') && bool_decide (m = m') && exit_eq e e'
  | CauseLowering u, CauseLowering u' => bool_decide (u = u')
  | _, _ => false
  end.

Definition stop_reason_eq (a b : StopReason.t) : bool :=
  match a, b with
  | StopReason.Finished, StopReason.Finished
  | StopReason.ShutdownRequested, StopReason.ShutdownRequested
  | StopReason.NeverStarted, StopReason.NeverStarted => true
  | StopReason.IntensityTripped t, StopReason.IntensityTripped t' => bool_decide (t = t')
  | StopReason.StartupFailed f, StopReason.StartupFailed f' => startup_failure_eq f f'
  | _, _ => false
  end.

(** ** Reconciling evidence *)

Inductive JoinOutcome :=
| JoinOk
| JoinPanic (message : option string)
| JoinCancelled.

Module RecordedOutcome.
Record t := mk { kind : ExitKind }.

Definition returned (r : ExitResult) : t :=
  mk (match r with Ok _ => Completed | Err e => Failed e end).
Definition readiness_timed_out (deadline : Z) : t := mk (ReadinessTimedOut deadline).
Definition aborted (phase : GracePhase) : t := mk (Aborted phase).
Definition into_kind (o : t) : ExitKind := kind o.
Definition is_failed (o : t) : bool :=
  match kind o with Failed _ => true | _ => false end.
End RecordedOutcome.

Module OutcomeRank.
Inductive t := NeverStarted | Completed | Aborted | Failed | ReadinessTimedOut | Panicked.
Definition discriminant (r : t) : Z :=
  match r with
  | NeverStarted => 0 | Completed => 1 | Aborted => 2
  | Failed => 3 | ReadinessTimedOut => 4 | Panicked => 5
  end.
Definition geb (a b : t) : bool := discriminant a >=? discriminant b.
End OutcomeRank.

Definition rank (kind : ExitKind) : OutcomeRank.t :=
  match kind with
  | Panicked _ => OutcomeRank.Panicked
  | ReadinessTimedOut _ => OutcomeRank.ReadinessTimedOut
  | Failed _ => OutcomeRank.Failed
  | Aborted _ => OutcomeRank.Aborted
  | Completed => OutcomeRank.Completed
  | NeverStarted => OutcomeRank.NeverStarted
  end.

Definition prefer_earlier (earlier later : ExitKind) : ExitKind * ExitKind :=
  if OutcomeRank.geb (rank earlier) (rank later) then (earlier, later) else (later, earlier).

Definition reconcile_recorded_outcomes (recorded forced : option RecordedOutcome.t)
  : option RecordedOutcome.t * option RecordedOutcome.t :=
  match recorded, forced with
  | Some recorded, Some forced =>
      let '(selected, discarded) :=
        prefer_earlier (RecordedOutcome.into_kind recorded) (RecordedOutcome.into_kind forced) in
      (Some (RecordedOutcome.mk selected), Some (RecordedOutcome.mk discarded))
  | Some recorded, None => (Some recorded, None)
  | None, Some forced => (Some forced, None)
  | None, None => (None, None)
  end.

Definition classify_exit (recorded : option RecordedOutcome.t) (join : JoinOutcome)
    (hard_abort_phase : option GracePhase) (cancellation : Cancellation)
  : Exit * option Exit :=
  let recorded_kind := RecordedOutcome.into_kind <$> recorded in
  let join_kind :=
    match join with
    | JoinOk => None
    | JoinPanic message => Some (Panicked message)
    | JoinCancelled => Some (Aborted (unwrap_or hard_abort_phase WithinGrace))
    end in
  let '(kind, discarded) :=
    match recorded_kind, join_kind with
    | Some recorded, Some join =>
        let '(selected, discarded) := prefer_earlier recorded join in
        (selected, Some discarded)
    | Some recorded, None => (recorded, None)
    | None, Some join => (join, None)
    | None, None => (Aborted WithinGrace, None)
    end in
  (mkExit kind cancellation, (fun kind => mkExit kind cancellation) <$> discarded).

Record ShutdownStraggler := mkStraggler
  { straggler_path : list ChildId; straggler_membership : Membership }.

(** ** Equality is an equivalence *)

Lemma exit_kind_eq_refl k : exit_kind_eq k k = true.
Proof. destruct k; simpl; rewrite ?Z.eqb_refl, ?bool_decide_eq_true; done. Qed.

Lemma exit_kind_eq_sym a b : exit_kind_eq a b = exit_kind_eq b a.
Proof.
  destruct a, b; simpl; try done; [apply Z.eqb_sym| |apply Z.eqb_sym|];
    apply bool_decide_ext; naive_solver.
Qed.

Lemma exit_kind_eq_trans a b c :
  exit_kind_eq a b = true -> exit_kind_eq b c = true -> exit_kind_eq a c = true.
Proof.
  destruct a, b; simpl; try done; destruct c; simpl; try done;
    rewrite ?Z.eqb_eq, ?bool_decide_eq_true; congruence.
Qed.

Lemma exit_eq_refl a : exit_eq a a = true.
Proof. unfold exit_eq. by rewrite exit_kind_eq_refl, bool_decide_true. Qed.

(** [Exit] equality, which compares failed payloads by allocation and
    everything else structurally, is reflexive, symmetric and transitive, as
    the [Eq] marker promises. *)
Theorem exit_eq_equivalence : Equivalence (fun a b => exit_eq a b = true).
Proof.
  split.
  - intros a. apply exit_eq_refl.
  - unfold exit_eq. intros a b.
    rewrite exit_kind_eq_sym, !andb_true_iff, !bool_decide_eq_true. naive_solver.
  - unfold exit_eq. intros a b c. rewrite !andb_true_iff, !bool_decide_eq_true.
    intros [-> ?] [-> ?]. eauto using exit_kind_eq_trans.
Qed.

Lemma startup_failure_eq_refl f : startup_failure_eq f f = true.
Proof.
  unfold startup_failure_eq. destruct (failure_cause f) as [i m e|u].
  - rewrite !bool_decide_true by done. apply exit_eq_refl.
  - by rewrite bool_decide_true.
Qed.

Lemma stop_reason_eq_refl r : stop_reason_eq r r = true.
Proof.
  destruct r; simpl; rewrite ?bool_decide_true; auto using startup_failure_eq_refl.
Qed.

(** ** Evidence folds *)

Lemma rank_geb_total a b :
  OutcomeRank.geb a b = false -> OutcomeRank.geb b a = true.
Proof. unfold OutcomeRank.geb. rewrite !Z.geb_leb. intros; zreflect. apply Z.leb_le. lia. Qed.

(** Reference: the earliest outcome of maximal rank. *)
Fixpoint strongest (evidence : list ExitKind) : option ExitKind :=
  match evidence with
  | [] => None
  | k :: rest =>
      match strongest rest with
      | None => Some k
      | Some k' => if OutcomeRank.geb (rank k) (rank k') then Some k else Some k'
      end
  end.

(** The kind a join contributes, if any. *)
Definition join_evidence (join : JoinOutcome) (phase : option GracePhase) : option ExitKind :=
  match join with
  | JoinOk => None
  | JoinPanic m => Some (Panicked m)
  | JoinCancelled => Some (Aborted (unwrap_or phase WithinGrace))
  end.

Definition recorded_evidence (o : option RecordedOutcome.t) : list ExitKind :=
  option_list (RecordedOutcome.kind <$> o).

Lemma perm3_132 {A} (a b c : A) : [a; b; c] ≡ₚ [a; c; b].
Proof. repeat constructor. Qed.
Lemma perm3_312 {A} (a b c : A) : [a; b; c] ≡ₚ [c; a; b].
Proof. apply (Permutation_app_comm [a; b] [c]). Qed.
Lemma perm3_231 {A} (a b c : A) : [a; b; c] ≡ₚ [b; c; a].
Proof. apply (Permutation_app_comm [a] [b; c]). Qed.
Lemma perm3_321 {A} (a b c : A) : [a; b; c] ≡ₚ [c; b; a].
Proof. etrans; [apply perm3_132|apply perm3_231]. Qed.
Create HintDb perm3.
#[local] Hint Resolve perm_swap perm3_132 perm3_312 perm3_231 perm3_321 : perm3.

(** Closes a goal whose rank comparisons are inconsistent. *)
Ltac rank_contradiction :=
  unfold OutcomeRank.geb in *; rewrite ?Z.geb_leb in *; zreflect; simpl in *; lia.

(** Folding the task's recorded outcome, the supervisor's forced outcome
    and the join verdict keeps exactly the earliest piece of evidence of
    maximal diagnostic rank, returns every other piece as discarded, and
    classifies an incarnation with no evidence as aborted within grace. *)
Theorem classify_reconciled_strongest recorded forced join phase c :
  let '(selected, lost1) := reconcile_recorded_outcomes recorded forced in
  let '(exit, lost2) := classify_exit selected join phase c in
  let evidence :=
    recorded_evidence recorded ++ recorded_evidence forced
      ++ option_list (join_evidence join phase) in
  exit_cancellation exit = c /\
  exit_kind exit = unwrap_or (strongest evidence) (Aborted WithinGrace) /\
  (evidence = [] \/
   evidence ≡ₚ exit_kind exit :: option_list (exit_kind <$> lost2) ++ recorded_evidence lost1).
Proof.
  destruct recorded as [[r]|], forced as [[f]|]; destruct join as [|m|];
    unfold reconcile_recorded_outcomes, classify_exit, prefer_earlier, recorded_evidence; simpl;
    repeat match goal with
    | |- context [if OutcomeRank.geb ?a ?b then _ else _] =>
        destruct (OutcomeRank.geb a b) eqn:?; simpl
    end; split_and!; try done; try (by left); try (by right);
    try (right; solve [auto with perm3]); rank_contradiction.
Qed.

(** A nested scope's stop reason projects to its parent as an error
    exactly when the root projection is a failure, and the structured reasons
    keep their payload: the parent reads back the same trip or failure. *)
Theorem stop_reason_projections_agree reason next :
  let '(nested, _) := stop_reason_into_nested_result reason next in
  let '(root, _) := stop_reason_root_exit reason next in
  (nested = Ok () <-> is_failure root = false) /\
  match reason, nested with
  | StopReason.IntensityTripped trip, Err e =>
      intensity_trip e = Some trip /\ startup_failure e = None
  | StopReason.StartupFailed failure, Err e =>
      startup_failure e = Some failure /\ intensity_trip e = None
  | StopReason.NeverStarted, Err e => intensity_trip e = None /\ startup_failure e = None
  | (StopReason.Finished | StopReason.ShutdownRequested), Ok _ => True
  | _, _ => False
  end.
Proof. destruct reason; simpl; naive_solver. Qed.

(** ** The precedence lattice *)

Lemma precedence_gtb_lt a b :
  precedence_gtb a b = true <->
  StopPrecedence.discriminant b < StopPrecedence.discriminant a.
Proof. apply Z.gtb_lt. Qed.

(** Joins a competing verdict into the current one: strictly greater wins. *)
Definition join_reason (current incoming : StopReason.t) : StopReason.t :=
  if precedence_gtb (stop_reason_precedence incoming) (stop_reason_precedence current)
  then incoming else current.

Definition reason_level (r : StopReason.t) : Z :=
  StopPrecedence.discriminant (stop_reason_precedence r).

Lemma join_reason_level a b : reason_level (join_reason a b) = Z.max (reason_level a) (reason_level b).
Proof.
  unfold join_reason, reason_level. destruct (precedence_gtb _ _) eqn:E.
  - apply precedence_gtb_lt in E. lia.
  - apply not_true_iff_false in E. rewrite precedence_gtb_lt in E. lia.
Qed.

Lemma join_reason_assoc a b c :
  join_reason (join_reason a b) c = join_reason a (join_reason b c).
Proof.
  unfold join_reason, precedence_gtb, stop_reason_precedence.
  destruct a, b, c; reflexivity.
Qed.

Lemma join_reason_idemp a : join_reason a a = a.
Proof. by destruct a. Qed.
