(* ===== verification/Float64.v ===== *)
(** * IEEE-754 binary64

    The [f64] operations the backoff arithmetic uses, over the Standard
    Library's specification floats.  Comparison is by exact value; addition,
    multiplication, division and integer conversion round to nearest, ties to
    even.  [f64::powi] has unspecified precision, so it is never defined here:
    its users take it as a parameter. *)

From Stdlib Require Export SpecFloat.
From S2P Require Import Prelude.

Definition f64 := spec_float.

Module F64.
Definition prec : Z := 53.
Definition emax : Z := 1024.

(** Integer to float, [n as f64]. *)
Definition of_Z (n : Z) : f64 := binary_normalize prec emax n 0 false.
Definition zero : f64 := S754_zero false.
Definition one : f64 := of_Z 1.
Definition mul : f64 -> f64 -> f64 := SFmul prec emax.
Definition add : f64 -> f64 -> f64 := SFadd prec emax.
Definition sub : f64 -> f64 -> f64 := SFsub prec emax.
Definition div : f64 -> f64 -> f64 := SFdiv prec emax.
Definition half : f64 := div one (of_Z 2).

(** [f64::EPSILON], 2^-52. *)
Definition EPSILON : f64 := div one (of_Z (2 ^ 52)).

Definition is_finite (x : f64) : bool :=
  match x with S754_zero _ | S754_finite _ _ _ => true | _ => false end.

(** Signed mantissa of a finite value scaled to exponent [e0 <= e]. *)
Definition scaled (s : bool) (m : positive) (e e0 : Z) : Z :=
  let v := Zpos m * 2 ^ (e - e0) in if s then - v else v.

(** Comparison of the exact values; [None] when an operand is NaN. *)
Definition compare (x y : f64) : option comparison :=
  match x, y with
  | S754_nan, _ | _, S754_nan => None
  | S754_infinity s, S754_infinity s' =>
      Some (if Bool.eqb s s' then Eq else if s then Lt else Gt)
  | S754_infinity s, _ => Some (if s then Lt else Gt)
  | _, S754_infinity s => Some (if s then Gt else Lt)
  | S754_zero _, S754_zero _ => Some Eq
  | S754_zero _, S754_finite s _ _ => Some (if s then Gt else Lt)
  | S754_finite s _ _, S754_zero _ => Some (if s then Lt else Gt)
  | S754_finite s m e, S754_finite s' m' e' =>
      let e0 := Z.min e e' in
      Some (Z.compare (scaled s m e e0) (scaled s' m' e' e0))
  end.

Definition ltb (x y : f64) : bool :=
  match compare x y with Some Lt => true | _ => false end.
Definition geb (x y : f64) : bool :=
  match compare x y with Some (Gt | Eq) => true | _ => false end.
Definition eqb (x y : f64) : bool :=
  match compare x y with Some Eq => true | _ => false end.

(** [f64::max]: the other operand when one is NaN. *)
Definition max (x y : f64) : f64 :=
  match x, y with
  | S754_nan, _ => y
  | _, S754_nan => x
  | _, _ => if ltb x y then y else x
  end.

(** [f64::clamp]. *)
Definition clamp (x lo hi : f64) : f64 :=
  let x := if ltb x lo then lo else x in
  if ltb hi x then hi else x.

(** [f64::round]: to the nearest integer, halves away from zero. *)
Definition round (x : f64) : f64 :=
  match x with
  | S754_finite s m e =>
      if 0 <=? e then x
      else
        let d := 2 ^ (- e) in
        let q := (2 * Zpos m + d) / (2 * d) in
        match q with
        | Zpos p => binary_normalize prec emax (if s then Zneg p else Zpos p) 0 s
        | _ => S754_zero s
        end
  | _ => x
  end.

Definition u128_max : Z := 2 ^ 128 - 1.

(** [x as u128]: truncates toward zero and saturates; NaN is zero. *)
Definition to_u128 (x : f64) : Z :=
  match x with
  | S754_nan | S754_zero _ | S754_infinity true | S754_finite true _ _ => 0
  | S754_infinity false => u128_max
  | S754_finite false m e =>
      Z.min u128_max (if 0 <=? e then Zpos m * 2 ^ e else Zpos m / 2 ^ (- e))
  end.

Lemma to_u128_bounds x : 0 <= to_u128 x <= u128_max.
Proof.
  unfold to_u128. assert (0 <= u128_max) by (unfold u128_max; lia).
  destruct x as [s|s| |s m e]; [lia|destruct s; lia|lia|].
  destruct s; [lia|]. split; [|lia]. apply Z.min_glb; [done|].
  destruct (0 <=? e) eqn:E; zreflect.
  - pose proof (Z.pow_nonneg 2 e). lia.
  - apply Z.div_pos; [lia|]. apply Z.pow_pos_nonneg; lia.
Qed.

(** A float strictly below a positive integral float truncates below it. *)
Lemma to_u128_lt x m e :
  0 <= e -> ltb x (S754_finite false m e) = true ->
  to_u128 x < Zpos m * 2 ^ e.
Proof.
  intros He Hlt. assert (0 < Zpos m * 2 ^ e) by (pose proof (Z.pow_pos_nonneg 2 e); lia).
  destruct x as [s|s| |s mx ex]; try (simpl; lia); [destruct s; simpl; [lia|done]|].
  destruct s; [simpl; lia|]. unfold ltb, compare, scaled in Hlt.
  destruct (Z.compare_spec (Zpos mx * 2 ^ (ex - Z.min ex e)) (Zpos m * 2 ^ (e - Z.min ex e)));
    try done. unfold to_u128. apply Z.min_lt_iff. right.
  destruct (0 <=? ex) eqn:Ex; zreflect.
  - assert (Hp : forall k, Z.min ex e <= k -> 2 ^ k = 2 ^ (k - Z.min ex e) * 2 ^ Z.min ex e).
    { intros k Hk. rewrite <- Z.pow_add_r by lia. f_equal. lia. }
    rewrite (Hp ex), (Hp e) by lia. pose proof (Z.pow_pos_nonneg 2 (Z.min ex e)). nia.
  - replace (Z.min ex e) with ex in * by lia. rewrite Z.sub_diag, Z.pow_0_r in *.
    apply Z.div_lt_upper_bound; [apply Z.pow_pos_nonneg; lia|].
    replace (e - ex) with (- ex + e) in * by lia. rewrite Z.pow_add_r in * by lia. nia.
Qed.

Lemma ltb_not_geb x y :
  is_finite x = true -> is_finite y = true -> geb x y = false -> ltb x y = true.
Proof.
  unfold geb, ltb. destruct x as [| | |s m e], y as [| | |s' m' e']; try done; simpl;
    repeat case_match; done.
Qed.
End F64.
