(* ===== verification/Policy.v ===== *)
(** * Policies

    [crates/shelterwood-core/src/policy.rs]: validated policy values, the
    backoff arithmetic, and the resolution of child options against the
    inherited scope defaults. *)

From S2P Require Import Prelude Time Exit Float64.

(** ** Enumerations *)

Inductive ScopeFlavor := Ordered | Dynamic.
Inductive ChildMode := Restartable | OneShot.
Inductive RestartCondition := Always | OnFailure | Never.
Inductive Jitter := JitterNone | JitterEqual.
Inductive Readiness := Immediate | AfterInit | Manual.
Inductive MailboxShutdown := Drain | Discard.
Inductive Retention := Retain | Remove.
Inductive Strategy := OneForOne.
Inductive DefaultsInheritance := InheritDefaults | ResetDefaults.
Inductive PolicyError :=
| ZeroDuration | ZeroCapacity | InvalidBackoffFactor
| BackoffMaximumBeforeBase | UnsupportedReadiness.

#[export] Instance ScopeFlavor_eq_dec : EqDecision ScopeFlavor.
Proof. solve_decision. Defined.
#[export] Instance ChildMode_eq_dec : EqDecision ChildMode.
Proof. solve_decision. Defined.
#[export] Instance Readiness_eq_dec : EqDecision Readiness.
Proof. solve_decision. Defined.

(** ** Saturating diagnostic counters *)

Module RestartAttempt.
Record t := mk { get : Z }.
Definition ZERO : t := mk 0.
Definition bump (a : t) : t := mk (saturating_add_u64 (get a) 1).
End RestartAttempt.

Module RestartCount.
Record t := mk { get : Z }.
Definition ZERO : t := mk 0.
Definition bump (a : t) : t := mk (saturating_add_u64 (get a) 1).
End RestartCount.

Module TotalRestarts.
Record t := mk { get : Z }.
Definition ZERO : t := mk 0.
Definition bump (a : t) : t := mk (saturating_add_u64 (get a) 1).
End TotalRestarts.

Definition DEFAULT_MAILBOX_CAPACITY : Z := 64.
Definition DEFAULT_SHUTDOWN_GRACE : Z := Duration.from_secs 5.
Definition DEFAULT_READINESS_DEADLINE : Z := Duration.from_secs 30.

(** ** Validated durations *)

Module NonZeroDuration.
Record t := seal { get : Z }.
Definition new (d : Z) : result t PolicyError :=
  if Duration.is_zero d then Err ZeroDuration else Ok (seal d).
Definition valid (d : t) : Prop := get d ≠ 0.
End NonZeroDuration.

(** ** Jitter samples and backoff factors *)

Module JitterSample.
Record t := seal { value : f64 }.
Definition new (v : f64) : t :=
  seal (if F64.is_finite v
        then F64.clamp v F64.zero (F64.sub F64.one F64.EPSILON)
        else F64.zero).
Definition from_u64_ratio (numerator denominator : Z) : t :=
  new (F64.div (F64.of_Z numerator) (F64.of_Z denominator)).
End JitterSample.

Module BackoffFactor.
Record t := seal { get : f64 }.
Definition validate (f : t) : result unit PolicyError :=
  if F64.is_finite (get f) && F64.geb (get f) F64.one
  then Ok () else Err InvalidBackoffFactor.
Definition new (v : f64) : result t PolicyError :=
  match validate (seal v) with
  | Ok _ => Ok (seal v)
  | Err e => Err e
  end.
End BackoffFactor.

(** ** Backoff *)

Record FixedBackoff := mkFixed { fixed_delay : Z; fixed_jitter : Jitter }.
Record ExponentialBackoff := mkExponential
  { base : Z; factor : BackoffFactor.t; max : Z; jitter : Jitter }.

Inductive Backoff :=
| BackoffImmediate
| Fixed (payload : FixedBackoff)
| Exponential (payload : ExponentialBackoff).

Definition fixed (delay : Z) (j : Jitter) : result Backoff PolicyError :=
  if Duration.is_zero delay then Err ZeroDuration
  else Ok (Fixed (mkFixed delay j)).

Definition exponential (b : Z) (f : BackoffFactor.t) (m : Z) (j : Jitter)
  : result Backoff PolicyError :=
  if Duration.is_zero b || Duration.is_zero m then Err ZeroDuration
  else if m <? b then Err BackoffMaximumBeforeBase
  else Ok (Exponential (mkExponential b f m j)).

Definition duration_nanos (d : Z) : f64 := F64.of_Z d.

(** [u64::try_from(n).expect(message)]. *)
Definition expect_u64 (n : Z) (message : string) : outcome Z :=
  if n <=? u64_max then Ret n else Panics message.
(** [u32::try_from(n).expect(message)]. *)
Definition expect_u32 (n : Z) (message : string) : outcome Z :=
  if n <=? 2 ^ 32 - 1 then Ret n else Panics message.

Definition half_duration (d : Z) : outcome Z :=
  let nanos := (d + 1) / 2 in
  seconds ← expect_u64 (nanos / 1000000000) "a halved delay fits the duration range";
  subsecond ← expect_u32 (nanos mod 1000000000) "nanosecond remainder is below one billion";
  Ret (Duration.new seconds subsecond).

Definition duration_from_nanos (nanos : f64) : outcome Z :=
  let rounded := F64.round nanos in
  if negb (F64.is_finite rounded) || F64.geb rounded (F64.of_Z Duration.MAX)
  then Ret Duration.MAX
  else
    let nanos := F64.to_u128 (F64.max rounded F64.zero) in
    seconds ← expect_u64 (nanos / 1000000000)
                "a bounded nanosecond count fits the duration range";
    subsecond ← expect_u32 (nanos mod 1000000000) "nanosecond remainder is below one billion";
    Ret (Duration.new seconds subsecond).

Section backoff.
(** [f64::powi], whose precision the standard library leaves unspecified. *)
Variable powi : f64 -> Z -> f64.

Definition exponential_delay (e : ExponentialBackoff) (attempt : Z) : outcome Z :=
  if (attempt =? 1) || F64.eqb (BackoffFactor.get (factor e)) F64.one
  then Ret (base e)
  else
    let exponent := Z.min (Z.max 0 (attempt - 1)) i32_max in
    let nanos := F64.mul (duration_nanos (base e))
                         (powi (BackoffFactor.get (factor e)) exponent) in
    if F64.ltb nanos (duration_nanos (max e))
    then duration_from_nanos nanos
    else Ret (max e).

Definition apply_jitter (j : Jitter) (delay : Z) (sample : JitterSample.t) : outcome Z :=
  match j with
  | JitterNone => Ret delay
  | JitterEqual =>
      let s := JitterSample.value sample in
      if F64.eqb s F64.zero then half_duration delay
      else
        d ← duration_from_nanos
              (F64.mul (duration_nanos delay) (F64.add F64.half (F64.mul s F64.half)));
        h ← half_duration delay;
        Ret (Z.max d h)
  end.

Definition next_delay (b : Backoff) (attempt : RestartAttempt.t) (sample : JitterSample.t)
  : outcome Z :=
  let attempt := Z.max (RestartAttempt.get attempt) 1 in
  match b with
  | BackoffImmediate => Ret Duration.ZERO
  | Fixed f =>
      delay ← apply_jitter (fixed_jitter f) (fixed_delay f) sample;
      Ret (Z.min delay (fixed_delay f))
  | Exponential e =>
      delay ← exponential_delay e attempt;
      delay ← apply_jitter (jitter e) (Z.min delay (max e)) sample;
      Ret (Z.min delay (max e))
  end.
End backoff.

(** ** Restart, shutdown, readiness and intensity policies *)

Record RestartPolicy := mkRestartPolicy { condition : RestartCondition; backoff : Backoff }.
Definition restart_policy_default : RestartPolicy := mkRestartPolicy OnFailure BackoffImmediate.

Definition is_never (p : RestartPolicy) : bool :=
  match condition p with Never => true | _ => false end.

Definition should_restart (p : RestartPolicy) (exit : Exit) : bool :=
  match condition p with
  | Always => true
  | OnFailure => is_failure exit
  | Never => false
  end.

Inductive Shutdown :=
| Graceful (grace : NonZeroDuration.t)
| AbortShutdown.

Definition shutdown_default : Shutdown := Graceful (NonZeroDuration.seal DEFAULT_SHUTDOWN_GRACE).

Definition graceful (grace : Z) : result Shutdown PolicyError :=
  match NonZeroDuration.new grace with
  | Ok g => Ok (Graceful g)
  | Err e => Err e
  end.

Inductive ReadinessDeadline :=
| Inherit
| Bounded (d : NonZeroDuration.t)
| Unbounded.

Definition bounded (d : Z) : result ReadinessDeadline PolicyError :=
  match NonZeroDuration.new d with
  | Ok d => Ok (Bounded d)
  | Err e => Err e
  end.

Module Intensity.
Record t := seal { max_restarts : Z; within : Z }.
Definition new (max_restarts within : Z) : result t PolicyError :=
  if Duration.is_zero within then Err ZeroDuration else Ok (seal max_restarts within).
Definition default : t := seal 5 (Duration.from_secs 30).
End Intensity.

(** Capacities are [NonZeroUsize]. *)
Inductive Mailbox :=
| Queue (capacity : option positive)
| Latest.

Definition queue (capacity : Z) : result Mailbox PolicyError :=
  match capacity with
  | Zpos p => Ok (Queue (Some p))
  | _ => Err ZeroCapacity
  end.
Definition queue_inherit : Mailbox := Queue None.
Definition latest : Mailbox := Latest.

Definition tidy_abort_beat (grace : Z) : Z :=
  Duration.clamp (grace / 10) (Duration.from_millis 1) (Duration.from_millis 10).

(** ** Scope defaults and their resolution *)

Record ScopeDefaults := mkScopeDefaults
  { sd_child_restart : option RestartPolicy;
    sd_child_shutdown : option Shutdown;
    sd_mailbox : option Mailbox;
    sd_mailbox_shutdown : option MailboxShutdown;
    sd_readiness_deadline : ReadinessDeadline }.

Record CommonOptions := mkCommonOptions
  { co_restart : option RestartPolicy;
    co_shutdown : option Shutdown;
    co_mailbox : option Mailbox;
    co_mailbox_shutdown : option MailboxShutdown;
    co_readiness : option Readiness;
    co_readiness_deadline : ReadinessDeadline;
    co_retention : option Retention }.

Inductive ResolvedMailboxKind := KindQueue | KindLatest.
Inductive ResolvedMailbox := ResolvedQueue (capacity : positive) | ResolvedLatest.
#[export] Instance ResolvedMailbox_eq_dec : EqDecision ResolvedMailbox.
Proof. solve_decision. Defined.

Inductive ResolvedReadinessDeadline :=
| ResolvedBounded (d : NonZeroDuration.t)
| ResolvedUnbounded.

Definition resolve_readiness_deadline (value : ReadinessDeadline)
    (inherited : ResolvedReadinessDeadline) : ResolvedReadinessDeadline :=
  match value with
  | Inherit => inherited
  | Bounded d => ResolvedBounded d
  | Unbounded => ResolvedUnbounded
  end.

Definition readiness_deadline_duration (r : ResolvedReadinessDeadline) : option Z :=
  match r with
  | ResolvedBounded d => Some (NonZeroDuration.get d)
  | ResolvedUnbounded => None
  end.

Record ResolvedDefaults := mkResolvedDefaults
  { child_restart : RestartPolicy;
    child_shutdown : Shutdown;
    mailbox_kind : ResolvedMailboxKind;
    queue_capacity : positive;
    mailbox_shutdown : MailboxShutdown;
    readiness_deadline : ResolvedReadinessDeadline }.

Definition resolved_defaults_default : ResolvedDefaults :=
  mkResolvedDefaults restart_policy_default shutdown_default KindQueue
    (Z.to_pos DEFAULT_MAILBOX_CAPACITY) Drain
    (ResolvedBounded (NonZeroDuration.seal DEFAULT_READINESS_DEADLINE)).

Definition resolved_mailbox (d : ResolvedDefaults) : ResolvedMailbox :=
  match mailbox_kind d with
  | KindQueue => ResolvedQueue (queue_capacity d)
  | KindLatest => ResolvedLatest
  end.

Definition resolve_child_mailbox (d : ResolvedDefaults) (value : option Mailbox)
  : ResolvedMailbox :=
  match value with
  | None => resolved_mailbox d
  | Some (Queue None) => ResolvedQueue (queue_capacity d)
  | Some (Queue (Some capacity)) => ResolvedQueue capacity
  | Some Latest => ResolvedLatest
  end.

Definition resolve {T} (value : option T) (inherited : T) : T := unwrap_or value inherited.

Definition overlay (d : ResolvedDefaults) (values : ScopeDefaults) : ResolvedDefaults :=
  let '(kind, capacity) :=
    match sd_mailbox values with
    | None => (mailbox_kind d, queue_capacity d)
    | Some (Queue None) => (KindQueue, queue_capacity d)
    | Some (Queue (Some capacity)) => (KindQueue, capacity)
    | Some Latest => (KindLatest, queue_capacity d)
    end in
  mkResolvedDefaults
    (resolve (sd_child_restart values) (child_restart d))
    (resolve (sd_child_shutdown values) (child_shutdown d))
    kind capacity
    (resolve (sd_mailbox_shutdown values) (mailbox_shutdown d))
    (resolve_readiness_deadline (sd_readiness_deadline values) (readiness_deadline d)).

Record ResolvedCommonOptions := mkResolvedCommonOptions
  { rc_restart : RestartPolicy;
    rc_shutdown : Shutdown;
    rc_mailbox : ResolvedMailbox;
    rc_mailbox_shutdown : MailboxShutdown;
    rc_readiness : Readiness;
    rc_readiness_deadline : ResolvedReadinessDeadline;
    rc_retention : Retention }.

Definition resolve_common (options : CommonOptions) (defaults : ResolvedDefaults)
    (mode : ChildMode) (default_readiness : Readiness) : ResolvedCommonOptions :=
  mkResolvedCommonOptions
    (if decide (mode = OneShot) then mkRestartPolicy Never BackoffImmediate
     else resolve (co_restart options) (child_restart defaults))
    (resolve (co_shutdown options) (child_shutdown defaults))
    (resolve_child_mailbox defaults (co_mailbox options))
    (resolve (co_mailbox_shutdown options) (mailbox_shutdown defaults))
    (resolve (co_readiness options) default_readiness)
    (resolve_readiness_deadline (co_readiness_deadline options) (readiness_deadline defaults))
    (resolve (co_retention options) (if decide (mode = OneShot) then Remove else Retain)).

(** ** Validated constructors admit exactly the valid payloads *)

(** The invariant the private fields of a backoff carry. *)
Definition backoff_valid (b : Backoff) : Prop :=
  match b with
  | BackoffImmediate => True
  | Fixed f => 0 < fixed_delay f <= Duration.MAX
  | Exponential e =>
      0 < base e <= max e /\ max e <= Duration.MAX
  end.

Lemma fixed_valid delay j b :
  Duration.valid delay -> fixed delay j = Ok b -> backoff_valid b.
Proof.
  unfold fixed, Duration.is_zero, Duration.valid. intros ? H. cases_in H. simpl. lia.
Qed.

Lemma exponential_valid b f m j r :
  Duration.valid b -> Duration.valid m -> exponential b f m j = Ok r -> backoff_valid r.
Proof.
  unfold exponential, Duration.is_zero, Duration.valid. intros ? ? H.
  destruct (_ || _) eqn:E1; [done|]. destruct (m <? b) eqn:E2; [done|].
  simplify_eq. zreflect. simpl. lia.
Qed.

(** ** The conversions never panic *)

Lemma split_nanos n :
  Duration.new (n / 1000000000) (n mod 1000000000) = n.
Proof.
  unfold Duration.new, Duration.NANOS_PER_SEC.
  pose proof (Z.div_mod n 1000000000). lia.
Qed.

Lemma expect_parts n s1 s2 :
  0 <= n <= Duration.MAX ->
  (seconds ← expect_u64 (n / 1000000000) s1;
   subsecond ← expect_u32 (n mod 1000000000) s2;
   Ret (Duration.new seconds subsecond)) = Ret n.
Proof.
  intros Hn. unfold expect_u64, expect_u32.
  assert (n / 1000000000 <= u64_max).
  { apply Z.lt_succ_r, Z.div_lt_upper_bound; [lia|].
    unfold Duration.MAX, Duration.NANOS_PER_SEC in Hn. lia. }
  pose proof (Z.mod_pos_bound n 1000000000).
  rewrite (proj2 (Z.leb_le (n / 1000000000) u64_max)) by done. simpl mbind.
  rewrite (proj2 (Z.leb_le (n mod 1000000000) (2 ^ 32 - 1))) by lia. simpl mbind.
  by rewrite split_nanos.
Qed.

Lemma half_duration_spec d :
  Duration.valid d -> half_duration d = Ret ((d + 1) / 2).
Proof.
  unfold Duration.valid. intros Hd. apply expect_parts.
  assert (0 < Duration.MAX) by (unfold Duration.MAX, u64_max, Duration.NANOS_PER_SEC; lia).
  split; [apply Z.div_pos; lia|]. apply Z.lt_succ_r, Z.div_lt_upper_bound; lia.
Qed.

(** [Duration::MAX] as a float is exactly 2^64 seconds. *)
Lemma max_float_value :
  F64.of_Z Duration.MAX = S754_finite false 8388608000000000 41 /\
  8388608000000000 * 2 ^ 41 = Duration.MAX + 1.
Proof. split; vm_compute; reflexivity. Qed.

Lemma duration_from_nanos_returns x :
  exists d, duration_from_nanos x = Ret d /\ Duration.valid d.
Proof.
  unfold duration_from_nanos, Duration.valid.
  assert (0 < Duration.MAX) by (unfold Duration.MAX, u64_max, Duration.NANOS_PER_SEC; lia).
  destruct (negb _ || _) eqn:E; [exists Duration.MAX; split; [done|lia]|].
  apply orb_false_iff in E as [Hfin%negb_false_iff Hge].
  set (r := F64.round x) in *. destruct max_float_value as [Hmax Hval].
  rewrite Hmax in Hge. apply F64.ltb_not_geb in Hge; [|done..].
  assert (Hlt : F64.to_u128 (F64.max r F64.zero) < Duration.MAX + 1).
  { unfold F64.max, F64.zero. destruct r as [s|s| |s m e]; [|discriminate Hfin..|].
    - case_match; change (0 < Duration.MAX + 1); lia.
    - destruct (F64.ltb (S754_finite s m e) (S754_zero false)); [change (0 < Duration.MAX + 1); lia|].
      rewrite <- Hval. by apply F64.to_u128_lt. }
  pose proof (F64.to_u128_bounds (F64.max r F64.zero)).
  eexists. split; [apply expect_parts; lia|lia].
Qed.

(** ** Delay bounds *)

Definition without_jitter (b : Backoff) : Backoff :=
  match b with
  | BackoffImmediate => BackoffImmediate
  | Fixed f => Fixed (mkFixed (fixed_delay f) JitterNone)
  | Exponential e => Exponential (mkExponential (base e) (factor e) (max e) JitterNone)
  end.

(** The configured maximum of a backoff. *)
Definition ceiling (b : Backoff) : Z :=
  match b with
  | BackoffImmediate => 0
  | Fixed f => fixed_delay f
  | Exponential e => max e
  end.

Lemma half_le d : 0 <= d -> (d + 1) / 2 <= d.
Proof. intros. apply Z.lt_succ_r, Z.div_lt_upper_bound; lia. Qed.

Lemma apply_jitter_lower j delay sample :
  Duration.valid delay ->
  exists d, apply_jitter j delay sample = Ret d /\ (delay + 1) / 2 <= d /\
    (j = JitterNone -> d = delay).
Proof.
  intros Hv. destruct j; unfold apply_jitter.
  { exists delay. split_and!; [done| |done]. apply half_le, Hv. }
  destruct (F64.eqb _ _).
  { rewrite half_duration_spec by done. eexists. by split_and!. }
  match goal with |- context [duration_from_nanos ?x] =>
    destruct (duration_from_nanos_returns x) as (d & -> & Hd) end.
  simpl. rewrite half_duration_spec by done. simpl.
  eexists. split_and!; [done|lia|done].
Qed.

Lemma exponential_delay_returns powi e attempt :
  backoff_valid (Exponential e) ->
  exists d, exponential_delay powi e attempt = Ret d /\ 0 <= d.
Proof.
  intros [Hb Hm]. unfold exponential_delay.
  destruct (_ || _); [eexists; split; [done|lia]|].
  destruct (F64.ltb _ _); [|eexists; split; [done|lia]].
  match goal with |- context [duration_from_nanos ?x] =>
    destruct (duration_from_nanos_returns x) as (d & -> & Hd) end.
  eexists; split; [done|apply Hd].
Qed.

Lemma next_delay_min powi b attempt sample :
  backoff_valid b ->
  exists raw d, next_delay powi (without_jitter b) attempt sample = Ret (Z.min raw (ceiling b)) /\
    next_delay powi b attempt sample = Ret (Z.min d (ceiling b)) /\ 0 <= raw /\
    (Z.min raw (ceiling b) + 1) / 2 <= d /\
    (without_jitter b = b -> Z.min d (ceiling b) = Z.min raw (ceiling b)).
Proof.
  intros Hv. destruct b as [|[delay j]|[b f m j]]; simpl in *.
  - exists 0, 0. split_and!; done || (vm_compute; done).
  - destruct (apply_jitter_lower j delay sample) as (d & -> & Hh & Hj).
    { unfold Duration.valid; lia. }
    exists delay, d. simpl. rewrite Z.min_id. split_and!; try done || lia.
    intros [= <-]. rewrite Hj by done. lia.
  - destruct (exponential_delay_returns powi (mkExponential b f m j)
                (Z.max (RestartAttempt.get attempt) 1) Hv) as (raw & Hraw & Hpos).
    assert (exponential_delay powi (mkExponential b f m JitterNone) =
            exponential_delay powi (mkExponential b f m j)) as -> by done.
    rewrite Hraw. simpl.
    destruct (apply_jitter_lower j (Z.min raw m) sample) as (d & -> & Hh & Hj).
    { unfold Duration.valid; lia. }
    exists raw, d. simpl. split_and!; try done.
    + by rewrite Z.min_l by lia.
    + intros [= <-]. rewrite Hj by done. lia.
Qed.

(** C40: for every validated backoff, attempt number, jitter sample and
    [powi], deriving the delay returns normally; it never exceeds the
    configured maximum, equal jitter never takes it below half (rounded up) of
    the un-jittered delay, and without jitter it is exactly that delay. *)
Theorem next_delay_bounds powi b attempt sample :
  backoff_valid b ->
  exists plain d,
    next_delay powi (without_jitter b) attempt sample = Ret plain /\
    next_delay powi b attempt sample = Ret d /\
    0 <= plain <= ceiling b /\ (plain + 1) / 2 <= d <= ceiling b /\
    (without_jitter b = b -> d = plain).
Proof.
  intros Hv. destruct (next_delay_min powi b attempt sample Hv) as (raw & d & Hp & Hd & H0 & Hh & Hj).
  assert (0 <= ceiling b) by (destruct b; simpl in *; lia).
  exists (Z.min raw (ceiling b)), (Z.min d (ceiling b)).
  pose proof (half_le (Z.min raw (ceiling b)) ltac:(lia)).
  split_and!; try done || lia.
Qed.

(** The first attempt (and attempt zero, coerced to it), as well as every
    attempt under a factor of one, waits exactly the configured base, with no
    floating-point round trip. *)
Theorem next_delay_first_exact powi e attempt sample :
  backoff_valid (Exponential e) -> jitter e = JitterNone ->
  RestartAttempt.get attempt <= 1 \/ F64.eqb (BackoffFactor.get (factor e)) F64.one = true ->
  next_delay powi (Exponential e) attempt sample = Ret (base e).
Proof.
  intros [Hb Hm] Hj Hor. simpl. unfold exponential_delay.
  assert ((Z.max (RestartAttempt.get attempt) 1 =? 1)
          || F64.eqb (BackoffFactor.get (factor e)) F64.one = true) as ->.
  { apply orb_true_iff. destruct Hor; [left|by right]. apply Z.eqb_eq. lia. }
  simpl. rewrite Hj. simpl. f_equal. lia.
Qed.

(** The tidy beat between escalation and hard abort is always between one
    and ten milliseconds, and is a tenth of the grace inside that range. *)
Theorem tidy_abort_beat_bounds grace :
  Duration.from_millis 1 <= tidy_abort_beat grace <= Duration.from_millis 10 /\
  (Duration.from_millis 10 <= grace <= Duration.from_millis 100 ->
   tidy_abort_beat grace = grace / 10).
Proof.
  unfold tidy_abort_beat, Duration.clamp, Duration.from_millis. split; [lia|].
  intros Hg. assert (1000000 <= grace / 10 <= 10000000); [|lia].
  split; [apply Z.div_le_lower_bound; lia|apply Z.lt_succ_r, Z.div_lt_upper_bound; lia].
Qed.

(** ** Resolution through a chain of scopes *)

(** Reference: the innermost explicit setting of a chain, listed outermost
    first. *)
Fixpoint innermost {A} (settings : list (option A)) : option A :=
  match settings with
  | [] => None
  | s :: rest => option_or (innermost rest) s
  end.

Definition explicit_kind (m : option Mailbox) : option ResolvedMailboxKind :=
  (fun m => match m with Queue _ => KindQueue | Latest => KindLatest end) <$> m.
Definition explicit_capacity (m : option Mailbox) : option positive :=
  match m with Some (Queue c) => c | _ => None end.
Definition explicit_deadline (d : ReadinessDeadline) : option ResolvedReadinessDeadline :=
  match d with
  | Inherit => None
  | Bounded d => Some (ResolvedBounded d)
  | Unbounded => Some ResolvedUnbounded
  end.

Lemma resolve_innermost {A} (rest : list (option A)) s d :
  resolve (innermost rest) (resolve s d) = resolve (option_or (innermost rest) s) d.
Proof. by destruct (innermost rest). Qed.

Lemma overlay_fields d v :
  overlay d v = mkResolvedDefaults
    (resolve (sd_child_restart v) (child_restart d))
    (resolve (sd_child_shutdown v) (child_shutdown d))
    (resolve (explicit_kind (sd_mailbox v)) (mailbox_kind d))
    (resolve (explicit_capacity (sd_mailbox v)) (queue_capacity d))
    (resolve (sd_mailbox_shutdown v) (mailbox_shutdown d))
    (resolve (explicit_deadline (sd_readiness_deadline v)) (readiness_deadline d)).
Proof. destruct v as [?? [[[]|]|] ? []]; reflexivity. Qed.

(** Overlaying a chain of scope defaults on the inherited ones resolves
    every field to the innermost scope that sets it explicitly, the queue
    capacity independently of the mailbox kind: a capacity survives an inner
    scope that switches the kind to a latest-value slot. *)
Theorem overlay_chain_innermost d (chain : list ScopeDefaults) :
  foldl overlay d chain = mkResolvedDefaults
    (resolve (innermost (sd_child_restart <$> chain)) (child_restart d))
    (resolve (innermost (sd_child_shutdown <$> chain)) (child_shutdown d))
    (resolve (innermost (explicit_kind ∘ sd_mailbox <$> chain)) (mailbox_kind d))
    (resolve (innermost (explicit_capacity ∘ sd_mailbox <$> chain)) (queue_capacity d))
    (resolve (innermost (sd_mailbox_shutdown <$> chain)) (mailbox_shutdown d))
    (resolve (innermost (explicit_deadline ∘ sd_readiness_deadline <$> chain))
       (readiness_deadline d)).
Proof.
  revert d. induction chain as [|v chain IH]; intros d; [by destruct d|].
  cbn [foldl fmap list_fmap]. rewrite IH, overlay_fields.
  cbn [child_restart child_shutdown mailbox_kind queue_capacity mailbox_shutdown
       readiness_deadline innermost]. by rewrite !resolve_innermost.
Qed.

(** The documentation's example: 10ms doubling, capped at 35ms. *)
Definition demo_powi (x : f64) (n : Z) : f64 :=
  Nat.iter (Z.to_nat n) (F64.mul x) F64.one.
Definition demo_backoff : Backoff :=
  Exponential (mkExponential (Duration.from_millis 10) (BackoffFactor.seal (F64.of_Z 2))
                 (Duration.from_millis 35) JitterNone).

Lemma demo_backoff_delays :
  (fun n => next_delay demo_powi demo_backoff (RestartAttempt.mk n) (JitterSample.new F64.zero))
    <$> [1; 2; 3]
  = [Ret (Duration.from_millis 10); Ret (Duration.from_millis 20); Ret (Duration.from_millis 35)].
Proof. vm_compute. reflexivity. Qed.

Lemma next_delay_bounds_witness :
  exists plain d,
    next_delay demo_powi (without_jitter demo_backoff) (RestartAttempt.mk 3)
      (JitterSample.new F64.half) = Ret plain /\
    next_delay demo_powi demo_backoff (RestartAttempt.mk 3) (JitterSample.new F64.half) = Ret d /\
    0 <= plain <= ceiling demo_backoff /\ (plain + 1) / 2 <= d <= ceiling demo_backoff /\
    (without_jitter demo_backoff = demo_backoff -> d = plain).
Proof. apply (next_delay_bounds demo_powi demo_backoff). vm_compute. intuition discriminate. Defined.

Lemma next_delay_first_exact_witness :
  next_delay demo_powi demo_backoff (RestartAttempt.mk 0) (JitterSample.new F64.half)
  = Ret (Duration.from_millis 10).
Proof.
  apply (next_delay_first_exact demo_powi); [vm_compute; intuition discriminate|reflexivity|].
  left. vm_compute. discriminate.
Defined.
