(* ===== verification/Epochs.v ===== *)
(** * Scope epochs

    [crates/shelterwood-core/src/engine/epochs.rs]: the ownership tokens of
    successive scope incarnations, including the forward-addressed epoch of a
    shutdown request that arrives between incarnations. *)

From S2P Require Import Prelude Identity.

(** ** [Epoch] *)

Definition Epoch := Z.
Definition FIRST : Epoch := 1.
Definition epoch_successor (e : Epoch) : outcome Epoch := MonotonicCounter.successor e.

Definition epoch_after (previous : option Epoch) : outcome Epoch :=
  match previous with
  | None => Ret FIRST
  | Some e => epoch_successor e
  end.

Record RequestTarget := mkTarget { epoch : Epoch; pending_incarnation : bool }.

(** ** [ScopeEpochs] *)

Inductive ScopeEpochs :=
| Idle (last_stopped : option Epoch)
| Live (current : Epoch) (last_stopped : option Epoch).

Definition default : ScopeEpochs := Idle None.

Definition finished (s : ScopeEpochs) (e : Epoch) : bool :=
  match s with
  | Idle last | Live _ last => is_some_and last (fun last => last >=? e)
  end.

(** The debug assertions of [begin] and [finish] are kept as panics. *)
Definition begin (s : ScopeEpochs) : outcome (option Epoch * ScopeEpochs) :=
  match s with
  | Live _ _ => Ret (None, s)
  | Idle last_stopped =>
      current ← epoch_after last_stopped;
      let s' := Live current last_stopped in
      _ ← assert_that (negb (finished s' current))
            "a freshly minted epoch is not already finished";
      Ret (Some current, s')
  end.

Definition live_epoch (s : ScopeEpochs) : option Epoch :=
  match s with Idle _ => None | Live current _ => Some current end.

Definition request_target (s : ScopeEpochs) : outcome RequestTarget :=
  match s with
  | Live current _ => Ret (mkTarget current false)
  | Idle last_stopped =>
      e ← epoch_after last_stopped;
      Ret (mkTarget e true)
  end.

Definition finish (s : ScopeEpochs) (e : Epoch) : outcome (bool * ScopeEpochs) :=
  match s with
  | Live current _ =>
      if current =? e then
        let s' := Idle (Some e) in
        _ ← assert_that (finished s' e) "a finished epoch stays observably finished";
        Ret (true, s')
      else Ret (false, s)
  | Idle _ => Ret (false, s)
  end.

Definition vacate (s : ScopeEpochs) (e : Epoch) : outcome (bool * ScopeEpochs) :=
  match s with
  | Idle last_stopped =>
      next ← epoch_after last_stopped;
      if next =? e then Ret (true, Idle (Some e)) else Ret (false, s)
  | Live _ _ => Ret (false, s)
  end.

Definition is_current (s : ScopeEpochs) (e : Epoch) : bool :=
  bool_decide (live_epoch s = Some e).

Definition request_is_pending (s : ScopeEpochs) (e : Epoch) : bool :=
  match s with
  | Idle last_stopped => option_ltb last_stopped (Some e)
  | Live _ _ => false
  end.

(** ** Operations and their observations *)

Inductive epoch_op := OpBegin | OpFinish (e : Epoch) | OpVacate (e : Epoch).
Inductive epoch_obs := ObsBegin (r : option Epoch) | ObsBool (b : bool).

Definition epoch_exec (s : ScopeEpochs) (o : epoch_op) : outcome (epoch_obs * ScopeEpochs) :=
  match o with
  | OpBegin => '(r, s) ← begin s; Ret (ObsBegin r, s)
  | OpFinish e => '(b, s) ← finish s e; Ret (ObsBool b, s)
  | OpVacate e => '(b, s) ← vacate s e; Ret (ObsBool b, s)
  end.

(** ** Specification: a count of consumed epochs and a liveness bit *)

Module Spec.
Record t := mk { consumed : Z; live : bool }.
Definition init : t := mk 0 false.

(** The epoch a driver owns now, or the next one to be minted. *)
Definition target (a : t) : Epoch := consumed a + 1.

(** Minting the target of an idle scope aborts once [u64] is exhausted. *)
Definition mint (a : t) : outcome Epoch :=
  if target a <=? u64_max then Ret (target a) else ProcessAborts.

Definition exec (a : t) (o : epoch_op) : outcome (epoch_obs * t) :=
  match o with
  | OpBegin =>
      if live a then Ret (ObsBegin None, a)
      else e ← mint a; Ret (ObsBegin (Some e), mk (consumed a) true)
  | OpFinish e =>
      if live a && (e =? target a) then Ret (ObsBool true, mk (consumed a + 1) false)
      else Ret (ObsBool false, a)
  | OpVacate e =>
      if live a then Ret (ObsBool false, a)
      else
        n ← mint a;
        if e =? n then Ret (ObsBool true, mk (consumed a + 1) false)
        else Ret (ObsBool false, a)
  end.
End Spec.

(** ** Refinement *)

Definition last_of (n : Z) : option Epoch := if n =? 0 then None else Some n.

(** The concrete state of an abstract one. *)
Definition concretize (a : Spec.t) : ScopeEpochs :=
  if Spec.live a then Live (Spec.target a) (last_of (Spec.consumed a))
  else Idle (last_of (Spec.consumed a)).

Definition spec_wf (a : Spec.t) : Prop :=
  0 <= Spec.consumed a /\ (Spec.live a = true -> Spec.target a <= u64_max).

Lemma epoch_after_mint a : spec_wf a -> epoch_after (last_of (Spec.consumed a)) = Spec.mint a.
Proof.
  intros [H0 _]. unfold last_of, epoch_after, Spec.mint, Spec.target.
  destruct (Spec.consumed a =? 0) eqn:E; zreflect; [rewrite E; vm_compute; done|].
  unfold epoch_successor, MonotonicCounter.successor, checked_add_u64. by destruct (_ <=? _).
Qed.

Lemma finished_spec a e :
  0 <= Spec.consumed a -> 1 <= e ->
  finished (concretize a) e = (e <=? Spec.consumed a).
Proof.
  intros H0 He. unfold concretize, finished, last_of.
  destruct (Spec.live a), (_ =? 0) eqn:E; simpl; zreflect; rewrite ?Z.geb_leb; try done;
    symmetry; apply Z.leb_gt; lia.
Qed.

Lemma finished_gt a e : 0 <= Spec.consumed a < e -> finished (concretize a) e = false.
Proof. intros. rewrite finished_spec by lia. apply Z.leb_gt. lia. Qed.

Lemma last_of_succ n : 0 <= n -> last_of (n + 1) = Some (n + 1).
Proof. unfold last_of. destruct (_ =? 0) eqn:E; zreflect; [lia|done]. Qed.

Lemma epoch_exec_spec a o :
  spec_wf a -> epoch_exec (concretize a) o = map_state concretize (Spec.exec a o).
Proof.
  intros Hwf. pose proof Hwf as [H0 Hl]. pose proof (epoch_after_mint a Hwf) as Hm.
  destruct a as [n [|]]; destruct o as [|e|e]; simpl in *; try done.
  - unfold concretize, Spec.target; simpl. rewrite Z.eqb_sym.
    destruct (e =? n + 1) eqn:E; simpl; zreflect; [|done]. subst.
    rewrite Z.geb_leb, Z.leb_refl. simpl. by rewrite last_of_succ.
  - unfold concretize at 1; simpl. rewrite Hm. unfold Spec.mint.
    destruct (_ <=? _) eqn:E; simpl; [|done].
    pose proof (finished_gt (Spec.mk n true) (n + 1) ltac:(simpl; lia)) as Hf.
    unfold concretize, Spec.target in *. simpl in *. by rewrite Hf.
  - unfold concretize at 1; simpl. rewrite Hm. unfold Spec.mint.
    destruct (_ <=? _) eqn:E; simpl; [|done]. unfold Spec.target; simpl. rewrite (Z.eqb_sym e).
    destruct (n + 1 =? e) eqn:E2; simpl; zreflect; [|done]. subst.
    unfold concretize; simpl. by rewrite last_of_succ.
Qed.

Lemma spec_exec_wf a o r a' : spec_wf a -> Spec.exec a o = Ret (r, a') -> spec_wf a'.
Proof.
  unfold spec_wf, Spec.exec, Spec.mint, Spec.target.
  destruct a as [n l], o; simpl; intros [H1 H2] Hx; cases_in Hx; simpl; naive_solver lia.
Qed.

Lemma run_ops_refine ops a :
  spec_wf a ->
  run_ops epoch_exec (concretize a) ops = map_state concretize (run_ops Spec.exec a ops).
Proof.
  revert a. induction ops as [|o ops IH]; intros a Hwf; [done|]. simpl.
  rewrite epoch_exec_spec by done.
  destruct (Spec.exec a o) as [[r a']| |] eqn:E; simpl; [|done..].
  rewrite IH by eauto using spec_exec_wf.
  by destruct (run_ops Spec.exec a' ops) as [[]| |].
Qed.

Lemma run_ops_wf ops a rs a' :
  spec_wf a -> run_ops Spec.exec a ops = Ret (rs, a') -> spec_wf a'.
Proof.
  revert a rs. induction ops as [|o ops IH]; simpl; intros a rs Hwf H; [naive_solver|].
  apply bind_Ret_inv in H as ([r a1] & H1 & H2).
  apply bind_Ret_inv in H2 as ([rs' a2] & H2 & [= <- <-]).
  eauto using spec_exec_wf.
Qed.

(** Running any sequence of epoch operations gives the observations of a
    counter of consumed epochs with a liveness bit - each [begin] mints the
    next epoch, [finish] and [vacate] consume exactly the current target - the
    debug assertions never fire, and every query of the final state is the
    counter's: an epoch is finished once it is at most the count, pending when
    it lies beyond it while no incarnation is live, and a request targets the
    epoch after it. *)
Theorem epochs_refine_counter ops :
  run_ops epoch_exec default ops =
    map_state concretize (run_ops Spec.exec Spec.init ops) /\
  forall rs a, run_ops Spec.exec Spec.init ops = Ret (rs, a) ->
    forall e, 1 <= e ->
    finished (concretize a) e = (e <=? Spec.consumed a) /\
    is_current (concretize a) e = Spec.live a && (e =? Spec.target a) /\
    request_is_pending (concretize a) e = negb (Spec.live a) && (Spec.consumed a <? e) /\
    request_target (concretize a) =
      (if Spec.live a then Ret (mkTarget (Spec.target a) false)
       else t ← Spec.mint a; Ret (mkTarget t true)).
Proof.
  assert (Hwf : spec_wf Spec.init) by (split; simpl; [lia|done]).
  split; [by rewrite <- (run_ops_refine ops Spec.init Hwf)|].
  intros rs a Hr e He. apply run_ops_wf in Hr as Hwa; [|done].
  pose proof (epoch_after_mint a Hwa) as Hm. destruct Hwa as [H0 _].
  split_and!.
  - by apply finished_spec.
  - unfold is_current, concretize, live_epoch. destruct (Spec.live a); simpl; [|done].
    rewrite Z.eqb_sym.
    destruct (Spec.target a =? e) eqn:E; zreflect;
      [apply bool_decide_eq_true|apply bool_decide_eq_false]; congruence.
  - unfold request_is_pending, concretize, last_of. destruct (Spec.live a); simpl; [done|].
    destruct (_ =? 0) eqn:E; simpl; zreflect; [|done]. symmetry. apply Z.ltb_lt. lia.
  - unfold request_target, concretize. destruct (Spec.live a); [done|]. by rewrite Hm.
Qed.
