(* ===== verification/Readiness.v ===== *)
(** * The readiness gate

    [crates/shelterwood-core/src/engine/readiness.rs]: the per-incarnation
    machine that turns a readiness signal, a deadline, a shutdown or an exit
    into at most one readiness verdict. *)

From S2P Require Import Prelude Policy.

Inductive ReadinessState :=
| Waiting (deadline : option Z)
| Ready
| Disarmed.

Record ReadinessGate := mkGate { gate_state : ReadinessState }.

Inductive ReadinessEvent :=
| EvSignal
| EvDeadline (now : Z) (signal_seen : bool)
| EvShutdown
| EvExit (signal_seen : bool).

Inductive ReadinessEffect :=
| BecameReady
| ArmDeadline (deadline : Z)
| TimedOut (deadline : Z)
| EffDisarmed.

Definition configure (readiness : Readiness) (deadline : option Z)
  : ReadinessGate * option ReadinessEffect :=
  match readiness with
  | Immediate => (mkGate Ready, Some BecameReady)
  | Manual | AfterInit => (mkGate (Waiting deadline), ArmDeadline <$> deadline)
  end.

Definition needs_signal_watch (g : ReadinessGate) : bool :=
  match gate_state g with Waiting _ => true | _ => false end.

Definition gate_step (g : ReadinessGate) (event : ReadinessEvent)
  : option ReadinessEffect * ReadinessGate :=
  match gate_state g, event with
  | Waiting _, EvSignal
  | Waiting _, EvDeadline _ true
  | Waiting _, EvExit true => (Some BecameReady, mkGate Ready)
  | Waiting (Some deadline), EvDeadline now false =>
      if now >=? deadline then (Some (TimedOut deadline), mkGate Disarmed)
      else (None, g)
  | Waiting None, EvDeadline _ false => (None, g)
  | Waiting _, EvShutdown
  | Waiting _, EvExit false => (Some EffDisarmed, mkGate Disarmed)
  | Ready, _ | Disarmed, _ => (None, g)
  end.

(** Effects of a run of events, in order. *)
Fixpoint gate_run (g : ReadinessGate) (events : list ReadinessEvent)
  : list ReadinessEffect * ReadinessGate :=
  match events with
  | [] => ([], g)
  | e :: events =>
      let '(eff, g) := gate_step g e in
      let '(effs, g) := gate_run g events in
      (option_list eff ++ effs, g)
  end.

(** ** Specification *)

(** What one event alone says about a gate with the given deadline. *)
Definition verdict (deadline : option Z) (e : ReadinessEvent) : option ReadinessEffect :=
  match e with
  | EvSignal | EvDeadline _ true | EvExit true => Some BecameReady
  | EvDeadline now false =>
      d ← deadline; if now >=? d then Some (TimedOut d) else None
  | EvShutdown | EvExit false => Some EffDisarmed
  end.

Lemma resolved_run g events :
  needs_signal_watch g = false -> gate_run g events = ([], g).
Proof.
  destruct g as [[]]; [done|..]; intros _; induction events as [|e events IH]; simpl;
    rewrite ?IH; done.
Qed.

Lemma gate_step_waiting deadline e :
  gate_step (mkGate (Waiting deadline)) e =
  match verdict deadline e with
  | None => (None, mkGate (Waiting deadline))
  | Some BecameReady => (Some BecameReady, mkGate Ready)
  | Some v => (Some v, mkGate Disarmed)
  end.
Proof.
  destruct e as [|now []| |[]], deadline as [d|]; try done. simpl. unfold mbind, option_bind, gate_step; simpl.
  by destruct (now >=? d).
Qed.

(** A gated incarnation emits exactly the verdict of the first decisive
    event - a signal seen no later than the deadline or exit it races always
    wins over the timeout, a premature deadline event decides nothing - and
    nothing afterwards; the gate stops watching for the signal exactly when a
    verdict has been given.  An immediate incarnation is ready at
    configuration and ignores every event. *)
Theorem readiness_first_verdict readiness deadline events :
  let '(g, configured) := configure readiness deadline in
  let '(effects, g') := gate_run g events in
  match readiness with
  | Immediate => configured = Some BecameReady /\ effects = [] /\ needs_signal_watch g' = false
  | Manual | AfterInit =>
      configured = ArmDeadline <$> deadline /\
      effects = take 1 (omap (verdict deadline) events) /\
      needs_signal_watch g' = bool_decide (effects = [])
  end.
Proof.
  assert (Hgated : let '(effects, g') := gate_run (mkGate (Waiting deadline)) events in
            effects = take 1 (omap (verdict deadline) events) /\
            needs_signal_watch g' = bool_decide (effects = [])).
  { induction events as [|e events IH]; [done|].
    cbn [gate_run]. rewrite gate_step_waiting.
    destruct (verdict deadline e) as [v|] eqn:Ev.
    - cbn [omap list_omap]. rewrite Ev. destruct v; rewrite resolved_run by done; done.
    - destruct (gate_run _ events) as [effs g']. destruct IH as [-> ->].
      cbn [omap list_omap]. by rewrite Ev. }
  destruct readiness; simpl; [by rewrite resolved_run| |];
    destruct (gate_run _ events); naive_solver.
Qed.
