(* ===== verification/DeadlineQueue.v ===== *)
(** * The deadline queue

    [crates/shelterwood-core/src/engine/deadline_queue.rs]: one priority queue
    of armed deadlines with lazy cancellation.  A heap holds [(instant,
    handle)] entries, a map holds the live registrations, and cancelled
    entries stay in the heap until they surface or a compaction drops them. *)

From S2P Require Import Prelude Identity.

(** ** [BinaryHeap<DeadlineEntry>]

    The heap is the multiset of its entries; [peek] and [pop] act on the
    greatest entry of the source's reversed order, the earliest deadline and
    the oldest handle among equals. *)
Record Entry := mkEntry { at_ : Z; handle : Z }.
#[export] Instance Entry_eq_dec : EqDecision Entry.
Proof. solve_decision. Defined.

(** [b.cmp(a) == Greater] on entries: [a] surfaces before [b]. *)
Definition before (a b : Entry) : bool :=
  (at_ a <? at_ b) || ((at_ a =? at_ b) && (handle a <? handle b)).

Fixpoint heap_peek (h : list Entry) : option Entry :=
  match h with
  | [] => None
  | e :: h =>
      match heap_peek h with
      | None => Some e
      | Some e' => if before e' e then Some e' else Some e
      end
  end.

Definition heap_pop (h : list Entry) : option (Entry * list Entry) :=
  match heap_peek h with
  | None => None
  | Some e => Some (e, filter (fun x => x ≠ e) h)
  end.

Definition heap_push (e : Entry) (h : list Entry) : list Entry := e :: h.

(** ** The queue *)

Section queue.
Context {K : Type}.

Record DeadlineQueue := mkQueue
  { registration_ids : MonotonicCounter.t;
    entries : list Entry;
    registrations : gmap Z K }.

Definition empty_queue : DeadlineQueue := mkQueue MonotonicCounter.new [] ∅.

Definition next_handle (q : DeadlineQueue) : outcome (Z * DeadlineQueue) :=
  '(h, ids) ← MonotonicCounter.mint (registration_ids q);
  Ret (h, mkQueue ids (entries q) (registrations q)).

Definition take (q : DeadlineQueue) (h : Z) : option K * DeadlineQueue :=
  (registrations q !! h,
   mkQueue (registration_ids q) (entries q) (delete h (registrations q))).

Definition is_active (q : DeadlineQueue) (h : Z) : bool :=
  bool_decide (is_Some (registrations q !! h)).

(** The loop pops one heap entry per iteration. *)
Fixpoint prune_loop (fuel : nat) (q : DeadlineQueue) : DeadlineQueue :=
  match fuel with
  | O => q
  | S fuel =>
      match heap_pop (entries q) with
      | Some (e, rest) =>
          if negb (is_active q (handle e))
          then prune_loop fuel (mkQueue (registration_ids q) rest (registrations q))
          else q
      | None => q
      end
  end.

Definition prune_stale_head (q : DeadlineQueue) : DeadlineQueue :=
  prune_loop (length (entries q)) q.

Definition compact_if_sparse (q : DeadlineQueue) : DeadlineQueue :=
  if (Z.of_nat (size (registrations q)) * 2 <? Z.of_nat (length (entries q)))
  then mkQueue (registration_ids q)
         (filter (fun e => is_Some (registrations q !! handle e)) (entries q))
         (registrations q)
  else q.

Definition push (q : DeadlineQueue) (at_ : Z) (key : K) : outcome (Z * DeadlineQueue) :=
  '(h, q) ← next_handle q;
  Ret (h, mkQueue (registration_ids q) (heap_push (mkEntry at_ h) (entries q))
            (<[h := key]> (registrations q))).

Definition cancel (q : DeadlineQueue) (h : Z) : bool * DeadlineQueue :=
  let '(key, q) := take q h in
  let removed := bool_decide (is_Some key) in
  (removed, if removed then compact_if_sparse q else q).

Definition next_deadline (q : DeadlineQueue) : option Z * DeadlineQueue :=
  let q := prune_stale_head q in
  (at_ <$> heap_peek (entries q), q).

Definition pop_due (q : DeadlineQueue) (now : Z) : outcome (option K * DeadlineQueue) :=
  let q := prune_stale_head q in
  if is_some_and (heap_peek (entries q)) (fun e => at_ e <=? now)
  then
    '(e, rest) ← expect "the due entry was just observed" (heap_pop (entries q));
    Ret (take (mkQueue (registration_ids q) rest (registrations q)) (handle e))
  else Ret (None, q).

(** ** Specification: a list sorted by instant, then by arming order *)

Record armed := mkArmed { armed_entry : Entry; armed_key : K }.

Record squeue := mkSpecQueue { issued : Z; pending : list armed }.

Definition spec_empty : squeue := mkSpecQueue 0 [].

Fixpoint insert_armed (a : armed) (l : list armed) : list armed :=
  match l with
  | [] => [a]
  | b :: l' =>
      if before (armed_entry a) (armed_entry b) then a :: b :: l'
      else b :: insert_armed a l'
  end.

Definition spec_cancel (h : Z) (l : list armed) : list armed :=
  filter (fun a => handle (armed_entry a) ≠ h) l.

End queue.
Arguments DeadlineQueue : clear implicits.
Arguments armed : clear implicits.
Arguments squeue : clear implicits.

Inductive dq_op (K : Type) :=
| OpPush (at_ : Z) (key : K) | OpCancel (h : Z) | OpNext | OpPop (now : Z).
Arguments OpPush {K}. Arguments OpCancel {K}. Arguments OpNext {K}. Arguments OpPop {K}.
Inductive dq_obs (K : Type) :=
| ObsHandle (h : Z) | ObsCancelled (b : bool) | ObsDeadline (d : option Z) | ObsKey (k : option K).
Arguments ObsHandle {K}. Arguments ObsCancelled {K}. Arguments ObsDeadline {K}.
Arguments ObsKey {K}.

Definition dq_exec {K} (q : DeadlineQueue K) (o : dq_op K)
  : outcome (dq_obs K * DeadlineQueue K) :=
  match o with
  | OpPush t k => '(h, q) ← push q t k; Ret (ObsHandle h, q)
  | OpCancel h => let '(b, q) := cancel q h in Ret (ObsCancelled b, q)
  | OpNext => let '(d, q) := next_deadline q in Ret (ObsDeadline d, q)
  | OpPop now => '(k, q) ← pop_due q now; Ret (ObsKey k, q)
  end.

Definition spec_exec {K} (s : squeue K) (o : dq_op K) : outcome (dq_obs K * squeue K) :=
  match o with
  | OpPush t k =>
      if issued s + 1 <=? u64_max then
        let h := issued s + 1 in
        Ret (ObsHandle h, mkSpecQueue h (insert_armed (mkArmed (mkEntry t h) k) (pending s)))
      else ProcessAborts
  | OpCancel h =>
      Ret (ObsCancelled (bool_decide (Exists (fun a => handle (armed_entry a) = h) (pending s))),
           mkSpecQueue (issued s) (spec_cancel h (pending s)))
  | OpNext => Ret (ObsDeadline ((fun a => at_ (armed_entry a)) <$> head (pending s)), s)
  | OpPop now =>
      match pending s with
      | a :: rest =>
          if at_ (armed_entry a) <=? now
          then Ret (ObsKey (Some (armed_key a)), mkSpecQueue (issued s) rest)
          else Ret (ObsKey None, s)
      | [] => Ret (ObsKey None, s)
      end
  end.

(** ** The order of entries *)

Lemma before_spec a b :
  before a b = true <-> at_ a < at_ b \/ (at_ a = at_ b /\ handle a < handle b).
Proof. unfold before. rewrite orb_true_iff, andb_true_iff, !Z.ltb_lt, Z.eqb_eq. lia. Qed.

Lemma before_false a b :
  before a b = false <-> at_ b < at_ a \/ (at_ a = at_ b /\ handle b <= handle a).
Proof. rewrite <- not_true_iff_false, before_spec. lia. Qed.

Lemma heap_peek_min h e :
  heap_peek h = Some e -> e ∈ h /\ forall e', e' ∈ h -> before e' e = false.
Proof.
  revert e. induction h as [|x h IH]; intros e; [done|]. simpl.
  destruct (heap_peek h) as [y|] eqn:Ey.
  - destruct (IH y eq_refl) as [Hy Hmin].
    destruct (before y x) eqn:Eb; intros [= <-]; (split; [set_solver|]).
    + intros e' [->|He']%elem_of_cons; [|auto].
      apply before_spec in Eb. apply before_false. lia.
    + intros e' [->|He']%elem_of_cons; [apply before_false; lia|].
      specialize (Hmin e' He'). rewrite before_false in *. lia.
  - intros [= <-]. destruct h as [|z h].
    + split; [set_solver|]. intros e' ->%list_elem_of_singleton. apply before_false. lia.
    + simpl in Ey. repeat case_match; done.
Qed.

Lemma heap_peek_None h : heap_peek h = None -> h = [].
Proof. destruct h; simpl; [done|]. repeat case_match; done. Qed.

(** ** Refinement relation *)

Section refinement.
Context {K : Type}.
Implicit Types (q : DeadlineQueue K) (s : squeue K) (e : Entry) (k : K).

Definition armed_before (a b : armed K) : Prop := before (armed_entry a) (armed_entry b) = true.

Record refines q s : Prop := {
  ref_issued : MonotonicCounter.current (registration_ids q) = issued s;
  ref_sorted : StronglySorted armed_before (pending s);
  ref_pending e k :
    mkArmed e k ∈ pending s <-> e ∈ entries q /\ registrations q !! handle e = Some k;
  ref_nodup : NoDup (handle <$> entries q);
  ref_registered h k : registrations q !! h = Some k -> exists e, e ∈ entries q /\ handle e = h;
  ref_bound e : e ∈ entries q -> handle e <= issued s
}.

Lemma refines_empty : refines empty_queue spec_empty.
Proof.
  split; simpl; [done|constructor|set_solver|constructor|done|set_solver].
Qed.

Lemma NoDup_filter_handles (P : Entry -> Prop) `{!forall x, Decision (P x)} (l : list Entry) :
  NoDup (handle <$> l) -> NoDup (handle <$> filter P l).
Proof.
  induction l as [|e l IH]; [done|]. intros [He Hl]%NoDup_cons.
  rewrite filter_cons. case_decide; [|auto]. simpl. apply NoDup_cons. split; [|auto].
  intros (e' & Heq & [_ ?]%list_elem_of_filter)%list_elem_of_fmap. apply He.
  rewrite Heq. by apply list_elem_of_fmap_2.
Qed.

(** Dropping entries whose handle is not registered changes nothing. *)
Lemma refines_drop (P : Entry -> Prop) `{!forall x, Decision (P x)} q s :
  refines q s ->
  (forall e, e ∈ entries q -> is_Some (registrations q !! handle e) -> P e) ->
  refines (mkQueue (registration_ids q) (filter P (entries q)) (registrations q)) s.
Proof.
  intros [Hi Hs Hp Hn Hr Hb] HP. split; simpl; auto using NoDup_filter_handles.
  - intros e k. rewrite Hp, list_elem_of_filter. naive_solver.
  - intros h k Hh. destruct (Hr h k Hh) as (e & He & <-). exists e.
    rewrite list_elem_of_filter. eauto.
  - intros e [_ He]%list_elem_of_filter. auto.
Qed.

Definition head_active q : Prop :=
  match heap_peek (entries q) with
  | Some e => is_Some (registrations q !! handle e)
  | None => True
  end.

Lemma filter_ne_length (e : Entry) l :
  e ∈ l -> (length (filter (fun x => x ≠ e) l) < length l)%nat.
Proof.
  intros He. apply length_filter_lt with e; [done|]. intros H. by apply H.
Qed.

Lemma prune_loop_refines fuel q s :
  refines q s -> (length (entries q) <= fuel)%nat ->
  refines (prune_loop fuel q) s /\ head_active (prune_loop fuel q).
Proof.
  revert q. induction fuel as [|fuel IH]; intros q Hq Hlen; simpl.
  { split; [done|]. unfold head_active. destruct (entries q); [done|simpl in *; lia]. }
  unfold heap_pop. destruct (heap_peek (entries q)) as [e|] eqn:Ep.
  - unfold is_active. case_bool_decide as Ha; simpl.
    + split; [done|]. unfold head_active. by rewrite Ep.
    + apply IH; simpl.
      * apply refines_drop; [done|]. intros e' _ Hs ->. done.
      * apply heap_peek_min in Ep as [He _]. apply filter_ne_length in He. lia.
  - split; [done|]. unfold head_active. by rewrite Ep.
Qed.

Lemma prune_refines q s :
  refines q s -> refines (prune_stale_head q) s /\ head_active (prune_stale_head q).
Proof. intros. by apply prune_loop_refines. Qed.

Lemma pending_head_None q s :
  refines q s -> heap_peek (entries q) = None -> pending s = [].
Proof.
  intros Hq Hn%heap_peek_None. apply elem_of_nil_inv. intros [e k] He%(ref_pending _ _ Hq).
  rewrite Hn in He. set_solver.
Qed.

Lemma pending_head_Some q s e k :
  refines q s -> heap_peek (entries q) = Some e -> registrations q !! handle e = Some k ->
  exists rest, pending s = mkArmed e k :: rest.
Proof.
  intros Hq Hp Hk. apply heap_peek_min in Hp as [He Hmin].
  assert (Hin : mkArmed e k ∈ pending s) by (by apply Hq).
  pose proof (ref_sorted _ _ Hq) as Hs. pose proof (ref_pending _ _ Hq) as Hpend.
  destruct (pending s) as [|[e' k'] rest]; [set_solver|].
  apply elem_of_cons in Hin as [<-|Hin]; [eauto|].
  inversion Hs as [|? ? _ HF]; subst. rewrite Forall_forall in HF.
  specialize (HF _ Hin). specialize (Hmin e'). unfold armed_before in HF. simpl in HF.
  rewrite Hmin in HF; [done|]. apply (Hpend e' k'). left.
Qed.

Lemma armed_before_irrefl (a : armed K) : ~ armed_before a a.
Proof. unfold armed_before. rewrite before_spec. lia. Qed.

Lemma refines_pop q s e k rest :
  refines q s -> pending s = mkArmed e k :: rest ->
  refines (mkQueue (registration_ids q) (filter (fun x => x ≠ e) (entries q))
             (delete (handle e) (registrations q))) (mkSpecQueue (issued s) rest).
Proof.
  intros [Hi Hs Hp Hn Hr Hb] Hpend. rewrite Hpend in *.
  assert (He : e ∈ entries q) by (apply (Hp e k); left).
  inversion Hs as [|? ? Hs' HF]; subst. rewrite Forall_forall in HF.
  assert (Hinj : forall e', e' ∈ entries q -> handle e' = handle e -> e' = e)
    by (intros; by eapply NoDup_fmap_inj_on).
  split; simpl; auto using NoDup_filter_handles.
  - intros e' k'. rewrite list_elem_of_filter, lookup_delete_Some.
    specialize (Hp e' k'). rewrite elem_of_cons in Hp. split.
    + intros Hin. destruct (proj1 Hp (or_intror Hin)) as [He' Hk'].
      assert (e' ≠ e).
      { intros ->. specialize (HF _ Hin). unfold armed_before in HF. simpl in HF.
        apply before_spec in HF. lia. }
      split_and!; auto.
    + intros ((Hne & He') & Hh & Hk'). destruct (proj2 Hp (conj He' Hk')) as [[=]|?]; done.
  - intros h k' [Hh Hk']%lookup_delete_Some. destruct (Hr h k' Hk') as (e' & He' & <-).
    exists e'. rewrite list_elem_of_filter. split; [|done]. split; [|done]. by intros ->.
  - intros e' [_ He']%list_elem_of_filter. auto.
Qed.

Lemma refines_delete q s h :
  refines q s ->
  refines (mkQueue (registration_ids q) (entries q) (delete h (registrations q)))
    (mkSpecQueue (issued s) (spec_cancel h (pending s))).
Proof.
  intros [Hi Hs Hp Hn Hr Hb]. split; simpl; auto.
  - unfold spec_cancel. clear -Hs. induction Hs as [|a l Hs IH HF]; [constructor|].
    rewrite filter_cons. case_decide; [|done]. constructor; [done|].
    rewrite Forall_forall in *. intros b [_ Hb]%list_elem_of_filter. auto.
  - intros e k. unfold spec_cancel. rewrite list_elem_of_filter, Hp, lookup_delete_Some.
    simpl. naive_solver.
  - intros h' k [_ Hk]%lookup_delete_Some. eauto.
Qed.

Lemma elem_of_insert_armed (a b : armed K) l : b ∈ insert_armed a l <-> b = a \/ b ∈ l.
Proof.
  induction l as [|x l IH]; simpl; [set_solver|].
  destruct (before _ _); rewrite !elem_of_cons; [done|]. rewrite IH. naive_solver.
Qed.

Lemma insert_armed_sorted (a : armed K) l :
  StronglySorted armed_before l ->
  Forall (fun b => handle (armed_entry b) < handle (armed_entry a)) l ->
  StronglySorted armed_before (insert_armed a l).
Proof.
  induction 1 as [|x l Hs IH HF]; simpl; intros Hh; [repeat constructor|].
  apply Forall_cons in Hh as [Hx Hh]. rewrite Forall_forall in HF.
  destruct (before _ _) eqn:E.
  - constructor; [by constructor; [|rewrite Forall_forall]|].
    rewrite Forall_forall. intros y [->|Hy]%elem_of_cons; [done|].
    specialize (HF y Hy). unfold armed_before in *. rewrite before_spec in *. lia.
  - constructor; [auto|]. rewrite Forall_forall.
    intros y [->|Hy]%elem_of_insert_armed; [|auto].
    unfold armed_before in *. rewrite before_spec, before_false in *. lia.
Qed.

Lemma refines_push q s t k h :
  refines q s -> h = issued s + 1 ->
  refines (mkQueue (MonotonicCounter.from_current h) (heap_push (mkEntry t h) (entries q))
             (<[h := k]> (registrations q)))
    (mkSpecQueue h (insert_armed (mkArmed (mkEntry t h) k) (pending s))).
Proof.
  intros [Hi Hs Hp Hn Hr Hb] ->.
  assert (Hfresh : forall e, e ∈ entries q -> handle e ≠ issued s + 1)
    by (intros e He; specialize (Hb e He); lia).
  split; simpl; [done|..].
  - apply insert_armed_sorted; [done|]. rewrite Forall_forall. intros [e k'] [He _]%Hp.
    simpl. specialize (Hb e He). lia.
  - intros e k'. rewrite elem_of_insert_armed, Hp, elem_of_cons. split.
    + intros [[= -> ->]|[He Hk]]; [by rewrite lookup_insert_eq; auto|].
      rewrite lookup_insert_ne by (intros Heq; by destruct (Hfresh e)). auto.
    + intros [[->|He] Hk]; simpl in *; [rewrite lookup_insert_eq in Hk; naive_solver|].
      rewrite lookup_insert_ne in Hk by (intros Heq; by destruct (Hfresh e)). auto.
  - apply NoDup_cons. split; [|done]. simpl.
    intros (e & He & Hin)%list_elem_of_fmap. by destruct (Hfresh e).
  - intros h' k' [[<- _]|[_ Hk]]%lookup_insert_Some.
    + eexists. split; [left|done].
    + destruct (Hr h' k' Hk) as (e & He & <-). eexists. split; [by right|done].
  - intros e [->|He]%elem_of_cons; simpl; [lia|]. specialize (Hb e He). lia.
Qed.

Lemma cancel_obs q s h :
  refines q s ->
  bool_decide (is_Some (registrations q !! h)) =
  bool_decide (Exists (fun a => handle (armed_entry a) = h) (pending s)).
Proof.
  intros Hq. apply bool_decide_ext. rewrite Exists_exists. split.
  - intros [k Hk]. destruct (ref_registered _ _ Hq h k Hk) as (e & He & <-).
    exists (mkArmed e k). by rewrite (ref_pending _ _ Hq).
  - intros ([e k] & [_ Hk]%(ref_pending _ _ Hq) & <-). eauto.
Qed.

Lemma refines_compact q s : refines q s -> refines (compact_if_sparse q) s.
Proof.
  intros Hq. unfold compact_if_sparse. destruct (_ <? _); [|done]. by apply refines_drop.
Qed.

(** Cancelling an unregistered handle leaves the abstract queue unchanged. *)
Lemma spec_cancel_absent q s h :
  refines q s -> registrations q !! h = None -> spec_cancel h (pending s) = pending s.
Proof.
  intros Hq Hh. apply filter_app_all. rewrite Forall_forall. intros [e k] [_ Hk]%(ref_pending _ _ Hq).
  simpl. intros <-. congruence.
Qed.

Lemma dq_exec_refines q s o :
  refines q s ->
  match spec_exec s o with
  | Ret (r, s') => exists q', dq_exec q o = Ret (r, q') /\ refines q' s'
  | Panics _ => False
  | ProcessAborts => dq_exec q o = ProcessAborts
  end.
Proof.
  intros Hq. destruct o as [t k|h| |now]; simpl.
  - unfold push, next_handle, MonotonicCounter.mint, MonotonicCounter.successor, checked_add_u64.
    rewrite (ref_issued _ _ Hq). destruct (_ <=? _); simpl; [|done].
    eexists. split; [done|]. by apply refines_push.
  - unfold cancel, take. rewrite <- (cancel_obs q s h Hq). eexists. split; [done|].
    case_bool_decide as Hh; simpl; [by apply refines_compact, refines_delete|].
    by apply refines_delete.
  - apply prune_refines in Hq as [Hq Ha]. unfold next_deadline, head_active in *.
    destruct (heap_peek _) as [e|] eqn:Ep.
    + destruct Ha as [k Hk]. destruct (pending_head_Some _ _ _ _ Hq Ep Hk) as [rest ->]. eauto.
    + rewrite (pending_head_None _ _ Hq Ep). eauto.
  - apply prune_refines in Hq as [Hq Ha]. unfold pop_due, head_active in *.
    destruct (heap_peek _) as [e|] eqn:Ep; simpl.
    + destruct Ha as [k Hk]. destruct (pending_head_Some _ _ _ _ Hq Ep Hk) as [rest Hr].
      rewrite Hr. simpl. destruct (at_ e <=? now); simpl; [|eauto].
      unfold heap_pop. rewrite Ep. unfold take. simpl. rewrite Hk.
      eexists. split; [done|]. by apply refines_pop with k.
    + rewrite (pending_head_None _ _ Hq Ep). eauto.
Qed.
End refinement.

Lemma run_refines {K} (ops : list (dq_op K)) (q : DeadlineQueue K) s :
  refines q s ->
  match run_ops spec_exec s ops with
  | Ret (observations, s') =>
      exists q', run_ops dq_exec q ops = Ret (observations, q') /\ refines q' s'
  | Panics _ => False
  | ProcessAborts => run_ops dq_exec q ops = ProcessAborts
  end.
Proof.
  revert q s. induction ops as [|o ops IH]; intros q s Hq; simpl; [eauto|].
  pose proof (dq_exec_refines q s o Hq) as Ho.
  destruct (spec_exec s o) as [[r s']| |]; simpl; [|done|by rewrite Ho].
  destruct Ho as (q' & -> & Hq'). simpl. specialize (IH q' s' Hq').
  destruct (run_ops spec_exec s' ops) as [[rs s'']| |]; simpl; [|done|by rewrite IH].
  destruct IH as (q'' & -> & Hq''). simpl. eauto.
Qed.

(** C12: every sequence of pushes, cancellations, deadline queries and pops
    observes exactly what a list sorted by instant and then by arming order
    would: the next deadline and the next due key are those of its first
    element, equal deadlines surface in arming order, handles are never
    reused, a stale handle cancels nothing, and popping a due entry never
    panics. *)
Theorem deadline_queue_refines_sorted_list {K} (ops : list (dq_op K)) :
  match run_ops spec_exec spec_empty ops with
  | Ret (observations, s) =>
      exists q, run_ops dq_exec empty_queue ops = Ret (observations, q) /\ refines q s
  | Panics _ => False
  | ProcessAborts => run_ops dq_exec empty_queue ops = ProcessAborts
  end.
Proof. apply run_refines, refines_empty. Qed.

(** Right after a successful cancellation the heap holds at most two
    entries per live registration. *)
Theorem cancel_bounds_storage {K} (q : DeadlineQueue K) s h q' :
  refines q s -> cancel q h = (true, q') ->
  (length (entries q') <= 2 * size (registrations q'))%nat.
Proof.
  intros Hq. unfold cancel, take. case_bool_decide as Hh; intros [= <-].
  pose proof (refines_delete q s h Hq) as Hd.
  set (q1 := mkQueue _ _ _) in *. unfold compact_if_sparse.
  destruct (_ <? _) eqn:E; zreflect; [simpl|lia].
  assert (Hsub : handle <$> filter (fun e => is_Some (registrations q1 !! handle e)) (entries q1)
                 ⊆+ elements (dom (registrations q1))).
  { apply NoDup_submseteq; [apply NoDup_filter_handles, Hd|].
    intros x (e & -> & [He _]%list_elem_of_filter)%list_elem_of_fmap.
    by rewrite elem_of_elements, elem_of_dom. }
  apply submseteq_length in Hsub. rewrite length_fmap in Hsub.
  change (length (elements ?X)) with (size X) in Hsub. rewrite size_dom in Hsub.
  subst q1. simpl in Hsub. lia.
Qed.

(** Two registrations are cancelled out of three. *)
Definition demo_queue : outcome (list (dq_obs nat) * DeadlineQueue nat) :=
  run_ops dq_exec empty_queue [OpPush 9 1%nat; OpPush 9 2%nat; OpPush 5 3%nat; OpCancel 3].

Lemma cancel_bounds_storage_witness :
  exists q', cancel (match demo_queue with Ret (_, q) => q | _ => empty_queue end) 2
               = (true, q') /\
    (length (entries q') <= 2 * size (registrations q'))%nat.
Proof.
  pose proof (run_refines [OpPush 9 1%nat; OpPush 9 2%nat; OpPush 5 3%nat; OpCancel 3]
    _ _ refines_empty) as (q & Hq & Href).
  eexists. split; [vm_compute; reflexivity|].
  vm_compute in Hq. injection Hq as <-.
  eapply (cancel_bounds_storage _ _ 2 _ Href). vm_compute. reflexivity.
Defined.
