(* ===== verification/StopLadder.v ===== *)
(** * The stop ladder

    [crates/shelterwood-core/src/engine.rs], [StopLadder]: the per-child
    escalation from cooperative cancellation through a tidy beat to a hard
    abort, with its force and framework-driver variants. *)

From S2P Require Import Prelude Time Exit Policy.

Inductive StopAction :=
| Cancel
| Escalate
| AbortFramework (phase : GracePhase)
| HardAbort (phase : GracePhase).

Inductive StopPhase := IdlePhase | Cooperative | Escalated | AbortingFramework | FinishedPhase.
#[export] Instance StopPhase_eq_dec : EqDecision StopPhase.
Proof. solve_decision. Defined.

Record StopLadder := mkLadder
  { policy : Shutdown;
    phase : StopPhase;
    deadline : option Z;
    grace_phase : GracePhase;
    force_requested : bool;
    framework_driver : bool;
    framework_abort_acked : bool }.

Section ladder.
Context {clock : Clock}.
Implicit Types l : StopLadder.

Definition with_framework_driver (p : Shutdown) (framework : bool) : StopLadder :=
  mkLadder p IdlePhase None WithinGrace false framework false.

Definition ladder_new (p : Shutdown) : StopLadder := with_framework_driver p false.
Definition for_framework_driver (p : Shutdown) : StopLadder := with_framework_driver p true.

Definition due l (now : Z) : bool := is_some_and (deadline l) (fun d => now >=? d).

Definition is_graceful (p : Shutdown) : bool :=
  match p with Graceful _ => true | AbortShutdown => false end.

Definition force l (now : Z) : StopLadder :=
  match phase l with
  | FinishedPhase => l
  | Cooperative =>
      let grace :=
        if negb (force_requested l) && is_graceful (policy l) && due l now
        then AfterGrace else grace_phase l in
      let deadline :=
        Some (match deadline l with Some d => Z.min d now | None => now end) in
      mkLadder (policy l) (phase l) deadline grace true
        (framework_driver l) (framework_abort_acked l)
  | _ =>
      mkLadder (policy l) (phase l) (deadline l) (grace_phase l) true
        (framework_driver l) (framework_abort_acked l)
  end.

Definition acknowledge_framework_abort l : StopLadder :=
  match phase l with
  | AbortingFramework =>
      mkLadder (policy l) (phase l) (deadline l) (grace_phase l) (force_requested l)
        (framework_driver l) true
  | _ => l
  end.

Definition advance l (now : Z) : option StopAction * StopLadder :=
  match phase l with
  | IdlePhase =>
      let deadline :=
        if force_requested l then Some now
        else
          match policy l with
          | Graceful grace => Deadline.instant (Deadline.after now (NonZeroDuration.get grace))
          | AbortShutdown => Some now
          end in
      (Some Cancel,
       mkLadder (policy l) Cooperative deadline (grace_phase l) (force_requested l)
         (framework_driver l) (framework_abort_acked l))
  | Cooperative =>
      if due l now then
        let '(grace, grace_ph) :=
          match policy l with
          | Graceful grace =>
              (NonZeroDuration.get grace,
               if negb (force_requested l) then AfterGrace else grace_phase l)
          | AbortShutdown => (Duration.ZERO, grace_phase l)
          end in
        let beat := if force_requested l then Duration.ZERO else grace in
        (Some Escalate,
         mkLadder (policy l) Escalated
           (Deadline.instant (Deadline.after now (tidy_abort_beat beat)))
           grace_ph (force_requested l) (framework_driver l) (framework_abort_acked l))
      else (None, l)
  | Escalated =>
      if due l now then
        if framework_driver l then
          (Some (AbortFramework (grace_phase l)),
           mkLadder (policy l) AbortingFramework
             (Deadline.instant (Deadline.after now (tidy_abort_beat Duration.ZERO)))
             (grace_phase l) (force_requested l) (framework_driver l)
             (framework_abort_acked l))
        else
          (Some (HardAbort (grace_phase l)),
           mkLadder (policy l) FinishedPhase None (grace_phase l) (force_requested l)
             (framework_driver l) (framework_abort_acked l))
      else (None, l)
  | AbortingFramework =>
      if due l now then
        (then_some (negb (framework_abort_acked l)) (HardAbort (grace_phase l)),
         mkLadder (policy l) FinishedPhase None (grace_phase l) (force_requested l)
           (framework_driver l) (framework_abort_acked l))
      else (None, l)
  | FinishedPhase => (None, l)
  end.

(** ** Runs *)

Inductive ladder_op := OpForce (now : Z) | OpAck | OpAdvance (now : Z).

Definition ladder_exec l (o : ladder_op) : option StopAction * StopLadder :=
  match o with
  | OpForce now => (None, force l now)
  | OpAck => (None, acknowledge_framework_abort l)
  | OpAdvance now => advance l now
  end.

Fixpoint ladder_run l (ops : list ladder_op) : list StopAction * StopLadder :=
  match ops with
  | [] => ([], l)
  | o :: ops =>
      let '(a, l) := ladder_exec l o in
      let '(acts, l) := ladder_run l ops in
      (option_list a ++ acts, l)
  end.

(** ** Every run climbs the ladder once *)

(** An action without its grace provenance. *)
Inductive rung := RungCancel | RungEscalate | RungFramework | RungHard.
Definition rung_of (a : StopAction) : rung :=
  match a with
  | Cancel => RungCancel | Escalate => RungEscalate
  | AbortFramework _ => RungFramework | HardAbort _ => RungHard
  end.

(** The rungs still ahead of a ladder. *)
Definition ahead l : list rung :=
  let tail := if framework_driver l then [RungFramework; RungHard] else [RungHard] in
  match phase l with
  | IdlePhase => RungCancel :: RungEscalate :: tail
  | Cooperative => RungEscalate :: tail
  | Escalated => tail
  | AbortingFramework => [RungHard]
  | FinishedPhase => []
  end.

Lemma exec_ahead l o a l' :
  ladder_exec l o = (a, l') ->
  framework_driver l' = framework_driver l /\
  ((exists rest, ahead l = (rung_of <$> option_list a) ++ rest /\ rest = ahead l') \/
   (a = None /\ ahead l' = [])).
Proof.
  destruct o as [now| |now]; simpl; [| |unfold advance].
  - intros [= <- <-]. unfold force. destruct (phase l) eqn:Ep; simpl; (split; [done|]); left;
      eexists; split; try done; unfold ahead; simpl; by rewrite Ep.
  - intros [= <- <-]. unfold acknowledge_framework_abort.
    destruct (phase l) eqn:Ep; simpl; (split; [done|]); left; eexists; split; try done;
      unfold ahead; simpl; by rewrite Ep.
  - destruct (phase l) eqn:Ep; repeat case_match; intros [= <- <-]; simpl; split; try done;
      try (left; eexists; split; [|done]; unfold ahead; simpl; rewrite ?Ep; congruence || done);
      try (left; eexists; split; [|done]; unfold ahead; simpl; rewrite Ep;
           repeat case_match; congruence).
    destruct (framework_abort_acked l); simpl; [by right|].
    left; eexists; split; [|done]. unfold ahead; simpl. by rewrite Ep.
Qed.

Lemma run_ahead l ops :
  (rung_of <$> (ladder_run l ops).1) `prefix_of` ahead l.
Proof.
  revert l. induction ops as [|o ops IH]; intros l; simpl; [apply prefix_nil|].
  destruct (ladder_exec l o) as [a l'] eqn:E. specialize (IH l').
  destruct (ladder_run l' ops) as [acts l''] eqn:Er. simpl in *.
  apply exec_ahead in E as [_ [(rest & -> & ->)|[-> Hn]]]; rewrite fmap_app.
  - by apply prefix_app.
  - simpl. rewrite Hn in IH. apply prefix_nil_inv in IH. rewrite IH. apply prefix_nil.
Qed.

(** Whatever forces, acknowledgements and clock readings a stop ladder
    receives, the actions it issues are a prefix of cancel, escalate, (abort
    framework,) hard abort: no rung is skipped, repeated or reordered. *)
Theorem ladder_actions_prefix p framework ops :
  (rung_of <$> (ladder_run (with_framework_driver p framework) ops).1) `prefix_of`
  (if framework then [RungCancel; RungEscalate; RungFramework; RungHard]
   else [RungCancel; RungEscalate; RungHard]).
Proof.
  pose proof (run_ahead (with_framework_driver p framework) ops) as H.
  by destruct framework.
Qed.

(** ** Grace provenance *)

Definition first_advance (ops : list ladder_op) : option Z :=
  head (omap (fun o => match o with OpAdvance t => Some t | _ => None end) ops).

(** The cooperative grace, counted from the first advance, ran out at a clock
    reading the ladder was given. *)
Definition grace_expired (p : Shutdown) (ops : list ladder_op) : Prop :=
  exists g t0 t, p = Graceful g /\ first_advance ops = Some t0 /\
    (OpAdvance t ∈ ops \/ OpForce t ∈ ops) /\ t0 + NonZeroDuration.get g <= t.

Record grace_inv (p : Shutdown) (ops : list ladder_op) l : Prop := {
  gi_policy : policy l = p;
  gi_idle : phase l = IdlePhase -> first_advance ops = None;
  gi_cooperative : phase l = Cooperative ->
    exists t0, first_advance ops = Some t0 /\
      (force_requested l = false -> forall g d, p = Graceful g -> deadline l = Some d ->
       d = t0 + NonZeroDuration.get g);
  gi_after : grace_phase l = AfterGrace -> grace_expired p ops
}.

Lemma first_advance_snoc ops o t :
  first_advance ops = Some t -> first_advance (ops ++ [o]) = Some t.
Proof.
  unfold first_advance. rewrite omap_app. by destruct (omap _ ops).
Qed.

Lemma first_advance_none ops o :
  first_advance ops = None ->
  first_advance (ops ++ [o]) = match o with OpAdvance t => Some t | _ => None end.
Proof.
  unfold first_advance. rewrite omap_app. destruct (omap _ ops); [|done].
  intros _. by destruct o.
Qed.

Lemma grace_expired_snoc p ops o : grace_expired p ops -> grace_expired p (ops ++ [o]).
Proof.
  intros (g & t0 & t & -> & Hf & Hin & Hle). exists g, t0, t.
  rewrite !elem_of_app.
  split_and!; [done|by apply first_advance_snoc|naive_solver|done].
Qed.

Lemma due_iff l now : due l now = true <-> exists d, deadline l = Some d /\ d <= now.
Proof.
  unfold due. rewrite is_some_and_true. setoid_rewrite Z.geb_le. done.
Qed.

(** Escalation out of an unforced graceful ladder happens past the grace. *)
Lemma cooperative_due_expired p ops l t o :
  grace_inv p ops l -> phase l = Cooperative -> force_requested l = false ->
  due l t = true -> is_graceful (policy l) = true ->
  (o = OpAdvance t \/ o = OpForce t) -> grace_expired p (ops ++ [o]).
Proof.
  intros [Hp _ Hc _] Hph Hf (d & Hd & Hle)%due_iff Hg Ho.
  destruct (Hc Hph) as (t0 & Ht0 & Hdl). subst p.
  destruct (policy l) as [g|] eqn:Epol; [|done].
  specialize (Hdl Hf g d eq_refl Hd). exists g, t0, t.
  split_and!; [done|by apply first_advance_snoc| |lia].
  rewrite !elem_of_app, !list_elem_of_singleton. naive_solver.
Qed.

Lemma grace_inv_force p ops l t :
  grace_inv p ops l -> grace_inv p (ops ++ [OpForce t]) (force l t).
Proof.
  intros Hi. pose proof Hi as [Hp Hid Hc Ha]. unfold force.
  destruct (phase l) eqn:Ep; split; simpl; try done; try (by rewrite Ep);
    try (intros; by apply grace_expired_snoc, Ha);
    try (intros; rewrite first_advance_none; [done|]; congruence || auto).
  - destruct (Hc eq_refl) as (t0 & Ht0 & _). intros _. exists t0.
    split; [by apply first_advance_snoc|done].
  - destruct (negb _ && _ && _) eqn:E; [|intros; by apply grace_expired_snoc, Ha].
    zreflect. intros _. eapply cooperative_due_expired; eauto.
Qed.

Lemma grace_inv_ack p ops l :
  grace_inv p ops l -> grace_inv p (ops ++ [OpAck]) (acknowledge_framework_abort l).
Proof.
  intros [Hp Hid Hc Ha].
  assert (Hl : policy (acknowledge_framework_abort l) = policy l /\
    phase (acknowledge_framework_abort l) = phase l /\
    deadline (acknowledge_framework_abort l) = deadline l /\
    force_requested (acknowledge_framework_abort l) = force_requested l /\
    grace_phase (acknowledge_framework_abort l) = grace_phase l).
  { unfold acknowledge_framework_abort. destruct (phase l) eqn:Ep; simpl; auto. }
  destruct Hl as (H1 & H2 & H3 & H4 & H5). split; rewrite ?H1, ?H2, ?H3, ?H4, ?H5; auto.
  - intros H. rewrite first_advance_none; auto.
  - intros H. destruct (Hc H) as (t0 & Ht0 & Hd). exists t0. split; [|done].
    by apply first_advance_snoc.
  - intros H. by apply grace_expired_snoc, Ha.
Qed.

Lemma grace_inv_advance p ops l t :
  grace_inv p ops l -> grace_inv p (ops ++ [OpAdvance t]) (advance l t).2.
Proof.
  intros Hi. pose proof Hi as [Hp Hid Hc Ha].
  assert (Hstay : phase l ≠ IdlePhase -> grace_inv p (ops ++ [OpAdvance t]) l).
  { intros Hne. split; [done|done| |intros; by apply grace_expired_snoc, Ha].
    intros H. destruct (Hc H) as (t0 & Ht0 & Hd). exists t0. split; [|done].
    by apply first_advance_snoc. }
  unfold advance. destruct (phase l) eqn:Ep; simpl; [| | | |by apply Hstay].
  - split; simpl; [done|done| |intros; by apply grace_expired_snoc, Ha].
    intros _. exists t. rewrite first_advance_none by auto. split; [done|].
    intros -> g d Hg. subst p. rewrite Hg. apply Deadline.after_exact.
  - destruct (due l t) eqn:Ed; [|by apply Hstay].
    destruct (policy l) as [g|] eqn:Epol; simpl.
    + split; simpl; [congruence|done..|].
      destruct (force_requested l) eqn:Ef; simpl; [intros; by apply grace_expired_snoc, Ha|].
      intros _. eapply cooperative_due_expired; eauto. by rewrite Epol.
    + split; simpl; [congruence|done..|intros; by apply grace_expired_snoc, Ha].
  - destruct (due l t); [|by apply Hstay]. destruct (framework_driver l); simpl;
      (split; simpl; [done|done|done|intros; by apply grace_expired_snoc, Ha]).
  - destruct (due l t); [|by apply Hstay]. simpl.
    (split; simpl; [done|done|done|intros; by apply grace_expired_snoc, Ha]).
Qed.

Lemma grace_inv_exec p ops l o : grace_inv p ops l -> grace_inv p (ops ++ [o]) (ladder_exec l o).2.
Proof.
  destruct o; simpl; [apply grace_inv_force|apply grace_inv_ack|apply grace_inv_advance].
Qed.

Lemma grace_inv_run p before_ops l ops :
  grace_inv p before_ops l -> grace_inv p (before_ops ++ ops) (ladder_run l ops).2.
Proof.
  revert before_ops l. induction ops as [|o ops IH]; intros h l Hi; simpl.
  { by rewrite app_nil_r. }
  apply (grace_inv_exec _ _ _ o) in Hi. destruct (ladder_exec l o) as [a l'].
  simpl in Hi. specialize (IH _ _ Hi). revert IH. destruct (ladder_run l' ops) as [acts lf]. simpl.
  by rewrite <- app_assoc.
Qed.

(** A ladder records that a child was aborted after its grace only when
    its policy has a grace, and that grace - counted from the first advance -
    had really elapsed at a clock reading given to the ladder; forcing a
    ladder early never fabricates an expired grace. *)
Theorem after_grace_is_sound p framework ops :
  grace_phase (ladder_run (with_framework_driver p framework) ops).2 = AfterGrace ->
  grace_expired p ops.
Proof.
  apply (grace_inv_run p [] (with_framework_driver p framework) ops).
  split; done.
Qed.

(** ** Timelines *)

(** Before its deadline a waiting ladder does nothing. *)
Lemma advance_early l now :
  phase l ≠ IdlePhase -> due l now = false -> advance l now = (None, l).
Proof. unfold advance. intros Hi ->. by destruct (phase l). Qed.

Lemma armed_after started duration :
  0 <= duration -> started + duration + Deadline.ARMING_HEADROOM <= instant_max ->
  Deadline.instant (Deadline.after started duration) = Some (started + duration).
Proof.
  intros Hd Hh. rewrite Deadline.after_spec, decide_True; [done|].
  unfold Deadline.armable, Deadline.ARMING_HEADROOM, Duration.from_secs, Duration.NANOS_PER_SEC in *.
  lia.
Qed.

Lemma beat_nonneg g : 0 <= tidy_abort_beat g.
Proof. unfold tidy_abort_beat, Duration.clamp, Duration.from_millis. lia. Qed.

(** The ladder of a child with grace [g], once escalated at [t1]. *)
Definition escalated (g : NonZeroDuration.t) framework (t1 : Z) : StopLadder :=
  mkLadder (Graceful g) Escalated (Some (t1 + tidy_abort_beat (NonZeroDuration.get g)))
    AfterGrace false framework false.

(** A graceful, unforced ladder away from the clock ceiling cancels at its
    first advance [t0], does nothing before [t0 + grace], escalates at the
    first advance from then on, does nothing during the tidy beat, and hard
    aborts after it, recording that the grace expired. *)
Theorem graceful_timeline g t0 t1 t2 :
  0 < NonZeroDuration.get g ->
  t0 + NonZeroDuration.get g <= t1 ->
  t1 + tidy_abort_beat (NonZeroDuration.get g) <= t2 ->
  t2 + Deadline.ARMING_HEADROOM <= instant_max ->
  let l1 := (advance (ladder_new (Graceful g)) t0).2 in
  let l2 := (advance l1 t1).2 in
  (advance (ladder_new (Graceful g)) t0).1 = Some Cancel /\
  (forall t, t < t0 + NonZeroDuration.get g -> advance l1 t = (None, l1)) /\
  (advance l1 t1).1 = Some Escalate /\
  (forall t, t < t1 + tidy_abort_beat (NonZeroDuration.get g) -> advance l2 t = (None, l2)) /\
  (advance l2 t2).1 = Some (HardAbort AfterGrace) /\
  (forall t, (advance (advance l2 t2).2 t).1 = None).
Proof.
  intros Hg H1 H2 Hmax l1 l2. pose proof (beat_nonneg (NonZeroDuration.get g)) as Hb.
  assert (Hl1 : l1 = mkLadder (Graceful g) Cooperative (Some (t0 + NonZeroDuration.get g))
                       WithinGrace false false false).
  { unfold l1, advance; simpl. by rewrite armed_after by lia. }
  assert (Hdue1 : due l1 t1 = true) by (apply due_iff; rewrite Hl1; eauto).
  assert (Hl2 : advance l1 t1 = (Some Escalate, escalated g false t1)).
  { unfold advance. rewrite Hdue1, Hl1; simpl. by rewrite armed_after by lia. }
  assert (Hdue2 : due l2 t2 = true) by (apply due_iff; unfold l2; rewrite Hl2; simpl; eauto).
  assert (Hl3 : advance l2 t2 = (Some (HardAbort AfterGrace),
    mkLadder (Graceful g) FinishedPhase None AfterGrace false false false)).
  { unfold advance. rewrite Hdue2. unfold l2. by rewrite Hl2. }
  split_and!; [done| |by rewrite Hl2| |by rewrite Hl3|by rewrite Hl3].
  - intros t Ht. apply advance_early; [by rewrite Hl1|].
    apply not_true_iff_false. rewrite due_iff, Hl1. intros (d & [= <-] & ?). lia.
  - intros t Ht. apply advance_early; [unfold l2; by rewrite Hl2|].
    apply not_true_iff_false. rewrite due_iff. unfold l2. rewrite Hl2.
    intros (d & [= <-] & ?). lia.
Qed.

(** Forcing a fresh ladder of any policy, away from the clock ceiling,
    collapses it to the zero-grace schedule: cancel and escalate at the force
    instant, hard abort one millisecond later, recorded as within grace - even
    when the configured grace could never be armed. *)
Theorem forced_timeline p t :
  t + Duration.from_millis 1 + Deadline.ARMING_HEADROOM <= instant_max ->
  (ladder_run (ladder_new p)
     [OpForce t; OpAdvance t; OpAdvance t; OpAdvance (t + Duration.from_millis 1)]).1
  = [Cancel; Escalate; HardAbort WithinGrace] /\
  (ladder_run (ladder_new p) [OpAdvance t; OpForce t; OpAdvance t]).1 = [Cancel; Escalate].
Proof.
  intros Hmax.
  assert (Hbeat : Deadline.instant (Deadline.after t (tidy_abort_beat Duration.ZERO))
                  = Some (t + Duration.from_millis 1)) by (by apply armed_after).
  assert (Hge : forall x, (x >=? x) = true) by (intros x; rewrite Z.geb_leb; apply Z.leb_refl).
  split.
  - simpl. unfold advance, force, due; simpl.
    destruct p; simpl; rewrite Hge; simpl; rewrite Hbeat; simpl; by rewrite Hge.
  - simpl. unfold advance, force, due; simpl. destruct p as [g|]; simpl.
    + destruct (Deadline.instant _) as [d|]; simpl;
        repeat case_match; simplify_eq/=; try done; zreflect;
        rewrite Z.geb_leb in *; zreflect; lia.
    + by rewrite Z.min_id, Hge.
Qed.
End ladder.

(** A five-second grace, on the Unix clock. *)
Lemma graceful_timeline_witness :
  let g := NonZeroDuration.seal (Duration.from_secs 5) in
  let l1 := (advance (clock := unix_clock) (ladder_new (Graceful g)) 0).2 in
  (advance (clock := unix_clock) l1 (Duration.from_secs 6)).1 = Some Escalate.
Proof.
  intros g l1.
  apply (graceful_timeline (clock := unix_clock) g 0 (Duration.from_secs 6) (Duration.from_secs 7));
    vm_compute; discriminate || reflexivity.
Defined.

Lemma forced_timeline_witness :
  (ladder_run (clock := unix_clock) (ladder_new AbortShutdown)
     [OpForce 7; OpAdvance 7; OpAdvance 7; OpAdvance (7 + Duration.from_millis 1)]).1
  = [Cancel; Escalate; HardAbort WithinGrace].
Proof. apply (forced_timeline (clock := unix_clock) AbortShutdown 7). vm_compute. discriminate. Defined.

Lemma after_grace_is_sound_witness :
  grace_expired (Graceful (NonZeroDuration.seal 3)) [OpAdvance 0; OpAdvance 4].
Proof.
  apply (after_grace_is_sound (clock := unix_clock) (Graceful (NonZeroDuration.seal 3)) false).
  vm_compute. reflexivity.
Defined.
