(* ===== verification/Restart.v ===== *)
(** * Restart decisions

    [crates/shelterwood-core/src/engine.rs]: exit dispatch, the rolling
    restart-intensity window, per-membership restart counters, the restart
    decision, and the arbitration of simultaneous driver events. *)

From S2P Require Import Prelude Time Exit Policy Float64.

(** ** Arbitration *)

Inductive ArbitrationClass :=
| ScopeShutdown | MembershipRemoval | ChildExit | ReadinessSignal
| ReadinessDeadlineClass | BackoffDue | StopDeadline | Admission.

(** Derived order: declaration order. *)
Definition class_discriminant (c : ArbitrationClass) : Z :=
  match c with
  | ScopeShutdown => 0 | MembershipRemoval => 1 | ChildExit => 2 | ReadinessSignal => 3
  | ReadinessDeadlineClass => 4 | BackoffDue => 5 | StopDeadline => 6 | Admission => 7
  end.

(** [slice::sort_by_key], the standard library's stable sort. *)
Fixpoint stable_insert {A} (key : A -> Z) (x : A) (l : list A) : list A :=
  match l with
  | [] => [x]
  | y :: l' => if key x <=? key y then x :: l else y :: stable_insert key x l'
  end.

Definition sort_by_key {A} (key : A -> Z) (l : list A) : list A :=
  foldr (stable_insert key) [] l.

Definition arbitrate {T} (events : list (ArbitrationClass * T)) : list (ArbitrationClass * T) :=
  sort_by_key (fun e => class_discriminant e.1) events.

(** ** Exit dispatch *)

Inductive MembershipStatus := Active | Removing.
#[export] Instance MembershipStatus_eq_dec : EqDecision MembershipStatus.
Proof. solve_decision. Defined.

Inductive ExitDispatch := Terminal | ScheduleRestart.

Definition dispatch_exit (exit : Exit) (restart : RestartPolicy) (scope_draining : bool)
    (membership : MembershipStatus) : outcome ExitDispatch :=
  _ ← assert_that (match exit_kind exit with NeverStarted => false | _ => true end)
        "NeverStarted is a membership outcome outside incarnation dispatch";
  if scope_draining || bool_decide (membership = Removing) then Ret Terminal
  else if should_restart restart exit then Ret ScheduleRestart
  else Ret Terminal.

(** ** Restart intensity *)

Record IntensityState := mkIntensityState
  { charges : list Z; total_restarts : TotalRestarts.t }.

Definition intensity_state_default : IntensityState := mkIntensityState [] TotalRestarts.ZERO.

Record IntensityCharge := mkIntensityCharge
  { charge_policy : Intensity.t; in_window : Z;
    charge_total_restarts : TotalRestarts.t; tripped : bool }.

Definition intensity_trip_new (c : IntensityCharge) : IntensityTrip :=
  mkIntensityTrip (Intensity.max_restarts (charge_policy c)) (in_window c)
    (Intensity.within (charge_policy c)).

(** The loop that pops charges older than the window off the front. *)
Fixpoint drop_stale (within now : Z) (charges : list Z) : list Z :=
  match charges with
  | [] => []
  | c :: rest =>
      if is_some_and (Instant.checked_duration_since now c) (fun age => age >? within)
      then drop_stale within now rest else charges
  end.

Definition charge (st : IntensityState) (p : Intensity.t) (now : Z)
  : IntensityCharge * IntensityState :=
  let cs := drop_stale (Intensity.within p) now (charges st) ++ [now] in
  let total := TotalRestarts.bump (total_restarts st) in
  let n := len_u64 cs in
  (mkIntensityCharge p n total (n >? Intensity.max_restarts p), mkIntensityState cs total).

(** ** Restart counters *)

Record RestartState := mkRestartState
  { attempt : RestartAttempt.t; cumulative : RestartCount.t }.

Record IncarnationRun := mkRun { started_at : Z; stopped_at : Z }.

Definition restart_state_new : RestartState := mkRestartState RestartAttempt.ZERO RestartCount.ZERO.

Definition schedule (st : RestartState) : (RestartAttempt.t * RestartCount.t) * RestartState :=
  let a := RestartAttempt.bump (attempt st) in
  let c := RestartCount.bump (cumulative st) in
  ((a, c), mkRestartState a c).

Definition settled (st : RestartState) : RestartState :=
  mkRestartState RestartAttempt.ZERO (cumulative st).

Definition settle_if_stable (st : RestartState) (run : IncarnationRun) (stable_for : Z)
  : bool * RestartState :=
  if Instant.saturating_duration_since (stopped_at run) (started_at run) <? stable_for
  then (false, st) else (true, settled st).

(** ** The restart decision *)

Record RestartDecision := mkDecision
  { decision_attempt : RestartAttempt.t;
    decision_restart_count : RestartCount.t;
    decision_delay : Z;
    decision_restart_at : option Z;
    decision_charge : IntensityCharge }.

Definition decision_total_restarts (d : RestartDecision) : TotalRestarts.t :=
  charge_total_restarts (decision_charge d).

Definition decision_intensity_trip (d : RestartDecision) : option IntensityTrip :=
  if tripped (decision_charge d) then Some (intensity_trip_new (decision_charge d)) else None.

Section decision.
Context {clock : Clock}.
Variable powi : f64 -> Z -> f64.

Definition schedule_restart (restarts : RestartState) (intensity : IntensityState)
    (intensity_policy : Intensity.t) (restart_policy : RestartPolicy) (now : Z)
    (jitter_sample : JitterSample.t)
  : outcome (RestartDecision * RestartState * IntensityState) :=
  let '((a, count), restarts) := schedule restarts in
  delay ← next_delay powi (backoff restart_policy) a jitter_sample;
  let restart_at := Deadline.instant (Deadline.after now delay) in
  let '(c, intensity) := charge intensity intensity_policy now in
  Ret (mkDecision a count delay restart_at c, restarts, intensity).
End decision.

(** ** Arbitration is the stable sort by class *)

Section sorting.
Context {A : Type} (key : A -> Z).

Lemma stable_insert_perm x l : stable_insert key x l ≡ₚ x :: l.
Proof.
  induction l as [|y l IH]; simpl; [done|]. destruct (_ <=? _); [done|].
  rewrite IH. constructor.
Qed.

Lemma sort_by_key_perm l : sort_by_key key l ≡ₚ l.
Proof. induction l as [|x l IH]; simpl; [done|]. by rewrite stable_insert_perm, IH. Qed.

Lemma stable_insert_sorted x l :
  StronglySorted (fun a b => key a <= key b) l ->
  StronglySorted (fun a b => key a <= key b) (stable_insert key x l).
Proof.
  induction 1 as [|y l Hs IH HF]; simpl; [repeat constructor|].
  destruct (_ <=? _) eqn:E; zreflect.
  - repeat constructor; auto. eapply Forall_impl; [done|]. simpl. lia.
  - constructor; [done|]. rewrite Forall_forall in *. intros z.
    rewrite stable_insert_perm. intros [->|Hz]%elem_of_cons; [lia|auto].
Qed.

Lemma sort_by_key_sorted l : StronglySorted (fun a b => key a <= key b) (sort_by_key key l).
Proof. induction l; simpl; [constructor|by apply stable_insert_sorted]. Qed.

Lemma stable_insert_filter k x l :
  filter (fun a => key a = k) (stable_insert key x l) = filter (fun a => key a = k) (x :: l).
Proof.
  induction l as [|y l IH]; [done|]. cbn [stable_insert].
  destruct (_ <=? _) eqn:E; [done|]. zreflect.
  rewrite (filter_cons _ y), IH, (filter_cons _ x), (filter_cons _ x), (filter_cons _ y).
  repeat case_decide; done || lia.
Qed.

Lemma sort_by_key_stable k l :
  filter (fun a => key a = k) (sort_by_key key l) = filter (fun a => key a = k) l.
Proof.
  induction l as [|x l IH]; [done|]. cbn [sort_by_key foldr].
  rewrite stable_insert_filter, !filter_cons. fold (sort_by_key key l). by rewrite IH.
Qed.
End sorting.

(** Arbitrating simultaneous driver events keeps all of them, orders them
    by class priority, and keeps each class's events in observation order. *)
Theorem arbitrate_stable {T} (events : list (ArbitrationClass * T)) :
  arbitrate events ≡ₚ events /\
  StronglySorted (fun a b => class_discriminant a.1 <= class_discriminant b.1)
    (arbitrate events) /\
  forall c, filter (fun e => class_discriminant e.1 = c) (arbitrate events)
            = filter (fun e => class_discriminant e.1 = c) events.
Proof.
  split_and!; [apply sort_by_key_perm|apply sort_by_key_sorted|]. intros c.
  apply (sort_by_key_stable (fun e : ArbitrationClass * T => class_discriminant e.1)).
Qed.

(** An exit is scheduled for restart exactly when the scope is not
    draining, the membership is not being removed, and the policy restarts
    this exit; dispatching a membership-level never-started exit is a
    framework bug and panics. *)
Theorem dispatch_exit_spec exit restart draining status :
  (exit_kind exit = NeverStarted ->
   dispatch_exit exit restart draining status =
     Panics "NeverStarted is a membership outcome outside incarnation dispatch") /\
  (exit_kind exit ≠ NeverStarted ->
   exists d, dispatch_exit exit restart draining status = Ret d /\
   (d = ScheduleRestart <->
    draining = false /\ status = Active /\
    (condition restart = Always \/
     condition restart = OnFailure /\ exit_kind exit ≠ Completed))).
Proof.
  unfold dispatch_exit, should_restart, is_failure. split.
  - by intros ->.
  - intros Hne. destruct (exit_kind exit) eqn:Ek; try done; simpl;
      destruct draining, status; simpl; try (eexists; split; [done|]; naive_solver);
      destruct (condition restart) eqn:Ec; simpl; eexists; (split; [done|]); naive_solver.
Qed.

(** ** The rolling window *)

(** Reference: the charges of a history that are at most [within] old. *)
Definition window (within now : Z) (history : list Z) : list Z :=
  filter (fun t => now - t <= within) history.

Definition charge_all (p : Intensity.t) (history : list Z) : IntensityState :=
  foldl (fun st now => (charge st p now).2) intensity_state_default history.

Lemma charge_all_snoc p history now :
  charge_all p (history ++ [now]) = (charge (charge_all p history) p now).2.
Proof. unfold charge_all. by rewrite foldl_app. Qed.

Lemma drop_stale_sorted within now cs :
  StronglySorted Z.le cs -> Forall (fun c => c <= now) cs ->
  drop_stale within now cs = window within now cs.
Proof.
  unfold window. induction 1 as [|c cs Hs IH HF]; intros Hn; [done|].
  apply Forall_cons in Hn as [Hc Hn]. cbn [drop_stale]. unfold Instant.checked_duration_since.
  rewrite (proj2 (Z.leb_le c now)) by done. simpl.
  destruct (now - c >? within) eqn:E.
  - apply Z.gtb_lt in E. rewrite filter_cons_False by lia. auto.
  - assert (now - c <= within) by (rewrite Z.gtb_ltb in E; zreflect; lia).
    symmetry. apply filter_app_all. rewrite Forall_forall in *.
    intros x [->|Hx]%elem_of_cons; [done|]. specialize (HF x Hx). lia.
Qed.

Lemma window_window within now now' history :
  now <= now' -> window within now' (window within now history) = window within now' history.
Proof.
  intros Hle. unfold window. rewrite list_filter_filter. apply list_filter_iff. intros t. lia.
Qed.

(** The retained charges of a nondecreasing history are its window. *)
Lemma charge_all_window p history now :
  0 <= Intensity.within p -> StronglySorted Z.le (history ++ [now]) ->
  charges (charge_all p (history ++ [now])) = window (Intensity.within p) now (history ++ [now]).
Proof.
  intros Hw. revert now. induction history as [|t history IH] using rev_ind; intros now Hs.
  { simpl. unfold window. rewrite filter_cons_True by lia. done. }
  rewrite charge_all_snoc. cbn [charge charges snd].
  apply StronglySorted_app_inv in Hs as (Hs & _ & Hle).
  rewrite IH by done.
  assert (Hall : forall x, x ∈ history ++ [t] -> x <= now)
    by (intros x Hx; apply Hle; [done|set_solver]).
  rewrite drop_stale_sorted.
  - rewrite window_window by (apply Hall; set_solver).
    unfold window. rewrite (filter_app _ (history ++ [t])). f_equal.
    by rewrite filter_cons_True by lia.
  - clear -Hs. unfold window. induction Hs as [|x l Hs IH HF]; [constructor|].
    rewrite filter_cons. case_decide; [|done]. constructor; [done|].
    rewrite Forall_forall in *. intros y [_ Hy]%list_elem_of_filter. auto.
  - rewrite Forall_forall. intros x [_ Hx]%list_elem_of_filter. auto.
Qed.

Lemma charge_all_total p history :
  TotalRestarts.get (total_restarts (charge_all p history)) = len_u64 history.
Proof.
  induction history as [|t history IH] using rev_ind; [done|].
  rewrite charge_all_snoc. cbn [charge total_restarts snd TotalRestarts.bump TotalRestarts.get].
  rewrite IH. unfold len_u64, saturating_add_u64. rewrite length_app. simpl. lia.
Qed.

(** Under a nondecreasing clock, charging a restart counts exactly the
    charges at most [within] old, itself included; the scope trips exactly
    when that count exceeds the budget, the trip carries that count, and the
    diagnostic total counts every charge (both saturating at [u64::MAX]). *)
Theorem intensity_charge_exact p history now :
  0 <= Intensity.within p -> StronglySorted Z.le (history ++ [now]) ->
  let '(c, st) := charge (charge_all p history) p now in
  let n := len_u64 (window (Intensity.within p) now (history ++ [now])) in
  in_window c = n /\
  (tripped c = true <-> Intensity.max_restarts p < n) /\
  TotalRestarts.get (charge_total_restarts c) = len_u64 (history ++ [now]) /\
  charges st = window (Intensity.within p) now (history ++ [now]).
Proof.
  intros Hw Hs. pose proof (charge_all_window p history now Hw Hs) as Hc.
  pose proof (charge_all_total p (history ++ [now])) as Ht.
  rewrite charge_all_snoc in *. cbn [charge charges total_restarts snd in_window tripped
    charge_total_restarts] in *.
  rewrite Hc. split_and!; [done| |done|done]. rewrite Z.gtb_lt. done.
Qed.

Lemma intensity_charge_exact_witness :
  tripped (charge (charge_all (Intensity.seal 2 10) [0; 8; 9]) (Intensity.seal 2 10) 12).1 = true.
Proof.
  apply (intensity_charge_exact (Intensity.seal 2 10) [0; 8; 9] 12);
    [vm_compute; discriminate|repeat (constructor; [|repeat constructor; lia]); constructor|].
  vm_compute. reflexivity.
Defined.

(** ** Restart counters along a run *)

Inductive restart_op := OpSchedule | OpSettle (run : IncarnationRun).

Definition restart_exec (stable_for : Z) (st : RestartState) (o : restart_op) : RestartState :=
  match o with
  | OpSchedule => (schedule st).2
  | OpSettle run => (settle_if_stable st run stable_for).2
  end.

(** A run at least [stable_for] long; a clock regression counts as zero. *)
Definition stable (stable_for : Z) (run : IncarnationRun) : Prop :=
  stable_for <= Z.max 0 (stopped_at run - started_at run).

Definition is_schedule (o : restart_op) : bool :=
  match o with OpSchedule => true | _ => false end.

(** Schedules since the last stable settlement, newest operation last. *)
Fixpoint consecutive (stable_for : Z) (acc : nat) (ops : list restart_op) : nat :=
  match ops with
  | [] => acc
  | OpSchedule :: ops => consecutive stable_for (S acc) ops
  | OpSettle run :: ops =>
      consecutive stable_for
        (if stable_for <=? Z.max 0 (stopped_at run - started_at run) then 0%nat else acc) ops
  end.

Definition counts (st : RestartState) (a c : nat) : Prop :=
  RestartAttempt.get (attempt st) = Z.min (Z.of_nat a) u64_max /\
  RestartCount.get (cumulative st) = Z.min (Z.of_nat c) u64_max.

(** Along any run of schedules and settlements, the backoff attempt is the
    number of restarts scheduled since the last stable incarnation and the
    restart count is the number ever scheduled, both saturating; only an
    incarnation that really ran for [stable_for] resets the attempt. *)
Theorem restart_counters_exact stable_for ops :
  counts (foldl (restart_exec stable_for) restart_state_new ops)
    (consecutive stable_for 0 ops)
    (length (List.filter is_schedule ops)).
Proof.
  assert (Hgen : forall st a c, counts st a c ->
    counts (foldl (restart_exec stable_for) st ops) (consecutive stable_for a ops)
      (length (List.filter is_schedule ops) + c)).
  { induction ops as [|[|run] ops IH]; intros st a c Hc; simpl; [done|..].
    - rewrite plus_n_Sm. apply IH. destruct Hc as [Ha Hcu]. unfold counts, schedule, saturating_add_u64; simpl.
      unfold saturating_add_u64. rewrite Ha, Hcu. lia.
    - apply IH. unfold settle_if_stable, Instant.saturating_duration_since.
      destruct Hc as [Ha Hcu].
      destruct (_ <? _) eqn:E1, (_ <=? _) eqn:E2; zreflect; try lia; simpl; split; try done. }
  rewrite <- (Nat.add_0_r (length _)). by apply Hgen.
Qed.

(** A scheduled restart waits exactly its backoff delay, which is within
    the policy's bounds, or never comes due when that instant cannot be armed;
    the decision reports a trip exactly when the charge exceeded the budget. *)
Theorem schedule_restart_spec {clock : Clock} powi rs ins ip rp now sample :
  backoff_valid (backoff rp) ->
  exists d rs' ins',
    schedule_restart powi rs ins ip rp now sample = Ret (d, rs', ins') /\
    0 <= decision_delay d <= ceiling (backoff rp) /\
    decision_restart_at d =
      (if decide (Deadline.armable now (decision_delay d))
       then Some (now + decision_delay d) else None) /\
    (decision_attempt d, decision_restart_count d) = (attempt rs', cumulative rs') /\
    (decision_intensity_trip d = None <->
     in_window (decision_charge d) <= Intensity.max_restarts ip) /\
    (forall t, decision_intensity_trip d = Some t ->
     t = mkIntensityTrip (Intensity.max_restarts ip) (in_window (decision_charge d))
           (Intensity.within ip)).
Proof.
  intros Hv.
  destruct (next_delay_min powi (backoff rp) (RestartAttempt.bump (attempt rs)) sample Hv)
    as (raw & dl & _ & Hd & H0 & Hh & _).
  unfold schedule_restart. simpl. rewrite Hd. simpl.
  assert (0 <= ceiling (backoff rp)) by (destruct (backoff rp); simpl in *; lia).
  assert (0 <= (Z.min raw (ceiling (backoff rp)) + 1) / 2) by (apply Z.div_pos; lia).
  do 3 eexists. split; [done|]. cbn [decision_delay decision_restart_at decision_attempt
    decision_restart_count decision_charge decision_intensity_trip attempt cumulative].
  split_and!; [lia|lia|apply Deadline.after_spec|done| |].
  - unfold decision_intensity_trip; simpl. destruct (_ >? _) eqn:E.
    + apply Z.gtb_lt in E. split; [done|lia].
    + rewrite Z.gtb_ltb in E. zreflect. split; [lia|done].
  - unfold decision_intensity_trip, intensity_trip_new; simpl. destruct (_ >? _); naive_solver.
Qed.

Lemma schedule_restart_spec_witness :
  exists d rs' ins',
    schedule_restart (clock := unix_clock) demo_powi restart_state_new intensity_state_default
      (Intensity.seal 0 1) (mkRestartPolicy Always demo_backoff) 5 (JitterSample.new F64.zero)
      = Ret (d, rs', ins') /\ 0 <= decision_delay d <= Duration.from_millis 35.
Proof.
  destruct (schedule_restart_spec (clock := unix_clock) demo_powi restart_state_new
    intensity_state_default (Intensity.seal 0 1) (mkRestartPolicy Always demo_backoff) 5
    (JitterSample.new F64.zero)) as (d & rs' & ins' & H & Hd & _).
  { vm_compute. intuition discriminate. }
  exists d, rs', ins'. split; [exact H|exact Hd].
Defined.
