(* ===== verification/Lifecycle.v ===== *)
(** * Scope lifecycle

    [crates/shelterwood-core/src/engine.rs], [ScopeLifecycle]: the startup and
    drain phases of one scope incarnation and its finish policy. *)

From S2P Require Import Prelude Exit Policy.

(** ** Published states *)

Module ScopeState.
Inductive t :=
| Unstarted | Starting | Running | StartupFailed | Draining
| Stopped (reason : StopReason.t).
Definition is_stopped (s : t) : bool :=
  match s with Stopped _ => true | _ => false end.
End ScopeState.

(** ** The machine *)

Inductive StartupPhase := Pending | Complete | Failed.
#[export] Instance StartupPhase_eq_dec : EqDecision StartupPhase.
Proof. solve_decision. Defined.

Record ScopeDrain := mkDrain { drain_reason : StopReason.t; drain_startup : StartupPhase }.

Record ChildCompletionState := mkCompletion { has_children : bool; all_terminal : bool }.

Module ScopeLifecycle.
Inductive t := Starting | Running | StartupFailed | Draining (drain : ScopeDrain).

Definition starting : t := Starting.

Definition state (l : t) : ScopeState.t :=
  match l with
  | Starting => ScopeState.Starting
  | Running => ScopeState.Running
  | StartupFailed => ScopeState.StartupFailed
  | Draining _ => ScopeState.Draining
  end.

Definition is_starting (l : t) : bool :=
  match l with Starting => true | _ => false end.

Definition startup_complete (l : t) : bool :=
  match l with
  | Running | Draining (mkDrain _ Complete) => true
  | _ => false
  end.

Definition startup_failed (l : t) : bool :=
  match l with
  | StartupFailed | Draining (mkDrain _ Failed) => true
  | _ => false
  end.

Definition is_draining (l : t) : bool :=
  match l with Draining _ => true | _ => false end.

Definition draining_reason (l : t) : option StopReason.t :=
  match l with
  | Draining drain => Some (drain_reason drain)
  | Starting | Running | StartupFailed => None
  end.

Definition complete_startup (l : t) : option ScopeState.t * t :=
  match l with
  | Starting => (Some (state Running), Running)
  | _ => (None, l)
  end.

Definition fail_startup (l : t) : option ScopeState.t * t :=
  match l with
  | Starting => (Some (state StartupFailed), StartupFailed)
  | _ => (None, l)
  end.

Definition is_never_started (reason : StopReason.t) : bool :=
  match reason with StopReason.NeverStarted => true | _ => false end.

(** Opens the drain from a phase that is not draining yet. *)
Definition open_drain (reason : StopReason.t) (startup : StartupPhase)
  : option (bool * ScopeState.t) * t :=
  let startup_pending := bool_decide (startup = Pending) in
  let l := Draining (mkDrain reason startup) in
  (Some (startup_pending, state l), l).

Definition begin_drain (l : t) (reason : StopReason.t)
  : outcome (option (bool * ScopeState.t) * t) :=
  _ ← assert_that (negb (is_never_started reason))
        "NeverStarted is not a live-incarnation drain reason";
  let incoming_precedence := stop_reason_precedence reason in
  Ret match l with
      | Starting => open_drain reason Pending
      | Running => open_drain reason Complete
      | StartupFailed => open_drain reason Failed
      | Draining drain =>
          if precedence_gtb incoming_precedence (stop_reason_precedence (drain_reason drain))
          then (None, Draining (mkDrain reason (drain_startup drain)))
          else (None, l)
      end.

Definition finish_if_ready (l : t) (flavor : ScopeFlavor) (children : ChildCompletionState)
  : option StopReason.t :=
  match draining_reason l with
  | Some reason => then_some (all_terminal children) reason
  | None =>
      then_some (startup_complete l && bool_decide (flavor = Ordered) &&
                 has_children children && all_terminal children)
        StopReason.Finished
  end.
End ScopeLifecycle.

(** ** Lemmas *)

Lemma begin_drain_total l reason :
  reason ≠ StopReason.NeverStarted -> exists r l', ScopeLifecycle.begin_drain l reason = Ret (r, l').
Proof.
  intros Hn. unfold ScopeLifecycle.begin_drain.
  destruct reason; try done; simpl; destruct l as [| | |d]; simpl; repeat case_match; eauto.
Qed.

(** What one [begin_drain] does, on both branches. *)
Lemma begin_drain_inv l reason r l' :
  ScopeLifecycle.begin_drain l reason = Ret (r, l') ->
  reason ≠ StopReason.NeverStarted /\
  exists startup,
  match l with
  | ScopeLifecycle.Draining d =>
      r = None /\ startup = drain_startup d /\
      l' = ScopeLifecycle.Draining (mkDrain (join_reason (drain_reason d) reason) startup)
  | _ => r = Some (ScopeLifecycle.is_starting l, ScopeState.Draining) /\
         l' = ScopeLifecycle.Draining (mkDrain reason startup)
  end.
Proof.
  unfold ScopeLifecycle.begin_drain, join_reason. destruct reason; try done; simpl; intros [= H];
    (split; [done|]); destruct l as [| | |[d ph]]; simpl in *;
    unfold ScopeLifecycle.open_drain in H; cases_in H; simplify_eq/=; eauto.
Qed.

Lemma begin_drain_draining l reason r l' :
  ScopeLifecycle.begin_drain l reason = Ret (r, l') -> ScopeLifecycle.is_draining l' = true.
Proof. intros (_ & ph & H)%begin_drain_inv. destruct l; destruct_and! H; by subst. Qed.

Lemma begin_drain_phase l reason r l' :
  ScopeLifecycle.begin_drain l reason = Ret (r, l') ->
  ScopeLifecycle.startup_complete l' = ScopeLifecycle.startup_complete l.
Proof.
  unfold ScopeLifecycle.begin_drain. destruct (assert_that _ _); simpl; [|done..]. intros H.
  destruct l as [| | |[d ph]]; simpl in H; cases_in H; by simplify_eq/=.
Qed.

(** ** Operation sequences *)

Inductive lifecycle_op := OpComplete | OpFail | OpDrain (reason : StopReason.t).

(** The publication an operation asks its owner for. *)
Inductive publication := Published (s : ScopeState.t) | Opened (pending : bool) (s : ScopeState.t).

Definition lifecycle_exec (l : ScopeLifecycle.t) (o : lifecycle_op)
  : outcome (option publication * ScopeLifecycle.t) :=
  match o with
  | OpComplete => let '(r, l) := ScopeLifecycle.complete_startup l in Ret (option_map Published r, l)
  | OpFail => let '(r, l) := ScopeLifecycle.fail_startup l in Ret (option_map Published r, l)
  | OpDrain reason =>
      '(r, l) ← ScopeLifecycle.begin_drain l reason;
      Ret (option_map (fun '(p, s) => Opened p s) r, l)
  end.

Definition drain_reasons (ops : list lifecycle_op) : list StopReason.t :=
  omap (fun o => match o with OpDrain r => Some r | _ => None end) ops.

Definition live_reasons (ops : list lifecycle_op) : Prop :=
  Forall (fun r => r ≠ StopReason.NeverStarted) (drain_reasons ops).

(** The first of the reasons with the highest precedence. *)
Definition winning_reason (rs : list StopReason.t) : option StopReason.t :=
  match rs with [] => None | r :: rs => Some (foldl join_reason r rs) end.

Lemma winning_reason_snoc rs r :
  winning_reason (rs ++ [r]) =
    Some (match winning_reason rs with None => r | Some w => join_reason w r end).
Proof. destruct rs as [|x rs]; simpl; [done|]. by rewrite foldl_app. Qed.

(** [w] beats everything before it strictly and is not beaten after it. *)
Lemma winning_reason_spec rs w :
  winning_reason rs = Some w <->
  exists before after, rs = before ++ w :: after /\
    Forall (fun r => reason_level r < reason_level w) before /\
    Forall (fun r => reason_level r <= reason_level w) after.
Proof.
  revert w. induction rs as [|r rs IH] using rev_ind; intros w.
  { split; [done|]. intros (b & a & H & _). by destruct b. }
  rewrite winning_reason_snoc. split.
  - intros [= <-]. destruct (winning_reason rs) as [v|] eqn:Ev.
    + destruct (proj1 (IH v) eq_refl) as (b & a & -> & Hb & Ha).
      unfold join_reason. destruct (precedence_gtb _ _) eqn:E.
      * apply precedence_gtb_lt in E. fold (reason_level v) (reason_level r) in E.
        exists (b ++ v :: a), []. split; [by rewrite <- app_assoc|]. split; [|constructor].
        rewrite Forall_app, Forall_cons. split_and!; [|done|];
          (eapply Forall_impl; [done|]; cbn beta; intros; lia).
      * apply not_true_iff_false in E. rewrite precedence_gtb_lt in E.
        fold (reason_level v) (reason_level r) in E.
        exists b, (a ++ [r]). split_and!; [by rewrite <- app_assoc|done|].
        rewrite Forall_app, Forall_singleton. split; [done|lia].
    + destruct rs; [|done]. exists [], []. split_and!; [done|constructor..].
  - intros (b & a & Heq & Hb & Ha). f_equal.
    destruct a as [|z a _] using rev_ind.
    + apply app_inj_tail in Heq as [-> ->].
      destruct (winning_reason b) as [v|] eqn:Ev; [|done].
      destruct (proj1 (IH v) eq_refl) as (b' & a' & -> & _). rewrite Forall_app, Forall_cons in Hb.
      destruct Hb as (_ & Hv & _). unfold join_reason.
      apply precedence_gtb_lt in Hv. unfold reason_level in Hv. by rewrite Hv.
    + rewrite (app_assoc b (w :: a) [z] : b ++ (w :: a ++ [z]) = _) in Heq.
      apply app_inj_tail in Heq as [-> ->].
      rewrite Forall_app, Forall_singleton in Ha. destruct Ha as [Ha Hz].
      assert (winning_reason (b ++ w :: a) = Some w) as -> by (apply IH; eauto).
      unfold join_reason. destruct (precedence_gtb _ _) eqn:E; [|done].
      apply precedence_gtb_lt in E. unfold reason_level in Hz. lia.
Qed.

(** ** Theorems *)

Lemma drain_reasons_app a b : drain_reasons (a ++ b) = drain_reasons a ++ drain_reasons b.
Proof. apply omap_app. Qed.

(** The publications of a history: at most one startup verdict, then at most
    one drain. *)
Definition publications (ps : list (option publication)) : list publication := omap id ps.

Definition lifecycle_shape (l : ScopeLifecycle.t) : list publication :=
  match l with
  | ScopeLifecycle.Starting => []
  | ScopeLifecycle.Running => [Published ScopeState.Running]
  | ScopeLifecycle.StartupFailed => [Published ScopeState.StartupFailed]
  | ScopeLifecycle.Draining (mkDrain _ Pending) => [Opened true ScopeState.Draining]
  | ScopeLifecycle.Draining (mkDrain _ Complete) =>
      [Published ScopeState.Running; Opened false ScopeState.Draining]
  | ScopeLifecycle.Draining (mkDrain _ Failed) =>
      [Published ScopeState.StartupFailed; Opened false ScopeState.Draining]
  end.

Lemma lifecycle_exec_step l o :
  (forall r, o = OpDrain r -> r ≠ StopReason.NeverStarted) ->
  exists p l', lifecycle_exec l o = Ret (p, l') /\
    lifecycle_shape l' = lifecycle_shape l ++ option_list p /\
    ScopeLifecycle.draining_reason l' =
      match o with
      | OpDrain r =>
          Some (match ScopeLifecycle.draining_reason l with
                | None => r | Some w => join_reason w r end)
      | _ => ScopeLifecycle.draining_reason l
      end.
Proof.
  intros Hn. destruct o as [| |r]; simpl.
  1,2: destruct l as [| | |[d []]]; simpl; eauto 10.
  specialize (Hn r eq_refl). unfold ScopeLifecycle.begin_drain, join_reason.
  destruct r; try done; simpl; destruct l as [| | |[d []]]; simpl;
    cases; eauto 10.
Qed.

(** Along any sequence of startup and drain requests the scope publishes at
    most one startup verdict followed by at most one drain; competing drain
    reasons leave the first one of the highest precedence; and no sequence of
    live reasons panics. *)
Theorem lifecycle_publications ops :
  live_reasons ops ->
  exists ps l, run_ops lifecycle_exec ScopeLifecycle.starting ops = Ret (ps, l) /\
    publications ps = lifecycle_shape l /\
    ScopeLifecycle.draining_reason l = winning_reason (drain_reasons ops).
Proof.
  unfold live_reasons, publications.
  induction ops as [|o ops IH] using rev_ind; intros Hl; [by eexists _, _|].
  rewrite drain_reasons_app, Forall_app in Hl. destruct Hl as [Hl Ho].
  destruct (IH Hl) as (ps & l & E & Hp & Hr).
  destruct (lifecycle_exec_step l o) as (p & l' & Ee & Hs & Hd).
  { intros r ->. simpl in Ho. by apply Forall_cons in Ho as [? _]. }
  rewrite run_ops_app, E. simpl. rewrite Ee. simpl.
  eexists _, l'. split; [done|]. split.
  - rewrite omap_app, Hp, Hs. by destruct p.
  - rewrite Hd, drain_reasons_app. destruct o as [| |r]; simpl; rewrite ?app_nil_r; [done..|].
    by rewrite winning_reason_snoc, Hr.
Qed.

Lemma lifecycle_publications_witness :
  exists ps l,
    run_ops lifecycle_exec ScopeLifecycle.starting
      [OpComplete; OpDrain StopReason.Finished; OpFail; OpDrain StopReason.ShutdownRequested]
      = Ret (ps, l) /\
    ScopeLifecycle.draining_reason l = Some StopReason.ShutdownRequested.
Proof.
  destruct (lifecycle_publications
    [OpComplete; OpDrain StopReason.Finished; OpFail; OpDrain StopReason.ShutdownRequested])
    as (ps & l & H & _ & Hr).
  - repeat constructor; discriminate.
  - exists ps, l. split; [exact H|]. rewrite Hr. reflexivity.
Defined.
