(* ===== verification/NestedExit.v ===== *)
(** * Stop reasons across scopes

    [driver/nested.rs] and [driver/startup.rs] over [exit.rs]: how the stop
    reason of a nested scope becomes the exit its parent sees, and the verdict of
    a nested scope whose plan cannot be lowered. *)

From S2P Require Import Prelude Identity Exit Policy Lifecycle.

(** ** A lowering failure *)

(** What [run_nested_tree_with_epoch] publishes for it: the startup error, the
    stop reason, and whether it fires the child-facing shutdown latch. *)
Record LoweringVerdict := mkVerdict { lv_startup : StartupError; lv_reason : StopReason.t; lv_fires : bool }.

Definition lowering_failure (undefined : list ChildId) (self_shutdown framework_shutdown : bool) : outcome LoweringVerdict :=
  let lifecycle := ScopeLifecycle.starting in
  lifecycle ← (if self_shutdown || framework_shutdown
               then '(_, l) ← ScopeLifecycle.begin_drain lifecycle StopReason.ShutdownRequested; Ret l
               else Ret lifecycle);
  '(_, lifecycle) ← ScopeLifecycle.begin_drain lifecycle
                      (StopReason.StartupFailed (mkStartupFailure (CauseLowering undefined)));
  reason ← expect "pre-loop verdicts enter the drain lattice" (ScopeLifecycle.draining_reason lifecycle);
  startup ← match reason with
            | StopReason.ShutdownRequested => Ret StartupError_ShutdownRequested
            | StopReason.StartupFailed failure => Ret (StartupError_StartupFailed failure)
            | _ => Panics "lowering resolves only failure or shutdown verdicts"
            end;
  Ret (mkVerdict startup reason self_shutdown).

(** A stop that was requested outranks the failure; no assertion fails. *)
Lemma lowering_failure_verdict undefined self_shutdown framework_shutdown :
  let failure := mkStartupFailure (CauseLowering undefined) in
  lowering_failure undefined self_shutdown framework_shutdown =
  Ret (if self_shutdown || framework_shutdown
       then mkVerdict StartupError_ShutdownRequested StopReason.ShutdownRequested self_shutdown
       else mkVerdict (StartupError_StartupFailed failure) (StopReason.StartupFailed failure) self_shutdown).
Proof. by destruct self_shutdown, framework_shutdown. Qed.

(** ** Levels *)

(** What a parent knows of a nested scope: its id and membership, the outcome a
    deadline forced, how its task joined, and the phase and cancellation it
    recorded. *)
Record Level := mkLevel
  { level_id : ChildId;
    level_membership : Membership;
    level_forced : option RecordedOutcome.t;
    level_join : JoinOutcome;
    level_phase : option GracePhase;
    level_cancellation : Cancellation }.

(** The exit of a nested scope that stopped for [reason], as its parent
    classifies it. *)
Definition surfaces (l : Level) (reason : StopReason.t) (next : Allocator) : Exit * Allocator :=
  let '(returned, next) := stop_reason_into_nested_result reason next in
  let '(recorded, _) := reconcile_recorded_outcomes (Some (RecordedOutcome.returned returned)) (level_forced l) in
  ((classify_exit recorded (level_join l) (level_phase l) (level_cancellation l)).1, next).

(** The stop reason of a scope whose startup that child failed. *)
Definition startup_failed_by (l : Level) (exit : Exit) : StopReason.t :=
  StopReason.StartupFailed (mkStartupFailure (CauseChild (level_id l) (level_membership l) exit)).

(** A reason carried up through nested scopes, the innermost first. *)
Fixpoint carried (levels : list Level) (reason : StopReason.t) (next : Allocator) : StopReason.t * Allocator :=
  match levels with
  | [] => (reason, next)
  | l :: levels => let '(exit, next) := surfaces l reason next in carried levels (startup_failed_by l exit) next
  end.

(** ** Reading back *)

(** The reason that the structured accessors of an exit give. *)
Definition reason_of_exit (e : Exit) : option StopReason.t :=
  match exit_kind e with
  | Exit.Failed error =>
      match intensity_trip error, startup_failure error with
      | Some trip, _ => Some (StopReason.IntensityTripped trip)
      | None, Some failure => Some (StopReason.StartupFailed failure)
      | None, None => None
      end
  | _ => None
  end.

(** Follows [depth] causes down: where each was, the innermost first, and the
    reason there. *)
Fixpoint traced (depth : nat) (reason : StopReason.t) : option (list (ChildId * Membership) * StopReason.t) :=
  match depth with
  | O => Some ([], reason)
  | S depth =>
      match reason with
      | StopReason.StartupFailed (mkStartupFailure (CauseChild id membership exit)) =>
          inner ← reason_of_exit exit;
          '(path, origin) ← traced depth inner;
          Some (path ++ [(id, membership)], origin)
      | _ => None
      end
  end.

Definition structured (reason : StopReason.t) : bool :=
  match reason with StopReason.IntensityTripped _ | StopReason.StartupFailed _ => true | _ => false end.

(** The evidence of a level does not outrank a failure. *)
Definition undisputed (l : Level) : bool :=
  match level_forced l with Some o => OutcomeRank.geb OutcomeRank.Failed (rank (RecordedOutcome.kind o)) | None => true end &&
  match level_join l with JoinPanic _ => false | JoinOk | JoinCancelled => true end.

(** What a parent reads from the exit of a nested scope. *)
Lemma surfaces_reads_back l reason next :
  undisputed l = true -> structured reason = true -> reason_of_exit (surfaces l reason next).1 = Some reason.
Proof.
  unfold undisputed, surfaces. intros [Hf Hj]%andb_true_iff Hs. destruct l as [id m forced join phase c]. simpl in *.
  destruct reason; destruct forced as [[k]|]; destruct join; simpl in *; try done; unfold prefer_earlier; simpl;
    try (rewrite Hf); try done; destruct k; done.
Qed.

Lemma carried_traced levels reason next depth path origin :
  forallb undisputed levels = true -> structured reason = true -> traced depth reason = Some (path, origin) ->
  traced (length levels + depth) (carried levels reason next).1 =
    Some (path ++ ((fun l => (level_id l, level_membership l)) <$> levels), origin).
Proof.
  revert reason next depth path. induction levels as [|l levels IH]; intros reason next depth path Hu Hs Ht; [simpl; by rewrite app_nil_r|].
  apply andb_true_iff in Hu as [Hl Hu]. pose proof (surfaces_reads_back l reason next Hl Hs) as Hr.
  replace (length (l :: levels) + depth)%nat with (length levels + S depth)%nat by (simpl; lia). cbn [carried].
  destruct (surfaces l reason next) as [exit next'].
  rewrite (IH _ _ _ (path ++ [(level_id l, level_membership l)])); [by rewrite <- app_assoc|done..|].
  simpl in *. by rewrite Hr; simpl; rewrite Ht.
Qed.

(** C35: A structured stop reason survives the scopes it passes through: carried
    up any number of nested scopes, each failing the startup of the one above,
    the intensity trip or startup failure is read back unchanged by following
    the causes, with the id and membership of every scope on the way, provided
    no level has stronger evidence (a panicked join, a readiness timeout).  An
    error made by application code reads back as nothing, whatever it wraps. *)
Theorem stop_reason_roundtrip levels reason next :
  forallb undisputed levels = true -> structured reason = true ->
  traced (length levels) (carried levels reason next).1 =
    Some ((fun l => (level_id l, level_membership l)) <$> levels, reason) /\
  forall (e : DynError) (m : string) (c : Cancellation),
    reason_of_exit (failed (from_error e next).1 c) = None /\ reason_of_exit (failed (message m next).1 c) = None.
Proof.
  intros Hu Hs. split; [|done]. pose proof (carried_traced levels reason next 0 [] reason Hu Hs eq_refl) as H.
  by rewrite Nat.add_0_r in H.
Qed.

Definition trip_example : StopReason.t := StopReason.IntensityTripped (mkIntensityTrip 3 5 10).
Definition level_example (id : ChildId) (join : JoinOutcome) : Level :=
  mkLevel id (mkMembership (mkFence (mkLineage 1) (mkGeneration 1))) (Some (RecordedOutcome.aborted WithinGrace)) join None Observed.

Lemma stop_reason_roundtrip_witness :
  traced 2 (carried [level_example "db" JoinOk; level_example "app" JoinCancelled] trip_example 7).1 =
    Some ([("db", mkMembership (mkFence (mkLineage 1) (mkGeneration 1))); ("app", mkMembership (mkFence (mkLineage 1) (mkGeneration 1)))],
          trip_example).
Proof.
  exact (proj1 (stop_reason_roundtrip [level_example "db" JoinOk; level_example "app" JoinCancelled] trip_example 7 eq_refl eq_refl)).
Defined.
