(* ===== verification/Supervisor.v ===== *)
(** * The structural supervision reducer

    [crates/shelterwood-core/src/supervisor.rs]: membership, startup and
    ordered-stop state of one scope incarnation.  The source appends commands
    to a caller-owned vector; here every operation returns the commands it
    appends. *)

From S2P Require Import Prelude BTree Identity Exit Policy Restart Lifecycle.

(** [ChildKey(u64)], minted from 1 and never reused. *)
#[warnings="-notation-for-abbreviation"]
Notation ChildKey := Z (only parsing).

(** ** Child states *)

Module IncarnationState.
Inductive t :=
| Unstarted | Active | Stopping | Complete | RestartPending | Disposing | Joined.
#[export] Instance eq_dec : EqDecision t.
Proof. solve_decision. Defined.
End IncarnationState.
Export (hints) IncarnationState.

Module ChildState.
Inductive t :=
| Resident (state : IncarnationState.t)
| RemovalSampled (state : IncarnationState.t)
| Removing (state : IncarnationState.t).

Definition incarnation (s : t) : IncarnationState.t :=
  match s with Resident state | RemovalSampled state | Removing state => state end.

Definition with_incarnation (s : t) (state : IncarnationState.t) : t :=
  match s with
  | Resident _ => Resident state
  | RemovalSampled _ => RemovalSampled state
  | Removing _ => Removing state
  end.

Definition removal_sampled (s : t) : t :=
  match s with
  | Resident state => RemovalSampled state
  | RemovalSampled _ | Removing _ => s
  end.

Definition joined (s : t) : bool := bool_decide (incarnation s = IncarnationState.Joined).

Definition membership_status (s : t) : MembershipStatus :=
  match s with
  | Resident _ => Restart.Active
  | RemovalSampled _ | Removing _ => Restart.Removing
  end.
End ChildState.

Inductive StartupMembership := Initial (ready : bool) | Runtime.

Definition is_initial_startup (s : StartupMembership) : bool :=
  match s with Initial _ => true | Runtime => false end.

(** [matches!(startup, Initial { ready: false })]. *)
Definition awaits_ready (s : StartupMembership) : bool :=
  match s with Initial false => true | _ => false end.

Definition set_ready (s : StartupMembership) (ready : bool) : StartupMembership :=
  match s with Initial _ => Initial ready | Runtime => Runtime end.

Record ChildRecord := mkChild
  { membership : Membership;
    child_state_of : ChildState.t;
    startup : StartupMembership;
    spawned : bool }.

Definition with_state (r : ChildRecord) (s : ChildState.t) : ChildRecord :=
  mkChild (membership r) s (startup r) (spawned r).
Definition with_startup (r : ChildRecord) (s : StartupMembership) : ChildRecord :=
  mkChild (membership r) (child_state_of r) s (spawned r).

Definition incarnation_of (r : ChildRecord) : IncarnationState.t :=
  ChildState.incarnation (child_state_of r).
Definition record_joined (r : ChildRecord) : bool := ChildState.joined (child_state_of r).

Definition startable (r : ChildRecord) : bool :=
  match child_state_of r with
  | ChildState.Resident (IncarnationState.Unstarted | IncarnationState.RestartPending) => true
  | _ => false
  end.

(** ** Events and effects *)

Inductive Event :=
| Spawned (child : ChildKey)
| Ready (child : ChildKey)
| IncarnationComplete (child : ChildKey)
| RestartPending (child : ChildKey)
| StopStarted (child : ChildKey)
| DisposalStarted (child : ChildKey)
| Terminalized (child : ChildKey)
| RemovalSampled (child : ChildKey)
| RemovalLatched (child : ChildKey)
| Reclaim (child : ChildKey)
| Settle.

Inductive Effect :=
| StartChild (child : ChildKey)
| StopChild (child : ChildKey)
| ForceChild (child : ChildKey)
| FinalizeRemoval (child : ChildKey)
| StartupCompleted (state : ScopeState.t)
| Finished (reason : StopReason.t).

(** ** State *)

Record SupervisorState := mkSupervisor
  { flavor : ScopeFlavor;
    lifecycle : ScopeLifecycle.t;
    children : gmap ChildKey ChildRecord;
    child_keys : gmap Membership ChildKey;
    keys : MonotonicCounter.t;
    next_ordered_start : option ChildKey;
    ordered_stop_cursor : option ChildKey;
    ordered_stop_waiting : option ChildKey;
    hard_forced : bool;
    finish_emitted : bool }.

Definition supervisor_new (fl : ScopeFlavor) (lc : ScopeLifecycle.t) : SupervisorState :=
  mkSupervisor fl lc ∅ ∅ MonotonicCounter.new None None None false false.

(** Field updates. *)
Definition set_lifecycle l s := mkSupervisor (flavor s) l (children s) (child_keys s) (keys s)
  (next_ordered_start s) (ordered_stop_cursor s) (ordered_stop_waiting s) (hard_forced s)
  (finish_emitted s).
Definition set_children c s := mkSupervisor (flavor s) (lifecycle s) c (child_keys s) (keys s)
  (next_ordered_start s) (ordered_stop_cursor s) (ordered_stop_waiting s) (hard_forced s)
  (finish_emitted s).
Definition set_child_keys m s := mkSupervisor (flavor s) (lifecycle s) (children s) m (keys s)
  (next_ordered_start s) (ordered_stop_cursor s) (ordered_stop_waiting s) (hard_forced s)
  (finish_emitted s).
Definition set_keys k s := mkSupervisor (flavor s) (lifecycle s) (children s) (child_keys s) k
  (next_ordered_start s) (ordered_stop_cursor s) (ordered_stop_waiting s) (hard_forced s)
  (finish_emitted s).
Definition set_next_start n s := mkSupervisor (flavor s) (lifecycle s) (children s)
  (child_keys s) (keys s) n (ordered_stop_cursor s) (ordered_stop_waiting s) (hard_forced s)
  (finish_emitted s).
Definition set_stop_cursor c s := mkSupervisor (flavor s) (lifecycle s) (children s)
  (child_keys s) (keys s) (next_ordered_start s) c (ordered_stop_waiting s) (hard_forced s)
  (finish_emitted s).
Definition set_stop_waiting w s := mkSupervisor (flavor s) (lifecycle s) (children s)
  (child_keys s) (keys s) (next_ordered_start s) (ordered_stop_cursor s) w (hard_forced s)
  (finish_emitted s).
Definition set_hard_forced b s := mkSupervisor (flavor s) (lifecycle s) (children s)
  (child_keys s) (keys s) (next_ordered_start s) (ordered_stop_cursor s)
  (ordered_stop_waiting s) b (finish_emitted s).
Definition set_finish_emitted b s := mkSupervisor (flavor s) (lifecycle s) (children s)
  (child_keys s) (keys s) (next_ordered_start s) (ordered_stop_cursor s)
  (ordered_stop_waiting s) (hard_forced s) b.

(** Rewrites one record in place ([get_mut]). *)
Definition put (k : ChildKey) (r : ChildRecord) (s : SupervisorState) : SupervisorState :=
  set_children (<[k := r]> (children s)) s.

(** ** Queries *)

Definition key_for (s : SupervisorState) (m : Membership) : option ChildKey := child_keys s !! m.

Definition contains (s : SupervisorState) (k : ChildKey) : bool :=
  bool_decide (is_Some (children s !! k)).

Definition child_state (s : SupervisorState) (k : ChildKey) : option ChildState.t :=
  option_map child_state_of (children s !! k).

Definition membership_status (s : SupervisorState) (k : ChildKey) : MembershipStatus :=
  match child_state s k with
  | Some st => ChildState.membership_status st
  | None => Restart.Removing
  end.

Definition is_initial (s : SupervisorState) (k : ChildKey) : bool :=
  is_some_and (children s !! k) (fun r => is_initial_startup (startup r)).

Definition initial_ready (s : SupervisorState) (k : ChildKey) : bool :=
  is_some_and (children s !! k) (fun r => match startup r with Initial true => true | _ => false end).

Definition spawned_once (s : SupervisorState) (k : ChildKey) : bool :=
  is_some_and (children s !! k) spawned.

Definition is_disposing (s : SupervisorState) (k : ChildKey) : bool :=
  is_some_and (child_state s k)
    (fun st => bool_decide (ChildState.incarnation st = IncarnationState.Disposing)).

Definition joined (s : SupervisorState) (k : ChildKey) : bool :=
  is_some_and (child_state s k) ChildState.joined.

Definition is_incomplete (s : SupervisorState) (k : ChildKey) : bool :=
  contains s k && negb (joined s k).

Definition all_children_joined (s : SupervisorState) : bool :=
  bt_all record_joined (children s).

Definition keys_after (s : SupervisorState) (k : ChildKey) : list ChildKey :=
  bt_keys_after k (children s).

Definition previous_key (s : SupervisorState) (k : ChildKey) : option ChildKey :=
  bt_prev k (children s).

(** ** Transitions *)

Definition transition_incarnation (s : SupervisorState) (k : ChildKey)
    (expected : list IncarnationState.t) (next : IncarnationState.t)
  : bool * SupervisorState :=
  match children s !! k with
  | Some r =>
      if record_joined r || negb (bool_decide (incarnation_of r ∈ expected))
      then (false, s)
      else (true, put k (with_state r (ChildState.with_incarnation (child_state_of r) next)) s)
  | None => (false, s)
  end.

Definition sample_removal (s : SupervisorState) (k : ChildKey) : SupervisorState :=
  match children s !! k with
  | Some r => put k (with_state r (ChildState.removal_sampled (child_state_of r))) s
  | None => s
  end.

Definition admit_child (s : SupervisorState) (m : Membership) (initial : bool)
  : outcome (ChildKey * SupervisorState) :=
  '(child, counter) ← MonotonicCounter.mint (keys s);
  let s := set_keys counter s in
  let s := put child
    (mkChild m (ChildState.Resident IncarnationState.Unstarted)
       (if initial then Initial false else Runtime) false) s in
  let s := set_child_keys (<[m := child]> (child_keys s)) s in
  Ret (child,
       if initial && bool_decide (flavor s = Ordered) &&
          negb (bool_decide (is_Some (next_ordered_start s)))
       then set_next_start (Some child) s else s).

(** The [while let] of ordered startup.  [true] means the body returned out of
    [settle_startup]; [fuel] bounds the iterations ([start_loop_unfold] shows
    it is never the reason the loop ends). *)
Fixpoint start_loop (fuel : nat) (s : SupervisorState) : bool * list Effect * SupervisorState :=
  match fuel with
  | O => (false, [], s)
  | S fuel =>
      match next_ordered_start s with
      | None => (false, [], s)
      | Some child =>
          let advance := start_loop fuel (set_next_start (head (keys_after s child)) s) in
          match children s !! child with
          | None => advance
          | Some record =>
              if bool_decide (ChildState.membership_status (child_state_of record) = Restart.Removing)
              then (true, [], s)
              else if negb (spawned record)
              then (true, if startable record then [StartChild child] else [], s)
              else if awaits_ready (startup record) then (true, [], s)
              else advance
          end
      end
  end.

Definition start_fuel (s : SupervisorState) : nat := S (S (size (children s))).

(** The dynamic-scope loop over every record in key order. *)
Definition dynamic_starts (s : SupervisorState) : list Effect :=
  omap (fun k =>
    match children s !! k with
    | Some record =>
        then_some (is_initial_startup (startup record) && negb (spawned record) &&
                   startable record) (StartChild k)
    | None => None
    end) (bt_keys (children s)).

Definition complete_startup_if_ready (s : SupervisorState) : list Effect * SupervisorState :=
  if bt_all (fun record => negb (awaits_ready (startup record))) (children s)
  then match ScopeLifecycle.complete_startup (lifecycle s) with
       | (Some state, l) => ([StartupCompleted state], set_lifecycle l s)
       | (None, l) => ([], set_lifecycle l s)
       end
  else ([], s).

Definition settle_startup (s : SupervisorState) : list Effect * SupervisorState :=
  if negb (ScopeLifecycle.is_starting (lifecycle s)) then ([], s)
  else match flavor s with
       | Ordered =>
           match start_loop (start_fuel s) s with
           | (true, es, s) => (es, s)
           | (false, es, s) =>
               let '(es', s) := complete_startup_if_ready s in (es ++ es', s)
           end
       | Dynamic =>
           let '(es', s') := complete_startup_if_ready s in (dynamic_starts s ++ es', s')
       end.

Definition fail_startup (s : SupervisorState) : option ScopeState.t * SupervisorState :=
  let '(r, l) := ScopeLifecycle.fail_startup (lifecycle s) in (r, set_lifecycle l s).

(** One command for every child that has not joined, in key order. *)
Definition unjoined (mk : ChildKey -> Effect) (s : SupervisorState) : list Effect :=
  omap (fun k =>
    match children s !! k with
    | Some record => then_some (negb (record_joined record)) (mk k)
    | None => None
    end) (bt_keys (children s)).

Definition begin_drain (s : SupervisorState) (reason : StopReason.t)
  : outcome (option (bool * ScopeState.t) * list Effect * SupervisorState) :=
  '(effect, l) ← ScopeLifecycle.begin_drain (lifecycle s) reason;
  let s := set_lifecycle l s in
  Ret match effect with
      | None => (None, [], s)
      | Some e =>
          match flavor s with
          | Ordered => (Some e, [], set_stop_cursor (bt_last (children s)) s)
          | Dynamic => (Some e, unjoined StopChild s, s)
          end
      end.

Definition force (s : SupervisorState)
  : outcome (option (bool * ScopeState.t) * list Effect * SupervisorState) :=
  let s := set_hard_forced true s in
  '(drain, es, s) ← begin_drain s StopReason.ShutdownRequested;
  Ret (drain, es ++ unjoined ForceChild s, s).

(** The [while let] of ordered stop. *)
Fixpoint stop_loop (fuel : nat) (s : SupervisorState) : list Effect * SupervisorState :=
  match fuel with
  | O => ([], s)
  | S fuel =>
      match ordered_stop_cursor s with
      | None => ([], s)
      | Some child =>
          let s := set_stop_cursor (previous_key s child) s in
          if negb (is_incomplete s child) then stop_loop fuel s
          else ([StopChild child], set_stop_waiting (Some child) s)
      end
  end.

Definition settle_ordered_stop (s : SupervisorState) : list Effect * SupervisorState :=
  if negb (bool_decide (flavor s = Ordered)) || negb (ScopeLifecycle.is_draining (lifecycle s))
  then ([], s)
  else match ordered_stop_waiting s with
       | Some waiting =>
           if is_incomplete s waiting then ([], s)
           else stop_loop (start_fuel s) (set_stop_waiting None s)
       | None => stop_loop (start_fuel s) s
       end.

Definition settle_finish (s : SupervisorState) : list Effect * SupervisorState :=
  if finish_emitted s then ([], s)
  else match ScopeLifecycle.finish_if_ready (lifecycle s) (flavor s)
               (mkCompletion (negb (bool_decide (children s = ∅))) (all_children_joined s)) with
       | Some reason => ([Finished reason], set_finish_emitted true s)
       | None => ([], s)
       end.

Definition settle (s : SupervisorState) : list Effect * SupervisorState :=
  let '(e1, s) := settle_startup s in
  let '(e2, s) := settle_ordered_stop s in
  let '(e3, s) := settle_finish s in
  (e1 ++ e2 ++ e3, s).

(** [SupervisorState::apply] and its entry point [step]. *)
Definition apply (s : SupervisorState) (event : Event) : list Effect * SupervisorState :=
  match event with
  | Spawned child =>
      match children s !! child with
      | Some r =>
          if startable r
          then ([], put child (mkChild (membership r)
                     (ChildState.with_incarnation (child_state_of r) IncarnationState.Active)
                     (startup r) true) s)
          else ([], s)
      | None => ([], s)
      end
  | Ready child =>
      match children s !! child with
      | None => ([], s)
      | Some r =>
          if bool_decide (ChildState.membership_status (child_state_of r) = Restart.Removing)
             || record_joined r
             || negb (bool_decide (incarnation_of r ∈
                        [IncarnationState.Active; IncarnationState.Stopping]))
          then ([], s)
          else ([], put child (with_startup r (set_ready (startup r) true)) s)
      end
  | IncarnationComplete child =>
      ([], (transition_incarnation s child
              [IncarnationState.Active; IncarnationState.Stopping]
              IncarnationState.Complete).2)
  | RestartPending child =>
      match transition_incarnation s child [IncarnationState.Complete]
              IncarnationState.RestartPending with
      | (true, s) =>
          match children s !! child with
          | Some r =>
              if ScopeLifecycle.is_starting (lifecycle s)
              then ([], put child (with_startup r (set_ready (startup r) false)) s)
              else ([], s)
          | None => ([], s)
          end
      | (false, s) => ([], s)
      end
  | StopStarted child =>
      ([], (transition_incarnation s child [IncarnationState.Active]
              IncarnationState.Stopping).2)
  | DisposalStarted child =>
      ([], (transition_incarnation s child
              [IncarnationState.Unstarted; IncarnationState.Complete;
               IncarnationState.RestartPending] IncarnationState.Disposing).2)
  | Terminalized child =>
      match transition_incarnation s child [IncarnationState.Disposing]
              IncarnationState.Joined with
      | (true, s) =>
          match child_state s child with
          | Some (ChildState.Removing _) => ([FinalizeRemoval child], s)
          | _ => ([], s)
          end
      | (false, s) => ([], s)
      end
  | RemovalSampled child => ([], sample_removal s child)
  | RemovalLatched child =>
      match children s !! child with
      | None => ([], s)
      | Some r =>
          match child_state_of r with
          | ChildState.Resident state | ChildState.RemovalSampled state =>
              let s := put child (with_state r (ChildState.Removing state)) s in
              if bool_decide (state = IncarnationState.Joined)
              then ([FinalizeRemoval child], s)
              else ([StopChild child], s)
          | ChildState.Removing _ => ([], s)
          end
      end
  | Reclaim child =>
      match children s !! child with
      | None => ([], s)
      | Some r =>
          if negb (record_joined r) then ([], s)
          else
            let s' := set_children (delete child (children s)) s in
            if bool_decide (child_keys s !! membership r = Some child)
            then ([], set_child_keys (delete (membership r) (child_keys s')) s')
            else ([], s')
      end
  | Settle => settle s
  end.

Definition step (s : SupervisorState) (event : Event) : list Effect * SupervisorState :=
  apply s event.
