(* ===== verification/SupervisorLemmas.v ===== *)
(** * Loops and local steps of the supervision reducer

    The two [while let] loops of [Supervisor.v] as first-match searches, with
    the proof that their fuel is never what ends them, and the shape of every
    event other than [Settle] as a step of one child record. *)

From S2P Require Import Prelude BTree Identity Exit Policy Restart Lifecycle Supervisor.

(** ** Field updates *)

Lemma set_next_start_id s n : next_ordered_start s = n -> set_next_start n s = s.
Proof. destruct s; simpl; by intros <-. Qed.
Lemma set_stop_cursor_id s n : ordered_stop_cursor s = n -> set_stop_cursor n s = s.
Proof. destruct s; simpl; by intros <-. Qed.
Lemma set_stop_waiting_id s n : ordered_stop_waiting s = n -> set_stop_waiting n s = s.
Proof. destruct s; simpl; by intros <-. Qed.
Lemma set_lifecycle_id s : set_lifecycle (lifecycle s) s = s.
Proof. by destruct s. Qed.

Lemma is_incomplete_true s k :
  is_incomplete s k = true <->
  exists r, children s !! k = Some r /\ incarnation_of r ≠ IncarnationState.Joined.
Proof.
  unfold is_incomplete, contains, joined, child_state, incarnation_of, ChildState.joined.
  destruct (children s !! k) as [r|]; simpl.
  - rewrite negb_true_iff, bool_decide_eq_false.
    split; [eauto|]. by intros (? & [= ->] & ?).
  - split; [done|]. by intros (? & ? & _).
Qed.

Lemma is_incomplete_ext s s' k :
  children s' = children s -> is_incomplete s' k = is_incomplete s k.
Proof. unfold is_incomplete, contains, joined, child_state. by intros ->. Qed.

Lemma all_children_joined_true s :
  all_children_joined s = true <-> forall k, is_incomplete s k = false.
Proof.
  unfold all_children_joined. rewrite bt_all_true. split.
  - intros H k. apply not_true_iff_false. intros (r & Hr & Hj)%is_incomplete_true.
    specialize (H _ _ Hr). by apply bool_decide_eq_true in H.
  - intros H k r Hr. unfold record_joined, ChildState.joined. apply bool_decide_eq_true.
    destruct (decide (incarnation_of r = IncarnationState.Joined)) as [|Hn]; [done|].
    specialize (H k). apply not_true_iff_false in H. destruct H. apply is_incomplete_true. eauto.
Qed.

(** ** The ordered-startup loop *)

(** A member that stops the startup cursor. *)
Definition gates (r : ChildRecord) : bool :=
  bool_decide (ChildState.membership_status (child_state_of r) = Restart.Removing)
  || negb (spawned r) || awaits_ready (startup r).

Definition gated (s : SupervisorState) (k : ChildKey) : Prop :=
  exists r, children s !! k = Some r /\ gates r = true.

#[export] Instance gated_dec s k : Decision (gated s k).
Proof.
  unfold gated. destruct (children s !! k) as [r|].
  - destruct (gates r) eqn:E; [left; by exists r|right; intros (? & ? & ?); congruence].
  - right. by intros (? & ? & _).
Defined.

(** The command issued when the cursor stops at [k]. *)
Definition start_effect (s : SupervisorState) (k : ChildKey) : list Effect :=
  match children s !! k with
  | Some r => if negb (spawned r) && startable r then [StartChild k] else []
  | None => []
  end.

Lemma startable_resident r :
  startable r = true -> ChildState.membership_status (child_state_of r) = Restart.Active.
Proof. unfold startable. by destruct (child_state_of r). Qed.

(** Iterations left when the cursor is at [c]. *)
Definition start_measure (s : SupervisorState) (c : ChildKey) : nat :=
  S (length (keys_after s c)).

Lemma start_measure_fuel s c : (start_measure s c < start_fuel s)%nat.
Proof.
  unfold start_measure, start_fuel, keys_after, bt_keys_after.
  rewrite <- length_bt_keys. do 2 apply le_n_S. apply length_filter.
Qed.

Lemma start_loop_search fuel s c :
  next_ordered_start s = Some c -> (start_measure s c < fuel)%nat ->
  (exists k, start_loop fuel s = (true, start_effect s k, set_next_start (Some k) s) /\
     c <= k /\ gated s k /\ forall j, c <= j < k -> ~ gated s j) \/
  (start_loop fuel s = (false, [], set_next_start None s) /\ forall j, c <= j -> ~ gated s j).
Proof.
  revert s c. induction fuel as [|fuel IH]; intros s c Hc Hm; [lia|]. simpl. rewrite Hc.
  destruct (decide (gated s c)) as [(r & Er & Eg)|Hng].
  { left. exists c. unfold start_effect. rewrite Er, (set_next_start_id s (Some c)) by done.
    split; [|split_and!; [lia|by exists r|lia]].
    unfold gates in Eg. destruct (bool_decide _) eqn:Eb.
    { apply bool_decide_eq_true in Eb. destruct (startable r) eqn:Es.
      - apply startable_resident in Es. congruence.
      - by rewrite andb_false_r. }
    destruct (spawned r); simpl in *; [by rewrite Eg|done]. }
  assert (Hadv : forall x,
    match children s !! c with
    | None => x
    | Some record =>
        if bool_decide (ChildState.membership_status (child_state_of record) = Restart.Removing)
        then (true, [], s)
        else if negb (spawned record)
        then (true, if startable record then [StartChild c] else [], s)
        else if awaits_ready (startup record) then (true, [], s) else x
    end = x).
  { intros x. destruct (children s !! c) as [r|] eqn:Er; [|done].
    destruct (gates r) eqn:Eg; [destruct Hng; by exists r|]. unfold gates in Eg.
    apply orb_false_iff in Eg as [[-> ->]%orb_false_iff ->]. done. }
  rewrite Hadv. clear Hadv.
  unfold start_measure, keys_after in *. fold (bt_next c (children s)).
  destruct (bt_next c (children s)) as [j|] eqn:Ej.
  - rewrite (bt_next_cons _ _ _ Ej) in Hm. simpl in Hm.
    apply bt_next_Some in Ej as (Hcj & Hj & Hmin).
    assert (Hskip : forall i, c <= i < j -> ~ gated s i).
    { intros i Hi (r & Hr & Hg). destruct (decide (i = c)) as [->|]; [destruct Hng; by exists r|].
      specialize (Hmin i ltac:(lia) ltac:(eauto)). lia. }
    destruct (IH (set_next_start (Some j) s) j) as [(k & E & Hjk & Hg & Hbefore)|[E Hall]];
      [done|simpl; lia|left|right].
    + exists k. split_and!; [done|lia|done|].
      intros i Hi. destruct (decide (i < j)); [apply Hskip; lia|apply Hbefore; lia].
    + split; [done|]. intros i Hi. destruct (decide (i < j)); [apply Hskip; lia|apply Hall; lia].
  - right. destruct fuel; simpl; (split; [done|]);
      intros i Hi (r & Hr & Hg); (destruct (decide (i = c)) as [->|]; [destruct Hng; by exists r|]);
      rewrite bt_next_None in Ej; rewrite Ej in Hr by lia; done.
Qed.

(** The loop is the fixpoint the source writes: its fuel is never exhausted. *)
Lemma start_loop_fuel fuel s c :
  next_ordered_start s = Some c -> (start_measure s c < fuel)%nat ->
  start_loop fuel s = start_loop (start_fuel s) s.
Proof.
  intros Hc Hf.
  destruct (start_loop_search fuel s c Hc Hf) as [(k & -> & Hk & Hg & Hb)|[-> Hn]];
  destruct (start_loop_search _ s c Hc (start_measure_fuel s c))
    as [(k' & -> & Hk' & Hg' & Hb')|[-> Hn']]; try done.
  - destruct (decide (k < k')); [destruct (Hb' k); [lia|done]|].
    destruct (decide (k' < k)); [destruct (Hb k'); [lia|done]|].
    by replace k' with k by lia.
  - by destruct (Hn' k).
  - by destruct (Hn k').
Qed.

(** ** The ordered-stop loop *)

Lemma stop_measure_fuel s c :
  (S (length (bt_keys_before c (children s))) < start_fuel s)%nat.
Proof.
  unfold start_fuel, bt_keys_before. rewrite <- length_bt_keys.
  do 2 apply le_n_S. apply length_filter.
Qed.

Lemma stop_loop_search fuel s c :
  ordered_stop_cursor s = Some c ->
  (S (length (bt_keys_before c (children s))) < fuel)%nat ->
  (exists k, stop_loop fuel s =
       ([StopChild k], set_stop_waiting (Some k) (set_stop_cursor (previous_key s k) s)) /\
     k <= c /\ is_incomplete s k = true /\ forall j, k < j <= c -> is_incomplete s j = false) \/
  (stop_loop fuel s = ([], set_stop_cursor None s) /\
   forall j, j <= c -> is_incomplete s j = false).
Proof.
  revert s c. induction fuel as [|fuel IH]; intros s c Hc Hm; [lia|]. simpl. rewrite Hc.
  change (is_incomplete (set_stop_cursor (previous_key s c) s) c) with (is_incomplete s c).
  destruct (is_incomplete s c) eqn:Ei; simpl.
  { left. exists c. split_and!; [done|lia|done|lia]. }
  unfold previous_key at 1 3. destruct (bt_prev c (children s)) as [j|] eqn:Ej.
  - rewrite (bt_prev_snoc _ _ _ Ej), length_app in Hm. simpl in Hm.
    apply bt_prev_Some in Ej as (Hjc & Hj & Hmax).
    assert (Hskip : forall i, j < i <= c -> is_incomplete s i = false).
    { intros i Hi. destruct (decide (i = c)) as [->|]; [done|].
      apply not_true_iff_false. intros (r & Hr & _)%is_incomplete_true.
      specialize (Hmax i ltac:(lia) ltac:(eauto)). lia. }
    destruct (IH (set_stop_cursor (Some j) s) j) as [(k & E & Hkj & Hi & Hb)|[E Hall]];
      [done|simpl; lia|left|right].
    + exists k. split_and!; [done|lia|done|].
      intros i Hi'. destruct (decide (j < i)); [apply Hskip; lia|apply Hb; lia].
    + split; [done|]. intros i Hi. destruct (decide (j < i)); [apply Hskip; lia|apply Hall; lia].
  - right. rewrite bt_prev_None in Ej. split; [by destruct fuel|].
    intros i Hi. destruct (decide (i = c)) as [->|]; [done|].
    apply not_true_iff_false. intros (r & Hr & _)%is_incomplete_true.
    rewrite Ej in Hr by lia. done.
Qed.

(** ** One settlement pass, by parts *)

(** Nobody from the startup cursor on stops it. *)
Definition cursor_clear (s : SupervisorState) : Prop :=
  forall c j, next_ordered_start s = Some c -> c <= j -> ~ gated s j.

Definition awaiting (s : SupervisorState) : Prop :=
  exists k r, children s !! k = Some r /\ awaits_ready (startup r) = true.

Inductive startup_pass (s : SupervisorState) : list Effect -> SupervisorState -> Prop :=
| pass_not_starting :
    ScopeLifecycle.is_starting (lifecycle s) = false -> startup_pass s [] s
| pass_gated c k :
    lifecycle s = ScopeLifecycle.Starting -> flavor s = Ordered ->
    next_ordered_start s = Some c -> c <= k -> gated s k ->
    (forall j, c <= j < k -> ~ gated s j) ->
    startup_pass s (start_effect s k) (set_next_start (Some k) s)
| pass_ordered_wait :
    lifecycle s = ScopeLifecycle.Starting -> flavor s = Ordered -> cursor_clear s ->
    awaiting s -> startup_pass s [] (set_next_start None s)
| pass_ordered_done :
    lifecycle s = ScopeLifecycle.Starting -> flavor s = Ordered -> cursor_clear s ->
    ~ awaiting s ->
    startup_pass s [StartupCompleted ScopeState.Running]
      (set_lifecycle ScopeLifecycle.Running (set_next_start None s))
| pass_dynamic_wait :
    lifecycle s = ScopeLifecycle.Starting -> flavor s = Dynamic -> awaiting s ->
    startup_pass s (dynamic_starts s) s
| pass_dynamic_done :
    lifecycle s = ScopeLifecycle.Starting -> flavor s = Dynamic -> ~ awaiting s ->
    startup_pass s (dynamic_starts s ++ [StartupCompleted ScopeState.Running])
      (set_lifecycle ScopeLifecycle.Running s).

Inductive stop_pass (s : SupervisorState) : list Effect -> SupervisorState -> Prop :=
| pass_not_draining :
    flavor s = Dynamic \/ ScopeLifecycle.is_draining (lifecycle s) = false -> stop_pass s [] s
| pass_waiting w :
    flavor s = Ordered -> ScopeLifecycle.is_draining (lifecycle s) = true ->
    ordered_stop_waiting s = Some w -> is_incomplete s w = true -> stop_pass s [] s
| pass_stop_next c k :
    flavor s = Ordered -> ScopeLifecycle.is_draining (lifecycle s) = true ->
    (forall w, ordered_stop_waiting s = Some w -> is_incomplete s w = false) ->
    ordered_stop_cursor s = Some c -> k <= c -> is_incomplete s k = true ->
    (forall j, k < j <= c -> is_incomplete s j = false) ->
    stop_pass s [StopChild k]
      (set_stop_waiting (Some k) (set_stop_cursor (previous_key s k) s))
| pass_stop_done :
    flavor s = Ordered -> ScopeLifecycle.is_draining (lifecycle s) = true ->
    (forall w, ordered_stop_waiting s = Some w -> is_incomplete s w = false) ->
    (forall c j, ordered_stop_cursor s = Some c -> j <= c -> is_incomplete s j = false) ->
    stop_pass s [] (set_stop_waiting None (set_stop_cursor None s)).

Inductive finish_pass (s : SupervisorState) : list Effect -> SupervisorState -> Prop :=
| pass_not_finished :
    (finish_emitted s = false -> all_children_joined s = true ->
     ScopeLifecycle.is_draining (lifecycle s) = false /\
     ~ (lifecycle s = ScopeLifecycle.Running /\ flavor s = Ordered /\ children s ≠ ∅)) ->
    finish_pass s [] s
| pass_finished reason :
    finish_emitted s = false -> all_children_joined s = true ->
    (ScopeLifecycle.draining_reason (lifecycle s) = Some reason \/
     lifecycle s = ScopeLifecycle.Running /\ flavor s = Ordered /\ children s ≠ ∅ /\
     reason = StopReason.Finished) ->
    finish_pass s [Finished reason] (set_finish_emitted true s).

Lemma awaiting_bt_all s :
  bt_all (fun r => negb (awaits_ready (startup r))) (children s) = true <-> ~ awaiting s.
Proof.
  rewrite bt_all_true. unfold awaiting. split.
  - intros H (k & r & Hr & Ha). specialize (H _ _ Hr). by rewrite Ha in H.
  - intros H k r Hr. destruct (awaits_ready (startup r)) eqn:E; [|done].
    destruct H. eauto.
Qed.

Lemma complete_startup_pass s :
  lifecycle s = ScopeLifecycle.Starting ->
  (~ awaiting s /\ complete_startup_if_ready s =
     ([StartupCompleted ScopeState.Running], set_lifecycle ScopeLifecycle.Running s)) \/
  (awaiting s /\ complete_startup_if_ready s = ([], s)).
Proof.
  intros Hl. unfold complete_startup_if_ready. destruct (bt_all _ _) eqn:E.
  - left. rewrite awaiting_bt_all in E. by rewrite Hl.
  - right. split; [|done]. apply bt_all_false in E as (k & r & Hr & Ha%negb_false_iff).
    by exists k, r.
Qed.

Lemma settle_startup_pass s :
  startup_pass s (settle_startup s).1 (settle_startup s).2.
Proof.
  unfold settle_startup.
  destruct (lifecycle s) eqn:El; cbn [negb ScopeLifecycle.is_starting fst snd];
    [|apply pass_not_starting; by rewrite El..].
  destruct (flavor s) eqn:Ef.
  - destruct (next_ordered_start s) as [c|] eqn:Ec.
    + destruct (start_loop_search _ s c Ec (start_measure_fuel s c))
        as [(k & -> & Hk & Hg & Hb)|[-> Hall]]; simpl.
      { by eapply pass_gated. }
      assert (cursor_clear s) by (intros c' j Hc'; simplify_eq; apply Hall).
      destruct (complete_startup_pass (set_next_start None s) El) as [[Ha E]|[Ha E]];
        rewrite E; simpl; by constructor.
    + unfold start_fuel. simpl. rewrite Ec. simpl.
      assert (cursor_clear s) by (intros c' j Hc'; congruence).
      destruct (complete_startup_pass s El) as [[Ha E]|[Ha E]]; rewrite E; simpl.
      * pose proof (pass_ordered_done s) as P. rewrite set_next_start_id in P; auto.
      * pose proof (pass_ordered_wait s) as P. rewrite set_next_start_id in P; auto.
  - destruct (complete_startup_pass s El) as [[Ha E]|[Ha E]]; rewrite E; simpl;
      rewrite ?app_nil_r; by constructor.
Qed.

Lemma settle_ordered_stop_pass s :
  stop_pass s (settle_ordered_stop s).1 (settle_ordered_stop s).2.
Proof.
  unfold settle_ordered_stop.
  destruct (flavor s) eqn:Ef; [|by constructor; left].
  rewrite (bool_decide_eq_true_2 (Ordered = Ordered)) by done.
  destruct (ScopeLifecycle.is_draining _) eqn:Ed; cbn [negb orb fst snd]; [|by constructor; right].
  assert (Hloop : forall s0, s0 = set_stop_waiting None s ->
    (forall w, ordered_stop_waiting s = Some w -> is_incomplete s w = false) ->
    stop_pass s (stop_loop (start_fuel s) s0).1 (stop_loop (start_fuel s) s0).2).
  { intros s0 -> Hw. destruct (ordered_stop_cursor s) as [c|] eqn:Ec.
    - destruct (stop_loop_search (start_fuel s) (set_stop_waiting None s) c Ec
        (stop_measure_fuel s c)) as [(k & -> & Hk & Hi & Hb)|[-> Hall]]; simpl.
      + by eapply (pass_stop_next s c k).
      + apply pass_stop_done; try done. intros c' j Hc'; simplify_eq; apply Hall.
    - unfold start_fuel; simpl. rewrite Ec; simpl.
      replace (set_stop_waiting None s) with (set_stop_waiting None (set_stop_cursor None s))
        by (by rewrite (set_stop_cursor_id s)).
      apply pass_stop_done; try done. congruence. }
  destruct (ordered_stop_waiting s) as [w|] eqn:Ew.
  - destruct (is_incomplete s w) eqn:Ei; [by eapply pass_waiting|].
    apply Hloop; [done|]. intros w' Hw'; by simplify_eq.
  - apply Hloop; [by rewrite (set_stop_waiting_id s)|done].
Qed.

Lemma settle_finish_pass s : finish_pass s (settle_finish s).1 (settle_finish s).2.
Proof.
  unfold settle_finish. destruct (finish_emitted s) eqn:Ee; simpl.
  { apply pass_not_finished. congruence. }
  unfold ScopeLifecycle.finish_if_ready, then_some. simpl.
  destruct (all_children_joined s) eqn:Ej; simpl.
  2:{ destruct (lifecycle s) eqn:El; simpl; rewrite ?andb_false_r;
      cbn [fst snd]; apply pass_not_finished; intros; congruence. }
  destruct (lifecycle s) as [| | |[reason ph]] eqn:El; simpl.
  - apply pass_not_finished. rewrite El. naive_solver.
  - destruct (bool_decide (flavor s = Ordered)) eqn:Ef; simpl.
    2:{ apply bool_decide_eq_false in Ef. apply pass_not_finished. rewrite El. naive_solver. }
    destruct (bool_decide (children s = ∅)) eqn:Ec; simpl.
    { apply bool_decide_eq_true in Ec. apply pass_not_finished. rewrite El. naive_solver. }
    apply bool_decide_eq_true in Ef. apply bool_decide_eq_false in Ec.
    apply pass_finished; [done..|]. right. done.
  - apply pass_not_finished. rewrite El. naive_solver.
  - apply pass_finished; [done..|]. left. by rewrite El.
Qed.

(** A settlement pass is its three parts in order. *)
Lemma settle_passes s es s' :
  settle s = (es, s') ->
  exists e1 s1 e2 s2 e3,
    startup_pass s e1 s1 /\ stop_pass s1 e2 s2 /\ finish_pass s2 e3 s' /\ es = e1 ++ e2 ++ e3.
Proof.
  unfold settle. intros H.
  pose proof (settle_startup_pass s). destruct (settle_startup s) as [e1 s1].
  pose proof (settle_ordered_stop_pass s1). destruct (settle_ordered_stop s1) as [e2 s2].
  pose proof (settle_finish_pass s2). destruct (settle_finish s2) as [e3 s3]. simplify_eq/=.
  by exists e1, s1, e2, s2, e3.
Qed.

(** ** Events other than [Settle] are steps of one record *)

(** The edges of the incarnation graph. *)
Inductive incarnation_edge : IncarnationState.t -> IncarnationState.t -> Prop :=
| edge_spawn : incarnation_edge IncarnationState.Unstarted IncarnationState.Active
| edge_respawn : incarnation_edge IncarnationState.RestartPending IncarnationState.Active
| edge_stop : incarnation_edge IncarnationState.Active IncarnationState.Stopping
| edge_complete : incarnation_edge IncarnationState.Active IncarnationState.Complete
| edge_stopped : incarnation_edge IncarnationState.Stopping IncarnationState.Complete
| edge_restart : incarnation_edge IncarnationState.Complete IncarnationState.RestartPending
| edge_dispose_unstarted : incarnation_edge IncarnationState.Unstarted IncarnationState.Disposing
| edge_dispose : incarnation_edge IncarnationState.Complete IncarnationState.Disposing
| edge_dispose_pending :
    incarnation_edge IncarnationState.RestartPending IncarnationState.Disposing
| edge_join : incarnation_edge IncarnationState.Disposing IncarnationState.Joined.

(** How far removal of the membership has progressed. *)
Definition removal_level (s : ChildState.t) : Z :=
  match s with
  | ChildState.Resident _ => 0
  | ChildState.RemovalSampled _ => 1
  | ChildState.Removing _ => 2
  end.

(** One record under one event, and the commands it issues.  [starting] is
    the scope's phase; restarts re-arm readiness only then. *)
Inductive record_step (starting : bool) (k : ChildKey) :
  ChildRecord -> list Effect -> ChildRecord -> Prop :=
| rec_spawn r :
    startable r = true ->
    record_step starting k r []
      (mkChild (membership r) (ChildState.Resident IncarnationState.Active) (startup r) true)
| rec_ready r :
    removal_level (child_state_of r) = 0 ->
    incarnation_of r = IncarnationState.Active \/ incarnation_of r = IncarnationState.Stopping ->
    record_step starting k r [] (with_startup r (set_ready (startup r) true))
| rec_move r next :
    incarnation_edge (incarnation_of r) next -> next ≠ IncarnationState.Active ->
    next ≠ IncarnationState.Joined \/ removal_level (child_state_of r) < 2 ->
    next ≠ IncarnationState.RestartPending \/ starting = false ->
    record_step starting k r []
      (with_state r (ChildState.with_incarnation (child_state_of r) next))
| rec_rearm r :
    starting = true -> incarnation_of r = IncarnationState.Complete ->
    record_step starting k r []
      (mkChild (membership r)
         (ChildState.with_incarnation (child_state_of r) IncarnationState.RestartPending)
         (set_ready (startup r) false) (spawned r))
| rec_removed_joined r :
    child_state_of r = ChildState.Removing IncarnationState.Disposing ->
    record_step starting k r [FinalizeRemoval k]
      (with_state r (ChildState.Removing IncarnationState.Joined))
| rec_sample r :
    record_step starting k r []
      (with_state r (ChildState.removal_sampled (child_state_of r)))
| rec_commit r :
    removal_level (child_state_of r) < 2 ->
    record_step starting k r
      [if bool_decide (incarnation_of r = IncarnationState.Joined)
       then FinalizeRemoval k else StopChild k]
      (with_state r (ChildState.Removing (incarnation_of r))).

Definition reclaimed (k : ChildKey) (r : ChildRecord) (s : SupervisorState) : SupervisorState :=
  let s' := set_children (delete k (children s)) s in
  if bool_decide (child_keys s !! membership r = Some k)
  then set_child_keys (delete (membership r) (child_keys s)) s' else s'.

Definition event_child (e : Event) : option ChildKey :=
  match e with
  | Spawned k | Ready k | IncarnationComplete k | RestartPending k | StopStarted k
  | DisposalStarted k | Terminalized k | RemovalSampled k | RemovalLatched k | Reclaim k => Some k
  | Settle => None
  end.

Inductive event_step (s : SupervisorState) (k : ChildKey) :
  list Effect -> SupervisorState -> Prop :=
| ev_ignored : event_step s k [] s
| ev_record r es r' :
    children s !! k = Some r ->
    record_step (ScopeLifecycle.is_starting (lifecycle s)) k r es r' ->
    event_step s k es (put k r' s)
| ev_reclaimed r :
    children s !! k = Some r -> incarnation_of r = IncarnationState.Joined ->
    event_step s k [] (reclaimed k r s).

Lemma put_put k r r' s : put k r' (put k r s) = put k r' s.
Proof. unfold put, set_children. simpl. by rewrite insert_insert_eq. Qed.

(** [transition_incarnation] along edges of the graph. *)
Lemma transition_edge s k expected next :
  (forall i, i ∈ expected -> incarnation_edge i next) ->
  let '(b, s') := transition_incarnation s k expected next in
  (b = false /\ s' = s) \/
  (b = true /\ exists r, children s !! k = Some r /\ incarnation_edge (incarnation_of r) next /\
     incarnation_of r ∈ expected /\
     s' = put k (with_state r (ChildState.with_incarnation (child_state_of r) next)) s).
Proof.
  intros He. unfold transition_incarnation. destruct (children s !! k) as [r|]; [|by left].
  destruct (record_joined r); simpl; [by left|].
  destruct (bool_decide _) eqn:E; simpl; [|by left].
  apply bool_decide_eq_true in E. right. split; [done|]. exists r. auto.
Qed.

Ltac transition_cases H :=
  match goal with
  | |- context [transition_incarnation ?s ?k ?ex ?nx] =>
      pose proof (transition_edge s k ex nx) as H;
      destruct (transition_incarnation s k ex nx) as [? ?];
      let Hr := fresh "Hr" in let He := fresh "He" in let Hin := fresh "Hin" in
      destruct H as [[-> ->]|(-> & ?r & Hr & He & Hin & ->)];
      [intros ?i; rewrite ?elem_of_cons, ?elem_of_nil; intros; destruct_or?; subst; try done;
       constructor|..]
  end.

Lemma apply_event_step s e k :
  event_child e = Some k -> event_step s k (apply s e).1 (apply s e).2.
Proof.
  destruct e; intros [= ->]; simpl.
  - destruct (children s !! k) as [r|] eqn:Er; [|constructor].
    destruct (startable r) eqn:Es; [|constructor]. simpl. eapply ev_record; [done|].
    replace (ChildState.with_incarnation _ _) with (ChildState.Resident IncarnationState.Active)
      by (unfold startable in Es; by destruct (child_state_of r)).
    by apply rec_spawn.
  - destruct (children s !! k) as [r|] eqn:Er; [|constructor].
    destruct (_ || _) eqn:Eb; [constructor|]. simpl. eapply ev_record; [done|].
    zreflect. apply bool_decide_eq_false in H1. apply bool_decide_eq_true in H0.
    rewrite !elem_of_cons, elem_of_nil in H0.
    apply rec_ready; [by destruct (child_state_of r)|tauto].
  - transition_cases H; [constructor|]. eapply ev_record; [done|]. apply rec_move; auto.
  - transition_cases H; [constructor|]. cbn [put set_children children lifecycle].
    rewrite lookup_insert_eq. destruct (ScopeLifecycle.is_starting _) eqn:Est; simpl.
    + fold (put k r s). rewrite put_put. eapply ev_record; [done|]. rewrite Est.
      apply rec_rearm; [done|]. by apply list_elem_of_singleton in Hin.
    + eapply ev_record; [done|]. apply rec_move; auto.
  - transition_cases H; [constructor|]. eapply ev_record; [done|]. apply rec_move; auto.
  - transition_cases H; [constructor|]. eapply ev_record; [done|]. apply rec_move; auto.
  - transition_cases H; [constructor|]. unfold child_state.
    cbn [put set_children children]. rewrite lookup_insert_eq. simpl.
    apply list_elem_of_singleton in Hin. unfold incarnation_of in Hin.
    destruct (child_state_of r) as [i|i|i] eqn:Ei; simpl in *; subst i.
    1,2: eapply ev_record; [done|];
      pose proof (rec_move (ScopeLifecycle.is_starting (lifecycle s)) k r
                    IncarnationState.Joined) as P;
      unfold incarnation_of in P; rewrite Ei in P; apply P; [constructor|done|by right|by left].
    eapply ev_record; [done|]. by apply rec_removed_joined.
  - unfold sample_removal. destruct (children s !! k) as [r|] eqn:Er; [|constructor].
    eapply ev_record; [done|]. apply rec_sample.
  - destruct (children s !! k) as [r|] eqn:Er; [|constructor].
    pose proof (rec_commit (ScopeLifecycle.is_starting (lifecycle s)) k r) as P.
    unfold incarnation_of in P.
    destruct (child_state_of r) as [i|i|i] eqn:Ei; simpl in *; [..|constructor];
      destruct (bool_decide _); simpl; (eapply ev_record; [done|]; apply P; lia).
  - destruct (children s !! k) as [r|] eqn:Er; [|constructor].
    destruct (record_joined r) eqn:Ej; simpl; [|constructor].
    unfold record_joined, ChildState.joined in Ej. apply bool_decide_eq_true in Ej.
    pose proof (ev_reclaimed s k r Er Ej) as P. unfold reclaimed in P.
    by destruct (bool_decide (child_keys s !! membership r = Some k)).
Qed.
