(* ===== verification/SupervisorInv.v ===== *)
(** * Invariants of the supervision reducer

    The operations a driver performs on one scope, the runs they form, and
    the state invariant every run preserves.  It contains the assertions of
    the source's [check_invariants]. *)

From S2P Require Import Prelude BTree Identity Exit Policy Restart Lifecycle.
From S2P Require Import Supervisor SupervisorLemmas.

(** ** Operations and runs *)

Inductive sup_op :=
| OpAdmit (m : Membership) (initial : bool)
| OpStep (e : Event)
| OpFailStartup
| OpBeginDrain (reason : StopReason.t)
| OpForce.

Definition exec (s : SupervisorState) (o : sup_op) : outcome (list Effect * SupervisorState) :=
  match o with
  | OpAdmit m initial => '(_, s) ← admit_child s m initial; Ret ([], s)
  | OpStep e => Ret (step s e)
  | OpFailStartup => Ret ([], (fail_startup s).2)
  | OpBeginDrain reason => '(_, es, s) ← begin_drain s reason; Ret (es, s)
  | OpForce => '(_, es, s) ← force s; Ret (es, s)
  end.

(** What the driver guarantees of its requests: a membership is admitted once,
    while the scope neither drains nor has finished, and a drain carries a
    live reason. *)
Definition legal (s : SupervisorState) (o : sup_op) : bool :=
  match o with
  | OpAdmit m _ =>
      negb (ScopeLifecycle.is_draining (lifecycle s)) && negb (finish_emitted s) &&
      bool_decide (child_keys s !! m = None)
  | OpBeginDrain reason => negb (ScopeLifecycle.is_never_started reason)
  | _ => true
  end.

Record entry := mkEntry
  { entry_state : SupervisorState; entry_op : sup_op; entry_effects : list Effect }.

(** [run fl tr s]: a scope of flavor [fl] reaches [s] through [tr]. *)
Inductive run (fl : ScopeFlavor) : list entry -> SupervisorState -> Prop :=
| run_new : run fl [] (supervisor_new fl ScopeLifecycle.starting)
| run_step tr s o es s' :
    run fl tr s -> legal s o = true -> exec s o = Ret (es, s') ->
    run fl (tr ++ [mkEntry s o es]) s'.

(** The run of a list of operations, when all of them are legal. *)
Fixpoint play (tr : list entry) (s : SupervisorState) (ops : list sup_op)
  : option (list entry * SupervisorState) :=
  match ops with
  | [] => Some (tr, s)
  | o :: ops =>
      if legal s o then
        match exec s o with
        | Ret (es, s') => play (tr ++ [mkEntry s o es]) s' ops
        | _ => None
        end
      else None
  end.

Definition play_from (fl : ScopeFlavor) : list sup_op -> option (list entry * SupervisorState) :=
  play [] (supervisor_new fl ScopeLifecycle.starting).

Lemma play_run fl tr s ops tr' s' :
  run fl tr s -> play tr s ops = Some (tr', s') -> run fl tr' s'.
Proof.
  revert tr s. induction ops as [|o ops IH]; intros tr s Hr Hp; simpl in Hp; [by simplify_eq|].
  destruct (legal s o) eqn:El; [|done]. destruct (exec s o) as [[es s1]| |] eqn:Ee; [|done..].
  eapply IH; [|done]. by econstructor.
Qed.

Lemma play_from_run fl ops tr s : play_from fl ops = Some (tr, s) -> run fl tr s.
Proof. apply play_run, run_new. Qed.

(** ** The invariant *)

Definition record_ok (r : ChildRecord) : Prop :=
  (spawned r = false ->
     incarnation_of r = IncarnationState.Unstarted \/
     incarnation_of r = IncarnationState.Disposing \/
     incarnation_of r = IncarnationState.Joined) /\
  (spawned r = true -> incarnation_of r ≠ IncarnationState.Unstarted) /\
  (startup r = Initial true -> spawned r = true).

Definition counter (s : SupervisorState) : Z := MonotonicCounter.current (keys s).

(** Members the startup cursor has already passed. *)
Definition passed (s : SupervisorState) (k : ChildKey) : Prop :=
  match next_ordered_start s with Some c => k < c | None => True end.

Record inv (s : SupervisorState) : Prop := mkInv
  { inv_index : forall k r, children s !! k = Some r -> child_keys s !! membership r = Some k;
    inv_index_back : forall m k, child_keys s !! m = Some k ->
      exists r, children s !! k = Some r /\ membership r = m;
    inv_counter : 0 <= counter s <= u64_max;
    inv_keys : forall k, is_Some (children s !! k) -> 0 < k <= counter s;
    inv_dynamic : flavor s = Dynamic ->
      next_ordered_start s = None /\ ordered_stop_cursor s = None /\ ordered_stop_waiting s = None;
    inv_next : forall c, next_ordered_start s = Some c -> 0 < c <= counter s;
    inv_cursor : forall c, ordered_stop_cursor s = Some c ->
      ScopeLifecycle.is_draining (lifecycle s) = true;
    inv_waiting : forall w, ordered_stop_waiting s = Some w ->
      ScopeLifecycle.is_draining (lifecycle s) = true /\
      forall c, ordered_stop_cursor s = Some c -> c < w;
    inv_records : forall k r, children s !! k = Some r -> record_ok r;
    inv_started : flavor s = Ordered -> forall k r, children s !! k = Some r ->
      is_initial_startup (startup r) = true -> passed s k -> spawned r = true;
    inv_stop : flavor s = Ordered -> ScopeLifecycle.is_draining (lifecycle s) = true ->
      forall k, is_incomplete s k = true ->
      ordered_stop_waiting s = Some k \/ exists c, ordered_stop_cursor s = Some c /\ k <= c;
    inv_finish : finish_emitted s = true -> all_children_joined s = true }.

Lemma inv_new fl : inv (supervisor_new fl ScopeLifecycle.starting).
Proof.
  split; simpl; try done. intros k [r Hr]. by rewrite lookup_empty in Hr.
Qed.

(** ** Records *)

Lemma incarnation_with s i : ChildState.incarnation (ChildState.with_incarnation s i) = i.
Proof. by destruct s. Qed.
Lemma incarnation_sampled s :
  ChildState.incarnation (ChildState.removal_sampled s) = ChildState.incarnation s.
Proof. by destruct s. Qed.
Lemma initial_set_ready s b : is_initial_startup (set_ready s b) = is_initial_startup s.
Proof. by destruct s. Qed.
Ltac rec_simpl := simpl; rewrite ?incarnation_with, ?incarnation_sampled, ?initial_set_ready.

Lemma record_step_facts b k r es r' :
  record_step b k r es r' ->
  membership r' = membership r /\
  is_initial_startup (startup r') = is_initial_startup (startup r) /\
  (spawned r = true -> spawned r' = true) /\
  (incarnation_of r = IncarnationState.Joined -> incarnation_of r' = IncarnationState.Joined).
Proof.
  unfold incarnation_of.
  destruct 1; rec_simpl; split_and!; try done;
    unfold incarnation_of, startable in *; try (intros E; rewrite E in *).
  all: try (by inversion H). all: try congruence.
  destruct (child_state_of r) as [i|i|i]; simpl in *; try done. intros ->. done.
Qed.

Lemma record_step_ok b k r es r' : record_step b k r es r' -> record_ok r -> record_ok r'.
Proof.
  unfold record_ok. intros H (H1 & H2 & H3).
  destruct H; unfold incarnation_of in *; rec_simpl; try by split_and!.
  - split_and!; try done. intros _. destruct (spawned r); [done|].
    destruct (H1 eq_refl) as [?|[?|?]], H0; congruence.
  - split_and!; try done; intros Hs.
    + destruct (H1 Hs) as [E|[E|E]]; rewrite E in H; inversion H; subst; try done; auto.
    + by inversion H.
  - split_and!; try done; [intros Hs; destruct (H1 Hs) as [?|[?|?]]; congruence|].
    by destruct (startup r).
  - split_and!; [auto|done|done].
Qed.

(** ** Preservation *)

Section put.
Context (s : SupervisorState) (k : ChildKey) (r : ChildRecord) (es : list Effect)
  (r' : ChildRecord).
Hypothesis Hr : children s !! k = Some r.
Hypothesis Hstep : record_step (ScopeLifecycle.is_starting (lifecycle s)) k r es r'.

(** Every record after the step comes from one before it. *)
Lemma put_lookup j q :
  children (put k r' s) !! j = Some q ->
  exists q0, children s !! j = Some q0 /\ membership q = membership q0 /\
    is_initial_startup (startup q) = is_initial_startup (startup q0) /\
    (spawned q0 = true -> spawned q = true) /\
    (incarnation_of q0 = IncarnationState.Joined -> incarnation_of q = IncarnationState.Joined) /\
    (record_ok q0 -> record_ok q).
Proof.
  simpl. destruct (decide (j = k)) as [->|Hne].
  - rewrite lookup_insert_eq. intros [= <-]. exists r.
    destruct (record_step_facts _ _ _ _ _ Hstep) as (? & ? & ? & ?).
    pose proof (record_step_ok _ _ _ _ _ Hstep). auto 10.
  - rewrite lookup_insert_ne by done. intros Hq. exists q. auto 10.
Qed.

Lemma put_is_Some j : is_Some (children (put k r' s) !! j) <-> is_Some (children s !! j).
Proof. simpl. rewrite lookup_insert_is_Some. destruct (decide (k = j)); naive_solver. Qed.

Lemma put_incomplete j : is_incomplete (put k r' s) j = true -> is_incomplete s j = true.
Proof.
  rewrite !is_incomplete_true. intros (q & Hq & Hi).
  apply put_lookup in Hq as (q0 & Hq0 & _ & _ & _ & Hj & _). exists q0. auto.
Qed.

Lemma inv_put : inv s -> inv (put k r' s).
Proof.
  intros []. split; try done.
  - intros j q (q0 & Hq & -> & _)%put_lookup. eauto.
  - intros m j (q & Hq & <-)%inv_index_back0. simpl.
    destruct (decide (j = k)) as [->|]; [|rewrite lookup_insert_ne by done; eauto].
    rewrite lookup_insert_eq. simplify_eq. exists r'. split; [done|].
    by destruct (record_step_facts _ _ _ _ _ Hstep) as (? & _).
  - intros j Hj%put_is_Some. by apply inv_keys0.
  - intros j q (q0 & Hq & _ & _ & _ & _ & Hok)%put_lookup. eauto.
  - intros Hf j q (q0 & Hq & _ & Hi & Hsp & _)%put_lookup. rewrite Hi. eauto.
  - intros Hf Hd j Hi%put_incomplete. by apply inv_stop0.
  - intros Hf. simpl in Hf. specialize (inv_finish0 Hf).
    rewrite all_children_joined_true in *. intros j.
    apply not_true_iff_false. intros Hi%put_incomplete. by rewrite inv_finish0 in Hi.
Qed.
End put.

Lemma reclaimed_eq k r s :
  child_keys s !! membership r = Some k ->
  reclaimed k r s =
  set_child_keys (delete (membership r) (child_keys s))
    (set_children (delete k (children s)) s).
Proof. intros H. unfold reclaimed. by rewrite bool_decide_true. Qed.

Lemma delete_incomplete k s cs j :
  children cs = delete k (children s) -> is_incomplete cs j = true -> is_incomplete s j = true.
Proof.
  intros Hc. rewrite !is_incomplete_true, Hc. intros (q & Hq & Hi).
  apply lookup_delete_Some in Hq as [_ Hq]. eauto.
Qed.

Lemma inv_reclaimed s k r :
  children s !! k = Some r -> incarnation_of r = IncarnationState.Joined ->
  inv s -> inv (reclaimed k r s).
Proof.
  intros Hr Hj []. rewrite reclaimed_eq by eauto. split; try done; simpl.
  - intros j q [Hne Hq]%lookup_delete_Some. apply lookup_delete_Some. split; [|eauto].
    intros Hm. apply inv_index0 in Hq, Hr. congruence.
  - intros m j [Hne Hm]%lookup_delete_Some. destruct (inv_index_back0 m j Hm) as (q & Hq & Hqm).
    exists q. split; [|done]. apply lookup_delete_Some. split; [|done]. congruence.
  - intros j Hj'. apply inv_keys0. rewrite lookup_delete_is_Some in Hj'. naive_solver.
  - intros j q [_ Hq]%lookup_delete_Some. eauto.
  - intros Hf j q [_ Hq]%lookup_delete_Some. eauto.
  - intros Hf Hd j Hi. apply inv_stop0; [done..|]. refine (delete_incomplete k s _ j _ Hi). done.
  - intros Hf. specialize (inv_finish0 Hf). rewrite all_children_joined_true in *. intros j.
    apply not_true_iff_false. intros Hi.
    refine (_ (delete_incomplete k s _ j _ Hi)); [|done]. intros Hi'. by rewrite inv_finish0 in Hi'.
Qed.

Lemma inv_event s e k : event_child e = Some k -> inv s -> inv (apply s e).2.
Proof.
  intros He Hi. destruct (apply_event_step s e k He); [done|by eapply inv_put|].
  by apply inv_reclaimed.
Qed.

Lemma not_gated_spawned s j r :
  ~ gated s j -> children s !! j = Some r -> spawned r = true.
Proof.
  intros Hg Hr. destruct (spawned r) eqn:E; [done|]. destruct Hg. exists r. split; [done|].
  unfold gates. rewrite E. by rewrite orb_true_r.
Qed.

(** Moving the cursor over members that do not gate keeps the invariant. *)
Lemma inv_advance s n :
  flavor s = Ordered ->
  (forall c, n = Some c -> is_Some (children s !! c)) ->
  (forall c j, next_ordered_start s = Some c -> c <= j ->
     (match n with Some k => j < k | None => True end) -> ~ gated s j) ->
  inv s -> inv (set_next_start n s).
Proof.
  intros Hf Hn Hclear []. split; try done; simpl.
  - rewrite Hf. done.
  - intros c ->. apply inv_keys0. eauto.
  - intros _ j q Hq Hinit Hp. unfold passed in Hp; simpl in Hp.
    destruct (next_ordered_start s) as [c|] eqn:Ec.
    + destruct (decide (j < c)); [eapply inv_started0; [done..|]; unfold passed; by rewrite Ec|].
      eapply not_gated_spawned; [|done]. apply (Hclear c); [done|lia|done].
    + eapply inv_started0; [done..|]. unfold passed. by rewrite Ec.
Qed.

(** Completing startup changes neither children nor cursors. *)
Lemma inv_running s :
  lifecycle s = ScopeLifecycle.Starting -> inv s ->
  inv (set_lifecycle ScopeLifecycle.Running s).
Proof.
  intros Hl []. rewrite Hl in *. by split.
Qed.

Lemma inv_startup_pass s es s' : startup_pass s es s' -> inv s -> inv s'.
Proof.
  destruct 1 as [|c k Hl Hf Hc Hck Hg Hb|Hl Hf Hc _|Hl Hf Hc _| |Hl Hf _]; intros Hi;
    try done.
  - apply inv_advance; try done.
    + intros ? [= <-]. destruct Hg as (r & Hr & _). eauto.
    + intros c' j Hc' ? ?. simplify_eq. apply Hb. lia.
  - apply inv_advance; try done. intros c j Hc' Hj _. by eapply Hc.
  - apply inv_running; [done|]. apply inv_advance; try done. intros c j Hc' Hj _. by eapply Hc.
  - by apply inv_running.
Qed.

Lemma inv_stop_pass s es s' : stop_pass s es s' -> inv s -> inv s'.
Proof.
  destruct 1 as [| |c k Hf Hd Hw Hc Hkc Hi Hb|Hf Hd Hw Hall]; intros []; try done.
  - split; try done; simpl.
    + rewrite Hf. done.
    + intros w [= <-]. split; [done|]. by intros c' (? & _)%bt_prev_Some.
    + intros _ _ j Hj. change (is_incomplete s j = true) in Hj.
      destruct (inv_stop0 Hf Hd j Hj) as [Hwj|(c' & Hc' & Hjc)].
      { apply Hw in Hwj. congruence. }
      simplify_eq. destruct (decide (j = k)) as [->|]; [by left|right].
      destruct (decide (k < j)); [rewrite Hb in Hj by lia; done|].
      apply is_incomplete_true in Hj as (q & Hq & _).
      unfold previous_key. destruct (bt_prev k (children s)) as [p|] eqn:Ep.
      * exists p. split; [done|]. apply bt_prev_Some in Ep as (_ & _ & Hmax).
        apply Hmax; [lia|eauto].
      * rewrite bt_prev_None in Ep. rewrite Ep in Hq by lia. done.
  - split; try done; simpl; [by rewrite Hf|].
    intros _ _ j Hj. change (is_incomplete s j = true) in Hj.
    destruct (inv_stop0 Hf Hd j Hj) as [Hwj|(c' & Hc' & Hjc)].
    + apply Hw in Hwj. congruence.
    + rewrite (Hall c') in Hj by done. done.
Qed.

Lemma inv_finish_pass s es s' : finish_pass s es s' -> inv s -> inv s'.
Proof. destruct 1; intros []; by split. Qed.

Lemma inv_settle s : inv s -> inv (settle s).2.
Proof.
  intros Hi. destruct (settle s) as [es s'] eqn:E.
  apply settle_passes in E as (e1 & s1 & e2 & s2 & e3 & H1 & H2 & H3 & _).
  eauto using inv_startup_pass, inv_stop_pass, inv_finish_pass.
Qed.

Lemma inv_fail_startup s : inv s -> inv (fail_startup s).2.
Proof.
  unfold fail_startup, ScopeLifecycle.fail_startup.
  destruct (lifecycle s) eqn:El; simpl; [|by rewrite <- El, set_lifecycle_id..].
  intros []. rewrite El in *. by split.
Qed.

(** ** Admission *)

Lemma admit_Ret s m initial k s' :
  admit_child s m initial = Ret (k, s') <->
  k = counter s + 1 /\ k <= u64_max /\
  s' = mkSupervisor (flavor s) (lifecycle s)
    (<[k := mkChild m (ChildState.Resident IncarnationState.Unstarted)
              (if initial then Initial false else Runtime) false]> (children s))
    (<[m := k]> (child_keys s)) (MonotonicCounter.from_current k)
    (if initial && bool_decide (flavor s = Ordered) &&
        negb (bool_decide (is_Some (next_ordered_start s)))
     then Some k else next_ordered_start s)
    (ordered_stop_cursor s) (ordered_stop_waiting s) (hard_forced s) (finish_emitted s).
Proof.
  unfold admit_child. destruct (MonotonicCounter.mint (keys s)) as [[j c]| |] eqn:E; simpl.
  - apply mint_Ret in E as (-> & Hle & ->). fold (counter s) in *. split.
    + intros [= <- <-]. split_and!; [done|done|]. unfold set_next_start, put; simpl.
      by destruct (_ && _).
    + intros (-> & _ & ->). do 2 f_equal. unfold set_next_start, put; simpl.
      by destruct (_ && _).
  - split; [done|]. intros (-> & Hle & _).
    assert (MonotonicCounter.mint (keys s) =
      Ret (counter s + 1, MonotonicCounter.from_current (counter s + 1))) by (by apply mint_Ret).
    congruence.
  - split; [done|]. intros (-> & Hle & _).
    assert (MonotonicCounter.mint (keys s) =
      Ret (counter s + 1, MonotonicCounter.from_current (counter s + 1))) by (by apply mint_Ret).
    congruence.
Qed.

Lemma inv_admit s m initial k s' :
  legal s (OpAdmit m initial) = true -> admit_child s m initial = Ret (k, s') -> inv s -> inv s'.
Proof.
  simpl. intros Hl (-> & Hle & ->)%admit_Ret [].
  apply andb_true_iff in Hl as [[Hd%negb_true_iff Hfin%negb_true_iff]%andb_true_iff Hm].
  apply bool_decide_eq_true in Hm.
  assert (Hfresh : children s !! (counter s + 1) = None).
  { apply eq_None_not_Some. intros Hs%inv_keys0. lia. }
  set (k := counter s + 1) in *. split; simpl; try done.
  - intros j q [[<- <-]|[Hne Hq]]%lookup_insert_Some; [by rewrite lookup_insert_eq|].
    rewrite lookup_insert_ne; [eauto|]. intros ->. apply inv_index0 in Hq. congruence.
  - intros m' j [[<- <-]|[Hne Hj]]%lookup_insert_Some.
    + rewrite lookup_insert_eq. eauto.
    + destruct (inv_index_back0 _ _ Hj) as (q & Hq & <-). exists q. split; [|done].
      rewrite lookup_insert_ne; [done|]. intros <-. congruence.
  - unfold counter at 1 2; simpl. lia.
  - intros j. rewrite lookup_insert_is_Some. unfold counter at 1; simpl.
    intros [<-|[_ Hj%inv_keys0]]; lia.
  - intros Hf. rewrite Hf. rewrite andb_false_r. simpl. auto.
  - unfold counter at 1; simpl. intros c. destruct (_ && _); [intros [= <-]; lia|].
    intros Hc%inv_next0. lia.
  - intros j q [[<- <-]|[Hne Hq]]%lookup_insert_Some; [|eauto].
    unfold record_ok; simpl. split_and!; [by left|done|by destruct initial].
  - intros Hf j q Hq Hinit. unfold passed; simpl. rewrite (bool_decide_eq_true_2 _ Hf).
    destruct (next_ordered_start s) as [c|] eqn:Ec; simpl; rewrite ?andb_false_r, ?andb_true_r.
    + specialize (inv_next0 c eq_refl). intros Hp.
      apply lookup_insert_Some in Hq as [[<- <-]|[Hne Hq]]; [lia|].
      eapply inv_started0; [done..|]. unfold passed. by rewrite Ec.
    + destruct initial; simpl; apply lookup_insert_Some in Hq as [[<- <-]|[Hne Hq]];
        try done; try lia; intros _; eapply inv_started0; try done; unfold passed; by rewrite Ec.
  - congruence.
  - congruence.
Qed.

(** ** Drain and force *)

(** What [begin_drain] does: joins the reason into a running drain, or opens
    the drain and arms the flavor's stop sequence. *)
Lemma begin_drain_Ret s reason r es s' :
  begin_drain s reason = Ret (r, es, s') ->
  reason ≠ StopReason.NeverStarted /\
  exists d,
  s' = set_stop_cursor
         (if ScopeLifecycle.is_draining (lifecycle s) then ordered_stop_cursor s
          else match flavor s with
               | Ordered => bt_last (children s) | Dynamic => ordered_stop_cursor s end)
         (set_lifecycle (ScopeLifecycle.Draining d) s) /\
  if ScopeLifecycle.is_draining (lifecycle s)
  then r = None /\ es = [] /\
       ScopeLifecycle.draining_reason (lifecycle s) ≫= (fun w => Some (join_reason w reason))
         = Some (drain_reason d)
  else r = Some (ScopeLifecycle.is_starting (lifecycle s), ScopeState.Draining) /\
       es = match flavor s with Ordered => [] | Dynamic => unjoined StopChild s end /\
       drain_reason d = reason.
Proof.
  unfold begin_drain. intros H.
  destruct (ScopeLifecycle.begin_drain _ _) as [[e l]| |] eqn:E; simpl in H; [|done..].
  apply begin_drain_inv in E as (Hne & ph & E). split; [done|].
  destruct (lifecycle s) as [| | |d] eqn:El; simpl;
    destruct E as (-> & E); [..|destruct E as (-> & ->)]; subst.
  1-3: exists (mkDrain reason ph); destruct (flavor s); simplify_eq/=; split; try done;
    by destruct s.
  simplify_eq/=. exists (mkDrain (join_reason (drain_reason d) reason) (drain_startup d)).
  split; [|done]. by destruct s.
Qed.

Lemma begin_drain_lifecycle s reason r es s' :
  begin_drain s reason = Ret (r, es, s') ->
  exists x, ScopeLifecycle.begin_drain (lifecycle s) reason = Ret (x, lifecycle s').
Proof.
  unfold begin_drain. intros H.
  destruct (ScopeLifecycle.begin_drain _ _) as [[e l]| |] eqn:E; simpl in H; [|done..].
  exists e. destruct e; [destruct (flavor s)|]; by simplify_eq/=.
Qed.

Lemma begin_drain_ok s reason :
  reason ≠ StopReason.NeverStarted -> exists r es s', begin_drain s reason = Ret (r, es, s').
Proof.
  intros Hn. unfold begin_drain.
  destruct (begin_drain_total (lifecycle s) reason Hn) as (e & l & ->). simpl.
  destruct e; [destruct (flavor s)|]; eauto.
Qed.

Lemma inv_draining s d :
  inv s ->
  inv (set_stop_cursor
         (if ScopeLifecycle.is_draining (lifecycle s) then ordered_stop_cursor s
          else match flavor s with
               | Ordered => bt_last (children s) | Dynamic => ordered_stop_cursor s end)
         (set_lifecycle (ScopeLifecycle.Draining d) s)).
Proof.
  intros []. destruct (ScopeLifecycle.is_draining (lifecycle s)) eqn:Ed.
  { by split. }
  assert (Hw : ordered_stop_waiting s = None).
  { destruct (ordered_stop_waiting s) as [w|] eqn:Ew; [|done].
    by destruct (inv_waiting0 w eq_refl). }
  split; try done; simpl.
  - intros Hf. rewrite Hf. auto.
  - rewrite Hw. done.
  - intros Hf _ k Hk. rewrite Hf. right.
    apply is_incomplete_true in Hk as (r & Hr & _). simpl in Hr.
    destruct (bt_last (children s)) as [c|] eqn:El.
    + apply bt_last_Some in El as [_ Hmax]. exists c. split; [done|]. apply Hmax. eauto.
    + apply bt_last_None in El. rewrite El in Hr. done.
Qed.

Lemma inv_begin_drain s reason r es s' :
  begin_drain s reason = Ret (r, es, s') -> inv s -> inv s'.
Proof. intros (_ & d & -> & _)%begin_drain_Ret. apply inv_draining. Qed.

Lemma inv_hard_forced s : inv s -> inv (set_hard_forced true s).
Proof. intros []. by split. Qed.

Lemma force_Ret s r es s' :
  force s = Ret (r, es, s') ->
  exists es0, begin_drain (set_hard_forced true s) StopReason.ShutdownRequested = Ret (r, es0, s')
    /\ es = es0 ++ unjoined ForceChild s'.
Proof.
  unfold force. intros H.
  destruct (begin_drain _ _) as [[[r0 es0] s0]| |] eqn:E; simplify_eq/=. eauto.
Qed.

Lemma inv_exec s o es s' :
  legal s o = true -> exec s o = Ret (es, s') -> inv s -> inv s'.
Proof.
  intros Hl He Hi. destruct o as [m initial|e| |reason|]; simpl in He.
  - destruct (admit_child s m initial) as [[k s1]| |] eqn:Ea; simplify_eq/=. by eapply inv_admit.
  - injection He as <- <- || idtac. unfold step in He.
    assert (Hs : inv (apply s e).2).
    { destruct (event_child e) as [k|] eqn:Ek; [by eapply inv_event|].
      destruct e; try done. by apply inv_settle. }
    destruct (apply s e). by simplify_eq/=.
  - simplify_eq/=. by apply inv_fail_startup.
  - destruct (begin_drain s reason) as [[[r es1] s1]| |] eqn:Ea; simplify_eq/=.
    by eapply inv_begin_drain.
  - destruct (force s) as [[[r es1] s1]| |] eqn:Ea; simplify_eq/=.
    apply force_Ret in Ea as (es0 & Ea & _). eapply inv_begin_drain; [done|].
    by apply inv_hard_forced.
Qed.

Lemma run_inv fl tr s : run fl tr s -> inv s.
Proof. induction 1; [apply inv_new|by eapply inv_exec]. Qed.


(** ** Scenarios *)

(** The run of a script, or the fresh scope when some operation is illegal. *)
Definition scenario (fl : ScopeFlavor) (ops : list sup_op) : list entry * SupervisorState :=
  match play_from fl ops with
  | Some x => x
  | None => ([], supervisor_new fl ScopeLifecycle.starting)
  end.

Lemma scenario_run fl ops : run fl (scenario fl ops).1 (scenario fl ops).2.
Proof.
  unfold scenario. destruct (play_from fl ops) as [[tr s]|] eqn:E; [|apply run_new].
  by apply (play_from_run fl ops).
Qed.

(** Two initial members that start, become ready, and are then drained. *)
Definition demo_member (n : Z) : Membership :=
  mkMembership (mkFence (mkLineage 1) (mkGeneration n)).

Definition demo_ops : list sup_op :=
  [OpAdmit (demo_member 1) true; OpAdmit (demo_member 2) true; OpStep Settle;
   OpStep (Spawned 1); OpStep (Ready 1); OpStep Settle;
   OpStep (Spawned 2); OpStep (Ready 2); OpStep Settle;
   OpBeginDrain StopReason.ShutdownRequested; OpStep Settle;
   OpStep (StopStarted 2); OpStep (IncarnationComplete 2); OpStep (DisposalStarted 2);
   OpStep (RemovalLatched 2); OpStep (Terminalized 2); OpStep Settle;
   OpStep (StopStarted 1); OpStep (IncarnationComplete 1); OpStep (DisposalStarted 1);
   OpStep (Terminalized 1); OpStep Settle].

Definition demo (n : nat) : list entry * SupervisorState := scenario Ordered (take n demo_ops).

Lemma demo_run n : run Ordered (demo n).1 (demo n).2.
Proof. apply scenario_run. Qed.
