(* ===== verification/SupervisorProps.v ===== *)
(** * Theorems about the supervision reducer

    The commands of one operation by cases, the once-only commands
    ([FinalizeRemoval], [Finished]) and the acceptance of construction
    requests. *)

From S2P Require Import Prelude BTree Identity Exit Policy Restart Lifecycle.
From S2P Require Import Supervisor SupervisorLemmas SupervisorInv.

(** ** One operation, by cases *)

Inductive exec_view (s : SupervisorState) : sup_op -> list Effect -> SupervisorState -> Prop :=
| view_admit m initial k s' :
    admit_child s m initial = Ret (k, s') -> exec_view s (OpAdmit m initial) [] s'
| view_event e k es s' :
    event_child e = Some k -> event_step s k es s' -> exec_view s (OpStep e) es s'
| view_settle e1 s1 e2 s2 e3 s' :
    startup_pass s e1 s1 -> stop_pass s1 e2 s2 -> finish_pass s2 e3 s' ->
    exec_view s (OpStep Settle) (e1 ++ e2 ++ e3) s'
| view_fail : exec_view s OpFailStartup [] (fail_startup s).2
| view_drain reason r es s' :
    begin_drain s reason = Ret (r, es, s') -> exec_view s (OpBeginDrain reason) es s'
| view_force r es s' :
    begin_drain (set_hard_forced true s) StopReason.ShutdownRequested = Ret (r, es, s') ->
    exec_view s OpForce (es ++ unjoined ForceChild s') s'.

Lemma exec_viewed s o es s' : exec s o = Ret (es, s') -> exec_view s o es s'.
Proof.
  intros He. destruct o as [m initial|e| |reason|]; simpl in He.
  - destruct (admit_child s m initial) as [[k s1]| |] eqn:Ea; simplify_eq/=. by econstructor.
  - unfold step in He. destruct (event_child e) as [k|] eqn:Ek.
    + pose proof (apply_event_step s e k Ek) as Hs. injection He as He. rewrite He in Hs.
      by econstructor.
    + destruct e; try done. injection He as He.
      apply settle_passes in He as (e1 & s1 & e2 & s2 & e3 & H1 & H2 & H3 & ->).
      by econstructor.
  - simplify_eq/=. constructor.
  - destruct (begin_drain s reason) as [[[r es1] s1]| |] eqn:Ea; simplify_eq/=. by econstructor.
  - destruct (force s) as [[[r es1] s1]| |] eqn:Ea; simplify_eq/=.
    apply force_Ret in Ea as (es0 & Ea & ->). by econstructor.
Qed.

(** ** What passes leave alone *)

Lemma startup_pass_frame s es s' :
  startup_pass s es s' ->
  children s' = children s /\ keys s' = keys s /\ flavor s' = flavor s /\
  finish_emitted s' = finish_emitted s /\
  ordered_stop_cursor s' = ordered_stop_cursor s /\
  ordered_stop_waiting s' = ordered_stop_waiting s /\
  (lifecycle s' = lifecycle s \/
   lifecycle s = ScopeLifecycle.Starting /\ lifecycle s' = ScopeLifecycle.Running).
Proof. destruct 1; simpl; split_and!; auto. Qed.

Lemma stop_pass_frame s es s' :
  stop_pass s es s' ->
  children s' = children s /\ keys s' = keys s /\ flavor s' = flavor s /\
  finish_emitted s' = finish_emitted s /\ lifecycle s' = lifecycle s /\
  next_ordered_start s' = next_ordered_start s.
Proof. destruct 1; simpl; split_and!; auto. Qed.

Lemma finish_pass_frame s es s' :
  finish_pass s es s' ->
  children s' = children s /\ keys s' = keys s /\ flavor s' = flavor s /\
  lifecycle s' = lifecycle s /\ next_ordered_start s' = next_ordered_start s /\
  ordered_stop_cursor s' = ordered_stop_cursor s /\
  ordered_stop_waiting s' = ordered_stop_waiting s.
Proof. destruct 1; simpl; split_and!; auto. Qed.

Lemma settle_frame s e1 s1 e2 s2 e3 s' :
  startup_pass s e1 s1 -> stop_pass s1 e2 s2 -> finish_pass s2 e3 s' ->
  children s' = children s /\ keys s' = keys s /\ flavor s' = flavor s.
Proof.
  intros (H1 & H2 & H3 & _)%startup_pass_frame (H4 & H5 & H6 & _)%stop_pass_frame
    (H7 & H8 & H9 & _)%finish_pass_frame. split_and!; congruence.
Qed.

Lemma begin_drain_frame s reason r es s' :
  begin_drain s reason = Ret (r, es, s') ->
  children s' = children s /\ keys s' = keys s /\ flavor s' = flavor s /\
  finish_emitted s' = finish_emitted s /\ child_keys s' = child_keys s /\
  next_ordered_start s' = next_ordered_start s /\
  ordered_stop_waiting s' = ordered_stop_waiting s.
Proof. intros (_ & d & -> & _)%begin_drain_Ret. done. Qed.

Lemma fail_startup_frame s : exists l, (fail_startup s).2 = set_lifecycle l s.
Proof. unfold fail_startup. destruct (ScopeLifecycle.fail_startup _) as [r l]. eauto. Qed.

Lemma reclaimed_frame k r s :
  children (reclaimed k r s) = delete k (children s) /\ keys (reclaimed k r s) = keys s /\
  flavor (reclaimed k r s) = flavor s /\ lifecycle (reclaimed k r s) = lifecycle s /\
  finish_emitted (reclaimed k r s) = finish_emitted s /\
  next_ordered_start (reclaimed k r s) = next_ordered_start s /\
  ordered_stop_waiting (reclaimed k r s) = ordered_stop_waiting s.
Proof. unfold reclaimed. by destruct (bool_decide _). Qed.

Lemma exec_flavor s o es s' : exec s o = Ret (es, s') -> flavor s' = flavor s.
Proof.
  intros H%exec_viewed. destruct H.
  - apply admit_Ret in H as (_ & _ & ->). done.
  - destruct H0; [done..|]. apply reclaimed_frame.
  - by destruct (settle_frame _ _ _ _ _ _ _ H H0 H1) as (_ & _ & ?).
  - by destruct (fail_startup_frame s) as [l ->].
  - apply begin_drain_frame in H. naive_solver.
  - apply begin_drain_frame in H. naive_solver.
Qed.

Lemma run_flavor fl tr s : run fl tr s -> flavor s = fl.
Proof. induction 1 as [|tr s o es s' Hr IH Hl He]; [done|]. apply exec_flavor in He. congruence. Qed.

(** ** Effects by shape *)

Definition effects (tr : list entry) : list Effect := concat (entry_effects <$> tr).

Lemma effects_snoc tr x : effects (tr ++ [x]) = effects tr ++ entry_effects x.
Proof. unfold effects. rewrite fmap_app, concat_app. simpl. by rewrite app_nil_r. Qed.

Definition is_start (e : Effect) : bool := match e with StartChild _ => true | _ => false end.

Lemma dynamic_starts_shape s e : e ∈ dynamic_starts s ->
  exists k r, e = StartChild k /\ children s !! k = Some r /\
    is_initial_startup (startup r) = true /\ spawned r = false /\ startable r = true.
Proof.
  unfold dynamic_starts. rewrite list_elem_of_omap. intros (k & _ & H).
  destruct (children s !! k) as [r|] eqn:E; [|done]. unfold then_some in H.
  destruct (_ && _) eqn:Eb; simplify_eq/=. zreflect. exists k, r. auto.
Qed.

Lemma start_effect_shape s k e : e ∈ start_effect s k ->
  e = StartChild k /\
  exists r, children s !! k = Some r /\ spawned r = false /\ startable r = true.
Proof.
  unfold start_effect. destruct (children s !! k) as [r|]; [|by intros ?%elem_of_nil].
  destruct (negb (spawned r) && startable r) eqn:E; [|by intros ?%elem_of_nil].
  zreflect. intros ->%list_elem_of_singleton. eauto.
Qed.

Lemma unjoined_shape mk s e : e ∈ unjoined mk s <->
  exists k, e = mk k /\ is_incomplete s k = true.
Proof.
  unfold unjoined. rewrite list_elem_of_omap. setoid_rewrite is_incomplete_true.
  unfold then_some, record_joined, ChildState.joined. split.
  - intros (k & _ & H). destruct (children s !! k) as [r|] eqn:E; [|done].
    destruct (bool_decide _) eqn:Eb; simplify_eq/=. apply bool_decide_eq_false in Eb.
    exists k. eauto.
  - intros (k & -> & r & Hr & Hj). exists k. rewrite elem_of_bt_keys, Hr. split; [done|].
    fold (incarnation_of r). by rewrite bool_decide_false.
Qed.

(** Commands of a settlement pass other than starts. *)
Lemma startup_pass_effects s es s' e :
  startup_pass s es s' -> e ∈ es -> is_start e = true \/ e = StartupCompleted ScopeState.Running.
Proof.
  destruct 1; intros He; try by apply elem_of_nil in He.
  - apply start_effect_shape in He as [-> _]. by left.
  - apply list_elem_of_singleton in He. by right.
  - apply dynamic_starts_shape in He as (? & ? & -> & _). by left.
  - apply elem_of_app in He as [He|He%list_elem_of_singleton]; [|by right].
    apply dynamic_starts_shape in He as (? & ? & -> & _). by left.
Qed.

Definition count (p : Effect -> bool) (es : list Effect) : nat := length (List.filter p es).

Lemma count_app p a b : count p (a ++ b) = (count p a + count p b)%nat.
Proof. unfold count. by rewrite List.filter_app, length_app. Qed.

Lemma count_zero p es : (forall e, e ∈ es -> p e = false) -> count p es = 0%nat.
Proof.
  intros H. unfold count. induction es as [|e es IH]; [done|]. simpl.
  rewrite (H e) by left. apply IH. intros. apply H. by right.
Qed.

Lemma count_effects_snoc p tr s o es :
  count p (effects (tr ++ [mkEntry s o es])) = (count p (effects tr) + count p es)%nat.
Proof. by rewrite effects_snoc, count_app. Qed.

Definition is_finalize (k : ChildKey) (e : Effect) : bool :=
  match e with FinalizeRemoval j => k =? j | _ => false end.
Definition is_finished (e : Effect) : bool := match e with Finished _ => true | _ => false end.
Definition is_startup_completed (e : Effect) : bool :=
  match e with StartupCompleted _ => true | _ => false end.

(** Commands only a given part issues. *)
Lemma settle_effects s e1 s1 e2 s2 e3 s' e :
  startup_pass s e1 s1 -> stop_pass s1 e2 s2 -> finish_pass s2 e3 s' -> e ∈ e1 ++ e2 ++ e3 ->
  (e ∈ e1 /\ (is_start e = true \/ e = StartupCompleted ScopeState.Running)) \/
  (e ∈ e2 /\ exists k, e = StopChild k) \/
  (e ∈ e3 /\ exists r, e = Finished r).
Proof.
  intros H1 H2 H3. rewrite !elem_of_app. intros [He|[He|He]].
  - left. split; [done|]. by eapply startup_pass_effects.
  - right; left. split; [done|]. destruct H2; try by apply elem_of_nil in He.
    apply list_elem_of_singleton in He. eauto.
  - right; right. split; [done|]. destruct H3; [by apply elem_of_nil in He|].
    apply list_elem_of_singleton in He. eauto.
Qed.

Lemma begin_drain_effects s reason r es s' e :
  begin_drain s reason = Ret (r, es, s') -> e ∈ es -> exists k, e = StopChild k.
Proof.
  intros (_ & d & _ & H)%begin_drain_Ret He.
  destruct (ScopeLifecycle.is_draining _); [destruct H as (_ & -> & _); by apply elem_of_nil in He|].
  destruct H as (_ & -> & _). destruct (flavor s); [by apply elem_of_nil in He|].
  apply unjoined_shape in He as (k & -> & _). eauto.
Qed.

Lemma force_effects s r es s' e :
  begin_drain (set_hard_forced true s) StopReason.ShutdownRequested = Ret (r, es, s') ->
  e ∈ es ++ unjoined ForceChild s' ->
  exists k, e = StopChild k \/ e = ForceChild k.
Proof.
  intros H [He|He]%elem_of_app.
  - destruct (begin_drain_effects _ _ _ _ _ _ H He) as [k ->]. eauto.
  - apply unjoined_shape in He as (k & -> & _). eauto.
Qed.

(** ** Removal finalizes exactly once *)

Definition removed_joined (r : ChildRecord) : bool :=
  match child_state_of r with ChildState.Removing IncarnationState.Joined => true | _ => false end.

Lemma record_step_finalize b k r es r' :
  record_step b k r es r' ->
  (count (is_finalize k) es + Nat.b2n (removed_joined r) = Nat.b2n (removed_joined r'))%nat.
Proof.
  unfold removed_joined. destruct 1; simpl.
  - unfold startable in H. by destruct (child_state_of r).
  - done.
  - unfold incarnation_of in H. destruct (child_state_of r) as [i|i|i]; simpl in *; [done..|].
    destruct i; inversion H; subst; simpl; try done; destruct H1; [done|lia].
  - unfold incarnation_of in H0. by destruct (child_state_of r) as [i|i|i]; simpl in *; subst.
  - rewrite H. unfold count. simpl. by rewrite Z.eqb_refl.
  - by destruct (child_state_of r) as [i|i|i].
  - unfold count, incarnation_of.
    destruct (child_state_of r) as [i|i|i]; simpl in *; try lia;
      destruct i; simpl; rewrite ?Z.eqb_refl; done.
Qed.

Lemma record_step_finalize_other b k r es r' j :
  record_step b k r es r' -> j ≠ k -> count (is_finalize j) es = 0%nat.
Proof.
  intros H Hj. apply count_zero. intros e He.
  destruct H; try by apply elem_of_nil in He.
  - apply list_elem_of_singleton in He as ->. simpl. by apply Z.eqb_neq.
  - apply list_elem_of_singleton in He as ->. destruct (bool_decide _); simpl; [|done].
    by apply Z.eqb_neq.
Qed.

Definition finalized (tr : list entry) (s : SupervisorState) (k : ChildKey) : Prop :=
  (forall r, children s !! k = Some r ->
     count (is_finalize k) (effects tr) = Nat.b2n (removed_joined r)) /\
  (count (is_finalize k) (effects tr) <= 1)%nat /\
  (counter s < k -> count (is_finalize k) (effects tr) = 0%nat).

(** Operations that leave the record and issue nothing for it. *)
Lemma finalized_frame tr s o es s' k :
  count (is_finalize k) es = 0%nat -> children s' = children s -> keys s' = keys s ->
  finalized tr s k -> finalized (tr ++ [mkEntry s o es]) s' k.
Proof.
  unfold finalized, counter. rewrite count_effects_snoc. intros -> -> ->. by rewrite Nat.add_0_r.
Qed.

Lemma finalized_event tr s k e es s' j :
  inv s -> event_step s k es s' -> finalized tr s j ->
  finalized (tr ++ [mkEntry s (OpStep e) es]) s' j.
Proof.
  intros Hi Hs Hf. destruct Hs as [|r es r' Hr Hrec|r Hr Hj].
  - by apply finalized_frame.
  - destruct (decide (j = k)) as [->|Hne].
    + destruct Hf as (H1 & H2 & H3). unfold finalized. rewrite count_effects_snoc.
      specialize (H1 r Hr). apply record_step_finalize in Hrec. split_and!.
      * intros q. simpl. rewrite lookup_insert_eq. intros [= <-]. lia.
      * destruct (removed_joined r'); simpl in *; lia.
      * intros Hk. destruct (inv_keys s Hi k); [eauto|]. unfold counter in *. simpl in *. lia.
    + destruct Hf as (H1 & H2 & H3). unfold finalized. rewrite count_effects_snoc.
      rewrite (record_step_finalize_other _ _ _ _ _ j Hrec Hne), Nat.add_0_r.
      split_and!; try done. intros q. simpl. rewrite lookup_insert_ne by done. apply H1.
  - destruct (reclaimed_frame k r s) as (Hc & Hk & _). destruct Hf as (H1 & H2 & H3).
    unfold finalized, counter. rewrite count_effects_snoc, Hc, Hk, Nat.add_0_r.
    split_and!; try done. intros q [_ Hq]%lookup_delete_Some. auto.
Qed.

Lemma run_finalized fl tr s k : run fl tr s -> finalized tr s k.
Proof.
  induction 1 as [|tr s o es s' Hr IH Hl He]; [split_and!; [done|unfold count; simpl; lia|done]|].
  pose proof (run_inv _ _ _ Hr) as Hi. apply exec_viewed in He. destruct He.
  - apply admit_Ret in H as (-> & Hle & ->). destruct IH as (H1 & H2 & H3).
    unfold finalized. rewrite count_effects_snoc, Nat.add_0_r. split_and!; try done.
    + intros r. simpl. intros [[<- <-]|[Hne Hk]]%lookup_insert_Some; [|auto].
      simpl. apply H3. lia.
    + intros Hk. apply H3. unfold counter in *. simpl in Hk. lia.
  - by eapply finalized_event.
  - pose proof (settle_frame _ _ _ _ _ _ _ H H0 H1) as (? & ? & _). apply finalized_frame; try done.
    apply count_zero. intros e He.
    destruct (settle_effects _ _ _ _ _ _ _ _ H H0 H1 He) as [[_ [?| ->]]|[[_ [? ->]]|[_ [? ->]]]];
      [by destruct e|done..].
  - destruct (fail_startup_frame s) as [l ->]. by apply finalized_frame.
  - apply begin_drain_frame in H as Hf. apply finalized_frame; try naive_solver.
    apply count_zero. intros e He. by destruct (begin_drain_effects _ _ _ _ _ _ H He) as [? ->].
  - apply begin_drain_frame in H as Hf. apply finalized_frame; try naive_solver.
    apply count_zero. intros e He. by destruct (force_effects _ _ _ _ _ H He) as [? [-> | ->]].
Qed.

(** C3: in every run, a removal is finalized exactly once for each key: the
    command has been issued once when the member is committed to removal and
    joined, not at all while it is still present in any other state, and
    never again after the key is reclaimed. *)
Theorem removal_finalized_exactly_once fl tr s k :
  run fl tr s ->
  (forall r, children s !! k = Some r ->
     count (is_finalize k) (effects tr) = Nat.b2n (removed_joined r)) /\
  (count (is_finalize k) (effects tr) <= 1)%nat.
Proof. intros H%(run_finalized _ _ _ k). destruct H as (? & ? & _). auto. Qed.

(** ** Once-only publications *)

Lemma event_step_frame s k es s' :
  event_step s k es s' ->
  finish_emitted s' = finish_emitted s /\ lifecycle s' = lifecycle s /\
  keys s' = keys s /\ next_ordered_start s' = next_ordered_start s /\
  ordered_stop_waiting s' = ordered_stop_waiting s /\
  (forall e, e ∈ es -> e = FinalizeRemoval k \/ e = StopChild k).
Proof.
  intros H. destruct H as [|r es r' Hr Hrec|r Hr Hj].
  - split_and!; try done. by intros ? ?%elem_of_nil.
  - split_and!; try done. intros e He. destruct Hrec; try by apply elem_of_nil in He.
    + apply list_elem_of_singleton in He. auto.
    + apply list_elem_of_singleton in He. destruct (bool_decide _); auto.
  - destruct (reclaimed_frame k r s) as (? & ? & ? & ? & ? & ? & ?).
    split_and!; try done. by intros ? ?%elem_of_nil.
Qed.

Lemma fail_startup_lifecycle s :
  (fail_startup s).2 = set_lifecycle (ScopeLifecycle.fail_startup (lifecycle s)).2 s.
Proof. unfold fail_startup. by destruct (ScopeLifecycle.fail_startup _). Qed.

Lemma exec_finished s o es s' :
  exec s o = Ret (es, s') ->
  (count is_finished es + Nat.b2n (finish_emitted s) = Nat.b2n (finish_emitted s'))%nat.
Proof.
  intros H%exec_viewed. destruct H.
  - by apply admit_Ret in H as (_ & _ & ->).
  - apply event_step_frame in H0 as (-> & _ & _ & _ & _ & He).
    rewrite count_zero; [done|]. intros x Hx. by destruct (He x Hx) as [-> | ->].
  - rewrite !count_app.
    rewrite (count_zero _ e1), (count_zero _ e2).
    + apply startup_pass_frame in H as (_ & _ & _ & E1 & _).
      apply stop_pass_frame in H0 as (_ & _ & _ & E2 & _). rewrite <- E1, <- E2.
      destruct H1 as [|? Hf]; [done|]. simpl. by rewrite Hf.
    + intros x Hx. destruct H0; try by apply elem_of_nil in Hx.
      by apply list_elem_of_singleton in Hx as ->.
    + intros x Hx. destruct (startup_pass_effects _ _ _ _ H Hx) as [| ->]; [by destruct x|done].
  - by rewrite fail_startup_lifecycle.
  - apply begin_drain_frame in H as Hf. destruct Hf as (_ & _ & _ & -> & _).
    rewrite count_zero; [done|]. intros x Hx.
    by destruct (begin_drain_effects _ _ _ _ _ _ H Hx) as [? ->].
  - apply begin_drain_frame in H as Hf. destruct Hf as (_ & _ & _ & -> & _).
    rewrite count_zero; [done|]. intros x Hx.
    by destruct (force_effects _ _ _ _ _ H Hx) as [? [-> | ->]].
Qed.

Lemma exec_startup_completed s o es s' :
  exec s o = Ret (es, s') ->
  (count is_startup_completed es + Nat.b2n (ScopeLifecycle.startup_complete (lifecycle s))
   = Nat.b2n (ScopeLifecycle.startup_complete (lifecycle s')))%nat.
Proof.
  intros H%exec_viewed. destruct H.
  - by apply admit_Ret in H as (_ & _ & ->).
  - apply event_step_frame in H0 as (_ & -> & _ & _ & _ & He).
    rewrite count_zero; [done|]. intros x Hx. by destruct (He x Hx) as [-> | ->].
  - rewrite !count_app. rewrite (count_zero _ e2), (count_zero _ e3).
    + apply stop_pass_frame in H0 as (_ & _ & _ & _ & E2 & _).
      apply finish_pass_frame in H1 as (_ & _ & _ & E3 & _). rewrite E3, E2, !Nat.add_0_r.
      destruct H; try done; simpl; rewrite ?H; simpl; rewrite ?count_app;
        rewrite ?(count_zero _ (start_effect _ _)), ?(count_zero _ (dynamic_starts _)); try done.
      * by intros x [-> _]%start_effect_shape.
      * by intros x (? & ? & -> & _)%dynamic_starts_shape.
      * by intros x (? & ? & -> & _)%dynamic_starts_shape.
    + intros x Hx. destruct H1; [by apply elem_of_nil in Hx|].
      by apply list_elem_of_singleton in Hx as ->.
    + intros x Hx. destruct H0; try by apply elem_of_nil in Hx.
      by apply list_elem_of_singleton in Hx as ->.
  - rewrite fail_startup_lifecycle. simpl. by destruct (lifecycle s).
  - rewrite count_zero.
    + apply begin_drain_lifecycle in H as [? H%begin_drain_phase]. by rewrite H.
    + intros x Hx. by destruct (begin_drain_effects _ _ _ _ _ _ H Hx) as [? ->].
  - rewrite count_zero.
    + apply begin_drain_lifecycle in H as [? H%begin_drain_phase]. by rewrite H.
    + intros x Hx. by destruct (force_effects _ _ _ _ _ H Hx) as [? [-> | ->]].
Qed.

Lemma run_finished fl tr s :
  run fl tr s -> count is_finished (effects tr) = Nat.b2n (finish_emitted s).
Proof.
  induction 1 as [|tr s o es s' Hr IH Hl He]; [done|].
  rewrite count_effects_snoc, <- (exec_finished _ _ _ _ He). lia.
Qed.

Lemma run_startup_completed fl tr s :
  run fl tr s ->
  count is_startup_completed (effects tr) =
    Nat.b2n (ScopeLifecycle.startup_complete (lifecycle s)).
Proof.
  induction 1 as [|tr s o es s' Hr IH Hl He]; [done|].
  rewrite count_effects_snoc, <- (exec_startup_completed _ _ _ _ He). lia.
Qed.

(** C7: a scope reports [Finished] at most once, and only when every child has
    joined: with the drain's own reason, or, for an ordered scope that is not
    draining and has children, as a natural finish.  Once it has been
    reported every child stays joined. *)
Theorem finished_once_when_all_joined fl tr s o es s' :
  run fl tr s -> exec s o = Ret (es, s') ->
  count is_finished (effects tr) = Nat.b2n (finish_emitted s) /\
  (finish_emitted s = true -> all_children_joined s = true) /\
  (forall reason, Finished reason ∈ es ->
     finish_emitted s = false /\ all_children_joined s = true /\
     (ScopeLifecycle.draining_reason (lifecycle s) = Some reason \/
      reason = StopReason.Finished /\ fl = Ordered /\ children s ≠ ∅ /\
      ScopeLifecycle.is_draining (lifecycle s) = false)).
Proof.
  intros Hr He. split_and!; [by eapply run_finished|apply (inv_finish s), (run_inv _ _ _ Hr)|].
  intros reason Hin. apply exec_viewed in He. destruct He.
  - by apply elem_of_nil in Hin.
  - apply event_step_frame in H0 as (_ & _ & _ & _ & _ & Hx). by destruct (Hx _ Hin).
  - destruct (settle_effects _ _ _ _ _ _ _ _ H H0 H1 Hin) as [[_ [?|?]]|[[_ [? ?]]|[Hin' _]]];
      [done..|].
    pose proof (startup_pass_frame _ _ _ H) as (C1 & _ & F1 & E1 & _ & _ & L1).
    pose proof (stop_pass_frame _ _ _ H0) as (C2 & _ & F2 & E2 & L2 & _).
    destruct H1 as [|r Ef Ej Hrs]; [by apply elem_of_nil in Hin'|].
    apply list_elem_of_singleton in Hin'. simplify_eq/=.
    unfold all_children_joined in *. rewrite C2, C1 in *. split_and!; [congruence|done|].
    rewrite L2 in Hrs. destruct Hrs as [Hd|(Hl & Hf & Hc & ->)].
    + left. destruct L1 as [<-|[_ El]]; [done|]. by rewrite El in Hd.
    + right. split_and!; [done| |done|].
      * rewrite <- (run_flavor _ _ _ Hr). congruence.
      * destruct L1 as [<-|[-> _]]; [by rewrite Hl|done].
  - by apply elem_of_nil in Hin.
  - by destruct (begin_drain_effects _ _ _ _ _ _ H Hin).
  - by destruct (force_effects _ _ _ _ _ H Hin) as [? [?|?]].
Qed.

(** A pass that stops at a gated member emits what startup emits for it, and
    nothing else: the scope neither drains nor finishes while it starts. *)
Lemma gated_pass_effects s k e2 s2 e3 s3 :
  lifecycle s = ScopeLifecycle.Starting -> StartChild k ∈ start_effect s k ->
  stop_pass (set_next_start (Some k) s) e2 s2 -> finish_pass s2 e3 s3 ->
  start_effect s k ++ e2 ++ e3 = [StartChild k].
Proof.
  intros Hl Hin H2 H3. assert (start_effect s k = [StartChild k]) as ->.
  { unfold start_effect in *. by repeat (case_match; simplify_eq/=; try by apply elem_of_nil in Hin). }
  destruct H2; simpl in *; rewrite ?Hl in *; try done.
  destruct H3 as [|reason _ _ [H3|[H3 _]]]; simpl in *; rewrite ?Hl in *; done.
Qed.

(** Where a start command comes from. *)
Lemma start_child_view s o es s' k :
  inv s -> exec s o = Ret (es, s') -> StartChild k ∈ es ->
  o = OpStep Settle /\ lifecycle s = ScopeLifecycle.Starting /\
  children s' = children s /\
  exists r, children s !! k = Some r /\ spawned r = false /\
    child_state_of r = ChildState.Resident IncarnationState.Unstarted /\
  (flavor s = Ordered ->
     exists c, next_ordered_start s = Some c /\ c <= k /\
     (forall j, c <= j < k -> ~ gated s j) /\ es = [StartChild k]).
Proof.
  intros Hi He Hin. apply exec_viewed in He. destruct He.
  1,4: by apply elem_of_nil in Hin.
  2:{ pose proof (settle_frame _ _ _ _ _ _ _ H H0 H1) as (Hch & _ & _).
    assert (Hin1 : forall j, StartChild j ∈ e1 ++ e2 ++ e3 -> StartChild j ∈ e1).
    { intros j Hj. destruct (settle_effects _ _ _ _ _ _ _ _ H H0 H1 Hj)
        as [[? _]|[[_ [? ?]]|[_ [? ?]]]]; done. }
    pose proof (Hin1 k Hin) as Hk.
    assert (Hst : forall r, children s !! k = Some r -> spawned r = false ->
      startable r = true -> child_state_of r = ChildState.Resident IncarnationState.Unstarted).
    { intros r Hr Hsp Hs. destruct (inv_records s Hi k r Hr) as (H3 & _).
      specialize (H3 Hsp). unfold incarnation_of, startable in *.
      destruct (child_state_of r) as [[]| |]; simpl in *; naive_solver. }
    destruct H; try by apply elem_of_nil in Hk.
    - apply start_effect_shape in Hk as ([= <-] & r & Hr & Hsp & Hs).
      split_and!; try done. exists r. split_and!; try done; [eauto|].
      intros _. exists c. split_and!; try done. eapply gated_pass_effects; eauto.
    - by apply list_elem_of_singleton in Hk.
    - apply dynamic_starts_shape in Hk as (j & r & [= <-] & Hr & _ & Hsp & Hs).
      split_and!; try done. exists r. split_and!; try done; [eauto|congruence].
    - apply elem_of_app in Hk as [Hk|Hk%list_elem_of_singleton]; [|done].
      apply dynamic_starts_shape in Hk as (j & r & [= <-] & Hr & _ & Hsp & Hs).
      split_and!; try done. exists r. split_and!; try done; [eauto|congruence]. }
  - apply event_step_frame in H0 as (_ & _ & _ & _ & _ & Hx). by destruct (Hx _ Hin).
  - by destruct (begin_drain_effects _ _ _ _ _ _ H Hin).
  - by destruct (force_effects _ _ _ _ _ H Hin) as [? [?|?]].
Qed.

(** Construction is only requested, during startup, for a member that has
    never been spawned and whose spawn the reducer accepts: the following
    [Spawned] edge activates it. *)
Theorem start_child_accepted fl tr s o es s' k :
  run fl tr s -> exec s o = Ret (es, s') -> StartChild k ∈ es ->
  o = OpStep Settle /\ lifecycle s = ScopeLifecycle.Starting /\
  spawned_once s k = false /\
  (let s2 := (step s' (Spawned k)).2 in
   child_state s2 k = Some (ChildState.Resident IncarnationState.Active) /\
   spawned_once s2 k = true).
Proof.
  intros Hr He Hin.
  destruct (start_child_view s o es s' k (run_inv _ _ _ Hr) He Hin)
    as (-> & Hl & Hc & r & Hk & Hsp & Hst & _).
  split_and!; try done.
  - unfold spawned_once. by rewrite Hk.
  - unfold child_state, spawned_once. simpl. rewrite Hc, Hk. unfold startable. rewrite Hst. simpl.
    by rewrite lookup_insert_eq.
Qed.

(** ** Ordered startup *)

(** The member was seen ready at some earlier point of the run. *)
Definition was_ready (tr : list entry) (k : ChildKey) : Prop :=
  exists x, x ∈ tr /\ initial_ready (entry_state x) k = true.

Definition passed_ready (tr : list entry) (s : SupervisorState) : Prop :=
  flavor s = Ordered -> forall k r, children s !! k = Some r ->
  is_initial_startup (startup r) = true -> passed s k -> was_ready tr k.

Lemma was_ready_snoc tr x k : was_ready tr k -> was_ready (tr ++ [x]) k.
Proof. intros (y & Hy & Hr). exists y. split; [set_solver|done]. Qed.

Lemma not_gated_ready s k r :
  ~ gated s k -> children s !! k = Some r -> is_initial_startup (startup r) = true ->
  initial_ready s k = true.
Proof.
  intros Hg Hr Hi. unfold initial_ready. rewrite Hr. simpl.
  destruct (gates r) eqn:E; [destruct Hg; by exists r|]. unfold gates in E.
  apply orb_false_iff in E as [_ E]. by destruct (startup r) as [[]|].
Qed.

Lemma event_step_lookup s k es s' j q :
  event_step s k es s' -> children s' !! j = Some q ->
  exists q0, children s !! j = Some q0 /\ membership q = membership q0 /\
    is_initial_startup (startup q) = is_initial_startup (startup q0) /\
    (spawned q0 = true -> spawned q = true) /\
    (incarnation_of q0 = IncarnationState.Joined -> incarnation_of q = IncarnationState.Joined).
Proof.
  destruct 1 as [|r es r' Hr Hrec|r Hr Hj]; intros Hq; [by exists q|..].
  - destruct (put_lookup s k r es r' Hr Hrec j q Hq) as (q0 & ? & ? & ? & ? & ? & _).
    exists q0. auto.
  - destruct (reclaimed_frame k r s) as (Hc & _). rewrite Hc in Hq.
    apply lookup_delete_Some in Hq as [_ Hq]. by exists q.
Qed.

Lemma run_passed_ready fl tr s : run fl tr s -> passed_ready tr s.
Proof.
  induction 1 as [|tr s o es s' Hr IH Hl He]; [done|].
  pose proof (run_inv _ _ _ Hr) as Hi. unfold passed_ready in *.
  pose proof (exec_flavor _ _ _ _ He) as Hfl. rewrite Hfl. intros Hf k r Hk Hinit Hp.
  specialize (IH Hf). apply exec_viewed in He. destruct He.
  - apply was_ready_snoc. apply admit_Ret in H as (-> & _ & ->). simpl in *.
    unfold passed in *. simpl in Hp. rewrite (bool_decide_eq_true_2 _ Hf), andb_true_r in Hp.
    destruct (next_ordered_start s) as [c|] eqn:Ec; simpl in Hp.
    + rewrite andb_false_r in Hp. pose proof (inv_next s Hi c Ec).
      apply lookup_insert_Some in Hk as [[<- <-]|[Hne Hk]]; [lia|eauto].
    + rewrite andb_true_r in Hp.
      apply lookup_insert_Some in Hk as [[<- <-]|[Hne Hk]]; [|eauto].
      destruct initial; [lia|done].
  - apply was_ready_snoc. destruct (event_step_lookup _ _ _ _ _ _ H0 Hk)
      as (q0 & Hq0 & _ & Hq & _). apply event_step_frame in H0 as (_ & _ & _ & Hn & _).
    unfold passed in *. rewrite Hn in Hp. eapply IH; [done|congruence|done].
  - pose proof (settle_frame _ _ _ _ _ _ _ H H0 H1) as (Hc & _). rewrite Hc in Hk.
    pose proof (stop_pass_frame _ _ _ H0) as (_ & _ & _ & _ & _ & N2).
    pose proof (finish_pass_frame _ _ _ H1) as (_ & _ & _ & _ & N3 & _).
    unfold passed in Hp. rewrite N3, N2 in Hp.
    assert (Hcase : passed s k \/ ~ gated s k).
    { unfold passed. destruct (next_ordered_start s) as [c|] eqn:Ec; [|by left].
      destruct (decide (k < c)); [by left|right].
      destruct H; simpl in Hp; try (rewrite Ec in Hp); try lia; simplify_eq; try congruence.
      - apply H6; lia.
      - eapply H3; [done|lia].
      - eapply H3; [done|lia]. }
    destruct Hcase as [Hp'|Hg]; [apply was_ready_snoc; eauto|].
    exists (mkEntry s (OpStep Settle) (e1 ++ e2 ++ e3)). split; [set_solver|].
    by eapply not_gated_ready.
  - apply was_ready_snoc. rewrite fail_startup_lifecycle in Hk, Hp. eauto.
  - apply was_ready_snoc. apply begin_drain_frame in H as (Hc & _ & _ & _ & _ & Hn & _).
    unfold passed in *. rewrite Hc in Hk. rewrite Hn in Hp. eauto.
  - apply was_ready_snoc. apply begin_drain_frame in H as (Hc & _ & _ & _ & _ & Hn & _).
    unfold passed in *. simpl in *. rewrite Hc in Hk. rewrite Hn in Hp. eauto.
Qed.

(** ** Witnesses on a concrete scope *)

Lemma removal_finalized_exactly_once_witness :
  (count (is_finalize 2) (effects (demo 22).1) <= 1)%nat.
Proof. apply (removal_finalized_exactly_once Ordered (demo 22).1 (demo 22).2 2). apply demo_run. Defined.

Lemma finished_once_when_all_joined_witness : all_children_joined (demo 21).2 = true.
Proof.
  apply (finished_once_when_all_joined Ordered (demo 21).1 (demo 21).2 (OpStep Settle)
    (step (demo 21).2 Settle).1 (step (demo 21).2 Settle).2 (demo_run 21)
    ltac:(vm_compute; reflexivity)) with StopReason.ShutdownRequested.
  vm_compute. left.
Defined.

Lemma start_child_accepted_witness :
  child_state (step (step (demo 5).2 Settle).2 (Spawned 2)).2 2
    = Some (ChildState.Resident IncarnationState.Active).
Proof.
  apply (start_child_accepted Ordered (demo 5).1 (demo 5).2 (OpStep Settle)
    (step (demo 5).2 Settle).1 (step (demo 5).2 Settle).2 2 (demo_run 5)
    ltac:(vm_compute; reflexivity)).
  vm_compute. left.
Defined.
