(* ===== verification/SupervisorOrder.v ===== *)
(** * Sequencing and progress of a scope

    Ordered startup, ordered (reverse) stop, progress of a drain, and the
    fixpoint of settlement. *)

From S2P Require Import Prelude BTree Identity Exit Policy Restart Lifecycle Supervisor SupervisorLemmas SupervisorInv SupervisorProps.

(** ** Startup order *)

(** C2: an ordered scope starts its members one at a time and in admission
    order: a pass that asks to construct [k] emits that command and no other,
    and every initial member admitted before [k] has been spawned and has
    reported ready. One at or past the startup cursor [c] is ready now; one the
    cursor had passed was ready at an earlier point of the run, and may have
    gone back to waiting since, when its incarnation was restarted. *)
Theorem ordered_startup_sequence tr s o es s' k :
  run Ordered tr s -> exec s o = Ret (es, s') -> StartChild k ∈ es ->
  es = [StartChild k] /\
  exists c, next_ordered_start s = Some c /\ c <= k /\
  forall j, j < k -> is_initial s j = true ->
    spawned_once s j = true /\
    if bool_decide (c <= j) then initial_ready s j = true else was_ready tr j.
Proof.
  intros Hr He Hin. pose proof (run_inv _ _ _ Hr) as Hi. pose proof (run_flavor _ _ _ Hr) as Hf.
  destruct (start_child_view s o es s' k Hi He Hin) as (-> & Hl & _ & r & Hk & _ & _ & Hord).
  destruct (Hord Hf) as (c & Hc & Hck & Hng & Huniq). split; [done|]. exists c. split_and!; try done.
  intros j Hjk Hinit. unfold is_initial, spawned_once in *.
  destruct (children s !! j) as [q|] eqn:Eq; simpl in *; [|done].
  case_bool_decide as Hjc.
  - assert (Hg : ~ gated s j) by (apply Hng; lia).
    split; [by eapply not_gated_spawned|by eapply not_gated_ready].
  - assert (Hp : passed s j) by (unfold passed; rewrite Hc; lia).
    split; [by eapply (inv_started s Hi)|by eapply (run_passed_ready _ _ _ Hr)].
Qed.

(** A settlement of a starting scope with no member left to wait for reports
    that startup is complete. *)
Lemma settle_completes s :
  lifecycle s = ScopeLifecycle.Starting ->
  (forall k r, children s !! k = Some r -> gates r = false) ->
  StartupCompleted ScopeState.Running ∈ (step s Settle).1.
Proof.
  intros Hl Hg. destruct (step s Settle) as [es s'] eqn:E. simpl.
  apply settle_passes in E as (e1 & s1 & e2 & s2 & e3 & H1 & _ & _ & ->). rewrite elem_of_app. left.
  assert (Ha : ~ awaiting s).
  { intros (k & r & Hk & Hw). specialize (Hg _ _ Hk). unfold gates in Hg. by rewrite Hw, orb_true_r in Hg. }
  destruct H1 as [Hn|c k _ _ _ _ (r & Hk & Hk') _|_ _ _ Hw|_ _ _ _|_ _ Hw|_ _ _]; try done.
  - by rewrite Hl in Hn.
  - by rewrite (Hg _ _ Hk) in Hk'.
  - by apply list_elem_of_singleton.
  - rewrite elem_of_app. right. by apply list_elem_of_singleton.
Qed.

(** C8: startup completes exactly when it should: the reducer reports it once,
    in the pass that leaves [Starting], and only when every initial member has
    reported ready; and it does report it as soon as a pass finds no member
    under removal, unspawned or still awaited. *)
Theorem startup_completed_once fl tr s o es s' :
  run fl tr s -> exec s o = Ret (es, s') ->
  count is_startup_completed (effects tr) =
    Nat.b2n (ScopeLifecycle.startup_complete (lifecycle s)) /\
  (forall st, StartupCompleted st ∈ es ->
     o = OpStep Settle /\ st = ScopeState.Running /\
     lifecycle s = ScopeLifecycle.Starting /\ lifecycle s' = ScopeLifecycle.Running /\
     forall k, is_initial s k = true -> initial_ready s k = true) /\
  (o = OpStep Settle -> lifecycle s = ScopeLifecycle.Starting ->
   (forall k r, children s !! k = Some r ->
      ChildState.membership_status (child_state_of r) ≠ Restart.Removing /\
      spawned r = true /\ awaits_ready (startup r) = false) ->
   StartupCompleted ScopeState.Running ∈ es).
Proof.
  intros Hr He. split; [by eapply run_startup_completed|]. split.
  2:{ intros -> Hl Hg. simpl in He. injection He as He. change es with ((es, s').1). rewrite <- He.
    apply settle_completes; [done|]. intros k r Hk. destruct (Hg _ _ Hk) as (H1 & H2 & H3).
    unfold gates. by rewrite H2, H3, bool_decide_false. }
  intros st Hin. apply exec_viewed in He. destruct He.
  1,4: by apply elem_of_nil in Hin.
  - apply event_step_frame in H0 as (_ & _ & _ & _ & _ & Hx). by destruct (Hx _ Hin).
  - destruct (settle_effects _ _ _ _ _ _ _ _ H H0 H1 Hin)
      as [[Hin1 [?|[= ->]]]|[[_ [? ?]]|[_ [? ?]]]]; [done| |done..].
    apply stop_pass_frame in H0 as (_ & _ & _ & _ & L2 & _).
    apply finish_pass_frame in H1 as (_ & _ & _ & L3 & _).
    assert (Hall : ~ awaiting s /\ lifecycle s = ScopeLifecycle.Starting /\
      lifecycle s1 = ScopeLifecycle.Running).
    { destruct H; try by apply elem_of_nil in Hin1.
      - by apply start_effect_shape in Hin1 as [? _].
      - done.
      - by apply dynamic_starts_shape in Hin1 as (? & ? & ? & _).
      - done. }
    destruct Hall as (Ha & Hl & Hl1). split_and!; [done|done|done|congruence|].
    intros k. unfold is_initial, initial_ready.
    destruct (children s !! k) as [r|] eqn:Er; simpl; [|done].
    intros Hinit. destruct (startup r) as [[]|] eqn:Es; try done.
    destruct Ha. exists k, r. by rewrite Es.
  - by destruct (begin_drain_effects _ _ _ _ _ _ H Hin).
  - by destruct (force_effects _ _ _ _ _ H Hin) as [? [?|?]].
Qed.

(** ** Stop order *)

Lemma draining_not_starting l :
  ScopeLifecycle.is_draining l = true -> ScopeLifecycle.is_starting l = false.
Proof. by destruct l. Qed.

Lemma startup_pass_draining s es s' :
  ScopeLifecycle.is_draining (lifecycle s) = true -> startup_pass s es s' -> es = [] /\ s' = s.
Proof. intros Hd%draining_not_starting H. destruct H; try done; by rewrite H in Hd. Qed.

(** No member above the one being waited for is incomplete. *)
Lemma waiting_top s w j :
  inv s -> flavor s = Ordered -> ordered_stop_waiting s = Some w -> w < j ->
  is_incomplete s j = false.
Proof.
  intros Hi Hf Hw Hj. apply not_true_iff_false. intros Hinc.
  destruct (inv_waiting s Hi w Hw) as [Hd Hc].
  destruct (inv_stop s Hi Hf Hd j Hinc) as [?|(c & Hc' & ?)]; [naive_solver lia|].
  apply Hc in Hc'. lia.
Qed.

(** C5: while an ordered scope drains, a settlement pass stops at most one
    member, and that member is the last incomplete one: everything admitted
    after it has joined or is gone. *)
Theorem ordered_stop_reverse tr s es s' k :
  run Ordered tr s -> ScopeLifecycle.is_draining (lifecycle s) = true ->
  step s Settle = (es, s') -> StopChild k ∈ es ->
  is_incomplete s k = true /\ (forall j, k < j -> is_incomplete s j = false) /\
  (forall j, StopChild j ∈ es -> j = k) /\ ordered_stop_waiting s' = Some k.
Proof.
  intros Hr Hd He Hin. pose proof (run_inv _ _ _ Hr) as Hi. pose proof (run_flavor _ _ _ Hr) as Hf.
  apply settle_passes in He as (e1 & s1 & e2 & s2 & e3 & H1 & H2 & H3 & ->).
  assert (Hin2 : forall j, StopChild j ∈ e1 ++ e2 ++ e3 -> StopChild j ∈ e2).
  { intros j Hj. destruct (settle_effects _ _ _ _ _ _ _ _ H1 H2 H3 Hj)
      as [[_ [?|?]]|[[? _]|[_ [? ?]]]]; done. }
  apply Hin2 in Hin. apply startup_pass_draining in H1 as [-> ->]; [|done].
  apply finish_pass_frame in H3 as (_ & _ & _ & _ & _ & _ & W3).
  destruct H2 as [| |c k' _ _ Hw Hc Hkc Hinc Hb|]; try by apply elem_of_nil in Hin.
  apply list_elem_of_singleton in Hin. simplify_eq. split_and!; [done| |by intros j [= ->]%Hin2%list_elem_of_singleton|done].
  intros j Hj. destruct (decide (j <= c)); [apply Hb; lia|].
  apply not_true_iff_false. intros Hji.
  destruct (inv_stop s Hi Hf Hd j Hji) as [Hwj|(c' & Hc' & ?)]; [|simplify_eq; lia].
  apply Hw in Hwj. congruence.
Qed.

(** ** Progress of an ordered drain *)

(** A settlement pass of the drain asked [k] to stop. *)
Definition stop_requested (tr : list entry) (k : ChildKey) : Prop :=
  exists x, x ∈ tr /\ entry_op x = OpStep Settle /\ StopChild k ∈ entry_effects x.

Lemma stop_requested_snoc tr x k : stop_requested tr k -> stop_requested (tr ++ [x]) k.
Proof. intros (y & Hy & Hr). exists y. split; [set_solver|done]. Qed.

Lemma run_waiting_requested fl tr s w :
  run fl tr s -> ordered_stop_waiting s = Some w -> stop_requested tr w.
Proof.
  induction 1 as [|tr s o es s' Hr IH Hl He]; [done|]. intros Hw.
  apply exec_viewed in He. destruct He.
  - apply stop_requested_snoc, IH. by apply admit_Ret in H as (_ & _ & ->).
  - apply stop_requested_snoc, IH. apply event_step_frame in H0. naive_solver congruence.
  - apply startup_pass_frame in H as (_ & _ & _ & _ & _ & W1 & _).
    apply finish_pass_frame in H1 as (_ & _ & _ & _ & _ & _ & W3).
    destruct H0; simpl in *;
      try (apply stop_requested_snoc, IH; congruence).
    rewrite W3 in Hw. injection Hw as ->.
    eexists. split; [apply elem_of_app; right; by left|]. simpl. split; [done|set_solver].
  - apply stop_requested_snoc, IH. by rewrite fail_startup_lifecycle in Hw.
  - apply stop_requested_snoc, IH. apply begin_drain_frame in H. naive_solver congruence.
  - apply stop_requested_snoc, IH. apply begin_drain_frame in H. naive_solver congruence.
Qed.

Lemma drain_progress tr s es s' :
  run Ordered tr s -> ScopeLifecycle.is_draining (lifecycle s) = true ->
  step s Settle = (es, s') ->
  (finish_emitted s' = true /\ all_children_joined s' = true) \/
  (exists w, ordered_stop_waiting s' = Some w /\ is_incomplete s' w = true /\
     (forall j, w < j -> is_incomplete s' j = false) /\
     stop_requested (tr ++ [mkEntry s (OpStep Settle) es]) w).
Proof.
  intros Hr Hd He.
  assert (Hr' : run Ordered (tr ++ [mkEntry s (OpStep Settle) es]) s').
  { econstructor; [done..|]. cbn [exec]. by rewrite He. }
  pose proof (run_inv _ _ _ Hr') as Hi'. pose proof (run_flavor _ _ _ Hr') as Hf'.
  apply settle_passes in He as (e1 & s1 & e2 & s2 & e3 & H1 & H2 & H3 & ->).
  apply startup_pass_draining in H1 as [-> ->]; [|done].
  pose proof (stop_pass_frame _ _ _ H2) as (C2 & _ & F2 & E2 & L2 & _).
  pose proof (finish_pass_frame _ _ _ H3) as (C3 & _ & F3 & L3 & _ & K3 & W3).
  destruct (ordered_stop_waiting s') as [w|] eqn:Ew.
  - destruct (is_incomplete s' w) eqn:Einc.
    + right. exists w. split_and!; try done; [|by eapply run_waiting_requested].
      intros j. by apply waiting_top.
    + exfalso. assert (Hsame : forall j, is_incomplete s' j = is_incomplete s j)
        by (intros j; apply is_incomplete_ext; congruence).
      rewrite Hsame in Einc. destruct H2; simpl in *; try congruence.
      naive_solver congruence.
  - left. assert (Hj : all_children_joined s' = true).
    { apply all_children_joined_true. intros j. apply not_true_iff_false. intros Hinc.
      destruct (inv_stop s' Hi' Hf') with (k := j) as [?|(c & Hc & _)]; [congruence|done|congruence|].
      rewrite K3 in Hc. destruct H2; simpl in *; try congruence. naive_solver congruence. }
    split; [|done]. destruct H3 as [Hn|]; [|done].
    destruct (finish_emitted s2) eqn:Ef; [done|]. destruct (Hn eq_refl Hj). congruence.
Qed.

(** An ordered drain never gets stuck: after any settlement pass either
    the scope has finished with every child joined, or it waits for exactly
    one member, which is incomplete, is the last such member, and has been
    asked to stop. *)
Theorem ordered_drain_progress tr s es s' :
  run Ordered tr s -> ScopeLifecycle.is_draining (lifecycle s) = true ->
  step s Settle = (es, s') ->
  (finish_emitted s' = true /\ all_children_joined s' = true) \/
  (exists w, ordered_stop_waiting s' = Some w /\ is_incomplete s' w = true /\
     (forall j, w < j -> is_incomplete s' j = false) /\
     stop_requested (tr ++ [mkEntry s (OpStep Settle) es]) w).
Proof. apply drain_progress. Qed.

(** ** Witnesses on a concrete scope *)

Lemma ordered_startup_sequence_witness :
  [StartChild 2] = [StartChild 2] /\
  exists c, next_ordered_start (demo 5).2 = Some c /\ c <= 2 /\
  forall j, j < 2 -> is_initial (demo 5).2 j = true ->
    spawned_once (demo 5).2 j = true /\
    if bool_decide (c <= j) then initial_ready (demo 5).2 j = true else was_ready (demo 5).1 j.
Proof.
  apply (ordered_startup_sequence (demo 5).1 (demo 5).2 (OpStep Settle) [StartChild 2]
    (step (demo 5).2 Settle).2 2).
  - apply demo_run.
  - vm_compute. reflexivity.
  - apply list_elem_of_singleton. reflexivity.
Defined.

Lemma startup_completed_once_witness :
  lifecycle (step (demo 8).2 Settle).2 = ScopeLifecycle.Running.
Proof.
  apply (startup_completed_once Ordered (demo 8).1 (demo 8).2 (OpStep Settle)
    [StartupCompleted ScopeState.Running] (step (demo 8).2 Settle).2) with ScopeState.Running.
  - apply demo_run.
  - vm_compute. reflexivity.
  - apply list_elem_of_singleton. reflexivity.
Defined.

Lemma ordered_stop_reverse_witness :
  is_incomplete (demo 16).2 1 = true /\ (forall j, 1 < j -> is_incomplete (demo 16).2 j = false).
Proof.
  destruct (ordered_stop_reverse (demo 16).1 (demo 16).2 [StopChild 1]
    (step (demo 16).2 Settle).2 1) as (H1 & H2 & _).
  - apply demo_run.
  - vm_compute. reflexivity.
  - vm_compute. reflexivity.
  - apply list_elem_of_singleton. reflexivity.
  - split; assumption.
Defined.

Lemma ordered_drain_progress_witness :
  (finish_emitted (step (demo 10).2 Settle).2 = true /\
   all_children_joined (step (demo 10).2 Settle).2 = true) \/
  (exists w, ordered_stop_waiting (step (demo 10).2 Settle).2 = Some w).
Proof.
  destruct (ordered_drain_progress (demo 10).1 (demo 10).2 (step (demo 10).2 Settle).1
    (step (demo 10).2 Settle).2) as [H|(w & Hw & _)].
  - apply demo_run.
  - vm_compute. reflexivity.
  - vm_compute. reflexivity.
  - left. exact H.
  - right. exists w. exact Hw.
Defined.

(** ** Settlement is a fixpoint *)

Lemma dynamic_starts_nil s : inv s -> ~ awaiting s -> dynamic_starts s = [].
Proof.
  intros Hi Ha. apply elem_of_nil_inv. intros e (k & r & -> & Hr & Hinit & Hsp & _)%dynamic_starts_shape.
  destruct (startup r) as [[]|] eqn:Es; try done.
  - destruct (inv_records s Hi k r Hr) as (_ & _ & H). rewrite H in Hsp; done.
  - destruct Ha. exists k, r. by rewrite Es.
Qed.

Lemma filter_starts s : List.filter is_start (dynamic_starts s) = dynamic_starts s.
Proof.
  assert (H : forall e, e ∈ dynamic_starts s -> is_start e = true)
    by (by intros e (k & r & -> & _)%dynamic_starts_shape).
  induction (dynamic_starts s) as [|e l IH]; [done|]. simpl. rewrite (H e) by left.
  f_equal. apply IH. intros x Hx. apply H. by right.
Qed.

Lemma filter_start_effect s k : List.filter is_start (start_effect s k) = start_effect s k.
Proof.
  unfold start_effect. destruct (children s !! k) as [r|]; [|done].
  by destruct (negb (spawned r) && startable r).
Qed.

(** A startup pass after another one, with unchanged children, changes
    nothing and only repeats its start commands. *)
Lemma startup_pass_again s es s1 s' es' s1' :
  inv s -> startup_pass s es s1 ->
  children s' = children s -> flavor s' = flavor s -> lifecycle s' = lifecycle s1 ->
  next_ordered_start s' = next_ordered_start s1 ->
  startup_pass s' es' s1' -> s1' = s' /\ es' = List.filter is_start es.
Proof.
  intros Hi H Hc Hf Hl Hn H'.
  assert (Hg : forall j, gated s' j <-> gated s j) by (intros j; unfold gated; by rewrite Hc).
  assert (Ha : awaiting s' <-> awaiting s) by (unfold awaiting; by rewrite Hc).
  assert (Hd : dynamic_starts s' = dynamic_starts s) by (unfold dynamic_starts; by rewrite Hc).
  destruct H as [Hns|c k Hs Ho Hck Hle Hgk Hb|Hs Ho Hcl Haw|Hs Ho Hcl Haw|Hs Ho Haw|Hs Ho Haw];
    simpl in *.
  - destruct H'; try done; rewrite <- Hl, H in Hns; done.
  - rewrite filter_start_effect. destruct H' as [Hns'|c' k' Hs' Ho' Hck' Hle' Hgk' Hb'|? ? Hcl'|? ? Hcl'| |];
      try congruence.
    + rewrite Hl, Hs in Hns'. done.
    + simplify_eq. assert (k' = k) as ->.
      { destruct (decide (k < k')); [|naive_solver lia]. destruct (Hb' k); [naive_solver lia|].
        by apply Hg. }
      split; [by apply set_next_start_id|]. unfold start_effect. by rewrite Hc.
    + destruct (Hcl' k k); [done|lia|by apply Hg].
    + destruct (Hcl' k k); [done|lia|by apply Hg].
  - destruct H'; try congruence; [done|by rewrite set_next_start_id|tauto].
  - destruct H'; try congruence. done.
  - rewrite filter_starts. destruct H' as [Hns'| | | | |]; try congruence; [|done|tauto].
    rewrite Hl, Hs in Hns'. done.
  - rewrite (dynamic_starts_nil s) by done. destruct H'; try congruence. done.
Qed.

Lemma stop_pass_again s es s1 s' es' s1' :
  stop_pass s es s1 -> inv s ->
  children s' = children s -> flavor s' = flavor s -> lifecycle s' = lifecycle s ->
  ordered_stop_cursor s' = ordered_stop_cursor s1 ->
  ordered_stop_waiting s' = ordered_stop_waiting s1 ->
  stop_pass s' es' s1' -> s1' = s' /\ es' = [].
Proof.
  intros H Hi Hc Hf Hl Hcu Hw H'.
  assert (Hinc : forall j, is_incomplete s' j = is_incomplete s j)
    by (intros j; by apply is_incomplete_ext).
  destruct H as [Hid|w Ho Hd Hw0 Hi0|c k Ho Hd Hw0 Hc0 Hkc Hi0 Hb|Ho Hd Hw0 Hall]; simpl in *.
  - destruct H'; try done; rewrite Hl, Hf in *; destruct Hid; congruence.
  - rewrite <- Hinc in Hi0. rewrite <- Hw in Hw0.
    destruct H' as [| |c' k' _ _ Hw'|_ _ Hw']; try done; rewrite (Hw' w Hw0) in Hi0; done.
  - rewrite <- Hinc in Hi0.
    destruct H' as [| |c' k' _ _ Hw'|_ _ Hw']; try done; rewrite (Hw' k Hw) in Hi0; done.
  - destruct H'; try done; try congruence.
    by rewrite set_stop_cursor_id, set_stop_waiting_id.
Qed.

Lemma finish_pass_again s es s1 s' es' s1' :
  finish_pass s es s1 -> children s' = children s -> lifecycle s' = lifecycle s ->
  flavor s' = flavor s -> finish_emitted s' = finish_emitted s1 ->
  finish_pass s' es' s1' -> s1' = s' /\ es' = [].
Proof.
  intros H Hc Hl Hf He H'. destruct H' as [|r' Hfe Hj Hr]; [done|]. exfalso.
  destruct H as [Hn|r]; [|simpl in *; congruence].
  assert (Hj' : all_children_joined s = true) by (unfold all_children_joined in *; congruence).
  rewrite He in Hfe. rewrite Hl, Hf, Hc in Hr. destruct (Hn Hfe Hj') as [Hd Hr'].
  destruct Hr as [Hr|(? & ? & ? & _)]; [by destruct (lifecycle s)|tauto].
Qed.

(** One settlement pass settles: a second pass changes no state and issues
    no command, except repeating the construction requests that have not been
    carried out yet. *)
Theorem settle_fixpoint fl tr s es s' :
  run fl tr s -> step s Settle = (es, s') ->
  step s' Settle = (List.filter is_start es, s').
Proof.
  intros Hr He. pose proof (run_inv _ _ _ Hr) as Hi.
  destruct (step s' Settle) as [es' s''] eqn:He'.
  apply settle_passes in He as (e1 & s1 & e2 & s2 & e3 & H1 & H2 & H3 & ->).
  apply settle_passes in He' as (e1' & s1' & e2' & s2' & e3' & H1' & H2' & H3' & ->).
  pose proof (startup_pass_frame _ _ _ H1) as (C1 & _ & F1 & E1 & K1 & W1 & L1).
  pose proof (stop_pass_frame _ _ _ H2) as (C2 & _ & F2 & E2 & L2 & N2).
  pose proof (finish_pass_frame _ _ _ H3) as (C3 & _ & F3 & L3 & N3 & K3 & W3).
  destruct (startup_pass_again s e1 s1 s' e1' s1') as [-> ->]; try congruence.
  destruct (stop_pass_again s1 e2 s2 s' e2' s2') as [-> ->]; try congruence.
  { by eapply inv_startup_pass. }
  destruct (finish_pass_again s2 e3 s' s' e3' s'') as [-> ->]; try congruence.
  rewrite !app_nil_r, !List.filter_app. f_equal.
  assert (Hz : forall l, (forall e, e ∈ l -> is_start e = false) -> List.filter is_start l = []).
  { intros l Hl. apply length_zero_iff_nil, (count_zero is_start l Hl). }
  rewrite (Hz e2), (Hz e3); [by rewrite !app_nil_r|..].
  - intros e Hin. destruct H3; [by apply elem_of_nil in Hin|].
    by apply list_elem_of_singleton in Hin as ->.
  - intros e Hin. destruct H2; try by apply elem_of_nil in Hin.
    by apply list_elem_of_singleton in Hin as ->.
Qed.

Lemma settle_fixpoint_witness :
  step (step (demo 5).2 Settle).2 Settle = ([StartChild 2], (step (demo 5).2 Settle).2).
Proof.
  rewrite (settle_fixpoint Ordered (demo 5).1 (demo 5).2 (step (demo 5).2 Settle).1
    (step (demo 5).2 Settle).2).
  - vm_compute. reflexivity.
  - apply demo_run.
  - vm_compute. reflexivity.
Defined.

(** ** Termination of a drain

    A driver that answers every stop request brings an ordered drain to its
    end; the drain's reason is the winner of all the reasons requested. *)

(** ** One member's way to [Joined] *)

Definition steps (s : SupervisorState) (es : list Event) : SupervisorState :=
  foldl (fun s e => (step s e).2) s es.

(** The edges a driver reports for a member that stops, in order. *)
Definition stop_events (k : ChildKey) : list Event :=
  [StopStarted k; IncarnationComplete k; DisposalStarted k; Terminalized k].

(** One round: settle, then carry out the stop the drain waits for. *)
Definition drain_round (s : SupervisorState) : SupervisorState :=
  let s := (step s Settle).2 in
  match ordered_stop_waiting s with
  | Some w => steps s (stop_events w)
  | None => s
  end.

Lemma run_steps fl tr s es : run fl tr s -> exists tr', run fl tr' (steps s es).
Proof.
  revert tr s. induction es as [|e es IH]; intros tr s Hr; simpl; [eauto|].
  apply (IH (tr ++ [mkEntry s (OpStep e) (step s e).1])).
  econstructor; [done..|]. simpl. by destruct (step s e).
Qed.

(** Where [transition_incarnation] puts a record. *)
Lemma transition_lookup s k expected next r :
  children s !! k = Some r ->
  children (transition_incarnation s k expected next).2 !! k =
    Some (if bool_decide (incarnation_of r = IncarnationState.Joined)
             || negb (bool_decide (incarnation_of r ∈ expected))
          then r else with_state r (ChildState.with_incarnation (child_state_of r) next)).
Proof.
  intros Hr. unfold transition_incarnation. rewrite Hr.
  unfold record_joined, ChildState.joined. fold (incarnation_of r).
  destruct (_ || _); simpl; [done|]. by rewrite lookup_insert_eq.
Qed.

(** The effect of one event on its own record's incarnation. *)
Lemma step_incarnation s e k r :
  e ∈ stop_events k -> children s !! k = Some r ->
  exists r', children (step s e).2 !! k = Some r' /\
    incarnation_of r' =
      match e, incarnation_of r with
      | StopStarted _, IncarnationState.Active => IncarnationState.Stopping
      | IncarnationComplete _, (IncarnationState.Active | IncarnationState.Stopping) =>
          IncarnationState.Complete
      | DisposalStarted _,
        (IncarnationState.Unstarted | IncarnationState.Complete | IncarnationState.RestartPending)
          => IncarnationState.Disposing
      | Terminalized _, IncarnationState.Disposing => IncarnationState.Joined
      | _, i => i
      end.
Proof.
  intros He Hr. unfold stop_events in He. rewrite !elem_of_cons, elem_of_nil in He.
  destruct He as [->|[->|[->|[->|[]]]]]; unfold step; cbn [apply snd].
  1-3: eexists; split; [by apply transition_lookup|];
    destruct (incarnation_of r) eqn:E; simpl; unfold incarnation_of in *; simpl;
    rewrite ?incarnation_with; done.
  pose proof (transition_lookup s k [IncarnationState.Disposing] IncarnationState.Joined r Hr) as H.
  destruct (transition_incarnation _ _ _ _) as [b s1]. simpl in H.
  eexists. split.
  { destruct b; [|done]. by destruct (child_state s1 k) as [[]|]. }
  destruct (incarnation_of r) eqn:E; simpl; unfold incarnation_of in *; simpl;
    rewrite ?incarnation_with; done.
Qed.

Lemma stop_events_join s k :
  contains s k = true -> is_incomplete (steps s (stop_events k)) k = false.
Proof.
  intros [r Hr]%bool_decide_eq_true. unfold steps, stop_events. cbn [foldl].
  assert (Hin : forall e, List.In e (stop_events k) -> e ∈ stop_events k)
    by (intros e; apply list_elem_of_In).
  destruct (step_incarnation s (StopStarted k) k r (Hin (StopStarted k) ltac:(simpl; auto)) Hr)
    as (r1 & H1 & I1).
  destruct (step_incarnation _ (IncarnationComplete k) k r1 (Hin (IncarnationComplete k) ltac:(simpl; auto)) H1)
    as (r2 & H2 & I2).
  destruct (step_incarnation _ (DisposalStarted k) k r2 (Hin (DisposalStarted k) ltac:(simpl; auto)) H2)
    as (r3 & H3 & I3).
  destruct (step_incarnation _ (Terminalized k) k r3 (Hin (Terminalized k) ltac:(simpl; auto)) H3)
    as (r4 & H4 & I4).
  apply not_true_iff_false. intros (q & Hq & Hj)%is_incomplete_true.
  rewrite H4 in Hq. simplify_eq. destruct Hj. rewrite I4, I3, I2, I1.
  by destruct (incarnation_of r).
Qed.

(** ** Events never revive a member *)

Lemma step_incomplete s e j : is_incomplete (step s e).2 j = true -> is_incomplete s j = true.
Proof.
  unfold step. destruct (event_child e) as [k|] eqn:Ek.
  - pose proof (apply_event_step s e k Ek) as H. rewrite !is_incomplete_true.
    intros (q & Hq & Hj). destruct (event_step_lookup _ _ _ _ _ _ H Hq) as (q0 & Hq0 & _ & _ & _ & Hj').
    exists q0. auto.
  - destruct e; try done. simpl. destruct (settle s) as [es s'] eqn:E.
    apply settle_passes in E as (e1 & s1 & e2 & s2 & e3 & H1 & H2 & H3 & _).
    destruct (settle_frame _ _ _ _ _ _ _ H1 H2 H3) as (Hc & _).
    by rewrite (is_incomplete_ext _ _ _ Hc).
Qed.

Lemma steps_incomplete s es j : is_incomplete (steps s es) j = true -> is_incomplete s j = true.
Proof.
  revert s. induction es as [|e es IH]; intros s; simpl; [done|].
  intros H%IH. by apply step_incomplete in H.
Qed.

Lemma step_lifecycle s e :
  ScopeLifecycle.is_draining (lifecycle s) = true -> lifecycle (step s e).2 = lifecycle s.
Proof.
  intros Hd. unfold step. destruct (event_child e) as [k|] eqn:Ek.
  - by destruct (event_step_frame _ _ _ _ (apply_event_step s e k Ek)) as (_ & ? & _).
  - destruct e; try done. simpl. destruct (settle s) as [es s'] eqn:E.
    apply settle_passes in E as (e1 & s1 & e2 & s2 & e3 & H1 & H2 & H3 & _).
    apply startup_pass_draining in H1 as [-> ->]; [|done].
    apply stop_pass_frame in H2. apply finish_pass_frame in H3. simpl. naive_solver congruence.
Qed.

Lemma steps_lifecycle s es :
  ScopeLifecycle.is_draining (lifecycle s) = true -> lifecycle (steps s es) = lifecycle s.
Proof.
  revert s. induction es as [|e es IH]; intros s Hd; simpl; [done|].
  pose proof (step_lifecycle s e Hd) as H. change (lifecycle (steps (step s e).2 es) = lifecycle s).
  rewrite IH; congruence.
Qed.

(** ** The measure *)

Definition incomplete_keys (s : SupervisorState) : gset ChildKey :=
  filter (fun k => is_incomplete s k = true) (dom (children s)).

Lemma elem_of_incomplete_keys s k : k ∈ incomplete_keys s <-> is_incomplete s k = true.
Proof.
  unfold incomplete_keys. rewrite elem_of_filter, elem_of_dom. split; [tauto|]. intros H.
  split; [done|]. apply is_incomplete_true in H as (r & Hr & _). eauto.
Qed.

Lemma finish_emitted_step s e : finish_emitted s = true -> finish_emitted (step s e).2 = true.
Proof.
  intros Hf. destruct (step s e) as [es s'] eqn:E.
  assert (He : exec s (OpStep e) = Ret (es, s')) by (simpl; by rewrite E).
  apply exec_finished in He. rewrite Hf in He. simpl. destruct (finish_emitted s'); simpl in *; [done|lia].
Qed.

Lemma finish_emitted_steps s es : finish_emitted s = true -> finish_emitted (steps s es) = true.
Proof.
  revert s. induction es as [|e es IH]; intros s Hf; simpl; [done|].
  by apply IH, finish_emitted_step.
Qed.

Lemma drain_round_inv tr s :
  run Ordered tr s -> ScopeLifecycle.is_draining (lifecycle s) = true ->
  (exists tr', run Ordered tr' (drain_round s)) /\
  ScopeLifecycle.is_draining (lifecycle (drain_round s)) = true /\
  (finish_emitted (drain_round s) = true \/
   (size (incomplete_keys (drain_round s)) < size (incomplete_keys s))%nat).
Proof.
  intros Hr Hd. unfold drain_round. pose proof (step_lifecycle s Settle Hd) as Hl.
  pose proof (step_incomplete s Settle) as Hinc.
  destruct (step s Settle) as [es s1] eqn:E. cbn [snd] in *.
  assert (Hr1 : run Ordered (tr ++ [mkEntry s (OpStep Settle) es]) s1).
  { econstructor; [done..|]. cbn [exec]. by rewrite E. }
  destruct (drain_progress tr s es s1 Hr Hd E) as [[Hf _]|(w & Hw & Hi & _)].
  - destruct (ordered_stop_waiting s1) as [w|]; [|rewrite Hl; eauto].
    split; [by eapply run_steps|]. rewrite steps_lifecycle by congruence.
    split; [congruence|]. left. by apply finish_emitted_steps.
  - rewrite Hw. split; [by eapply run_steps|]. rewrite steps_lifecycle by congruence.
    split; [congruence|]. right. apply subset_size. split.
    + intros j. rewrite !elem_of_incomplete_keys. intros Hj%steps_incomplete. auto.
    + intros Hsub. specialize (Hsub w). rewrite !elem_of_incomplete_keys in Hsub.
      specialize (Hsub (Hinc w Hi)). rewrite stop_events_join in Hsub; [done|].
      unfold is_incomplete in Hi. by apply andb_true_iff in Hi as [? _].
Qed.

Lemma drain_round_finished s : finish_emitted s = true -> finish_emitted (drain_round s) = true.
Proof.
  intros Hf. unfold drain_round. apply (finish_emitted_step s Settle) in Hf.
  destruct (ordered_stop_waiting _); [by apply finish_emitted_steps|done].
Qed.

Lemma drain_rounds n tr s :
  run Ordered tr s -> ScopeLifecycle.is_draining (lifecycle s) = true ->
  let s' := Nat.iter n drain_round s in
  (exists tr', run Ordered tr' s') /\
  ScopeLifecycle.is_draining (lifecycle s') = true /\
  (finish_emitted s' = true \/
   (n + size (incomplete_keys s') <= size (incomplete_keys s))%nat).
Proof.
  intros Hr Hd. induction n as [|n IH]; simpl; [eauto 10|].
  destruct IH as ([tr' Hr'] & Hd' & IH).
  destruct (drain_round_inv tr' _ Hr' Hd') as (Hr1 & Hd1 & Hm). split_and!; [done..|].
  destruct IH as [Hf|Hle]; [left; by apply drain_round_finished|].
  destruct Hm as [Hf|Hlt]; [by left|right; lia].
Qed.

Lemma incomplete_keys_size s : (size (incomplete_keys s) <= size (children s))%nat.
Proof.
  rewrite <- (size_dom (D := gset ChildKey) (children s)). apply subseteq_size.
  unfold incomplete_keys. set_solver.
Qed.



(** ** Drain reasons over a run *)

Definition requested_reason (o : sup_op) : option StopReason.t :=
  match o with
  | OpBeginDrain r => Some r
  | OpForce => Some StopReason.ShutdownRequested
  | _ => None
  end.

Definition requested_reasons (tr : list entry) : list StopReason.t :=
  omap (fun x => requested_reason (entry_op x)) tr.

Lemma begin_drain_reason s reason r es s' :
  begin_drain s reason = Ret (r, es, s') ->
  ScopeLifecycle.draining_reason (lifecycle s') =
    Some (match ScopeLifecycle.draining_reason (lifecycle s) with
          | None => reason | Some w => join_reason w reason end).
Proof.
  intros [x H]%begin_drain_lifecycle. apply begin_drain_inv in H as (_ & ph & H).
  destruct (lifecycle s) as [| | |d]; simpl; destruct H as [_ H]; [..|destruct H as [_ H]];
    by rewrite H.
Qed.

Lemma exec_reason s o es s' :
  exec s o = Ret (es, s') ->
  ScopeLifecycle.draining_reason (lifecycle s') =
    match requested_reason o with
    | None => ScopeLifecycle.draining_reason (lifecycle s)
    | Some r => Some (match ScopeLifecycle.draining_reason (lifecycle s) with
                      | None => r | Some w => join_reason w r end)
    end.
Proof.
  intros H%exec_viewed. destruct H; simpl.
  - by apply admit_Ret in H as (_ & _ & ->).
  - by apply event_step_frame in H0 as (_ & -> & _).
  - apply startup_pass_frame in H as (_ & _ & _ & _ & _ & _ & L1).
    apply stop_pass_frame in H0 as (_ & _ & _ & _ & L2 & _).
    apply finish_pass_frame in H1 as (_ & _ & _ & L3 & _). rewrite L3, L2.
    by destruct L1 as [-> |[-> ->]].
  - rewrite fail_startup_lifecycle. simpl. by destruct (lifecycle s).
  - by eapply begin_drain_reason.
  - by eapply (begin_drain_reason (set_hard_forced true s)).
Qed.

(** The reason of a drain is the first of the highest-precedence reasons
    requested so far (a hard force counts as a shutdown request), and the
    scope is draining exactly when some reason was requested. *)
Theorem drain_reason_wins fl tr s :
  run fl tr s ->
  ScopeLifecycle.draining_reason (lifecycle s) = winning_reason (requested_reasons tr).
Proof.
  induction 1 as [|tr s o es s' Hr IH Hl He]; [done|].
  unfold requested_reasons in *. rewrite omap_app. rewrite (exec_reason _ _ _ _ He), IH. simpl.
  destruct (requested_reason o); simpl; [by rewrite winning_reason_snoc|by rewrite app_nil_r].
Qed.

Lemma drain_reason_wins_witness :
  ScopeLifecycle.draining_reason (lifecycle (demo 12).2) = Some StopReason.ShutdownRequested.
Proof.
  rewrite (drain_reason_wins Ordered (demo 12).1 (demo 12).2).
  - vm_compute. reflexivity.
  - apply demo_run.
Defined.

(** ** Drain and force commands *)

Lemma unjoined_incomplete_keys mk s :
  unjoined mk s = mk <$> filter (fun k => is_incomplete s k = true) (bt_keys (children s)).
Proof.
  unfold unjoined.
  assert (H : forall l : list Z, (forall k, k ∈ l -> is_Some (children s !! k)) ->
    omap (fun k => match children s !! k with
                   | Some record => then_some (negb (record_joined record)) (mk k)
                   | None => None end) l =
    mk <$> filter (fun k => is_incomplete s k = true) l).
  { induction l as [|k l IH]; intros Hl; [done|].
    destruct (Hl k ltac:(left)) as [r Hr]. rewrite filter_cons. simpl. rewrite Hr.
    assert (Hb : is_incomplete s k = negb (record_joined r)).
    { apply eq_bool_prop_intro. rewrite !Is_true_true, is_incomplete_true, negb_true_iff.
      unfold record_joined, ChildState.joined. rewrite bool_decide_eq_false.
      split; [intros (q & ? & ?); by simplify_eq|eauto]. }
    specialize (IH (fun j Hj => Hl j (list_elem_of_further _ _ _ Hj))). rewrite Hb.
    unfold then_some in *. destruct (negb (record_joined r)); simpl; by f_equal. }
  apply H. intros k. apply elem_of_bt_keys.
Qed.

(** What opening a drain and forcing a scope command.  The first drain
    request of a dynamic scope stops exactly its incomplete children, in key
    order; an ordered scope commands nothing yet; a later request commands
    nothing.  A force additionally forces exactly the incomplete children. *)
Theorem drain_and_force_commands s :
  (forall reason, reason ≠ StopReason.NeverStarted ->
   exists r s', begin_drain s reason = Ret
     (r, if ScopeLifecycle.is_draining (lifecycle s) then []
         else match flavor s with
              | Ordered => []
              | Dynamic => StopChild <$>
                  filter (fun k => is_incomplete s k = true) (bt_keys (children s))
              end, s') /\ children s' = children s) /\
  (exists r es s', force s = Ret
     (r, es ++ (ForceChild <$>
            filter (fun k => is_incomplete s k = true) (bt_keys (children s))), s') /\
     hard_forced s' = true /\
     exists s0, begin_drain (set_hard_forced true s) StopReason.ShutdownRequested = Ret (r, es, s0)).
Proof.
  split.
  - intros reason Hn. destruct (begin_drain_ok s reason Hn) as (r & es & s' & E).
    exists r, s'. pose proof (begin_drain_frame _ _ _ _ _ E) as (Hc & _). split; [|done].
    rewrite E. apply begin_drain_Ret in E as (_ & d & -> & H).
    destruct (ScopeLifecycle.is_draining _); destruct H as (_ & -> & _); [done|].
    destruct (flavor s); [done|]. by rewrite unjoined_incomplete_keys.
  - destruct (begin_drain_ok (set_hard_forced true s) StopReason.ShutdownRequested)
      as (r & es & s' & E); [done|].
    exists r, es, s'. unfold force. rewrite E. simpl.
    pose proof (begin_drain_frame _ _ _ _ _ E) as (Hc & _). simpl in Hc.
    rewrite unjoined_incomplete_keys, Hc. split_and!.
    + repeat f_equal. apply list_filter_iff. intros k. by rewrite (is_incomplete_ext s s' k Hc).
    + apply begin_drain_Ret in E as (_ & d & -> & _). done.
    + eauto.
Qed.

Lemma drain_and_force_commands_witness :
  let s := (scenario Dynamic [OpAdmit (demo_member 1) true; OpAdmit (demo_member 2) true]).2 in
  exists r s', begin_drain s StopReason.ShutdownRequested
               = Ret (r, [StopChild 1; StopChild 2], s') /\ children s' = children s.
Proof.
  intros s. exact (proj1 (drain_and_force_commands s) StopReason.ShutdownRequested ltac:(done)).
Defined.
