(* ===== verification/SupervisorMembers.v ===== *)
(** * Members of a scope

    The source's own structural assertions, the legal child-state graph, and
    the membership index: keys are never reused and [key_for] finds exactly
    the admitted members. *)

From S2P Require Import Prelude BTree Identity Exit Policy Restart Lifecycle.
From S2P Require Import Supervisor SupervisorLemmas SupervisorInv SupervisorProps.

(** ** [check_invariants] *)

Definition is_none {A} (o : option A) : bool := match o with None => true | Some _ => false end.

(** The assertions of [SupervisorState::check_invariants], as a test. *)
Definition check_invariants (s : SupervisorState) : bool :=
  bool_decide (size (children s) = size (child_keys s)) &&
  forallb (fun kv => bool_decide (child_keys s !! membership kv.2 = Some kv.1))
    (map_to_list (children s)) &&
  (bool_decide (flavor s = Ordered) ||
   (is_none (next_ordered_start s) && is_none (ordered_stop_cursor s) &&
    is_none (ordered_stop_waiting s))) &&
  match ordered_stop_waiting s with
  | Some waiting =>
      ScopeLifecycle.is_draining (lifecycle s) &&
      (contains s waiting || option_ltb (ordered_stop_cursor s) (Some waiting))
  | None => true
  end.

(** The index is a bijection, so both maps have the same size. *)
Lemma inv_sizes s : inv s -> size (children s) = size (child_keys s).
Proof.
  intros Hi.
  assert (Hp : ((fun kv => membership kv.2) <$> map_to_list (children s))
                 ≡ₚ (map_to_list (child_keys s)).*1).
  { apply NoDup_Permutation.
    - apply NoDup_fmap_2_strong; [|apply NoDup_map_to_list].
      intros [k1 r1] [k2 r2] H1%elem_of_map_to_list H2%elem_of_map_to_list Hm. simpl in Hm.
      pose proof (inv_index s Hi _ _ H1) as E1. pose proof (inv_index s Hi _ _ H2) as E2.
      rewrite Hm in E1. congruence.
    - apply NoDup_fst_map_to_list.
    - intros m. rewrite !list_elem_of_fmap. split.
      + intros ([k r] & -> & H%elem_of_map_to_list). exists (membership r, k). split; [done|].
        apply elem_of_map_to_list. by apply (inv_index s Hi).
      + intros ([m' k] & -> & H%elem_of_map_to_list). simpl.
        destruct (inv_index_back s Hi _ _ H) as (r & Hr & <-). exists (k, r). split; [done|].
        by apply elem_of_map_to_list. }
  apply Permutation_length in Hp. by rewrite !length_fmap, !length_map_to_list in Hp.
Qed.

Lemma inv_check s : inv s -> check_invariants s = true.
Proof.
  intros Hi. unfold check_invariants. rewrite !andb_true_iff. split_and!.
  - apply bool_decide_eq_true. by apply inv_sizes.
  - apply forallb_forall. intros [k r] H%list_elem_of_In%elem_of_map_to_list.
    apply bool_decide_eq_true. by apply (inv_index s Hi).
  - destruct (flavor s) eqn:Ef; [done|]. destruct (inv_dynamic s Hi Ef) as (-> & -> & ->). done.
  - destruct (ordered_stop_waiting s) as [w|] eqn:Ew; [|done].
    destruct (inv_waiting s Hi w Ew) as [-> Hc]. simpl.
    apply orb_true_iff. right. destruct (ordered_stop_cursor s) as [c|] eqn:Ec; [|done]. simpl.
    apply Z.ltb_lt. by apply Hc.
Qed.

(** C10: every state a driver can reach satisfies the reducer's structural
    assertions: the membership index mirrors the children, the ordered cursors
    belong to ordered scopes, and a pending ordered stop belongs to a drain
    whose cursor is already below it. *)
Theorem supervisor_invariants fl tr s : run fl tr s -> check_invariants s = true.
Proof. intros H%run_inv. by apply inv_check. Qed.

Lemma supervisor_invariants_witness : check_invariants (demo 17).2 = true.
Proof. apply (supervisor_invariants Ordered (demo 17).1). apply demo_run. Defined.

(** ** The child-state graph *)

Lemma record_step_graph b k r es r' :
  record_step b k r es r' ->
  (incarnation_of r' = incarnation_of r \/ incarnation_edge (incarnation_of r) (incarnation_of r'))
  /\ removal_level (child_state_of r) <= removal_level (child_state_of r')
  /\ (incarnation_of r' = IncarnationState.Active ->
      incarnation_of r ≠ IncarnationState.Active -> removal_level (child_state_of r) = 0).
Proof.
  unfold incarnation_of.
  destruct 1; rec_simpl; unfold incarnation_of, startable in *; simpl.
  - destruct (child_state_of r) as [i|i|i]; simpl in *; try done.
    split_and!; [right; destruct i; try done; constructor|done|done].
  - split_and!; [by left|done|done].
  - split_and!; [by right|by destruct (child_state_of r)|done].
  - split_and!; [right; rewrite H0; constructor|by destruct (child_state_of r)|done].
  - rewrite H. split_and!; [right; constructor|done|done].
  - split_and!; [by left|by destruct (child_state_of r)|done].
  - split_and!; [by left|lia|done].
Qed.

(** C9: one operation moves a member's incarnation along at most one edge of
    the incarnation graph and never undoes a removal; a member under removal
    is never activated again; membership and startup role are fixed; a
    member disappears only after it has joined. *)
Theorem child_state_graph fl tr s o es s' k r :
  run fl tr s -> exec s o = Ret (es, s') -> children s !! k = Some r ->
  match children s' !! k with
  | None => incarnation_of r = IncarnationState.Joined
  | Some r' =>
      (incarnation_of r' = incarnation_of r \/
       incarnation_edge (incarnation_of r) (incarnation_of r')) /\
      removal_level (child_state_of r) <= removal_level (child_state_of r') /\
      (incarnation_of r' = IncarnationState.Active ->
       incarnation_of r ≠ IncarnationState.Active -> removal_level (child_state_of r) = 0) /\
      membership r' = membership r /\
      is_initial_startup (startup r') = is_initial_startup (startup r) /\
      (spawned r = true -> spawned r' = true)
  end.
Proof.
  intros Hrun He Hk. pose proof (run_inv _ _ _ Hrun) as Hi.
  assert (Hsame : children s' !! k = Some r -> match children s' !! k with
    | None => incarnation_of r = IncarnationState.Joined
    | Some r' =>
        (incarnation_of r' = incarnation_of r \/
         incarnation_edge (incarnation_of r) (incarnation_of r')) /\
        removal_level (child_state_of r) <= removal_level (child_state_of r') /\
        (incarnation_of r' = IncarnationState.Active ->
         incarnation_of r ≠ IncarnationState.Active -> removal_level (child_state_of r) = 0) /\
        membership r' = membership r /\
        is_initial_startup (startup r') = is_initial_startup (startup r) /\
        (spawned r = true -> spawned r' = true) end).
  { intros ->. split_and!; auto; done. }
  apply exec_viewed in He. destruct He.
  - apply Hsame. apply admit_Ret in H as (-> & _ & ->). simpl.
    rewrite lookup_insert_ne; [done|]. pose proof (inv_keys s Hi k). intros E.
    destruct H; [eauto|]. lia.
  - destruct H0 as [|q es q' Hq Hrec|q Hq Hj].
    + by apply Hsame.
    + destruct (decide (k0 = k)) as [->|Hne]; [|apply Hsame; simpl; by rewrite lookup_insert_ne].
      simplify_eq. simpl. rewrite lookup_insert_eq.
      destruct (record_step_graph _ _ _ _ _ Hrec) as (? & ? & ?).
      destruct (record_step_facts _ _ _ _ _ Hrec) as (? & ? & ? & _). auto 10.
    + destruct (reclaimed_frame k0 q s) as (Hc & _). rewrite Hc in *.
      destruct (decide (k0 = k)) as [->|Hne]; [|apply Hsame; by rewrite lookup_delete_ne].
      rewrite lookup_delete_eq. by simplify_eq.
  - apply Hsame. by destruct (settle_frame _ _ _ _ _ _ _ H H0 H1) as (-> & _).
  - apply Hsame. by rewrite fail_startup_lifecycle.
  - apply Hsame. by apply begin_drain_frame in H as (-> & _).
  - apply Hsame. by apply begin_drain_frame in H as (-> & _).
Qed.

Definition demo_record (n : nat) (k : ChildKey) : ChildRecord :=
  default (mkChild (demo_member 0) (ChildState.Resident IncarnationState.Unstarted) Runtime false)
    (children (demo n).2 !! k).

Lemma child_state_graph_witness :
  match children (step (demo 7).2 (Ready 2)).2 !! 2 with
  | None => incarnation_of (demo_record 7 2) = IncarnationState.Joined
  | Some r' => membership r' = membership (demo_record 7 2)
  end.
Proof.
  assert (Hk : children (demo 7).2 !! 2 = Some (demo_record 7 2)) by (vm_compute; reflexivity).
  pose proof (child_state_graph Ordered (demo 7).1 (demo 7).2 (OpStep (Ready 2))
    (step (demo 7).2 (Ready 2)).1 (step (demo 7).2 (Ready 2)).2 2 (demo_record 7 2)
    (demo_run 7) ltac:(vm_compute; reflexivity) Hk) as H.
  destruct (children (step (demo 7).2 (Ready 2)).2 !! 2); [|exact H].
  apply H.
Defined.

(** ** Keys and the membership index *)

(** The key has never named a member in the run so far. *)
Definition never_used (tr : list entry) (s : SupervisorState) (k : ChildKey) : Prop :=
  contains s k = false /\ Forall (fun x => contains (entry_state x) k = false) tr.

Lemma exec_counter s o es s' : exec s o = Ret (es, s') -> counter s <= counter s'.
Proof.
  intros H%exec_viewed. unfold counter. destruct H.
  - apply admit_Ret in H as (-> & _ & ->). simpl. unfold counter. lia.
  - apply event_step_frame in H0 as (_ & _ & -> & _). lia.
  - destruct (settle_frame _ _ _ _ _ _ _ H H0 H1) as (_ & -> & _). lia.
  - rewrite fail_startup_lifecycle. simpl. lia.
  - apply begin_drain_frame in H as (_ & -> & _). lia.
  - apply begin_drain_frame in H as (_ & -> & _). simpl. lia.
Qed.

Lemma contains_above s k : inv s -> counter s < k -> contains s k = false.
Proof.
  intros Hi Hk. apply bool_decide_eq_false. intros Hs%(inv_keys s Hi). lia.
Qed.

Lemma run_above fl tr s k : run fl tr s -> counter s < k -> never_used tr s k.
Proof.
  intros Hr. revert k. induction Hr as [|tr s o es s' Hr IH Hl He]; intros k Hk.
  - split; [|constructor]. by apply contains_above; [apply inv_new|].
  - split; [apply contains_above; [|done]|].
    + eapply run_inv. by econstructor.
    + pose proof (exec_counter _ _ _ _ He). apply Forall_app.
      destruct (IH k) as [H1 H2]; [lia|]. split; [done|]. by constructor.
Qed.

(** Admission returns a key no member of this scope has ever had, the
    index then maps the membership to that key and nothing else changes in
    it, and the new member starts out resident and unstarted. *)
Theorem admit_fresh_key fl tr s m initial k s' :
  run fl tr s -> legal s (OpAdmit m initial) = true -> admit_child s m initial = Ret (k, s') ->
  never_used tr s k /\ key_for s m = None /\
  key_for s' m = Some k /\ (forall m', m' ≠ m -> key_for s' m' = key_for s m') /\
  child_state s' k = Some (ChildState.Resident IncarnationState.Unstarted) /\
  is_initial s' k = initial /\
  (forall j, j ≠ k -> children s' !! j = children s !! j).
Proof.
  intros Hr Hl (Hk & _ & ->)%admit_Ret. simpl in Hl.
  apply andb_true_iff in Hl as [_ Hm%bool_decide_eq_true].
  split; [apply (run_above _ _ _ _ Hr); lia|].
  unfold key_for, child_state, is_initial. simpl. split; [done|].
  rewrite !lookup_insert_eq. simpl. split_and!; try done.
  - intros m' Hne. by rewrite lookup_insert_ne.
  - by destruct initial.
  - intros j Hne. by rewrite lookup_insert_ne.
Qed.

Lemma admit_fresh_key_witness :
  exists k s', admit_child (demo 3).2 (demo_member 7) false = Ret (k, s') /\
    key_for s' (demo_member 7) = Some k.
Proof.
  destruct (admit_child (demo 3).2 (demo_member 7) false) as [[k s']| |] eqn:E;
    [|vm_compute in E; discriminate..].
  exists k, s'. split; [reflexivity|].
  apply (admit_fresh_key Ordered (demo 3).1 (demo 3).2 (demo_member 7) false k s');
    [apply demo_run|reflexivity|exact E].
Defined.

(** [key_for] and the children agree in every reachable state: looking up a
    membership finds exactly the member that carries it. *)
Theorem key_for_exact fl tr s m k :
  run fl tr s ->
  (key_for s m = Some k <-> exists r, children s !! k = Some r /\ membership r = m).
Proof.
  intros Hi%run_inv. unfold key_for. split; [apply (inv_index_back s Hi)|].
  intros (r & Hr & <-). by apply (inv_index s Hi).
Qed.

Lemma key_for_exact_witness :
  key_for (demo 4).2 (demo_member 2) = Some 2 <->
  exists r, children (demo 4).2 !! 2 = Some r /\ membership r = demo_member 2.
Proof. apply (key_for_exact Ordered (demo 4).1). apply demo_run. Defined.
