(* ===== verification/Mailbox.v ===== *)
(** * Actor mailboxes

    [crates/shelterwood/src/mailbox/cell.rs] with its [state], [operation] and
    [effects] modules, the bind token of [mailbox.rs], and the waker slot of
    [shelterwood-core/src/waker.rs].

    Every transition runs under the mailbox mutex, so it is one function from
    cell to cell; what it queues in its effect sink is returned as the list of
    actions the flush performs after unlocking.  Parked send operations are
    shared between the waiter queue and their futures ([Arc]), as are bind
    permits, so both live in a store of the cell and are named by address. *)

From S2P Require Import Prelude BTree Identity Policy.

(** ** Wakers *)

(** Wakers are compared by identity ([will_wake]). *)
Definition Waker := Z.

Module WakerAction.
Inductive t := Wake | DropInline | Run.
End WakerAction.

Definition WakerEffects := list (Waker * WakerAction.t).
Definition WakerSlot := option Waker.

Definition will_wake (slot : WakerSlot) (w : Waker) : bool :=
  is_some_and slot (fun registered => registered =? w).

Definition slot_replace (slot : WakerSlot) (w : Waker) (fx : WakerEffects)
  : WakerSlot * WakerEffects :=
  match slot with
  | Some displaced => (Some w, fx ++ [(displaced, WakerAction.DropInline)])
  | None => (Some w, fx)
  end.

Definition slot_take (slot : WakerSlot) (a : WakerAction.t) (fx : WakerEffects)
  : WakerSlot * WakerEffects :=
  match slot with
  | Some w => (None, fx ++ [(w, a)])
  | None => (None, fx)
  end.

(** ** Data *)

Record Binding := mkBinding { binding_incarnation : Incarnation; binding_kind : ResolvedMailbox }.

Module Phase.
Inductive t :=
| Unbound
| Bound (b : Binding)
| Frozen (b : Binding)
| Terminal (final_incarnation : option Incarnation).

Definition observation (p : t) : option Incarnation :=
  match p with
  | Bound b | Frozen b => Some (binding_incarnation b)
  | Unbound | Terminal _ => None
  end.
End Phase.

Definition AcceptedSequence := Z.

Inductive ReceiveMode := Drain | LiveThrough (limit : AcceptedSequence).

Definition mode_accepts (mode : ReceiveMode) (sequence : AcceptedSequence) : bool :=
  match mode with Drain => true | LiveThrough limit => sequence <=? limit end.

Definition mode_is_drain (mode : ReceiveMode) : bool :=
  match mode with Drain => true | LiveThrough _ => false end.

Inductive SendErrorKind := NotRunning | Full | Terminated | TimedOut.

Section mailbox.
Context {M : Type}.

Record Envelope := mkEnvelope { message : M; accepted_sequence : AcceptedSequence }.

Inductive OperationOutcome :=
| OpWaiting (m : M) (newest_observed : option Incarnation)
| OpAccepted (incarnation : Incarnation)
| OpTerminated (m : M) (final_incarnation : option Incarnation)
| OpRetired.

(** [SendOperation]: the outcome, the future's waker, and the queue entry. *)
Record OperationState := mkOperation
  { op_outcome : OperationOutcome; op_waker : WakerSlot; op_registration : option Z }.

(** [WaiterQueue]: entries hold the address of the shared operation. *)
Record WaiterQueue := mkWaiters { entries : gmap Z Z; waiter_ids : MonotonicCounter.t }.

Definition waiters_default : WaiterQueue := mkWaiters ∅ MonotonicCounter.new.
Definition waiters_empty (w : WaiterQueue) : bool := bool_decide (entries w = ∅).

Record MailboxState := mkState
  { kind : option ResolvedMailbox;
    bind_permit : Z;
    phase : Phase.t;
    last_bound : option Incarnation;
    waiters : WaiterQueue;
    queue : list Envelope;
    latest : option Envelope }.

Record MailboxCell := mkCell
  { actor_id : ChildId;
    state : MailboxState;
    accepted : AtomicMonotonicCounter.t;
    (* the stores of shared operations and bind permits *)
    operations : gmap Z OperationState;
    next_operation : Z;
    permits : gmap Z bool;
    next_permit : Z }.

Record MailboxBindToken := mkToken { permit : Z }.

(** ** Field updates *)

Definition set_state (st : MailboxState) (c : MailboxCell) : MailboxCell :=
  mkCell (actor_id c) st (accepted c) (operations c) (next_operation c) (permits c) (next_permit c).
Definition set_accepted (a : AtomicMonotonicCounter.t) (c : MailboxCell) : MailboxCell :=
  mkCell (actor_id c) (state c) a (operations c) (next_operation c) (permits c) (next_permit c).
Definition set_operation (k : Z) (o : OperationState) (c : MailboxCell) : MailboxCell :=
  mkCell (actor_id c) (state c) (accepted c) (<[k := o]> (operations c)) (next_operation c)
    (permits c) (next_permit c).
Definition set_permit (k : Z) (b : bool) (c : MailboxCell) : MailboxCell :=
  mkCell (actor_id c) (state c) (accepted c) (operations c) (next_operation c)
    (<[k := b]> (permits c)) (next_permit c).

Definition set_kind k st := mkState k (bind_permit st) (phase st) (last_bound st) (waiters st)
  (queue st) (latest st).
Definition set_bind_permit p st := mkState (kind st) p (phase st) (last_bound st) (waiters st)
  (queue st) (latest st).
Definition set_phase p st := mkState (kind st) (bind_permit st) p (last_bound st) (waiters st)
  (queue st) (latest st).
Definition set_last_bound l st := mkState (kind st) (bind_permit st) (phase st) l (waiters st)
  (queue st) (latest st).
Definition set_waiters w st := mkState (kind st) (bind_permit st) (phase st) (last_bound st) w
  (queue st) (latest st).
Definition set_queue q st := mkState (kind st) (bind_permit st) (phase st) (last_bound st)
  (waiters st) q (latest st).
Definition set_latest l st := mkState (kind st) (bind_permit st) (phase st) (last_bound st)
  (waiters st) (queue st) l.

(** [Arc::new] for an operation and for a permit. *)
Definition alloc_operation (o : OperationState) (c : MailboxCell) : Z * MailboxCell :=
  (next_operation c,
   mkCell (actor_id c) (state c) (accepted c) (<[next_operation c := o]> (operations c))
     (next_operation c + 1) (permits c) (next_permit c)).
Definition alloc_permit (c : MailboxCell) : Z * MailboxCell :=
  (next_permit c,
   mkCell (actor_id c) (state c) (accepted c) (operations c) (next_operation c)
     (<[next_permit c := false]> (permits c)) (next_permit c + 1)).

Definition mailbox_new (id : ChildId) : MailboxCell :=
  mkCell id (mkState None 0 Phase.Unbound None waiters_default [] None)
    AtomicMonotonicCounter.new ∅ 0 {[ 0 := false ]} 1.

(** ** Effects *)

Record MailboxEffectPayload := mkPayload
  { pulsed : bool; displaced : list Envelope; isolate : bool; wakers : WakerEffects }.

Definition payload_default : MailboxEffectPayload := mkPayload false [] false [].

(** What the flush does, in order, with no lock held. *)
Inductive FlushAction :=
| Pulse
| DisposeDetached (payload : list Envelope)
| RunWaker (w : Waker) (a : WakerAction.t)
| DropEnvelope (e : Envelope).

Definition run_wakers (fx : WakerEffects) : list FlushAction :=
  (fun '(w, a) => RunWaker w a) <$> fx.

Definition flush (p : MailboxEffectPayload) : list FlushAction :=
  (if pulsed p then [Pulse] else []) ++
  (if isolate p && negb (bool_decide (length (displaced p) = 0%nat))
   then [DisposeDetached (displaced p)] else []) ++
  run_wakers (wakers p) ++
  (if isolate p then [] else DropEnvelope <$> displaced p).

(** [MailboxTxn]: the guarded cell beside its effect sink. *)
Record MailboxTxn := mkTxn { cell : MailboxCell; payload : MailboxEffectPayload }.

Definition txn_new (c : MailboxCell) : MailboxTxn := mkTxn c payload_default.
Definition txn_state (t : MailboxTxn) : MailboxState := state (cell t).
Definition on_state (f : MailboxState -> MailboxState) (t : MailboxTxn) : MailboxTxn :=
  mkTxn (set_state (f (txn_state t)) (cell t)) (payload t).
Definition on_cell (f : MailboxCell -> MailboxCell) (t : MailboxTxn) : MailboxTxn :=
  mkTxn (f (cell t)) (payload t).

Definition pulse (t : MailboxTxn) : MailboxTxn :=
  let p := payload t in mkTxn (cell t) (mkPayload true (displaced p) (isolate p) (wakers p)).
Definition isolate_displaced (t : MailboxTxn) : MailboxTxn :=
  let p := payload t in mkTxn (cell t) (mkPayload (pulsed p) (displaced p) true (wakers p)).
Definition push_displaced (e : Envelope) (t : MailboxTxn) : MailboxTxn :=
  let p := payload t in
  mkTxn (cell t) (mkPayload (pulsed p) (displaced p ++ [e]) (isolate p) (wakers p)).
Definition add_wakers (fx : WakerEffects) (t : MailboxTxn) : MailboxTxn :=
  let p := payload t in
  mkTxn (cell t) (mkPayload (pulsed p) (displaced p) (isolate p) (wakers p ++ fx)).

(** Unlock, then flush. *)
Definition finish {R} (t : MailboxTxn) (r : R) : R * list FlushAction * MailboxCell :=
  (r, flush (payload t), cell t).

(** ** Send operations *)

Definition operation_new (m : M) (newest : option Incarnation) (registration : option Z)
  : OperationState := mkOperation (OpWaiting m newest) None registration.

Definition clear_registration (o : OperationState) : OperationState :=
  mkOperation (op_outcome o) (op_waker o) None.

Definition observe (i : Incarnation) (o : OperationState) : OperationState :=
  match op_outcome o with
  | OpWaiting m _ => mkOperation (OpWaiting m (Some i)) (op_waker o) (op_registration o)
  | _ => o
  end.

Definition op_accept (i : Incarnation) (o : OperationState)
  : option M * WakerEffects * OperationState :=
  match op_outcome o with
  | OpWaiting m _ =>
      let '(slot, fx) := slot_take (op_waker o) WakerAction.Wake [] in
      (Some m, fx, mkOperation (OpAccepted i) slot (op_registration o))
  | _ => (None, [], o)
  end.

Definition op_terminate (final : option Incarnation) (o : OperationState)
  : WakerEffects * OperationState :=
  match op_outcome o with
  | OpWaiting m _ =>
      let '(slot, fx) := slot_take (op_waker o) WakerAction.Wake [] in
      (fx, mkOperation (OpTerminated m final) slot (op_registration o))
  | _ => ([], o)
  end.

Inductive OperationPoll :=
| PollAccepted (i : Incarnation)
| PollTerminated (m : M) (final_incarnation : option Incarnation)
| PollPending
| PollNeedsWakerClone.

(** One locked iteration of [SendOperation::poll]; [None] is the iteration that
    refuses the replacement waker. *)
Definition poll_once (o : OperationState) (replacement : option Waker) (current : Waker)
  : outcome (option OperationPoll * WakerEffects * OperationState) :=
  match op_outcome o, replacement with
  | (OpAccepted _ | OpTerminated _ _ | OpRetired), Some _ => Ret (None, [], o)
  | OpAccepted i, None => Ret (Some (PollAccepted i), [], o)
  | OpTerminated m final, None =>
      Ret (Some (PollTerminated m final), [],
           mkOperation OpRetired (op_waker o) (op_registration o))
  | OpWaiting _ _, Some w =>
      let '(slot, fx) := slot_replace (op_waker o) w [] in
      Ret (Some PollPending, fx, mkOperation (op_outcome o) slot (op_registration o))
  | OpWaiting _ _, None =>
      Ret (Some (if will_wake (op_waker o) current then PollPending else PollNeedsWakerClone),
           [], o)
  | OpRetired, None => Panics "a retired send operation was polled"
  end.

Definition op_poll (o : OperationState) (replacement : option Waker) (current : Waker)
  : outcome (OperationPoll * WakerEffects * OperationState) :=
  '(r, fx, o) ← poll_once o replacement current;
  match r with
  | Some r => Ret (r, fx, o)
  | None =>
      let dropped := match replacement with
                     | Some w => [(w, WakerAction.DropInline)] | None => [] end in
      '(r, fx', o) ← poll_once o None current;
      r ← expect "the second iteration holds no replacement" r;
      Ret (r, fx ++ dropped ++ fx', o)
  end.

(** ** Waiter queue *)

(** Removes the oldest entry. *)
Definition pop_front (w : WaiterQueue) : option (Z * Z) * WaiterQueue :=
  match bt_first (entries w) with
  | Some id =>
      match entries w !! id with
      | Some op => (Some (id, op), mkWaiters (delete id (entries w)) (waiter_ids w))
      | None => (None, w)
      end
  | None => (None, w)
  end.

Definition waiters_remove (w : WaiterQueue) (id : Z) : option Z * WaiterQueue :=
  match entries w !! id with
  | Some op => (Some op, mkWaiters (delete id (entries w)) (waiter_ids w))
  | None => (None, w)
  end.

(** [MailboxTxn::park] and [WaiterQueue::park]. *)
Definition park (t : MailboxTxn) (m : M) (newest : option Incarnation) : outcome (Z * MailboxTxn) :=
  let w := waiters (txn_state t) in
  '(registration, ids) ← MonotonicCounter.mint (waiter_ids w);
  let '(op, c) := alloc_operation (operation_new m newest (Some registration)) (cell t) in
  let t := mkTxn c (payload t) in
  Ret (op, on_state (set_waiters (mkWaiters (<[registration := op]> (entries w)) ids)) t).

Definition update_operation (f : OperationState -> OperationState) (op : Z) (c : MailboxCell)
  : MailboxCell :=
  match operations c !! op with
  | Some o => set_operation op (f o) c
  | None => c
  end.

(** [WaiterQueue::observe_all], in key order. *)
Definition observe_all (i : Incarnation) (w : WaiterQueue) (c : MailboxCell) : MailboxCell :=
  foldl (fun c id =>
    match entries w !! id with
    | Some op => update_operation (observe i) op c
    | None => c
    end) c (bt_keys (entries w)).

(** ** Acceptance *)

Definition push_accepted (t : MailboxTxn) (k : ResolvedMailbox) (m : M) : outcome MailboxTxn :=
  '(sequence, counter) ← AtomicMonotonicCounter.mint (accepted (cell t));
  let t := on_cell (set_accepted counter) t in
  let envelope := mkEnvelope m sequence in
  Ret match k with
      | ResolvedQueue _ => on_state (fun st => set_queue (queue st ++ [envelope]) st) t
      | ResolvedLatest =>
          let prior := latest (txn_state t) in
          let t := on_state (set_latest (Some envelope)) t in
          match prior with
          | Some displaced => push_displaced displaced t
          | None => t
          end
      end.

(** [queue.len() >= capacity] of a queue mailbox. *)
Definition queue_full (k : ResolvedMailbox) (st : MailboxState) : bool :=
  match k with
  | ResolvedQueue capacity => bool_decide (Zpos capacity <= Z.of_nat (length (queue st)))
  | ResolvedLatest => false
  end.

Definition accept_locked (t : MailboxTxn) (b : Binding) (m : M)
  : outcome (result Incarnation M * MailboxTxn) :=
  if negb (waiters_empty (waiters (txn_state t))) then Ret (Err m, t)
  else if queue_full (binding_kind b) (txn_state t) then Ret (Err m, t)
  else
    t ← push_accepted t (binding_kind b) m;
    Ret (Ok (binding_incarnation b), pulse t).

(** The loop of [promote_waiters]: every iteration that does not return pops a
    waiter, so the number of waiters bounds it. *)
Fixpoint promote_loop (fuel : nat) (b : Binding) (t : MailboxTxn) : outcome MailboxTxn :=
  match fuel with
  | O => Ret t
  | S fuel =>
      if queue_full (binding_kind b) (txn_state t) then Ret t
      else
        match pop_front (waiters (txn_state t)) with
        | (None, _) => Ret t
        | (Some (_, op), w) =>
            let t := on_state (set_waiters w) t in
            let t := on_cell (update_operation clear_registration op) t in
            let t := on_cell (update_operation (observe (binding_incarnation b)) op) t in
            match operations (cell t) !! op with
            | Some o =>
                let '(taken, fx, o) := op_accept (binding_incarnation b) o in
                let t := add_wakers fx (on_cell (set_operation op o) t) in
                match taken with
                | Some m => t ← push_accepted t (binding_kind b) m; promote_loop fuel b t
                | None => promote_loop fuel b t
                end
            | None => promote_loop fuel b t
            end
        end
  end.

Definition promote_waiters (b : Binding) (t : MailboxTxn) : outcome MailboxTxn :=
  promote_loop (S (size (entries (waiters (txn_state t))))) b t.

(** ** Sending *)

Inductive Submission :=
| SubAccepted (i : Incarnation)
| SubParked (operation : Z)
| SubTerminated (m : M) (final_incarnation : option Incarnation).

Definition submit (c : MailboxCell) (m : M)
  : outcome (Submission * list FlushAction * MailboxCell) :=
  let t := txn_new c in
  match phase (txn_state t) with
  | Phase.Terminal final => Ret (finish t (SubTerminated m final))
  | Phase.Bound b =>
      '(r, t) ← accept_locked t b m;
      match r with
      | Ok i => Ret (finish t (SubAccepted i))
      | Err m =>
          '(op, t) ← park t m (Some (binding_incarnation b));
          Ret (finish t (SubParked op))
      end
  | Phase.Frozen b =>
      '(op, t) ← park t m (Some (binding_incarnation b));
      Ret (finish t (SubParked op))
  | Phase.Unbound =>
      '(op, t) ← park t m None;
      Ret (finish t (SubParked op))
  end.

Record SendError := mkSendError
  { error_actor_id : ChildId;
    incarnation_observed : option Incarnation;
    error_message : M;
    error_kind : SendErrorKind }.

Definition try_send (c : MailboxCell) (m : M)
  : outcome (result Incarnation SendError * list FlushAction * MailboxCell) :=
  let t := txn_new c in
  let fail (t : MailboxTxn) observed k m :=
    Ret (finish t (Err (mkSendError (actor_id c) observed m k))) in
  match phase (txn_state t) with
  | Phase.Terminal final => fail t final Terminated m
  | Phase.Unbound => fail t None NotRunning m
  | Phase.Frozen b => fail t (Some (binding_incarnation b)) NotRunning m
  | Phase.Bound b =>
      '(r, t) ← accept_locked t b m;
      match r with
      | Ok i => Ret (finish t (Ok i))
      | Err m => fail t (Some (binding_incarnation b)) Full m
      end
  end.

(** ** Receiving *)

Definition take_next (k : ResolvedMailbox) (mode : ReceiveMode) (st : MailboxState)
  : option Envelope * MailboxState :=
  match k with
  | ResolvedQueue _ =>
      match queue st with
      | e :: q => if mode_accepts mode (accepted_sequence e) then (Some e, set_queue q st)
                  else (None, st)
      | [] => (None, st)
      end
  | ResolvedLatest =>
      match latest st with
      | Some e => if mode_accepts mode (accepted_sequence e) then (Some e, set_latest None st)
                  else (None, st)
      | None => (None, st)
      end
  end.

(** The binding a receive may use, and whether it is live. *)
Definition receive_binding (p : Phase.t) (i : Incarnation) (mode : ReceiveMode)
  : option (Binding * bool) :=
  match p with
  | Phase.Bound b => if bool_decide (binding_incarnation b = i) then Some (b, true) else None
  | Phase.Frozen b =>
      if mode_is_drain mode && bool_decide (binding_incarnation b = i)
      then Some (b, false) else None
  | Phase.Unbound | Phase.Terminal _ => None
  end.

Definition receive (c : MailboxCell) (i : Incarnation) (mode : ReceiveMode)
  : outcome (option M * list FlushAction * MailboxCell) :=
  let t := txn_new c in
  match receive_binding (phase (txn_state t)) i mode with
  | None => Ret (finish t None)
  | Some (b, live) =>
      match take_next (binding_kind b) mode (txn_state t) with
      | (Some e, st) =>
          let t := on_state (fun _ => st) t in
          t ← (if live then promote_waiters b t else Ret t);
          Ret (finish t (Some (message e)))
      | (None, _) => Ret (finish t None)
      end
  end.

Definition current_observation (c : MailboxCell) : option Incarnation :=
  Phase.observation (phase (state c)).
Definition cell_accepted_sequence (c : MailboxCell) : AcceptedSequence :=
  AtomicMonotonicCounter.load (accepted c).

(** ** Withdrawal *)

Inductive WithdrawalDisposition := Inline | Isolated.

Definition disposition_action (d : WithdrawalDisposition) : WakerAction.t :=
  match d with Inline => WakerAction.DropInline | Isolated => WakerAction.Run end.

Inductive WithdrawalOutcome :=
| Withdrawn (m : M) (observed : option Incarnation)
| WithdrawalAccepted (i : Incarnation)
| WithdrawalTerminated (m : M) (observed : option Incarnation).

Definition is_terminal (p : Phase.t) : bool :=
  match p with Phase.Terminal _ => true | _ => false end.

(** The debug assertions at the end of [withdraw] are kept as panics. *)
Definition withdraw (c : MailboxCell) (op : Z) (d : WithdrawalDisposition)
  : outcome (WithdrawalOutcome * list FlushAction * MailboxCell) :=
  let p := phase (state c) in
  o ← expect "the caller holds the operation" (operations c !! op);
  let result :=
    match op_outcome o with
    | OpWaiting m newest => Some (Withdrawn m (option_or newest (Phase.observation p)))
    | OpAccepted i => Some (WithdrawalAccepted i)
    | OpTerminated m final => Some (WithdrawalTerminated m final)
    | OpRetired => None
    end in
  let '(slot, fx) := slot_take (op_waker o) (disposition_action d) [] in
  let registration := op_registration o in
  let c := set_operation op (mkOperation OpRetired slot None) c in
  let '(removed, c) :=
    match registration with
    | Some id =>
        let '(removed, w) := waiters_remove (waiters (state c)) id in
        (removed, set_state (set_waiters w (state c)) c)
    | None => (None, c)
    end in
  let detached := bool_decide (is_Some registration) && negb (bool_decide (is_Some removed)) in
  result ← expect "a send operation is withdrawn at most once" result;
  _ ← assert_that (negb detached || is_terminal p)
        "only terminal teardown detaches a live waiter registration";
  Ret (result, run_wakers fx, c).

(** ** Lifecycle control *)

Definition configure_kind (k : ResolvedMailbox) (t : MailboxTxn)
  : option ResolvedMailbox * MailboxTxn :=
  match kind (txn_state t) with
  | Some existing => (if bool_decide (existing = k) then None else Some existing, t)
  | None => (None, on_state (set_kind (Some k)) t)
  end.

Definition configure (c : MailboxCell) (k : ResolvedMailbox)
  : outcome (MailboxBindToken * list FlushAction * MailboxCell) :=
  let '(mismatch, t) := configure_kind k (txn_new c) in
  let token := mkToken (bind_permit (txn_state t)) in
  match mismatch with
  | Some _ => Panics "mailbox configuration changed after initialization"
  | None => Ret (finish t token)
  end.

(** [MailboxBindToken::claim]: pointer equality, then a compare-exchange. *)
Definition claim (token : MailboxBindToken) (expected : Z) (c : MailboxCell)
  : bool * MailboxCell :=
  if permit token =? expected
  then match permits c !! permit token with
       | Some false => (true, set_permit (permit token) true c)
       | _ => (false, c)
       end
  else (false, c).

Definition bind (c : MailboxCell) (token : MailboxBindToken) (i : Incarnation)
  : outcome (unit * list FlushAction * MailboxCell) :=
  let t := txn_new c in
  match phase (txn_state t), kind (txn_state t) with
  | Phase.Terminal _, _ => Ret (finish t ())
  | _, None => Panics "mailbox must be configured before its first bind"
  | (Phase.Bound _ | Phase.Frozen _), Some _ =>
      Panics "mailbox must close the prior incarnation before rebinding"
  | Phase.Unbound, Some k =>
      match claim token (bind_permit (txn_state t)) c with
      | (false, _) => Panics "mailbox bind token is foreign or was already consumed"
      | (true, c) =>
          let b := mkBinding i k in
          let t := mkTxn c (payload t) in
          let t := on_state (fun st => set_last_bound (Some i) (set_phase (Phase.Bound b) st)) t in
          let t := on_cell (observe_all i (waiters (txn_state t))) t in
          t ← promote_waiters b t;
          Ret (finish (isolate_displaced (pulse t)) ())
      end
  end.

Definition freeze (c : MailboxCell) (i : Incarnation) : unit * list FlushAction * MailboxCell :=
  let t := txn_new c in
  match phase (txn_state t) with
  | Phase.Bound b =>
      if bool_decide (binding_incarnation b = i)
      then finish (pulse (on_state (set_phase (Phase.Frozen b)) t)) ()
      else finish t ()
  | _ => finish t ()
  end.

(** [take_payload]: the unread messages, detached. *)
Definition take_payload (t : MailboxTxn) : list Envelope * MailboxTxn :=
  let st := txn_state t in
  (queue st ++ option_list (latest st), on_state (fun st => set_latest None (set_queue [] st)) t).

Definition reset_bind_permit (t : MailboxTxn) : MailboxBindToken * MailboxTxn :=
  let '(p, c) := alloc_permit (cell t) in
  (mkToken p, on_state (set_bind_permit p) (mkTxn c (payload t))).

Record MailboxClose := mkClose { close_bind : MailboxBindToken; close_disposal : list Envelope }.

Definition close (c : MailboxCell) (i : Incarnation)
  : option MailboxClose * list FlushAction * MailboxCell :=
  let t := txn_new c in
  if bool_decide (Phase.observation (phase (txn_state t)) = Some i) then
    let t := on_state (set_phase Phase.Unbound) t in
    let '(token, t) := reset_bind_permit t in
    let '(unread, t) := take_payload t in
    finish (pulse t) (Some (mkClose token unread))
  else finish t None.

(** [Termination] and [MailboxTeardown]: the detached waiters and payload. *)
Record MailboxTeardown := mkTeardown
  { teardown_payload : list Envelope;
    teardown_waiters : WaiterQueue;
    teardown_final : option Incarnation }.

Definition prepare_termination (c : MailboxCell)
  : option MailboxTeardown * list FlushAction * MailboxCell :=
  let t := txn_new c in
  match phase (txn_state t) with
  | Phase.Terminal _ => finish t None
  | _ =>
      let final := last_bound (txn_state t) in
      let t := on_state (set_phase (Phase.Terminal final)) t in
      let detached := waiters (txn_state t) in
      let t := on_state (set_waiters waiters_default) t in
      let '(unread, t) := take_payload t in
      finish t (Some (mkTeardown unread detached final))
  end.

(** One iteration of [Termination::finish]: the oldest detached waiter is
    unregistered and terminated; [None] when there is none left. *)
Definition discharge_next (d : MailboxTeardown) (c : MailboxCell)
  : option (Z * list FlushAction) * MailboxTeardown * MailboxCell :=
  match pop_front (teardown_waiters d) with
  | (None, _) => (None, d, c)
  | (Some (_, op), w) =>
      let d := mkTeardown (teardown_payload d) w (teardown_final d) in
      let c := update_operation clear_registration op c in
      match operations c !! op with
      | Some o =>
          let '(fx, o) := op_terminate (teardown_final d) o in
          (Some (op, run_wakers fx), d, set_operation op o c)
      | None => (Some (op, []), d, c)
      end
  end.

(** The whole loop: the operations it retired, in order. *)
Fixpoint discharge_loop (fuel : nat) (d : MailboxTeardown) (c : MailboxCell)
  : list Z * list FlushAction * MailboxTeardown * MailboxCell :=
  match fuel with
  | O => ([], [], d, c)
  | S fuel =>
      match discharge_next d c with
      | (None, d, c) => ([], [], d, c)
      | (Some (op, fx), d, c) =>
          let '(retired, fxs, d, c) := discharge_loop fuel d c in
          (op :: retired, fx ++ fxs, d, c)
      end
  end.

(** [MailboxTermination::finish]: pulse, discharge, hand back the payload with
    the retired operations. *)
Definition finish_termination (d : MailboxTeardown) (c : MailboxCell)
  : list Envelope * list Z * list FlushAction * MailboxCell :=
  let '(retired, fxs, d', c) :=
    discharge_loop (S (size (entries (teardown_waiters d)))) d c in
  (teardown_payload d', retired, Pulse :: fxs, c).
End mailbox.

Arguments Envelope M : clear implicits.
Arguments OperationOutcome M : clear implicits.
Arguments OperationState M : clear implicits.
Arguments MailboxState M : clear implicits.
Arguments MailboxCell M : clear implicits.
Arguments MailboxEffectPayload M : clear implicits.
Arguments FlushAction M : clear implicits.
Arguments MailboxTxn M : clear implicits.
Arguments OperationPoll M : clear implicits.
Arguments Submission M : clear implicits.
Arguments SendError M : clear implicits.
Arguments WithdrawalOutcome M : clear implicits.
Arguments MailboxClose M : clear implicits.
Arguments MailboxTeardown M : clear implicits.
