(* ===== verification/MailboxInv.v ===== *)
(** * Mailbox runs and their invariant

    The requests senders, receivers, futures and the driver make of one
    mailbox, as a sequence of locked transitions, with the invariant every
    sequence keeps. *)

From S2P Require Import Prelude BTree Identity Policy Mailbox.

Section inv.
Context {M : Type}.
Implicit Types (c : MailboxCell M) (t : MailboxTxn M) (o : OperationState M).

(** ** Worlds and operations *)

(** The cell and, once termination is prepared, its pending teardown. *)
Record world := mkWorld { w_cell : MailboxCell M; w_teardown : option (MailboxTeardown M) }.

Inductive mailbox_op :=
| MSubmit (m : M)
| MTrySend (m : M)
| MReceive (i : Incarnation) (mode : ReceiveMode)
| MPoll (op : Z) (replacement : option Waker) (current : Waker)
| MWithdraw (op : Z) (d : WithdrawalDisposition)
| MConfigure (k : ResolvedMailbox)
| MBind (token : MailboxBindToken) (i : Incarnation)
| MFreeze (i : Incarnation)
| MClose (i : Incarnation)
| MPrepareTermination
| MDischarge.

(** Messages handed to an operation. *)
Definition sent (x : mailbox_op) : list M :=
  match x with MSubmit m | MTrySend m => [m] | _ => [] end.

(** Messages the flush of an operation destroys or detaches. *)
Definition flushed (fx : list (FlushAction M)) : list M :=
  concat ((fun a => match a with
                    | DisposeDetached es => message <$> es
                    | DropEnvelope e => [message e]
                    | Pulse | RunWaker _ _ => []
                    end) <$> fx).

(** Messages an operation's result hands out. *)
Definition submission_out (r : Submission M) : list M :=
  match r with SubTerminated m _ => [m] | _ => [] end.
Definition try_send_out (r : result Incarnation (SendError M)) : list M :=
  match r with Err e => [error_message e] | Ok _ => [] end.
Definition poll_out (r : OperationPoll M) : list M :=
  match r with PollTerminated m _ => [m] | _ => [] end.
Definition withdrawal_out (r : WithdrawalOutcome M) : list M :=
  match r with Withdrawn m _ | WithdrawalTerminated m _ => [m] | WithdrawalAccepted _ => [] end.
Definition close_out (r : option (MailboxClose M)) : list M :=
  match r with Some cl => message <$> close_disposal cl | None => [] end.
Definition teardown_out (r : option (MailboxTeardown M)) : list M :=
  match r with Some d => message <$> teardown_payload d | None => [] end.

(** One locked transition: everything that leaves the mailbox, and the new
    world. *)
Definition mexec (w : world) (x : mailbox_op) : outcome (list M * world) :=
  let c := w_cell w in
  let next c := mkWorld c (w_teardown w) in
  match x with
  | MSubmit m => '(r, fx, c) ← submit c m; Ret (submission_out r ++ flushed fx, next c)
  | MTrySend m => '(r, fx, c) ← try_send c m; Ret (try_send_out r ++ flushed fx, next c)
  | MReceive i mode =>
      '(r, fx, c) ← receive c i mode; Ret (option_list r ++ flushed fx, next c)
  | MPoll op replacement current =>
      o ← expect "the caller holds the operation" (operations c !! op);
      '(r, fx, o) ← op_poll o replacement current;
      Ret (poll_out r, next (set_operation op o c))
  | MWithdraw op d =>
      '(r, fx, c) ← withdraw c op d; Ret (withdrawal_out r ++ flushed fx, next c)
  | MConfigure k => '(_, fx, c) ← configure c k; Ret (flushed fx, next c)
  | MBind token i => '(_, fx, c) ← bind c token i; Ret (flushed fx, next c)
  | MFreeze i => let '(_, fx, c) := freeze c i in Ret (flushed fx, next c)
  | MClose i =>
      let '(r, fx, c) := close c i in Ret (close_out r ++ flushed fx, next c)
  | MPrepareTermination =>
      let '(r, fx, c) := prepare_termination c in
      Ret (teardown_out r ++ flushed fx, mkWorld c (option_or r (w_teardown w)))
  | MDischarge =>
      match w_teardown w with
      | Some d => let '(_, d, c) := discharge_next d c in Ret ([], mkWorld c (Some d))
      | None => Ret ([], w)
      end
  end.

(** [mrun id tr w]: the mailbox of [id] reaches [w]; [tr] lists the operations
    with the messages each one released. *)
Inductive mrun (id : ChildId) : list (mailbox_op * list M) -> world -> Prop :=
| mrun_new : mrun id [] (mkWorld (mailbox_new id) None)
| mrun_step tr w x out w' :
    mrun id tr w -> mexec w x = Ret (out, w') -> mrun id (tr ++ [(x, out)]) w'.

(** The run of a list of operations, stopping at the first that does not
    return. *)
Fixpoint mplay (tr : list (mailbox_op * list M)) (w : world) (xs : list mailbox_op)
  : list (mailbox_op * list M) * world :=
  match xs with
  | [] => (tr, w)
  | x :: xs =>
      match mexec w x with
      | Ret (out, w') => mplay (tr ++ [(x, out)]) w' xs
      | _ => (tr, w)
      end
  end.

Lemma mplay_run id tr w xs :
  mrun id tr w -> mrun id (mplay tr w xs).1 (mplay tr w xs).2.
Proof.
  revert tr w. induction xs as [|x xs IH]; intros tr w Hr; simpl; [done|].
  destruct (mexec w x) as [[out w']| |] eqn:E; [|done..]. apply IH. by econstructor.
Qed.

(** ** The invariant *)

Definition live_binding (p : Phase.t) : option Binding :=
  match p with Phase.Bound b | Phase.Frozen b => Some b | _ => None end.

Definition is_waiting (o : OperationState M) : bool :=
  match op_outcome o with OpWaiting _ _ => true | _ => false end.

Definition accepted_count c : Z := AtomicMonotonicCounter.value (accepted c).

(** The buffer fits its kind, and is empty without a binding. *)
Definition buffer_ok (st : MailboxState M) : Prop :=
  match live_binding (phase st) with
  | None => queue st = [] /\ latest st = None
  | Some b =>
      match binding_kind b with
      | ResolvedQueue cap => Z.of_nat (length (queue st)) <= Zpos cap /\ latest st = None
      | ResolvedLatest => queue st = []
      end
  end.

(** Sequence numbers increase along the queue up to the shared counter. *)
Definition sequences_ok c : Prop :=
  StronglySorted Z.lt (accepted_sequence <$> queue (state c)) /\
  Forall (fun e => accepted_sequence e <= accepted_count c)
    (queue (state c) ++ option_list (latest (state c))).

(** Every entry names a waiting operation that is registered under it. *)
Definition entries_ok c : Prop :=
  forall id op, entries (waiters (state c)) !! id = Some op ->
  0 < id <= MonotonicCounter.current (waiter_ids (waiters (state c))) /\
  exists o, operations c !! op = Some o /\ is_waiting o = true /\ op_registration o = Some id.

(** Where a registration points: its own queue entry, or, after termination
    was prepared, its own detached entry. *)
Definition registrations_ok (w : world) : Prop :=
  forall op o, operations (w_cell w) !! op = Some o ->
  (is_waiting o = true <-> is_Some (op_registration o)) /\
  forall id, op_registration o = Some id ->
    entries (waiters (state (w_cell w))) !! id = Some op \/
    exists d, w_teardown w = Some d /\ entries (teardown_waiters d) !! id = Some op.

(** Everything but the promotion guarantee. *)
Record pinv (w : world) : Prop := mkPinv
  { pi_kind : forall b, live_binding (phase (state (w_cell w))) = Some b ->
      kind (state (w_cell w)) = Some (binding_kind b) /\
      last_bound (state (w_cell w)) = Some (binding_incarnation b);
    pi_buffer : buffer_ok (state (w_cell w));
    pi_sequences : sequences_ok (w_cell w);
    pi_accepted : 0 <= accepted_count (w_cell w);
    pi_ids : 0 <= MonotonicCounter.current (waiter_ids (waiters (state (w_cell w))));
    pi_heap : forall k, is_Some (operations (w_cell w) !! k) -> k < next_operation (w_cell w);
    pi_entries : entries_ok (w_cell w);
    pi_registrations : registrations_ok w;
    pi_terminal : forall f, phase (state (w_cell w)) = Phase.Terminal f ->
      f = last_bound (state (w_cell w)) /\ entries (waiters (state (w_cell w))) = ∅ /\
      is_Some (w_teardown w);
    pi_detached : is_Some (w_teardown w) -> is_terminal (phase (state (w_cell w))) = true }.

(** Promotion leaves a bound mailbox without waiters unless it is full. *)
Definition promoted (c : MailboxCell M) : Prop :=
  forall b, phase (state c) = Phase.Bound b -> entries (waiters (state c)) ≠ ∅ ->
  queue_full (binding_kind b) (state c) = true.

Definition minv (w : world) : Prop := pinv w /\ promoted (w_cell w).

Lemma minv_new id : minv (mkWorld (mailbox_new id) None).
Proof.
  split; [|done]. split; simpl; try done.
  - split; constructor.
  - intros k. rewrite lookup_empty. by intros [].
Qed.

(** ** Operations *)

Lemma waiting_message o : is_waiting o = true -> exists m n, op_outcome o = OpWaiting m n.
Proof. unfold is_waiting. destruct (op_outcome o); try done. eauto. Qed.

(** Rewriting an operation without touching whether or where it waits. *)
Lemma pinv_keep w op o o' :
  operations (w_cell w) !! op = Some o -> is_waiting o' = is_waiting o ->
  op_registration o' = op_registration o ->
  pinv w -> pinv (mkWorld (set_operation op o' (w_cell w)) (w_teardown w)).
Proof.
  intros Ho Hw Hr []. split; try done; simpl.
  - intros k. rewrite lookup_insert_is_Some. intros [<-|[_ ?]]; eauto.
  - intros id op' Hop. destruct (pi_entries0 id op' Hop) as (Hid & q & Hq & Hqw & Hqr).
    split; [done|]. simpl. destruct (decide (op' = op)) as [->|Hne].
    + exists o'. rewrite lookup_insert_eq. simplify_eq. split_and!; congruence.
    + exists q. by rewrite lookup_insert_ne.
  - intros op' q. simpl. intros [[<- <-]|[Hne Hq]]%lookup_insert_Some.
    + rewrite Hw, Hr. by apply pi_registrations0.
    + by apply pi_registrations0.
Qed.

(** Unregistering an operation that stops waiting, with its queue entry. *)
Lemma pinv_unregister w op o o' :
  operations (w_cell w) !! op = Some o -> is_waiting o' = false -> op_registration o' = None ->
  pinv w ->
  pinv (mkWorld (set_state (set_waiters
          (match op_registration o with
           | Some id => mkWaiters (delete id (entries (waiters (state (w_cell w)))))
                          (waiter_ids (waiters (state (w_cell w))))
           | None => waiters (state (w_cell w)) end) (state (w_cell w)))
          (set_operation op o' (w_cell w))) (w_teardown w)).
Proof.
  intros Ho Hw Hr [].
  assert (Hent : forall id op', entries (waiters (state (w_cell w))) !! id = Some op' ->
    op_registration o ≠ Some id -> op' ≠ op).
  { intros id op' Hop Hne ->. destruct (pi_entries0 id op Hop) as (_ & q & Hq & _ & Hqr).
    congruence. }
  assert (Hown : forall id op', op_registration o = Some id ->
    entries (waiters (state (w_cell w))) !! id = Some op' -> op' = op).
  { intros id op' Hid Hop. destruct (pi_registrations0 op o Ho) as [_ Hreg].
    destruct (Hreg id Hid) as [?|(d & Hd & _)]; [congruence|].
    assert (Ht : is_terminal (phase (state (w_cell w))) = true) by (apply pi_detached0; eauto).
    destruct (phase (state (w_cell w))) as [| | |f] eqn:Ep; try done.
    destruct (pi_terminal0 f eq_refl) as (_ & He & _). rewrite He in Hop. done. }
  split; try done; simpl.
  - by destruct (op_registration o).
  - intros k. rewrite lookup_insert_is_Some. intros [<-|[_ ?]]; eauto.
  - intros id op' Hop. simpl in *.
    assert (entries (waiters (state (w_cell w))) !! id = Some op' /\ op_registration o ≠ Some id)
      as [Hop' Hne].
    { destruct (op_registration o) as [i|]; simpl in Hop; [|done].
      apply lookup_delete_Some in Hop as [? ?]. split; [done|congruence]. }
    destruct (pi_entries0 id op' Hop') as (Hid & q & Hq & Hqw & Hqr).
    split; [by destruct (op_registration o)|]. exists q.
    rewrite lookup_insert_ne; [done|]. intros <-. by eapply Hent.
  - intros op' q. simpl. intros [[<- <-]|[Hne Hq]]%lookup_insert_Some; [by rewrite Hw, Hr, is_Some_alt|].
    destruct (pi_registrations0 op' q Hq) as [Hwait Hreg]. split; [done|]. intros id Hid.
    destruct (Hreg id Hid) as [Hent'|?]; [left|by right].
    destruct (op_registration o) as [i|] eqn:Ei; simpl; [|done].
    rewrite lookup_delete_ne; [done|]. intros ->. by apply (Hown id op') in Hent'; [|].
  - intros f Hf. destruct (pi_terminal0 f Hf) as (? & He & ?). split_and!; try done.
    destruct (op_registration o); simpl; [|done]. rewrite He. apply delete_empty.
Qed.

(** ** Acceptance *)

(** A successful push, field by field. *)
Lemma push_accepted_Ret t k m t' :
  push_accepted t k m = Ret t' ->
  let e := mkEnvelope m (accepted_count (cell t) + 1) in
  let st := txn_state t in
  cell t' = set_state
    (match k with
     | ResolvedQueue _ => set_queue (queue st ++ [e]) st
     | ResolvedLatest => set_latest (Some e) st
     end) (set_accepted (AtomicMonotonicCounter.mk (accepted_count (cell t) + 1)) (cell t)) /\
  displaced (payload t') = displaced (payload t) ++
    match k with ResolvedQueue _ => [] | ResolvedLatest => option_list (latest st) end /\
  isolate (payload t') = isolate (payload t) /\ pulsed (payload t') = pulsed (payload t) /\
  wakers (payload t') = wakers (payload t).
Proof.
  unfold push_accepted. intros H.
  destruct (AtomicMonotonicCounter.mint _) as [[q a]| |] eqn:E; simpl in H; [|done..].
  apply atomic_mint_Ret in E as (-> & _ & ->). fold (accepted_count (cell t)) in *.
  destruct k; simplify_eq/=; [by rewrite app_nil_r|].
  unfold txn_state. simpl. destruct (latest (state (cell t))); simpl; by rewrite ?app_nil_r.
Qed.

(** Room for one more message. *)
Lemma pinv_push t k m t' d b :
  live_binding (phase (txn_state t)) = Some b -> binding_kind b = k ->
  queue_full k (txn_state t) = false -> push_accepted t k m = Ret t' ->
  pinv (mkWorld (cell t) d) -> pinv (mkWorld (cell t') d).
Proof.
  intros Hb Hk Hfull (Hc & _)%push_accepted_Ret []. simpl in *.
  unfold txn_state in *. set (n := accepted_count (cell t)) in *.
  destruct pi_sequences0 as [Hsort Hall]. simpl in *. rewrite Forall_app in Hall.
  destruct Hall as [Hall1 Hall2].
  assert (Hn : forall l : list (Envelope M), Forall (fun e => accepted_sequence e <= n) l ->
    Forall (fun e => accepted_sequence e <= n + 1) l).
  { intros l Hl. eapply Forall_impl; [done|]. cbn beta. intros; lia. }
  unfold buffer_ok in pi_buffer0. rewrite Hb, Hk in pi_buffer0.
  destruct k as [cap|]; rewrite Hc; split; try done; simpl.
  - unfold buffer_ok. simpl. rewrite Hb, Hk. destruct pi_buffer0 as [Hlen Hl]. split; [|done].
    unfold queue_full in Hfull. apply bool_decide_eq_false in Hfull.
    rewrite length_app. simpl. lia.
  - split; simpl.
    + rewrite fmap_app. apply StronglySorted_app_2; [done|repeat constructor|].
      intros x y Hx ->%list_elem_of_singleton. simpl.
      apply list_elem_of_fmap in Hx as (e & -> & He). rewrite Forall_forall in Hall1.
      specialize (Hall1 e He). unfold accepted_count in *. simpl in *. lia.
    + rewrite !Forall_app, Forall_singleton. split_and!; auto. simpl. unfold accepted_count. simpl. lia.
  - unfold accepted_count. simpl. lia.
  - unfold buffer_ok. simpl. by rewrite Hb, Hk.
  - split; simpl; [done|]. rewrite Forall_app, Forall_singleton. split; [auto|]. simpl.
    unfold accepted_count. simpl. lia.
  - unfold accepted_count. simpl. lia.
Qed.

(** ** Parking *)

Lemma park_Ret t m n op t' :
  park t m n = Ret (op, t') ->
  let w := waiters (txn_state t) in
  let id := MonotonicCounter.current (waiter_ids w) + 1 in
  op = next_operation (cell t) /\ payload t' = payload t /\
  cell t' = set_state
    (set_waiters (mkWaiters (<[id := op]> (entries w)) (MonotonicCounter.from_current id))
       (txn_state t)) (alloc_operation (operation_new m n (Some id)) (cell t)).2.
Proof.
  unfold park. intros H.
  destruct (MonotonicCounter.mint _) as [[q a]| |] eqn:E; simpl in H; [|done..].
  apply mint_Ret in E as (-> & _ & ->). by simplify_eq/=.
Qed.

Lemma pinv_park t m n op t' d :
  is_terminal (phase (txn_state t)) = false -> park t m n = Ret (op, t') ->
  pinv (mkWorld (cell t) d) -> pinv (mkWorld (cell t') d).
Proof.
  intros Hnt (Hop & _ & Hc)%park_Ret []. unfold txn_state in *. simpl in *.
  set (id := MonotonicCounter.current (waiter_ids (waiters (state (cell t)))) + 1) in *.
  assert (Hfresh : operations (cell t) !! op = None).
  { apply eq_None_not_Some. intros Hs%pi_heap0. lia. }
  assert (Hid : entries (waiters (state (cell t))) !! id = None).
  { apply eq_None_not_Some. intros [q Hq]. apply pi_entries0 in Hq as [Hq _]. simpl in Hq. lia. }
  rewrite Hc. split; try done; simpl.
  - unfold id. lia.
  - intros k. rewrite lookup_insert_is_Some. intros [<-|[_ Hk%pi_heap0]]; lia.
  - intros i q Hq. simpl in *. apply lookup_insert_Some in Hq as [[<- <-]|[Hne Hq]].
    + split; [unfold id; lia|]. exists (operation_new m n (Some id)).
      rewrite Hop, lookup_insert_eq. done.
    + destruct (pi_entries0 i q Hq) as (Hi & x & Hx & Hxw). simpl in *. split; [unfold id; lia|].
      exists x. rewrite lookup_insert_ne; [done|]. intros <-. congruence.
  - intros q x. simpl. intros [[<- <-]|[Hne Hx]]%lookup_insert_Some.
    + simpl. split; [by rewrite is_Some_alt|]. intros i [= <-]. left.
      rewrite Hop. by rewrite lookup_insert_eq.
    + destruct (pi_registrations0 q x Hx) as [H1 H2]. split; [done|]. intros i Hi. simpl in *.
      destruct (H2 i Hi) as [He|?]; [left|by right].
      rewrite lookup_insert_ne; [done|]. intros <-. congruence.
  - intros f Hf. by rewrite Hf in Hnt.
Qed.

(** ** Promotion *)

Lemma pop_front_Some (w : WaiterQueue) id op w' :
  pop_front w = (Some (id, op), w') <->
  bt_first (entries w) = Some id /\ entries w !! id = Some op /\
  w' = mkWaiters (delete id (entries w)) (waiter_ids w).
Proof.
  unfold pop_front. destruct (bt_first (entries w)) as [k|] eqn:E; [|naive_solver].
  apply bt_first_Some in E as [[op' Hop] _]. rewrite Hop. split; [|naive_solver].
  intros [= -> -> <-]. auto.
Qed.

Lemma pop_front_None (w : WaiterQueue) w' : pop_front w = (None, w') -> entries w = ∅ /\ w' = w.
Proof.
  unfold pop_front. destruct (bt_first (entries w)) as [k|] eqn:E.
  - apply bt_first_Some in E as [[op' Hop] _]. by rewrite Hop.
  - intros [= <-]. by apply bt_first_None in E.
Qed.

Lemma update_operation_eq f op o c :
  operations c !! op = Some o -> update_operation f op c = set_operation op (f o) c.
Proof. intros H. unfold update_operation. by rewrite H. Qed.

Lemma set_operation_lookup op o c : operations (set_operation op o c) !! op = Some o.
Proof. apply lookup_insert_eq. Qed.

Lemma set_operation_twice op o o' c :
  set_operation op o' (set_operation op o c) = set_operation op o' c.
Proof. unfold set_operation. simpl. by rewrite insert_insert_eq. Qed.

(** The transaction after the oldest waiter [op] was moved out of the queue
    and its operation accepted. *)
Definition moved t (b : Binding) (id op : Z) (wk : WakerSlot) : MailboxTxn M :=
  add_wakers (slot_take wk WakerAction.Wake []).2
    (mkTxn (set_state (set_waiters (mkWaiters (delete id (entries (waiters (txn_state t))))
                                      (waiter_ids (waiters (txn_state t)))) (txn_state t))
       (set_operation op (mkOperation (OpAccepted (binding_incarnation b)) None None) (cell t)))
       (payload t)).

Lemma promote_iter fuel b t id op o m n :
  queue_full (binding_kind b) (txn_state t) = false ->
  bt_first (entries (waiters (txn_state t))) = Some id ->
  entries (waiters (txn_state t)) !! id = Some op ->
  operations (cell t) !! op = Some o -> op_outcome o = OpWaiting m n ->
  promote_loop (S fuel) b t =
    (t ← push_accepted (moved t b id op (op_waker o)) (binding_kind b) m; promote_loop fuel b t).
Proof.
  intros Hf Hid Hop Ho Hm. cbn [promote_loop]. rewrite Hf.
  assert (Hp : pop_front (waiters (txn_state t)) =
    (Some (id, op), mkWaiters (delete id (entries (waiters (txn_state t))))
                      (waiter_ids (waiters (txn_state t))))) by (by apply pop_front_Some).
  rewrite Hp. unfold on_state, on_cell. cbn [cell].
  rewrite (update_operation_eq clear_registration op o) by done.
  rewrite (update_operation_eq _ _ (clear_registration o)) by apply set_operation_lookup.
  rewrite set_operation_twice, set_operation_lookup.
  unfold observe, clear_registration, op_accept. cbn [op_outcome op_waker op_registration].
  rewrite Hm. cbn [op_outcome op_waker op_registration].
  unfold moved. destruct (slot_take (op_waker o) WakerAction.Wake []) as [slot fx] eqn:Es.
  assert (slot = None) as -> by (unfold slot_take in Es; destruct (op_waker o); by simplify_eq).
  rewrite set_operation_twice. done.
Qed.

(** One promoted waiter keeps the invariant. *)
Lemma pinv_moved t b id op o d :
  entries (waiters (txn_state t)) !! id = Some op -> operations (cell t) !! op = Some o ->
  pinv (mkWorld (cell t) d) -> pinv (mkWorld (cell (moved t b id op (op_waker o))) d).
Proof.
  intros Hop Ho Hi. destruct (pi_entries _ Hi id op Hop) as (_ & q & Hq & _ & Hr). simpl in Hq.
  simplify_eq.
  pose proof (pinv_unregister (mkWorld (cell t) d) op o
    (mkOperation (OpAccepted (binding_incarnation b)) None None) Ho eq_refl eq_refl Hi) as H.
  simpl in H. rewrite Hr in H. exact H.
Qed.

Section promote_induction.
Context (b : Binding) (d : option (MailboxTeardown M)).
Context (P : MailboxTxn M -> MailboxTxn M -> Prop).
Hypothesis Prefl : forall t, P t t.
Hypothesis Pstep : forall t id op o m n t1 t2,
  pinv (mkWorld (cell t) d) -> phase (txn_state t) = Phase.Bound b ->
  queue_full (binding_kind b) (txn_state t) = false ->
  bt_first (entries (waiters (txn_state t))) = Some id ->
  entries (waiters (txn_state t)) !! id = Some op ->
  operations (cell t) !! op = Some o -> op_outcome o = OpWaiting m n ->
  op_registration o = Some id ->
  push_accepted (moved t b id op (op_waker o)) (binding_kind b) m = Ret t1 ->
  P t1 t2 -> P t t2.

(** Promotion ends full or without waiters, and does what its iterations do. *)
Lemma promote_loop_ind fuel t t' :
  (size (entries (waiters (txn_state t))) < fuel)%nat ->
  pinv (mkWorld (cell t) d) -> phase (txn_state t) = Phase.Bound b ->
  promote_loop fuel b t = Ret t' ->
  pinv (mkWorld (cell t') d) /\ phase (txn_state t') = Phase.Bound b /\
  (queue_full (binding_kind b) (txn_state t') = true \/
   entries (waiters (txn_state t')) = ∅) /\ P t t'.
Proof.
  revert t. induction fuel as [|fuel IH]; intros t Hsz Hi Hph Hp; [lia|].
  destruct (queue_full (binding_kind b) (txn_state t)) eqn:Hf.
  { simpl in Hp. rewrite Hf in Hp. simplify_eq. auto. }
  destruct (bt_first (entries (waiters (txn_state t)))) as [id|] eqn:Eid.
  2:{ apply bt_first_None in Eid as He. simpl in Hp. rewrite Hf in Hp.
      unfold pop_front in Hp. rewrite Eid in Hp. simplify_eq. auto. }
  pose proof Eid as [[op Hop] _]%bt_first_Some.
  destruct (pi_entries _ Hi id op Hop) as (_ & o & Ho & Hw & Hr). simpl in Ho.
  destruct (waiting_message o Hw) as (m & n & Hm).
  rewrite (promote_iter fuel b t id op o m n) in Hp by done.
  destruct (push_accepted _ _ m) as [t1| |] eqn:Et; simpl in Hp; [|done..].
  pose proof (push_accepted_Ret _ _ _ _ Et) as (Hc & _).
  assert (Hst : phase (txn_state t1) = phase (txn_state t) /\
    entries (waiters (txn_state t1)) = delete id (entries (waiters (txn_state t)))).
  { unfold txn_state. rewrite Hc. by destruct (binding_kind b). }
  destruct Hst as [Hph1 He1].
  assert (Hi1 : pinv (mkWorld (cell t1) d)).
  { eapply (pinv_push (moved t b id op (op_waker o)) _ m t1 d b);
      [unfold moved, txn_state; simpl; fold (txn_state t); by rewrite Hph|done|exact Hf|done|].
    by apply pinv_moved. }
  destruct (IH t1) as (H1 & H2 & H3 & H4); [|done|congruence|done|].
  - rewrite He1, map_size_delete_Some by eauto.
    assert (size (entries (waiters (txn_state t))) ≠ 0%nat).
    { eapply map_size_ne_0_lookup_2. eauto. }
    lia.
  - split_and!; [done..|]. eapply Pstep; eauto.
Qed.
End promote_induction.

Lemma promote_waiters_inv b d t t' :
  pinv (mkWorld (cell t) d) -> phase (txn_state t) = Phase.Bound b ->
  promote_waiters b t = Ret t' ->
  minv (mkWorld (cell t') d) /\ phase (txn_state t') = Phase.Bound b.
Proof.
  intros Hi Hp Hpr.
  destruct (promote_loop_ind b d (fun _ _ => True) ltac:(done) ltac:(done) _ _ _
    (Nat.lt_succ_diag_r _) Hi Hp Hpr) as (H1 & H2 & H3 & _).
  split; [split; [done|]|done]. intros b' Hb' Hne. simpl in *. unfold txn_state in *.
  rewrite H2 in Hb'. simplify_eq. by destruct H3.
Qed.

(** ** Sending *)

Lemma accept_locked_inv t b m r t' d :
  minv (mkWorld (cell t) d) -> phase (txn_state t) = Phase.Bound b ->
  accept_locked t b m = Ret (r, t') ->
  match r with
  | Ok i => i = binding_incarnation b /\ minv (mkWorld (cell t') d) /\
      waiters (txn_state t) = waiters (txn_state t') /\ entries (waiters (txn_state t)) = ∅ /\
      queue_full (binding_kind b) (txn_state t) = false /\
      exists t1, push_accepted t (binding_kind b) m = Ret t1 /\ t' = pulse t1
  | Err m' => m' = m /\ t' = t /\ queue_full (binding_kind b) (txn_state t) = true
  end.
Proof.
  intros [Hi Hpr] Hp Ha. unfold accept_locked, waiters_empty in Ha.
  destruct (bool_decide (entries (waiters (txn_state t)) = ∅)) eqn:Ee; simpl in Ha.
  2:{ apply bool_decide_eq_false in Ee. simplify_eq. split_and!; try done. by apply Hpr. }
  apply bool_decide_eq_true in Ee.
  destruct (queue_full (binding_kind b) (txn_state t)) eqn:Hf; [by simplify_eq|].
  destruct (push_accepted t (binding_kind b) m) as [t1| |] eqn:Et; simplify_eq/=.
  pose proof (push_accepted_Ret _ _ _ _ Et) as (Hc & _).
  assert (Hw : waiters (txn_state t1) = waiters (txn_state t))
    by (unfold txn_state in *; rewrite Hc; by destruct (binding_kind b)).
  split_and!; try done; [|eauto].
  split; simpl.
  - eapply (pinv_push t); [by rewrite Hp|done|done|done|done].
  - intros b' _ Hne. unfold txn_state in *. by rewrite Hw in Hne.
Qed.

(** A parked operation behind a mailbox that is not bound, or full. *)
Lemma minv_park t m n op t' d :
  minv (mkWorld (cell t) d) -> is_terminal (phase (txn_state t)) = false ->
  (forall b, phase (txn_state t) = Phase.Bound b ->
     queue_full (binding_kind b) (txn_state t) = true) ->
  park t m n = Ret (op, t') -> minv (mkWorld (cell t') d).
Proof.
  intros [Hi _] Hnt Hf Hp. split; [by eapply pinv_park|].
  apply park_Ret in Hp as (_ & _ & Hc). simpl. rewrite Hc.
  intros b Hb _. simpl in *. specialize (Hf b Hb). by destruct (binding_kind b).
Qed.

Lemma minv_submit c m r fx c' d :
  minv (mkWorld c d) -> submit c m = Ret (r, fx, c') -> minv (mkWorld c' d).
Proof.
  intros Hi Hs. unfold submit in Hs. simpl in Hs. unfold txn_state in Hs. simpl in Hs.
  destruct (phase (state c)) as [|b|b|f] eqn:Ep.
  - destruct (park _ m None) as [[op t]| |] eqn:E; simplify_eq/=.
    eapply (minv_park (txn_new c)); [done|by unfold txn_state; simpl; rewrite Ep| |done].
    unfold txn_state; simpl. congruence.
  - destruct (accept_locked _ b m) as [[r1 t1]| |] eqn:Ea; simpl in Hs; [|done..].
    eapply (accept_locked_inv (txn_new c)) in Ea; [|done..]. destruct r1 as [i|m'].
    + destruct Ea as (_ & Hi' & _). by simplify_eq/=.
    + destruct Ea as (-> & -> & Hf). destruct (park _ m _) as [[op t]| |] eqn:E; simplify_eq/=.
      eapply (minv_park (txn_new c)); [done|by unfold txn_state; simpl; rewrite Ep| |done].
      unfold txn_state in *; simpl. intros b' Hb'. rewrite Ep in Hb'. by simplify_eq.
  - destruct (park _ m _) as [[op t]| |] eqn:E; simplify_eq/=.
    eapply (minv_park (txn_new c)); [done|by unfold txn_state; simpl; rewrite Ep| |done].
    unfold txn_state; simpl. congruence.
  - by simplify_eq/=.
Qed.

Lemma minv_try_send c m r fx c' d :
  minv (mkWorld c d) -> try_send c m = Ret (r, fx, c') -> minv (mkWorld c' d).
Proof.
  intros Hi Hs. unfold try_send in Hs. simpl in Hs. unfold txn_state in Hs. simpl in Hs.
  destruct (phase (state c)) as [|b|b|f] eqn:Ep; [by simplify_eq/=| |by simplify_eq/=..].
  destruct (accept_locked _ b m) as [[r1 t1]| |] eqn:Ea; simpl in Hs; [|done..].
  eapply (accept_locked_inv (txn_new c)) in Ea; [|done..]. destruct r1 as [i|m'].
  - destruct Ea as (_ & Hi' & _). by simplify_eq/=.
  - destruct Ea as (-> & -> & Hf). by simplify_eq/=.
Qed.

(** ** Receiving *)

Lemma receive_binding_Some p i mode b live :
  receive_binding p i mode = Some (b, live) ->
  live_binding p = Some b /\ binding_incarnation b = i /\
  (live = true -> p = Phase.Bound b) /\ (live = false -> p = Phase.Frozen b).
Proof.
  unfold receive_binding. destruct p as [|b'|b'|]; try done.
  - case_bool_decide; [|done]. intros [= -> <-]. done.
  - destruct (mode_is_drain mode); simpl; [|done]. case_bool_decide; [|done].
    intros [= -> <-]. done.
Qed.

(** Taking the next envelope from a valid buffer. *)
Lemma take_next_Some k mode (st : MailboxState M) e st' :
  take_next k mode st = (Some e, st') ->
  mode_accepts mode (accepted_sequence e) = true /\
  match k with
  | ResolvedQueue _ => exists q, queue st = e :: q /\ st' = set_queue q st
  | ResolvedLatest => latest st = Some e /\ st' = set_latest None st
  end.
Proof.
  unfold take_next. destruct k.
  - destruct (queue st) as [|x q]; [done|]. destruct (mode_accepts _ _) eqn:E; [|done].
    intros [= <- <-]. eauto.
  - destruct (latest st) as [x|]; [|done]. destruct (mode_accepts _ _) eqn:E; [|done].
    intros [= <- <-]. eauto.
Qed.

Lemma pinv_taken c b mode e st d :
  live_binding (phase (state c)) = Some b ->
  take_next (binding_kind b) mode (state c) = (Some e, st) ->
  pinv (mkWorld c d) -> pinv (mkWorld (set_state st c) d).
Proof.
  intros Hb (_ & Ht)%take_next_Some []. simpl in *.
  unfold buffer_ok in pi_buffer0. rewrite Hb in pi_buffer0. simpl in *.
  destruct pi_sequences0 as [Hs Ha]. simpl in *.
  destruct (binding_kind b) eqn:Ek.
  - destruct Ht as (q & Hq & ->). rewrite Hq in *. split; try done; simpl.
    + unfold buffer_ok; simpl. rewrite Hb, Ek. destruct pi_buffer0 as [Hl ?].
      split; [simpl in Hl; lia|done].
    + split; simpl; [by inversion Hs|]. by inversion Ha.
  - destruct Ht as (Hl & ->). rewrite Hl in *. split; try done; simpl.
    + unfold buffer_ok; simpl. by rewrite Hb, Ek.
    + split; simpl; [done|]. by rewrite Forall_app in Ha; destruct Ha; rewrite app_nil_r.
Qed.

Lemma minv_receive c i mode r fx c' d :
  minv (mkWorld c d) -> receive c i mode = Ret (r, fx, c') -> minv (mkWorld c' d).
Proof.
  intros [Hi Hpr] Hs. unfold receive in Hs. simpl in Hs. unfold txn_state in Hs; simpl in Hs.
  destruct (receive_binding _ i mode) as [[b live]|] eqn:Eb; [|by simplify_eq/=].
  apply receive_binding_Some in Eb as (Hb & _ & Hlive & Hfrozen).
  destruct (take_next _ mode (state c)) as [[e|] st] eqn:Et; [|by simplify_eq/=].
  pose proof (pinv_taken c b mode e st d Hb Et Hi) as Hi'.
  assert (Hph : phase st = phase (state c)).
  { apply take_next_Some in Et as (_ & Et). destruct (binding_kind b);
      [by destruct Et as (? & _ & ->)|by destruct Et as (_ & ->)]. }
  destruct live.
  - destruct (promote_waiters b _) as [t'| |] eqn:Epr; simplify_eq/=.
    eapply promote_waiters_inv in Epr as [? _]; [done|exact Hi'|].
    unfold txn_state; simpl. rewrite Hph. auto.
  - simplify_eq/=. split; [done|]. intros b' Hb'. simpl in Hb'.
    rewrite Hph, Hfrozen in Hb' by done. done.
Qed.

(** ** Futures *)

Lemma op_poll_keep o replacement current r fx o' :
  op_poll o replacement current = Ret (r, fx, o') ->
  is_waiting o' = is_waiting o /\ op_registration o' = op_registration o.
Proof.
  unfold op_poll, poll_once, slot_replace, is_waiting.
  destruct (op_outcome o) as [m n|i|m f|] eqn:Eo, replacement as [w|]; simpl; intros H;
    rewrite ?Eo in *; simpl in *; cases_in H; simplify_eq/=; rewrite ?Eo; done.
Qed.

Lemma minv_poll w op o replacement current r fx o' :
  operations (w_cell w) !! op = Some o ->
  op_poll o replacement current = Ret (r, fx, o') ->
  minv w -> minv (mkWorld (set_operation op o' (w_cell w)) (w_teardown w)).
Proof.
  intros Ho Hp [Hi Hpr]. apply op_poll_keep in Hp as [H1 H2].
  split; [by eapply pinv_keep|]. exact Hpr.
Qed.

(** What a withdrawal does to the cell. *)
Lemma withdraw_Ret c op dsp r fx c' :
  withdraw c op dsp = Ret (r, fx, c') ->
  exists o, operations c !! op = Some o /\
    c' = set_state (set_waiters
          (match op_registration o with
           | Some id => mkWaiters (delete id (entries (waiters (state c))))
                          (waiter_ids (waiters (state c)))
           | None => waiters (state c) end) (state c))
          (set_operation op (mkOperation OpRetired None None) c) /\
    flushed fx = [] /\
    r = match op_outcome o with
        | OpWaiting m newest =>
            Withdrawn m (option_or newest (Phase.observation (phase (state c))))
        | OpAccepted i => WithdrawalAccepted i
        | OpTerminated m final => WithdrawalTerminated m final
        | OpRetired => r
        end /\ op_outcome o ≠ OpRetired.
Proof.
  unfold withdraw. intros H. destruct (operations c !! op) as [o|] eqn:Eo; simpl in H; [|done].
  exists o. split; [done|].
  destruct (slot_take _ _ []) as [slot fx0] eqn:Es.
  assert (slot = None) as -> by (unfold slot_take in Es; destruct (op_waker o); by simplify_eq).
  assert (Hfx : flushed (run_wakers fx0) = []).
  { unfold flushed, run_wakers. clear. induction fx0 as [|[w a] fx0 IH]; [done|]. exact IH. }
  destruct (op_registration o) as [id|] eqn:Er.
  - unfold waiters_remove in H. simpl in H.
    destruct (entries (waiters (state c)) !! id) as [x|] eqn:Ee; simpl in H.
    + destruct (op_outcome o); simplify_eq/=; split_and!; done.
    + rewrite (delete_id (entries (waiters (state c))) id Ee).
      destruct (op_outcome o); simpl in H; try done; destruct (assert_that _ _); simplify_eq/=;
        split_and!; try done; f_equal; by destruct (state c) as [? ? ? ? [] ? ?].
  - destruct (op_outcome o); simplify_eq/=; split_and!; try done; by destruct c as [? [] ? ? ? ? ?].
Qed.

Lemma minv_withdraw c op dsp r fx c' d :
  withdraw c op dsp = Ret (r, fx, c') -> minv (mkWorld c d) -> minv (mkWorld c' d).
Proof.
  intros (o & Ho & -> & _)%withdraw_Ret [Hi Hpr]. split.
  - apply (pinv_unregister (mkWorld c d) op o (mkOperation OpRetired None None) Ho eq_refl eq_refl Hi).
  - intros b Hb Hne. simpl in *. specialize (Hpr b Hb). simpl in Hpr.
    unfold queue_full in *. simpl. apply Hpr.
    intros He. apply Hne. destruct (op_registration o); simpl; [|done]. rewrite He.
    apply delete_empty.
Qed.

(** ** Lifecycle control *)

Lemma minv_configure c k r fx c' d :
  configure c k = Ret (r, fx, c') -> minv (mkWorld c d) -> minv (mkWorld c' d).
Proof.
  unfold configure, configure_kind, txn_state. simpl. intros H [Hi Hpr].
  destruct (kind (state c)) as [k'|] eqn:Ek; simpl in H.
  - case_bool_decide; [|done]. by simplify_eq/=.
  - simplify_eq/=. split; [|done]. destruct Hi. split; try done; simpl.
    intros b Hb. apply pi_kind0 in Hb as [Hb _]. simpl in Hb. congruence.
Qed.

Lemma minv_freeze c i d : minv (mkWorld c d) -> minv (mkWorld (freeze c i).2 d).
Proof.
  unfold freeze, txn_state. simpl. intros [Hi Hpr].
  destruct (phase (state c)) as [|b|b|f] eqn:Ep; simpl; try done.
  case_bool_decide; simpl; [|done]. split; [|done]. destruct Hi. simpl in *.
  unfold buffer_ok in *. rewrite Ep in *. by split.
Qed.

Lemma minv_close c i d : minv (mkWorld c d) -> minv (mkWorld (close c i).2 d).
Proof.
  unfold close, txn_state. simpl. intros [Hi Hpr]. case_bool_decide as Ho; simpl; [|done].
  split; [|done]. destruct Hi. simpl in *.
  assert (Hnt : is_terminal (phase (state c)) = false) by (by destruct (phase (state c))).
  split; try done; simpl.
  - split; constructor.
  - intros Hd. apply pi_detached0 in Hd. simpl in Hd. congruence.
Qed.

Lemma minv_prepare c d :
  minv (mkWorld c d) ->
  minv (mkWorld (prepare_termination c).2 (option_or (prepare_termination c).1.1 d)).
Proof.
  unfold prepare_termination, txn_state. simpl. intros [Hi Hpr].
  destruct (is_terminal (phase (state c))) eqn:Et.
  { destruct (phase (state c)); done. }
  assert (Hd : d = None).
  { destruct d as [x|] eqn:Ed; [|done]. destruct Hi. simpl in *.
    rewrite pi_detached0 in Et; [done|eauto]. }
  subst d. destruct (phase (state c)) as [|b|b|f] eqn:Ep; try done; simpl;
    (split; [|done]); destruct Hi; simpl in *; split; try done; simpl.
  1,4,7: split; constructor.
  2,4,6: intros f [= <-]; eauto.
  all: intros op o Ho; destruct (pi_registrations0 op o Ho) as [H1 H2]; split; [done|];
    intros id Hid; right; destruct (H2 id Hid) as [?|(x & ? & _)]; [|done]; eexists; eauto.
Qed.

Lemma minv_discharge c d fx d' c' :
  discharge_next d c = (fx, d', c') -> minv (mkWorld c (Some d)) -> minv (mkWorld c' (Some d')).
Proof.
  unfold discharge_next. intros H [Hi Hpr].
  destruct (pop_front (teardown_waiters d)) as [[[id op]|] w] eqn:Ep; [|by simplify_eq].
  apply pop_front_Some in Ep as (_ & Hop & ->).
  assert (Ht : is_terminal (phase (state c)) = true) by (apply (pi_detached _ Hi); eauto).
  assert (He : entries (waiters (state c)) = ∅).
  { destruct (phase (state c)) as [| | |f] eqn:Eph; try done.
    by destruct (pi_terminal _ Hi f Eph) as (_ & ? & _). }
  assert (Hprom : forall c1, phase (state c1) = phase (state c) -> promoted c1).
  { intros c1 Hc1 b Hb. rewrite Hc1 in Hb. by rewrite Hb in Ht. }
  assert (Hother : forall q x id', q ≠ op -> operations c !! q = Some x ->
    op_registration x = Some id' ->
    delete id (entries (teardown_waiters d)) !! id' = Some q).
  { intros q x id' Hne Hx Hid. destruct (pi_registrations _ Hi q x Hx) as [_ Hreg].
    destruct (Hreg id' Hid) as [Hq|(d0 & [= <-] & Hq)]; simpl in Hq.
    - rewrite He in Hq. done.
    - rewrite lookup_delete_ne; [done|]. congruence. }
  destruct (operations c !! op) as [o|] eqn:Eo.
  - rewrite (update_operation_eq clear_registration op o c Eo), set_operation_lookup in H.
    destruct (op_terminate _ (clear_registration o)) as [fx0 o'] eqn:Eterm. simplify_eq.
    assert (Ho' : is_waiting o' = false /\ op_registration o' = None).
    { unfold op_terminate, clear_registration, is_waiting in *.
      destruct (op_outcome o) eqn:Eout; simpl in *; cases_in Eterm; simplify_eq/=;
        rewrite ?Eout; done. }
    destruct Ho' as [Hw' Hr']. rewrite set_operation_twice.
    split; [|by apply Hprom]. destruct Hi. split; try done; simpl in *.
    + intros k. rewrite lookup_insert_is_Some. intros [<-|[_ ?]]; eauto.
    + intros id' op' Hop'. simpl in *. rewrite He in Hop'. done.
    + intros q x. simpl. intros [[<- <-]|[Hne Hx]]%lookup_insert_Some; [by rewrite Hw', Hr', is_Some_alt|].
      destruct (pi_registrations0 q x Hx) as [H1 H2]. split; [done|].
      intros id' Hid'. right. eexists. split; [done|]. by eapply Hother.
    + intros f Hf. destruct (pi_terminal0 f Hf) as (? & ? & _). split_and!; eauto.
  - unfold update_operation in H. rewrite !Eo in H. simplify_eq.
    split; [|by apply Hprom]. destruct Hi. split; try done; simpl in *.
    + intros q x Hx. simpl in Hx. destruct (pi_registrations0 q x Hx) as [H1 H2]. split; [done|].
      intros id' Hid'. right. eexists. split; [done|]. eapply Hother; [|done|done]. congruence.
    + intros f Hf. destruct (pi_terminal0 f Hf) as (? & ? & _). split_and!; eauto.
Qed.

(** ** Binding *)

(** [observe_all] only refreshes the evidence of waiting operations. *)
Lemma observe_keep i o :
  is_waiting (observe i o) = is_waiting o /\ op_registration (observe i o) = op_registration o.
Proof.
  unfold observe, is_waiting. destruct (op_outcome o) eqn:E; rewrite ?E; done.
Qed.

Lemma observe_all_ind i (w : WaiterQueue) c (P : MailboxCell M -> Prop) :
  P c ->
  (forall c1 op o, P c1 -> operations c1 !! op = Some o ->
     P (set_operation op (observe i o) c1)) ->
  P (observe_all i w c).
Proof.
  intros Hc Hstep. unfold observe_all. generalize (bt_keys (entries w)) as ids. intros ids.
  revert c Hc. induction ids as [|id ids IH]; intros c Hc; simpl; [done|].
  apply IH. destruct (entries w !! id) as [op|]; [|done].
  unfold update_operation. destruct (operations c !! op) as [o|] eqn:E; [|done]. auto.
Qed.

(** The cell [bind] promotes from: bound, with refreshed waiters. *)
Definition bind_cell c (i : Incarnation) (k : ResolvedMailbox) : MailboxCell M :=
  let st := set_last_bound (Some i) (set_phase (Phase.Bound (mkBinding i k)) (state c)) in
  observe_all i (waiters st) (set_state st c).

Lemma bind_pinv c token i k c1 d :
  pinv (mkWorld c d) -> phase (state c) = Phase.Unbound -> kind (state c) = Some k ->
  claim token (bind_permit (state c)) c = (true, c1) ->
  pinv (mkWorld (bind_cell c1 i k) d) /\
  phase (state (bind_cell c1 i k)) = Phase.Bound (mkBinding i k).
Proof.
  intros Hi Ep Ek Ec.
  assert (Hc1 : exists n, c1 = set_permit n true c).
  { unfold claim in Ec. destruct (_ =? _); [|done].
    destruct (permits c !! permit token) as [[]|]; simplify_eq; eauto. }
  destruct Hc1 as [n ->]. unfold bind_cell. simpl.
  set (st1 := set_last_bound (Some i) (set_phase (Phase.Bound (mkBinding i k)) (state c))).
  set (c2 := set_state st1 (set_permit n true c)).
  assert (Hi2 : pinv (mkWorld c2 d)).
  { destruct Hi. simpl in *. unfold buffer_ok in pi_buffer0. rewrite Ep in *. simpl in *.
    destruct pi_buffer0 as [Hq Hl]. split; try done; simpl.
    - intros b [= <-]. simpl. by rewrite Ek.
    - unfold buffer_ok. simpl. rewrite Hq, Hl. destruct k; simpl; [|done]. split; [lia|done]. }
  apply (observe_all_ind i _ c2 (fun c3 => pinv (mkWorld c3 d) /\
    phase (state c3) = Phase.Bound (mkBinding i k))); [done|].
  intros c3 op o [Hi3 Hp3] Ho. destruct (observe_keep i o) as [H1 H2]. split; [|done].
  by apply (pinv_keep (mkWorld c3 d) op o).
Qed.

Lemma minv_bind c token i r fx c' d :
  bind c token i = Ret (r, fx, c') -> minv (mkWorld c d) -> minv (mkWorld c' d).
Proof.
  unfold bind, txn_state. simpl. intros H [Hi Hpr].
  destruct (phase (state c)) as [|b|b|f] eqn:Ep; [|by destruct (kind (state c))..|by simplify_eq/=].
  destruct (kind (state c)) as [k|] eqn:Ek; [|done].
  destruct (claim token (bind_permit (state c)) c) as [[] c1] eqn:Ec; [|done].
  destruct (bind_pinv c token i k c1 d Hi Ep Ek Ec) as [Hi2 Hp2].
  destruct (promote_waiters _ _) as [t'| |] eqn:Epr; simplify_eq/=.
  eapply promote_waiters_inv in Epr as [? _]; [done|exact Hi2|exact Hp2].
Qed.

(** ** Every run *)

Lemma minv_mexec w x out w' : mexec w x = Ret (out, w') -> minv w -> minv w'.
Proof.
  destruct w as [c d]. intros H Hi.
  destruct x as [m|m|i mode|op rp cur|op dsp|k|token i|i|i| |]; cbn [mexec w_cell w_teardown] in H.
  - destruct (submit c m) as [[[r fx] c1]| |] eqn:E; simplify_eq/=. by eapply minv_submit.
  - destruct (try_send c m) as [[[r fx] c1]| |] eqn:E; simplify_eq/=. by eapply minv_try_send.
  - destruct (receive c i mode) as [[[r fx] c1]| |] eqn:E; simplify_eq/=. by eapply minv_receive.
  - destruct (operations c !! op) as [o|] eqn:Eo; simpl in H; [|done].
    destruct (op_poll o rp cur) as [[[r fx] o']| |] eqn:E; simplify_eq/=.
    by eapply (minv_poll (mkWorld c d)).
  - destruct (withdraw c op dsp) as [[[r fx] c1]| |] eqn:E; simplify_eq/=. by eapply minv_withdraw.
  - destruct (configure c k) as [[[r fx] c1]| |] eqn:E; simplify_eq/=. by eapply minv_configure.
  - destruct (bind c token i) as [[[r fx] c1]| |] eqn:E; simplify_eq/=. by eapply minv_bind.
  - pose proof (minv_freeze c i d Hi) as H1. destruct (freeze c i) as [[r fx] c1]. by simplify_eq/=.
  - pose proof (minv_close c i d Hi) as H1. destruct (close c i) as [[r fx] c1]. by simplify_eq/=.
  - pose proof (minv_prepare c d Hi) as H1. destruct (prepare_termination c) as [[r fx] c1].
    by simplify_eq/=.
  - destruct d as [d|]; [|by simplify_eq].
    destruct (discharge_next d c) as [[fx d'] c1] eqn:E. simplify_eq.
    by eapply minv_discharge.
Qed.

Lemma mrun_inv id tr w : mrun id tr w -> minv w.
Proof. induction 1; [apply minv_new|by eapply minv_mexec]. Qed.
End inv.
