(* ===== verification/MailboxErrors.v ===== *)
(** * Which mailbox requests can fail

    The panics of the mailbox cell are assertions about its callers.  Callers
    that keep the protocol - poll and withdraw only operations they still
    hold, configure one kind, bind with the current token after the previous
    incarnation was closed - never meet one; only the exhaustion of a 64-bit
    counter, which aborts the process, is left. *)

From S2P Require Import Prelude BTree Identity Exit Policy Mailbox MailboxInv.

Section mailbox_errors.
Context {M : Type}.
Implicit Types (c : MailboxCell M) (t : MailboxTxn M) (o : OperationState M).

(** ** The protocol *)

Definition held_operation c (op : Z) : bool :=
  match operations c !! op with
  | Some o => match op_outcome o with OpRetired => false | _ => true end
  | None => false
  end.

(** What the callers of the cell guarantee. *)
Definition protocol (w : world (M := M)) (x : mailbox_op (M := M)) : bool :=
  let st := state (w_cell w) in
  match x with
  | MPoll op _ _ | MWithdraw op _ => held_operation (w_cell w) op
  | MConfigure k => match kind st with Some k' => bool_decide (k' = k) | None => true end
  | MBind token _ =>
      match phase st with
      | Phase.Terminal _ => true
      | Phase.Unbound =>
          (permit token =? bind_permit st) && bool_decide (is_Some (kind st))
      | Phase.Bound _ | Phase.Frozen _ => false
      end
  | _ => true
  end.

(** Where a 64-bit counter of the cell stands at its limit: the waiter ids, or
    the acceptance sequence counting the parked senders still to be promoted. *)
Definition counters_exhausted c : Prop :=
  u64_max <= MonotonicCounter.current (waiter_ids (waiters (state c))) \/
  u64_max <= accepted_count c + Z.of_nat (size (entries (waiters (state c)))).

(** [m] returns, or aborts the process where [P] allows it; it never panics. *)
Definition returns_or_aborts {A} (P : Prop) (m : outcome A) : Prop :=
  match m with Ret _ => True | Panics _ => False | ProcessAborts => P end.

Lemma returns_or_aborts_bind {A B} P (m : outcome A) (f : A -> outcome B) :
  returns_or_aborts P m -> (forall a, m = Ret a -> returns_or_aborts P (f a)) ->
  returns_or_aborts P (m ≫= f).
Proof. destruct m; simpl; auto. Qed.

Lemma returns_or_aborts_mono {A} (P Q : Prop) (m : outcome A) :
  (P -> Q) -> returns_or_aborts P m -> returns_or_aborts Q m.
Proof. destruct m; simpl; auto. Qed.

(** ** Counters, promotion, parking *)

Lemma push_accepted_total t k m :
  returns_or_aborts (u64_max <= accepted_count (cell t)) (push_accepted t k m).
Proof.
  unfold push_accepted. apply returns_or_aborts_bind; [|by intros [] _].
  unfold AtomicMonotonicCounter.mint, AtomicMonotonicCounter.try_update, checked_add_u64.
  destruct (_ <=? _) eqn:E; simpl; [done|]. zreflect. unfold accepted_count. lia.
Qed.

Lemma park_total t m n :
  returns_or_aborts
    (u64_max <= MonotonicCounter.current (waiter_ids (waiters (txn_state t)))) (park t m n).
Proof.
  unfold park. apply returns_or_aborts_bind; [|by intros [] _].
  unfold MonotonicCounter.mint. apply returns_or_aborts_bind; [|done].
  unfold MonotonicCounter.successor, checked_add_u64.
  destruct (_ <=? _) eqn:E; simpl; [done|]. zreflect. lia.
Qed.

(** Acceptances so far and waiters that promotion could still accept. *)
Definition demand t : Z := accepted_count (cell t) + Z.of_nat (size (entries (waiters (txn_state t)))).

Lemma update_operation_frame f op c :
  state (update_operation f op c) = state c /\ accepted (update_operation f op c) = accepted c.
Proof. unfold update_operation. by destruct (operations c !! op). Qed.

Lemma promote_loop_total fuel b t :
  returns_or_aborts (u64_max <= demand t) (promote_loop fuel b t).
Proof.
  revert t. induction fuel as [|fuel IH]; intros t; [done|]. cbn [promote_loop].
  destruct (queue_full _ _); [done|].
  destruct (pop_front _) as [[[id op]|] w] eqn:Ep; [|done].
  apply pop_front_Some in Ep as (_ & Hop & ->).
  set (t0 := on_cell _ (on_cell _ (on_state _ t))).
  assert (Hd : demand t0 = demand t - 1 /\ accepted_count (cell t0) = accepted_count (cell t)).
  { unfold demand, accepted_count, txn_state, t0, on_cell, on_state. simpl.
    rewrite !(proj1 (update_operation_frame _ _ _)), !(proj2 (update_operation_frame _ _ _)).
    simpl. rewrite map_size_delete_Some by eauto.
    assert (size (entries (waiters (txn_state t))) ≠ 0%nat).
    { eapply map_size_ne_0_lookup_2. eauto. }
    unfold txn_state in *. lia. }
  destruct Hd as [Hd Ha]. clearbody t0.
  assert (Hnext : forall t1, demand t1 <= demand t ->
    returns_or_aborts (u64_max <= demand t) (promote_loop fuel b t1)).
  { intros t1 Hle. eapply returns_or_aborts_mono; [|apply IH]. lia. }
  destruct (operations (cell t0) !! op) as [o|]; [|apply Hnext; lia].
  destruct (op_accept _ o) as [[taken fx] o'].
  set (t1 := add_wakers fx _).
  assert (Hd1 : demand t1 = demand t0 /\ accepted_count (cell t1) = accepted_count (cell t0)) by done.
  destruct Hd1 as [Hd1 Ha1]. clearbody t1.
  destruct taken as [m|]; [|apply Hnext; lia].
  apply returns_or_aborts_bind.
  - eapply returns_or_aborts_mono; [|apply push_accepted_total]. unfold demand. lia.
  - intros t2 (Hc & _)%push_accepted_Ret. apply Hnext.
    assert (demand t2 = demand t1 + 1); [|lia].
    unfold demand, txn_state, accepted_count at 1. rewrite Hc.
    destruct (binding_kind b); simpl; unfold txn_state; lia.
Qed.

Lemma promote_waiters_total b t :
  returns_or_aborts (u64_max <= demand t) (promote_waiters b t).
Proof. apply promote_loop_total. Qed.

(** ** The current bind token *)

(** An unbound mailbox's current token has not been consumed. *)
Definition token_fresh c : Prop :=
  phase (state c) = Phase.Unbound -> permits c !! bind_permit (state c) = Some false.

(** Transitions that keep the phase, the token and the permits. *)
Definition same_token c c' : Prop :=
  phase (state c') = phase (state c) /\ bind_permit (state c') = bind_permit (state c) /\
  permits c' = permits c.

Lemma same_token_fresh c c' : same_token c c' -> token_fresh c -> token_fresh c'.
Proof. unfold token_fresh. intros (-> & -> & ->). done. Qed.

Lemma accept_same_token t b m r t' :
  accept_locked t b m = Ret (r, t') -> same_token (cell t) (cell t').
Proof.
  unfold accept_locked. intros H. destruct (negb _); [by simplify_eq|].
  destruct (queue_full _ _); [by simplify_eq|].
  destruct (push_accepted _ _ m) as [t1| |] eqn:E; simplify_eq/=.
  apply push_accepted_Ret in E as (-> & _). by destruct (binding_kind b).
Qed.

Lemma park_same_token t m n op t' : park t m n = Ret (op, t') -> same_token (cell t) (cell t').
Proof. by intros (_ & _ & ->)%park_Ret. Qed.

Lemma submit_same_token c m r fx c' : submit c m = Ret (r, fx, c') -> same_token c c'.
Proof.
  unfold submit, txn_state. simpl. intros H.
  assert (Hpark : forall n, ('(op, t) ← park (txn_new c) m n; Ret (finish t (SubParked op)))
    = Ret (r, fx, c') -> same_token c c').
  { intros n Hn. destruct (park _ m n) as [[op t]| |] eqn:E; simplify_eq/=.
    by apply park_same_token in E. }
  destruct (phase (state c)) as [|b|b|f]; [by eapply Hpark| |by eapply Hpark|by simplify_eq/=].
  destruct (accept_locked _ b m) as [[[i|m'] t]| |] eqn:E; simpl in H; [| |done..];
    apply accept_same_token in E as Hs; [by simplify_eq/=|].
  destruct (park t m' _) as [[op t']| |] eqn:E'; simplify_eq/=.
  apply park_same_token in E'. unfold same_token in *. simpl in *. intuition congruence.
Qed.

Lemma try_send_same_token c m r fx c' : try_send c m = Ret (r, fx, c') -> same_token c c'.
Proof.
  unfold try_send, txn_state. simpl. intros H.
  destruct (phase (state c)) as [|b|b|f]; [by simplify_eq/=| |by simplify_eq/=..].
  destruct (accept_locked _ b m) as [[[i|m'] t]| |] eqn:E; simpl in H; [| |done..];
    apply accept_same_token in E as Hs; by simplify_eq/=.
Qed.

Lemma receive_token c d i mode r fx c' :
  minv (mkWorld c d) -> token_fresh c -> receive c i mode = Ret (r, fx, c') -> token_fresh c'.
Proof.
  intros [Hi _] Hf. unfold receive, txn_state. simpl. intros H.
  destruct (receive_binding _ i mode) as [[b live]|] eqn:Eb; [|by simplify_eq/=].
  apply receive_binding_Some in Eb as (Hb & _ & Hbound & Hfrozen).
  destruct (take_next _ mode (state c)) as [[e|] st] eqn:Et; [|by simplify_eq/=].
  pose proof (pinv_taken c b mode e st d Hb Et Hi) as Hi'.
  assert (Hst : phase st = phase (state c)).
  { apply take_next_Some in Et as (_ & Et).
    destruct (binding_kind b); [destruct Et as (q & _ & ->)|destruct Et as (_ & ->)]; done. }
  destruct live.
  - destruct (promote_waiters b _) as [t'| |] eqn:Epr; simplify_eq/=.
    apply (promote_waiters_inv b d) in Epr as [_ Hp]; [|done|unfold txn_state; simpl; rewrite Hst; auto].
    intros Hu. unfold txn_state in Hp. congruence.
  - simplify_eq/=. intros Hu. simpl in Hu. rewrite Hst, Hfrozen in Hu by done. done.
Qed.

Lemma bind_token c d token i r fx c' :
  minv (mkWorld c d) -> token_fresh c -> bind c token i = Ret (r, fx, c') -> token_fresh c'.
Proof.
  intros [Hi _] Hf Hb. unfold bind, txn_state in Hb. simpl in Hb.
  destruct (phase (state c)) as [|b|b|f] eqn:Ep; [|by destruct (kind (state c))..|by simplify_eq/=].
  destruct (kind (state c)) as [k|] eqn:Ek; [|done].
  destruct (claim token (bind_permit (state c)) c) as [[] c1] eqn:Ec; [|done].
  destruct (bind_pinv c token i k c1 d Hi Ep Ek Ec) as [Hi2 Hp2].
  destruct (promote_waiters _ _) as [t'| |] eqn:Epr; simplify_eq/=.
  apply (promote_waiters_inv (mkBinding i k) d) in Epr as [_ Hp]; [|exact Hi2|exact Hp2].
  intros Hu. unfold txn_state in Hp. congruence.
Qed.

Lemma discharge_same_token d c r d' c' : discharge_next d c = (r, d', c') -> same_token c c'.
Proof.
  unfold discharge_next. intros H. destruct (pop_front _) as [[[id op]|] w]; [|by simplify_eq].
  pose proof (proj1 (update_operation_frame clear_registration op c)) as Hs.
  assert (Hp : permits (update_operation clear_registration op c) = permits c)
    by (unfold update_operation; by destruct (operations c !! op)).
  destruct (operations _ !! op) as [o|]; [destruct (op_terminate _ o) as [fx o']|];
    simplify_eq/=; unfold same_token; simpl; by rewrite Hs, Hp.
Qed.

Lemma mexec_token w x out w' :
  minv w -> token_fresh (w_cell w) -> mexec w x = Ret (out, w') -> token_fresh (w_cell w').
Proof.
  intros Hi Hf He. destruct w as [c d]. unfold mexec in He. destruct x; simpl in *.
  - destruct (submit c m) as [[[r fx] c1]| |] eqn:E; simplify_eq/=.
    by eapply same_token_fresh; [eapply submit_same_token|].
  - destruct (try_send c m) as [[[r fx] c1]| |] eqn:E; simplify_eq/=.
    by eapply same_token_fresh; [eapply try_send_same_token|].
  - destruct (receive c i mode) as [[[r fx] c1]| |] eqn:E; simplify_eq/=. by eapply receive_token.
  - destruct (operations c !! op) as [o|]; simpl in He; [|done].
    destruct (op_poll o _ _) as [[[r fx] o']| |]; by simplify_eq/=.
  - destruct (withdraw c op _) as [[[r fx] c1]| |] eqn:E; simplify_eq/=.
    by apply withdraw_Ret in E as (o & _ & -> & _).
  - destruct (configure c k) as [[[r fx] c1]| |] eqn:E; simplify_eq/=.
    unfold configure, configure_kind, txn_state in E. simpl in E.
    destruct (kind (state c)); [case_bool_decide|]; by simplify_eq/=.
  - destruct (bind c token i) as [[[r fx] c1]| |] eqn:E; simplify_eq/=. by eapply bind_token.
  - unfold freeze, txn_state in He. simpl in He.
    destruct (phase (state c)) eqn:Ep; [|case_bool_decide|..]; by simplify_eq/=.
  - unfold close, txn_state in He. simpl in He. case_bool_decide; simplify_eq/=; [|done].
    intros _. simpl. by rewrite lookup_insert_eq.
  - unfold prepare_termination, txn_state in He. simpl in He.
    destruct (phase (state c)) eqn:Ep; by simplify_eq/=.
  - destruct d as [d|]; [|by simplify_eq/=].
    destruct (discharge_next d c) as [[r d'] c1] eqn:E. simplify_eq/=.
    by eapply same_token_fresh; [eapply discharge_same_token|].
Qed.

Lemma mrun_token id tr w : mrun id tr w -> token_fresh (w_cell w).
Proof.
  induction 1 as [|tr w x out w' Hr IH He]; [done|].
  eapply mexec_token; [by eapply mrun_inv|done|exact He].
Qed.

(** ** Withdrawal *)

Section withdrawal.
Context (c : MailboxCell M) (d : option (MailboxTeardown M)) (Hi : pinv (mkWorld c d)).
Context (op : Z) (o : OperationState M) (Ho : operations c !! op = Some o).

(** A registered operation is still queued, unless termination detached it. *)
Lemma registered_queued i :
  op_registration o = Some i ->
  entries (waiters (state c)) !! i = Some op \/ is_terminal (phase (state c)) = true.
Proof using Hi Ho.
  intros Hr. destruct (proj2 (pi_registrations _ Hi op o Ho) i Hr) as [He|(x & Hd & _)]; [by left|].
  right. apply (pi_detached _ Hi). eauto.
Qed.

(** Only its own registration queues an operation. *)
Lemma queued_registered i :
  entries (waiters (state c)) !! i = Some op -> op_registration o = Some i.
Proof using Hi Ho.
  intros He. destruct (pi_entries _ Hi i op He) as (_ & x & Hx & _ & Hxr). simpl in Hx. congruence.
Qed.

Lemma waiting_registered : is_waiting o = true <-> is_Some (op_registration o).
Proof using Hi Ho. apply (pi_registrations _ Hi op o Ho). Qed.

Lemma withdraw_returns dsp :
  op_outcome o ≠ OpRetired -> exists r fx c', withdraw c op dsp = Ret (r, fx, c').
Proof using Hi Ho.
  intros Hnr. unfold withdraw. rewrite Ho. simpl. destruct (slot_take _ _ []) as [slot fx].
  destruct (op_registration o) as [i|] eqn:Er.
  - unfold waiters_remove. simpl. destruct (registered_queued i Er) as [He|Ht].
    + rewrite He. simpl. destruct (op_outcome o); simpl; eauto; done.
    + rewrite Ht. destruct (entries (waiters (state c)) !! i); simpl;
        destruct (op_outcome o); simpl; eauto; done.
  - destruct (op_outcome o); simpl; eauto; done.
Qed.
End withdrawal.

(** ** Every request *)

Lemma accept_total t b m :
  returns_or_aborts (u64_max <= accepted_count (cell t)) (accept_locked t b m).
Proof.
  unfold accept_locked. destruct (negb _); [done|]. destruct (queue_full _ _); [done|].
  apply returns_or_aborts_bind; [apply push_accepted_total|done].
Qed.

Lemma accept_locked_err t b m m' t' :
  accept_locked t b m = Ret (Err m', t') -> m' = m /\ t' = t.
Proof.
  unfold accept_locked. destruct (negb _); [by intros [= <- <-]|].
  destruct (queue_full _ _); [by intros [= <- <-]|]. by destruct (push_accepted _ _ m).
Qed.

Lemma submit_total c m : returns_or_aborts (counters_exhausted c) (submit c m).
Proof.
  assert (Hpark : forall t n,
    waiter_ids (waiters (txn_state t)) = waiter_ids (waiters (state c)) ->
    returns_or_aborts (counters_exhausted c)
      ('(op, t) ← park t m n; Ret (finish t (SubParked op : Submission M)))).
  { intros t n Ht. apply returns_or_aborts_bind; [|by intros [] _].
    eapply returns_or_aborts_mono; [|apply park_total]. rewrite Ht. by left. }
  unfold submit, txn_state. simpl.
  destruct (phase (state c)) as [|b|b|f]; [by apply Hpark| |by apply Hpark|done].
  apply returns_or_aborts_bind.
  - eapply returns_or_aborts_mono; [|apply accept_total]. simpl. unfold counters_exhausted. lia.
  - intros [[i|m'] t] E; [done|]. apply accept_locked_err in E as (-> & ->). by apply Hpark.
Qed.

Lemma receive_total c i mode : returns_or_aborts (counters_exhausted c) (receive c i mode).
Proof.
  unfold receive, txn_state. simpl.
  destruct (receive_binding _ i mode) as [[b live]|]; [|done].
  destruct (take_next _ mode (state c)) as [[e|] st] eqn:Et; [|done].
  apply returns_or_aborts_bind; [|done]. destruct live; [|done].
  eapply returns_or_aborts_mono; [|apply promote_waiters_total]. right.
  apply take_next_Some in Et as (_ & Et).
  destruct (binding_kind b); [destruct Et as (q & _ & ->)|destruct Et as (_ & ->)]; done.
Qed.

Lemma observe_all_frame i (w : WaiterQueue) c :
  state (observe_all i w c) = state c /\ accepted (observe_all i w c) = accepted c.
Proof.
  apply (observe_all_ind i w c (fun c' => state c' = state c /\ accepted c' = accepted c)); [done|].
  intros c1 op o Hc1 _. done.
Qed.

Lemma bind_total c d token i :
  token_fresh c -> protocol (mkWorld c d) (MBind token i) = true ->
  returns_or_aborts (counters_exhausted c) (bind c token i).
Proof.
  intros Hf Hl. simpl in Hl. unfold bind, txn_state. simpl.
  destruct (phase (state c)) as [|b|b|f] eqn:Ep; [|done..].
  apply andb_true_iff in Hl as [Ht Hk%bool_decide_eq_true_1]. destruct Hk as [k ->].
  apply Z.eqb_eq in Ht. unfold claim. rewrite Ht, Z.eqb_refl, (Hf Ep).
  apply returns_or_aborts_bind; [|done].
  eapply returns_or_aborts_mono; [|apply promote_waiters_total]. right.
  unfold demand, accepted_count, txn_state, on_cell, on_state in *. simpl in *.
  by rewrite !(proj1 (observe_all_frame _ _ _)), !(proj2 (observe_all_frame _ _ _)) in *.
Qed.

Lemma op_poll_total o replacement current :
  op_outcome o ≠ OpRetired -> returns_or_aborts False (op_poll o replacement current).
Proof.
  intros Hn. unfold op_poll, poll_once.
  destruct (op_outcome o) eqn:E, replacement as [w|]; simpl; rewrite ?E; try done.
  by destruct (slot_replace (op_waker o) w []).
Qed.

Lemma try_send_total c m : returns_or_aborts (counters_exhausted c) (try_send c m).
Proof.
  unfold try_send, txn_state. simpl. destruct (phase (state c)) as [|b|b|f]; try done.
  apply returns_or_aborts_bind; [|by intros [[]] _].
  eapply returns_or_aborts_mono; [|apply accept_total]. simpl. unfold counters_exhausted. lia.
Qed.

Lemma configure_total c d k :
  protocol (mkWorld c d) (MConfigure k) = true -> returns_or_aborts False (configure c k).
Proof.
  simpl. unfold configure, configure_kind, txn_state. simpl. intros H.
  destruct (kind (state c)) as [k'|]; [|done]. by rewrite H.
Qed.

Lemma held_operation_true c op :
  held_operation c op = true -> exists o, operations c !! op = Some o /\ op_outcome o ≠ OpRetired.
Proof.
  unfold held_operation. destruct (operations c !! op) as [o|]; [|done].
  intros H. exists o. split; [done|]. by destruct (op_outcome o).
Qed.

Lemma mexec_total w x :
  minv w -> token_fresh (w_cell w) -> protocol w x = true ->
  returns_or_aborts (counters_exhausted (w_cell w)) (mexec w x).
Proof.
  intros [Hi _] Hf Hl. destruct w as [c d]. unfold mexec. destruct x; simpl w_cell in *.
  - apply returns_or_aborts_bind; [apply submit_total|by intros [[]] _].
  - apply returns_or_aborts_bind; [apply try_send_total|by intros [[]] _].
  - apply returns_or_aborts_bind; [apply receive_total|by intros [[]] _].
  - apply held_operation_true in Hl as (o & Hop & Ho). simpl in Hop. simpl. rewrite Hop. simpl.
    apply returns_or_aborts_bind; [|by intros [[]] _].
    eapply returns_or_aborts_mono; [|by apply op_poll_total]. done.
  - apply held_operation_true in Hl as (o & Hop & Ho). simpl w_cell in *.
    destruct (withdraw_returns c d Hi op o Hop d0 Ho) as (r & fx & c' & ->). done.
  - apply returns_or_aborts_bind; [|by intros [[]] _].
    eapply returns_or_aborts_mono; [|by apply (configure_total c d)]. done.
  - apply returns_or_aborts_bind; [by apply (bind_total c d)|by intros [[]] _].
  - by destruct (freeze c i) as [[]].
  - by destruct (close c i) as [[]].
  - by destruct (prepare_termination c) as [[]].
  - destruct d as [d|]; [|done]. simpl. by destruct (discharge_next d c) as [[]].
Qed.

(** A caller that keeps the mailbox protocol never meets a panic.  In every
    reachable state each such request returns, or aborts the process because
    a 64-bit counter is exhausted; binding needs only the current token, which
    is always unconsumed while the mailbox is unbound. *)
Theorem mailbox_requests_return id tr w x :
  mrun id tr w -> protocol w x = true ->
  (exists out w', mexec w x = Ret (out, w')) \/
  (mexec w x = ProcessAborts /\ counters_exhausted (w_cell w)).
Proof.
  intros Hr Hl. pose proof (mexec_total w x (mrun_inv _ _ _ Hr) (mrun_token _ _ _ Hr) Hl) as H.
  destruct (mexec w x) as [[out w']| |]; [left; eauto|done|by right].
Qed.
End mailbox_errors.

Definition first_incarnation : Incarnation :=
  mkIncarnation (mkMembership (mkFence (mkLineage 1) (mkGeneration 1))) (mkGeneration 1).

(** The first sender of a fresh mailbox is parked, and the first bind accepts it. *)
Definition first_script : list (mailbox_op (M := Z)) :=
  [MConfigure (ResolvedQueue 1); MSubmit 10].

Definition first_world := mplay [] (mkWorld (mailbox_new "a") None) first_script.

Lemma mailbox_requests_return_witness :
  exists out w', mexec first_world.2
    (MBind (mkToken 0) first_incarnation) = Ret (out, w').
Proof.
  destruct (mailbox_requests_return "a" first_world.1 first_world.2
    (MBind (mkToken 0) first_incarnation))
    as [H|[_ [H|H]]].
  - apply mplay_run, mrun_new.
  - vm_compute. reflexivity.
  - exact H.
  - exfalso. vm_compute in H. by apply H.
  - exfalso. vm_compute in H. by apply H.
Defined.
