(* ===== verification/MailboxProps.v ===== *)
(** * Theorems about mailboxes

    Capacity in every reachable state, and the conservation of messages over
    every run. *)

From S2P Require Import Prelude BTree Identity Policy Mailbox MailboxInv.
From AAC_tactics Require Import AAC.
From AAC_tactics Require Instances.
Import Instances.Lists.

(** Permutations of concatenations, modulo associativity and commutativity. *)
#[local] Instance permutation_lift {A} : AAC_lift (@Permutation A) (@Permutation A).
Proof.
  constructor; [apply _|]. intros a b H c d H'.
  split; intros; [by rewrite <- H, <- H'|by rewrite H, H'].
Qed.

Ltac perm :=
  repeat match goal with
  | |- context [?x :: ?l] =>
      lazymatch l with nil => fail | _ => change (x :: l) with ([x] ++ l) end
  end; aac_reflexivity.

Section props.
Context {M : Type}.
Implicit Types (c : MailboxCell M) (t : MailboxTxn M) (o : OperationState M).

(** In every state a mailbox can reach, the queue is within the capacity it
    was bound with and its sequence numbers increase; nothing is buffered
    without a live binding; senders are parked behind a bound mailbox only
    while its queue is full; and a terminal mailbox holds no waiters. *)
Theorem mailbox_capacity id tr (w : world (M := M)) :
  mrun id tr w ->
  let st := state (w_cell w) in
  match phase st with
  | Phase.Bound b | Phase.Frozen b =>
      match binding_kind b with
      | ResolvedQueue cap =>
          Z.of_nat (length (queue st)) <= Zpos cap /\ latest st = None /\
          (phase st = Phase.Bound b -> entries (waiters st) ≠ ∅ ->
           Z.of_nat (length (queue st)) = Zpos cap)
      | ResolvedLatest =>
          queue st = [] /\ (phase st = Phase.Bound b -> entries (waiters st) = ∅)
      end
  | Phase.Unbound => queue st = [] /\ latest st = None
  | Phase.Terminal f =>
      queue st = [] /\ latest st = None /\ entries (waiters st) = ∅ /\ f = last_bound st
  end /\
  StronglySorted Z.lt (accepted_sequence <$> queue st).
Proof.
  intros [Hi Hp]%mrun_inv. destruct Hi. destruct pi_sequences as [Hs _].
  split; [|done]. unfold buffer_ok, promoted, queue_full in *.
  destruct (phase (state (w_cell w))) as [|b|b|f] eqn:Ep; simpl in *.
  - done.
  - specialize (Hp b eq_refl). destruct (binding_kind b) as [cap|].
    + destruct pi_buffer as [Hle ?]. split_and!; try done. intros _ Hne.
      specialize (Hp Hne). apply bool_decide_eq_true in Hp. lia.
    + split; [done|]. intros _. destruct (decide (entries (waiters (state (w_cell w))) = ∅)); [done|].
      by specialize (Hp n).
  - destruct (binding_kind b); [destruct pi_buffer|]; split_and!; done.
  - destruct (pi_terminal f eq_refl) as (? & ? & _). destruct pi_buffer. done.
Qed.

(** ** Conservation *)

Definition op_message (o : OperationState M) : option M :=
  match op_outcome o with OpWaiting m _ | OpTerminated m _ => Some m | _ => None end.

Definition op_messages (ops : gmap Z (OperationState M)) : list M :=
  omap (fun kv => op_message kv.2) (map_to_list ops).

(** The messages a mailbox and its send operations own. *)
Definition held c : list M :=
  (message <$> queue (state c)) ++ (message <$> option_list (latest (state c))) ++
  op_messages (operations c).

Lemma op_messages_insert ops k o :
  ops !! k = None -> op_messages (<[k := o]> ops) ≡ₚ option_list (op_message o) ++ op_messages ops.
Proof.
  intros H. unfold op_messages. rewrite map_to_list_insert by done. simpl.
  by destruct (op_message o).
Qed.

Lemma op_messages_update ops k o o' :
  ops !! k = Some o -> 
  exists rest, op_messages ops ≡ₚ option_list (op_message o) ++ rest /\
    op_messages (<[k := o']> ops) ≡ₚ option_list (op_message o') ++ rest.
Proof.
  intros H. exists (op_messages (delete k ops)). split.
  - rewrite <- (insert_delete_id ops k o) at 1 by done. apply op_messages_insert, lookup_delete_eq.
  - rewrite <- insert_delete_eq. apply op_messages_insert, lookup_delete_eq.
Qed.

Lemma op_messages_same ops k o o' :
  ops !! k = Some o -> op_message o' = op_message o ->
  op_messages (<[k := o']> ops) ≡ₚ op_messages ops.
Proof.
  intros H Hm. destruct (op_messages_update ops k o o' H) as (rest & -> & ->). by rewrite Hm.
Qed.

(** Messages of an open transaction, displaced ones included. *)
Definition held_txn t : list M := held (cell t) ++ (message <$> displaced (payload t)).

Lemma push_accepted_held t k m t' :
  push_accepted t k m = Ret t' -> held_txn t' ≡ₚ m :: held_txn t.
Proof.
  intros (Hc & Hd & _)%push_accepted_Ret. unfold held_txn, held, txn_state in *. rewrite Hc, Hd.
  destruct k; cbn [set_state set_queue set_latest set_accepted queue latest state operations];
    rewrite ?fmap_app, ?app_nil_r; cbn [fmap list_fmap option_list message].
  - perm.
  - change (message <$> option_list (Some (mkEnvelope m (accepted_count (cell t) + 1)))) with [m].
    perm.
Qed.

Lemma park_held t m n op t' :
  (forall k, is_Some (operations (cell t) !! k) -> k < next_operation (cell t)) ->
  park t m n = Ret (op, t') -> held_txn t' ≡ₚ m :: held_txn t.
Proof.
  intros Hheap (_ & Hp & Hc)%park_Ret. unfold held_txn, held. rewrite Hp, Hc. simpl.
  rewrite op_messages_insert.
  - simpl. unfold txn_state. perm.
  - apply eq_None_not_Some. intros Hs%Hheap. lia.
Qed.

Lemma moved_held t b id op o m n :
  operations (cell t) !! op = Some o -> op_outcome o = OpWaiting m n ->
  m :: held_txn (moved t b id op (op_waker o)) ≡ₚ held_txn t.
Proof.
  intros Ho Hm. unfold held_txn, held, moved. simpl.
  destruct (op_messages_update (operations (cell t)) op o
    (mkOperation (OpAccepted (binding_incarnation b)) None None) Ho) as (rest & H1 & H2).
  rewrite H1, H2. unfold op_message. rewrite Hm. simpl. unfold txn_state. perm.
Qed.

Lemma promote_waiters_held b d t t' :
  pinv (mkWorld (cell t) d) -> phase (txn_state t) = Phase.Bound b ->
  promote_waiters b t = Ret t' -> held_txn t' ≡ₚ held_txn t.
Proof.
  intros Hi Hp Hpr.
  refine (proj2 (proj2 (proj2 (promote_loop_ind b d (fun t t' => held_txn t' ≡ₚ held_txn t)
    _ _ _ _ _ (Nat.lt_succ_diag_r _) Hi Hp Hpr)))).
  - done.
  - intros t0 id op o m n t1 t2 _ _ _ _ _ Ho Hm _ Hpush ->.
    rewrite (push_accepted_held _ _ _ _ Hpush). by eapply moved_held.
Qed.

Lemma flushed_app a b : flushed (M := M) (a ++ b) = flushed a ++ flushed b.
Proof. unfold flushed. by rewrite fmap_app, concat_app. Qed.

Lemma flushed_wakers fx : flushed (M := M) (run_wakers fx) = [].
Proof. unfold flushed, run_wakers. induction fx as [|[w a] fx IH]; [done|]. exact IH. Qed.

(** The flush destroys or detaches exactly the displaced messages. *)
Lemma flushed_flush (p : MailboxEffectPayload M) : flushed (flush p) = message <$> displaced p.
Proof.
  assert (Hdrop : forall es : list (Envelope M), flushed (DropEnvelope <$> es) = message <$> es).
  { intros es. unfold flushed. induction es as [|e es IH]; [done|]. cbn in *. by rewrite IH. }
  assert (Hdispose : forall es : list (Envelope M),
    flushed (if negb (bool_decide (length es = 0%nat)) then [DisposeDetached es] else [])
      = message <$> es).
  { intros [|e es]; [done|]. rewrite bool_decide_false by done. unfold flushed. simpl.
    by rewrite app_nil_r. }
  unfold flush. rewrite !flushed_app, flushed_wakers.
  destruct (pulsed p), (isolate p); simpl; rewrite ?Hdrop, ?Hdispose, ?app_nil_r; done.
Qed.

(** A finished transaction: what the cell keeps and what the flush takes. *)
Lemma finish_held t : held (cell t) ++ flushed (flush (payload t)) = held_txn t.
Proof. by rewrite flushed_flush. Qed.

Lemma held_txn_new c : held_txn (txn_new c) = held c.
Proof. unfold held_txn. simpl. apply app_nil_r. Qed.

Lemma accept_locked_held t b m r t' d :
  minv (mkWorld (cell t) d) -> phase (txn_state t) = Phase.Bound b ->
  accept_locked t b m = Ret (r, t') ->
  match r with
  | Ok _ => held_txn t' ≡ₚ m :: held_txn t
  | Err m' => m' = m /\ t' = t
  end.
Proof.
  intros Hi Hp Ha. apply (accept_locked_inv _ _ _ _ _ _ Hi Hp) in Ha. destruct r; [|naive_solver].
  destruct Ha as (_ & _ & _ & _ & _ & t1 & Ht1 & ->).
  by rewrite <- (push_accepted_held _ _ _ _ Ht1).
Qed.

Lemma submit_conserves c m r fx c' d :
  minv (mkWorld c d) -> submit c m = Ret (r, fx, c') ->
  held c' ++ submission_out r ++ flushed fx ≡ₚ held c ++ [m].
Proof.
  intros Hi Hs. unfold submit in Hs. simpl in Hs.
  assert (Hpark : forall n op t, park (txn_new c) m n = Ret (op, t) ->
    held (cell t) ++ flushed (flush (payload t)) ≡ₚ held c ++ [m]).
  { intros n op t Ht. rewrite finish_held, (park_held (txn_new c) m n op t (pi_heap _ (proj1 Hi)) Ht),
      held_txn_new. perm. }
  unfold txn_state in Hs. simpl in Hs. destruct (phase (state c)) as [|b|b|f] eqn:Ep.
  - destruct (park _ m None) as [[op t]| |] eqn:E; simplify_eq/=. by eapply Hpark.
  - destruct (accept_locked _ b m) as [[r1 t1]| |] eqn:Ea; simpl in Hs; [|done..].
    pose proof (accept_locked_held (txn_new c) b m r1 t1 d Hi Ep Ea) as Hh.
    destruct r1 as [i|m'].
    + simplify_eq/=. rewrite finish_held, Hh, held_txn_new. perm.
    + destruct Hh as [-> ->]. destruct (park _ m _) as [[op t]| |] eqn:E; simplify_eq/=.
      by eapply Hpark.
  - destruct (park _ m _) as [[op t]| |] eqn:E; simplify_eq/=. by eapply Hpark.
  - by simplify_eq/=.
Qed.

Lemma try_send_conserves c m r fx c' d :
  minv (mkWorld c d) -> try_send c m = Ret (r, fx, c') ->
  held c' ++ try_send_out r ++ flushed fx ≡ₚ held c ++ [m].
Proof.
  intros Hi Hs. unfold try_send in Hs. simpl in Hs. unfold txn_state in Hs. simpl in Hs.
  destruct (phase (state c)) as [|b|b|f] eqn:Ep; [by simplify_eq/=| |by simplify_eq/=..].
  destruct (accept_locked _ b m) as [[r1 t1]| |] eqn:Ea; simpl in Hs; [|done..].
  pose proof (accept_locked_held (txn_new c) b m r1 t1 d Hi Ep Ea) as Hh.
  destruct r1 as [i|m'].
  - simplify_eq/=. rewrite finish_held, Hh, held_txn_new. perm.
  - destruct Hh as [-> ->]. by simplify_eq/=.
Qed.

Lemma take_next_held k mode (c : MailboxCell M) e st :
  take_next k mode (state c) = (Some e, st) ->
  message e :: held (set_state st c) ≡ₚ held c.
Proof.
  intros (_ & H)%take_next_Some. unfold held. destruct k.
  - destruct H as (q & Hq & ->). simpl. by rewrite Hq.
  - destruct H as (Hl & ->). simpl. rewrite Hl.
    change (message <$> option_list (Some e)) with [message e]. simpl. perm.
Qed.

Lemma receive_conserves c i mode r fx c' d :
  minv (mkWorld c d) -> receive c i mode = Ret (r, fx, c') ->
  held c' ++ option_list r ++ flushed fx ≡ₚ held c.
Proof.
  intros [Hi Hpr] Hs. unfold receive in Hs. simpl in Hs. unfold txn_state in Hs; simpl in Hs.
  destruct (receive_binding _ i mode) as [[b live]|] eqn:Eb.
  2:{ simplify_eq/=. by rewrite app_nil_r. }
  apply receive_binding_Some in Eb as (Hb & _ & Hlive & _).
  destruct (take_next _ mode (state c)) as [[e|] st] eqn:Et.
  2:{ simplify_eq/=. by rewrite app_nil_r. }
  pose proof (take_next_held _ _ _ _ _ Et) as Hh. rewrite <- Hh.
  destruct live.
  - destruct (promote_waiters b _) as [t'| |] eqn:Epr; simplify_eq/=.
    eapply promote_waiters_held in Epr as Hpro.
    + change (held_txn (on_state (fun _ => st) (txn_new c))) with
        (held (set_state st c) ++ []) in Hpro. rewrite app_nil_r in Hpro.
      rewrite <- Hpro, <- finish_held. perm.
    + exact (pinv_taken c b mode e st d Hb Et Hi).
    + unfold txn_state; simpl. apply take_next_Some in Et as (_ & Et). rewrite Hlive in * by done.
      destruct (binding_kind b); [by destruct Et as (? & _ & ->); apply Hlive|
        by destruct Et as (_ & ->); apply Hlive].
  - simplify_eq/=. apply (Permutation_app_comm _ [message e]).
Qed.

Lemma poll_conserves c op o replacement current r fx o' :
  operations c !! op = Some o -> op_poll o replacement current = Ret (r, fx, o') ->
  held (set_operation op o' c) ++ poll_out r ≡ₚ held c.
Proof.
  intros Ho Hp. unfold held. simpl.
  destruct (op_messages_update (operations c) op o o' Ho) as (rest & -> & ->).
  assert (Hm : option_list (op_message o') ++ poll_out r = option_list (op_message o)).
  { unfold op_poll, poll_once, slot_replace, op_message in *.
    destruct (op_outcome o) as [m n|i|m f|] eqn:Eo, replacement as [w|]; simpl in Hp;
      rewrite ?Eo in *; simpl in *; cases_in Hp; simplify_eq/=; rewrite ?Eo; done. }
  rewrite <- Hm. perm.
Qed.

Lemma withdraw_conserves c op dsp r fx c' :
  withdraw c op dsp = Ret (r, fx, c') ->
  held c' ++ withdrawal_out r ++ flushed fx ≡ₚ held c.
Proof.
  intros (o & Ho & -> & -> & Hr & Hnr)%withdraw_Ret. unfold held. simpl.
  destruct (op_messages_update (operations c) op o (mkOperation OpRetired None None) Ho)
    as (rest & -> & ->).
  assert (Hm : withdrawal_out r = option_list (op_message o)).
  { unfold op_message. rewrite Hr. by destruct (op_outcome o). }
  rewrite Hm. simpl. perm.
Qed.

(** Rewriting operations without touching their messages. *)
Lemma held_set_operation op o o' c :
  operations c !! op = Some o -> op_message o' = op_message o ->
  held (set_operation op o' c) ≡ₚ held c.
Proof. intros Ho Hm. unfold held. simpl. by rewrite (op_messages_same _ _ o). Qed.

Lemma observe_message i o : op_message (observe i o) = op_message o.
Proof. unfold observe, op_message. destruct (op_outcome o) eqn:E; rewrite ?E; done. Qed.

Lemma bind_conserves c token i r fx c' d :
  minv (mkWorld c d) -> bind c token i = Ret (r, fx, c') -> held c' ++ flushed fx ≡ₚ held c.
Proof.
  intros Hi H. unfold bind, txn_state in H. simpl in H.
  destruct (phase (state c)) as [|b|b|f] eqn:Ep; [|by destruct (kind (state c))..|].
  2:{ simplify_eq/=. by rewrite app_nil_r. }
  destruct (kind (state c)) as [k|] eqn:Ek; [|done].
  destruct (claim token (bind_permit (state c)) c) as [[] c1] eqn:Ec; [|done].
  destruct (bind_pinv c token i k c1 d (proj1 Hi) Ep Ek Ec) as [Hi2 Hp2].
  destruct (promote_waiters _ _) as [t'| |] eqn:Epr; simplify_eq/=.
  eapply promote_waiters_held in Epr; [|exact Hi2|exact Hp2].
  rewrite flushed_flush. simpl. fold (held_txn t'). rewrite Epr. unfold held_txn. simpl.
  rewrite app_nil_r.
  apply (observe_all_ind i _ _ (fun c3 => held c3 ≡ₚ held c)).
  - unfold claim in Ec. destruct (_ =? _); [|done].
    destruct (permits c !! permit token) as [[]|]; simplify_eq; done.
  - intros c3 op o Hc3 Ho. rewrite <- Hc3. apply (held_set_operation op o); [done|].
    apply observe_message.
Qed.

Lemma discharge_conserves d c fx d' c' :
  discharge_next d c = (fx, d', c') -> held c' ≡ₚ held c.
Proof.
  unfold discharge_next. intros H.
  destruct (pop_front (teardown_waiters d)) as [[[id op]|] w]; [|by simplify_eq].
  unfold update_operation in H. destruct (operations c !! op) as [o|] eqn:Eo.
  - rewrite set_operation_lookup in H.
    destruct (op_terminate _ _) as [fx0 o'] eqn:Et. simplify_eq. rewrite set_operation_twice.
    apply (held_set_operation op o); [done|].
    unfold op_terminate, clear_registration, op_message in *.
    destruct (op_outcome o) eqn:Eout; simpl in *; cases_in Et; simplify_eq/=; by rewrite ?Eout.
  - rewrite Eo in H. by simplify_eq.
Qed.

Lemma mexec_conserves w x out w' :
  minv w -> mexec w x = Ret (out, w') ->
  held (w_cell w') ++ out ≡ₚ held (w_cell w) ++ sent x.
Proof.
  destruct w as [c d]. intros Hi H.
  destruct x as [m|m|i mode|op rp cur|op dsp|k|token i|i|i| |];
    cbn [mexec w_cell w_teardown sent] in *; rewrite ?app_nil_r.
  - destruct (submit c m) as [[[r fx] c1]| |] eqn:E; simplify_eq/=. by eapply submit_conserves.
  - destruct (try_send c m) as [[[r fx] c1]| |] eqn:E; simplify_eq/=. by eapply try_send_conserves.
  - destruct (receive c i mode) as [[[r fx] c1]| |] eqn:E; simplify_eq/=.
    by eapply receive_conserves.
  - destruct (operations c !! op) as [o|] eqn:Eo; simpl in H; [|done].
    destruct (op_poll o rp cur) as [[[r fx] o']| |] eqn:E; simplify_eq/=. by eapply poll_conserves.
  - destruct (withdraw c op dsp) as [[[r fx] c1]| |] eqn:E; simplify_eq/=.
    by eapply withdraw_conserves.
  - destruct (configure c k) as [[[r fx] c1]| |] eqn:E; simplify_eq/=.
    unfold configure, configure_kind, txn_state in E. simpl in E.
    destruct (kind (state c)); simpl in E; [case_bool_decide; [|done]|]; simplify_eq/=;
      by rewrite app_nil_r.
  - destruct (bind c token i) as [[[r fx] c1]| |] eqn:E; simplify_eq/=. by eapply bind_conserves.
  - unfold freeze, txn_state in H. simpl in H.
    destruct (phase (state c)); simpl in H; try case_bool_decide; simplify_eq/=; by rewrite app_nil_r.
  - unfold close, txn_state in H. simpl in H. case_bool_decide; simplify_eq/=.
    + unfold held, txn_state. simpl. rewrite !fmap_app. rewrite app_nil_r. perm.
    + by rewrite app_nil_r.
  - unfold prepare_termination, txn_state in H. simpl in H.
    destruct (phase (state c)); simplify_eq/=; try (by rewrite app_nil_r);
      unfold held, txn_state; simpl; rewrite !fmap_app, app_nil_r; perm.
  - destruct d as [d|]; [|by simplify_eq; rewrite app_nil_r].
    destruct (discharge_next d c) as [[fx d'] c1] eqn:E. simplify_eq/=. rewrite app_nil_r.
    by eapply discharge_conserves.
Qed.

(** All messages handed to the mailbox, and all it released, over a run. *)
Definition all_sent (tr : list (mailbox_op (M := M) * list M)) : list M :=
  concat ((fun x => sent x.1) <$> tr).
Definition all_released (tr : list (mailbox_op (M := M) * list M)) : list M := concat tr.*2.

(** C4: no message is ever lost or duplicated: over any run, the messages sent
    are exactly the messages delivered, returned or disposed of, together
    with those the mailbox and its send operations still hold. *)
Theorem mailbox_conservation id tr (w : world (M := M)) :
  mrun id tr w -> all_sent tr ≡ₚ all_released tr ++ held (w_cell w).
Proof.
  induction 1 as [|tr w x out w' Hr IH He]; [done|].
  pose proof (mexec_conserves _ _ _ _ (mrun_inv _ _ _ Hr) He) as Hc.
  unfold all_sent, all_released in *. rewrite !fmap_app, !concat_app. simpl. rewrite !app_nil_r.
  rewrite IH. rewrite <- !app_assoc. apply Permutation_app_head.
  rewrite <- Hc. perm.
Qed.
End props.
