(* ===== verification/MailboxOrder.v ===== *)
(** * Order and outcomes of mailbox operations

    A queue mailbox serves one line: the queued messages followed by the
    messages of the parked senders, oldest first. *)

From S2P Require Import Prelude BTree Identity Policy Mailbox MailboxInv MailboxErrors MailboxProps.

Section order.
Context {M : Type}.
Implicit Types (c : MailboxCell M) (t : MailboxTxn M) (o : OperationState M).

(** ** The line *)

(** The message parked under a registration. *)
Definition parked_message c (id : Z) : option M :=
  match entries (waiters (state c)) !! id with
  | Some op => match operations c !! op with Some o => op_message o | None => None end
  | None => None
  end.

Definition parked c : list M := omap (parked_message c) (bt_keys (entries (waiters (state c)))).

Definition line c : list M := (message <$> queue (state c)) ++ parked c.

Lemma omap_ext_in {A B} (f g : A -> option B) (l : list A) :
  (forall x, x ∈ l -> f x = g x) -> omap f l = omap g l.
Proof.
  induction l as [|x l IH]; intros H; [done|].
  assert (E : omap f l = omap g l) by (apply IH; intros y Hy; apply H; by right).
  unfold omap in *. simpl. rewrite (H x) by left. by rewrite E.
Qed.

Lemma parked_empty c : entries (waiters (state c)) = ∅ -> parked c = [].
Proof. intros H. unfold parked. by rewrite H. Qed.

Lemma parked_set_operation op o o' c :
  operations c !! op = Some o -> op_message o' = op_message o ->
  parked (set_operation op o' c) = parked c.
Proof.
  intros Ho Hm. unfold parked. simpl. apply omap_ext_in. intros id _. unfold parked_message. simpl.
  destruct (entries (waiters (state c)) !! id) as [q|]; [|done].
  destruct (decide (q = op)) as [->|Hne].
  - by rewrite lookup_insert_eq, Ho.
  - by rewrite lookup_insert_ne.
Qed.

(** Removing one registered operation from the queue and the store. *)
Lemma parked_without c c' id op o o' d :
  pinv (mkWorld c d) ->
  entries (waiters (state c)) !! id = Some op -> operations c !! op = Some o ->
  entries (waiters (state c')) = delete id (entries (waiters (state c))) ->
  operations c' = <[op := o']> (operations c) ->
  parked c' = omap (parked_message c)
    (filter (fun j => j ≠ id) (bt_keys (entries (waiters (state c))))).
Proof.
  intros Hi Hop Ho He Hops. unfold parked. rewrite He, bt_keys_delete. apply omap_ext_in.
  intros j [Hne [q Hq]%elem_of_bt_keys]%list_elem_of_filter. unfold parked_message.
  rewrite He, Hops, lookup_delete_ne, Hq by done. rewrite lookup_insert_ne; [done|].
  intros <-. destruct (pi_entries _ Hi id op Hop) as (_ & x & Hx & _ & Hxr).
  destruct (pi_entries _ Hi j op Hq) as (_ & y & Hy & _ & Hyr). simpl in *. congruence.
Qed.

(** The oldest waiter's message comes first. *)
Lemma parked_first c id op o m n d :
  pinv (mkWorld c d) -> bt_first (entries (waiters (state c))) = Some id ->
  entries (waiters (state c)) !! id = Some op -> operations c !! op = Some o ->
  op_outcome o = OpWaiting m n ->
  parked c = m :: omap (parked_message c)
    (filter (fun j => j ≠ id) (bt_keys (entries (waiters (state c))))).
Proof.
  intros Hi Hf Hop Ho Hm. unfold parked. rewrite <- bt_keys_delete.
  rewrite (bt_first_cons _ _ Hf) at 1. cbn. unfold parked_message at 1. rewrite Hop, Ho.
  unfold op_message. by rewrite Hm.
Qed.

(** ** Promotion keeps the line *)

Lemma promote_waiters_line b cap d t t' :
  pinv (mkWorld (cell t) d) -> phase (txn_state t) = Phase.Bound b ->
  binding_kind b = ResolvedQueue cap ->
  promote_waiters b t = Ret t' -> line (cell t') = line (cell t).
Proof.
  intros Hi Hp Hk Hpr.
  refine (proj2 (proj2 (proj2 (promote_loop_ind b d (fun t t' => line (cell t') = line (cell t))
    _ _ _ _ _ (Nat.lt_succ_diag_r _) Hi Hp Hpr)))).
  - done.
  - intros t0 id op o m n t1 t2 Hi0 _ _ Hf Hop Ho Hm _ Hpush ->.
    apply push_accepted_Ret in Hpush as (Hc & _). rewrite Hk in Hc. unfold line.
    rewrite (parked_first (cell t0) id op o m n d Hi0 Hf Hop Ho Hm).
    rewrite (parked_without (cell t0) (cell t1) id op o
      (mkOperation (OpAccepted (binding_incarnation b)) None None) d Hi0 Hop Ho);
      [|by rewrite Hc..].
    rewrite Hc. simpl. rewrite fmap_app. simpl. by rewrite <- app_assoc.
Qed.

(** ** Sending *)

Lemma park_line t m n op t' d :
  pinv (mkWorld (cell t) d) -> park t m n = Ret (op, t') -> line (cell t') = line (cell t) ++ [m].
Proof.
  intros Hi (Hop & _ & Hc)%park_Ret. unfold txn_state in *.
  set (id := MonotonicCounter.current (waiter_ids (waiters (state (cell t)))) + 1) in *.
  assert (Hlast : forall j, is_Some (entries (waiters (state (cell t))) !! j) -> j < id).
  { intros j [q Hq]. apply (pi_entries _ Hi) in Hq as [Hq _]. simpl in Hq. unfold id. lia. }
  unfold line, parked. rewrite Hc. simpl. rewrite bt_keys_insert_last by done.
  rewrite omap_app. simpl. unfold parked_message at 2. simpl.
  rewrite lookup_insert_eq, Hop, lookup_insert_eq. simpl. rewrite app_assoc. f_equal. f_equal.
  apply omap_ext_in. intros j Hj%elem_of_bt_keys. unfold parked_message. simpl.
  pose proof (Hlast j Hj). destruct Hj as [q Hq].
  rewrite lookup_insert_ne, Hq by lia. rewrite lookup_insert_ne; [done|].
  destruct (pi_entries _ Hi j q Hq) as (_ & x & Hx & _). intros <-.
  pose proof (pi_heap _ Hi (next_operation (cell t)) ltac:(eauto)) as Hlt. simpl in Hlt. lia.
Qed.

Lemma accept_line t b cap m i t' d :
  minv (mkWorld (cell t) d) -> phase (txn_state t) = Phase.Bound b ->
  binding_kind b = ResolvedQueue cap ->
  accept_locked t b m = Ret (Ok i, t') -> line (cell t') = line (cell t) ++ [m].
Proof.
  intros Hi Hp Hk Ha. apply (accept_locked_inv _ _ _ _ _ _ Hi Hp) in Ha.
  destruct Ha as (_ & _ & Hw & He & _ & t1 & Ht1 & ->).
  apply push_accepted_Ret in Ht1 as (Hc & _). rewrite Hk in Hc. unfold line, txn_state in *.
  simpl in *. rewrite (parked_empty (cell t)), (parked_empty (cell t1)) by (by rewrite <- ?Hw).
  rewrite !app_nil_r, Hc. simpl. by rewrite fmap_app.
Qed.

(** The kind of a live queue mailbox. *)
Lemma live_kind c d b cap :
  pinv (mkWorld c d) -> kind (state c) = Some (ResolvedQueue cap) ->
  live_binding (phase (state c)) = Some b -> binding_kind b = ResolvedQueue cap.
Proof. intros Hi Hk Hb. destruct (pi_kind _ Hi b Hb) as [H _]. simpl in H. congruence. Qed.

(** *** The line, operation by operation *)

Section line_steps.
Context (c : MailboxCell M) (d : option (MailboxTeardown M)) (cap : positive).
Context (Hi : minv (mkWorld c d)) (Hk : kind (state c) = Some (ResolvedQueue cap)).

Lemma submit_line m r fx c' :
  submit c m = Ret (r, fx, c') ->
  match r with
  | SubTerminated m' _ => m' = m /\ c' = c
  | SubAccepted _ | SubParked _ => line c' = line c ++ [m]
  end.
Proof using Hi Hk.
  intros Hs. pose proof Hi as [Hp Hpr]. unfold submit, txn_state in Hs. simpl in Hs.
  destruct (phase (state c)) as [|b|b|f] eqn:Ep.
  - destruct (park _ m None) as [[op t]| |] eqn:E; simplify_eq/=.
    by apply (park_line (txn_new c) m None op t d).
  - assert (Hbk : binding_kind b = ResolvedQueue cap)
      by (apply (live_kind c d); [done|done|by rewrite Ep]).
    destruct (accept_locked _ b m) as [[r1 t1]| |] eqn:Ea; simpl in Hs; [|done..].
    pose proof (accept_locked_inv (txn_new c) b m r1 t1 d Hi Ep Ea) as Hinv.
    destruct r1 as [i|m'].
    + simplify_eq/=. by eapply (accept_line (txn_new c)).
    + destruct Hinv as (-> & -> & _). destruct (park _ m _) as [[op t]| |] eqn:E; simplify_eq/=.
      by apply (park_line (txn_new c) m (Some (binding_incarnation b)) op t d).
  - destruct (park _ m _) as [[op t]| |] eqn:E; simplify_eq/=.
    by apply (park_line (txn_new c) m (Some (binding_incarnation b)) op t d).
  - by simplify_eq/=.
Qed.

Lemma try_send_line m r fx c' :
  try_send c m = Ret (r, fx, c') ->
  match r with
  | Ok _ => line c' = line c ++ [m]
  | Err e => error_message e = m /\ c' = c
  end.
Proof using Hi Hk.
  intros Hs. pose proof Hi as [Hp Hpr]. unfold try_send, txn_state in Hs. simpl in Hs.
  destruct (phase (state c)) as [|b|b|f] eqn:Ep; [by simplify_eq/=| |by simplify_eq/=..].
  assert (Hbk : binding_kind b = ResolvedQueue cap)
    by (apply (live_kind c d); [done|done|by rewrite Ep]).
  destruct (accept_locked _ b m) as [[r1 t1]| |] eqn:Ea; simpl in Hs; [|done..].
  pose proof (accept_locked_inv (txn_new c) b m r1 t1 d Hi Ep Ea) as Hinv.
  destruct r1 as [i|m'].
  - simplify_eq/=. by eapply (accept_line (txn_new c)).
  - destruct Hinv as (-> & -> & _). by simplify_eq/=.
Qed.

Lemma receive_line i mode r fx c' :
  receive c i mode = Ret (r, fx, c') ->
  match r with Some m => line c = m :: line c' | None => c' = c end.
Proof using Hi Hk.
  intros Hs. pose proof Hi as [Hp Hpr]. unfold receive, txn_state in Hs. simpl in Hs.
  destruct (receive_binding _ i mode) as [[b live]|] eqn:Eb; [|by simplify_eq/=].
  apply receive_binding_Some in Eb as (Hb & _ & Hlive & _).
  assert (Hbk : binding_kind b = ResolvedQueue cap) by (by eapply live_kind).
  destruct (take_next _ mode (state c)) as [[e|] st] eqn:Et; [|by simplify_eq/=].
  pose proof (pinv_taken c b mode e st d Hb Et Hp) as Hp'.
  apply take_next_Some in Et as (_ & Et). rewrite Hbk in Et. destruct Et as (q & Hq & ->).
  assert (Hline : line c = message e :: line (set_state (set_queue q (state c)) c)).
  { unfold line. by rewrite Hq. }
  destruct live; [|by simplify_eq/=].
  destruct (promote_waiters b _) as [t'| |] eqn:Epr; simplify_eq/=.
  rewrite Hline. f_equal. symmetry.
  eapply (promote_waiters_line b cap d) in Epr; [exact Epr|exact Hp'| |done].
  unfold txn_state. simpl. auto.
Qed.

Lemma bind_line token i r fx c' : bind c token i = Ret (r, fx, c') -> line c' = line c.
Proof using Hi Hk.
  intros Hb. pose proof Hi as [Hp Hpr]. unfold bind, txn_state in Hb. simpl in Hb.
  destruct (phase (state c)) as [|b|b|f] eqn:Ep; [|by destruct (kind (state c))..|by simplify_eq/=].
  rewrite Hk in Hb.
  destruct (claim token (bind_permit (state c)) c) as [[] c1] eqn:Ec; [|done].
  destruct (bind_pinv c token i (ResolvedQueue cap) c1 d Hp Ep Hk Ec) as [Hi2 Hp2].
  destruct (promote_waiters _ _) as [t'| |] eqn:Epr; simplify_eq/=.
  eapply (promote_waiters_line _ cap d) in Epr; [|exact Hi2|exact Hp2|done].
  rewrite Epr. simpl. apply (observe_all_ind i _ _ (fun c3 => line c3 = line c)).
  - unfold claim in Ec. destruct (_ =? _); [|done].
    destruct (permits c !! permit token) as [[]|]; simplify_eq; done.
  - intros c3 op o Hc3 Ho. rewrite <- Hc3. unfold line. simpl.
    by rewrite (parked_set_operation op o _ c3 Ho (observe_message i o)).
Qed.

Lemma close_line i cl fx c' :
  close c i = (Some cl, fx, c') ->
  close_disposal cl = queue (state c) /\ queue (state c') = [] /\ parked c' = parked c.
Proof using Hi Hk.
  intros Hc. pose proof Hi as [Hp Hpr]. unfold close, txn_state in Hc. simpl in Hc.
  case_bool_decide as Hobs; [|done].
  assert (Hl : latest (state c) = None).
  { destruct (live_binding (phase (state c))) as [b|] eqn:Eb; [|by destruct (phase (state c))].
    pose proof (pi_buffer _ Hp) as Hbuf. unfold buffer_ok in Hbuf. simpl in Hbuf.
    rewrite Eb, (live_kind c d b cap Hp Hk Eb) in Hbuf. by destruct Hbuf. }
  unfold finish, txn_state in Hc. simpl in Hc. simplify_eq/=.
  by rewrite Hl, app_nil_r.
Qed.
End line_steps.

(** C11: a queue mailbox is one FIFO line across its queue and its parked
    senders.  Sending to a mailbox that is not terminal appends to the line
    (or, for [try_send], fails and leaves it alone); receiving takes the
    head; binding a new incarnation promotes parked senders without
    reordering anything; closing hands out the whole queued prefix for disposal
    and leaves the queue empty and the parked senders in their order, and
    closing for another incarnation than the bound one changes nothing. *)
Theorem mailbox_fifo id tr (w : world (M := M)) cap :
  mrun id tr w -> kind (state (w_cell w)) = Some (ResolvedQueue cap) ->
  let c := w_cell w in
  (forall m r fx c', submit c m = Ret (r, fx, c') ->
     match r with
     | SubTerminated m' _ => m' = m /\ c' = c
     | SubAccepted _ | SubParked _ => line c' = line c ++ [m]
     end) /\
  (forall m r fx c', try_send c m = Ret (r, fx, c') ->
     match r with
     | Ok _ => line c' = line c ++ [m]
     | Err e => error_message e = m /\ c' = c
     end) /\
  (forall i mode r fx c', receive c i mode = Ret (r, fx, c') ->
     match r with
     | Some m => line c = m :: line c'
     | None => c' = c
     end) /\
  (forall token i r fx c', bind c token i = Ret (r, fx, c') -> line c' = line c) /\
  (forall i r fx c', close c i = (r, fx, c') ->
     match r with
     | Some cl =>
         Phase.observation (phase (state c)) = Some i /\
         close_disposal cl = queue (state c) /\ line c' = parked c
     | None => Phase.observation (phase (state c)) ≠ Some i /\ c' = c
     end).
Proof.
  intros Hr%mrun_inv Hk. destruct w as [c d]. simpl in *.
  split_and!; intros; [by eapply submit_line|by eapply try_send_line|by eapply receive_line
                      |by eapply bind_line|].
  destruct r as [cl|].
  - destruct (close_line c d cap Hr Hk _ _ _ _ H) as (? & Hq & Hpk). split_and!; [|done|unfold line; by rewrite Hq].
    unfold close in H. by case_bool_decide.
  - unfold close in H. case_bool_decide; [done|]. by injection H as _ ->.
Qed.

(** ** Receiving *)

(** The envelope a binding would deliver next. *)
Definition next_envelope (k : ResolvedMailbox) (st : MailboxState M) : option (Envelope M) :=
  match k with ResolvedQueue _ => head (queue st) | ResolvedLatest => latest st end.

(** A receive delivers the next envelope of the receiver's own incarnation
    when the receive mode admits its sequence number, and nothing otherwise: a
    stale incarnation, an unbound or a terminal mailbox deliver nothing, a
    frozen one only to a drain, and a live-through receive nothing accepted
    after its limit. *)
Theorem receive_exact c i mode r fx c' :
  receive c i mode = Ret (r, fx, c') ->
  r = match receive_binding (phase (state c)) i mode with
      | Some (b, _) =>
          match next_envelope (binding_kind b) (state c) with
          | Some e => if mode_accepts mode (accepted_sequence e) then Some (message e) else None
          | None => None
          end
      | None => None
      end.
Proof.
  intros Hs. unfold receive, txn_state in Hs. simpl in Hs.
  destruct (receive_binding _ i mode) as [[b live]|]; [|by simplify_eq/=].
  assert (Hn : fst (take_next (binding_kind b) mode (state c)) =
    match next_envelope (binding_kind b) (state c) with
    | Some e => if mode_accepts mode (accepted_sequence e) then Some e else None
    | None => None end).
  { unfold take_next, next_envelope. destruct (binding_kind b).
    - destruct (queue (state c)); simpl; [done|]. by destruct (mode_accepts _ _).
    - destruct (latest (state c)); simpl; [|done]. by destruct (mode_accepts _ _). }
  destruct (take_next _ mode _) as [[e|] st]; simpl in Hn.
  - assert (Hm : r = Some (message e)).
    { destruct (if live then _ else _) as [t'| |]; by simplify_eq/=. }
    rewrite Hm. cases_in Hn; by simplify_eq/=.
  - simplify_eq/=. cases_in Hn; done.
Qed.

(** ** Latest-value mailboxes *)

(** A live latest-value mailbox never parks a sender: until the sequence
    counter is exhausted every send is accepted, becomes the stored value,
    releases exactly the value it replaces, and is what the next drain of
    that incarnation receives. *)
Theorem latest_replaces id tr (w : world (M := M)) b m :
  mrun id tr w -> phase (state (w_cell w)) = Phase.Bound b ->
  binding_kind b = ResolvedLatest -> accepted_count (w_cell w) < u64_max ->
  exists fx c', submit (w_cell w) m = Ret (SubAccepted (binding_incarnation b), fx, c') /\
    message <$> latest (state c') = Some m /\
    flushed fx = message <$> option_list (latest (state (w_cell w))) /\
    exists fx' c'', receive c' (binding_incarnation b) Drain = Ret (Some m, fx', c'') /\
      latest (state c'') = None.
Proof.
  intros Hr Hb Hk Hn. pose proof (mrun_inv _ _ _ Hr) as [Hi Hpr]. destruct w as [c d]. simpl in *.
  assert (He : entries (waiters (state c)) = ∅).
  { destruct (decide (entries (waiters (state c)) = ∅)) as [|Hne]; [done|].
    specialize (Hpr b Hb Hne). by rewrite Hk in Hpr. }
  assert (Hmint : AtomicMonotonicCounter.mint (accepted c) =
    Ret (accepted_count c + 1, AtomicMonotonicCounter.mk (accepted_count c + 1))).
  { apply atomic_mint_Ret. split_and!; [done|lia|done]. }
  set (e := mkEnvelope m (accepted_count c + 1)).
  set (c' := set_state (set_latest (Some e) (state c))
    (set_accepted (AtomicMonotonicCounter.mk (accepted_count c + 1)) c)).
  assert (Hs : submit c m = Ret (SubAccepted (binding_incarnation b),
    flush (mkPayload true (option_list (latest (state c))) false []), c')).
  { unfold submit, accept_locked, waiters_empty, push_accepted, txn_state. simpl.
    rewrite Hb. simpl. rewrite (bool_decide_eq_true_2 _ He), Hk. simpl.
    rewrite Hmint. simpl. unfold txn_state. simpl. by destruct (latest (state c)). }
  eexists _, c'. split; [exact Hs|]. split; [done|]. split; [by rewrite flushed_flush|].
  assert (Hp' : promote_waiters b (on_state (fun _ => set_latest None (state c')) (txn_new c'))
    = Ret (on_state (fun _ => set_latest None (state c')) (txn_new c'))).
  { unfold promote_waiters. cbn [promote_loop]. rewrite Hk. cbn [queue_full].
    unfold pop_front, txn_state. simpl. by rewrite He. }
  eexists _, _. split.
  - unfold receive, txn_state. simpl. rewrite Hb. simpl.
    rewrite bool_decide_true by done. simpl. rewrite Hk. simpl.
    unfold txn_state in Hp'. simpl in Hp'. rewrite Hp'. done.
  - done.
Qed.

(** ** Non-blocking sends *)

(** A non-blocking send reports why it failed from one consistent snapshot
    of the mailbox, with the incarnation the error table asks for, hands the
    message back and changes nothing; it succeeds exactly when a bound
    mailbox has room. *)
Theorem try_send_verdict id tr (w : world (M := M)) m :
  mrun id tr w -> accepted_count (w_cell w) < u64_max ->
  let c := w_cell w in
  let fail observed k :=
    try_send c m = Ret (Err (mkSendError (actor_id c) observed m k), [], c) in
  match phase (state c) with
  | Phase.Terminal final => fail final Terminated
  | Phase.Unbound => fail None NotRunning
  | Phase.Frozen b => fail (Some (binding_incarnation b)) NotRunning
  | Phase.Bound b =>
      if queue_full (binding_kind b) (state c)
      then fail (Some (binding_incarnation b)) Full
      else exists fx c', try_send c m = Ret (Ok (binding_incarnation b), fx, c')
  end.
Proof.
  intros Hr Hn. pose proof (mrun_inv _ _ _ Hr) as [Hi Hpr]. destruct w as [c d]. simpl in *.
  unfold try_send, txn_state. simpl. destruct (phase (state c)) as [|b|b|f] eqn:Ep; try done.
  unfold accept_locked, waiters_empty, txn_state. simpl.
  destruct (queue_full (binding_kind b) (state c)) eqn:Ef.
  { by destruct (negb _). }
  assert (He : entries (waiters (state c)) = ∅).
  { destruct (decide (entries (waiters (state c)) = ∅)) as [|Hne]; [done|].
    specialize (Hpr b Ep Hne). congruence. }
  rewrite (bool_decide_eq_true_2 _ He). simpl. unfold push_accepted. simpl.
  assert (Hmint : AtomicMonotonicCounter.mint (accepted c) =
    Ret (accepted_count c + 1, AtomicMonotonicCounter.mk (accepted_count c + 1))).
  { apply atomic_mint_Ret. split_and!; [done|lia|done]. }
  rewrite Hmint. simpl. eauto.
Qed.

(** ** Withdrawal *)

Lemma filter_once (l : list Z) id :
  NoDup l -> id ∈ l -> exists a b, l = a ++ id :: b /\ filter (fun j => j ≠ id) l = a ++ b.
Proof.
  intros Hnd (a & b & ->)%list_elem_of_split. exists a, b. split; [done|].
  apply NoDup_app in Hnd as (_ & Ha & Hb). apply NoDup_cons in Hb as [Hb _].
  rewrite filter_app, filter_cons_False by tauto. f_equal; apply filter_app_all;
    rewrite Forall_forall; intros x Hx ->; [by apply (Ha id Hx); left|done].
Qed.

Section withdrawal_line.
Context (c : MailboxCell M) (d : option (MailboxTeardown M)) (Hi : pinv (mkWorld c d)).
Context (op : Z) (o : OperationState M) (Ho : operations c !! op = Some o).

(** Retiring an operation that is not registered leaves the line alone. *)
Lemma retire_unregistered :
  op_registration o = None ->
  parked (set_state (set_waiters (waiters (state c)) (state c))
    (set_operation op (mkOperation OpRetired None None) c)) = parked c.
Proof using Hi Ho.
  intros Hnone. unfold parked. simpl. apply omap_ext_in. intros i [q Hq]%elem_of_bt_keys.
  unfold parked_message. simpl. rewrite Hq. rewrite lookup_insert_ne; [done|].
  intros <-. apply (queued_registered c d Hi op o Ho) in Hq. congruence.
Qed.

(** Removing a queued operation takes exactly its message out of the line. *)
Lemma parked_removed c' i o' m n :
  entries (waiters (state c)) !! i = Some op -> op_outcome o = OpWaiting m n ->
  entries (waiters (state c')) = delete i (entries (waiters (state c))) ->
  operations c' = <[op := o']> (operations c) ->
  exists a b, parked c = a ++ m :: b /\ parked c' = a ++ b.
Proof using Hi Ho.
  intros He Eo Hw Hops.
  destruct (filter_once (bt_keys (entries (waiters (state c)))) i) as (a & b & Hab & Hf).
  { apply bt_keys_NoDup. }
  { apply elem_of_bt_keys. eauto. }
  exists (omap (parked_message c) a), (omap (parked_message c) b). split.
  - unfold parked at 1. rewrite Hab, omap_app. f_equal. simpl.
    unfold parked_message at 1. rewrite He, Ho. unfold op_message. by rewrite Eo.
  - rewrite (parked_without c c' i op o o' d Hi He Ho Hw Hops). by rewrite Hf, omap_app.
Qed.
End withdrawal_line.

(** Withdrawing a live send operation never trips the mailbox's assertions.
    A parked sender gets its message back with the newest incarnation it
    observed and leaves the line without disturbing the order of the others;
    an operation that was already accepted or terminated reports that, and
    the line is untouched. *)
Theorem withdraw_exact id tr (w : world (M := M)) op o dsp :
  mrun id tr w -> operations (w_cell w) !! op = Some o -> op_outcome o ≠ OpRetired ->
  let c := w_cell w in
  exists r fx c', withdraw c op dsp = Ret (r, fx, c') /\
    (forall i, entries (waiters (state c')) !! i ≠ Some op) /\
    queue (state c') = queue (state c) /\
    match op_outcome o with
    | OpWaiting m newest =>
        r = Withdrawn m (option_or newest (Phase.observation (phase (state c)))) /\
        (is_terminal (phase (state c)) = true \/
         exists a b, parked c = a ++ m :: b /\ parked c' = a ++ b)
    | OpAccepted i => r = WithdrawalAccepted i /\ parked c' = parked c
    | OpTerminated m final => r = WithdrawalTerminated m final /\ parked c' = parked c
    | OpRetired => False
    end.
Proof.
  intros Hr Ho Hnr. pose proof (mrun_inv _ _ _ Hr) as [Hi _]. destruct w as [c d]. simpl in *.
  destruct (withdraw_returns c d Hi op o Ho dsp Hnr) as (r & fx & c' & E).
  exists r, fx, c'. split; [done|].
  apply withdraw_Ret in E as (o' & Ho' & -> & _ & Hres & _). simplify_eq. simpl.
  pose proof (queued_registered c d Hi op o Ho) as Hgone.
  pose proof (waiting_registered c d Hi op o Ho) as Hwait.
  split_and!; [|done|].
  - intros i He. destruct (op_registration o) as [k|] eqn:Ek; simpl in He.
    + apply lookup_delete_Some in He as [Hne He]. apply Hgone in He. congruence.
    + apply Hgone in He. congruence.
  - unfold is_waiting in Hwait. destruct (op_outcome o) as [m n|i|m f|] eqn:Eo; [|..|done].
    2,3: assert (Hnone : op_registration o = None)
        by (apply eq_None_not_Some; intros [=]%Hwait);
      rewrite Hnone; split; [done|by eapply retire_unregistered].
    split; [done|]. destruct (proj1 Hwait eq_refl) as [i Hri]. rewrite Hri.
    destruct (registered_queued c d Hi op o Ho i Hri) as [He|Ht]; [right|by left].
    by eapply (parked_removed c d Hi op o Ho _ i (mkOperation OpRetired None None) m n).
Qed.

(** ** Termination *)

(** What discharging does to each operation. *)
Definition discharged (final : option Incarnation) c c' : Prop :=
  forall op o, operations c !! op = Some o ->
  exists o', operations c' !! op = Some o' /\
    (op_outcome o' = op_outcome o \/
     exists m n, op_outcome o = OpWaiting m n /\ op_outcome o' = OpTerminated m final).

Lemma discharged_refl final c : discharged final c c.
Proof. intros op o Ho. eauto. Qed.

Lemma discharged_trans final c1 c2 c3 :
  discharged final c1 c2 -> discharged final c2 c3 -> discharged final c1 c3.
Proof.
  intros H1 H2 op o Ho. destruct (H1 op o Ho) as (o2 & Ho2 & E2).
  destruct (H2 op o2 Ho2) as (o3 & Ho3 & E3). exists o3. split; [done|].
  destruct E2 as [E2|(m & n & Em & E2)], E3 as [E3|(m' & n' & Em' & E3)].
  - left. congruence.
  - right. exists m', n'. split; congruence.
  - right. exists m, n. split; congruence.
  - congruence.
Qed.

Lemma discharge_next_discharged d c fx d' c' :
  discharge_next d c = (fx, d', c') ->
  discharged (teardown_final d) c c' /\ teardown_final d' = teardown_final d /\
  teardown_payload d' = teardown_payload d.
Proof.
  unfold discharge_next. intros H.
  destruct (pop_front (teardown_waiters d)) as [[[id op]|] w];
    [|simplify_eq; split; [apply discharged_refl|done]].
  destruct (operations c !! op) as [o|] eqn:Eo.
  - rewrite (update_operation_eq clear_registration op o c Eo), set_operation_lookup in H.
    destruct (op_terminate _ _) as [fx0 o'] eqn:Et. simplify_eq/=. rewrite set_operation_twice.
    split; [|done]. intros q x Hx. simpl. destruct (decide (q = op)) as [->|Hne].
    + rewrite lookup_insert_eq. rewrite Eo in Hx. injection Hx as <-. eexists. split; [done|].
      unfold op_terminate, clear_registration in Et. simpl in Et.
      destruct (op_outcome o) as [m n|i|m f|] eqn:Ex.
      * destruct (slot_take _ _ []) as [slot fx1]. simplify_eq/=. right. eauto.
      * simplify_eq/=. by left.
      * simplify_eq/=. by left.
      * simplify_eq/=. by left.
    + rewrite lookup_insert_ne by done. eauto.
  - unfold update_operation in H. rewrite !Eo in H. simplify_eq/=.
    split; [apply discharged_refl|done].
Qed.

Lemma discharge_next_size d c x d' c' :
  discharge_next d c = (Some x, d', c') ->
  size (entries (teardown_waiters d)) = S (size (entries (teardown_waiters d'))).
Proof.
  unfold discharge_next. intros H.
  destruct (pop_front (teardown_waiters d)) as [[[id op]|] w] eqn:Ep; [|done].
  apply pop_front_Some in Ep as (_ & Hop & ->).
  assert (Hs : teardown_waiters d' =
    mkWaiters (delete id (entries (teardown_waiters d))) (waiter_ids (teardown_waiters d))).
  { destruct (operations _ !! op); [destruct (op_terminate _ _)|]; by simplify_eq/=. }
  rewrite Hs. simpl. rewrite map_size_delete_Some by eauto.
  assert (size (entries (teardown_waiters d)) ≠ 0%nat)
    by (eapply map_size_ne_0_lookup_2; eauto). lia.
Qed.

Lemma discharge_loop_all fuel d c retired fxs d' c' :
  minv (mkWorld c (Some d)) -> (size (entries (teardown_waiters d)) < fuel)%nat ->
  discharge_loop fuel d c = (retired, fxs, d', c') ->
  minv (mkWorld c' (Some d')) /\ entries (teardown_waiters d') = ∅ /\
  discharged (teardown_final d) c c' /\ teardown_payload d' = teardown_payload d.
Proof.
  revert d c retired fxs. induction fuel as [|fuel IH]; intros d c retired fxs Hi Hsz H; [lia|].
  simpl in H. destruct (discharge_next d c) as [[[[op fx]|] d1] c1] eqn:E.
  - destruct (discharge_loop fuel d1 c1) as [[[r1 f1] d2] c2] eqn:El. simplify_eq.
    pose proof (discharge_next_size _ _ _ _ _ E) as Hs.
    destruct (discharge_next_discharged _ _ _ _ _ E) as (Hd & Hf & Hp).
    destruct (IH d1 c1 r1 f1) as (H1 & H2 & H3 & H4); [by eapply minv_discharge|lia|done|].
    split_and!; [done|done|rewrite <- Hf in *; by eapply discharged_trans|congruence].
  - simplify_eq. unfold discharge_next in E.
    destruct (pop_front (teardown_waiters d)) as [[[id op]|] w] eqn:Ep.
    + destruct (operations _ !! op); [destruct (op_terminate _ _)|]; done.
    + apply pop_front_None in Ep as [He _]. simplify_eq.
      split_and!; [done|done|apply discharged_refl|done].
Qed.

(** C13: finishing a prepared termination completes every sender: no operation
    is left waiting, each one that was still waiting gets its own message back
    with the mailbox's final incarnation, operations that were already
    decided keep their outcome, and the unread payload is handed back
    unchanged. *)
Theorem termination_completes_senders id tr (w : world (M := M)) d payload retired fx c' :
  mrun id tr w -> w_teardown w = Some d ->
  finish_termination d (w_cell w) = (payload, retired, fx, c') ->
  payload = teardown_payload d /\
  (forall op o, operations c' !! op = Some o -> is_waiting o = false) /\
  (forall op o, operations (w_cell w) !! op = Some o ->
   exists o', operations c' !! op = Some o' /\
     op_outcome o' = match op_outcome o with
                     | OpWaiting m _ => OpTerminated m (teardown_final d)
                     | other => other
                     end).
Proof.
  intros Hr Hd Hf. pose proof (mrun_inv _ _ _ Hr) as Hi. destruct w as [c d0]. simpl in *.
  subst d0. unfold finish_termination in Hf.
  destruct (discharge_loop _ d c) as [[[r1 f1] d1] c1] eqn:E. simplify_eq.
  destruct (discharge_loop_all _ _ _ _ _ _ _ Hi (Nat.lt_succ_diag_r _) E)
    as ([Hi' _] & He & Hdis & Hp).
  assert (Hnone : forall op o, operations c' !! op = Some o -> is_waiting o = false).
  { intros op o Ho. destruct (is_waiting o) eqn:Ew; [|done].
    destruct (pi_registrations _ Hi' op o Ho) as [Hw Hreg]. simpl in *.
    destruct (proj1 Hw Ew) as [i Hri].
    destruct (Hreg i Hri) as [Hent|(x & [= <-] & Hx)]; [|by rewrite He in Hx].
    assert (Ht : is_terminal (phase (state c')) = true) by (apply (pi_detached _ Hi'); eauto).
    destruct (phase (state c')) as [| | |f] eqn:Eph; try done.
    destruct (pi_terminal _ Hi' f Eph) as (_ & He' & _). simpl in He'. by rewrite He' in Hent. }
  split_and!; [done|done|]. intros op o Ho. destruct (Hdis op o Ho) as (o' & Ho' & Hout).
  exists o'. split; [done|]. specialize (Hnone op o' Ho'). unfold is_waiting in Hnone.
  destruct Hout as [Hout|(m & n & -> & ->)]; [|done]. rewrite Hout in *.
  by destruct (op_outcome o).
Qed.
End order.

(** ** Witnesses on concrete mailboxes *)

Definition demo_incarnation : Incarnation :=
  mkIncarnation (mkMembership (mkFence (mkLineage 1) (mkGeneration 1))) (mkGeneration 1).

(** A queue of one: the second and third sender park, the second is received
    through promotion, the third is caught by termination. *)
Definition queue_script : list (mailbox_op (M := Z)) :=
  [MConfigure (ResolvedQueue 1); MBind (mkToken 0) demo_incarnation; MSubmit 10; MSubmit 11;
   MSubmit 12; MReceive demo_incarnation Drain; MPrepareTermination].

Definition queue_demo (n : nat) := mplay [] (mkWorld (mailbox_new "a") None) (take n queue_script).

Lemma queue_demo_run n : mrun "a" (queue_demo n).1 (queue_demo n).2.
Proof. apply mplay_run, mrun_new. Qed.

Definition latest_script : list (mailbox_op (M := Z)) :=
  [MConfigure ResolvedLatest; MBind (mkToken 0) demo_incarnation; MSubmit 10].

Definition latest_demo := mplay [] (mkWorld (mailbox_new "a") None) latest_script.

Lemma latest_demo_run : mrun "a" latest_demo.1 latest_demo.2.
Proof. apply mplay_run, mrun_new. Qed.

Definition demo_cell (n : nat) : MailboxCell Z := w_cell (queue_demo n).2.

Lemma mailbox_capacity_witness :
  StronglySorted Z.lt (accepted_sequence <$> queue (state (demo_cell 5))).
Proof. apply (mailbox_capacity "a" (queue_demo 5).1 (queue_demo 5).2 (queue_demo_run 5)). Defined.

Lemma mailbox_conservation_witness :
  [10; 11; 12] ≡ₚ [10] ++ held (demo_cell 6).
Proof.
  apply (mailbox_conservation "a" (queue_demo 6).1 (queue_demo 6).2). apply queue_demo_run.
Defined.

Lemma mailbox_fifo_witness :
  match submit (demo_cell 4) 12 with
  | Ret (_, _, c') => line c' = line (demo_cell 4) ++ [12]
  | _ => False
  end.
Proof.
  destruct (mailbox_fifo "a" (queue_demo 4).1 (queue_demo 4).2 1 (queue_demo_run 4)
    ltac:(vm_compute; reflexivity)) as [H _].
  specialize (H 12). unfold demo_cell.
  destruct (submit (w_cell (queue_demo 4).2) 12) as [[[r fx] c']| |] eqn:E;
    [|vm_compute in E; discriminate..].
  specialize (H r fx c' eq_refl). destruct r; [exact H|exact H|vm_compute in E; discriminate].
Defined.

Lemma receive_exact_witness :
  match receive (demo_cell 5) demo_incarnation Drain with
  | Ret (r, _, _) => r = Some 10
  | _ => False
  end.
Proof.
  destruct (receive (demo_cell 5) demo_incarnation Drain) as [[[r fx] c']| |] eqn:E;
    [|vm_compute in E; discriminate..].
  rewrite (receive_exact _ _ _ _ _ _ E). vm_compute. reflexivity.
Defined.

Lemma latest_replaces_witness :
  exists fx c', submit (w_cell latest_demo.2) 11 = Ret (SubAccepted demo_incarnation, fx, c') /\
    message <$> latest (state c') = Some 11.
Proof.
  destruct (latest_replaces "a" latest_demo.1 latest_demo.2
    (mkBinding demo_incarnation ResolvedLatest) 11 latest_demo_run
    ltac:(vm_compute; reflexivity) eq_refl ltac:(vm_compute; reflexivity))
    as (fx & c' & H1 & H2 & _).
  exists fx, c'. split; [exact H1|exact H2].
Defined.

Lemma try_send_verdict_witness :
  try_send (demo_cell 1) 9 = Ret (Err (mkSendError "a" None 9 NotRunning), [], demo_cell 1).
Proof.
  exact (try_send_verdict "a" (queue_demo 1).1 (queue_demo 1).2 9 (queue_demo_run 1)
    ltac:(vm_compute; reflexivity)).
Defined.

(** The operation of the third sender, parked as number 1. *)
Definition demo_operation (n : nat) (op : Z) : OperationState Z :=
  default (mkOperation OpRetired None None) (operations (demo_cell n) !! op).

Lemma withdraw_exact_witness :
  exists r fx c', withdraw (demo_cell 5) 1 Inline = Ret (r, fx, c') /\
    queue (state c') = queue (state (demo_cell 5)).
Proof.
  destruct (withdraw_exact "a" (queue_demo 5).1 (queue_demo 5).2 1 (demo_operation 5 1) Inline
    (queue_demo_run 5) ltac:(vm_compute; reflexivity) ltac:(vm_compute; discriminate))
    as (r & fx & c' & H & _ & Hq & _).
  exists r, fx, c'. split; [exact H|exact Hq].
Defined.

Definition demo_teardown : MailboxTeardown Z :=
  default (mkTeardown [] waiters_default None) (w_teardown (queue_demo 7).2).

Lemma termination_completes_senders_witness :
  let '(_, _, _, c') := finish_termination demo_teardown (demo_cell 7) in
  forall op o, operations c' !! op = Some o -> is_waiting o = false.
Proof.
  destruct (finish_termination demo_teardown (demo_cell 7)) as [[[p r] fx] c'] eqn:E.
  apply (termination_completes_senders "a" (queue_demo 7).1 (queue_demo 7).2 demo_teardown
    p r fx c' (queue_demo_run 7) ltac:(vm_compute; reflexivity) E).
Defined.
