(* ===== verification/Waiters.v ===== *)
(** * Waiter registries

    [crates/shelterwood-runtime/src/waiters.rs]: the registry of caller wakers
    behind the latch and the watch channel, and the register-then-recheck
    protocol of its waits.  A registry lock protects one storage change, so a
    poll is a sequence of separate atomic steps between which publishers and
    other waits may run. *)

From S2P Require Import Prelude Identity.

(** ** The registry *)

Record RegisteredWaker := mkRegistered { identity : Z; waker : Z }.

Record WaiterRegistry := mkRegistry
  { waiters : list RegisteredWaker; identities : AtomicMonotonicCounter.t }.

Definition registry_default : WaiterRegistry := mkRegistry [] AtomicMonotonicCounter.new.

Definition mint_identity (r : WaiterRegistry) : outcome (Z * WaiterRegistry) :=
  '(i, ids) ← AtomicMonotonicCounter.mint (identities r);
  Ret (i, mkRegistry (waiters r) ids).

(** [iter().position(|waiter| waiter.identity == identity)]. *)
Definition position (i : Z) (l : list RegisteredWaker) : option nat :=
  fst <$> list_find (fun x => identity x = i) l.

Definition register (i w : Z) (r : WaiterRegistry) : option RegisteredWaker * WaiterRegistry :=
  match position i (waiters r) with
  | Some n =>
      (waiters r !! n, mkRegistry (<[n := mkRegistered i w]> (waiters r)) (identities r))
  | None => (None, mkRegistry (waiters r ++ [mkRegistered i w]) (identities r))
  end.

(** [Vec::swap_remove]: the last element takes the place of the removed one. *)
Definition swap_remove {A} (n : nat) (l : list A) : option A * list A :=
  match l !! n, last l with
  | Some x, Some y => (Some x, take (length l - 1) (<[n := y]> l))
  | _, _ => (None, l)
  end.

Definition remove (i : Z) (r : WaiterRegistry) : option RegisteredWaker * WaiterRegistry :=
  match position i (waiters r) with
  | Some n =>
      let '(x, l) := swap_remove n (waiters r) in (x, mkRegistry l (identities r))
  | None => (None, r)
  end.

(** [wake_all] drains under the lock; the drained wakers run afterwards. *)
Definition drain (r : WaiterRegistry) : list RegisteredWaker * WaiterRegistry :=
  (waiters r, mkRegistry [] (identities r)).

Definition len (r : WaiterRegistry) : nat := length (waiters r).

Definition registered (i : Z) (r : WaiterRegistry) : Prop :=
  exists w, mkRegistered i w ∈ waiters r.

(** ** Storage lemmas *)

Lemma position_Some i l n :
  position i l = Some n -> exists w, l !! n = Some (mkRegistered i w).
Proof.
  unfold position. intros ([n' [i' w]] & (Hn & Hi & _)%list_find_Some & ->)%fmap_Some.
  simpl in *. subst. eauto.
Qed.

Lemma position_None i l : position i l = None -> forall w, mkRegistered i w ∉ l.
Proof.
  unfold position. intros H%fmap_None w Hin. apply list_find_None in H.
  rewrite Forall_forall in H. by apply (H _ Hin).
Qed.

Lemma list_elem_of_insert {A} (l : list A) n x y :
  y ∈ <[n := x]> l -> y = x \/ y ∈ l.
Proof.
  intros [k Hk]%list_elem_of_lookup. apply list_lookup_insert_Some in Hk as [(_ & -> & _)|[_ Hk]];
    [by left|right; by eapply list_elem_of_lookup_2].
Qed.

(** Swap-removal, as a permutation. *)
Lemma swap_remove_perm {A} n (l : list A) x l' :
  swap_remove n l = (Some x, l') -> l ≡ₚ x :: l'.
Proof.
  unfold swap_remove. destruct (l !! n) as [a|] eqn:Ea; [|done].
  destruct (last l) as [y|] eqn:Ey; [|done]. intros [= -> <-].
  apply last_Some in Ey as [l0 ->]. rewrite length_app. simpl.
  replace (length l0 + 1 - 1)%nat with (length l0) by lia.
  destruct (decide (n < length l0)%nat) as [Hn|Hn].
  - rewrite insert_app_l by done. rewrite take_app_length' by (by rewrite length_insert).
    rewrite lookup_app_l in Ea by done.
    rewrite (insert_take_drop l0 n y Hn). rewrite <- (take_drop_middle l0 n x Ea) at 1.
    rewrite <- app_assoc. simpl. rewrite <- Permutation_middle. constructor.
    apply Permutation_app_head. symmetry. apply Permutation_cons_append.
  - apply lookup_lt_Some in Ea as Hlt. rewrite length_app in Hlt. simpl in Hlt.
    assert (n = length l0) as -> by lia.
    rewrite list_lookup_middle in Ea by done. simplify_eq.
    rewrite take_insert_ge, take_app_length by lia. symmetry. apply Permutation_cons_append.
Qed.

Definition ids (l : list RegisteredWaker) : list Z := identity <$> l.

Lemma elem_of_ids i l : i ∈ ids l <-> exists w, mkRegistered i w ∈ l.
Proof.
  unfold ids. rewrite list_elem_of_fmap. split.
  - intros ([j w] & -> & H). eauto.
  - intros [w H]. by exists (mkRegistered i w).
Qed.

Lemma registered_ids i r : registered i r <-> i ∈ ids (waiters r).
Proof. symmetry. apply elem_of_ids. Qed.

(** Registering keeps one entry per identity and adds exactly its own. *)
Lemma register_ids i w r d r' :
  register i w r = (d, r') ->
  identities r' = identities r /\
  (ids (waiters r') = ids (waiters r) /\ i ∈ ids (waiters r) \/
   ids (waiters r') = ids (waiters r) ++ [i] /\ i ∉ ids (waiters r)).
Proof.
  unfold register. destruct (position i (waiters r)) as [n|] eqn:E; intros [= <- <-]; simpl;
    (split; [done|]).
  - apply position_Some in E as [w' Hn]. left. unfold ids. split.
    + rewrite list_fmap_insert. simpl. apply list_insert_id.
      by rewrite list_lookup_fmap, Hn.
    + apply list_elem_of_fmap. exists (mkRegistered i w'). split; [done|].
      by eapply list_elem_of_lookup_2.
  - right. unfold ids. rewrite fmap_app. split; [done|].
    rewrite elem_of_ids. intros [w' Hw']. by eapply position_None.
Qed.

(** Removal takes out exactly the identity's entry. *)
Lemma remove_ids i r x r' :
  remove i r = (x, r') ->
  identities r' = identities r /\
  (ids (waiters r) ≡ₚ i :: ids (waiters r') \/ ids (waiters r') = ids (waiters r) /\ i ∉ ids (waiters r)).
Proof.
  unfold remove. destruct (position i (waiters r)) as [n|] eqn:E.
  - apply position_Some in E as [w Hn]. destruct (swap_remove n (waiters r)) as [y l] eqn:Es.
    intros [= <- <-]. simpl. split; [done|]. left.
    assert (y = Some (mkRegistered i w)) as ->.
    { unfold swap_remove in Es. rewrite Hn in Es.
      destruct (last (waiters r)) eqn:El; [by simplify_eq|].
      apply last_None in El. rewrite El in Hn. done. }
    apply swap_remove_perm in Es. unfold ids. by rewrite Es.
  - intros [= <- <-]. split; [done|]. right. split; [done|].
    rewrite elem_of_ids. intros [w Hw]. by eapply position_None.
Qed.

(** ** The shared object behind a registry

    What a latch or a watch channel promises to the registry protocol: a
    readiness test of one wait, atomic events of which some owe the registered
    waiters a wake, and that an event owing none makes no wait ready. *)
Class Waitable (O W V T : Type) := mkWaitable
  { ready : O -> W -> option (T * W);
    apply_event : O -> V -> option (O * bool);
    quiet_ready s e s' w :
      apply_event s e = Some (s', false) -> ready s w = None -> ready s' w = None }.

Section protocol.
Context {O W V T : Type} `{!Waitable O W V T}.

(** ** One uninterrupted poll *)

(** [poll_registered] when nothing else runs between its steps: the output of
    a ready wait, the registry, and the wakers destroyed. *)
Definition poll_registered (s : O) (i w : Z) (local : W) (r : WaiterRegistry)
  : option T * W * list RegisteredWaker * WaiterRegistry :=
  match ready s local with
  | Some (out, local) =>
      let '(x, r) := remove i r in (Some out, local, option_list x, r)
  | None =>
      let '(displaced, r) := register i w r in
      match ready s local with
      | Some (out, local) =>
          let '(x, r) := remove i r in
          (Some out, local, option_list displaced ++ option_list x, r)
      | None => (None, local, option_list displaced, r)
      end
  end.

(** ** Interleaved polls

    The points of a poll between which other threads run. *)
Inductive Phase :=
| Idle                      (* not polled yet *)
| Checking (w : Z)          (* about to test readiness *)
| Registering (w : Z)       (* not ready: the cloned waker is about to register *)
| Rechecking                (* registered: about to test readiness again *)
| Retiring (out : T)        (* ready: about to remove its registration *)
| Pending                   (* the poll returned pending *)
| Complete (out : T).       (* the poll returned the output *)

(** A wait; [woken] records that a waker registered by it ran since its last
    poll began. *)
Record Wait := mkWait { local : W; phase : Phase; woken : bool }.

(** A publisher after its event: it still has to drain the registry, or it
    runs the wakers it drained. *)
Inductive Notifier := Announced | Waking (pending : list RegisteredWaker).

Record Config := mkConfig
  { shared : O; registry : WaiterRegistry; waits : gmap Z Wait; notifiers : list Notifier }.

Inductive Action :=
| NewWait (w : W)
| BeginPoll (i w : Z)
| Check (i : Z)
| Register (i : Z)
| Retire (i : Z)
| DropWait (i : Z)
| Publish (e : V)
| Drain (n : nat)
| Wake (n : nat).

Definition set_wait (i : Z) (x : Wait) (c : Config) : Config :=
  mkConfig (shared c) (registry c) (<[i := x]> (waits c)) (notifiers c).
Definition set_registry (r : WaiterRegistry) (c : Config) : Config :=
  mkConfig (shared c) r (waits c) (notifiers c).
Definition set_notifiers (ns : list Notifier) (c : Config) : Config :=
  mkConfig (shared c) (registry c) (waits c) ns.

(** A readiness test, the first or the second of a poll. *)
Definition test_ready (c : Config) (i : Z) (x : Wait) (otherwise : Phase) : Config :=
  match ready (shared c) (local x) with
  | Some (out, l) => set_wait i (mkWait l (Retiring out) (woken x)) c
  | None => set_wait i (mkWait (local x) otherwise (woken x)) c
  end.

(** [waker.wake()] of one drained entry. *)
Definition wake_one (x : RegisteredWaker) (c : Config) : Config :=
  match waits c !! identity x with
  | Some v => set_wait (identity x) (mkWait (local v) (phase v) true) c
  | None => c
  end.

(** One atomic step; [None] when the action is not enabled. *)
Definition wstep (c : Config) (a : Action) : option Config :=
  match a with
  | NewWait w =>
      match mint_identity (registry c) with
      | Ret (i, r) => Some (set_wait i (mkWait w Idle false) (set_registry r c))
      | _ => None
      end
  | BeginPoll i w =>
      match waits c !! i with
      | Some (mkWait l (Idle | Pending) _) => Some (set_wait i (mkWait l (Checking w) false) c)
      | _ => None
      end
  | Check i =>
      match waits c !! i with
      | Some (mkWait l (Checking w) b) =>
          Some (test_ready c i (mkWait l (Checking w) b) (Registering w))
      | Some (mkWait l Rechecking b) => Some (test_ready c i (mkWait l Rechecking b) Pending)
      | _ => None
      end
  | Register i =>
      match waits c !! i with
      | Some (mkWait l (Registering w) b) =>
          let '(_, r) := register i w (registry c) in
          Some (set_wait i (mkWait l Rechecking b) (set_registry r c))
      | _ => None
      end
  | Retire i =>
      match waits c !! i with
      | Some (mkWait l (Retiring out) b) =>
          let '(_, r) := remove i (registry c) in
          Some (set_wait i (mkWait l (Complete out) b) (set_registry r c))
      | _ => None
      end
  | DropWait i =>
      match waits c !! i with
      | Some (mkWait _ (Idle | Pending | Complete _) _) =>
          let '(_, r) := remove i (registry c) in
          Some (mkConfig (shared c) r (delete i (waits c)) (notifiers c))
      | _ => None
      end
  | Publish e =>
      match apply_event (shared c) e with
      | Some (s, owes) =>
          Some (mkConfig s (registry c) (waits c)
                  (notifiers c ++ if (owes : bool) then [Announced] else []))
      | None => None
      end
  | Drain n =>
      match notifiers c !! n with
      | Some Announced =>
          let '(l, r) := drain (registry c) in
          Some (mkConfig (shared c) r (waits c) (<[n := Waking l]> (notifiers c)))
      | _ => None
      end
  | Wake n =>
      match notifiers c !! n with
      | Some (Waking (x :: l)) =>
          Some (wake_one x (set_notifiers (<[n := Waking l]> (notifiers c)) c))
      | _ => None
      end
  end.

Definition initial_config (s : O) : Config := mkConfig s registry_default ∅ [].

Inductive reaches (s : O) : Config -> Prop :=
| reaches_new : reaches s (initial_config s)
| reaches_step c a c' : reaches s c -> wstep c a = Some c' -> reaches s c'.

Fixpoint wrun (c : Config) (l : list Action) : option Config :=
  match l with
  | [] => Some c
  | a :: l => match wstep c a with Some c => wrun c l | None => None end
  end.

Lemma wrun_reaches s c l c' : reaches s c -> wrun c l = Some c' -> reaches s c'.
Proof.
  revert c. induction l as [|a l IH]; intros c Hr H; simpl in H; [by simplify_eq|].
  destruct (wstep c a) as [c1|] eqn:E; [|done]. eapply IH; [|done]. by econstructor.
Qed.

(** ** The invariant *)

(** The identities a notifier is still going to wake. *)
Definition owed (n : Notifier) : list Z :=
  match n with Announced => [] | Waking l => ids l end.

Definition being_woken (c : Config) (i : Z) : Prop := i ∈ (notifiers c ≫= owed).

Definition holds_registration (p : Phase) : bool :=
  match p with Rechecking | Pending => true | _ => false end.
Definition may_hold (p : Phase) : bool :=
  match p with Idle | Complete _ => false | _ => true end.

Record winv (c : Config) : Prop := mkWinv
  { wi_nodup : NoDup (ids (waiters (registry c)));
    wi_live : forall i, i ∈ ids (waiters (registry c)) ->
      exists x, waits c !! i = Some x /\ may_hold (phase x) = true;
    wi_minted : forall i, is_Some (waits c !! i) ->
      0 < i <= AtomicMonotonicCounter.value (identities (registry c));
    wi_counter : 0 <= AtomicMonotonicCounter.value (identities (registry c));
    (** a wait past its registration is registered, being woken, or woken *)
    wi_armed : forall i x, waits c !! i = Some x -> holds_registration (phase x) = true ->
      woken x = true \/ i ∈ ids (waiters (registry c)) \/ being_woken c i;
    (** a registered pending wait that became ready has a drain coming *)
    wi_announced : forall i x, waits c !! i = Some x -> phase x = Pending ->
      woken x = false -> i ∈ ids (waiters (registry c)) -> ready (shared c) (local x) ≠ None ->
      Announced ∈ notifiers c }.

Lemma being_woken_spec c i :
  being_woken c i <-> exists n l, notifiers c !! n = Some (Waking l) /\ i ∈ ids l.
Proof.
  unfold being_woken. rewrite list_elem_of_bind. split.
  - intros ([|l] & Hi & [n Hn]%list_elem_of_lookup); simpl in Hi; [by apply not_elem_of_nil in Hi|].
    eauto.
  - intros (n & l & Hn & Hi). exists (Waking l). split; [done|]. by eapply list_elem_of_lookup_2.
Qed.

(** Waking one notifier's entry leaves the others' entries owed. *)
Lemma being_woken_other c n x l i s r ws :
  notifiers c !! n = Some (Waking (x :: l)) -> being_woken c i -> i ≠ identity x ->
  being_woken (mkConfig s r ws (<[n := Waking l]> (notifiers c))) i.
Proof.
  rewrite !being_woken_spec. intros Hn (k & l' & Hk & Hi) Hne. simpl.
  assert (Hlt : (n < length (notifiers c))%nat) by (by eapply lookup_lt_Some).
  destruct (decide (k = n)) as [->|Hkn].
  - simplify_eq. exists n, l. split; [by apply list_lookup_insert_eq|].
    simpl in Hi. by apply elem_of_cons in Hi as [->|?].
  - exists k, l'. by rewrite list_lookup_insert_ne.
Qed.

Lemma announced_insert n l x (ns : list Notifier) :
  ns !! n = Some (Waking x) -> Announced ∈ ns -> Announced ∈ <[n := Waking l]> ns.
Proof.
  intros Hn [k Hk]%list_elem_of_lookup. apply list_elem_of_lookup. exists k.
  rewrite list_lookup_insert_ne; [done|]. intros <-. congruence.
Qed.

(** Changing one wait to a phase that owes nothing. *)
Lemma winv_set_wait c i x y :
  winv c -> waits c !! i = Some x -> may_hold (phase y) = true ->
  (holds_registration (phase y) = true ->
     woken y = true \/ i ∈ ids (waiters (registry c)) \/ being_woken c i) ->
  (phase y = Pending -> ready (shared c) (local y) = None) ->
  winv (set_wait i y c).
Proof.
  intros [] Hx Hm Ha Hr. split; simpl; try done.
  - intros j Hj. destruct (decide (j = i)) as [->|Hne].
    + exists y. by rewrite lookup_insert_eq.
    + rewrite lookup_insert_ne by done. by apply wi_live0.
  - intros j. rewrite lookup_insert_is_Some. intros [<-|[_ ?]]; eauto.
  - intros j z. intros [[<- <-]|[Hne Hz]]%lookup_insert_Some Hz'; [auto|by eapply wi_armed0].
  - intros j z. intros [[<- <-]|[Hne Hz]]%lookup_insert_Some Hp; [|by eapply wi_announced0].
    intros _ _ Hn. by apply Hr in Hp.
Qed.

Lemma winv_test_ready c i x p :
  winv c -> waits c !! i = Some x -> may_hold p = true ->
  (holds_registration p = true ->
     woken x = true \/ i ∈ ids (waiters (registry c)) \/ being_woken c i) ->
  winv (test_ready c i x p).
Proof.
  intros Hi Hx Hm Ha. unfold test_ready. destruct (ready _ _) as [[out l]|] eqn:Er;
    by eapply winv_set_wait.
Qed.

Lemma winv_new_wait c i r w :
  winv c -> mint_identity (registry c) = Ret (i, r) ->
  winv (set_wait i (mkWait w Idle false) (set_registry r c)).
Proof.
  intros [] Hm. unfold mint_identity in Hm.
  destruct (AtomicMonotonicCounter.mint _) as [[k ids']| |] eqn:Ek; simplify_eq/=.
  apply atomic_mint_Ret in Ek as (-> & _ & ->).
  assert (Hf : waits c !! (AtomicMonotonicCounter.value (identities (registry c)) + 1) = None).
  { apply eq_None_not_Some. intros H%wi_minted0. lia. }
  split; simpl; try done.
  - intros j Hj. destruct (wi_live0 j Hj) as (x & Hx & ?). exists x.
    rewrite lookup_insert_ne; [done|congruence].
  - intros j. rewrite lookup_insert_is_Some. intros [<-|[_ H%wi_minted0]]; lia.
  - lia.
  - intros j z [[<- <-]|[Hne Hz]]%lookup_insert_Some; [done|by apply wi_armed0].
  - intros j z [[<- <-]|[Hne Hz]]%lookup_insert_Some; [done|by apply wi_announced0].
Qed.

Lemma winv_register c i l w b d r :
  winv c -> waits c !! i = Some (mkWait l (Registering w) b) ->
  register i w (registry c) = (d, r) ->
  winv (set_wait i (mkWait l Rechecking b) (set_registry r c)).
Proof.
  intros [] Hx Hr. apply register_ids in Hr as (Hc & Hids).
  assert (Hmem : forall j, j ∈ ids (waiters r) <-> j = i \/ j ∈ ids (waiters (registry c))).
  { destruct Hids as [[-> ?]|[-> ?]]; [naive_solver|]. intros j.
    rewrite elem_of_app, list_elem_of_singleton. tauto. }
  split; simpl; rewrite ?Hc; try done.
  - destruct Hids as [[-> ?]|[-> ?]]; [done|]. apply NoDup_app. split_and!; [done| |apply NoDup_singleton].
    intros j Hj ->%list_elem_of_singleton. done.
  - intros j [->|Hj]%Hmem; [eexists; split; [by rewrite lookup_insert_eq|done]|].
    destruct (decide (j = i)) as [->|]; [eexists; split; [by rewrite lookup_insert_eq|done]|].
    rewrite lookup_insert_ne by done. by apply wi_live0.
  - intros j. rewrite lookup_insert_is_Some. intros [<-|[_ ?]]; eauto.
  - intros j z [[<- <-]|[Hne Hz]]%lookup_insert_Some Hh; rewrite Hmem; [auto|].
    destruct (wi_armed0 j z Hz Hh) as [?|[?|?]]; auto.
  - intros j z [[<- <-]|[Hne Hz]]%lookup_insert_Some Hp; [done|].
    rewrite Hmem. intros Hw [->|Hj] Hn; [done|by eapply wi_announced0].
Qed.

(** Removing a wait's registration, with the wait ending or gone. *)
Lemma winv_unregister c i x r ws :
  winv c -> remove i (registry c) = (x, r) -> is_Some (waits c !! i) ->
  (forall j, j ≠ i -> ws !! j = waits c !! j) ->
  (ws !! i = None \/ exists l out b, ws !! i = Some (mkWait l (Complete out) b)) ->
  winv (mkConfig (shared c) r ws (notifiers c)).
Proof.
  intros [] Hr Hs Hws Hi. apply remove_ids in Hr as (Hc & Hids).
  assert (Hmem : forall j, j ∈ ids (waiters r) -> j ≠ i /\ j ∈ ids (waiters (registry c))).
  { intros j Hj. destruct Hids as [Hp|[Heq Hn]].
    - rewrite Hp in wi_nodup0. apply NoDup_cons in wi_nodup0 as [Hni _].
      split; [congruence|]. rewrite Hp. by right.
    - rewrite Heq in Hj. split; congruence. }
  assert (Hback : forall j, j ≠ i -> j ∈ ids (waiters (registry c)) -> j ∈ ids (waiters r)).
  { intros j Hne Hj. destruct Hids as [Hp|[-> Hn]]; [|done].
    rewrite Hp in Hj. by apply elem_of_cons in Hj as [->|?]. }
  split; simpl; rewrite ?Hc; try done.
  - destruct Hids as [Hp|[-> _]]; [|done]. rewrite Hp in wi_nodup0. by apply NoDup_cons in wi_nodup0 as [_ ?].
  - intros j [Hne Hj]%Hmem. rewrite Hws by done. by apply wi_live0.
  - intros j Hj. destruct (decide (j = i)) as [->|Hne]; [by apply wi_minted0|].
    rewrite Hws in Hj by done. by apply wi_minted0.
  - intros j z Hz Hh. destruct (decide (j = i)) as [->|Hne].
    + destruct Hi as [Hi|(l & out & b & Hi)]; rewrite Hi in Hz; by simplify_eq.
    + rewrite Hws in Hz by done. destruct (wi_armed0 j z Hz Hh) as [?|[?|?]]; auto.
  - intros j z Hz Hp Hw Hj Hn. apply Hmem in Hj as [Hne Hj].
    rewrite Hws in Hz by done. by eapply wi_announced0.
Qed.

Lemma winv_publish c e s owes :
  winv c -> apply_event (shared c) e = Some (s, owes) ->
  winv (mkConfig s (registry c) (waits c) (notifiers c ++ if owes then [Announced] else [])).
Proof.
  intros [] He. split; simpl; try done.
  - intros i x Hx Hh. destruct (wi_armed0 i x Hx Hh) as [?|[?|H]]; auto. right; right.
    unfold being_woken in *. simpl. rewrite bind_app, elem_of_app. by left.
  - intros i x Hx Hp Hw Hi Hn. rewrite elem_of_app. destruct owes; [right; by left|left].
    apply (wi_announced0 i x Hx Hp Hw Hi). intros H. apply Hn. by eapply quiet_ready.
Qed.

Lemma winv_drain c n :
  winv c -> notifiers c !! n = Some Announced ->
  winv (mkConfig (shared c) (drain (registry c)).2 (waits c)
          (<[n := Waking (waiters (registry c))]> (notifiers c))).
Proof.
  intros [] Hn. assert (Hlt : (n < length (notifiers c))%nat) by (by eapply lookup_lt_Some).
  split; simpl; try done.
  - constructor.
  - intros i Hi. by apply not_elem_of_nil in Hi.
  - intros i x Hx Hh. destruct (wi_armed0 i x Hx Hh) as [?|[Hi|Hi]]; [by left|right; right..].
    + apply being_woken_spec. exists n, (waiters (registry c)). simpl.
      by rewrite list_lookup_insert_eq.
    + apply being_woken_spec in Hi as (k & l & Hk & Hi). apply being_woken_spec.
      exists k, l. simpl. rewrite list_lookup_insert_ne; [done|]. intros <-. congruence.
  - intros i x _ _ _ Hi. by apply not_elem_of_nil in Hi.
Qed.

Lemma winv_wake c n x l :
  winv c -> notifiers c !! n = Some (Waking (x :: l)) ->
  winv (wake_one x (set_notifiers (<[n := Waking l]> (notifiers c)) c)).
Proof.
  intros [] Hn. unfold wake_one. simpl.
  destruct (waits c !! identity x) as [v|] eqn:Ev.
  - split; simpl; try done.
    + intros i Hi. destruct (wi_live0 i Hi) as (z & Hz & Hm).
      destruct (decide (i = identity x)) as [->|Hne].
      * eexists. rewrite lookup_insert_eq. split; [done|]. simpl. congruence.
      * exists z. by rewrite lookup_insert_ne.
    + intros i. rewrite lookup_insert_is_Some. intros [<-|[_ ?]]; eauto.
    + intros i z [[<- <-]|[Hne Hz]]%lookup_insert_Some Hh; [by left|].
      destruct (wi_armed0 i z Hz Hh) as [?|[?|?]]; auto. right; right.
      by eapply being_woken_other.
    + intros i z [[<- <-]|[Hne Hz]]%lookup_insert_Some Hp Hw Hi Hr; [done|].
      eapply announced_insert; [done|]. by eapply wi_announced0.
  - split; simpl; try done.
    + intros i z Hz Hh. destruct (wi_armed0 i z Hz Hh) as [?|[?|?]]; auto. right; right.
      eapply being_woken_other; [done..|congruence].
    + intros i z Hz Hp Hw Hi Hr. eapply announced_insert; [done|]. by eapply wi_announced0.
Qed.

Lemma winv_step c a c' : winv c -> wstep c a = Some c' -> winv c'.
Proof.
  intros Hi H. destruct a as [w|i w|i|i|i|i|e|n|n]; simpl in H.
  - destruct (mint_identity _) as [[i r]| |] eqn:E; simplify_eq. by apply winv_new_wait.
  - destruct (waits c !! i) as [[l [] b]|] eqn:E; simplify_eq; by eapply winv_set_wait.
  - destruct (waits c !! i) as [[l [] b]|] eqn:E; simplify_eq; (eapply winv_test_ready; [done..|]).
    + done.
    + intros _. by eapply (wi_armed _ Hi i).
  - destruct (waits c !! i) as [[l [] b]|] eqn:E; simplify_eq.
    destruct (register _ _ _) as [d r] eqn:Er; simplify_eq. by eapply winv_register.
  - destruct (waits c !! i) as [[l [] b]|] eqn:E; simplify_eq.
    destruct (remove _ _) as [x r] eqn:Er; simplify_eq.
    eapply (winv_unregister c i x r _ Hi Er); [by rewrite E| |].
    + intros j Hne. simpl. by rewrite lookup_insert_ne.
    + right. exists l, out, b. apply lookup_insert_eq.
  - assert (Hdrop : forall x r, is_Some (waits c !! i) -> remove i (registry c) = (x, r) ->
      winv (mkConfig (shared c) r (delete i (waits c)) (notifiers c))).
    { intros x r Hs Er. eapply (winv_unregister c i x r _ Hi Er Hs).
      - intros j Hne. by rewrite lookup_delete_ne.
      - left. apply lookup_delete_eq. }
    destruct (waits c !! i) as [[l [] b]|] eqn:E; try done;
      destruct (remove _ _) as [x r] eqn:Er; simplify_eq; eauto.
  - destruct (apply_event _ e) as [[s owes]|] eqn:E; simplify_eq. by eapply winv_publish.
  - destruct (notifiers c !! n) as [[|]|] eqn:E; simplify_eq. by apply winv_drain.
  - destruct (notifiers c !! n) as [[|[|x l]]|] eqn:E; simplify_eq. by apply winv_wake.
Qed.

Lemma reaches_winv s c : reaches s c -> winv c.
Proof.
  induction 1 as [|c a c' _ IH H]; [|by eapply winv_step].
  split; simpl; try done; [constructor|by intros i ?%elem_of_nil|by intros i []].
Qed.

(** Only an event changes the shared object. *)
Lemma wstep_shared c a c' :
  wstep c a = Some c' ->
  shared c' = shared c \/ exists e owes, apply_event (shared c) e = Some (shared c', owes).
Proof.
  intros H. destruct a as [w|i w|i|i|i|i|e|n|n]; simpl in H.
  7: { destruct (apply_event _ e) as [[s owes]|] eqn:E; simplify_eq. right. eauto. }
  all: left; repeat case_match; simplify_eq/=; try done;
    unfold test_ready, wake_one; by repeat case_match.
Qed.

(** ** What the protocol guarantees *)

(** No wakeup is lost.  Whatever the interleaving of polls, events, drains
    and cancellations, when every publisher has finished waking, a wait whose
    last poll returned pending and whose waker has not run since is really not
    ready. *)
Lemma no_lost_wakeup s c i x :
  reaches s c -> (forall n, n ∈ notifiers c -> n = Waking []) ->
  waits c !! i = Some x -> phase x = Pending -> woken x = false ->
  ready (shared c) (local x) = None.
Proof.
  intros Hr Hn Hx Hp Hw. apply reaches_winv in Hr as [].
  destruct (ready (shared c) (local x)) eqn:E; [|done]. exfalso.
  destruct (wi_armed0 i x Hx) as [?|[Hi|Hb]]; [by rewrite Hp|congruence| |].
  - assert (Ha : Announced ∈ notifiers c) by (eapply wi_announced0; eauto; congruence).
    by apply Hn in Ha.
  - apply being_woken_spec in Hb as (n & l & Hl & Hb).
    apply list_elem_of_lookup_2, Hn in Hl. simplify_eq. by apply not_elem_of_nil in Hb.
Qed.

(** A registry never holds two entries of one wait, and holds none for a
    wait that was never polled, has completed, or was dropped. *)
Theorem registry_never_leaks s c :
  reaches s c ->
  NoDup (ids (waiters (registry c))) /\
  forall i, i ∈ ids (waiters (registry c)) ->
    exists x, waits c !! i = Some x /\ may_hold (phase x) = true.
Proof. intros []%reaches_winv. auto. Qed.

(** ** A poll nobody interrupts *)

Lemma test_ready_None c i x p :
  ready (shared c) (local x) = None ->
  test_ready c i x p = set_wait i (mkWait (local x) p (woken x)) c.
Proof. unfold test_ready. by intros ->. Qed.

(** A poll that nobody interrupts runs through its steps to exactly the
    result, registry and wait of the straight-line [poll_registered]. *)
Theorem poll_steps_sequential c i w l p b :
  waits c !! i = Some (mkWait l p b) -> p = Idle \/ p = Pending ->
  exists steps c', wrun c (BeginPoll i w :: steps) = Some c' /\
    let '(out, l', _, r) := poll_registered (shared c) i w l (registry c) in
    shared c' = shared c /\ notifiers c' = notifiers c /\ registry c' = r /\
    waits c' = <[i := mkWait l' (match out with Some t => Complete t | None => Pending end) false]>
                 (waits c).
Proof.
  intros Hx Hp.
  assert (Hb : wstep c (BeginPoll i w) = Some (set_wait i (mkWait l (Checking w) false) c)).
  { simpl. rewrite Hx. by destruct Hp as [->| ->]. }
  unfold poll_registered. destruct (ready (shared c) l) as [[out l']|] eqn:Er.
  - destruct (remove i (registry c)) as [x r] eqn:Erm.
    exists [Check i; Retire i]. eexists. split.
    + cbn [wrun]. rewrite Hb. cbn [wrun wstep waits set_wait]. rewrite lookup_insert_eq.
      unfold test_ready. cbn [shared set_wait local]. rewrite Er. cbn [waits set_wait].
      rewrite lookup_insert_eq. cbn [registry set_wait]. rewrite Erm. reflexivity.
    + cbn. by rewrite !insert_insert_eq.
  - destruct (register i w (registry c)) as [d r] eqn:Erg.
    exists [Check i; Register i; Check i]. eexists. split.
    + cbn [wrun]. rewrite Hb. cbn [wrun wstep waits set_wait]. rewrite lookup_insert_eq.
      unfold test_ready. cbn [shared set_wait local]. rewrite Er. cbn [waits set_wait].
      rewrite lookup_insert_eq. cbn [registry set_wait]. rewrite Erg.
      cbn [waits set_wait set_registry]. rewrite lookup_insert_eq.
      cbn [shared set_wait set_registry local woken]. rewrite Er. reflexivity.
    + cbn. by rewrite !insert_insert_eq.
Qed.
End protocol.
Arguments Phase T : clear implicits.
Arguments Wait W T : clear implicits.
Arguments Config O W T : clear implicits.
Arguments Action W V : clear implicits.
