(* ===== verification/Latch.v ===== *)
(** * Latches

    [crates/shelterwood-runtime/src/latch.rs]: the one-shot multi-waiter
    signal, and the completion-gated signal whose publication is linearized
    with a completion edge. *)

From S2P Require Import Prelude Identity Waiters.

(** ** [Latch] *)

Record LatchState := mkLatch { latch_fired : bool; latch_waiters : WaiterRegistry }.

Definition latch_default : LatchState := mkLatch false registry_default.

(** The compare-exchange of [false] with [true]. *)
Definition fire_silently (l : LatchState) : bool * LatchState :=
  if latch_fired l then (false, l) else (true, mkLatch true (latch_waiters l)).

(** The wakers it runs, in registration order. *)
Definition notify (l : LatchState) : list RegisteredWaker * LatchState :=
  let '(woken, r) := drain (latch_waiters l) in (woken, mkLatch (latch_fired l) r).

Definition fire (l : LatchState) : bool * list RegisteredWaker * LatchState :=
  match fire_silently l with
  | (true, l) => let '(woken, l) := notify l in (true, woken, l)
  | (false, l) => (false, [], l)
  end.

Definition is_fired (l : LatchState) : bool := latch_fired l.

(** [Latch::fired]: a new wait with its own identity. *)
Definition fired (l : LatchState) : outcome (Z * LatchState) :=
  '(i, r) ← mint_identity (latch_waiters l); Ret (i, mkLatch (latch_fired l) r).

(** The readiness of a [LatchWait], and the only event of a latch. *)
Definition latch_ready (f : bool) (_ : unit) : option (unit * unit) :=
  if f then Some ((), ()) else None.

Inductive LatchEvent := Fire.

(** A lost compare-exchange changes nothing and wakes nobody. *)
Definition latch_event (f : bool) (e : LatchEvent) : option (bool * bool) :=
  match e with Fire => if f then None else Some (true, true) end.

Lemma latch_quiet s e s' w :
  latch_event s e = Some (s', false) -> latch_ready s w = None -> latch_ready s' w = None.
Proof. destruct e, s; discriminate. Qed.

#[export] Instance latch_waitable : Waitable bool unit LatchEvent unit :=
  mkWaitable _ _ _ _ latch_ready latch_event latch_quiet.

(** [LatchWait::poll], uninterrupted. *)
Definition poll_wait (l : LatchState) (i w : Z) : option unit * LatchState :=
  let '(out, _, _, r) := poll_registered (latch_fired l) i w () (latch_waiters l) in
  (out, mkLatch (latch_fired l) r).

(** [LatchWait::drop]. *)
Definition drop_wait (l : LatchState) (i : Z) : LatchState :=
  mkLatch (latch_fired l) (remove i (latch_waiters l)).2.

(** C39: a latch strands no waiter.  However polls, a fire, its notification and
    cancellations interleave, once the latch has fired and the notification
    has run, every wait whose last poll returned pending has been woken since;
    and the latch never unfires. *)
Theorem latch_wait_woken c i x :
  reaches false c -> shared c = true ->
  (forall n, n ∈ notifiers c -> n = Waking []) ->
  waits c !! i = Some x -> phase x = Pending ->
  woken x = true /\
  forall a c', wstep c a = Some c' -> shared c' = true.
Proof.
  intros Hr Hf Hn Hx Hp. split.
  - destruct (woken x) eqn:Ew; [done|].
    pose proof (no_lost_wakeup false c i x Hr Hn Hx Hp Ew) as H. by rewrite Hf in H.
  - intros a c' [Hs|(e & owes & He)]%wstep_shared; [congruence|].
    destruct e. rewrite Hf in He. discriminate.
Qed.

(** A wait registers, the latch fires and its waker runs. *)
Definition latch_script : list (Action unit LatchEvent) :=
  [NewWait (); BeginPoll 1 7; Check 1; Register 1; Check 1; Publish Fire; Drain 0; Wake 0].

Definition latch_demo : Config bool unit unit :=
  default (initial_config false) (wrun (initial_config false) latch_script).

Lemma latch_wait_woken_witness :
  exists x, waits latch_demo !! 1 = Some x /\ phase x = Pending /\ woken x = true.
Proof.
  assert (Hr : reaches false latch_demo).
  { apply (wrun_reaches false (initial_config false) latch_script); [apply reaches_new|].
    vm_compute. reflexivity. }
  exists (mkWait () Pending true). split; [vm_compute; reflexivity|]. split; [reflexivity|].
  apply (latch_wait_woken latch_demo 1 (mkWait () Pending true) Hr); [vm_compute; reflexivity| | |].
  - intros n Hn. vm_compute in Hn. by apply list_elem_of_singleton in Hn.
  - vm_compute. reflexivity.
  - reflexivity.
Defined.

(** A wait parked and still registered. *)
Definition latch_parked : Config bool unit unit :=
  default (initial_config false)
    (wrun (initial_config false) [NewWait (); BeginPoll 1 7; Check 1; Register 1; Check 1]).

Lemma latch_parked_reachable : reaches false latch_parked.
Proof.
  apply (wrun_reaches false (initial_config false)
    [NewWait (); BeginPoll 1 7; Check 1; Register 1; Check 1]); [apply reaches_new|].
  vm_compute. reflexivity.
Qed.

Lemma latch_parked_registry : ids (waiters (registry latch_parked)) = [1].
Proof. vm_compute. reflexivity. Qed.

Lemma registry_never_leaks_witness :
  exists x, waits latch_parked !! 1 = Some x /\ may_hold (phase x) = true.
Proof.
  destruct (registry_never_leaks false latch_parked latch_parked_reachable) as [_ H].
  apply H. rewrite latch_parked_registry. left.
Defined.

Lemma poll_steps_sequential_witness :
  exists steps c', wrun latch_parked (BeginPoll 1 8 :: steps) = Some c' /\
    shared c' = shared latch_parked.
Proof.
  destruct (poll_steps_sequential latch_parked 1 8 () Pending false) as (steps & c' & Hr & H).
  - vm_compute. reflexivity.
  - right. reflexivity.
  - exists steps, c'. split; [exact Hr|].
    destruct (poll_registered (shared latch_parked) 1 8 () (registry latch_parked)) as [[[out l] d] r].
    exact (proj1 H).
Defined.

(** ** [CompletionGatedLatch] *)

Definition COMPLETION_GATE_OPEN : Z := 0.
Definition COMPLETION_GATE_FIRED : Z := 1.
Definition COMPLETION_GATE_CLOSED : Z := 2.
Definition COMPLETION_GATE_CLOSED_FIRED : Z := 3.

Record CompletionGatedLatch := mkGated
  { gate_state : Z; gate_fired : bool; gate_completed : bool }.

Definition gated_default : CompletionGatedLatch :=
  mkGated COMPLETION_GATE_OPEN false false.

Definition gated_is_fired (g : CompletionGatedLatch) : bool :=
  (gate_state g =? COMPLETION_GATE_FIRED) || (gate_state g =? COMPLETION_GATE_CLOSED_FIRED).

Definition gated_is_completed (g : CompletionGatedLatch) : bool :=
  (gate_state g =? COMPLETION_GATE_CLOSED) || (gate_state g =? COMPLETION_GATE_CLOSED_FIRED).

(** The successor state and the verdict of [complete]: [inl] is an early
    return, [inr] an exchange to attempt. *)
Definition complete_target (current : Z) : option (bool + Z * bool) :=
  if current =? COMPLETION_GATE_OPEN then Some (inr (COMPLETION_GATE_CLOSED, false))
  else if current =? COMPLETION_GATE_FIRED then Some (inr (COMPLETION_GATE_CLOSED_FIRED, true))
  else if current =? COMPLETION_GATE_CLOSED then Some (inl false)
  else if current =? COMPLETION_GATE_CLOSED_FIRED then Some (inl true)
  else None.

(** Program points of concurrent [fire] and [complete] calls. *)
Inductive Call :=
| FireExchange | FireSignal | FireReturned (won : bool)
| CompleteLoad | CompleteExchange (current : Z) | CompleteSignal (verdict : bool)
| CompleteReturned (verdict : bool)
| CallPanicked.

(** The next atomic step of one call: its new program point and the latch. *)
Definition call_step (g : CompletionGatedLatch) (p : Call)
  : option (Call * CompletionGatedLatch) :=
  match p with
  | FireExchange =>
      if gate_state g =? COMPLETION_GATE_OPEN
      then Some (FireSignal, mkGated COMPLETION_GATE_FIRED (gate_fired g) (gate_completed g))
      else Some (FireReturned false, g)
  | FireSignal =>
      if gate_fired g then Some (CallPanicked, g)
      else Some (FireReturned true, mkGated (gate_state g) true (gate_completed g))
  | CompleteLoad => Some (CompleteExchange (gate_state g), g)
  | CompleteExchange current =>
      match complete_target current with
      | Some (inl verdict) => Some (CompleteReturned verdict, g)
      | Some (inr (next, verdict)) =>
          if gate_state g =? current
          then Some (CompleteSignal verdict, mkGated next (gate_fired g) (gate_completed g))
          else Some (CompleteLoad, g)
      | None => Some (CallPanicked, g)
      end
  | CompleteSignal verdict =>
      if gate_completed g then Some (CallPanicked, g)
      else Some (CompleteReturned verdict, mkGated (gate_state g) (gate_fired g) true)
  | FireReturned _ | CompleteReturned _ | CallPanicked => None
  end.

Record Gated := mkGatedConfig { gated : CompletionGatedLatch; calls : list Call }.

(** Calls start at any time and advance in any order. *)
Inductive gated_step (c : Gated) : Gated -> Prop :=
| start_fire : gated_step c (mkGatedConfig (gated c) (calls c ++ [FireExchange]))
| start_complete : gated_step c (mkGatedConfig (gated c) (calls c ++ [CompleteLoad]))
| advance_call n p p' g :
    calls c !! n = Some p -> call_step (gated c) p = Some (p', g) ->
    gated_step c (mkGatedConfig g (<[n := p']> (calls c))).

Definition is_fire_signal (p : Call) : bool := match p with FireSignal => true | _ => false end.
Definition is_fire_won (p : Call) : bool := match p with FireReturned true => true | _ => false end.
Definition is_complete_signal (p : Call) : bool :=
  match p with CompleteSignal _ => true | _ => false end.

Definition calls_of (f : Call -> bool) (l : list Call) : nat := length (List.filter f l).

(** What one call may claim about the shared word. *)
Definition call_ok (g : CompletionGatedLatch) (p : Call) : Prop :=
  match p with
  | CompleteExchange current =>
      0 <= current <= 3 /\ (2 <= current -> gate_state g = current)
  | CompleteSignal verdict | CompleteReturned verdict =>
      gated_is_completed g = true /\ gated_is_fired g = verdict
  | CallPanicked => False
  | _ => True
  end.

Record gated_inv (c : Gated) : Prop := mkGatedInv
  { gi_range : 0 <= gate_state (gated c) <= 3;
    gi_fired : (calls_of is_fire_signal (calls c) + calls_of is_fire_won (calls c))%nat
      = Nat.b2n (gated_is_fired (gated c));
    gi_won : calls_of is_fire_won (calls c) = Nat.b2n (gate_fired (gated c));
    gi_completed : (calls_of is_complete_signal (calls c) + Nat.b2n (gate_completed (gated c)))%nat
      = Nat.b2n (gated_is_completed (gated c));
    gi_calls : Forall (call_ok (gated c)) (calls c) }.

Lemma calls_of_app f a b : calls_of f (a ++ b) = (calls_of f a + calls_of f b)%nat.
Proof. unfold calls_of. by rewrite List.filter_app, length_app. Qed.

(** Replacing one call changes a count by that call's contribution. *)
Lemma calls_of_insert f n p p' l :
  l !! n = Some p ->
  (calls_of f (<[n := p']> l) + Nat.b2n (f p) = calls_of f l + Nat.b2n (f p'))%nat.
Proof.
  intros Hp. assert (Hlt : (n < length l)%nat) by (by eapply lookup_lt_Some).
  rewrite (insert_take_drop l n p' Hlt). rewrite <- (take_drop_middle l n p Hp) at 3.
  rewrite !calls_of_app. unfold calls_of. simpl. destruct (f p), (f p'); simpl; lia.
Qed.

Lemma call_ok_completed g g' p :
  gated_is_completed g = true -> gate_state g' = gate_state g -> call_ok g p -> call_ok g' p.
Proof.
  unfold call_ok, gated_is_completed, gated_is_fired. intros _ ->. done.
Qed.

(** Another call's exchange leaves a call's claims intact. *)
Lemma call_ok_mono g g' p :
  gate_state g' = gate_state g \/ gated_is_completed g = false ->
  call_ok g p -> call_ok g' p.
Proof.
  intros [H|H] Hp.
  - revert Hp. unfold call_ok, gated_is_completed, gated_is_fired. by rewrite H.
  - destruct p; simpl in *; try done; try naive_solver congruence.
    destruct Hp as [Hr Hc]. split; [done|]. intros H2. exfalso. apply Hc in H2 as Hg.
    unfold gated_is_completed, COMPLETION_GATE_CLOSED, COMPLETION_GATE_CLOSED_FIRED in H.
    rewrite Hg in H. lia.
Qed.

Ltac gate_consts :=
  cbv [COMPLETION_GATE_OPEN COMPLETION_GATE_FIRED COMPLETION_GATE_CLOSED
       COMPLETION_GATE_CLOSED_FIRED] in *.

Lemma gated_inv_advance c n p p' g :
  gated_inv c -> calls c !! n = Some p -> call_step (gated c) p = Some (p', g) ->
  gated_inv (mkGatedConfig g (<[n := p']> (calls c))).
Proof.
  intros [] Hp Hs.
  pose proof (calls_of_insert is_fire_signal n p p' _ Hp) as H1.
  pose proof (calls_of_insert is_fire_won n p p' _ Hp) as H2.
  pose proof (calls_of_insert is_complete_signal n p p' _ Hp) as H3.
  assert (Hok : call_ok (gated c) p) by (rewrite Forall_forall in gi_calls0;
    by eapply gi_calls0, list_elem_of_lookup_2).
  assert (Hall : (gate_state g = gate_state (gated c) \/ gated_is_completed (gated c) = false) ->
    call_ok g p' -> Forall (call_ok g) (<[n := p']> (calls c))).
  { intros Hm Hp'. apply Forall_insert; [|done].
    eapply Forall_impl; [done|]. intros x. by apply call_ok_mono. }
  destruct (gated c) as [st fi co] eqn:Eg. simpl in gi_range0.
  assert (st = 0 \/ st = 1 \/ st = 2 \/ st = 3) as Hst by lia.
  destruct p as [| |v| |cur|v|v|]; simpl in Hs; try done.
  - (* the exchange of a fire *)
    destruct Hst as [->|[->|[->| ->]]]; simpl in *; simplify_eq;
      (split; gate_consts; simpl in *; [lia..|apply Hall; [by auto|done]]).
  - destruct fi; simplify_eq;
      destruct Hst as [->|[->|[->| ->]]]; gate_consts; simpl in *; try lia;
      (split; gate_consts; simpl in *; [lia..|apply Hall; [by left|done]]).
  - simplify_eq. split; simpl in *; try lia. apply Hall; [by left|]. simpl. lia.
  - destruct Hok as [Hr Hc].
    assert (cur = 0 \/ cur = 1 \/ cur = 2 \/ cur = 3) as Hcur by lia.
    destruct Hcur as [->|[->|[->| ->]]], Hst as [->|[->|[->| ->]]]; gate_consts;
      simpl in *; simplify_eq; try lia; try (specialize (Hc ltac:(lia)); lia);
      (split; gate_consts; simpl in *; [lia..|apply Hall; [by auto|done]]).
  - destruct Hok as [Hc Hf]. destruct co; simplify_eq;
      destruct Hst as [->|[->|[->| ->]]]; gate_consts; simpl in *; try lia; try done;
      (split; gate_consts; simpl in *; [lia..|apply Hall; [by left|done]]).
Qed.

Lemma gated_inv_step c c' : gated_inv c -> gated_step c c' -> gated_inv c'.
Proof.
  intros Hi Hs. destruct Hs as [| |n p p' g Hp Hs]; [| |by eapply gated_inv_advance].
  all: destruct Hi; split; simpl; rewrite ?calls_of_app; unfold calls_of in *; simpl; [lia..|];
    apply Forall_app; split; [done|by constructor].
Qed.

Definition gated_start : Gated := mkGatedConfig gated_default [].

Lemma gated_reachable_inv c : rtc gated_step gated_start c -> gated_inv c.
Proof.
  apply (rtc_ind_r (fun c => gated_inv c)).
  - by split.
  - intros x y _ Hs IH. by eapply gated_inv_step.
Qed.

Lemma call_step_completed g p p' g' :
  gated_is_completed g = true -> 0 <= gate_state g <= 3 -> call_step g p = Some (p', g') ->
  gate_state g' = gate_state g.
Proof.
  unfold gated_is_completed. intros Hc Hr Hs. destruct g as [st fi co]. simpl in *.
  assert (st = 2 \/ st = 3) as Hst by (gate_consts; lia).
  unfold call_step, complete_target in Hs. gate_consts. cbn [gate_state gate_fired gate_completed] in Hs.
  destruct p as [| |v| |cur|v|v|];
    repeat match type of Hs with context [?a =? ?b] => destruct (Z.eqb_spec a b) end;
    simplify_eq/=; try lia; by repeat case_match; simplify_eq/=.
Qed.

(** The completion gate linearizes concurrent signals and completions: no
    call trips its assertions, at most one [fire] wins, every [complete]
    returns the same verdict, namely whether a signal won, and after
    completion no signal can be published any more. *)
Theorem completion_gate_linearizes c :
  rtc gated_step gated_start c ->
  (CallPanicked ∉ calls c) /\
  (calls_of is_fire_won (calls c) <= 1)%nat /\
  (FireReturned true ∈ calls c -> gated_is_fired (gated c) = true) /\
  (forall v, CompleteReturned v ∈ calls c ->
     v = gated_is_fired (gated c) /\ gated_is_completed (gated c) = true) /\
  (forall c', rtc gated_step c c' -> gated_is_completed (gated c) = true ->
     gated_is_fired (gated c') = gated_is_fired (gated c)).
Proof.
  intros Hr. pose proof (gated_reachable_inv c Hr) as []. split_and!.
  - intros Hp. rewrite Forall_forall in gi_calls0. by apply gi_calls0 in Hp.
  - rewrite gi_won0. destruct (gate_fired _); simpl; lia.
  - intros Hw. assert (calls_of is_fire_won (calls c) ≠ 0%nat).
    { unfold calls_of. apply list_elem_of_In in Hw.
      assert (Hin : In (FireReturned true) (List.filter is_fire_won (calls c)))
        by (apply filter_In; done).
      destruct (List.filter is_fire_won (calls c)); [done|discriminate]. }
    destruct (gated_is_fired (gated c)); [done|]. simpl in gi_fired0. lia.
  - intros v Hv. rewrite Forall_forall in gi_calls0. apply gi_calls0 in Hv as [? ?]. auto.
  - intros c' Hc' Hd. enough (gate_state (gated c') = gate_state (gated c)) as E
      by (unfold gated_is_fired; by rewrite E).
    clear - Hr Hc' Hd gi_range0. rename gi_range0 into Hrange.
    induction Hc' as [|x y z Hxy _ IH]; [done|].
    assert (Hxy' : gate_state (gated y) = gate_state (gated x)).
    { destruct Hxy as [| |n p p' g Hp Hs]; [done..|]. by eapply call_step_completed. }
    rewrite <- Hxy'. apply IH; [by eapply rtc_r|lia|].
    revert Hd. unfold gated_is_completed. by rewrite Hxy'.
Qed.

(** A completion that races a signal and loses to it. *)
Lemma completion_gate_linearizes_witness :
  let c := mkGatedConfig (mkGated 3 true true) [FireReturned true; CompleteReturned true] in
  gated_is_fired (gated c) = true.
Proof.
  intros c.
  assert (H : rtc gated_step gated_start c).
  { eapply rtc_l; [apply start_fire|]. eapply rtc_l; [apply start_complete|].
    eapply rtc_l; [by eapply (advance_call _ 0%nat)|]. eapply rtc_l; [by eapply (advance_call _ 1%nat)|].
    eapply rtc_l; [by eapply (advance_call _ 1%nat)|]. eapply rtc_l; [by eapply (advance_call _ 0%nat)|].
    eapply rtc_l; [by eapply (advance_call _ 1%nat)|]. apply rtc_refl. }
  refine (proj1 (proj2 (proj2 (completion_gate_linearizes c H))) _). apply list_elem_of_here.
Defined.
