(* ===== verification/Watch.v ===== *)
(** * Watch channels

    [crates/shelterwood-runtime/src/watch.rs]: the conflating state channel.
    The version and the endpoint counts are atomics, the value has its own
    lock, and waits use the registry protocol of [Waiters.v]. *)

From S2P Require Import Prelude Identity Waiters.

Definition usize_max : Z := u64_max.

(** [fetch_add] on an [AtomicU64] wraps. *)
Definition wrapping_succ (n : Z) : Z := (n + 1) mod 2 ^ 64.

Section watch.
Context {T : Type}.

(** [WatchShared], less its registry. *)
Record WatchShared := mkWatch { value : T; version : Z; senders : Z; receivers : Z }.

Record WatchReceiver := mkReceiver { seen : Z }.

Definition retain_endpoint (count : Z) (endpoint : string) : outcome Z :=
  if count + 1 <=? usize_max then Ret (count + 1) else Panics (endpoint ++ " count exhausted").

Definition watch (initial : T) : WatchShared * WatchReceiver :=
  (mkWatch initial 0 1 1, mkReceiver 0).

Definition clone_sender (s : WatchShared) : outcome WatchShared :=
  n ← retain_endpoint (senders s) "watch sender";
  Ret (mkWatch (value s) (version s) n (receivers s)).

(** The last sender wakes the waiters, who will find the channel closed. *)
Definition drop_sender (s : WatchShared) : bool * WatchShared :=
  let previous := senders s in
  (previous =? 1, mkWatch (value s) (version s) (previous - 1) (receivers s)).

Definition watcher (s : WatchShared) : outcome (WatchReceiver * WatchShared) :=
  n ← retain_endpoint (receivers s) "watch receiver";
  Ret (mkReceiver (version s), mkWatch (value s) (version s) (senders s) n).

Definition clone_receiver (r : WatchReceiver) (s : WatchShared)
  : outcome (WatchReceiver * WatchShared) :=
  n ← retain_endpoint (receivers s) "watch receiver";
  Ret (mkReceiver (seen r), mkWatch (value s) (version s) (senders s) n).

Definition drop_receiver (s : WatchShared) : WatchShared :=
  mkWatch (value s) (version s) (senders s) (receivers s - 1).

Definition receiver_count (s : WatchShared) : Z := receivers s.

(** The version advance of [pulse]; its [wake_all] follows separately. *)
Definition pulse (s : WatchShared) : WatchShared :=
  mkWatch (value s) (wrapping_succ (version s)) (senders s) (receivers s).

Definition modify_silently (f : T -> T) (s : WatchShared) : WatchShared :=
  mkWatch (f (value s)) (version s) (senders s) (receivers s).

Definition read_with {R} (project : T -> R) (s : WatchShared) : R := project (value s).
Definition read_cloned (s : WatchShared) : T := value s.
Definition borrow_cloned (s : WatchShared) : T := value s.

Definition borrow_and_update_cloned (r : WatchReceiver) (s : WatchShared) : T * WatchReceiver :=
  (value s, mkReceiver (version s)).

(** ** Waiting *)

Inductive WatchWaitOutcome := Changed | Closed.

(** The readiness test of [WatchWait::poll]. *)
Definition watch_ready (s : WatchShared) (seen : Z) : option (WatchWaitOutcome * Z) :=
  if negb (version s =? seen) then Some (Changed, version s)
  else if senders s =? 0 then Some (Closed, seen)
  else None.

(** [WatchChanged] parks on closure, [WatchChangedOrClosed] reports it. *)
Definition changed_output (o : option WatchWaitOutcome) : option unit :=
  match o with Some Changed => Some () | Some Closed | None => None end.
Definition changed_or_closed_output (o : option WatchWaitOutcome) : option bool :=
  match o with Some Changed => Some true | Some Closed => Some false | None => None end.

(** What the endpoints do to the shared state; a sender's calls need a sender. *)
Inductive WatchEvent :=
| WatchPulse | WatchModify (f : T -> T) | WatchCloneSender | WatchDropSender
| WatchNewReceiver | WatchDropReceiver.

Definition quiet (m : outcome WatchShared) : option (WatchShared * bool) :=
  match m with Ret s => Some (s, false) | _ => None end.

Definition watch_event (s : WatchShared) (e : WatchEvent) : option (WatchShared * bool) :=
  match e with
  | WatchNewReceiver => quiet ('(_, s) ← watcher s; Ret s)
  | WatchDropReceiver => if receivers s =? 0 then None else Some (drop_receiver s, false)
  | WatchPulse => if senders s <=? 0 then None else Some (pulse s, true)
  | WatchModify f => if senders s <=? 0 then None else Some (modify_silently f s, false)
  | WatchCloneSender => if senders s <=? 0 then None else quiet (clone_sender s)
  | WatchDropSender =>
      if senders s <=? 0 then None
      else let '(wakes, s) := drop_sender s in Some (s, wakes)
  end.

Lemma retain_endpoint_Ret n e m : retain_endpoint n e = Ret m -> m = n + 1.
Proof. unfold retain_endpoint. case_match; naive_solver. Qed.

(** An event without a wake keeps the version and leaves a sender. *)
Lemma watch_event_quiet s e s' :
  watch_event s e = Some (s', false) ->
  version s' = version s /\ (senders s' = 0 -> senders s = 0).
Proof.
  destruct e; simpl; unfold clone_sender, watcher; intros H;
    repeat match type of H with context [?a <=? 0] => destruct (Z.leb_spec a 0) end; try done.
  - by simplify_eq.
  - destruct (retain_endpoint _ _) as [n| |] eqn:E; simplify_eq/=.
    apply retain_endpoint_Ret in E. split; [done|lia].
  - destruct (Z.eqb_spec (senders s) 1); simplify_eq/=. split; [done|lia].
  - by destruct (retain_endpoint _ _) as [n| |]; simplify_eq/=.
  - by destruct (receivers s =? 0); simplify_eq/=.
Qed.

Lemma watch_quiet s e s' w :
  watch_event s e = Some (s', false) -> watch_ready s w = None -> watch_ready s' w = None.
Proof.
  intros [Hv Hs]%watch_event_quiet. unfold watch_ready. rewrite Hv.
  destruct (negb _); [done|]. destruct (Z.eqb_spec (senders s) 0); [done|].
  destruct (Z.eqb_spec (senders s') 0); [|done]. naive_solver.
Qed.

#[export] Instance watch_waitable : Waitable WatchShared Z WatchEvent WatchWaitOutcome :=
  mkWaitable _ _ _ _ watch_ready watch_event watch_quiet.

(** A watch channel strands no waiter: when the publishers have finished
    waking, a wait whose last poll returned pending and whose waker has not
    run since has seen the current version, and a sender is still there. *)
Theorem watch_wait_woken initial c i x :
  reaches (watch initial).1 c -> (forall n, n ∈ notifiers c -> n = Waking []) ->
  waits c !! i = Some x -> phase x = Pending -> woken x = false ->
  local x = version (shared c) /\ senders (shared c) ≠ 0.
Proof.
  intros Hr Hn Hx Hp Hw. pose proof (no_lost_wakeup _ c i x Hr Hn Hx Hp Hw) as H.
  simpl in H. unfold watch_ready in H.
  destruct (Z.eqb_spec (version (shared c)) (local x)); [|done].
  by destruct (Z.eqb_spec (senders (shared c)) 0).
Qed.

(** ** Reading while others publish

    A publication writes the value under its lock and then advances the
    version; [borrow_and_update_cloned] samples the version and clones the
    value while it holds the lock. *)

(** Where the receiver is: it holds a value read when [writes] writes had
    happened, or it holds the lock having sampled the version. *)
Inductive Reader :=
| Resting (seen : Z) (copy : T) (read_at : nat)
| Sampled (sample : Z) (old : Reader).

(** [history] are the values written so far, newest first; [unpulsed] counts
    the publications between their write and their version advance. *)
Record Channel := mkChannel
  { chan : WatchShared; history : list T; unpulsed : nat; pulses : Z; reader : Reader }.

Definition rests (r : Reader) : bool := match r with Resting _ _ _ => true | _ => false end.

Inductive chan_step (c : Channel) : Channel -> Prop :=
| chan_write f :
    rests (reader c) = true ->
    chan_step c (mkChannel (modify_silently f (chan c)) (f (value (chan c)) :: history c)
                   (S (unpulsed c)) (pulses c) (reader c))
| chan_pulse n :
    unpulsed c = S n ->
    chan_step c (mkChannel (pulse (chan c)) (history c) n (pulses c + 1) (reader c))
| chan_sample :
    rests (reader c) = true ->
    chan_step c (mkChannel (chan c) (history c) (unpulsed c) (pulses c)
                   (Sampled (version (chan c)) (reader c)))
| chan_clone sample old :
    reader c = Sampled sample old ->
    chan_step c (mkChannel (chan c) (history c) (unpulsed c) (pulses c)
                   (Resting sample (value (chan c)) (length (history c)))).

Definition chan_start (initial : T) : Channel :=
  mkChannel (watch initial).1 [] 0 0 (Resting 0 initial 0).

(** The value a reader that read after [n] writes got. *)
Definition value_at (initial : T) (h : list T) (n : nat) : T :=
  default initial (head (drop (length h - n) h)).

Definition sampled_version (r : Reader) : Z :=
  match r with Resting s _ _ => s | Sampled s _ => s end.

(** The version a reader holds is that of a pulse no later than its value. *)
Record chan_inv (initial : T) (c : Channel) : Prop := mkChanInv
  { ci_count : pulses c + Z.of_nat (unpulsed c) = Z.of_nat (length (history c));
    ci_pulses : 0 <= pulses c;
    ci_version : version (chan c) = pulses c mod 2 ^ 64;
    ci_value : value (chan c) = value_at initial (history c) (length (history c));
    ci_reader : match reader c with
      | Resting s v n => (n <= length (history c))%nat /\ v = value_at initial (history c) n /\
          exists p, 0 <= p <= Z.of_nat n /\ p <= pulses c /\ s = p mod 2 ^ 64
      | Sampled s old => exists p, 0 <= p <= pulses c /\ s = p mod 2 ^ 64
      end }.

Lemma value_at_cons initial v h n :
  (n <= length h)%nat -> value_at initial (v :: h) n = value_at initial h n.
Proof.
  intros Hn. unfold value_at. simpl length.
  by replace (S (length h) - n)%nat with (S (length h - n)) by lia.
Qed.

Lemma value_at_all initial v h : value_at initial (v :: h) (S (length h)) = v.
Proof. unfold value_at. simpl length. by rewrite Nat.sub_diag. Qed.

Lemma chan_inv_step initial c c' : chan_inv initial c -> chan_step c c' -> chan_inv initial c'.
Proof.
  intros [] Hs. destruct Hs as [f Hr|n Hn|Hr|smp old Hr].
  - split; simpl; try done; [lia|by rewrite value_at_all|].
    destruct (reader c) as [s v n|]; [|done]. destruct ci_reader0 as (? & -> & ?).
    split_and!; [lia|by rewrite value_at_cons|done].
  - split; simpl; try done; [lia|lia| |].
    + unfold wrapping_succ. rewrite ci_version0. by rewrite Zplus_mod_idemp_l.
    + destruct (reader c) as [s v k|s old]; [destruct ci_reader0 as (? & ? & p & ? & ? & ?)|
        destruct ci_reader0 as (p & ? & ?)]; [split_and!; [done..|]|]; exists p; lia.
  - split; simpl; try done. exists (pulses c). split; [lia|done].
  - rewrite Hr in ci_reader0. destruct ci_reader0 as (p & ? & ->).
    split; simpl; try done. split_and!; [lia|done|]. exists p. lia.
Qed.

Lemma chan_reachable_inv initial c : rtc chan_step (chan_start initial) c -> chan_inv initial c.
Proof.
  apply (rtc_ind_r (fun c => chan_inv initial c)).
  - split; simpl; try done. split_and!; [done|done|]. exists 0. done.
  - intros x y _ Hs IH. by eapply chan_inv_step.
Qed.

(** A receiver whose seen version is current has read the current value:
    while fewer than 2^64 pulses have happened and no publication is between
    its write and its pulse, [borrow_and_update_cloned] never marks a value as
    seen that it did not return, whatever publications raced the read. *)
Theorem up_to_date_reader_is_fresh initial c s v n :
  rtc chan_step (chan_start initial) c -> reader c = Resting s v n ->
  unpulsed c = 0%nat -> pulses c < 2 ^ 64 -> s = version (chan c) ->
  v = value (chan c).
Proof.
  intros []%chan_reachable_inv Hr Hu Hb Hs. rewrite Hr in ci_reader0.
  destruct ci_reader0 as (Hn & -> & p & Hp & Hpp & ->).
  rewrite ci_version0 in Hs. rewrite !Z.mod_small in Hs by lia.
  rewrite ci_value0. f_equal. lia.
Qed.
End watch.
Arguments WatchShared T : clear implicits.
Arguments WatchEvent T : clear implicits.

(** A wait parks, a pulse wakes it. *)
Definition watch_script : list (Action Z (WatchEvent Z)) :=
  [NewWait 0; BeginPoll 1 7; Check 1; Register 1; Check 1].

Definition watch_demo : Config (WatchShared Z) Z WatchWaitOutcome :=
  default (initial_config (watch 5).1) (wrun (initial_config (watch 5).1) watch_script).

Lemma watch_wait_woken_witness :
  local (mkWait (T := WatchWaitOutcome) 0 Pending false) = version (shared watch_demo) /\
  senders (shared watch_demo) ≠ 0.
Proof.
  apply (watch_wait_woken 5 watch_demo 1); [|vm_compute; by intros n ?%not_elem_of_nil
    |vm_compute; reflexivity|reflexivity|reflexivity].
  apply (wrun_reaches _ (initial_config (watch 5).1) watch_script); [apply reaches_new|].
  vm_compute. reflexivity.
Defined.

(** A read between two publications, the second of which is then seen. *)
Lemma up_to_date_reader_is_fresh_witness :
  let c := mkChannel (mkWatch 7 1 1 1) [7] 0 1 (Resting 1 7 1) in 7 = value (chan c).
Proof.
  intros c. apply (up_to_date_reader_is_fresh 5 c 1 7 1); [|reflexivity..].
  eapply rtc_l; [apply (chan_write _ (fun _ => 7)); reflexivity|].
  eapply rtc_l; [by apply (chan_pulse _ 0)|].
  eapply rtc_l; [by apply chan_sample|].
  eapply rtc_l; [by eapply chan_clone|]. apply rtc_refl.
Defined.
