(* ===== verification/OneShot.v ===== *)
(** * One-shot channels

    [crates/shelterwood-runtime/src/oneshot.rs]: a shared transition word
    arbitrates send, sender drop and receiver close around a Tokio one-shot
    channel.  The Tokio channel is a parameter, used through the interface
    [TokioOneshot]. *)

From S2P Require Import Prelude.

Definition ONESHOT_OPEN : Z := 0.
Definition ONESHOT_SENDING : Z := 1.
Definition ONESHOT_SENT : Z := 2.
Definition ONESHOT_SENDER_CLOSED : Z := 3.
Definition ONESHOT_RECEIVER_CLOSED : Z := 4.

(** ** The runtime's channel

    What the documentation of [tokio::sync::oneshot] promises, through the
    state a channel is in: open, closed by the receiver before a value, with a
    stored value, or finished (value taken, or sender dropped). *)
Inductive View (T : Type) := VOpen | VClosed | VStored (v : T) | VDone.
Arguments VOpen {T}.
Arguments VClosed {T}.
Arguments VStored {T} _.
Arguments VDone {T}.

Class TokioOneshot (T Ch : Type) := mkTokio
  { ch_new : Ch;
    ch_send : T -> Ch -> result unit T * Ch;
    ch_drop_sender : Ch -> Ch;
    ch_close : Ch -> Ch;
    ch_poll : Ch -> option (option T) * Ch;
    ch_view : Ch -> View T;
    view_new : ch_view ch_new = VOpen;
    view_send v c r c' : ch_send v c = (r, c') ->
      match ch_view c with
      | VOpen => r = Ok () /\ ch_view c' = VStored v
      | VClosed => r = Err v /\ ch_view c' = VClosed
      | _ => True
      end;
    view_drop_sender c : ch_view (ch_drop_sender c) =
      match ch_view c with VOpen => VDone | x => x end;
    view_close c : ch_view (ch_close c) = match ch_view c with VOpen => VClosed | x => x end;
    view_poll c r c' : ch_poll c = (r, c') ->
      match ch_view c with
      | VOpen => r = None /\ ch_view c' = VOpen
      | VClosed => r = Some None /\ ch_view c' = VClosed
      | VStored v => r = Some (Some v) /\ ch_view c' = VDone
      | VDone => r = Some None /\ ch_view c' = VDone
      end }.

Section oneshot.
Context {T Ch : Type} `{!TokioOneshot T Ch}.

(** [Receiver::try_recv] is a poll that registers nothing. *)
Definition ch_try_recv (c : Ch) : option T * Ch :=
  match ch_poll c with (Some r, c) => (r, c) | (None, c) => (None, c) end.

Record Shared := mkShared { word : Z; channel : Ch }.

Definition oneshot : Shared := mkShared ONESHOT_OPEN ch_new.

(** [compare_exchange(ONESHOT_OPEN, next)]. *)
Definition exchange (next : Z) (s : Shared) : bool * Shared :=
  if word s =? ONESHOT_OPEN then (true, mkShared next (channel s)) else (false, s).

Inductive OneShotClose := Value (v : T) | SenderClosed | Empty | PendingClose.

(** ** The sending side *)

(** Program points of a sender. *)
Inductive SenderAt :=
| SLive
| SExchanged (v : T)                          (* owns the sending window *)
| SStoring (v : T) (sent : bool)              (* the channel answered; the word is next *)
| SReleasing (refused : option T)             (* the drop glue: the channel is next *)
| SReturned (v : T) (sent : bool)
| SDropped.

(** [OneShotSender::send], its first atomic step. *)
Definition send_exchange (v : T) (s : Shared) : SenderAt * Shared :=
  match exchange ONESHOT_SENDING s with
  | (true, s) => (SExchanged v, s)
  | (false, s) => (SReleasing (Some v), s)
  end.

(** [OneShotSender::drop], its first atomic step. *)
Definition drop_exchange (s : Shared) : SenderAt * Shared :=
  (SReleasing None, (exchange ONESHOT_SENDER_CLOSED s).2).

(** The following steps: [publish_oneshot] in its two halves, and the release
    of the channel. *)
Definition sender_step (p : SenderAt) (s : Shared) : option (SenderAt * Shared) :=
  match p with
  | SExchanged v =>
      match ch_send v (channel s) with
      | (Ok _, c) => Some (SStoring v true, mkShared (word s) c)
      | (Err v, c) => Some (SStoring v false, mkShared (word s) c)
      end
  | SStoring v sent =>
      Some (SReturned v sent,
            mkShared (if sent : bool then ONESHOT_SENT else ONESHOT_RECEIVER_CLOSED) (channel s))
  | SReleasing refused =>
      Some (match refused with Some v => SReturned v false | None => SDropped end,
            mkShared (word s) (ch_drop_sender (channel s)))
  | SLive | SReturned _ _ | SDropped => None
  end.

(** ** The receiving side *)

Inductive ReceiverAt :=
| RIdle
| RMustClose (reports take : bool)   (* the word is arbitrated; the channel closes next *)
| RMustTake
| RMustPoll.

Record Receiver := mkReceiver { completed : bool; receiver_at : ReceiverAt }.

Inductive Output :=
| OutPoll (r : option T) | OutClose (c : OneShotClose) | OutTook (r : option T)
| OutRepolled | OutUnreachable.

Inductive ReceiverCall := PollReceive | CloseAndPoll | Close | CloseAndTake.

(** A call's first atomic step, from an idle receiver. *)
Definition receiver_call (k : ReceiverCall) (r : Receiver) (s : Shared)
  : list Output * Receiver * Shared :=
  match k with
  | PollReceive =>
      if completed r then ([OutRepolled], r, s)
      else match ch_poll (channel s) with
           | (None, c) => ([], r, mkShared (word s) c)
           | (Some o, c) => ([OutPoll o], mkReceiver true RIdle, mkShared (word s) c)
           end
  | CloseAndPoll =>
      if completed r then ([OutRepolled], r, s)
      else
        let w := word s in
        match exchange ONESHOT_RECEIVER_CLOSED s with
        | (true, s) => ([], mkReceiver false (RMustClose true false), s)
        | (false, s) =>
            if w =? ONESHOT_SENDER_CLOSED then ([OutClose SenderClosed], mkReceiver true RIdle, s)
            else if (w =? ONESHOT_SENDING) || (w =? ONESHOT_SENT)
            then ([], mkReceiver false RMustPoll, s)
            else if w =? ONESHOT_RECEIVER_CLOSED
            then ([OutClose Empty], mkReceiver true RIdle, s)
            else ([OutUnreachable], r, s)
        end
  | Close => ([], mkReceiver (completed r) (RMustClose false false),
              (exchange ONESHOT_RECEIVER_CLOSED s).2)
  | CloseAndTake => ([], mkReceiver (completed r) (RMustClose false true),
                     (exchange ONESHOT_RECEIVER_CLOSED s).2)
  end.

(** The following steps of a call. *)
Definition receiver_step (r : Receiver) (s : Shared)
  : option (list Output * Receiver * Shared) :=
  match receiver_at r with
  | RIdle => None
  | RMustClose reports take =>
      let s := mkShared (word s) (ch_close (channel s)) in
      if reports : bool then Some ([OutClose Empty], mkReceiver true RIdle, s)
      else Some ([], mkReceiver (completed r) (if take : bool then RMustTake else RIdle), s)
  | RMustTake =>
      let '(o, c) := ch_try_recv (channel s) in
      Some ([OutTook o], mkReceiver true RIdle, mkShared (word s) c)
  | RMustPoll =>
      match ch_poll (channel s) with
      | (None, c) => Some ([OutClose PendingClose], mkReceiver false RIdle, mkShared (word s) c)
      | (Some (Some v), c) =>
          Some ([OutClose (Value v)], mkReceiver true RIdle, mkShared (word s) c)
      | (Some None, c) =>
          Some ([OutClose SenderClosed], mkReceiver true RIdle, mkShared (word s) c)
      end
  end.

(** ** Concurrent runs *)

Record Duplex := mkDuplex
  { sh : Shared; sender : SenderAt; receiver : Receiver; outs : list Output }.

Inductive duplex_step (x : Duplex) : Duplex -> Prop :=
| step_send v p s :
    sender x = SLive -> send_exchange v (sh x) = (p, s) ->
    duplex_step x (mkDuplex s p (receiver x) (outs x))
| step_drop p s :
    sender x = SLive -> drop_exchange (sh x) = (p, s) ->
    duplex_step x (mkDuplex s p (receiver x) (outs x))
| step_sender p s :
    sender_step (sender x) (sh x) = Some (p, s) ->
    duplex_step x (mkDuplex s p (receiver x) (outs x))
| step_call k o r s :
    receiver_at (receiver x) = RIdle -> receiver_call k (receiver x) (sh x) = (o, r, s) ->
    duplex_step x (mkDuplex s (sender x) r (outs x ++ o))
| step_receiver o r s :
    receiver_step (receiver x) (sh x) = Some (o, r, s) ->
    duplex_step x (mkDuplex s (sender x) r (outs x ++ o)).

Definition duplex_start : Duplex := mkDuplex oneshot SLive (mkReceiver false RIdle) [].

(** The values the receiver got. *)
Definition delivered (l : list Output) : list T :=
  omap (fun o => match o with
                 | OutPoll r | OutTook r => r
                 | OutClose (Value v) => Some v
                 | _ => None end) l.

(** ** The invariant *)

Definition view (x : Duplex) : View T := ch_view (channel (sh x)).

(** A successful send's value is stored until it is delivered. *)
Definition sent_ok (x : Duplex) (v : T) : Prop :=
  view x = VStored v /\ delivered (outs x) = [] \/ view x = VDone /\ delivered (outs x) = [v].

Definition unsent (x : Duplex) : Prop := view x = VOpen \/ view x = VClosed.

Definition sender_ok (x : Duplex) : Prop :=
  let w := word (sh x) in
  let nothing := delivered (outs x) = [] in
  match sender x with
  | SLive => nothing /\ (w = 0 /\ view x = VOpen \/ w = 4 /\ unsent x)
  | SExchanged v => nothing /\ w = 1 /\ unsent x
  | SStoring v true => w = 1 /\ sent_ok x v
  | SStoring v false => nothing /\ w = 1 /\ view x = VClosed
  | SReturned v true => w = 2 /\ sent_ok x v
  | SReturned v false => nothing /\ w = 4 /\ (view x = VClosed \/ view x = VDone)
  | SReleasing (Some _) => nothing /\ w = 4 /\ unsent x
  | SReleasing None => nothing /\ (w = 3 \/ w = 4) /\ unsent x
  | SDropped => nothing /\ (w = 3 \/ w = 4) /\ (view x = VClosed \/ view x = VDone)
  end.

(** No send can succeed any more. *)
Definition refused (x : Duplex) : Prop :=
  word (sh x) = 3 \/ word (sh x) = 4 \/ word (sh x) = 1 /\ view x = VClosed.

Record oinv (x : Duplex) : Prop := mkOinv
  { oi_sender : sender_ok x;
    oi_reports : forall rp b, receiver_at (receiver x) = RMustClose rp b ->
      word (sh x) ≠ 0 /\ (rp = true -> word (sh x) = 4);
    oi_take : receiver_at (receiver x) = RMustTake -> view x ≠ VOpen;
    oi_completed : completed (receiver x) = true -> delivered (outs x) = [] -> refused x;
    oi_reached : OutUnreachable ∉ outs x }.

Lemma delivered_app a b : delivered (a ++ b) = delivered a ++ delivered b.
Proof. unfold delivered. apply omap_app. Qed.

Ltac oneshot_consts :=
  cbv [ONESHOT_OPEN ONESHOT_SENDING ONESHOT_SENT ONESHOT_SENDER_CLOSED
       ONESHOT_RECEIVER_CLOSED] in *.

(** Where the sender is decides whether the receiver is refused. *)
Lemma refused_excludes x v :
  sender_ok x -> refused x -> sender x ≠ SStoring v true /\ sender x ≠ SReturned v true.
Proof.
  unfold sender_ok, refused, sent_ok. intros Hs Hr.
  split; intros E; rewrite E in Hs; intuition (congruence || lia).
Qed.

(** One step of the sender: the word and the channel it leaves. *)
Lemma oinv_sender x p s :
  oinv x ->
  (sender x = SLive /\ ((exists v, send_exchange v (sh x) = (p, s)) \/ drop_exchange (sh x) = (p, s)) \/
   sender_step (sender x) (sh x) = Some (p, s)) ->
  let x' := mkDuplex s p (receiver x) (outs x) in
  sender_ok x' /\ (view x ≠ VOpen -> view x' ≠ VOpen) /\ (refused x -> refused x') /\
  (word (sh x) = 4 -> word s = 4) /\ (word (sh x) ≠ 0 -> word s ≠ 0).
Proof.
  intros [Hs _ _ _ _] Hst. unfold sender_ok, refused, unsent, sent_ok, view in *.
  destruct Hst as [[El [[v H]|H]]|H].
  - rewrite El in Hs. unfold send_exchange, exchange in H. oneshot_consts.
    destruct (Z.eqb_spec (word (sh x)) 0); simplify_eq/=; intuition (congruence || lia).
  - rewrite El in Hs. unfold drop_exchange, exchange in H. oneshot_consts.
    destruct (Z.eqb_spec (word (sh x)) 0); simplify_eq/=; intuition (congruence || lia).
  - destruct (sender x) as [|v|v [] |[v|]|v b|]; simpl in H; simplify_eq/=; oneshot_consts.
    + destruct Hs as (Hn & Hw & Hv). destruct (ch_send v _) as [[[]|v'] c] eqn:E;
        pose proof (view_send _ _ _ _ E) as Hc; simplify_eq/=;
        destruct Hv as [Hv|Hv]; rewrite Hv in Hc |- *; destruct Hc as [Hc Hc']; simplify_eq;
        rewrite ?Hc'; intuition (congruence || lia).
    + intuition (congruence || lia).
    + intuition (congruence || lia).
    + rewrite view_drop_sender. destruct Hs as (Hn & Hw & [Hv|Hv]); rewrite Hv; intuition (congruence || lia).
    + rewrite view_drop_sender. destruct Hs as (Hn & Hw & [Hv|Hv]); rewrite Hv; intuition (congruence || lia).
Qed.

(** Polling the channel: at most the stored value moves to the receiver, and a
    poll that finds nothing in a finished channel means refusal. *)
Lemma oinv_poll x r c rv o :
  sender_ok x -> ch_poll (channel (sh x)) = (r, c) ->
  delivered o = match r with Some (Some v) => [v] | _ => [] end ->
  let x' := mkDuplex (mkShared (word (sh x)) c) (sender x) rv (outs x ++ o) in
  sender_ok x' /\ (view x ≠ VOpen -> view x' ≠ VOpen) /\ (refused x -> refused x') /\
  (r = Some None -> delivered (outs x) = [] -> refused x').
Proof.
  intros Hs Hp Ho. pose proof (view_poll _ _ _ Hp) as Hv. simpl.
  unfold sender_ok, refused, unsent, sent_ok, view in *. simpl in *. rewrite delivered_app, Ho.
  destruct (ch_view (channel (sh x))) eqn:Ev; destruct Hv as [-> Hv]; rewrite Hv, ?app_nil_r;
    destruct (sender x) as [|v'|v' [] |[v'|]|v' []|]; simpl in *;
    intuition (try congruence; try lia).
  all: try (right; split; [done|]); simplify_eq;
    match goal with H : delivered _ = [] |- _ => by rewrite H end.
Qed.

(** Closing the channel. *)
Lemma oinv_close x rv o :
  sender_ok x -> word (sh x) ≠ 0 -> delivered o = [] ->
  let x' := mkDuplex (mkShared (word (sh x)) (ch_close (channel (sh x)))) (sender x) rv (outs x ++ o) in
  sender_ok x' /\ view x' ≠ VOpen /\ (refused x -> refused x').
Proof.
  intros Hs Hw Ho. unfold sender_ok, refused, unsent, sent_ok, view in *. simpl.
  rewrite delivered_app, Ho, app_nil_r, view_close.
  destruct (ch_view (channel (sh x))) eqn:Ev;
    destruct (sender x) as [|v'|v' [] |[v'|]|v' []|]; simpl in *; intuition (congruence || lia).
Qed.

(** The receiver's compare-exchange. *)
Lemma oinv_exchange x rv o s :
  sender_ok x -> delivered o = [] -> (exchange ONESHOT_RECEIVER_CLOSED (sh x)).2 = s ->
  let x' := mkDuplex s (sender x) rv (outs x ++ o) in
  sender_ok x' /\ view x' = view x /\ (refused x -> refused x') /\ word s ≠ 0 /\
  (word (sh x) = 0 -> word s = 4) /\ (word (sh x) ≠ 0 -> s = sh x).
Proof.
  intros Hs Ho <-. unfold exchange. oneshot_consts.
  unfold sender_ok, refused, unsent, sent_ok, view in *. simpl in *.
  rewrite delivered_app, Ho, app_nil_r.
  destruct (Z.eqb_spec (word (sh x)) 0) as [E|E]; simpl; [|intuition (congruence || lia)].
  destruct (sender x) as [|v'|v' [] |[v'|]|v' []|]; simpl in *; intuition (congruence || lia).
Qed.

Lemma word_range x : sender_ok x -> 0 <= word (sh x) <= 4.
Proof.
  unfold sender_ok. destruct (sender x) as [|v'|v' [] |[v'|]|v' []|]; intuition lia.
Qed.

(** Only the receiver's bookkeeping changes. *)
Lemma oinv_note x rv o :
  oinv x -> delivered o = [] -> OutUnreachable ∉ o ->
  receiver_at rv = RIdle \/ receiver_at rv = RMustPoll ->
  (completed rv = true -> delivered (outs x) = [] -> refused x) ->
  oinv (mkDuplex (sh x) (sender x) rv (outs x ++ o)).
Proof.
  intros [Hs Hrep Ht Hc Hu] Ho Hno Hat Hcp.
  assert (Hd : delivered (outs x ++ o) = delivered (outs x)) by (by rewrite delivered_app, Ho, app_nil_r).
  split; simpl.
  - unfold sender_ok, sent_ok, unsent, view in *. simpl. by rewrite Hd.
  - intros rp b E. destruct Hat; congruence.
  - intros E. destruct Hat; congruence.
  - rewrite Hd. exact Hcp.
  - rewrite elem_of_app. tauto.
Qed.

Lemma repolled_quiet : delivered [OutRepolled] = [] /\ OutUnreachable ∉ [OutRepolled].
Proof. split; [done|]. rewrite list_elem_of_singleton. discriminate. Qed.

Lemma oinv_poll_receive x o r s :
  oinv x -> receiver_at (receiver x) = RIdle ->
  receiver_call PollReceive (receiver x) (sh x) = (o, r, s) ->
  oinv (mkDuplex s (sender x) r (outs x ++ o)).
Proof.
  intros Hi Hidle H. simpl in H. destruct (completed (receiver x)) eqn:Ec.
  { simplify_eq. apply oinv_note; try apply repolled_quiet; auto. apply (oi_completed _ Hi). }
  destruct Hi as [Hs Hrep Ht Hc Hu].
  destruct (ch_poll (channel (sh x))) as [[q|] c] eqn:Ep; simplify_eq.
  - destruct (oinv_poll x (Some q) c (mkReceiver true RIdle) [OutPoll q] Hs Ep) as (H1 & _ & _ & H4);
      [by destruct q|]. split; simpl; try done.
    + intros _. rewrite delivered_app. intros [Hd Hq]%app_eq_nil. destruct q; [done|by apply H4].
    + rewrite elem_of_app, list_elem_of_singleton. intuition discriminate.
  - destruct (oinv_poll x None c (receiver x) [] Hs Ep) as (H1 & _ & H3 & _); [done|].
    split; simpl; rewrite ?Hidle, ?Ec; try done. by rewrite app_nil_r.
Qed.

Lemma oinv_close_and_poll x o r s :
  oinv x -> receiver_at (receiver x) = RIdle ->
  receiver_call CloseAndPoll (receiver x) (sh x) = (o, r, s) ->
  oinv (mkDuplex s (sender x) r (outs x ++ o)).
Proof.
  intros Hi Hidle H. simpl in H. pose proof (word_range x (oi_sender _ Hi)) as Hrange.
  destruct (completed (receiver x)) eqn:Ec.
  { simplify_eq. apply oinv_note; try apply repolled_quiet; auto. apply (oi_completed _ Hi). }
  unfold exchange in H. oneshot_consts. destruct (Z.eqb_spec (word (sh x)) 0) as [E0|E0].
  { simplify_eq. destruct Hi as [Hs Hrep Ht Hc Hu].
    destruct (oinv_exchange x (mkReceiver false (RMustClose true false)) []
      (mkShared 4 (channel (sh x))) Hs eq_refl) as (H1 & _).
    { unfold exchange. oneshot_consts. by rewrite E0. }
    split; simpl; try done. by rewrite app_nil_r. }
  destruct (Z.eqb_spec (word (sh x)) 3).
  { simplify_eq. apply oinv_note; simpl; auto; [rewrite list_elem_of_singleton; discriminate|].
    intros _ _. by left. }
  destruct (Z.eqb_spec (word (sh x)) 1), (Z.eqb_spec (word (sh x)) 2); simpl in H;
    try (simplify_eq; apply oinv_note; simpl; auto; [apply not_elem_of_nil|done]).
  destruct (Z.eqb_spec (word (sh x)) 4); simplify_eq; [|lia].
  apply oinv_note; simpl; auto; [rewrite list_elem_of_singleton; discriminate|].
  intros _ _. right. by left.
Qed.

(** [close] and the first half of [close_and_take]. *)
Lemma oinv_begin_close x take :
  oinv x ->
  oinv (mkDuplex (exchange ONESHOT_RECEIVER_CLOSED (sh x)).2 (sender x)
          (mkReceiver (completed (receiver x)) (RMustClose false take)) (outs x ++ [])).
Proof.
  intros [Hs Hrep Ht Hc Hu].
  destruct (oinv_exchange x (mkReceiver (completed (receiver x)) (RMustClose false take))
    [] _ Hs eq_refl eq_refl) as (H1 & H2 & H3 & H4 & _).
  split; simpl; try done; [intros rp b [= <- _]; by split|rewrite app_nil_r; auto..].
Qed.

Lemma oinv_call x k o r s :
  oinv x -> receiver_at (receiver x) = RIdle -> receiver_call k (receiver x) (sh x) = (o, r, s) ->
  oinv (mkDuplex s (sender x) r (outs x ++ o)).
Proof.
  intros Hi Hidle H. destruct k.
  - by eapply oinv_poll_receive.
  - by eapply oinv_close_and_poll.
  - simpl in H. simplify_eq. by apply oinv_begin_close.
  - simpl in H. simplify_eq. by apply oinv_begin_close.
Qed.

Lemma oinv_receiver x o r s :
  oinv x -> receiver_step (receiver x) (sh x) = Some (o, r, s) ->
  oinv (mkDuplex s (sender x) r (outs x ++ o)).
Proof.
  intros [Hs Hrep Ht Hc Hu] H. unfold receiver_step in H.
  destruct (receiver_at (receiver x)) as [|rp b| |] eqn:Eat; [done|..].
  - destruct (Hrep rp b eq_refl) as [Hw Hw4].
    assert (Hcl : forall rv o', delivered o' = [] -> OutUnreachable ∉ o' ->
      receiver_at rv = RIdle \/ receiver_at rv = RMustTake ->
      (completed rv = true -> delivered (outs x) = [] -> refused x) ->
      oinv (mkDuplex (mkShared (word (sh x)) (ch_close (channel (sh x)))) (sender x) rv (outs x ++ o'))).
    { intros rv o' Hd Hno Hat Hcp. destruct (oinv_close x rv o' Hs Hw Hd) as (H1 & H2 & H3).
      split; simpl; try done.
      - intros rp' b' E. destruct Hat; congruence.
      - rewrite delivered_app, Hd, app_nil_r. auto.
      - rewrite elem_of_app. tauto. }
    destruct rp; simplify_eq.
    + apply Hcl; simpl; auto; [rewrite list_elem_of_singleton; discriminate|].
      intros _ _. right; left. auto.
    + apply Hcl; simpl; auto; [apply not_elem_of_nil|destruct b; auto].
  - unfold ch_try_recv in H. destruct (ch_poll (channel (sh x))) as [q c] eqn:Ep.
    pose proof (view_poll _ _ _ Ep) as Hv. specialize (Ht eq_refl). unfold view in Ht.
    assert (exists q', q = Some q') as [q' ->] by (destruct (ch_view _); naive_solver).
    simplify_eq.
    destruct (oinv_poll x (Some q') c (mkReceiver true RIdle) [OutTook q'] Hs Ep) as (H1 & _ & _ & H4);
      [by destruct q'|]. split; simpl; try done.
    + intros _. rewrite delivered_app. intros [Hd Hq]%app_eq_nil. destruct q'; [done|by apply H4].
    + rewrite elem_of_app, list_elem_of_singleton. intuition discriminate.
  - destruct (ch_poll (channel (sh x))) as [[[v|]|] c] eqn:Ep; simplify_eq.
    + destruct (oinv_poll x _ c (mkReceiver true RIdle) [OutClose (Value v)] Hs Ep) as (H1 & _); [done|].
      split; simpl; try done.
      * intros _. rewrite delivered_app. by intros [_ ?]%app_eq_nil.
      * rewrite elem_of_app, list_elem_of_singleton. intuition discriminate.
    + destruct (oinv_poll x _ c (mkReceiver true RIdle) [OutClose SenderClosed] Hs Ep)
        as (H1 & _ & _ & H4); [done|]. split; simpl; try done.
      * intros _. rewrite delivered_app. intros [Hd _]%app_eq_nil. by apply H4.
      * rewrite elem_of_app, list_elem_of_singleton. intuition discriminate.
    + destruct (oinv_poll x _ c (mkReceiver false RIdle) [OutClose PendingClose] Hs Ep) as (H1 & _);
        [done|]. split; simpl; try done.
      rewrite elem_of_app, list_elem_of_singleton. intuition discriminate.
Qed.

Lemma oinv_sender_step x p s :
  oinv x ->
  (sender x = SLive /\ ((exists v, send_exchange v (sh x) = (p, s)) \/ drop_exchange (sh x) = (p, s)) \/
   sender_step (sender x) (sh x) = Some (p, s)) ->
  oinv (mkDuplex s p (receiver x) (outs x)).
Proof.
  intros Hi Hst. destruct (oinv_sender x p s Hi Hst) as (H1 & H2 & H3 & H4 & H5).
  destruct Hi. split; simpl; auto. intros rp b E. destruct (oi_reports0 rp b E). auto.
Qed.

Lemma oinv_step x x' : oinv x -> duplex_step x x' -> oinv x'.
Proof.
  intros Hi H. destruct H.
  - eapply oinv_sender_step; eauto.
  - eapply oinv_sender_step; eauto.
  - eapply oinv_sender_step; eauto.
  - by eapply oinv_call.
  - by eapply oinv_receiver.
Qed.

Lemma oinv_reachable x : rtc duplex_step duplex_start x -> oinv x.
Proof.
  apply (rtc_ind_r (fun x => oinv x)).
  - split; simpl; try done; [|apply not_elem_of_nil].
    unfold sender_ok, view. simpl. rewrite view_new. auto.
  - intros y z _ Hs IH. by eapply oinv_step.
Qed.

(** Refusal is final. *)
Lemma refused_step x x' : oinv x -> refused x -> duplex_step x x' -> refused x'.
Proof.
  intros Hi Hr H. pose proof (oi_sender _ Hi) as Hs.
  assert (Hpoll : forall q c rv o, ch_poll (channel (sh x)) = (q, c) ->
    refused (mkDuplex (mkShared (word (sh x)) c) (sender x) rv o)).
  { intros q c rv o Ep. destruct (oinv_poll x q c rv
      (match q with Some (Some v) => [OutPoll (Some v)] | _ => [] end) Hs Ep) as (_ & _ & H3 & _);
      [by destruct q as [[]|]|]. by apply H3 in Hr. }
  destruct H as [v p s El H|p s El H|p s H|k o r s El H|o r s H].
  - destruct (oinv_sender x p s Hi) as (_ & _ & H3 & _); eauto.
  - destruct (oinv_sender x p s Hi) as (_ & _ & H3 & _); eauto.
  - destruct (oinv_sender x p s Hi) as (_ & _ & H3 & _); eauto.
  - assert (Hx : refused (mkDuplex (exchange ONESHOT_RECEIVER_CLOSED (sh x)).2 (sender x) r
      (outs x ++ []))) by (by apply (oinv_exchange x r [] _ Hs eq_refl eq_refl)).
    destruct k; simpl in H.
    + destruct (completed _); [by simplify_eq|].
      destruct (ch_poll _) as [[q|] c] eqn:Ep; simplify_eq; by eapply Hpoll.
    + destruct (completed _); [by simplify_eq|]. unfold exchange in H, Hx.
      destruct (word (sh x) =? ONESHOT_OPEN); [by simplify_eq|].
      repeat case_match; simplify_eq; exact Hr.
    + simplify_eq. exact Hx.
    + simplify_eq. exact Hx.
  - unfold receiver_step, ch_try_recv in H. destruct (receiver_at (receiver x)) as [|rp b| |] eqn:Eat; [done|..].
    + destruct (oi_reports _ Hi rp b Eat) as [Hw _].
      assert (Hx : refused (mkDuplex (mkShared (word (sh x)) (ch_close (channel (sh x)))) (sender x) r
        (outs x ++ []))) by (by apply (oinv_close x r [] Hs Hw eq_refl)).
      destruct rp; simplify_eq; exact Hx.
    + destruct (ch_poll _) as [[q|] c] eqn:Ep; simplify_eq; by eapply Hpoll.
    + destruct (ch_poll _) as [[[q|]|] c] eqn:Ep; simplify_eq; by eapply Hpoll.
Qed.

(** A one-shot delivers its value exactly once or hands it back.  However
    the sender's and receiver's steps interleave, the receiver gets at most
    the value that was sent; a send that returned success has its value
    stored or delivered, one that failed kept it from the receiver; a sender
    that was dropped delivers nothing; and no call reaches the unreachable
    transition state. *)
Theorem oneshot_delivers_once x :
  rtc duplex_step duplex_start x ->
  match sender x with
  | SReturned v true =>
      view x = VStored v /\ delivered (outs x) = [] \/ view x = VDone /\ delivered (outs x) = [v]
  | SReturned _ false | SDropped =>
      delivered (outs x) = [] /\ forall v, view x ≠ VStored v
  | _ => (length (delivered (outs x)) <= 1)%nat
  end /\ OutUnreachable ∉ outs x.
Proof.
  intros []%oinv_reachable. split; [|done]. unfold sender_ok, sent_ok, unsent in oi_sender0.
  destruct (sender x) as [|v|v [] |[v|]|v []|]; simpl in *;
    intuition (try congruence; match goal with H : delivered _ = _ |- _ => rewrite H; simpl; lia end).
Qed.

(** The close arbitration is final: once the receiver has completed without
    a value, the send never succeeds, neither before nor later, and no value
    is ever delivered. *)
Theorem oneshot_close_is_final x x' v :
  rtc duplex_step duplex_start x -> completed (receiver x) = true -> delivered (outs x) = [] ->
  rtc duplex_step x x' ->
  sender x' ≠ SReturned v true /\ delivered (outs x') = [].
Proof.
  intros Hr Hc Hd Hx. pose proof (oinv_reachable x Hr) as Hi.
  pose proof (oi_completed _ Hi Hc Hd) as Hf. clear Hr Hc.
  assert (H : oinv x' /\ refused x').
  { clear Hd. induction Hx as [|x y z Hxy _ IH]; [done|].
    apply IH; [by eapply oinv_step|by eapply refused_step]. }
  destruct H as [Hi' Hf']. split; [by apply refused_excludes; [apply oi_sender|]|].
  destruct Hi' as [Hs _ _ _ _]. unfold sender_ok, sent_ok, refused in *.
  destruct (sender x') as [|v'|v' [] |[v'|]|v' []|]; intuition (congruence || lia).
Qed.
End oneshot.
Arguments Duplex T Ch : clear implicits.
Arguments Output T : clear implicits.

(** ** A channel with the documented behaviour *)

Definition view_ch_send {T} (v : T) (c : View T) : result unit T * View T :=
  match c with VOpen => (Ok (), VStored v) | c => (Err v, c) end.
Definition view_ch_drop {T} (c : View T) : View T := match c with VOpen => VDone | c => c end.
Definition view_ch_close {T} (c : View T) : View T := match c with VOpen => VClosed | c => c end.
Definition view_ch_poll {T} (c : View T) : option (option T) * View T :=
  match c with
  | VOpen => (None, VOpen)
  | VClosed => (Some None, VClosed)
  | VStored v => (Some (Some v), VDone)
  | VDone => (Some None, VDone)
  end.

#[export] Instance view_tokio {T} : TokioOneshot T (View T).
Proof.
  refine (mkTokio T (View T) VOpen view_ch_send view_ch_drop view_ch_close view_ch_poll id _ _ _ _ _).
  - reflexivity.
  - by intros v [] r c' [= <- <-].
  - by intros [].
  - by intros [].
  - by intros [] r c' [= <- <-].
Defined.

(** A send in its window while the receiver closes, polls, and gets the value. *)
Definition demo_sent : Duplex Z (View Z) :=
  mkDuplex (mkShared 2 VDone) (SReturned 9 true) (mkReceiver true RIdle)
    [OutClose PendingClose; OutClose (Value 9)].

Lemma demo_sent_reachable : rtc duplex_step (duplex_start (T := Z) (Ch := View Z)) demo_sent.
Proof.
  eapply rtc_l; [by eapply (step_send _ 9)|].
  eapply rtc_l; [by eapply (step_call _ CloseAndPoll)|].
  eapply rtc_l; [by eapply step_receiver|].
  eapply rtc_l; [by eapply step_sender|].
  eapply rtc_l; [by eapply step_sender|].
  eapply rtc_l; [by eapply (step_call _ CloseAndPoll)|].
  eapply rtc_l; [by eapply step_receiver|]. apply rtc_refl.
Qed.

Lemma oneshot_delivers_once_witness :
  view demo_sent = VStored 9 /\ delivered (outs demo_sent) = [] \/
  view demo_sent = VDone /\ delivered (outs demo_sent) = [9].
Proof. apply (oneshot_delivers_once demo_sent demo_sent_reachable). Defined.

(** The receiver closes first; the send fails. *)
Lemma oneshot_close_is_final_witness :
  let x := mkDuplex (mkShared 4 (VClosed (T := Z))) SLive (mkReceiver true RIdle) [OutClose Empty] in
  sender x ≠ SReturned 9 true /\ delivered (outs x) = [].
Proof.
  intros x. apply (oneshot_close_is_final x x 9); [|reflexivity|reflexivity|apply rtc_refl].
  eapply rtc_l; [by eapply (step_call _ CloseAndPoll)|].
  eapply rtc_l; [by eapply step_receiver|]. apply rtc_refl.
Defined.
