(* ===== verification/Disposal.v ===== *)
(** * Isolated disposal

    [disposal.rs] and the submission of [blocking.rs] in the runtime crate: user
    values are destroyed on the runtime's blocking pool or, where it takes no
    work, on one shared thread that drains a fallback queue.  A job holds its
    value until a thread claims it; the references to a job are its submitter,
    the closure the pool took, an entry of the queue, and the worker that runs
    it.  Submitters, the pool and the worker take steps in any order; the pool
    may refuse a closure, or drop one it took, and threads may fail to start.
    Destruction and completion, whose panics are contained, are logged together
    when the value is claimed. *)

From S2P Require Import Prelude.

(** A value to destroy, and whether its submitter may never do so. *)
Record Value := mkValue { value_id : nat; critical : bool }.
#[export] Instance Value_eq_dec : EqDecision Value.
Proof. solve_decision. Defined.

(** Where a value was destroyed. *)
Inductive Venue := OnSubmitter | OnPool | OnWorker | OnLastOwner.
Inductive DisposalEvent := Destroyed (v : Value) (venue : Venue) | Completes (v : Value).
#[export] Instance Venue_eq_dec : EqDecision Venue.
Proof. solve_decision. Defined.
#[export] Instance DisposalEvent_eq_dec : EqDecision DisposalEvent.
Proof. solve_decision. Defined.

(** A submitter: [dispatch_disposal_with] and [dispose_critical_with]. *)
Inductive Submitter := Submits | Samples | Retries | Queues | Finishes | Releases | Returned.
#[export] Instance Submitter_eq_dec : EqDecision Submitter.
Proof. solve_decision. Defined.

(** [DisposalJob]: its value while it is pending, and whether the submitter and
    the pool refer to it. *)
Record Job := mkJob { job_value : Value; job_pending : bool; job_submitter : Submitter; job_pool : bool }.

(** The jobs, [FallbackQueue], and the job its worker runs. *)
Record Disposals := mkDisposals
  { jobs : list Job; queue : list nat; worker_live : bool; stranded : bool; running : option nat;
    happened : list DisposalEvent }.

Definition no_disposals : Disposals := mkDisposals [] [] false false None [].

Definition set_job (i : nat) (j : Job) d : Disposals :=
  mkDisposals (<[i:=j]> (jobs d)) (queue d) (worker_live d) (stranded d) (running d) (happened d).
Definition set_queue q d : Disposals := mkDisposals (jobs d) q (worker_live d) (stranded d) (running d) (happened d).
Definition set_live b d : Disposals := mkDisposals (jobs d) (queue d) b (stranded d) (running d) (happened d).
Definition set_running r d : Disposals := mkDisposals (jobs d) (queue d) (worker_live d) (stranded d) r (happened d).
Definition at_submitter (p : Submitter) (j : Job) : Job := mkJob (job_value j) (job_pending j) p (job_pool j).
Definition with_pool (b : bool) (j : Job) : Job := mkJob (job_value j) (job_pending j) (job_submitter j) b.
Definition claimed (j : Job) : Job := mkJob (job_value j) false (job_submitter j) (job_pool j).

(** ** The fallback queue *)

Definition settle_locked d : Disposals :=
  mkDisposals (jobs d) (queue d) (worker_live d) (negb (worker_live d) && negb (bool_decide (queue d = []))) (running d)
    (happened d).

(** [spawns]: whether the thread can start. *)
Definition start_worker_locked (spawns : bool) d : bool * Disposals :=
  if worker_live d then (true, d) else if spawns then (true, set_live true d) else (false, d).

Definition queue_fallback_disposal_with (i : nat) (spawns retain : bool) d : bool * Disposals :=
  let d := set_queue (queue d ++ [i]) d in
  let '(live, d) := start_worker_locked spawns d in
  let d := if live || retain then d else set_queue (take (length (queue d) - 1) (queue d)) d in
  (live, settle_locked d).

Definition retry_stranded_fallback_with (spawns : bool) d : Disposals :=
  if stranded d then
    settle_locked (if bool_decide (queue d = []) then d else (start_worker_locked spawns d).2)
  else d.

(** ** Jobs *)

(** [DisposalJob::finish]. *)
Definition finish (i : nat) (venue : Venue) d : Disposals :=
  match jobs d !! i with
  | Some j =>
      if job_pending j then
        mkDisposals (<[i:=claimed j]> (jobs d)) (queue d) (worker_live d) (stranded d) (running d)
          (happened d ++ [Destroyed (job_value j) venue; Completes (job_value j)])
      else d
  | None => d
  end.

(** References other than the submitter's, and any reference. *)
Definition is_shared (i : nat) (j : Job) d : bool :=
  job_pool j || bool_decide (i ∈ queue d) || bool_decide (running d = Some i).
Definition is_held (i : nat) (j : Job) d : bool := negb (bool_decide (job_submitter j = Returned)) || is_shared i j d.

(** [blocking_pool_accepted]. *)
Definition blocking_pool_accepted (i : nat) (j : Job) d : bool := is_shared i j d || negb (job_pending j).

(** The value of a critical job moves to a fresh one in the queue. *)
Definition reroute (i : nat) (j : Job) (spawns : bool) d : Disposals :=
  let n := length (jobs d) in
  let d := mkDisposals (<[i:=claimed j]> (jobs d) ++ [mkJob (job_value j) true Returned false]) (queue d) (worker_live d)
             (stranded d) (running d) (happened d) in
  (queue_fallback_disposal_with n spawns true d).2.

(** The drop of a reference, which for the last one is [DisposalJob::drop]. *)
Definition release (i : nat) (venue : Venue) (spawns : bool) d : Disposals :=
  match jobs d !! i with
  | Some j =>
      if is_held i j d || negb (job_pending j) then d
      else if critical (job_value j) then reroute i j spawns d
      else finish i venue d
  | None => d
  end.

(** ** Threads *)

(** What becomes of a closure handed to the pool. *)
Inductive PoolAnswer := Unavailable | Refused | Taken.

(** A step of a submitter that has its job [j] at [i]. *)
Definition submitter_step (i : nat) (j : Job) (answer : PoolAnswer) (spawns : bool) d : Disposals :=
  match job_submitter j with
  | Submits =>
      match answer with
      | Unavailable => set_job i (at_submitter Queues j) d
      | Refused => set_job i (at_submitter Samples j) d
      | Taken => set_job i (with_pool true (at_submitter Samples j)) d
      end
  | Samples => set_job i (at_submitter (if blocking_pool_accepted i j d then Retries else Queues) j) d
  | Retries => set_job i (at_submitter Releases j) (retry_stranded_fallback_with spawns d)
  | Queues =>
      let '(live, d) := queue_fallback_disposal_with i spawns (critical (job_value j)) d in
      set_job i (at_submitter (if live || critical (job_value j) then Releases else Finishes) j) d
  | Finishes => finish i OnSubmitter (set_job i (at_submitter Releases j) d)
  | Releases => release i OnSubmitter spawns (set_job i (at_submitter Returned j) d)
  | Returned => d
  end.

(** The pool runs a closure it took, or drops it. *)
Definition pool_step (i : nat) (j : Job) (runs spawns : bool) d : Disposals :=
  let d := if runs then finish i OnPool d else d in
  match jobs d !! i with
  | Some j => release i OnLastOwner spawns (set_job i (with_pool false j) d)
  | None => d
  end.

(** [run_fallback_disposals]. *)
Definition worker_step (spawns : bool) d : Disposals :=
  match running d with
  | Some i => release i OnLastOwner spawns (set_running None (finish i OnWorker d))
  | None =>
      match queue d with
      | i :: q => set_running (Some i) (set_queue q d)
      | [] => settle_locked (set_live false d)
      end
  end.

(** A new disposal; the position of its job names its value. *)
Definition dispose_new (is_critical : bool) d : Disposals :=
  mkDisposals (jobs d ++ [mkJob (mkValue (length (jobs d)) is_critical) true Submits false]) (queue d) (worker_live d)
    (stranded d) (running d) (happened d).

Inductive disposal_move d : Disposals -> Prop :=
| move_submitter i j answer spawns :
    jobs d !! i = Some j -> job_submitter j <> Returned -> disposal_move d (submitter_step i j answer spawns d)
| move_pool i j runs spawns :
    jobs d !! i = Some j -> job_pool j = true -> disposal_move d (pool_step i j runs spawns d)
| move_worker spawns : worker_live d = true -> disposal_move d (worker_step spawns d).

Inductive disposal_step d : Disposals -> Prop :=
| step_new is_critical : disposal_step d (dispose_new is_critical d)
| step_move d' : disposal_move d d' -> disposal_step d d'.

(** ** The invariant *)

Implicit Types (d : Disposals) (v : Value).

Definition destroyed_of (e : DisposalEvent) : option Value := match e with Destroyed v _ => Some v | Completes _ => None end.
Definition completed_of (e : DisposalEvent) : option Value := match e with Completes v => Some v | Destroyed _ _ => None end.
Definition destroyed d : list Value := omap destroyed_of (happened d).
Definition completed d : list Value := omap completed_of (happened d).
Definition occurrences v (l : list Value) : nat := length (filter (fun x => x = v) l).
(** Whether a job still has the value. *)
Definition holds v (j : Job) : nat := if job_pending j && bool_decide (job_value j = v) then 1 else 0.
Definition known d : list Value := job_value <$> jobs d.
Definition total v d : nat := occurrences v (destroyed d) + sum_of (holds v) (jobs d).

(** The invariant, save that job [k] may be pending without a reference. *)
Record disposal_inv (k : option nat) d : Prop := mkDisposalInv
  { di_once v : total v d = if bool_decide (v ∈ known d) then 1%nat else 0%nat;
    di_ids v : v ∈ known d -> (value_id v < length (jobs d))%nat;
    di_completed : completed d = destroyed d;
    di_venue v venue : Destroyed v venue ∈ happened d -> critical v = true -> venue = OnPool \/ venue = OnWorker;
    di_held i j : jobs d !! i = Some j -> job_pending j = true -> Some i <> k -> is_held i j d = true;
    di_finishes i j : jobs d !! i = Some j -> job_submitter j = Finishes -> critical (job_value j) = false;
    di_stranded : stranded d = negb (worker_live d) && negb (bool_decide (queue d = []));
    di_running i : running d = Some i -> worker_live d = true }.

Lemma known_set_job i j j' d : jobs d !! i = Some j -> job_value j' = job_value j -> known (set_job i j' d) = known d.
Proof. intros H E. unfold known. simpl. rewrite list_fmap_insert, E. apply list_insert_id. by rewrite list_lookup_fmap, H. Qed.

(** Steps that change neither jobs nor log, and lose no reference. *)
Lemma inv_queue k d d' :
  disposal_inv k d -> jobs d' = jobs d -> happened d' = happened d -> running d' = running d -> queue d ⊆ queue d' ->
  (worker_live d = true -> worker_live d' = true) ->
  stranded d' = negb (worker_live d') && negb (bool_decide (queue d' = [])) -> disposal_inv k d'.
Proof.
  intros [H1 H2 H3 H4 H5 H6 H7 H8] Ej El Er Hq Hw Hs. split; unfold total, known, destroyed, completed in *; rewrite ?Ej, ?El, ?Er; auto.
  - intros i j Hj Hp Hk. specialize (H5 i j Hj Hp Hk). unfold is_held, is_shared in *. rewrite Er.
    apply orb_true_iff in H5 as [->|H5]; [done|]. apply orb_true_iff in H5 as [H5| ->]; [|by rewrite !orb_true_r].
    apply orb_true_iff in H5 as [->|H5]; [by rewrite !orb_true_r|]. apply bool_decide_eq_true in H5.
    rewrite (bool_decide_true (i ∈ queue d')) by set_solver. by rewrite !orb_true_r.
  - intros i E. eauto.
Qed.
(** A change of who refers to job [i]. *)
Lemma inv_set_job i j j' d :
  disposal_inv None d -> jobs d !! i = Some j -> job_value j' = job_value j -> job_pending j' = job_pending j ->
  (job_submitter j' = Finishes -> critical (job_value j) = false) -> disposal_inv (Some i) (set_job i j' d).
Proof.
  intros [H1 H2 H3 H4 H5 H6 H7 H8] Hj Ev Ep Hf. pose proof (known_set_job i j j' d Hj Ev) as Hk.
  assert (Hi : (i < length (jobs d))%nat) by by eapply lookup_lt_Some.
  assert (Hl : forall x y, jobs (set_job i j' d) !! x = Some y -> x = i /\ y = j' \/ x <> i /\ jobs d !! x = Some y).
  { intros x y Hx. simpl in Hx. apply list_lookup_insert_Some in Hx as [(-> & -> & _)|[? ?]]; auto. }
  split; try done.
  - intros v. rewrite Hk, <- (H1 v). unfold total, destroyed. simpl. pose proof (sum_of_insert (holds v) _ _ _ j' Hj) as Hs.
    unfold holds in Hs at 2 4. rewrite Ev, Ep in Hs. fold (holds v j) in Hs. simpl. lia.
  - intros v Hv. rewrite Hk in Hv. simpl. rewrite length_insert. auto.
  - intros x y [[-> ->]|[? Hx]]%Hl Hp Hn; [done|]. exact (H5 _ _ Hx Hp (fun e => ltac:(done))).
  - intros x y [[-> ->]|[? Hx]]%Hl Hp; [rewrite Ev; auto|eauto].
Qed.
Lemma inv_close i d : disposal_inv (Some i) d ->
  (forall j, jobs d !! i = Some j -> job_pending j = true -> is_held i j d = true) -> disposal_inv None d.
Proof.
  intros [H1 H2 H3 H4 H5 H6 H7 H8] H. split; auto. intros x y Hx Hp _. destruct (decide (x = i)) as [->|Hn]; [auto|]. apply H5; [done..|congruence].
Qed.
Lemma inv_open i d : disposal_inv None d -> disposal_inv (Some i) d.
Proof. intros [H1 H2 H3 H4 H5 H6 H7 H8]. split; auto. Qed.

Lemma occurrences_app v l l' : occurrences v (l ++ l') = (occurrences v l + occurrences v l')%nat.
Proof. unfold occurrences. by rewrite filter_app, length_app. Qed.
Lemma holds_claimed v j : holds v (claimed j) = 0%nat.
Proof. done. Qed.
Lemma holds_pending v j : job_pending j = true -> holds v j = occurrences v [job_value j].
Proof.
  intros E. unfold holds, occurrences. rewrite E. cbn [andb].
  destruct (decide (job_value j = v)) as [H|H]; [rewrite bool_decide_true, filter_cons_True by done|rewrite bool_decide_false, filter_cons_False by done]; done.
Qed.

Lemma inv_finish i venue d :
  disposal_inv (Some i) d ->
  (forall j, jobs d !! i = Some j -> critical (job_value j) = true -> venue = OnPool \/ venue = OnWorker) ->
  disposal_inv None (finish i venue d).
Proof.
  intros Hi Hv. unfold finish. destruct (jobs d !! i) as [j|] eqn:Hj; [|apply (inv_close i); [done|by rewrite Hj]].
  destruct (job_pending j) eqn:Hp; [|apply (inv_close i); [done|congruence]].
  destruct Hi as [H1 H2 H3 H4 H5 H6 H7 H8]. set (d' := mkDisposals _ _ _ _ _ _).
  assert (Hk : known d' = known d) by exact (known_set_job i j (claimed j) d Hj eq_refl).
  assert (Hl : forall x y, jobs d' !! x = Some y -> x = i /\ y = claimed j \/ x <> i /\ jobs d !! x = Some y).
  { intros x y Hx. simpl in Hx. apply list_lookup_insert_Some in Hx as [(-> & -> & _)|[? ?]]; auto. }
  split.
  - intros v. rewrite Hk, <- (H1 v). unfold total, destroyed, d'. simpl. rewrite omap_app, occurrences_app. simpl.
    pose proof (sum_of_insert (holds v) _ _ _ (claimed j) Hj) as Hs. rewrite holds_claimed, (holds_pending v j Hp) in Hs. simpl. lia.
  - intros v. rewrite Hk. unfold d'. simpl. rewrite length_insert. apply H2.
  - unfold completed, destroyed, d' in *. simpl. by rewrite !omap_app, H3.
  - intros v w. unfold d'. simpl. rewrite elem_of_app. intros [Hin|Hin] Hc; [by eapply H4|].
    apply elem_of_cons in Hin as [[= -> ->]|Hin]; [by eapply Hv|]. apply list_elem_of_singleton in Hin. done.
  - intros x y [[-> ->]|[? Hx]]%Hl Hq _; [done|]. apply (H5 _ _ Hx Hq). congruence.
  - intros x y [[-> ->]|[? Hx]]%Hl Hq; [by eapply (H6 i j)|by eapply H6].
  - exact H7.
  - exact H8.
Qed.

(** The fallback queue. *)
Lemma queue_fallback_facts i spawns retain d :
  let r := queue_fallback_disposal_with i spawns retain d in
  jobs r.2 = jobs d /\ happened r.2 = happened d /\ running r.2 = running d /\
  worker_live r.2 = r.1 /\ r.1 = worker_live d || spawns /\ queue r.2 = (if r.1 || retain then queue d ++ [i] else queue d) /\
  stranded r.2 = negb (worker_live r.2) && negb (bool_decide (queue r.2 = [])).
Proof.
  unfold queue_fallback_disposal_with, start_worker_locked. destruct d as [js q live st run log]. simpl.
  destruct live, spawns, retain; simpl; split_and!; try done.
  all: by rewrite length_app, Nat.add_sub, take_app_length.
Qed.
Lemma inv_queue_fallback k i spawns retain d :
  disposal_inv k d -> disposal_inv k (queue_fallback_disposal_with i spawns retain d).2.
Proof.
  intros H. destruct (queue_fallback_facts i spawns retain d) as (E1 & E2 & E3 & E4 & E5 & E6 & E7).
  eapply inv_queue; [exact H|done..| | |done].
  - rewrite E6. destruct (_.1 || retain); [|by intros x]. intros x Hx. rewrite elem_of_app. by left.
  - rewrite E4, E5. by intros ->.
Qed.
Lemma inv_retry k spawns d : disposal_inv k d -> disposal_inv k (retry_stranded_fallback_with spawns d).
Proof.
  intros H. unfold retry_stranded_fallback_with. destruct (stranded d); [|done]. case_bool_decide as Hq.
  - by eapply inv_queue.
  - unfold start_worker_locked. destruct (worker_live d) eqn:E; [by eapply inv_queue|]. destruct spawns; eapply inv_queue; done.
Qed.

Lemma inv_reroute i j spawns d :
  disposal_inv (Some i) d -> jobs d !! i = Some j -> job_pending j = true -> disposal_inv None (reroute i j spawns d).
Proof.
  intros [H1 H2 H3 H4 H5 H6 H7 H8] Hj Hp. unfold reroute. set (n := length (jobs d)). set (d1 := mkDisposals _ _ _ _ _ _).
  assert (Hv : job_value j ∈ known d) by (apply list_elem_of_fmap; exists j; split; [done|by eapply list_elem_of_lookup_2]).
  assert (Hk : forall v, v ∈ known d1 <-> v ∈ known d).
  { intros v. unfold d1, known. simpl. rewrite fmap_app.
    change (job_value <$> <[i:=claimed j]> (jobs d)) with (known (set_job i (claimed j) d)).
    rewrite (known_set_job i j (claimed j) d Hj eq_refl).
    rewrite elem_of_app. cbn [fmap list_fmap job_value]. rewrite list_elem_of_singleton. split; [intros [?| ->]; done|by left]. }
  assert (Hl : forall x y, jobs d1 !! x = Some y -> x = i /\ y = claimed j \/ x <> i /\ jobs d !! x = Some y \/
    x = n /\ y = mkJob (job_value j) true Returned false).
  { intros x y. unfold d1. simpl. intros [Hx|[? Hx]]%lookup_app_Some.
    - apply list_lookup_insert_Some in Hx as [(-> & -> & _)|[? ?]]; auto.
    - rewrite length_insert in *. apply list_lookup_singleton_Some in Hx as [Hx <-]. right. right. split; [unfold n; lia|done]. }
  assert (Hi : disposal_inv (Some n) d1).
  { split.
    - intros v. rewrite (bool_decide_ext _ _ (Hk v)), <- (H1 v). unfold total, destroyed, d1. simpl.
      rewrite sum_of_app. pose proof (sum_of_insert (holds v) _ _ _ (claimed j) Hj) as Hs. rewrite holds_claimed in Hs.
      rewrite (holds_pending v j Hp) in Hs. rewrite (holds_pending v (mkJob _ true _ _)) by done. simpl. lia.
    - intros v Hin%Hk. unfold d1. simpl. rewrite length_app, length_insert. specialize (H2 v Hin). lia.
    - done.
    - done.
    - intros x y [[-> ->]|[[? Hx]|[-> ->]]]%Hl Hq Hn; [done| |done]. apply (H5 _ _ Hx Hq). congruence.
    - intros x y [[-> ->]|[[? Hx]|[-> ->]]]%Hl Hq; [by eapply (H6 i j)|by eapply H6|done].
    - done.
    - done. }
  eapply (inv_close n); [by apply inv_queue_fallback|]. destruct (queue_fallback_facts n spawns true d1) as (_ & _ & _ & _ & _ & E6 & _).
  intros y _ _. unfold is_held, is_shared. rewrite E6, orb_true_r. rewrite (bool_decide_true (n ∈ _)); [by rewrite !orb_true_r|].
  rewrite elem_of_app, list_elem_of_singleton. by right.
Qed.

Lemma inv_release i venue spawns d : disposal_inv (Some i) d -> disposal_inv None (release i venue spawns d).
Proof.
  intros H. unfold release. destruct (jobs d !! i) as [j|] eqn:Hj; [|apply (inv_close i); [done|by rewrite Hj]].
  destruct (is_held i j d || negb (job_pending j)) eqn:Hh.
  - apply (inv_close i); [done|]. intros y Hy Hp. assert (y = j) as -> by congruence. rewrite Hp, orb_false_r in Hh. done.
  - apply orb_false_iff in Hh as [_ Hp%negb_false_iff]. destruct (critical (job_value j)) eqn:Hc; [by apply inv_reroute|].
    apply inv_finish; [done|]. intros y Hy Hc'. assert (y = j) as -> by congruence. congruence.
Qed.

(** ** Steps keep it *)

Lemma active_held i j d : job_submitter j <> Returned -> is_held i j d = true.
Proof. intros H. unfold is_held. by rewrite bool_decide_false. Qed.
(** A submitter moves on, and keeps its reference. *)
Lemma disposal_advance_inv i j j' d :
  disposal_inv None d -> jobs d !! i = Some j -> job_value j' = job_value j -> job_pending j' = job_pending j ->
  job_submitter j' <> Returned -> (job_submitter j' = Finishes -> critical (job_value j) = false) -> disposal_inv None (set_job i j' d).
Proof.
  intros H Hj Ev Ep Hn Hf. apply (inv_close i); [by eapply inv_set_job|]. intros y Hy _.
  assert (y = j') as ->; [|by apply active_held]. simpl in Hy. rewrite list_lookup_insert_eq in Hy; [congruence|by eapply lookup_lt_Some].
Qed.
Lemma jobs_retry spawns d : jobs (retry_stranded_fallback_with spawns d) = jobs d.
Proof. unfold retry_stranded_fallback_with, start_worker_locked. by repeat case_match. Qed.

Lemma inv_submitter i j answer spawns d :
  disposal_inv None d -> jobs d !! i = Some j -> disposal_inv None (submitter_step i j answer spawns d).
Proof.
  intros H Hj. unfold submitter_step. destruct (job_submitter j) eqn:Es.
  - by destruct answer; eapply disposal_advance_inv.
  - eapply disposal_advance_inv; [done..| |]; by destruct (blocking_pool_accepted i j d).
  - eapply disposal_advance_inv; [by apply inv_retry|by rewrite jobs_retry|done..].
  - destruct (queue_fallback_facts i spawns (critical (job_value j)) d) as (E1 & _).
    pose proof (inv_queue_fallback None i spawns (critical (job_value j)) d H) as H'.
    destruct (queue_fallback_disposal_with _ _ _ _) as [live d']. simpl in *.
    eapply disposal_advance_inv; [done|by rewrite E1|done|done|..]; destruct live; simpl; try done; by destruct (critical (job_value j)).
  - apply inv_finish; [by eapply inv_set_job|]. intros y Hy Hc. simpl in Hy.
    rewrite list_lookup_insert_eq in Hy by by eapply lookup_lt_Some. simplify_eq. simpl in Hc.
    pose proof (di_finishes _ _ H i j Hj Es). congruence.
  - apply inv_release. by eapply inv_set_job.
  - done.
Qed.
Lemma inv_pool i runs spawns j d : disposal_inv None d -> disposal_inv None (pool_step i j runs spawns d).
Proof.
  intros H. unfold pool_step.
  assert (H' : disposal_inv None (if runs then finish i OnPool d else d)).
  { destruct runs; [|done]. apply inv_finish; [by apply inv_open|by left]. }
  revert H'. generalize (if runs then finish i OnPool d else d). clear. intros d H.
  destruct (jobs d !! i) as [j|] eqn:Hj; [|done]. apply inv_release. eapply inv_set_job; [done..|]. simpl. by eapply di_finishes.
Qed.

Lemma jobs_live_finish i venue d :
  running (finish i venue d) = running d /\ worker_live (finish i venue d) = worker_live d.
Proof. unfold finish. by repeat case_match. Qed.
Lemma inv_unrun i d : disposal_inv None d -> running d = Some i -> disposal_inv (Some i) (set_running None d).
Proof.
  intros [H1 H2 H3 H4 H5 H6 H7 H8] Hr. split; try done. intros x y Hx Hp Hn. specialize (H5 x y Hx Hp ltac:(done)).
  unfold is_held, is_shared in *. simpl. rewrite Hr in H5. rewrite (bool_decide_false (Some i = Some x)) in H5 by congruence. done.
Qed.
Lemma inv_pop i q d : disposal_inv None d -> running d = None -> queue d = i :: q -> worker_live d = true ->
  disposal_inv None (set_running (Some i) (set_queue q d)).
Proof.
  intros [H1 H2 H3 H4 H5 H6 H7 H8] Hr Hq Hl. split; try done.
  - intros x y Hx Hp Hn. specialize (H5 x y Hx Hp Hn). unfold is_held, is_shared in *. simpl in *. rewrite Hq, Hr in H5.
    rewrite (bool_decide_false (None = Some x)), orb_false_r in H5 by done. destruct (decide (x = i)) as [->|Hne].
    + rewrite (bool_decide_true (Some i = Some i)) by done. by rewrite !orb_true_r.
    + rewrite (bool_decide_ext (x ∈ i :: q) (x ∈ q)) in H5 by (rewrite elem_of_cons; tauto).
      rewrite (bool_decide_false (Some i = Some x)), orb_false_r by congruence. exact H5.
  - simpl. by rewrite H7, Hl.
Qed.
Lemma inv_worker spawns d : disposal_inv None d -> worker_live d = true -> disposal_inv None (worker_step spawns d).
Proof.
  intros H Hl. unfold worker_step. destruct (running d) as [i|] eqn:Hr.
  - apply inv_release, inv_unrun; [apply inv_finish; [by apply inv_open|by right]|]. by rewrite (proj1 (jobs_live_finish _ _ _)).
  - destruct (queue d) as [|i q] eqn:Hq; [|by apply inv_pop]. destruct H as [H1 H2 H3 H4 H5 H6 H7 H8]. split; try done.
    simpl. congruence.
Qed.

Lemma disposal_new_inv c d : disposal_inv None d -> disposal_inv None (dispose_new c d).
Proof.
  intros [H1 H2 H3 H4 H5 H6 H7 H8]. set (n := mkValue (length (jobs d)) c).
  assert (Hn : n ∉ known d) by (intros Hin%H2; simpl in Hin; lia).
  assert (Hk : forall v, v ∈ known (dispose_new c d) <-> v ∈ known d \/ v = n).
  { intros v. unfold known, dispose_new. simpl. rewrite fmap_app, elem_of_app. cbn [fmap list_fmap job_value]. by rewrite list_elem_of_singleton. }
  assert (Hl : forall x y, jobs (dispose_new c d) !! x = Some y -> jobs d !! x = Some y \/ y = mkJob n true Submits false).
  { intros x y. simpl. intros [?|[_ Hx]]%lookup_app_Some; [by left|]. apply list_lookup_singleton_Some in Hx as [_ <-]. by right. }
  split; try done.
  - intros v. unfold total, destroyed, dispose_new. simpl. rewrite sum_of_app, (holds_pending v (mkJob _ true _ _)) by done. simpl.
    specialize (H1 v). unfold total, destroyed in H1. unfold occurrences at 2. destruct (decide (v = n)) as [->|Hne].
    + rewrite filter_cons_True by done. rewrite bool_decide_false in H1 by done. rewrite bool_decide_true by (apply Hk; by right). simpl. lia.
    + rewrite filter_cons_False by (intros <-; by apply Hne). rewrite (bool_decide_ext _ (v ∈ known d)) by (rewrite Hk; tauto). simpl. lia.
  - intros v [Hin%H2| ->]%Hk; unfold dispose_new; simpl; rewrite length_app; simpl; lia.
  - intros x y [Hx| ->]%Hl Hp Hq; [exact (H5 x y Hx Hp Hq)|done].
  - intros x y [Hx| ->]%Hl Hp; [by eapply H6|done].
Qed.

Lemma disposal_inv_step d d' : disposal_step d d' -> disposal_inv None d -> disposal_inv None d'.
Proof. intros [c|d1 [i j answer spawns Hj _|i j runs spawns _ _|spawns Hl]] H; [by apply disposal_new_inv|by apply inv_submitter|by apply inv_pool|by apply inv_worker]. Qed.
Lemma disposal_reachable d : rtc disposal_step no_disposals d -> disposal_inv None d.
Proof.
  intros H. assert (H0 : disposal_inv None no_disposals) by (split; try done; [by intros v ?%elem_of_nil|by intros v w ?%elem_of_nil]).
  revert H0. induction H as [|x y z Hs _ IH]; intros H0; [done|]. by eapply IH, disposal_inv_step.
Qed.

(** ** What is left without a worker *)

Definition extends d d' : Prop :=
  forall i j, jobs d !! i = Some j -> exists j', jobs d' !! i = Some j' /\ job_value j' = job_value j.
(** Only critical jobs wait without a worker. *)
Definition queue_ok d : Prop :=
  worker_live d = false -> forall i, i ∈ queue d -> exists j, jobs d !! i = Some j /\ critical (job_value j) = true.

Lemma queue_ok_frame d d' :
  extends d d' -> (worker_live d' = false -> worker_live d = false /\ queue d' ⊆ queue d) -> queue_ok d -> queue_ok d'.
Proof.
  intros He Hq H Hl i Hi. destruct (Hq Hl) as [Hl' Hs]. destruct (H Hl' i (Hs i Hi)) as (j & Hj & Hc).
  destruct (He i j Hj) as (j' & Hj' & Ev). exists j'. by rewrite Ev.
Qed.
Lemma extends_set_job i j j' d : jobs d !! i = Some j -> job_value j' = job_value j -> extends d (set_job i j' d).
Proof.
  intros Hj Ev x y Hx. simpl. destruct (decide (x = i)) as [->|Hn].
  - exists j'. rewrite list_lookup_insert_eq by by eapply lookup_lt_Some. split; [done|congruence].
  - exists y. by rewrite list_lookup_insert_ne.
Qed.
Lemma queue_ok_set_job i j j' d : jobs d !! i = Some j -> job_value j' = job_value j -> queue_ok d -> queue_ok (set_job i j' d).
Proof. intros Hj Ev. apply queue_ok_frame; [by eapply extends_set_job|done]. Qed.
Lemma queue_ok_finish i venue d : queue_ok d -> queue_ok (finish i venue d).
Proof.
  unfold finish. destruct (jobs d !! i) as [j|] eqn:Hj; [|done]. destruct (job_pending j); [|done].
  apply queue_ok_frame; [exact (extends_set_job i j (claimed j) d Hj eq_refl)|done].
Qed.
Lemma queue_ok_fallback i j spawns d :
  jobs d !! i = Some j -> queue_ok d -> queue_ok (queue_fallback_disposal_with i spawns (critical (job_value j)) d).2.
Proof.
  intros Hj H. destruct (queue_fallback_facts i spawns (critical (job_value j)) d) as (E1 & _ & _ & E4 & E5 & E6 & _).
  intros Hl x. rewrite E6, E1. rewrite Hl in E4. rewrite <- E4 in E5 |- *. symmetry in E5. apply orb_false_iff in E5 as [E5 _]. cbn [orb].
  destruct (critical (job_value j)) eqn:Hc; [|by apply H]. rewrite elem_of_app, list_elem_of_singleton. intros [?| ->]; [by apply H|eauto].
Qed.
Lemma queue_ok_release i venue spawns d : queue_ok d -> queue_ok (release i venue spawns d).
Proof.
  intros H. unfold release. destruct (jobs d !! i) as [j|] eqn:Hj; [|done]. destruct (_ || _); [done|].
  destruct (critical (job_value j)) eqn:Hc; [|by apply queue_ok_finish]. unfold reroute. set (d1 := mkDisposals _ _ _ _ _ _).
  pose proof (queue_ok_fallback (length (jobs d)) (mkJob (job_value j) true Returned false) spawns d1) as Hf. cbn [job_value] in Hf.
  rewrite Hc in Hf. apply Hf; unfold d1.
  - cbn [jobs]. rewrite <- (length_insert (jobs d) i (claimed j)). by rewrite lookup_app_r, Nat.sub_diag by lia.
  - apply (queue_ok_frame d); [|done|exact H]. intros x y Hx.
    destruct (extends_set_job i j (claimed j) d Hj eq_refl x y Hx) as (y' & Hy' & Ev). exists y'. split; [|done]. simpl in *.
    by apply lookup_app_l_Some.
Qed.
Lemma queue_ok_move d d' : disposal_move d d' -> queue_ok d -> queue_ok d'.
Proof.
  intros [i j answer spawns Hj _|i j runs spawns _ _|spawns Hl] H.
  - unfold submitter_step. destruct (job_submitter j).
    + by destruct answer; eapply queue_ok_set_job.
    + by eapply queue_ok_set_job.
    + eapply queue_ok_set_job; [by rewrite jobs_retry|done|]. apply (queue_ok_frame d); [|..|exact H].
      * intros x y. rewrite jobs_retry. eauto.
      * unfold retry_stranded_fallback_with, start_worker_locked. destruct (stranded d); [|done]. case_bool_decide; [done|].
        destruct (worker_live d) eqn:Ew; [simpl; congruence|]. destruct spawns; [done|]. intros _. by split.
    + pose proof (queue_ok_fallback i j spawns d Hj H) as Hf. destruct (queue_fallback_facts i spawns (critical (job_value j)) d) as (E1 & _).
      destruct (queue_fallback_disposal_with _ _ _ _) as [live d1]. simpl in *. eapply queue_ok_set_job; [by rewrite E1|done..].
    + apply queue_ok_finish. by eapply queue_ok_set_job.
    + apply queue_ok_release. by eapply queue_ok_set_job.
    + done.
  - unfold pool_step. assert (H' : queue_ok (if runs then finish i OnPool d else d)) by (destruct runs; [by apply queue_ok_finish|done]).
    destruct (jobs _ !! i) eqn:Hj; [|done]. apply queue_ok_release. by eapply queue_ok_set_job.
  - unfold worker_step. destruct (running d) as [i|].
    + apply queue_ok_release. apply (queue_ok_frame (finish i OnWorker d)); [by intros x y; eauto|done|by apply queue_ok_finish].
    + destruct (queue d) as [|i q] eqn:Hq; [intros _ x; simpl; rewrite Hq; by intros ?%elem_of_nil|]. intros Hf. simpl in Hf. congruence.
Qed.
Lemma queue_ok_reachable d : rtc disposal_step no_disposals d -> queue_ok d.
Proof.
  intros H. assert (H0 : queue_ok no_disposals) by by intros _ i ?%elem_of_nil.
  revert H0. induction H as [|x y z [c|d' Hm] _ IH]; intros H0; [done| |by apply IH, (queue_ok_move x)].
  apply IH. apply (queue_ok_frame x); [|done|exact H0]. intros i j Hj. exists j. split; [|done]. by apply lookup_app_l_Some.
Qed.

(** ** Every move uses something up *)

Definition rank (p : Submitter) : nat :=
  match p with
  | Submits => 48 | Samples => 32 | Retries => 24 | Queues => 24 | Finishes => 16 | Releases => 8 | Returned => 0
  end.
Definition job_weight (j : Job) : nat := rank (job_submitter j) + (if job_pool j then 6 else 0).
Definition weight d : nat :=
  sum_of job_weight (jobs d) + 3 * length (queue d) + Nat.b2n (worker_live d) +
  match running d with Some _ => 2 | None => 0 end.

Lemma weight_set_job i j j' d :
  jobs d !! i = Some j -> (weight (set_job i j' d) + job_weight j = weight d + job_weight j')%nat.
Proof. intros Hj. unfold weight. simpl. pose proof (sum_of_insert job_weight _ _ _ j' Hj). lia. Qed.
Lemma weight_finish i venue d : weight (finish i venue d) = weight d.
Proof.
  unfold finish. destruct (jobs d !! i) as [j|] eqn:Hj; [|done]. destruct (job_pending j); [|done].
  pose proof (weight_set_job i j (claimed j) d Hj) as H. unfold weight in *. simpl in *. unfold job_weight in H at 2 4. simpl in H. lia.
Qed.
Lemma weight_fallback i spawns retain d : (weight (queue_fallback_disposal_with i spawns retain d).2 <= weight d + 4)%nat.
Proof.
  destruct (queue_fallback_facts i spawns retain d) as (E1 & _ & E3 & E4 & _ & E6 & _). unfold weight. rewrite E1, E3, E4, E6.
  destruct (_.1); simpl; rewrite ?length_app; simpl; [destruct (worker_live d); simpl; lia|].
  destruct retain; rewrite ?length_app; simpl; lia.
Qed.
Lemma weight_retry spawns d : (weight (retry_stranded_fallback_with spawns d) <= weight d + 1)%nat.
Proof.
  unfold retry_stranded_fallback_with, start_worker_locked, weight. destruct d as [js q live st run log]. simpl.
  destruct st; simpl; [|lia]. case_bool_decide; simpl; [lia|]. destruct live, spawns; simpl; lia.
Qed.
Lemma weight_release i venue spawns d : (weight (release i venue spawns d) <= weight d + 4)%nat.
Proof.
  unfold release. destruct (jobs d !! i) as [j|] eqn:Hj; [|lia]. destruct (_ || _); [lia|].
  destruct (critical (job_value j)); [|rewrite weight_finish; lia]. unfold reroute. etrans; [apply weight_fallback|].
  pose proof (weight_set_job i j (claimed j) d Hj) as H. unfold weight in *. simpl in *. rewrite sum_of_app.
  unfold job_weight in H at 2 4. simpl in H. unfold job_weight at 2. simpl. lia.
Qed.
(** Nothing remains to be released after the job ran. *)
Lemma finish_claims i venue d j : jobs (finish i venue d) !! i = Some j -> job_pending j = false.
Proof.
  unfold finish. destruct (jobs d !! i) as [y|] eqn:Hy; [|congruence]. destruct (job_pending y) eqn:Hp; [|congruence].
  simpl. rewrite list_lookup_insert_eq by by eapply lookup_lt_Some. by intros [= <-].
Qed.
Lemma release_claimed i venue spawns d : (forall j, jobs d !! i = Some j -> job_pending j = false) -> release i venue spawns d = d.
Proof. intros H. unfold release. destruct (jobs d !! i) as [j|] eqn:Hj; [|done]. by rewrite (H j eq_refl), orb_true_r. Qed.

Lemma weight_submitter i j answer spawns d :
  jobs d !! i = Some j -> job_submitter j <> Returned -> (weight (submitter_step i j answer spawns d) < weight d)%nat.
Proof.
  intros Hj Hn. unfold submitter_step.
  pose proof (sum_of_ge job_weight _ _ _ Hj) as Hge. assert (Hw : (rank (job_submitter j) <= job_weight j)%nat) by (unfold job_weight; lia).
  assert (Hset : forall j' d1, jobs d1 = jobs d -> (weight (set_job i j' d1) + job_weight j = weight d1 + job_weight j')%nat).
  { intros j' d1 E. apply weight_set_job. by rewrite E. }
  assert (Hat : forall p, (job_weight (at_submitter p j) + rank (job_submitter j) = job_weight j + rank p)%nat) by (intros p; unfold job_weight; simpl; lia).
  destruct (job_submitter j) eqn:Es; [| | | | | |done].
  - destruct answer.
    + specialize (Hset (at_submitter Queues j) d eq_refl). specialize (Hat Queues). cbn [rank] in *. lia.
    + specialize (Hset (at_submitter Samples j) d eq_refl). specialize (Hat Samples). cbn [rank] in *. lia.
    + specialize (Hset (with_pool true (at_submitter Samples j)) d eq_refl).
      assert (job_weight (with_pool true (at_submitter Samples j)) = 38%nat) by done. cbn [rank] in *. lia.
  - destruct (blocking_pool_accepted i j d); [specialize (Hset (at_submitter Retries j) d eq_refl); specialize (Hat Retries)|
      specialize (Hset (at_submitter Queues j) d eq_refl); specialize (Hat Queues)]; cbn [rank] in *; lia.
  - specialize (Hset (at_submitter Releases j) _ (jobs_retry spawns d)). specialize (Hat Releases).
    pose proof (weight_retry spawns d). cbn [rank] in *. lia.
  - pose proof (weight_fallback i spawns (critical (job_value j)) d) as Hf.
    destruct (queue_fallback_facts i spawns (critical (job_value j)) d) as (E1 & _).
    destruct (queue_fallback_disposal_with _ _ _ _) as [live d1]. cbn [fst snd] in *.
    pose proof (Hset (at_submitter (if live || critical (job_value j) then Releases else Finishes) j) d1 E1) as Hs.
    pose proof (Hat (if live || critical (job_value j) then Releases else Finishes)) as Ha. destruct (_ || _); cbn [rank] in *; lia.
  - rewrite weight_finish. specialize (Hset (at_submitter Releases j) d eq_refl). specialize (Hat Releases). cbn [rank] in *. lia.
  - eapply Nat.le_lt_trans; [apply weight_release|]. specialize (Hset (at_submitter Returned j) d eq_refl). specialize (Hat Returned). cbn [rank] in *. lia.
Qed.
Lemma weight_pool i j runs spawns d :
  jobs d !! i = Some j -> job_pool j = true -> (weight (pool_step i j runs spawns d) < weight d)%nat.
Proof.
  intros Hj Hp. unfold pool_step.
  assert (H : exists j', jobs (if runs then finish i OnPool d else d) !! i = Some j' /\ job_pool j' = true /\ weight (if runs then finish i OnPool d else d) = weight d).
  { destruct runs; [|by exists j]. rewrite weight_finish. unfold finish. rewrite Hj. destruct (job_pending j); [|by exists j].
    exists (claimed j). simpl. by rewrite list_lookup_insert_eq by by eapply lookup_lt_Some. }
  destruct H as (j' & Hj' & Hp' & <-). rewrite Hj'. eapply Nat.le_lt_trans; [apply weight_release|].
  pose proof (weight_set_job i j' (with_pool false j') _ Hj') as H. unfold job_weight in H. simpl in H. rewrite Hp' in H. lia.
Qed.
Lemma weight_worker spawns d : worker_live d = true -> (weight (worker_step spawns d) < weight d)%nat.
Proof.
  intros Hl. unfold worker_step. destruct (running d) as [i|] eqn:Hr.
  - rewrite release_claimed by (intros j; simpl; apply finish_claims). pose proof (weight_finish i OnWorker d) as H.
    unfold weight in *. simpl. rewrite (proj1 (jobs_live_finish _ _ _)), Hr in H. rewrite Hr. lia.
  - unfold weight. destruct (queue d) as [|i q] eqn:Hq; simpl; rewrite ?Hq, ?Hl, Hr; simpl; lia.
Qed.
Lemma move_weight d d' : disposal_move d d' -> (weight d' < weight d)%nat.
Proof. intros [i j answer spawns Hj Hn|i j runs spawns Hj Hp|spawns Hl]; [by apply weight_submitter|by apply weight_pool|by apply weight_worker]. Qed.

(** ** Claims *)

Lemma occurrences_pos v l : v ∈ l <-> (0 < occurrences v l)%nat.
Proof.
  unfold occurrences. split.
  - intros H. assert (Hf : v ∈ filter (fun x => x = v) l) by by apply list_elem_of_filter.
    destruct (filter _ l); [by apply elem_of_nil in Hf|simpl; lia].
  - destruct (filter _ l) as [|x q] eqn:E; simpl; [lia|]. intros _. assert (Hx : x ∈ filter (fun y => y = v) l) by (rewrite E; by left).
    by apply list_elem_of_filter in Hx as [-> ?].
Qed.
Lemma occurrences_NoDup l : (forall v, (occurrences v l <= 1)%nat) -> NoDup l.
Proof.
  induction l as [|x l IH]; intros H; constructor.
  - intros Hx%occurrences_pos. specialize (H x). change (x :: l) with ([x] ++ l) in H. rewrite occurrences_app in H.
    unfold occurrences at 1 in H. rewrite filter_cons_True in H by done. simpl in H. lia.
  - apply IH. intros v. specialize (H v). change (x :: l) with ([x] ++ l) in H. rewrite occurrences_app in H. lia.
Qed.
Lemma holder_of v l : (0 < sum_of (holds v) l)%nat -> exists i j, l !! i = Some j /\ job_pending j = true /\ job_value j = v.
Proof.
  unfold sum_of. induction l as [|j l IH]; simpl; [lia|]. destruct (decide (holds v j = 0%nat)) as [E|E].
  - rewrite E. intros (i & y & ?)%IH. by exists (S i), y.
  - intros _. exists 0%nat, j. split; [done|]. unfold holds in E. destruct (job_pending j); [|done]. simpl in E. by case_bool_decide.
Qed.
(** A value is destroyed, or waits in a job that something refers to. *)
Lemma value_accounted d v : disposal_inv None d -> v ∈ known d ->
  (v ∈ destroyed d /\ forall i j, jobs d !! i = Some j -> job_pending j = true -> job_value j <> v) \/
  ((v ∉ destroyed d) /\ exists i j, jobs d !! i = Some j /\ job_pending j = true /\ job_value j = v /\ is_held i j d = true).
Proof.
  intros H Hv. pose proof (di_once _ _ H v) as Ht. rewrite bool_decide_true in Ht by done. unfold total in Ht.
  destruct (decide (v ∈ destroyed d)) as [Hd|Hd].
  - left. split; [done|]. intros i j Hj Hp Ev. pose proof (proj1 (occurrences_pos v _) Hd).
    pose proof (sum_of_ge (holds v) _ _ _ Hj) as Hge. unfold holds in Hge at 1. rewrite Hp, bool_decide_true in Hge by done. simpl in Hge. lia.
  - right. split; [done|]. assert (occurrences v (destroyed d) = 0%nat).
    { destruct (occurrences v (destroyed d)) eqn:E; [done|]. destruct Hd. apply occurrences_pos. lia. }
    destruct (holder_of v (jobs d)) as (i & j & Hj & Hp & Ev); [lia|]. exists i, j. split_and!; [done..|]. by apply (di_held _ _ H).
Qed.

(** C36: Isolated disposal destroys every value exactly once.  However submitters,
    the blocking pool, its refusals and late drops, the fallback thread and its
    failures to start interleave: no value is destroyed twice, each destruction
    is followed by its completion, a value that is not destroyed yet waits in
    a pending job that something still refers to, and a value from a critical section is destroyed only on the pool or the
    fallback thread, never by its submitter or by whoever drops a job last. *)
Theorem disposal_exactly_once d :
  rtc disposal_step no_disposals d ->
  NoDup (destroyed d) /\ completed d = destroyed d /\
  (forall v venue, Destroyed v venue ∈ happened d -> critical v = true -> venue = OnPool \/ venue = OnWorker) /\
  (forall v, v ∈ known d ->
     (v ∈ destroyed d /\ forall i j, jobs d !! i = Some j -> job_pending j = true -> job_value j <> v) \/
     ((v ∉ destroyed d) /\ exists i j, jobs d !! i = Some j /\ job_pending j = true /\ job_value j = v /\ is_held i j d = true)).
Proof.
  intros H%disposal_reachable. split_and!; [|apply H|apply H|by intros v; apply value_accounted].
  apply occurrences_NoDup. intros v. pose proof (di_once _ _ H v) as Ht. unfold total in Ht. destruct (bool_decide _); lia.
Qed.

(** Where nothing can move, only stranded values are left. *)
Lemma at_rest_stranded d v :
  disposal_inv None d -> queue_ok d -> (forall d', ~ disposal_move d d') -> v ∈ known d -> v ∉ destroyed d ->
  critical v = true /\ stranded d = true /\ exists i j, i ∈ queue d /\ jobs d !! i = Some j /\ job_value j = v.
Proof.
  intros H Hq Hn Hv Hd. destruct (value_accounted d v H Hv) as [[? _]|(_ & i & j & Hj & Hp & Ev & Hh)]; [done|].
  assert (Hl : worker_live d = false).
  { destruct (worker_live d) eqn:E; [|done]. destruct (Hn _ (move_worker d true E)). }
  assert (Hs : job_submitter j = Returned).
  { destruct (decide (job_submitter j = Returned)) as [?|Hne]; [done|]. destruct (Hn _ (move_submitter d i j Taken true Hj Hne)). }
  assert (Hpool : job_pool j = false).
  { destruct (job_pool j) eqn:E; [|done]. destruct (Hn _ (move_pool d i j true true Hj E)). }
  unfold is_held, is_shared in Hh. rewrite Hs, Hpool in Hh. rewrite (bool_decide_true (Returned = _)) in Hh by done.
  rewrite (bool_decide_false (running d = _)) in Hh by (intros E; pose proof (di_running _ _ H i E); congruence).
  cbn [negb orb] in Hh. rewrite orb_false_r in Hh. apply bool_decide_eq_true in Hh. destruct (Hq Hl i Hh) as (y & Hy & Hc).
  assert (y = j) as -> by congruence. subst v. split; [done|]. split; [|by exists i, j].
  rewrite (di_stranded _ _ H), Hl, bool_decide_false; [done|]. intros E. rewrite E in Hh. by apply elem_of_nil in Hh.
Qed.

(** C37: Isolated disposal drains.  From any state it reaches, the moves of its
    threads come to an end after a number fixed by the state; when none is left,
    every value is destroyed and its completion has run, except that values from
    critical sections may be stranded in the fallback queue because no thread
    could be started, in which case the queue is marked as stranded and the next
    submission that can start the worker does. *)
Theorem disposal_drains d :
  rtc disposal_step no_disposals d ->
  (forall n d', nsteps disposal_move n d d' -> (n <= weight d)%nat) /\
  ((forall d', ~ disposal_move d d') -> forall v, v ∈ known d ->
     v ∈ completed d \/
     critical v = true /\ stranded d = true /\ exists i j, i ∈ queue d /\ jobs d !! i = Some j /\ job_value j = v) /\
  (stranded d = true -> worker_live (retry_stranded_fallback_with true d) = true).
Proof.
  intros Hr. pose proof (disposal_reachable d Hr) as H. pose proof (queue_ok_reachable d Hr) as Hq. split_and!.
  - clear. intros n d' Hn. induction Hn as [|n x y z Hm _ IH]; [lia|]. pose proof (move_weight _ _ Hm). lia.
  - intros Hn v Hv. rewrite (di_completed _ _ H). destruct (decide (v ∈ destroyed d)) as [?|Hd]; [by left|]. right. by apply at_rest_stranded.
  - intros Hs. pose proof (di_stranded _ _ H) as E. rewrite Hs in E. symmetry in E. apply andb_true_iff in E as [E1%negb_true_iff E2%negb_true_iff].
    unfold retry_stranded_fallback_with, start_worker_locked. rewrite Hs, E2, E1. done.
Qed.

(** ** A run *)

(** A schedule: what moves next. *)
Inductive Turn := New (is_critical : bool) | Submitting (i : nat) (answer : PoolAnswer) (spawns : bool) | Pooling (i : nat) (runs : bool) | Working.
Definition take_turn (t : Turn) d : Disposals :=
  match t with
  | New c => dispose_new c d
  | Submitting i answer spawns =>
      match jobs d !! i with
      | Some j => if bool_decide (job_submitter j = Returned) then d else submitter_step i j answer spawns d
      | None => d
      end
  | Pooling i runs => match jobs d !! i with Some j => if job_pool j then pool_step i j runs true d else d | None => d end
  | Working => if worker_live d then worker_step true d else d
  end.
Lemma take_turn_steps t d : rtc disposal_step d (take_turn t d).
Proof.
  destruct t as [c|i answer spawns|i runs|]; simpl.
  - apply rtc_once. constructor.
  - destruct (jobs d !! i) as [j|] eqn:Hj; [|done]. case_bool_decide; [done|]. apply rtc_once. constructor. by econstructor.
  - destruct (jobs d !! i) as [j|] eqn:Hj; [|done]. destruct (job_pool j) eqn:Hp; [|done]. apply rtc_once. constructor. by econstructor.
  - destruct (worker_live d) eqn:E; [|done]. apply rtc_once. constructor. by constructor.
Qed.
Lemma turns_steps l d : rtc disposal_step d (foldl (fun d t => take_turn t d) d l).
Proof. revert d. induction l as [|t l IH]; intros d; simpl; [done|]. etrans; [apply take_turn_steps|apply IH]. Qed.

(** A critical value whose closure the pool drops late and a value the pool
    refuses, while no thread starts; a third value lets the worker start. *)
Definition disposal_demo : Disposals :=
  foldl (fun d t => take_turn t d) no_disposals
    ([New true; New false; Submitting 0 Taken false; Submitting 0 Taken false; Pooling 0 false; Submitting 0 Taken false; Submitting 0 Taken false] ++
     replicate 5 (Submitting 1 Refused false) ++ [New false; Submitting 3 Taken true; Submitting 3 Taken true; Submitting 3 Taken true;
     Submitting 3 Taken true; Pooling 3 true] ++ replicate 4 Working).
Example disposal_demo_log : happened disposal_demo =
  [Destroyed (mkValue 1 false) OnSubmitter; Completes (mkValue 1 false); Destroyed (mkValue 3 false) OnPool; Completes (mkValue 3 false);
   Destroyed (mkValue 0 true) OnWorker; Completes (mkValue 0 true)].
Proof. vm_compute. reflexivity. Qed.

Lemma disposal_exactly_once_witness : NoDup (destroyed disposal_demo) /\ length (destroyed disposal_demo) = 3%nat.
Proof. split; [|vm_compute; reflexivity]. exact (proj1 (disposal_exactly_once disposal_demo (turns_steps _ _))). Defined.
Lemma disposal_drains_witness : length (completed disposal_demo) = 3%nat /\ (forall n d', nsteps disposal_move n disposal_demo d' -> (n <= 0)%nat).
Proof. split; [vm_compute; reflexivity|]. exact (proj1 (disposal_drains disposal_demo (turns_steps _ _))). Defined.
