(* ===== verification/Interleave.v ===== *)
(** * Code between critical sections

    A future's poll runs several critical sections, and other threads act
    between them.  [Prog] is such code: atomic steps on a shared state and what
    follows each.  [wp] is its weakest precondition when an environment may
    take any of its steps before each atomic one; [runs] are its executions. *)

From S2P Require Import Prelude.

Inductive Prog (S A : Type) : Type :=
| Pure (a : A)
| Atom {X : Type} (f : S -> outcome (X * S)) (k : X -> Prog S A).
Arguments Pure {S A} a.
Arguments Atom {S A X} f k.

Fixpoint prog_bind {S A B} (p : Prog S A) (k : A -> Prog S B) : Prog S B :=
  match p with
  | Pure a => k a
  | Atom f next => Atom f (fun x => prog_bind (next x) k)
  end.
#[export] Instance prog_mbind S : MBind (Prog S) := fun A B k p => prog_bind p k.
#[export] Instance prog_mret S : MRet (Prog S) := fun A a => Pure a.

(** One critical section. *)
Definition atom {S X} (f : S -> outcome (X * S)) : Prog S X := Atom f Pure.
(** Code of this thread alone. *)
Definition local {S X} (m : outcome X) : Prog S X := atom (fun s => x ← m; Ret (x, s)).

(** How an execution ends: with a value, in a panic, or with the abort of the
    process, in the state given. *)
Inductive ending (A S : Type) := Returned (a : A) (s : S) | Panicked (message : string) | Aborted (s : S).
Arguments Returned {A S} a s.
Arguments Panicked {A S} message.
Arguments Aborted {A S} s.

Section logic.
(** The environment; the panics and the states of abort that are allowed. *)
Context {S : Type} (env : S -> S -> Prop) (allowed : string -> Prop) (doomed : S -> Prop).

(** Executions: the environment acts before each atomic step. *)
Inductive runs {A} : Prog S A -> S -> ending A S -> Prop :=
| runs_pure a s : runs (Pure a) s (Returned a s)
| runs_atom {X} (f : S -> outcome (X * S)) k s s1 x s2 o :
    rtc env s s1 -> f s1 = Ret (x, s2) -> runs (k x) s2 o -> runs (Atom f k) s o
| runs_panic {X} (f : S -> outcome (X * S)) k s s1 message :
    rtc env s s1 -> f s1 = Panics message -> runs (Atom f k) s (Panicked message)
| runs_abort {X} (f : S -> outcome (X * S)) k s s1 :
    rtc env s s1 -> f s1 = ProcessAborts -> runs (Atom f k) s (Aborted s1).

Fixpoint wp {A} (p : Prog S A) (Q : A -> S -> Prop) (s : S) : Prop :=
  match p with
  | Pure a => Q a s
  | Atom f k => forall s1, rtc env s s1 ->
      match f s1 with
      | Ret (x, s2) => wp (k x) Q s2
      | Panics message => allowed message
      | ProcessAborts => doomed s1
      end
  end.

Lemma wp_seq {A B} (p : Prog S A) (k : A -> Prog S B) Q s :
  wp p (fun a => wp (k a) Q) s -> wp (p ≫= k) Q s.
Proof.
  revert s. induction p as [a|X f next IH]; intros s; simpl; [done|].
  intros H s1 He. specialize (H s1 He). destruct (f s1) as [[x s2]| |]; [|done..]. by apply IH.
Qed.
Lemma wp_unseq {A B} (p : Prog S A) (k : A -> Prog S B) Q s :
  wp (p ≫= k) Q s -> wp p (fun a => wp (k a) Q) s.
Proof.
  revert s. induction p as [a|X f next IH]; intros s; simpl; [done|].
  intros H s1 He. specialize (H s1 He). destruct (f s1) as [[x s2]| |]; [|done..]. by apply IH.
Qed.
Lemma wp_weaken {A} (p : Prog S A) (Q Q' : A -> S -> Prop) s :
  wp p Q s -> (forall a s', Q a s' -> Q' a s') -> wp p Q' s.
Proof.
  intros H HQ. revert s H. induction p as [a|X f next IH]; intros s; simpl; [auto|].
  intros H s1 He. specialize (H s1 He). destruct (f s1) as [[x s2]| |]; [|done..]. by apply IH.
Qed.
Lemma wp_done {A} (a : A) (Q : A -> S -> Prop) s : Q a s -> wp (mret a) Q s.
Proof. done. Qed.
Lemma wp_atom {X} (f : S -> outcome (X * S)) (Q : X -> S -> Prop) s :
  (forall s1, rtc env s s1 ->
   match f s1 with Ret (x, s2) => Q x s2 | Panics message => allowed message | ProcessAborts => doomed s1 end) ->
  wp (atom f) Q s.
Proof. intros H s1 He. specialize (H s1 He). by destruct (f s1) as [[x s2]| |]. Qed.

Lemma wp_runs {A} (p : Prog S A) Q s o :
  wp p Q s -> runs p s o ->
  match o with Returned a s' => Q a s' | Panicked message => allowed message | Aborted s' => doomed s' end.
Proof.
  intros H Hr. induction Hr as [a s|X f k s s1 x s2 o He Hf _ IH|X f k s s1 m He Hf|X f k s s1 He Hf]; [done|..];
    specialize (H s1 He); rewrite Hf in H; [by apply IH|done..].
Qed.

(** Code all of whose steps are steps of [R] keeps what [R] and the
    environment keep. *)
Fixpoint within (R : S -> S -> Prop) {A} (p : Prog S A) : Prop :=
  match p with
  | Pure _ => True
  | Atom f k => (forall s x s', f s = Ret (x, s') -> R s s') /\ forall x, within R (k x)
  end.
Lemma within_bind R {A B} (p : Prog S A) (k : A -> Prog S B) :
  within R p -> (forall a, within R (k a)) -> within R (p ≫= k).
Proof.
  intros Hp Hk. induction p as [a|X f next IH]; [apply Hk|]. destruct Hp as [Hf Hn].
  split; [done|]. intros x. apply IH, Hn.
Qed.
Lemma within_atom R {X} (f : S -> outcome (X * S)) :
  (forall s x s', f s = Ret (x, s') -> R s s') -> within R (atom f).
Proof. by intros H. Qed.
Lemma within_local R {X} (m : outcome X) : (forall s, R s s) -> within R (local m).
Proof. intros HR. split; [|done]. intros s x s' H. destruct m; simpl in H; by simplify_eq. Qed.

Lemma wp_frame R (I : S -> Prop) {A} (p : Prog S A) Q s :
  (forall s s', env s s' -> I s -> I s') -> (forall s s', R s s' -> I s -> I s') ->
  within R p -> I s -> wp p Q s -> wp p (fun a s' => Q a s' /\ I s') s.
Proof.
  intros He HR. revert s. induction p as [a|X f k IH]; intros s Hw Hi H; [done|]. destruct Hw as [Hf Hk].
  intros s1 Hs. specialize (H s1 Hs). assert (Hi1 : I s1) by (clear H; induction Hs; eauto).
  destruct (f s1) as [[x s2]| |] eqn:E; [|done..]. eauto.
Qed.
End logic.

(** An execution undisturbed by others, as a function. *)
Fixpoint solo {S A} (p : Prog S A) (s : S) : ending A S :=
  match p with
  | Pure a => Returned a s
  | Atom f k => match f s with
                | Ret (x, s') => solo (k x) s'
                | Panics message => Panicked message
                | ProcessAborts => Aborted s
                end
  end.
Lemma solo_runs {S A} (env : S -> S -> Prop) (p : Prog S A) s : runs env p s (solo p s).
Proof.
  revert s. induction p as [a|X f k IH]; intros s; simpl; [constructor|].
  destruct (f s) as [[x s2]| |] eqn:E; econstructor; eauto; done.
Qed.
