(* ===== verification/MailboxOps.v ===== *)
(** * What others do to a parked send

    The operation a future holds, under every request that is not its own: a
    waiting message keeps waiting with its waker, is accepted, or is handed
    back by termination; an outcome once decided stays. *)

From S2P Require Import Prelude BTree Identity Policy Mailbox MailboxInv.

Section evolution.
Context {M : Type}.
Implicit Types (c : MailboxCell M) (t : MailboxTxn M) (o : OperationState M).

Definition grows o o' : Prop :=
  match op_outcome o with
  | OpWaiting m _ =>
      (exists n, op_outcome o' = OpWaiting m n /\ op_waker o' = op_waker o) \/
      (exists i, op_outcome o' = OpAccepted i) \/ (exists f, op_outcome o' = OpTerminated m f)
  | x => op_outcome o' = x
  end.
Definition ops_grow (op : Z) c c' : Prop :=
  forall o, operations c !! op = Some o -> exists o', operations c' !! op = Some o' /\ grows o o'.

Lemma grows_refl o : grows o o.
Proof. unfold grows. destruct (op_outcome o) eqn:E; eauto. Qed.
Lemma grows_trans o1 o2 o3 : grows o1 o2 -> grows o2 o3 -> grows o1 o3.
Proof.
  unfold grows. destruct (op_outcome o1) eqn:E1.
  - intros [(n & H & Hw)|[(i & H)|(f & H)]]; rewrite H; rewrite ?Hw; eauto.
  - intros H; by rewrite H.
  - intros H; by rewrite H.
  - intros H; by rewrite H.
Qed.
Lemma ops_grow_refl op c : ops_grow op c c.
Proof. intros o Ho. exists o. split; [done|apply grows_refl]. Qed.
Lemma ops_grow_trans op c1 c2 c3 : ops_grow op c1 c2 -> ops_grow op c2 c3 -> ops_grow op c1 c3.
Proof.
  intros H1 H2 o Ho. destruct (H1 o Ho) as (o2 & Ho2 & G2). destruct (H2 o2 Ho2) as (o3 & Ho3 & G3).
  exists o3. split; [done|by eapply grows_trans].
Qed.
Lemma ops_grow_same op c c' : operations c' = operations c -> ops_grow op c c'.
Proof. intros He o Ho. exists o. rewrite He. split; [done|apply grows_refl]. Qed.

Lemma ops_grow_set op k o o' c :
  operations c !! k = Some o -> grows o o' -> ops_grow op c (set_operation k o' c).
Proof.
  intros Hk Hg x Hx. simpl. destruct (decide (op = k)) as [->|Hne].
  - simplify_eq. exists o'. by rewrite lookup_insert_eq.
  - exists x. rewrite lookup_insert_ne by done. split; [done|apply grows_refl].
Qed.
Lemma ops_grow_other op k o c : k ≠ op -> ops_grow op c (set_operation k o c).
Proof.
  intros Hne x Hx. exists x. simpl. rewrite lookup_insert_ne by done. split; [done|apply grows_refl].
Qed.
Lemma ops_grow_update op f k c : (forall o, grows o (f o)) -> ops_grow op c (update_operation f k c).
Proof.
  intros Hf. unfold update_operation. destruct (operations c !! k) as [o|] eqn:E; [|apply ops_grow_refl].
  by eapply ops_grow_set.
Qed.

Lemma grows_observe i o : grows o (observe i o).
Proof. unfold grows, observe. destruct (op_outcome o) eqn:E; simpl; eauto. Qed.
Lemma grows_clear o : grows o (clear_registration o).
Proof. unfold grows, clear_registration. simpl. destruct (op_outcome o); eauto. Qed.
Lemma grows_accept i o x fx o' : op_accept i o = (x, fx, o') -> grows o o'.
Proof.
  unfold op_accept, grows. destruct (op_outcome o) eqn:E; intros H; simplify_eq; rewrite ?E; eauto.
  destruct (slot_take _ _ _). simplify_eq. simpl. eauto.
Qed.
Lemma grows_terminate f o fx o' : op_terminate f o = (fx, o') -> grows o o'.
Proof.
  unfold op_terminate, grows. destruct (op_outcome o) eqn:E; intros H; simplify_eq; rewrite ?E; eauto.
  destruct (slot_take _ _ _). simplify_eq. simpl. eauto.
Qed.

Lemma push_accepted_ops t k m t' : push_accepted t k m = Ret t' -> operations (cell t') = operations (cell t).
Proof.
  unfold push_accepted. intros H. apply bind_Ret_inv in H as ([q ctr] & _ & H). simplify_eq.
  destruct k; simpl; [done|]. by destruct (latest _).
Qed.
Lemma accept_locked_ops t b m r t' : accept_locked t b m = Ret (r, t') -> operations (cell t') = operations (cell t).
Proof.
  unfold accept_locked. destruct (negb _); [by intros [= _ <-]|]. destruct (queue_full _ _); [by intros [= _ <-]|].
  intros H. apply bind_Ret_inv in H as (t1 & H1 & H). simplify_eq. by apply push_accepted_ops in H1.
Qed.

(** A parked message takes a new operation. *)
Lemma park_ops t m n op t' :
  park t m n = Ret (op, t') ->
  op = next_operation (cell t) /\ exists r, operations (cell t') = <[op := operation_new m n (Some r)]> (operations (cell t)).
Proof.
  unfold park. intros H. apply bind_Ret_inv in H as ([r ids] & _ & H). unfold alloc_operation in H. simplify_eq. simpl. eauto.
Qed.
Lemma park_grow op t m n k t' :
  (forall k, is_Some (operations (cell t) !! k) -> k < next_operation (cell t)) ->
  park t m n = Ret (k, t') -> ops_grow op (cell t) (cell t').
Proof.
  intros Hh H. apply park_ops in H as (-> & r & He). intros o Ho. exists o. rewrite He.
  rewrite lookup_insert_ne; [split; [done|apply grows_refl]|]. intros He'.
  assert (op < next_operation (cell t)) by (apply Hh; eauto). lia.
Qed.

Lemma promote_loop_grow op fuel b t t' : promote_loop fuel b t = Ret t' -> ops_grow op (cell t) (cell t').
Proof.
  revert t. induction fuel as [|fuel IH]; intros t H; simpl in H; [simplify_eq; apply ops_grow_refl|].
  destruct (queue_full _ _); [simplify_eq; apply ops_grow_refl|].
  destruct (pop_front _) as [[[i k]|] w]; [|simplify_eq; apply ops_grow_refl].
  set (t1 := on_cell _ _) in H.
  assert (G1 : ops_grow op (cell t) (cell t1)).
  { subst t1. eapply (ops_grow_trans _ _ (update_operation clear_registration k (cell (on_state (set_waiters w) t)))).
    - eapply ops_grow_trans; [|apply ops_grow_update, grows_clear]. by apply ops_grow_same.
    - apply ops_grow_update, grows_observe. }
  match type of H with match ?x with _ => _ end = _ => change x with (operations (cell t1) !! k) in H end.
  destruct (operations (cell t1) !! k) as [o|] eqn:Eo; [|by eapply ops_grow_trans; [|apply IH]].
  destruct (op_accept _ o) as [[taken fx] o'] eqn:Ea. apply grows_accept in Ea.
  assert (G2 : ops_grow op (cell t1) (cell (add_wakers fx (on_cell (set_operation k o') t1)))) by by eapply ops_grow_set.
  eapply ops_grow_trans; [exact G1|]. eapply ops_grow_trans; [exact G2|]. destruct taken as [m|]; [|by apply IH].
  apply bind_Ret_inv in H as (t2 & H2 & H). eapply ops_grow_trans; [|by apply IH].
  apply ops_grow_same. by apply push_accepted_ops in H2.
Qed.

Lemma observe_all_grow op i w c : ops_grow op c (observe_all i w c).
Proof.
  unfold observe_all. generalize (bt_keys (entries w)). intros l. revert c.
  induction l as [|k l IH]; intros c; simpl; [apply ops_grow_refl|].
  eapply ops_grow_trans; [|apply IH]. destruct (entries w !! k); [|apply ops_grow_refl].
  apply ops_grow_update, grows_observe.
Qed.

(** Every request but a poll or withdrawal of the operation itself. *)
Definition touches (x : mailbox_op (M := M)) : option Z :=
  match x with MPoll op _ _ | MWithdraw op _ => Some op | _ => None end.

Lemma submit_grow op c m r fx c' :
  (forall k, is_Some (operations c !! k) -> k < next_operation c) ->
  submit c m = Ret (r, fx, c') -> ops_grow op c c'.
Proof.
  intros Hh H. unfold submit in H. simpl in H.
  assert (Hp : forall n k (t' : MailboxTxn M), park (txn_new c) m n = Ret (k, t') -> ops_grow op c (cell t')).
  { intros n k t' Hp. exact (park_grow op (txn_new c) m n k t' Hh Hp). }
  unfold txn_state in H. simpl in H. destruct (phase (state c)) as [|b|b|f]; simpl in H.
  - apply bind_Ret_inv in H as ([k t1] & H1 & H). unfold finish in H. simplify_eq. exact (Hp _ _ _ ltac:(eassumption)).
  - apply bind_Ret_inv in H as ([[i|m'] t1] & H1 & H); [unfold finish in H; simplify_eq; by apply ops_grow_same; apply accept_locked_ops in H1|].
    assert (m' = m /\ t1 = txn_new c) as [-> ->].
    { unfold accept_locked in H1. destruct (negb _); [by simplify_eq|]. destruct (queue_full _ _); [by simplify_eq|].
      by destruct (push_accepted _ _ m). }
    apply bind_Ret_inv in H as ([k t2] & H2 & H). unfold finish in H. simplify_eq. exact (Hp _ _ _ ltac:(eassumption)).
  - apply bind_Ret_inv in H as ([k t1] & H1 & H). unfold finish in H. simplify_eq. exact (Hp _ _ _ ltac:(eassumption)).
  - unfold finish in H. simplify_eq. apply ops_grow_refl.
Qed.

Lemma try_send_ops c m r fx c' : try_send c m = Ret (r, fx, c') -> operations c' = operations c.
Proof.
  unfold try_send, txn_state, finish. simpl. destruct (phase (state c)) as [|b|b|f]; simpl; intros H; simplify_eq; try done.
  apply bind_Ret_inv in H as ([[i|m'] t1] & H1 & H); simplify_eq; by apply accept_locked_ops in H1.
Qed.
Lemma receive_grow op c i mode r fx c' : receive c i mode = Ret (r, fx, c') -> ops_grow op c c'.
Proof.
  unfold receive, finish. destruct (receive_binding _ _ _) as [[b live]|]; intros H; [|simplify_eq; apply ops_grow_refl].
  destruct (take_next _ _ _) as [[e|] st]; [|simplify_eq; apply ops_grow_refl].
  apply bind_Ret_inv in H as (t1 & H1 & H). simplify_eq. destruct live; simplify_eq; [|by apply ops_grow_same].
  unfold promote_waiters in H1. apply (promote_loop_grow op) in H1. eapply ops_grow_trans; [|exact H1]. by apply ops_grow_same.
Qed.
Lemma bind_grow op c token i r fx c' : bind c token i = Ret (r, fx, c') -> ops_grow op c c'.
Proof.
  unfold bind, txn_state, finish. simpl. destruct (phase (state c)), (kind (state c)); intros H; simplify_eq; try apply ops_grow_refl.
  destruct (claim token _ c) as [[] c1] eqn:Ec; [|done]. apply bind_Ret_inv in H as (t1 & H1 & H). simplify_eq. simpl.
  assert (E1 : operations c1 = operations c).
  { unfold claim in Ec. destruct (_ =? _); [destruct (permits c !! _) as [[]|]|]; by simplify_eq. }
  unfold promote_waiters in H1. apply (promote_loop_grow op) in H1. eapply ops_grow_trans; [|exact H1]. simpl.
  eapply ops_grow_trans; [|apply observe_all_grow]. by apply ops_grow_same.
Qed.
Lemma discharge_grow op d c r d' c' : discharge_next d c = (r, d', c') -> ops_grow op c c'.
Proof.
  unfold discharge_next. destruct (pop_front _) as [[[i k]|] w]; intros H; [|simplify_eq; apply ops_grow_refl].
  eapply (ops_grow_trans _ _ (update_operation clear_registration k c)); [apply ops_grow_update, grows_clear|].
  destruct (operations (update_operation _ _ _) !! k) as [o|] eqn:Eo; [|simplify_eq; apply ops_grow_refl].
  destruct (op_terminate _ o) as [fx' o'] eqn:Et. simplify_eq. eapply ops_grow_set; [done|by eapply grows_terminate].
Qed.

Lemma mexec_grow op w x out w' :
  pinv w -> touches x ≠ Some op -> mexec w x = Ret (out, w') -> ops_grow op (w_cell w) (w_cell w').
Proof.
  intros Hi Ht H. destruct w as [c d]. simpl in *. destruct x; simpl in H, Ht.
  - apply bind_Ret_inv in H as ([[r fx] c1] & H1 & H). simplify_eq. eapply submit_grow; [apply Hi|exact H1].
  - apply bind_Ret_inv in H as ([[r fx] c1] & H1 & H). simplify_eq. by apply ops_grow_same; apply try_send_ops in H1.
  - apply bind_Ret_inv in H as ([[r fx] c1] & H1 & H). simplify_eq. by eapply receive_grow.
  - apply bind_Ret_inv in H as (o & Ho & H). apply bind_Ret_inv in H as ([[r fx] o1] & H1 & H). simplify_eq.
    apply ops_grow_other. congruence.
  - apply bind_Ret_inv in H as ([[r fx] c1] & H1 & H). simplify_eq. simpl. apply withdraw_Ret in H1 as (o & Ho & -> & _).
    eapply ops_grow_trans; [apply (ops_grow_other op op0); congruence|]. by apply ops_grow_same.
  - apply bind_Ret_inv in H as ([[r fx] c1] & H1 & H). simplify_eq. apply ops_grow_same. simpl.
    unfold configure, configure_kind, finish in H1. destruct (kind _); [destruct (bool_decide _)|]; by simplify_eq.
  - apply bind_Ret_inv in H as ([[r fx] c1] & H1 & H). simplify_eq. by eapply bind_grow.
  - apply ops_grow_same. unfold freeze, finish in H. repeat case_match; by simplify_eq.
  - destruct (close c i) as [[r fx] c1] eqn:E. simplify_eq. apply ops_grow_same. simpl. unfold close in E.
    destruct (bool_decide _); cbn in E; injection E as <- <- <-; done.
  - destruct (prepare_termination c) as [[r fx] c1] eqn:E. simplify_eq. apply ops_grow_same. simpl.
    unfold prepare_termination in E. destruct (phase _); cbn in E; injection E as <- <- <-; done.
  - destruct d as [d|]; [|simplify_eq; apply ops_grow_refl]. destruct (discharge_next d c) as [[r d'] c'] eqn:E.
    simplify_eq. by eapply discharge_grow.
Qed.
End evolution.
