(* ===== verification/Futures.v ===== *)
(** * Send, reply and call futures

    [mailbox/futures.rs], [mailbox/deadline.rs], [mailbox/reply.rs] and the
    receive state of [mailbox/capability.rs]: the futures through which callers
    use a mailbox.  A poll is a [Prog]: each locked transition of the mailbox,
    each atomic step of the reply channel and each reading of the clock is one
    atomic step, and other threads act in between.

    A [Scene] is what one caller's future shares with them - the mailbox, the
    reply channel and the clock - together with an account of the messages it
    handed to the mailbox, got back, and discarded, and of the acceptances the
    mailbox reported to it.  The runtime's timer is a
    parameter: [elapsed d now] is whether a timer armed for [d] has fired at
    [now]. *)

From S2P Require Import Prelude BTree Time Identity Policy Mailbox MailboxInv OneShot Interleave.

(** ** Data *)

Module CallErrorKind.
Inductive t := Terminated | AcceptanceTimedOut | ResponseTimedOut | ReplyDropped.
End CallErrorKind.

Record CallError := mkCallError
  { call_actor_id : ChildId;
    call_incarnation_observed : option Incarnation;
    call_kind : CallErrorKind.t }.

Record Replied (T : Type) := mkReplied { value : T; replied_incarnation : Incarnation }.
Arguments mkReplied {T} _ _.
Arguments value {T} _.
Arguments replied_incarnation {T} _.

Module ReplyError.
Inductive t := Dropped | Timeout.
End ReplyError.

Module DeadlinePhase.
Inductive t := InitialAttempt | TimeoutArbitration.
End DeadlinePhase.
Import DeadlinePhase (InitialAttempt, TimeoutArbitration).

Section futures.
Context {M T Ch : Type} `{!TokioOneshot T Ch} {clock : Clock}.
Context (elapsed : Z -> Z -> bool).

(** ** What a future shares *)

Record Scene := mkScene
  { box : world (M := M);
    trace : list (mailbox_op (M := M) * list M);     (* every request made of the mailbox *)
    mine : option Z;                                 (* the operation this future parked *)
    time : Z;
    wire : option (@Shared Ch * @SenderAt T);
    gave : list M;                                   (* submitted by this future *)
    got : list M;                                    (* handed back to it *)
    accepts : list Incarnation;                      (* acceptances the mailbox reported to it *)
    disposed : list M;                               (* discarded by it *)
    discarded : list T }.

Definition set_box w x out s := mkScene w (trace s ++ [(x, out)]) (mine s) (time s) (wire s)
  (gave s) (got s) (accepts s) (disposed s) (discarded s).
Definition set_mine op s := mkScene (box s) (trace s) op (time s) (wire s) (gave s) (got s) (accepts s) (disposed s)
  (discarded s).
Definition set_time t s := mkScene (box s) (trace s) (mine s) t (wire s) (gave s) (got s) (accepts s) (disposed s)
  (discarded s).
Definition set_wire x s := mkScene (box s) (trace s) (mine s) (time s) x (gave s) (got s) (accepts s) (disposed s)
  (discarded s).
(** Messages given and got back, and acceptances reported. *)
Definition account g b a s := mkScene (box s) (trace s) (mine s) (time s) (wire s) (gave s ++ g)
  (got s ++ b) (accepts s ++ a) (disposed s) (discarded s).
Definition set_disposed l s := mkScene (box s) (trace s) (mine s) (time s) (wire s) (gave s) (got s) (accepts s) l
  (discarded s).
Definition set_discarded l s := mkScene (box s) (trace s) (mine s) (time s) (wire s) (gave s) (got s)
  (accepts s) (disposed s) l.

Local Abbreviation Prog := (Prog Scene).
Local Abbreviation SendError := (SendError M).

Definition reading {A} (f : Scene -> A) : Prog A := atom (fun s => Ret (f s, s)).
Definition actor : Prog ChildId := reading (fun s => actor_id (w_cell (box s))).
Definition now : Prog Z := reading time.

(** [runtime::dispose_detached] of a message, and of a reply value. *)
Definition dispose_detached (m : M) : Prog () :=
  atom (fun s => Ret ((), set_disposed (disposed s ++ [m]) s)).
Definition discard (v : T) : Prog () :=
  atom (fun s => Ret ((), set_discarded (discarded s ++ [v]) s)).

(** The acceptances that the mailbox's answers report. *)
Definition submission_accepts (r : Submission M) : list Incarnation :=
  match r with SubAccepted i => [i] | _ => [] end.
Definition poll_accepts (r : OperationPoll M) : list Incarnation :=
  match r with PollAccepted i => [i] | _ => [] end.
Definition withdrawal_accepts (r : WithdrawalOutcome M) : list Incarnation :=
  match r with WithdrawalAccepted i => [i] | _ => [] end.

(** The mailbox transitions a future makes, each also an entry of the trace. *)
Definition own_submit (m : M) : Prog (Submission M) := atom (fun s =>
  '(r, fx, c) ← submit (w_cell (box s)) m;
  let s := set_box (mkWorld c (w_teardown (box s))) (MSubmit m) (submission_out r ++ flushed fx) s in
  Ret (r, account [m] (submission_out r) (submission_accepts r)
            (match r with SubParked op => set_mine (Some op) s | _ => s end))).
Definition own_poll (op : Z) (replacement : option Waker) (current : Waker) : Prog (OperationPoll M) :=
  atom (fun s =>
    let c := w_cell (box s) in
    o ← expect "the caller holds the operation" (operations c !! op);
    '(r, fx, o) ← op_poll o replacement current;
    Ret (r, account [] (poll_out r) (poll_accepts r)
              (set_box (mkWorld (set_operation op o c) (w_teardown (box s)))
                 (MPoll op replacement current) (poll_out r) s))).
Definition own_withdraw (op : Z) (d : WithdrawalDisposition) : Prog (WithdrawalOutcome M) :=
  atom (fun s =>
    '(r, fx, c) ← withdraw (w_cell (box s)) op d;
    Ret (r, account [] (withdrawal_out r) (withdrawal_accepts r)
              (set_box (mkWorld c (w_teardown (box s))) (MWithdraw op d)
                 (withdrawal_out r ++ flushed fx) s))).

(** ** [SendFuture] *)

Inductive SendFutureState :=
| Immediate (message : option M)
| Parked (operation : Z)
| Sent (i : Incarnation)
| Done.

Definition send (m : M) : SendFutureState := Immediate (Some m).

Definition terminated (m : M) (final : option Incarnation) : Prog SendError :=
  id ← actor; mret (mkSendError id final m Terminated).

(** The loop of [SendFuture::poll]: at most one clone of the caller's waker is
    made, so a second iteration is the last. *)
Fixpoint poll_loop (fuel : nat) (op : Z) (cloned : option Waker) (w : Waker)
  : Prog (SendFutureState * option (result Incarnation SendError)) :=
  match fuel with
  | O => local (Panics "the poll loop ends with its second iteration")
  | S fuel =>
      r ← own_poll op cloned w;
      match r with
      | PollAccepted i => mret (Sent i, Some (Ok i))
      | PollTerminated m final => e ← terminated m final; mret (Done, Some (Err e))
      | PollPending => mret (Parked op, None)
      | PollNeedsWakerClone => poll_loop fuel op (Some w) w
      end
  end.

Definition send_poll (w : Waker) (st : SendFutureState)
  : Prog (SendFutureState * option (result Incarnation SendError)) :=
  match st with
  | Immediate m =>
      m ← local (expect "an unsubmitted send retains its message" m);
      r ← own_submit m;
      match r with
      | SubAccepted i => mret (Sent i, Some (Ok i))
      | SubParked op => poll_loop 2 op None w
      | SubTerminated m final => e ← terminated m final; mret (Done, Some (Err e))
      end
  | Sent i => mret (Sent i, Some (Ok i))
  | Parked op => poll_loop 2 op None w
  | Done => local (Panics "a completed send future was polled")
  end.

(** [SendFuture::withdraw]; the future is left [Done]. *)
Definition send_withdraw (d : WithdrawalDisposition) (st : SendFutureState)
  : Prog (WithdrawalOutcome M) :=
  match st with
  | Immediate m =>
      m ← local (expect "an unsubmitted send retains its message" m);
      observed ← reading (fun s => current_observation (w_cell (box s)));
      mret (Withdrawn m observed)
  | Parked op => own_withdraw op d
  | Sent i => mret (WithdrawalAccepted i)
  | Done => local (Panics "a completed send was withdrawn")
  end.

Definition withdraw_send_with (d : WithdrawalDisposition) (st : SendFutureState)
  : Prog (result Incarnation SendError) :=
  id ← actor;
  outcome ← send_withdraw d st;
  mret match outcome with
       | Withdrawn m observed => Err (mkSendError id observed m TimedOut)
       | WithdrawalAccepted i => Ok i
       | WithdrawalTerminated m observed => Err (mkSendError id observed m Terminated)
       end.

Definition send_drop (st : SendFutureState) : Prog () :=
  match st with
  | Immediate (Some m) => dispose_detached m
  | Parked op =>
      outcome ← own_withdraw op Isolated;
      match outcome with
      | Withdrawn m _ | WithdrawalTerminated m _ => dispose_detached m
      | WithdrawalAccepted _ => mret ()
      end
  | Immediate None | Sent _ | Done => mret ()
  end.

(** ** [Deadlined] *)

(** The trait [DeadlineOperation]. *)
Class DeadlineOperation (F Output : Type) :=
  { poll_deadlined : Waker -> Deadline.t -> DeadlinePhase.t -> F -> Prog (F * option Output);
    short_circuit : F -> Prog (F * Output) }.

Record Deadlined (F : Type) := mkDeadlined
  { operation : F;
    budget_width : DeadlineBudget.t;
    budget : option Deadline.t;
    timer : option Z;
    started : bool;
    at_phase : DeadlinePhase.t }.
Arguments mkDeadlined {F} _ _ _ _ _ _.
Arguments operation {F} _.
Arguments budget_width {F} _.
Arguments budget {F} _.
Arguments timer {F} _.
Arguments started {F} _.
Arguments at_phase {F} _.

Section deadlined.
Context {F Output : Type} `{!DeadlineOperation F Output}.

Definition no_attempt (op : F) (width : DeadlineBudget.t) : Deadlined F :=
  mkDeadlined op width None None false InitialAttempt.

(** A deadline that cannot be represented never arrives and arms nothing. *)
Definition poll_timer (b : Deadline.t) (t : option Z) : Prog bool :=
  match Deadline.instant b with
  | None => mret false
  | Some _ =>
      t ← local (expect "an unelapsed deadline future retains its timer" t);
      reading (fun s => elapsed t (time s))
  end.

(** The first poll captures the budget and arms its timer. *)
Definition start (d : Deadlined F) : Prog (Deadlined F) :=
  if started d then mret d
  else
    at_ ← now;
    let b := Deadline.after at_ (DeadlineBudget.duration (budget_width d)) in
    mret (mkDeadlined (operation d) (budget_width d) (Some b)
            (if DeadlineBudget.is_zero (budget_width d) then timer d
             else match Deadline.instant b with Some i => Some i | None => timer d end)
            true (at_phase d)).

Definition deadlined_poll (w : Waker) (d : Deadlined F) : Prog (Deadlined F * option Output) :=
  d ← start d;
  let width := budget_width d in
  if DeadlineBudget.is_zero width then
    '(op, out) ← short_circuit (Output := Output) (operation d);
    mret (mkDeadlined op width (budget d) (timer d) true (at_phase d), Some out)
  else
    b ← local (expect "a started deadline future retains its captured budget" (budget d));
    '(op, r) ← poll_deadlined (Output := Output) w b InitialAttempt (operation d);
    match r with
    | Some out => mret (mkDeadlined op width (Some b) None true (at_phase d), Some out)
    | None =>
        fired ← match at_phase d with
                | InitialAttempt => poll_timer b (timer d)
                | TimeoutArbitration => mret true
                end;
        if negb fired then mret (mkDeadlined op width (Some b) (timer d) true InitialAttempt, None)
        else
          '(op, r) ← poll_deadlined (Output := Output) w b TimeoutArbitration op;
          mret (mkDeadlined op width (Some b) None true TimeoutArbitration, r)
    end.
End deadlined.

(** ** [send_timeout] *)

#[export] Instance send_deadlined : DeadlineOperation SendFutureState (result Incarnation SendError) :=
  {| poll_deadlined w _ phase st :=
       '(st, r) ← send_poll w st;
       match r with
       | Some r => mret (st, Some r)
       | None =>
           match phase with
           | InitialAttempt => mret (st, None)
           | TimeoutArbitration => r ← withdraw_send_with Inline st; mret (Done, Some r)
           end
       end;
     short_circuit st := r ← withdraw_send_with Inline st; mret (Done, r) |}.

Definition send_timeout (m : M) (width : DeadlineBudget.t) : Deadlined SendFutureState :=
  no_attempt (send m) width.

(** ** Replies *)

(** [DisposingReceiver]: the one-shot's receiver and whether a waker proxy is
    installed with it. *)
Record DisposingReceiver := mkDisposing { inner : Receiver; proxied : bool }.

Definition disposing_new : DisposingReceiver := mkDisposing (mkReceiver false RIdle) false.

Inductive ReceivePoll := ReceivePending | Received (v : option T).
Inductive ReplyPoll := ReplyValue (v : T) | ReplySenderClosed | ReplyTimedOut.

(** One atomic step of the receiver on the channel. *)
Definition on_wire {A} (f : @Shared Ch -> outcome (A * @Shared Ch)) : Prog A := atom (fun s =>
  '(sh, at_) ← expect "the channel of the call" (wire s);
  '(a, sh) ← f sh;
  Ret (a, set_wire (Some (sh, at_)) s)).
Definition begin_call (k : ReceiverCall) (r : Receiver) : Prog (list (Output T) * Receiver) :=
  on_wire (fun sh => let '(o, r, sh) := receiver_call k r sh in Ret ((o, r), sh)).
Definition continue_call (o : list (Output T)) (r : Receiver) : Prog (list (Output T) * Receiver) :=
  match receiver_at r with
  | RIdle => mret (o, r)
  | _ => on_wire (fun sh => match receiver_step r sh with
                            | Some (o', r, sh) => Ret ((o ++ o', r), sh)
                            | None => Ret ((o, r), sh)
                            end)
  end.

Definition REPOLLED : string := "shelterwood one-shot receiver polled after completion".

(** [OneShotReceiver::poll_receive]. *)
Definition receive_once (r : Receiver) : Prog (option (option T) * Receiver) :=
  '(o, r) ← begin_call PollReceive r;
  match o with
  | [] => mret (None, r)
  | OutPoll v :: _ => mret (Some v, r)
  | _ => local (Panics REPOLLED)
  end.

(** [OneShotReceiver::close_and_poll_receive]. *)
Definition close_once (r : Receiver) : Prog (@OneShotClose T * Receiver) :=
  '(o, r) ← begin_call CloseAndPoll r;
  '(o, r) ← continue_call o r;
  match o with
  | OutClose x :: _ => mret (x, r)
  | _ => local (Panics REPOLLED)
  end.

(** [ProxiedPoll::poll]: a probe, and a second poll behind the proxy when the
    probe is pending; a result that is not pending retires the proxy. *)
Definition proxied_poll {A} (once : Receiver -> Prog (A * Receiver)) (pending : A -> bool)
    (d : DisposingReceiver) : Prog (A * DisposingReceiver) :=
  '(a, r) ← (if proxied d then once (inner d)
             else
               '(a, r) ← once (inner d);
               if pending a then once r else mret (a, r));
  mret (a, mkDisposing r (pending a)).

Definition poll_receive (d : DisposingReceiver) : Prog (option (option T) * DisposingReceiver) :=
  proxied_poll receive_once (fun a => bool_decide (a = None)) d.
Definition close_and_poll_receive (d : DisposingReceiver)
  : Prog (@OneShotClose T * DisposingReceiver) :=
  proxied_poll close_once (fun a => match a with PendingClose => true | _ => false end) d.

(** [DisposingReceiver::close]. *)
Definition close_receiver (d : DisposingReceiver) : Prog DisposingReceiver :=
  '(_, r) ← begin_call Close (inner d);
  '(_, r) ← continue_call [] r;
  mret (mkDisposing r false).

(** [DisposingReceiver::drop]: an unclaimed value goes to isolated disposal. *)
Definition drop_receiver (d : DisposingReceiver) : Prog () :=
  '(o, r) ← begin_call CloseAndTake (inner d);
  '(o, r) ← continue_call o r;
  '(o, _) ← continue_call o r;
  match o with
  | OutTook (Some v) :: _ => discard v
  | _ => mret ()
  end.

Definition poll_reply (d : DisposingReceiver) (phase : DeadlinePhase.t)
  : Prog (option ReplyPoll * DisposingReceiver) :=
  '(a, d) ← poll_receive d;
  match a, phase with
  | Some (Some v), _ => mret (Some (ReplyValue v), d)
  | Some None, _ => mret (Some ReplySenderClosed, d)
  | None, InitialAttempt => mret (None, d)
  | None, TimeoutArbitration =>
      '(c, d) ← close_and_poll_receive d;
      mret (match c with
            | Value v => Some (ReplyValue v)
            | SenderClosed => Some ReplySenderClosed
            | Empty => Some ReplyTimedOut
            | PendingClose => None
            end, d)
  end.

(** [ReplyOperation], the operation of [ReplyReceiver::recv]. *)
#[export] Instance reply_deadlined : DeadlineOperation DisposingReceiver (result T ReplyError.t) :=
  {| poll_deadlined _ _ phase d :=
       '(r, d) ← poll_reply d phase;
       mret (d, match r with
                | Some (ReplyValue v) => Some (Ok v)
                | Some ReplySenderClosed => Some (Err ReplyError.Dropped)
                | Some ReplyTimedOut => Some (Err ReplyError.Timeout)
                | None => None
                end);
     short_circuit d := d ← close_receiver d; mret (d, Err ReplyError.Timeout) |}.

Definition recv (d : DisposingReceiver) (width : DeadlineBudget.t) : Deadlined DisposingReceiver :=
  no_attempt d width.

(** ** [call] *)

Record CallOperation := mkCall
  { make_msg : option M;             (* what the constructor will build *)
    call_send : option SendFutureState;
    call_reply : option DisposingReceiver;
    call_accepted : option Incarnation }.

Definition call_new (m : M) : CallOperation := mkCall (Some m) None None None.

Local Abbreviation CallResult := (result (Replied T) CallError).

(** [CallOperation::poll_reply]. *)
Definition call_poll_reply (i : Incarnation) (phase : DeadlinePhase.t) (c : CallOperation)
  : Prog (CallOperation * option CallResult) :=
  d ← local (expect "accepted call retains reply state" (call_reply c));
  '(r, d) ← poll_reply d phase;
  let c := mkCall (make_msg c) (call_send c) (Some d) (call_accepted c) in
  id ← actor;
  mret (c, match r with
           | Some (ReplyValue v) => Some (Ok (mkReplied v i))
           | Some ReplySenderClosed => Some (Err (mkCallError id (Some i) CallErrorKind.ReplyDropped))
           | Some ReplyTimedOut => Some (Err (mkCallError id (Some i) CallErrorKind.ResponseTimedOut))
           | None => None
           end).

Definition fail_send (e : SendError) (kind : CallErrorKind.t) (c : CallOperation)
  : Prog (CallOperation * option CallResult) :=
  d ← match call_reply c with
      | Some d => d ← close_receiver d; mret (Some d)
      | None => mret None
      end;
  _ ← dispose_detached (error_message e);
  mret (mkCall (make_msg c) (call_send c) d (call_accepted c),
        Some (Err (mkCallError (error_actor_id e) (incarnation_observed e) kind))).

Definition call_short_circuit (c : CallOperation) : Prog (CallOperation * CallResult) :=
  id ← actor;
  observed ← reading (fun s => current_observation (w_cell (box s)));
  mret (c, Err (mkCallError id observed CallErrorKind.AcceptanceTimedOut)).

(** [Reply::channel]: a fresh one-shot, whose sender travels in the message. *)
Definition reply_channel : Prog DisposingReceiver :=
  atom (fun s => Ret (disposing_new, set_wire (Some (oneshot, SLive)) s)).

(** The request is built once; a budget spent on building it submits nothing. *)
Definition construct (b : Deadline.t) (c : CallOperation)
  : Prog (CallOperation * option CallResult) :=
  match make_msg c with
  | None => mret (c, None)
  | Some m =>
      d ← reply_channel;
      at_ ← now;
      if Deadline.is_overdue b at_ then
        _ ← dispose_detached m;
        '(c, r) ← call_short_circuit (mkCall None (call_send c) (call_reply c) (call_accepted c));
        _ ← drop_receiver d;
        mret (c, Some r)
      else mret (mkCall None (Some (send m)) (Some d) (call_accepted c), None)
  end.

(** The attempt to get the request accepted. *)
Definition call_poll_send (w : Waker) (c : CallOperation) : Prog (CallOperation * option CallResult) :=
  match call_accepted c with
  | Some _ => mret (c, None)
  | None =>
      st ← local (expect "sending call retains send future" (call_send c));
      '(st, r) ← send_poll w st;
      match r with
      | Some (Ok i) => mret (mkCall (make_msg c) None (call_reply c) (Some i), None)
      | Some (Err e) =>
          fail_send e CallErrorKind.Terminated (mkCall (make_msg c) (Some st) (call_reply c) None)
      | None => mret (mkCall (make_msg c) (Some st) (call_reply c) None, None)
      end
  end.

(** What expiry makes of a request that is still unaccepted. *)
Definition call_expire (c : CallOperation) : Prog (CallOperation * option CallResult) :=
  st ← local (expect "an unaccepted call retains its send future" (call_send c));
  r ← withdraw_send_with Isolated st;
  match r with
  | Ok i =>
      call_poll_reply i TimeoutArbitration (mkCall (make_msg c) None (call_reply c) (Some i))
  | Err e =>
      kind ← local match error_kind e with
                   | TimedOut => Ret CallErrorKind.AcceptanceTimedOut
                   | Terminated => Ret CallErrorKind.Terminated
                   | NotRunning | Full => Panics "withdrawal returns only timed-out or terminal errors"
                   end;
      fail_send e kind (mkCall (make_msg c) None (call_reply c) None)
  end.

Definition call_poll (w : Waker) (b : Deadline.t) (phase : DeadlinePhase.t) (c : CallOperation)
  : Prog (CallOperation * option CallResult) :=
  '(c, r) ← construct b c;
  match r with
  | Some r => mret (c, Some r)
  | None =>
      '(c, r) ← call_poll_send w c;
      match r, call_accepted c, phase with
      | Some r, _, _ => mret (c, Some r)
      | None, Some i, _ => call_poll_reply i phase c
      | None, None, InitialAttempt => mret (c, None)
      | None, None, TimeoutArbitration => call_expire c
      end
  end.

#[export] Instance call_deadlined : DeadlineOperation CallOperation CallResult :=
  {| poll_deadlined := call_poll; short_circuit := call_short_circuit |}.

(** [CallOperation::drop] and the drops of its fields. *)
Definition call_drop (c : CallOperation) : Prog () :=
  _ ← match make_msg c with Some m => dispose_detached m | None => mret () end;
  _ ← match call_send c with Some st => send_drop st | None => mret () end;
  match call_reply c with Some d => drop_receiver d | None => mret () end.

Definition call (m : M) (width : DeadlineBudget.t) : Deadlined CallOperation :=
  no_attempt (call_new m) width.

(** ** Lifetimes *)

(** A future is polled, with a waker each time, until it is ready. *)
Fixpoint awaiting {F Output} `{!DeadlineOperation F Output} (ws : list Waker) (d : Deadlined F)
  : Prog (Deadlined F * option Output) :=
  match ws with
  | [] => mret (d, None)
  | w :: ws =>
      '(d, r) ← deadlined_poll w d;
      match r with
      | Some r => mret (d, Some r)
      | None => awaiting ws d
      end
  end.

Fixpoint awaiting_send (ws : list Waker) (st : SendFutureState)
  : Prog (SendFutureState * option (result Incarnation SendError)) :=
  match ws with
  | [] => mret (st, None)
  | w :: ws =>
      '(st, r) ← send_poll w st;
      match r with
      | Some r => mret (st, Some r)
      | None => awaiting_send ws st
      end
  end.

(** ** The others *)

(** What other threads may do to a mailbox request of theirs: not to the
    operation this future holds. *)
Definition foreign (op : option Z) (x : mailbox_op (M := M)) : Prop :=
  match x with
  | MPoll op' _ _ | MWithdraw op' _ => Some op' ≠ op
  | _ => True
  end.

Inductive others : Scene -> Scene -> Prop :=
| others_mailbox s x out w :
    foreign (mine s) x -> mexec (box s) x = Ret (out, w) -> others s (set_box w x out s)
| others_clock s t : time s <= t -> others s (set_time t s)
| others_reply s sh at_ v at' sh' :
    wire s = Some (sh, at_) -> at_ = SLive -> send_exchange v sh = (at', sh') ->
    others s (set_wire (Some (sh', at')) s)
| others_drop_reply s sh at_ at' sh' :
    wire s = Some (sh, at_) -> at_ = SLive -> drop_exchange sh = (at', sh') ->
    others s (set_wire (Some (sh', at')) s)
| others_publish s sh at_ at' sh' :
    wire s = Some (sh, at_) -> sender_step at_ sh = Some (at', sh') ->
    others s (set_wire (Some (sh', at')) s).
End futures.

Arguments mkDeadlined {F} _ _ _ _ _ _.
Arguments operation {F} _.
Arguments budget_width {F} _.
Arguments budget {F} _.
Arguments timer {F} _.
Arguments started {F} _.
Arguments at_phase {F} _.
