(* ===== verification/FuturesProps.v ===== *)
(** * What the send futures promise

    Under every interleaving with the rest of the program: what a send hands to
    the mailbox, gets back and discards, and what its result says about it. *)

From S2P Require Import Prelude BTree Time Identity Policy Mailbox MailboxInv MailboxErrors OneShot Interleave MailboxOps Futures.
Import DeadlinePhase (InitialAttempt, TimeoutArbitration).

Section props.
Context {M T Ch : Type} `{!TokioOneshot T Ch} {clock : Clock}.
Context (elapsed : Z -> Z -> bool) (id : ChildId).
(** The clock's reading when the account was opened. *)
Context (L : Z).
Local Abbreviation Scene := (@Scene M T Ch).
Local Abbreviation Prog := (Prog Scene).
Local Abbreviation others := (@others M T Ch _).
Local Abbreviation SendFutureState := (@SendFutureState M).
Implicit Types (s : Scene) (m : M).

Definition never (message : string) : Prop := False.
(** The mailbox has used up a 64-bit counter. *)
Definition exhausted s : Prop := counters_exhausted (w_cell (box s)).
Local Abbreviation wp := (wp others never exhausted).

(** ** What others leave alone *)

Definition tally (a : list Incarnation) (g b D : list M) s : Prop :=
  gave s = g /\ got s = b /\ disposed s = D /\ mrun id (trace s) (box s) /\ L <= time s /\ accepts s = a.

Definition op_owns (o : OperationState M) m : Prop :=
  match op_outcome o with
  | OpWaiting m' _ | OpTerminated m' _ => m' = m
  | OpAccepted _ => True
  | OpRetired => False
  end.
Definition owns_op s op m : Prop :=
  mine s = Some op /\ exists o, operations (w_cell (box s)) !! op = Some o /\ op_owns o m.

(** A send future and the message it is answerable for. *)
Definition claim (st : SendFutureState) m (D : list M) s : Prop :=
  match st with
  | Immediate (Some m') => m' = m /\ mine s = None /\ tally [] [] [] D s
  | Immediate None | Done => False
  | Parked op => owns_op s op m /\ tally [] [m] [] D s
  | Sent i => tally [i] [m] [] D s
  end.

Lemma grows_owns o o' m : grows o o' -> op_owns o m -> op_owns o' m.
Proof.
  unfold grows, op_owns. destruct (op_outcome o).
  - intros [(n & -> & _)|[(i & ->)|(f & ->)]]; done.
  - by intros ->.
  - by intros ->.
  - done.
Qed.

Lemma others_time s s' : others s s' -> time s <= time s'.
Proof. destruct 1; simpl; lia. Qed.
Lemma others_time_rtc s s' : rtc others s s' -> time s <= time s'.
Proof. induction 1 as [|s s1 s' H _ IH]; [lia|]. apply others_time in H. lia. Qed.

Lemma others_tally a g b D s s' : others s s' -> tally a g b D s -> tally a g b D s'.
Proof.
  intros H. pose proof (others_time _ _ H). destruct H; intros (? & ? & ? & Hr & ? & ?); split_and!; try done; try lia.
  by econstructor.
Qed.
Lemma others_mine s s' : others s s' -> mine s' = mine s.
Proof. by destruct 1. Qed.
Lemma others_owns a g b D op m s s' : others s s' -> tally a g b D s -> owns_op s op m -> owns_op s' op m.
Proof.
  intros H (_ & _ & _ & Hr & _) (Hm & o & Ho & Hc). split; [by rewrite (others_mine _ _ H)|].
  destruct H as [s x out w Hf Hx| | | | ]; [|by eauto..]. simpl in *.
  assert (Ht : touches x ≠ Some op) by (destruct x; simpl in *; congruence).
  destruct (mexec_grow op _ _ _ _ (proj1 (mrun_inv _ _ _ Hr)) Ht Hx o Ho) as (o' & Ho' & Hg). exists o'. split; [done|by eapply grows_owns].
Qed.

Lemma others_claim st m D s s' : others s s' -> claim st m D s -> claim st m D s'.
Proof.
  intros H. destruct st as [[m'|]|op|i|]; simpl; try done.
  - intros (-> & Hm & Ht). rewrite (others_mine _ _ H). split_and!; [done|done|by eapply others_tally].
  - intros [Ho Ht]. split; [by eapply others_owns|by eapply others_tally].
  - by apply others_tally.
Qed.
Lemma others_claim_rtc st m D s s' : rtc others s s' -> claim st m D s -> claim st m D s'.
Proof. induction 1; eauto using others_claim. Qed.
Lemma others_tally_rtc a g b D s s' : rtc others s s' -> tally a g b D s -> tally a g b D s'.
Proof. induction 1; eauto using others_tally. Qed.

(** Code that only reads. *)
Lemma wp_reading {A} (f : Scene -> A) Q s :
  (forall s1, rtc others s s1 -> Q (f s1) s1) -> wp (reading f) Q s.
Proof. intros H. apply wp_atom. intros s1 He. by apply H. Qed.
Lemma wp_local {A} (a : A) Q s : (forall s1, rtc others s s1 -> Q a s1) -> wp (local (Ret a)) Q s.
Proof. intros H. apply wp_atom. intros s1 He. by apply H. Qed.

(** ** Requests of the mailbox *)

Definition registered s op w : Prop :=
  exists o m n, operations (w_cell (box s)) !! op = Some o /\ op_outcome o = OpWaiting m n /\ op_waker o = Some w.

Definition submit_post m (D : list M) (r : Submission M) s : Prop :=
  match r with
  | SubAccepted i => tally [i] [m] [] D s
  | SubParked op => owns_op s op m /\ tally [] [m] [] D s
  | SubTerminated m' _ => m' = m /\ tally [] [m] [m] D s
  end.

Lemma submit_result c m r fx c' :
  submit c m = Ret (r, fx, c') ->
  match r with
  | SubAccepted _ => True
  | SubParked op => exists o, operations c' !! op = Some o /\ op_owns o m
  | SubTerminated m' _ => m' = m
  end.
Proof.
  unfold submit, txn_state, finish. simpl.
  assert (Hp : forall n k (t' : MailboxTxn M), park (txn_new c) m n = Ret (k, t') ->
    exists o, operations (cell t') !! k = Some o /\ op_owns o m).
  { intros n k t' Hp. apply park_ops in Hp as (_ & q & ->). eexists. by rewrite lookup_insert_eq. }
  destruct (phase (state c)) as [|b|b|f]; simpl; intros H.
  - apply bind_Ret_inv in H as ([k t1] & H1 & H). simplify_eq. by eapply Hp.
  - apply bind_Ret_inv in H as ([[i|m'] t1] & H1 & H); [by simplify_eq|].
    apply accept_locked_err in H1 as [-> ->]. apply bind_Ret_inv in H as ([k t2] & H2 & H). simplify_eq. by eapply Hp.
  - apply bind_Ret_inv in H as ([k t1] & H1 & H). simplify_eq. by eapply Hp.
  - by simplify_eq.
Qed.

Lemma wp_own_submit m D s Q :
  mine s = None -> tally [] [] [] D s -> (forall r s', submit_post m D r s' -> Q r s') -> wp (own_submit m) Q s.
Proof.
  intros _ Ht HQ. apply wp_atom. intros s1 He. apply (others_tally_rtc _ _ _ _ _ _ He) in Ht as (Hg & Hb & HD & Hr & HL & HA).
  pose proof (submit_total (w_cell (box s1)) m) as Htot.
  destruct (submit (w_cell (box s1)) m) as [[[r fx] c]| |] eqn:E; simpl; [|done..].
  apply HQ. pose proof (submit_result _ _ _ _ _ E) as Hres.
  assert (Hr' : mrun id (trace s1 ++ [(MSubmit m, submission_out r ++ flushed fx)]) (mkWorld c (w_teardown (box s1)))).
  { econstructor; [exact Hr|]. simpl. rewrite E. done. }
  destruct r as [i|op|m' f]; simpl.
  - split_and!; simpl; [by rewrite Hg|by rewrite Hb|done|exact Hr'|done|by rewrite HA].
  - split; [split; [done|exact Hres]|]. split_and!; simpl; [by rewrite Hg|by rewrite Hb|done|exact Hr'|done|by rewrite HA].
  - split; [done|]. rewrite Hres in Hr' |- *. split_and!; simpl; [by rewrite Hg|by rewrite Hb|done|exact Hr'|done|by rewrite HA].
Qed.

Definition poll_post op m (D : list M) (cloned : option Waker) w (r : OperationPoll M) s : Prop :=
  match r with
  | PollAccepted i => tally [i] [m] [] D s
  | PollTerminated m' _ => m' = m /\ tally [] [m] [m] D s
  | PollPending => owns_op s op m /\ tally [] [m] [] D s /\ registered s op w
  | PollNeedsWakerClone => cloned = None /\ owns_op s op m /\ tally [] [m] [] D s
  end.

(** What a poll makes of an operation that still answers for its message. *)
Lemma op_poll_result (o : OperationState M) m cloned w r fx o' :
  op_owns o m -> op_poll o cloned w = Ret (r, fx, o') ->
  match r with
  | PollAccepted _ => True
  | PollTerminated m' _ => m' = m
  | PollPending => op_owns o' m /\ (exists m n, op_outcome o' = OpWaiting m n) /\ op_waker o' = Some w \/ cloned ≠ Some w /\ cloned ≠ None
  | PollNeedsWakerClone => cloned = None /\ o' = o
  end.
Proof.
  unfold op_owns, op_poll, poll_once. destruct (op_outcome o) as [m' n|i|m' f|] eqn:E, cloned as [x|]; simpl;
    rewrite ?E; simpl; intros Ho H; try done; simplify_eq; try done.
  - destruct (slot_replace (op_waker o) x []) as [slot fx0] eqn:Es. simpl in H. simplify_eq. simpl. rewrite ?E.
    assert (slot = Some x) as -> by (unfold slot_replace in Es; destruct (op_waker o); by simplify_eq).
    destruct (decide (x = w)) as [->|]; [left; eauto|right; split; congruence].
  - destruct (will_wake (op_waker o') w) eqn:Ew; [|done]. left. rewrite E. split_and!; eauto.
    unfold will_wake in Ew. destruct (op_waker o'); simpl in Ew; [|done]. f_equal. lia.
Qed.

Lemma wp_own_poll op m D cloned w s Q :
  cloned = None \/ cloned = Some w -> owns_op s op m -> tally [] [m] [] D s ->
  (forall r s', poll_post op m D cloned w r s' -> Q r s') -> wp (own_poll op cloned w) Q s.
Proof.
  intros Hcl Ho Ht HQ. apply wp_atom. intros s1 He.
  assert (claim (Parked op) m D s1) as [(Hm & o & Hl & Hc) (Hg & Hb & HD & Hr & HL & HA)] by by eapply others_claim_rtc.
  cbv zeta. rewrite Hl. simpl. assert (Hne : op_outcome o ≠ OpRetired) by (intros E; unfold op_owns in Hc; by rewrite E in Hc).
  pose proof (op_poll_total o cloned w Hne) as Htot.
  destruct (op_poll o cloned w) as [[[r fx] o']| |] eqn:E; simpl; [|done..]. apply HQ.
  pose proof (op_poll_result _ _ _ _ _ _ _ Hc E) as Hres.
  assert (Hr' : mrun id (trace s1 ++ [(MPoll op cloned w, poll_out r)])
    (mkWorld (set_operation op o' (w_cell (box s1))) (w_teardown (box s1)))).
  { econstructor; [exact Hr|]. simpl. rewrite Hl. simpl. by rewrite E. }
  assert (Hl' : operations (set_operation op o' (w_cell (box s1))) !! op = Some o') by apply lookup_insert_eq.
  destruct r as [i|m' f| |]; simpl in *.
  - split_and!; simpl; [by rewrite Hg|by rewrite Hb|done|exact Hr'|done|by rewrite HA].
  - split; [done|]. rewrite Hres in Hr' |- *. split_and!; simpl; [by rewrite Hg|by rewrite Hb|done|exact Hr'|done|by rewrite HA].
  - destruct Hres as [(Hc' & (m1 & n1 & Hw) & Hk)|[H1 H2]]; [|by destruct Hcl].
    split_and!; [split; eauto| |exists o', m1, n1; done]. split_and!; simpl; [by rewrite Hg|by rewrite Hb|done|exact Hr'|done|by rewrite HA].
  - destruct Hres as [-> ->]. split; [done|]. split; [split; eauto|].
    split_and!; simpl; [by rewrite Hg|by rewrite Hb|done|exact Hr'|done|by rewrite HA].
Qed.

Definition withdraw_post m (D : list M) (r : WithdrawalOutcome M) s : Prop :=
  match r with
  | Withdrawn m' _ | WithdrawalTerminated m' _ => m' = m /\ tally [] [m] [m] D s
  | WithdrawalAccepted i => tally [i] [m] [] D s
  end.

Lemma wp_own_withdraw op m D d s Q :
  owns_op s op m -> tally [] [m] [] D s ->
  (forall r s', withdraw_post m D r s' -> Q r s') -> wp (own_withdraw op d) Q s.
Proof.
  intros Ho Ht HQ. apply wp_atom. intros s1 He.
  assert (claim (Parked op) m D s1) as [(Hm & o & Hl & Hc) (Hg & Hb & HD & Hr & HL & HA)] by by eapply others_claim_rtc.
  assert (Hne : op_outcome o ≠ OpRetired) by (intros E; unfold op_owns in Hc; by rewrite E in Hc).
  destruct (withdraw_returns (w_cell (box s1)) (w_teardown (box s1))
    ltac:(destruct (box s1); apply (mrun_inv _ _ _ Hr)) op o Hl d Hne) as (r & fx & c & E).
  rewrite E. simpl. apply HQ.
  assert (Hr' : mrun id (trace s1 ++ [(MWithdraw op d, withdrawal_out r ++ flushed fx)])
    (mkWorld c (w_teardown (box s1)))).
  { econstructor; [exact Hr|]. simpl. by rewrite E. }
  apply withdraw_Ret in E as (o1 & Ho1 & -> & _ & Hres & _). simplify_eq. unfold op_owns in Hc.
  destruct (op_outcome o) as [m' n|i|m' f|]; simplify_eq; simpl in *.
  - split; [done|]. split_and!; simpl; [by rewrite Hg|by rewrite Hb|done|exact Hr'|done|by rewrite HA].
  - split_and!; simpl; [by rewrite Hg|by rewrite Hb|done|exact Hr'|done|by rewrite HA].
  - split; [done|]. split_and!; simpl; [by rewrite Hg|by rewrite Hb|done|exact Hr'|done|by rewrite HA].
Qed.

(** ** Sends *)

(** A result accounts for the message: kept by the mailbox, or handed back. *)
Definition send_result m (D : list M) (r : result Incarnation (SendError M)) s : Prop :=
  match r with
  | Ok i => tally [i] [m] [] D s
  | Err e => error_message e = m /\ (tally [] [m] [m] D s \/ tally [] [] [] D s)
  end.
Definition is_terminated (r : result Incarnation (SendError M)) : Prop :=
  match r with Ok _ => True | Err e => error_kind e = Terminated end.

Definition send_post m (D : list M) w (x : SendFutureState * option (result Incarnation (SendError M))) s : Prop :=
  match x.2 with
  | None => claim x.1 m D s /\ exists op, x.1 = Parked op /\ registered s op w
  | Some r => send_result m D r s /\ is_terminated r /\ (x.1 = Done \/ exists i, r = Ok i /\ x.1 = Sent i)
  end.

Lemma wp_terminated m final D s (Q : SendError M -> Scene -> Prop) :
  tally [] [m] [m] D s ->
  (forall e s', send_result m D (Err e) s' -> error_kind e = Terminated -> Q e s') ->
  wp (terminated m final) Q s.
Proof.
  intros Ht HQ. apply wp_seq, wp_reading. intros s1 He. apply wp_done, HQ; [|done]. split; [done|]. left.
  by eapply others_tally_rtc.
Qed.

Lemma wp_poll_loop op m D cloned w fuel s :
  (cloned = None /\ fuel = 2%nat) \/ (cloned = Some w /\ fuel = 1%nat) ->
  owns_op s op m -> tally [] [m] [] D s -> wp (poll_loop fuel op cloned w) (send_post m D w) s.
Proof.
  assert (Hl : forall cloned fuel s, cloned = None \/ cloned = Some w -> owns_op s op m -> tally [] [m] [] D s ->
    (cloned = None -> forall s', owns_op s' op m -> tally [] [m] [] D s' ->
       wp (poll_loop fuel op (Some w) w) (send_post m D w) s') ->
    wp (poll_loop (S fuel) op cloned w) (send_post m D w) s).
  { intros cl f s0 Hcl Ho Ht Hnext. cbn [poll_loop]. apply wp_seq. eapply wp_own_poll; [done|done|done|].
    intros [i|m' final| |] s' Hp; simpl in Hp.
    - apply wp_done. split; [done|]. split; [done|]. right. eauto.
    - destruct Hp as [-> Hp]. apply wp_seq. eapply wp_terminated; [exact Hp|]. intros e s1 He Hk.
      apply wp_done. split_and!; [done|done|by left].
    - destruct Hp as (Ho' & Ht' & Hreg). apply wp_done. split; [by split|eauto].
    - destruct Hp as (Hn & Ho' & Ht'). by apply Hnext. }
  intros [[-> ->]|[-> ->]] Ho Ht; apply Hl; auto; [|done].
  intros _ s' Ho' Ht'. apply Hl; auto. done.
Qed.

Lemma wp_send_poll st m D w s : claim st m D s -> wp (send_poll w st) (send_post m D w) s.
Proof.
  destruct st as [[m'|]|op|i|]; cbn [claim send_poll expect]; try done.
  - intros (-> & Hm & Ht). apply wp_seq, wp_local. intros s1 He.
    assert (Ht1 : claim (Immediate (Some m)) m D s1) by (eapply others_claim_rtc; [exact He|done]).
    destruct Ht1 as (_ & Hm1 & Ht1). apply wp_seq. eapply wp_own_submit; [done|done|].
    intros [i|op|m' final] s2 Hp; simpl in Hp.
    + apply wp_done. split; [done|]. split; [done|]. right. eauto.
    + destruct Hp as [Ho Ht2]. apply wp_poll_loop; [by left|done|done].
    + destruct Hp as [-> Ht2]. apply wp_seq. eapply wp_terminated; [exact Ht2|]. intros e s3 Hs Hk.
      apply wp_done. split_and!; [done|done|by left].
  - intros [Ho Ht]. apply wp_poll_loop; [by left|done|done].
  - intros Ht. split; [done|]. split; [done|]. right. eauto.
Qed.

(** A withdrawn send: handed back, unless it was accepted after all. *)
Lemma wp_withdraw_send st m D d s :
  claim st m D s ->
  wp (withdraw_send_with d st) (fun r s' => send_result m D r s' /\ 
    match r with Ok _ => True | Err e => error_kind e = Terminated \/ error_kind e = TimedOut end) s.
Proof.
  intros Hc. apply wp_seq, wp_reading. intros s1 He. apply (others_claim_rtc _ _ _ _ _ He) in Hc.
  apply wp_seq. destruct st as [[m'|]|op|i|]; cbn [claim] in Hc; try done; cbn [send_withdraw expect].
  - destruct Hc as (-> & Hm & Ht). apply wp_seq, wp_local. intros s2 He2. apply wp_seq, wp_reading. intros s3 He3.
    apply wp_done, wp_done. split; [|by right]. split; [done|]. right.
    eapply others_tally_rtc; [exact He3|]. by eapply others_tally_rtc.
  - destruct Hc as [Ho Ht]. eapply wp_own_withdraw; [done|done|]. intros [m' ob|i|m' ob] s2 Hp; simpl in Hp; apply wp_done.
    + destruct Hp as [-> Hp]. split; [|by right]. split; [done|by left].
    + done.
    + destruct Hp as [-> Hp]. split; [|by left]. split; [done|by left].
Qed.

(** A dropped send: accepted, or handed back and discarded. *)
Lemma wp_send_drop st m D s :
  claim st m D s ->
  wp (send_drop st) (fun _ s' => (exists i, tally [i] [m] [] D s') \/ tally [] [m] [m] (D ++ [m]) s' \/ tally [] [] [] (D ++ [m]) s') s.
Proof.
  assert (Hd : forall a g b s, tally a g b D s -> wp (dispose_detached m) (fun _ => tally a g b (D ++ [m])) s).
  { intros a g b s0 Ht. apply wp_atom. intros s1 He. destruct (others_tally_rtc _ _ _ _ _ _ He Ht) as (H1 & H2 & HD & H3 & H4 & H5).
    split_and!; simpl; [done|done|by rewrite HD|done|done|done]. }
  destruct st as [[m'|]|op|i|]; cbn [claim send_drop]; try done.
  - intros (-> & _ & Ht). eapply wp_weaken; [by apply Hd|]. auto.
  - intros [Ho Ht]. apply wp_seq. eapply wp_own_withdraw; [done|done|]. intros [m' ob|i|m' ob] s2 Hp; simpl in Hp.
    + destruct Hp as [-> Hp]. eapply wp_weaken; [by apply Hd|]. auto.
    + apply wp_done. left; by exists i.
    + destruct Hp as [-> Hp]. eapply wp_weaken; [by apply Hd|]. auto.
  - intros Ht. left; by exists i.
Qed.
End props.

(** An account opened later. *)
Section raising.
Context {M T Ch : Type} `{!TokioOneshot T Ch} {clock : Clock}.
Implicit Types (s : @Scene M T Ch) (m : M).
Lemma tally_raise (id : ChildId) L L' a g b (D : list M) s : L' <= time s -> tally id L a g b D s -> tally id L' a g b D s.
Proof. intros HL (? & ? & ? & ? & ? & ?). by split_and!. Qed.
Lemma claim_raise (id : ChildId) L L' st m (D : list M) s : L' <= time s -> claim id L st m D s -> claim id L' st m D s.
Proof.
  intros HL. destruct st as [[m'|]|op|i|]; simpl; try done.
  - intros (? & ? & ?). split_and!; [done|done|by eapply tally_raise].
  - intros (? & ?). split; [done|by eapply tally_raise].
  - by apply tally_raise.
Qed.
Lemma claim_time (id : ChildId) L st m (D : list M) s : claim id L st m D s -> L <= time s.
Proof. destruct st as [[m'|]|op|i|]; simpl; try done; unfold tally; naive_solver. Qed.
End raising.

(** ** Deadlines *)

Section deadlines.
Context {M T Ch : Type} `{!TokioOneshot T Ch} {clock : Clock}.
Local Abbreviation Scene := (@Scene M T Ch).
Local Abbreviation Prog := (Prog Scene).
Local Abbreviation others := (@others M T Ch _).
Local Abbreviation wp := (wp others never exhausted).
Implicit Types (s : Scene).

(** A runtime timer does not fire before its instant. *)
Context (elapsed : Z -> Z -> bool) (timer_not_early : forall d n, elapsed d n = true -> d <= n).

(** An operation under a deadline: what it keeps while pending, from a reading
    of the clock on, and what each kind of completion establishes. *)
Context {F Output : Type} `{!DeadlineOperation (M := M) (T := T) (Ch := Ch) F Output}.
Context (Fresh Inv : Z -> F -> Scene -> Prop) (Post : Z -> Deadline.t -> DeadlinePhase.t -> F -> Output -> Scene -> Prop)
  (Short : Z -> F -> Output -> Scene -> Prop).
Context (Fresh_stable : forall L f s s', others s s' -> Fresh L f s -> Fresh L f s').
Context (Fresh_Inv : forall L f s, Fresh L f s -> Inv L f s).
Context (Inv_stable : forall L f s s', others s s' -> Inv L f s -> Inv L f s').
Context (Inv_time : forall L f s, Inv L f s -> L <= time s).
Context (Inv_raise : forall L L' f s, L' <= time s -> Inv L f s -> Inv L' f s).
Context (poll_ok : forall L w b ph f s, Inv L f s ->
  wp (poll_deadlined w b ph f)
    (fun x s' => match x.2 with None => Inv L x.1 s' | Some o => Post L b ph x.1 o s' end) s).
Context (short_ok : forall L f s, Fresh L f s -> wp (short_circuit f) (fun x s' => Short L x.1 x.2 s') s).
Context (t0 : Z) (width : DeadlineBudget.t).

Local Abbreviation budget_from t1 := (Deadline.after t1 (DeadlineBudget.duration width)).

(** The budget, taken at a reading of the clock from [t0] on, is spent by [t]. *)
Definition spent (t : Z) : Prop :=
  exists t1 d, t0 <= t1 /\ Deadline.instant (budget_from t1) = Some d /\ d <= t.

Definition deadlined_ok (d : Deadlined F) s : Prop :=
  budget_width d = width /\ Inv t0 (operation d) s /\
  if started d then
    DeadlineBudget.is_zero width = false /\
    match at_phase d with
    | InitialAttempt => exists t1, t0 <= t1 /\ budget d = Some (budget_from t1) /\
                          timer d = Deadline.instant (budget_from t1)
    | TimeoutArbitration => (exists t1, t0 <= t1 /\ budget d = Some (budget_from t1)) /\ spent (time s)
    end
  else at_phase d = InitialAttempt /\ timer d = None /\ Fresh t0 (operation d) s.

Definition deadlined_post (x : Deadlined F * option Output) s : Prop :=
  match x.2 with
  | None => deadlined_ok x.1 s
  | Some o =>
      if DeadlineBudget.is_zero width then Short t0 (operation x.1) o s
      else exists t1 ph L, t0 <= t1 /\ t0 <= L /\ Post L (budget_from t1) ph (operation x.1) o s /\
                         (ph = TimeoutArbitration -> spent L)
  end.

Lemma Inv_stable_rtc L f s s' : rtc others s s' -> Inv L f s -> Inv L f s'.
Proof using Inv_stable. induction 1; eauto. Qed.
Lemma Fresh_stable_rtc L f s s' : rtc others s s' -> Fresh L f s -> Fresh L f s'.
Proof using Fresh_stable. induction 1; eauto. Qed.
Lemma spent_later t t' : t <= t' -> spent t -> spent t'.
Proof. intros Ht (t1 & d & H1 & Hd & H). exists t1, d. split_and!; [done|done|lia]. Qed.

(** The state after the first step of a poll. *)
Definition started_ok (d : Deadlined F) s : Prop :=
  budget_width d = width /\ Inv t0 (operation d) s /\
  (exists t1, t0 <= t1 /\ budget d = Some (budget_from t1)) /\
  (DeadlineBudget.is_zero width = true -> Fresh t0 (operation d) s) /\
  (DeadlineBudget.is_zero width = false ->
   match at_phase d with
   | InitialAttempt => exists t1, t0 <= t1 /\ budget d = Some (budget_from t1) /\
                         timer d = Deadline.instant (budget_from t1)
   | TimeoutArbitration => spent (time s)
   end).

Lemma wp_start d s : deadlined_ok d s -> wp (start d) started_ok s.
Proof using All.
  intros (Hw & Hi & Hs). unfold start. destruct (started d) eqn:Es.
  - destruct Hs as (Hz & Hp). apply wp_done. split; [done|]. split; [done|]. split_and!.
    + destruct (at_phase d); [destruct Hp as (t1 & H1 & -> & _); eauto|naive_solver].
    + congruence.
    + intros _. destruct (at_phase d); [done|naive_solver].
  - destruct Hs as (Hp & Ht & Hf). apply wp_seq, wp_reading. intros s1 He. apply wp_done.
    apply (Inv_stable_rtc _ _ _ _ He) in Hi. pose proof (Inv_time _ _ _ Hi).
    split_and!; simpl; [done|done|rewrite <- Hw; eauto|intros _; by eapply Fresh_stable_rtc|].
    rewrite Hw, Hp, Ht. intros ->. exists (time s1).
    split_and!; [done|done|]. by destruct (Deadline.instant _).
Qed.

(** The arbitration pass, once the budget is spent. *)
Lemma wp_arbitrate w t1 op s :
  t0 <= t1 -> Inv t0 op s -> spent (time s) -> DeadlineBudget.is_zero width = false ->
  wp ('(op, r) ← poll_deadlined w (budget_from t1) TimeoutArbitration op;
      mret (mkDeadlined op width (Some (budget_from t1)) None true TimeoutArbitration, r)) deadlined_post s.
Proof using All.
  intros H1 Hi Hsp Hz. pose proof (Inv_time _ _ _ Hi) as H0. apply wp_seq.
  eapply wp_weaken; [apply (poll_ok (time s)); by eapply Inv_raise|]. intros [op' [o|]] s' Hp; simpl in Hp; apply wp_done.
  - unfold deadlined_post. simpl. rewrite Hz. exists t1, TimeoutArbitration, (time s). done.
  - pose proof (Inv_time _ _ _ Hp). split; [done|]. split; [|split; [done|split; [eauto|by eapply spent_later]]].
    simpl. eapply Inv_raise; [|exact Hp]. lia.
Qed.

Lemma wp_deadlined_poll w d s : deadlined_ok d s -> wp (deadlined_poll elapsed w d) deadlined_post s.
Proof using All.
  intros Hd. apply wp_seq. eapply wp_weaken; [by apply wp_start|]. clear d s Hd.
  intros d s (Hw & Hi & (t1 & H1 & Hb) & Hfr & Hp). cbv zeta. rewrite Hw. destruct (DeadlineBudget.is_zero width) eqn:Ez.
  { apply wp_seq. eapply wp_weaken; [by apply short_ok, Hfr|]. intros [op o] s' Hsh. apply wp_done.
    unfold deadlined_post. simpl. by rewrite Ez. }
  specialize (Hp eq_refl). rewrite Hb. cbn [expect]. apply wp_seq, wp_local. intros s1 He1.
  pose proof (others_time_rtc _ _ He1) as Ht1. apply (Inv_stable_rtc _ _ _ _ He1) in Hi.
  apply wp_seq. eapply wp_weaken; [apply (poll_ok (time s1) w _ InitialAttempt); by eapply Inv_raise|].
  pose proof (Inv_time _ _ _ Hi) as H0. intros [op [o|]] s2 Ho; simpl in Ho.
  { apply wp_done. unfold deadlined_post. simpl. rewrite Ez. exists t1, InitialAttempt, (time s1). done. }
  assert (Ho0 : Inv t0 op s2) by (pose proof (Inv_time _ _ _ Ho); eapply Inv_raise; [lia|exact Ho]).
  apply Inv_time in Ho. apply wp_seq. destruct (at_phase d) eqn:Eph.
  - destruct Hp as (t2 & H2 & Hb2 & Htm). rewrite Hb in Hb2. injection Hb2 as Hb2. rewrite <- Hb2 in Htm.
    unfold poll_timer. rewrite Htm.
    destruct (Deadline.instant (budget_from t1)) as [i|] eqn:Ei.
    + cbn [expect]. apply wp_seq, wp_local. intros s3 He3. apply wp_reading. intros s4 He4.
      apply (Inv_stable_rtc _ _ _ _ He3), (Inv_stable_rtc _ _ _ _ He4) in Ho0.
      destruct (elapsed i (time s4)) eqn:Ee; simpl negb; cbv iota.
      * apply wp_arbitrate; [done|done| |done]. exists t1, i. split_and!; [done|done|by apply timer_not_early].
      * apply wp_done. do 3 (split; [done|]). exists t1. by rewrite Ei.
    + apply wp_done. cbn [negb]. apply wp_done. do 3 (split; [done|]). exists t1. by rewrite Ei.
  - apply wp_done. cbn [negb]. apply wp_arbitrate; [done|done|eapply spent_later; [|exact Hp]; lia|done].
Qed.

Lemma wp_awaiting ws d s : deadlined_ok d s -> wp (awaiting elapsed ws d) deadlined_post s.
Proof using All.
  revert d s. induction ws as [|w ws IH]; intros d s Hd; [done|]. cbn [awaiting]. apply wp_seq.
  eapply wp_weaken; [by apply wp_deadlined_poll|]. intros [d' [o|]] s' Hp; [done|]. by apply IH.
Qed.
End deadlines.

(** ** Promises of the mailbox futures

    [send], [send_timeout] and [call] over whole lifetimes: polled any number
    of times among the steps of everyone else, then ready or dropped. *)

Import DeadlinePhase (InitialAttempt, TimeoutArbitration).

Section sends.
Context {M T Ch : Type} `{!TokioOneshot T Ch} {clock : Clock}.
Local Abbreviation Scene := (@Scene M T Ch).
Local Abbreviation Prog := (Prog Scene).
Local Abbreviation others := (@others M T Ch _).
Local Abbreviation wp := (wp others never exhausted).
Implicit Types (s : Scene) (m : M).

(** A lifetime: awaited, and dropped if it was still pending. *)
Definition send_lifetime (ws : list Waker) (m : M) : Prog (option (result Incarnation (SendError M))) :=
  '(st, r) ← awaiting_send ws (send m);
  match r with
  | Some r => mret (Some r)
  | None => _ ← send_drop st; mret None
  end.
Definition send_timeout_lifetime elapsed (ws : list Waker) (m : M) (width : DeadlineBudget.t)
  : Prog (option (result Incarnation (SendError M))) :=
  '(d, r) ← awaiting elapsed ws (send_timeout m width);
  match r with
  | Some r => mret (Some r)
  | None => _ ← send_drop (operation d); mret None
  end.

(** A caller that has no send in progress. *)
Definition at_rest (id : ChildId) s : Prop :=
  mrun id (trace s) (box s) /\ mine s = None /\ gave s = [] /\ got s = [] /\ disposed s = [] /\ accepts s = [].

Lemma at_rest_claim id s m : at_rest id s -> claim id (time s) (send m) m [] s.
Proof. intros (Hr & Hm & Hg & Hb & HD & HA). split_and!; [done|done|]. by split_and!. Qed.

(** What became of the one message a lifetime is about: the mailbox told it
    once that incarnation [i] accepted the message, or never. *)
Definition kept i m s : Prop := accepts s = [i] /\ gave s = [m] /\ got s = [] /\ disposed s = [].
Definition returned m s : Prop := accepts s = [] /\ got s = gave s /\ disposed s = [] /\ (gave s = [] \/ gave s = [m]).
Definition thrown_away m s : Prop := accepts s = [] /\ got s = gave s /\ disposed s = [m] /\ (gave s = [] \/ gave s = [m]).

Lemma wp_awaiting_send (id : ChildId) L ws st m (D : list M) s :
  claim id L st m D s ->
  wp (awaiting_send ws st) (fun x s' => match x.2 with
    | None => claim id L x.1 m D s'
    | Some r => send_result id L m D r s' /\ is_terminated r end) s.
Proof.
  revert st s. induction ws as [|w ws IH]; intros st s Hc; [done|]. cbn [awaiting_send]. apply wp_seq.
  eapply wp_weaken; [by apply wp_send_poll|]. intros [st' [r|]] s' Hp; unfold send_post in Hp; simpl in Hp.
  - apply wp_done. naive_solver.
  - apply IH. naive_solver.
Qed.

(** What a lifetime's end says of its message. *)
Definition lifetime_post m (r : option (result Incarnation (SendError M))) s : Prop :=
  match r with
  | Some (Ok i) => kept i m s
  | Some (Err e) => error_message e = m /\ returned m s
  | None => (exists i, kept i m s) \/ thrown_away m s
  end.

Lemma send_result_post (id : ChildId) L m r s : send_result id L m [] r s -> lifetime_post m (Some r) s.
Proof.
  destruct r as [i|e]; simpl; [unfold tally, kept; naive_solver|]. intros [He Ht]. split; [done|].
  unfold returned, tally in *. destruct Ht as [(-> & -> & -> & _ & _ & ->)|(-> & -> & -> & _ & _ & ->)]; auto.
Qed.
Lemma wp_drop_pending (id : ChildId) L st m s :
  claim id L st m [] s -> wp (send_drop st) (fun _ => lifetime_post m None) s.
Proof.
  intros Hc. eapply wp_weaken; [by apply wp_send_drop|]. intros [] s' H.
  unfold lifetime_post, kept, thrown_away, tally in *. simpl in H.
  destruct H as [[i H]|[H|H]]; destruct H as (-> & -> & -> & _ & _ & ->); [left; by exists i|auto 10..].
Qed.

Lemma wp_send_lifetime id ws m s : at_rest id s ->
  wp (send_lifetime ws m) (fun r s' => lifetime_post m r s' /\
    match r with Some r => is_terminated r | None => True end) s.
Proof.
  intros Hr. apply wp_seq. eapply wp_weaken; [by eapply wp_awaiting_send, at_rest_claim|].
  intros [st [r|]] s' Hp; simpl in Hp.
  - destruct Hp as [Hp Hk]. apply wp_done. split; [by eapply send_result_post|done].
  - apply wp_seq. eapply wp_weaken; [by eapply wp_drop_pending|]. intros [] s2 H2. by apply wp_done.
Qed.

(** *** [send_timeout] *)

(** A result and the phase that may produce it. *)
Definition timed_post (id : ChildId) m L (b : Deadline.t) (ph : DeadlinePhase.t) (r : result Incarnation (SendError M)) s : Prop :=
  send_result id L m [] r s /\ L <= time s /\
  match r with
  | Ok _ => True
  | Err e => error_kind e = Terminated \/ error_kind e = TimedOut /\ ph = TimeoutArbitration
  end.
(** A zero budget: nothing was submitted. *)
Definition short_post (id : ChildId) m L (r : result Incarnation (SendError M)) s : Prop :=
  tally id L [] [] [] [] s /\ exists e, r = Err e /\ error_message e = m /\ error_kind e = TimedOut.

Lemma send_result_time (id : ChildId) L m (D : list M) r s : send_result id L m D r s -> L <= time s.
Proof. destruct r; simpl; unfold tally; naive_solver. Qed.

Lemma wp_send_deadlined (id : ChildId) m L w b ph st s :
  claim id L st m [] s ->
  wp (poll_deadlined w b ph st) (fun x s' => match x.2 with
    | None => claim id L x.1 m [] s'
    | Some r => timed_post id m L b ph r s' end) s.
Proof.
  intros Hc. cbn [poll_deadlined send_deadlined]. apply wp_seq. eapply wp_weaken; [by apply wp_send_poll|].
  intros [st' [r|]] s' Hp; unfold send_post in Hp; simpl in Hp.
  - destruct Hp as (Hr & Hk & _). apply wp_done. split_and!; [done|by eapply send_result_time|]. simpl.
    destruct r; simpl in Hk; auto.
  - destruct Hp as [Hc' _]. destruct ph; [by apply wp_done|]. apply wp_seq.
    eapply wp_weaken; [by eapply wp_withdraw_send|]. intros r s2 [Hr Hk]. apply wp_done.
    split_and!; [done|by eapply send_result_time|]. destruct r; naive_solver.
Qed.

Lemma wp_send_short (id : ChildId) m L st s :
  st = send m /\ claim id L st m [] s -> wp (short_circuit st) (fun x s' => short_post id m L x.2 s') s.
Proof.
  intros [-> (_ & _ & Ht)]. cbn [short_circuit send_deadlined]. apply wp_seq. unfold withdraw_send_with.
  apply wp_seq, wp_reading. intros s1 He1. cbn [send_withdraw send expect]. apply wp_seq, wp_seq, wp_local.
  intros s2 He2. apply wp_seq, wp_reading. intros s3 He3. apply wp_done, wp_done, wp_done. split; [|eauto].
  eapply others_tally_rtc; [exact He3|]. eapply others_tally_rtc; [exact He2|]. by eapply others_tally_rtc.
Qed.

(** What a completed or dropped [send_timeout] says, and when. *)
Definition send_timeout_post m (width : DeadlineBudget.t) s r s' : Prop :=
  lifetime_post m r s' /\
  match r with
  | Some (Err e) =>
      error_kind e = Terminated \/
      error_kind e = TimedOut /\
        (DeadlineBudget.is_zero width = true /\ gave s' = [] \/
         time s + DeadlineBudget.duration width <= time s')
  | _ => True
  end.

Lemma wp_send_timeout elapsed id ws m width s :
  (forall d n, elapsed d n = true -> d <= n) -> at_rest id s ->
  wp (send_timeout_lifetime elapsed ws m width) (send_timeout_post m width s) s.
Proof.
  intros Hn Hr. apply wp_seq. eapply wp_weaken.
  { apply (wp_awaiting elapsed Hn (fun L st s => st = send m /\ claim id L st m [] s) (fun L st => claim id L st m [])
      (fun L b ph _ => timed_post id m L b ph) (fun L _ => short_post id m L)) with (t0 := time s) (width := width).
    - intros L st s1 s2 He [-> Hc]. split; [done|by eapply others_claim].
    - by intros L st s1 [_ Hc].
    - intros L st s1 s2 He. by apply others_claim.
    - intros L st s1. apply claim_time.
    - intros L L' st s1. apply claim_raise.
    - intros. by apply wp_send_deadlined.
    - intros. by apply wp_send_short.
    - split; [done|]. split; [by apply at_rest_claim|]. split; [done|]. split; [done|]. split; [done|by apply at_rest_claim]. }
  intros [d [r|]] s' Hp; unfold deadlined_post in Hp; simpl in Hp.
  - apply wp_done. destruct (DeadlineBudget.is_zero width) eqn:Ez.
    + destruct Hp as [Ht (e & -> & He & Hk)]. split.
      * split; [done|]. destruct Ht as (H1 & H2 & H3 & _ & _ & H4). unfold returned. rewrite H1, H2, H4. auto.
      * right. split; [done|]. left. split; [done|apply Ht].
    + destruct Hp as (t2 & ph & L & _ & HL & (Hres & Ht & Hk) & Hsp). split; [by eapply send_result_post|].
      destruct r as [i|e]; [done|]. destruct Hk as [Hk|[Hk Hph]]; [by left|]. right. split; [done|]. right.
      destruct (Hsp Hph) as (t1 & dd & H1 & Hd & Hle). apply Deadline.after_exact in Hd. lia.
  - destruct Hp as (_ & Hc & _). apply wp_seq. eapply wp_weaken; [by eapply wp_drop_pending|]. intros [] s2 H2. by apply wp_done.
Qed.
End sends.

