(* ===== verification/CallProps.v ===== *)
(** * What replies and calls promise

    The receiving half of a reply under every interleaving with the sender, and
    the calls built from it: where the request and the reply are when a call
    returns or is dropped. *)

From S2P Require Import Prelude BTree Time Identity Policy Mailbox MailboxInv MailboxErrors MailboxOps.
From S2P Require Import OneShot Interleave Futures FuturesProps.
Import DeadlinePhase (InitialAttempt, TimeoutArbitration).

(** The transition words, as numbers. *)
Ltac words :=
  cbv [ONESHOT_OPEN ONESHOT_SENDING ONESHOT_SENT ONESHOT_SENDER_CLOSED ONESHOT_RECEIVER_CLOSED] in *.

Section replies.
Context {M T Ch : Type} `{!TokioOneshot T Ch} {clock : Clock}.
Local Abbreviation Scene := (@Scene M T Ch).
Local Abbreviation Prog := (Prog Scene).
Local Abbreviation others := (@others M T Ch _).
Local Abbreviation wp := (wp others never exhausted).
Local Abbreviation Duplex := (Duplex T Ch).
Implicit Types (s : Scene) (m : M) (x : Duplex) (d : DisposingReceiver).

(** ** The channel of a reply *)

(** The scene's channel, with the receiver and what it has got, when the values
    in [D] have been discarded. *)
Definition on (D : list T) x s : Prop := wire s = Some (sh x, sender x) /\ oinv x /\ discarded s = D.
Context (D : list T).

(** The receiver has closed nothing. *)
Definition unclosed x : Prop := word (sh x) ≠ 4 /\ view x ≠ VClosed.

(** Still to be answered; answered, with the values it got. *)
Definition waiting x : Prop :=
  receiver_at (receiver x) = RIdle /\ completed (receiver x) = false /\ unclosed x /\ delivered (outs x) = [].
Definition answered (vs : list T) x : Prop :=
  receiver_at (receiver x) = RIdle /\ completed (receiver x) = true /\ delivered (outs x) = vs.

(** The reply handle went away without a reply. *)
Definition gone (p : @SenderAt T) : Prop := p = SDropped \/ p = SReleasing None.

(** What the sender may have done meanwhile. *)
Definition quiet x x' : Prop :=
  receiver x' = receiver x /\ outs x' = outs x /\ (unclosed x -> unclosed x') /\
  (gone (sender x) -> gone (sender x')) /\ (word (sh x) ≠ 0 -> word (sh x') ≠ 0).

Lemma quiet_refl x : quiet x x.
Proof. by split_and!. Qed.
Lemma quiet_trans x y z : quiet x y -> quiet y z -> quiet x z.
Proof. intros (? & ? & ? & ? & ?) (? & ? & ? & ? & ?). split_and!; [congruence|congruence|auto..]. Qed.

Lemma quiet_step x p sh' :
  oinv x ->
  (sender x = SLive /\ ((exists v, send_exchange v (sh x) = (p, sh')) \/ drop_exchange (sh x) = (p, sh')) \/
   sender_step (sender x) (sh x) = Some (p, sh')) ->
  quiet x (mkDuplex sh' p (receiver x) (outs x)).
Proof.
  intros Hi Hst. pose proof (oinv_sender x p sh' Hi Hst) as (_ & _ & _ & _ & Hw). pose proof (oi_sender _ Hi) as Hs.
  split; [done|]. split; [done|]. unfold unclosed, gone, sender_ok, unsent, sent_ok, view in *. simpl in *.
  split; [|split; [|done]]; destruct Hst as [[El [[v H]|H]]|H].
  - unfold send_exchange, exchange in H. words. rewrite El in Hs.
    destruct (Z.eqb_spec (word (sh x)) 0); simplify_eq/=; intuition (congruence || lia).
  - unfold drop_exchange, exchange in H. words. rewrite El in Hs.
    destruct (Z.eqb_spec (word (sh x)) 0); simplify_eq/=; intuition (congruence || lia).
  - destruct (sender x) as [|v|v [] |[v|]|v b|]; simpl in H; simplify_eq/=; words; intros [Hn Hc];
      try (rewrite view_drop_sender; destruct (ch_view _) eqn:?; intuition (congruence || lia)).
    + destruct (ch_send v _) as [[[]|v'] c] eqn:E; pose proof (view_send _ _ _ _ E) as Hv; simplify_eq/=;
        destruct Hs as (_ & Hw1 & [Hs|Hs]); rewrite Hs in Hv; destruct Hv as [Hv Hv']; simplify_eq;
        rewrite ?Hv'; intuition (congruence || lia).
    + intuition (congruence || lia).
    + intuition (congruence || lia).
  - rewrite El. intros [?|?]; congruence.
  - rewrite El. intros [?|?]; congruence.
  - destruct (sender x) as [|v|v [] |[v|]|v b|]; simpl in H; simplify_eq/=; intros [?|?]; simplify_eq; auto.
Qed.

Lemma others_on x s s' : others s s' -> on D x s -> exists x', on D x' s' /\ quiet x x'.
Proof.
  intros H (Hw & Hi & HD).
  assert (Hst : forall p sh',
    (sender x = SLive /\ ((exists v, send_exchange v (sh x) = (p, sh')) \/ drop_exchange (sh x) = (p, sh')) \/
     sender_step (sender x) (sh x) = Some (p, sh')) ->
    exists x', on D x' (set_wire (Some (sh', p)) s) /\ quiet x x').
  { intros p sh' Hst. eexists. split; [|by apply quiet_step]. split_and!; [done|by eapply oinv_sender_step|done]. }
  destruct H as [s o out w _ _|s t _|s sh0 at_ v p sh' H1 H2 H3|s sh0 at_ p sh' H1 H2 H3|s sh0 at_ p sh' H1 H2];
    [exists x; split; [done|apply quiet_refl]|exists x; split; [done|apply quiet_refl]|rewrite Hw in H1; simplify_eq; apply Hst; eauto 10..].
Qed.
Lemma others_on_rtc x s s' : rtc others s s' -> on D x s -> exists x', on D x' s' /\ quiet x x'.
Proof.
  intros H. revert x. induction H as [s|s s1 s' H _ IH]; intros x Hx; [eauto using quiet_refl|].
  destruct (others_on _ _ _ H Hx) as (x1 & Hx1 & Hq). destruct (IH _ Hx1) as (x2 & Hx2 & Hq2).
  eauto using quiet_trans.
Qed.

(** ** Calls of the receiver *)

Lemma wp_begin_call k x s (Q : list (Output T) * Receiver -> Scene -> Prop) :
  on D x s -> receiver_at (receiver x) = RIdle ->
  (forall x1 o r sh' s', quiet x x1 -> oinv x1 -> receiver_call k (receiver x) (sh x1) = (o, r, sh') ->
     on D (mkDuplex sh' (sender x1) r (outs x ++ o)) s' -> Q (o, r) s') ->
  wp (begin_call k (receiver x)) Q s.
Proof.
  intros Hx Hr HQ. apply wp_atom. intros s1 He. destruct (others_on_rtc _ _ _ He Hx) as (x1 & (Hw & Hi & HD) & Hq).
  rewrite Hw. cbn [expect mbind outcome_bind]. destruct (receiver_call k (receiver x) (sh x1)) as [[o r] sh'] eqn:E.
  destruct Hq as (Hq1 & Hq2 & Hq3). simpl. eapply HQ; [by split_and!; eauto; apply Hq3|done|exact E|].
  split_and!; [done| |done]. rewrite <- Hq2. eapply oinv_call; [done| |]; by rewrite Hq1.
Qed.
Lemma wp_continue_call x o s (Q : list (Output T) * Receiver -> Scene -> Prop) :
  on D x s -> receiver_at (receiver x) ≠ RIdle ->
  (forall x1 o' r sh' s', quiet x x1 -> oinv x1 -> receiver_step (receiver x) (sh x1) = Some (o', r, sh') ->
     on D (mkDuplex sh' (sender x1) r (outs x ++ o')) s' -> Q (o ++ o', r) s') ->
  wp (continue_call o (receiver x)) Q s.
Proof.
  intros Hx Hr HQ. unfold continue_call. destruct (receiver_at (receiver x)) eqn:Er; [done|..];
  (apply wp_atom; intros s1 He; destruct (others_on_rtc _ _ _ He Hx) as (x1 & (Hw & Hi & HD) & Hq);
   rewrite Hw; cbn [expect mbind outcome_bind];
   destruct (receiver_step (receiver x) (sh x1)) as [[[o' r] sh']|] eqn:E;
   [destruct Hq as (Hq1 & Hq2 & Hq3); simpl; eapply HQ; [by split_and!; eauto; apply Hq3|done|exact E|];
    split_and!; [done| |done]; rewrite <- Hq2; eapply oinv_receiver; [done|by rewrite Hq1]
   |exfalso; unfold receiver_step in E; rewrite Er in E; repeat case_match; done]).
Qed.

Definition received (a : option (option T)) x : Prop :=
  match a with
  | None => waiting x
  | Some None => answered [] x /\ gone (sender x)
  | Some (Some v) => answered [v] x
  end.
Definition closed (a : @OneShotClose T) x : Prop :=
  match a with
  | PendingClose => waiting x
  | Value v => answered [v] x
  | SenderClosed => answered [] x /\ gone (sender x)
  | Empty => answered [] x
  end.

(** A reply that will not come, seen in the channel or in the word. *)
Lemma closed_gone x :
  oinv x -> unclosed x -> delivered (outs x) = [] -> view x = VDone \/ word (sh x) = 3 -> gone (sender x).
Proof.
  intros Hi Hu Hd Hv. pose proof (oi_sender _ Hi) as Hs. unfold unclosed, sender_ok, sent_ok, unsent, gone in *.
  destruct (sender x) as [|v|v [] |[v|]|v []|]; intuition (congruence || lia).
Qed.

(** A poll of the channel by a waiting receiver. *)
Lemma channel_poll x q c :
  oinv x -> waiting x -> ch_poll (channel (sh x)) = (q, c) ->
  match q with
  | None => ch_view c ≠ VClosed
  | Some None => gone (sender x)
  | Some (Some _) => True
  end.
Proof.
  intros Hi (_ & _ & Hu & Hd) Hp. pose proof (view_poll _ _ _ Hp) as Hv. pose proof (closed_gone x Hi Hu Hd) as Hg.
  unfold unclosed, view in *. destruct (ch_view (channel (sh x))); destruct Hv as [-> Hv]; simpl; [congruence|naive_solver|done|auto].
Qed.

Lemma quiet_waiting x x1 : quiet x x1 -> waiting x -> waiting x1.
Proof. intros (Hr & Ho & Hu & _) (? & ? & ? & ?). unfold waiting. rewrite Hr, Ho. auto. Qed.
Lemma quiet_answered vs x x1 : quiet x x1 -> answered vs x -> answered vs x1.
Proof. intros (Hr & Ho & _) (? & ? & ?). unfold answered. by rewrite Hr, Ho. Qed.

Lemma wp_receive_once x s :
  on D x s -> waiting x ->
  wp (receive_once (receiver x)) (fun y s' => exists x', on D x' s' /\ receiver x' = y.2 /\ received y.1 x') s.
Proof.
  intros Hx Hw. apply wp_seq. eapply wp_begin_call; [done|apply Hw|].
  intros x1 o r sh' s' Hq Hi E Hx'. apply (quiet_waiting _ _ Hq) in Hw as Hw1. simpl in E.
  destruct Hq as (Hr & Ho & _). destruct Hw as (Hat & Hc & _ & Hd). rewrite Hc in E.
  destruct (ch_poll (channel (sh x1))) as [q c] eqn:Ep. pose proof (channel_poll _ _ _ Hi Hw1 Ep) as Hp.
  destruct q as [q|]; injection E as <- <- <-; apply wp_done.
  - eexists. split; [exact Hx'|]. split; [done|]. unfold received, answered.
    destruct q as [v|]; simpl; rewrite delivered_app, Hd; auto.
  - eexists. split; [exact Hx'|]. split; [done|]. unfold received, waiting, unclosed, view. simpl.
    rewrite app_nil_r. split_and!; [done|done|apply Hw1|done|done].
Qed.

Lemma wp_close_once x s :
  on D x s -> waiting x ->
  wp (close_once (receiver x)) (fun y s' => exists x', on D x' s' /\ receiver x' = y.2 /\ closed y.1 x') s.
Proof.
  intros Hx Hw. apply wp_seq. eapply wp_begin_call; [done|apply Hw|].
  intros x1 o r sh' s' Hq Hi E Hx'. apply (quiet_waiting _ _ Hq) in Hw as Hw1. simpl in E.
  pose proof (word_range x1 (oi_sender _ Hi)) as Hrange. destruct Hw1 as (_ & _ & Hu & Hd1).
  destruct Hq as (Hr & Ho & _). destruct Hw as (Hat & Hc & _ & Hd). rewrite Hc in E. unfold exchange in E. words.
  apply wp_seq. destruct (Z.eqb_spec (word (sh x1)) 0) as [E0|E0].
  { simplify_eq. eapply (wp_continue_call _ _ _ _ Hx'); [done|]. intros x2 o' r s2 s3 (_ & Ho2 & _) Hi2 Es Hx2.
    simpl in Es. injection Es as <- <- <-. apply wp_done. eexists. split; [exact Hx2|]. split; [done|].
    split_and!; simpl; [done|done|]. by rewrite app_nil_r, delivered_app, Hd. }
  destruct (Z.eqb_spec (word (sh x1)) 3) as [E3|E3].
  { simplify_eq. apply wp_done, wp_done. eexists. split; [exact Hx'|]. split; [done|]. split; simpl.
    - split_and!; simpl; [done|done|]. by rewrite delivered_app, Hd.
    - apply closed_gone; auto. }
  destruct ((word (sh x1) =? 1) || (word (sh x1) =? 2)) eqn:E1.
  - simplify_eq. eapply (wp_continue_call _ _ _ _ Hx'); [done|]. intros x2 o' r s2 s3 Hq2 Hi2 Es Hx2.
    assert (Hp : forall q c, ch_poll (channel (sh x2)) = (q, c) ->
      word (sh x2) ≠ 4 /\ match q with None => ch_view c ≠ VClosed | Some None => gone (sender x2) | _ => True end).
    { intros q c Ep. destruct Hq2 as (Hr2 & Ho2 & Hu2 & _). simpl in *. rewrite app_nil_r in Ho2.
      assert (Hu2' : unclosed x2) by by apply Hu2. split; [apply Hu2'|].
      pose proof (view_poll _ _ _ Ep) as Hv. pose proof (closed_gone x2 Hi2 Hu2' ltac:(by rewrite Ho2)) as Hg.
      unfold unclosed, view in *. destruct (ch_view (channel (sh x2))); destruct Hv as [-> Hv]; [congruence|naive_solver|done|auto]. }
    unfold receiver_step in Es. cbn [receiver_at receiver] in Es.
    destruct (ch_poll (channel (sh x2))) as [[[v|]|] c] eqn:Ep; injection Es as <- <- <-; apply wp_done;
      destruct (Hp _ _ eq_refl) as [Hp4 Hpv]; (eexists; split; [exact Hx2|]; split; [done|]);
      unfold closed, answered, waiting; simpl; rewrite !app_nil_r, delivered_app, Hd; auto. by split_and!.
  - apply orb_false_iff in E1 as [E1 E2]. destruct Hu as [Hu _]. lia.
Qed.

(** [ProxiedPoll]: the poll is repeated only while it is pending. *)
Lemma wp_proxied_poll {A} (once : Receiver -> Prog (A * Receiver)) pending (R : A -> Duplex -> Prop) d x s :
  (forall x s, on D x s -> waiting x ->
     wp (once (receiver x)) (fun y s' => exists x', on D x' s' /\ receiver x' = y.2 /\ R y.1 x') s) ->
  (forall a x, pending a = true -> R a x -> waiting x) ->
  on D x s -> waiting x -> inner d = receiver x ->
  wp (proxied_poll once pending d) (fun y s' => exists x', on D x' s' /\ inner y.2 = receiver x' /\ R y.1 x') s.
Proof.
  intros Ho Hp Hx Hw Hd. apply wp_seq. rewrite Hd.
  eapply (wp_weaken _ _ _ _ (fun y s' => exists x', on D x' s' /\ receiver x' = y.2 /\ R y.1 x')); cycle 1.
  { intros [a r] s' (x' & Hx' & Hr & HR). apply wp_done. by exists x'. }
  destruct (proxied d); [by apply Ho|]. apply wp_seq. eapply wp_weaken; [by apply Ho|].
  intros [a r] s' (x' & Hx' & Hr & HR). simpl in Hr, HR. subst r. destruct (pending a) eqn:Ea.
  - apply Ho; [done|by eapply Hp].
  - apply wp_done. by exists x'.
Qed.

Definition polled (ph : DeadlinePhase.t) (a : option (@ReplyPoll T)) x : Prop :=
  match a with
  | None => waiting x
  | Some (ReplyValue v) => answered [v] x
  | Some ReplySenderClosed => answered [] x /\ gone (sender x)
  | Some ReplyTimedOut => answered [] x /\ ph = TimeoutArbitration
  end.

Lemma wp_poll_reply d ph x s :
  on D x s -> waiting x -> inner d = receiver x ->
  wp (poll_reply d ph) (fun y s' => exists x', on D x' s' /\ inner y.2 = receiver x' /\ polled ph y.1 x') s.
Proof.
  intros Hx Hw Hd. apply wp_seq. eapply wp_weaken.
  { eapply (wp_proxied_poll _ _ received); [by apply wp_receive_once| |done|done|done].
    intros [[v|]|] y; simpl; done. }
  intros [a d1] s1 (x1 & Hx1 & Hd1 & Hr). simpl in *. destruct a as [[v|]|]; simpl in Hr; [apply wp_done; by exists x1..|].
  destruct ph; [apply wp_done; by exists x1|]. apply wp_seq. eapply wp_weaken.
  { eapply (wp_proxied_poll _ _ closed); [by apply wp_close_once| |done|done|done]. by intros [] y. }
  intros [c d2] s2 (x2 & Hx2 & Hd2 & Hc). simpl in *. 
  destruct c; by exists x2.
Qed.

(** A close gives nothing and takes nothing. *)
Lemma wp_close_receiver d x s :
  on D x s -> inner d = receiver x -> receiver_at (receiver x) = RIdle ->
  wp (close_receiver d) (fun d' s' => exists x', on D x' s' /\ inner d' = receiver x' /\
    receiver_at (receiver x') = RIdle /\ delivered (outs x') = delivered (outs x)) s.
Proof.
  intros Hx Hd Hr. unfold close_receiver. rewrite Hd. apply wp_seq. eapply wp_begin_call; [done|done|].
  intros x1 o r sh1 s1 Hq Hi E Hx1. simpl in E. injection E as <- <- <-. apply wp_seq.
  eapply (wp_continue_call _ _ _ _ Hx1); [done|]. intros x2 o r sh2 s2 Hq2 Hi2 E Hx2. simpl in E. injection E as <- <- <-.
  apply wp_done. eexists. split; [exact Hx2|]. split_and!; [done|done|]. simpl. by rewrite !app_nil_r.
Qed.
End replies.

Section drops.
Context {M T Ch : Type} `{!TokioOneshot T Ch} {clock : Clock}.
Local Abbreviation Scene := (@Scene M T Ch).
Local Abbreviation others := (@others M T Ch _).
Local Abbreviation wp := (wp others never exhausted).
Local Abbreviation Duplex := (Duplex T Ch).
Implicit Types (s : Scene) (x : Duplex) (d : DisposingReceiver).

(** A dropped receiver is done: what it had not got is discarded. *)
Lemma wp_drop_receiver D d x s :
  on D x s -> inner d = receiver x -> receiver_at (receiver x) = RIdle ->
  wp (drop_receiver d) (fun _ s' => exists x' vs, on (D ++ vs) x' s' /\
    answered (delivered (outs x) ++ vs) x' /\ (gone (sender x) -> gone (sender x'))) s.
Proof.
  intros Hx Hd Hr. unfold drop_receiver. rewrite Hd. apply wp_seq. eapply wp_begin_call; [done|done|].
  intros x1 o r sh1 s1 Hq Hi E Hx1. simpl in E. injection E as <- <- <-. apply wp_seq.
  eapply (wp_continue_call _ _ _ _ _ Hx1); [done|]. intros x2 o r sh2 s2 Hq2 Hi2 E Hx2. simpl in E. injection E as <- <- <-.
  apply wp_seq. eapply (wp_continue_call _ _ _ _ _ Hx2); [done|]. intros x3 o r sh3 s3 Hq3 Hi3 E Hx3.
  assert (Hg : gone (sender x) -> gone (sender x3)).
  { intros Hg. by apply Hq3, Hq2, Hq. }
  unfold receiver_step in E. cbn [receiver_at receiver] in E. destruct (ch_try_recv (channel (sh x3))) as [q c].
  injection E as <- <- <-. rewrite !app_nil_r in Hx3. destruct q as [v|].
  - apply wp_atom. intros s4 He. destruct (others_on_rtc _ _ _ _ He Hx3) as (x4 & (Hw4 & Hi4 & HD4) & Hq4).
    exists x4, [v]. split; [split_and!; [done|done|simpl; by rewrite HD4]|].
    split; [|intros ?; by apply Hq4, Hg]. eapply quiet_answered; [exact Hq4|]. split_and!; [done|done|].
    simpl. by rewrite delivered_app.
  - apply wp_done. eexists _, []. rewrite !app_nil_r. split; [exact Hx3|]. split; [|done].
    split_and!; [done|done|]. simpl. by rewrite delivered_app, app_nil_r.
Qed.
End drops.
