(* ===== verification/CallInv.v ===== *)
(** * The state of a call

    What a pending call keeps, and what each of its parts leaves alone: a send
    never touches the reply channel, and the receiver of a reply touches
    nothing else. *)

From S2P Require Import Prelude BTree Time Identity Policy Mailbox MailboxInv MailboxErrors OneShot Interleave MailboxOps Futures FuturesProps CallProps.
Import DeadlinePhase (InitialAttempt, TimeoutArbitration).

Section frames.
Context {M T Ch : Type} `{!TokioOneshot T Ch} {clock : Clock}.
Local Abbreviation Scene := (@Scene M T Ch).
Local Abbreviation Prog := (Prog Scene).
Local Abbreviation others := (@others M T Ch _).
Local Abbreviation wp := (wp others never exhausted).
Implicit Types (s : Scene) (m : M).

(** Steps away from the reply channel, and steps on it alone. *)
Definition off_wire s s' : Prop := wire s' = wire s /\ discarded s' = discarded s.
Definition wire_only s s' : Prop :=
  box s' = box s /\ trace s' = trace s /\ mine s' = mine s /\ time s' = time s /\
  gave s' = gave s /\ got s' = got s /\ accepts s' = accepts s /\ disposed s' = disposed s.

Local Ltac within_tac :=
  repeat first
    [ apply within_bind | apply within_local; done | exact I | progress intros | case_match
    | done | solve [eauto with within] ].
#[local] Create HintDb within.

Lemma reading_within {A} (R : Scene -> Scene -> Prop) (f : Scene -> A) : (forall s, R s s) -> within R (reading f).
Proof. intros HR. apply within_atom. intros s x s' H. by simplify_eq. Qed.
Lemma own_submit_off m : within off_wire (own_submit (T := T) (Ch := Ch) m).
Proof.
  apply within_atom. intros s r s' H. apply bind_Ret_inv in H as ([[r1 fx] c] & _ & H). injection H as _ <-.
  by destruct r1.
Qed.
Lemma own_poll_off op a w : within off_wire (own_poll (M := M) (T := T) (Ch := Ch) op a w).
Proof.
  apply within_atom. intros s r s' H. apply bind_Ret_inv in H as (o & _ & H).
  apply bind_Ret_inv in H as ([[r1 fx] c] & _ & H). by simplify_eq.
Qed.
Lemma own_withdraw_off op d : within off_wire (own_withdraw (M := M) (T := T) (Ch := Ch) op d).
Proof. apply within_atom. intros s r s' H. apply bind_Ret_inv in H as ([[r1 fx] c] & _ & H). by simplify_eq. Qed.
Lemma dispose_off m : within off_wire (dispose_detached (T := T) (Ch := Ch) m).
Proof. apply within_atom. intros s r s' H. by simplify_eq. Qed.
Lemma actor_off : within off_wire (actor (M := M) (T := T) (Ch := Ch)).
Proof. by apply reading_within. Qed.
Hint Resolve own_submit_off own_poll_off own_withdraw_off dispose_off actor_off : within.
Hint Extern 1 (within _ (reading _)) => (apply reading_within; done) : within.

Lemma poll_loop_off fuel op a w : within off_wire (poll_loop (M := M) (T := T) (Ch := Ch) fuel op a w).
Proof.
  revert a. induction fuel as [|fuel IH]; intros a; [by apply within_local|]. cbn [poll_loop]. unfold terminated.
  within_tac.
Qed.
Hint Resolve poll_loop_off : within.
Lemma send_poll_off w st : within off_wire (send_poll (M := M) (T := T) (Ch := Ch) w st).
Proof. unfold send_poll, terminated. within_tac. Qed.
Lemma withdraw_send_off d st : within off_wire (withdraw_send_with (M := M) (T := T) (Ch := Ch) d st).
Proof. unfold withdraw_send_with, send_withdraw. within_tac. Qed.
Lemma send_drop_off st : within off_wire (send_drop (M := M) (T := T) (Ch := Ch) st).
Proof. unfold send_drop. within_tac. Qed.

(** The receiver's side. *)
Lemma on_wire_only {A} (f : @Shared Ch -> outcome (A * @Shared Ch)) : within wire_only (on_wire (M := M) (T := T) f).
Proof.
  apply within_atom. intros s r s' H. apply bind_Ret_inv in H as ([? ?] & _ & H).
  apply bind_Ret_inv in H as ([? ?] & _ & H). by simplify_eq.
Qed.
Lemma discard_only v : within wire_only (discard (M := M) (T := T) (Ch := Ch) v).
Proof. apply within_atom. intros s r s' H. by simplify_eq. Qed.
Hint Resolve @on_wire_only discard_only : within.
Lemma begin_only k r : within wire_only (begin_call (M := M) (T := T) (Ch := Ch) k r).
Proof. apply on_wire_only. Qed.
Lemma continue_only o r : within wire_only (continue_call (M := M) (T := T) (Ch := Ch) o r).
Proof. unfold continue_call. within_tac. Qed.
Hint Resolve begin_only continue_only : within.
Lemma poll_reply_only d ph : within wire_only (poll_reply (M := M) (T := T) (Ch := Ch) d ph).
Proof.
  unfold poll_reply, poll_receive, close_and_poll_receive, proxied_poll, receive_once, close_once. within_tac.
Qed.
Lemma close_receiver_only d : within wire_only (close_receiver (M := M) (T := T) (Ch := Ch) d).
Proof. unfold close_receiver. within_tac. Qed.
Lemma drop_receiver_only d : within wire_only (drop_receiver (M := M) (T := T) (Ch := Ch) d).
Proof. unfold drop_receiver. within_tac. Qed.

(** ** Frames *)

Lemma wp_off {A} (p : Prog A) Q D x s :
  within off_wire p -> on D x s -> wp p Q s -> wp p (fun a s' => Q a s' /\ exists x', on D x' s' /\ quiet x x') s.
Proof.
  intros Hp Hx. apply (wp_frame _ _ _ off_wire (fun s => exists x', on D x' s /\ quiet x x')); [| |done|eauto using quiet_refl].
  - intros s1 s2 He (x1 & Hx1 & Hq). destruct (others_on _ _ _ _ He Hx1) as (x2 & Hx2 & Hq2). eauto using quiet_trans.
  - intros s1 s2 [Hw HD] (x1 & (? & ? & ?) & Hq). exists x1. split; [|done]. split_and!; congruence.
Qed.

Lemma wire_only_tally (id : ChildId) L a g b (D : list M) s s' : wire_only s s' -> tally id L a g b D s -> tally id L a g b D s'.
Proof. intros (E1 & E2 & E3 & E4 & E5 & E6 & E7 & E8). unfold tally. by rewrite E1, E2, E4, E5, E6, E7, E8. Qed.
Lemma wp_only {A} (p : Prog A) Q id L a g b (D : list M) s :
  within wire_only p -> tally id L a g b D s -> wp p Q s -> wp p (fun x s' => Q x s' /\ tally id L a g b D s') s.
Proof.
  intros Hp Ht. apply (wp_frame _ _ _ wire_only); [apply others_tally|apply wire_only_tally|done|done].
Qed.
Lemma wire_only_later {A} (p : Prog A) : within wire_only p -> within (fun s s' : Scene => time s <= time s') p.
Proof.
  induction p as [|X f k IH]; [done|]. intros [Hf Hk]. split; [|auto].
  intros s x s' H. apply Hf in H as (_ & _ & _ & -> & _). done.
Qed.
Lemma others_on_waiting D x s s' :
  others s s' -> on D x s -> waiting x -> exists x', on D x' s' /\ waiting x' /\ receiver x' = receiver x.
Proof.
  intros He Hx Hw. destruct (others_on _ _ _ _ He Hx) as (x' & Hx' & Hq). exists x'.
  split_and!; [done|by eapply quiet_waiting|apply Hq].
Qed.
End frames.

(** ** A pending call *)

Section calls.
Context {M T Ch : Type} `{!TokioOneshot T Ch} {clock : Clock} (id : ChildId) (m : M).
Local Abbreviation Scene := (@Scene M T Ch).
Local Abbreviation Prog := (Prog Scene).
Local Abbreviation others := (@others M T Ch _).
Local Abbreviation wp := (wp others never exhausted).
Local Abbreviation CallOperation := (@CallOperation M).
Local Abbreviation CallResult := (result (Replied T) CallError).
Implicit Types (s : Scene) (c : CallOperation) (d : DisposingReceiver).

(** The request is not built, not accepted, or accepted. *)
Definition unbuilt L c s : Prop :=
  c = call_new m /\ wire s = None /\ discarded s = [] /\ mine s = None /\ tally id L [] [] [] [] s.
Definition awaits d s : Prop := exists x, on [] x s /\ waiting x /\ inner d = receiver x.
Definition unaccepted L c s : Prop :=
  exists st d, c = mkCall None (Some st) (Some d) None /\ claim id L st m [] s /\ awaits d s.
Definition accepted L c s : Prop :=
  exists d i, c = mkCall None None (Some d) (Some i) /\ tally id L [i] [m] [] [] s /\ awaits d s.
Definition call_pending L c s : Prop := unbuilt L c s \/ unaccepted L c s \/ accepted L c s.

(** What the future of a completed call still holds. *)
Definition holds c (P : Duplex T Ch -> Prop) s : Prop :=
  exists d x, call_reply c = Some d /\ on [] x s /\ inner d = receiver x /\ receiver_at (receiver x) = RIdle /\ P x.
Definition released c s : Prop := call_reply c = None /\ exists vs x, on vs x s /\ answered vs x.

Definition never_accepted L s : Prop := tally id L [] [m] [m] [m] s \/ tally id L [] [] [] [m] s.

Definition overdue (b : Deadline.t) s : Prop := exists t, Deadline.instant b = Some t /\ t <= time s.
Definition call_done L (b : Deadline.t) (ph : DeadlinePhase.t) c (r : CallResult) s : Prop :=
  make_msg c = None /\ (call_send c = None \/ call_send c = Some Done) /\
  match r with
  | Ok rep => tally id L [replied_incarnation rep] [m] [] [] s /\ holds c (answered [value rep]) s
  | Err e =>
      match call_kind e with
      | CallErrorKind.Terminated => never_accepted L s /\ holds c (fun x => delivered (outs x) = []) s
      | CallErrorKind.AcceptanceTimedOut =>
          never_accepted L s /\ (ph = TimeoutArbitration \/ overdue b s) /\
          (holds c (fun x => delivered (outs x) = []) s \/ released c s)
      | CallErrorKind.ResponseTimedOut =>
          (exists i, call_incarnation_observed e = Some i /\ tally id L [i] [m] [] [] s) /\ ph = TimeoutArbitration /\ holds c (answered []) s
      | CallErrorKind.ReplyDropped =>
          (exists i, call_incarnation_observed e = Some i /\ tally id L [i] [m] [] [] s) /\ holds c (fun x => answered [] x /\ gone (sender x)) s
      end
  end.

Lemma others_awaits d s s' : others s s' -> awaits d s -> awaits d s'.
Proof.
  intros He (x & Hx & Hw & Hd). destruct (others_on_waiting _ _ _ _ He Hx Hw) as (x' & ? & ? & Hr).
  exists x'. by rewrite Hr.
Qed.
Lemma others_unbuilt L c s s' : others s s' -> unbuilt L c s -> unbuilt L c s'.
Proof.
  intros He (-> & Hw & Hd & Hm & Ht). split; [done|]. rewrite (others_mine _ _ He).
  assert (wire s' = None /\ discarded s' = []) as [-> ->] by (destruct He; simpl; split; congruence).
  split_and!; [done|done|done|by eapply others_tally].
Qed.
Lemma others_pending L c s s' : others s s' -> call_pending L c s -> call_pending L c s'.
Proof.
  intros He [H|[(st & d & -> & Hc & Ha)|(d & i & -> & Ht & Ha)]].
  - left. by eapply others_unbuilt.
  - right; left. exists st, d. split_and!; [done|by eapply others_claim|by eapply others_awaits].
  - right; right. exists d, i. split_and!; [done|by eapply others_tally|by eapply others_awaits].
Qed.
Lemma rtc_pending L c s s' : rtc others s s' -> call_pending L c s -> call_pending L c s'.
Proof. induction 1; eauto using others_pending. Qed.
Lemma pending_time L c s : call_pending L c s -> L <= time s.
Proof.
  intros [(_ & _ & _ & _ & Ht)|[(st & d & _ & Hc & _)|(d & i & _ & Ht & _)]];
    [apply Ht|by eapply claim_time|apply Ht].
Qed.
Lemma pending_raise L L' c s : L' <= time s -> call_pending L c s -> call_pending L' c s.
Proof.
  intros HL [(-> & Hw & Hd & Hm & Ht)|[(st & d & -> & Hc & Ha)|(d & i & -> & Ht & Ha)]].
  - left. split_and!; [done..|by eapply tally_raise].
  - right; left. exists st, d. split_and!; [done|by eapply claim_raise|done].
  - right; right. exists d, i. split_and!; [done|by eapply tally_raise|done].
Qed.

(** ** Its steps *)

Definition call_step L b ph (y : CallOperation * option CallResult) s : Prop :=
  match y.2 with
  | None => call_pending L y.1 s
  | Some r => call_done L b ph y.1 r s
  end.

Lemma others_holds c (P : Duplex T Ch -> Prop) s s' :
  (forall x x', quiet x x' -> P x -> P x') -> rtc others s s' -> holds c P s -> holds c P s'.
Proof.
  intros HP He (d & x & Hc & Hx & Hd & Hr & Hp). destruct (others_on_rtc _ _ _ _ He Hx) as (x' & Hx' & Hq).
  exists d, x'. destruct (Hq) as (Hq1 & _). rewrite Hq1. split_and!; eauto.
Qed.

Lemma wp_call_poll_reply L b ph d i s :
  tally id L [i] [m] [] [] s -> awaits d s ->
  wp (call_poll_reply i ph (mkCall None None (Some d) (Some i))) (call_step L b ph) s.
Proof.
  intros Ht (x & Hx & Hw & Hd). apply wp_seq. cbn [call_reply expect]. apply wp_local. intros s1 He.
  apply (others_tally_rtc _ _ _ _ _ _ _ _ He) in Ht. destruct (others_on_rtc _ _ _ _ He Hx) as (x1 & Hx1 & Hq).
  apply (quiet_waiting _ _ Hq) in Hw. assert (Hd1 : inner d = receiver x1) by (rewrite Hd; symmetry; apply Hq).
  apply wp_seq. eapply wp_weaken; [eapply wp_only; [apply poll_reply_only|exact Ht|by eapply wp_poll_reply]|].
  intros [r d'] s2 [(x2 & Hx2 & Hd2 & Hp) Ht2]. apply wp_seq, wp_reading. intros s3 He3.
  apply (others_tally_rtc _ _ _ _ _ _ _ _ He3) in Ht2. destruct (others_on_rtc _ _ _ _ He3 Hx2) as (x3 & Hx3 & Hq3).
  simpl in Hd2. assert (Hd3 : inner d' = receiver x3) by (rewrite Hd2; symmetry; apply Hq3).
  simpl in Hp. apply wp_done. destruct r as [[v| |]|]; simpl in Hp.
  - apply (quiet_answered _ _ _ Hq3) in Hp. split; [done|]. split; [by left|]. split; [done|]. by exists d', x3; split_and!; try apply Hp.
  - destruct Hp as [Hp Hg]. apply (quiet_answered _ _ _ Hq3) in Hp. split; [done|]. split; [by left|]. split; [by exists i|].
    exists d', x3; split_and!; try apply Hp; try done. by apply Hq3.
  - destruct Hp as [Hp Hg]. apply (quiet_answered _ _ _ Hq3) in Hp. split; [done|]. split; [by left|]. split; [by exists i|]. split; [done|].
    by exists d', x3; split_and!; try apply Hp.
  - right; right. exists d', i. split_and!; [done|done|]. exists x3. split_and!; [done|by eapply quiet_waiting|done].
Qed.

Lemma wp_dispose (D : list M) L a g h s :
  tally id L a g h D s -> wp (dispose_detached m) (fun _ => tally id L a g h (D ++ [m])) s.
Proof.
  intros Ht. apply wp_atom. intros s1 He. destruct (others_tally_rtc _ _ _ _ _ _ _ _ He Ht) as (H1 & H2 & HD & H3 & H4 & H5).
  split_and!; simpl; [done|done|by rewrite HD|done|done|done].
Qed.

(** A request that comes back: the reply is closed, the request discarded. *)
Lemma wp_fail_send L b ph e kind st d s :
  send_result id L m [] (Err e) s -> awaits d s -> st = None \/ st = Some Done ->
  kind = CallErrorKind.Terminated \/ kind = CallErrorKind.AcceptanceTimedOut /\ ph = TimeoutArbitration ->
  wp (fail_send e kind (mkCall None st (Some d) None))
    (fun y s' => exists r, y.2 = Some r /\ call_done L b ph y.1 r s') s.
Proof.
  intros [He Hr] (x & Hx & Hw & Hd) Hst Hk. unfold fail_send. cbn [call_reply]. apply wp_seq, wp_seq.
  assert (exists g, tally id L [] g g [] s /\ (g = [m] \/ g = [])) as (g & Ht & Hg) by (destruct Hr; eauto).
  eapply wp_weaken; [eapply wp_only; [apply close_receiver_only|exact Ht|apply (wp_close_receiver _ _ _ _ Hx Hd), Hw]|].
  intros d1 s1 [(x1 & Hx1 & Hd1 & Hr1 & Ho1) Ht1]. apply wp_done. apply wp_seq. rewrite He.
  eapply wp_weaken; [eapply wp_off; [apply dispose_off|exact Hx1|by apply wp_dispose]|].
  intros [] s2 [Ht2 (x2 & Hx2 & Hq2)]. apply wp_done. eexists. split; [done|].
  split; [done|]. split; [done|].
  assert (Hn : never_accepted L s2) by (destruct Hg as [-> | ->]; [by left|by right]).
  assert (Hh : forall c, call_reply c = Some d1 -> holds c (fun x => delivered (outs x) = []) s2).
  { intros c Hc. exists d1, x2. destruct (Hq2) as (-> & -> & _). split_and!; [done..|]. rewrite Ho1. apply Hw. }
  destruct Hk as [-> |[-> Hph]]; simpl; auto 10.
Qed.

(** A fresh channel. *)
Lemma oneshot_inv : oinv (duplex_start (T := T) (Ch := Ch)) /\ waiting (duplex_start (T := T) (Ch := Ch)).
Proof.
  split; [apply oinv_reachable, rtc_refl|]. split_and!; [done|done| |done]. split; [done|]. unfold view. simpl.
  by rewrite view_new.
Qed.

Definition built L b ph (y : CallOperation * option CallResult) s : Prop :=
  match y.2 with
  | None => unaccepted L y.1 s \/ accepted L y.1 s
  | Some r => call_done L b ph y.1 r s
  end.

Lemma wp_spent_building L b ph x s :
  tally id L [] [] [] [] s -> on [] x s -> waiting x -> overdue b s ->
  wp (_ ← dispose_detached m;
      '(c, r) ← call_short_circuit (mkCall None None None None);
      _ ← drop_receiver (mkDisposing (receiver x) false);
      mret (c, Some r)) (built L b ph) s.
Proof.
  intros Ht Hx Hw (t & Hb & Hle).
  apply wp_seq. eapply wp_weaken; [eapply wp_off; [apply dispose_off|exact Hx|apply (wp_dispose [] (time s)); eapply tally_raise; [done|exact Ht]]|].
  intros [] s1 [Ht1 (x1 & Hx1 & Hq1)]. apply wp_seq, wp_seq, wp_reading. intros s2 He2. apply wp_seq, wp_reading.
  intros s3 He3. apply wp_done. assert (He : rtc others s1 s3) by by etrans. clear He2 He3.
  apply (others_tally_rtc _ _ _ _ _ _ _ _ He) in Ht1. destruct (others_on_rtc _ _ _ _ He Hx1) as (x3 & Hx3 & Hq3).
  assert (Hr3 : receiver x3 = receiver x) by (transitivity (receiver x1); [apply Hq3|apply Hq1]).
  apply wp_seq. eapply wp_weaken.
  { eapply wp_only; [apply drop_receiver_only|exact Ht1|]. apply (wp_drop_receiver _ _ _ _ Hx3); [done|]. rewrite Hr3. apply Hw. }
  intros [] s4 [(x4 & vs & Hx4 & Ha & _) Ht4]. apply wp_done. split; [done|]. split; [by left|]. simpl.
  assert (Hd : delivered (outs x3) = []).
  { destruct Hq3 as (_ & -> & _), Hq1 as (_ & -> & _). apply Hw. }
  rewrite Hd in Ha. split_and!.
  - right. destruct Ht as (_ & _ & _ & _ & HL & _). destruct Ht4 as (? & ? & ? & ? & ? & ?). split_and!; try done. lia.
  - right. exists t. split; [done|]. destruct Ht4 as (_ & _ & _ & _ & ? & _). lia.
  - right. split; [done|]. by exists vs, x4.
Qed.

Lemma wp_construct L b ph c s : call_pending L c s -> wp (construct b c) (built L b ph) s.
Proof.
  intros [(-> & Hw & HD & Hm & Ht)|[H|H]].
  - cbn [construct call_new make_msg]. apply wp_seq, wp_atom. intros s1 He.
    assert (Hu : unbuilt L (call_new m) s1) by (clear -He Hw HD Hm Ht; induction He; [done|];
      edestruct (others_unbuilt L (call_new m)) as (_ & ? & ? & ? & ?); eauto; done).
    destruct Hu as (_ & _ & HD1 & Hm1 & Ht1). destruct oneshot_inv as [Hi Hwt].
    set (s2 := set_wire _ s1).
    assert (Hx : on [] (duplex_start (T := T) (Ch := Ch)) s2) by done. assert (Ht2 : tally id L [] [] [] [] s2) by done.
    assert (Hm2 : mine s2 = None) by done. clearbody s2. apply wp_seq, wp_reading. intros s3 He3.
    apply (others_claim_rtc id L (send m) m []) in He3 as Hc3; [|done]. destruct Hc3 as (_ & Hm3 & Ht3).
    destruct (others_on_rtc _ _ _ _ He3 Hx) as (x3 & Hx3 & Hq3). pose proof (quiet_waiting _ _ Hq3 Hwt) as Hw3.
    assert (Hr3 : mkReceiver false RIdle = receiver x3) by (symmetry; apply Hq3).
    cbn [call_send call_reply call_accepted call_new]. destruct (Deadline.is_overdue b (time s3)) eqn:Eo.
    + unfold disposing_new. rewrite Hr3. apply wp_spent_building; [done|done|done|].
      unfold Deadline.is_overdue in Eo. unfold overdue. destruct (Deadline.instant b) as [t|]; [|done]. exists t. split; [done|]. simpl in Eo. apply Z.gtb_lt in Eo. lia.
    + apply wp_done. left. exists (send m), disposing_new. split_and!; [done|done|]. by exists x3.
  - destruct H as (st & d & -> & H). apply wp_done. left. by exists st, d.
  - destruct H as (d & i & -> & H). apply wp_done. right. by exists d, i.
Qed.

Lemma wp_call_poll_send L b ph w c s :
  unaccepted L c s \/ accepted L c s -> wp (call_poll_send w c) (built L b ph) s.
Proof.
  intros [(st & d & -> & Hc & Ha)|(d & i & -> & H)]; [|apply wp_done; right; by exists d, i].
  cbn [call_poll_send call_accepted call_send expect]. apply wp_seq, wp_local. intros s1 He.
  apply (others_claim_rtc _ _ _ _ _ _ _ He) in Hc.
  assert (Ha1 : awaits d s1) by (clear -He Ha; induction He; eauto using others_awaits).
  destruct Ha1 as (x & Hx & Hw & Hd). apply wp_seq.
  eapply wp_weaken; [eapply wp_off; [apply send_poll_off|exact Hx|by apply wp_send_poll]|].
  intros [st' r] s2 [Hp (x2 & Hx2 & Hq)]. unfold send_post in Hp. simpl in Hp.
  assert (Ha2 : awaits d s2) by (exists x2; split_and!; [done|by eapply quiet_waiting|rewrite Hd; symmetry; apply Hq]).
  destruct r as [[i|e]|]; cbn [make_msg call_reply].
  - apply wp_done. right. exists d, i. split_and!; [done|apply Hp|done].
  - destruct Hp as (Hr & _ & [-> |(i & ? & _)]); [|done].
    eapply wp_weaken; [eapply wp_fail_send; eauto|]. intros [c' o] s3 (r & Ho & H3). unfold built. by rewrite Ho.
  - apply wp_done. left. exists st', d. split_and!; [done|apply Hp|done].
Qed.

Lemma wp_call_expire L b c s : unaccepted L c s -> wp (call_expire c) (call_step L b TimeoutArbitration) s.
Proof.
  intros (st & d & -> & Hc & Ha). unfold call_expire. cbn [call_send expect make_msg call_reply]. apply wp_seq, wp_local.
  intros s1 He. apply (others_claim_rtc _ _ _ _ _ _ _ He) in Hc.
  assert (Ha1 : awaits d s1) by (clear -He Ha; induction He; eauto using others_awaits).
  destruct Ha1 as (x & Hx & Hw & Hd). apply wp_seq.
  eapply wp_weaken; [eapply wp_off; [apply withdraw_send_off|exact Hx|by eapply wp_withdraw_send]|].
  intros r s2 [[Hr Hk] (x2 & Hx2 & Hq)].
  assert (Ha2 : awaits d s2) by (exists x2; split_and!; [done|by eapply quiet_waiting|rewrite Hd; symmetry; apply Hq]).
  destruct r as [i|e].
  - by apply wp_call_poll_reply.
  - apply wp_seq. assert (exists kind, match error_kind e with
        | TimedOut => Ret CallErrorKind.AcceptanceTimedOut
        | Terminated => Ret CallErrorKind.Terminated
        | NotRunning | Full => Panics "withdrawal returns only timed-out or terminal errors" end = Ret kind /\
      (kind = CallErrorKind.Terminated \/ kind = CallErrorKind.AcceptanceTimedOut)) as (kind & -> & Hkind).
    { destruct Hk as [-> | ->]; eauto. }
    apply wp_local. intros s3 He3.
    assert (Hr3 : send_result id L m [] (Err e) s3).
    { destruct Hr as [He1 Hr]. split; [done|]. destruct Hr; [left|right]; by eapply others_tally_rtc. }
    assert (Ha3 : awaits d s3) by (clear -He3 Ha2; induction He3; eauto using others_awaits).
    eapply wp_weaken; [apply (wp_fail_send L b TimeoutArbitration); [done|done|by left|naive_solver]|].
    intros [c' o] s4 (r & Ho & H4). unfold call_step. by rewrite Ho.
Qed.

Lemma wp_call_poll L w b ph c s : call_pending L c s -> wp (call_poll w b ph c) (call_step L b ph) s.
Proof.
  intros Hc. apply wp_seq. eapply wp_weaken; [by apply (wp_construct L b ph)|]. clear c s Hc.
  intros [c [r|]] s Hb; unfold built in Hb; simpl in Hb; [by apply wp_done|].
  apply wp_seq. eapply wp_weaken; [by apply (wp_call_poll_send L b ph)|]. clear c s Hb.
  intros [c [r|]] s Hb; unfold built in Hb; simpl in Hb; [by apply wp_done|].
  destruct Hb as [Hu|(d & i & -> & Ht & Ha)]; [|by apply wp_call_poll_reply].
  assert (call_accepted c = None) as -> by by destruct Hu as (st & d & -> & _). destruct ph.
  - apply wp_done. by right; left.
  - by apply wp_call_expire.
Qed.

Definition call_short L c (r : CallResult) s : Prop :=
  unbuilt L c s /\ exists e, r = Err e /\ call_kind e = CallErrorKind.AcceptanceTimedOut.
Lemma wp_call_short L c s : unbuilt L c s -> wp (call_short_circuit c) (fun y s' => call_short L y.1 y.2 s') s.
Proof.
  intros Hu. apply wp_seq, wp_reading. intros s1 He1. apply wp_seq, wp_reading. intros s2 He2. apply wp_done.
  split; [|eauto]. assert (He : rtc others s s2) by by etrans. clear -He Hu. simpl.
  induction He; eauto using others_unbuilt.
Qed.
End calls.

(** ** Promises of [call]

    A call over its whole lifetime, the drop of its future included: the
    request was accepted or is discarded, the reply was handed out, discarded
    or refused, and the result tells which. *)

Import DeadlinePhase (InitialAttempt, TimeoutArbitration).

Section calls.
Context {M T Ch : Type} `{!TokioOneshot T Ch} {clock : Clock} (id : ChildId) (m : M).
Local Abbreviation Scene := (@Scene M T Ch).
Local Abbreviation Prog := (Prog Scene).
Local Abbreviation others := (@others M T Ch _).
Local Abbreviation wp := (wp others never exhausted).
Local Abbreviation CallOperation := (@CallOperation M).
Local Abbreviation CallResult := (result (Replied T) CallError).
Implicit Types (s : Scene) (c : CallOperation) (d : DisposingReceiver).

(** No reply can succeed any more. *)
Definition reply_refused (sh : @Shared Ch) : Prop :=
  word sh = ONESHOT_SENDER_CLOSED \/ word sh = ONESHOT_RECEIVER_CLOSED \/
  word sh = ONESHOT_SENDING /\ ch_view (channel sh) = VClosed.

(** The reply is accounted for: returned as [ret], discarded, or refused. *)
Definition reply_settled (ret : list T) s : Prop :=
  match wire s with
  | None => ret = [] /\ discarded s = []
  | Some (sh, at_) =>
      (ret ++ discarded s = [] /\ reply_refused sh) \/
      exists v, ret ++ discarded s = [v] /\ (at_ = SStoring v true \/ at_ = SReturned v true)
  end.

Lemma answered_settled ret vs x s : on vs x s -> answered (ret ++ vs) x -> reply_settled ret s.
Proof.
  intros (Hw & Hi & HD) (_ & Hc & Hd). unfold reply_settled. rewrite Hw, HD, <- Hd.
  destruct (delivered (outs x)) as [|v l] eqn:E.
  - left. split; [done|]. exact (oi_completed _ Hi Hc E).
  - right. exists v. pose proof (oi_sender _ Hi) as Hs. unfold sender_ok, sent_ok in Hs. rewrite E in Hs.
    destruct (sender x) as [|v'|v' [] |[v'|]|v' []|]; naive_solver.
Qed.

(** What is left when the future of a call has been dropped too. *)
Definition call_settled (r : option CallResult) s : Prop :=
  match r with
  | Some (Ok rep) => kept (replied_incarnation rep) m s /\ reply_settled [value rep] s
  | Some (Err e) =>
      reply_settled [] s /\
      match call_kind e with
      | CallErrorKind.Terminated | CallErrorKind.AcceptanceTimedOut => thrown_away m s
      | CallErrorKind.ResponseTimedOut => exists i, call_incarnation_observed e = Some i /\ kept i m s
      | CallErrorKind.ReplyDropped =>
          (exists i, call_incarnation_observed e = Some i /\ kept i m s) /\ exists sh p, wire s = Some (sh, p) /\ gone p
      end
  | None => reply_settled [] s /\ ((exists i, kept i m s) \/ thrown_away m s)
  end.

Lemma tally_kept L i s : tally id L [i] [m] [] [] s -> kept i m s.
Proof. unfold tally, kept. naive_solver. Qed.
Lemma never_accepted_thrown L s : never_accepted id m L s -> thrown_away m s.
Proof. unfold never_accepted, tally, thrown_away. intros [(-> & -> & -> & _ & _ & ->)|(-> & -> & -> & _ & _ & ->)]; auto. Qed.

(** The drop of what a completed call still holds. *)
Lemma wp_drop_held c (P : Duplex T Ch -> Prop) L a g h (D : list M) vs s :
  make_msg c = None -> call_send c = None \/ call_send c = Some Done ->
  tally id L a g h D s -> holds c P s -> (forall x, P x -> delivered (outs x) = vs) ->
  wp (call_drop c) (fun _ s' => tally id L a g h D s' /\ reply_settled vs s' /\
    ((forall x, P x -> gone (sender x)) -> exists sh p, wire s' = Some (sh, p) /\ gone p)) s.
Proof.
  intros Hm Hs Ht (d & x & Hd & Hx & Hin & Hr & HP) Hvs. unfold call_drop. rewrite Hm, Hd. apply wp_seq, wp_done, wp_seq.
  assert (Hn : wp (match call_send c with Some st => send_drop st | None => mret () end) (fun _ s' => s' = s) s)
    by by destruct Hs as [-> | ->].
  eapply wp_weaken; [exact Hn|]. intros [] s0 ->. eapply wp_weaken.
  { eapply wp_only; [apply drop_receiver_only|exact Ht|]. by apply (wp_drop_receiver _ _ _ _ Hx). }
  intros [] s1 [(x1 & ws & Hx1 & Ha & Hg) Ht1]. split; [done|]. rewrite (Hvs x HP) in Ha. split.
  - by eapply answered_settled.
  - intros Hgo. exists (sh x1), (sender x1). split; [apply Hx1|by apply Hg, Hgo].
Qed.

Lemma wp_drop_done L b ph c r s :
  call_done id m L b ph c r s -> wp (call_drop c) (fun _ s' => call_settled (Some r) s') s.
Proof.
  intros (Hm & Hs & Hr).
  assert (Hn : forall s, never_accepted id m L s -> holds c (fun x => delivered (outs x) = []) s ->
    wp (call_drop c) (fun _ s' => reply_settled [] s' /\ thrown_away m s') s).
  { intros s0 Hn Hh. assert (exists a g h D, tally id L a g h D s0 /\ forall s, tally id L a g h D s -> never_accepted id m L s)
      as (a & g & h & D & Ht & Hback).
    { unfold never_accepted in *. destruct Hn; [exists [], [m], [m], [m]|exists [], [], [], [m]]; auto. }
    eapply wp_weaken; [by eapply (wp_drop_held c _ L a g h D [])|]. intros [] s1 (Ht1 & Hset & _).
    split; [done|]. by eapply never_accepted_thrown, Hback. }
  destruct r as [rep|e]; simpl in Hr |- *.
  - destruct Hr as [Ht Hh]. eapply wp_weaken; [eapply (wp_drop_held c _ L); eauto; by intros x (_ & _ & ?)|].
    intros [] s1 (Ht1 & Hset & _). split; [by eapply tally_kept|done].
  - destruct (call_kind e).
    + destruct Hr as [Hna Hh]. by apply Hn.
    + destruct Hr as (Hna & _ & [Hh|[Hc Hv]]); [by apply Hn|].
      unfold call_drop. rewrite Hm, Hc. apply wp_seq, wp_done, wp_seq.
      assert (Hsd : wp (match call_send c with Some st => send_drop st | None => mret () end) (fun _ s' => s' = s) s)
        by by destruct Hs as [-> | ->].
      eapply wp_weaken; [exact Hsd|]. intros [] s0 ->. apply wp_done. destruct Hv as (vs & x & Hx & Ha).
      split; [by eapply answered_settled|by eapply never_accepted_thrown].
    + destruct Hr as ((i & Hi & Ht) & _ & Hh). eapply wp_weaken; [eapply (wp_drop_held c _ L); eauto; by intros x (_ & _ & ?)|].
      intros [] s1 (Ht1 & Hset & _). split; [done|]. exists i. split; [done|by eapply tally_kept].
    + destruct Hr as ((i & Hi & Ht) & Hh). eapply wp_weaken; [eapply (wp_drop_held c _ L); eauto; by intros x [(_ & _ & ?) _]|].
      intros [] s1 (Ht1 & Hset & Hg). split; [done|]. split; [exists i; split; [done|by eapply tally_kept]|]. apply Hg. by intros x [_ ?].
Qed.

Lemma wp_drop_awaits L c s :
  call_pending id m L c s -> wp (call_drop c) (fun _ s' => call_settled None s') s.
Proof.
  intros [(-> & Hw & HD & Hm & Ht)|[(st & d & -> & Hc & x & Hx & Hwt & Hd)|(d & i & -> & Ht & x & Hx & Hwt & Hd)]];
    unfold call_drop; cbn [make_msg call_send call_reply call_new]; apply wp_seq.
  - apply wp_atom. intros s1 He. assert (Hu : unbuilt id m L (call_new m) s1).
    { assert (Hu : unbuilt id m L (call_new m) s) by done. clear -He Hu. induction He; eauto using others_unbuilt. }
    destruct Hu as (_ & Hw1 & HD1 & _ & H1 & H2 & H3 & _ & _ & H4). apply wp_seq, wp_done, wp_done.
    unfold call_settled, reply_settled, thrown_away. simpl. rewrite Hw1, HD1, H1, H2, H3, H4. auto 10.
  - apply wp_done, wp_seq. eapply wp_weaken; [eapply wp_off; [apply send_drop_off|exact Hx|by eapply wp_send_drop]|].
    intros [] s1 [Ht (x1 & Hx1 & Hq)].
    assert (exists a g h D, tally id L a g h D s1 /\ forall s, tally id L a g h D s -> (exists i, kept i m s) \/ thrown_away m s)
      as (a & g & h & D & Ht1 & Hback).
    { unfold tally, kept, thrown_away in *. destruct Ht as [[i Ht]|[Ht|Ht]];
        [exists [i], [m], [], []|exists [], [m], [m], [m]|exists [], [], [], [m]];
        (split; [exact Ht|intros s2 (-> & -> & -> & _ & _ & ->); eauto 10]). }
    apply (quiet_waiting _ _ Hq) in Hwt as Hw1. eapply wp_weaken.
    { eapply wp_only; [apply drop_receiver_only|exact Ht1|]. apply (wp_drop_receiver _ _ _ _ Hx1); [|apply Hw1].
      rewrite Hd. symmetry. apply Hq. }
    intros [] s2 [(x2 & vs & Hx2 & Ha & _) Ht2]. split; [|by apply Hback]. eapply answered_settled; [exact Hx2|].
    destruct Hw1 as (_ & _ & _ & Hdl). by rewrite Hdl in Ha.
  - apply wp_done, wp_seq, wp_done. eapply wp_weaken.
    { eapply wp_only; [apply drop_receiver_only|exact Ht|]. apply (wp_drop_receiver _ _ _ _ Hx); [done|apply Hwt]. }
    intros [] s2 [(x2 & vs & Hx2 & Ha & _) Ht2]. split; [|left; exists i; by eapply tally_kept]. eapply answered_settled; [exact Hx2|].
    destruct Hwt as (_ & _ & _ & Hdl). by rewrite Hdl in Ha.
Qed.

(** ** Lifetimes *)

(** The call is awaited, and its future dropped, completed or not. *)
Definition call_lifetime elapsed (ws : list Waker) (width : DeadlineBudget.t) : Prog (option CallResult) :=
  '(d, r) ← awaiting elapsed ws (call m width);
  _ ← call_drop (operation d);
  mret r.

(** The caller of a call: no request, no reply channel. *)
Definition call_at_rest s : Prop := at_rest id s /\ wire s = None /\ discarded s = [].

(** When a call may time out: at once with a zero budget, submitting nothing;
    otherwise after its budget. *)
Definition call_in_time (width : DeadlineBudget.t) s (r : option CallResult) s' : Prop :=
  match r with
  | Some (Err e) =>
      match call_kind e with
      | CallErrorKind.AcceptanceTimedOut =>
          DeadlineBudget.is_zero width = true /\ gave s' = [] \/ time s + DeadlineBudget.duration width <= time s'
      | CallErrorKind.ResponseTimedOut => time s + DeadlineBudget.duration width <= time s'
      | _ => True
      end
  | _ => True
  end.

(** The clock does not go back. *)
Lemma wp_later {A} (p : Prog A) Q s L :
  within (fun s s' => time s <= time s') p -> L <= time s -> wp p Q s -> wp p (fun a s' => Q a s' /\ L <= time s') s.
Proof.
  intros Hp HL. eapply (wp_frame _ _ _ (fun s s' => time s <= time s') (fun s => L <= time s)); [|by intros; lia|done|done].
  intros s1 s2 He. pose proof (others_time _ _ He). lia.
Qed.
Lemma call_drop_time c : within (fun s s' => time s <= time s') (call_drop (T := T) (Ch := Ch) c).
Proof.
  unfold call_drop. apply within_bind; [destruct (make_msg c); [|done]|intros []; apply within_bind; [|intros []]].
  - apply within_atom. intros s x s' H. by simplify_eq.
  - destruct (call_send c) as [[[]|op|i|]|]; try done.
    + apply within_atom. intros s x s' H. by simplify_eq.
    + apply within_bind.
      * apply within_atom. intros s r s' H. apply bind_Ret_inv in H as ([[r1 fx] c0] & _ & H). by simplify_eq.
      * intros []; try done; apply within_atom; intros s x s' H; by simplify_eq.
  - destruct (call_reply c); [|done]. apply wire_only_later, drop_receiver_only.
Qed.

Lemma done_in_time width t0 t1 L ph c r s s' s'' :
  t0 = time s -> t0 <= t1 -> t0 <= L -> L <= time s' -> time s' <= time s'' ->
  (ph = TimeoutArbitration -> spent t0 width L) ->
  call_done id m L (Deadline.after t1 (DeadlineBudget.duration width)) ph c r s' ->
  call_in_time width s (Some r) s''.
Proof.
  intros -> H1 HL HLs Hs Hsp (_ & _ & Hr). unfold call_in_time. destruct r as [|e]; [done|].
  assert (Hspent : ph = TimeoutArbitration -> time s + DeadlineBudget.duration width <= time s'').
  { intros Hph. destruct (Hsp Hph) as (t2 & d & H2 & Hd & Hle). apply Deadline.after_exact in Hd. lia. }
  destruct (call_kind e); [done| | |done].
  - destruct Hr as (_ & [Hph|(t & Hd & Hle)] & _); [auto|]. right. apply Deadline.after_exact in Hd. lia.
  - destruct Hr as (_ & Hph & _). auto.
Qed.

Lemma call_done_time L b ph c r s : call_done id m L b ph c r s -> L <= time s.
Proof.
  intros (_ & _ & Hr). destruct r as [|e]; simpl in Hr; [|destruct (call_kind e)];
    unfold never_accepted, tally in Hr; naive_solver.
Qed.

Lemma wp_call elapsed ws width s :
  (forall t n, elapsed t n = true -> t <= n) -> call_at_rest s ->
  wp (call_lifetime elapsed ws width) (fun r s' => call_settled r s' /\ call_in_time width s r s') s.
Proof.
  intros Hn ((Hr & Hm & Hg & Hb & HD & HA) & Hw & Hdi).
  assert (Hu : unbuilt id m (time s) (call_new m) s) by by split_and!.
  apply wp_seq. eapply wp_weaken.
  { apply (wp_awaiting elapsed Hn (unbuilt id m) (call_pending id m) (call_done id m) (call_short id m))
      with (t0 := time s) (width := width).
    - intros L c s1 s2. apply others_unbuilt.
    - intros L c s1 Hc. by left.
    - intros L c s1 s2. apply others_pending.
    - intros L c s1. apply pending_time.
    - intros L L' c s1. apply pending_raise.
    - intros. by apply wp_call_poll.
    - intros. by apply wp_call_short.
    - split; [done|]. split; [by left|]. split; [done|]. done. }
  intros [d [r|]] s' Hp; unfold deadlined_post in Hp; simpl in Hp; apply wp_seq.
  - destruct (DeadlineBudget.is_zero width) eqn:Ez.
    + destruct Hp as [Hu' (e & -> & Hk)]. destruct Hu' as (Hop & Hw' & Hd' & Hm' & Ht'). simpl. rewrite Hop.
      unfold call_drop. cbn [make_msg call_send call_reply call_new]. apply wp_seq.
      apply wp_atom. intros s1 He. assert (Hu1 : unbuilt id m (time s) (call_new m) s1).
      { assert (Hu1 : unbuilt id m (time s) (call_new m) s') by done. clear -He Hu1. induction He; eauto using others_unbuilt. }
      destruct Hu1 as (_ & Hw1 & HD1 & _ & H1 & H2 & H3 & _ & _ & H4). apply wp_seq, wp_done, wp_done.
      unfold call_settled, call_in_time, reply_settled, thrown_away. simpl. rewrite Hk, Hw1, HD1, H1, H2, H3, H4, Ez. auto 10.
    + destruct Hp as (t1 & ph & L & H1 & HL & Hd & Hsp). eapply wp_weaken.
      { eapply wp_later; [apply call_drop_time|reflexivity|by eapply wp_drop_done]. }
      intros [] s2 [H2 Ht]. apply wp_done. split; [done|]. 
      apply (done_in_time width (time s) t1 L ph (operation d) r s s' s2); auto. by eapply call_done_time.
  - destruct Hp as (_ & Hc & _). eapply wp_weaken; [by eapply wp_drop_awaits|]. intros [] s2 H2. by apply wp_done.
Qed.
End calls.

(** ** [recv] *)

Section receives.
Context {M T Ch : Type} `{!TokioOneshot T Ch} {clock : Clock}.
Local Abbreviation Scene := (@Scene M T Ch).
Local Abbreviation Prog := (Prog Scene).
Local Abbreviation others := (@others M T Ch _).
Local Abbreviation wp := (wp others never exhausted).
Implicit Types (s : Scene) (d : DisposingReceiver).

Definition receiving L d s : Prop := L <= time s /\ awaits d s.
Definition received_reply L (b : Deadline.t) ph d (r : result T ReplyError.t) s : Prop :=
  L <= time s /\ exists x, on [] x s /\ inner d = receiver x /\
  match r with
  | Ok v => answered [v] x
  | Err ReplyError.Dropped => answered [] x /\ gone (sender x)
  | Err ReplyError.Timeout => answered [] x /\ ph = TimeoutArbitration
  end.
Definition unobserved L d (r : result T ReplyError.t) s : Prop :=
  r = Err ReplyError.Timeout /\ L <= time s /\
  exists x, on [] x s /\ inner d = receiver x /\ receiver_at (receiver x) = RIdle /\ delivered (outs x) = [].

Definition recv_lifetime elapsed (ws : list Waker) (width : DeadlineBudget.t) d : Prog (option (result T ReplyError.t)) :=
  '(dl, r) ← awaiting elapsed ws (recv d width);
  _ ← drop_receiver (operation dl);
  mret r.

Definition recv_settled (width : DeadlineBudget.t) s (r : option (result T ReplyError.t)) s' : Prop :=
  match r with
  | Some (Ok v) => reply_settled [v] s'
  | Some (Err ReplyError.Dropped) => reply_settled [] s' /\ exists sh p, wire s' = Some (sh, p) /\ gone p
  | Some (Err ReplyError.Timeout) =>
      reply_settled [] s' /\
      (DeadlineBudget.is_zero width = true \/ time s + DeadlineBudget.duration width <= time s')
  | None => reply_settled [] s'
  end.

Lemma others_receiving L d s s' : others s s' -> receiving L d s -> receiving L d s'.
Proof. intros He [HL Ha]. pose proof (others_time _ _ He). split; [lia|by eapply others_awaits]. Qed.
Lemma wp_timed {A} (p : Prog A) Q s L :
  within wire_only p -> L <= time s -> wp p Q s -> wp p (fun a s' => Q a s' /\ L <= time s') s.
Proof. intros Hp. by apply wp_later, wire_only_later. Qed.

Lemma wp_recv_poll L w b ph d s :
  receiving L d s ->
  wp (poll_deadlined (Output := result T ReplyError.t) w b ph d) (fun y s' => match y.2 with
    | None => receiving L y.1 s' | Some r => received_reply L b ph y.1 r s' end) s.
Proof.
  intros (HL & x & Hx & Hw & Hd). apply wp_seq.
  eapply wp_weaken; [eapply wp_timed; [apply poll_reply_only|exact HL|by eapply wp_poll_reply]|].
  intros [r d'] s' [(x' & Hx' & Hd' & Hp) HL']. apply wp_done. simpl in *.
  destruct r as [[v| |]|]; simpl in *; (split; [done|by exists x']).
Qed.
Lemma wp_recv_short L d s :
  receiving L d s ->
  wp (short_circuit (Output := result T ReplyError.t) d) (fun y s' => unobserved L y.1 y.2 s') s.
Proof.
  intros (HL & x & Hx & Hw & Hd). apply wp_seq.
  eapply wp_weaken; [eapply wp_timed; [apply close_receiver_only|exact HL|apply (wp_close_receiver _ _ _ _ Hx Hd), Hw]|].
  intros d' s' [(x' & Hx' & Hd' & Hr & Ho) HL']. apply wp_done. split; [done|]. split; [done|]. exists x'.
  split_and!; [done|done|done|]. rewrite Ho. apply Hw.
Qed.

Lemma wp_finish_recv d x vs s L :
  on [] x s -> inner d = receiver x -> receiver_at (receiver x) = RIdle -> delivered (outs x) = vs -> L <= time s ->
  wp (drop_receiver d) (fun _ s' => (reply_settled vs s' /\
    (gone (sender x) -> exists sh p, wire s' = Some (sh, p) /\ gone p)) /\ L <= time s') s.
Proof.
  intros Hx Hd Hr Hv HL. apply wp_timed; [apply drop_receiver_only|done|].
  eapply wp_weaken; [by apply (wp_drop_receiver _ _ _ _ Hx)|]. intros [] s' (x' & ws & Hx' & Ha & Hg). rewrite Hv in Ha.
  split; [by eapply answered_settled|]. intros Hgo. exists (sh x'), (sender x'). split; [apply Hx'|by apply Hg].
Qed.

Lemma wp_recv elapsed ws width d s :
  (forall t n, elapsed t n = true -> t <= n) -> awaits d s ->
  wp (recv_lifetime elapsed ws width d) (recv_settled width s) s.
Proof.
  intros Hn Ha. apply wp_seq. eapply wp_weaken.
  { apply (wp_awaiting elapsed Hn receiving receiving received_reply unobserved) with (t0 := time s) (width := width).
    - intros L d1 s1 s2. apply others_receiving.
    - done.
    - intros L d1 s1 s2. apply others_receiving.
    - by intros L d1 s1 [? _].
    - by intros L L' d1 s1 HL [_ ?].
    - intros. by apply wp_recv_poll.
    - intros. by apply wp_recv_short.
    - split; [done|]. split; [done|]. split; [done|]. done. }
  intros [dl [r|]] s' Hp; unfold deadlined_post in Hp; simpl in Hp; apply wp_seq.
  - destruct (DeadlineBudget.is_zero width) eqn:Ez.
    + destruct Hp as (-> & HL & x & Hx & Hd & Hr & Ho). eapply wp_weaken; [by eapply wp_finish_recv|].
      intros [] s2 [[H2 _] _]. apply wp_done. simpl. auto.
    + destruct Hp as (t1 & ph & L & H1 & HL & (HLs & x & Hx & Hd & Hr) & Hsp).
      assert (exists vs, answered vs x /\ vs = match r with Ok v => [v] | Err _ => [] end) as (vs & Hav & ->)
        by (destruct r as [v|[]]; naive_solver).
      eapply wp_weaken; [eapply wp_finish_recv; [done|done|apply Hav|apply Hav|exact HLs]|].
      intros [] s2 [[H2 Hg] HL2]. apply wp_done. unfold recv_settled. destruct r as [v|[]]; [done|naive_solver|].
      split; [done|]. right. destruct Hr as [_ Hph]. destruct (Hsp Hph) as (t2 & dd & Ht2 & Hdd & Hle).
      apply Deadline.after_exact in Hdd. lia.
  - destruct Hp as (_ & [HL (x & Hx & Hw & Hd)] & _). eapply wp_weaken; [eapply wp_finish_recv; [done|done|apply Hw|apply Hw|exact HL]|].
    intros [] s2 [[H2 _] _]. by apply wp_done.
Qed.
End receives.


(** A reply receiver settles its channel: a value is returned or discarded, or
    refused to its sender; it times out only at once for a zero budget, or
    after the budget; and it never panics. *)
Theorem recv_settles {M T Ch} `{!TokioOneshot T Ch} {clock : Clock} elapsed ws width d (s : @Scene M T Ch) e :
  (forall t n, elapsed t n = true -> t <= n) -> awaits d s ->
  runs others (recv_lifetime elapsed ws width d) s e ->
  match e with
  | Returned r s' => recv_settled width s r s'
  | Panicked _ => False
  | Aborted s' => counters_exhausted (w_cell (box s'))
  end.
Proof. intros Hn Ha. apply (wp_runs _ never exhausted _ (recv_settled width s)). by apply wp_recv. Qed.
