(* ===== verification/FuturesDemo.v ===== *)
(** * Futures among other threads

    The steps of others as a function, schedules of them between the steps of a
    future, and a timed send and a call on concrete mailboxes. *)

From S2P Require Import Prelude BTree Time Identity Policy Mailbox MailboxInv MailboxErrors MailboxOrder MailboxOps.
From S2P Require Import OneShot Interleave Futures FuturesProps CallProps CallInv.

Section schedules.
Context {M T Ch : Type} `{!TokioOneshot T Ch}.
Local Abbreviation Scene := (@Scene M T Ch).

Inductive action :=
| Asks (x : mailbox_op (M := M))
| Ticks (t : Z)
| Replies (v : T)
| DropsReply
| Publishes.

(** The step of others an action is, where it is one. *)
Definition act (a : action) (s : Scene) : option Scene :=
  match a with
  | Asks x =>
      if match x with MPoll op _ _ | MWithdraw op _ => bool_decide (Some op ≠ mine s) | _ => true end
      then match mexec (box s) x with Ret (out, w) => Some (set_box w x out s) | _ => None end
      else None
  | Ticks t => if time s <=? t then Some (set_time t s) else None
  | Replies v =>
      match wire s with
      | Some (sh, SLive) => let '(p, sh) := send_exchange v sh in Some (set_wire (Some (sh, p)) s)
      | _ => None
      end
  | DropsReply =>
      match wire s with
      | Some (sh, SLive) => let '(p, sh) := drop_exchange sh in Some (set_wire (Some (sh, p)) s)
      | _ => None
      end
  | Publishes =>
      match wire s with
      | Some (sh, p) => '(p, sh) ← sender_step p sh; Some (set_wire (Some (sh, p)) s)
      | None => None
      end
  end.
Fixpoint acts (l : list action) (s : Scene) : option Scene :=
  match l with
  | [] => Some s
  | a :: l => s ← act a s; acts l s
  end.

(** An execution with the given actions before each step. *)
Fixpoint scheduled {A} (p : Prog Scene A) (plan : list (list action)) (s : Scene) : option (ending A Scene) :=
  match p with
  | Pure a => Some (Returned a s)
  | Atom f k =>
      s ← acts (default [] (head plan)) s;
      match f s with
      | Ret (x, s') => scheduled (k x) (tail plan) s'
      | Panics message => Some (Panicked message)
      | ProcessAborts => Some (Aborted s)
      end
  end.

Lemma act_others a s s' : act a s = Some s' -> others s s'.
Proof.
  destruct a as [x|t|v| |]; simpl.
  - destruct (match x with MPoll op _ _ | MWithdraw op _ => bool_decide (Some op ≠ mine s) | _ => true end) eqn:Ef; [|done].
    destruct (mexec (box s) x) as [[out w]| |] eqn:E; [|done..]. intros [= <-]. constructor; [|done].
    destruct x; simpl in *; try done; by apply bool_decide_eq_true in Ef.
  - destruct (Z.leb_spec (time s) t); [|done]. intros [= <-]. by constructor.
  - destruct (wire s) as [[sh []]|] eqn:Ew; try done. destruct (send_exchange v sh) eqn:E. intros [= <-].
    by econstructor.
  - destruct (wire s) as [[sh []]|] eqn:Ew; try done. destruct (drop_exchange (T := T) sh) eqn:E. intros [= <-].
    by eapply others_drop_reply.
  - destruct (wire s) as [[sh p]|] eqn:Ew; [|done]. destruct (sender_step p sh) as [[p' sh']|] eqn:E; [|done].
    simpl. intros [= <-]. by eapply others_publish.
Qed.
Lemma acts_others l s s' : acts l s = Some s' -> rtc others s s'.
Proof.
  revert s. induction l as [|a l IH]; intros s; simpl; [by intros [= ->]|].
  destruct (act a s) as [s1|] eqn:E; [|done]. simpl. intros H. eapply rtc_l; [by eapply act_others|by apply IH].
Qed.
Lemma scheduled_runs {A} (p : Prog Scene A) plan s e : scheduled p plan s = Some e -> runs others p s e.
Proof.
  revert plan s. induction p as [a|X f k IH]; intros plan s; simpl; [intros [= <-]; constructor|].
  destruct (acts (default [] (head plan)) s) as [s1|] eqn:Ea; [|done]. simpl. apply acts_others in Ea.
  destruct (f s1) as [[x s2]| |] eqn:E.
  - intros H. econstructor; [done|done|by eapply IH].
  - intros [= <-]. by econstructor.
  - intros [= <-]. by eapply runs_abort.
Qed.
End schedules.
Arguments action M T : clear implicits.

#[local] Instance futures_clock : Clock := unix_clock.

(** A timer that fires at its instant. *)
Definition punctual (t n : Z) : bool := t <=? n.
Lemma punctual_not_early t n : punctual t n = true -> t <= n.
Proof. apply Z.leb_le. Qed.

(** A caller of the mailbox after the first [n] requests of [queue_script]. *)
Definition caller (n : nat) : @Scene Z Z (View Z) :=
  mkScene (queue_demo n).2 (queue_demo n).1 None 1000 None [] [] [] [] [].
Lemma caller_at_rest n : call_at_rest "a" (caller n).
Proof. repeat split. apply queue_demo_run. Qed.


(** A send to a full mailbox parks; its budget of 5 is over at the second poll,
    which withdraws it. *)
Definition late_plan : list (list (action Z Z)) := replicate 3 [] ++ [[Ticks 1010]].

(** A call whose request is accepted at once and answered before the second
    poll. *)
Definition answer_plan : list (list (action Z Z)) := replicate 8 [] ++ [[Replies 42; Publishes; Publishes]].
