(* ===== verification/WakerProxy.v ===== *)
(** * Waker proxies

    [waker_proxy.rs] and [proxied_sleep.rs] of the core crate: a primitive of
    the async runtime is polled with a framework-owned proxy, and the caller's
    waker stays in the proxy's slot.  Each critical section of the proxy's
    mutex, the clone of the caller's waker between two of them, and each poll
    of the primitive is one atomic step; wakes arrive in between.

    The primitive is a parameter, used through the interface [Target]. *)

From S2P Require Import Prelude Mailbox Interleave.

(** ** The primitive *)

(** What it can register. *)
Inductive Handle := Noop | ProxyHandle (k : nat).

(** Level-triggered readiness: a pending poll registers its waker and leaves the
    primitive unready, readiness lasts until it is polled, and the waker a
    primitive waits with changes only through polls. *)
Class Target (R X : Type) := mkTarget
  { t_poll : Handle -> X -> option R * X;
    t_moves : X -> X -> Prop;
    t_ready : X -> bool;
    t_waits : X -> option Handle;
    poll_pending h x x' : t_poll h x = (None, x') -> t_ready x' = false /\ t_waits x' = Some h;
    moves_ready x x' : t_moves x x' -> t_ready x = true -> t_ready x' = true;
    moves_waits x x' : t_moves x x' -> t_ready x' = false -> t_waits x' = t_waits x }.

(** ** State *)

Record Registration := mkRegistration { caller : WakerSlot; wakes : Z }.
Definition registration_default : Registration := mkRegistration None 0.

Section proxies.
Context {R X : Type} `{!Target R X}.

(** Every proxy made so far, the wakes the primitive has issued and not yet
    delivered, the effects of slots on wakers, the wakes each proxy has
    received, and the clones made of callers' wakers. *)
Record Scene := mkScene
  { target : X;
    regs : list Registration;
    flight : list nat;
    effects : WakerEffects;
    rang : list nat;
    clones : list Waker }.

Definition set_reg k r fx s :=
  mkScene (target s) (<[k:=r]> (regs s)) (flight s) (effects s ++ fx) (rang s) (clones s).

(** [Wake::wake_by_ref]. *)
Definition wake_by_ref (r : Registration) : Registration * WakerEffects :=
  let '(slot, fx) := slot_take (caller r) WakerAction.Wake [] in
  (mkRegistration slot ((wakes r + 1) mod 2 ^ 64), fx).

Definition ring (k : nat) s : Scene :=
  match regs s !! k with
  | Some r =>
      let '(r, fx) := wake_by_ref r in
      let s := set_reg k r fx s in
      mkScene (target s) (regs s) (flight s) (effects s) (rang s ++ [k]) (clones s)
  | None => s
  end.

(** The wake that readiness issues. *)
Definition issued (x x' : X) : list nat :=
  match t_waits x with
  | Some (ProxyHandle k) => if t_ready x' && negb (t_ready x) then [k] else []
  | _ => []
  end.

(** The steps of others: the primitive moves, an issued wake arrives, or a
    proxy is woken without need. *)
Inductive outside : Scene -> Scene -> Prop :=
| outside_moves s x' :
    t_moves (target s) x' ->
    outside s (mkScene x' (regs s) (flight s ++ issued (target s) x') (effects s) (rang s) (clones s))
| outside_arrives s k l1 l2 :
    flight s = l1 ++ k :: l2 ->
    outside s (ring k (mkScene (target s) (regs s) (l1 ++ l2) (effects s) (rang s) (clones s)))
| outside_spurious s k : outside s (ring k s).

Local Abbreviation Prog := (Prog Scene).

(** ** [WakerProxy] *)

Definition proxy_new : Prog nat := atom (fun s =>
  Ret (length (regs s),
       mkScene (target s) (regs s ++ [registration_default]) (flight s) (effects s) (rang s) (clones s))).

Definition registration (k : nat) (s : Scene) : outcome Registration :=
  expect "the proxy of this poll" (regs s !! k).

(** [Waker::clone], outside the mutex. *)
Definition clone_waker (w : Waker) : Prog () := atom (fun s =>
  Ret ((), mkScene (target s) (regs s) (flight s) (effects s) (rang s) (clones s ++ [w]))).

(** The second critical section of [register]. *)
Definition install (k : nat) (w : Waker) (observed : Z) : Prog () :=
  _ ← clone_waker w;
  atom (fun s =>
    r ← registration k s;
    let '(slot, fx) := slot_replace (caller r) w [] in
    let '(slot, fx) := if wakes r =? observed then (slot, fx)
                       else slot_take slot WakerAction.Wake fx in
    Ret ((), set_reg k (mkRegistration slot (wakes r)) fx s)).

Definition register (k : nat) (w : Waker) : Prog () :=
  observed ← atom (fun s =>
    r ← registration k s;
    Ret (if will_wake (caller r) w then None else Some (wakes r), s));
  match observed with
  | None => mret ()
  | Some observed => install k w observed
  end.

Definition retire_proxy (k : nat) (a : WakerAction.t) : Prog () := atom (fun s =>
  r ← registration k s;
  let '(slot, fx) := slot_take (caller r) a [] in
  Ret ((), set_reg k (mkRegistration slot (wakes r)) fx s)).

(** ** [ProxiedPoll] *)

Definition poll_target (h : Handle) : Prog (option R) := atom (fun s =>
  let '(r, x) := t_poll h (target s) in
  Ret (r, mkScene x (regs s) (flight s) (effects s) (rang s) (clones s))).

(** [ProxiedPoll::retire]; the proxy's own drop then finds its slot empty. *)
Definition retire (a : WakerAction.t) (p : option nat) : Prog (option nat) :=
  match p with
  | Some k => _ ← retire_proxy k a; _ ← retire_proxy k WakerAction.DropInline; mret None
  | None => mret None
  end.

Definition poll_proxied (w : Waker) (p : option nat) : Prog (option nat * option R) :=
  '(p, r) ← match p with
            | Some k => mret (Some k, None)
            | None =>
                r ← poll_target Noop;
                match r with
                | Some r => mret (None, Some r)
                | None => k ← proxy_new; mret (Some k, None)
                end
            end;
  match p, r with
  | _, Some r => mret (p, Some r)
  | Some k, None => _ ← register k w; r ← poll_target (ProxyHandle k); mret (Some k, r)
  | None, None => local (Panics "a pending proxied poll retains its waker proxy")
  end.

Definition poll (w : Waker) (p : option nat) : Prog (option nat * option R) :=
  '(p, r) ← poll_proxied w p;
  match r with
  | Some _ => p ← retire WakerAction.DropInline p; mret (p, r)
  | None => mret (p, r)
  end.

(** ** [ProxiedSleep] *)

Record ProxiedSleep := mkSleep { armed_timer : bool; timer_poll : option nat; sleep_completed : bool }.

Definition sleep_new : ProxiedSleep := mkSleep true None false.

Definition sleep_retire (a : WakerAction.t) (z : ProxiedSleep) : Prog ProxiedSleep :=
  p ← retire a (timer_poll z);
  mret (mkSleep false p true).

Definition sleep_poll (w : Waker) (z : ProxiedSleep) : Prog (ProxiedSleep * bool) :=
  if sleep_completed z then mret (z, true)
  else
    _ ← local (if armed_timer z then Ret () else Panics "an incomplete proxied sleep retains its timer");
    '(p, r) ← poll w (timer_poll z);
    let z := mkSleep (armed_timer z) p (sleep_completed z) in
    match r with
    | Some _ => z ← sleep_retire WakerAction.DropInline z; mret (z, true)
    | None => mret (z, false)
    end.

(** [ProxiedSleep::drop]: what is still registered goes to the disposer. *)
Definition sleep_drop (z : ProxiedSleep) : Prog ProxiedSleep := sleep_retire WakerAction.Run z.
End proxies.

(** ** Waker proxies lose no wake and leak no waker *)

Section props.
Context {R X : Type} `{!Target R X}.
Local Abbreviation Scene := (@Scene X).
Local Abbreviation Prog := (Prog Scene).
Local Abbreviation outside := (outside (R := R) (X := X)).
Definition no_panic (message : string) : Prop := False.
Definition no_abort (s : Scene) : Prop := False.
Local Abbreviation wp := (wp outside no_panic no_abort).
Implicit Types (s : Scene) (w : Waker).

(** ** The invariant *)

Definition rings (k : nat) (l : list nat) : Z := Z.of_nat (count_occ Nat.eq_dec l k).

(** The poll whose proxy is [cur] is between two steps, holding [extra] clones:
    every clone is held, in a slot, or has had its effect; only the current
    proxy's slot is full; the counters count. *)
Record sound (cur : option nat) (extra : list Waker) s : Prop := mkSound
  { so_conserved : clones s ≡ₚ extra ++ (effects s).*1 ++ omap caller (regs s);
    so_retired : forall k r, regs s !! k = Some r -> caller r ≠ None -> cur = Some k;
    so_counted : forall k r, regs s !! k = Some r -> wakes r = rings k (rang s) mod 2 ^ 64;
    so_live : forall k, cur = Some k -> is_Some (regs s !! k);
    so_rang : forall k, k ∈ rang s -> is_Some (regs s !! k) }.

Lemma slots_set (l : list Registration) k r :
  l !! k = Some r -> exists rest, omap caller l ≡ₚ option_list (caller r) ++ rest /\
    forall r', omap caller (<[k:=r']> l) ≡ₚ option_list (caller r') ++ rest.
Proof.
  intros Hk. exists (omap caller (take k l ++ drop (S k) l)). split.
  - rewrite <- (take_drop_middle l k r Hk) at 1. rewrite !omap_app. simpl. destruct (caller r); simpl; solve_Permutation.
  - intros r'. rewrite insert_take_drop by (by eapply lookup_lt_Some). rewrite !omap_app. simpl.
    destruct (caller r'); simpl; solve_Permutation.
Qed.

(** A slot changes hands under the mutex, its wakers going to effects. *)
Lemma sound_set cur extra extra' s k r r' fx :
  sound cur extra s -> regs s !! k = Some r -> wakes r' = wakes r ->
  extra ++ option_list (caller r) ≡ₚ extra' ++ fx.*1 ++ option_list (caller r') ->
  (caller r' ≠ None -> cur = Some k) ->
  sound cur extra' (set_reg k r' fx s).
Proof.
  intros [Hc Hr Hn Hl Hg] Hk Hw Hm Hcur. destruct (slots_set _ _ _ Hk) as (rest & H1 & H2).
  pose proof (lookup_lt_Some _ _ _ Hk) as Hlt. split; simpl.
  - rewrite Hc, H1, H2, fmap_app. transitivity ((extra ++ option_list (caller r)) ++ (effects s).*1 ++ rest); [solve_Permutation|].
    rewrite Hm. solve_Permutation.
  - intros k' r1. destruct (decide (k' = k)) as [->|Hne]; [rewrite list_lookup_insert_eq by done; naive_solver|].
    rewrite list_lookup_insert_ne by done. apply Hr.
  - intros k' r1. destruct (decide (k' = k)) as [->|Hne].
    + rewrite list_lookup_insert_eq by done. intros [= <-]. rewrite Hw. by apply Hn.
    + rewrite list_lookup_insert_ne by done. apply Hn.
  - intros k' Hk'. apply lookup_lt_is_Some. rewrite length_insert. by apply lookup_lt_is_Some, Hl.
  - intros k' Hk'. apply lookup_lt_is_Some. rewrite length_insert. by apply lookup_lt_is_Some, Hg.
Qed.

Lemma rings_snoc k l k' : rings k (l ++ [k']) = rings k l + (if decide (k' = k) then 1 else 0).
Proof.
  unfold rings. rewrite count_occ_app, Nat2Z.inj_add. simpl. destruct (Nat.eq_dec k' k), (decide (k' = k)); done.
Qed.

Lemma sound_ring cur extra s k : sound cur extra s -> sound cur extra (ring k s).
Proof.
  intros Hs. unfold ring. destruct (regs s !! k) as [r|] eqn:Hk; [|done]. unfold wake_by_ref.
  destruct (slot_take (caller r) WakerAction.Wake []) as [slot fx] eqn:Et.
  assert (slot = None /\ fx.*1 = option_list (caller r)) as [-> Hfx] by (unfold slot_take in Et; destruct (caller r); by simplify_eq).
  pose proof (sound_set cur extra extra s k r (mkRegistration None (wakes r)) fx Hs Hk eq_refl) as H.
  destruct H as [Hc Hr Hn Hl Hg]; [by rewrite Hfx, app_nil_r|done|]. simpl in *. pose proof (lookup_lt_Some _ _ _ Hk) as Hlt.
  destruct (slots_set _ _ _ Hk) as (rest & _ & H2).
  split; simpl.
  - rewrite Hc. by rewrite !H2.
  - intros k' r1. destruct (decide (k' = k)) as [->|Hne]; [rewrite list_lookup_insert_eq by done; naive_solver|].
    intros H. apply (Hr k' r1). by rewrite list_lookup_insert_ne in H |- *.
  - intros k' r1. rewrite rings_snoc. destruct (decide (k = k')) as [<-|Hne].
    + rewrite list_lookup_insert_eq by done. intros [= <-]. simpl. rewrite (so_counted _ _ _ Hs k r Hk), Zplus_mod_idemp_l. done.
    + rewrite list_lookup_insert_ne by done. rewrite Z.add_0_r. apply (so_counted _ _ _ Hs).
  - intros k' Hk'. apply lookup_lt_is_Some. rewrite length_insert. by apply lookup_lt_is_Some, (so_live _ _ _ Hs).
  - intros k' [Hk'|Hk'%list_elem_of_singleton]%elem_of_app.
    + apply lookup_lt_is_Some. rewrite length_insert. by apply lookup_lt_is_Some, (so_rang _ _ _ Hs).
    + subst k'. apply lookup_lt_is_Some. by rewrite length_insert.
Qed.
Lemma sound_outside cur extra s s' : outside s s' -> sound cur extra s -> sound cur extra s'.
Proof. destruct 1; intros Hs; [by destruct Hs|apply sound_ring; by destruct Hs|by apply sound_ring]. Qed.
Lemma sound_rtc cur extra s s' : rtc outside s s' -> sound cur extra s -> sound cur extra s'.
Proof. induction 1; eauto using sound_outside. Qed.

(** ** The caller is armed *)

(** Since the first [n] effects, [w] was woken; or it is in the slot of [k]. *)
Definition was_woken (n : nat) w s : Prop := (w, WakerAction.Wake) ∈ drop n (effects s).
Definition installed w (k : nat) s : Prop := exists r, regs s !! k = Some r /\ caller r = Some w.
Definition owed (n : nat) w k s : Prop := was_woken n w s \/ installed w k s.

(** The primitive will wake the proxy, or a wake is on its way. *)
Definition armed (n : nat) w k s : Prop :=
  was_woken n w s \/
  installed w k s /\ if t_ready (target s) then k ∈ flight s else t_waits (target s) = Some (ProxyHandle k).

Definition grown s s' : Prop := exists fx l, effects s' = effects s ++ fx /\ rang s' = rang s ++ l.
Lemma grown_refl s : grown s s.
Proof. exists [], []. by rewrite !app_nil_r. Qed.
Lemma grown_trans s1 s2 s3 : grown s1 s2 -> grown s2 s3 -> grown s1 s3.
Proof. intros (a & l & H1 & H2) (b & m & H3 & H4). exists (a ++ b), (l ++ m). by rewrite H3, H4, H1, H2, !app_assoc. Qed.
Lemma grown_ring k s : grown s (ring k s).
Proof.
  unfold ring. destruct (regs s !! k); [|apply grown_refl]. destruct (wake_by_ref _) as [r' fx]. by exists fx, [k].
Qed.
Lemma grown_outside s s' : outside s s' -> grown s s'.
Proof.
  destruct 1 as [s x' _|s k l1 l2 _|s k]; [exact (grown_refl s)| |apply grown_ring].
  exact (grown_ring k (mkScene (target s) (regs s) (l1 ++ l2) (effects s) (rang s) (clones s))).
Qed.
Lemma grown_rtc s s' : rtc outside s s' -> grown s s'.
Proof. induction 1; eauto using grown_refl, grown_trans, grown_outside. Qed.

Lemma was_woken_grown n w s s' : grown s s' -> was_woken n w s -> was_woken n w s'.
Proof.
  intros (fx & _ & He & _) H. unfold was_woken in *. rewrite He. destruct (decide (n <= length (effects s))%nat).
  - rewrite drop_app_le by done. apply elem_of_app. by left.
  - rewrite drop_ge in H by lia. by apply not_elem_of_nil in H.
Qed.
Lemma woken_by n w s fx s' :
  effects s' = effects s ++ fx -> (w, WakerAction.Wake) ∈ fx -> (n <= length (effects s))%nat -> was_woken n w s'.
Proof. intros He Hw Hn. unfold was_woken. rewrite He, drop_app_le by done. apply elem_of_app. by right. Qed.

Lemma ring_owed n w k k' s : (n <= length (effects s))%nat -> owed n w k s -> owed n w k (ring k' s).
Proof.
  intros Hn [H|(r & Hk & Hw)]; [left; by eapply was_woken_grown, H; apply grown_ring|].
  unfold ring. destruct (regs s !! k') as [r'|] eqn:Hk'; [|right; by exists r]. unfold wake_by_ref.
  destruct (decide (k' = k)) as [->|Hne].
  - simplify_eq. rewrite Hw. simpl. left. eapply woken_by; [done|by left|done].
  - destruct (slot_take (caller r') WakerAction.Wake []) as [slot fx]. right. exists r. simpl.
    by rewrite list_lookup_insert_ne.
Qed.
Lemma owed_outside n w k s s' : outside s s' -> (n <= length (effects s))%nat -> owed n w k s -> owed n w k s'.
Proof. destruct 1; intros Hn Ho; [done|by apply ring_owed|by apply ring_owed]. Qed.
Lemma grown_length n s s' : grown s s' -> (n <= length (effects s))%nat -> (n <= length (effects s'))%nat.
Proof. intros (fx & l & -> & _). rewrite length_app. lia. Qed.
Lemma owed_rtc n w k s s' : rtc outside s s' -> (n <= length (effects s))%nat -> owed n w k s -> owed n w k s'.
Proof.
  induction 1 as [|s s1 s' H _ IH]; [done|]. intros Hn Ho. apply IH; [|by eapply owed_outside].
  by eapply grown_length, Hn; apply grown_outside.
Qed.

Lemma armed_outside n w k s s' :
  outside s s' -> (n <= length (effects s))%nat -> armed n w k s -> armed n w k s'.
Proof.
  intros H Hn [Hw|[Hi Ht]]; [left; by eapply was_woken_grown, Hw; apply grown_outside|].
  assert (Ho : owed n w k s') by (eapply owed_outside; [done|done|by right]).
  destruct Ho as [Ho|Ho]; [by left|]. right. split; [done|].
  assert (Hr : forall j s0, target (ring j s0) = target s0 /\ flight (ring j s0) = flight s0).
  { intros j s0. unfold ring. destruct (regs s0 !! j); [|done]. by destruct (wake_by_ref _). }
  destruct H as [s x' Hm|s j l1 l2 Hf|s j]; simpl in *.
  - destruct (t_ready (target s)) eqn:E.
    + rewrite (moves_ready _ _ Hm E). apply elem_of_app. by left.
    + destruct (t_ready x') eqn:E'.
      * unfold issued. rewrite Ht, E', E. apply elem_of_app. right. by left.
      * by rewrite (moves_waits _ _ Hm E').
  - destruct (Hr j (mkScene (target s) (regs s) (l1 ++ l2) (effects s) (rang s) (clones s))) as [-> ->]. simpl.
    destruct (t_ready (target s)); [|done]. rewrite Hf in Ht.
    destruct (decide (j = k)) as [->|Hne]; [|set_solver]. exfalso. destruct Hi as (r & Hk & Hw), Ho as (r' & Hk' & Hw').
    unfold ring in Hk'. simpl in Hk'. rewrite Hk in Hk'. unfold wake_by_ref in Hk'. rewrite Hw in Hk'. simpl in Hk'.
    rewrite list_lookup_insert_eq in Hk' by (by eapply lookup_lt_Some). by simplify_eq.
  - destruct (Hr j s) as [-> ->]. done.
Qed.
Lemma armed_rtc n w k s s' : rtc outside s s' -> (n <= length (effects s))%nat -> armed n w k s -> armed n w k s'.
Proof.
  induction 1 as [|s s1 s' H _ IH]; [done|]. intros Hn Ha. apply IH; [|by eapply armed_outside].
  by eapply grown_length, Hn; apply grown_outside.
Qed.

(** ** The owner's steps *)

(** Another clone is held. *)
Lemma sound_clone cur extra s w :
  sound cur extra s -> sound cur (w :: extra) (mkScene (target s) (regs s) (flight s) (effects s) (rang s) (clones s ++ [w])).
Proof. intros [Hc Hr Hn Hl Hg]. split; simpl; try done. rewrite Hc. solve_Permutation. Qed.

(** The second critical section of a registration, and whether a wake fell into
    the window before it. *)
Lemma install_step k w s r observed :
  sound (Some k) [w] s -> regs s !! k = Some r ->
  exists slot fx, (let '(slot, fx) := slot_replace (caller r) w [] in
      if wakes r =? observed then (slot, fx) else slot_take slot WakerAction.Wake fx) = (slot, fx) /\
    sound (Some k) [] (set_reg k (mkRegistration slot (wakes r)) fx s) /\
    if wakes r =? observed then slot = Some w else (w, WakerAction.Wake) ∈ fx.
Proof.
  intros Hs Hk.
  assert (exists fx, slot_replace (caller r) w [] = (Some w, fx) /\ fx.*1 = option_list (caller r)) as (fx & -> & Hfx)
    by (unfold slot_replace; destruct (caller r); eauto).
  destruct (wakes r =? observed); eexists _, _; (split; [reflexivity|]); (split; [|try done]).
  - eapply sound_set; [exact Hs|done|done| |done]. rewrite Hfx. simpl. solve_Permutation.
  - eapply sound_set; [exact Hs|done|done| |done]. rewrite fmap_app, Hfx. simpl. solve_Permutation.
  - apply elem_of_app. right. by left.
Qed.

Lemma wp_install k w observed n s :
  sound (Some k) [] s -> (n <= length (effects s))%nat ->
  wp (install k w observed) (fun _ s' => sound (Some k) [] s' /\ grown s s' /\ owed n w k s') s.
Proof.
  intros Hs Hn. apply wp_seq, wp_atom. intros s1 He. apply (sound_rtc _ _ _ _ He), sound_clone with (w := w) in Hs.
  pose proof (grown_rtc _ _ He) as Hg. set (s2 := mkScene _ _ _ _ _ (clones s1 ++ [w])) in *.
  assert (Hg2 : grown s s2) by exact Hg. clearbody s2. apply wp_atom. intros s3 He3. apply (sound_rtc _ _ _ _ He3) in Hs.
  pose proof (grown_trans _ _ _ Hg2 (grown_rtc _ _ He3)) as Hg3. destruct (so_live _ _ _ Hs k eq_refl) as [r Hk].
  unfold registration. rewrite Hk. cbn [expect mbind outcome_bind].
  destruct (install_step k w s3 r observed Hs Hk) as (slot & fx & E & Hs' & Hw).
  destruct (slot_replace (caller r) w []) as [slot0 fx0]. rewrite E.
  split; [done|]. split; [eapply grown_trans; [done|]; exists fx, []; by rewrite app_nil_r|].
  destruct (wakes r =? observed).
  - right. eexists. split; [simpl; by rewrite list_lookup_insert_eq by (by eapply lookup_lt_Some)|done].
  - left. eapply woken_by; [done|done|]. by eapply grown_length.
Qed.

Lemma wp_register k w n s :
  sound (Some k) [] s -> (n <= length (effects s))%nat ->
  wp (register k w) (fun _ s' => sound (Some k) [] s' /\ grown s s' /\ owed n w k s') s.
Proof.
  intros Hs Hn. apply wp_seq, wp_atom. intros s1 He. apply (sound_rtc _ _ _ _ He) in Hs.
  pose proof (grown_rtc _ _ He) as Hg. destruct (so_live _ _ _ Hs k eq_refl) as [r Hk].
  unfold registration. rewrite Hk. cbn [expect mbind outcome_bind]. destruct (will_wake (caller r) w) eqn:Ew.
  - apply wp_done. split; [done|]. split; [done|]. right. exists r. split; [done|].
    unfold will_wake in Ew. destruct (caller r) as [w'|]; simpl in Ew; [|done]. f_equal. lia.
  - eapply wp_weaken; [apply wp_install; [done|by eapply grown_length]|]. intros [] s2 (? & ? & ?).
    split_and!; [done|by eapply grown_trans|done].
Qed.

Lemma wp_retire_proxy k a s :
  sound (Some k) [] s ->
  wp (retire_proxy k a) (fun _ s' => sound None [] s' /\ sound (Some k) [] s' /\ grown s s') s.
Proof.
  intros Hs. apply wp_atom. intros s1 He. apply (sound_rtc _ _ _ _ He) in Hs. pose proof (grown_rtc _ _ He) as Hg.
  destruct (so_live _ _ _ Hs k eq_refl) as [r Hk]. unfold registration. rewrite Hk. cbn [expect mbind outcome_bind].
  destruct (slot_take (caller r) a []) as [slot fx] eqn:Et.
  assert (slot = None /\ fx.*1 = option_list (caller r)) as [-> Hfx] by (unfold slot_take in Et; destruct (caller r); by simplify_eq).
  assert (Hs' : sound (Some k) [] (set_reg k (mkRegistration None (wakes r)) fx s1)).
  { eapply sound_set; [done|done|done| |done]. by rewrite Hfx, app_nil_r. }
  split; [|split; [done|eapply grown_trans; [done|]; exists fx, []; by rewrite app_nil_r]].
  destruct Hs' as [Hc Hr Hn Hl Hgo]. split; try done. intros k' r' Hk' Hne. specialize (Hr k' r' Hk' Hne). simplify_eq.
  simpl in Hk'. rewrite list_lookup_insert_eq in Hk' by (by eapply lookup_lt_Some). by simplify_eq.
Qed.
Lemma wp_retire a p s :
  sound p [] s -> wp (retire a p) (fun p' s' => p' = None /\ sound None [] s') s.
Proof.
  destruct p as [k|]; [|by intros Hs]. intros Hs. apply wp_seq. eapply wp_weaken; [by apply wp_retire_proxy|].
  intros [] s1 (_ & Hs1 & _). apply wp_seq. eapply wp_weaken; [by apply wp_retire_proxy|]. intros [] s2 (Hs2 & _ & _).
  by apply wp_done.
Qed.

(** A poll that parks leaves its caller armed; one that is ready leaves no
    waker behind. *)
Definition poll_post (n : nat) w (y : option nat * option R) s : Prop :=
  sound y.1 [] s /\
  match y.2 with
  | Some _ => y.1 = None
  | None => (n <= length (effects s))%nat /\ exists k, y.1 = Some k /\ armed n w k s
  end.

Lemma sound_target cur extra s x :
  sound cur extra s -> sound cur extra (mkScene x (regs s) (flight s) (effects s) (rang s) (clones s)).
Proof. by intros [Hc Hr Hn Hl Hg]. Qed.

Lemma wp_behind_proxy k w n s :
  sound (Some k) [] s -> (n <= length (effects s))%nat ->
  wp (_ ← register k w; r ← poll_target (ProxyHandle k); mret (Some k, r))
    (fun y s' => y.1 = Some k /\ sound (Some k) [] s' /\ (n <= length (effects s'))%nat /\ (y.2 = None -> armed n w k s')) s.
Proof.
  intros Hs Hn. apply wp_seq. eapply wp_weaken; [by apply wp_register|]. intros [] s1 (Hs1 & Hg1 & Ho).
  apply wp_seq, wp_atom. intros s2 He. apply (sound_rtc _ _ _ _ He) in Hs1.
  apply (owed_rtc _ _ _ _ _ He) in Ho; [|by eapply grown_length]. destruct (t_poll (ProxyHandle k) (target s2)) as [r x] eqn:Ep.
  apply wp_done. split; [done|]. split; [by apply sound_target|].
  split; [simpl; eapply grown_length; [by apply grown_rtc|]; by eapply grown_length|]. simpl. intros ->.
  apply poll_pending in Ep as [Hnr Hwt]. destruct Ho as [Ho|Ho]; [by left|]. right. split; [done|]. simpl. by rewrite Hnr.
Qed.

Lemma sound_new p s :
  sound p [] s ->
  sound (Some (length (regs s))) []
    (mkScene (target s) (regs s ++ [registration_default]) (flight s) (effects s) (rang s) (clones s)) \/ p ≠ None.
Proof.
  destruct p as [k|]; [by right|]. intros [Hc Hr Hn Hl Hg]. left. split; simpl.
  - rewrite Hc, omap_app. simpl. by rewrite app_nil_r.
  - intros k r. rewrite lookup_app. destruct (regs s !! k) as [r'|] eqn:Hk.
    + intros [= <-] Hne. by specialize (Hr k r' Hk Hne).
    + intros Hx. apply list_lookup_singleton_Some in Hx as [_ <-]. done.
  - intros k r. rewrite lookup_app. destruct (regs s !! k) as [r'|] eqn:Hk.
    + intros [= <-]. by apply Hn.
    + intros Hx. apply list_lookup_singleton_Some in Hx as [Hx <-].
      assert (k ∉ rang s) as Hnr by (intros [? ?]%Hg; congruence).
      unfold rings. rewrite (proj1 (count_occ_not_In _ _ _)); [done|]. by rewrite <- list_elem_of_In.
  - intros k [= <-]. rewrite lookup_app_r by done. by rewrite Nat.sub_diag.
  - intros k Hk. apply lookup_lt_is_Some. rewrite length_app. apply Hg, lookup_lt_is_Some in Hk. lia.
Qed.

Lemma wp_poll w p n s :
  sound p [] s -> (n <= length (effects s))%nat -> wp (poll w p) (poll_post n w) s.
Proof.
  intros Hs Hn.
  assert (Hb : forall k s, sound (Some k) [] s -> (n <= length (effects s))%nat ->
    wp ('(p, r) ← (_ ← register k w; r ← poll_target (ProxyHandle k); mret (Some k, r));
        match r with
        | Some _ => p ← retire WakerAction.DropInline p; mret (p, r)
        | None => mret (p, r)
        end) (poll_post n w) s).
  { intros k s0 Hs0 Hn0. apply wp_seq. eapply wp_weaken; [by apply wp_behind_proxy|].
    intros [p' [r|]] s1 (Hp & Hs1 & Hn1 & Ha); simpl in Hp, Ha; subst p'.
    - apply wp_seq. eapply wp_weaken; [by apply wp_retire|]. intros p' s2 [-> Hs2]. apply wp_done. by split.
    - apply wp_done. split; [done|]. split; [done|]. exists k. auto. }
  destruct p as [k|]; [by apply Hb|]. unfold poll, poll_proxied. apply wp_seq, wp_seq, wp_seq, wp_atom.
  intros s1 He. apply (sound_rtc _ _ _ _ He) in Hs. pose proof (grown_rtc _ _ He) as Hg.
  destruct (t_poll Noop (target s1)) as [[r|] x] eqn:Ep.
  - apply wp_done, wp_done. by apply (sound_target _ _ _ x) in Hs.
  - apply wp_seq, wp_atom. intros s2 He2. apply (sound_target _ _ _ x), (sound_rtc _ _ _ _ He2) in Hs.
    destruct (sound_new _ _ Hs) as [Hs'|]; [|done]. apply wp_done, wp_unseq, (Hb (length (regs s2))); [done|]. simpl.
    apply (grown_length _ _ _ (grown_rtc _ _ He2)). simpl. by eapply grown_length.
Qed.

(** ** Histories *)

(** The states of one proxied primitive over its life: the poll with proxy [p]
    was polled and retired any number of times, among the steps of others. *)
Inductive used (x : X) : option nat -> Scene -> Prop :=
| used_new : used x None (mkScene x [] [] [] [] [])
| used_outside p s s' : used x p s -> outside s s' -> used x p s'
| used_poll w p s p' r s' : used x p s -> runs outside (poll w p) s (Returned (p', r) s') -> used x p' s'
| used_retire a p s p' s' : used x p s -> runs outside (retire a p) s (Returned p' s') -> used x p' s'.

Lemma used_sound x p s : used x p s -> sound p [] s.
Proof.
  induction 1 as [|p s s' _ IH H|w p s p' r s' _ IH H|a p s p' s' _ IH H].
  - split; simpl; try done. intros k Hk. by apply not_elem_of_nil in Hk.
  - by eapply sound_outside.
  - exact (proj1 (wp_runs _ _ _ _ _ _ _ (wp_poll w p 0 s IH (Nat.le_0_l _)) H)).
  - destruct (wp_runs _ _ _ _ _ _ _ (wp_retire a p s IH) H) as [-> ?]. done.
Qed.

Lemma sound_None s : sound None [] s -> omap caller (regs s) = [].
Proof.
  intros Hs. apply elem_of_nil_inv. intros w (r & Hr & Hw)%list_elem_of_omap.
  apply list_elem_of_lookup in Hr as [k Hk]. by specialize (so_retired _ _ _ Hs k r Hk ltac:(by rewrite Hw)).
Qed.

(** Fewer than 2^64 wakes move the counter, if there are any. *)
Lemma wakes_moved k l0 l :
  rings k l < 2 ^ 64 -> (rings k (l0 ++ l) mod 2 ^ 64 =? rings k l0 mod 2 ^ 64) = negb (bool_decide (k ∈ l)).
Proof.
  intros Hlt. assert (rings k (l0 ++ l) = rings k l0 + rings k l) as -> by (unfold rings; rewrite count_occ_app; lia).
  case_bool_decide as Hin; simpl.
  - apply Z.eqb_neq. apply list_elem_of_In, (count_occ_In Nat.eq_dec) in Hin. assert (0 < rings k l) by (unfold rings; lia).
    intros Hmod. rewrite <- Zplus_mod_idemp_l in Hmod. pose proof (Z.mod_pos_bound (rings k l0) (2 ^ 64) ltac:(lia)) as Hb.
    set (a := rings k l0 mod 2 ^ 64) in *. destruct (Z.lt_ge_cases (a + rings k l) (2 ^ 64)).
    + rewrite Z.mod_small in Hmod by lia. lia.
    + rewrite <- (Z_mod_plus_full _ (-1)), Z.mod_small in Hmod by lia. lia.
  - apply Z.eqb_eq. assert (rings k l = 0) as ->; [|by rewrite Z.add_0_r]. unfold rings.
    rewrite (proj1 (count_occ_not_In _ _ _)); [done|]. by rewrite <- list_elem_of_In.
Qed.

(** A wake that falls between the two critical sections of a registration is
    passed on to the caller being registered; if there was none, that caller is
    installed (the counter of wakes being 64 bits wide). *)
Theorem register_catches_wakes x k w r s e :
  used x (Some k) s -> regs s !! k = Some r -> runs outside (install k w (wakes r)) s e ->
  match e with
  | Returned _ s' => exists l, rang s' = rang s ++ l /\
      (rings k l < 2 ^ 64 -> if decide (k ∈ l) then was_woken (length (effects s)) w s' else installed w k s')
  | _ => False
  end.
Proof.
  intros Hs%used_sound Hk Hr. revert Hr. apply (wp_runs _ no_panic no_abort _ (fun _ s' => exists l, rang s' = rang s ++ l /\
    (rings k l < 2 ^ 64 -> if decide (k ∈ l) then was_woken (length (effects s)) w s' else installed w k s'))).
  pose proof (so_counted _ _ _ Hs k r Hk) as Hn.
  apply wp_seq, wp_atom. intros s1 He. apply (sound_rtc _ _ _ _ He), sound_clone with (w := w) in Hs.
  pose proof (grown_rtc _ _ He) as Hg. set (s2 := mkScene _ _ _ _ _ (clones s1 ++ [w])) in *.
  assert (Hg2 : grown s s2) by exact Hg. clearbody s2. apply wp_atom. intros s3 He3. apply (sound_rtc _ _ _ _ He3) in Hs.
  pose proof (grown_trans _ _ _ Hg2 (grown_rtc _ _ He3)) as Hg3. destruct (so_live _ _ _ Hs k eq_refl) as [r3 Hk3].
  unfold registration. rewrite Hk3. cbn [expect mbind outcome_bind].
  destruct (install_step k w s3 r3 (wakes r) Hs Hk3) as (slot & fx & E & Hs' & Hw).
  destruct (slot_replace (caller r3) w []) as [slot0 fx0]. rewrite E.
  destruct Hg3 as (fx3 & l & Hf & Hl). exists l. split; [done|]. intros Hlt.
  pose proof (so_counted _ _ _ Hs k r3 Hk3) as Hn3. rewrite Hl in Hn3.
  rewrite Hn3, Hn, wakes_moved in Hw by done. destruct (decide (k ∈ l)) as [Hin|Hin].
  - rewrite bool_decide_eq_true_2 in Hw by done. eapply woken_by; [done|done|]. rewrite Hf, length_app. lia.
  - rewrite bool_decide_eq_false_2 in Hw by done. eexists. split; [simpl; by rewrite list_lookup_insert_eq by (by eapply lookup_lt_Some)|done].
Qed.

(** ** [ProxiedSleep] *)

Definition sleep_ok (z : ProxiedSleep) s : Prop :=
  sound (timer_poll z) [] s /\ if sleep_completed z then timer_poll z = None else armed_timer z = true.

Lemma wp_sleep_retire a z s :
  sound (timer_poll z) [] s -> wp (sleep_retire a z) (fun z' s' => sleep_ok z' s' /\ sleep_completed z' = true) s.
Proof.
  intros Hs. apply wp_seq. eapply wp_weaken; [by apply wp_retire|]. intros p s' [-> Hs']. by apply wp_done.
Qed.

Lemma wp_sleep_poll w z s :
  sleep_ok z s ->
  wp (sleep_poll w z) (fun y s' => sleep_ok y.1 s' /\ sleep_completed y.1 = y.2 /\
    (y.2 = false -> exists k, timer_poll y.1 = Some k /\ armed (length (effects s)) w k s')) s.
Proof.
  intros [Hs Hz]. unfold sleep_poll. destruct (sleep_completed z) eqn:Ez.
  { apply wp_done. split_and!; simpl; [split; [done|by rewrite Ez]|done|done]. }
  rewrite Hz. apply wp_seq, wp_atom. intros s1 He. apply (sound_rtc _ _ _ _ He) in Hs.
  apply wp_seq. eapply wp_weaken; [apply (wp_poll w _ (length (effects s))); [done|by eapply grown_length; [by apply grown_rtc|]]|].
  intros [p [r|]] s2 [Hs2 Hp]; simpl in Hp.
  - apply wp_seq. eapply wp_weaken; [by apply wp_sleep_retire|]. intros z' s3 [Hz' Hc]. apply wp_done. by split_and!.
  - destruct Hp as (_ & k & -> & Ha). apply wp_done. split_and!; simpl; [by split|done|eauto].
Qed.
End props.

(** C38: a proxied poll loses no wake and keeps no waker.  Whatever wakes arrive
    between its steps, spurious ones and those of earlier proxies included, a
    poll that returns pending has its caller woken by the time its primitive is
    ready and no wake is under way; a poll that returns ready has emptied every
    slot, and each clone of a caller's waker has been woken or dropped; and no
    poll panics. *)
Theorem proxied_poll_loses_no_wake {R X} `{!Target R X} (x : X) w p (s : Scene) e :
  used x p s -> runs (outside (R := R)) (poll w p) s e ->
  match e with
  | Returned (p', Some _) s' =>
      p' = None /\ omap caller (regs s') = [] /\ clones s' ≡ₚ (effects s').*1
  | Returned (p', None) s' =>
      forall s2, rtc outside s' s2 -> t_ready (target s2) = true -> flight s2 = [] ->
        (w, WakerAction.Wake) ∈ drop (length (effects s)) (effects s2)
  | Panicked _ | Aborted _ => False
  end.
Proof.
  intros Hs%used_sound Hr. pose proof (wp_runs _ _ _ _ _ _ _ (wp_poll w p _ s Hs (le_n _)) Hr) as H.
  destruct e as [[p' [r|]] s'| |]; [| |done..].
  - destruct H as [Hs' Hp]. simpl in *. subst p'. pose proof (sound_None _ Hs') as Hn. split; [done|]. split; [done|].
    by rewrite (so_conserved _ _ _ Hs'), Hn, app_nil_r.
  - destruct H as [Hs' (Hn & k & _ & Ha)]. intros s2 He Hrd Hfl.
    destruct (armed_rtc _ _ _ _ _ He Hn Ha) as [|[_ Ht]]; [done|].
    rewrite Hrd, Hfl in Ht. by apply not_elem_of_nil in Ht.
Qed.

(** ** A primitive with the documented behaviour *)

Definition Bell : Type := bool * option Handle.
Definition bell_poll (h : Handle) (x : Bell) : option () * Bell :=
  if x.1 then (Some (), (true, None)) else (None, (false, Some h)).
Definition bell_moves (x x' : Bell) : Prop := x' = (true, x.2).

#[export] Instance bell_target : Target () Bell.
Proof.
  refine (mkTarget () Bell bell_poll bell_moves fst snd _ _ _).
  - intros h [[] o] x'; by intros [= <-].
  - by intros x x' ->.
  - by intros x x' ->.
Defined.

(** A caller parks, the primitive becomes ready, and its wake arrives. *)
Definition parked : @Scene Bell :=
  mkScene (false, Some (ProxyHandle 0)) [mkRegistration (Some 7) 0] [] [] [] [7].
Definition rung_scene : @Scene Bell :=
  mkScene (true, Some (ProxyHandle 0)) [mkRegistration None 1] [] [(7, WakerAction.Wake)] [0%nat] [7].

Lemma parked_rung : rtc (outside (R := ())) parked rung_scene.
Proof.
  eapply rtc_l; [by apply (outside_moves parked (true, Some (ProxyHandle 0)))|].
  eapply rtc_l; [by eapply (outside_arrives _ 0 [] [])|]. apply rtc_refl.
Qed.

Lemma proxied_poll_loses_no_wake_witness :
  solo (poll 7 None) (mkScene ((false, None) : Bell) [] [] [] [] []) = Returned (Some 0%nat, None) parked /\
  (7, WakerAction.Wake) ∈ drop 0 (effects rung_scene).
Proof.
  split; [reflexivity|].
  apply (proxied_poll_loses_no_wake ((false, None) : Bell) 7 None (mkScene (false, None) [] [] [] [] [])
    (Returned (Some 0%nat, None) parked)).
  - apply used_new.
  - exact (solo_runs outside (poll 7 None) (mkScene ((false, None) : Bell) [] [] [] [] [])).
  - apply parked_rung.
  - reflexivity.
  - reflexivity.
Defined.
