(* ===== verification/Gate.v ===== *)
(** * Observation gates and transactions

    [crates/shelterwood/src/cells/gate.rs], the unwinding vocabulary of
    [crates/shelterwood-core/src/panic.rs] it commits with, and the gate
    capture loops of [crates/shelterwood/src/cells/member.rs].

    A transaction collects the work its writers owe after the gate is
    unlocked; dropping it installs the staged snapshots, releases the gate and
    then performs that work, containing every panic on the way.  The second
    part models the capture, lock and re-check loops by which threads agree on
    the gate of one member while a handoff may replace it. *)

From S2P Require Import Prelude.

(** ** Panic precedence ([shelterwood-core/src/panic.rs]) *)

Module Panic.
Section panics.
Context {P : Type}.

Record UnwindPanics := mkUnwindPanics { primary : option P; cleanup : option P }.

Definition keep_first_panic (first candidate : option P) : option P :=
  match first with None => candidate | Some _ => first end.

(** The payload that unwinds out of the boundary, if any. *)
Definition resume_preferred_panic (panicking : bool) (p : UnwindPanics) : option P :=
  if panicking then None
  else match primary p with
       | Some payload => Some payload
       | None => cleanup p
       end.

Record PanicAccumulator := mkAccumulator { first : option P }.

Definition accumulator_default : PanicAccumulator := mkAccumulator None.

Definition record (a : PanicAccumulator) (candidate : option P) : PanicAccumulator :=
  mkAccumulator (keep_first_panic (first a) candidate).

Definition take (a : PanicAccumulator) : option P * PanicAccumulator :=
  (first a, mkAccumulator None).

Definition drop_accumulator (panicking : bool) (a : PanicAccumulator) : option P :=
  resume_preferred_panic panicking (mkUnwindPanics None (first a)).

End panics.
Arguments UnwindPanics : clear implicits.
Arguments PanicAccumulator : clear implicits.
End Panic.
Import Panic (PanicAccumulator, accumulator_default, keep_first_panic, drop_accumulator,
  resume_preferred_panic).

(** ** Transactions *)

(** What the transaction needs of a staged snapshot and of deferred work: [W]
    is the state both act on, [E] the deferred operations.  An effect may
    panic; an installation may trip an invariant before it changes anything. *)
Class CellEffects (W E Pub : Type) := {
  same_hub : Pub -> Pub -> bool;
  (** the updated publication and the release of the superseded producer *)
  coalesce : Pub -> Pub -> Pub * E;
  install : Pub -> W -> outcome (list E * W);
  (** releasing an attempted publication *)
  spent : Pub -> E;
  perform : E -> W -> option string * W }.

Section txn.
Context {W E Pub : Type} `{!CellEffects W E Pub}.

(** The operations a writer hands to its transaction. *)
Inductive Deferred :=
| Defer (e : E)
| DeferSurrender (e : E)
| RetainShared (release : E).

Record ObservationTxn := mkTxn
  { guard : bool;
    effects : list E;
    surrender_effects : list E;
    snapshots : list Pub;
    shared_releases : list E }.

Definition txn_new : ObservationTxn := mkTxn true [] [] [] [].

Definition defer (e : E) (t : ObservationTxn) : ObservationTxn :=
  mkTxn (guard t) (effects t ++ [e]) (surrender_effects t) (snapshots t) (shared_releases t).

Definition defer_surrender (e : E) (t : ObservationTxn) : ObservationTxn :=
  mkTxn (guard t) (effects t) (surrender_effects t ++ [e]) (snapshots t) (shared_releases t).

Definition retain_shared (e : E) (t : ObservationTxn) : ObservationTxn :=
  mkTxn (guard t) (effects t) (surrender_effects t) (snapshots t) (shared_releases t ++ [e]).

Definition absorb (t : ObservationTxn) (d : Deferred) : ObservationTxn :=
  match d with
  | Defer e => defer e t
  | DeferSurrender e => defer_surrender e t
  | RetainShared e => retain_shared e t
  end.

(** [iter_mut().find(same_hub)]: the first staged publication of the hub is
    coalesced in place. *)
Fixpoint coalesce_first (staged : list Pub) (p : Pub) : option (list Pub * E) :=
  match staged with
  | [] => None
  | s :: rest =>
      if same_hub s p then let '(s', retired) := coalesce s p in Some (s' :: rest, retired)
      else match coalesce_first rest p with
           | Some (rest', retired) => Some (s :: rest', retired)
           | None => None
           end
  end.

Definition stage_snapshot (p : Pub) (t : ObservationTxn) : ObservationTxn :=
  match coalesce_first (snapshots t) p with
  | Some (staged, retired) =>
      defer retired
        (mkTxn (guard t) (effects t) (surrender_effects t) staged (shared_releases t))
  | None =>
      mkTxn (guard t) (effects t) (surrender_effects t) (snapshots t ++ [p]) (shared_releases t)
  end.

(** The installation loop of [commit], under the gate. *)
Fixpoint install_all (ps : list Pub) (a : PanicAccumulator string) (fx : list E) (w : W)
  : outcome (PanicAccumulator string * list E * W) :=
  match ps with
  | [] => Ret (a, fx, w)
  | p :: ps =>
      match install p w with
      | Ret (owed, w) => install_all ps a (fx ++ owed ++ [spent p]) w
      | Panics m => install_all ps (Panic.record a (Some m)) (fx ++ [spent p]) w
      | ProcessAborts => ProcessAborts
      end
  end.

(** [panics.run(effect)] over a list: the operations performed, in order. *)
Fixpoint run_effects (es : list E) (a : PanicAccumulator string) (w : W)
  : list E * PanicAccumulator string * W :=
  match es with
  | [] => ([], a, w)
  | e :: es =>
      let '(panic, w) := perform e w in
      let '(done, a, w) := run_effects es (Panic.record a panic) w in
      (e :: done, a, w)
  end.

Record Commit := mkCommit { performed : list E; resumed : option string; world : W }.

(** [commit], and the accumulator's drop at its end; [panicking] is whether
    the thread is already unwinding. *)
Definition commit (panicking : bool) (t : ObservationTxn) (w : W) : outcome Commit :=
  '(a, fx, w) ← install_all (snapshots t) accumulator_default (effects t) w;
  let '(done1, a, w) := run_effects (surrender_effects t ++ fx) a w in
  let '(done2, a, w) := run_effects (shared_releases t) a w in
  Ret (mkCommit (done1 ++ done2) (drop_accumulator panicking a) w).

Lemma run_effects_all es a w : (run_effects es a w).1.1 = es.
Proof.
  revert a w; induction es as [|e es IH]; intros a w; simpl; [done|].
  destruct (perform e w) as [panic w'].
  specialize (IH (Panic.record a panic) w'). by destruct run_effects as [[d a'] w'']; simpl in *; subst.
Qed.

(** The panics a list of operations would raise in turn. *)
Fixpoint panics_of (es : list E) (w : W) : list (option string) :=
  match es with
  | [] => []
  | e :: es => let '(p, w) := perform e w in p :: panics_of es w
  end.

Definition first_panic (ps : list (option string)) : option string :=
  foldr keep_first_panic None ps.

Lemma keep_first_assoc {P} (a b c : option P) :
  keep_first_panic a (keep_first_panic b c) = keep_first_panic (keep_first_panic a b) c.
Proof. by destruct a. Qed.

Lemma run_effects_first es a w :
  Panic.first (run_effects es a w).1.2 = keep_first_panic (Panic.first a) (first_panic (panics_of es w)).
Proof.
  revert a w; induction es as [|e es IH]; intros a w; simpl; [by destruct (Panic.first a)|].
  destruct (perform e w) as [panic w']. specialize (IH (Panic.record a panic) w').
  destruct run_effects as [[d a'] w'']; simpl in *. by rewrite IH, keep_first_assoc.
Qed.

Lemma run_effects_app es es' a w :
  run_effects (es ++ es') a w =
  let '(d, a, w) := run_effects es a w in
  let '(d', a, w) := run_effects es' a w in (d ++ d', a, w).
Proof.
  revert a w; induction es as [|e es IH]; intros a w; simpl.
  - by destruct run_effects as [[??]?].
  - destruct (perform e w) as [p w']. rewrite IH.
    destruct (run_effects es) as [[??]?]. by destruct run_effects as [[??]?].
Qed.

Lemma run_effects_world es a w : (run_effects es a w).2 = foldl (fun w e => (perform e w).2) w es.
Proof.
  revert a w; induction es as [|e es IH]; intros a w; simpl; [done|].
  destruct (perform e w) as [panic w']. specialize (IH (Panic.record a panic) w').
  by destruct run_effects as [[??]?].
Qed.

(** What attempting every staged publication in turn gives: an installation
    returns what it owes, or trips an invariant and changes nothing. *)
Inductive attempted : list Pub -> W -> list (Pub * (string + list E)) -> W -> Prop :=
| attempted_none w : attempted [] w [] w
| attempted_installed p ps w owed w1 rs w' :
    install p w = Ret (owed, w1) -> attempted ps w1 rs w' ->
    attempted (p :: ps) w ((p, inr owed) :: rs) w'
| attempted_tripped p ps w m rs w' :
    install p w = Panics m -> attempted ps w rs w' ->
    attempted (p :: ps) w ((p, inl m) :: rs) w'.

(** An attempt owes what its installation returned and the release of its
    publication. *)
Definition attempt_owes (r : Pub * (string + list E)) : list E :=
  match r.2 with inr owed => owed | inl _ => [] end ++ [spent r.1].
Definition attempt_panic (r : Pub * (string + list E)) : option string :=
  match r.2 with inl m => Some m | inr _ => None end.

(** Every operation a transaction owes after its installations. *)
Definition owed (rs : list (Pub * (string + list E))) (t : ObservationTxn) : list E :=
  surrender_effects t ++ effects t ++ (rs ≫= attempt_owes) ++ shared_releases t.

Lemma first_panic_app l l' : first_panic (l ++ l') = keep_first_panic (first_panic l) (first_panic l').
Proof. induction l as [|x l IH]; simpl; [done|]. unfold first_panic in *. by rewrite IH, keep_first_assoc. Qed.

Lemma install_all_attempts ps a fx w a' fx' w' :
  install_all ps a fx w = Ret (a', fx', w') ->
  exists rs, attempted ps w rs w' /\ fx' = fx ++ (rs ≫= attempt_owes) /\
    Panic.first a' = keep_first_panic (Panic.first a) (first_panic (attempt_panic <$> rs)).
Proof.
  revert a fx w. induction ps as [|p ps IH]; intros a fx w H; simpl in H.
  { simplify_eq. exists []. split_and!; [constructor|by rewrite app_nil_r|by destruct (Panic.first a')]. }
  destruct (install p w) as [[o w1]|m|] eqn:Ei; [| |done];
    apply IH in H as (rs & Hrs & -> & ->).
  - exists ((p, inr o) :: rs). split_and!; [by econstructor| |done]. unfold attempt_owes at 2. simpl. by rewrite !app_assoc.
  - exists ((p, inl m) :: rs). split_and!; [by econstructor| |].
    + unfold attempt_owes at 2. simpl. by rewrite <- app_assoc.
    + simpl. by rewrite <- keep_first_assoc.
Qed.

Lemma install_all_outcome ps a fx w :
  (forall m, install_all ps a fx w ≠ Panics m) /\
  (install_all ps a fx w = ProcessAborts -> exists p w', p ∈ ps /\ install p w' = ProcessAborts).
Proof.
  revert a fx w. induction ps as [|p ps IH]; intros a fx w; simpl; [done|].
  destruct (install p w) as [[o w1]|m|] eqn:Ei.
  - destruct (IH a (fx ++ o ++ [spent p]) w1) as [? Ha]. split; [done|]. intros (q & w2 & ? & ?)%Ha.
    exists q, w2. split; [by right|done].
  - destruct (IH (Panic.record a (Some m)) (fx ++ [spent p]) w) as [? Ha]. split; [done|].
    intros (q & w2 & ? & ?)%Ha. exists q, w2. split; [by right|done].
  - split; [done|]. intros _. exists p, w. split; [by left|done].
Qed.

(** C21: a committed transaction strands nothing, whatever panics.  It attempts
    to install every staged publication in turn, a tripped one too, and then
    performs all it owes: first the surrenders, then its deferred effects, then
    what each installation owes with the release of each attempted publication,
    and the shared handles last.  Unless the thread was already unwinding, the
    panic that leaves it is the first one of all, an installation's before any
    other; it never panics in between, and does not return only when an
    installation aborts the process. *)
Theorem commit_strands_nothing panicking t w :
  (forall m, commit panicking t w ≠ Panics m) /\
  (commit panicking t w = ProcessAborts -> exists p w', p ∈ snapshots t /\ install p w' = ProcessAborts) /\
  (forall c, commit panicking t w = Ret c ->
   exists rs w', attempted (snapshots t) w rs w' /\
     performed c = owed rs t /\
     world c = foldl (fun w e => (perform e w).2) w' (owed rs t) /\
     resumed c = if panicking then None
                 else first_panic ((attempt_panic <$> rs) ++ panics_of (owed rs t) w')).
Proof.
  destruct (install_all_outcome (snapshots t) accumulator_default (effects t) w) as [Hp Ha].
  unfold commit. destruct (install_all _ _ _ _) as [[[a fx] w']|m|] eqn:Hi; simpl; [|by destruct (Hp m)|].
  2:{ split_and!; [done|auto|done]. }
  apply install_all_attempts in Hi as (rs & Hrs & -> & Hf).
  pose proof (run_effects_app (surrender_effects t ++ effects t ++ (rs ≫= attempt_owes)) (shared_releases t) a w') as Happ.
  destruct (run_effects (surrender_effects t ++ effects t ++ _) a w') as [[d1 a1] w1].
  destruct (run_effects (shared_releases t) a1 w1) as [[d2 a2] w2].
  rewrite <- !app_assoc in Happ. fold (owed rs t) in Happ.
  pose proof (run_effects_all (owed rs t) a w') as Hall.
  pose proof (run_effects_first (owed rs t) a w') as Hfirst.
  pose proof (run_effects_world (owed rs t) a w') as Hw.
  rewrite Happ in Hall, Hfirst, Hw. simpl in *. split_and!; [done..|]. intros c [= <-]. exists rs, w'.
  split_and!; [done..|]. unfold drop_accumulator, resume_preferred_panic. by rewrite first_panic_app, Hfirst, Hf.
Qed.

End txn.
Arguments Deferred : clear implicits.
Arguments ObservationTxn : clear implicits.
Arguments Commit : clear implicits.

(** ** Gate capture and handoff

    One member's gate pointer, the gates' mutexes, and the threads running
    [MemberCell::with_observation_txn_probed] or, already holding a
    destination gate, [MemberCell::with_handoff_gate]. *)

Module Handoff.
Local Open Scope nat_scope.

Inductive Pc :=
| Rest
| Captured (g : nat)                 (** the pointer read, the mutex not yet taken *)
| Locked (g : nat)                   (** the mutex taken, before the second read *)
| Operating (g : nat)                (** inside [operation] *)
| Carrying (dest : nat)              (** a handoff caller between attempts *)
| HandoffCaptured (dest g : nat)
| HandoffLocked (dest g : nat)
| Attempting (dest g : nat)          (** inside [attempt], before it installs *)
| Installed (dest g : nat).          (** inside [attempt], after it installs *)

(** [retries] counts the loop iterations of the current operation that found
    an obsolete gate; [stamp] is [installs] at its last capture. *)
Record Thread := mkThread { pc : Pc; retries : nat; stamp : nat }.

Record Sys := mkSys
  { cell_gate : nat;                 (** [MemberCell::observation_gate] *)
    holder : nat -> option nat;      (** the thread inside each mutex *)
    threads : nat -> Thread;
    installs : nat }.                (** pointer swaps so far *)

Definition acquire (g t : nat) (s : Sys) : Sys :=
  mkSys (cell_gate s) (fun h => if decide (h = g) then Some t else holder s h) (threads s)
    (installs s).
Definition release (g : nat) (s : Sys) : Sys :=
  mkSys (cell_gate s) (fun h => if decide (h = g) then None else holder s h) (threads s)
    (installs s).
Definition goto (t : nat) (th : Thread) (s : Sys) : Sys :=
  mkSys (cell_gate s) (holder s) (fun u => if decide (u = t) then th else threads s u)
    (installs s).

(** [MemberCell::install_observation_gate_locked]. *)
Definition install_observation_gate_locked (previous gate : nat) (s : Sys) : outcome Sys :=
  if decide (cell_gate s = previous) then
    Ret (mkSys gate (holder s) (threads s) (S (installs s)))
  else
    _ ← assert_that (bool_decide (cell_gate s = gate))
          "a resident member must share its tree observation gate";
    Ret s.

(** One step of thread [t]. *)
Inductive gate_step (t : nat) (s : Sys) : outcome Sys -> Prop :=
| step_capture r n :
    threads s t = mkThread Rest r n ->
    gate_step t s (Ret (goto t (mkThread (Captured (cell_gate s)) r (installs s)) s))
| step_lock g r n :
    threads s t = mkThread (Captured g) r n -> holder s g = None ->
    gate_step t s (Ret (goto t (mkThread (Locked g) r n) (acquire g t s)))
| step_enter g r n :
    threads s t = mkThread (Locked g) r n -> cell_gate s = g ->
    gate_step t s (Ret (goto t (mkThread (Operating g) r n) s))
| step_retry g r n :
    threads s t = mkThread (Locked g) r n -> cell_gate s <> g ->
    gate_step t s (Ret (goto t (mkThread Rest (S r) n) (release g s)))
| step_finish g r n :
    threads s t = mkThread (Operating g) r n ->
    gate_step t s (Ret (goto t (mkThread Rest 0 n) (release g s)))
| step_take_dest d n :
    threads s t = mkThread Rest 0 n -> holder s d = None ->
    gate_step t s (Ret (goto t (mkThread (Carrying d) 0 n) (acquire d t s)))
| step_drop_dest d r n :
    threads s t = mkThread (Carrying d) r n ->
    gate_step t s (Ret (goto t (mkThread Rest 0 n) (release d s)))
| step_shared d r n :
    threads s t = mkThread (Carrying d) r n -> cell_gate s = d ->
    gate_step t s (Ret (goto t (mkThread (Attempting d d) r n) s))
| step_handoff_capture d r n :
    threads s t = mkThread (Carrying d) r n -> cell_gate s <> d ->
    gate_step t s (Ret (goto t (mkThread (HandoffCaptured d (cell_gate s)) r (installs s)) s))
| step_handoff_lock d g r n :
    threads s t = mkThread (HandoffCaptured d g) r n -> holder s g = None ->
    gate_step t s (Ret (goto t (mkThread (HandoffLocked d g) r n) (acquire g t s)))
| step_handoff_enter d g r n :
    threads s t = mkThread (HandoffLocked d g) r n -> cell_gate s = g ->
    gate_step t s (Ret (goto t (mkThread (Attempting d g) r n) s))
| step_handoff_retry d g r n :
    threads s t = mkThread (HandoffLocked d g) r n -> cell_gate s <> g ->
    gate_step t s (Ret (goto t (mkThread (Carrying d) (S r) n) (release g s)))
| step_install d g r n :
    threads s t = mkThread (Attempting d g) r n -> d <> g ->
    gate_step t s (goto t (mkThread (Installed d g) r n) <$> install_observation_gate_locked g d s)
| step_decline d g r n :
    threads s t = mkThread (Attempting d g) r n ->
    gate_step t s (Ret (goto t (mkThread (Carrying d) 0 n)
                          (if decide (d = g) then s else release g s)))
| step_leave d g r n :
    threads s t = mkThread (Installed d g) r n ->
    gate_step t s (Ret (goto t (mkThread (Carrying d) 0 n) (release g s))).

Definition start : Sys := mkSys 0 (fun _ => None) (fun _ => mkThread Rest 0 0) 0.

Inductive reachable : Sys -> Prop :=
| reachable_start : reachable start
| reachable_step t s s' : reachable s -> gate_step t s (Ret s') -> reachable s'.

(** The gates a thread holds, the gate it believes current, and whether it may
    write the member's record. *)
Definition holds (p : Pc) : list nat :=
  match p with
  | Rest | Captured _ => []
  | Locked g | Operating g => [g]
  | Carrying d | HandoffCaptured d _ => [d]
  | HandoffLocked d g | Installed d g => [d; g]
  | Attempting d g => if decide (d = g) then [d] else [d; g]
  end.

Definition believes (p : Pc) : option nat :=
  match p with
  | Operating g | Attempting _ g => Some g
  | Installed d _ => Some d
  | _ => None
  end.

Definition captured (p : Pc) : option nat :=
  match p with
  | Captured g | Locked g => Some g
  | HandoffCaptured _ g | HandoffLocked _ g => Some g
  | _ => None
  end.

Record gate_inv (s : Sys) : Prop := mkGateInv
  { inv_holds t g : g ∈ holds (pc (threads s t)) -> holder s g = Some t;
    inv_distinct t : NoDup (holds (pc (threads s t)));
    inv_believes t g : believes (pc (threads s t)) = Some g -> cell_gate s = g;
    inv_captured t g : captured (pc (threads s t)) = Some g ->
      stamp (threads s t) < installs s \/ cell_gate s = g;
    inv_stamp t : stamp (threads s t) <= installs s;
    inv_retries t : retries (threads s t) <=
      match captured (pc (threads s t)) with Some _ => stamp (threads s t) | None => installs s end }.

Lemma believed_gate_held s t g :
  gate_inv s -> believes (pc (threads s t)) = Some g -> holder s g = Some t.
Proof.
  intros I H. apply (inv_holds s I). destruct (pc (threads s t)) as [| | | | | | |d h|]; simplify_eq/=;
    try case_decide; simplify_eq; set_solver.
Qed.

Lemma believes_unique s t u g h :
  gate_inv s -> believes (pc (threads s t)) = Some g -> believes (pc (threads s u)) = Some h ->
  t = u.
Proof.
  intros I Ht Hu.
  pose proof (inv_believes s I t g Ht); pose proof (inv_believes s I u h Hu).
  pose proof (believed_gate_held s t g I Ht); pose proof (believed_gate_held s u h I Hu).
  congruence.
Qed.

(** What a thread of its own must satisfy. *)
Record thread_ok (t : nat) (th : Thread) (g : nat) (h : nat -> option nat) (n : nat) : Prop :=
  mkThreadOk
  { ok_holds k : k ∈ holds (pc th) -> h k = Some t;
    ok_distinct : NoDup (holds (pc th));
    ok_believes k : believes (pc th) = Some k -> g = k;
    ok_captured k : captured (pc th) = Some k -> stamp th < n \/ g = k;
    ok_stamp : stamp th <= n;
    ok_retries : retries th <= match captured (pc th) with Some _ => stamp th | None => n end }.

Lemma gate_inv_threads s :
  gate_inv s <-> forall t, thread_ok t (threads s t) (cell_gate s) (holder s) (installs s).
Proof.
  split; [intros [] t; constructor; eauto|].
  intros H; constructor; intros t; destruct (H t); eauto.
Qed.

(** A thread that moves, while mutexes and the pointer change only as the
    others allow. *)
Lemma gate_inv_update s t th g h n :
  gate_inv s -> thread_ok t th g h n ->
  (forall u k, u <> t -> holder s k = Some u -> h k = Some u) ->
  (g = cell_gate s /\ n = installs s \/
   installs s < n /\ forall u, u <> t -> believes (pc (threads s u)) = None) ->
  gate_inv (goto t th (mkSys g h (threads s) n)).
Proof.
  rewrite !gate_inv_threads. intros I Hth Hh Hg u; cbn.
  case_decide as Hu; [by subst|]. destruct (I u) as [h1 h2 h3 h4 h5 h6].
  destruct Hg as [[-> ->]|[Hlt Hb]]; constructor; eauto; try lia.
  - rewrite (Hb u Hu). done.
  - destruct (captured _); lia.
Qed.

Lemma goto_as_update t th s :
  goto t th s = goto t th (mkSys (cell_gate s) (holder s) (threads s) (installs s)).
Proof. by destruct s. Qed.

Lemma release_others g t (h : nat -> option nat) :
  h g = Some t -> forall u k, u <> t -> h k = Some u ->
  (if decide (k = g) then None else h k) = Some u.
Proof. intros Hg u k Hu Hk. case_decide; congruence. Qed.

Lemma acquire_others g t (h : nat -> option nat) :
  h g = None -> forall u k, u <> t -> h k = Some u ->
  (if decide (k = g) then Some t else h k) = Some u.
Proof. intros Hg u k Hu Hk. case_decide; congruence. Qed.

(** The moving thread's own obligations: its old ones are in the context. *)
Ltac thread_moves :=
  constructor; cbn [pc retries stamp holds believes captured] in *;
  repeat match goal with
  | |- forall _, _ => intros ?
  | |- NoDup [] => constructor
  | |- NoDup [_] => apply NoDup_singleton
  | H : _ ∈ [] |- _ => by apply not_elem_of_nil in H
  | H : _ ∈ [_] |- _ => apply list_elem_of_singleton in H; subst
  | H : _ ∈ [_; _] |- _ => apply elem_of_cons in H as [->|H]
  | |- context [decide ?P] => destruct (decide P); subst
  | H : context [decide ?P] |- _ => destruct (decide P); subst
  end; simplify_eq; eauto using list_elem_of_here, list_elem_of_further; try lia.

Lemma gate_step_inv t s s' : gate_inv s -> gate_step t s (Ret s') -> gate_inv s'.
Proof.
  intros I H. pose proof (proj1 (gate_inv_threads s) I t) as [h1 h2 h3 h4 h5 h6].
  remember (Ret s') as o eqn:Ho.
  destruct H as [r n Ht|g r n Ht Hg|g r n Ht Hg|g r n Ht Hg|g r n Ht|d n Ht Hg|d r n Ht
    |d r n Ht Hg|d r n Ht Hg|d g r n Ht Hg|d g r n Ht Hg|d g r n Ht Hg|d g r n Ht Hd
    |d g r n Ht|d g r n Ht]; rewrite Ht in *; cbn in h1, h2, h3, h4, h5, h6.
  all: try injection Ho as <-.
  1,3,8,9,11: rewrite goto_as_update; apply gate_inv_update; [done| |auto|auto]; thread_moves.
  1,4,6: apply gate_inv_update; [done| |by apply acquire_others|auto]; thread_moves.
  - rewrite NoDup_cons, list_elem_of_singleton. split; [|apply NoDup_singleton].
    intros ->. rewrite (h1 g) in Hg by apply list_elem_of_here. done.
  - destruct (h4 g eq_refl) as [Hlt|?]; [|done].
    apply gate_inv_update; [done| |apply release_others; set_solver|auto]; thread_moves.
  - apply gate_inv_update; [done| |apply release_others; set_solver|auto]; thread_moves.
  - apply gate_inv_update; [done| |apply release_others; set_solver|auto]; thread_moves.
  - destruct (h4 g eq_refl) as [Hlt|?]; [|done]. apply NoDup_cons in h2 as [Hd _].
    apply gate_inv_update; [done| |apply release_others; set_solver|auto]; thread_moves; set_solver.
  - pose proof (h3 g eq_refl) as Hc. rewrite decide_False in h1, h2 by done.
    unfold install_observation_gate_locked in Ho. rewrite decide_True in Ho by done.
    injection Ho as <-. apply gate_inv_update; [done| |auto|].
    + thread_moves.
    + right; split; [cbn; lia|]. intros u Hu.
      destruct (believes (pc (threads s u))) as [k|] eqn:Hk; [|done].
      destruct Hu. apply (believes_unique s u t k g I Hk). by rewrite Ht.
  - case_decide; subst.
    + rewrite goto_as_update; apply gate_inv_update; [done| |auto|auto]; thread_moves.
    + apply NoDup_cons in h2 as [Hd _].
      apply gate_inv_update; [done| |apply release_others; set_solver|auto]; thread_moves; set_solver.
  - apply NoDup_cons in h2 as [Hd _].
    apply gate_inv_update; [done| |apply release_others; set_solver|auto]; thread_moves; set_solver.
Qed.

Lemma reachable_inv s : reachable s -> gate_inv s.
Proof.
  induction 1 as [|t s s' _ IH Hs]; [|eauto using gate_step_inv].
  constructor; intros t; cbn; try set_solver; try lia. constructor.
Qed.

(** Whatever the interleaving of record writers and gate handoffs, at most
    one thread is inside a write or a handoff attempt of the member, it holds
    the mutex of the member's current gate, and the handoff's assertion that a
    resident member shares its tree's gate cannot fire. *)
Theorem gate_writers_exclusive s t g :
  reachable s -> believes (pc (threads s t)) = Some g ->
  cell_gate s = g /\ holder s g = Some t /\
  (forall u h, believes (pc (threads s u)) = Some h -> u = t) /\
  (forall o, gate_step t s o -> exists s', o = Ret s').
Proof.
  intros R B. pose proof (reachable_inv s R) as I.
  split; [by apply (inv_believes s I t)|]. split; [by eapply believed_gate_held|].
  split; [intros u h Hu; by eapply believes_unique|].
  intros o H. destruct H as [| | | | | | | | | | | |d k r n Ht Hd| | ]; eauto.
  pose proof (inv_believes s I t k) as Hc. rewrite Ht in Hc.
  unfold install_observation_gate_locked. rewrite decide_True by auto. cbn; eauto.
Qed.

(** A capture loop repeats only when the gate really was replaced since it
    was captured, so one operation retries at most as often as the member's
    gate has been replaced. *)
Theorem gate_retries_bounded s t :
  reachable s -> retries (threads s t) <= installs s.
Proof.
  intros R. pose proof (reachable_inv s R) as I.
  pose proof (inv_retries s I t); pose proof (inv_stamp s I t). destruct captured; lia.
Qed.

Lemma step_install_current t s d g r n :
  threads s t = mkThread (Attempting d g) r n -> d <> g -> cell_gate s = g ->
  gate_step t s (Ret (goto t (mkThread (Installed d g) r n)
                        (mkSys d (holder s) (threads s) (S (installs s))))).
Proof.
  intros Ht Hd Hg. pose proof (step_install t s d g r n Ht Hd) as H.
  unfold install_observation_gate_locked in H. by rewrite decide_True in H.
Qed.

Ltac advance R t c :=
  let R' := fresh R in
  eassert (R' : reachable _);
  [eapply (reachable_step t _ _ R); eapply c; solve [reflexivity | discriminate]
  | clear R; rename R' into R;
    cbn [goto acquire release start cell_gate holder threads installs] in R].

(** An interleaving in which thread 1 captures gate 0, thread 2 hands the
    member over to gate 5, and thread 1 retries and enters under gate 5. *)
Lemma raced_reachable :
  exists s, reachable s /\ threads s 1 = mkThread (Operating 5) 1 1 /\ installs s = 1.
Proof.
  pose proof reachable_start as R.
  advance R 1 (step_capture 1). advance R 2 (fun s => step_take_dest 2 s 5).
  advance R 2 (step_handoff_capture 2). advance R 2 (step_handoff_lock 2).
  advance R 2 (step_handoff_enter 2). advance R 2 (step_install_current 2).
  advance R 2 (step_leave 2). advance R 1 (step_lock 1). advance R 1 (step_retry 1).
  advance R 2 (step_drop_dest 2). advance R 1 (step_capture 1). advance R 1 (step_lock 1).
  advance R 1 (step_enter 1).
  eexists; split; [exact R|]. split; reflexivity.
Qed.

Lemma gate_writers_exclusive_witness :
  exists s, reachable s /\ cell_gate s = 5 /\ holder s 5 = Some 1.
Proof.
  destruct raced_reachable as (s & R & H & _). exists s. split; [exact R|].
  destruct (gate_writers_exclusive s 1 5 R) as (Hg & Hh & _); [by rewrite H|]. split; assumption.
Defined.

Lemma gate_retries_bounded_witness :
  exists s, reachable s /\ retries (threads s 1) = 1 /\ retries (threads s 1) <= installs s.
Proof.
  destruct raced_reachable as (s & R & H & _). exists s. split; [exact R|].
  split; [by rewrite H|]. exact (gate_retries_bounded s 1 R).
Defined.
End Handoff.

(** ** A transaction at work *)

(** Deferred operations that append to a log, or panic after doing so. *)
Inductive LogEffect := Log (n : Z) | Explode (n : Z).

#[local] Instance log_effects : CellEffects (list Z) LogEffect Z := {|
  same_hub := Z.eqb;
  coalesce staged newer := (newer, Log (-1));
  install p w := if p =? 13 then Panics "unlucky" else Ret ([Log p], w ++ [100 + p]);
  spent p := Log (- p);
  perform e w := match e with
                 | Log n => (None, w ++ [n])
                 | Explode n => (Some "boom", w ++ [n])
                 end |}.

Definition log_txn : ObservationTxn LogEffect Z :=
  foldl absorb (stage_snapshot 13 (stage_snapshot 7 (stage_snapshot 7 txn_new)))
    [Defer (Explode 1); RetainShared (Log 9); DeferSurrender (Log 2); Defer (Log 3)].

Lemma commit_strands_nothing_witness :
  exists c rs w, commit false log_txn [] = Ret c /\ attempted [7; 13] [] rs w /\
    performed c = owed rs log_txn /\ resumed c = Some "unlucky" /\
    world c = [107; 2; -1; 1; 3; 7; -7; -13; 9].
Proof.
  destruct (commit false log_txn []) as [c| |] eqn:Hc; [|vm_compute in Hc; discriminate..].
  destruct (commit_strands_nothing false log_txn []) as (_ & _ & H).
  destruct (H c Hc) as (rs & w & Hrs & Hp & _). exists c, rs, w.
  split_and!; [reflexivity|exact Hrs|exact Hp|vm_compute in Hc; injection Hc as <-; reflexivity..].
Defined.
