(* ===== verification/TimerStore.v ===== *)
(** * Keyed timers

    [raw/context/timers.rs]: the timers of one actor incarnation.  A store keeps
    its entries in hash buckets, indexed by arming order, and an ordered index
    of deadlines.  A key carries its type, so keys of one type [K] with decidable
    equality stand for all of them; the hasher is an arbitrary function.  Values
    that the store destroys are returned as a list, in order; the iteration
    order of a [HashMap] is that of [map_to_list]. *)

From S2P Require Import Prelude BTree Time Identity.

(** ** Ordered sets of deadlines *)

(** The derived order of [(Instant, ArmingOrder)]. *)
Definition lex_le (a b : Z * Z) : Prop := a.1 < b.1 \/ a.1 = b.1 /\ a.2 <= b.2.
#[export] Instance lex_le_dec a b : Decision (lex_le a b).
Proof. unfold lex_le. apply _. Defined.
#[export] Instance lex_le_total : Total lex_le.
Proof. intros [a b] [c d]. unfold lex_le. simpl. lia. Qed.
#[export] Instance lex_le_trans : Transitive lex_le.
Proof. intros [a b] [c d] [e f]. unfold lex_le. simpl. lia. Qed.
#[export] Instance lex_le_anti : AntiSymm (=) lex_le.
Proof. intros [a b] [c d]. unfold lex_le. simpl. intros. f_equal; lia. Qed.

(** A [BTreeSet] in iteration order. *)
Definition in_order (s : gset (Z * Z)) : list (Z * Z) := merge_sort lex_le (elements s).

Section store.
Context {K M : Type} `{!EqDecision K} {clock : Clock} (hash_key : K -> Z).

(** A user [Clone] returns or unwinds. *)
Inductive TimerMessage :=
| Once (m : M)
| Interval (m : M) (clone : M -> result M string) (period : Z).

Record TimerEntry := mkEntry
  { key : K; deadline : option Z; arming_order : Z; message : TimerMessage }.

Record TimerStore := mkStore
  { arming_orders : MonotonicCounter.t;
    keyed : gmap Z (list TimerEntry);
    armings : gmap Z Z;
    deadlines : gset (Z * Z) }.

(** A value that was destroyed. *)
Inductive Retired := RetiredKey (k : K) | RetiredMessage (m : TimerMessage).

Definition store_new : TimerStore := mkStore MonotonicCounter.new ∅ ∅ ∅.
Definition store_is_empty (s : TimerStore) : bool := bool_decide (armings s = ∅).

Definition dispose_entry (e : TimerEntry) : list Retired := [RetiredKey (key e); RetiredMessage (message e)].

Definition store_clear (s : TimerStore) : list Retired * TimerStore :=
  (mjoin (dispose_entry <$> mjoin (map_to_list (keyed s)).*2), mkStore (arming_orders s) ∅ ∅ ∅).

Record TimerLocation := mkLocation { at_hash : Z; at_index : nat }.

Definition locate (hash : Z) (p : TimerEntry -> bool) (s : TimerStore) : option TimerLocation :=
  bucket ← keyed s !! hash;
  '(index, _) ← list_find (fun e => p e = true) bucket;
  Some (mkLocation hash index).

(** [Vec::swap_remove]. *)
Definition swap_remove (i : nat) (l : list TimerEntry) : outcome (TimerEntry * list TimerEntry) :=
  e ← expect "swap_remove index should be < len" (l !! i);
  Ret (e, take (length l - 1) (match last l with Some x => <[i:=x]> l | None => l end)).

Definition unlink (loc : TimerLocation) (s : TimerStore) : outcome (TimerEntry * TimerStore) :=
  bucket ← expect "a timer location must reference a key bucket" (keyed s !! at_hash loc);
  '(e, bucket) ← swap_remove (at_index loc) bucket;
  let keyed := match bucket with
               | [] => delete (at_hash loc) (keyed s)
               | _ => <[at_hash loc:=bucket]> (keyed s)
               end in
  Ret (e, mkStore (arming_orders s) keyed (delete (arming_order e) (armings s))
            (match deadline e with
             | Some d => deadlines s ∖ {[(d, arming_order e)]}
             | None => deadlines s
             end)).

Definition take_hashed (hash : Z) (k : K) (s : TimerStore) : outcome (option TimerEntry * TimerStore) :=
  match locate hash (fun e => bool_decide (key e = k)) s with
  | None => Ret (None, s)
  | Some loc => '(e, s) ← unlink loc s; Ret (Some e, s)
  end.

Definition remove_hashed (hash : Z) (k : K) (s : TimerStore) : outcome (bool * list Retired * TimerStore) :=
  '(e, s) ← take_hashed hash k s;
  match e with
  | None => Ret (false, [], s)
  | Some e => Ret (true, dispose_entry e, s)
  end.

Definition remove (k : K) (s : TimerStore) : outcome (bool * list Retired * TimerStore) :=
  remove_hashed (hash_key k) k s.

Definition replace (k : K) (d : option Z) (m : TimerMessage) (s : TimerStore)
  : outcome (Z * list Retired * TimerStore) :=
  '(arming, counter) ← MonotonicCounter.mint (arming_orders s);
  let s := mkStore counter (keyed s) (armings s) (deadlines s) in
  let hash := hash_key k in
  '(_, retired, s) ← remove_hashed hash k s;
  let bucket := default [] (keyed s !! hash) in
  _ ← assert_that (bool_decide (armings s !! arming = None)) "previous.is_none()";
  Ret (arming, retired,
       mkStore (arming_orders s) (<[hash:=bucket ++ [mkEntry k d arming m]]> (keyed s))
         (<[arming:=hash]> (armings s))
         (match d with Some d => {[(d, arming)]} ∪ deadlines s | None => deadlines s end)).

(** A zero-period interval: the key's timer and the rejected inputs retire. *)
Definition clear_and_dispose (k : K) (m : M) (s : TimerStore) : outcome (list Retired * TimerStore) :=
  '(_, retired, s) ← remove k s;
  Ret (retired ++ [RetiredKey k; RetiredMessage (Once m)], s).

Definition locate_arming (arming : Z) (s : TimerStore) : outcome (option TimerLocation) :=
  match armings s !! arming with
  | None => Ret None
  | Some hash =>
      bucket ← expect "an arming index must reference a key bucket" (keyed s !! hash);
      '(index, _) ← expect "an arming index must reference a timer"
                      (list_find (fun e => arming_order e = arming) bucket);
      Ret (Some (mkLocation hash index))
  end.

Definition take_due (now : Z) (s : TimerStore) : list Z * TimerStore :=
  let due := filter (fun x => lex_le x (now, u64_max)) (in_order (deadlines s)) in
  (due.*2, mkStore (arming_orders s) (keyed s) (armings s) (deadlines s ∖ list_to_set due)).

(** What becomes of a captured arming: gone, delivered, or its clone unwound. *)
Inductive Delivery := Missing | Delivered (m : M) | CloneUnwinds (payload : string).

Definition set_deadline (d : option Z) (e : TimerEntry) : TimerEntry :=
  mkEntry (key e) d (arming_order e) (message e).

Definition deliver_due (arming now : Z) (s : TimerStore) : outcome (Delivery * list Retired * TimerStore) :=
  loc ← locate_arming arming s;
  match loc with
  | None => Ret (Missing, [], s)
  | Some loc =>
      bucket ← expect "a timer location must reference a key bucket" (keyed s !! at_hash loc);
      e ← expect "a timer location must reference a timer" (bucket !! at_index loc);
      match message e with
      | Interval m clone period =>
          let d := Deadline.instant (Deadline.after now period) in
          match clone m with
          | Err payload => Ret (CloneUnwinds payload, [], s)
          | Ok m =>
              Ret (Delivered m, [],
                   mkStore (arming_orders s)
                     (<[at_hash loc:=<[at_index loc:=set_deadline d e]> bucket]> (keyed s)) (armings s)
                     (match d with Some d => {[(d, arming)]} ∪ deadlines s | None => deadlines s end))
          end
      | Once _ =>
          '(e, s) ← unlink loc s;
          match message e with
          | Once m => Ret (Delivered m, [RetiredKey (key e)], s)
          | interval => Ret (Missing, [RetiredKey (key e); RetiredMessage interval], s)
          end
      end
  end.

Definition next_deadline (s : TimerStore) : option Z := fst <$> head (in_order (deadlines s)).
End store.
Arguments TimerMessage M : clear implicits.
Arguments TimerEntry K M : clear implicits.
Arguments TimerStore K M : clear implicits.
Arguments Retired K M : clear implicits.
Arguments Delivery M : clear implicits.

(** ** The timer store refines a map of alarms

    Whatever the hasher does, the buckets, the arming index and the deadline
    index of a store together are a map of alarms with at most one per key. *)

(** ** Sets in order *)

Lemma elem_of_in_order x s : x ∈ in_order s <-> x ∈ s.
Proof. unfold in_order. rewrite merge_sort_Permutation. apply elem_of_elements. Qed.
Lemma in_order_NoDup s : NoDup (in_order s).
Proof. unfold in_order. rewrite merge_sort_Permutation. apply NoDup_elements. Qed.
Lemma in_order_sorted s : StronglySorted lex_le (in_order s).
Proof. apply (StronglySorted_merge_sort lex_le). Qed.

Lemma head_in_order s x :
  head (in_order s) = Some x -> x ∈ s /\ forall y, y ∈ s -> lex_le x y.
Proof.
  intros H. pose proof (in_order_sorted s) as Hs. pose proof (elem_of_in_order) as He.
  destruct (in_order s) as [|x' l] eqn:E; simplify_eq/=. split; [apply He; rewrite E; by left|].
  intros y Hy. apply He in Hy. rewrite E in Hy. apply elem_of_cons in Hy as [->|Hy]; [right; lia|].
  inversion Hs as [|? ? _ HF]; simplify_eq. rewrite Forall_forall in HF. auto.
Qed.

Section spec.
Context {K M : Type} `{!EqDecision K} {clock : Clock} (hash_key : K -> Z).
Local Abbreviation TimerMessage := (TimerMessage M).
Local Abbreviation TimerEntry := (TimerEntry K M).
Local Abbreviation TimerStore := (TimerStore K M).
Local Abbreviation Retired := (Retired K M).
Local Abbreviation Delivery := (Delivery M).
Implicit Types (s : TimerStore) (k : K) (e : TimerEntry).

(** ** Alarms *)

(** An alarm waits until its deadline has been reported due. *)
Record Alarm := mkAlarm
  { al_key : K; al_deadline : option Z; al_message : TimerMessage; al_waiting : bool }.

(** Alarms by arming order, and the last order issued. *)
Record Alarms := mkAlarms { issued_orders : Z; alarms : gmap Z Alarm }.
Implicit Types (A : Alarms).

Definition entry_of (a : Z) (al : Alarm) : TimerEntry := mkEntry (al_key al) (al_deadline al) a (al_message al).

(** The alarm of a key. *)
Definition alarm_of k A : option (Z * Alarm) := head (map_to_list (filter (fun x => al_key x.2 = k) (alarms A))).

Definition retire_alarm (o : option (Z * Alarm)) : list Retired :=
  match o with Some (a, al) => dispose_entry (entry_of a al) | None => [] end.
Definition without (o : option (Z * Alarm)) A : Alarms :=
  match o with Some (a, _) => mkAlarms (issued_orders A) (delete a (alarms A)) | None => A end.

(** ** Operations on alarms *)

Definition due_list (now : Z) A : list (Z * Z) :=
  omap (fun x => match al_deadline x.2 with
                 | Some d => if al_waiting x.2 && (d <=? now) then Some (d, x.1) else None
                 | None => None
                 end) (map_to_list (alarms A)).
Definition due_alarms (now : Z) A : gset (Z * Z) := list_to_set (due_list now A).
Definition waiting_list A : list (Z * Z) :=
  omap (fun x => match al_deadline x.2 with
                 | Some d => if al_waiting x.2 then Some (d, x.1) else None
                 | None => None
                 end) (map_to_list (alarms A)).
Definition waiting_alarms A : gset (Z * Z) := list_to_set (waiting_list A).
Definition stop_waiting (armings : list Z) (ms : gmap Z Alarm) : gmap Z Alarm :=
  map_imap (fun a al => Some (if decide (a ∈ armings) then mkAlarm (al_key al) (al_deadline al) (al_message al) false else al)) ms.

Inductive timer_op :=
| TReplace (k : K) (d : option Z) (m : TimerMessage)
| TRemove (k : K)
| TClearAndDispose (k : K) (m : M)
| TTakeDue (now : Z)
| TDeliverDue (a now : Z)
| TClear
| TNextDeadline
| TIsEmpty.

Inductive timer_result :=
| RArmed (a : Z) (retired : list Retired)
| RRemoved (present : bool) (retired : list Retired)
| RRejected (retired : list Retired)
| RDue (l : list Z)
| RDelivered (d : Delivery) (retired : list Retired)
| RCleared (retired : list Retired)
| RNext (d : option Z)
| REmpty (b : bool).

Definition alarm_exec A (op : timer_op) : outcome (timer_result * Alarms) :=
  match op with
  | TReplace k d m =>
      '(a, _) ← MonotonicCounter.mint (MonotonicCounter.from_current (issued_orders A));
      let old := alarm_of k A in
      Ret (RArmed a (retire_alarm old),
           mkAlarms a (<[a:=mkAlarm k d m (bool_decide (is_Some d))]> (alarms (without old A))))
  | TRemove k =>
      let old := alarm_of k A in
      Ret (RRemoved (bool_decide (is_Some old)) (retire_alarm old), without old A)
  | TClearAndDispose k m =>
      let old := alarm_of k A in
      Ret (RRejected (retire_alarm old ++ [RetiredKey k; RetiredMessage (Once m)]), without old A)
  | TTakeDue now =>
      let l := (in_order (due_alarms now A)).*2 in
      Ret (RDue l, mkAlarms (issued_orders A) (stop_waiting l (alarms A)))
  | TDeliverDue a now =>
      Ret match alarms A !! a with
          | None => (RDelivered Missing [], A)
          | Some al =>
              match al_message al with
              | Once m => (RDelivered (Delivered m) [RetiredKey (al_key al)],
                           mkAlarms (issued_orders A) (delete a (alarms A)))
              | Interval m clone period =>
                  match clone m with
                  | Err payload => (RDelivered (CloneUnwinds payload) [], A)
                  | Ok m =>
                      let d := Deadline.instant (Deadline.after now period) in
                      (RDelivered (Delivered m) [],
                       mkAlarms (issued_orders A)
                         (<[a:=mkAlarm (al_key al) d (al_message al) (bool_decide (is_Some d))]> (alarms A)))
                  end
              end
          end
  | TClear =>
      Ret (RCleared (mjoin ((fun x => dispose_entry (entry_of x.1 x.2)) <$> map_to_list (alarms A))),
           mkAlarms (issued_orders A) ∅)
  | TNextDeadline => Ret (RNext (fst <$> head (in_order (waiting_alarms A))), A)
  | TIsEmpty => Ret (REmpty (bool_decide (alarms A = ∅)), A)
  end.

Definition store_exec s (op : timer_op) : outcome (timer_result * TimerStore) :=
  match op with
  | TReplace k d m => '(a, r, s) ← replace hash_key k d m s; Ret (RArmed a r, s)
  | TRemove k => '(b, r, s) ← remove hash_key k s; Ret (RRemoved b r, s)
  | TClearAndDispose k m => '(r, s) ← clear_and_dispose hash_key k m s; Ret (RRejected r, s)
  | TTakeDue now => let '(l, s) := take_due now s in Ret (RDue l, s)
  | TDeliverDue a now => '(d, r, s) ← deliver_due a now s; Ret (RDelivered d r, s)
  | TClear => let '(r, s) := store_clear s in Ret (RCleared r, s)
  | TNextDeadline => Ret (RNext (next_deadline s), s)
  | TIsEmpty => Ret (REmpty (store_is_empty s), s)
  end.

(** ** The representation *)

Record represents s A : Prop := mkRepresents
  { rp_bucket h l : keyed s !! h = Some l -> l ≠ [] /\ NoDup (arming_order <$> l);
    rp_entry h l e : keyed s !! h = Some l -> e ∈ l ->
      hash_key (key e) = h /\ exists al, alarms A !! arming_order e = Some al /\ entry_of (arming_order e) al = e;
    rp_alarm a al : alarms A !! a = Some al ->
      exists l, keyed s !! hash_key (al_key al) = Some l /\ entry_of a al ∈ l;
    rp_armings a : armings s !! a = (fun al => hash_key (al_key al)) <$> alarms A !! a;
    rp_deadlines d a : (d, a) ∈ deadlines s <->
      exists al, alarms A !! a = Some al /\ al_deadline al = Some d /\ al_waiting al = true;
    rp_keys a b x y : alarms A !! a = Some x -> alarms A !! b = Some y -> al_key x = al_key y -> a = b;
    rp_orders a : is_Some (alarms A !! a) -> a <= issued_orders A;
    rp_counter : arming_orders s = MonotonicCounter.from_current (issued_orders A) /\ issued_orders A <= u64_max }.

Lemma represents_new : represents store_new (mkAlarms 0 ∅).
Proof.
  split; simpl; try done.
  - intros d a. split; [set_solver|]. by intros (al & ? & _).
  - intros a []. done.
Qed.

(** *** Lookups *)

Lemma alarm_of_Some s A k a al :
  represents s A -> alarm_of k A = Some (a, al) <-> alarms A !! a = Some al /\ al_key al = k.
Proof.
  intros Hr. unfold alarm_of. split.
  - intros H. assert (Hin : (a, al) ∈ map_to_list (filter (fun x => al_key x.2 = k) (alarms A))).
    { destruct (map_to_list _); simplify_eq/=. by left. }
    apply elem_of_map_to_list, map_lookup_filter_Some in Hin. done.
  - intros [Ha Hk]. destruct (map_to_list (filter (fun x => al_key x.2 = k) (alarms A))) as [|[b y] l] eqn:E.
    + apply map_to_list_empty_iff in E. assert (filter (fun x => al_key x.2 = k) (alarms A) !! a = None) as Hn by (rewrite E; done).
      rewrite map_lookup_filter, Ha in Hn. simpl in Hn. by case_guard.
    + assert (Hin : (b, y) ∈ map_to_list (filter (fun x => al_key x.2 = k) (alarms A))) by (rewrite E; by left).
      apply elem_of_map_to_list, map_lookup_filter_Some in Hin as [Hb Hky]. simpl in *.
      assert (b = a) as -> by (eapply (rp_keys _ _ Hr); [done|done|congruence]). simplify_eq. done.
Qed.
Lemma alarm_of_None s A k :
  represents s A -> alarm_of k A = None <-> forall a al, alarms A !! a = Some al -> al_key al ≠ k.
Proof.
  intros Hr. split.
  - intros Hn a al Ha Hk. assert (alarm_of k A = Some (a, al)) by by eapply alarm_of_Some. congruence.
  - intros H. destruct (alarm_of k A) as [[a al]|] eqn:E; [|done]. eapply alarm_of_Some in E as [Ha Hk]; [|done].
    by destruct (H a al Ha).
Qed.

Lemma locate_key s A k :
  represents s A ->
  match alarm_of k A with
  | None => locate (hash_key k) (fun e => bool_decide (key e = k)) s = None
  | Some (a, al) => exists l i, locate (hash_key k) (fun e => bool_decide (key e = k)) s = Some (mkLocation (hash_key k) i) /\
      keyed s !! hash_key k = Some l /\ l !! i = Some (entry_of a al)
  end.
Proof.
  intros Hr. unfold locate. destruct (alarm_of k A) as [[a al]|] eqn:E.
  - eapply alarm_of_Some in E as [Ha Hk]; [|done]. destruct (rp_alarm _ _ Hr a al Ha) as (l & Hl & Hin). rewrite Hk in Hl.
    rewrite Hl. simpl. destruct (list_find (fun e => bool_decide (key e = k) = true) l) as [[i e]|] eqn:Ef; simpl.
    + apply list_find_Some in Ef as (Hi & Hp & _). exists l, i. split_and!; [done|done|]. rewrite Hi. f_equal.
      apply bool_decide_eq_true in Hp. destruct (rp_entry _ _ Hr _ _ e Hl ltac:(by eapply list_elem_of_lookup_2)) as (_ & al' & Ha' & He).
      assert (Hk' : al_key al' = k) by (by rewrite <- He in Hp).
      assert (Heq : arming_order e = a) by (eapply (rp_keys _ _ Hr); [done|done|congruence]).
      rewrite <- He, Heq in *. congruence.
    + apply list_find_None in Ef. rewrite Forall_forall in Ef. exfalso. apply (Ef _ Hin). by apply bool_decide_eq_true.
  - destruct (keyed s !! hash_key k) as [l|] eqn:Hl; [|done]. simpl.
    destruct (list_find (fun e => bool_decide (key e = k) = true) l) as [[i e]|] eqn:Ef; [|done]. exfalso.
    apply list_find_Some in Ef as (Hi & Hp & _). apply bool_decide_eq_true in Hp.
    destruct (rp_entry _ _ Hr _ _ e Hl ltac:(by eapply list_elem_of_lookup_2)) as (_ & al' & Ha' & He).
    apply (proj1 (alarm_of_None s A k Hr) E _ _ Ha'). rewrite <- He in Hp. done.
Qed.

Lemma locate_arming_spec s A a :
  represents s A ->
  match alarms A !! a with
  | None => locate_arming a s = Ret None
  | Some al => exists l i, locate_arming a s = Ret (Some (mkLocation (hash_key (al_key al)) i)) /\
      keyed s !! hash_key (al_key al) = Some l /\ l !! i = Some (entry_of a al)
  end.
Proof.
  intros Hr. unfold locate_arming. rewrite (rp_armings _ _ Hr). destruct (alarms A !! a) as [al|] eqn:Ha; simpl; [|done].
  destruct (rp_alarm _ _ Hr a al Ha) as (l & Hl & Hin). rewrite Hl. simpl.
  destruct (list_find (fun e => arming_order e = a) l) as [[i e]|] eqn:Ef; simpl.
  - apply list_find_Some in Ef as (Hi & Hp & _). exists l, i. split_and!; [done|done|]. rewrite Hi. f_equal.
    destruct (rp_entry _ _ Hr _ _ e Hl ltac:(by eapply list_elem_of_lookup_2)) as (_ & al' & Ha' & He).
    rewrite Hp in *. congruence.
  - apply list_find_None in Ef. rewrite Forall_forall in Ef. by destruct (Ef _ Hin).
Qed.

(** *** Removal *)

Lemma swap_remove_spec (l : list TimerEntry) i e :
  l !! i = Some e -> exists l', swap_remove i l = Ret (e, l') /\ l ≡ₚ e :: l'.
Proof.
  intros Hi. unfold swap_remove. rewrite Hi. simpl. eexists. split; [done|].
  apply list_elem_of_split_length in Hi as (l1 & l2 & -> & ->).
  destruct l2 as [|x l2 _] using rev_ind.
  - rewrite last_snoc, insert_app_r_alt, Nat.sub_diag by done. simpl.
    rewrite length_app, Nat.add_sub, take_app_length. solve_Permutation.
  - rewrite app_comm_cons, app_assoc, last_snoc. rewrite <- app_assoc, insert_app_r_alt, Nat.sub_diag by done. simpl.
    rewrite app_comm_cons, app_assoc, length_app, Nat.add_sub.
    replace (length (l1 ++ e :: l2)) with (length (l1 ++ x :: l2)) by (rewrite !length_app; done).
    rewrite app_comm_cons, (app_assoc l1), take_app_length. solve_Permutation.
Qed.

(** A bucket that lost one entry. *)
Lemma represents_unlink s A h l l' a al :
  represents s A -> keyed s !! h = Some l -> l ≡ₚ entry_of a al :: l' -> alarms A !! a = Some al ->
  represents
    (mkStore (arming_orders s) (match l' with [] => delete h (keyed s) | _ => <[h:=l']> (keyed s) end)
       (delete a (armings s))
       (match al_deadline al with Some d => deadlines s ∖ {[(d, a)]} | None => deadlines s end))
    (mkAlarms (issued_orders A) (delete a (alarms A))).
Proof.
  intros Hr Hl Hp Ha.
  assert (Hh : hash_key (al_key al) = h).
  { apply (rp_entry _ _ Hr h l (entry_of a al) Hl). rewrite Hp. by left. }
  destruct (rp_bucket _ _ Hr h l Hl) as [_ Hnd]. rewrite Hp in Hnd. apply NoDup_cons in Hnd as [Hna Hnd]. simpl in Hna.
  set (kd := match l' with [] => delete h (keyed s) | _ => <[h:=l']> (keyed s) end).
  assert (Hk : forall h' b, kd !! h' = Some b <-> (h' = h /\ b = l' /\ l' ≠ []) \/ (h' ≠ h /\ keyed s !! h' = Some b)).
  { intros h' b. unfold kd. destruct l'; [rewrite lookup_delete_Some|rewrite lookup_insert_Some]; naive_solver. }
  split; simpl.
  - intros h' b [(-> & -> & Hne)|[_ Hb]]%Hk; [done|by eapply (rp_bucket _ _ Hr)].
  - intros h' b e Hb He. apply Hk in Hb.
    assert (exists b0, keyed s !! h' = Some b0 /\ e ∈ b0 /\ (h' = h -> e ∈ l')) as (b0 & Hb0 & He0 & Hin).
    { destruct Hb as [(-> & -> & _)|[Hne Hb]]; [exists l; split_and!; [done|rewrite Hp; by right|done]|exists b; naive_solver]. }
    destruct (rp_entry _ _ Hr h' b0 e Hb0 He0) as (Hhe & al' & Ha' & Hee). split; [done|]. exists al'. split; [|done].
    rewrite lookup_delete_ne; [done|]. intros Heq. apply Hna. rewrite Heq in Ha |- *. assert (al' = al) as -> by congruence.
    apply list_elem_of_fmap_2, Hin. by rewrite <- Hhe, <- Hee.
  - intros b al' Hb. apply lookup_delete_Some in Hb as [Hne Hb]. destruct (rp_alarm _ _ Hr b al' Hb) as (l0 & Hl0 & Hin).
    destruct (decide (hash_key (al_key al') = h)) as [Heq|Hneq].
    + rewrite Heq in *. assert (l0 = l) as -> by congruence. rewrite Hp in Hin.
      apply elem_of_cons in Hin as [Hin|Hin]; [by injection Hin|]. exists l'. split; [|done]. apply Hk. left.
      split_and!; [done|done|]. intros ->. by apply not_elem_of_nil in Hin.
    + exists l0. split; [|done]. apply Hk. by right.
  - intros b. destruct (decide (b = a)) as [->|Hne]; [by rewrite !lookup_delete_eq|].
    rewrite !lookup_delete_ne by done. apply (rp_armings _ _ Hr).
  - intros d b. destruct (decide (b = a)) as [->|Hne].
    + rewrite lookup_delete_eq. split; [|by intros (? & ? & _)]. intros Hin. exfalso. pose proof (rp_deadlines _ _ Hr d a) as Hd.
      destruct (al_deadline al) as [d'|] eqn:Ed; [apply elem_of_difference in Hin as [Hin Hn]|]; apply Hd in Hin as (al' & ? & ? & _); set_solver.
    + rewrite lookup_delete_ne by done. rewrite <- (rp_deadlines _ _ Hr). destruct (al_deadline al); set_solver.
  - intros b c x y Hx Hy. apply lookup_delete_Some in Hx as [_ Hx], Hy as [_ Hy]. by eapply (rp_keys _ _ Hr).
  - intros b [x Hx]. apply lookup_delete_Some in Hx as [_ Hx]. by eapply (rp_orders _ _ Hr).
  - apply (rp_counter _ _ Hr).
Qed.

Lemma unlink_spec s A h i l a al :
  represents s A -> keyed s !! h = Some l -> l !! i = Some (entry_of a al) -> alarms A !! a = Some al ->
  exists s', unlink (mkLocation h i) s = Ret (entry_of a al, s') /\
    represents s' (mkAlarms (issued_orders A) (delete a (alarms A))).
Proof.
  intros Hr Hl Hi Ha. unfold unlink. cbn [at_hash at_index]. rewrite Hl. cbn [expect mbind outcome_bind].
  destruct (swap_remove_spec _ _ _ Hi) as (l' & -> & Hp). cbn [mbind outcome_bind]. eexists. split; [reflexivity|].
  by eapply represents_unlink.
Qed.

Lemma remove_hashed_spec s A k :
  represents s A ->
  exists s', remove_hashed (hash_key k) k s =
      Ret (bool_decide (is_Some (alarm_of k A)), retire_alarm (alarm_of k A), s') /\
    represents s' (without (alarm_of k A) A).
Proof.
  intros Hr. pose proof (locate_key s A k Hr) as Hloc. unfold remove_hashed, take_hashed.
  destruct (alarm_of k A) as [[a al]|] eqn:E.
  - destruct Hloc as (l & i & -> & Hl & Hi). eapply alarm_of_Some in E as [Ha _]; [|done].
    destruct (unlink_spec _ _ _ _ _ _ _ Hr Hl Hi Ha) as (s' & -> & Hr'). simpl. by exists s'.
  - rewrite Hloc. simpl. by exists s.
Qed.

(** *** Arming *)

Lemma represents_mint s A a :
  represents s A -> issued_orders A <= a -> a <= u64_max ->
  represents (mkStore (MonotonicCounter.from_current a) (keyed s) (armings s) (deadlines s)) (mkAlarms a (alarms A)).
Proof. intros [] Ha Hm. split; simpl; eauto. intros b Hb. specialize (rp_orders0 b Hb). lia. Qed.

Lemma represents_insert s A k d m a :
  represents s A -> (forall b al, alarms A !! b = Some al -> al_key al ≠ k) -> alarms A !! a = None -> a <= issued_orders A ->
  represents
    (mkStore (arming_orders s) (<[hash_key k:=default [] (keyed s !! hash_key k) ++ [mkEntry k d a m]]> (keyed s))
       (<[a:=hash_key k]> (armings s)) (match d with Some d => {[(d, a)]} ∪ deadlines s | None => deadlines s end))
    (mkAlarms (issued_orders A) (<[a:=mkAlarm k d m (bool_decide (is_Some d))]> (alarms A))).
Proof.
  intros Hr Hk Ha Hle. set (l0 := default [] (keyed s !! hash_key k)).
  assert (Hl0 : forall e, e ∈ l0 -> exists l, keyed s !! hash_key k = Some l /\ l = l0 /\ e ∈ l).
  { intros e He. unfold l0 in *. destruct (keyed s !! hash_key k) as [l|]; [eauto|]. by apply not_elem_of_nil in He. }
  assert (Hna : forall e, e ∈ l0 -> arming_order e ≠ a).
  { intros e (l & Hl & _ & He)%Hl0 Heq. destruct (rp_entry _ _ Hr _ _ _ Hl He) as (_ & al & Hal & _). congruence. }
  split; simpl.
  - intros h l Hl. apply lookup_insert_Some in Hl as [[<- <-]|[_ Hl]]; [|by eapply (rp_bucket _ _ Hr)].
    split; [by destruct l0|]. rewrite fmap_app. apply NoDup_app. split_and!.
    + unfold l0. destruct (keyed s !! hash_key k) as [l|] eqn:E; [by apply (rp_bucket _ _ Hr _ _ E)|constructor].
    + intros x (e & -> & He)%list_elem_of_fmap. simpl. intros Hx%list_elem_of_singleton. by apply (Hna e).
    + apply NoDup_singleton.
  - intros h l e Hl He. apply lookup_insert_Some in Hl as [[<- <-]|[Hne Hl]].
    + apply elem_of_app in He as [He|He%list_elem_of_singleton].
      * destruct (Hl0 e He) as (l & Hl & _ & He'). destruct (rp_entry _ _ Hr _ _ _ Hl He') as (Hh & al & Hal & Hee).
        split; [done|]. exists al. rewrite lookup_insert_ne; [done|]. intros Heq. by apply (Hna e He).
      * subst e. split; [done|]. eexists. rewrite lookup_insert_eq. done.
    + destruct (rp_entry _ _ Hr _ _ _ Hl He) as (Hh & al & Hal & Hee). split; [done|]. exists al.
      rewrite lookup_insert_ne; [done|]. intros Heq. congruence.
  - intros b al [[<- <-]|[Hne Hb]]%lookup_insert_Some; simpl.
    + eexists. rewrite lookup_insert_eq. split; [done|]. apply elem_of_app. right. by apply list_elem_of_singleton.
    + destruct (rp_alarm _ _ Hr b al Hb) as (l & Hl & He). destruct (decide (hash_key (al_key al) = hash_key k)) as [Heq|Hne'].
      * rewrite Heq in *. eexists. rewrite lookup_insert_eq. split; [done|]. unfold l0. rewrite Hl. apply elem_of_app. by left.
      * exists l. by rewrite lookup_insert_ne.
  - intros b. destruct (decide (b = a)) as [->|Hne]; [by rewrite !lookup_insert_eq|]. rewrite !lookup_insert_ne by done.
    apply (rp_armings _ _ Hr).
  - intros d' b. pose proof (rp_deadlines _ _ Hr d' b) as Hd. destruct (decide (b = a)) as [->|Hne].
    + rewrite lookup_insert_eq. assert ((d', a) ∉ deadlines s) by (rewrite Hd; intros (al & ? & _); congruence).
      split; [destruct d as [d|]; [|done]; intros [[= ->]%elem_of_singleton|?]%elem_of_union; [|done]; by eexists|].
      intros (al & [= <-] & Hd' & _). simpl in Hd'. subst d. set_solver.
    + rewrite lookup_insert_ne by done. rewrite <- Hd. destruct d; set_solver.
  - intros b c x y Hx Hy Hxy. apply lookup_insert_Some in Hx as [[<- <-]|[_ Hx]], Hy as [[<- <-]|[_ Hy]]; simpl in *; try done.
    + by destruct (Hk c y Hy).
    + by destruct (Hk b x Hx).
    + by eapply (rp_keys _ _ Hr).
  - intros b [x [[<- _]|[_ Hx]]%lookup_insert_Some]; [done|]. by eapply (rp_orders _ _ Hr).
  - apply (rp_counter _ _ Hr).
Qed.

Lemma represents_rearm s A h l i a al d :
  represents s A -> alarms A !! a = Some al -> al_waiting al = false ->
  keyed s !! h = Some l -> l !! i = Some (entry_of a al) ->
  represents
    (mkStore (arming_orders s) (<[h:=<[i:=set_deadline d (entry_of a al)]> l]> (keyed s)) (armings s)
       (match d with Some d => {[(d, a)]} ∪ deadlines s | None => deadlines s end))
    (mkAlarms (issued_orders A) (<[a:=mkAlarm (al_key al) d (al_message al) (bool_decide (is_Some d))]> (alarms A))).
Proof.
  intros Hr Ha Hw Hl Hi. destruct (rp_entry _ _ Hr h l (entry_of a al) Hl ltac:(by eapply list_elem_of_lookup_2)) as (Hh & _).
  simpl in Hh. pose proof (lookup_lt_Some _ _ _ Hi) as Hlt.
  assert (Hf : arming_order <$> <[i:=set_deadline d (entry_of a al)]> l = arming_order <$> l).
  { rewrite list_fmap_insert. apply list_insert_id. by rewrite list_lookup_fmap, Hi. }
  assert (Ho : forall j e, l !! j = Some e -> arming_order e = a -> j = i).
  { intros j e Hj He. destruct (rp_bucket _ _ Hr h l Hl) as [_ Hnd]. eapply NoDup_lookup; [exact Hnd| |].
    - by rewrite list_lookup_fmap, Hj.
    - by rewrite list_lookup_fmap, Hi, <- He. }
  split; simpl.
  - intros h' l' [[<- <-]|[_ Hl']]%lookup_insert_Some; [|by eapply (rp_bucket _ _ Hr)].
    rewrite Hf. split; [|by eapply (rp_bucket _ _ Hr)]. destruct l; [done|by destruct i].
  - intros h' l' e [[<- <-]|[Hne Hl']]%lookup_insert_Some He.
    + apply list_elem_of_lookup in He as [j Hj]. destruct (decide (j = i)) as [->|Hji].
      * rewrite list_lookup_insert_eq in Hj by done. injection Hj as <-. split; [done|]. eexists. by rewrite lookup_insert_eq.
      * rewrite list_lookup_insert_ne in Hj by done.
        destruct (rp_entry _ _ Hr h l e Hl ltac:(by eapply list_elem_of_lookup_2)) as (Hhe & al' & Ha' & Hee).
        split; [done|]. exists al'. rewrite lookup_insert_ne; [done|]. intros Heq. apply Hji. by eapply Ho.
    + destruct (rp_entry _ _ Hr h' l' e Hl' He) as (Hhe & al' & Ha' & Hee). split; [done|]. exists al'.
      rewrite lookup_insert_ne; [done|]. intros Heq. apply Hne. rewrite <- Hhe, <- Hee, <- Hh. rewrite Heq in Ha.
      by assert (al' = al) as -> by congruence.
  - intros b al' [[<- <-]|[Hne Hb]]%lookup_insert_Some; simpl.
    + rewrite Hh. eexists. rewrite lookup_insert_eq. split; [done|]. apply list_elem_of_lookup. exists i.
      by rewrite list_lookup_insert_eq.
    + destruct (rp_alarm _ _ Hr b al' Hb) as (l' & Hl' & He). destruct (decide (hash_key (al_key al') = h)) as [Heq|Hne'].
      * rewrite Heq in *. assert (l' = l) as -> by congruence. eexists. rewrite lookup_insert_eq. split; [done|].
        apply list_elem_of_lookup in He as [j Hj]. apply list_elem_of_lookup. exists j. rewrite list_lookup_insert_ne; [done|].
        intros ->. rewrite Hi in Hj. by injection Hj.
      * exists l'. by rewrite lookup_insert_ne.
  - intros b. rewrite (rp_armings _ _ Hr). destruct (decide (b = a)) as [->|Hne]; [by rewrite lookup_insert_eq, Ha|].
    by rewrite lookup_insert_ne.
  - intros d' b. pose proof (rp_deadlines _ _ Hr d' b) as Hd. destruct (decide (b = a)) as [->|Hne].
    + rewrite lookup_insert_eq. assert ((d', a) ∉ deadlines s) by (rewrite Hd; intros (al' & ? & _ & ?); congruence).
      split; [destruct d as [d|]; [|done]; intros [[= ->]%elem_of_singleton|?]%elem_of_union; [|done]; by eexists|].
      intros (al' & [= <-] & Hd' & _). simpl in Hd'. subst d. set_solver.
    + rewrite lookup_insert_ne by done. rewrite <- Hd. destruct d; set_solver.
  - intros b c x y Hx Hy Hxy.
    assert (Hk : forall z z', <[a:=mkAlarm (al_key al) d (al_message al) (bool_decide (is_Some d))]> (alarms A) !! z = Some z' ->
      exists z0, alarms A !! z = Some z0 /\ al_key z0 = al_key z').
    { intros z z' [[<- <-]|[_ Hz]]%lookup_insert_Some; eauto. }
    destruct (Hk _ _ Hx) as (x0 & Hx0 & Hxk), (Hk _ _ Hy) as (y0 & Hy0 & Hyk). eapply (rp_keys _ _ Hr); [done|done|congruence].
  - intros b [x [[<- _]|[_ Hx]]%lookup_insert_Some]; by eapply (rp_orders _ _ Hr).
  - apply (rp_counter _ _ Hr).
Qed.

(** *** Deadlines *)

Lemma elem_of_due now A d a :
  (d, a) ∈ due_alarms now A <->
  exists al, alarms A !! a = Some al /\ al_deadline al = Some d /\ al_waiting al = true /\ d <= now.
Proof.
  unfold due_alarms, due_list. rewrite elem_of_list_to_set, list_elem_of_omap. split.
  - intros ([b al] & Hb%elem_of_map_to_list & H). simpl in H. destruct (al_deadline al) as [d'|] eqn:Ed; [|done].
    destruct (al_waiting al) eqn:Ew, (Z.leb_spec d' now); simplify_eq/=. exists al. auto.
  - intros (al & Ha & Hd & Hw & Hle). exists (a, al). rewrite elem_of_map_to_list. split; [done|]. simpl. rewrite Hd, Hw.
    by destruct (Z.leb_spec d now); [|lia].
Qed.

Lemma take_due_list s A now :
  represents s A ->
  filter (fun x => lex_le x (now, u64_max)) (in_order (deadlines s)) = in_order (due_alarms now A).
Proof.
  intros Hr. apply (StronglySorted_unique lex_le).
  - apply StronglySorted_filter, in_order_sorted.
  - apply in_order_sorted.
  - apply NoDup_Permutation; [apply NoDup_filter, in_order_NoDup|apply in_order_NoDup|].
    intros [d a]. rewrite list_elem_of_filter, !elem_of_in_order, elem_of_due, (rp_deadlines _ _ Hr). split.
    + intros [Hle (al & Ha & Hd & Hw)]. exists al. split_and!; [done..|]. destruct Hle as [?|[? _]]; simpl in *; lia.
    + intros (al & Ha & Hd & Hw & Hle). split; [|eauto]. pose proof (rp_orders _ _ Hr a ltac:(by eexists)).
      destruct (rp_counter _ _ Hr) as [_ ?]. unfold lex_le. simpl. lia.
Qed.

Lemma stop_waiting_lookup l (ms : gmap Z Alarm) a :
  stop_waiting l ms !! a =
  (fun al => if decide (a ∈ l) then mkAlarm (al_key al) (al_deadline al) (al_message al) false else al) <$> ms !! a.
Proof. unfold stop_waiting. rewrite map_lookup_imap. by destruct (ms !! a). Qed.

Lemma represents_due s A now :
  represents s A ->
  represents
    (mkStore (arming_orders s) (keyed s) (armings s) (deadlines s ∖ list_to_set (in_order (due_alarms now A))))
    (mkAlarms (issued_orders A) (stop_waiting (in_order (due_alarms now A)).*2 (alarms A))).
Proof.
  intros Hr. set (l := (in_order (due_alarms now A)).*2).
  assert (Hl : forall a al, stop_waiting l (alarms A) !! a = Some al ->
    exists al0, alarms A !! a = Some al0 /\ al_key al = al_key al0 /\ entry_of a al = entry_of a al0).
  { intros a al. rewrite stop_waiting_lookup. destruct (alarms A !! a) as [al0|]; [|done]. intros [= <-]. exists al0.
    by case_decide. }
  split; simpl.
  - apply (rp_bucket _ _ Hr).
  - intros h b e Hb He. destruct (rp_entry _ _ Hr h b e Hb He) as (Hh & al & Ha & Hee). split; [done|].
    eexists. rewrite stop_waiting_lookup, Ha. split; [reflexivity|]. transitivity (entry_of (arming_order e) al); [by case_decide|done].
  - intros a al (al0 & Ha & Hk & He)%Hl. rewrite Hk, He. by apply (rp_alarm _ _ Hr).
  - intros a. rewrite (rp_armings _ _ Hr), stop_waiting_lookup. destruct (alarms A !! a) as [al|]; [|done]. simpl. f_equal.
    by case_decide.
  - intros d a. pose proof (elem_of_in_order (d, a) (due_alarms now A)) as Ho. rewrite elem_of_due in Ho.
    rewrite elem_of_difference, elem_of_list_to_set, Ho, (rp_deadlines _ _ Hr), stop_waiting_lookup. clear Ho.
    assert (Hin : a ∈ l <-> exists d, (d, a) ∈ due_alarms now A).
    { unfold l. rewrite list_elem_of_fmap. split; [intros ([d' a'] & -> & ?%elem_of_in_order); eauto|intros [d' ?%elem_of_in_order]; by exists (d', a)]. }
    setoid_rewrite elem_of_due in Hin. destruct (alarms A !! a) as [al|]; simpl; [|naive_solver].
    case_decide as Hd; [|naive_solver]. apply Hin in Hd as (d' & al' & [= <-] & Hd' & Hw' & Hle). naive_solver.
  - intros a b x y (x0 & Hx & Hxk & _)%Hl (y0 & Hy & Hyk & _)%Hl Hxy. eapply (rp_keys _ _ Hr); [done|done|congruence].
  - intros a [al (al0 & Ha & _)%Hl]. by eapply (rp_orders _ _ Hr).
  - apply (rp_counter _ _ Hr).
Qed.

(** The earliest waiting deadline. *)
Lemma next_deadline_spec s A :
  represents s A ->
  match next_deadline s with
  | None => forall a al d, alarms A !! a = Some al -> al_waiting al = true -> al_deadline al ≠ Some d
  | Some d => (exists a al, alarms A !! a = Some al /\ al_deadline al = Some d /\ al_waiting al = true) /\
      forall a al d', alarms A !! a = Some al -> al_waiting al = true -> al_deadline al = Some d' -> d <= d'
  end.
Proof.
  intros Hr. unfold next_deadline. destruct (head (in_order (deadlines s))) as [[d a]|] eqn:E; simpl.
  - apply head_in_order in E as [Hin Hmin]. split; [apply (rp_deadlines _ _ Hr) in Hin as (al & ? & ? & ?); eauto|].
    intros b al d' Hb Hw Hd. destruct (Hmin (d', b)) as [?|[? _]]; [|simpl in *; lia..].
    apply (rp_deadlines _ _ Hr). eauto.
  - intros a al d Ha Hw Hd. assert (Hin : (d, a) ∈ in_order (deadlines s)).
    { apply elem_of_in_order, (rp_deadlines _ _ Hr). eauto. }
    destruct (in_order (deadlines s)); [by apply not_elem_of_nil in Hin|done].
Qed.

(** *** Everything *)

Lemma NoDup_buckets (m : gmap Z (list TimerEntry)) :
  (forall h l, m !! h = Some l -> NoDup l) ->
  (forall h h' l l' e, m !! h = Some l -> m !! h' = Some l' -> e ∈ l -> e ∈ l' -> h = h') ->
  NoDup (mjoin (map_to_list m).*2).
Proof.
  induction m as [|h l m Hh IH] using map_ind; intros H1 H2; [rewrite map_to_list_empty; constructor|].
  rewrite map_to_list_insert by done. simpl. apply NoDup_app. split_and!.
  - apply (H1 h). by rewrite lookup_insert_eq.
  - intros e He (b & Hb & Hm)%list_elem_of_join. apply list_elem_of_fmap in Hm as ([h' b'] & -> & Hm%elem_of_map_to_list). simpl in *.
    assert (h' ≠ h) as Hne by congruence. apply Hne. symmetry. eapply (H2 h h' l b' e); [by rewrite lookup_insert_eq| |done|done].
    by rewrite lookup_insert_ne.
  - apply IH.
    + intros h' l' Hl'. apply (H1 h'). rewrite lookup_insert_ne; [done|congruence].
    + intros h1 h2 l1 l2 e Hl1 Hl2. apply H2; rewrite lookup_insert_ne; congruence.
Qed.

Lemma entries_alarms s A :
  represents s A -> mjoin (map_to_list (keyed s)).*2 ≡ₚ (fun x => entry_of x.1 x.2) <$> map_to_list (alarms A).
Proof.
  intros Hr. apply NoDup_Permutation.
  - apply NoDup_buckets.
    + intros h l Hl. destruct (rp_bucket _ _ Hr h l Hl) as [_ Hnd]. by eapply NoDup_fmap_1.
    + intros h h' l l' e Hl Hl' He He'. destruct (rp_entry _ _ Hr _ _ _ Hl He) as [<- _], (rp_entry _ _ Hr _ _ _ Hl' He') as [<- _]. done.
  - apply NoDup_fmap_2_strong; [|apply NoDup_map_to_list]. intros [a x] [b y] Ha%elem_of_map_to_list Hb%elem_of_map_to_list E.
    simpl in E. assert (a = b) as -> by (by injection E). congruence.
  - intros e. rewrite list_elem_of_join. split.
    + intros (l & He & Hl). apply list_elem_of_fmap in Hl as ([h l'] & -> & Hl%elem_of_map_to_list). simpl in *.
      destruct (rp_entry _ _ Hr h l' e Hl He) as (_ & al & Ha & Hee). apply list_elem_of_fmap.
      exists (arming_order e, al). split; [done|]. by apply elem_of_map_to_list.
    + intros ([a al] & -> & Ha%elem_of_map_to_list)%list_elem_of_fmap. simpl.
      destruct (rp_alarm _ _ Hr a al Ha) as (l & Hl & He). exists l. split; [done|]. apply list_elem_of_fmap.
      exists (hash_key (al_key al), l). split; [done|]. by apply elem_of_map_to_list.
Qed.
Lemma represents_clear s A :
  represents s A -> represents (mkStore (arming_orders s) ∅ ∅ ∅) (mkAlarms (issued_orders A) ∅).
Proof.
  intros Hr. split; simpl; try done.
  - intros d a. split; [set_solver|]. by intros (al & ? & _).
  - intros a []. done.
  - apply (rp_counter _ _ Hr).
Qed.

Lemma waiting_deadlines s A : represents s A -> deadlines s = waiting_alarms A.
Proof.
  intros Hr. apply set_eq. intros [d a]. rewrite (rp_deadlines _ _ Hr). unfold waiting_alarms, waiting_list.
  rewrite elem_of_list_to_set, list_elem_of_omap. split.
  - intros (al & Ha & Hd & Hw). exists (a, al). rewrite elem_of_map_to_list. simpl. by rewrite Hd, Hw.
  - intros ([b al] & Hb%elem_of_map_to_list & H). simpl in H. destruct (al_deadline al) eqn:Ed, (al_waiting al) eqn:Ew; simplify_eq. eauto.
Qed.
Lemma armings_empty s A : represents s A -> armings s = ∅ <-> alarms A = ∅.
Proof.
  intros Hr. rewrite !map_empty. setoid_rewrite (rp_armings _ _ Hr).
  split; intros H a; specialize (H a); by destruct (alarms A !! a).
Qed.

(** ** The simulation *)

(** Only what was reported due is delivered. *)
Definition legal A (op : timer_op) : Prop :=
  match op with
  | TDeliverDue a _ => forall al, alarms A !! a = Some al -> al_waiting al = false
  | _ => True
  end.

(** Clearing destroys in an order of its own. *)
Definition agrees (r r' : timer_result) : Prop :=
  match r, r' with
  | RCleared l, RCleared l' => l ≡ₚ l'
  | _, _ => r = r'
  end.

Definition simulates s (m : outcome (timer_result * Alarms)) (m' : outcome (timer_result * TimerStore)) : Prop :=
  match m with
  | Ret (r, A) => exists r' s', m' = Ret (r', s') /\ agrees r' r /\ represents s' A
  | ProcessAborts => m' = ProcessAborts
  | Panics _ => False
  end.

Lemma without_represented s A k :
  represents s A -> issued_orders (without (alarm_of k A) A) = issued_orders A /\
    (forall b al, alarms (without (alarm_of k A) A) !! b = Some al -> al_key al ≠ k) /\
    forall b, alarms A !! b = None -> alarms (without (alarm_of k A) A) !! b = None.
Proof.
  intros Hr. destruct (alarm_of k A) as [[a al]|] eqn:E; simpl.
  - eapply alarm_of_Some in E as [Ha Hk]; [|done]. split_and!; [done| |].
    + intros b al' [Hne Hb]%lookup_delete_Some Hk'. apply Hne. eapply (rp_keys _ _ Hr); [done|done|congruence].
    + intros b Hb. apply lookup_delete_None. by right.
  - split_and!; [done| |done]. by eapply alarm_of_None.
Qed.

Lemma replace_simulates s A k d m :
  represents s A -> simulates s (alarm_exec A (TReplace k d m)) (store_exec s (TReplace k d m)).
Proof.
  intros Hr. destruct (rp_counter _ _ Hr) as [Hc Hmax]. cbn [alarm_exec store_exec]. unfold replace. rewrite Hc.
  destruct (MonotonicCounter.mint _) as [[a c]| |] eqn:Em; cbn [mbind outcome_bind simulates]; [| |done].
  2: { exfalso. unfold MonotonicCounter.mint, MonotonicCounter.successor, exhausted in Em. by destruct (checked_add_u64 _ _). }
  apply mint_Ret in Em as (Ha & Hle & ->). simpl in Ha.
  pose proof (represents_mint s A a Hr ltac:(lia) Hle) as Hr1. destruct (remove_hashed_spec _ _ k Hr1) as (s1 & -> & Hr2).
  cbn [mbind outcome_bind]. change (alarm_of k (mkAlarms a (alarms A))) with (alarm_of k A) in *.
  destruct (without_represented _ _ k Hr1) as (Hi & Hk & Hn). change (alarm_of k (mkAlarms a (alarms A))) with (alarm_of k A) in *.
  assert (Hfr : alarms A !! a = None).
  { destruct (alarms A !! a) eqn:E; [|done]. pose proof (rp_orders _ _ Hr a ltac:(by eexists)). lia. }
  specialize (Hn a Hfr). rewrite (rp_armings _ _ Hr2), Hn. simpl. eexists _, _. split; [done|]. split; [done|].
  pose proof (represents_insert _ _ k d m a Hr2 Hk Hn ltac:(rewrite Hi; simpl; lia)) as H. rewrite Hi in H. simpl in H.
  by destruct (alarm_of k A) as [[b al]|].
Qed.

Lemma deliver_simulates s A a now :
  represents s A -> legal A (TDeliverDue a now) ->
  simulates s (alarm_exec A (TDeliverDue a now)) (store_exec s (TDeliverDue a now)).
Proof.
  intros Hr Hl. cbn [alarm_exec store_exec simulates]. unfold deliver_due. pose proof (locate_arming_spec s A a Hr) as Hloc.
  destruct (alarms A !! a) as [al|] eqn:Ha; [|rewrite Hloc; simpl; by eexists _, _].
  destruct Hloc as (l & i & -> & Hb & Hi). cbn [mbind outcome_bind at_hash at_index]. rewrite Hb. cbn [expect mbind outcome_bind].
  rewrite Hi. cbn [expect mbind outcome_bind entry_of message].
  destruct (al_message al) as [m|m clone period] eqn:Em.
  - destruct (unlink_spec _ _ _ _ _ _ _ Hr Hb Hi Ha) as (s' & -> & Hr'). simpl. rewrite Em. by eexists _, _.
  - destruct (clone m) as [m'|payload]; simpl; [|by eexists _, _]. eexists _, _. split; [done|]. split; [done|].
    rewrite <- Em. by apply represents_rearm; [|done|apply Hl| |].
Qed.

Lemma store_exec_simulates s A op :
  represents s A -> legal A op -> simulates s (alarm_exec A op) (store_exec s op).
Proof.
  intros Hr Hl. destruct op as [k d m|k|k m|now|a now| | |].
  - by apply replace_simulates.
  - cbn [alarm_exec store_exec simulates]. unfold remove. destruct (remove_hashed_spec _ _ k Hr) as (s' & -> & Hr').
    by eexists _, _.
  - cbn [alarm_exec store_exec simulates]. unfold clear_and_dispose, remove.
    destruct (remove_hashed_spec _ _ k Hr) as (s' & -> & Hr'). by eexists _, _.
  - cbn [alarm_exec store_exec simulates]. unfold take_due. rewrite (take_due_list _ _ now Hr).
    eexists _, _. split; [done|]. split; [done|]. by apply represents_due.
  - by apply deliver_simulates.
  - cbn [alarm_exec store_exec simulates]. unfold store_clear. eexists _, _. split; [done|].
    split; [|by apply represents_clear]. simpl. rewrite (entries_alarms _ _ Hr), <- list_fmap_compose. done.
  - cbn [alarm_exec store_exec simulates]. unfold next_deadline. rewrite (waiting_deadlines _ _ Hr). by eexists _, _.
  - cbn [alarm_exec store_exec simulates]. unfold store_is_empty. eexists _, _. split; [done|]. split; [|done]. simpl. f_equal.
    apply bool_decide_ext, (armings_empty _ _ Hr).
Qed.

(** Requests that keep to the protocol. *)
Fixpoint legal_run A (ops : list timer_op) : Prop :=
  match ops with
  | [] => True
  | op :: ops => legal A op /\ match alarm_exec A op with Ret (_, A) => legal_run A ops | _ => True end
  end.

Lemma run_simulates s A ops :
  represents s A -> legal_run A ops ->
  match run_ops alarm_exec A ops with
  | Ret (rs, A') => exists rs' s', run_ops store_exec s ops = Ret (rs', s') /\ Forall2 agrees rs' rs /\ represents s' A'
  | ProcessAborts => run_ops store_exec s ops = ProcessAborts
  | Panics _ => False
  end.
Proof.
  revert s A. induction ops as [|op ops IH]; intros s A Hr Hl; [by exists [], s|].
  destruct Hl as [Hl Hls]. pose proof (store_exec_simulates s A op Hr Hl) as Hs. cbn [run_ops].
  destruct (alarm_exec A op) as [[r A1]| |] eqn:Ea; cbn [simulates mbind outcome_bind] in *; [|done|by rewrite Hs].
  destruct Hs as (r' & s1 & -> & Hag & Hr1). cbn [mbind outcome_bind]. specialize (IH s1 A1 Hr1 Hls).
  destruct (run_ops alarm_exec A1 ops) as [[rs A2]| |]; cbn [mbind outcome_bind]; [|done|by rewrite IH].
  destruct IH as (rs' & s2 & -> & Hrs & Hr2). cbn [mbind outcome_bind]. exists (r' :: rs'), s2. auto.
Qed.
End spec.

(** C33: the timer store refines a map of alarms.  For every hasher, collisions
    included, any sequence of requests in which only armings reported due are
    delivered gives the results of a plain map: arming a key replaces and
    retires its timer, removal retracts it even when it is due, due armings come
    by deadline and then arming order, a one-shot is delivered once and an
    interval is armed again, also after its clone unwound.  No internal index is
    ever found corrupted, and only an exhausted arming counter aborts. *)
Theorem timer_store_refines_alarms {K M} `{!EqDecision K} {clock : Clock} (hash_key : K -> Z) (ops : list (timer_op (K := K) (M := M))) :
  legal_run (mkAlarms 0 ∅) ops ->
  match run_ops alarm_exec (mkAlarms 0 ∅) ops with
  | Ret (rs, _) => exists rs' s, run_ops (store_exec hash_key) store_new ops = Ret (rs', s) /\ Forall2 agrees rs' rs
  | ProcessAborts => run_ops (store_exec hash_key) store_new ops = ProcessAborts
  | Panics _ => False
  end.
Proof.
  intros Hl. pose proof (run_simulates hash_key store_new _ ops (represents_new hash_key) Hl) as H.
  destruct (run_ops alarm_exec _ ops) as [[rs A]| |]; [|done..]. destruct H as (rs' & s & ? & ? & _). eauto.
Qed.

(** Two keys in one bucket: a one-shot and an interval fire together, the
    interval is armed again and then retracted. *)
#[local] Instance timers_clock : Clock := unix_clock.
Definition timers_demo : list (timer_op (K := Z) (M := Z)) :=
  [TReplace 1 (Some 5) (Once 10); TReplace 2 (Some 4) (Interval 20 Ok 3); TTakeDue 7;
   TDeliverDue 2 7; TDeliverDue 1 7; TNextDeadline; TRemove 2; TIsEmpty].

Lemma timer_store_refines_alarms_witness :
  exists rs s, run_ops (store_exec (fun _ => 0)) store_new timers_demo = Ret (rs, s) /\
    Forall2 agrees rs
      [RArmed 1 []; RArmed 2 []; RDue [2; 1]; RDelivered (Delivered 20) []; RDelivered (Delivered 10) [RetiredKey 1];
       RNext (Some 10); RRemoved true [RetiredKey 2; RetiredMessage (Interval 20 Ok 3)]; REmpty true].
Proof.
  assert (Hl : legal_run (mkAlarms 0 ∅) timers_demo).
  { repeat split; intros al H; vm_compute in H; injection H as <-; reflexivity. }
  pose proof (timer_store_refines_alarms (fun _ => 0) timers_demo Hl) as H.
  destruct (run_ops alarm_exec (mkAlarms 0 ∅) timers_demo) as [[rs A]| |] eqn:E; vm_compute in E; try discriminate E.
  injection E as <- _. exact H.
Defined.
