(* ===== verification/Raw.v ===== *)
(** * The raw actor loop

    [raw/context.rs], [raw/context/select.rs] and [raw/context/resources.rs]:
    the resources of one actor incarnation - queued continuations, keyed timers,
    completions of offloaded work - the operations its handler has on them, and
    the selection of its next input.

    The code is a [Prog]: reads of the mailbox, of the completion queue, of the
    clock and of latches are atomic steps, and other threads act in between.  A
    user panic that escapes a call is a value ([Unwound], [Err]), so that what
    the next call finds is modelled; [Panics] is left for assertions of the
    framework.  Which destructors panic is a parameter, [drop_panics], and so is
    what the cancellation of an offload raises, [cancel_panics].  Wakes are the
    part of the signal, and are not modelled here. *)

From S2P Require Import Prelude BTree Time Identity Policy Latch Interleave TimerStore.

(** What the loop asks of its mailbox: the newest accepted sequence, the next
    message accepted up to a cutoff, the next one of a frozen prefix, and the
    end of intake.  A post-commit effect of each may panic. *)
Class Inbox (M B : Type) := mkInbox
  { in_accepted : B -> Z;
    in_try_recv_through : Z -> B -> outcome (result (option M) string * B);
    in_try_recv : B -> outcome (result (option M) string * B);
    in_freeze : B -> result () string * B }.

Module ReadyBatchPhase.
Inductive t :=
| Steady (mailbox_delivered : bool)
| Fired (armings : list Z) (continuations_remaining : nat).
End ReadyBatchPhase.
Import ReadyBatchPhase (Steady, Fired).

Record ReadyBatch := mkBatch
  { batch_phase : ReadyBatchPhase.t; mailbox_through : Z; offloads_remaining : nat }.

(** An entry of the offload ledger: its latches, and its shared state unless the
    work was never started. *)
Record OffloadResource := mkOffload
  { off_cancellation : Z; off_finished : Z; off_state : option Z }.

(** A lease on an offload. *)
Record Guard := mkGuard { guard_cancellation : Z; guard_finished : Z; armed : bool }.

(** The latches of one incarnation. *)
Record Latches := mkLatches { shutdown : Z; abort : Z; local_stop : Z }.

Section raw.
Context {K M B W : Type} `{!EqDecision K, !Inbox M B} {clock : Clock} (hash_key : K -> Z).

(** ** Resources *)

(** A completion of offloaded work: its cancellation latch and the call that
    builds its message. *)
Record QueuedEvent := mkQueued { cancellation : Z; make_message : result M string }.

(** What the incarnation destroys. *)
Inductive Trash :=
| TrashTimer (r : Retired K M)
| TrashMessage (m : M)
| TrashEvent (e : QueuedEvent)
| TrashWork (w : W).

Context (drop_panics : Trash -> option string) (cancel_panics : OffloadResource -> list string).

(** The state of an incarnation: what other threads share, then what it owns.
    [fired] are the latches that have fired, [published] the offloads whose
    completion is published, [next_id] the next fresh latch. *)
Record Actor := mkActor
  { inbox : B;
    now : Z;
    fired : gset Z;
    events : list QueuedEvent;
    panic_slot : option string;
    published : gset Z;
    ready_gate : Z;
    accepting : bool;
    continuations : list M;
    last_delivery_was_continuation : bool;
    timers : TimerStore K M;
    ready_batch : option ReadyBatch;
    offloads : list OffloadResource;
    deferred_init_stop : bool;
    next_id : Z;
    trash : list Trash }.

Definition set_inbox x s : Actor :=
  mkActor x (now s) (fired s) (events s) (panic_slot s) (published s) (ready_gate s) (accepting s)
    (continuations s) (last_delivery_was_continuation s) (timers s) (ready_batch s) (offloads s)
    (deferred_init_stop s) (next_id s) (trash s).
Definition set_now x s : Actor :=
  mkActor (inbox s) x (fired s) (events s) (panic_slot s) (published s) (ready_gate s) (accepting s)
    (continuations s) (last_delivery_was_continuation s) (timers s) (ready_batch s) (offloads s)
    (deferred_init_stop s) (next_id s) (trash s).
Definition set_fired x s : Actor :=
  mkActor (inbox s) (now s) x (events s) (panic_slot s) (published s) (ready_gate s) (accepting s)
    (continuations s) (last_delivery_was_continuation s) (timers s) (ready_batch s) (offloads s)
    (deferred_init_stop s) (next_id s) (trash s).
Definition set_events x s : Actor :=
  mkActor (inbox s) (now s) (fired s) x (panic_slot s) (published s) (ready_gate s) (accepting s)
    (continuations s) (last_delivery_was_continuation s) (timers s) (ready_batch s) (offloads s)
    (deferred_init_stop s) (next_id s) (trash s).
Definition set_slot x s : Actor :=
  mkActor (inbox s) (now s) (fired s) (events s) x (published s) (ready_gate s) (accepting s)
    (continuations s) (last_delivery_was_continuation s) (timers s) (ready_batch s) (offloads s)
    (deferred_init_stop s) (next_id s) (trash s).
Definition set_published x s : Actor :=
  mkActor (inbox s) (now s) (fired s) (events s) (panic_slot s) x (ready_gate s) (accepting s)
    (continuations s) (last_delivery_was_continuation s) (timers s) (ready_batch s) (offloads s)
    (deferred_init_stop s) (next_id s) (trash s).
Definition set_ready x s : Actor :=
  mkActor (inbox s) (now s) (fired s) (events s) (panic_slot s) (published s) x (accepting s)
    (continuations s) (last_delivery_was_continuation s) (timers s) (ready_batch s) (offloads s)
    (deferred_init_stop s) (next_id s) (trash s).
Definition set_accepting x s : Actor :=
  mkActor (inbox s) (now s) (fired s) (events s) (panic_slot s) (published s) (ready_gate s) x
    (continuations s) (last_delivery_was_continuation s) (timers s) (ready_batch s) (offloads s)
    (deferred_init_stop s) (next_id s) (trash s).
Definition set_continuations x s : Actor :=
  mkActor (inbox s) (now s) (fired s) (events s) (panic_slot s) (published s) (ready_gate s)
    (accepting s) x (last_delivery_was_continuation s) (timers s) (ready_batch s) (offloads s)
    (deferred_init_stop s) (next_id s) (trash s).
Definition set_last x s : Actor :=
  mkActor (inbox s) (now s) (fired s) (events s) (panic_slot s) (published s) (ready_gate s)
    (accepting s) (continuations s) x (timers s) (ready_batch s) (offloads s) (deferred_init_stop s)
    (next_id s) (trash s).
Definition set_timers x s : Actor :=
  mkActor (inbox s) (now s) (fired s) (events s) (panic_slot s) (published s) (ready_gate s)
    (accepting s) (continuations s) (last_delivery_was_continuation s) x (ready_batch s)
    (offloads s) (deferred_init_stop s) (next_id s) (trash s).
Definition set_batch x s : Actor :=
  mkActor (inbox s) (now s) (fired s) (events s) (panic_slot s) (published s) (ready_gate s)
    (accepting s) (continuations s) (last_delivery_was_continuation s) (timers s) x (offloads s)
    (deferred_init_stop s) (next_id s) (trash s).
Definition set_offloads x s : Actor :=
  mkActor (inbox s) (now s) (fired s) (events s) (panic_slot s) (published s) (ready_gate s)
    (accepting s) (continuations s) (last_delivery_was_continuation s) (timers s) (ready_batch s) x
    (deferred_init_stop s) (next_id s) (trash s).
Definition set_deferred x s : Actor :=
  mkActor (inbox s) (now s) (fired s) (events s) (panic_slot s) (published s) (ready_gate s)
    (accepting s) (continuations s) (last_delivery_was_continuation s) (timers s) (ready_batch s)
    (offloads s) x (next_id s) (trash s).
Definition set_next_id x s : Actor :=
  mkActor (inbox s) (now s) (fired s) (events s) (panic_slot s) (published s) (ready_gate s)
    (accepting s) (continuations s) (last_delivery_was_continuation s) (timers s) (ready_batch s)
    (offloads s) (deferred_init_stop s) x (trash s).
Definition set_trash x s : Actor :=
  mkActor (inbox s) (now s) (fired s) (events s) (panic_slot s) (published s) (ready_gate s)
    (accepting s) (continuations s) (last_delivery_was_continuation s) (timers s) (ready_batch s)
    (offloads s) (deferred_init_stop s) (next_id s) x.

(** [PanicSlot::record]: the first panic wins. *)
Definition record_panic (payload : string) s := set_slot (Some (default payload (panic_slot s))) s.

(** [RawDisposal::dispose]. *)
Definition dispose (x : Trash) s : Actor :=
  let s := set_trash (trash s ++ [x]) s in
  match drop_panics x with
  | Some payload => record_panic payload s
  | None => s
  end.
Definition dispose_all (l : list Trash) s : Actor := foldl (fun s x => dispose x s) s l.
Definition dispose_timers (l : list (Retired K M)) s : Actor := dispose_all (TrashTimer <$> l) s.

(** ** [ReadyBatch] *)

Definition steady (through : Z) (offloads : nat) : ReadyBatch := mkBatch (Steady false) through offloads.

Definition promote_to_fired (armings : list Z) (continuations : nat) (through : Z) (offloads : nat) (b : ReadyBatch)
  : outcome ReadyBatch :=
  _ ← assert_that (negb (bool_decide (armings = []))) "!armings.is_empty()";
  _ ← assert_that (match batch_phase b with Steady _ => true | Fired _ _ => false end) "phase is Steady";
  Ret (mkBatch (Fired armings continuations) through offloads).

Definition mailbox_budget_exhausted (b : ReadyBatch) : bool :=
  match batch_phase b with Steady delivered => delivered | Fired _ _ => false end.
Definition mailbox_is_eligible (b : ReadyBatch) : bool :=
  match batch_phase b with Steady delivered => negb delivered | Fired _ _ => true end.
Definition is_fired_batch (b : ReadyBatch) : bool :=
  match batch_phase b with Steady _ => false | Fired _ _ => true end.
Definition continuation_is_eligible (b : ReadyBatch) : bool :=
  match batch_phase b with Steady _ => true | Fired _ remaining => negb (Nat.eqb remaining 0) end.

Definition set_phase (p : ReadyBatchPhase.t) (b : ReadyBatch) : ReadyBatch :=
  mkBatch p (mailbox_through b) (offloads_remaining b).

Definition record_continuation_delivery (b : ReadyBatch) : outcome ReadyBatch :=
  match batch_phase b with
  | Steady _ => Ret b
  | Fired armings remaining =>
      _ ← assert_that (negb (Nat.eqb remaining 0)) "*continuations_remaining > 0";
      Ret (set_phase (Fired armings (remaining - 1)) b)
  end.
Definition record_mailbox_delivery (b : ReadyBatch) : outcome ReadyBatch :=
  match batch_phase b with
  | Steady delivered =>
      _ ← assert_that (negb delivered) "!*mailbox_delivered";
      Ret (set_phase (Steady true) b)
  | Fired _ _ => Ret b
  end.
Definition next_arming (b : ReadyBatch) : option Z :=
  match batch_phase b with Steady _ => None | Fired armings _ => head armings end.
Definition commit_arming (arming : Z) (b : ReadyBatch) : outcome ReadyBatch :=
  match batch_phase b with
  | Steady _ => Panics "only a fired batch delivers timer armings"
  | Fired armings remaining =>
      _ ← assert_that (bool_decide (head armings = Some arming)) "removed == Some(arming)";
      Ret (set_phase (Fired (tail armings) remaining) b)
  end.

(** ** Resource operations *)

Definition the_batch s : outcome ReadyBatch :=
  expect "ready selection always owns an arbitration batch" (ready_batch s).

(** Entries leave the ledger when their completion is published; an entry that
    was never started, when its latch has fired. *)
Definition is_finished (s : Actor) (o : OffloadResource) : bool :=
  match off_state o with
  | Some state => bool_decide (state ∈ published s)
  | None => bool_decide (off_finished o ∈ fired s)
  end.
Definition reclaim_finished s : Actor :=
  set_offloads (filter (fun o => is_finished s o = false) (offloads s)) s.

Definition pop_continuation (lead : bool) s : outcome (option M * Actor) :=
  b ← the_batch s;
  if (negb lead || negb (last_delivery_was_continuation s)) && continuation_is_eligible b then
    match continuations s with
    | m :: rest =>
        b ← record_continuation_delivery b;
        Ret (Some m, set_last true (set_batch (Some b) (set_continuations rest s)))
    | [] => Ret (None, s)
    end
  else Ret (None, s).

(** [EventQueue::pop_through] of the batch's captured prefix. *)
Definition pop_batched_event s : outcome (option QueuedEvent * Actor) :=
  b ← the_batch s;
  match offloads_remaining b with
  | O => Ret (None, s)
  | S remaining =>
      match events s with
      | e :: rest =>
          Ret (Some e, set_events rest (set_batch (Some (mkBatch (batch_phase b) (mailbox_through b) remaining)) s))
      | [] => Panics "a timer watermark covers queued events"
      end
  end.

(** ** Steps *)

Local Abbreviation Prog := (Prog Actor).

Definition observe {A} (f : Actor -> A) : Prog A := atom (fun s => Ret (f s, s)).
Definition owned {A} (f : Actor -> outcome (A * Actor)) : Prog A := atom f.
Definition update (f : Actor -> Actor) : Prog () := atom (fun s => Ret ((), f s)).
Definition is_set (latch : Z) : Prog bool := observe (fun s => bool_decide (latch ∈ fired s)).
Definition fire_latch (latch : Z) : Prog () := update (fun s => set_fired ({[latch]} ∪ fired s) s).

(** [OffloadResource::cancel]: both latches fire; a state whose completion latch
    this call fires is published by it. *)
Definition cancel_offload (o : OffloadResource) s : Actor :=
  let claimed := bool_decide (off_finished o ∉ fired s) in
  let s := set_fired ({[off_cancellation o; off_finished o]} ∪ fired s) s in
  let s := match off_state o with
           | Some state => if claimed then set_published ({[state]} ∪ published s) s else s
           | None => s
           end in
  foldl (fun s payload => record_panic payload s) s (cancel_panics o).

Fixpoint cancel_offloads (l : list OffloadResource) : Prog () :=
  match l with
  | [] => mret ()
  | o :: l => _ ← update (cancel_offload o); cancel_offloads l
  end.

(** [RawResources::freeze]: offloads are cancelled, everything queued retires. *)
Definition freeze_resources : Prog () :=
  open ← observe accepting;
  if negb open then mret ()
  else
    _ ← update (set_accepting false);
    l ← observe offloads;
    _ ← cancel_offloads l;
    _ ← update (fun s => dispose_all (TrashMessage <$> continuations s) (set_continuations [] s));
    _ ← update (fun s => let '(retired, t) := store_clear (timers s) in dispose_timers retired (set_timers t s));
    _ ← update (set_batch None);
    update (fun s => dispose_all (TrashEvent <$> events s) (set_events [] s)).

(** ** Selection *)

(** Where a message came from; a timer's, by its arming. *)
Inductive Source := FromContinuation | FromMailbox | FromOffload | FromTimer (arming : Z).

(** How a call ends: with a message, with nothing, in a user panic, or not yet. *)
Inductive Selection :=
| Selected (from : Source) (m : M)
| NothingReady
| Unwound (payload : string)
| StillSelecting.

Definition accepted_now : Prog Z := observe (fun s => in_accepted (inbox s)).
Definition watermark : Prog nat := observe (fun s => length (events s)).

Definition external_work_is_ready (budget_exhausted : bool) (cutoff : Z) : Prog bool :=
  if budget_exhausted then mret true
  else
    a ← accepted_now;
    if cutoff <? a then mret true
    else n ← watermark; mret (negb (Nat.eqb n 0)).

Definition begin_ready_batch : Prog () :=
  has ← observe (fun s => bool_decide (is_Some (ready_batch s)));
  _ ← (if has : bool then mret ()
       else
         through ← accepted_now;
         n ← watermark;
         update (set_batch (Some (steady through n))));
  skip ← observe (fun s => match ready_batch s with Some b => is_fired_batch b | None => false end ||
                           store_is_empty (timers s));
  if skip : bool then mret ()
  else
    t ← observe now;
    armings ← owned (fun s => let '(l, ts) := take_due t (timers s) in Ret (l, set_timers ts s));
    match armings with
    | [] => mret ()
    | _ =>
        queued ← observe (fun s => length (continuations s));
        through ← accepted_now;
        n ← watermark;
        owned (fun s =>
          b ← expect "steady batch was initialized" (ready_batch s);
          b ← promote_to_fired armings queued through n b;
          Ret ((), set_batch (Some b) s))
    end.

(** The mailbox stage: a turn is spent on a delivery and on a panic. *)
Definition mailbox_stage : Prog (option Selection) :=
  b ← owned (fun s => b ← the_batch s; Ret (b, s));
  if mailbox_is_eligible b then
    r ← owned (fun s => '(r, inb) ← in_try_recv_through (mailbox_through b) (inbox s); Ret (r, set_inbox inb s));
    match r with
    | Ok None => mret None
    | _ =>
        _ ← owned (fun s =>
          b ← the_batch s;
          b ← record_mailbox_delivery b;
          Ret ((), set_last false (set_batch (Some b) s)));
        mret (Some match r with
                   | Ok (Some m) => Selected FromMailbox m
                   | Ok None => NothingReady
                   | Err payload => Unwound payload
                   end)
    end
  else mret None.

(** The offload stage; [fuel] is the captured prefix. *)
Fixpoint offload_stage (fuel : nat) : Prog (option Selection) :=
  match fuel with
  | O => mret None
  | S fuel =>
      e ← owned pop_batched_event;
      match e with
      | None => mret None
      | Some e =>
          cancelled ← is_set (cancellation e);
          if cancelled : bool then
            _ ← update (dispose (TrashEvent e));
            offload_stage fuel
          else
            match make_message e with
            | Ok m => _ ← update (set_last false); mret (Some (Selected FromOffload m))
            | Err payload => mret (Some (Unwound payload))
            end
      end
  end.

Fixpoint timer_stage (fuel : nat) : Prog (option Selection) :=
  match fuel with
  | O => mret None
  | S fuel =>
      arming ← owned (fun s => b ← the_batch s; Ret (next_arming b, s));
      match arming with
      | None => mret None
      | Some arming =>
          t ← observe now;
          d ← owned (fun s =>
            '(d, retired, ts) ← deliver_due arming t (timers s);
            Ret (d, dispose_timers retired (set_timers ts s)));
          match d with
          | CloneUnwinds payload => mret (Some (Unwound payload))
          | _ =>
              _ ← owned (fun s => b ← the_batch s; b ← commit_arming arming b; Ret ((), set_batch (Some b) s));
              match d with
              | Delivered m => _ ← update (set_last false); mret (Some (Selected (FromTimer arming) m))
              | _ => timer_stage fuel
              end
          end
      end
  end.

(** The end of a turn without a delivery: whether another turn is due. *)
Definition next_turn : Prog bool :=
  b ← owned (fun s => b ← the_batch s; Ret (b, set_batch None s));
  due ← observe (fun s => next_deadline (timers s));
  timer_is_due ← match due with
                 | Some d => t ← observe now; mret (d <=? t)
                 | None => mret false
                 end;
  ready ← external_work_is_ready (mailbox_budget_exhausted b) (mailbox_through b);
  queued ← observe (fun s => negb (bool_decide (continuations s = [])));
  mret (ready || queued || timer_is_due).

Definition resume_pending_panic : Prog (option string) :=
  owned (fun s => Ret (panic_slot s, set_slot None s)).

(** Whether a steady batch gives way to a new one before another continuation. *)
Definition refresh_turn : Prog bool :=
  b ← owned (fun s => b ← the_batch s; Ret (b, s));
  last ← observe last_delivery_was_continuation;
  if negb (is_fired_batch b) && last then
    ready ← external_work_is_ready (mailbox_budget_exhausted b) (mailbox_through b);
    if ready : bool then _ ← update (set_batch None); mret true else mret false
  else mret false.

(** The stages of a turn after the external ones. *)
Definition settle_turn : Prog (option Selection) :=
  again ← refresh_turn;
  if again : bool then mret None
  else
    m ← owned (pop_continuation false);
    match m with
    | Some m => mret (Some (Selected FromContinuation m))
    | None =>
        fires ← owned (fun s => b ← the_batch s;
          Ret (match batch_phase b with Fired l _ => length l | Steady _ => O end, s));
        r ← timer_stage (S fires);
        match r with
        | Some r => mret (Some r)
        | None =>
            again ← next_turn;
            if again : bool then mret None else mret (Some NothingReady)
        end
    end.

(** The stages of a turn, once it has its batch. *)
Definition arbitrate : Prog (option Selection) :=
  m ← owned (pop_continuation true);
  match m with
  | Some m => mret (Some (Selected FromContinuation m))
  | None =>
      r ← mailbox_stage;
      match r with
      | Some r => mret (Some r)
      | None =>
          prefix ← owned (fun s => b ← the_batch s; Ret (offloads_remaining b, s));
          r ← offload_stage (S prefix);
          match r with
          | Some r => mret (Some r)
          | None => settle_turn
          end
      end
  end.

(** One turn: a result, or the next turn. *)
Definition selection_turn : Prog (option Selection) :=
  p ← resume_pending_panic;
  match p with
  | Some payload => mret (Some (Unwound payload))
  | None => _ ← begin_ready_batch; arbitrate
  end.

(** The loop of [select_ready]. *)
Fixpoint selection_loop (turns : nat) : Prog Selection :=
  match turns with
  | O => mret StillSelecting
  | S turns =>
      r ← selection_turn;
      match r with
      | Some r => mret r
      | None => selection_loop turns
      end
  end.

Definition select_ready (turns : nat) : Prog Selection :=
  _ ← update reclaim_finished;
  selection_loop turns.

(** A retained disposal panic comes before what was selected. *)
Definition next_ready (turns : nat) : Prog Selection :=
  r ← select_ready turns;
  match r with
  | Unwound _ | StillSelecting => mret r
  | Selected _ _ | NothingReady =>
      p ← resume_pending_panic;
      match p with
      | None => mret r
      | Some payload =>
          _ ← update (fun s => match r with Selected _ m => dispose (TrashMessage m) s | _ => s end);
          mret (Unwound payload)
      end
  end.

(** ** Operations of the handler *)

Context (L : Latches) (readiness : Readiness).

Definition is_stopping : Prog bool :=
  deferred ← observe deferred_init_stop;
  if deferred : bool then mret true
  else
    stopped ← is_set (local_stop L);
    if stopped : bool then mret true
    else
      down ← is_set (shutdown L);
      if down : bool then mret true else is_set (abort L).
Definition rejects_new_work : Prog bool :=
  stopping ← is_stopping;
  if stopping : bool then mret true else observe (fun s => negb (accepting s)).

(** [CompletionGatedLatch::fire]. *)
Definition mark_ready : Prog () :=
  stopping ← is_stopping;
  if stopping : bool then mret ()
  else update (fun s => if ready_gate s =? COMPLETION_GATE_OPEN then set_ready COMPLETION_GATE_FIRED s else s).

Definition freeze_intake : Prog (result () string) :=
  r ← owned (fun s => let '(r, inb) := in_freeze (inbox s) in Ret (r, set_inbox inb s));
  match r with
  | Err payload => mret (Err payload)
  | Ok _ => _ ← freeze_resources; mret (Ok ())
  end.

Definition stop : Prog (result () string) :=
  r ← freeze_intake;
  match r with
  | Err payload => mret (Err payload)
  | Ok _ => _ ← fire_latch (local_stop L); mret (Ok ())
  end.

Definition defer_stop_until_after_init : Prog (result () string) :=
  deferred ← observe deferred_init_stop;
  if deferred : bool then mret (Ok ())
  else _ ← update (set_deferred true); freeze_intake.

Definition finish_callback_init (successful : bool) : Prog () :=
  deferred ← owned (fun s => Ret (deferred_init_stop s, set_deferred false s));
  _ ← (if successful && bool_decide (readiness = AfterInit) then mark_ready else mret ());
  if deferred : bool then fire_latch (local_stop L) else mret ().

Definition continue_with (m : M) : Prog (result () M) :=
  rejected ← rejects_new_work;
  if rejected : bool then mret (Err m)
  else _ ← update (fun s => set_continuations (continuations s ++ [m]) s); mret (Ok ()).

Definition replace_timer (k : K) (m : TimerMessage M) (after : Z) : Prog () :=
  t ← observe now;
  owned (fun s =>
    '(_, retired, ts) ← replace hash_key k (Deadline.instant (Deadline.after t after)) m (timers s);
    Ret ((), dispose_timers retired (set_timers ts s))).

Definition set_timeout (k : K) (m : M) (after : Z) : Prog (result () (K * M)) :=
  rejected ← rejects_new_work;
  if rejected : bool then mret (Err (k, m))
  else _ ← replace_timer k (Once m) after; mret (Ok ()).

Definition set_interval (clone : M -> result M string) (k : K) (m : M) (period : Z) : Prog (result () (K * M)) :=
  rejected ← rejects_new_work;
  if rejected : bool then mret (Err (k, m))
  else if period =? 0 then
    _ ← owned (fun s =>
      '(retired, ts) ← clear_and_dispose hash_key k m (timers s);
      Ret ((), dispose_timers retired (set_timers ts s)));
    mret (Ok ())
  else _ ← replace_timer k (Interval m clone period) period; mret (Ok ()).

Definition clear_timer (k : K) : Prog bool :=
  owned (fun s =>
    '(found, retired, ts) ← remove hash_key k (timers s);
    Ret (found, dispose_timers retired (set_timers ts s))).

(** [Latch::default]. *)
Definition new_latch : Prog Z := owned (fun s => Ret (next_id s, set_next_id (next_id s + 1) s)).

(** [start_offload].  [elapsed] is the continuation applied to [DeadlineElapsed];
    work that starts is polled by another task. *)
Definition start_offload (work : W) (elapsed : result M string) (budget_is_zero : bool)
  : Prog (result Guard (W * result M string)) :=
  rejected ← rejects_new_work;
  if rejected : bool then mret (Err (work, elapsed))
  else
    _ ← update reclaim_finished;
    cancellation ← new_latch;
    finished ← new_latch;
    let guard := mkGuard cancellation finished true in
    if budget_is_zero then
      _ ← update (dispose (TrashWork work));
      _ ← update (fun s => set_events (events s ++ [mkQueued cancellation elapsed]) s);
      _ ← fire_latch finished;
      _ ← update (fun s => set_offloads (offloads s ++ [mkOffload cancellation finished None]) s);
      mret (Ok guard)
    else
      state ← new_latch;
      _ ← update (fun s => set_offloads (offloads s ++ [mkOffload cancellation finished (Some state)]) s);
      mret (Ok guard).

(** How the operation of an offload ends: cancelled first, with the result of
    its work or of its deadline handed to the continuation, or in a panic of the
    work.  The offload's task takes this step. *)
Inductive OperationEnd :=
| OperationCancelled
| OperationCompletes (message : result M string)
| OperationUnwinds (payload : string).
Definition operation_ends (cancellation : Z) (e : OperationEnd) s : Actor :=
  match e with
  | OperationCancelled => s
  | OperationCompletes message => set_events (events s ++ [mkQueued cancellation message]) s
  | OperationUnwinds payload => record_panic payload s
  end.

(** [Guard::detach] and the drop of a guard. *)
Definition detach (g : Guard) : Guard := mkGuard (guard_cancellation g) (guard_finished g) false.
Definition drop_guard (g : Guard) : Prog () := if armed g then fire_latch (guard_cancellation g) else mret ().

(** [offload]: the lease is released. *)
Definition offload (work : W) (elapsed : result M string) (budget_is_zero : bool)
  : Prog (result () (W * result M string)) :=
  r ← start_offload work elapsed budget_is_zero;
  match r with
  | Ok g => _ ← drop_guard (detach g); mret (Ok ())
  | Err rejected => mret (Err rejected)
  end.

(** ** Receiving *)

(** An iteration of [recv] up to its next await: it ends the call, waits for the
    driver's shutdown token, or parks until an event. *)
Inductive Receive :=
| Receives (from : Source) (m : M)
| ReceivesNone
| ReceiveUnwinds (payload : string)
| AwaitsShutdown
| Parks
| StillReceiving.

Definition ends_receive : Prog Receive :=
  p ← resume_pending_panic;
  mret (match p with Some payload => ReceiveUnwinds payload | None => ReceivesNone end).

Definition recv (turns : nat) : Prog Receive :=
  stopped ← is_set (local_stop L);
  if stopped : bool then
    r ← freeze_intake;
    match r with
    | Err payload => mret (ReceiveUnwinds payload)
    | Ok _ => mret AwaitsShutdown
    end
  else
    down ← is_set (shutdown L);
    if down : bool then
      r ← freeze_intake;
      match r with
      | Err payload => mret (ReceiveUnwinds payload)
      | Ok _ => ends_receive
      end
    else
      r ← next_ready turns;
      match r with
      | Selected from m => mret (Receives from m)
      | Unwound payload => mret (ReceiveUnwinds payload)
      | NothingReady => _ ← update reclaim_finished; mret Parks
      | StillSelecting => mret StillReceiving
      end.

(** [recv] after the shutdown token it awaited. *)
Definition recv_after_shutdown : Prog Receive := ends_receive.

Definition try_recv (turns : nat) : Prog Receive :=
  stopping ← is_stopping;
  if stopping : bool then
    r ← freeze_intake;
    match r with
    | Err payload => mret (ReceiveUnwinds payload)
    | Ok _ =>
        p ← resume_pending_panic;
        match p with
        | Some payload => mret (ReceiveUnwinds payload)
        | None =>
            r ← owned (fun s => '(r, inb) ← in_try_recv (inbox s); Ret (r, set_inbox inb s));
            mret (match r with
                  | Ok (Some m) => Receives FromMailbox m
                  | Ok None => ReceivesNone
                  | Err payload => ReceiveUnwinds payload
                  end)
        end
    end
  else
    r ← next_ready turns;
    mret (match r with
          | Selected from m => Receives from m
          | NothingReady => ReceivesNone
          | Unwound payload => ReceiveUnwinds payload
          | StillSelecting => StillReceiving
          end).
End raw.
Arguments QueuedEvent M : clear implicits.
Arguments Trash K M W : clear implicits.
Arguments Actor K M B W : clear implicits.
Arguments Selection M : clear implicits.
Arguments Receive M : clear implicits.
Arguments OperationEnd M : clear implicits.
