(* ===== verification/RawProps.v ===== *)
(** * The raw actor loop: its invariant

    What other threads may do to an incarnation, the invariant its resources
    keep under it, and the calls of [Raw] that keep it. *)

From S2P Require Import Prelude BTree Time Identity Policy Latch Interleave TimerStore Raw.
Import ReadyBatchPhase (Steady, Fired).

(** What a mailbox promises the loop.  [in_others] are the moves of other
    threads; [in_backlog l] counts the messages accepted up to [l]; a mailbox is
    [in_spent] when its sequence counter is used up. *)
Class InboxLaws (M B : Type) `{!Inbox M B} := mkInboxLaws
  { in_wf : B -> Prop;
    in_others : B -> B -> Prop;
    in_backlog : Z -> B -> nat;
    in_others_ok b b' : in_wf b -> in_others b b' ->
      in_wf b' /\ in_accepted b <= in_accepted b' /\ forall l, l <= in_accepted b -> (in_backlog l b' <= in_backlog l b)%nat;
    in_spent : B -> Prop;
    in_recv_through_ok l b : in_wf b ->
      match in_try_recv_through l b with
      | Ret (r, b') =>
          in_wf b' /\ in_accepted b <= in_accepted b' /\ (r = Ok None -> b' = b) /\
          (forall k, k <= in_accepted b -> (in_backlog k b' <= in_backlog k b)%nat) /\
          (r <> Ok None -> l <= in_accepted b -> (in_backlog l b' < in_backlog l b)%nat)
      | Panics _ => False
      | ProcessAborts => in_spent b
      end;
    in_recv_ok b : in_wf b ->
      match in_try_recv b with
      | Ret (r, b') =>
          in_wf b' /\ in_accepted b <= in_accepted b' /\
          (forall k, k <= in_accepted b -> (in_backlog k b' <= in_backlog k b)%nat)
      | Panics _ => False
      | ProcessAborts => in_spent b
      end;
    in_freeze_ok b : in_wf b -> in_wf (in_freeze b).2 /\ in_accepted b <= in_accepted (in_freeze b).2 /\
      (forall k, k <= in_accepted b -> (in_backlog k (in_freeze b).2 <= in_backlog k b)%nat) }.

Section props.
Context {K M B W : Type} `{!EqDecision K, !Inbox M B, !InboxLaws M B} {clock : Clock} (hash_key : K -> Z).
Context (drop_panics : Trash K M W -> option string) (cancel_panics : OffloadResource -> list string).
Local Abbreviation Actor := (Actor K M B W).
Local Abbreviation Alarms := (Alarms (K := K) (M := M)).
Implicit Types (s : Actor) (A : Alarms) (b : ReadyBatch).

(** ** Other threads *)

(** What an incarnation owns. *)
Definition owned_part s :=
  (accepting s, continuations s, last_delivery_was_continuation s, timers s, ready_batch s, offloads s,
   deferred_init_stop s, next_id s, trash s).

(** Senders and the driver act on the mailbox, the clock advances, latches fire,
    completions are queued and published, panics are recorded. *)
Record others s s' : Prop := mkOthers
  { oth_inbox : rtc in_others (inbox s) (inbox s');
    oth_now : now s <= now s';
    oth_fired : fired s ⊆ fired s';
    oth_events : exists l, events s' = events s ++ l;
    oth_published : published s ⊆ published s';
    oth_owned : owned_part s' = owned_part s }.

Lemma others_refl s : others s s.
Proof. split; [done|lia|done|exists []; by rewrite app_nil_r|done|done]. Qed.
Lemma others_trans s s' s'' : others s s' -> others s' s'' -> others s s''.
Proof.
  intros [? ? ? [l Hl] ? ?] [? ? ? [l' Hl'] ? ?]. split.
  - by etrans.
  - lia.
  - by etrans.
  - exists (l ++ l'). by rewrite Hl', Hl, app_assoc.
  - by etrans.
  - congruence.
Qed.
Lemma others_rtc s s' : rtc others s s' -> others s s'.
Proof. induction 1; [apply others_refl|by eapply others_trans]. Qed.

(** The end of an offload's operation is among them. *)
Lemma operation_ends_others c (e : OperationEnd M) s : others s (operation_ends c e s).
Proof.
  destruct e; [apply others_refl|..]; (split; [done|simpl; lia|done| |done|done]); simpl; [by eexists|]. exists []. by rewrite app_nil_r.
Qed.

(** ** The invariant *)

Definition batch_armings b : list Z := match batch_phase b with Fired l _ => l | Steady _ => [] end.
(** The armings that a fired batch has captured and not settled. *)
Definition captured s : list Z := match ready_batch s with Some b => batch_armings b | None => [] end.

(** Captured alarms no longer wait; every other alarm with a deadline does. *)
Record timers_ok A (l : list Z) : Prop := mkTimersOk
  { tk_nodup : NoDup l;
    tk_issued a : a ∈ l -> a <= issued_orders A;
    tk_captured a al : alarms A !! a = Some al -> a ∈ l -> al_waiting al = false;
    tk_lost a al : alarms A !! a = Some al -> al_waiting al = false -> is_Some (al_deadline al) -> a ∈ l }.

(** The cutoffs of a batch are behind what they measure. *)
Definition batch_ok s b : Prop :=
  mailbox_through b <= in_accepted (inbox s) /\ (offloads_remaining b <= length (events s))%nat /\
  match batch_phase b with Steady _ => True | Fired _ n => (n <= length (continuations s))%nat end.

Record actor_inv s : Prop := mkActorInv
  { ai_inbox : in_wf (inbox s);
    ai_timers : exists A, represents hash_key (timers s) A /\ timers_ok A (captured s);
    ai_batch b : ready_batch s = Some b -> batch_ok s b }.

Lemma rtc_in_others (b b' : B) : in_wf b -> rtc in_others b b' ->
  in_wf b' /\ in_accepted b <= in_accepted b' /\ forall l, l <= in_accepted b -> (in_backlog l b' <= in_backlog l b)%nat.
Proof.
  intros Hw H. revert Hw. induction H as [|x y z Hxy _ IH]; intros Hw; [split_and!; [done|lia|done]|].
  destruct (in_others_ok _ _ Hw Hxy) as (Hw' & Ha & Hb). destruct (IH Hw') as (? & ? & Hc). split_and!; [done|lia|].
  intros l Hl. specialize (Hb l Hl). specialize (Hc l). lia.
Qed.

Lemma others_inv s s' : others s s' -> actor_inv s -> actor_inv s'.
Proof.
  intros [Hi _ _ [l Hl] _ Ho] [Hw Ht Hb]. injection Ho as _ Hc _ Htm Hrb _ _ _ _.
  destruct (rtc_in_others _ _ Hw Hi) as (Hw' & Ha & _). split; [done| |].
  - unfold captured. by rewrite Htm, Hrb.
  - rewrite Hrb. intros b E. destruct (Hb b E) as (? & ? & H'). unfold batch_ok. rewrite Hl, length_app, Hc.
    split_and!; [lia|lia|done].
Qed.

(** A step after the interference of others. *)
Lemma wp_stable {X} (allowed : string -> Prop) (doomed : Actor -> Prop) (P : Actor -> Prop) (f : Actor -> outcome (X * Actor)) Q s :
  (forall s s', others s s' -> P s -> P s') -> P s ->
  (forall s1, P s1 -> match f s1 with Ret (x, s2) => Q x s2 | Panics message => allowed message | ProcessAborts => doomed s1 end) ->
  wp others allowed doomed (atom f) Q s.
Proof. intros Hst HP Hf. apply wp_atom. intros s1 Hs. apply Hf. eapply Hst; [by apply others_rtc|done]. Qed.

(** ** Steps of the timers *)

Lemma timers_ok_replace A l k d m a :
  timers_ok A l -> (forall x, is_Some (alarms A !! x) -> x <= issued_orders A) -> issued_orders A < a ->
  timers_ok (mkAlarms a (<[a:=mkAlarm k d m (bool_decide (is_Some d))]> (alarms (without (alarm_of k A) A)))) l.
Proof.
  intros [Hn Hi Hc Hl] Ho Ha.
  assert (Hsub : forall x al, alarms (without (alarm_of k A) A) !! x = Some al -> alarms A !! x = Some al).
  { intros x al. destruct (alarm_of k A) as [[y z]|]; simpl; [|done]. by intros [_ ?]%lookup_delete_Some. }
  split; simpl; [done|intros x Hx; specialize (Hi x Hx); lia| |].
  - intros x al [[<- <-]|[Hne Hx%Hsub]]%lookup_insert_Some Hin; [|eauto]. specialize (Hi _ Hin). lia.
  - intros x al [[<- <-]|[Hne Hx%Hsub]]%lookup_insert_Some Hw Hs; [|eauto]. simpl in Hw, Hs. by rewrite bool_decide_true in Hw.
Qed.
Lemma timers_ok_without A l o : timers_ok A l -> timers_ok (without o A) l.
Proof.
  destruct o as [[a al]|]; [|done]. intros [Hn Hi Hc Hl]. split; simpl; [done|done|..];
    intros x y [_ Hx]%lookup_delete_Some; eauto.
Qed.
Lemma timers_ok_due A now :
  timers_ok A [] -> (forall x, is_Some (alarms A !! x) -> x <= issued_orders A) ->
  let l := (in_order (due_alarms now A)).*2 in
  timers_ok (mkAlarms (issued_orders A) (stop_waiting l (alarms A))) l.
Proof.
  intros [_ _ _ Hl] Ho l.
  assert (Hin : forall a, a ∈ l <-> exists d al, alarms A !! a = Some al /\ al_deadline al = Some d /\ al_waiting al = true /\ d <= now).
  { intros a. unfold l. rewrite list_elem_of_fmap. split.
    - intros ([d x] & -> & Hx%elem_of_in_order). apply elem_of_due in Hx as (al & H). by exists d, al.
    - intros (d & al & H). exists (d, a). split; [done|]. apply elem_of_in_order, elem_of_due. by exists al. }
  split; simpl.
  - apply NoDup_fmap_2_strong; [|apply in_order_NoDup]. intros [d x] [d' y] Hx%elem_of_in_order Hy%elem_of_in_order H.
    simpl in H. subst y. apply elem_of_due in Hx as (al & Ha & Hd & _), Hy as (al' & Ha' & Hd' & _). congruence.
  - intros a (d & al & Ha & _)%Hin. eauto.
  - intros a al. rewrite stop_waiting_lookup. destruct (alarms A !! a) as [x|]; [|done]. intros [= <-] Ha.
    by rewrite decide_True.
  - intros a al. rewrite stop_waiting_lookup. destruct (alarms A !! a) as [x|] eqn:Ex; [|done]. intros [= <-].
    case_decide; [done|]. intros Hw Hs. specialize (Hl a x Ex Hw Hs). set_solver.
Qed.
Lemma timers_ok_deliver A a l (al : Alarm) :
  timers_ok A (a :: l) -> (al_waiting al = true \/ al_deadline al = None) ->
  timers_ok (mkAlarms (issued_orders A) (<[a:=al]> (alarms A))) l.
Proof.
  intros [Hn Hi Hc Hl] Hal. inversion Hn as [|? ? Ha Hn']; subst. split; simpl; [done|set_solver| |].
  - intros x y [[<- <-]|[Hne Hx]]%lookup_insert_Some Hin; [done|]. eapply Hc; set_solver.
  - intros x y [[<- <-]|[Hne Hx]]%lookup_insert_Some Hw Hs; [destruct Hal as [?|E]; [congruence|rewrite E in Hs; by destruct Hs]|].
    specialize (Hl x y Hx Hw Hs). set_solver.
Qed.
Lemma timers_ok_settle A a l :
  timers_ok A (a :: l) -> timers_ok (mkAlarms (issued_orders A) (delete a (alarms A))) l.
Proof.
  intros [Hn Hi Hc Hl]. inversion Hn as [|? ? Ha Hn']; subst. split; simpl; [done|set_solver|..];
    intros x y [Hne Hx]%lookup_delete_Some.
  - intros Hin. eapply Hc; set_solver.
  - intros Hw Hs. specialize (Hl x y Hx Hw Hs). set_solver.
Qed.

(** A store whose captured armings are [l]. *)
Definition store_ok (t : TimerStore K M) (l : list Z) : Prop := exists A, represents hash_key t A /\ timers_ok A l.

Lemma store_ok_exec t A op :
  represents hash_key t A -> legal A op ->
  match store_exec hash_key t op with
  | Ret (r, t') => exists r' A', alarm_exec A op = Ret (r', A') /\ agrees r r' /\ represents hash_key t' A'
  | Panics _ => False
  | ProcessAborts => alarm_exec A op = ProcessAborts
  end.
Proof.
  intros Hr Hl. pose proof (store_exec_simulates hash_key t A op Hr Hl) as H. destruct (alarm_exec A op) as [[r A']| |]; simpl in H.
  - destruct H as (r' & t' & -> & ? & ?). eauto.
  - done.
  - by rewrite H.
Qed.

Lemma store_ok_replace t l k d m :
  store_ok t l ->
  match replace hash_key k d m t with
  | Ret (_, _, t') => store_ok t' l
  | Panics _ => False
  | ProcessAborts => True
  end.
Proof.
  intros (A & Hr & Ht). pose proof (store_ok_exec t A (TReplace k d m) Hr I) as H. cbn [store_exec] in H.
  destruct (replace hash_key k d m t) as [[[a r] t']| |]; [|done..]. cbn [mbind outcome_bind] in H. destruct H as (r' & A' & He & _ & Hr').
  cbn [alarm_exec] in He. destruct (MonotonicCounter.mint (MonotonicCounter.from_current (issued_orders A))) as [[a' c]| |] eqn:Em;
    [|done..]. cbn [mbind outcome_bind] in He. simplify_eq. eexists. split; [done|]. apply mint_Ret in Em as (Ha & _ & _). simpl in Ha.
  apply timers_ok_replace; [done|apply (rp_orders _ _ _ Hr)|lia].
Qed.
Lemma store_ok_remove t l k : store_ok t l -> exists found r t', remove hash_key k t = Ret (found, r, t') /\ store_ok t' l.
Proof.
  intros (A & Hr & Ht). unfold remove. destruct (remove_hashed_spec hash_key _ _ k Hr) as (t' & -> & Hr').
  eexists _, _, _. split; [done|]. eexists. split; [done|]. by apply timers_ok_without.
Qed.
Lemma store_ok_take_due t now :
  store_ok t [] -> store_ok (take_due now t).2 (take_due now t).1.
Proof.
  intros (A & Hr & Ht). unfold take_due. rewrite (take_due_list hash_key _ _ now Hr). simpl. eexists.
  split; [by apply represents_due|]. apply timers_ok_due; [done|apply (rp_orders _ _ _ Hr)].
Qed.
Lemma store_ok_clear t l : store_ok t l -> store_ok (store_clear t).2 [].
Proof.
  intros (A & Hr & Ht). exists (mkAlarms (issued_orders A) ∅). split; [by apply (represents_clear hash_key)|].
  split; simpl; [constructor|set_solver|..]; by intros a al ?%lookup_empty_Some.
Qed.
Lemma store_ok_deliver t a l now :
  store_ok t (a :: l) ->
  exists d r t', deliver_due a now t = Ret (d, r, t') /\
    match d with
    | CloneUnwinds _ => t' = t
    | Missing => t' = t /\ armings t !! a = None /\ store_ok t' l
    | Delivered _ => store_ok t' l
    end.
Proof.
  intros (A & Hr & Ht). assert (Hl : legal A (TDeliverDue a now)).
  { intros al Hal. eapply (tk_captured _ _ Ht); [done|set_solver]. }
  pose proof (deliver_simulates hash_key t A a now Hr Hl) as H. cbn [store_exec alarm_exec simulates] in H.
  pose proof (locate_arming_spec hash_key t A a Hr) as Hloc. destruct (alarms A !! a) as [al|] eqn:Ha.
  - destruct (al_message al) as [m|m clone period] eqn:Em; [|destruct (clone m) as [m'|p] eqn:Ec].
    + destruct H as (r' & t' & He & Hag & Hr'). destruct (deliver_due a now t) as [[[d r] t'']| |]; [|done..].
      cbn [mbind outcome_bind] in He. simplify_eq/=. eexists _, _, _. split; [done|]. simpl. eexists. split; [done|].
      by apply timers_ok_settle.
    + destruct H as (r' & t' & He & Hag & Hr'). destruct (deliver_due a now t) as [[[d r] t'']| |]; [|done..].
      cbn [mbind outcome_bind] in He. simplify_eq/=. eexists _, _, _. split; [done|]. simpl. eexists. split; [done|].
      apply timers_ok_deliver; [done|]. simpl. destruct (Deadline.instant _); simpl; auto.
    + destruct Hloc as (l' & i & Hloc & Hb & Hi). unfold deliver_due. rewrite Hloc. cbn [mbind outcome_bind at_hash at_index].
      rewrite Hb. cbn [expect mbind outcome_bind]. rewrite Hi. cbn [expect mbind outcome_bind entry_of message]. rewrite Em, Ec.
      by eexists _, _, _.
  - unfold deliver_due. rewrite Hloc. simpl. eexists _, _, _. split; [done|]. simpl. split_and!; [done| |].
    + by rewrite (rp_armings _ _ _ Hr), Ha.
    + exists A. split; [done|]. destruct Ht as [Hn Hi Hc Hls]. inversion Hn; subst. split; [done|set_solver|..].
      * intros x y Hx Hin. eapply Hc; set_solver.
      * intros x y Hx Hw Hs. specialize (Hls x y Hx Hw Hs). apply elem_of_cons in Hls as [->|?]; [congruence|done].
Qed.

(** ** Batches under way *)

(** What the invariant depends on. *)
Definition core s := (inbox s, events s, continuations s, timers s, ready_batch s).
Lemma inv_core s s' : core s' = core s -> actor_inv s -> actor_inv s'.
Proof.
  intros H [Hw Ht Hb]. injection H as Hi He Hc Htm Hrb. split; [congruence|unfold captured; by rewrite Htm, Hrb|].
  rewrite Hrb. intros b E. unfold batch_ok. rewrite Hi, He, Hc. by apply Hb.
Qed.
Lemma core_dispose x s : core (dispose drop_panics x s) = core s.
Proof. unfold dispose, record_panic. by destruct (drop_panics x). Qed.
Lemma core_dispose_all l s : core (dispose_all drop_panics l s) = core s.
Proof. revert s. induction l as [|x l IH]; intros s; [done|]. unfold dispose_all in *. simpl. by rewrite IH, core_dispose. Qed.

(** The deliveries that a fired batch puts before and among its timers. *)
Definition work b s : nat :=
  match batch_phase b with
  | Steady _ => O
  | Fired l n => in_backlog (mailbox_through b) (inbox s) + offloads_remaining b + n + length l
  end.

(** The batch under way, and at most [n] deliveries of it when it has fired. *)
Definition has b (n : nat) s : Prop :=
  actor_inv s /\ ready_batch s = Some b /\ (is_fired_batch b = true -> work b s <= n)%nat.
Definition holds (f : bool) (n : nat) (l : list Z) s : Prop :=
  exists b, has b n s /\ is_fired_batch b = f /\ batch_armings b = l.

Lemma has_core b n s s' : core s' = core s -> has b n s -> has b n s'.
Proof.
  intros Hc (Hi & Hb & Hw). split; [by eapply inv_core|]. injection Hc as H1 _ _ _ H5. unfold work. by rewrite H1, H5.
Qed.
Lemma has_others b n s s' : others s s' -> has b n s -> has b n s'.
Proof.
  intros Ho (Hi & Hb & Hw). split; [by eapply others_inv|]. pose proof (oth_owned _ _ Ho) as H. injection H as _ _ _ _ H5 _ _ _ _.
  split; [congruence|]. intros Hf. specialize (Hw Hf). etrans; [|done]. unfold work.
  destruct (batch_phase b); [done|]. destruct (rtc_in_others _ _ (ai_inbox _ Hi) (oth_inbox _ _ Ho)) as (_ & _ & Hbl).
  specialize (Hbl (mailbox_through b)). destruct (ai_batch _ Hi b Hb) as (? & _). lia.
Qed.
Lemma holds_weaken f k n l s : (f = true -> k <= n)%nat -> holds f k l s -> holds f n l s.
Proof.
  intros Hk (b & (Hi & Hb & Hw) & Hf & Hl). exists b. split_and!; [|done..]. split_and!; [done..|]. intros E. specialize (Hw E).
  rewrite Hf in E. specialize (Hk E). lia.
Qed.
Lemma has_holds b n s : has b n s -> holds (is_fired_batch b) n (batch_armings b) s.
Proof. by exists b. Qed.

(** An arming that is over: it is not armed, and its order was issued. *)
Definition unarmed s (a : Z) : Prop :=
  armings (timers s) !! a = None /\ a <= MonotonicCounter.current (arming_orders (timers s)).

(** How a selection that starts with such a batch ends. *)
Definition served (f : bool) (n : nat) (l : list Z) (r : Selection M) s : Prop :=
  match r with
  | Selected (FromTimer a) _ =>
      exists skipped rest k, l = skipped ++ a :: rest /\ Forall (unarmed s) skipped /\ (f = true -> k < n)%nat /\ holds f k rest s
  | Selected _ _ => exists k, (f = true -> k < n)%nat /\ holds f k l s
  | Unwound _ => exists skipped rest, l = skipped ++ rest /\ Forall (unarmed s) skipped /\ holds f n rest s
  | NothingReady | StillSelecting => False
  end.
(** How its timers end one. *)
Definition timed (f : bool) (n : nat) (l : list Z) (r : Selection M) s : Prop :=
  match r with Selected (FromTimer _) _ | Unwound _ => served f n l r s | _ => False end.
Lemma timed_served f n l r s : timed f n l r s -> served f n l r s.
Proof. by destruct r as [[]| | |]. Qed.
(** A stage serves the batch or leaves it to the next. *)
Definition staged f n l (r : option (Selection M)) s : Prop :=
  match r with Some r => served f n l r s | None => holds f n l s end.

(** A counter is used up. *)
Definition spent s : Prop := in_spent (inbox s) \/ ~ (MonotonicCounter.current (arming_orders (timers s)) < u64_max).
Local Abbreviation wp := (wp others (fun _ => False) spent).

Lemma wp_observe_has {X} (g : Actor -> X) b n Q s :
  has b n s -> (forall s1, has b n s1 -> Q (g s1) s1) -> wp (observe g) Q s.
Proof. intros H HQ. apply (wp_stable _ _ (has b n)); [intros; by eapply has_others|done|]. intros s1 H1. by apply HQ. Qed.

(** A step of the batch under way. *)
Lemma wp_batch {X} (g : Actor -> outcome (X * Actor)) b n Q s :
  has b n s -> (forall s1, has b n s1 -> exists x s2, g s1 = Ret (x, s2) /\ Q x s2) -> wp (owned g) Q s.
Proof.
  intros H HQ. apply (wp_stable _ _ (has b n)); [intros; by eapply has_others|done|]. intros s1 H1.
  by destruct (HQ s1 H1) as (x & s2 & -> & ?).
Qed.
Lemma the_batch_has b n s : has b n s -> the_batch s = Ret b.
Proof. intros (_ & Hb & _). unfold the_batch. by rewrite Hb. Qed.

(** The batch after one of its deliveries. *)
Lemma has_step b b' n s s' :
  has b n s -> in_wf (inbox s') -> store_ok (timers s') (batch_armings b') -> ready_batch s' = Some b' -> batch_ok s' b' ->
  is_fired_batch b' = is_fired_batch b -> (is_fired_batch b = true -> work b' s' < work b s)%nat ->
  exists k, (is_fired_batch b = true -> k < n)%nat /\ has b' k s'.
Proof.
  intros (_ & _ & Hn) Hw Hst Hb Hok Hf Hlt. exists (n - 1)%nat. split; [intros E; specialize (Hn E); specialize (Hlt E); lia|].
  split; [split; [done|unfold captured; by rewrite Hb|by intros ? [= <-]%(eq_trans (eq_sym Hb))]|]. split; [done|].
  rewrite Hf. intros E. specialize (Hn E). specialize (Hlt E). lia.
Qed.

Lemma pop_continuation_spec lead b n s :
  has b n s ->
  exists r s', pop_continuation lead s = Ret (r, s') /\
    match r with
    | Some m => exists k, (is_fired_batch b = true -> k < n)%nat /\ holds (is_fired_batch b) k (batch_armings b) s'
    | None => s' = s
    end.
Proof.
  intros Hh. pose proof Hh as ([Hwf Ht Hbo] & Hb & _). destruct (Hbo _ Hb) as (H1 & H2 & H3).
  unfold captured in Ht. rewrite Hb in Ht. unfold pop_continuation, the_batch. rewrite Hb. cbn [expect mbind outcome_bind].
  destruct (_ && _) eqn:Ee; [|by eexists _, _]. destruct (continuations s) as [|m rest] eqn:Ec; [by eexists _, _|].
  destruct b as [[d|arms c] through off]; unfold record_continuation_delivery, holds; cbn in *.
  - eexists _, _. split; [done|]. exists n. split; [done|]. exists (mkBatch (Steady d) through off).
    split; [|done]. split; [|done]. split; [done|done|]. by intros ? [= <-].
  - destruct c as [|c]; [by rewrite andb_false_r in Ee|]. cbn. rewrite Nat.sub_0_r. eexists _, _. split; [done|].
    destruct (has_step _ (mkBatch (Fired arms c) through off) n s
      (set_last true (set_batch (Some (mkBatch (Fired arms c) through off)) (set_continuations rest s))) Hh) as (k & Hk & Hhas);
      [done..|split_and!; simpl; [done|done|lia]|done|unfold work; simpl; lia|].
    exists k. split; [done|]. eexists. by split; [exact Hhas|].
Qed.

Lemma wp_update_has (g : Actor -> Actor) b n Q s :
  has b n s -> (forall s1, core (g s1) = core s1) -> (forall s1, has b n s1 -> Q () s1) -> wp (update g) Q s.
Proof.
  intros H Hg HQ. apply (wp_stable _ _ (has b n)); [intros; by eapply has_others|done|]. intros s1 H1.
  apply HQ. eapply has_core; [apply Hg|done].
Qed.

(** A mailbox turn is spent. *)
Lemma commit_mailbox b k s :
  mailbox_is_eligible b = true -> has b k s ->
  exists s', (b ← the_batch s; b ← record_mailbox_delivery b; Ret ((), set_last false (set_batch (Some b) s))) = Ret ((), s') /\
    holds (is_fired_batch b) k (batch_armings b) s'.
Proof.
  intros Ee Hh. rewrite (the_batch_has _ _ _ Hh). cbn [mbind outcome_bind]. destruct Hh as ([Hwf Ht Hbo] & Hb & Hn).
  unfold captured in Ht. rewrite Hb in Ht. destruct (Hbo _ Hb) as (H1 & H2 & H3).
  destruct b as [[d|arms c] through off]; unfold record_mailbox_delivery, mailbox_is_eligible in *; simpl in *.
  - rewrite Ee. simpl. eexists. split; [done|]. exists (mkBatch (Steady true) through off). split; [|done]. split; [|done].
    split; [done|done|]. by intros ? [= <-].
  - eexists. split; [done|]. exists (mkBatch (Fired arms c) through off). split; [|done]. split; [|done].
    split; [done|done|]. by intros ? [= <-].
Qed.

Lemma mailbox_stage_spec b n s : has b n s -> wp mailbox_stage (staged (is_fired_batch b) n (batch_armings b)) s.
Proof.
  intros Hh. unfold mailbox_stage. apply wp_seq. apply (wp_batch _ b n); [done|]. clear s Hh. intros s Hh.
  rewrite (the_batch_has _ _ _ Hh). cbn [mbind outcome_bind]. eexists _, _. split; [done|].
  destruct (mailbox_is_eligible b) eqn:Ee; [|by apply wp_done, has_holds].
  apply wp_seq. apply (wp_stable _ _ (has b n)); [intros; by eapply has_others|done|]. clear s Hh. intros s Hh.
  pose proof Hh as ([Hwf Ht Hbo] & Hb & Hn). pose proof (in_recv_through_ok (mailbox_through b) (inbox s) Hwf) as Hrecv.
  destruct (in_try_recv_through _ _) as [[r inb]| |]; cbn [mbind outcome_bind]; [|done|by left].
  destruct Hrecv as (Hwf' & Ha & Hsame & Hmono & Hless). destruct (Hbo _ Hb) as (H1 & H2 & H3).
  assert (Hi : actor_inv (set_inbox inb s)).
  { split; [done|done|]. intros b' E. destruct (Hbo b' E) as (? & ? & ?). split_and!; simpl; [lia|done|done]. }
  assert (Hspent : r <> Ok None -> exists k, (is_fired_batch b = true -> k < n)%nat /\ has b k (set_inbox inb s)).
  { intros Hr. exists (n - 1)%nat. specialize (Hless Hr H1).
    assert (Hwk : is_fired_batch b = true -> (work b (set_inbox inb s) < n)%nat).
    { intros Hf. specialize (Hn Hf). unfold work in *. destruct b as [[|] ? ?]; [done|]. simpl in *. lia. }
    split; [intros Hf; specialize (Hwk Hf); lia|]. split_and!; [done|done|]. intros Hf. specialize (Hwk Hf). lia. }
  destruct r as [[m|]|payload].
  - destruct (Hspent ltac:(done)) as (k & Hk & Hhas). apply wp_seq. apply (wp_batch _ b k); [done|]. intros s1 Hs1.
    destruct (commit_mailbox b k s1 Ee Hs1) as (s2 & -> & H'). eexists _, _. split; [done|]. apply wp_done. by exists k.
  - apply wp_done, has_holds. rewrite (Hsame eq_refl). by eapply has_core; [|done].
  - destruct (Hspent ltac:(done)) as (k & Hk & Hhas). apply wp_seq. apply (wp_batch _ b k); [done|]. intros s1 Hs1.
    destruct (commit_mailbox b k s1 Ee Hs1) as (s2 & -> & H'). eexists _, _. split; [done|]. apply wp_done.
    exists [], (batch_armings b). split_and!; [done|constructor|]. eapply holds_weaken; [|done]. intros E. specialize (Hk E). lia.
Qed.

Lemma pop_batched_event_spec b n s :
  has b n s ->
  exists r s', pop_batched_event s = Ret (r, s') /\
    match r with
    | Some _ => exists b' k, (is_fired_batch b = true -> k < n)%nat /\ has b' k s' /\ is_fired_batch b' = is_fired_batch b /\
        batch_armings b' = batch_armings b /\ (offloads_remaining b' < offloads_remaining b)%nat
    | None => s' = s /\ offloads_remaining b = O
    end.
Proof.
  intros Hh. pose proof Hh as ([Hwf Ht Hbo] & Hb & _). destruct (Hbo _ Hb) as (H1 & H2 & H3). unfold captured in Ht. rewrite Hb in Ht.
  unfold pop_batched_event. rewrite (the_batch_has _ _ _ Hh). cbn [mbind outcome_bind].
  destruct b as [ph through off]. simpl in *. destruct off as [|off]; [by eexists _, _|].
  destruct (events s) as [|e rest] eqn:Ev; simpl in H2; [lia|]. eexists _, _. split; [done|]. simpl.
  destruct (has_step _ (mkBatch ph through off) n s (set_events rest (set_batch (Some (mkBatch ph through off)) s)) Hh) as (k & Hk & Hhas);
    [done..|split_and!; simpl; [done|lia|done]|done| |].
  - unfold work. simpl. destruct ph; [done|lia].
  - exists (mkBatch ph through off), k. split_and!; [done|done|done|done|simpl; lia].
Qed.

(** A selection of a batch that has gone on is one of the batch. *)
Lemma staged_weaken f k n l r s : (f = true -> k <= n)%nat -> staged f k l r s -> staged f n l r s.
Proof.
  intros Hk. destruct r as [[src m| |p|]|]; simpl; [|done| |done|].
  - destruct src as [| | |a]; [intros (j & Hj & H); exists j; split; [intros E; specialize (Hj E); specialize (Hk E); lia|done]..|].
    intros (skipped & rest & j & H1 & H2 & Hj & H). exists skipped, rest, j. split_and!; [done..| |done].
    intros E. specialize (Hj E). specialize (Hk E). lia.
  - intros (skipped & rest & H1 & H2 & H). exists skipped, rest. split_and!; [done..|]. by eapply holds_weaken.
  - by apply holds_weaken.
Qed.

Lemma timed_skip a f n k l r s :
  unarmed s a -> (f = true -> k < n)%nat -> timed f k l r s -> timed f n (a :: l) r s.
Proof.
  intros Ha Hk. destruct r as [[| | |x] m| |p|]; simpl; try done.
  - intros (skipped & rest & j & -> & HF & Hj & H). exists (a :: skipped), rest, j. split_and!; [done|by constructor| |done].
    intros E. specialize (Hj E). specialize (Hk E). lia.
  - intros (skipped & rest & -> & HF & H). exists (a :: skipped), rest. split_and!; [done|by constructor|].
    eapply holds_weaken; [|done]. intros E. specialize (Hk E). lia.
Qed.

(** The captured completions are drained when nothing of them is selected. *)
Definition drained (r : option (Selection M)) s : Prop :=
  r = None -> exists b, ready_batch s = Some b /\ offloads_remaining b = O.

Lemma offload_stage_spec fuel b n s :
  has b n s -> (offloads_remaining b < fuel)%nat ->
  wp (offload_stage drop_panics fuel) (fun r s' => staged (is_fired_batch b) n (batch_armings b) r s' /\ drained r s') s.
Proof.
  revert b n s. induction fuel as [|fuel IH]; intros b n s Hh Hfuel; [lia|]. cbn [offload_stage].
  apply wp_seq. apply (wp_batch _ b n); [done|]. clear s Hh. intros s Hh.
  destruct (pop_batched_event_spec b n s Hh) as (r & s' & -> & Hr). eexists _, _. split; [done|].
  destruct r as [e|]; [|destruct Hr as [-> Hz]; apply wp_done; split; [by apply has_holds|]; exists b; by destruct Hh as (_ & ? & _)].
  destruct Hr as (b' & k & Hk & Hh' & Hf & Hl & Hlt). apply wp_seq. apply (wp_observe_has _ b' k); [done|]. intros s1 Hs1.
  destruct (bool_decide _).
  - apply wp_seq. apply (wp_update_has _ b' k); [done|apply core_dispose|]. intros s2 Hs2.
    eapply wp_weaken; [apply (IH b' k); [done|lia]|]. rewrite Hf, Hl. intros r' s3 [H ?]. split; [|done].
    eapply staged_weaken; [|done]. intros E. specialize (Hk E). lia.
  - destruct (make_message e) as [m|payload].
    + apply wp_seq. apply (wp_update_has _ b' k); [done|done|]. intros s2 Hs2. apply wp_done. split; [|done].
      exists k. split; [done|]. rewrite <- Hf, <- Hl. by apply has_holds.
    + apply wp_done. split; [|done]. exists [], (batch_armings b). split_and!; [done|constructor|]. rewrite <- Hf, <- Hl.
      eapply holds_weaken; [|by apply has_holds]. rewrite Hf. intros E. specialize (Hk E). lia.
Qed.

(** *** Timers *)

Lemma core_timers retired t s :
  core (dispose_timers drop_panics retired (set_timers t s)) = (inbox s, events s, continuations s, t, ready_batch s).
Proof. unfold dispose_timers. by rewrite core_dispose_all. Qed.

Lemma commit_arming_spec a l c through off : commit_arming a (mkBatch (Fired (a :: l) c) through off) = Ret (mkBatch (Fired l c) through off).
Proof. unfold commit_arming. simpl. by rewrite bool_decide_true. Qed.

(** Steps that arm nothing that is over, nor anything new. *)
Definition arms_anew s s' : Prop :=
  (forall a, unarmed s a -> unarmed s' a) /\ accepting s' = accepting s /\ (armings (timers s) = ∅ -> armings (timers s') = ∅).

Lemma anew_timers s s' : (timers s', accepting s') = (timers s, accepting s) -> arms_anew s s'.
Proof. intros [= Ht Ha]. unfold arms_anew, unarmed. by rewrite Ht. Qed.
Lemma others_anew s s' : others s s' -> arms_anew s s'.
Proof. intros H. pose proof (oth_owned _ _ H) as Ho. injection Ho as ? _ _ ? _ _ _ _ _. apply anew_timers. congruence. Qed.

Lemma unlink_anew loc (t : TimerStore K M) e t' : unlink loc t = Ret (e, t') ->
  arming_orders t' = arming_orders t /\ forall a, armings t !! a = None -> armings t' !! a = None.
Proof.
  unfold unlink. destruct (keyed t !! at_hash loc) as [bucket|]; simpl; [|done].
  destruct (swap_remove (at_index loc) bucket) as [[e' l']| |]; simpl; [|done..]. intros [= <- <-]. split; [done|].
  intros a Ha. simpl. apply lookup_delete_None. by right.
Qed.
Lemma deliver_due_anew a now (t : TimerStore K M) d r t' : deliver_due a now t = Ret (d, r, t') ->
  arming_orders t' = arming_orders t /\ forall x, armings t !! x = None -> armings t' !! x = None.
Proof.
  unfold deliver_due. destruct (locate_arming a t) as [[loc|]| |]; simpl; [|by intros [= _ _ <-]|done..].
  destruct (keyed t !! at_hash loc) as [bucket|]; simpl; [|done]. destruct (bucket !! at_index loc) as [e|]; simpl; [|done].
  destruct (message e) as [m|m clone period]; [|by destruct (clone m); intros [= _ _ <-]].
  destruct (unlink loc t) as [[e' t1]| |] eqn:Eu; simpl; [|done..]. destruct (message e'); intros [= _ _ <-]; by eapply unlink_anew.
Qed.
Lemma accepting_dispose_all l s : accepting (dispose_all drop_panics l s) = accepting s.
Proof.
  revert s. induction l as [|x l IH]; intros s; [done|]. unfold dispose_all in *. simpl. rewrite IH.
  unfold dispose. by destruct (drop_panics x).
Qed.
Lemma dispose_timers_anew r t s :
  arming_orders t = arming_orders (timers s) -> (forall x, armings (timers s) !! x = None -> armings t !! x = None) ->
  arms_anew s (dispose_timers drop_panics r (set_timers t s)).
Proof.
  intros Ho Ha. pose proof (core_timers r t s) as H. injection H as _ _ _ H _. unfold arms_anew, unarmed. rewrite H, Ho.
  split_and!; [intros a [? ?]; auto|unfold dispose_timers; by rewrite accepting_dispose_all|].
  intros E. apply map_empty. intros a. apply Ha. by rewrite E.
Qed.

Create HintDb raw_anew.
Local Abbreviation anew := (within arms_anew).
Lemma anew_observe {X} (g : Actor -> X) : anew (observe g).
Proof. apply within_atom. intros s x s' [= _ <-]. by apply anew_timers. Qed.
Lemma anew_update (g : Actor -> Actor) :
  (forall s, (timers (g s), accepting (g s)) = (timers s, accepting s)) -> anew (update g).
Proof. intros H. apply within_atom. intros s x s' [= _ <-]. by apply anew_timers. Qed.
Lemma timers_dispose x s :
  (timers (dispose drop_panics x s), accepting (dispose drop_panics x s)) = (timers s, accepting s).
Proof. unfold dispose. by destruct (drop_panics x). Qed.
Lemma anew_bind {X Y} (p : Prog Actor X) (k : X -> Prog Actor Y) : anew p -> (forall x, anew (k x)) -> anew (p ≫= k).
Proof. apply within_bind. Qed.
Lemma anew_owned {X} (g : Actor -> outcome (X * Actor)) :
  (forall s x s', g s = Ret (x, s') -> (timers s', accepting s') = (timers s, accepting s)) -> anew (owned g).
Proof. intros H. apply within_atom. intros s x s' Hs. by eapply anew_timers, H. Qed.

Ltac anew_step :=
  first [ done
        | solve [trivial with raw_anew nocore]
        | apply anew_observe
        | apply anew_bind; [|intros ?]
        | match goal with
          | |- anew (match ?x with _ => _ end) => destruct x
          | |- anew (let _ := ?x in _) => cbv zeta
          end ].
(** A pure step on the batch leaves the timers alone. *)
Ltac same_timers :=
  apply anew_owned; intros ? ? ? ?;
  unfold pop_continuation, pop_batched_event, promote_to_fired, record_continuation_delivery, record_mailbox_delivery,
    commit_arming, the_batch, expect, assert_that in *; simplify_eq/=;
  repeat (case_match; simpl in *; simplify_eq); done.

Ltac anew_all := repeat anew_step; try same_timers; try (by apply anew_update).

Lemma timer_stage_anew fuel : anew (timer_stage drop_panics fuel).
Proof.
  induction fuel as [|fuel IH]; [done|]. cbn [timer_stage]. anew_all.
  apply within_atom. intros s y s'. destruct (deliver_due _ _ _) as [[[d r] t]| |] eqn:E; [|done..].
  intros [= _ <-]. apply deliver_due_anew in E as [? ?]. by apply dispose_timers_anew.
Qed.
#[local] Hint Resolve timer_stage_anew : raw_anew.
Lemma offload_stage_anew fuel : anew (offload_stage drop_panics fuel).
Proof.
  induction fuel as [|fuel IH]; [done|]. cbn [offload_stage]. anew_all. apply anew_update. intros s. apply timers_dispose.
Qed.
#[local] Hint Resolve offload_stage_anew : raw_anew.
Lemma mailbox_stage_anew : anew mailbox_stage.
Proof.
  unfold mailbox_stage. anew_all. apply anew_owned. intros s y s'. destruct (in_try_recv_through _ _) as [[r inb]| |]; [|done..].
  by intros [= _ <-].
Qed.
#[local] Hint Resolve mailbox_stage_anew : raw_anew.
Lemma begin_ready_batch_anew : anew begin_ready_batch.
Proof.
  unfold begin_ready_batch, accepted_now, watermark. anew_all. apply within_atom. intros s y s' H. unfold take_due in H. by simplify_eq/=.
Qed.
#[local] Hint Resolve begin_ready_batch_anew : raw_anew.
Lemma external_work_anew e c : anew (external_work_is_ready e c).
Proof. unfold external_work_is_ready, accepted_now, watermark. anew_all. Qed.
#[local] Hint Resolve external_work_anew : raw_anew.
Lemma selection_turn_anew : anew (selection_turn drop_panics).
Proof.
  unfold selection_turn, arbitrate, settle_turn, resume_pending_panic, refresh_turn, next_turn. anew_all.
Qed.
#[local] Hint Resolve selection_turn_anew : raw_anew.
Lemma selection_loop_anew turns : anew (selection_loop drop_panics turns).
Proof. induction turns as [|turns IH]; [done|]. cbn [selection_loop]. anew_all. Qed.
#[local] Hint Resolve selection_loop_anew : raw_anew.
Lemma next_ready_anew turns : anew (next_ready drop_panics turns).
Proof.
  unfold next_ready, select_ready, resume_pending_panic. anew_all.
  apply anew_update. intros t. apply timers_dispose.
Qed.

(** What is over stays over. *)
Lemma wp_unarmed {X} (p : Prog Actor X) l Q s :
  anew p -> Forall (unarmed s) l -> wp p Q s -> wp p (fun x s' => Q x s' /\ Forall (unarmed s') l) s.
Proof.
  intros Hp. apply (wp_frame _ _ _ arms_anew (fun s => Forall (unarmed s) l)); [| |done].
  - intros s1 s2 H Hl. eapply Forall_impl; [exact Hl|]. by apply others_anew.
  - intros s1 s2 H Hl. eapply Forall_impl; [exact Hl|]. apply H.
Qed.


(** The batch under way, with these timers. *)
Definition mid b n (t : TimerStore K M) s : Prop :=
  in_wf (inbox s) /\ timers s = t /\ ready_batch s = Some b /\ batch_ok s b /\ (work b s <= n)%nat.
Lemma mid_others b n t s s' : others s s' -> mid b n t s -> mid b n t s'.
Proof.
  intros Ho (Hw & Ht & Hb & (H1 & H2 & H3) & Hn). pose proof (oth_owned _ _ Ho) as H. injection H as _ Hc _ Htm H5 _ _ _ _.
  destruct (rtc_in_others _ _ Hw (oth_inbox _ _ Ho)) as (Hw' & Ha & Hbl). destruct (oth_events _ _ Ho) as [l Hl].
  split_and!; [done|congruence|congruence| |].
  - split_and!; [lia|rewrite Hl, length_app; lia|by rewrite Hc].
  - etrans; [|done]. unfold work. destruct (batch_phase b); [done|]. specialize (Hbl _ H1). lia.
Qed.

Lemma commit_mid a l c through off n t s :
  mid (mkBatch (Fired (a :: l) c) through off) n t s ->
  store_ok t l ->
  exists s', (b ← the_batch s; b ← commit_arming a b; Ret ((), set_batch (Some b) s)) = Ret ((), s') /\
    timers s' = t /\ (0 < n)%nat /\ has (mkBatch (Fired l c) through off) (n - 1) s'.
Proof.
  intros (Hw & Ht & Hb & (H1 & H2 & H3) & Hn) Hst. unfold the_batch. rewrite Hb. cbn [expect mbind outcome_bind].
  rewrite commit_arming_spec. cbn [mbind outcome_bind]. eexists. split; [done|]. split; [done|]. unfold work in *. simpl in *.
  split; [lia|]. split; [split; simpl; [done|unfold captured; simpl; by rewrite Ht|by intros ? [= <-]]|]. split; [done|].
  unfold work. simpl. intros _. lia.
Qed.

(** The captured armings are settled when none of them is selected. *)
Definition settled (l : list Z) (r : option (Selection M)) s : Prop :=
  r = None -> Forall (unarmed s) l /\ captured s = [].

Lemma timer_stage_spec fuel b n s :
  has b n s -> (length (batch_armings b) < fuel)%nat ->
  wp (timer_stage drop_panics fuel) (fun r s' =>
    match r with
    | Some r => timed (is_fired_batch b) n (batch_armings b) r s'
    | None => holds (is_fired_batch b) n [] s' /\ Forall (unarmed s') (batch_armings b)
    end) s.
Proof.
  revert b n s. induction fuel as [|fuel IH]; intros b n s Hh Hfuel; [lia|]. cbn [timer_stage].
  apply wp_seq. apply (wp_batch _ b n); [done|]. clear s Hh. intros s Hh. rewrite (the_batch_has _ _ _ Hh). cbn [mbind outcome_bind].
  eexists _, _. split; [done|]. destruct b as [[d|[|a l] c] through off]; unfold next_arming; cbn [batch_phase head].
  1, 2: apply wp_done; split; [by eexists|constructor].
  apply wp_seq. apply (wp_observe_has _ _ n _ _ Hh). clear s Hh. intros s Hh. generalize (now s). intros t.
  apply wp_seq. apply (wp_batch _ _ n _ _ Hh). clear s Hh. intros s Hh. pose proof Hh as ([Hwf Ht Hbo] & Hb & Hn).
  unfold captured in Ht. rewrite Hb in Ht. destruct (store_ok_deliver _ _ _ t Ht) as (d & r & t' & -> & Hd).
  cbn [mbind outcome_bind]. eexists _, _. split; [done|]. pose proof (core_timers r t' s) as Hcore.
  set (s1 := dispose_timers _ _ _) in *. clearbody s1. injection Hcore as E1 E2 E3 E4 E5.
  assert (Hmid : mid (mkBatch (Fired (a :: l) c) through off) n t' s1).
  { split_and!; [by rewrite E1|done|by rewrite E5| |].
    - destruct (Hbo _ Hb) as (? & ? & ?). unfold batch_ok. by rewrite E1, E2, E3.
    - specialize (Hn eq_refl). unfold work in *. by rewrite E1. }
  destruct d as [|m|payload]; [destruct Hd as (-> & Hgone & Hst)| |subst t'].
  - apply wp_seq. apply (wp_stable _ _ (mid (mkBatch (Fired (a :: l) c) through off) n (timers s))); [by intros; eapply mid_others|done|].
    intros s2 Hs2. destruct (commit_mid _ _ _ _ _ _ _ _ Hs2 Hst) as (s3 & -> & Ht3 & Hpos & Hs3).
    assert (Hover : unarmed s3 a).
    { split; [by rewrite Ht3|]. rewrite Ht3. destruct Ht as (A & Hr & Hk). destruct (rp_counter _ _ _ Hr) as [-> _].
      simpl. apply (tk_issued _ _ Hk). set_solver. }
    eapply wp_weaken; [apply (wp_unarmed _ [a]); [apply timer_stage_anew|by constructor|]|].
    { apply (IH (mkBatch (Fired l c) through off) (n - 1)%nat); [done|unfold batch_armings in *; cbn [batch_phase length] in *; lia]. }
    simpl. intros r' s4 [Hr' Hu]. rewrite Forall_singleton in Hu. destruct r' as [r'|].
    + eapply timed_skip; [exact Hu| |exact Hr']. intros _. lia.
    + destruct Hr' as [? ?]. split; [|by constructor]. eapply holds_weaken; [|done]. intros _. lia.
  - apply wp_seq. apply (wp_stable _ _ (mid (mkBatch (Fired (a :: l) c) through off) n t')); [by intros; eapply mid_others|done|].
    intros s2 Hs2. destruct (commit_mid _ _ _ _ _ _ _ _ Hs2 Hd) as (s3 & -> & Ht3 & Hpos & Hs3).
    apply wp_seq. apply (wp_update_has _ _ (n - 1)%nat _ _ Hs3); [done|]. intros s4 Hs4. apply wp_done.
    exists [], l, (n - 1)%nat. split_and!; [done|constructor|intros _; lia|by eexists].
  - apply wp_done. exists [], (a :: l). split_and!; [done|constructor|]. eexists. split; [|done]. eapply has_core; [|exact Hh].
    unfold core. by rewrite E1, E2, E3, E4, E5.
Qed.
(** ** Turns *)

(** How a turn over such a batch ends: it serves the batch, or its timers are
    over and it is gone. *)
Definition turned f n l (r : option (Selection M)) s : Prop :=
  match r with
  | Some (Selected _ _ as r) | Some (Unwound _ as r) => served f n l r s
  | Some NothingReady | None => actor_inv s /\ ready_batch s = None /\ Forall (unarmed s) l
  | Some StillSelecting => False
  end.
Lemma served_turned f n l r s : served f n l r s -> turned f n l (Some r) s.
Proof. by destruct r. Qed.

(** A step that only looks. *)
Lemma wp_observe_stable {X} (P : Actor -> Prop) (g : Actor -> X) Q s :
  (forall s s', others s s' -> P s -> P s') -> P s -> (forall s1, P s1 -> Q (g s1) s1) -> wp (observe g) Q s.
Proof. intros Hst HP HQ. apply (wp_stable _ _ P); [done|done|]. intros s1 H1. by apply HQ. Qed.
Lemma external_work_stable (P : Actor -> Prop) e c (Q : bool -> Actor -> Prop) s :
  (forall s s', others s s' -> P s -> P s') -> P s -> (forall r s1, P s1 -> Q r s1) -> wp (external_work_is_ready e c) Q s.
Proof.
  intros Hst HP HQ. unfold external_work_is_ready, accepted_now, watermark. destruct e; [by apply wp_done, HQ|].
  apply wp_seq. apply (wp_observe_stable P); [done|done|]. intros s1 H1. destruct (_ <? _); [by apply wp_done, HQ|].
  apply wp_seq. apply (wp_observe_stable P); [done|done|]. intros s2 H2. by apply wp_done, HQ.
Qed.

(** A batch without armings is dropped. *)
Lemma inv_drop_batch b n s : has b n s -> batch_armings b = [] -> actor_inv (set_batch None s).
Proof.
  intros ([Hwf Ht _] & Hb & _) Hl. split; [done| |done]. unfold captured in *. rewrite Hb, Hl in Ht. done.
Qed.

Lemma refresh_turn_spec b n s :
  has b n s ->
  wp refresh_turn (fun again s' => if again : bool then actor_inv s' /\ ready_batch s' = None /\ batch_armings b = [] else has b n s') s.
Proof.
  intros Hh. unfold refresh_turn. apply wp_seq. apply (wp_batch _ b n); [done|]. clear s Hh. intros s Hh.
  rewrite (the_batch_has _ _ _ Hh). cbn [mbind outcome_bind]. eexists _, _. split; [done|].
  apply wp_seq. apply (wp_observe_has _ b n); [done|]. clear s Hh. intros s Hh. destruct (negb _ && _) eqn:E; [|by apply wp_done].
  apply andb_prop in E as [Ef _]. apply wp_seq. apply (external_work_stable (has b n)); [intros; by eapply has_others|done|].
  intros ready s1 H1. destruct ready; [|by apply wp_done]. apply wp_seq.
  apply (wp_stable _ _ (has b n)); [intros; by eapply has_others|done|]. intros s2 H2. apply wp_done.
  assert (Hl : batch_armings b = []) by (by destruct b as [[] ? ?]). split_and!; [by eapply inv_drop_batch|done|done].
Qed.

Lemma others_timers s s' : others s s' -> timers s' = timers s /\ ready_batch s' = ready_batch s.
Proof. intros Ho. pose proof (oth_owned _ _ Ho) as H. by injection H. Qed.

(** No batch, the timers given. *)
Definition idle (t : TimerStore K M) s : Prop := actor_inv s /\ ready_batch s = None /\ timers s = t.
Lemma idle_others t s s' : others s s' -> idle t s -> idle t s'.
Proof. intros Ho (Hi & Hb & Ht). destruct (others_timers _ _ Ho) as [E1 E2]. split_and!; [by eapply others_inv|congruence|congruence]. Qed.

Lemma next_turn_spec b n s :
  has b n s -> batch_armings b = [] -> wp next_turn (fun _ s' => idle (timers s) s') s.
Proof.
  intros Hh Hl. unfold next_turn. generalize (eq_refl (timers s)). generalize (timers s) at 2 3. intros t Ht.
  apply wp_seq. apply (wp_stable _ _ (fun s => has b n s /\ timers s = t)); [|done|].
  { intros s1 s2 Ho [? ?]. split; [by eapply has_others|]. destruct (others_timers _ _ Ho). congruence. }
  clear s Hh Ht. intros s [Hh Ht]. rewrite (the_batch_has _ _ _ Hh). cbn [mbind outcome_bind].
  assert (H0 : idle t (set_batch None s)) by (split; [by eapply inv_drop_batch|done]).
  apply wp_seq. apply (wp_observe_stable (idle t)); [apply idle_others|done|]. clear s Hh H0 Ht. intros s Hs.
  generalize (next_deadline (timers s)). intros due. apply wp_seq.
  assert (Hw : wp (match due with Some d => t ← observe now; mret (d <=? t) | None => mret false end) (fun _ s' => idle t s') s).
  { destruct due; [|by apply wp_done]. apply wp_seq. apply (wp_observe_stable (idle t)); [apply idle_others|done|].
    intros s1 H1. by apply wp_done. }
  eapply wp_weaken; [exact Hw|]. intros timer_is_due s1 H1. apply wp_seq. apply (external_work_stable (idle t)); [apply idle_others|done|].
  intros ready s2 H2. apply wp_seq. apply (wp_observe_stable (idle t)); [apply idle_others|done|]. intros s3 H3. by apply wp_done.
Qed.

(** The batch is read. *)
Lemma wp_read_batch {X} (g : ReadyBatch -> X) b n Q s :
  has b n s -> (forall s1, has b n s1 -> Q (g b) s1) -> wp (owned (fun s => b ← the_batch s; Ret (g b, s))) Q s.
Proof.
  intros Hh HQ. apply (wp_batch _ b n); [done|]. intros s1 H1. rewrite (the_batch_has _ _ _ H1). eexists _, _. split; [done|]. by apply HQ.
Qed.
Lemma wp_pop_continuation lead b n (Q : option M -> Actor -> Prop) s :
  has b n s -> (forall s1, has b n s1 -> Q None s1) ->
  (forall m k s1, (is_fired_batch b = true -> k < n)%nat -> holds (is_fired_batch b) k (batch_armings b) s1 -> Q (Some m) s1) ->
  wp (owned (pop_continuation lead)) Q s.
Proof.
  intros Hh HN HS. apply (wp_batch _ b n); [done|]. intros s1 H1. destruct (pop_continuation_spec lead b n s1 H1) as (r & s2 & -> & Hr).
  eexists _, _. split; [done|]. destruct r as [m|]; [destruct Hr as (k & ? & ?); by eapply HS|subst; by apply HN].
Qed.

Lemma settle_turn_spec b n s : has b n s -> wp (settle_turn drop_panics) (turned (is_fired_batch b) n (batch_armings b)) s.
Proof.
  intros Hh. unfold settle_turn. apply wp_seq. eapply wp_weaken; [by apply (refresh_turn_spec b n)|]. clear s Hh.
  intros [] s Hr; [apply wp_done; destruct Hr as (? & ? & ->); by split_and!|].
  apply wp_seq. apply (wp_pop_continuation _ b n); [done| |].
  2: { intros m k s1 Hk H. apply wp_done. by exists k. }
  clear s Hr. intros s Hh. apply wp_seq. apply (wp_read_batch _ b n); [done|]. clear s Hh. intros s Hh.
  apply wp_seq. eapply wp_weaken; [apply (timer_stage_spec _ b n); [done|]|].
  { unfold batch_armings. destruct (batch_phase b); simpl; lia. }
  clear s Hh. intros [r|] s Hr; [by apply wp_done, served_turned, timed_served|]. destruct Hr as [(b3 & Hh & _ & Hl) HF].
  apply wp_seq. eapply wp_weaken; [by apply (next_turn_spec b3 n)|]. intros again s1 (Hi & Hb & Ht).
  assert (HF' : Forall (unarmed s1) (batch_armings b)). { unfold unarmed. rewrite Ht. exact HF. }
  destruct again; apply wp_done; by split_and!.
Qed.
Lemma arbitrate_spec b n s : has b n s -> wp (arbitrate drop_panics) (turned (is_fired_batch b) n (batch_armings b)) s.
Proof.
  intros Hh. unfold arbitrate. apply wp_seq. apply (wp_pop_continuation _ b n); [done| |].
  2: { intros m k s1 Hk H. apply wp_done. by exists k. }
  clear s Hh. intros s Hh. apply wp_seq. eapply wp_weaken; [by apply (mailbox_stage_spec b n)|].
  clear s Hh. intros [r|] s Hr; [by apply wp_done, served_turned|]. destruct Hr as (b1 & Hh & <- & <-).
  apply wp_seq. apply (wp_read_batch _ b1 n); [done|]. clear s Hh. intros s Hh.
  apply wp_seq. eapply wp_weaken; [apply (offload_stage_spec _ b1 n); [done|lia]|].
  clear s Hh. intros [r|] s [Hr _]; [by apply wp_done, served_turned|]. destruct Hr as (b2 & Hh & <- & <-). by apply settle_turn_spec.
Qed.

(** *** Cutoffs *)

(** The captured armings are [l], the batch is [rb], and what has been sampled so
    far is behind what it measures. *)
Definition cut (l : list Z) rb (c : nat) (through : Z) (off : nat) s : Prop :=
  in_wf (inbox s) /\ store_ok (timers s) l /\ ready_batch s = rb /\ (c <= length (continuations s))%nat /\
  through <= in_accepted (inbox s) /\ (off <= length (events s))%nat /\ (forall b, rb = Some b -> batch_ok s b).
Lemma cut_others l rb c through off s s' : others s s' -> cut l rb c through off s -> cut l rb c through off s'.
Proof.
  intros Ho (Hw & Hst & Hb & Hc & Ht & Hof & Hbo). pose proof (oth_owned _ _ Ho) as H. injection H as _ Hcs _ Htm H5 _ _ _ _.
  destruct (rtc_in_others _ _ Hw (oth_inbox _ _ Ho)) as (Hw' & Ha & _). destruct (oth_events _ _ Ho) as [l' Hl].
  assert (Hlen : (length (events s) <= length (events s'))%nat) by (rewrite Hl, length_app; lia).
  split_and!; [done|by rewrite Htm|congruence|by rewrite Hcs|lia|lia|]. intros b E. destruct (Hbo b E) as (? & ? & ?).
  split_and!; [lia|lia|by rewrite Hcs].
Qed.
Lemma inv_cut s : actor_inv s -> cut (captured s) (ready_batch s) 0 (in_accepted (inbox s)) 0 s.
Proof. intros [Hw Ht Hb]. split_and!; [done|done|done|lia|lia|lia|done]. Qed.
Lemma cut_has l b c through off s :
  cut l (Some b) c through off s -> batch_armings b = l -> has b (work b s) s.
Proof. intros (Hw & Hst & Hb & _ & _ & _ & Hbo) <-. split_and!; [|done|done]. split; [done|unfold captured; by rewrite Hb|]. naive_solver. Qed.

Lemma wp_cut {X} (g : Actor -> outcome (X * Actor)) l rb c through off Q s :
  cut l rb c through off s -> (forall s1, cut l rb c through off s1 -> exists x s2, g s1 = Ret (x, s2) /\ Q x s2) ->
  wp (owned g) Q s.
Proof.
  intros H HQ. apply (wp_stable _ _ (cut l rb c through off)); [apply cut_others|done|]. intros s1 H1.
  by destruct (HQ s1 H1) as (x & s2 & -> & ?).
Qed.
(** The cutoffs are sampled. *)
Lemma wp_sample l rb c through off (k : Z -> nat -> Prog Actor ()) Q s :
  cut l rb c through off s ->
  (forall through off s1, cut l rb c through off s1 -> wp (k through off) Q s1) ->
  wp (through ← accepted_now; n ← watermark; k through n) Q s.
Proof.
  intros H HQ. apply wp_seq. apply (wp_cut _ l rb c through off); [done|]. clear s H. intros s (Hw & Hst & Hb & Hc & Ht & Hof & Hbo).
  eexists _, _. split; [done|]. apply wp_seq. apply (wp_cut _ l rb c (in_accepted (inbox s)) off); [by split_and!|].
  clear Ht Hof. intros s1 (Hw1 & Hst1 & Hb1 & Hc1 & Ht & Hof & Hbo1). eexists _, _. split; [done|]. apply HQ. by split_and!.
Qed.

Lemma promote_cut a l b c through off s :
  is_fired_batch b = false -> cut (a :: l) (Some b) c through off s ->
  exists s', (b ← expect "steady batch was initialized" (ready_batch s); b ← promote_to_fired (a :: l) c through off b;
              Ret ((), set_batch (Some b) s)) = Ret ((), s') /\ exists b n, has b n s'.
Proof.
  intros Hf (Hw & Hst & Hb & Hc & Ht & Hof & Hbo). rewrite Hb. cbn [expect mbind outcome_bind]. unfold promote_to_fired. simpl.
  destruct b as [[d|] ? ?]; [|done]. simpl. eexists. split; [done|]. eexists (mkBatch _ _ _), _. split_and!; [|done|by intros _].
  split; [done|done|]. intros ? [= <-]. by split_and!.
Qed.

Lemma begin_ready_batch_spec s : actor_inv s -> wp begin_ready_batch (fun _ s' => exists b n, has b n s') s.
Proof.
  intros Hi%inv_cut. unfold begin_ready_batch. apply wp_seq. apply (wp_cut _ _ _ _ _ _ _ _ Hi). intros s1 H1.
  eexists _, _. split; [done|]. apply wp_seq. pose proof H1 as (_ & _ & -> & _). unfold captured in H1. clear Hi.
  apply (wp_weaken _ _ _ _ (fun _ s' => exists b n, has b n s')).
  { destruct (ready_batch s) as [b|]; [rewrite bool_decide_true by done; apply wp_done; exists b, (work b s1); by eapply cut_has|rewrite bool_decide_false by by intros []].
    apply (wp_sample _ _ _ _ _ _ _ _ H1). clear s s1 H1. intros through off s H.
    apply (wp_cut _ _ _ _ _ _ _ _ H). clear s H. intros s (Hw & Hst & Hb & _ & Ht & Hof & _). eexists _, _. split; [done|].
    exists (steady through off), O. split_and!; [|done|done]. split; [done|done|]. intros ? [= <-]. by split_and!. }
  clear s s1 H1. intros _ s (b & n & Hh). apply wp_seq. apply (wp_observe_has _ b n); [done|]. clear s Hh. intros s Hh.
  pose proof Hh as (_ & -> & _). destruct (is_fired_batch b) eqn:Hf; [apply wp_done; eauto|]. cbn [orb].
  destruct (store_is_empty _); [apply wp_done; eauto|]. apply wp_seq. apply (wp_observe_has _ b n); [done|]. clear s Hh. intros s Hh.
  generalize (now s). intros t. apply wp_seq. apply (wp_batch _ b n); [done|]. clear s Hh. intros s ([Hw Ht Hbo] & Hb & _).
  unfold captured in Ht. rewrite Hb in Ht. assert (Hl : batch_armings b = []) by (by destruct b as [[] ? ?]). rewrite Hl in Ht.
  pose proof (store_ok_take_due _ t Ht) as Hst. destruct (take_due t (timers s)) as [l ts]. simpl in Hst. eexists _, _. split; [done|].
  assert (Hc : cut l (Some b) 0 (in_accepted (inbox s)) 0 (set_timers ts s)).
  { split_and!; simpl; [done|done|done|lia|lia|lia|]. intros b' [= <-]. by apply Hbo. }
  destruct l as [|a l]; [apply wp_done; exists b, (work b (set_timers ts s)); by eapply cut_has|].
  apply wp_seq. apply (wp_cut _ _ _ _ _ _ _ _ Hc). clear Ht Hst Hc. intros s1 (? & ? & ? & ? & ? & ? & ?). eexists _, _. split; [done|].
  apply (wp_sample (a :: l) (Some b) (length (continuations s1)) (in_accepted (inbox s)) 0); [by split_and!|].
  intros through off s2 Hs2. apply (wp_cut _ _ _ _ _ _ _ _ Hs2). intros s3 Hs3.
  destruct (promote_cut _ _ _ _ _ _ _ Hf Hs3) as (s4 & -> & ?). eauto.
Qed.
Lemma begin_fired b n s : has b n s -> is_fired_batch b = true -> wp begin_ready_batch (fun _ s' => has b n s') s.
Proof.
  intros Hh Hf. unfold begin_ready_batch. apply wp_seq. apply (wp_observe_has _ b n); [done|]. clear s Hh. intros s Hh.
  pose proof Hh as (_ & -> & _). rewrite bool_decide_true by done. apply wp_seq, wp_done, wp_seq. apply (wp_observe_has _ b n); [done|]. clear s Hh. intros s Hh.
  pose proof Hh as (_ & -> & _). rewrite Hf. by apply wp_done.
Qed.

Lemma served_inv f n l r s : served f n l r s -> actor_inv s.
Proof.
  assert (H : forall f k l, holds f k l s -> actor_inv s) by (intros ? ? ? (b & (? & _) & _); done).
  destruct r as [[| | |a] m| |p|]; simpl; naive_solver.
Qed.
Lemma turned_inv f n l r s : turned f n l r s -> actor_inv s.
Proof. destruct r as [[]|]; intros H; [exact (served_inv _ _ _ _ _ H)|apply H|exact (served_inv _ _ _ _ _ H)|done|apply H]. Qed.

Lemma inv_slot p s : actor_inv s -> actor_inv (set_slot p s).
Proof. by apply inv_core. Qed.

Lemma selection_turn_inv s : actor_inv s -> wp (selection_turn drop_panics) (fun _ s' => actor_inv s') s.
Proof.
  intros Hi. unfold selection_turn, resume_pending_panic. apply wp_seq. apply (wp_stable _ _ actor_inv); [apply others_inv|done|].
  clear s Hi. intros s Hi%(inv_slot None). destruct (panic_slot s); [by apply wp_done|].
  apply wp_seq. eapply wp_weaken; [by apply begin_ready_batch_spec|].
  clear s Hi. intros _ s (b & n & Hh). eapply wp_weaken; [by apply arbitrate_spec|]. intros r s'. apply turned_inv.
Qed.
Lemma selection_turn_fired b n s :
  has b n s -> is_fired_batch b = true -> wp (selection_turn drop_panics) (turned true n (batch_armings b)) s.
Proof.
  intros Hh Hf. unfold selection_turn, resume_pending_panic. apply wp_seq. apply (wp_batch _ b n); [done|]. clear s Hh. intros s Hh.
  assert (Hh' : has b n (set_slot None s)) by (by eapply has_core; [|exact Hh]).
  eexists _, _. split; [done|]. destruct (panic_slot s).
  - apply wp_done. exists [], (batch_armings b). split_and!; [done|constructor|]. rewrite <- Hf. by apply has_holds.
  - apply wp_seq. eapply wp_weaken; [by apply (begin_fired b n)|]. intros ? s1 H1. rewrite <- Hf. by apply arbitrate_spec.
Qed.

(** *** Calls *)

Lemma inv_reclaim s : actor_inv s -> actor_inv (reclaim_finished s).
Proof. by apply inv_core. Qed.
Lemma selection_loop_inv turns s : actor_inv s -> wp (selection_loop drop_panics turns) (fun _ s' => actor_inv s') s.
Proof.
  revert s. induction turns as [|turns IH]; intros s Hi; [by apply wp_done|]. cbn [selection_loop]. apply wp_seq.
  eapply wp_weaken; [by apply selection_turn_inv|]. intros [r|] s1 H1; [by apply wp_done|by apply IH].
Qed.

(** Selection keeps the invariant; no assertion of the framework fails. *)
Lemma next_ready_inv turns s : actor_inv s -> wp (next_ready drop_panics turns) (fun _ s' => actor_inv s') s.
Proof.
  intros Hi. unfold next_ready, select_ready. apply wp_seq, wp_seq. apply (wp_stable _ _ actor_inv); [apply others_inv|done|].
  clear s Hi. intros s Hi%inv_reclaim. eapply wp_weaken; [by apply selection_loop_inv|]. clear s Hi. intros r s Hi.
  assert (Hp : wp (p ← resume_pending_panic;
    match p with
    | None => mret r
    | Some payload => _ ← update (fun s => match r with Selected _ m => dispose drop_panics (TrashMessage m) s | _ => s end);
                      mret (Unwound payload)
    end) (fun _ s' => actor_inv s') s).
  { unfold resume_pending_panic. apply wp_seq. apply (wp_stable _ _ actor_inv); [apply others_inv|done|]. clear s Hi. intros s Hi%(inv_slot None).
    destruct (panic_slot s); [|by apply wp_done]. apply wp_seq. apply (wp_stable _ _ actor_inv); [apply others_inv|done|].
    clear s Hi. intros s Hi. apply wp_done. destruct r; [eapply inv_core; [apply core_dispose|done]|done..]. }
  destruct r; [done|done|by apply wp_done..].
Qed.

(** What a call that selects does to a fired batch: it serves the batch, or the
    batch's timers are over. *)
Definition called n l (r : Selection M) s : Prop :=
  match r with
  | Selected _ _ => served true n l r s \/ (actor_inv s /\ Forall (unarmed s) l)
  | NothingReady | StillSelecting => holds true n l s \/ (actor_inv s /\ Forall (unarmed s) l)
  | Unwound _ => actor_inv s
  end.

Lemma holds_others f n l s s' : others s s' -> holds f n l s -> holds f n l s'.
Proof. intros Ho (b & Hh & ?). exists b. split; [by eapply has_others|done]. Qed.
Lemma served_others f n l r s s' : others s s' -> served f n l r s -> served f n l r s'.
Proof.
  intros Ho. assert (Hu : forall l, Forall (unarmed s) l -> Forall (unarmed s') l).
  { intros l'. unfold unarmed. by destruct (others_timers _ _ Ho) as [-> _]. }
  destruct r as [[| | |a] m| |p|]; simpl; [| | | |done| |done].
  1, 2, 3: intros (k & ? & ?); exists k; split; [done|by eapply holds_others].
  - intros (skipped & rest & k & ? & ? & ? & ?). exists skipped, rest, k. split_and!; [done|auto|done|by eapply holds_others].
  - intros (skipped & rest & ? & ? & ?). exists skipped, rest. split_and!; [done|auto|by eapply holds_others].
Qed.
Lemma served_core f n l r s s' : core s' = core s -> served f n l r s -> served f n l r s'.
Proof.
  intros Hc. assert (Hu : forall l, Forall (unarmed s) l -> Forall (unarmed s') l).
  { intros l'. unfold unarmed. injection Hc as _ _ _ -> _. done. }
  assert (Hh : forall f n l, holds f n l s -> holds f n l s') by (intros f' n' l' (b & ? & ?); exists b; split; [by eapply has_core|done]).
  destruct r as [[| | |a] m| |p|]; simpl; naive_solver.
Qed.
Lemma called_others n l r s s' : others s s' -> called n l r s -> called n l r s'.
Proof.
  intros Ho. assert (Hu : actor_inv s /\ Forall (unarmed s) l -> actor_inv s' /\ Forall (unarmed s') l).
  { intros [? ?]. split; [by eapply others_inv|]. unfold unarmed in *. by destruct (others_timers _ _ Ho) as [-> _]. }
  destruct r; cbn [called]; [|  |by eapply others_inv|]; intros [?|?]; auto; left; [by eapply served_others|by eapply holds_others..].
Qed.

Lemma called_core n l r s s' : core s' = core s -> called n l r s -> called n l r s'.
Proof.
  intros Hc. assert (Hu : actor_inv s /\ Forall (unarmed s) l -> actor_inv s' /\ Forall (unarmed s') l).
  { intros [? ?]. split; [by eapply inv_core|]. unfold unarmed in *. by injection Hc as _ _ _ -> _. }
  assert (Hh : holds true n l s -> holds true n l s') by (intros (b & ? & ?); exists b; split; [by eapply has_core|done]).
  destruct r; cbn [called]; [| |by eapply inv_core|]; intros [?|?]; auto. left. by eapply served_core.
Qed.
Lemma called_inv n l r s : called n l r s -> actor_inv s.
Proof.
  assert (H : holds true n l s -> actor_inv s) by (intros (b & (? & _) & _); done).
  destruct r; cbn [called]; [intros [?|[? _]]; [by eapply served_inv|done]| |done|]; intros [?|[? _]]; auto.
Qed.

Lemma selection_loop_fired turns b n s :
  has b n s -> is_fired_batch b = true -> wp (selection_loop drop_panics turns) (called n (batch_armings b)) s.
Proof.
  intros Hh Hf. destruct turns as [|turns]; [apply wp_done; left; rewrite <- Hf; by apply has_holds|]. cbn [selection_loop]. apply wp_seq.
  eapply wp_weaken; [by apply (selection_turn_fired b n)|]. clear s Hh. intros [r|] s Hr.
  - apply wp_done. destruct r; cbn [turned called] in *; [by left|right; naive_solver|by eapply served_inv|done].
  - destruct Hr as (Hi & Hb & HF). eapply wp_weaken; [apply (wp_unarmed _ (batch_armings b)); [apply selection_loop_anew|done|by apply selection_loop_inv]|].
    intros r s1 [? ?]. destruct r; simpl; auto.
Qed.

Lemma next_ready_fired turns b n s :
  has b n s -> is_fired_batch b = true -> wp (next_ready drop_panics turns) (called n (batch_armings b)) s.
Proof.
  intros Hh Hf. unfold next_ready, select_ready. apply wp_seq, wp_seq. apply (wp_update_has _ b n); [done|done|]. clear s Hh. intros s Hh.
  eapply wp_weaken; [by apply (selection_loop_fired turns b n)|]. clear s Hh. intros r s Hr.
  assert (Hp : wp (p ← resume_pending_panic;
    match p with
    | None => mret r
    | Some payload => _ ← update (fun s => match r with Selected _ m => dispose drop_panics (TrashMessage m) s | _ => s end);
                      mret (Unwound payload)
    end) (called n (batch_armings b)) s).
  { unfold resume_pending_panic. apply wp_seq. apply (wp_stable _ _ (called n (batch_armings b) r)); [apply called_others|done|].
    clear s Hr. intros s Hr. assert (Hr' : called n (batch_armings b) r (set_slot None s)) by (by eapply called_core; [|exact Hr]).
    destruct (panic_slot s); [|by apply wp_done]. apply wp_seq.
    apply (wp_stable _ _ actor_inv); [apply others_inv|by eapply called_inv|]. clear s Hr Hr'. intros s Hi. apply wp_done.
    destruct r; [eapply inv_core; [apply core_dispose|done]|done..]. }
  destruct r; [done|done|by apply wp_done..].
Qed.

End props.
