(* ===== verification/RawHistory.v ===== *)
(** * The raw actor loop: its histories

    Sequences of calls on one incarnation - its handler's requests, its receives
    and what other threads do in between - and what holds along them: no
    assertion of the framework fails, and a fired timer is served within the
    deliveries that its batch captured. *)

From S2P Require Import Prelude BTree Time Identity Policy Latch Interleave TimerStore Raw RawProps.
Import ReadyBatchPhase (Steady, Fired).

(** The calls of an incarnation. *)
Inductive request (K M W : Type) :=
| ContinueWith (m : M)
| SetTimeout (k : K) (m : M) (after : Z)
| SetInterval (clone : M -> result M string) (k : K) (m : M) (period : Z)
| ClearTimer (k : K)
| StartOffload (w : W) (elapsed : result M string) (budget_is_zero : bool)
| DropGuard (g : Guard)
| MarkReady
| Stop
| DeferStop
| FinishInit (successful : bool)
| Recv (turns : nat)
| RecvAfterShutdown
| TryRecv (turns : nat).
Arguments ContinueWith {K M W} m.
Arguments SetTimeout {K M W} k m after.
Arguments SetInterval {K M W} clone k m period.
Arguments ClearTimer {K M W} k.
Arguments StartOffload {K M W} w elapsed budget_is_zero.
Arguments DropGuard {K M W} g.
Arguments MarkReady {K M W}.
Arguments Stop {K M W}.
Arguments DeferStop {K M W}.
Arguments FinishInit {K M W} successful.
Arguments Recv {K M W} turns.
Arguments RecvAfterShutdown {K M W}.
Arguments TryRecv {K M W} turns.

Section histories.
Context {K M B W : Type} `{!EqDecision K, !Inbox M B, !InboxLaws M B} {clock : Clock} (hash_key : K -> Z).
Context (drop_panics : Trash K M W -> option string) (cancel_panics : OffloadResource -> list string).
Context (L : Latches) (readiness : Readiness).
Local Abbreviation Actor := (Actor K M B W).
Implicit Types (s : Actor).

Local Abbreviation quietly p := (_ ← p; mret None).

(** A call, and what it receives. *)
Definition serve (q : request K M W) : Prog Actor (option (Receive M)) :=
  match q with
  | ContinueWith m => quietly (continue_with L m)
  | SetTimeout k m after => quietly (set_timeout hash_key drop_panics L k m after)
  | SetInterval clone k m period => quietly (set_interval hash_key drop_panics L clone k m period)
  | ClearTimer k => quietly (clear_timer hash_key drop_panics k)
  | StartOffload w elapsed zero => quietly (start_offload drop_panics L w elapsed zero)
  | DropGuard g => quietly (drop_guard g)
  | MarkReady => quietly (mark_ready L)
  | Stop => quietly (stop drop_panics cancel_panics L)
  | DeferStop => quietly (defer_stop_until_after_init drop_panics cancel_panics)
  | FinishInit successful => quietly (finish_callback_init L readiness successful)
  | Recv turns => r ← recv drop_panics cancel_panics L turns; mret (Some r)
  | RecvAfterShutdown => r ← recv_after_shutdown; mret (Some r)
  | TryRecv turns => r ← try_recv drop_panics cancel_panics L turns; mret (Some r)
  end.

(** What an incarnation has received between two states. *)
Inductive history : Actor -> list (Receive M) -> Actor -> Prop :=
| history_start s : history s [] s
| history_others s log s1 s2 : history s log s1 -> others s1 s2 -> history s log s2
| history_call s log s1 q r s2 :
    history s log s1 -> runs others (serve q) s1 (Returned r s2) -> history s (log ++ option_list r) s2.

(** A new incarnation on a well-formed mailbox. *)
Definition fresh s : Prop :=
  in_wf (inbox s) /\ timers s = store_new /\ ready_batch s = None /\ accepting s = true.

(** ** The invariant along histories *)

(** Nothing is armed after intake has frozen. *)
Definition sane s : Prop := actor_inv hash_key s /\ (accepting s = false -> armings (timers s) = ∅).

Lemma fresh_sane s : fresh s -> sane s.
Proof.
  intros (Hw & Ht & Hb & Ha). split; [|by rewrite Ha]. split; [done| |by rewrite Hb]. unfold captured. rewrite Ht, Hb.
  exists (mkAlarms 0 ∅). split; [apply represents_new|]. split; simpl; [constructor|set_solver|..]; by intros a al ?%lookup_empty_Some.
Qed.

Local Abbreviation wp := (wp others (fun _ => False) spent).

(** *** Properties that calls keep *)

Section closed.
(** A property that the steps of requests keep. *)
Context (P : Actor -> Prop).
Context (P_others : forall s s', others s s' -> P s -> P s')
  (P_sane : forall s, P s -> sane s)
  (P_core : forall s s', core s' = core s -> accepting s' = accepting s -> P s -> P s')
  (P_continue : forall m s, P s -> P (set_continuations (continuations s ++ [m]) s))
  (P_event : forall e s, P s -> P (set_events (events s ++ [e]) s))
  (P_inbox : forall inb s, P s -> in_wf inb -> in_accepted (inbox s) <= in_accepted inb ->
    (forall k, k <= in_accepted (inbox s) -> (in_backlog k inb <= in_backlog k (inbox s))%nat) -> P (set_inbox inb s))
  (P_timers : forall t s, P s -> store_ok hash_key t (captured s) ->
    (forall a, unarmed s a -> unarmed (set_timers t s) a) -> (accepting s = false -> armings t = ∅) -> P (set_timers t s))
  (P_frozen : forall s s', P s -> sane s' -> ready_batch s' = None -> accepting s' = false ->
    Forall (unarmed s') (captured s) -> (forall a, unarmed s a -> unarmed s' a) -> P s').

Lemma wp_keep {X} (f : Actor -> outcome (X * Actor)) s :
  P s -> (forall s1, P s1 -> match f s1 with Ret (_, s2) => P s2 | Panics _ => False | ProcessAborts => spent s1 end) ->
  wp (atom f) (fun _ s' => P s') s.
Proof. intros HP Hf. apply (wp_stable _ _ P); [done|done|]. intros s1 H1. specialize (Hf s1 H1). by destruct (f s1) as [[]| |]. Qed.
Lemma keep_observe {X} (g : Actor -> X) s : P s -> wp (observe g) (fun _ s' => P s') s.
Proof. intros HP. by apply wp_keep. Qed.
Lemma keep_bind {X Y} (p : Prog Actor X) (k : X -> Prog Actor Y) s :
  wp p (fun _ s' => P s') s -> (forall x s', P s' -> wp (k x) (fun _ s' => P s') s') -> wp (p ≫= k) (fun _ s' => P s') s.
Proof. intros Hp Hk. apply wp_seq. eapply wp_weaken; [exact Hp|]. intros x s'. apply Hk. Qed.
Lemma keep_update (g : Actor -> Actor) s : P s -> (forall s1, P s1 -> P (g s1)) -> wp (update g) (fun _ s' => P s') s.
Proof. intros HP Hg. by apply wp_keep. Qed.
Lemma keep_done {X} (x : X) s : P s -> wp (mret x) (fun _ s' => P s') s.
Proof. done. Qed.

Ltac keep_step :=
  first [ apply keep_done; done
        | apply keep_observe; done
        | apply keep_bind; [|intros ? ? ?]
        | match goal with |- context [match ?x with _ => _ end] => destruct x end ].
Ltac keep := repeat keep_step.

Lemma keep_fire l s : P s -> wp (fire_latch l) (fun _ s' => P s') s.
Proof. intros HP. apply keep_update; [done|]. intros s1. by apply P_core. Qed.
Lemma keep_is_set l s : P s -> wp (is_set l) (fun _ s' => P s') s.
Proof. apply keep_observe. Qed.
Lemma keep_is_stopping s : P s -> wp (is_stopping L) (fun _ s' => P s') s.
Proof. intros HP. unfold is_stopping, is_set. keep. Qed.
Lemma keep_mark_ready s : P s -> wp (mark_ready L) (fun _ s' => P s') s.
Proof.
  intros HP. unfold mark_ready. apply keep_bind; [by apply keep_is_stopping|]. intros [] s' H'; [by apply keep_done|].
  apply keep_update; [done|]. intros s1 H1. case_match; [by eapply P_core; [| |exact H1]|done].
Qed.
Lemma keep_finish_init b s : P s -> wp (finish_callback_init L readiness b) (fun _ s' => P s') s.
Proof.
  intros HP. unfold finish_callback_init. apply keep_bind; [apply wp_keep; [done|]; intros s1; by apply P_core|].
  intros d s1 H1. apply keep_bind; [destruct (_ && _); [by apply keep_mark_ready|by apply keep_done]|].
  intros _ s2 H2. destruct d; [by apply keep_fire|by apply keep_done].
Qed.
Lemma rejects_new_work_spec s : P s -> wp (rejects_new_work L) (fun r s' => P s' /\ (r = false -> accepting s' = true)) s.
Proof.
  intros HP. unfold rejects_new_work. apply wp_seq. eapply wp_weaken; [by apply keep_is_stopping|]. intros [] s' H'; [by apply wp_done|].
  apply (wp_stable _ _ P); [done|done|]. intros s1 H1. split; [done|]. by destruct (accepting s1).
Qed.

(** The properties kept while intake is open. *)
Definition open s : Prop := P s /\ accepting s = true.
Lemma open_others s s' : others s s' -> open s -> open s'.
Proof. intros Ho [HP Ha]. split; [eauto|]. pose proof (oth_owned _ _ Ho) as H. injection H as -> _. done. Qed.

Lemma keep_continue m s : P s -> wp (continue_with L m) (fun _ s' => P s') s.
Proof.
  intros HP. unfold continue_with. apply wp_seq. eapply wp_weaken; [by apply rejects_new_work_spec|].
  intros [] s1 [H1 _]; [by apply keep_done|]. apply keep_bind; [apply keep_update; [done|apply P_continue]|]. intros _ s2 H2. by apply keep_done.
Qed.

(** The timers change, and what they destroy is disposed of. *)
Lemma P_dispose_timers r t s :
  P s -> store_ok hash_key t (captured s) -> (forall a, unarmed s a -> unarmed (set_timers t s) a) ->
  (accepting s = false -> armings t = ∅) -> P (dispose_timers drop_panics r (set_timers t s)).
Proof.
  intros HP Hst Hu Ha. eapply P_core; [apply core_dispose_all|apply accepting_dispose_all|]. by apply P_timers.
Qed.

Lemma replace_unarmed k d m (t t' : TimerStore K M) a r : replace hash_key k d m t = Ret (a, r, t') ->
  forall x, armings t !! x = None /\ x <= MonotonicCounter.current (arming_orders t) ->
            armings t' !! x = None /\ x <= MonotonicCounter.current (arming_orders t').
Proof.
  unfold replace. destruct (MonotonicCounter.mint (arming_orders t)) as [[a' c]| |] eqn:Em; cbn [mbind outcome_bind]; [|done..].
  apply mint_Ret in Em as (Ha & _ & ->). unfold remove_hashed, take_hashed.
  destruct (locate _ _ _) as [loc|]; cbn [mbind outcome_bind].
  - destruct (unlink loc _) as [[e t1]| |] eqn:Eu; cbn [mbind outcome_bind]; [|done..]. apply unlink_anew in Eu as [Hc Hn].
    unfold assert_that. destruct (bool_decide _); [|done]. cbn [mbind outcome_bind]. intros [= <- <- <-] x [Hx Hle]. simpl. rewrite Hc. simpl in *.
    split; [rewrite lookup_insert_ne by lia; auto|lia].
  - unfold assert_that. destruct (bool_decide _); [|done]. cbn [mbind outcome_bind]. intros [= <- <- <-] x [Hx Hle]. simpl in *.
    split; [rewrite lookup_insert_ne by lia; auto|lia].
Qed.

Lemma replace_aborts k d m (t : TimerStore K M) l :
  store_ok hash_key t l -> replace hash_key k d m t = ProcessAborts -> ~ (MonotonicCounter.current (arming_orders t) < u64_max).
Proof.
  intros (A & Hr & _) E. pose proof (store_ok_exec hash_key t A (TReplace k d m) Hr I) as H. cbn [store_exec alarm_exec] in H.
  rewrite E in H. destruct (rp_counter _ _ _ Hr) as [Hc _]. rewrite Hc. cbn [mbind outcome_bind] in H. simpl. intros Hlt.
  unfold MonotonicCounter.mint in H. cbn [MonotonicCounter.current] in H.
  destruct (MonotonicCounter.successor (issued_orders A)) eqn:Es; [done|done|]. apply successor_Abort in Es. lia.
Qed.

Lemma keep_replace k m after s : open s -> wp (replace_timer hash_key drop_panics k m after) (fun _ s' => P s') s.
Proof.
  intros HP. unfold replace_timer. apply wp_seq. apply (wp_stable _ _ open); [apply open_others|done|]. clear s HP. intros s HP.
  generalize (now s). intros t. apply (wp_stable _ _ open); [apply open_others|done|]. clear s HP. intros s [HP Ha].
  destruct (P_sane s HP) as [[_ Ht _] _]. pose proof (store_ok_replace hash_key _ _ k (Deadline.instant (Deadline.after t after)) m Ht) as Hs.
  destruct (replace _ _ _ _ _) as [[[a r] t']| |] eqn:Er; cbn [mbind outcome_bind]; [|done|].
  - apply P_dispose_timers; [done|done| |by rewrite Ha]. exact (replace_unarmed _ _ _ _ _ _ _ Er).
  - right. by eapply replace_aborts.
Qed.

Lemma keep_set_timeout k m after s : P s -> wp (set_timeout hash_key drop_panics L k m after) (fun _ s' => P s') s.
Proof.
  intros HP. unfold set_timeout. apply wp_seq. eapply wp_weaken; [by apply rejects_new_work_spec|].
  intros [] s1 [H1 Ha]; [by apply keep_done|]. apply keep_bind; [apply keep_replace; split; auto|]. intros _ s2 H2. by apply keep_done.
Qed.

Lemma unlink_unarmed (t t' : TimerStore K M) found r k :
  remove hash_key k t = Ret (found, r, t') ->
  arming_orders t' = arming_orders t /\ forall a, armings t !! a = None -> armings t' !! a = None.
Proof.
  unfold remove, remove_hashed, take_hashed. destruct (locate _ _ _) as [loc|]; cbn [mbind outcome_bind]; [|by intros [= _ _ <-]].
  destruct (unlink loc t) as [[e t1]| |] eqn:E; cbn [mbind outcome_bind]; [|done..]. intros [= _ _ <-]. by eapply unlink_anew.
Qed.
(** A timer is removed. *)
Lemma P_remove k s :
  P s -> exists found r t, remove hash_key k (timers s) = Ret (found, r, t) /\
    forall extra, P (dispose_timers drop_panics (r ++ extra) (set_timers t s)).
Proof.
  intros HP. destruct (P_sane s HP) as [[_ Ht _] Ha]. destruct (store_ok_remove hash_key _ _ k Ht) as (found & r & t & Hr & Hst).
  exists found, r, t. split; [done|]. intros extra. destruct (unlink_unarmed _ _ _ _ _ Hr) as [Hc Hn].
  apply P_dispose_timers; [done|done| |].
  - intros a [H1 H2]. split; simpl; [auto|by rewrite Hc].
  - intros E. specialize (Ha E). apply map_empty. intros a. apply Hn. by rewrite Ha.
Qed.
Lemma keep_clear_timer k s : P s -> wp (clear_timer hash_key drop_panics k) (fun _ s' => P s') s.
Proof.
  intros HP. apply wp_keep; [done|]. clear s HP. intros s HP. destruct (P_remove k s HP) as (f & r & t & -> & H). cbn [mbind outcome_bind].
  specialize (H []). by rewrite app_nil_r in H.
Qed.
Lemma keep_set_interval clone k m period s : P s -> wp (set_interval hash_key drop_panics L clone k m period) (fun _ s' => P s') s.
Proof.
  intros HP. unfold set_interval. apply wp_seq. eapply wp_weaken; [by apply rejects_new_work_spec|].
  intros [] s1 [H1 Ha]; [by apply keep_done|]. destruct (period =? 0).
  - apply keep_bind; [|intros _ s2 H2; by apply keep_done]. apply wp_keep; [done|]. clear s HP s1 H1 Ha. intros s HP.
    unfold clear_and_dispose. destruct (P_remove k s HP) as (f & r & t & -> & H). cbn [mbind outcome_bind]. apply H.
  - apply keep_bind; [apply keep_replace; split; auto|]. intros _ s2 H2. by apply keep_done.
Qed.

Lemma keep_core_update (g : Actor -> Actor) s :
  P s -> (forall s1, core (g s1) = core s1 /\ accepting (g s1) = accepting s1) -> wp (update g) (fun _ s' => P s') s.
Proof. intros HP Hg. apply keep_update; [done|]. intros s1 H1. destruct (Hg s1). by eapply P_core. Qed.
Lemma keep_new_latch s : P s -> wp new_latch (fun _ s' => P s') s.
Proof. intros HP. apply wp_keep; [done|]. intros s1. by apply P_core. Qed.
Lemma core_dispose_accepting x s :
  core (dispose drop_panics x s) = core s /\ accepting (dispose drop_panics x s) = accepting s.
Proof. split; [apply core_dispose|]. pose proof (timers_dispose drop_panics x s) as H. by injection H. Qed.
Lemma keep_start_offload w e z s : P s -> wp (start_offload drop_panics L w e z) (fun _ s' => P s') s.
Proof.
  intros HP. unfold start_offload. apply wp_seq. eapply wp_weaken; [by apply rejects_new_work_spec|].
  intros [] s1 [H1 _]; [by apply keep_done|]. apply keep_bind; [by apply keep_core_update|]. intros _ s2 H2.
  apply keep_bind; [by apply keep_new_latch|]. intros c s3 H3. apply keep_bind; [by apply keep_new_latch|]. intros f s4 H4. cbv zeta. destruct z.
  - apply keep_bind; [apply keep_core_update; [done|apply core_dispose_accepting]|]. intros _ s5 H5.
    apply keep_bind; [apply keep_update; [done|apply P_event]|]. intros _ s6 H6.
    apply keep_bind; [by apply keep_fire|]. intros _ s7 H7. apply keep_bind; [by apply keep_core_update|]. intros _ s8 H8. by apply keep_done.
  - apply keep_bind; [by apply keep_new_latch|]. intros i s5 H5. apply keep_bind; [by apply keep_core_update|]. intros _ s8 H8. by apply keep_done.
Qed.
Lemma keep_drop_guard g s : P s -> wp (drop_guard g) (fun _ s' => P s') s.
Proof. intros HP. unfold drop_guard. destruct (armed g); [by apply keep_fire|by apply keep_done]. Qed.

(** *** Freezing *)

(** Intake has closed on [s0]; its timers are still there. *)
Definition closing s0 s : Prop :=
  in_wf (inbox s) /\ timers s = timers s0 /\ accepting s = false.
(** Its timers are gone. *)
Definition cleared s0 s : Prop :=
  in_wf (inbox s) /\ timers s = (store_clear (timers s0)).2 /\ accepting s = false.
Definition shut s0 s : Prop := cleared s0 s /\ ready_batch s = None.
Lemma closing_others s0 s s' : others s s' -> closing s0 s -> closing s0 s'.
Proof.
  intros Ho (Hw & Ht & Ha). pose proof (oth_owned _ _ Ho) as H. injection H as H1 _ _ H2 _ _ _ _ _.
  split_and!; [by eapply rtc_in_others; [|exact (oth_inbox _ _ Ho)]|congruence|congruence].
Qed.
Lemma cleared_others s0 s s' : others s s' -> cleared s0 s -> cleared s0 s'.
Proof.
  intros Ho (Hw & Ht & Ha). pose proof (oth_owned _ _ Ho) as H. injection H as H1 _ _ H2 _ _ _ _ _.
  split_and!; [by eapply rtc_in_others; [|exact (oth_inbox _ _ Ho)]|congruence|congruence].
Qed.
Lemma shut_others s0 s s' : others s s' -> shut s0 s -> shut s0 s'.
Proof.
  intros Ho [Hc Hb]. split; [by eapply cleared_others|]. destruct (others_timers _ _ Ho). congruence.
Qed.

Lemma record_panics_keep l s :
  let s' := foldl (fun s payload => record_panic payload s) s l in
  inbox s' = inbox s /\ timers s' = timers s /\ accepting s' = accepting s.
Proof. revert s. induction l as [|x l IH]; intros s; [done|]. simpl. destruct (IH (record_panic x s)) as (-> & -> & ->). done. Qed.
Lemma cancel_offloads_closing l s0 s :
  closing s0 s -> wp (cancel_offloads cancel_panics l) (fun _ s' => closing s0 s') s.
Proof.
  revert s. induction l as [|o l IH]; intros s Hs; [by apply wp_done|]. cbn [cancel_offloads]. apply wp_seq.
  apply (wp_stable _ _ (closing s0)); [apply closing_others|done|]. clear s Hs. intros s (Hw & Ht & Ha). apply IH. unfold cancel_offload, closing.
  destruct (record_panics_keep (cancel_panics o) (match off_state o with
    | Some state => if bool_decide (off_finished o ∉ fired s)
        then set_published ({[state]} ∪ published (set_fired ({[off_cancellation o; off_finished o]} ∪ fired s) s)) (set_fired ({[off_cancellation o; off_finished o]} ∪ fired s) s)
        else set_fired ({[off_cancellation o; off_finished o]} ∪ fired s) s
    | None => set_fired ({[off_cancellation o; off_finished o]} ∪ fired s) s end)) as (-> & -> & ->).
  destruct (off_state o); [destruct (bool_decide _)|]; done.
Qed.
Lemma dispose_all_keeps l s :
  let s' := dispose_all drop_panics l s in
  inbox s' = inbox s /\ timers s' = timers s /\ ready_batch s' = ready_batch s /\ accepting s' = accepting s.
Proof.
  cbv zeta. rewrite accepting_dispose_all. pose proof (core_dispose_all drop_panics l s) as H. injection H as -> _ _ -> ->. done.
Qed.

Lemma shut_P s0 s : P s0 -> shut s0 s -> P s.
Proof.
  intros HP [(Hw & Ht & Ha) Hb]. destruct (P_sane s0 HP) as [[_ Hst _] _]. pose proof (store_ok_clear hash_key _ _ Hst) as Hst'.
  apply (P_frozen s0 s HP); [|done|done| |].
  - split; [|by rewrite Ht]. split; [done| |by rewrite Hb]. unfold captured. by rewrite Hb, Ht.
  - apply Forall_forall. intros a Hin. destruct Hst as (A & Hr & Hk). split; [by rewrite Ht|]. rewrite Ht. simpl.
    destruct (rp_counter _ _ _ Hr) as [-> _]. simpl. by apply (tk_issued _ _ Hk).
  - intros a [_ Hc]. by rewrite <- Ht in *; split; rewrite Ht.
Qed.
Lemma wp_to (R R' : Actor -> Prop) (g : Actor -> Actor) s :
  (forall s s', others s s' -> R s -> R s') -> R s -> (forall s1, R s1 -> R' (g s1)) -> wp (update g) (fun _ s' => R' s') s.
Proof. intros Hst HR Hg. by apply (wp_stable _ _ R). Qed.
Lemma dispose_closing l s0 s : closing s0 s -> closing s0 (dispose_all drop_panics l s).
Proof. intros (? & ? & ?). destruct (dispose_all_keeps l s) as (E1 & E2 & _ & E4). split_and!; congruence. Qed.
Lemma dispose_cleared l s0 s : cleared s0 s -> cleared s0 (dispose_all drop_panics l s).
Proof. intros (? & ? & ?). destruct (dispose_all_keeps l s) as (E1 & E2 & _ & E4). split_and!; congruence. Qed.
Lemma dispose_shut l s0 s : shut s0 s -> shut s0 (dispose_all drop_panics l s).
Proof. intros [? ?]. split; [by apply dispose_cleared|]. destruct (dispose_all_keeps l s) as (_ & _ & E & _). congruence. Qed.

Lemma keep_freeze_resources s : P s -> wp (freeze_resources drop_panics cancel_panics) (fun _ s' => P s' /\ accepting s' = false) s.
Proof.
  intros HP. unfold freeze_resources. apply wp_seq. apply (wp_stable _ _ P); [done|done|]. clear s HP. intros s HP.
  destruct (accepting s) eqn:Ha; [|by apply wp_done]. cbn [negb].
  apply wp_seq. apply (wp_stable _ _ P); [done|done|]. clear s HP Ha. intros s0 HP.
  destruct (P_sane s0 HP) as [[Hw _ _] _]. assert (H1 : closing s0 (set_accepting false s0)) by done.
  apply wp_seq. apply (wp_stable _ _ (closing s0)); [apply closing_others|done|]. clear Hw H1. intros s H1.
  apply wp_seq. eapply wp_weaken; [by apply cancel_offloads_closing|]. clear s H1. intros ? s H1.
  apply wp_seq. eapply wp_weaken; [apply (wp_to (closing s0) (closing s0)); [apply closing_others|done|]|].
  { intros s1 Hs1. by apply dispose_closing. }
  clear s H1. intros ? s H1. apply wp_seq. eapply wp_weaken; [apply (wp_to (closing s0) (cleared s0)); [apply closing_others|done|]|].
  { intros s1 (Hw & Ht & Ha). destruct (store_clear (timers s1)) as [r t] eqn:E. apply dispose_cleared. split_and!; [done|by rewrite <- Ht, E|done]. }
  clear s H1. intros ? s H1. apply wp_seq. eapply wp_weaken; [apply (wp_to (cleared s0) (shut s0)); [apply cleared_others|done|]|].
  { intros s1 H. by split. }
  clear s H1. intros ? s H1. eapply wp_weaken; [apply (wp_to (shut s0) (shut s0)); [apply shut_others|done|]|].
  { intros s1 Hs1. by apply dispose_shut. }
  clear s H1. intros ? s H1. split; [by apply (shut_P s0)|apply H1].
Qed.

(** Freezing either closes intake or unwinds before it has touched a resource. *)
Lemma keep_freeze_intake s :
  P s -> wp (freeze_intake drop_panics cancel_panics) (fun r s' => P s' /\ (r = Ok () -> accepting s' = false)) s.
Proof.
  intros HP. unfold freeze_intake. apply wp_seq. apply (wp_stable _ _ P); [done|done|]. clear s HP. intros s HP.
  destruct (P_sane s HP) as [[Hw _ _] _]. pose proof (in_freeze_ok (inbox s) Hw) as (H1 & H2 & H3).
  destruct (in_freeze (inbox s)) as [r inb]. cbn [fst snd] in *. assert (HP' : P (set_inbox inb s)) by (by apply P_inbox).
  destruct r as [[]|payload]; [|by apply wp_done]. apply wp_seq. eapply wp_weaken; [by apply keep_freeze_resources|].
  intros ? s' [? ?]. by apply wp_done.
Qed.
Lemma keep_stop s : P s -> wp (stop drop_panics cancel_panics L) (fun _ s' => P s') s.
Proof.
  intros HP. unfold stop. apply wp_seq. eapply wp_weaken; [by apply keep_freeze_intake|]. intros r s' [H' _].
  destruct r; [|by apply keep_done]. apply keep_bind; [by apply keep_fire|]. intros ? s2 H2. by apply keep_done.
Qed.
Lemma keep_defer s : P s -> wp (defer_stop_until_after_init drop_panics cancel_panics) (fun _ s' => P s') s.
Proof.
  intros HP. unfold defer_stop_until_after_init. apply keep_bind; [by apply keep_observe|]. intros [] s1 H1; [by apply keep_done|].
  apply keep_bind; [by apply keep_core_update|]. intros ? s2 H2. eapply wp_weaken; [by apply keep_freeze_intake|]. by intros ? s3 [? _].
Qed.
Lemma keep_ends_receive s : P s -> wp ends_receive (fun _ s' => P s') s.
Proof.
  intros HP. unfold ends_receive, resume_pending_panic. apply keep_bind; [apply wp_keep; [done|]; intros s1; by apply P_core|].
  intros ? s1 H1. by apply keep_done.
Qed.

(** *** Receiving *)

(** What the receives of a frozen incarnation and of a live one leave. *)
Context (Q : Receive M -> Actor -> Prop).
Context (Q_keep : forall r s, P s -> (forall from m, r <> Receives from m) -> Q r s)
  (Q_frozen : forall r s, P s -> accepting s = false -> Q r s)
  (Q_ready : forall turns s, P s ->
    wp (next_ready drop_panics turns) (fun r s' =>
      (r = NothingReady -> P s') /\ Q match r with Selected from m => Receives from m | NothingReady => ReceivesNone | Unwound p => ReceiveUnwinds p | StillSelecting => StillReceiving end s') s).

Lemma keep_recv turns s : P s -> wp (recv drop_panics cancel_panics L turns) Q s.
Proof.
  intros HP. unfold recv. apply wp_seq. eapply wp_weaken; [by apply keep_is_set|]. clear s HP. intros [] s HP.
  - apply wp_seq. eapply wp_weaken; [by apply keep_freeze_intake|]. intros [] s1 [H1 _]; apply wp_done; by apply Q_keep.
  - apply wp_seq. eapply wp_weaken; [by apply keep_is_set|]. clear s HP. intros [] s HP.
    + apply wp_seq. eapply wp_weaken; [by apply keep_freeze_intake|]. intros [[]|] s1 [H1 _]; [|apply wp_done; by apply Q_keep].
      unfold ends_receive. apply wp_seq. eapply wp_weaken; [apply wp_keep; [exact H1|]; intros s2; by apply P_core|].
      intros p s2 H2. apply wp_done. destruct p; by apply Q_keep.
    + apply wp_seq. eapply wp_weaken; [by apply Q_ready|]. clear s HP. intros r s [HP HQ]. destruct r as [from m| |p|].
      * by apply wp_done.
      * apply wp_seq. eapply wp_weaken; [apply (keep_core_update reclaim_finished); by auto|]. intros ? s1 H1. apply wp_done. by apply Q_keep.
      * by apply wp_done.
      * by apply wp_done.
Qed.
Lemma keep_try_recv turns s : P s -> wp (try_recv drop_panics cancel_panics L turns) Q s.
Proof.
  intros HP. unfold try_recv. apply wp_seq. eapply wp_weaken; [by apply keep_is_stopping|]. clear s HP. intros [] s HP.
  - apply wp_seq. eapply wp_weaken; [by apply keep_freeze_intake|]. clear s HP. intros [[]|] s [HP Ha]; [|apply wp_done; by apply Q_keep].
    specialize (Ha eq_refl). unfold resume_pending_panic. apply wp_seq.
    set (R := fun s => P s /\ accepting s = false).
    assert (HR : forall s s', others s s' -> R s -> R s').
    { intros s1 s2 Ho [? ?]. split; [eauto|]. pose proof (oth_owned _ _ Ho) as Hown. injection Hown as -> _. done. }
    apply (wp_stable _ _ R); [done|by split|]. clear s HP Ha. intros s [HP Ha].
    assert (H1 : P (set_slot None s)) by (by eapply P_core; [| |exact HP]).
    destruct (panic_slot s); [apply wp_done; by apply Q_keep|]. apply wp_seq. apply (wp_stable _ _ R); [done|by split|].
    clear s HP Ha H1. intros s [HP Ha]. destruct (P_sane s HP) as [[Hw _ _] _].
    pose proof (in_recv_ok (inbox s) Hw) as Hrecv.
    destruct (in_try_recv (inbox s)) as [[r inb]| |]; cbn [mbind outcome_bind]; [|done|by left].
    destruct Hrecv as (H1 & H2 & H3). apply wp_done.
    apply Q_frozen; [by apply P_inbox|done].
  - apply wp_seq. eapply wp_weaken; [by apply Q_ready|]. intros r s1 [_ H1]. apply wp_done. by destruct r.
Qed.

(** Every call. *)
Definition served_with (r : option (Receive M)) s : Prop := match r with Some r => Q r s | None => P s end.
Lemma wp_quietly {X} (p : Prog Actor X) s :
  wp p (fun _ s' => P s') s -> wp (_ ← p; mret None) served_with s.
Proof. intros Hp. apply wp_seq. eapply wp_weaken; [exact Hp|]. intros x s' H. by apply wp_done. Qed.
Lemma wp_loudly (p : Prog Actor (Receive M)) s : wp p Q s -> wp (r ← p; mret (Some r)) served_with s.
Proof. intros Hp. apply wp_seq. eapply wp_weaken; [exact Hp|]. intros x s' H. by apply wp_done. Qed.

Lemma serve_spec q s : P s -> wp (serve q) served_with s.
Proof.
  intros HP. destruct q; cbn [serve]; try apply wp_quietly; try apply wp_loudly;
    auto using keep_continue, keep_set_timeout, keep_set_interval, keep_clear_timer, keep_start_offload, keep_drop_guard, keep_mark_ready,
      keep_stop, keep_defer, keep_finish_init, keep_recv, keep_try_recv.
  unfold recv_after_shutdown, ends_receive, resume_pending_panic. apply wp_seq.
  eapply wp_weaken; [apply wp_keep; [exact HP|]; intros s2; by apply P_core|].
  intros p s2 H2. apply wp_done. destruct p; by apply Q_keep.
Qed.
End closed.

(** *** Selection *)

(** Selection leaves intake and the armed keys as they are. *)
Lemma next_ready_frozen turns (R : Selection M -> Actor -> Prop) s :
  (accepting s = false -> armings (timers s) = ∅) ->
  wp (next_ready drop_panics turns) R s ->
  wp (next_ready drop_panics turns)
    (fun r s' => R r s' /\ (accepting s' = false -> armings (timers s') = ∅)) s.
Proof.
  apply (wp_frame _ _ _ arms_anew (fun s => accepting s = false -> armings (timers s) = ∅)); [| |apply next_ready_anew].
  - intros s1 s2 (_ & Ha & He)%others_anew H. rewrite Ha. auto.
  - intros s1 s2 (_ & Ha & He) H. rewrite Ha. auto.
Qed.

(** ** Every call keeps the invariant *)

Lemma inv_continue m s : actor_inv hash_key s -> actor_inv hash_key (set_continuations (continuations s ++ [m]) s).
Proof.
  intros [Hw Ht Hb]. split; [done|done|]. intros b E. destruct (Hb b E) as (? & ? & ?). split_and!; [done|done|].
  simpl. rewrite length_app. destruct (batch_phase b); [done|lia].
Qed.
Lemma actor_inv_event e s : actor_inv hash_key s -> actor_inv hash_key (set_events (events s ++ [e]) s).
Proof.
  intros [Hw Ht Hb]. split; [done|done|]. intros b E. destruct (Hb b E) as (? & ? & ?). split_and!; [done|simpl; rewrite length_app; lia|done].
Qed.
Lemma inv_inbox inb s :
  actor_inv hash_key s -> in_wf inb -> in_accepted (inbox s) <= in_accepted inb -> actor_inv hash_key (set_inbox inb s).
Proof. intros [Hw Ht Hb] ? ?. split; [done|done|]. intros b E. destruct (Hb b E) as (? & ? & ?). split_and!; [simpl; lia|done|done]. Qed.
Lemma inv_timers t s : actor_inv hash_key s -> store_ok hash_key t (captured s) -> actor_inv hash_key (set_timers t s).
Proof. intros [Hw Ht Hb] ?. by split. Qed.

Lemma serve_sane q s : sane s -> wp (serve q) (fun _ s' => sane s') s.
Proof.
  intros Hs. eapply wp_weaken; [apply (serve_spec sane) with (Q := fun _ s' => sane s'); try done|by intros [] s' H].
  - intros s1 s2 Ho [Hi He]. split; [by eapply others_inv|]. apply others_anew in Ho as (_ & -> & Ha). auto.
  - intros s1 s2 Hc Ha [Hi He]. split; [by eapply inv_core|]. rewrite Ha. by injection Hc as _ _ _ -> _.
  - intros m s1 [Hi He]. split; [by apply inv_continue|done].
  - intros e s1 [Hi He]. split; [by apply actor_inv_event|done].
  - intros inb s1 [Hi He] ? ? _. split; [by apply inv_inbox|done].
  - intros t s1 [Hi He] ? _ ?. split; [by apply inv_timers|done].
  - intros turns s1 [Hi He]. eapply wp_weaken; [apply next_ready_frozen; [done|by apply (next_ready_inv hash_key)]|].
    by intros r s2 [? ?].
Qed.
Lemma others_sane s s' : others s s' -> sane s -> sane s'.
Proof. intros Ho [Hi He]. split; [by eapply others_inv|]. apply others_anew in Ho as (_ & -> & Ha). auto. Qed.
Lemma history_sane s log s' : history s log s' -> sane s -> sane s'.
Proof.
  induction 1 as [|s log s1 s2 _ IH Ho|s log s1 q r s2 _ IH Hr]; intros Hs; [done|eapply others_sane; eauto|].
  exact (wp_runs _ _ _ _ _ _ _ (serve_sane q s1 (IH Hs)) Hr).
Qed.

(** ** A fired timer *)

Definition fired_within (a : Z) (n : nat) s : Prop := exists l, a ∈ l /\ holds hash_key true n l s.
(** The arming is over, or waits for at most [n] more deliveries. *)
Definition pending (a : Z) (n : nat) s : Prop := sane s /\ (unarmed s a \/ fired_within a n s).
(** A receive that does not unwind delivers it, or comes before it. *)
Definition advances (a : Z) (n : nat) (r : Receive M) s : Prop :=
  match r with
  | Receives from _ => sane s /\ (from = FromTimer a \/ unarmed s a \/ exists k, (k < n)%nat /\ fired_within a k s)
  | ReceiveUnwinds _ => sane s
  | _ => pending a n s
  end.

Lemma fired_issued a n s : fired_within a n s -> a <= MonotonicCounter.current (arming_orders (timers s)).
Proof.
  intros (l & Hin & b & ([_ (A & Hr & Hk) _] & Hb & _) & _ & <-). unfold captured in Hk. rewrite Hb in Hk.
  destruct (rp_counter _ _ _ Hr) as [-> _]. simpl. by apply (tk_issued _ _ Hk).
Qed.
Lemma pending_frozen a n s : pending a n s -> accepting s = false -> unarmed s a.
Proof.
  intros [[_ He] H] Ha. specialize (He Ha). split; [by rewrite He|]. destruct H as [[_ ?]|H]; [done|by eapply fired_issued].
Qed.
Lemma pending_map a n s s' :
  (unarmed s a -> unarmed s' a) -> (forall b, has hash_key b n s -> has hash_key b n s') -> sane s' -> pending a n s -> pending a n s'.
Proof.
  intros Hu Hh Hs [_ H]. split; [done|]. destruct H as [?|(l & Hl & b & ? & ?)]; [auto|]. right. exists l. split; [done|]. exists b. auto.
Qed.

(** A batch that a call has served. *)
Lemma served_fired a n b (r : Selection M) s :
  a ∈ batch_armings b -> sane s -> called hash_key n (batch_armings b) r s ->
  (r = NothingReady -> pending a n s) /\
  advances a n match r with Selected from m => Receives from m | NothingReady => ReceivesNone
               | Unwound p => ReceiveUnwinds p | StillSelecting => StillReceiving end s.
Proof.
  intros Ha Hs Hc. assert (Hall : actor_inv hash_key s /\ Forall (unarmed s) (batch_armings b) -> unarmed s a).
  { intros [_ HF]. rewrite Forall_forall in HF. auto. }
  assert (Hp : holds hash_key true n (batch_armings b) s \/ actor_inv hash_key s /\ Forall (unarmed s) (batch_armings b) -> pending a n s).
  { intros [H|H]; split; [done|right; by eexists|done|auto]. }
  destruct r as [from m| |p|]; cbn [advances called] in *; [|by auto|done|by auto]. split; [done|]. split; [done|].
  destruct Hc as [Hc|Hc]; [|auto]. destruct from as [| | |x]; cbn [served] in Hc.
  1, 2, 3: destruct Hc as (k & Hk & Hh); right; right; exists k; split; [auto|by eexists].
  destruct Hc as (skipped & rest & k & Hl & HF & Hk & Hh). rewrite Hl in Ha. apply elem_of_app in Ha as [Ha|[->|Ha]%elem_of_cons].
  - rewrite Forall_forall in HF. auto.
  - auto.
  - right; right. exists k. split; [auto|by eexists].
Qed.

Lemma pending_ready a n turns s :
  pending a n s ->
  wp (next_ready drop_panics turns) (fun r s' => (r = NothingReady -> pending a n s') /\
    advances a n match r with Selected from m => Receives from m | NothingReady => ReceivesNone
                 | Unwound p => ReceiveUnwinds p | StillSelecting => StillReceiving end s') s.
Proof.
  intros [[Hi He] H]. destruct H as [H|(l & Hl & b & Hh & Hf & <-)].
  - eapply wp_weaken; [apply next_ready_frozen; [done|]; apply (wp_unarmed _ [a]);
      [apply next_ready_anew|by constructor|by apply (next_ready_inv hash_key)]|].
    intros r s' [[Hi' Hu] He']. rewrite Forall_singleton in Hu. assert (Hs : sane s') by done.
    split; [by split; [|left]|]. destruct r; cbn [advances]; try done; (split; [done|auto]).
  - eapply wp_weaken; [apply next_ready_frozen; [done|by apply (next_ready_fired hash_key _ turns b n)]|]. intros r s' [Hc He'].
    apply (served_fired a n b); [done|split; [by eapply called_inv|done]|done].
Qed.

(** A batch under way survives a change of what it does not capture. *)
Lemma has_map b n s s' :
  actor_inv hash_key s' -> ready_batch s' = ready_batch s -> (work b s' <= work b s)%nat -> has hash_key b n s -> has hash_key b n s'.
Proof. intros Hi Hb Hw (_ & Hb' & Hn). split_and!; [done|congruence|]. intros E. specialize (Hn E). lia. Qed.

Lemma serve_pending a n q s :
  pending a n s -> wp (serve q) (fun r s' => match r with Some r => advances a n r s' | None => pending a n s' end) s.
Proof.
  intros Hs. apply (serve_spec (pending a n)) with (Q := advances a n); [..|done]; clear s Hs q.
  - intros s s' Ho Hp. pose proof (others_sane _ _ Ho (proj1 Hp)). eapply pending_map; [|intros b; by eapply has_others|done|done].
    by apply others_anew.
  - by intros s [? _].
  - intros s s' Hc Ha Hp. destruct Hp as [[Hi He] H]. assert (Ht : timers s' = timers s) by (by injection Hc).
    eapply (pending_map a n s); [unfold unarmed; by rewrite Ht|intros b; by eapply has_core| |by split].
    split; [by eapply inv_core|]. by rewrite Ha, Ht.
  - intros m s Hp. destruct Hp as [[Hi He] H]. eapply (pending_map a n s); [done| |split; [by apply inv_continue|done]|by split].
    intros b. apply has_map; [by apply inv_continue|done|done].
  - intros e s Hp. destruct Hp as [[Hi He] H]. eapply (pending_map a n s); [done| |split; [by apply actor_inv_event|done]|by split].
    intros b. apply has_map; [by apply actor_inv_event|done|done].
  - intros inb s Hp Hw Ha Hb. destruct Hp as [[Hi He] H]. eapply (pending_map a n s); [done| |split; [by apply inv_inbox|done]|by split].
    intros b Hh. apply (has_map b n s); [by apply inv_inbox|done| |done]. unfold work. destruct (batch_phase b); [done|]. simpl.
    destruct Hh as (Hi' & Hb' & _). destruct (ai_batch _ _ Hi' _ Hb') as (Hle & _). specialize (Hb _ Hle). lia.
  - intros t s Hp Hst Hu He'. destruct Hp as [[Hi He] H]. eapply (pending_map a n s); [apply Hu| |split; [by apply inv_timers|done]|by split].
    intros b. apply has_map; [by apply inv_timers|done|done].
  - intros s s' Hp Hs' Hb Ha HF Hu. split; [done|]. left. destruct Hp as [_ [H|(l & Hl & b & (_ & Hb' & _) & _ & <-)]]; [auto|].
    rewrite Forall_forall in HF. apply HF. unfold captured. by rewrite Hb'.
  - intros r s Hp Hr. destruct r; [by edestruct Hr|done|apply Hp|done..].
  - intros r s Hp Ha. pose proof (pending_frozen _ _ _ Hp Ha). destruct r; cbn [advances]; [split; [apply Hp|auto]|done|apply Hp|done..].
  - intros turns s. apply pending_ready.
Qed.

(** *** Deliveries *)

Definition is_delivery (r : Receive M) : bool := match r with Receives _ _ => true | _ => false end.
Definition unwinds (r : Receive M) : bool := match r with ReceiveUnwinds _ => true | _ => false end.
Definition deliveries (log : list (Receive M)) : nat := length (List.filter is_delivery log).
(** The log has a delivery of this arming. *)
Definition delivered (a : Z) (log : list (Receive M)) : Prop := exists m, Receives (FromTimer a) m ∈ log.

Lemma deliveries_app l l' : deliveries (l ++ l') = (deliveries l + deliveries l')%nat.
Proof. unfold deliveries. by rewrite List.filter_app, length_app. Qed.
Lemma fired_positive a n s : fired_within a n s -> (0 < n)%nat.
Proof.
  intros (l & Hl & b & (_ & _ & Hn) & Hf & <-). specialize (Hn Hf). unfold work, batch_armings in *.
  destruct b as [[|arms c] ? ?]; simpl in *; [by apply not_elem_of_nil in Hl|]. destruct arms; [by apply not_elem_of_nil in Hl|]. simpl in Hn. lia.
Qed.

(** Where an arming is after a log. *)
Definition tracked (a : Z) (n : nat) (log : list (Receive M)) s : Prop :=
  delivered a log \/ sane s /\ (unarmed s a \/ exists k, (k + deliveries log <= n)%nat /\ fired_within a k s).

Lemma advances_tracked a k r s :
  unwinds r = false -> advances a k r s ->
  delivered a [r] \/ sane s /\ (unarmed s a \/ exists j, (j + deliveries [r] <= k)%nat /\ fired_within a j s).
Proof.
  intros Hu Ha. assert (Hp : deliveries [r] = O -> pending a k s -> sane s /\ (unarmed s a \/ exists j, (j + deliveries [r] <= k)%nat /\ fired_within a j s)).
  { intros -> [Hs [H|H]]; split; [done|auto|done|]. right. exists k. split; [lia|done]. }
  destruct r as [from m| |p| | |]; cbn [advances] in Ha; [|by auto|done|by auto..].
  destruct Ha as [Hs [->|[H|(j & Hj & H)]]]; [left; exists m; set_solver|auto|]. right. split; [done|]. right. exists j.
  split; [unfold deliveries; simpl; lia|done].
Qed.
Lemma delivered_either a l l' : delivered a l \/ delivered a l' -> delivered a (l ++ l').
Proof. intros [[m ?]|[m ?]]; exists m; set_solver. Qed.

Lemma history_tracked a n s log s' :
  history s log s' -> fired_within a n s -> sane s -> forallb (fun r => negb (unwinds r)) log = true -> tracked a n log s'.
Proof.
  intros H. induction H as [s|s log s1 s2 _ IH Ho|s log s1 q r s2 _ IH Hr]; intros Hf Hs Hu.
  - right. split; [done|]. right. exists n. split; [unfold deliveries; simpl; lia|done].
  - destruct (IH Hf Hs Hu) as [?|[Hs1 H1]]; [by left|]. right. split; [by eapply others_sane|]. destruct H1 as [H1|(k & Hk & l & Hl & b & Hb & Hbf)].
    + left. by apply others_anew in Ho as [Ho _]; auto.
    + right. exists k. split; [done|]. exists l. split; [done|]. exists b. split; [by eapply has_others|done].
  - rewrite forallb_app in Hu. apply andb_prop in Hu as [Hu Hur]. destruct (IH Hf Hs Hu) as [[m Hm]|[Hs1 H1]]; [left; exists m; set_solver|].
    assert (Hcall : forall k, pending a k s1 -> match r with Some r => advances a k r s2 | None => pending a k s2 end)
      by (intros k Hp; exact (wp_runs _ _ _ _ _ _ _ (serve_pending a k q s1 Hp) Hr)).
    assert (Hstep : forall k, pending a k s1 -> delivered a (option_list r) \/
      sane s2 /\ (unarmed s2 a \/ exists j, (j + deliveries (option_list r) <= k)%nat /\ fired_within a j s2)).
    { intros k Hp. specialize (Hcall k Hp). destruct r as [r|]; simpl in *.
      - apply advances_tracked; [|done]. by destruct (unwinds r).
      - destruct Hcall as [? [?|?]]; right; split; [done|auto|done|]. right. exists k. split; [unfold deliveries; simpl; lia|done]. }
    unfold tracked. rewrite deliveries_app. destruct H1 as [H1|(k & Hk & H1)].
    + destruct (Hstep O ltac:(split; auto)) as [?|[Hs2 [?|(j & Hj & Hw)]]]; [left; apply delivered_either; auto|auto|].
      apply fired_positive in Hw. lia.
    + destruct (Hstep k ltac:(split; auto)) as [?|[Hs2 [?|(j & Hj & Hw)]]]; [left; apply delivered_either; auto|auto|].
      right. split; [done|]. right. exists j. split; [lia|done].
Qed.

Lemma captured_fired a s : sane s -> a ∈ captured s ->
  exists b, ready_batch s = Some b /\ fired_within a (work b s) s.
Proof.
  intros [Hi _] Ha. unfold captured in Ha. destruct (ready_batch s) as [b|] eqn:Hb; [|by apply not_elem_of_nil in Ha].
  exists b. split; [done|]. exists (batch_armings b). split; [done|]. exists b. split; [by split_and!|]. split; [|done].
  unfold batch_armings in Ha. destruct b as [[|] ? ?]; [by apply not_elem_of_nil in Ha|done].
Qed.
End histories.

(** C29: the raw actor loop never trips an assertion of the framework.  Whatever
    an incarnation's handler calls - continuations, timers, offloads, stops,
    receives, also after receives that unwound - and whatever other threads do
    between any two steps, every call returns: captured cutoffs stay behind the
    mailbox and the completion queue, armings are settled once and in order, and
    no index of the timer store is found corrupted.  The process aborts only
    when a 64-bit counter of armings or messages is used up. *)
Theorem raw_loop_never_asserts {K M B W} `{!EqDecision K, !Inbox M B, !InboxLaws M B} {clock : Clock} (hash_key : K -> Z)
  (drop_panics : Trash K M W -> option string) (cancel_panics : OffloadResource -> list string) (L : Latches) (readiness : Readiness)
  s log s' q o :
  fresh s -> history hash_key drop_panics cancel_panics L readiness s log s' ->
  runs others (serve hash_key drop_panics cancel_panics L readiness q) s' o ->
  match o with
  | Returned _ _ => True
  | Panicked _ => False
  | Aborted s'' => spent s''
  end.
Proof.
  intros Hf Hh Hr. pose proof (history_sane _ _ _ _ _ _ _ _ Hh (fresh_sane hash_key _ Hf)) as Hs.
  pose proof (wp_runs _ _ _ _ _ _ _ (serve_sane hash_key drop_panics cancel_panics L readiness q s' Hs) Hr) as H. by destruct o.
Qed.

(** C28: a fired timer is not starved.  When a batch has fired with an arming, the
    number of deliveries it captured - mailbox messages accepted up to its cutoff,
    queued completions, queued continuations, armings - bounds the deliveries
    that the incarnation makes before that timer: unless a receive unwinds, after
    that many it has been delivered or is no longer armed.  What arrives later
    does not count, whatever other threads and the handler do. *)
Theorem fired_timer_is_served {K M B W} `{!EqDecision K, !Inbox M B, !InboxLaws M B} {clock : Clock} (hash_key : K -> Z)
  (drop_panics : Trash K M W -> option string) (cancel_panics : OffloadResource -> list string) (L : Latches) (readiness : Readiness)
  s0 log0 s b a log s' :
  fresh s0 -> history hash_key drop_panics cancel_panics L readiness s0 log0 s ->
  ready_batch s = Some b -> a ∈ captured s ->
  history hash_key drop_panics cancel_panics L readiness s log s' ->
  forallb (fun r => negb (unwinds r)) log = true ->
  (work b s <= deliveries log)%nat ->
  delivered a log \/ armings (timers s') !! a = None.
Proof.
  intros Hf Hh Hb Ha Hl Hu Hn. pose proof (history_sane _ _ _ _ _ _ _ _ Hh (fresh_sane hash_key _ Hf)) as Hs.
  destruct (captured_fired hash_key a s Hs Ha) as (b' & Hb' & Hw). assert (b' = b) as -> by congruence.
  destruct (history_tracked _ _ _ _ _ a _ _ _ _ Hl Hw Hs Hu) as [?|[_ [[? _]|(k & Hk & Hw')]]]; [by left|by right|].
  apply fired_positive in Hw'. lia.
Qed.
