(* ===== verification/RawSolo.v ===== *)
(** * The raw actor loop: one call

    A selection that no other thread disturbs: it ends after at most two turns,
    it finds nothing only when nothing is ready, and it does not select a second
    continuation in a row while external work is ready. *)

From S2P Require Import Prelude BTree Time Identity Policy Latch Interleave TimerStore Raw RawProps RawHistory.
Import ReadyBatchPhase (Steady, Fired).

Section solo.
Context {K M B W : Type} `{!EqDecision K, !Inbox M B, !InboxLaws M B} {clock : Clock} (hash_key : K -> Z).
Context (drop_panics : Trash K M W -> option string) (cancel_panics : OffloadResource -> list string).
Local Abbreviation Actor := (Actor K M B W).
Implicit Types (s : Actor) (b : ReadyBatch).

(** ** Facts about undisturbed code *)

(** What holds if the code returns; that it returns is [next_ready_inv]. *)
Definition nobody s s' : Prop := False.
Local Abbreviation fact := (wp nobody (fun _ => True) (fun _ => True)).

Lemma nobody_rtc s s' : rtc nobody s s' -> s' = s.
Proof. by inversion 1. Qed.
Lemma fact_atom {X} (f : Actor -> outcome (X * Actor)) Q s :
  (forall x s', f s = Ret (x, s') -> Q x s') -> fact (atom f) Q s.
Proof. intros H. apply wp_atom. intros s1 ->%nobody_rtc. destruct (f s) as [[x s2]| |] eqn:E; auto. Qed.
Lemma fact_observe {X} (g : Actor -> X) Q s : Q (g s) s -> fact (observe g) Q s.
Proof. intros H. apply fact_atom. by intros x s' [= <- <-]. Qed.
Lemma fact_update (g : Actor -> Actor) Q s : Q () (g s) -> fact (update g) Q s.
Proof. intros H. apply fact_atom. by intros x s' [= <- <-]. Qed.

(** Nothing external is ready. *)
Definition external_idle s : Prop :=
  in_try_recv_through (in_accepted (inbox s)) (inbox s) = Ret (Ok None, inbox s) /\ events s = [].
(** A batch has fired. *)
Definition firing s : Prop := exists b, ready_batch s = Some b /\ is_fired_batch b = true.
(** Nothing is ready. *)
Definition silent s : Prop :=
  external_idle s /\ continuations s = [] /\ forall d, next_deadline (timers s) = Some d -> now s < d.

(** The cutoffs of the batch, the mailbox and the clock. *)
Definition cutoffs s := (inbox s, now s, (fun b => (mailbox_through b, mailbox_budget_exhausted b, is_fired_batch b)) <$> ready_batch s).
Definition same_cutoffs s s' : Prop := cutoffs s' = cutoffs s.
Lemma fact_cutoffs {X} (p : Prog Actor X) Q s :
  within same_cutoffs p -> fact p Q s -> fact p (fun x s' => Q x s' /\ cutoffs s' = cutoffs s) s.
Proof.
  intros Hw. apply (wp_frame _ _ _ same_cutoffs (fun s' => cutoffs s' = cutoffs s)); [by intros ? ? []|by intros ? ? -> ->|done|done].
Qed.

Lemma dispose_all_cutoffs l s : cutoffs (dispose_all drop_panics l s) = cutoffs s.
Proof.
  revert s. induction l as [|x l IH]; intros s; [done|]. unfold dispose_all in *. simpl. rewrite IH.
  unfold dispose. by destruct (drop_panics x).
Qed.

Create HintDb raw_cutoffs.
Local Abbreviation still := (within same_cutoffs).
Lemma still_observe {X} (g : Actor -> X) : still (observe g).
Proof. apply within_atom. by intros s x s' [= _ <-]. Qed.
Lemma still_update (g : Actor -> Actor) : (forall s, cutoffs (g s) = cutoffs s) -> still (update g).
Proof. intros H. apply within_atom. intros s x s' [= _ <-]. apply H. Qed.
Lemma still_seq {X Y} (p : Prog Actor X) (k : X -> Prog Actor Y) : still p -> (forall x, still (k x)) -> still (p ≫= k).
Proof. apply within_bind. Qed.
Lemma still_read {X} (g : ReadyBatch -> X) : still (owned (fun s => b ← the_batch s; Ret (g b, s))).
Proof. apply within_atom. intros s x s' H. apply bind_Ret_inv in H as (b & _ & H). by simplify_eq. Qed.
Ltac still_step :=
  first [ done
        | apply still_read
        | solve [trivial with raw_cutoffs nocore]
        | apply still_observe
        | apply still_seq; [|intros ?]
        | match goal with |- still (match ?x with _ => _ end) => destruct x end ].
(** A step on the batch keeps its cutoffs. *)
Ltac same_batch :=
  apply within_atom; intros ? ? ? ?; unfold same_cutoffs, cutoffs;
  unfold pop_continuation, pop_batched_event, record_continuation_delivery, commit_arming, the_batch, expect, assert_that in *;
  simplify_eq/=; repeat (case_match; simpl in *; simplify_eq/=);
  repeat match goal with H : ready_batch _ = _ |- _ => rewrite H; clear H end;
  repeat match goal with b : ReadyBatch |- _ => destruct b as [[] ? ?] end; simplify_eq/=; done.
Ltac still_all := repeat still_step; try same_batch; try (by apply still_update).

Lemma timer_stage_still fuel : still (timer_stage drop_panics fuel).
Proof.
  induction fuel as [|fuel IH]; [done|]. cbn [timer_stage]. still_all.
  apply within_atom. intros s y s'. destruct (deliver_due _ _ _) as [[[d r] t]| |]; [|done..].
  intros [= _ <-]. unfold same_cutoffs, dispose_timers. by rewrite dispose_all_cutoffs.
Qed.
Lemma offload_stage_still fuel : still (offload_stage drop_panics fuel).
Proof.
  induction fuel as [|fuel IH]; [done|]. cbn [offload_stage]. still_all. apply still_update. intros s.
  unfold dispose. by destruct (drop_panics _).
Qed.
Lemma pop_continuation_still lead : still (owned (pop_continuation lead)).
Proof. same_batch. Qed.

(** ** Stages *)

Lemma set_same_inbox s : set_inbox (inbox s) s = s.
Proof. by destruct s. Qed.
Lemma mailbox_stage_fact b s :
  ready_batch s = Some b -> in_wf (inbox s) ->
  fact mailbox_stage (fun r s' => match r with
    | None => s' = s /\ (mailbox_is_eligible b = true -> in_try_recv_through (mailbox_through b) (inbox s) = Ret (Ok None, inbox s))
    | Some (Selected FromContinuation _) | Some NothingReady => False
    | Some _ => True
    end) s.
Proof.
  intros Hb Hw. unfold mailbox_stage. apply wp_seq, fact_atom. unfold the_batch. rewrite Hb. cbn [expect mbind outcome_bind].
  intros x s' [= <- <-]. destruct (mailbox_is_eligible b); [|by apply wp_done]. apply wp_seq, fact_atom. intros r s' H.
  pose proof (in_recv_through_ok (mailbox_through b) (inbox s) Hw) as Hr.
  destruct (in_try_recv_through _ _) as [[r' inb]| |]; cbn [mbind outcome_bind] in H; [|done..]. injection H as <- <-.
  destruct Hr as (_ & _ & Hsame & _). destruct r' as [[m|]|p].
  - by apply wp_seq, fact_atom.
  - apply wp_done. rewrite (Hsame eq_refl), set_same_inbox. done.
  - by apply wp_seq, fact_atom.
Qed.

(** The completions captured by the batch are all there are. *)
Definition covers s : Prop := exists b, ready_batch s = Some b /\ offloads_remaining b = length (events s).

(** What is left of a batch when it selects no completion. *)
Lemma offload_stage_fact fuel b s :
  ready_batch s = Some b -> (offloads_remaining b < fuel)%nat ->
  fact (offload_stage drop_panics fuel) (fun r s' => match r with
    | None => continuations s' = continuations s /\ timers s' = timers s /\
        last_delivery_was_continuation s' = last_delivery_was_continuation s /\
        (exists b', ready_batch s' = Some b' /\ batch_phase b' = batch_phase b) /\ (covers s -> events s' = [])
    | Some (Selected FromContinuation _) | Some NothingReady => False
    | Some _ => True
    end) s.
Proof.
  revert b s. induction fuel as [|fuel IH]; intros b s Hb Hf; [lia|]. cbn [offload_stage]. apply wp_seq, fact_atom.
  intros x s'. unfold pop_batched_event, the_batch. rewrite Hb. cbn [expect mbind outcome_bind].
  destruct (offloads_remaining b) as [|n] eqn:En.
  { intros [= <- <-]. apply wp_done. split_and!; [done..|by exists b|]. intros (b' & Hb' & Hl). simplify_eq. rewrite En in Hl.
    by destruct (events s). }
  destruct (events s) as [|e rest] eqn:Ev; [done|]. intros [= <- <-]. apply wp_seq, fact_observe.
  set (b1 := mkBatch (batch_phase b) (mailbox_through b) n). set (s1 := set_events rest (set_batch (Some b1) s)).
  destruct (bool_decide _).
  - apply wp_seq, fact_update. set (s2 := dispose drop_panics (TrashEvent e) s1).
    assert (Hs2 : core s2 = core s1 /\ last_delivery_was_continuation s2 = last_delivery_was_continuation s).
    { subst s2. unfold dispose. by destruct (drop_panics _). }
    destruct Hs2 as [Hc Hl]. injection Hc as _ He Hcs Ht Hrb. clearbody s2.
    eapply wp_weaken; [apply (IH b1 s2); [by rewrite Hrb|simpl; lia]|]. intros r s3 Hr. destruct r as [[[| | |]| | |]|]; try done.
    destruct Hr as (H1 & H2 & H3 & H4 & H5). split_and!; [congruence|congruence|congruence|done|].
    intros (b' & Hb' & Hlen). apply H5. exists b1. split; [by rewrite Hrb|]. rewrite He. simpl. simplify_eq. rewrite En, Ev in Hlen. simpl in Hlen. lia.
  - destruct (make_message e); [by apply wp_seq, fact_update|done].
Qed.

Lemma external_work_fact e c s :
  fact (external_work_is_ready e c) (fun r s' => s' = s /\ (r = false <-> e = false /\ in_accepted (inbox s) <= c /\ events s = [])) s.
Proof.
  unfold external_work_is_ready, accepted_now, watermark. destruct e; [apply wp_done; naive_solver|].
  apply wp_seq, fact_observe. destruct (Z.ltb_spec c (in_accepted (inbox s))); [apply wp_done; split; [done|]; split; [done|lia]|].
  apply wp_seq, fact_observe. apply wp_done. split; [done|]. destruct (events s); simpl; split; naive_solver.
Qed.
Lemma eligible_budget b : mailbox_is_eligible b = negb (mailbox_budget_exhausted b).
Proof. by destruct b as [[] ? ?]. Qed.

Lemma last_dispose_all l s :
  last_delivery_was_continuation (dispose_all drop_panics l s) = last_delivery_was_continuation s.
Proof.
  revert s. induction l as [|x l IH]; intros s; [done|]. unfold dispose_all in *. simpl. rewrite IH.
  unfold dispose. by destruct (drop_panics x).
Qed.

Lemma refresh_turn_fact b s :
  ready_batch s = Some b ->
  fact refresh_turn (fun again s' => if again : bool then s' = set_batch None s else s' = s /\
    (is_fired_batch b = true \/ last_delivery_was_continuation s = false \/
     mailbox_budget_exhausted b = false /\ in_accepted (inbox s) <= mailbox_through b /\ events s = [])) s.
Proof.
  intros Hb. unfold refresh_turn. apply wp_seq, fact_atom. unfold the_batch. rewrite Hb. cbn [expect mbind outcome_bind].
  intros x s' [= <- <-]. apply wp_seq, fact_observe.
  destruct (is_fired_batch b); [apply wp_done; auto|]. destruct (last_delivery_was_continuation s); [|apply wp_done; auto]. cbn [negb andb].
  apply wp_seq. eapply wp_weaken; [apply external_work_fact|]. intros r s' [-> Hr]. destruct r; [by apply wp_seq, fact_update|].
  apply wp_done. split; [done|]. right; right. by apply Hr.
Qed.
(** A fresh turn is not due when everything is quiet. *)
Lemma next_turn_fact b s :
  ready_batch s = Some b ->
  fact next_turn (fun again s' => s' = set_batch None s /\
    (again = false <-> (mailbox_budget_exhausted b = false /\ in_accepted (inbox s) <= mailbox_through b /\ events s = []) /\
      continuations s = [] /\ forall d, next_deadline (timers s) = Some d -> now s < d)) s.
Proof.
  intros Hb. unfold next_turn. apply wp_seq, fact_atom. unfold the_batch. rewrite Hb. cbn [expect mbind outcome_bind].
  intros x s' [= <- <-]. apply wp_seq, fact_observe. set (s1 := set_batch None s). apply wp_seq.
  apply (wp_weaken _ _ _ _ (fun due s' => s' = s1 /\ (due = false <-> forall d, next_deadline (timers s) = Some d -> now s < d))).
  { change (timers s1) with (timers s). destruct (next_deadline (timers s)) as [d|]; [|apply wp_done; naive_solver]. apply wp_seq, fact_observe. apply wp_done.
    split; [done|]. simpl. rewrite Z.leb_gt. split; [by intros ? ? [= <-]|auto]. }
  intros due s' [-> Hdue]. apply wp_seq. eapply wp_weaken; [apply external_work_fact|]. intros r s' [-> Hr].
  apply wp_seq, fact_observe, wp_done. split; [done|]. rewrite !orb_false_iff, Hr, Hdue, negb_false_iff, bool_decide_eq_true. simpl. tauto.
Qed.
Lemma timer_stage_fact fuel s :
  fact (timer_stage drop_panics fuel) (fun r s' => match r with
    | None => last_delivery_was_continuation s' = last_delivery_was_continuation s
    | Some (Selected (FromTimer _) _) | Some (Unwound _) => True
    | _ => False
    end) s.
Proof.
  revert s. induction fuel as [|fuel IH]; intros s; [done|]. cbn [timer_stage]. apply wp_seq, fact_atom. intros a s' H.
  apply bind_Ret_inv in H as (b & _ & [= <- <-]). destruct (next_arming b) as [a|]; [|done].
  apply wp_seq, fact_observe. apply wp_seq, fact_atom. intros d s2 H. apply bind_Ret_inv in H as ([[d' r] t] & _ & [= <- <-]).
  destruct d' as [|m|p]; [|by apply wp_seq, fact_atom; intros ? ? _; apply wp_seq, fact_update|done].
  apply wp_seq, fact_atom. intros ? s3 H. apply bind_Ret_inv in H as (b1 & _ & H). apply bind_Ret_inv in H as (b2 & _ & [= _ <-]).
  eapply wp_weaken; [apply IH|]. intros [r'|] s4 H4; [done|]. rewrite H4. simpl. unfold dispose_timers. by rewrite last_dispose_all.
Qed.

(** A continuation leads only after something else. *)
Lemma pop_continuation_fact lead b s r s' :
  ready_batch s = Some b -> pop_continuation lead s = Ret (r, s') ->
  match r with
  | Some _ => events s' = events s /\ (lead = true -> last_delivery_was_continuation s = false)
  | None => s' = s /\ (lead = false -> is_fired_batch b = false -> continuations s = [])
  end.
Proof.
  intros Hb. unfold pop_continuation, the_batch. rewrite Hb. cbn [expect mbind outcome_bind]. destruct (_ && _) eqn:E.
  - apply andb_prop in E as [E1 _]. destruct (continuations s) as [|m rest] eqn:Ec; [by intros [= <- <-]|].
    intros H. apply bind_Ret_inv in H as (b' & _ & H). simplify_eq/=. split; [done|]. intros ->. by destruct (last_delivery_was_continuation s).
  - intros [= <- <-]. split; [done|]. intros -> Hf. destruct b as [[] ? ?]; [|done]. by rewrite andb_true_r in E.
Qed.

(** ** A turn *)

Definition turn_fact (last : bool) (r : option (Selection M)) s : Prop :=
  (r = Some NothingReady -> silent s) /\ (r = None -> last_delivery_was_continuation s = last) /\
  (last = true -> forall m, r = Some (Selected FromContinuation m) -> external_idle s \/ firing s).

Lemma idle_cutoffs b s s' :
  ready_batch s = Some b -> mailbox_through b <= in_accepted (inbox s) ->
  (mailbox_is_eligible b = true -> in_try_recv_through (mailbox_through b) (inbox s) = Ret (Ok None, inbox s)) ->
  cutoffs s' = cutoffs s -> mailbox_budget_exhausted b = false -> in_accepted (inbox s') <= mailbox_through b ->
  in_try_recv_through (in_accepted (inbox s')) (inbox s') = Ret (Ok None, inbox s').
Proof.
  intros Hb Ht Hm Hc Hbud Ha. unfold cutoffs in Hc. injection Hc as Hi _ _. rewrite Hi in *. assert (in_accepted (inbox s) = mailbox_through b) as -> by lia.
  apply Hm. by rewrite eligible_budget, Hbud.
Qed.

(** The stages after the external ones, which changed no cutoff since [s]. *)
Lemma settle_turn_fact b s b1 s1 :
  ready_batch s = Some b -> mailbox_through b <= in_accepted (inbox s) ->
  (mailbox_is_eligible b = true -> in_try_recv_through (mailbox_through b) (inbox s) = Ret (Ok None, inbox s)) ->
  cutoffs s1 = cutoffs s -> ready_batch s1 = Some b1 ->
  fact (settle_turn drop_panics) (turn_fact (last_delivery_was_continuation s1)) s1.
Proof.
  intros Hb Ht Hm Hc1 Hb1. assert (Hinbox : forall s', cutoffs s' = cutoffs s -> inbox s' = inbox s) by (intros s' [= ? _ _]; done).
  assert (E : mailbox_through b1 = mailbox_through b /\ mailbox_budget_exhausted b1 = mailbox_budget_exhausted b).
  { unfold cutoffs in Hc1. rewrite Hb1, Hb in Hc1. by injection Hc1. }
  destruct E as (E1 & E2). unfold settle_turn. apply wp_seq. eapply wp_weaken; [by apply (refresh_turn_fact b1)|].
  intros [] s2 H2; [by apply wp_done; split_and!; [|rewrite H2|]|]. destruct H2 as [-> H2]. apply wp_seq.
  apply (wp_weaken _ _ _ _ (fun m s3 => ((m = None -> s3 = s1) /\ events s3 = events s1) /\ cutoffs s3 = cutoffs s1)).
  { apply fact_cutoffs; [apply pop_continuation_still|]. apply fact_atom. intros r s3 H. apply (pop_continuation_fact _ b1) in H; [|done].
    destruct r; naive_solver. }
  intros [m|] s3 ((Hs3 & He3) & Hc3).
  { apply wp_done. split_and!; [done|done|]. intros Hl m' _. destruct H2 as [H2|[H2|(H2 & H2' & H2'')]]; [right|congruence|left].
    - unfold cutoffs in Hc3. rewrite Hb1 in Hc3. unfold firing. destruct (ready_batch s3) as [b3|]; [|done].
      exists b3. split; [done|]. by injection Hc3 as _ _ _ _ ->.
    - split; [|congruence]. rewrite Hc1 in Hc3. rewrite E2 in H2. eapply idle_cutoffs; [exact Hb|exact Ht|exact Hm|exact Hc3|exact H2|].
      rewrite (Hinbox s3 Hc3), <- (Hinbox s1 Hc1). lia. }
  rewrite (Hs3 eq_refl) in *. clear s3 Hs3 He3 Hc3 H2. apply wp_seq, fact_atom. unfold the_batch. rewrite Hb1. cbn [expect mbind outcome_bind].
  intros fires s3 [= <- <-]. apply wp_seq. eapply wp_weaken; [apply fact_cutoffs; [apply timer_stage_still|apply timer_stage_fact]|].
  intros r s4 [Hr Hc4]. rewrite Hc1 in Hc4. destruct r as [r|]; [apply wp_done; by destruct r as [[] ?| | |]; split_and!|].
  pose proof Hc4 as Hc4'. unfold cutoffs in Hc4'. rewrite Hb in Hc4'. destruct (ready_batch s4) as [b4|] eqn:Hb4; [|done].
  injection Hc4' as Hi4 _ F1 F2 _. apply wp_seq. eapply wp_weaken; [by apply (next_turn_fact b4)|]. intros again s5 [-> Hag].
  destruct again; [by apply wp_done; split_and!|]. destruct (proj1 Hag eq_refl) as ((G1 & G2 & G3) & G4 & G5).
  apply wp_done. split; [|done]. intros _. split_and!; [|done|done]. split; [|done]. simpl.
  eapply (idle_cutoffs b s s4); [done|done|done|exact Hc4|congruence|]. congruence.
Qed.

Lemma arbitrate_fact b s :
  ready_batch s = Some b -> in_wf (inbox s) -> mailbox_through b <= in_accepted (inbox s) ->
  fact (arbitrate drop_panics) (turn_fact (last_delivery_was_continuation s)) s.
Proof.
  intros Hb Hw Ht. unfold arbitrate. apply wp_seq, fact_atom. intros r s' H. apply (pop_continuation_fact _ b) in H; [|done].
  destruct r as [m|]; [apply wp_done; destruct H as [_ H]; specialize (H eq_refl); split_and!; [done|done|congruence]|]. destruct H as [-> _].
  apply wp_seq. eapply wp_weaken; [by apply (mailbox_stage_fact b)|]. intros r s' Hr. destruct r as [r|].
  { apply wp_done. by destruct r as [[] ?| | |]; split_and!. }
  destruct Hr as [-> Hm]. apply wp_seq, fact_atom. unfold the_batch. rewrite Hb. cbn [expect mbind outcome_bind]. intros x s' [= <- <-].
  apply wp_seq. eapply wp_weaken; [apply fact_cutoffs; [apply offload_stage_still|apply (offload_stage_fact _ b); [done|lia]]|].
  intros r s1 [Hr Hc1]. destruct r as [r|]; [apply wp_done; by destruct r as [[] ?| | |]; split_and!|].
  destruct Hr as (_ & _ & <- & (b1 & Hb1 & _) & _). by apply (settle_turn_fact b s b1).
Qed.

(** ** Ends of turns *)

Lemma fact_of {X} (p : Prog Actor X) Q s : Interleave.wp others (fun _ => False) spent p Q s -> fact p Q s.
Proof.
  revert s. induction p as [x|Y f k IH]; intros s; simpl; [done|]. intros H s1 ->%nobody_rtc. specialize (H s (rtc_refl _ _)).
  destruct (f s) as [[y s2]| |]; auto.
Qed.
Lemma fact_both {X} (p : Prog Actor X) Q R s : fact p Q s -> fact p R s -> fact p (fun x s' => Q x s' /\ R x s') s.
Proof.
  revert s. induction p as [x|Y f k IH]; intros s; simpl; [done|]. intros H1 H2 s1 Hs. specialize (H1 s1 Hs). specialize (H2 s1 Hs).
  destruct (f s1) as [[y s2]| |]; auto.
Qed.

Lemma fact_true {X} (p : Prog Actor X) s : fact p (fun _ _ => True) s.
Proof. revert s. induction p as [x|Y f k IH]; intros s; simpl; [done|]. intros s1 _. destruct (f s1) as [[y s2]| |]; auto. Qed.

(** What a new batch finds: due timers, or none. *)
Definition begun s s' : Prop :=
  (exists a l c through off A al, ready_batch s' = Some (mkBatch (Fired (a :: l) c) through off) /\
    represents hash_key (timers s') A /\ alarms A !! a = Some al /\ al_waiting al = false) \/
  (ready_batch s' = Some (steady (in_accepted (inbox s')) (length (events s'))) /\
    forall d, next_deadline (timers s') = Some d -> now s' < d).

Lemma not_due (t : TimerStore K M) A now :
  represents hash_key t A -> (take_due now t).1 = [] -> forall d, next_deadline t = Some d -> now < d.
Proof.
  intros Hr Hl d Hd. unfold take_due in Hl. simpl in Hl. apply fmap_nil_inv in Hl. unfold next_deadline in Hd.
  destruct (in_order (deadlines t)) as [|[d' a] q] eqn:Eo; [done|]. injection Hd as ->.
  assert (Hin : (d, a) ∈ deadlines t). { apply elem_of_in_order. rewrite Eo. left. }
  apply (rp_deadlines _ _ _ Hr) in Hin as (al & Ha & _). pose proof (rp_orders _ _ _ Hr a ltac:(by eexists)).
  destruct (rp_counter _ _ _ Hr) as [_ ?]. destruct (Z.lt_ge_cases now d) as [?|Hle]; [done|]. exfalso.
  assert (Hf : (d, a) ∈ filter (fun x => lex_le x (now, u64_max)) ((d, a) :: q)).
  { apply list_elem_of_filter. split; [unfold lex_le; simpl; lia|left]. }
  rewrite Hl in Hf. by apply not_elem_of_nil in Hf.
Qed.
Lemma due_armed (t : TimerStore K M) A now a l :
  represents hash_key t A -> (take_due now t).1 = a :: l ->
  exists A' al, represents hash_key (take_due now t).2 A' /\ alarms A' !! a = Some al /\ al_waiting al = false.
Proof.
  intros Hr Hl. unfold take_due in *. rewrite (take_due_list hash_key _ _ now Hr) in *. simpl in *.
  eexists. assert (Ha : a ∈ (in_order (due_alarms now A)).*2) by (rewrite Hl; left).
  apply list_elem_of_fmap in Ha as ([d x] & -> & Hx%elem_of_in_order). apply elem_of_due in Hx as (al & Ha & _). simpl in *.
  eexists. split; [by apply represents_due|]. simpl. rewrite stop_waiting_lookup, Ha. simpl. split; [done|]. by rewrite Hl, decide_True by left.
Qed.
Lemma empty_no_deadline (t : TimerStore K M) A : represents hash_key t A -> store_is_empty t = true -> next_deadline t = None.
Proof.
  intros Hr He%bool_decide_eq_true. apply (armings_empty _ _ _ Hr) in He. unfold next_deadline.
  destruct (in_order (deadlines t)) as [|[d a] q] eqn:Eo; [done|]. assert (Hin : (d, a) ∈ deadlines t) by (apply elem_of_in_order; rewrite Eo; left).
  apply (rp_deadlines _ _ _ Hr) in Hin as (al & Ha & _). by rewrite He, lookup_empty in Ha.
Qed.

Lemma begin_fact s :
  actor_inv hash_key s -> ready_batch s = None -> fact begin_ready_batch (fun _ s' => begun s s') s.
Proof.
  intros Hi Hb. destruct (ai_timers _ _ Hi) as (A & Hr & _). unfold begin_ready_batch. apply wp_seq, fact_observe. rewrite Hb.
  rewrite bool_decide_false by by intros []. apply wp_seq. unfold accepted_now, watermark.
  apply wp_seq, fact_observe, wp_seq, fact_observe, fact_update. apply wp_seq, fact_observe.
  change (ready_batch (set_batch ?x ?y)) with x. cbn [is_fired_batch steady batch_phase orb].
  set (s1 := set_batch _ s). change (timers s1) with (timers s). destruct (store_is_empty (timers s)) eqn:Ee.
  { apply wp_done. right. split; [done|]. intros d. change (timers s1) with (timers s). by rewrite (empty_no_deadline _ _ Hr Ee). }
  apply wp_seq, fact_observe. change (now s1) with (now s). apply wp_seq, fact_atom. intros l s2. change (timers s1) with (timers s).
  pose proof (not_due _ _ (now s) Hr) as Hno. pose proof (fun a l => due_armed _ _ (now s) a l Hr) as Hdue.
  destruct (take_due (now s) (timers s)) as [l' ts] eqn:Et. cbn [fst snd] in *. intros [= <- <-]. destruct l' as [|a l].
  - apply wp_done. right. split; [done|]. simpl. intros d Hd. apply (Hno eq_refl). rewrite <- Hd.
    unfold take_due in Et. injection Et as El <-. unfold next_deadline. simpl. apply fmap_nil_inv in El. rewrite El. simpl. by rewrite difference_empty_L.
  - destruct (Hdue a l eq_refl) as (A' & al & Hr' & Ha & Hw).
    apply wp_seq, fact_observe, wp_seq, fact_observe, wp_seq, fact_observe, fact_atom. intros x s3 H3.
    change (ready_batch (set_timers ts s1)) with (ready_batch s1) in H3. cbn in H3. simplify_eq/=. left. eexists a, l, _, _, _, A', al.
    split_and!; [reflexivity|done|done|done].
Qed.

(** An armed timer that is due is delivered, unless its clone unwinds. *)
Lemma deliver_armed (t : TimerStore K M) A a al now d r t' :
  represents hash_key t A -> alarms A !! a = Some al -> al_waiting al = false -> deliver_due a now t = Ret (d, r, t') -> d <> Missing.
Proof.
  intros Hr Ha Hw Hd. assert (Hl : legal A (TDeliverDue a now)) by (intros al' Ha'; congruence).
  pose proof (deliver_simulates hash_key t A a now Hr Hl) as H. cbn [store_exec alarm_exec simulates] in H.
  rewrite Ha, Hd in H. cbn [mbind outcome_bind] in H. destruct (al_message al) as [m|m clone period]; [|destruct (clone m)];
    destruct H as (r' & t'' & He & Hag & _); injection He as <- <-; cbn [agrees] in Hag; by injection Hag as ->.
Qed.
(** The timers that a batch captured, up to its timer stage. *)
Definition poised (a : Z) s : Prop :=
  exists l c through off A al, ready_batch s = Some (mkBatch (Fired (a :: l) c) through off) /\
    represents hash_key (timers s) A /\ alarms A !! a = Some al /\ al_waiting al = false.
Lemma timer_stage_poised n a s : poised a s -> fact (timer_stage drop_panics (S n)) (fun r _ => r <> None) s.
Proof.
  intros (l & c & through & off & A & al & Hb & Hr & Ha & Hw). cbn [timer_stage]. apply wp_seq, fact_atom. unfold the_batch. rewrite Hb.
  cbn [expect mbind outcome_bind]. intros x s' [= <- <-]. cbn [next_arming batch_phase head]. apply wp_seq, fact_observe, wp_seq, fact_atom.
  intros d s2 H. apply bind_Ret_inv in H as ([[d' r] t] & Hd & H). simplify_eq. pose proof (deliver_armed _ _ _ _ _ _ _ _ Hr Ha Hw Hd).
  destruct d as [|m|p]; [done| |by apply wp_done]. apply wp_seq, fact_atom. intros ? s3 _. by apply wp_seq, fact_update, wp_done.
Qed.

(** A turn of a fired batch ends in a delivery of its own. *)
Lemma settle_poised a s : poised a s -> fact (settle_turn drop_panics) (fun r _ => r <> None) s.
Proof.
  intros Hp. pose proof Hp as (l & c & through & off & A & al & Hb & Hr & Ha & Hw). unfold settle_turn. apply wp_seq.
  eapply wp_weaken; [apply fact_both; [by apply refresh_turn_fact|]|].
  { unfold refresh_turn. apply wp_seq, fact_atom. unfold the_batch. rewrite Hb. cbn [expect mbind outcome_bind]. intros x s' [= <- <-].
    apply wp_seq, fact_observe. cbn [is_fired_batch batch_phase negb andb]. apply wp_done.
    instantiate (1 := fun again _ => again = false). done. }
  intros again s1 [H1 ->]. destruct H1 as [-> _]. apply wp_seq, fact_atom. intros r s2 H. apply (pop_continuation_fact _ _ _ _ _ Hb) in H.
  destruct r as [m|]; [by apply wp_done|]. destruct H as [-> _]. apply wp_seq, fact_atom. unfold the_batch. rewrite Hb. cbn [expect mbind outcome_bind].
  intros fires s2 [= <- <-]. apply wp_seq. eapply wp_weaken; [by apply (timer_stage_poised _ a)|]. intros [r|] s2 H2; [by apply wp_done|done].
Qed.
(** A turn of a steady batch that covers everything ends. *)
Lemma settle_steady through off s :
  ready_batch s = Some (mkBatch (Steady false) through off) -> in_accepted (inbox s) <= through -> events s = [] ->
  (forall d, next_deadline (timers s) = Some d -> now s < d) ->
  fact (settle_turn drop_panics) (fun r _ => r <> None) s.
Proof.
  intros Hb Ha He Hd. unfold settle_turn. apply wp_seq.
  apply (wp_weaken _ _ _ _ (fun again s' => again = false /\ s' = s)).
  { unfold refresh_turn. apply wp_seq, fact_atom. unfold the_batch. rewrite Hb. cbn [expect mbind outcome_bind]. intros x s' [= <- <-].
    apply wp_seq, fact_observe. cbn [is_fired_batch batch_phase negb andb]. destruct (last_delivery_was_continuation s); [|by apply wp_done].
    apply wp_seq. eapply wp_weaken; [apply external_work_fact|]. intros r s' [-> Hr]. simpl in Hr. rewrite (proj2 Hr) by done. by apply wp_done. }
  intros ? ? [-> ->]. apply wp_seq, fact_atom. intros r s2 H. apply (pop_continuation_fact _ _ _ _ _ Hb) in H.
  destruct r as [m|]; [by apply wp_done|]. destruct H as [-> Hc]. specialize (Hc eq_refl eq_refl).
  apply wp_seq, fact_atom. unfold the_batch. rewrite Hb. cbn [expect mbind outcome_bind]. intros fires s2 [= <- <-].
  apply wp_seq. cbn [batch_phase timer_stage]. apply wp_seq, fact_atom. unfold the_batch. rewrite Hb. cbn [expect mbind outcome_bind].
  intros x s2 [= <- <-]. cbn [next_arming batch_phase]. apply wp_done. apply wp_seq. eapply wp_weaken; [by apply next_turn_fact|].
  intros again s2 [_ Hag]. assert (again = false) as -> by (apply Hag; by split_and!). by apply wp_done.
Qed.

Lemma arbitrate_begun s0 s :
  begun s0 s -> in_wf (inbox s) -> fact (arbitrate drop_panics) (fun r _ => r <> None) s.
Proof.
  intros Hbg Hw. assert (exists b, ready_batch s = Some b) as [b Hb] by (destruct Hbg as [(? & ? & ? & ? & ? & ? & ? & ? & _)|[? _]]; eauto).
  unfold arbitrate. apply wp_seq, fact_atom. intros r s' H. apply (pop_continuation_fact _ b) in H; [|done].
  destruct r as [m|]; [by apply wp_done|]. destruct H as [-> _].
  apply wp_seq. eapply wp_weaken; [by apply (mailbox_stage_fact b)|]. intros [r|] s' Hr; [by apply wp_done|].
  destruct Hr as [-> Hm]. apply wp_seq, fact_atom. unfold the_batch. rewrite Hb. cbn [expect mbind outcome_bind]. intros x s' [= <- <-].
  apply wp_seq. eapply wp_weaken; [apply fact_cutoffs; [apply offload_stage_still|apply (offload_stage_fact _ b); [done|lia]]|].
  intros [r|] s1 [Hr Hc1]; [by apply wp_done|]. destruct Hr as (_ & Ht & _ & ([ph th off] & Hb1 & Hph) & Hev). simpl in Hph. subst ph.
  unfold cutoffs in Hc1. rewrite Hb, Hb1 in Hc1. injection Hc1 as Hi Hn Hth.
  destruct Hbg as [(a & l & c & through & off' & A & al & Hbf & Hrep & Ha & Hwt)|[Hbs Hd]].
  - rewrite Hb in Hbf. injection Hbf as ->. apply (settle_poised a). exists l, c, th, off, A, al. by rewrite Ht.
  - rewrite Hb in Hbs. injection Hbs as ->. apply (settle_steady th off); [done| | |by rewrite Ht, Hn].
    + rewrite Hi. simpl in Hth. lia.
    + apply Hev. by eexists.
Qed.

Lemma begin_last s : fact begin_ready_batch (fun _ s' => last_delivery_was_continuation s' = last_delivery_was_continuation s) s.
Proof.
  eapply wp_weaken; [apply (wp_frame _ _ _ (fun s s' => last_delivery_was_continuation s' = last_delivery_was_continuation s)
    (fun s' => last_delivery_was_continuation s' = last_delivery_was_continuation s)) with (Q := fun _ _ => True)|by intros ? ? [_ ?]].
  - by intros ? ? [].
  - by intros ? ? -> ->.
  - unfold begin_ready_batch, accepted_now, watermark.
    repeat first [done | apply within_bind; [|intros ?] | apply within_atom; intros s1 x s2 H1;
      unfold promote_to_fired, assert_that, expect in H1; simplify_eq/=; repeat (case_match; simplify_eq/=); done
      | match goal with |- within _ (match ?x with _ => _ end) => destruct x end ].
  - done.
  - apply fact_true.
Qed.

(** The disposal panic retained for the next receive. *)
Lemma selection_turn_fact s :
  actor_inv hash_key s -> fact (selection_turn drop_panics) (turn_fact (last_delivery_was_continuation s)) s.
Proof.
  intros Hi. unfold selection_turn, resume_pending_panic. apply wp_seq, fact_atom. intros p s' [= <- <-].
  destruct (panic_slot s); [by apply wp_done; split_and!|]. apply wp_seq.
  eapply wp_weaken; [apply fact_both; [apply begin_last|by apply fact_of, (begin_ready_batch_spec hash_key), inv_slot]|].
  simpl. intros ? s1 [<- (b & n & Hh & Hb & _)]. apply (arbitrate_fact b); [done|apply Hh|]. by destruct (ai_batch _ _ Hh b Hb).
Qed.
Lemma selection_turn_begun s :
  actor_inv hash_key s -> ready_batch s = None -> fact (selection_turn drop_panics) (fun r _ => r <> None) s.
Proof.
  intros Hi Hb. unfold selection_turn, resume_pending_panic. apply wp_seq, fact_atom. intros p s' [= <- <-].
  destruct (panic_slot s); [by apply wp_done|]. apply wp_seq. assert (Hi' : actor_inv hash_key (set_slot None s)) by by apply inv_slot.
  eapply wp_weaken; [apply fact_both; [by apply begin_fact|by apply fact_of, (begin_ready_batch_spec hash_key)]|].
  intros ? s1 [Hbg (b & n & Hh & _)]. eapply arbitrate_begun; [done|apply Hh].
Qed.
(** A turn without a result leaves no batch. *)
Lemma selection_turn_none s :
  actor_inv hash_key s -> fact (selection_turn drop_panics) (fun r s' => r <> Some StillSelecting /\
    (r = None \/ r = Some NothingReady -> actor_inv hash_key s' /\ ready_batch s' = None)) s.
Proof.
  intros Hi. unfold selection_turn, resume_pending_panic. apply wp_seq, fact_atom. intros p s' [= <- <-].
  destruct (panic_slot s); [apply wp_done; naive_solver|]. apply wp_seq.
  eapply wp_weaken; [by apply fact_of, (begin_ready_batch_spec hash_key), inv_slot|]. intros ? s1 (b & n & Hh).
  eapply wp_weaken; [by apply fact_of, (arbitrate_spec hash_key)|]. intros r s2 Hr. split; [by intros ->|]. intros [-> | ->]; naive_solver.
Qed.

(** The entries of the store that are armed. *)
Definition armed_entry s (e : TimerEntry K M) : Prop := exists h l, keyed (timers s) !! h = Some l /\ e ∈ l.
(** Nothing is ready, and no timer is due. *)
Definition quiet s : Prop :=
  external_idle s /\ continuations s = [] /\ forall e d, armed_entry s e -> deadline e = Some d -> now s < d.
Lemma silent_quiet s : actor_inv hash_key s -> ready_batch s = None -> silent s -> quiet s.
Proof.
  intros Hi Hb (He & Hc & Hd). split_and!; [done|done|]. intros e d (h & l & Hl & Hin) Hdl.
  destruct (ai_timers _ _ Hi) as (A & Hr & Hk). unfold captured in Hk. rewrite Hb in Hk.
  destruct (rp_entry _ _ _ Hr h l e Hl Hin) as (_ & al & Ha & Heq).
  assert (Had : al_deadline al = Some d) by (by rewrite <- Heq in Hdl).
  assert (Hw : al_waiting al = true).
  { destruct (al_waiting al) eqn:Ew; [done|]. pose proof (tk_lost _ _ Hk _ _ Ha Ew ltac:(rewrite Had; by eexists)) as Hn. by apply not_elem_of_nil in Hn. }
  pose proof (next_deadline_spec hash_key _ _ Hr) as Hn. destruct (next_deadline (timers s)) as [d'|].
  - destruct Hn as [_ Hn]. specialize (Hn _ _ _ Ha Hw Had). specialize (Hd d' eq_refl). lia.
  - by destruct (Hn _ _ d Ha Hw).
Qed.

Lemma reclaim_same s : core (reclaim_finished s) = core s /\ last_delivery_was_continuation (reclaim_finished s) = last_delivery_was_continuation s.
Proof. done. Qed.

(** Two turns are enough. *)
Definition selected_fact (last : bool) (r : Selection M) s : Prop :=
  r <> StillSelecting /\ (r = NothingReady -> quiet s) /\
  (last = true -> forall m, r = Selected FromContinuation m -> external_idle s \/ firing s).
Lemma turn_selected last r s :
  turn_fact last (Some r) s -> r <> StillSelecting -> (r = NothingReady -> actor_inv hash_key s /\ ready_batch s = None) -> selected_fact last r s.
Proof.
  intros (H1 & _ & H2) Hr Hi. split_and!; [done| |].
  - intros ->. destruct (Hi eq_refl). apply silent_quiet; auto.
  - intros Hl m ->. by eapply H2.
Qed.
Lemma selection_loop_fact s :
  actor_inv hash_key s -> fact (selection_loop drop_panics 2) (selected_fact (last_delivery_was_continuation s)) s.
Proof.
  intros Hi. cbn [selection_loop]. apply wp_seq. eapply wp_weaken; [apply fact_both; [by apply selection_turn_fact|by apply selection_turn_none]|].
  intros [r|] s1 [Ht [Hs Hn]]; [apply wp_done, turn_selected; naive_solver|].
  destruct (Hn ltac:(auto)) as [Hi1 Hb1]. apply wp_seq.
  eapply wp_weaken; [apply fact_both; [by apply selection_turn_begun|apply fact_both; [by apply selection_turn_fact|by apply selection_turn_none]]|].
  intros [r|] s2 (Hne & Ht2 & Hs2 & Hn2); [|done]. destruct Ht as (_ & Hlast & _). rewrite (Hlast eq_refl) in Ht2.
  apply wp_done, turn_selected; naive_solver.
Qed.
Lemma next_ready_fact s :
  actor_inv hash_key s -> fact (next_ready drop_panics 2) (selected_fact (last_delivery_was_continuation s)) s.
Proof.
  intros Hi. unfold next_ready, select_ready. apply wp_seq, wp_seq, fact_update.
  eapply wp_weaken; [by apply selection_loop_fact, inv_reclaim|]. simpl. intros r s1 Hr.
  assert (Hend : fact (p ← resume_pending_panic;
    match p with
    | None => mret r
    | Some payload => _ ← update (fun s => match r with Selected _ m => dispose drop_panics (TrashMessage m) s | _ => s end);
                      mret (Unwound payload)
    end) (selected_fact (last_delivery_was_continuation s)) s1).
  { unfold resume_pending_panic. apply wp_seq, fact_atom. intros p s2 [= <- <-]. destruct (panic_slot s1); [|by apply wp_done].
    apply wp_seq, fact_update, wp_done. by split_and!. }
  destruct r; [done|done|by apply wp_done..].
Qed.
End solo.

(** C30: a receive selects what is ready.  From any state an incarnation reaches,
    a selection that other threads do not disturb ends after at most two turns
    of its loop.  If it finds nothing then nothing is ready: the mailbox has no
    accepted message, no completion or continuation is queued, and no armed timer
    is due, whatever batches were abandoned by earlier panics.  After a
    continuation it selects another one only when nothing external is ready, or
    a fired batch has it captured. *)
Theorem selection_is_complete {K M B W} `{!EqDecision K, !Inbox M B, !InboxLaws M B} {clock : Clock} (hash_key : K -> Z)
  (drop_panics : Trash K M W -> option string) (cancel_panics : OffloadResource -> list string) (L : Latches) (readiness : Readiness)
  s0 log s :
  fresh s0 -> history hash_key drop_panics cancel_panics L readiness s0 log s ->
  match solo (next_ready drop_panics 2) s with
  | Returned r s' =>
      r <> StillSelecting /\ (r = NothingReady -> quiet s') /\
      (last_delivery_was_continuation s = true -> forall m, r = Selected FromContinuation m -> external_idle s' \/ firing s')
  | Panicked _ => False
  | Aborted s' => spent s'
  end.
Proof.
  intros Hf Hh. destruct (history_sane _ _ _ _ _ _ _ _ Hh (fresh_sane hash_key _ Hf)) as [Hi _].
  pose proof (wp_runs _ _ _ _ _ _ _ (next_ready_fact hash_key drop_panics s Hi) (solo_runs nobody _ s)) as H1.
  pose proof (wp_runs _ _ _ _ _ _ _ (next_ready_inv hash_key drop_panics 2 s Hi) (solo_runs others _ s)) as H2.
  by destruct (solo (next_ready drop_panics 2) s).
Qed.
