(* ===== verification/RawLife.v ===== *)
(** * The end of a raw incarnation

    [raw/definition.rs], [raw/disposal.rs] and the joins of
    [raw/context/resources.rs]: the owner of an incarnation runs the actor
    behind a panic boundary, freezes the mailbox and the resources, joins the
    offloaded work, drops the context and the actor, and reports what failed.
    A hard abort destroys the incarnation at one of its awaits; its owner is then
    dropped there.  Other threads act between any two steps; none takes a
    panic out of the slot. *)

From S2P Require Import Prelude BTree Time Identity Policy Latch Interleave Gate TimerStore Raw RawProps RawHistory.

(** ** The panic boundary *)

(** What a poll of user code does. *)
Inductive PollOf (A : Type) := PollPending | PollReady (a : A) | PollUnwinds (payload : string).
Arguments PollPending {A}.
Arguments PollReady {A} a.
Arguments PollUnwinds {A} payload.

(** [CatchUnwindFuture]: whether it still owns its future.  A future that is
    done is destroyed before its output is released; a panic of its destructor
    replaces the output, but not a panic of the poll. *)
Definition boundary_poll {A} (drop_future : option string) (polled : PollOf A) (owns : bool)
  : option (result A string) * bool :=
  match (if owns then polled else PollUnwinds "a completed panic boundary was polled again") with
  | PollReady value =>
      (Some (match drop_future with None => Ok value | Some payload => Err payload end), false)
  | PollPending => (None, owns)
  | PollUnwinds payload => (Some (Err payload), false)
  end.

(** Its destructor: the panic that leaves it, unless one is under way. *)
Definition boundary_drop (panicking : bool) (drop_future : option string) (owns : bool) : option string :=
  Panic.drop_accumulator panicking (Panic.record Panic.accumulator_default (if owns then drop_future else None)).

(** ** The owner *)

Section life.
Context {K M B W R : Type} `{!EqDecision K, !Inbox M B} {clock : Clock}.
Context (drop_panics : Trash K M W -> option string) (cancel_panics : OffloadResource -> list string).
(** How the task of an offload ends, and whether the actor's destructor panics. *)
Context (join_panics : OffloadResource -> option string) (actor_panics : option string).
Local Abbreviation Prog := (Prog (Actor K M B W)).

(** [PanicSlot::run] of a step that raised [panic]. *)
Definition record_option (panic : option string) (s : Actor K M B W) : Actor K M B W :=
  match panic with Some payload => record_panic payload s | None => s end.

(** [RawIncarnationOwner::freeze]: the mailbox first, its panic last. *)
Definition owner_freeze : Prog () :=
  r ← owned (fun s => let '(r, inb) := in_freeze (inbox s) in Ret (r, set_inbox inb s));
  _ ← freeze_resources drop_panics cancel_panics;
  update (record_option (match r with Err payload => Some payload | Ok _ => None end)).

(** Awaits the tasks of offloads that have one. *)
Fixpoint join_tasks (l : list OffloadResource) : Prog () :=
  match l with
  | [] => mret ()
  | o :: l =>
      _ ← update (record_option (match off_state o with Some _ => join_panics o | None => None end));
      join_tasks l
  end.

Definition clear_events : Prog () := update (fun s => dispose_all drop_panics (TrashEvent <$> events s) (set_events [] s)).

(** [RawResources::join_offloads]. *)
Definition join_offloads : Prog () :=
  l ← observe offloads;
  _ ← join_tasks l;
  _ ← clear_events;
  update (set_offloads []).

(** The drop of the raw context: [RawResources::drop], then its fields.  The
    completion queue goes with its last handle. *)
Definition drop_raw (last_handle : bool) : Prog () :=
  _ ← freeze_resources drop_panics cancel_panics;
  _ ← update (fun s => dispose_all drop_panics (TrashMessage <$> continuations s) (set_continuations [] s));
  _ ← update (fun s => let '(retired, t) := store_clear (timers s) in dispose_timers drop_panics retired (set_timers t s));
  _ ← (if last_handle then clear_events else mret ());
  update (set_offloads []).

(** The drop of the owner: the panic that leaves it. *)
Definition owner_drop (panicking last_handle : bool) (primary_panic : option string) : Prog (option string) :=
  _ ← drop_raw last_handle;
  _ ← update (record_option actor_panics);
  cleanup ← resume_pending_panic;
  mret (Panic.resume_preferred_panic panicking (Panic.mkUnwindPanics primary_panic cleanup)).

(** How an incarnation ends: it returns, unwinds, or its future is destroyed. *)
Inductive IncarnationEnd := Returns (r : R) | Unwinds (payload : string) | Destroyed.

(** How the actor's own [run] ends: its boundary reports a result or a panic,
    or a hard abort destroys it at an await, where its destructor may panic. *)
Inductive RunEnd := RunReports (outcome : result R string) | RunDestroyed (drop_future : option string).

(** The actor's [run] behind its boundary, polled until it is ready or, if it
    stays pending, destroyed. *)
Fixpoint run_end (drop_future : option string) (polls : list (PollOf R)) : RunEnd :=
  match polls with
  | [] => RunDestroyed drop_future
  | polled :: polls =>
      match boundary_poll drop_future polled true with
      | (Some outcome, _) => RunReports outcome
      | (None, _) => run_end drop_future polls
      end
  end.

Definition ended (panic : option string) : IncarnationEnd :=
  match panic with Some payload => Unwinds payload | None => Destroyed end.

(** [RawInstance::run] from the end of the actor's [run]; [cut] is the number of
    joins after which a hard abort destroys it. *)
Definition epilogue (run : RunEnd) (cut : option nat) (last_handle : bool) : Prog IncarnationEnd :=
  match run with
  | RunDestroyed drop_future =>
      let escaping := boundary_drop false drop_future true in
      panic ← owner_drop (bool_decide (is_Some escaping)) last_handle None;
      mret (ended (Panic.keep_first_panic escaping panic))
  | RunReports outcome =>
      let primary := match outcome with Err payload => Some payload | Ok _ => None end in
      _ ← owner_freeze;
      match cut with
      | Some joined =>
          l ← observe offloads;
          _ ← join_tasks (take joined l);
          panic ← owner_drop false last_handle primary;
          mret (ended panic)
      | None =>
          _ ← join_offloads;
          panic ← owner_drop false last_handle primary;
          match panic with
          | Some payload => mret (Unwinds payload)
          | None =>
              r ← local (expect "an incarnation without a primary panic returns a result"
                           (match outcome with Ok r => Some r | Err _ => None end));
              mret (Returns r)
          end
      end
  end.
End life.
Arguments IncarnationEnd R : clear implicits.
Arguments RunEnd R : clear implicits.

(** ** The end of a raw incarnation: what it reports

    However other threads act during the teardown, a panic is never masked and
    nothing the incarnation owned survives it. *)

#[export] Instance poll_pending_dec {A} (p : PollOf A) : Decision (p <> PollPending).
Proof. destruct p; [right|left..]; [tauto|done..]. Defined.

Section reports.
Context {K M B W R : Type} `{!EqDecision K, !Inbox M B, !InboxLaws M B} {clock : Clock}.
Context (drop_panics : Trash K M W -> option string) (cancel_panics : OffloadResource -> list string).
Context (join_panics : OffloadResource -> option string) (actor_panics : option string).
Local Abbreviation Actor := (Actor K M B W).
Implicit Types (s : Actor) (phi psi : Prop).

(** The panics that other threads may record. *)
Context (noise : string -> Prop).

(** Other threads, which never take a panic out of the slot. *)
Definition keeping s s' : Prop :=
  others s s' /\ forall p, (panic_slot s = Some p -> panic_slot s' = Some p) /\
                          (panic_slot s' = Some p -> panic_slot s = Some p \/ noise p).

Lemma keeping_rtc s s' : rtc keeping s s' -> keeping s s'.
Proof.
  induction 1 as [s|s s1 s2 [Ho Hs] _ [Ho' Hs']]; split; [apply others_refl|tauto|by eapply others_trans|].
  intros p. specialize (Hs p). specialize (Hs' p). tauto.
Qed.

(** Where a panic in the slot can come from. *)
Definition raised (p : string) : Prop :=
  noise p \/ (exists x, drop_panics x = Some p) \/ (exists o, p ∈ cancel_panics o) \/
  (exists o, join_panics o = Some p) \/ actor_panics = Some p \/ exists b : B, (in_freeze b).1 = Err p.

(** Since [s0], the slot keeps what it held, what it holds was raised, and while
    it is empty no value that was destroyed panicked and [phi] holds. *)
Definition accounts s0 phi s : Prop :=
  (forall p, (panic_slot s0 = Some p -> panic_slot s = Some p) /\ (panic_slot s = Some p -> panic_slot s0 = Some p \/ raised p)) /\
  exists l, trash s = trash s0 ++ l /\ (panic_slot s = None -> Forall (fun x => drop_panics x = None) l /\ phi).

Lemma accounts_start s : accounts s True s.
Proof. split; [tauto|]. exists []. by rewrite app_nil_r. Qed.
Lemma accounts_weaken s0 phi psi s : (phi -> psi) -> accounts s0 phi s -> accounts s0 psi s.
Proof. intros H [Hp (l & Ht & Hl)]. split; [done|]. exists l. split; [done|]. intros E. destruct (Hl E); auto. Qed.
Lemma accounts_frame s0 phi s s' :
  panic_slot s' = panic_slot s -> trash s' = trash s -> accounts s0 phi s -> accounts s0 phi s'.
Proof. unfold accounts. by intros -> ->. Qed.
Lemma accounts_keeping s0 phi s s' : keeping s s' -> accounts s0 phi s -> accounts s0 phi s'.
Proof.
  intros [[_ _ _ _ _ Ho] Hs] [Hp (l & Ht & Hl)]. injection Ho as _ _ _ _ _ _ _ _ Htr. split.
  { intros p. specialize (Hs p). specialize (Hp p). unfold raised in *. tauto. }
  exists l. rewrite Htr. split; [done|]. intros E. apply Hl. destruct (panic_slot s) as [p|]; [|done]. by rewrite (proj1 (Hs p)) in E.
Qed.
Lemma slot_record s0 payload s :
  raised payload ->
  (forall p, (panic_slot s0 = Some p -> panic_slot s = Some p) /\ (panic_slot s = Some p -> panic_slot s0 = Some p \/ raised p)) ->
  forall p, (panic_slot s0 = Some p -> Some (default payload (panic_slot s)) = Some p) /\
            (Some (default payload (panic_slot s)) = Some p -> panic_slot s0 = Some p \/ raised p).
Proof.
  intros Hr H p. specialize (H p). destruct (panic_slot s) as [q|]; simpl; [tauto|]. split; [intros E; destruct H as [H _]; by specialize (H E)|].
  intros [= <-]. auto.
Qed.
Lemma accounts_record s0 phi payload s : raised payload -> accounts s0 phi s -> accounts s0 False (record_panic payload s).
Proof. intros Hr [Hp (l & Ht & _)]. split; [by apply slot_record|by exists l]. Qed.
Lemma accounts_option s0 phi o s :
  (forall p, o = Some p -> raised p) -> accounts s0 phi s -> accounts s0 (phi /\ o = None) (record_option o s).
Proof.
  destruct o as [payload|]; intros Hr H; simpl; [|by eapply accounts_weaken, H].
  eapply accounts_weaken; [|by eapply accounts_record, H; auto]. done.
Qed.
Lemma accounts_dispose s0 phi x s : accounts s0 phi s -> accounts s0 phi (dispose drop_panics x s).
Proof.
  intros [Hp (l & Ht & Hl)]. unfold dispose. destruct (drop_panics x) as [payload|] eqn:E.
  - split; [apply slot_record; [|done]; unfold raised; eauto|]. exists (l ++ [x]). simpl. by rewrite Ht, app_assoc.
  - split; [done|]. exists (l ++ [x]). simpl. rewrite Ht, app_assoc. split; [done|]. intros Hn. destruct (Hl Hn) as [Hf ?].
    split; [|done]. apply Forall_app. by repeat constructor.
Qed.
Lemma accounts_dispose_all s0 phi l s : accounts s0 phi s -> accounts s0 phi (dispose_all drop_panics l s).
Proof. revert s. induction l as [|x l IH]; intros s H; simpl; [done|]. by apply IH, accounts_dispose. Qed.
Lemma accounts_cancel s0 phi o s :
  accounts s0 phi s -> accounts s0 (phi /\ cancel_panics o = []) (cancel_offload cancel_panics o s).
Proof.
  intros H. unfold cancel_offload.
  match goal with |- context [foldl _ ?x _] => assert (H' : accounts s0 phi x) by (destruct (off_state o); repeat case_match; by eapply accounts_frame, H); generalize dependent x end.
  intros x Hx. assert (Hr : Forall raised (cancel_panics o)).
  { apply Forall_forall. intros p Hp. unfold raised. eauto. }
  destruct Hr as [|p l Hp Hr]; simpl; [by eapply accounts_weaken, Hx|]. apply (accounts_weaken _ False); [done|].
  assert (Hf : accounts s0 False (record_panic p x)) by by eapply accounts_record.
  revert Hf. generalize (record_panic p x). induction Hr as [|q l Hq Hr IH]; intros y Hy; simpl; [done|].
  by eapply IH, accounts_record, Hy.
Qed.

(** ** The steps of the teardown *)

(** What is known of an incarnation with the ledger [l] as it is torn down. *)
Definition torn s0 phi (l : list OffloadResource) (open : bool) s : Prop :=
  accounts s0 phi s /\ offloads s = l /\ accepting s = open.
Lemma torn_keeping s0 phi l a s s' : keeping s s' -> torn s0 phi l a s -> torn s0 phi l a s'.
Proof.
  intros Hk (Ha & Hl & Ho). pose proof Hk as [[_ _ _ _ _ Ho'] _]. injection Ho' as E _ _ _ _ E' _ _ _.
  split_and!; [by eapply accounts_keeping|congruence..].
Qed.
Lemma torn_weaken s0 phi psi l a s : (phi -> psi) -> torn s0 phi l a s -> torn s0 psi l a s.
Proof. intros H (Ha & Hr). split; [by eapply accounts_weaken|done]. Qed.

Local Abbreviation wp := (wp keeping (fun _ => False) (fun _ => False)).

(** A step after the interference of others. *)
Lemma wp_steady {X} (P : Actor -> Prop) (f : Actor -> outcome (X * Actor)) Q s :
  (forall s s', keeping s s' -> P s -> P s') -> P s ->
  (forall s1, P s1 -> match f s1 with Ret (x, s2) => Q x s2 | _ => False end) -> wp (atom f) Q s.
Proof.
  intros Hst HP Hf. apply wp_atom. intros s1 Hs. specialize (Hf s1 (Hst _ _ (keeping_rtc _ _ Hs) HP)). by destruct (f s1) as [[]| |].
Qed.
Lemma wp_torn s0 phi l a (g : Actor -> Actor) (Q : () -> Actor -> Prop) s :
  torn s0 phi l a s -> (forall s1, torn s0 phi l a s1 -> Q () (g s1)) -> wp (update g) Q s.
Proof. intros H Hg. eapply wp_steady; [apply torn_keeping|exact H|]. intros s1 H1. by apply Hg. Qed.
Lemma wp_observe_torn s0 phi l a {X} (g : Actor -> X) (Q : X -> Actor -> Prop) s :
  torn s0 phi l a s -> (forall s1, torn s0 phi l a s1 -> Q (g s1) s1) -> wp (observe g) Q s.
Proof. intros H Hg. eapply wp_steady; [apply torn_keeping|exact H|]. intros s1 H1. by apply Hg. Qed.

(** Steps that keep the ledger. *)
Lemma dispose_all_ledger t s :
  offloads (dispose_all drop_panics t s) = offloads s /\ accepting (dispose_all drop_panics t s) = accepting s.
Proof.
  revert s. induction t as [|x t IH]; intros s; simpl; [done|]. destruct (IH (dispose drop_panics x s)) as [-> ->].
  unfold dispose. by destruct (drop_panics x).
Qed.
Lemma torn_dispose s0 phi l a t s : torn s0 phi l a s -> torn s0 phi l a (dispose_all drop_panics t s).
Proof.
  intros (Ha & <- & <-). destruct (dispose_all_ledger t s) as [E1 E2]. split_and!; [by apply accounts_dispose_all|done..].
Qed.
Lemma torn_frame s0 phi s s' :
  panic_slot s' = panic_slot s -> trash s' = trash s -> torn s0 phi (offloads s) (accepting s) s ->
  torn s0 phi (offloads s') (accepting s') s'.
Proof. intros H1 H2 (Ha & _). split_and!; [by eapply accounts_frame|done..]. Qed.
Lemma torn_option s0 phi l a o s : (forall p, o = Some p -> raised p) -> torn s0 phi l a s -> torn s0 (phi /\ o = None) l a (record_option o s).
Proof. intros Hr (Ha & <- & <-). split_and!; [by apply accounts_option|by destruct o..]. Qed.

Lemma cancel_keeps o s :
  offloads (cancel_offload cancel_panics o s) = offloads s /\ accepting (cancel_offload cancel_panics o s) = accepting s.
Proof.
  unfold cancel_offload.
  match goal with |- context [foldl _ ?x _] => assert (H : offloads x = offloads s /\ accepting x = accepting s) by (destruct (off_state o); by repeat case_match); generalize dependent x end.
  induction (cancel_panics o) as [|p l IH]; intros x Hx; simpl; [done|]. by apply IH.
Qed.
Lemma cancel_offloads_torn k s0 phi l a s :
  torn s0 phi l a s ->
  wp (cancel_offloads cancel_panics k) (fun _ => torn s0 (phi /\ Forall (fun o => cancel_panics o = []) k) l a) s.
Proof.
  revert phi s. induction k as [|o k IH]; intros phi s H; cbn [cancel_offloads].
  - apply wp_done. eapply torn_weaken, H. done.
  - apply wp_seq. eapply wp_torn; [exact H|]. intros s1 (Ha & El & Eo). destruct (cancel_keeps o s1) as [E1 E2].
    eapply wp_weaken; [apply (IH (phi /\ cancel_panics o = []))|].
    + split_and!; [by apply accounts_cancel|congruence..].
    + intros [] s'. apply torn_weaken. intros [[? ?] ?]. auto.
Qed.

(** What a step that keeps [torn] does before the rest. *)
Lemma wp_then {X} s0 phi l a (g : Actor -> Actor) (k : () -> Prog Actor X) Q s :
  (forall s1, torn s0 phi l a s1 -> torn s0 phi l a (g s1)) -> torn s0 phi l a s ->
  (forall s1, torn s0 phi l a s1 -> wp (k ()) Q s1) -> wp (update g ≫= k) Q s.
Proof. intros Hg H Hk. apply wp_seq. eapply wp_torn; [exact H|]. auto. Qed.
Lemma torn_moves s0 phi l a s s' :
  panic_slot s' = panic_slot s -> trash s' = trash s -> offloads s' = offloads s -> accepting s' = accepting s ->
  torn s0 phi l a s -> torn s0 phi l a s'.
Proof. intros H1 H2 H3 H4 (Ha & El & Eo). split_and!; [by eapply accounts_frame|congruence..]. Qed.
Lemma torn_retire s0 phi l a t s s' :
  panic_slot s' = panic_slot s -> trash s' = trash s -> offloads s' = offloads s -> accepting s' = accepting s ->
  torn s0 phi l a s -> torn s0 phi l a (dispose_all drop_panics t s').
Proof. intros. by apply torn_dispose, (torn_moves _ _ _ _ s). Qed.

Lemma freeze_resources_torn s0 phi l a s :
  torn s0 phi l a s ->
  wp (freeze_resources drop_panics cancel_panics)
    (fun _ => torn s0 (phi /\ (a = true -> Forall (fun o => cancel_panics o = []) l)) l false) s.
Proof.
  intros H. unfold freeze_resources. apply wp_seq. eapply wp_observe_torn; [exact H|]. intros s1 (Ha & El & Eo).
  rewrite Eo. destruct a; cbn [negb]; [|apply wp_done; split_and!; [eapply accounts_weaken, Ha; done|done..]].
  apply wp_seq. eapply (wp_torn s0 phi l true); [done|]. intros s2 (Ha2 & E2 & _).
  apply wp_seq. eapply (wp_observe_torn s0 phi l false); [by split_and!|]. intros s3 H3. destruct H3 as (Ha3 & E3 & A3).
  apply wp_seq. eapply wp_weaken; [eapply (cancel_offloads_torn _ s0 phi l false); by split_and!|].
  rewrite E3. intros [] s4 H4. eapply (wp_then s0 _ l false); [|exact H4|]; clear; intros s H.
  { by eapply torn_retire, H. }
  eapply (wp_then s0 _ l false); [|exact H|]; clear; intros s H.
  { destruct (store_clear _). by eapply torn_retire, H. }
  eapply (wp_then s0 _ l false); [|exact H|]; clear; intros s H.
  { by eapply torn_moves, H. }
  eapply wp_torn; [exact H|]. clear. intros s H. eapply torn_weaken; [|by eapply torn_retire, H]. intros [? ?]. auto.
Qed.

Lemma join_tasks_torn k s0 phi l a s :
  torn s0 phi l a s ->
  wp (join_tasks join_panics k)
    (fun _ => torn s0 (phi /\ Forall (fun o => is_Some (off_state o) -> join_panics o = None) k) l a) s.
Proof.
  revert phi s. induction k as [|o k IH]; intros phi s H; cbn [join_tasks].
  - apply wp_done. eapply torn_weaken, H. done.
  - apply wp_seq. eapply wp_torn; [exact H|]. intros s1 H1. eapply wp_weaken; [eapply IH, torn_option, H1|].
    { intros p. unfold raised. destruct (off_state o); [|done]. eauto 6. }
    intros [] s'. apply torn_weaken. intros [[? Ho] ?]. split; [done|]. constructor; [|done]. intros [x E]. by rewrite E in Ho.
Qed.
Lemma clear_events_torn s0 phi l a s : torn s0 phi l a s -> wp (clear_events drop_panics) (fun _ => torn s0 phi l a) s.
Proof. intros H. eapply wp_torn; [exact H|]. clear. intros s H. by eapply torn_retire, H. Qed.
Lemma join_offloads_torn s0 phi l a s :
  torn s0 phi l a s ->
  wp (join_offloads drop_panics join_panics)
    (fun _ => torn s0 (phi /\ Forall (fun o => is_Some (off_state o) -> join_panics o = None) l) [] a) s.
Proof.
  intros H. unfold join_offloads. apply wp_seq. eapply wp_observe_torn; [exact H|]. intros s1 H1.
  rewrite (proj1 (proj2 H1)). apply wp_seq. eapply wp_weaken; [by eapply join_tasks_torn|]. intros [] s2 H2.
  apply wp_seq. eapply wp_weaken; [by eapply clear_events_torn|]. intros [] s3 H3.
  eapply wp_torn; [exact H3|]. intros s4 (Ha & _ & Eo). split_and!; [by eapply accounts_frame|done..].
Qed.

(** ** What is left *)

(** An incarnation that owns nothing any more. *)
Definition emptied s : Prop :=
  accepting s = false /\ continuations s = [] /\ armings (timers s) = ∅ /\ offloads s = [].

Lemma keeping_owned (P : Actor -> Prop) s s' :
  (forall s s', owned_part s' = owned_part s -> P s -> P s') -> keeping s s' -> P s -> P s'.
Proof. intros HP [[_ _ _ _ _ Ho] _]. by apply HP. Qed.
(** A step from one fact on what is owned to another. *)
Lemma wp_owned (P P' : Actor -> Prop) {X} (g : Actor -> Actor) (k : () -> Prog Actor X) Q s :
  (forall s s', owned_part s' = owned_part s -> P s -> P s') -> (forall s1, P s1 -> P' (g s1)) -> P s ->
  (forall s1, P' s1 -> wp (k ()) Q s1) -> wp (update g ≫= k) Q s.
Proof.
  intros HP Hg H Hk. apply wp_seq. eapply wp_steady; [intros ? ?; by apply keeping_owned|exact H|]. intros s1 H1. by apply Hk, Hg.
Qed.
Lemma dispose_all_owns t s :
  let s' := dispose_all drop_panics t s in
  accepting s' = accepting s /\ continuations s' = continuations s /\ timers s' = timers s /\ offloads s' = offloads s.
Proof.
  cbv zeta. destruct (dispose_all_ledger t s) as [-> ->]. pose proof (core_dispose_all drop_panics t s) as H.
  by injection H as _ _ -> -> _.
Qed.

Lemma torn_start s : torn s True (offloads s) (accepting s) s.
Proof. split; [apply accounts_start|done]. Qed.
Lemma drop_raw_empties last_handle s : wp (drop_raw drop_panics cancel_panics last_handle) (fun _ => emptied) s.
Proof.
  unfold drop_raw. apply wp_seq. eapply wp_weaken; [eapply freeze_resources_torn, torn_start|]. intros [] s1 (_ & _ & E1).
  eapply (wp_owned (fun s => accepting s = false) (fun s => accepting s = false /\ continuations s = [])); [|..|done|].
  { intros ? ? Ho. injection Ho as -> _ _ _ _ _ _ _ _. done. }
  { intros s2 E. destruct (dispose_all_owns (TrashMessage <$> continuations s2) (set_continuations [] s2)) as (-> & -> & _). done. }
  clear. intros s H. eapply (wp_owned (fun s => accepting s = false /\ continuations s = [])
    (fun s => accepting s = false /\ continuations s = [] /\ armings (timers s) = ∅)); [|..|done|].
  { intros ? ? Ho. injection Ho as -> -> _ _ _ _ _ _ _. done. }
  { intros s2 [E1 E2]. unfold store_clear, dispose_timers.
    match goal with |- context [dispose_all _ ?t ?x] => destruct (dispose_all_owns t x) as (-> & -> & -> & _) end. done. }
  clear. intros s H. apply wp_seq.
  assert (Hst : forall s s', keeping s s' -> accepting s = false /\ continuations s = [] /\ armings (timers s) = ∅ ->
    accepting s' = false /\ continuations s' = [] /\ armings (timers s') = ∅).
  { intros ? ? [[_ _ _ _ _ Ho] _]. injection Ho as -> -> _ -> _ _ _ _ _. done. }
  apply (wp_weaken _ _ _ _ (fun _ s => accepting s = false /\ continuations s = [] /\ armings (timers s) = ∅)).
  - destruct last_handle; [|done]. eapply wp_steady; [exact Hst|exact H|]. intros s2 H2.
    destruct (dispose_all_owns (TrashEvent <$> events s2) (set_events [] s2)) as (-> & -> & -> & _). done.
  - intros [] s2 H2. eapply wp_steady; [exact Hst|exact H2|]. by intros s3 (? & ? & ?).
Qed.

(** ** What is reported *)

Definition quiet_cancels (l : list OffloadResource) : Prop := Forall (fun o => cancel_panics o = []) l.
Definition quiet_joins (l : list OffloadResource) : Prop := Forall (fun o => is_Some (off_state o) -> join_panics o = None) l.
(** The mailbox was frozen, and raised nothing. *)
Definition quiet_freeze s : Prop := exists b u, rtc in_others (inbox s) b /\ (in_freeze b).1 = Ok u.

Lemma owner_freeze_torn s :
  wp (owner_freeze drop_panics cancel_panics)
    (fun _ => torn s (quiet_freeze s /\ (accepting s = true -> quiet_cancels (offloads s))) (offloads s) false) s.
Proof.
  unfold owner_freeze. apply wp_seq. apply wp_atom. intros s1 Hk%keeping_rtc.
  destruct (in_freeze (inbox s1)) as [r inb] eqn:Ef.
  apply wp_seq. eapply wp_weaken; [eapply (freeze_resources_torn s True (offloads s) (accepting s))|].
  - eapply torn_moves; [..|eapply torn_keeping, torn_start; exact Hk]; done.
  - intros [] s2 H2. eapply wp_torn; [exact H2|]. intros s3 H3.
    assert (Hr : forall p, (match r with Err payload => Some payload | Ok _ => None end) = Some p -> raised p).
    { intros p Hp. do 5 right. exists (inbox s1). rewrite Ef. destruct r; [done|]. by injection Hp as ->. }
    eapply torn_weaken; [|by eapply torn_option]. intros [[_ Hc] Hn]. split; [|exact Hc]. exists (inbox s1). rewrite Ef.
    destruct r as [u|?]; [|done]. exists u. split; [|done]. by destruct Hk as [[] _].
Qed.

Lemma drop_raw_torn s0 phi l a last_handle s :
  torn s0 phi l a s ->
  wp (drop_raw drop_panics cancel_panics last_handle) (fun _ => torn s0 (phi /\ (a = true -> quiet_cancels l)) [] false) s.
Proof.
  intros H. unfold drop_raw. apply wp_seq. eapply wp_weaken; [by eapply freeze_resources_torn|]. clear. intros [] s H.
  eapply (wp_then s0 _ l false); [|exact H|]; clear; intros s H.
  { by eapply torn_retire, H. }
  eapply (wp_then s0 _ l false); [|exact H|]; clear; intros s H.
  { destruct (store_clear _). by eapply torn_retire, H. }
  apply wp_seq. eapply (wp_weaken _ _ _ _ (fun _ => torn s0 (phi /\ (a = true -> quiet_cancels l)) l false)).
  { destruct last_handle; [|done]. by apply clear_events_torn. }
  clear. intros [] s H. eapply wp_torn; [exact H|]. intros s1 (Ha & _ & Eo). split_and!; [by eapply accounts_frame|done..].
Qed.

Lemma wp_both {X} (p : Prog Actor X) (Q Q' : X -> Actor -> Prop) s : wp p Q s -> wp p Q' s -> wp p (fun x s' => Q x s' /\ Q' x s') s.
Proof.
  revert s. induction p as [x|Y f k IH]; intros s; simpl; [done|]. intros H H' s1 Hs. specialize (H s1 Hs). specialize (H' s1 Hs).
  destruct (f s1) as [[y s2]| |]; [|done..]. by apply IH.
Qed.

(** [cleanup] is what the slot held at the end. *)
Definition collected s0 phi (cleanup : option string) s : Prop :=
  (forall p, (panic_slot s0 = Some p -> cleanup = Some p) /\ (cleanup = Some p -> panic_slot s0 = Some p \/ raised p)) /\
  exists l, trash s = trash s0 ++ l /\ (cleanup = None -> Forall (fun x => drop_panics x = None) l /\ phi).

Lemma owner_drop_reports s0 phi l a panicking last_handle primary s :
  torn s0 phi l a s ->
  wp (owner_drop drop_panics cancel_panics actor_panics panicking last_handle primary)
    (fun p s' => emptied s' /\ exists cleanup,
       p = Panic.resume_preferred_panic panicking (Panic.mkUnwindPanics primary cleanup) /\
       collected s0 (phi /\ (a = true -> quiet_cancels l) /\ actor_panics = None) cleanup s') s.
Proof.
  intros H. unfold owner_drop. apply wp_seq. eapply wp_weaken; [apply wp_both; [by eapply drop_raw_torn|apply drop_raw_empties]|].
  clear. intros [] s [H He].
  assert (Hst : forall psi s s', keeping s s' -> torn s0 psi [] false s /\ emptied s -> torn s0 psi [] false s' /\ emptied s').
  { intros psi s1 s2 Hk [H1 H2]. split; [by eapply torn_keeping|]. destruct Hk as [[_ _ _ _ _ Ho] _].
    unfold emptied. by injection Ho as -> -> _ -> _ -> _ _ _. }
  apply wp_seq. eapply wp_steady; [apply Hst|by split|]. clear - Hst. intros s [H He].
  apply wp_seq. eapply wp_steady; [apply Hst|split; [apply torn_option, H|by destruct actor_panics]|]; [unfold raised; eauto 8|]. clear. intros s [((Hp & t & Ht & Hl) & _) He].
  apply wp_done. split; [done|]. eexists. split; [done|]. split; [done|]. exists t. split; [done|]. intros E.
  destruct (Hl E) as [? [[? ?] ?]]. auto.
Qed.

(** The panic of the actor's own code. *)
Definition own_panic (run : RunEnd R) : option string :=
  match run with RunReports (Err p) => Some p | RunReports (Ok _) => None | RunDestroyed p => p end.
(** It is the panic of the poll that ends [run], else that of its destructor. *)
Lemma own_panic_run_end drop_future (polls : list (PollOf R)) :
  own_panic (run_end drop_future polls) =
  match snd <$> list_find (fun p => p <> PollPending) polls with Some (PollUnwinds payload) => Some payload | _ => drop_future end.
Proof.
  induction polls as [|p polls IH]; [done|]. destruct p as [|r|payload]; simpl.
  - rewrite IH. by destruct (list_find _ polls) as [[]|].
  - by destruct drop_future.
  - done.
Qed.
(** How an incarnation ends that nothing troubled. *)
Definition undisturbed (run : RunEnd R) (cut : option nat) : IncarnationEnd R :=
  match run, cut with RunReports (Ok r), None => Returns r | _, _ => Destroyed end.
(** The tasks that were joined. *)
Definition joined (cut : option nat) s : list OffloadResource := match cut with None => offloads s | Some n => take n (offloads s) end.

(** Between [s] and [s'], nothing panicked. *)
Definition untroubled (run : RunEnd R) cut s s' : Prop :=
  (exists t, trash s' = trash s ++ t /\ Forall (fun x => drop_panics x = None) t) /\ actor_panics = None /\
  (accepting s = true -> quiet_cancels (offloads s)) /\
  match run with RunReports _ => quiet_freeze s /\ quiet_joins (joined cut s) | RunDestroyed _ => True end.

(** What an incarnation reports: its own panic, then the first of cleanup. *)
Definition reports (run : RunEnd R) cut s (e : IncarnationEnd R) s' : Prop :=
  emptied s' /\
  match own_panic run, panic_slot s with
  | Some p, _ | None, Some p => e = Unwinds p
  | None, None => (exists p, e = Unwinds p /\ raised p) \/ (e = undisturbed run cut /\ untroubled run cut s s')
  end.

Lemma collected_reports run cut phi cleanup e s s' :
  emptied s' -> collected s phi cleanup s' ->
  (phi -> actor_panics = None /\ (accepting s = true -> quiet_cancels (offloads s)) /\
          match run with RunReports _ => quiet_freeze s /\ quiet_joins (joined cut s) | RunDestroyed _ => True end) ->
  e = match own_panic run, cleanup with Some p, _ | None, Some p => Unwinds p | None, None => undisturbed run cut end ->
  reports run cut s e s'.
Proof.
  intros He [Hc (t & Ht & Hq)] Hphi ->. split; [done|]. destruct (own_panic run) as [p|]; [done|].
  destruct (panic_slot s) as [p|]; [by destruct (Hc p) as [-> _]|]. destruct cleanup as [p|].
  - left. exists p. split; [done|]. by destruct (Hc p) as [_ [|]].
  - right. split; [done|]. destruct (Hq eq_refl) as [Ht' Hp]. destruct (Hphi Hp) as (? & ? & ?). split_and!; [by exists t|done..].
Qed.

Lemma reports_keeping run cut s e s1 s2 : keeping s1 s2 -> reports run cut s e s1 -> reports run cut s e s2.
Proof.
  intros [[_ _ _ _ _ Ho] _]. injection Ho as E1 E2 _ E3 _ E4 _ _ E5. unfold reports, emptied, untroubled.
  by rewrite E1, E2, E3, E4, E5.
Qed.

Lemma epilogue_reports run cut last_handle s :
  wp (epilogue drop_panics cancel_panics join_panics actor_panics run cut last_handle) (reports run cut s) s.
Proof.
  unfold epilogue. destruct run as [outcome|d].
  2: { apply wp_seq. eapply wp_weaken; [eapply owner_drop_reports, torn_start|]. intros p s' (He & c & -> & Hc). apply wp_done.
       eapply collected_reports; [done|exact Hc|tauto|]. destruct d as [p|]; [done|]. by destruct c. }
  apply wp_seq. eapply wp_weaken; [apply owner_freeze_torn|]. intros [] s1 H1. destruct cut as [n|].
  - apply wp_seq. eapply wp_observe_torn; [exact H1|]. intros s2 H2. rewrite (proj1 (proj2 H2)).
    apply wp_seq. eapply wp_weaken; [by eapply join_tasks_torn|]. intros [] s3 H3.
    apply wp_seq. eapply wp_weaken; [by eapply owner_drop_reports|]. intros p s' (He & c & -> & Hc). apply wp_done.
    eapply collected_reports; [done|exact Hc|unfold quiet_joins, joined; tauto|]. by destruct outcome, c.
  - apply wp_seq. eapply wp_weaken; [by eapply join_offloads_torn|]. intros [] s3 H3.
    apply wp_seq. eapply wp_weaken; [by eapply owner_drop_reports|]. intros p s' (He & c & -> & Hc).
    assert (Hr : forall e, e = match own_panic (RunReports outcome), c with Some p, _ | None, Some p => Unwinds p | None, None => undisturbed (RunReports outcome) None end ->
      reports (RunReports outcome) None s e s').
    { intros e. eapply collected_reports; [done|exact Hc|unfold quiet_joins, joined; tauto]. }
    destruct outcome as [r|p], c as [q|]; [by apply Hr| |by apply Hr..].
    apply wp_seq, wp_atom. intros s4 Hs%keeping_rtc. apply wp_done. by eapply reports_keeping, Hr.
Qed.
End reports.

