(* ===== verification/Handler.v ===== *)
(** * Callback actors

    [actor.rs]: the [Handler] that runs an [Actor]'s callbacks over a raw
    context.  User code is a [Script], any sequence of context calls that
    depends on their answers and ends with a value or a panic; a panic of a call
    is an answer, since user code may catch it.  A suspended receive is polled
    again; [fuel] bounds the polls and deliveries of a run, whose rest is then
    [HandlerWaits]. *)

From S2P Require Import Prelude BTree Time Identity Policy Latch Interleave TimerStore Raw RawProps RawHistory RawLife.

Inductive DeliveryStage := Initializing | LiveStage | DrainingFrozenPrefix.
#[export] Instance DeliveryStage_eq_dec : EqDecision DeliveryStage.
Proof. solve_decision. Defined.

(** What a callback asks of its context. *)
Inductive call (K M W : Type) :=
| CallMarkReady
| CallStop
| CallIsDraining
| CallContinueWith (m : M)
| CallSetTimeout (k : K) (m : M) (after : Z)
| CallSetInterval (clone : M -> result M string) (k : K) (m : M) (period : Z)
| CallClearTimer (k : K)
| CallOffload (w : W) (elapsed : result M string) (budget_is_zero : bool)
| CallOffloadScoped (w : W) (elapsed : result M string) (budget_is_zero : bool)
| CallDropGuard (g : Guard).

Inductive answer (K M W : Type) :=
| Answered
| AnsweredBool (b : bool)
| AnsweredContinue (r : result () M)
| AnsweredTimer (r : result () (K * M))
| AnsweredClear (r : result bool ())
| AnsweredOffload (r : result () (W * result M string))
| AnsweredGuard (r : result Guard (W * result M string))
| AnsweredUnwinds (payload : string).

(** User code. *)
Inductive Script (K M W A : Type) :=
| Gives (a : A)
| Raises (payload : string)
| Asks (c : call K M W) (k : answer K M W -> Script K M W A).
Arguments CallMarkReady {K M W}.
Arguments CallStop {K M W}.
Arguments CallIsDraining {K M W}.
Arguments CallContinueWith {K M W} m.
Arguments CallSetTimeout {K M W} k m after.
Arguments CallSetInterval {K M W} clone k m period.
Arguments CallClearTimer {K M W} k.
Arguments CallOffload {K M W} w elapsed budget_is_zero.
Arguments CallOffloadScoped {K M W} w elapsed budget_is_zero.
Arguments CallDropGuard {K M W} g.
Arguments Answered {K M W}.
Arguments AnsweredBool {K M W} b.
Arguments AnsweredContinue {K M W} r.
Arguments AnsweredTimer {K M W} r.
Arguments AnsweredClear {K M W} r.
Arguments AnsweredOffload {K M W} r.
Arguments AnsweredGuard {K M W} r.
Arguments AnsweredUnwinds {K M W} payload.
Arguments Gives {K M W A} a.
Arguments Raises {K M W A} payload.
Arguments Asks {K M W A} c k.

(** The [Actor] trait; [St] is the actor, [E] its errors.  [on_stop] has nothing
    to ask that an incarnation's resources depend on: it returns or panics. *)
Record ActorTrait (K M W Args St E : Type) := mkTrait
  { actor_init : Args -> Script K M W (result St E);
    actor_handle : M -> St -> Script K M W (result () E * St);
    actor_on_stop : St -> result () string }.
Arguments actor_init {K M W Args St E} _ _.
Arguments actor_handle {K M W Args St E} _ _ _.
Arguments actor_on_stop {K M W Args St E} _ _.

Section handler.
Context {K M B W Args St E : Type} `{!EqDecision K, !Inbox M B} {clock : Clock} (hash_key : K -> Z).
Context (drop_panics : Trash K M W -> option string) (cancel_panics : OffloadResource -> list string).
Context (join_panics : OffloadResource -> option string).
Context (L : Latches) (readiness : Readiness) (mailbox_shutdown : MailboxShutdown) (actor : ActorTrait K M W Args St E).
Local Abbreviation Prog := (Prog (Actor K M B W)).

(** ** The context *)

(** [Context::stop] in each stage. *)
Definition context_stop (stage : DeliveryStage) : Prog (result () string) :=
  match stage with
  | Initializing =>
      if bool_decide (readiness = AfterInit) then defer_stop_until_after_init drop_panics cancel_panics
      else stop drop_panics cancel_panics L
  | LiveStage => stop drop_panics cancel_panics L
  | DrainingFrozenPrefix => mret (Ok ())
  end.
Definition is_draining (stage : DeliveryStage) : bool := bool_decide (stage = DrainingFrozenPrefix).
Definition context_clear_timer (stage : DeliveryStage) (k : K) : Prog (result bool ()) :=
  if is_draining stage then mret (Err ()) else b ← clear_timer hash_key drop_panics k; mret (Ok b).

Definition perform (stage : DeliveryStage) (c : call K M W) : Prog (answer K M W) :=
  match c with
  | CallMarkReady => _ ← mark_ready L; mret Answered
  | CallStop =>
      r ← context_stop stage;
      mret (match r with Ok _ => Answered | Err payload => AnsweredUnwinds payload end)
  | CallIsDraining => mret (AnsweredBool (is_draining stage))
  | CallContinueWith m => r ← continue_with L m; mret (AnsweredContinue r)
  | CallSetTimeout k m after => r ← set_timeout hash_key drop_panics L k m after; mret (AnsweredTimer r)
  | CallSetInterval clone k m period =>
      r ← set_interval hash_key drop_panics L clone k m period; mret (AnsweredTimer r)
  | CallClearTimer k => r ← context_clear_timer stage k; mret (AnsweredClear r)
  | CallOffload w elapsed zero => r ← offload drop_panics L w elapsed zero; mret (AnsweredOffload r)
  | CallOffloadScoped w elapsed zero => r ← start_offload drop_panics L w elapsed zero; mret (AnsweredGuard r)
  | CallDropGuard g => _ ← drop_guard g; mret Answered
  end.

(** A callback: its value, or the panic that leaves it. *)
Fixpoint callback {A} (stage : DeliveryStage) (code : Script K M W A) : Prog (result A string) :=
  match code with
  | Gives a => mret (Ok a)
  | Raises payload => mret (Err payload)
  | Asks c k => a ← perform stage c; callback stage (k a)
  end.

(** ** The handler *)

Inductive HandlerState := Uninit (args : Args) | Running (st : St) | Spent.

(** What was called, in order. *)
Inductive HandlerEvent := Initialized | Handled (stage : DeliveryStage) (from : Source) (m : M) | StopCalled.

Inductive HandlerEnd := HandlerReturns (r : result () E) | HandlerUnwinds (payload : string) | HandlerWaits.

(** The context of [init] owns the initializer's boundary until it returns. *)
Definition initialize (args : Args) : Prog (result (result St E) string) :=
  r ← callback Initializing (actor_init actor args);
  match r with
  | Err payload => _ ← finish_callback_init L readiness false; mret (Err payload)
  | Ok initialized => mret (Ok initialized)
  end.

Definition fail_after_teardown (error : E) : Prog HandlerEnd :=
  _ ← freeze_resources drop_panics cancel_panics;
  _ ← join_offloads drop_panics join_panics;
  mret (HandlerReturns (Err error)).

Definition call_on_stop (st : St) : Prog (HandlerEnd * list HandlerEvent) :=
  mret (match actor_on_stop actor st with Ok _ => HandlerReturns (Ok ()) | Err payload => HandlerUnwinds payload end, [StopCalled]).

(** One delivery; [rest] continues after it. *)
Definition deliver (stage : DeliveryStage) (from : Source) (m : M) (st : St) (rest : St -> Prog (HandlerEnd * list HandlerEvent))
  : Prog (HandlerEnd * list HandlerEvent) :=
  handled ← callback stage (actor_handle actor m st);
  '(e, log) ← match handled with
              | Err payload => mret (HandlerUnwinds payload, [])
              | Ok (Err error, _) => e ← fail_after_teardown error; mret (e, [])
              | Ok (Ok _, st) => rest st
              end;
  mret (e, Handled stage from m :: log).

Fixpoint drain_loop (turns fuel : nat) (st : St) : Prog (HandlerEnd * list HandlerEvent) :=
  match fuel with
  | O => mret (HandlerWaits, [])
  | S fuel =>
      r ← try_recv drop_panics cancel_panics L turns;
      match r with
      | Receives from m => deliver DrainingFrozenPrefix from m st (drain_loop turns fuel)
      | ReceiveUnwinds payload => mret (HandlerUnwinds payload, [])
      | StillReceiving => mret (HandlerWaits, [])
      | ReceivesNone | AwaitsShutdown | Parks => call_on_stop st
      end
  end.

(** After the loop. *)
Definition wind_down (turns fuel : nat) (st : St) : Prog (HandlerEnd * list HandlerEvent) :=
  match mailbox_shutdown with
  | Drain => drain_loop turns fuel st
  | Discard => call_on_stop st
  end.

(** The shutdown token that [recv] awaits. *)
Fixpoint await_shutdown (fuel : nat) : Prog bool :=
  match fuel with
  | O => mret false
  | S fuel => down ← is_set (shutdown L); if down : bool then mret true else await_shutdown fuel
  end.

Fixpoint live_loop (turns fuel : nat) (st : St) : Prog (HandlerEnd * list HandlerEvent) :=
  match fuel with
  | O => mret (HandlerWaits, [])
  | S fuel =>
      r ← recv drop_panics cancel_panics L turns;
      match r with
      | Receives from m => deliver LiveStage from m st (live_loop turns fuel)
      | ReceivesNone => wind_down turns fuel st
      | ReceiveUnwinds payload => mret (HandlerUnwinds payload, [])
      | AwaitsShutdown =>
          down ← await_shutdown fuel;
          if down : bool then
            r ← recv_after_shutdown;
            match r with
            | ReceiveUnwinds payload => mret (HandlerUnwinds payload, [])
            | _ => wind_down turns fuel st
            end
          else mret (HandlerWaits, [])
      | Parks | StillReceiving => live_loop turns fuel st
      end
  end.

(** [Handler::run]. *)
Definition handler_run (turns fuel : nat) (h : HandlerState) : Prog (HandlerEnd * list HandlerEvent) :=
  match h with
  | Uninit args =>
      initialized ← initialize args;
      match initialized with
      | Err payload => mret (HandlerUnwinds payload, [])
      | Ok (Err error) =>
          _ ← finish_callback_init L readiness false;
          e ← fail_after_teardown error;
          mret (e, [])
      | Ok (Ok st) =>
          _ ← finish_callback_init L readiness true;
          '(e, log) ← live_loop turns fuel st;
          mret (e, Initialized :: log)
      end
  | Running _ | Spent => mret (HandlerUnwinds "handler actor initialization invoked more than once", [])
  end.
End handler.
Arguments HandlerState Args St : clear implicits.
Arguments HandlerEvent M : clear implicits.
Arguments HandlerEnd E : clear implicits.

(** ** What the steps keep *)

Section keeps.
Context {K M B W : Type}.
Context (drop_panics : Trash K M W -> option string) (cancel_panics : OffloadResource -> list string).
Local Abbreviation Actor := (Actor K M B W).
Implicit Types s : Actor.

(** Latches stay fired, and intake stays frozen. *)
Definition grows s s' : Prop := fired s ⊆ fired s' /\ (accepting s = false -> accepting s' = false).
Lemma tame_grows_refl s : grows s s.
Proof. by split. Qed.
Lemma tame_grows_trans s1 s2 s3 : grows s1 s2 -> grows s2 s3 -> grows s1 s3.
Proof. intros [? ?] [? ?]. split; [by etrans|auto]. Qed.
Lemma grows_same s s' : fired s' = fired s -> accepting s' = accepting s -> grows s s'.
Proof. unfold grows. by intros -> ->. Qed.

Definition tame {X} (p : Prog Actor X) : Prop := within grows p.
Lemma tame_done {X} (x : X) : tame (mret x : Prog Actor X).
Proof. done. Qed.
Lemma tame_bind {X Y} (p : Prog Actor X) (k : X -> Prog Actor Y) : tame p -> (forall x, tame (k x)) -> tame (p ≫= k).
Proof. apply within_bind. Qed.
Lemma tame_observe {X} (g : Actor -> X) : tame (observe g).
Proof. split; [|done]. intros s x s' [= <- <-]. apply tame_grows_refl. Qed.
Lemma tame_update (g : Actor -> Actor) : (forall s, grows s (g s)) -> tame (update g).
Proof. intros H. split; [|done]. intros s x s' [= <- <-]. apply H. Qed.
Lemma tame_owned {X} (g : Actor -> outcome (X * Actor)) : (forall s x s', g s = Ret (x, s') -> grows s s') -> tame (owned g).
Proof. intros H. split; [exact H|done]. Qed.

Lemma dispose_all_same l s : fired (dispose_all drop_panics l s) = fired s /\ accepting (dispose_all drop_panics l s) = accepting s.
Proof.
  revert s. induction l as [|x l IH]; intros s; simpl; [done|]. destruct (IH (dispose drop_panics x s)) as [-> ->].
  unfold dispose. by destruct (drop_panics x).
Qed.
Lemma grows_dispose_all l s s' : fired s' = fired s -> accepting s' = accepting s -> grows s (dispose_all drop_panics l s').
Proof. intros H1 H2. destruct (dispose_all_same l s') as [E1 E2]. apply grows_same; congruence. Qed.
Lemma grows_cancel o s : grows s (cancel_offload cancel_panics o s).
Proof using.
  unfold cancel_offload.
  match goal with |- grows _ (foldl _ ?x _) => assert (H : grows s x) by (split; [destruct (off_state o); repeat case_match; simpl; set_solver|destruct (off_state o); by repeat case_match]); revert H; generalize x end.
  induction (cancel_panics o) as [|p l IH]; intros x Hx; simpl; [done|]. apply IH. eapply tame_grows_trans; [exact Hx|]. by apply grows_same.
Qed.
End keeps.

(** Proves that code is tame, one step after another. *)
Ltac tame_step :=
  match goal with
  | |- tame (_ ≫= _) => apply tame_bind
  | |- tame (mret _) => apply tame_done
  | |- tame (observe _) => apply tame_observe
  | |- tame (is_set _) => apply tame_observe
  | |- tame (update _) => apply tame_update; intros ?; first [by apply grows_same | apply grows_cancel | by apply grows_dispose_all | idtac]
  | |- forall _, _ => intros ?
  | |- tame (match ?x with _ => _ end) => destruct x eqn:?
  | |- tame (if ?x then _ else _) => destruct x eqn:?
  end.

Section tames.
Context {K M B W : Type} `{!EqDecision K, !Inbox M B} {clock : Clock} (hash_key : K -> Z).
Context (drop_panics : Trash K M W -> option string) (cancel_panics : OffloadResource -> list string).
Context (join_panics : OffloadResource -> option string) (L : Latches) (readiness : Readiness).
Local Abbreviation Actor := (Actor K M B W).
Local Abbreviation tame := (tame (K := K) (M := M) (B := B) (W := W)).
Implicit Types s : Actor.

Lemma tame_fire l : tame (fire_latch l).
Proof. apply tame_update. intros s. split; simpl; [set_solver|done]. Qed.
Lemma tame_stopping : tame (is_stopping L).
Proof. unfold is_stopping. by repeat tame_step. Qed.
Lemma tame_rejects : tame (rejects_new_work L).
Proof. unfold rejects_new_work. repeat tame_step. apply tame_stopping. Qed.
Lemma tame_mark_ready : tame (mark_ready L).
Proof. unfold mark_ready. repeat tame_step; [apply tame_stopping|]. by destruct (_ =? _); apply grows_same. Qed.
Lemma tame_freeze_resources : tame (freeze_resources drop_panics cancel_panics).
Proof.
  unfold freeze_resources. repeat tame_step; [by split|..].
  - generalize x1. intros l. induction l as [|o l IH]; cbn [cancel_offloads]; by repeat tame_step.
Qed.
Lemma tame_freeze_intake : tame (freeze_intake drop_panics cancel_panics).
Proof.
  unfold freeze_intake. repeat tame_step; [|apply tame_freeze_resources].
  apply tame_owned. intros s x s' H. destruct (in_freeze _). simplify_eq. by apply grows_same.
Qed.
Lemma tame_stop : tame (stop drop_panics cancel_panics L).
Proof. unfold stop. repeat tame_step; [apply tame_freeze_intake|apply tame_fire]. Qed.
Lemma tame_defer : tame (defer_stop_until_after_init drop_panics cancel_panics).
Proof. unfold defer_stop_until_after_init. repeat tame_step. apply tame_freeze_intake. Qed.
Lemma tame_finish_init b : tame (finish_callback_init L readiness b).
Proof.
  unfold finish_callback_init. repeat tame_step; [|apply tame_mark_ready|apply tame_fire].
  apply tame_owned. intros s y s' [= <- <-]. by apply grows_same.
Qed.
Lemma tame_continue m : tame (continue_with L m).
Proof. unfold continue_with. repeat tame_step. apply tame_rejects. Qed.
Lemma tame_timers {X} (f : TimerStore K M -> outcome (X * list (Retired K M) * TimerStore K M)) :
  tame (owned (fun s => '(x, retired, ts) ← f (timers s); Ret (x, dispose_timers drop_panics retired (set_timers ts s)))).
Proof.
  apply tame_owned. intros s x s' H. apply bind_Ret_inv in H as ([[y retired] ts] & _ & [= <- <-]). by apply grows_dispose_all.
Qed.
Lemma tame_replace k m after : tame (replace_timer hash_key drop_panics k m after).
Proof.
  unfold replace_timer. repeat tame_step. apply tame_owned. intros s y s' H.
  apply bind_Ret_inv in H as ([[z retired] ts] & _ & [= <- <-]). by apply grows_dispose_all.
Qed.
Lemma tame_set_timeout k m after : tame (set_timeout hash_key drop_panics L k m after).
Proof. unfold set_timeout. repeat tame_step; [apply tame_rejects|apply tame_replace]. Qed.
Lemma tame_set_interval clone k m period : tame (set_interval hash_key drop_panics L clone k m period).
Proof.
  unfold set_interval. repeat tame_step; [apply tame_rejects| |apply tame_replace]. apply tame_owned. intros s y s' H.
  apply bind_Ret_inv in H as ([retired ts] & _ & [= <- <-]). by apply grows_dispose_all.
Qed.
Lemma tame_clear_timer k : tame (clear_timer hash_key drop_panics k).
Proof. apply (tame_timers (remove hash_key k)). Qed.
Lemma tame_new_latch : tame new_latch.
Proof. apply tame_owned. intros s y s' [= <- <-]. by apply grows_same. Qed.
Lemma tame_start_offload w e z : tame (start_offload drop_panics L w e z).
Proof.
  unfold start_offload. repeat tame_step; try apply tame_rejects; try apply tame_new_latch; try apply tame_fire.
  apply (grows_dispose_all drop_panics [TrashWork w]); done.
Qed.
Lemma tame_drop_guard g : tame (drop_guard g).
Proof. unfold drop_guard. repeat tame_step. apply tame_fire. Qed.
Lemma tame_offload w e z : tame (offload drop_panics L w e z).
Proof. unfold offload. repeat tame_step; [apply tame_start_offload|apply tame_drop_guard]. Qed.
Lemma tame_join_tasks l : tame (join_tasks join_panics l).
Proof.
  induction l as [|o l IH]; cbn [join_tasks]; repeat tame_step; [|done].
  by destruct (off_state o); [destruct (join_panics o)|]; apply grows_same.
Qed.
Lemma tame_join_offloads : tame (join_offloads drop_panics join_panics).
Proof. unfold join_offloads, clear_events. repeat tame_step. apply tame_join_tasks. Qed.

(** Selection. *)
Lemma tame_batch {X} (f : ReadyBatch -> Actor -> outcome (X * Actor)) :
  (forall b s x s', f b s = Ret (x, s') -> grows s s') -> tame (owned (fun s => b ← the_batch s; f b s)).
Proof. intros Hf. apply tame_owned. intros s x s' H. apply bind_Ret_inv in H as (b & _ & H). by eapply Hf. Qed.
Lemma tame_read_batch {X} (f : ReadyBatch -> X) : tame (owned (fun s => b ← the_batch s; Ret (f b, s))).
Proof. apply (tame_batch (fun b s => Ret (f b, s))). intros b s x s' [= <- <-]. apply tame_grows_refl. Qed.
Lemma tame_move_batch (f : ReadyBatch -> outcome ReadyBatch) (g : Actor -> Actor) :
  (forall s, fired (g s) = fired s /\ accepting (g s) = accepting s) ->
  tame (owned (fun s => b ← the_batch s; b ← f b; Ret ((), g (set_batch (Some b) s)))).
Proof.
  intros Hg. apply (tame_batch (fun b s => b ← f b; Ret ((), g (set_batch (Some b) s)))). intros b s x s' H.
  apply bind_Ret_inv in H as (b' & _ & [= <- <-]). destruct (Hg (set_batch (Some b') s)) as [E1 E2]. by apply grows_same.
Qed.
Lemma tame_pop_continuation lead : tame (owned (pop_continuation lead)).
Proof.
  apply tame_owned. intros s x s' H. apply bind_Ret_inv in H as (b & _ & H).
  destruct (_ && _); [|by simplify_eq; apply tame_grows_refl]. destruct (continuations s); [by simplify_eq; apply tame_grows_refl|].
  apply bind_Ret_inv in H as (b' & _ & [= <- <-]). by apply grows_same.
Qed.
Lemma tame_pop_event : tame (owned pop_batched_event).
Proof.
  apply tame_owned. intros s x s' H. apply bind_Ret_inv in H as (b & _ & H).
  destruct (offloads_remaining b); [by simplify_eq; apply tame_grows_refl|]. destruct (events s); [done|]. simplify_eq. by apply grows_same.
Qed.
Lemma tame_external e c : tame (external_work_is_ready e c).
Proof. unfold external_work_is_ready, accepted_now, watermark. by repeat tame_step. Qed.
Lemma tame_begin_batch : tame begin_ready_batch.
Proof.
  unfold begin_ready_batch, accepted_now, watermark. repeat tame_step.
  - apply tame_owned. intros s y s' H. destruct (take_due _ _). simplify_eq. by apply grows_same.
  - apply tame_owned. intros s y s' H. apply bind_Ret_inv in H as (b & _ & H). apply bind_Ret_inv in H as (b' & _ & [= <- <-]).
    by apply grows_same.
Qed.
Lemma tame_mailbox_stage : tame mailbox_stage.
Proof.
  unfold mailbox_stage. apply tame_bind; [apply tame_read_batch|]. intros b. repeat tame_step;
    try (apply (tame_move_batch record_mailbox_delivery (set_last false)); done).
  apply tame_owned. intros s y s' H. apply bind_Ret_inv in H as ([r inb] & _ & [= <- <-]). by apply grows_same.
Qed.
Lemma tame_offload_stage fuel : tame (offload_stage drop_panics fuel).
Proof.
  induction fuel as [|fuel IH]; cbn [offload_stage]; repeat tame_step; [apply tame_pop_event| |done].
  apply (grows_dispose_all drop_panics [TrashEvent q]); done.
Qed.
Lemma tame_timer_stage fuel : tame (timer_stage drop_panics fuel).
Proof.
  induction fuel as [|fuel IH]; cbn [timer_stage]; [done|]. apply tame_bind; [apply (tame_read_batch next_arming)|]. intros a.
  repeat tame_step; try (by apply (tame_move_batch (commit_arming z) id)); try done.
  apply (tame_timers (deliver_due z x)).
Qed.
Lemma tame_next_turn : tame next_turn.
Proof.
  unfold next_turn. apply tame_bind; [apply (tame_batch (fun b s => Ret (b, set_batch None s))); intros b s x s' [= <- <-]; by apply grows_same|].
  intros b. repeat tame_step. apply tame_external.
Qed.
Lemma tame_resume : tame resume_pending_panic.
Proof. apply tame_owned. intros s y s' [= <- <-]. by apply grows_same. Qed.
Lemma tame_selection_turn : tame (selection_turn drop_panics).
Proof.
  unfold selection_turn, arbitrate, settle_turn, refresh_turn. repeat (tame_step || apply tame_resume || apply tame_begin_batch || apply tame_pop_continuation ||
    apply tame_mailbox_stage || apply tame_read_batch || apply tame_offload_stage || apply tame_external || apply tame_timer_stage || apply tame_next_turn).
Qed.
Lemma tame_next_ready turns : tame (next_ready drop_panics turns).
Proof.
  unfold next_ready, select_ready. repeat tame_step; try apply tame_resume.
  - induction turns as [|turns IH]; cbn [selection_loop]; repeat tame_step; [apply tame_selection_turn|done].
  - apply (grows_dispose_all drop_panics [TrashMessage m]); done.
Qed.
Lemma tame_ends : tame ends_receive.
Proof. unfold ends_receive. repeat tame_step. apply tame_resume. Qed.
Lemma tame_recv turns : tame (recv drop_panics cancel_panics L turns).
Proof. unfold recv. repeat (tame_step || apply tame_freeze_intake || apply tame_ends || apply tame_next_ready). Qed.
Lemma tame_try_recv turns : tame (try_recv drop_panics cancel_panics L turns).
Proof.
  unfold try_recv. repeat (tame_step || apply tame_freeze_intake || apply tame_resume || apply tame_next_ready || apply tame_stopping).
  apply tame_owned. intros s y s' H. apply bind_Ret_inv in H as ([r' inb] & _ & [= <- <-]). by apply grows_same.
Qed.
End tames.

(** ** The contract of a run *)

Section contract.
Context {K M B W Args St E : Type} `{!EqDecision K, !Inbox M B, !InboxLaws M B} {clock : Clock} (hash_key : K -> Z).
Context (drop_panics : Trash K M W -> option string) (cancel_panics : OffloadResource -> list string).
Context (join_panics : OffloadResource -> option string).
Context (L : Latches) (readiness : Readiness) (mailbox_shutdown : MailboxShutdown) (actor : ActorTrait K M W Args St E).
Local Abbreviation Actor := (Actor K M B W).
Local Abbreviation sane := (sane hash_key).
Implicit Types s : Actor.

Local Abbreviation wp := (wp others (fun _ => False) spent).
(** What holds if code returns. *)
Local Abbreviation wlp := (Interleave.wp others (fun _ => True) (fun _ => True)).

Lemma wlp_true {X} (p : Prog Actor X) s : wlp p (fun _ _ => True) s.
Proof. revert s. induction p as [x|Y f k IH]; intros s; simpl; [done|]. intros s1 _. destruct (f s1) as [[y s2]| |]; auto. Qed.
Lemma wp_also {X} (p : Prog Actor X) (Q Q' : X -> Actor -> Prop) s : wp p Q s -> wlp p Q' s -> wp p (fun x s' => Q x s' /\ Q' x s') s.
Proof.
  revert s. induction p as [x|Y f k IH]; intros s; simpl; [done|]. intros H H' s1 Hs. specialize (H s1 Hs). specialize (H' s1 Hs).
  destruct (f s1) as [[y s2]| |]; [|done..]. by apply IH.
Qed.
Lemma others_grows s s' : others s s' -> grows s s'.
Proof. intros [_ _ Hf _ _ Ho]. injection Ho as Ha _ _ _ _ _ _ _ _. split; [done|by rewrite Ha]. Qed.

(** Facts that latches and the frozen intake keep. *)
Definition lasting (I : Actor -> Prop) : Prop := forall s s', grows s s' -> I s -> I s'.
Lemma wlp_lasting (I : Actor -> Prop) {X} (p : Prog Actor X) Q s : lasting I -> tame p -> I s -> wlp p Q s -> wlp p (fun x s' => Q x s' /\ I s') s.
Proof. intros HI Hp Hs. apply (wp_frame _ _ _ grows); [intros s1 s2 Ho; apply HI; by apply others_grows|exact HI|done|done]. Qed.
Lemma wp_lasting (I : Actor -> Prop) {X} (p : Prog Actor X) Q s : lasting I -> tame p -> I s -> wp p Q s -> wp p (fun x s' => Q x s' /\ I s') s.
Proof. intros HI Hp Hs. apply (wp_frame _ _ _ grows); [intros s1 s2 Ho; apply HI; by apply others_grows|exact HI|done|done]. Qed.
Lemma wlp_kept (I : Actor -> Prop) {X} (p : Prog Actor X) s : lasting I -> tame p -> I s -> wlp p (fun _ => I) s.
Proof. intros HI Hp Hs. eapply wp_weaken; [apply (wlp_lasting I); [done..|apply wlp_true]|]. by intros x s' [_ ?]. Qed.
Lemma lasting_fired l : lasting (fun s => l ∈ fired s).
Proof. intros s s' [Hf _]. set_solver. Qed.
Lemma lasting_frozen : lasting (fun s => accepting s = false).
Proof. by intros s s' [_ ?]. Qed.

(** Reads and writes, after the interference of others. *)
Lemma wlp_is_set l (Q : bool -> Actor -> Prop) s :
  (forall s1, grows s s1 -> l ∈ fired s1 -> Q true s1) -> (forall s1, grows s s1 -> l ∉ fired s1 -> Q false s1) -> wlp (is_set l) Q s.
Proof.
  intros Ht Hf. apply wp_atom. intros s1 Hs%others_rtc%others_grows. simpl. case_bool_decide; auto.
Qed.

Lemma freeze_resources_frozen s : wlp (freeze_resources drop_panics cancel_panics) (fun _ s' => accepting s' = false) s.
Proof.
  unfold freeze_resources. apply wp_seq, wp_atom. intros s1 _. destruct (accepting s1) eqn:Ha; cbn [negb]; [|by apply wp_done].
  apply wp_seq, wp_atom. intros s2 _. apply (wlp_kept _ _ _ lasting_frozen); [|done].
  repeat tame_step. generalize x. intros l. induction l as [|o l IH]; cbn [cancel_offloads]; by repeat tame_step.
Qed.
Lemma freeze_intake_frozen s :
  wlp (freeze_intake drop_panics cancel_panics) (fun r s' => forall u, r = Ok u -> accepting s' = false) s.
Proof.
  unfold freeze_intake. apply wp_seq. eapply wp_weaken; [apply wlp_true|]. intros r s1 _. destruct r; [|by apply wp_done].
  apply wp_seq. eapply wp_weaken; [apply freeze_resources_frozen|]. intros [] s2 H. apply wp_done. by intros u.
Qed.

(** *** Receives *)

Lemma recv_facts turns s :
  wlp (recv drop_panics cancel_panics L turns) (fun r s' =>
    match r with
    | ReceivesNone => shutdown L ∈ fired s' /\ accepting s' = false
    | AwaitsShutdown => accepting s' = false
    | _ => True
    end) s.
Proof.
  unfold recv. apply wp_seq, wlp_is_set; intros s1 _ _.
  - apply wp_seq. eapply wp_weaken; [apply freeze_intake_frozen|]. intros [u|p] s2 H; apply wp_done; [|done]. by apply (H u).
  - apply wp_seq, wlp_is_set; intros s2 _ Hd.
    + apply wp_seq. eapply wp_weaken; [eapply (wlp_lasting _ _ _ _ (lasting_fired (shutdown L)) (tame_freeze_intake _ _) Hd), freeze_intake_frozen|].
      intros [u|p] s3 [Hf Hs]; [|by apply wp_done]. specialize (Hf u eq_refl). unfold ends_receive. apply wp_seq.
      eapply wp_weaken; [apply (wlp_lasting (fun s => shutdown L ∈ fired s /\ accepting s = false)); [|apply tame_resume|done|apply wlp_true]|].
      { intros ? ? [? ?] [? ?]. split; [set_solver|auto]. }
      intros q s4 [_ ?]. apply wp_done. by destruct q.
    + apply wp_seq. eapply wp_weaken; [apply wlp_true|]. intros [] s3 _; [by apply wp_done| |by apply wp_done..].
      apply wp_seq. eapply wp_weaken; [apply wlp_true|]. intros [] s4 _. by apply wp_done.
Qed.

Lemma stopping_observed s : shutdown L ∈ fired s -> wlp (is_stopping L) (fun b _ => b = true) s.
Proof.
  intros Hs. unfold is_stopping. apply wp_seq, wp_atom. intros s1 Hk%others_rtc%others_grows. cbn beta iota.
  destruct (deferred_init_stop s1); [by apply wp_done|].
  apply wp_seq, wlp_is_set; intros s2 Hg _; [by apply wp_done|]. apply wp_seq, wlp_is_set; intros s3 Hg' Hn; [by apply wp_done|].
  destruct Hn. destruct Hk, Hg, Hg'. set_solver.
Qed.

Lemma try_recv_facts turns s :
  shutdown L ∈ fired s ->
  wlp (try_recv drop_panics cancel_panics L turns) (fun r s' =>
    match r with
    | Receives from _ => from = FromMailbox
    | ReceivesNone | AwaitsShutdown | Parks => accepting s' = false
    | _ => True
    end) s.
Proof.
  intros Hs. unfold try_recv. apply wp_seq. eapply wp_weaken; [by apply stopping_observed|]. intros b s1 ->. cbn beta iota.
  apply wp_seq. eapply wp_weaken; [apply freeze_intake_frozen|]. intros [u|p] s2 Hf; [|by apply wp_done]. specialize (Hf u eq_refl).
  apply wp_seq. eapply wp_weaken; [apply (wlp_kept _ _ _ lasting_frozen tame_resume Hf)|]. intros [p|] s3 H3; [by apply wp_done|].
  apply wp_seq. eapply wp_weaken; [apply (wlp_kept _ _ _ lasting_frozen); [|exact H3]|].
  - apply tame_owned. intros s4 y s' H. apply bind_Ret_inv in H as ([r' inb] & _ & [= <- <-]). by apply grows_same.
  - intros [[m|]|p] s4 H4; by apply wp_done.
Qed.

(** *** Sanity of callbacks *)

Lemma serve_part {X} (p : Prog Actor X) q s :
  serve hash_key drop_panics cancel_panics L readiness q = (_ ← p; mret None) -> sane s -> wp p (fun _ s' => sane s') s.
Proof.
  intros Hq Hs. pose proof (serve_sane hash_key drop_panics cancel_panics L readiness q s Hs) as H. rewrite Hq in H.
  by apply wp_unseq in H.
Qed.
Lemma wp_answer {X Y} (p : Prog Actor X) (k : X -> Y) s :
  wp p (fun _ s' => sane s') s -> wp (x ← p; mret (k x)) (fun _ s' => sane s') s.
Proof. intros H. apply wp_seq. eapply wp_weaken; [exact H|]. intros x s' Hs. by apply wp_done. Qed.

Lemma perform_sane stage c s : sane s -> wp (perform hash_key drop_panics cancel_panics L readiness stage c) (fun _ s' => sane s') s.
Proof.
  intros Hs. destruct c; cbn [perform].
  - apply wp_answer. by apply (serve_part _ MarkReady).
  - apply wp_answer. unfold context_stop. destruct stage; [case_bool_decide|..]; [by apply (serve_part _ DeferStop)| | |done];
      by apply (serve_part _ Stop).
  - done.
  - apply wp_answer. by apply (serve_part _ (ContinueWith m)).
  - apply wp_answer. by apply (serve_part _ (SetTimeout k m after)).
  - apply wp_answer. by apply (serve_part _ (SetInterval clone k m period)).
  - apply wp_answer. unfold context_clear_timer. destruct (is_draining stage); [done|]. apply wp_answer. by apply (serve_part _ (ClearTimer k)).
  - apply wp_answer. unfold offload. apply wp_seq. eapply wp_weaken; [by apply (serve_part _ (StartOffload w elapsed budget_is_zero))|].
    intros [g|?] s1 H1; [|by apply wp_done]. apply wp_answer. by apply (serve_part _ (DropGuard (detach g))).
  - apply wp_answer. by apply (serve_part _ (StartOffload w elapsed budget_is_zero)).
  - apply wp_answer. by apply (serve_part _ (DropGuard g)).
Qed.
Lemma perform_tame stage c : tame (perform hash_key drop_panics cancel_panics L readiness stage c : Prog Actor _).
Proof.
  destruct c; cbn [perform]; unfold context_stop, context_clear_timer;
    repeat (tame_step || apply tame_mark_ready || apply tame_defer || apply tame_stop || apply tame_continue || apply tame_set_timeout ||
      apply tame_set_interval || apply tame_clear_timer || apply tame_offload || apply tame_start_offload || apply tame_drop_guard).
Qed.

Local Abbreviation callback := (callback hash_key drop_panics cancel_panics L readiness).
Lemma callback_tame {A} stage (code : Script K M W A) : tame (callback stage code : Prog Actor _).
Proof. induction code as [a|p|c k IH]; cbn [Handler.callback]; repeat tame_step; [apply perform_tame|apply IH]. Qed.
Lemma callback_sane {A} stage (code : Script K M W A) s : sane s -> wp (callback stage code) (fun _ s' => sane s') s.
Proof.
  revert s. induction code as [a|p|c k IH]; intros s Hs; [done..|]. cbn [Handler.callback]. apply wp_seq.
  eapply wp_weaken; [by apply perform_sane|]. intros a s' H. by apply IH.
Qed.
(** A callback keeps what lasts. *)
Lemma callback_keeps {A} (I : Actor -> Prop) stage (code : Script K M W A) s :
  lasting I -> sane s -> I s -> wp (callback stage code) (fun _ s' => sane s' /\ I s') s.
Proof. intros HI Hs Hi. apply wp_lasting; [done|apply callback_tame|done|by apply callback_sane]. Qed.

(** Code whose steps all return. *)
Fixpoint harmless {X} (p : Prog Actor X) : Prop :=
  match p with
  | Pure _ => True
  | Atom f k => (forall s, exists x s', f s = Ret (x, s')) /\ forall x, harmless (k x)
  end.
Lemma harmless_bind {X Y} (p : Prog Actor X) (k : X -> Prog Actor Y) : harmless p -> (forall x, harmless (k x)) -> harmless (p ≫= k).
Proof. intros Hp Hk. induction p as [a|Z f next IH]; [apply Hk|]. destruct Hp as [Hf Hn]. split; [done|]. intros x. apply IH, Hn. Qed.
Lemma harmless_update g : harmless (update g).
Proof. split; [|done]. intros s. by eexists _, _. Qed.
Lemma harmless_observe {X} (g : Actor -> X) : harmless (observe g).
Proof. split; [|done]. intros s. by eexists _, _. Qed.
Lemma wp_harmless {X} (p : Prog Actor X) Q s : harmless p -> wlp p Q s -> wp p Q s.
Proof.
  revert s. induction p as [x|Y f k IH]; intros s; simpl; [done|]. intros [Hf Hk] H s1 Hs. specialize (H s1 Hs).
  destruct (Hf s1) as (y & s2 & E2). rewrite E2 in *. by apply IH.
Qed.

Local Abbreviation fail_after_teardown := (fail_after_teardown (E := E) drop_panics cancel_panics join_panics).
Lemma fail_harmless e : harmless (fail_after_teardown e : Prog Actor _).
Proof.
  unfold Handler.fail_after_teardown, freeze_resources, join_offloads, clear_events.
  repeat first [apply harmless_bind | apply harmless_update | apply harmless_observe | done | intros ?
    | match goal with |- harmless (if ?b then _ else _) => destruct b end
    | match goal with |- harmless (cancel_offloads _ ?l) => induction l; cbn [cancel_offloads] end
    | match goal with |- harmless (join_tasks _ ?l) => induction l; cbn [join_tasks] end].
Qed.
Lemma fail_tame e : tame (fail_after_teardown e : Prog Actor _).
Proof. unfold Handler.fail_after_teardown. repeat tame_step; [apply tame_freeze_resources|apply tame_join_offloads]. Qed.
Lemma fail_spec e s :
  wp (fail_after_teardown e) (fun r s' => r = HandlerReturns (Err e) /\ accepting s' = false /\ offloads s' = []) s.
Proof.
  apply wp_harmless; [apply fail_harmless|]. unfold Handler.fail_after_teardown. apply wp_seq.
  eapply wp_weaken; [apply freeze_resources_frozen|]. intros [] s1 H1. apply wp_seq. unfold join_offloads.
  apply wp_seq. eapply wp_weaken; [apply (wlp_kept _ _ _ lasting_frozen (tame_observe _) H1)|]. intros l s2 H2.
  apply wp_seq. eapply wp_weaken; [apply (wlp_kept _ _ _ lasting_frozen (tame_join_tasks _ _) H2)|].
  intros [] s3 H3. apply wp_seq. eapply wp_weaken; [apply (wlp_kept _ _ _ lasting_frozen); [|exact H3]; unfold clear_events; by repeat tame_step|].
  intros [] s4 H4. apply wp_atom. intros s5 Hs%others_rtc%others_grows. simpl. split_and!; [done|by apply Hs|done].
Qed.

(** *** Loops *)

(** How a run ends after its deliveries: [tail] is what is called last. *)
Definition closes (e : HandlerEnd E) (tail : list (HandlerEvent M)) s : Prop :=
  match e with
  | HandlerReturns (Ok _) => tail = [StopCalled] /\ accepting s = false
  | HandlerReturns (Err _) => tail = [] /\ accepting s = false /\ offloads s = []
  | HandlerUnwinds _ => tail = [] \/ tail = [StopCalled]
  | HandlerWaits => tail = []
  end.
Definition is_live (ev : HandlerEvent M) : Prop := exists from m, ev = Handled LiveStage from m.
Definition is_drained (ev : HandlerEvent M) : Prop := exists m, ev = Handled DrainingFrozenPrefix FromMailbox m.

Definition drain_contract (r : HandlerEnd E * list (HandlerEvent M)) s : Prop :=
  shutdown L ∈ fired s /\ exists drained tail, r.2 = drained ++ tail /\ Forall is_drained drained /\ closes r.1 tail s.
Definition live_contract (r : HandlerEnd E * list (HandlerEvent M)) s : Prop :=
  exists live drained tail, r.2 = live ++ drained ++ tail /\ Forall is_live live /\ Forall is_drained drained /\
    (mailbox_shutdown = Discard -> drained = []) /\ closes r.1 tail s /\ (drained ++ tail <> [] -> shutdown L ∈ fired s).

Local Abbreviation Loop := (Prog Actor (HandlerEnd E * list (HandlerEvent M))).
Local Abbreviation deliver := (deliver (B := B) hash_key drop_panics cancel_panics join_panics L readiness actor).

(** A delivery, then the rest. *)
Lemma deliver_spec (I : Actor -> Prop) (C : HandlerEnd E * list (HandlerEvent M) -> Actor -> Prop) stage from m st (rest : St -> Loop) s :
  lasting I -> sane s -> I s ->
  (forall e s', I s' -> closes e [] s' -> C (e, []) s') ->
  (forall st s', sane s' -> I s' -> wp (rest st) C s') ->
  wp (deliver stage from m st rest) (fun r s' => exists log, r = (r.1, Handled stage from m :: log) /\ C (r.1, log) s') s.
Proof.
  intros HI Hs Hi Hbase Hrest. unfold Handler.deliver. apply wp_seq. eapply wp_weaken; [by apply callback_keeps|].
  intros handled s1 [H1 Hi1]. apply wp_seq. apply (wp_weaken _ _ _ _ C).
  - destruct handled as [[[u|error] st']|payload].
    + by apply Hrest.
    + apply wp_seq. eapply wp_weaken; [apply (wp_lasting I); [done|apply fail_tame|done|apply fail_spec]|].
      intros e s2 [(-> & ? & ?) Hi2]. apply wp_done. by apply Hbase.
    + apply wp_done. apply Hbase; [done|]. by left.
  - intros [e log] s2 H2. apply wp_done. by exists log.
Qed.

Lemma call_on_stop_spec st s : accepting s = false ->
  wp (call_on_stop actor st : Loop) (fun r s' => exists tail, r.2 = tail /\ closes r.1 tail s') s.
Proof. intros Ha. apply wp_done. eexists. split; [done|]. simpl. destruct (actor_on_stop actor st); simpl; auto. Qed.

Lemma try_recv_sane turns s : sane s -> wp (try_recv drop_panics cancel_panics L turns) (fun _ s' => sane s') s.
Proof. intros Hs. pose proof (serve_sane hash_key drop_panics cancel_panics L readiness (TryRecv turns) s Hs) as H. by apply wp_unseq in H. Qed.
Lemma recv_sane turns s : sane s -> wp (recv drop_panics cancel_panics L turns) (fun _ s' => sane s') s.
Proof. intros Hs. pose proof (serve_sane hash_key drop_panics cancel_panics L readiness (Recv turns) s Hs) as H. by apply wp_unseq in H. Qed.

Lemma stops_drain st s : accepting s = false -> shutdown L ∈ fired s -> wp (call_on_stop actor st : Loop) drain_contract s.
Proof.
  intros Ha Hd. eapply wp_weaken; [apply wp_also; [by apply call_on_stop_spec|by apply (wlp_kept _ _ _ (lasting_fired (shutdown L)))]|].
  intros [e log] s' [(tail & Ht & Hc) Hd']. split; [done|]. exists [], tail. by split_and!.
Qed.
Lemma drain_loop_spec turns fuel st s :
  sane s -> shutdown L ∈ fired s ->
  wp (drain_loop hash_key drop_panics cancel_panics join_panics L readiness actor turns fuel st) drain_contract s.
Proof.
  revert st s. induction fuel as [|fuel IH]; intros st s Hs Hd; cbn [drain_loop]; [apply wp_done; split; [done|]; by exists [], []|].
  apply wp_seq. eapply wp_weaken; [apply wp_also; [eapply (wp_lasting _ _ _ _ (lasting_fired (shutdown L)) (tame_try_recv _ _ _ _) Hd), try_recv_sane, Hs|by apply try_recv_facts]|].
  assert (Hbase : forall e s', shutdown L ∈ fired s' -> closes e [] s' -> drain_contract (e, []) s').
  { intros e s' ? ?. split; [done|]. by exists [], []. }
  intros r s1 [[H1 Hd1] Hf]. destruct r as [from m| |payload| | |].
  - subst from. eapply wp_weaken; [apply (deliver_spec (fun s => shutdown L ∈ fired s) drain_contract); [apply lasting_fired|exact H1|exact Hd1|done|by auto]|].
    intros [e log'] s2 (log & [= ->] & Hd2 & drained & tail & Hl & Hdr & Hc). split; [done|].
    exists (Handled DrainingFrozenPrefix FromMailbox m :: drained), tail. simpl in *. rewrite Hl. split_and!; [done| |done].
    constructor; [by eexists|done].
  - by apply stops_drain.
  - apply wp_done, Hbase; [done|by left].
  - by apply stops_drain.
  - by apply stops_drain.
  - by apply wp_done, Hbase.
Qed.

Lemma wind_down_spec turns fuel st s :
  sane s -> accepting s = false -> shutdown L ∈ fired s ->
  wp (wind_down hash_key drop_panics cancel_panics join_panics L readiness mailbox_shutdown actor turns fuel st) live_contract s.
Proof.
  intros Hs Ha Hd. unfold wind_down. destruct mailbox_shutdown eqn:Em.
  - eapply wp_weaken; [by apply drain_loop_spec|]. intros [e log] s' (? & drained & tail & ? & ? & ?).
    exists [], drained, tail. split_and!; [done..|by rewrite Em|done|done].
  - eapply wp_weaken; [apply wp_also; [by apply call_on_stop_spec|by apply (wlp_kept _ _ _ (lasting_fired (shutdown L)))]|].
    intros [e log] s' [(tail & Ht & Hc) Hd']. exists [], [], tail. by split_and!.
Qed.

Lemma await_shutdown_facts fuel s : wlp (await_shutdown L fuel) (fun b s' => b = true -> shutdown L ∈ fired s') s.
Proof.
  revert s. induction fuel as [|fuel IH]; intros s; cbn [await_shutdown]; [by apply wp_done|]. apply wp_seq, wlp_is_set; intros s1 _ H.
  - by apply wp_done.
  - apply IH.
Qed.
Lemma await_shutdown_tame fuel : tame (await_shutdown L fuel : Prog Actor _).
Proof. induction fuel as [|fuel IH]; cbn [await_shutdown]; by repeat tame_step. Qed.
Lemma await_shutdown_sane fuel s : sane s -> wp (await_shutdown L fuel) (fun _ s' => sane s') s.
Proof.
  revert s. induction fuel as [|fuel IH]; intros s Hs; cbn [await_shutdown]; [done|]. apply wp_seq, wp_atom. intros s1 Ho%others_rtc. simpl.
  pose proof (others_sane _ _ _ Ho Hs). case_bool_decide; [done|by apply IH].
Qed.

Local Abbreviation live_loop := (live_loop hash_key drop_panics cancel_panics join_panics L readiness mailbox_shutdown actor).
Lemma live_base e s : closes e [] s -> live_contract (e, []) s.
Proof. intros H. by exists [], [], []. Qed.
Lemma live_loop_spec turns fuel st s : sane s -> wp (live_loop turns fuel st) live_contract s.
Proof.
  revert st s. induction fuel as [|fuel IH]; intros st s Hs; cbn [Handler.live_loop]; [by apply wp_done, live_base|].
  apply wp_seq. eapply wp_weaken; [apply wp_also; [by apply recv_sane|apply recv_facts]|].
  intros r s1 [H1 Hf]. destruct r as [from m| |payload| | |].
  - eapply wp_weaken; [apply (deliver_spec (fun _ => True) live_contract); [done|exact H1|done|by auto using live_base|by auto]|].
    intros [e log'] s2 (log & [= ->] & live & drained & tail & Hl & Hlv & ?). exists (Handled LiveStage from m :: live), drained, tail.
    simpl in *. rewrite Hl. split_and!; [done| |naive_solver..]. constructor; [by eexists _, _|done].
  - destruct Hf. by apply wind_down_spec.
  - apply wp_done, live_base. by left.
  - apply wp_seq. eapply wp_weaken; [apply wp_also; [eapply (wp_lasting _ _ _ _ lasting_frozen (await_shutdown_tame _) Hf), await_shutdown_sane, H1|apply await_shutdown_facts]|].
    intros [] s2 [[H2 Ha2] Hd]; [specialize (Hd eq_refl)|by apply wp_done, live_base].
    apply wp_seq. assert (Ht : tame (recv_after_shutdown : Prog Actor (Receive M))) by apply tame_ends.
    eapply wp_weaken; [apply (wp_lasting (fun s => shutdown L ∈ fired s /\ accepting s = false) recv_after_shutdown (fun _ => sane)); [|exact Ht|done|]|].
    + intros ? ? [? ?] [? ?]. split; [set_solver|auto].
    + pose proof (serve_sane hash_key drop_panics cancel_panics L readiness RecvAfterShutdown s2 H2) as H. by apply wp_unseq in H.
    + intros r s3 [H3 [? ?]]. destruct r; [|by apply wind_down_spec| |by apply wind_down_spec..]; [by apply wind_down_spec|].
      apply wp_done, live_base. by left.
  - by apply IH.
  - by apply IH.
Qed.

(** *** After shutdown *)

Lemma recv_ends turns s :
  shutdown L ∈ fired s ->
  wlp (recv drop_panics cancel_panics L turns) (fun r _ =>
    match r with ReceivesNone | AwaitsShutdown | ReceiveUnwinds _ => True | _ => False end) s.
Proof.
  intros Hs. unfold recv. apply wp_seq, wlp_is_set; intros s1 Hg _.
  - apply wp_seq. eapply wp_weaken; [apply wlp_true|]. intros [u|p] s2 _; by apply wp_done.
  - apply wp_seq, wlp_is_set; intros s2 Hg' Hn; [|destruct Hn, Hg, Hg'; set_solver].
    apply wp_seq. eapply wp_weaken; [apply wlp_true|]. intros [u|p] s3 _; [|by apply wp_done]. unfold ends_receive.
    apply wp_seq. eapply wp_weaken; [apply wlp_true|]. intros [q|] s4 _; by apply wp_done.
Qed.
Lemma live_loop_ends turns fuel st s :
  mailbox_shutdown = Discard -> shutdown L ∈ fired s -> wlp (live_loop turns (S (S fuel)) st) (fun r _ => r.1 <> HandlerWaits) s.
Proof.
  intros Em Hs. assert (Hstop : forall s, wlp (call_on_stop actor st : Loop) (fun r _ => r.1 <> HandlerWaits) s).
  { intros s1. apply wp_done. simpl. by destruct (actor_on_stop actor st). }
  remember (S fuel) as n eqn:En. cbn [Handler.live_loop]. unfold wind_down. rewrite Em. apply wp_seq.
  eapply wp_weaken; [eapply (wlp_lasting _ _ _ _ (lasting_fired (shutdown L)) (tame_recv _ _ _ _) Hs), recv_ends, Hs|].
  intros [] s1 [? H1]; try done. apply wp_seq. subst n. cbn [await_shutdown]. apply wp_seq, wlp_is_set; intros s2 Hg Hn.
  - apply wp_done. apply wp_seq. eapply wp_weaken; [apply wlp_true|]. intros r3 s3 _. destruct r3; first [by apply Hstop | by apply wp_done].
  - destruct Hn, Hg. set_solver.
Qed.

(** *** A run *)

Definition handler_contract (e : HandlerEnd E) (log : list (HandlerEvent M)) s : Prop :=
  match log with
  | [] => closes e [] s /\ e <> HandlerWaits
  | Initialized :: log => live_contract (e, log) s
  | _ => False
  end.

Local Abbreviation handler_run := (handler_run hash_key drop_panics cancel_panics join_panics L readiness mailbox_shutdown actor).
Lemma finish_init_sane b s : sane s -> wp (finish_callback_init L readiness b) (fun _ s' => sane s') s.
Proof. by apply (serve_part _ (FinishInit b)). Qed.
Lemma initialize_sane args s :
  sane s -> wp (initialize hash_key drop_panics cancel_panics L readiness actor args) (fun _ s' => sane s') s.
Proof.
  intros Hs. unfold initialize. apply wp_seq. eapply wp_weaken; [by apply callback_sane|]. intros [i|p] s1 H1; [done|].
  apply wp_answer. by apply finish_init_sane.
Qed.
Lemma handler_run_spec turns fuel args s : sane s -> wp (handler_run turns fuel (Uninit args)) (fun r => handler_contract r.1 r.2) s.
Proof.
  intros Hs. cbn [Handler.handler_run]. apply wp_seq. eapply wp_weaken; [by apply initialize_sane|].
  intros [[st|error]|payload] s1 H1; [| |apply wp_done; split; [by left|done]].
  - apply wp_seq. eapply wp_weaken; [by apply finish_init_sane|]. intros [] s2 H2. apply wp_seq.
    eapply wp_weaken; [by apply live_loop_spec|]. intros [e log] s3 H3. by apply wp_done.
  - apply wp_seq. eapply wp_weaken; [by apply finish_init_sane|]. intros [] s2 H2. apply wp_seq.
    eapply wp_weaken; [apply fail_spec|]. intros e s3 (-> & ? & ?). by apply wp_done.
Qed.
Lemma handler_run_ends turns fuel args s :
  mailbox_shutdown = Discard -> shutdown L ∈ fired s -> wlp (handler_run turns (S (S fuel)) (Uninit args)) (fun r _ => r.1 <> HandlerWaits) s.
Proof.
  intros Em Hs. cbn [Handler.handler_run]. apply wp_seq.
  assert (Hi : tame (initialize hash_key drop_panics cancel_panics L readiness actor args : Prog Actor _)).
  { unfold initialize. repeat tame_step; [apply callback_tame|apply tame_finish_init]. }
  eapply wp_weaken; [apply (wlp_kept _ _ _ (lasting_fired (shutdown L)) Hi Hs)|]. intros [[st|error]|payload] s1 H1; [| |by apply wp_done].
  - apply wp_seq. eapply wp_weaken; [apply (wlp_kept _ _ _ (lasting_fired (shutdown L)) (tame_finish_init _ _ _) H1)|]. intros [] s2 H2.
    apply wp_seq. eapply wp_weaken; [by apply live_loop_ends|]. intros [e log] s3 H3. by apply wp_done.
  - apply wp_seq. eapply wp_weaken; [apply wlp_true|]. intros [] s2 _. unfold Handler.fail_after_teardown. apply wp_seq, wp_seq.
    eapply wp_weaken; [apply wlp_true|]. intros [] s3 _. apply wp_seq. eapply wp_weaken; [apply wlp_true|]. intros [] s4 _. by apply wp_done.
Qed.
End contract.

(** C31: The handler loop keeps the callback protocol, whatever the callbacks ask
    of their context and other threads do in between.  Nothing is handled before
    [init] succeeded; live deliveries precede those of the frozen prefix, which
    come from the mailbox, only under the drain policy and only after shutdown;
    [on_stop] is called last, at most once, only after shutdown, and never after
    a callback failed.  A run that returns normally has called it with intake
    frozen; one that returns an error has its resources frozen and its offloads
    joined.  No assertion fails; and under the discard policy a run that finds
    shutdown requested ends. *)
Theorem handler_callback_protocol {K M B W Args St E} `{!EqDecision K, !Inbox M B, !InboxLaws M B} {clock : Clock} (hash_key : K -> Z)
    (drop_panics : Trash K M W -> option string) cancel_panics join_panics (L : Latches) readiness mailbox_shutdown
    (actor : ActorTrait K M W Args St E) turns fuel args (s : Actor K M B W) o :
  fresh s ->
  runs others (handler_run hash_key drop_panics cancel_panics join_panics L readiness mailbox_shutdown actor turns fuel (Uninit args)) s o ->
  match o with
  | Returned (e, log) s' =>
      handler_contract L mailbox_shutdown e log s' /\
      (mailbox_shutdown = Discard -> shutdown L ∈ fired s -> (2 <= fuel)%nat -> e <> HandlerWaits)
  | Panicked _ => False
  | Aborted s' => spent s'
  end.
Proof.
  intros Hf Hr. pose proof (handler_run_spec hash_key drop_panics cancel_panics join_panics L readiness mailbox_shutdown actor turns fuel args s
    (fresh_sane hash_key _ Hf)) as Hs.
  pose proof (wp_runs _ _ _ _ _ _ _ Hs Hr) as H. destruct o as [[e log] s'|m|s']; [|done..]. split; [exact H|]. intros Em Hd Hn.
  destruct fuel as [|[|fuel]]; [lia..|].
  exact (wp_runs _ _ _ _ _ _ _ (handler_run_ends hash_key drop_panics cancel_panics join_panics L readiness mailbox_shutdown actor turns fuel args s Em Hd) Hr).
Qed.
