(* ===== verification/MailboxInbox.v ===== *)
(** * The mailbox of a raw actor

    The receiver that a raw context holds ([MailboxReceiver] of
    [mailbox/cell.rs]), and the promises the loop relies on: operations of other
    threads never add to the messages accepted up to a cutoff, and a receive up
    to the cutoff takes one of them or changes nothing. *)

From S2P Require Import Prelude BTree Time Identity Policy Mailbox MailboxInv MailboxErrors Latch Interleave TimerStore Raw RawProps RawHistory.
From S2P Require Import RawSolo RawLife Handler.

Section backlog.
Context {M : Type}.
Implicit Types (c : MailboxCell M) (t : MailboxTxn M) (w : world (M := M)).

Definition within_limit (l : Z) (e : Envelope M) : bool := accepted_sequence e <=? l.
(** The messages accepted up to [l] and not received. *)
Definition backlog (l : Z) c : nat :=
  length (List.filter (within_limit l) (queue (state c) ++ option_list (latest (state c)))).

(** Acceptance goes on, and adds nothing behind it. *)
Definition later c c' : Prop :=
  accepted_count c <= accepted_count c' /\ forall l, l <= accepted_count c -> (backlog l c' <= backlog l c)%nat.

Lemma later_refl c : later c c.
Proof. split; [lia|done]. Qed.
Lemma later_trans c1 c2 c3 : later c1 c2 -> later c2 c3 -> later c1 c3.
Proof. intros [H1 H2] [H3 H4]. split; [lia|]. intros l Hl. specialize (H2 l Hl). specialize (H4 l ltac:(lia)). lia. Qed.
Lemma later_same c c' :
  accepted c' = accepted c -> queue (state c') = queue (state c) -> latest (state c') = latest (state c) -> later c c'.
Proof. intros Ha Hq Hl. unfold later, accepted_count, backlog. rewrite Ha, Hq, Hl. split; [lia|done]. Qed.

Lemma backlog_app l (q q' : list (Envelope M)) :
  length (List.filter (within_limit l) (q ++ q')) =
  (length (List.filter (within_limit l) q) + length (List.filter (within_limit l) q'))%nat.
Proof. by rewrite List.filter_app, length_app. Qed.

Lemma push_accepted_later t k m t' : push_accepted t k m = Ret t' -> later (cell t) (cell t').
Proof.
  intros (Hc & _)%push_accepted_Ret. unfold later, backlog, accepted_count, txn_state in *. rewrite Hc. split; [simpl; lia|]. intros l Hl.
  assert (Hout : within_limit l (mkEnvelope m (accepted_count (cell t) + 1)) = false).
  { unfold within_limit, accepted_count. simpl. apply Z.leb_gt. lia. }
  destruct k; simpl; rewrite !backlog_app; simpl; unfold accepted_count in Hout; rewrite Hout; simpl; lia.
Qed.
Lemma update_operation_later f op c : later c (update_operation f op c).
Proof. destruct (update_operation_frame f op c) as [Hs Ha]. by apply later_same; rewrite ?Hs. Qed.

Lemma promote_loop_later fuel b t t' : promote_loop fuel b t = Ret t' -> later (cell t) (cell t').
Proof.
  revert t. induction fuel as [|fuel IH]; intros t H; simpl in H; [simplify_eq; apply later_refl|].
  destruct (queue_full _ _); [simplify_eq; apply later_refl|].
  destruct (pop_front _) as [[[i k]|] w]; [|simplify_eq; apply later_refl].
  set (t1 := on_cell _ _) in H.
  assert (G1 : later (cell t) (cell t1)).
  { subst t1. eapply (later_trans _ (update_operation clear_registration k (cell (on_state (set_waiters w) t)))); [|apply update_operation_later].
    eapply later_trans; [|apply update_operation_later]. by apply later_same. }
  match type of H with match ?x with _ => _ end = _ => change x with (operations (cell t1) !! k) in H end.
  destruct (operations (cell t1) !! k) as [o|]; [|by eapply later_trans; [|apply IH]].
  destruct (op_accept _ o) as [[taken fx] o'].
  assert (G2 : later (cell t1) (cell (add_wakers fx (on_cell (set_operation k o') t1)))) by by apply later_same.
  eapply later_trans; [exact G1|]. eapply later_trans; [exact G2|]. destruct taken as [m|]; [|by apply IH].
  apply bind_Ret_inv in H as (t2 & H2 & H). eapply later_trans; [by eapply push_accepted_later|by apply IH].
Qed.
Lemma observe_all_later i (w : WaiterQueue) c : later c (observe_all i w c).
Proof.
  unfold observe_all. generalize (bt_keys (entries w)). intros l. revert c.
  induction l as [|k l IH]; intros c; simpl; [apply later_refl|].
  eapply later_trans; [|apply IH]. destruct (entries w !! k); [apply update_operation_later|apply later_refl].
Qed.
Lemma accept_locked_later t b m r t' : accept_locked t b m = Ret (r, t') -> later (cell t) (cell t').
Proof.
  unfold accept_locked. destruct (negb _); [by intros [= _ <-]; apply later_refl|].
  destruct (queue_full _ _); [intros [= _ <-]; apply later_refl|]. intros H. apply bind_Ret_inv in H as (t1 & H1 & H).
  simplify_eq. eapply later_trans; [by eapply push_accepted_later|]. by apply later_same.
Qed.
Lemma park_later t m n op t' : park t m n = Ret (op, t') -> later (cell t) (cell t').
Proof. intros (_ & _ & ->)%park_Ret. by apply later_same. Qed.

Lemma submit_later c m r fx c' : submit c m = Ret (r, fx, c') -> later c c'.
Proof.
  unfold submit, txn_state. simpl. intros H.
  assert (Hpark : forall n, ('(op, t) ← park (txn_new c) m n; Ret (finish t (SubParked op))) = Ret (r, fx, c') -> later c c').
  { intros n Hn. apply bind_Ret_inv in Hn as ([op t] & H1 & Hn). unfold finish in Hn. simplify_eq. by apply park_later in H1. }
  destruct (phase (state c)) as [|b|b|f]; [by eapply Hpark| |by eapply Hpark|unfold finish in H; simplify_eq; apply later_refl].
  apply bind_Ret_inv in H as ([[i|m'] t1] & H1 & H); [unfold finish in H; simplify_eq; by apply accept_locked_later in H1|].
  apply accept_locked_err in H1 as (-> & ->). by eapply Hpark.
Qed.
Lemma try_send_later c m r fx c' : try_send c m = Ret (r, fx, c') -> later c c'.
Proof.
  unfold try_send, txn_state, finish. simpl. destruct (phase (state c)) as [|b|b|f]; simpl; intros H; simplify_eq; try apply later_refl.
  apply bind_Ret_inv in H as ([[i|m'] t1] & H1 & H); simplify_eq; by apply accept_locked_later in H1.
Qed.

(** The envelope a receive takes. *)
Lemma take_next_later k mode c e st :
  take_next k mode (state c) = (Some e, st) ->
  later c (set_state st c) /\ forall l, mode = LiveThrough l -> (backlog l (set_state st c) < backlog l c)%nat.
Proof.
  intros [Hm Ht]%take_next_Some. unfold later, backlog, accepted_count. simpl. destruct k.
  - destruct Ht as (q & Hq & ->). simpl. rewrite Hq. simpl. split.
    + split; [lia|]. intros l _. destruct (within_limit l e); simpl; lia.
    + intros l ->. assert (Hw : within_limit l e = true) by exact Hm. rewrite Hw. simpl. lia.
  - destruct Ht as (Hl & ->). simpl. rewrite Hl. split.
    + split; [lia|]. intros l _. rewrite !backlog_app. simpl. lia.
    + intros l ->. simpl in Hm. rewrite !backlog_app. simpl. assert (Hw : within_limit l e = true) by exact Hm. rewrite Hw. simpl. lia.
Qed.
Lemma receive_later c i mode r fx c' :
  receive c i mode = Ret (r, fx, c') ->
  later c c' /\ match r with
                | None => c' = c /\ fx = []
                | Some _ => forall l, mode = LiveThrough l -> l <= accepted_count c -> (backlog l c' < backlog l c)%nat
                end.
Proof.
  unfold receive, finish, txn_state. simpl. destruct (receive_binding _ _ _) as [[b live]|]; intros H; [|simplify_eq; split; [apply later_refl|done]].
  destruct (take_next _ _ _) as [[e|] st] eqn:Et; [|simplify_eq; split; [apply later_refl|done]].
  apply take_next_later in Et as [Hl Hlt]. apply bind_Ret_inv in H as (t1 & H1 & H). simplify_eq. destruct live; simplify_eq; [|by auto].
  apply promote_loop_later in H1. simpl in H1. split; [by eapply later_trans|]. intros l Hm Hle. specialize (Hlt l Hm).
  destruct H1 as [_ H1]. specialize (H1 l ltac:(unfold accepted_count in *; simpl in *; lia)). lia.
Qed.
Lemma bind_later c token i r fx c' : bind c token i = Ret (r, fx, c') -> later c c'.
Proof.
  unfold bind, txn_state, finish. simpl. destruct (phase (state c)), (kind (state c)); intros H; simplify_eq; try apply later_refl.
  destruct (claim token _ c) as [[] c1] eqn:Ec; [|done]. apply bind_Ret_inv in H as (t1 & H1 & H). simplify_eq. simpl.
  assert (E1 : state c1 = state c /\ accepted c1 = accepted c).
  { unfold claim in Ec. destruct (_ =? _); [destruct (permits c !! _) as [[]|]|]; by simplify_eq. }
  destruct E1 as [Es Ea]. apply promote_loop_later in H1. eapply later_trans; [|exact H1]. simpl.
  eapply later_trans; [|apply observe_all_later]. apply later_same; unfold txn_state; simpl; congruence.
Qed.
Lemma discharge_later d c r d' c' : discharge_next d c = (r, d', c') -> later c c'.
Proof.
  unfold discharge_next. destruct (pop_front _) as [[[i k]|] w]; intros H; [|simplify_eq; apply later_refl].
  eapply (later_trans _ (update_operation clear_registration k c)); [apply update_operation_later|].
  destruct (operations (update_operation _ _ _) !! k) as [o|]; [|simplify_eq; apply later_refl].
  destruct (op_terminate _ o) as [fx' o']. simplify_eq. by apply later_same.
Qed.

(** Detaching the buffer. *)
Lemma later_emptied c c' :
  accepted c' = accepted c -> queue (state c') = [] -> latest (state c') = None -> later c c'.
Proof. intros Ha Hq Hl. unfold later, accepted_count, backlog. rewrite Ha, Hq, Hl. split; [lia|]. simpl. lia. Qed.

Lemma freeze_later c i : later c (freeze c i).2.
Proof. unfold freeze. simpl. repeat case_match; by apply later_same. Qed.
Lemma withdraw_later c op dsp r fx c' : withdraw c op dsp = Ret (r, fx, c') -> later c c'.
Proof. intros (o & Ho & -> & _)%withdraw_Ret. by apply later_same. Qed.

Lemma mexec_later w x out w' : mexec w x = Ret (out, w') -> later (w_cell w) (w_cell w').
Proof.
  intros H. destruct w as [c d]. simpl in *. destruct x; simpl in H.
  - apply bind_Ret_inv in H as ([[r fx] c1] & H1 & H). simplify_eq. by eapply submit_later.
  - apply bind_Ret_inv in H as ([[r fx] c1] & H1 & H). simplify_eq. by eapply try_send_later.
  - apply bind_Ret_inv in H as ([[r fx] c1] & H1 & H). simplify_eq. by eapply receive_later.
  - apply bind_Ret_inv in H as (o & Ho & H). apply bind_Ret_inv in H as ([[r fx] o1] & H1 & H). simplify_eq. by apply later_same.
  - apply bind_Ret_inv in H as ([[r fx] c1] & H1 & H). simplify_eq. by eapply withdraw_later.
  - apply bind_Ret_inv in H as ([[r fx] c1] & H1 & H). simplify_eq. simpl.
    unfold configure, configure_kind, finish in H1. destruct (kind _); [destruct (bool_decide _)|]; simplify_eq; by apply later_same.
  - apply bind_Ret_inv in H as ([[r fx] c1] & H1 & H). simplify_eq. by eapply bind_later.
  - pose proof (freeze_later c i) as Hf. destruct (freeze c i) as [[r fx] c1]. by simplify_eq.
  - destruct (close c i) as [[r fx] c1] eqn:E. simplify_eq. simpl. unfold close in E.
    destruct (bool_decide _); cbn in E; injection E as <- <- <-; [by apply later_emptied|apply later_refl].
  - destruct (prepare_termination c) as [[r fx] c1] eqn:E. simplify_eq. simpl.
    unfold prepare_termination in E. destruct (phase _); cbn in E; injection E as <- <- <-; first [by apply later_emptied|apply later_refl].
  - destruct d as [d|]; [|simplify_eq; apply later_refl]. destruct (discharge_next d c) as [[r d'] c'] eqn:E.
    simplify_eq. by eapply discharge_later.
Qed.
End backlog.

(** ** The receiver *)

Section receiver.
(** The incarnation that receives, and what its post-commit effects raise. *)
Context {M : Type} (i : Incarnation) (effect_panics : list (FlushAction M) -> option string).

Definition raised (fx : list (FlushAction M)) : option string := match fx with [] => None | _ => effect_panics fx end.

(** [MailboxReceiver::try_recv] and [try_recv_live_through]: a panic of the
    effects comes after the message has left the mailbox. *)
Definition receiver_take (mode : ReceiveMode) (w : world (M := M)) : outcome (result (option M) string * world (M := M)) :=
  '(r, fx, c) ← receive (w_cell w) i mode;
  Ret (match raised fx with Some payload => Err payload | None => Ok r end, mkWorld c (w_teardown w)).
Definition receiver_freeze (w : world (M := M)) : result () string * world (M := M) :=
  let '(_, fx, c) := freeze (w_cell w) i in
  (match raised fx with Some payload => Err payload | None => Ok () end, mkWorld c (w_teardown w)).
Definition receiver_accepted (w : world (M := M)) : Z := cell_accepted_sequence (w_cell w).

#[export] Instance mailbox_inbox : Inbox M (world (M := M)) :=
  { in_accepted := receiver_accepted;
    in_try_recv_through l := receiver_take (LiveThrough l);
    in_try_recv := receiver_take Drain;
    in_freeze := receiver_freeze }.

Lemma receiver_take_spec mode w : minv w ->
  match receiver_take mode w with
  | Ret (r, w') =>
      minv w' /\ later (w_cell w) (w_cell w') /\ (r = Ok None -> w' = w) /\
      (r <> Ok None -> forall l, mode = LiveThrough l -> l <= receiver_accepted w -> (backlog l (w_cell w') < backlog l (w_cell w))%nat)
  | Panics _ => False
  | ProcessAborts => counters_exhausted (w_cell w)
  end.
Proof.
  intros Hi. unfold receiver_take. pose proof (receive_total (w_cell w) i mode) as Ht.
  destruct (receive (w_cell w) i mode) as [[[r fx] c]| |] eqn:E; simpl in *; [|done..]. destruct w as [c0 d]. simpl in *.
  split; [by eapply minv_receive|]. apply receive_later in E as [Hl Hr]. split; [done|]. destruct r as [m|].
  - split; [by destruct (raised fx)|done].
  - destruct Hr as [-> ->]. by split.
Qed.

#[export] Instance mailbox_inbox_laws : InboxLaws M (world (M := M)).
Proof.
  refine {| in_wf := minv;
            in_others w w' := exists x out, mexec w x = Ret (out, w');
            in_backlog l w := backlog l (w_cell w);
            in_spent w := counters_exhausted (w_cell w) |}.
  - intros w w' Hi (x & out & H). split; [by eapply minv_mexec|]. apply mexec_later in H as [? ?]. done.
  - intros l w Hi. pose proof (receiver_take_spec (LiveThrough l) w Hi) as H. simpl.
    destruct (receiver_take _ w) as [[r w']| |]; [|done..]. destruct H as (? & [? ?] & ? & Hlt). split_and!; [done..|]. intros Hr Hle. by apply Hlt.
  - intros w Hi. pose proof (receiver_take_spec Drain w Hi) as H. simpl.
    destruct (receiver_take _ w) as [[r w']| |]; [|done..]. destruct H as (? & [? ?] & _). done.
  - intros [c d] Hi. simpl. unfold receiver_freeze. simpl. pose proof (freeze_later c i) as [? ?]. pose proof (minv_freeze c i d Hi).
    destruct (freeze c i) as [[u fx] c']. done.
Defined.
End receiver.

(** ** Runs of a raw actor

    An incarnation on a bound queue mailbox: a timer that is due fires behind a
    continuation and a message; the theorems on histories applied to its run. *)

#[local] Instance raw_clock : Clock := unix_clock.
Definition raw_incarnation : Incarnation :=
  mkIncarnation (mkMembership (mkFence (mkLineage 1) (mkGeneration 1))) (mkGeneration 1).
Definition raw_mailbox : world (M := Z) :=
  (mplay [] (mkWorld (mailbox_new "a") None)
     [MConfigure (ResolvedQueue 4); MBind (mkToken 0) raw_incarnation; MTrySend 10]).2.
#[local] Instance raw_inbox : Inbox Z (world (M := Z)) := mailbox_inbox raw_incarnation (fun _ => None).
#[local] Instance raw_laws : InboxLaws Z (world (M := Z)) := mailbox_inbox_laws raw_incarnation (fun _ => None).

Definition raw_actor : Actor Z Z (world (M := Z)) Z :=
  mkActor raw_mailbox 100 ∅ [] None ∅ 0 true [] false store_new None [] false 10 [].
Local Abbreviation actor := (Actor Z Z (world (M := Z)) Z).
Definition raw_latches : Latches := mkLatches 1 2 3.
Local Abbreviation raw_serve := (serve (K := Z) (M := Z) (B := world (M := Z)) (W := Z) (fun k : Z => k `mod` 2) (fun _ => None) (fun _ => []) raw_latches Immediate).
Local Abbreviation raw_history := (history (K := Z) (M := Z) (B := world (M := Z)) (W := Z) (fun k : Z => k `mod` 2) (fun _ => None) (fun _ => []) raw_latches Immediate).

(** Calls without interference. *)
Fixpoint raw_play (qs : list (request Z Z Z)) (s : actor) : list (Receive Z) * actor :=
  match qs with
  | [] => ([], s)
  | q :: qs =>
      match solo (raw_serve q) s with
      | Returned r s' => let '(log, s'') := raw_play qs s' in (option_list r ++ log, s'')
      | _ => ([], s)
      end
  end.
Lemma history_cons s q r s' log s'' :
  runs others (raw_serve q) s (Returned r s') -> raw_history s' log s'' -> raw_history s (option_list r ++ log) s''.
Proof.
  intros Hr H. induction H as [s'|s' log s1 s2 H IH Ho|s' log s1 q' r' s2 H IH Hr'].
  - rewrite app_nil_r. apply (history_call _ _ _ _ _ s [] s q r s' (history_start _ _ _ _ _ s) Hr).
  - eapply history_others; [by apply IH|done].
  - rewrite app_assoc. eapply history_call; [by apply IH|done].
Qed.
Lemma raw_play_history qs s : raw_history s (raw_play qs s).1 (raw_play qs s).2.
Proof.
  revert s. induction qs as [|q qs IH]; intros s; simpl; [constructor|]. pose proof (solo_runs others (raw_serve q) s) as Hr.
  destruct (solo (raw_serve q) s) as [r s'|?|?]; [|constructor..]. specialize (IH s'). destruct (raw_play qs s') as [log s''].
  by eapply history_cons.
Qed.

Lemma raw_fresh : fresh raw_actor.
Proof.
  split_and!; [|reflexivity..]. change (minv raw_mailbox). unfold raw_mailbox. eapply mrun_inv, mplay_run. apply (mrun_new "a").
Qed.

(** A due timer, a continuation and a message: the continuation leads. *)
Definition raw_calls : list (request Z Z Z) := [SetTimeout 7 70 0; ContinueWith 50; Recv 2].
Definition raw_first := raw_play raw_calls raw_actor.
Definition raw_more : list (request Z Z Z) := [Recv 2; Recv 2].
Definition raw_second := raw_play raw_more raw_first.2.
Example raw_receives : raw_first.1 ++ raw_second.1 = [Receives FromContinuation 50; Receives FromMailbox 10; Receives (FromTimer 1) 70].
Proof. vm_compute. reflexivity. Qed.

Lemma raw_loop_never_asserts_witness :
  match solo (raw_serve (TryRecv 2)) raw_first.2 with Returned _ _ => True | Panicked _ => False | Aborted s => spent s end.
Proof.
  exact (raw_loop_never_asserts _ _ _ _ _ _ _ _ _ _ raw_fresh (raw_play_history raw_calls raw_actor) (solo_runs others (raw_serve (TryRecv 2)) raw_first.2)).
Defined.

Lemma fired_timer_is_served_witness :
  delivered 1 raw_second.1 \/ armings (timers raw_second.2) !! 1 = None.
Proof.
  assert (Hb : exists b, ready_batch raw_first.2 = Some b /\ (work b raw_first.2 <= deliveries raw_second.1)%nat).
  { vm_compute. eexists. split; [reflexivity|]. vm_compute. repeat constructor. }
  destruct Hb as (b & Hb & Hn).
  refine (fired_timer_is_served _ _ _ _ _ raw_actor _ raw_first.2 b 1 _ raw_second.2 raw_fresh (raw_play_history raw_calls raw_actor) Hb _
    (raw_play_history raw_more raw_first.2) _ Hn).
  - vm_compute. left.
  - vm_compute. reflexivity.
Defined.

Lemma selection_is_complete_witness :
  match solo (next_ready (fun _ => None) 2) raw_first.2 with
  | Returned r s' =>
      r <> StillSelecting /\ (r = NothingReady -> quiet s') /\
      (last_delivery_was_continuation raw_first.2 = true -> forall m, r = Selected FromContinuation m -> external_idle s' \/ firing s')
  | Panicked _ => False
  | Aborted s' => spent s'
  end.
Proof. exact (selection_is_complete _ _ _ _ _ _ _ _ raw_fresh (raw_play_history raw_calls raw_actor)). Defined.

(** A timer whose message panics as it is destroyed: the teardown reports it. *)
Definition timer_bomb (x : Trash Z Z Z) : option string :=
  match x with TrashTimer (RetiredMessage _) => Some "timer" | _ => None end.
Definition raw_epilogue : Prog actor (IncarnationEnd Z) :=
  epilogue timer_bomb (fun _ => []) (fun _ => None) None (run_end None [PollPending; PollReady 1]) None true.


(** A callback actor that stops while it drains: it adds what it handles. *)
Definition adder : ActorTrait Z Z Z Z Z string :=
  mkTrait _ _ _ _ _ _ (fun start => Asks CallMarkReady (fun _ => Gives (Ok start)))
    (fun m total => Asks (CallContinueWith m) (fun _ => Asks CallStop (fun _ => Gives (Ok (), total + m)))) (fun _ => Ok ()).
Definition stopping_actor : actor := set_fired {[1]} raw_actor.
Definition adder_run : Prog actor (HandlerEnd string * list (HandlerEvent Z)) :=
  handler_run (fun k : Z => k `mod` 2) (fun _ => None) (fun _ => []) (fun _ => None) raw_latches AfterInit Policy.Drain adder 2 5 (Uninit 0).

Lemma handler_callback_protocol_witness :
  exists s', solo adder_run stopping_actor =
      Returned (HandlerReturns (Ok ()), [Initialized; Handled DrainingFrozenPrefix FromMailbox 10; StopCalled]) s' /\
    handler_contract raw_latches Policy.Drain (HandlerReturns (Ok ()) : HandlerEnd string)
      [Initialized; Handled DrainingFrozenPrefix FromMailbox 10; StopCalled] s'.
Proof.
  assert (E : exists s', solo adder_run stopping_actor =
    Returned (HandlerReturns (Ok ()), [Initialized; Handled DrainingFrozenPrefix FromMailbox 10; StopCalled]) s') by (vm_compute; eexists; reflexivity).
  destruct E as [s' E]. exists s'. split; [exact E|].
  pose proof (handler_callback_protocol _ _ _ _ _ _ _ _ _ _ _ stopping_actor _ raw_fresh (solo_runs others adder_run stopping_actor)) as H.
  rewrite E in H. exact (proj1 H).
Defined.
