(* ===== verification/Offload.v ===== *)
(** * Offloaded work

    [raw/offload.rs]: the future of one offload, shared by the task that polls
    it and by those that cancel it, and its completion notification.  Every
    critical section is a function of the shared state; what the threads do
    between them is their program counter. *)

From S2P Require Import Prelude.

(** What happens to the work, in order. *)
Inductive OffloadEvent := PollStarts | Cancelled | FutureDisposed | Notified | WakePanicked (payload : string).
#[export] Instance offload_event_eq_dec : EqDecision OffloadEvent.
Proof. solve_decision. Defined.

(** [SharedOffloadState]; [recorded] are the panics that reached the slot and
    [history] what happened. *)
Record SharedOffloadState := mkOffloadState
  { future : bool;
    polling : bool;
    cancelled : bool;
    finished : bool;                     (* the completion latch *)
    finished_published : bool;
    recorded : list string;
    happened : list OffloadEvent }.

Inductive OffloadPoll := Pending | Finished.

Definition offload_new : SharedOffloadState := mkOffloadState true false false false false [] [].

Definition record (payload : string) s : SharedOffloadState :=
  mkOffloadState (future s) (polling s) (cancelled s) (finished s) (finished_published s) (recorded s ++ [payload]) (happened s).
Definition happens (e : OffloadEvent) s : SharedOffloadState :=
  mkOffloadState (future s) (polling s) (cancelled s) (finished s) (finished_published s) (recorded s) (happened s ++ [e]).

Definition take_for_poll s : bool * SharedOffloadState :=
  if cancelled s || polling s then (false, s)
  else
    let taken := future s in
    let s := mkOffloadState false taken (cancelled s) (finished s) (finished_published s) (recorded s) (happened s) in
    (taken, if taken then happens PollStarts s else s).

(** Whether the caller keeps the future, to dispose of it. *)
Definition finish_poll (polled : OffloadPoll) s : outcome (bool * SharedOffloadState) :=
  let duplicate := future s in
  match polled with
  | Pending =>
      if negb (cancelled s) && negb duplicate
      then Ret (false, mkOffloadState true false (cancelled s) (finished s) (finished_published s) (recorded s) (happened s))
      else
        _ ← assert_that (negb duplicate) "only the poller that took the offload future completes a poll";
        Ret (true, mkOffloadState (future s) false (cancelled s) (finished s) (finished_published s) (recorded s) (happened s))
  | Finished =>
      _ ← assert_that (negb duplicate) "only the poller that took the offload future completes a poll";
      Ret (true, mkOffloadState (future s) false (cancelled s) (finished s) (finished_published s) (recorded s) (happened s))
  end.

(** [dispose]: the destructor may panic. *)
Definition dispose_future (panics : option string) s : SharedOffloadState :=
  let s := happens FutureDisposed s in
  match panics with Some payload => record payload s | None => s end.

(** The first critical section of [cancel]. *)
Definition cancel_take s : bool * SharedOffloadState :=
  let taken := if polling s then false else future s in
  (taken, happens Cancelled
    (mkOffloadState (if polling s then future s else false) (polling s) true (finished s) (finished_published s) (recorded s) (happened s))).

(** The parts of [fire_finished]. *)
Definition fire_silently s : bool * SharedOffloadState :=
  (negb (finished s), mkOffloadState (future s) (polling s) (cancelled s) true (finished_published s) (recorded s) (happened s)).
Definition notify (panics : option string) s : SharedOffloadState :=
  let s := happens Notified s in
  match panics with Some payload => happens (WakePanicked payload) s | None => s end.
Definition publish s : SharedOffloadState :=
  mkOffloadState (future s) (polling s) (cancelled s) (finished s) true (recorded s) (happened s).

(** ** Threads *)

(** What a poll of the work does. *)
Inductive WorkPoll := WorkPending | WorkReady | WorkPanics (payload : string).

(** [fire_finished], shared by both threads. *)
Inductive Firing := Fires | Notifies | RecordsWake (payload : string) | Publishes.

(** The task: [SharedOffloadFuture::poll], again while it is pending; an aborted
    task is dropped between two polls. *)
Inductive Poller :=
| Waits
| Polls
| Finishes (p : WorkPoll)
| RecordsWork (payload : string)
| Disposes
| PollerFires (f : Firing)
| Ready
| Dropped.

(** A canceller: [OffloadResource::cancel]. *)
Inductive Canceller :=
| FiresCancellation
| Cancels
| DisposesIdle
| CancellerFires (f : Firing)
| Aborts
| FiresAgain
| CancelDone.

Definition aborts (k : Canceller) : bool := match k with Aborts => true | _ => false end.

Record Offload := mkOffloadConfig
  { shared : SharedOffloadState; task_aborted : bool; poller : Poller; cancellers : list Canceller }.

(** A step of [fire_finished]: the next one, or its end. *)
Inductive firing_step : Firing -> SharedOffloadState -> option Firing -> SharedOffloadState -> Prop :=
| fires_first s s' : fire_silently s = (true, s') -> firing_step Fires s (Some Notifies) s'
| fires_late s s' : fire_silently s = (false, s') -> firing_step Fires s None s'
| notifies s : firing_step Notifies s (Some Publishes) (notify None s)
| notify_panics s payload : firing_step Notifies s (Some (RecordsWake payload)) (notify (Some payload) s)
| records_wake s payload : firing_step (RecordsWake payload) s (Some Publishes) (record payload s)
| publishes s : firing_step Publishes s None (publish s).

Definition outcome_of (p : WorkPoll) : OffloadPoll := match p with WorkPending => Pending | _ => Finished end.
Definition after_finish (p : WorkPoll) : Poller := match p with WorkPanics payload => RecordsWork payload | _ => Disposes end.
Definition poller_after (f : option Firing) : Poller := match f with Some f => PollerFires f | None => Ready end.
Definition canceller_after (f : option Firing) : Canceller := match f with Some f => CancellerFires f | None => Aborts end.

Inductive poller_step (aborted : bool) : Poller -> SharedOffloadState -> Poller -> SharedOffloadState -> Prop :=
| poll_takes s s' : take_for_poll s = (true, s') -> poller_step aborted Waits s Polls s'
| poll_nothing s s' : take_for_poll s = (false, s') -> poller_step aborted Waits s Ready s'
| poll_dropped s : aborted = true -> poller_step aborted Waits s Dropped s
| poll_runs s p : poller_step aborted Polls s (Finishes p) s
| poll_keeps s s' p : finish_poll (outcome_of p) s = Ret (false, s') -> poller_step aborted (Finishes p) s Waits s'
| poll_ends s s' p : finish_poll (outcome_of p) s = Ret (true, s') -> poller_step aborted (Finishes p) s (after_finish p) s'
| poll_records s payload : poller_step aborted (RecordsWork payload) s Disposes (record payload s)
| poll_disposes s panics : poller_step aborted Disposes s (PollerFires Fires) (dispose_future panics s)
| poll_fires f s f' s' : firing_step f s f' s' -> poller_step aborted (PollerFires f) s (poller_after f') s'.

Inductive canceller_step : Canceller -> SharedOffloadState -> Canceller -> SharedOffloadState -> Prop :=
| cancel_fires s : canceller_step FiresCancellation s Cancels s
| cancel_idle s s' : cancel_take s = (true, s') -> canceller_step Cancels s DisposesIdle s'
| cancel_busy s s' : cancel_take s = (false, s') -> canceller_step Cancels s (CancellerFires Fires) s'
| cancel_disposes s panics : canceller_step DisposesIdle s (CancellerFires Fires) (dispose_future panics s)
| cancel_notifies f s f' s' : firing_step f s f' s' -> canceller_step (CancellerFires f) s (canceller_after f') s'
| cancel_aborts s : canceller_step Aborts s FiresAgain s
| cancel_again_late s s' : fire_silently s = (false, s') -> canceller_step FiresAgain s CancelDone s'
| cancel_again_first s s' panics :
    fire_silently s = (true, s') -> canceller_step FiresAgain s CancelDone (notify panics s').

Inductive offload_step (c : Offload) : Offload -> Prop :=
| step_poller p s :
    poller_step (task_aborted c) (poller c) (shared c) p s -> offload_step c (mkOffloadConfig s (task_aborted c) p (cancellers c))
| step_canceller i k k' s :
    cancellers c !! i = Some k -> canceller_step k (shared c) k' s ->
    offload_step c (mkOffloadConfig s (task_aborted c || aborts k) (poller c) (<[i := k']> (cancellers c)))
| step_cancel : offload_step c (mkOffloadConfig (shared c) (task_aborted c) (poller c) (cancellers c ++ [FiresCancellation])).

Definition offload_start : Offload := mkOffloadConfig offload_new false Waits [].

(** ** Offloaded work: its protocol

    However polls and cancellations interleave, the future of an offload is
    destroyed once, and its completion is notified once and published after
    that. *)

(** ** Counting *)

Definition times (e : OffloadEvent) (s : SharedOffloadState) : nat := length (filter (fun x => x = e) (happened s)).

(** The future is held, a wake is to be run, a publication is owed. *)
Definition poller_holds (p : Poller) : nat := match p with Polls | Finishes _ | RecordsWork _ | Disposes => 1 | _ => 0 end.
Definition canceller_holds (k : Canceller) : nat := match k with DisposesIdle => 1 | _ => 0 end.
Definition to_notify (f : Firing) : nat := match f with Notifies => 1 | _ => 0 end.
Definition to_publish (f : Firing) : nat := match f with RecordsWake _ | Publishes => 1 | _ => 0 end.
Definition poller_firing (g : Firing -> nat) (p : Poller) : nat := match p with PollerFires f => g f | _ => 0 end.
Definition canceller_firing (g : Firing -> nat) (k : Canceller) : nat := match k with CancellerFires f => g f | _ => 0 end.
Definition total (g : Firing -> nat) (c : Offload) : nat :=
  (poller_firing g (poller c) + sum_of (canceller_firing g) (cancellers c))%nat.
(** A panic of a wake that its thread has still to record. *)
Definition owes (payload : string) (c : Offload) : Prop :=
  poller c = PollerFires (RecordsWake payload) \/ CancellerFires (RecordsWake payload) ∈ cancellers c.

Definition past_firing (k : Canceller) : bool := match k with Aborts | FiresAgain | CancelDone => true | _ => false end.
Definition past_cancel (k : Canceller) : bool := match k with FiresCancellation | Cancels => false | _ => true end.

(** A poll starts neither after a cancellation nor after the future's end. *)
Definition no_late_poll (l : list OffloadEvent) : Prop :=
  forall l1 e l2, l = l1 ++ e :: l2 -> e = Cancelled \/ e = FutureDisposed -> PollStarts ∉ l2.

Record offload_inv (c : Offload) : Prop := mkOffloadInv
  { oi_future : (Nat.b2n (future (shared c)) + poller_holds (poller c) + sum_of canceller_holds (cancellers c) +
                 times FutureDisposed (shared c) = 1)%nat;
    oi_polling : polling (shared c) = match poller c with Polls | Finishes _ => true | _ => false end;
    oi_notified : (times Notified (shared c) + total to_notify c = Nat.b2n (finished (shared c)))%nat;
    oi_published : (Nat.b2n (finished_published (shared c)) + total to_publish c = times Notified (shared c))%nat;
    oi_fired k : k ∈ cancellers c -> past_firing k = true -> finished (shared c) = true;
    oi_cancelled : cancelled (shared c) = true ->
      future (shared c) = false /\ exists k, k ∈ cancellers c /\ past_cancel k = true;
    oi_open : cancelled (shared c) = false ->
      (Cancelled ∉ happened (shared c)) /\ Forall (fun k => past_cancel k = false) (cancellers c) /\
      (poller c = Waits -> future (shared c) = true) /\
      match poller c with PollerFires _ | Ready => future (shared c) = false | _ => True end;
    oi_ready : poller c = Ready -> cancelled (shared c) = true \/ finished (shared c) = true;
    oi_polls : no_late_poll (happened (shared c));
    oi_wakes payload : WakePanicked payload ∈ happened (shared c) -> payload ∈ recorded (shared c) \/ owes payload c }.

Lemma offload_inv_start : offload_inv offload_start.
Proof.
  split; [done..|by intros k ?%not_elem_of_nil|done| |done| |by intros p ?%not_elem_of_nil].
  - intros _. split_and!; [apply not_elem_of_nil|constructor|done|done].
  - intros [|? l1] e l2 H; by simplify_list_eq.
Qed.

(** ** Events *)

Lemma times_happens e e' s : times e (happens e' s) = (times e s + if decide (e' = e) then 1 else 0)%nat.
Proof. unfold times, happens. simpl. rewrite filter_app, length_app, filter_cons. by destruct (decide (e' = e)). Qed.
Lemma no_late_poll_snoc l e :
  no_late_poll l -> (e = PollStarts -> (Cancelled ∉ l) /\ (FutureDisposed ∉ l)) -> no_late_poll (l ++ [e]).
Proof.
  intros Hl He l1 x l2 H Hx Hin. destruct (decide (l2 = [])) as [->|Hne]; [set_solver|].
  destruct (exists_last Hne) as (l3 & y & ->). rewrite app_comm_cons, app_assoc in H. apply app_inj_tail in H as [-> <-].
  apply elem_of_app in Hin as [Hin|Hin%list_elem_of_singleton].
  - by apply (Hl l1 x l3 eq_refl Hx).
  - destruct (He (eq_sym Hin)) as [H1 H2]. destruct Hx as [->| ->]; [apply H1|apply H2]; set_solver.
Qed.
Lemma times_none e s : times e s = 0%nat -> e ∉ happened s.
Proof.
  unfold times. intros H%length_zero_iff_nil Hin. assert (Hf : e ∈ filter (fun x => x = e) (happened s)) by by apply list_elem_of_filter.
  rewrite H in Hf. by apply not_elem_of_nil in Hf.
Qed.

(** ** Firing *)

(** What [fire_finished] does to a shared state, [f] and [f'] being where it is. *)
Record fired_by (f : Firing) s (f' : option Firing) s' : Prop := mkFiredBy
  { fb_future : future s' = future s;
    fb_polling : polling s' = polling s;
    fb_cancelled : cancelled s' = cancelled s;
    fb_disposed : times FutureDisposed s' = times FutureDisposed s;
    fb_mono : finished s = true -> finished s' = true;
    fb_end : f' = None -> f = Publishes \/ finished s' = true;
    fb_notified : forall n, (times Notified s + (to_notify f + n) = Nat.b2n (finished s) ->
                   times Notified s' + (default 0 (to_notify <$> f') + n) = Nat.b2n (finished s'))%nat;
    fb_published : forall n, (Nat.b2n (finished_published s) + (to_publish f + n) = times Notified s -> times Notified s <= 1 ->
                   Nat.b2n (finished_published s') + (default 0 (to_publish <$> f') + n) = times Notified s')%nat;
    fb_open : Cancelled ∉ happened s -> Cancelled ∉ happened s';
    fb_polls : no_late_poll (happened s) -> no_late_poll (happened s');
    fb_recorded : forall p, p ∈ recorded s -> p ∈ recorded s';
    fb_wakes : forall p, WakePanicked p ∈ happened s' -> WakePanicked p ∈ happened s \/ f' = Some (RecordsWake p);
    fb_owed : forall p, f = RecordsWake p -> p ∈ recorded s' }.

Lemma no_late_poll_event e s : e <> PollStarts -> no_late_poll (happened s) -> no_late_poll (happened (happens e s)).
Proof. intros He H. by apply no_late_poll_snoc. Qed.

Lemma firing_step_spec f s f' s' : firing_step f s f' s' -> fired_by f s f' s'.
Proof.
  destruct 1 as [s s' E|s s' E|s|s payload|s payload|s].
  - unfold fire_silently in E. simplify_eq/=. destruct (finished s) eqn:Ef; [done|]. split; simpl; try done; try naive_solver;
      intros n; unfold times; simpl; rewrite ?Ef; simpl; lia.
  - unfold fire_silently in E. simplify_eq/=. destruct (finished s) eqn:Ef; [|done]. split; simpl; try done; try naive_solver;
      intros n; unfold times; simpl; rewrite ?Ef; simpl; lia.
  - split; try done; unfold notify; rewrite ?times_happens; simpl; try lia; try (intros n; lia).
    + rewrite not_elem_of_app. intros ?. split; [done|]. set_solver.
    + intros H. by apply no_late_poll_event.
    + intros p [?|H]%elem_of_app; [by left|]. set_solver.
  - split; try done; unfold notify; rewrite ?times_happens; simpl; try lia; try (intros n; lia).
    + rewrite !not_elem_of_app. intros ?. split_and!; [done| |]; set_solver.
    + intros H. by apply no_late_poll_snoc; [apply no_late_poll_snoc|].
    + intros p [[?|H]%elem_of_app|H]%elem_of_app; [by left|set_solver|]. apply list_elem_of_singleton in H. right. by simplify_eq.
  - split; try done; simpl; try (intros n; unfold times; simpl; lia).
    + set_solver.
    + intros p. by left.
    + intros p [= ->]. set_solver.
  - split; try done; simpl; try (intros n; unfold times; simpl; lia).
    + by left.
    + intros p. by left.
Qed.

(** ** Threads *)

Lemma elem_of_insert_list {A} (l : list A) i (x y z : A) : l !! i = Some y -> z ∈ <[i:=x]> l -> z = x \/ z ∈ l.
Proof.
  intros Hi [j Hj]%list_elem_of_lookup. destruct (decide (i = j)) as [<-|Hne].
  - rewrite list_lookup_insert_eq in Hj by by eapply lookup_lt_Some. left. congruence.
  - rewrite list_lookup_insert_ne in Hj by done. right. by eapply list_elem_of_lookup_2.
Qed.
Lemma elem_of_kept_list {A} (l : list A) i (x y z : A) : l !! i = Some y -> z ∈ l -> z = y \/ z ∈ <[i:=x]> l.
Proof.
  intros Hi [j Hj]%list_elem_of_lookup. destruct (decide (i = j)) as [<-|Hne]; [left; congruence|]. right.
  apply (list_elem_of_lookup_2 _ j). by rewrite list_lookup_insert_ne.
Qed.
Lemma elem_of_new_list {A} (l : list A) i (x y : A) : l !! i = Some y -> x ∈ <[i:=x]> l.
Proof. intros Hi. apply (list_elem_of_lookup_2 _ i). apply list_lookup_insert_eq. by eapply lookup_lt_Some. Qed.

(** Whoever has something left to publish finds the latch fired. *)
Lemma publishing_finished c : offload_inv c -> (0 < total to_publish c)%nat -> finished (shared c) = true.
Proof.
  intros Hi Hp. pose proof (oi_notified _ Hi). pose proof (oi_published _ Hi). destruct (finished (shared c)); [done|]. simpl in *. lia.
Qed.
Lemma notified_once c : offload_inv c -> (times Notified (shared c) <= 1)%nat.
Proof. intros Hi. pose proof (oi_notified _ Hi). destruct (finished (shared c)); simpl in *; lia. Qed.

Lemma poller_fires_inv s ab cs f f' s' :
  offload_inv (mkOffloadConfig s ab (PollerFires f) cs) -> firing_step f s f' s' ->
  offload_inv (mkOffloadConfig s' ab (poller_after f') cs).
Proof.
  intros Hi Hf%firing_step_spec. pose proof (notified_once _ Hi) as H1. pose proof (publishing_finished _ Hi) as Hfin.
  destruct Hi as [I1 I2 I3 I4 I5 I6 I7 I8 I9 I10], Hf as [F1 F2 F3 F4 F5 F6 F7 F8 F9 F10 F11 F12 F13]. unfold total in *. simpl in *.
  assert (E : forall g, poller_firing g (poller_after f') = default 0%nat (g <$> f')) by by destruct f'.
  split; unfold total; simpl; rewrite ?F1, ?F2, ?F3, ?F4, ?E.
  - by destruct f'.
  - by destruct f'.
  - apply F7. lia.
  - apply F8; [lia|done].
  - eauto.
  - done.
  - intros Hc. destruct (I7 Hc) as (? & ? & _ & ?). split_and!; [auto|done|by destruct f'|by destruct f'].
  - intros Hr. destruct f' as [f'|]; [done|]. right. destruct (F6 eq_refl) as [->|?]; [|done]. apply F5, Hfin. simpl. lia.
  - auto.
  - intros p [Hp| ->]%F12; [|right; by left]. destruct (I10 p Hp) as [?|[Ho|Ho]]; [auto|left; apply F13|right; by right]. simpl in Ho. congruence.
Qed.
Lemma canceller_fires_inv s ab p cs i f f' s' :
  offload_inv (mkOffloadConfig s ab p cs) -> cs !! i = Some (CancellerFires f) -> firing_step f s f' s' ->
  offload_inv (mkOffloadConfig s' ab p (<[i:=canceller_after f']> cs)).
Proof.
  intros Hi Hk Hf%firing_step_spec. pose proof (notified_once _ Hi) as H1. pose proof (publishing_finished _ Hi) as Hfin.
  destruct Hi as [I1 I2 I3 I4 I5 I6 I7 I8 I9 I10], Hf as [F1 F2 F3 F4 F5 F6 F7 F8 F9 F10 F11 F12 F13]. unfold total in *. simpl in *.
  assert (E : forall g, canceller_firing g (canceller_after f') = default 0%nat (g <$> f')) by by destruct f'.
  assert (Hs : forall g, (sum_of (canceller_firing g) (<[i:=canceller_after f']> cs) + g f =
    sum_of (canceller_firing g) cs + default 0 (g <$> f'))%nat).
  { intros g. rewrite <- E. apply (sum_of_insert (canceller_firing g) _ _ _ _ Hk). }
  pose proof (sum_of_insert canceller_holds _ _ _ (canceller_after f') Hk) as Hh.
  assert (canceller_holds (canceller_after f') = 0%nat) as Hz by by destruct f'. simpl in Hh.
  split; unfold total; simpl; rewrite ?F1, ?F2, ?F3, ?F4.
  - lia.
  - done.
  - specialize (Hs to_notify). pose proof (sum_of_ge (canceller_firing to_notify) _ _ _ Hk) as Hge. simpl in Hge.
    specialize (F7 (poller_firing to_notify p + (sum_of (canceller_firing to_notify) cs - to_notify f))%nat). lia.
  - specialize (Hs to_publish). pose proof (sum_of_ge (canceller_firing to_publish) _ _ _ Hk) as Hge. simpl in Hge.
    specialize (F8 (poller_firing to_publish p + (sum_of (canceller_firing to_publish) cs - to_publish f))%nat). lia.
  - intros k Hin Hp. destruct (elem_of_insert_list _ _ _ _ _ Hk Hin) as [->|Hin']; [|eauto]. destruct f' as [f'|]; [done|].
    destruct (F6 eq_refl) as [->|?]; [|done]. apply F5, Hfin. pose proof (sum_of_ge (canceller_firing to_publish) _ _ _ Hk). simpl in *. lia.
  - intros Hc. destruct (I6 Hc) as [? _]. split; [done|]. exists (canceller_after f'). split; [by eapply elem_of_new_list|]. by destruct f'.
  - intros Hc. destruct (I7 Hc) as (? & HF & ? & ?). rewrite Forall_forall in HF. specialize (HF _ (list_elem_of_lookup_2 _ _ _ Hk)). done.
  - intros Hr. destruct (I8 Hr); auto.
  - auto.
  - intros q [Hq| ->]%F12; [|right; right; by eapply elem_of_new_list]. destruct (I10 q Hq) as [?|[Ho|Ho]]; [auto|right; by left|]. simpl in Ho.
    destruct (elem_of_kept_list _ _ (canceller_after f') _ _ Hk Ho) as [[= <-]|?]; [left; by apply F13|right; by right].
Qed.

(** ** Polls and cancellations *)

Lemma happens_dispose e panics s : e <> FutureDisposed -> times e (dispose_future panics s) = times e s.
Proof. intros He. unfold dispose_future. destruct panics; unfold record, times; simpl; rewrite filter_app, length_app; simpl; rewrite filter_cons, decide_False by congruence; simpl; lia. Qed.
Lemma disposed_dispose panics s : times FutureDisposed (dispose_future panics s) = S (times FutureDisposed s).
Proof. unfold dispose_future. destruct panics; unfold record, times; simpl; rewrite filter_app, length_app; simpl; lia. Qed.
Lemma dispose_keeps panics s :
  let s' := dispose_future panics s in
  future s' = future s /\ polling s' = polling s /\ cancelled s' = cancelled s /\ finished s' = finished s /\
  finished_published s' = finished_published s /\ (forall e, e <> FutureDisposed -> e ∈ happened s' <-> e ∈ happened s) /\
  (no_late_poll (happened s) -> no_late_poll (happened s')) /\ (forall p, p ∈ recorded s -> p ∈ recorded s').
Proof.
  unfold dispose_future. destruct panics; simpl; split_and!; try done; try set_solver; intros; by apply no_late_poll_snoc.
Qed.

(** The poller moves without touching the future or the latch. *)
Lemma poller_moves s ab p p' cs :
  offload_inv (mkOffloadConfig s ab p cs) -> poller_holds p' = poller_holds p ->
  polling s = match p' with Polls | Finishes _ => true | _ => false end ->
  (forall g, poller_firing g p = 0%nat /\ poller_firing g p' = 0%nat) ->
  (cancelled s = false -> p' <> Waits /\ match p' with PollerFires _ | Ready => future s = false | _ => True end) ->
  (p' = Ready -> cancelled s = true \/ finished s = true) ->
  offload_inv (mkOffloadConfig s ab p' cs).
Proof.
  intros [I1 I2 I3 I4 I5 I6 I7 I8 I9 I10] Hh Hp Hg Hc Hr. unfold total in *. simpl in *.
  assert (Hn : forall q, p <> PollerFires q) by (intros q ->; destruct (Hg (fun _ => 1%nat)); done).
  destruct (Hg to_notify) as [E1 E1'], (Hg to_publish) as [E2 E2'].
  split; unfold total; simpl; rewrite ?Hh, ?E1', ?E2'; try done; try lia.
  - intros Ho. destruct (I7 Ho) as (? & ? & _ & _). destruct (Hc Ho). by split_and!.
  - intros q Hq. destruct (I10 q Hq) as [?|[Ho|Ho]]; [auto| |right; by right]. simpl in Ho. by apply Hn in Ho.
Qed.

Lemma take_for_poll_inv s ab cs s' :
  offload_inv (mkOffloadConfig s ab Waits cs) -> take_for_poll s = (true, s') -> offload_inv (mkOffloadConfig s' ab Polls cs).
Proof.
  intros Hi E. unfold take_for_poll in E. destruct (cancelled s || polling s) eqn:Eo; [done|]. apply orb_false_iff in Eo as [Ec Ep].
  destruct (future s) eqn:Ef; [|done]. injection E as <-. destruct Hi as [I1 I2 I3 I4 I5 I6 I7 I8 I9 I10]. unfold total in *. simpl in *.
  rewrite Ef in *. simpl in *. destruct (I7 Ec) as (Hno & HF & _).
  assert (Hd : FutureDisposed ∉ happened s) by (apply times_none; lia).
  split; unfold total; cbn [shared poller cancellers]; rewrite ?times_happens; unfold times in *; simpl in *; try done; try lia; try congruence.
  - intros _. split_and!; [|done..]. rewrite not_elem_of_app. split; [done|]. set_solver.
  - by apply no_late_poll_snoc.
  - intros q [Hq|Hq]%elem_of_app; [|set_solver]. destruct (I10 q Hq) as [?|[Ho|Ho]]; [auto|done|right; by right].
Qed.
Lemma finish_poll_inv s ab w cs keep s' :
  offload_inv (mkOffloadConfig s ab (Finishes w) cs) -> finish_poll (outcome_of w) s = Ret (keep, s') ->
  offload_inv (mkOffloadConfig s' ab (if keep then after_finish w else Waits) cs).
Proof.
  intros Hi E. assert (Ef : future s = false).
  { pose proof (oi_future _ Hi) as H. simpl in H. destruct (future s); simpl in H; [lia|done]. }
  unfold finish_poll in E. rewrite Ef in E. simpl in E. destruct Hi as [I1 I2 I3 I4 I5 I6 I7 I8 I9 I10]. unfold total in *. simpl in *.
  rewrite Ef in *. assert (Hw : forall q, WakePanicked q ∈ happened s -> q ∈ recorded s \/ CancellerFires (RecordsWake q) ∈ cs).
  { intros q Hq. destruct (I10 q Hq) as [?|[Ho|Ho]]; [auto|done|auto]. }
  destruct w; simpl in E; [destruct (cancelled s) eqn:Ec|..]; simpl in E; simplify_eq; simpl; rewrite ?Ec in *;
    (split; unfold total, times in *; simpl in *; try done; try lia;
     [try (intros Ho; destruct (I7 Ho) as (? & ? & _); by split_and!)..|]);
    (intros q Hq; destruct (Hw q Hq); [auto|right; by right]).
Qed.
Lemma dispose_inv s ab cs panics :
  offload_inv (mkOffloadConfig s ab Disposes cs) -> offload_inv (mkOffloadConfig (dispose_future panics s) ab (PollerFires Fires) cs).
Proof.
  intros [I1 I2 I3 I4 I5 I6 I7 I8 I9 I10]. destruct (dispose_keeps panics s) as (D1 & D2 & D3 & D4 & D5 & D6 & D7 & D8).
  unfold total in *. simpl in *. split; unfold total; simpl; rewrite ?D1, ?D2, ?D3, ?D4, ?D5, ?disposed_dispose, ?happens_dispose by done; try done; try lia.
  - intros Ho. destruct (I7 Ho) as (? & ? & _). split_and!; [by rewrite D6|done|done|]. destruct (future s); [simpl in *; lia|done].
  - auto.
  - intros q Hq. rewrite D6 in Hq by done. destruct (I10 q Hq) as [?|[Ho|Ho]]; [auto|done|right; by right].
Qed.
Lemma record_inv s ab p cs payload :
  offload_inv (mkOffloadConfig s ab p cs) -> offload_inv (mkOffloadConfig (record payload s) ab p cs).
Proof. intros [I1 I2 I3 I4 I5 I6 I7 I8 I9 I10]. split; try done. intros q Hq. destruct (I10 q Hq); [left; simpl in *; set_solver|by right]. Qed.

Lemma poller_step_inv s ab p cs p' s' :
  offload_inv (mkOffloadConfig s ab p cs) -> poller_step ab p s p' s' -> offload_inv (mkOffloadConfig s' ab p' cs).
Proof.
  intros Hi Hs. destruct Hs as [s s' E|s s' E|s Ha|s w|s s' w E|s s' w E|s payload|s panics|f s f' s' Hf].
  - by eapply take_for_poll_inv.
  - unfold take_for_poll in E. destruct (cancelled s || polling s) eqn:Eo.
    + simplify_eq. pose proof (oi_polling _ Hi) as Hp. simpl in Hp. rewrite Hp, orb_false_r in Eo.
      eapply poller_moves; [exact Hi|done|done|done|congruence|auto].
    + apply orb_false_iff in Eo as [Ec _]. destruct (oi_open _ Hi Ec) as (_ & _ & Hw & _). simpl in Hw. rewrite (Hw eq_refl) in E. done.
  - pose proof (oi_polling _ Hi). by eapply poller_moves.
  - pose proof (oi_polling _ Hi). by eapply poller_moves.
  - exact (finish_poll_inv _ _ _ _ _ _ Hi E).
  - exact (finish_poll_inv _ _ _ _ _ _ Hi E).
  - pose proof (oi_polling _ Hi). apply record_inv. by eapply poller_moves.
  - by apply dispose_inv.
  - by eapply poller_fires_inv.
Qed.

(** A canceller moves without touching the shared state. *)
Lemma canceller_moves s ab ab' p cs i k k' :
  offload_inv (mkOffloadConfig s ab p cs) -> cs !! i = Some k ->
  canceller_holds k' = canceller_holds k -> (forall g, canceller_firing g k = 0%nat /\ canceller_firing g k' = 0%nat) ->
  (past_firing k' = true -> finished s = true) -> past_cancel k' = past_cancel k ->
  offload_inv (mkOffloadConfig s ab' p (<[i:=k']> cs)).
Proof.
  intros [I1 I2 I3 I4 I5 I6 I7 I8 I9 I10] Hk Hh Hg Hf Hc. unfold total in *. simpl in *.
  assert (Hs : forall g, sum_of (canceller_firing g) (<[i:=k']> cs) = sum_of (canceller_firing g) cs).
  { intros g. destruct (Hg g). pose proof (sum_of_insert (canceller_firing g) _ _ _ k' Hk). lia. }
  pose proof (sum_of_insert canceller_holds _ _ _ k' Hk) as Hsh.
  split; unfold total; simpl; rewrite ?Hs; try done; [lia|..].
  - intros x [->|?]%(elem_of_insert_list _ _ _ _ _ Hk); eauto.
  - intros E. destruct (I6 E) as [? (x & Hx & Hp)]. split; [done|].
    destruct (elem_of_kept_list _ _ k' _ _ Hk Hx) as [->|?]; [exists k'; split; [by eapply elem_of_new_list|congruence]|eauto].
  - intros E. destruct (I7 E) as (? & HF & ? & ?). split_and!; [done| |done|done]. rewrite Forall_forall in *.
    intros x [->|?]%(elem_of_insert_list _ _ _ _ _ Hk); [rewrite Hc; apply HF; by eapply list_elem_of_lookup_2|auto].
  - intros q Hq. destruct (I10 q Hq) as [?|[Ho|Ho]]; [auto|right; by left|]. right. right. simpl in *.
    destruct (elem_of_kept_list _ _ k' _ _ Hk Ho) as [<-|?]; [destruct (Hg (fun _ => 1%nat)); done|done].
Qed.
Lemma cancel_take_inv s ab p cs i taken s' :
  offload_inv (mkOffloadConfig s ab p cs) -> cs !! i = Some Cancels -> cancel_take s = (taken, s') ->
  offload_inv (mkOffloadConfig s' ab p (<[i:=if taken then DisposesIdle else CancellerFires Fires]> cs)).
Proof.
  intros [I1 I2 I3 I4 I5 I6 I7 I8 I9 I10] Hk E. unfold cancel_take in E. injection E as Et <-. unfold total in *. simpl in *.
  set (k' := if taken then DisposesIdle else CancellerFires Fires).
  assert (Hs : forall g, sum_of (canceller_firing g) (<[i:=k']> cs) = (sum_of (canceller_firing g) cs + canceller_firing g k')%nat).
  { intros g. pose proof (sum_of_insert (canceller_firing g) _ _ _ k' Hk). simpl in *. lia. }
  pose proof (sum_of_insert canceller_holds _ _ _ k' Hk) as Hsh. simpl in Hsh.
  assert (Hf : (if polling s then future s else false) = false).
  { destruct (polling s) eqn:Ep; [|done]. destruct (future s); [|done]. destruct p; simpl in *; try done; lia. }
  assert (Hh : (Nat.b2n (future s) = canceller_holds k')%nat).
  { unfold k'. destruct (polling s); subst taken; [by rewrite Hf|by destruct (future s)]. }
  assert (Hk' : past_cancel k' = true /\ past_firing k' = false /\ forall q, k' <> CancellerFires (RecordsWake q)) by (unfold k'; by destruct taken).
  destruct Hk' as (Hk1 & Hk2 & Hk3). assert (Hn : canceller_firing to_notify k' = 0%nat /\ canceller_firing to_publish k' = 0%nat) by (unfold k'; by destruct taken).
  split; unfold total; cbn [shared poller cancellers]; rewrite ?times_happens, ?Hs; unfold times in *; simpl in *; rewrite ?Hf; try done; try lia.
  - cbn [Nat.b2n]. lia.
  - intros x [->|?]%(elem_of_insert_list _ _ _ _ _ Hk); [congruence|eauto].
  - intros _. split; [done|]. exists k'. split; [by eapply elem_of_new_list|done].
  - by apply no_late_poll_snoc.
  - intros q [Hq|Hq]%elem_of_app; [|set_solver]. destruct (I10 q Hq) as [?|[Ho|Ho]]; [auto|right; by left|]. right. right. simpl in *.
    by destruct (elem_of_kept_list _ _ k' _ _ Hk Ho) as [?|?].
Qed.
Lemma cancel_dispose_inv s ab p cs i panics :
  offload_inv (mkOffloadConfig s ab p cs) -> cs !! i = Some DisposesIdle ->
  offload_inv (mkOffloadConfig (dispose_future panics s) ab p (<[i:=CancellerFires Fires]> cs)).
Proof.
  intros [I1 I2 I3 I4 I5 I6 I7 I8 I9 I10] Hk. destruct (dispose_keeps panics s) as (D1 & D2 & D3 & D4 & D5 & D6 & D7 & D8).
  assert (Hs : forall g, sum_of (canceller_firing g) (<[i:=CancellerFires Fires]> cs) = (sum_of (canceller_firing g) cs + g Fires)%nat).
  { intros g. pose proof (sum_of_insert (canceller_firing g) _ _ _ (CancellerFires Fires) Hk). simpl in *. lia. }
  pose proof (sum_of_insert canceller_holds _ _ _ (CancellerFires Fires) Hk) as Hsh. simpl in Hsh. unfold total in *. simpl in *.
  split; unfold total; simpl; rewrite ?D1, ?D2, ?D3, ?D4, ?D5, ?disposed_dispose, ?happens_dispose, ?Hs by done; simpl; try done; try lia.
  - intros x [->|?]%(elem_of_insert_list _ _ _ _ _ Hk); eauto. done.
  - intros E. destruct (I6 E) as [? _]. split; [done|]. exists (CancellerFires Fires). split; [by eapply elem_of_new_list|done].
  - intros E. destruct (I7 E) as (_ & HF & _). rewrite Forall_forall in HF. by specialize (HF _ (list_elem_of_lookup_2 _ _ _ Hk)).
  - auto.
  - intros q Hq. rewrite D6 in Hq by done. destruct (I10 q Hq) as [?|[Ho|Ho]]; [auto|right; by left|]. right. right. simpl in *.
    by destruct (elem_of_kept_list _ _ (CancellerFires Fires) _ _ Hk Ho) as [?|?].
Qed.

Lemma canceller_step_inv s ab ab' p cs i k k' s' :
  offload_inv (mkOffloadConfig s ab p cs) -> cs !! i = Some k -> canceller_step k s k' s' ->
  offload_inv (mkOffloadConfig s' ab' p (<[i:=k']> cs)).
Proof.
  intros Hi Hk Hs. assert (Hab : forall s cs, offload_inv (mkOffloadConfig s ab p cs) -> offload_inv (mkOffloadConfig s ab' p cs)) by by intros ? ? [].
  destruct Hs as [s|s s' E|s s' E|s panics|f s f' s' Hf|s|s s' E|s s' panics E].
  - by eapply canceller_moves.
  - exact (Hab _ _ (cancel_take_inv _ _ _ _ _ _ _ Hi Hk E)).
  - exact (Hab _ _ (cancel_take_inv _ _ _ _ _ _ _ Hi Hk E)).
  - by apply Hab, cancel_dispose_inv.
  - by eapply Hab, canceller_fires_inv.
  - eapply canceller_moves; [exact Hi|exact Hk|done|done| |done]. intros _. apply (oi_fired _ Hi Aborts); [by eapply list_elem_of_lookup_2|done].
  - pose proof (oi_fired _ Hi FiresAgain ltac:(by eapply list_elem_of_lookup_2) eq_refl) as Hf. simpl in Hf.
    unfold fire_silently in E. injection E as _ <-. rewrite <- Hf at 1. destruct s. simpl in *. by eapply canceller_moves.
  - pose proof (oi_fired _ Hi FiresAgain ltac:(by eapply list_elem_of_lookup_2) eq_refl) as Hf. simpl in Hf.
    unfold fire_silently in E. rewrite Hf in E. done.
Qed.

Lemma offload_step_inv c c' : offload_step c c' -> offload_inv c -> offload_inv c'.
Proof.
  intros [p s Hs|i k k' s Hk Hs|] Hi; destruct c as [s0 ab p0 cs]; simpl in *.
  - by eapply poller_step_inv.
  - by eapply canceller_step_inv.
  - destruct Hi as [I1 I2 I3 I4 I5 I6 I7 I8 I9 I10]. unfold total in *. simpl in *.
    split; unfold total; simpl; rewrite ?sum_of_app; simpl; rewrite ?Nat.add_0_r; try done.
    + intros k [?|Hx%list_elem_of_singleton]%elem_of_app; [eauto|by subst k].
    + intros E. destruct (I6 E) as [? (k & ? & ?)]. split; [done|]. exists k. set_solver.
    + intros E. destruct (I7 E) as (? & ? & ? & ?). split_and!; [done|apply Forall_app; by split; [|constructor]|done|done].
    + intros q Hq. destruct (I10 q Hq) as [?|[?|?]]; [auto|right; by left|right; right]. simpl in *. set_solver.
Qed.
Lemma offload_reachable c : rtc offload_step offload_start c -> offload_inv c.
Proof.
  intros H. assert (Hg : forall c c', rtc offload_step c c' -> offload_inv c -> offload_inv c').
  { induction 1; eauto using offload_step_inv. }
  eapply Hg; [done|apply offload_inv_start].
Qed.

(** C34: the future of an offload is destroyed once and not polled afterwards.
    However its task and any number of cancellers interleave, the work's future
    is in exactly one place; no poll starts after a cancellation or after the
    future's destruction; the completion is notified at most once, and it is
    published only after that wake has returned and its panic, if any, was
    recorded.  The poller's assertion never fails. *)
Theorem offload_protocol c :
  rtc offload_step offload_start c ->
  (times FutureDisposed (shared c) <= 1 /\ times Notified (shared c) <= 1)%nat /\
  no_late_poll (happened (shared c)) /\
  (finished_published (shared c) = true ->
    Notified ∈ happened (shared c) /\ forall payload, WakePanicked payload ∈ happened (shared c) -> payload ∈ recorded (shared c)) /\
  (forall w, poller c = Finishes w -> exists r, finish_poll (outcome_of w) (shared c) = Ret r).
Proof.
  intros Hi%offload_reachable. pose proof (notified_once _ Hi) as H1. split_and!; [pose proof (oi_future _ Hi); lia|done|apply Hi| |].
  - intros Hp. pose proof (oi_published _ Hi) as H2. rewrite Hp in H2. simpl in H2. split.
    + destruct (decide (Notified ∈ happened (shared c))) as [?|Hn]; [done|]. exfalso.
      assert (times Notified (shared c) = 0%nat); [|lia]. unfold times. apply length_zero_iff_nil, elem_of_nil_inv. intros x [-> ?]%list_elem_of_filter. done.
    + intros q Hq. destruct (oi_wakes _ Hi q Hq) as [?|[Ho|Ho]]; [done|..]; exfalso; unfold total in H2.
      * rewrite Ho in H2. simpl in H2. lia.
      * apply list_elem_of_lookup in Ho as [i Ho]. pose proof (sum_of_ge (canceller_firing to_publish) _ _ _ Ho). simpl in *. lia.
  - intros w Hw. pose proof (oi_future _ Hi) as H2. rewrite Hw in H2. simpl in H2. unfold finish_poll.
    destruct (future (shared c)); [simpl in *; lia|]. destruct w; simpl; [destruct (cancelled (shared c))|..]; simpl; eauto.
Qed.

(** Nobody is in the middle of a call. *)
Definition at_rest (c : Offload) : Prop :=
  match poller c with Waits | Ready | Dropped => True | _ => False end /\ Forall (fun k => k = CancelDone) (cancellers c).

(** An offload that was cancelled, or whose task has ended, is settled.  When
    every call has returned, its future has been destroyed, its completion was
    notified and is published, whichever thread got to do it. *)
Theorem offload_settles c :
  rtc offload_step offload_start c -> at_rest c -> cancellers c <> [] \/ poller c = Ready ->
  future (shared c) = false /\ times FutureDisposed (shared c) = 1%nat /\ times Notified (shared c) = 1%nat /\
  finished_published (shared c) = true.
Proof.
  intros Hi%offload_reachable [Hp Hc] Hend.
  assert (Hz : forall g, g CancelDone = 0%nat -> sum_of g (cancellers c) = 0%nat).
  { intros g Hg. unfold sum_of. clear -Hc Hg. induction Hc as [|k l -> _ IH]; simpl; [done|]. rewrite Hg. exact IH. }
  pose proof (oi_future _ Hi) as I1. pose proof (oi_notified _ Hi) as I3. pose proof (oi_published _ Hi) as I4. unfold total in *.
  rewrite !Hz in * by done. assert (Hf0 : forall g, poller_firing g (poller c) = 0%nat) by (intros g; by destruct (poller c)).
  rewrite !Hf0 in *. assert (Hh : poller_holds (poller c) = 0%nat) by by destruct (poller c).
  assert (Hdone : cancellers c <> [] -> finished (shared c) = true).
  { intros Hne. destruct (cancellers c) as [|k l] eqn:E; [done|]. inversion Hc; subst. apply (oi_fired _ Hi CancelDone); [rewrite E; left|done]. }
  assert (Hboth : future (shared c) = false /\ finished (shared c) = true).
  { destruct (cancelled (shared c)) eqn:Ec.
    - destruct (oi_cancelled _ Hi Ec) as [? (k & Hk & _)]. split; [done|]. apply Hdone. intros E. rewrite E in Hk. by apply not_elem_of_nil in Hk.
    - destruct (oi_open _ Hi Ec) as (_ & HF & _ & Hr). destruct Hend as [Hne|Hr'].
      + destruct (cancellers c) as [|k l]; [done|]. inversion Hc; inversion HF; by subst.
      + rewrite Hr' in Hr. split; [done|]. destruct (oi_ready _ Hi Hr'); [congruence|done]. }
  destruct Hboth as [Hfu Hfi]. rewrite Hfu, Hfi in *. simpl in *. split_and!; [done|lia|lia|]. destruct (finished_published (shared c)); [done|simpl in *; lia].
Qed.

(** A canceller meets a poll in progress: the poller destroys the future, the
    canceller fires the completion, whose wake panics. *)
Ltac poller_does c := eapply rtc_l; [eapply step_poller; eapply c; try reflexivity|cbn].
Ltac canceller_does c := eapply rtc_l; [eapply (step_canceller _ 0); [reflexivity|eapply c; try reflexivity]|cbn].
Lemma offload_demo :
  exists c, rtc offload_step offload_start c /\ at_rest c /\ cancellers c <> [] /\ WakePanicked "wake" ∈ happened (shared c).
Proof.
  eexists. split; [|split; [|split]].
  - poller_does poll_takes. eapply rtc_l; [apply step_cancel|cbn]. canceller_does cancel_fires. canceller_does cancel_busy.
    eapply rtc_l; [eapply step_poller; eapply (poll_runs _ _ WorkPending)|cbn].
    canceller_does cancel_notifies; [eapply fires_first; reflexivity|cbn].
    canceller_does cancel_notifies; [eapply (notify_panics _ "wake")|cbn]. canceller_does cancel_notifies; [eapply records_wake|cbn].
    poller_does poll_ends. canceller_does cancel_notifies; [eapply publishes|cbn].
    eapply rtc_l; [eapply step_poller; eapply (poll_disposes _ _ None)|cbn]. canceller_does cancel_aborts. canceller_does cancel_again_late.
    poller_does poll_fires; [eapply fires_late; reflexivity|cbn]. apply rtc_refl.
  - split; [exact I|]. repeat constructor.
  - discriminate.
  - cbn. set_solver.
Qed.

Lemma offload_protocol_witness :
  exists c, rtc offload_step offload_start c /\ (times FutureDisposed (shared c) <= 1 /\ times Notified (shared c) <= 1)%nat.
Proof.
  destruct offload_demo as (c & Hc & _). exists c. split; [exact Hc|]. exact (proj1 (offload_protocol c Hc)).
Defined.
Lemma offload_settles_witness :
  exists c, rtc offload_step offload_start c /\ times FutureDisposed (shared c) = 1%nat /\ finished_published (shared c) = true.
Proof.
  destruct offload_demo as (c & Hc & Hr & Hne & _). exists c. split; [exact Hc|].
  destruct (offload_settles c Hc Hr (or_introl Hne)) as (_ & H1 & _ & H2). exact (conj H1 H2).
Defined.
