(* ===== verification/Member.v ===== *)
(** * Member cells

    [crates/shelterwood/src/cells/member.rs]: the shared record of one child
    membership, the legality matrix of its stage transitions, its mailbox slot
    and its terminalization.

    Every operation runs with the member's observation gate held (the capture
    loops are in [Gate.v]) and returns the effects it hands to the observation
    transaction, in order.  [Guarded] and [Retained] choose the venue in which
    a user error's destructor runs; they are transparent here.  Mailbox
    controls are shared objects, so a member names its control by the handle
    under which a store holds it. *)

From S2P Require Import Prelude Identity Exit Policy Restart Gate Watch.

Module MemberStage.
Inductive t :=
| Reserved
| Admitted_
| Starting
| Running
| Restarting
| Stopping
| Terminal (exit : Exit).

Definition is_terminal (s : t) : bool := match s with Terminal _ => true | _ => false end.
End MemberStage.

Module MemberTransition.
Inductive t :=
| Admitted_
| Starting (incarnation : Incarnation)
| Running
| Stopping
| RestartScheduled (exit : Exit) (restart_count : RestartCount.t) (restart_at : option Z).

Definition is_legal_from (self : t) (stage : MemberStage.t) : bool :=
  match stage, self with
  | MemberStage.Reserved, Admitted_
  | (MemberStage.Admitted_ | MemberStage.Restarting), Starting _
  | (MemberStage.Starting | MemberStage.Reserved), Running
  | (MemberStage.Starting | MemberStage.Running), Stopping
  | (MemberStage.Starting | MemberStage.Running | MemberStage.Stopping), RestartScheduled _ _ _ =>
      true
  | _, _ => false
  end.
End MemberTransition.

Module StartupDisposition.
Inductive t := Unchanged | NotAborted | Aborted.
End StartupDisposition.

Module MemberRecord.
Record t := mk
  { stage : MemberStage.t;
    incarnation : option Incarnation;
    last_incarnation : option Incarnation;
    last_exit : option Exit;
    restart_count : RestartCount.t;
    restart_at : option Z;
    membership_status : MembershipStatus;
    startup_aborted : bool }.

Definition set_stage (s : MemberStage.t) (r : t) : t :=
  mk s (incarnation r) (last_incarnation r) (last_exit r) (restart_count r) (restart_at r)
    (membership_status r) (startup_aborted r).

(** [Err] returns the transition to its caller, the record untouched. *)
Definition apply_transition (transition : MemberTransition.t) (self : t) : option t :=
  if negb (MemberTransition.is_legal_from transition (stage self)) then None
  else Some
    match transition with
    | MemberTransition.Admitted_ => set_stage MemberStage.Admitted_ self
    | MemberTransition.Starting i =>
        mk MemberStage.Starting (Some i) (Some i) (last_exit self) (restart_count self) None
          (membership_status self) (startup_aborted self)
    | MemberTransition.Running => set_stage MemberStage.Running self
    | MemberTransition.Stopping => set_stage MemberStage.Stopping self
    | MemberTransition.RestartScheduled exit count at_ =>
        mk MemberStage.Restarting None (last_incarnation self) (Some exit) count at_
          (membership_status self) (startup_aborted self)
    end.

(** The closure of [terminalize_locked], and whether it [published]. *)
Definition terminalized (exit : Exit) (startup : StartupDisposition.t) (self : t) : t * bool :=
  if MemberStage.is_terminal (stage self) then (self, false)
  else
    let aborted := match startup with
                   | StartupDisposition.Unchanged => startup_aborted self
                   | StartupDisposition.NotAborted => false
                   | StartupDisposition.Aborted => true
                   end in
    (mk (MemberStage.Terminal exit) None (last_incarnation self) (Some exit) (restart_count self)
       None (membership_status self) aborted, true).

Definition initial : t :=
  mk MemberStage.Reserved None None None RestartCount.ZERO None Active false.
End MemberRecord.

(** What a member needs of the mailbox trait object: its termination under the
    gate, which yields a teardown to finish later the first time, and defers
    effects of its own. *)
Class MailboxControl (M T F : Type) := {
  prepare_termination : M -> option T * list F * M;
  terminated : M -> bool;
  prepare_terminates m : terminated (prepare_termination m).2 = true;
  prepare_when_terminated m :
    terminated m = true -> prepare_termination m = (None, [], m);
  prepare_when_live m :
    terminated m = false -> is_Some (prepare_termination m).1.1 }.

Module MemberMailbox.
Inductive t :=
| Unattached
| Attached (control : nat)
| Terminal (control : option nat).

Definition is_terminal (m : t) : bool := match m with Terminal _ => true | _ => false end.
Definition control (m : t) : option nat :=
  match m with Unattached => None | Attached h => Some h | Terminal h => h end.
End MemberMailbox.

(** The transaction effects of member operations. *)
Module MemberEffect.
Inductive t (T F : Type) :=
| PulseRecord                                (** [txn.pulse(&self.record)] *)
| Raise (message : string)                   (** a deferred [panic!] *)
| DisposeMailbox (control : nat)             (** [dispose_detached(rejected)] *)
| FinishTeardown (control : nat) (teardown : T)
| MailboxEffect (effect : F)                 (** deferred by [prepare_termination] *)
| DisposeTransition (rejected : MemberTransition.t)
| DropExit (exit : Exit)                     (** the losing exit *)
| SurrenderExit (exit : Exit).
Arguments PulseRecord {T F}. Arguments Raise {T F}. Arguments DisposeMailbox {T F}.
Arguments FinishTeardown {T F}. Arguments MailboxEffect {T F}. Arguments DisposeTransition {T F}.
Arguments DropExit {T F}. Arguments SurrenderExit {T F}.
End MemberEffect.

Module MemberCell.
Record t := mk
  { id : ChildId;
    own_membership : Membership;               (** the field [membership] *)
    rebased_membership : option Membership;
    provisional : option ProvisionalMembership;
    incarnations : option IncarnationCounter.t;
    record : WatchShared MemberRecord.t;
    terminal_disposal_pending : bool;
    mailbox_slot : MemberMailbox.t;            (** the field [mailbox] *)
    options_slot : option ResolvedCommonOptions }.  (** the field [options] *)

Definition set_record (r : WatchShared MemberRecord.t) (c : t) : t :=
  mk (id c) (own_membership c) (rebased_membership c) (provisional c) (incarnations c) r
    (terminal_disposal_pending c) (mailbox_slot c) (options_slot c).
Definition set_mailbox (m : MemberMailbox.t) (c : t) : t :=
  mk (id c) (own_membership c) (rebased_membership c) (provisional c) (incarnations c) (record c)
    (terminal_disposal_pending c) m (options_slot c).

(** [runtime::watch] with its receiver dropped at once. *)
Definition new (identity : MintedMembership.t) : t :=
  let '(membership, provisional, incarnations) :=
    MintedMembership.into_provisional_parts identity in
  mk (MintedMembership.id identity) membership None (Some provisional) (Some incarnations)
    (drop_receiver (watch MemberRecord.initial).1) false MemberMailbox.Unattached None.

Definition membership (c : t) : Membership :=
  default (own_membership c) (rebased_membership c).

Definition take_provisional_membership (c : t) : outcome (ProvisionalMembership * t) :=
  p ← expect "a declaration membership can be reconciled at most once" (provisional c);
  Ret (p, mk (id c) (own_membership c) (rebased_membership c) None (incarnations c) (record c)
            (terminal_disposal_pending c) (mailbox_slot c) (options_slot c)).

Definition current (c : t) : MemberRecord.t := read_cloned (record c).
Definition stage (c : t) : MemberStage.t := MemberRecord.stage (current c).

Definition rebase_membership (identity : MintedMembership.t) (c : t) : outcome t :=
  let '(membership, counter) := MintedMembership.into_pair identity in
  let r := current c in
  _ ← assert_that
        (match MemberRecord.stage r with MemberStage.Reserved => true | _ => false end
         && bool_decide (MemberRecord.incarnation r = None)
         && bool_decide (MemberRecord.last_incarnation r = None))
        "only an unstarted reservation can be rebased";
  _ ← assert_that (bool_decide (rebased_membership c = None))
        "a reservation can be rebased at most once";
  Ret (mk (id c) (own_membership c) (Some membership) (provisional c) (Some counter) (record c)
         (terminal_disposal_pending c) (mailbox_slot c) (options_slot c)).

Definition take_incarnation_counter (c : t) : outcome (IncarnationCounter.t * t) :=
  counter ← expect "a membership's incarnation counter is issued to one runtime" (incarnations c);
  Ret (counter, mk (id c) (own_membership c) (rebased_membership c) (provisional c) None (record c)
                  (terminal_disposal_pending c) (mailbox_slot c) (options_slot c)).

(** Marker first, record second. *)
Definition terminal_or_disposal_pending (c : t) : bool :=
  terminal_disposal_pending c || MemberStage.is_terminal (stage c).

Definition set_terminal_disposal_pending (pending : bool) (c : t) : t :=
  mk (id c) (own_membership c) (rebased_membership c) (provisional c) (incarnations c) (record c)
    pending (mailbox_slot c) (options_slot c).

Definition set_options (options : ResolvedCommonOptions) (c : t) : outcome t :=
  _ ← assert_that (bool_decide (options_slot c = None)) "member options are resolved exactly once";
  Ret (mk (id c) (own_membership c) (rebased_membership c) (provisional c) (incarnations c)
         (record c) (terminal_disposal_pending c) (mailbox_slot c) (Some options)).

Definition options (c : t) : outcome ResolvedCommonOptions :=
  expect "resident member options are resolved before snapshot publication" (options_slot c).

Definition mailbox (c : t) : option nat := MemberMailbox.control (mailbox_slot c).

Definition would_accept (transition : MemberTransition.t) (c : t) : bool :=
  read_with (fun r => MemberTransition.is_legal_from transition (MemberRecord.stage r)) (record c).

(** One iteration of [wait_terminal]: the exit, or the receiver after
    [changed()] if it is ready. *)
Definition wait_terminal_iteration (watcher : WatchReceiver) (c : t)
  : Exit + option WatchReceiver :=
  match MemberRecord.stage (borrow_cloned (record c)) with
  | MemberStage.Terminal exit => inl exit
  | _ => inr (mkReceiver ∘ snd <$> watch_ready (record c) (seen watcher))
  end.

Section locked.
Context {M T F : Type} `{!MailboxControl M T F}.
Local Abbreviation Effects := (list (Deferred (MemberEffect.t T F))).
Local Abbreviation Controls := (gmap nat M).

Definition update_locked (update : MemberRecord.t -> MemberRecord.t) (c : t) : Effects * t :=
  ([Defer MemberEffect.PulseRecord], set_record (modify_silently update (record c)) c).

Definition retained_exit (transition : MemberTransition.t) : Effects :=
  match transition with
  | MemberTransition.RestartScheduled exit _ _ => [DeferSurrender (MemberEffect.SurrenderExit exit)]
  | _ => []
  end.

Definition transition_locked (transition : MemberTransition.t) (c : t) : bool * Effects * t :=
  match MemberRecord.apply_transition transition (current c) with
  | None =>
      (false,
       retained_exit transition ++ [Defer (MemberEffect.DisposeTransition transition)], c)
  | Some r =>
      (true, [Defer MemberEffect.PulseRecord] ++ retained_exit transition,
       set_record (modify_silently (fun _ => r) (record c)) c)
  end.

(** [control.prepare_termination(txn)] on the shared control [h], and the
    deferred [finish] of the teardown it yields. *)
Definition terminate_control (h : nat) (ms : Controls) : Effects * Controls :=
  match ms !! h with
  | None => ([], ms)
  | Some m =>
      let '(teardown, fx, m) := prepare_termination m in
      (((fun f => Defer (MemberEffect.MailboxEffect f)) <$> fx) ++
         match teardown with
         | Some d => [Defer (MemberEffect.FinishTeardown h d)]
         | None => []
         end,
       <[h := m]> ms)
  end.

Definition attach_mailbox (h : nat) (c : t) (ms : Controls) : Effects * t * Controls :=
  match mailbox_slot c with
  | MemberMailbox.Unattached => ([], set_mailbox (MemberMailbox.Attached h) c, ms)
  | MemberMailbox.Attached _ | MemberMailbox.Terminal (Some _) =>
      ([Defer (MemberEffect.Raise "a member can own only one mailbox");
        Defer (MemberEffect.DisposeMailbox h)], c, ms)
  | MemberMailbox.Terminal None =>
      let '(fx, ms) := terminate_control h ms in
      (fx, set_mailbox (MemberMailbox.Terminal (Some h)) c, ms)
  end.

(** The mailbox slot's half: whether this terminalizer lost, and the control
    it must terminate. *)
Definition claim_mailbox (c : t) : bool * option nat * t :=
  match mailbox_slot c with
  | MemberMailbox.Terminal _ => (true, None, c)
  | MemberMailbox.Unattached => (false, None, set_mailbox (MemberMailbox.Terminal None) c)
  | MemberMailbox.Attached h => (false, Some h, set_mailbox (MemberMailbox.Terminal (Some h)) c)
  end.

(** The record half: the store, the mailbox's preparation, and the pulse queued
    after it when [TerminalRecordPulse] drops. *)
Definition publish_terminal (exit : Exit) (startup : StartupDisposition.t)
    (attached : option nat) (c : t) (ms : Controls) : Exit * Effects * t * Controls :=
  let '(r, published) := MemberRecord.terminalized exit startup (current c) in
  let c := set_record (modify_silently (fun _ => r) (record c)) c in
  let '(fx, ms) :=
    match attached with Some h => terminate_control h ms | None => ([], ms) end in
  (exit, fx ++ (if published then [Defer MemberEffect.PulseRecord] else []), c, ms).

Definition terminalize_locked (exit : Exit) (startup : StartupDisposition.t) (c : t)
    (ms : Controls) : Exit * Effects * t * Controls :=
  let '(lost, attached, c) := claim_mailbox c in
  match lost, stage c with
  | true, MemberStage.Terminal winner =>
      (winner, [Defer (MemberEffect.DropExit exit)], c, ms)
  | _, _ => publish_terminal exit startup attached c ms
  end.

End locked.
End MemberCell.
