(* ===== verification/MemberProps.v ===== *)
(** * Member cells: invariants and terminalization

    Runs of member operations, in the order the observation gate serializes
    them, against the store of mailbox controls; each operation's effects are
    performed when its transaction commits. *)

From S2P Require Import Prelude Identity Exit Policy Restart Gate Watch Member.
Import MemberCell.

Section member.
Context {M T F : Type} `{!MailboxControl M T F}.
Local Abbreviation Effects := (list (Deferred (MemberEffect.t T F))).
Local Abbreviation Controls := (gmap nat M).

Inductive MemberOp :=
| Transition (tr : MemberTransition.t)
| Terminalize (exit : Exit) (startup : StartupDisposition.t)
| AttachMailbox (h : nat)
| Rebase (grant : MintedMembership.t)
| TakeProvisional
| TakeCounter
| SetDisposalPending (pending : bool)
| SetOptions (options : ResolvedCommonOptions)
| SetStatus (status : MembershipStatus).

Inductive MemberResult :=
| Accepted (accepted : bool)
| TerminalExit (exit : Exit)
| Plain.

(** The pulse a committed transaction performs on the record's channel. *)
Definition perform_deferred (c : t) (d : Deferred (MemberEffect.t T F)) : t :=
  match d with
  | Defer MemberEffect.PulseRecord => set_record (pulse (record c)) c
  | _ => c
  end.

Definition set_status (status : MembershipStatus) (r : MemberRecord.t) : MemberRecord.t :=
  MemberRecord.mk (MemberRecord.stage r) (MemberRecord.incarnation r)
    (MemberRecord.last_incarnation r) (MemberRecord.last_exit r) (MemberRecord.restart_count r)
    (MemberRecord.restart_at r) status (MemberRecord.startup_aborted r).

(** One operation, its transaction committed. *)
Definition member_exec (s : t * Controls) (op : MemberOp)
  : outcome ((MemberResult * Effects) * (t * Controls)) :=
  let '(c, ms) := s in
  let committed := fun r (fx : Effects) c ms => Ret ((r, fx), (foldl perform_deferred c fx, ms)) in
  match op with
  | Transition tr =>
      let '(ok, fx, c) := transition_locked tr c in committed (Accepted ok) fx c ms
  | Terminalize exit startup =>
      let '(winner, fx, c, ms) := terminalize_locked exit startup c ms in
      committed (TerminalExit winner) fx c ms
  | AttachMailbox h =>
      let '(fx, c, ms) := attach_mailbox h c ms in committed Plain fx c ms
  | Rebase grant => c ← rebase_membership grant c; committed Plain [] c ms
  | TakeProvisional => '(_, c) ← take_provisional_membership c; committed Plain [] c ms
  | TakeCounter => '(_, c) ← take_incarnation_counter c; committed Plain [] c ms
  | SetDisposalPending b => committed Plain [] (set_terminal_disposal_pending b c) ms
  | SetOptions o => c ← set_options o c; committed Plain [] c ms
  | SetStatus st => let '(fx, c) := update_locked (set_status st) c in committed Plain fx c ms
  end.

(** ** The record's invariant *)

Definition live_stage (s : MemberStage.t) : bool :=
  match s with
  | MemberStage.Starting | MemberStage.Running | MemberStage.Stopping => true
  | _ => false
  end.

(** Which fields a record carries at which stage.  [Running] is also legal from
    [Reserved], so only [Starting] promises an incarnation. *)
Definition record_ok (r : MemberRecord.t) : Prop :=
  (forall i, MemberRecord.incarnation r = Some i ->
     MemberRecord.last_incarnation r = Some i /\ live_stage (MemberRecord.stage r) = true) /\
  match MemberRecord.stage r with
  | MemberStage.Reserved | MemberStage.Admitted_ =>
      MemberRecord.last_incarnation r = None /\ MemberRecord.last_exit r = None /\
      MemberRecord.restart_at r = None
  | MemberStage.Starting =>
      is_Some (MemberRecord.incarnation r) /\ MemberRecord.restart_at r = None
  | MemberStage.Running | MemberStage.Stopping => MemberRecord.restart_at r = None
  | MemberStage.Restarting => is_Some (MemberRecord.last_exit r)
  | MemberStage.Terminal exit =>
      MemberRecord.last_exit r = Some exit /\ MemberRecord.restart_at r = None
  end.

Record member_inv (s : t * Controls) : Prop := mkMemberInv
  { inv_record : record_ok (current s.1);
    inv_slot : MemberMailbox.is_terminal (mailbox_slot s.1) = MemberStage.is_terminal (stage s.1);
    inv_control h m : mailbox_slot s.1 = MemberMailbox.Terminal (Some h) ->
      s.2 !! h = Some m -> terminated m = true }.

Lemma apply_transition_ok tr r r' :
  record_ok r -> MemberRecord.apply_transition tr r = Some r' ->
  record_ok r' /\ MemberStage.is_terminal (MemberRecord.stage r) = false /\
  MemberStage.is_terminal (MemberRecord.stage r') = false.
Proof.
  unfold record_ok, MemberRecord.apply_transition. intros [Hi Hs] H.
  destruct r as [st i li le rc ra ms sa]; destruct st, tr; simplify_eq/=; naive_solver.
Qed.

Lemma terminalized_ok exit startup r :
  record_ok r -> record_ok (MemberRecord.terminalized exit startup r).1 /\
  MemberStage.is_terminal (MemberRecord.stage (MemberRecord.terminalized exit startup r).1) = true.
Proof.
  unfold record_ok, MemberRecord.terminalized. destruct r as [st i li le rc ra ms sa].
  destruct st; naive_solver.
Qed.

(** ** Committing effects *)

Definition is_pulse (d : Deferred (MemberEffect.t T F)) : bool :=
  match d with Defer MemberEffect.PulseRecord => true | _ => false end.

Definition pulses (fx : Effects) : nat := length (filter (fun d => is_pulse d = true) fx).

Lemma perform_current fx c :
  current (foldl perform_deferred c fx) = current c /\
  mailbox_slot (foldl perform_deferred c fx) = mailbox_slot c.
Proof.
  revert c; induction fx as [|d fx IH]; intros c; [done|]. simpl.
  destruct (IH (perform_deferred c d)) as [-> ->]. destruct d as [[]| |]; done.
Qed.

Lemma member_inv_commit fx c ms :
  member_inv (c, ms) -> member_inv (foldl perform_deferred c fx, ms).
Proof.
  intros [h1 h2 h3]. destruct (perform_current fx c) as [Hc Hm].
  constructor; simpl in *; unfold stage; rewrite ?Hc, ?Hm; done.
Qed.

Lemma terminate_control_terminated h ms m :
  (terminate_control h ms).2 !! h = Some m -> terminated m = true.
Proof.
  unfold terminate_control. destruct (ms !! h) as [m0|] eqn:E; simpl; [|congruence].
  pose proof (prepare_terminates m0) as Hp. destruct (prepare_termination m0) as [[d fx] m1].
  simpl. rewrite lookup_insert_eq. naive_solver.
Qed.

Lemma transition_locked_inv tr c ms :
  member_inv (c, ms) -> member_inv ((transition_locked (T:=T) (F:=F) tr c).2, ms).
Proof.
  intros [h1 h2 h3]. unfold transition_locked.
  destruct (MemberRecord.apply_transition tr (current c)) as [r|] eqn:E; [|done].
  destruct (apply_transition_ok _ _ _ h1 E) as (Hr & Ho & Hn). unfold stage in h2. simpl in *.
  rewrite Ho in h2. constructor; simpl; [done|by rewrite h2, <- Hn|].
  intros h m Hs. rewrite Hs in h2. done.
Qed.

Lemma terminalize_locked_inv exit startup c ms :
  member_inv (c, ms) ->
  let r := terminalize_locked exit startup c ms in member_inv (r.1.2, r.2).
Proof.
  intros I. destruct I as [h1 h2 h3]. unfold terminalize_locked, claim_mailbox; simpl in *.
  destruct (terminalized_ok exit startup _ h1) as [Hr Ht].
  destruct (mailbox_slot c) as [|h|o] eqn:Es; simpl in h2.
  - unfold publish_terminal; simpl. change (current (set_mailbox _ c)) with (current c).
    destruct (MemberRecord.terminalized exit startup (current c)) as [r p]. constructor; simpl in *; done.
  - unfold publish_terminal; simpl. change (current (set_mailbox _ c)) with (current c).
    destruct (MemberRecord.terminalized exit startup (current c)) as [r p].
    pose proof (terminate_control_terminated h ms) as Hc.
    destruct (terminate_control h ms) as [fx ms']. constructor; simpl in *; naive_solver.
  - destruct (stage c) eqn:E; simplify_eq/=. constructor; simpl; rewrite ?E, ?Es; simpl; eauto.
Qed.

Lemma attach_mailbox_inv h c ms :
  member_inv (c, ms) -> let r := attach_mailbox h c ms in member_inv (r.1.2, r.2).
Proof.
  intros [h1 h2 h3]. unfold attach_mailbox; simpl in *.
  destruct (mailbox_slot c) as [|h'|[h'|]] eqn:Es; simpl in h2.
  - constructor; simpl; done.
  - constructor; simpl; rewrite ?Es; done.
  - constructor; simpl; rewrite ?Es; done.
  - pose proof (terminate_control_terminated h ms) as Hc.
    destruct (terminate_control h ms) as [fx ms']. constructor; simpl in *; naive_solver.
Qed.

Lemma member_exec_inv s op r s' :
  member_inv s -> member_exec s op = Ret (r, s') -> member_inv s'.
Proof.
  destruct s as [c ms]. intros I H. destruct op as [tr|exit startup|h|idn| | |b|o|st]; simpl in H.
  - pose proof (transition_locked_inv tr c ms I). destruct (transition_locked (T:=T) (F:=F) tr c) as [[ok fx] c'].
    simplify_eq. by apply member_inv_commit.
  - pose proof (terminalize_locked_inv exit startup c ms I).
    destruct (terminalize_locked exit startup c ms) as [[[w fx] c'] ms'].
    simplify_eq. by apply member_inv_commit.
  - pose proof (attach_mailbox_inv h c ms I). destruct (attach_mailbox h c ms) as [[fx c'] ms'].
    simplify_eq. by apply member_inv_commit.
  - apply bind_Ret_inv in H as (c' & Hc & H). simplify_eq. unfold rebase_membership in Hc.
    destruct (MintedMembership.into_pair idn) as [mem ctr].
    apply bind_Ret_inv in Hc as (? & _ & Hc). apply bind_Ret_inv in Hc as (? & _ & Hc).
    simplify_eq. by destruct I.
  - apply bind_Ret_inv in H as ([p c'] & Hc & H). simplify_eq.
    apply bind_Ret_inv in Hc as (? & _ & Hc). simplify_eq. by destruct I.
  - apply bind_Ret_inv in H as ([p c'] & Hc & H). simplify_eq.
    apply bind_Ret_inv in Hc as (? & _ & Hc). simplify_eq. by destruct I.
  - simplify_eq. by destruct I.
  - apply bind_Ret_inv in H as (c' & Hc & H). simplify_eq.
    apply bind_Ret_inv in Hc as (? & _ & Hc). simplify_eq. by destruct I.
  - simplify_eq. destruct I as [h1 h2 h3]. by constructor.
Qed.

Lemma member_inv_new grant ms : member_inv (new grant, ms).
Proof. by constructor; [split|..]. Qed.

Lemma member_run_inv s ops rs s' :
  member_inv s -> run_ops member_exec s ops = Ret (rs, s') -> member_inv s'.
Proof.
  revert s rs; induction ops as [|op ops IH]; intros s rs I H; simpl in H; [by simplify_eq|].
  apply bind_Ret_inv in H as ([r s1] & H1 & H). apply bind_Ret_inv in H as ([rs1 s2] & H2 & H).
  simplify_eq. eauto using member_exec_inv.
Qed.

(** C16: after any sequence of member operations the record is well formed: a
    live incarnation is also the last one and only exists while the member is
    starting, running or stopping; a restart deadline only while it is
    restarting; a terminal record keeps its exit as the last exit; and the
    mailbox slot is terminal exactly when the record is, with its mailbox, if
    any, terminated. *)
Theorem member_record_well_formed grant ms ops rs c ms' :
  run_ops member_exec (new grant, ms) ops = Ret (rs, (c, ms')) ->
  record_ok (current c) /\
  MemberMailbox.is_terminal (mailbox_slot c) = MemberStage.is_terminal (stage c) /\
  (forall h m, MemberStage.is_terminal (stage c) = true -> mailbox c = Some h ->
     ms' !! h = Some m -> terminated m = true).
Proof.
  intros H. destruct (member_run_inv _ _ _ _ (member_inv_new grant ms) H) as [h1 h2 h3].
  split; [done|]. split; [done|]. intros h m Ht Hm Hl. simpl in *. rewrite Ht in h2.
  apply (h3 h m); [|done]. unfold mailbox in Hm. by destruct (mailbox_slot c); simplify_eq/=.
Qed.

(** ** Transitions *)

Lemma apply_transition_legal tr r :
  is_Some (MemberRecord.apply_transition tr r) <->
  MemberTransition.is_legal_from tr (MemberRecord.stage r) = true.
Proof.
  unfold MemberRecord.apply_transition. destruct MemberTransition.is_legal_from; simpl; [naive_solver|].
  split; [intros [? ?]|]; done.
Qed.

Definition target (tr : MemberTransition.t) : MemberStage.t :=
  match tr with
  | MemberTransition.Admitted_ => MemberStage.Admitted_
  | MemberTransition.Starting _ => MemberStage.Starting
  | MemberTransition.Running => MemberStage.Running
  | MemberTransition.Stopping => MemberStage.Stopping
  | MemberTransition.RestartScheduled _ _ _ => MemberStage.Restarting
  end.

(** A transition is all or nothing: it is accepted exactly when the
    legality probe says so; accepted, it moves the record to its target stage
    and wakes the record's watchers once; rejected, it leaves the cell as it
    was, wakes nobody and retires only its own payload. *)
Theorem transition_all_or_nothing tr c (ms : Controls) r fx c' ms' :
  member_exec (c, ms) (Transition tr) = Ret ((r, fx), (c', ms')) ->
  r = Accepted (would_accept tr c) /\ ms' = ms /\
  if would_accept tr c then
    stage c' = target tr /\ pulses fx = 1%nat /\
    version (record c') = wrapping_succ (version (record c))
  else c' = c /\ pulses fx = 0%nat /\ Defer (MemberEffect.DisposeTransition tr) ∈ fx.
Proof.
  unfold member_exec, transition_locked, would_accept, read_with, current, read_cloned.
  pose proof (apply_transition_legal tr (value (record c))) as HL.
  destruct (MemberRecord.apply_transition tr (value (record c))) as [r'|] eqn:E; intros H; simplify_eq.
  - destruct HL as [HL _]. rewrite HL by eauto. split; [done|]. split; [done|].
    unfold MemberRecord.apply_transition in E. rewrite HL in E by eauto. simpl in E.
    destruct tr; simplify_eq/=; done.
  - destruct MemberTransition.is_legal_from; [by destruct HL as [_ [? ?]]|].
    split; [done|]. split; [done|]. destruct tr; simpl; (split; [done|]); split; done || set_solver.
Qed.

(** ** Terminality *)

Lemma perform_no_pulse fx c : pulses fx = 0%nat -> foldl perform_deferred c fx = c.
Proof.
  revert c; induction fx as [|d fx IH]; intros c H; [done|]. simpl. unfold pulses in *.
  rewrite filter_cons in H. destruct d as [[]| |]; simpl in *; eauto; done.
Qed.

(** What a terminal member keeps: everything but its planned-removal status,
    which the residency layer may still set. *)
Definition terminal_core (c : t) : MemberRecord.t := set_status Active (current c).

Definition settled_reply (exit : Exit) (op : MemberOp) (r : MemberResult * Effects) : Prop :=
  match op with
  | Terminalize _ _ => r.1 = TerminalExit exit /\ pulses r.2 = 0%nat
  | Transition _ => r.1 = Accepted false /\ pulses r.2 = 0%nat
  | _ => True
  end.

Lemma attach_mailbox_current h c (ms : Controls) :
  current (attach_mailbox h c ms).1.2 = current c.
Proof.
  unfold attach_mailbox. destruct (mailbox_slot c) as [|?|[?|]]; try done.
  by destruct (terminate_control h ms).
Qed.

Lemma terminal_exec exit s op r s' :
  member_inv s -> stage s.1 = MemberStage.Terminal exit -> member_exec s op = Ret (r, s') ->
  terminal_core s'.1 = terminal_core s.1 /\ stage s'.1 = MemberStage.Terminal exit /\
  settled_reply exit op r.
Proof.
  destruct s as [c ms]. intros I E H. simpl in E. destruct I as [_ h2 _]; simpl in h2.
  rewrite E in h2. destruct op as [tr|e startup|h|grant| | |b|o|st]; simpl in H.
  - unfold transition_locked, MemberRecord.apply_transition in H. fold (stage c) in H. rewrite E in H.
    destruct tr; simplify_eq/=; done.
  - unfold terminalize_locked, claim_mailbox in H. destruct (mailbox_slot c); try done.
    rewrite E in H. simplify_eq/=. done.
  - pose proof (attach_mailbox_current h c ms) as Hc.
    destruct (attach_mailbox h c ms) as [[fx c'] ms']. simplify_eq/=.
    unfold terminal_core, stage. destruct (perform_current fx c') as [-> _]. by rewrite Hc.
  - apply bind_Ret_inv in H as (c' & Hc & _). unfold rebase_membership in Hc.
    destruct (MintedMembership.into_pair grant). fold (stage c) in Hc. rewrite E in Hc. done.
  - apply bind_Ret_inv in H as ([p c'] & Hc & H). simplify_eq.
    apply bind_Ret_inv in Hc as (? & _ & Hc). by simplify_eq.
  - apply bind_Ret_inv in H as ([p c'] & Hc & H). simplify_eq.
    apply bind_Ret_inv in Hc as (? & _ & Hc). by simplify_eq.
  - by simplify_eq.
  - apply bind_Ret_inv in H as (c' & Hc & H). simplify_eq.
    apply bind_Ret_inv in Hc as (? & _ & Hc). by simplify_eq.
  - by simplify_eq.
Qed.

Lemma terminal_run exit s ops rs s' :
  member_inv s -> stage s.1 = MemberStage.Terminal exit -> run_ops member_exec s ops = Ret (rs, s') ->
  terminal_core s'.1 = terminal_core s.1 /\ Forall2 (settled_reply exit) ops rs.
Proof.
  revert s rs; induction ops as [|op ops IH]; intros s rs I E H; simpl in H.
  - simplify_eq. split; [done|constructor].
  - apply bind_Ret_inv in H as ([r s1] & H1 & H). apply bind_Ret_inv in H as ([rs1 s2] & H2 & H).
    simplify_eq. pose proof (member_exec_inv _ _ _ _ I H1) as I1.
    destruct (terminal_exec _ _ _ _ _ I E H1) as (Hc & E1 & Hr).
    destruct (IH s1 rs1 I1 E1 H2) as [Hc2 Hrs]. split; [congruence|by constructor].
Qed.

Lemma pulses_app a b : pulses (a ++ b) = (pulses a + pulses b)%nat.
Proof. unfold pulses. by rewrite filter_app, length_app. Qed.

Lemma terminate_control_pulses h (ms : Controls) : pulses (terminate_control h ms).1 = 0%nat.
Proof.
  unfold terminate_control. destruct (ms !! h) as [m|]; [|done].
  destruct (prepare_termination m) as [[d fs] m']. simpl. rewrite pulses_app.
  assert (pulses ((fun f => Defer (MemberEffect.MailboxEffect f)) <$> fs) = 0%nat) as ->.
  { induction fs as [|f fs IH]; [done|exact IH]. }
  by destruct d.
Qed.

Lemma terminalize_makes_terminal exit startup c (ms : Controls) r fx s' :
  member_inv (c, ms) -> MemberStage.is_terminal (stage c) = false ->
  member_exec (c, ms) (Terminalize exit startup) = Ret ((r, fx), s') ->
  r = TerminalExit exit /\ stage s'.1 = MemberStage.Terminal exit /\
  pulses fx = 1%nat.
Proof.
  intros [_ h2 _] E H. simpl in h2, H. rewrite E in h2.
  unfold terminalize_locked, claim_mailbox in H.
  pose proof (fun h => terminate_control_pulses h ms) as Hp.
  assert (forall sl, current (set_mailbox sl c) = current c) as Hcur by done.
  destruct (mailbox_slot c) as [|h|o] eqn:Es; [| |done];
    unfold publish_terminal in H; rewrite Hcur in H; unfold MemberRecord.terminalized in H;
    fold (stage c) in H; rewrite E in H.
  - by simplify_eq/=.
  - specialize (Hp h). destruct (terminate_control h ms) as [fs ms']. simplify_eq/=.
    split; [done|]. rewrite foldl_app. simpl. unfold stage, current, read_cloned; simpl.
    split.
    + by rewrite (perform_no_pulse fs) by done.
    + by rewrite pulses_app, Hp.
Qed.

(** The first terminalizer wins: it publishes its exit with one wake of
    the record's watchers, and from then on, whatever operations follow, every
    terminalizer is answered with that exit, every transition is refused,
    neither wakes anybody, and the terminal record keeps every field but the
    planned-removal status. *)
Theorem first_terminalizer_wins grant ms before exit startup after rs1 s1 r fx s2 rs3 s3 :
  run_ops member_exec (new grant, ms) before = Ret (rs1, s1) ->
  MemberStage.is_terminal (stage s1.1) = false ->
  member_exec s1 (Terminalize exit startup) = Ret ((r, fx), s2) ->
  run_ops member_exec s2 after = Ret (rs3, s3) ->
  r = TerminalExit exit /\ pulses fx = 1%nat /\
  stage s2.1 = MemberStage.Terminal exit /\
  terminal_core s3.1 = terminal_core s2.1 /\
  Forall2 (settled_reply exit) after rs3.
Proof.
  intros H1 E H2 H3. pose proof (member_run_inv _ _ _ _ (member_inv_new grant ms) H1) as I1.
  destruct s1 as [c1 ms1].
  destruct (terminalize_makes_terminal _ _ _ _ _ _ _ I1 E H2) as (Hr & Hst & Hp).
  pose proof (member_exec_inv _ _ _ _ I1 H2) as I2.
  destruct (terminal_run _ _ _ _ _ I2 Hst H3). auto.
Qed.

(** ** The mailbox's teardown *)

Definition teardown_of (d : Deferred (MemberEffect.t T F)) : option (nat * T) :=
  match d with Defer (MemberEffect.FinishTeardown h x) => Some (h, x) | _ => None end.

(** The teardowns a run leaves to be finished, in order. *)
Definition torn (fx : Effects) : list (nat * T) := omap teardown_of fx.

(** The mailbox the member has terminated. *)
Definition ended (c : t) : option nat :=
  match mailbox_slot c with MemberMailbox.Terminal h => h | _ => None end.

Definition ended_controls (o : option nat) (ms : Controls) : Controls :=
  match o with Some h => (terminate_control h ms).2 | None => ms end.
Definition ended_teardowns (o : option nat) (ms : Controls) : list (nat * T) :=
  match o with Some h => torn (terminate_control h ms).1 | None => [] end.

Lemma torn_app a b : torn (a ++ b) = torn a ++ torn b.
Proof. apply omap_app. Qed.

Lemma ended_commit fx c : ended (foldl perform_deferred c fx) = ended c.
Proof. unfold ended. by destruct (perform_current fx c) as [_ ->]. Qed.

Lemma terminalize_torn exit startup c ms r :
  terminalize_locked exit startup c ms = r ->
  (ended r.1.2 = ended c /\ r.2 = ms /\ torn r.1.1.2 = []) \/
  (ended c = None /\ r.2 = ended_controls (ended r.1.2) ms /\
   torn r.1.1.2 = ended_teardowns (ended r.1.2) ms).
Proof.
  intros <-. unfold terminalize_locked, claim_mailbox, ended.
  destruct (mailbox_slot c) as [|h|o] eqn:Es.
  - left. unfold publish_terminal. destruct MemberRecord.terminalized as [? []]; done.
  - right. unfold publish_terminal. destruct MemberRecord.terminalized as [? p]. simpl.
    destruct (terminate_control h ms) as [fx ms'] eqn:Et. simpl. rewrite Et, torn_app.
    split; [done|]. split; [done|]. destruct p; simpl; by rewrite app_nil_r.
  - left. unfold publish_terminal.
    destruct (MemberRecord.terminalized exit startup (current c)) as [? []];
      destruct (stage c); simpl; by rewrite ?Es.
Qed.

Lemma attach_torn h c ms r :
  attach_mailbox h c ms = r ->
  (ended r.1.2 = ended c /\ r.2 = ms /\ torn r.1.1 = []) \/
  (ended c = None /\ r.2 = ended_controls (ended r.1.2) ms /\
   torn r.1.1 = ended_teardowns (ended r.1.2) ms).
Proof.
  intros <-. unfold attach_mailbox, ended. destruct (mailbox_slot c) as [|?|[?|]] eqn:Es; simpl.
  1-3: left; by rewrite ?Es.
  right. by destruct (terminate_control h ms) eqn:Et; simpl; rewrite Et.
Qed.

Lemma exec_torn s op r s' :
  member_exec s op = Ret (r, s') ->
  (ended s'.1 = ended s.1 /\ s'.2 = s.2 /\ torn r.2 = []) \/
  (ended s.1 = None /\ s'.2 = ended_controls (ended s'.1) s.2 /\
   torn r.2 = ended_teardowns (ended s'.1) s.2).
Proof.
  destruct s as [c ms]. intros H. destruct op as [tr|exit startup|h|grant| | |b|o|st]; simpl in H.
  - left. unfold transition_locked in H. destruct MemberRecord.apply_transition; simplify_eq;
      simpl; rewrite ended_commit; (split; [done|split; [done|]]); by destruct tr.
  - pose proof (terminalize_torn exit startup c ms _ eq_refl) as Ht.
    destruct (terminalize_locked exit startup c ms) as [[[w fx] c'] ms']. simplify_eq/=.
    by rewrite ended_commit.
  - pose proof (attach_torn h c ms _ eq_refl) as Ht.
    destruct (attach_mailbox h c ms) as [[fx c'] ms']. simplify_eq/=. by rewrite ended_commit.
  - apply bind_Ret_inv in H as (c' & Hc & H). simplify_eq. unfold rebase_membership in Hc.
    destruct (MintedMembership.into_pair grant). apply bind_Ret_inv in Hc as (? & _ & Hc).
    apply bind_Ret_inv in Hc as (? & _ & Hc). simplify_eq. by left.
  - apply bind_Ret_inv in H as ([p c'] & Hc & H). simplify_eq.
    apply bind_Ret_inv in Hc as (? & _ & Hc). simplify_eq. by left.
  - apply bind_Ret_inv in H as ([p c'] & Hc & H). simplify_eq.
    apply bind_Ret_inv in Hc as (? & _ & Hc). simplify_eq. by left.
  - simplify_eq. by left.
  - apply bind_Ret_inv in H as (c' & Hc & H). simplify_eq.
    apply bind_Ret_inv in Hc as (? & _ & Hc). simplify_eq. by left.
  - simplify_eq. by left.
Qed.

Lemma run_torn s ops rs s' :
  run_ops member_exec s ops = Ret (rs, s') ->
  (ended s'.1 = ended s.1 /\ s'.2 = s.2 /\ torn (concat rs.*2) = []) \/
  (ended s.1 = None /\ is_Some (ended s'.1) /\ s'.2 = ended_controls (ended s'.1) s.2 /\
   torn (concat rs.*2) = ended_teardowns (ended s'.1) s.2).
Proof.
  revert s rs; induction ops as [|op ops IH]; intros s rs H; simpl in H; [simplify_eq; by left|].
  apply bind_Ret_inv in H as ([r s1] & H1 & H). apply bind_Ret_inv in H as ([rs1 s2] & H2 & H).
  simplify_eq. rewrite fmap_cons, concat_cons, torn_app.
  destruct (exec_torn _ _ _ _ H1) as [(He & Hm & Ht)|(He & Hm & Ht)];
  destruct (IH _ _ H2) as [(He2 & Hm2 & Ht2)|(He2 & Hs2 & Hm2 & Ht2)].
  - left. rewrite Ht, Ht2. split; [congruence|]. split; [congruence|done].
  - right. rewrite Ht, Ht2, Hm2, Hm. split; [congruence|]. auto.
  - destruct (ended s1.1) as [h|] eqn:E1.
    + right. rewrite He2, Ht, Ht2, Hm2, Hm, app_nil_r. split; [done|]. eauto.
    + left. rewrite Ht, Ht2, He2, Hm2, Hm, He. done.
  - right. rewrite He2 in *. simpl in *. rewrite Ht, Ht2, Hm2, Hm. split; [done|]. auto.
Qed.

(** Whatever the order in which a mailbox is attached, refused and its
    member terminalized, a run terminates at most one mailbox control and
    leaves every other untouched: nothing is torn down while the member has
    ended no mailbox, and once it has ended one that was live, that mailbox's
    teardown is handed out to be finished exactly once. *)
Theorem mailbox_torn_down_once grant ms ops rs c ms' :
  run_ops member_exec (new grant, ms) ops = Ret (rs, (c, ms')) ->
  match ended c with
  | None => ms' = ms /\ torn (concat rs.*2) = []
  | Some h =>
      (forall k, k <> h -> ms' !! k = ms !! k) /\
      (forall m, ms !! h = Some m -> terminated m = false ->
         exists d, (prepare_termination m).1.1 = Some d /\ torn (concat rs.*2) = [(h, d)])
  end.
Proof.
  intros H. destruct (run_torn _ _ _ _ H) as [(He & Hm & Ht)|(_ & _ & Hm & Ht)]; simpl in *.
  { by rewrite He. }
  rewrite Ht, Hm. destruct (ended c) as [h|]; simpl; [|done]. unfold terminate_control.
  split.
  - intros k Hk. destruct (ms !! h) as [m|]; [|done].
    destruct (prepare_termination m) as [[d fx] m']. simpl. by rewrite lookup_insert_ne.
  - intros m Hm0 Hl. rewrite Hm0. pose proof (prepare_when_live m Hl) as [d Hd].
    destruct (prepare_termination m) as [[d' fx] m']. simplify_eq/=. exists d. split; [done|].
    rewrite torn_app. replace (torn _) with (@nil (nat * T)); [done|].
    by induction fx.
Qed.

(** Attaching a mailbox and terminalizing the member commute: whichever
    comes first, the cell, the mailbox and the exit reported are the same. *)
Theorem attach_terminalize_commute grant h exit startup (ms : Controls) rs rs' s s' :
  run_ops member_exec (new grant, ms) [AttachMailbox h; Terminalize exit startup] = Ret (rs, s) ->
  run_ops member_exec (new grant, ms) [Terminalize exit startup; AttachMailbox h] = Ret (rs', s') ->
  s = s' /\ TerminalExit exit ∈ rs.*1 /\ TerminalExit exit ∈ rs'.*1.
Proof.
  pose proof (terminate_control_pulses h ms) as Hp.
  unfold run_ops, member_exec, attach_mailbox, terminalize_locked, claim_mailbox, publish_terminal.
  simpl. unfold terminalize_locked, claim_mailbox, attach_mailbox, publish_terminal. simpl.
  destruct (terminate_control h ms) as [fx ms'] eqn:Et. simpl in Hp.
  intros H1 H2. simplify_eq/=. rewrite foldl_app. simpl.
  rewrite (perform_no_pulse fx), (perform_no_pulse fx) by done. set_solver.
Qed.
End member.
