(* ===== verification/MailboxMember.v ===== *)
(** * Mailbox cells as member controls

    The mailbox cell of [Mailbox.v] implements the interface through which a
    member terminates its mailbox, and the member theorems at work on it. *)

From S2P Require Import Prelude Identity Exit Policy Restart Gate Watch Mailbox Member MemberProps.

Definition mailbox_terminated {M} (c : MailboxCell M) : bool :=
  match phase (state c) with Phase.Terminal _ => true | _ => false end.

#[export] Program Instance mailbox_control {M} :
    MailboxControl (MailboxCell M) (MailboxTeardown M) (FlushAction M) := {|
  Member.prepare_termination := Mailbox.prepare_termination;
  terminated := mailbox_terminated |}.
Next Obligation.
  intros M m. unfold mailbox_terminated, Mailbox.prepare_termination, txn_state; simpl.
  by destruct (phase (state m)) eqn:E; simpl; rewrite ?E.
Qed.
Next Obligation.
  intros M m. unfold mailbox_terminated, Mailbox.prepare_termination, txn_state; simpl.
  by destruct (phase (state m)).
Qed.
Next Obligation.
  intros M m. unfold mailbox_terminated, Mailbox.prepare_termination, txn_state; simpl.
  destruct (phase (state m)); [eauto..|done].
Qed.

(** ** A member's life *)

Definition demo_grant : MintedMembership.t :=
  MintedMembership.new "worker" (mkMembership (mkFence (mkLineage 1) (mkGeneration 1))).

Definition demo_started : Incarnation :=
  mkIncarnation (mkMembership (mkFence (mkLineage 1) (mkGeneration 1))) (mkGeneration 1).

Definition demo_controls : gmap nat (MailboxCell Z) := {[ 0%nat := mailbox_new "worker" ]}.

Definition demo_life : list MemberOp :=
  [AttachMailbox 0; Transition MemberTransition.Admitted_;
   Transition (MemberTransition.Starting demo_started); Transition MemberTransition.Admitted_;
   Transition MemberTransition.Running].

Definition demo_after : list MemberOp :=
  [Terminalize never_started StartupDisposition.Aborted; AttachMailbox 1;
   Transition MemberTransition.Stopping; SetDisposalPending false].

Definition demo_exit : Exit := completed NotObserved.

Definition demo_finish : MemberOp := Terminalize demo_exit StartupDisposition.NotAborted.

Definition demo_start : MemberCell.t * gmap nat (MailboxCell Z) :=
  (MemberCell.new demo_grant, demo_controls).

(** The replies and the final state of a run that returns. *)
Definition life_end (ops : list MemberOp) :=
  match run_ops member_exec demo_start ops with Ret x => x | _ => ([], demo_start) end.

Definition returned {A} (m : outcome A) : bool := match m with Ret _ => true | _ => false end.

Lemma life_returns ops :
  returned (run_ops member_exec demo_start ops) = true ->
  run_ops member_exec demo_start ops = Ret ((life_end ops).1, ((life_end ops).2.1, (life_end ops).2.2)).
Proof. unfold life_end. by destruct run_ops as [[? []]| |]. Qed.

Definition whole_life : list MemberOp := demo_life ++ [demo_finish] ++ demo_after.

Lemma whole_life_returns :
  run_ops member_exec demo_start whole_life =
    Ret ((life_end whole_life).1, ((life_end whole_life).2.1, (life_end whole_life).2.2)).
Proof. apply life_returns. vm_compute. reflexivity. Qed.

Lemma whole_life_ended : ended (life_end whole_life).2.1 = Some 0%nat.
Proof. vm_compute. reflexivity. Qed.

Lemma member_record_well_formed_witness :
  record_ok (MemberCell.current (life_end whole_life).2.1).
Proof.
  exact (proj1 (member_record_well_formed demo_grant demo_controls _ _ _ _ whole_life_returns)).
Defined.

Lemma mailbox_torn_down_once_witness :
  exists d, torn (concat (life_end whole_life).1.*2) = [(0%nat, d)].
Proof.
  pose proof (mailbox_torn_down_once demo_grant demo_controls _ _ _ _ whole_life_returns) as H.
  rewrite whole_life_ended in H. destruct H as [_ H].
  destruct (H (mailbox_new "worker") eq_refl eq_refl) as (d & _ & Hd). exists d. exact Hd.
Defined.

Lemma transition_refused :
  member_exec demo_start (Transition MemberTransition.Stopping) =
    Ret ((Accepted false, [Defer (MemberEffect.DisposeTransition MemberTransition.Stopping)]),
         demo_start).
Proof. reflexivity. Qed.

Lemma transition_all_or_nothing_witness :
  MemberCell.would_accept MemberTransition.Stopping (MemberCell.new demo_grant) = false /\
  Accepted false =
    Accepted (MemberCell.would_accept MemberTransition.Stopping (MemberCell.new demo_grant)).
Proof.
  split; [reflexivity|].
  exact (proj1 (transition_all_or_nothing _ _ _ _ _ _ _ transition_refused)).
Defined.

(** The run cut at its terminalization. *)
Definition finish_end :=
  match member_exec (life_end demo_life).2 demo_finish with
  | Ret x => x | _ => ((Plain, []), demo_start)
  end.
Definition after_end :=
  match run_ops member_exec finish_end.2 demo_after with Ret x => x | _ => ([], demo_start) end.

Lemma life_cut :
  run_ops member_exec demo_start demo_life = Ret ((life_end demo_life).1, (life_end demo_life).2) /\
  member_exec (life_end demo_life).2 demo_finish =
    Ret ((finish_end.1.1, finish_end.1.2), finish_end.2) /\
  run_ops member_exec finish_end.2 demo_after = Ret (after_end.1, after_end.2) /\
  MemberStage.is_terminal (MemberCell.stage (life_end demo_life).2.1) = false.
Proof. vm_compute. repeat split. Qed.

Lemma first_terminalizer_wins_witness :
  pulses finish_end.1.2 = 1%nat /\ Forall2 (settled_reply demo_exit) demo_after after_end.1.
Proof.
  destruct life_cut as (H1 & H2 & H3 & E).
  destruct (first_terminalizer_wins demo_grant demo_controls _ _ _ _ _ _ _ _ _ _ _ H1 E H2 H3)
    as (_ & Hp & _ & _ & Hf).
  split; [exact Hp|exact Hf].
Defined.

Definition attach_first : list MemberOp :=
  [AttachMailbox 0; Terminalize demo_exit StartupDisposition.Unchanged].
Definition attach_last : list MemberOp :=
  [Terminalize demo_exit StartupDisposition.Unchanged; AttachMailbox 0].

Lemma attach_orders_return :
  run_ops member_exec demo_start attach_first = Ret ((life_end attach_first).1, (life_end attach_first).2) /\
  run_ops member_exec demo_start attach_last = Ret ((life_end attach_last).1, (life_end attach_last).2).
Proof. vm_compute. split; reflexivity. Qed.

Lemma attach_terminalize_commute_witness :
  (life_end attach_first).2 = (life_end attach_last).2.
Proof.
  destruct attach_orders_return as [H H'].
  exact (proj1 (attach_terminalize_commute demo_grant 0 _ _ demo_controls _ _ _ _ H H')).
Defined.
