(* ===== verification/Snapshot.v ===== *)
(** * Scope snapshots

    The public projection types of [crates/shelterwood/src/cells/observe.rs]
    and their lookups: [child], [descendant] and [watermark]. *)

From S2P Require Import Prelude Identity Exit Policy Restart Lifecycle.

(** [LifecycleSeq] is a [u64]. *)
Definition LifecycleSeq := Z.

Module ChildState.
Inductive t :=
| Admitted_
| Starting
| Running
| Stopping
| Restarting
| Stopped (exit : Exit)
| StartupAborted (exit : Exit).

Definition is_terminal (s : t) : bool :=
  match s with Stopped _ | StartupAborted _ => true | _ => false end.
End ChildState.

(** [ChildSnapshot], over the type of its nested scope snapshot. *)
Module ChildSnapshot.
Record t (S : Type) := mk
  { id : ChildId;
    membership : Membership;
    incarnation : option Incarnation;
    state : ChildState.t;
    last_exit : option Exit;
    membership_status : MembershipStatus;
    restart_count : RestartCount.t;
    restart_policy : RestartPolicy;
    retention : Retention;
    restart_at : option Z;
    nested : option S;
    scope_seq : option LifecycleSeq }.
Arguments mk {S}. Arguments id {S}. Arguments membership {S}. Arguments incarnation {S}.
Arguments state {S}. Arguments last_exit {S}. Arguments membership_status {S}.
Arguments restart_count {S}. Arguments restart_policy {S}. Arguments retention {S}.
Arguments restart_at {S}. Arguments nested {S}. Arguments scope_seq {S}.
End ChildSnapshot.

Inductive ScopeSnapshot := mkScopeSnapshot
  { ss_state : ScopeState.t;
    ss_kind : ScopeFlavor;
    ss_strategy : option Strategy;
    ss_intensity : Intensity.t;
    ss_total_restarts : TotalRestarts.t;
    ss_lifecycle_seq : LifecycleSeq;
    ss_children : list (ChildSnapshot.t ScopeSnapshot) }.

Local Abbreviation Child := (ChildSnapshot.t ScopeSnapshot).

Definition child (self : ScopeSnapshot) (id : ChildId) : option Child :=
  snd <$> list_find (fun c => ChildSnapshot.id c = id) (ss_children self).

(** The loop of [descendant], [found] being the child reached so far. *)
Fixpoint descend (self : ScopeSnapshot) (found : option Child) (path : list ChildId)
  : option Child :=
  match path with
  | [] => found
  | id :: path =>
      scope ← match found with
              | None => Some self
              | Some previous => ChildSnapshot.nested previous
              end;
      c ← child scope id;
      descend self (Some c) path
  end.

Definition descendant (self : ScopeSnapshot) (path : list ChildId) : option Child :=
  descend self None path.

Section find_map.
Context {A B : Type} (f : A -> option B).
(** [Iterator::find_map]. *)
Fixpoint find_map (l : list A) : option B :=
  match l with
  | [] => None
  | x :: l => match f x with Some y => Some y | None => find_map l end
  end.
End find_map.

Fixpoint watermark (self : ScopeSnapshot) (membership : Membership) : option LifecycleSeq :=
  find_map (fun c =>
    if decide (ChildSnapshot.membership c = membership) then ChildSnapshot.scope_seq c
    else match ChildSnapshot.nested c with
         | Some nested => watermark nested membership
         | None => None
         end) (ss_children self).

(** ** What the lookups find *)

(** [path] leads from the scope to a child, by the children's labels. *)
Inductive leads (s : ScopeSnapshot) : list ChildId -> Child -> Prop :=
| leads_child c : c ∈ ss_children s -> leads s [ChildSnapshot.id c] c
| leads_nested c n path d :
    c ∈ ss_children s -> ChildSnapshot.nested c = Some n -> leads n path d ->
    leads s (ChildSnapshot.id c :: path) d.

(** Resident labels are unique in each scope. *)
Inductive labelled (s : ScopeSnapshot) : Prop :=
| labelled_intro :
    NoDup (ChildSnapshot.id <$> ss_children s) ->
    (forall c n, c ∈ ss_children s -> ChildSnapshot.nested c = Some n -> labelled n) ->
    labelled s.

Lemma child_Some s id c :
  child s id = Some c -> c ∈ ss_children s /\ ChildSnapshot.id c = id.
Proof.
  unfold child. intros H. apply fmap_Some in H as ([i d] & H & ->).
  apply list_find_Some in H as (Hl & Hp & _). eauto using list_elem_of_lookup_2.
Qed.

Lemma child_unique s c :
  NoDup (ChildSnapshot.id <$> ss_children s) -> c ∈ ss_children s ->
  child s (ChildSnapshot.id c) = Some c.
Proof.
  unfold child. intros ND Hc. apply list_elem_of_lookup in Hc as [i Hi].
  assert (list_find (fun d => ChildSnapshot.id d = ChildSnapshot.id c) (ss_children s) = Some (i, c))
    as ->; [|done].
  apply list_find_Some. split; [done|]. split; [done|]. intros j d Hj Hlt He.
  assert (i = j); [|lia]. apply (NoDup_lookup _ i j (ChildSnapshot.id c) ND).
  - by rewrite list_lookup_fmap, Hi.
  - by rewrite list_lookup_fmap, Hj, <- He.
Qed.

Lemma descend_root s s' c path : descend s (Some c) path = descend s' (Some c) path.
Proof.
  revert c; induction path as [|i path IH]; intros c; [done|]. simpl.
  destruct (ChildSnapshot.nested c) as [n|]; [|done]. simpl. destruct (child n i); [apply IH|done].
Qed.

Lemma descendant_cons s id path :
  descendant s (id :: path) =
  (c ← child s id;
   match path with
   | [] => Some c
   | _ => n ← ChildSnapshot.nested c; descendant n path
   end).
Proof.
  unfold descendant. simpl. destruct (child s id) as [c|]; [|done]. simpl.
  destruct path as [|i path]; [done|]. simpl. destruct (ChildSnapshot.nested c) as [n|]; [|done].
  simpl. destruct (child n i); [|done]. simpl. apply descend_root.
Qed.

(** In a snapshot whose scopes label their children uniquely, [descendant]
    finds exactly the child a label path leads to, through as many nested
    scopes as the path names. *)
Theorem descendant_exact s path c :
  labelled s -> descendant s path = Some c <-> leads s path c.
Proof.
  revert s; induction path as [|id path IH]; intros s L.
  { split; [done|]. inversion 1. }
  rewrite descendant_cons. destruct L as [ND L]. split.
  - intros H. apply bind_Some in H as (d & Hd & H).
    apply child_Some in Hd as [Hin <-].
    destruct path as [|i path]; simplify_eq; [by constructor|].
    apply bind_Some in H as (n & Hn & H). econstructor; eauto. apply IH; eauto.
  - inversion 1 as [d Hin|d n p e Hin Hn Hl]; subst; rewrite child_unique by done; simpl; [done|].
    destruct path; [inversion Hl|]. rewrite Hn. simpl. apply IH; eauto.
Qed.

(** The children of a snapshot, at any depth. *)
Inductive inside (c : Child) (s : ScopeSnapshot) : Prop :=
| inside_child : c ∈ ss_children s -> inside c s
| inside_nested d n :
    d ∈ ss_children s -> ChildSnapshot.nested d = Some n -> inside c n -> inside c s.

Lemma find_map_Some {A B} (f : A -> option B) l y :
  find_map f l = Some y -> exists x, x ∈ l /\ f x = Some y.
Proof.
  induction l as [|x l IH]; simpl; [done|]. destruct (f x) eqn:E; intros H; simplify_eq.
  - exists x. split; [constructor|done].
  - destruct (IH H) as (z & ? & ?). exists z. split; [by constructor|done].
Qed.

Lemma find_map_None {A B} (f : A -> option B) l x :
  find_map f l = None -> x ∈ l -> f x = None.
Proof.
  induction l as [|z l IH]; simpl; [set_solver|]. destruct (f z) eqn:E; [done|].
  intros H Hx. apply elem_of_cons in Hx as [->|Hx]; auto.
Qed.

Lemma watermark_unfold s m :
  watermark s m = find_map (fun c =>
    if decide (ChildSnapshot.membership c = m) then ChildSnapshot.scope_seq c
    else n ← ChildSnapshot.nested c; watermark n m) (ss_children s).
Proof. by destruct s. Qed.

(** Well-founded descent into nested snapshots. *)
Fixpoint depth (s : ScopeSnapshot) : nat :=
  S (foldr (fun c k => match ChildSnapshot.nested c with
                       | Some n => Nat.max (depth n) k
                       | None => k
                       end) 0%nat (ss_children s)).

Lemma depth_nested s c n :
  c ∈ ss_children s -> ChildSnapshot.nested c = Some n -> (depth n < depth s)%nat.
Proof.
  destruct s as [? ? ? ? ? ? cs]; simpl. intros Hc Hn.
  induction cs as [|d cs IH]; simpl; [set_solver|].
  apply elem_of_cons in Hc as [<-|Hc]; [rewrite Hn; lia|]. specialize (IH Hc).
  destruct (ChildSnapshot.nested d); lia.
Qed.

Lemma watermark_sound s m q :
  watermark s m = Some q ->
  exists c, inside c s /\ ChildSnapshot.membership c = m /\ ChildSnapshot.scope_seq c = Some q.
Proof.
  induction s as [s IH] using (induction_ltof1 _ depth). intros H.
  rewrite watermark_unfold in H. apply find_map_Some in H as (c & Hc & H).
  case_decide as Hm; [exists c; split; [by apply inside_child|done]|].
  apply bind_Some in H as (n & Hn & H).
  destruct (IH n (depth_nested _ _ _ Hc Hn) H) as (d & Hd & Hdm).
  exists d. split; [by eapply inside_nested|done].
Qed.

(** The watermark lookup answers for a membership exactly what the scope
    children carrying that membership say, at any depth of the snapshot,
    provided they say the same. *)
Theorem watermark_exact s m q :
  (forall c d, inside c s -> inside d s -> ChildSnapshot.membership c = m ->
     ChildSnapshot.membership d = m -> ChildSnapshot.scope_seq c = ChildSnapshot.scope_seq d) ->
  watermark s m = Some q <->
  exists c, inside c s /\ ChildSnapshot.membership c = m /\ ChildSnapshot.scope_seq c = Some q.
Proof.
  intros Hu. split; [apply watermark_sound|]. intros (c & Hi & Hm & Hq).
  assert (forall r, watermark s m = Some r -> r = q) as Heq.
  { intros r Hr. apply watermark_sound in Hr as (d & Hd & Hdm & Hdq).
    specialize (Hu c d Hi Hd Hm Hdm). congruence. }
  destruct (watermark s m) as [r|] eqn:E; [by rewrite (Heq r)|]. clear Heq. exfalso. revert Hu E.
  induction Hi as [s Hc|s d n Hd Hn Hi IH]; intros Hu E; rewrite watermark_unfold in E.
  - apply (find_map_None _ _ c E) in Hc. by rewrite decide_True, Hq in Hc.
  - pose proof (find_map_None _ _ d E Hd) as H. cbv beta in H. case_decide as Hdm.
    + rewrite (Hu d c) in H; [congruence|by apply inside_child|by eapply inside_nested|done|done].
    + rewrite Hn in H. apply IH; [|exact H]. intros x y Hx Hy. apply Hu; by eapply inside_nested.
Qed.

(** ** A nested snapshot *)

Definition demo_child (id : ChildId) (lineage : Z) (nested : option ScopeSnapshot)
    (seq : option Z) : Child :=
  ChildSnapshot.mk id (mkMembership (mkFence (mkLineage lineage) (mkGeneration 1))) None
    ChildState.Admitted_ None Active RestartCount.ZERO (mkRestartPolicy Never BackoffImmediate)
    Retain None nested seq.

Definition demo_scope (seq : Z) (children : list Child) : ScopeSnapshot :=
  mkScopeSnapshot ScopeState.Running Ordered (Some OneForOne) (Intensity.seal 1 1) TotalRestarts.ZERO
    seq children.

Definition demo_snapshot : ScopeSnapshot :=
  demo_scope 9 [demo_child "a" 1 None None;
                demo_child "b" 2 (Some (demo_scope 4 [demo_child "a" 3 None None;
                                                      demo_child "c" 4 None (Some 7)])) (Some 4)].

Lemma demo_snapshot_labelled : labelled demo_snapshot.
Proof.
  constructor; [apply (bool_decide_unpack _); vm_compute; exact I|].
  intros c n Hc Hn. simpl in Hc.
  repeat (apply elem_of_cons in Hc as [->|Hc]; [simplify_eq/=|]); [|set_solver].
  constructor; [apply (bool_decide_unpack _); vm_compute; exact I|].
  intros c n Hc Hn. simpl in Hc.
  repeat (apply elem_of_cons in Hc as [->|Hc]; [simplify_eq/=|]). set_solver.
Qed.

Lemma descendant_exact_witness :
  leads demo_snapshot ["b"; "c"] (demo_child "c" 4 None (Some 7)).
Proof.
  apply (descendant_exact demo_snapshot ["b"; "c"] (demo_child "c" 4 None (Some 7))
    demo_snapshot_labelled). reflexivity.
Defined.

Lemma watermark_exact_witness :
  watermark demo_snapshot (mkMembership (mkFence (mkLineage 4) (mkGeneration 1))) = Some 7.
Proof.
  refine (proj2 (watermark_exact demo_snapshot _ 7 _) _).
  - assert (forall c, inside c demo_snapshot ->
      ChildSnapshot.membership c = mkMembership (mkFence (mkLineage 4) (mkGeneration 1)) ->
      ChildSnapshot.scope_seq c = Some 7) as H; [|intros; rewrite !H; done].
    intros c Hi Hm. inversion Hi as [Hc|d n Hd Hn Hin]; subst; simpl in *.
    + repeat (apply elem_of_cons in Hc as [->|Hc]; [by simplify_eq/=|]). set_solver.
    + repeat (apply elem_of_cons in Hd as [->|Hd]; [simplify_eq/=|]); [|set_solver].
      inversion Hin as [Hc|d n Hd' Hn Hin']; subst; simpl in *.
      * repeat (apply elem_of_cons in Hc as [->|Hc]; [by simplify_eq/=|]). set_solver.
      * repeat (apply elem_of_cons in Hd' as [->|Hd']; [by simplify_eq/=|]). set_solver.
  - exists (demo_child "c" 4 None (Some 7)). split; [|split; reflexivity].
    eapply inside_nested; [right; left|reflexivity|]. apply inside_child. right; left.
Defined.
