(* ===== verification/Hubs.v ===== *)
(** * Observation hubs

    [SnapshotHub], [SnapshotReceiver], [LifecycleHub] and [LifecycleEvents] of
    [crates/shelterwood/src/cells/observe.rs], on the watch channels of
    [Watch.v] and the transactions of [Gate.v].

    A hub's channel is created at most once, so hubs are named by a key and
    their channels live in a store.  A publication stages a producer that is
    run at commit on the tree the gate still holds still. *)

From S2P Require Import Prelude Identity Gate Watch.

Section snapshots.
(** [S] is the snapshot a producer builds from the resident [Tree]. *)
Context {S Tree : Type}.

Record SnapshotHubState := mkHubState
  { snapshot : S; generation : MonotonicCounter.t; closed : bool }.

Definition hub_state_new (s : S) (closed : bool) : SnapshotHubState :=
  mkHubState s MonotonicCounter.new closed.

Record SnapshotInstallPolicy := mkInstallPolicy { mint_generation : bool; install_pulse : bool }.

Record SnapshotPublication := mkPublication
  { pub_hub : nat; projection : Tree -> S; published : bool; pub_closed : bool }.

Inductive HubEffect :=
| DropSnapshot (s : S)
| DropProjection (p : Tree -> S)
| DropPublication (p : SnapshotPublication)
| PulseHub (h : nat).

Local Abbreviation Hub := (WatchShared SnapshotHubState).
Local Abbreviation Txn := (ObservationTxn HubEffect SnapshotPublication).

Record HubWorld := mkHubWorld { tree : Tree; hubs : gmap nat Hub }.

Definition install_snapshot (h : nat) (sender : Hub) (new : option S) (closing : bool)
    (policy : SnapshotInstallPolicy) : outcome (list HubEffect * Hub) :=
  match new with
  | None => Ret ([], sender)
  | Some new =>
      let st := value sender in
      if closed st then Ret ([DropSnapshot new], sender)
      else
        generation ← (if mint_generation policy
                      then '(_, g) ← MonotonicCounter.mint (generation st); Ret g
                      else Ret (generation st));
        Ret ([DropSnapshot (snapshot st)] ++ (if install_pulse policy then [PulseHub h] else []),
             modify_silently (fun _ => mkHubState new generation closing) sender)
  end.

Definition publication_published (h : nat) (p : Tree -> S) : SnapshotPublication :=
  mkPublication h p true false.
Definition publication_closed (h : nat) (p : Tree -> S) : SnapshotPublication :=
  mkPublication h p false true.

Definition pub_same_hub (self other : SnapshotPublication) : bool := (pub_hub self =? pub_hub other)%nat.

(** [coalesce] returns the replaced producer, which [stage_snapshot] defers. *)
Definition pub_coalesce (self newer : SnapshotPublication) : SnapshotPublication * HubEffect :=
  (mkPublication (pub_hub self) (projection newer) (published self || published newer)
     (pub_closed newer), DropProjection (projection self)).

(** [SnapshotPublication::install]; the publication's own sender keeps its
    channel alive, so the lookup always succeeds. *)
Definition pub_install (self : SnapshotPublication) (w : HubWorld)
  : outcome (list HubEffect * HubWorld) :=
  match hubs w !! pub_hub self with
  | None => Ret ([], w)
  | Some sender =>
      let new := if closed (value sender) then None else Some (projection self (tree w)) in
      '(fx, sender) ← install_snapshot (pub_hub self) sender new (pub_closed self)
                        (mkInstallPolicy (published self) true);
      Ret (fx, mkHubWorld (tree w) (<[pub_hub self := sender]> (hubs w)))
  end.

Definition hub_perform (e : HubEffect) (w : HubWorld) : option string * HubWorld :=
  match e with
  | PulseHub h => (None, mkHubWorld (tree w) (alter pulse h (hubs w)))
  | _ => (None, w)
  end.

#[export] Instance hub_effects : CellEffects HubWorld HubEffect SnapshotPublication := {|
  same_hub := pub_same_hub;
  coalesce := pub_coalesce;
  install := pub_install;
  spent := DropPublication;
  perform := hub_perform |}.

(** [snapshot_hub_will_close] through [SnapshotPublication::closes]. *)
Definition snapshot_hub_will_close (h : nat) (t : Txn) : bool :=
  existsb (fun p => pub_closed p && (pub_hub p =? h)%nat) (snapshots t).

Record SnapshotReceiver := mkSnapshotReceiver { inner : WatchReceiver; seen_generation : Z }.

Definition hub_subscribe (h : nat) (initial : S) (t : Txn) (w : HubWorld)
  : outcome (SnapshotReceiver * Txn * HubWorld) :=
  '(t, sender) ←
    match hubs w !! h with
    | None => Ret (t, drop_receiver (watch (hub_state_new initial false)).1)
    | Some sender =>
        if receiver_count sender =? 0 then
          '(fx, sender) ← install_snapshot h sender (Some initial) false (mkInstallPolicy true false);
          Ret (foldl (fun t e => defer e t) t fx, sender)
        else Ret (defer (DropSnapshot initial) t, sender)
    end;
  '(r, sender) ← watcher sender;
  Ret (mkSnapshotReceiver r (MonotonicCounter.current (generation (value sender))), t,
       mkHubWorld (tree w) (<[h := sender]> (hubs w))).

Definition hub_publish (h : nat) (p : Tree -> S) (t : Txn) (w : HubWorld) : Txn :=
  match hubs w !! h with
  | None => t
  | Some sender =>
      if receiver_count sender =? 0 then t
      else if snapshot_hub_will_close h t || closed (value sender) then t
      else stage_snapshot (publication_published h p) t
  end.

Definition hub_close (h : nat) (p : Tree -> S) (t : Txn) (w : HubWorld) : Txn * HubWorld :=
  match hubs w !! h with
  | None =>
      (t, mkHubWorld (tree w)
            (<[h := drop_receiver (watch (hub_state_new (p (tree w)) true)).1]> (hubs w)))
  | Some sender =>
      if snapshot_hub_will_close h t || closed (value sender) then (t, w)
      else (stage_snapshot (publication_closed h p) t, w)
  end.

Definition hub_is_closed (h : nat) (w : HubWorld) : bool :=
  match hubs w !! h with Some sender => closed (value sender) | None => false end.

Definition borrow_latest (sender : Hub) : S := snapshot (borrow_cloned sender).
Definition borrow_latest_and_closed (sender : Hub) : S * bool :=
  (snapshot (borrow_cloned sender), closed (borrow_cloned sender)).

Inductive ChangedStep :=
| ChangedOk (s : S) (r : SnapshotReceiver)
| ChangedClosed (r : SnapshotReceiver)
| ChangedWaits (r : SnapshotReceiver).

(** One iteration of [changed]'s loop, up to its await. *)
Definition changed_iteration (r : SnapshotReceiver) (sender : Hub) : ChangedStep :=
  let '(st, inner) := borrow_and_update_cloned (inner r) sender in
  if negb (MonotonicCounter.current (generation st) =? seen_generation r) then
    ChangedOk (snapshot st) (mkSnapshotReceiver inner (MonotonicCounter.current (generation st)))
  else if closed st then ChangedClosed (mkSnapshotReceiver inner (seen_generation r))
  else ChangedWaits (mkSnapshotReceiver inner (seen_generation r)).

(** ** Transactions of hub operations *)

Inductive HubOp :=
| Publish (h : nat) (p : Tree -> S)
| CloseHub (h : nat) (p : Tree -> S)
| Mutate (f : Tree -> Tree).

Definition hub_op (s : Txn * HubWorld) (op : HubOp) : Txn * HubWorld :=
  let '(t, w) := s in
  match op with
  | Publish h p => (hub_publish h p t w, w)
  | CloseHub h p => hub_close h p t w
  | Mutate f => (t, mkHubWorld (f (tree w)) (hubs w))
  end.

Definition transact (ops : list HubOp) (w : HubWorld) : outcome HubWorld :=
  let '(t, w) := foldl hub_op (txn_new, w) ops in
  c ← commit false t w;
  Ret (world c).

(** The projections that count for hub [h]: its publications while it has
    receivers, up to its first closure, which is final. *)
Fixpoint cuts (h : nat) (live : bool) (ops : list HubOp) : list ((Tree -> S) * bool) :=
  match ops with
  | [] => []
  | Publish k p :: ops =>
      if (k =? h)%nat && live then (p, false) :: cuts h live ops else cuts h live ops
  | CloseHub k p :: ops => if (k =? h)%nat then [(p, true)] else cuts h live ops
  | Mutate _ :: ops => cuts h live ops
  end.

Definition final_tree (ops : list HubOp) (t : Tree) : Tree :=
  foldl (fun t op => match op with Mutate f => f t | _ => t end) t ops.

(** *** What a transaction has staged *)

Definition staged (h : nat) (ps : list SnapshotPublication) : option SnapshotPublication :=
  List.find (fun p => pub_hub p =? h)%nat ps.

Lemma staged_hub h ps p : staged h ps = Some p -> p ∈ ps /\ pub_hub p = h.
Proof.
  unfold staged. intros H. apply List.find_some in H as [Hi He].
  split; [by apply list_elem_of_In|by apply Nat.eqb_eq].
Qed.

Lemma staged_None h ps : staged h ps = None <-> h ∉ pub_hub <$> ps.
Proof.
  unfold staged. induction ps as [|p ps IH]; simpl; [set_solver|].
  destruct (Nat.eqb_spec (pub_hub p) h); set_solver.
Qed.

Lemma staged_app h ps ps' :
  staged h (ps ++ ps') = match staged h ps with Some p => Some p | None => staged h ps' end.
Proof. unfold staged. induction ps as [|p ps IH]; [done|]. simpl. by destruct (_ =? _)%nat. Qed.

(** [coalesce_first] replaces in place, or finds nothing. *)
Lemma coalesce_first_spec ps p :
  match coalesce_first ps p with
  | Some (ps', e) =>
      exists q, staged (pub_hub p) ps = Some q /\ pub_hub <$> ps' = pub_hub <$> ps /\
        e = DropProjection (projection q) /\
        forall k, staged k ps' = if decide (k = pub_hub p) then Some (pub_coalesce q p).1
                                 else staged k ps
  | None => staged (pub_hub p) ps = None
  end.
Proof.
  induction ps as [|q ps IH]; [done|]. simpl. unfold pub_same_hub.
  destruct (Nat.eqb_spec (pub_hub q) (pub_hub p)) as [He|He].
  - exists q. unfold staged; simpl. split; [done|]. split; [done|].
    split; [done|]. intros k. simpl. case_decide as Hk.
    + by rewrite (proj2 (Nat.eqb_eq _ _)) by congruence.
    + by rewrite (proj2 (Nat.eqb_neq _ _)) by congruence.
  - destruct (coalesce_first ps p) as [[ps' e]|].
    + destruct IH as (q' & Hs & Hm & He' & Hk). exists q'. unfold staged in *; simpl.
      split; [done|]. split; [by f_equal|].
      split; [done|]. intros k. simpl. rewrite Hk.
      destruct (Nat.eqb_spec (pub_hub q) k); [|done]. by rewrite decide_False by congruence.
    + unfold staged in *; simpl. by rewrite (proj2 (Nat.eqb_neq _ _) He) || done.
Qed.

Definition stage_in (o : option SnapshotPublication) (p : SnapshotPublication) :=
  match o with Some q => (pub_coalesce q p).1 | None => p end.

(** A transaction's staged hubs are distinct and it owes no pulse yet. *)
Record staging_ok (t : Txn) : Prop := mkStagingOk
  { staged_distinct : NoDup (pub_hub <$> snapshots t);
    staged_quiet h : PulseHub h ∉ effects t;
    staged_only : surrender_effects t = [] /\ shared_releases t = [] }.

Lemma stage_snapshot_spec p t :
  staging_ok t ->
  staging_ok (stage_snapshot p t) /\
  forall k, staged k (snapshots (stage_snapshot p t)) =
    if decide (k = pub_hub p) then Some (stage_in (staged k (snapshots t)) p)
    else staged k (snapshots t).
Proof.
  intros [ND Q Ho]. unfold stage_snapshot. pose proof (coalesce_first_spec (snapshots t) p) as H.
  destruct (coalesce_first (snapshots t) p) as [[ps' e]|].
  - destruct H as (q & Hq & Hm & -> & Hk). split.
    + constructor; simpl; [by rewrite Hm| |done]. intros h Hin. apply elem_of_app in Hin as [Hin|Hin].
      * by apply (Q h).
      * apply list_elem_of_singleton in Hin. done.
    + intros k. simpl. rewrite Hk. case_decide; [|done]. subst. by rewrite Hq.
  - split.
    + constructor; simpl; [|done|done]. rewrite fmap_app, NoDup_app. simpl.
      apply staged_None in H. split; [done|]. split; [set_solver|apply NoDup_singleton].
    + intros k. simpl. rewrite staged_app. unfold staged at 2; simpl.
      destruct (Nat.eqb_spec (pub_hub p) k) as [<-|Hk].
      * rewrite decide_True by done. by rewrite H.
      * rewrite decide_False by done. by destruct (staged k (snapshots t)).
Qed.

(** The publication a list of cuts amounts to. *)
Definition cut_publication (h : nat) (cs : list ((Tree -> S) * bool)) : option SnapshotPublication :=
  match last cs with
  | None => None
  | Some (p, closing) => Some (mkPublication h p (existsb (fun c => negb c.2) cs) closing)
  end.

Lemma cut_publication_snoc h cs p closing :
  cut_publication h (cs ++ [(p, closing)]) =
  Some (stage_in (cut_publication h cs) (mkPublication h p (negb closing) closing)).
Proof.
  unfold cut_publication. rewrite last_snoc, existsb_app. simpl. rewrite orb_false_r.
  destruct (last cs) as [[q c]|] eqn:E; [done|].
  apply last_None in E as ->. done.
Qed.

Lemma will_close_staged h t :
  staging_ok t ->
  snapshot_hub_will_close h t = match staged h (snapshots t) with
                                | Some p => pub_closed p | None => false end.
Proof.
  intros [ND _ _]. unfold snapshot_hub_will_close, staged. revert ND.
  induction (snapshots t) as [|p ps IH]; simpl; [done|]. intros ND. apply NoDup_cons in ND as [Hn ND].
  rewrite IH by done. destruct (Nat.eqb_spec (pub_hub p) h) as [He|He]; [|by rewrite andb_false_r].
  rewrite andb_true_r. fold (staged h ps).
  replace (staged h ps) with (@None SnapshotPublication); [by rewrite orb_false_r|].
  symmetry. apply staged_None. by rewrite <- He.
Qed.

(** *** Staging follows the cuts *)

Definition closing (cs : list ((Tree -> S) * bool)) : bool := existsb snd cs.

Record tracks (h : nat) (sender : Hub) (cs : list ((Tree -> S) * bool)) (s : Txn * HubWorld) : Prop :=
  mkTracks
  { track_ok : staging_ok s.1;
    track_hub : hubs s.2 !! h = Some sender;
    track_cut : staged h (snapshots s.1) = cut_publication h cs }.

Lemma tracks_other h sender cs t w k p :
  tracks h sender cs (t, w) -> k <> h ->
  forall closes, tracks h sender cs (stage_snapshot (mkPublication k p (negb closes) closes) t, w).
Proof.
  intros [Ho Hh Hc] Hk closes.
  destruct (stage_snapshot_spec (mkPublication k p (negb closes) closes) t Ho) as [Ho' Hs].
  constructor; [done|done|]. simpl in *. by rewrite Hs, decide_False by done.
Qed.

Lemma closing_last cs p c :
  closing (removelast cs) = false -> last cs = Some (p, c) -> closing cs = c.
Proof.
  unfold closing. intros H Hl. apply last_Some in Hl as [cs' ->].
  rewrite removelast_last in H. rewrite existsb_app, H. simpl. by rewrite orb_false_r.
Qed.

Lemma will_close_tracked h sender cs t w :
  tracks h sender cs (t, w) -> closing (removelast cs) = false ->
  snapshot_hub_will_close h t = closing cs.
Proof.
  intros [Ho Hh Hc] Hr. rewrite will_close_staged by done. simpl in Hc. rewrite Hc.
  unfold cut_publication. destruct (last cs) as [[p c]|] eqn:E.
  - by rewrite (closing_last cs p c).
  - by apply last_None in E as ->.
Qed.

(** One operation of a transaction extends the cuts, until they close. *)
Lemma tracks_op h sender cs s op :
  closed (value sender) = false ->
  tracks h sender cs s -> closing (removelast cs) = false ->
  tracks h sender
    (if closing cs then cs else cs ++ cuts h (negb (receiver_count sender =? 0)) [op]) (hub_op s op).
Proof.
  destruct s as [t w]. intros Hopen T Hr. pose proof (will_close_tracked _ _ _ _ _ T Hr) as Hw.
  pose proof T as [Ho Hh Hc]. simpl in Hh.
  assert (forall p c, closing cs = false ->
    tracks h sender (cs ++ [(p, c)]) (stage_snapshot (mkPublication h p (negb c) c) t, w)) as Hstage.
  { intros p c _. destruct (stage_snapshot_spec (mkPublication h p (negb c) c) t Ho) as [Ho' Hs].
    constructor; [done|done|]. simpl in *. rewrite Hs, decide_True by done.
    by rewrite Hc, cut_publication_snoc. }
  destruct op as [k p|k p|f]; simpl.
  - unfold hub_publish. destruct (Nat.eqb_spec k h) as [->|Hk]; simpl.
    + rewrite Hh, Hw, Hopen, orb_false_r. destruct (receiver_count sender =? 0); simpl.
      * rewrite app_nil_r. by destruct (closing cs).
      * destruct (closing cs) eqn:E; [done|]. by apply (Hstage p false).
    + rewrite app_nil_r. replace (if closing cs then cs else cs) with cs by by destruct (closing cs).
      destruct (hubs w !! k) as [q|]; [|done]. destruct (_ =? 0); [done|].
      destruct (_ || _); [done|]. by apply (tracks_other h sender cs t w k p T Hk false).
  - unfold hub_close. destruct (Nat.eqb_spec k h) as [->|Hk]; simpl.
    + rewrite Hh, Hw, Hopen, orb_false_r. destruct (closing cs) eqn:E; [done|]. by apply (Hstage p true).
    + rewrite app_nil_r. replace (if closing cs then cs else cs) with cs by by destruct (closing cs).
      destruct (hubs w !! k) as [q|].
      * destruct (_ || _); [done|]. by apply (tracks_other h sender cs t w k p T Hk true).
      * constructor; [done| |done]. simpl. by rewrite lookup_insert_ne.
  - rewrite app_nil_r. replace (if closing cs then cs else cs) with cs by by destruct (closing cs).
    by constructor.
Qed.

Lemma cuts_app h live op ops :
  cuts h live (op :: ops) =
  if closing (cuts h live [op]) then cuts h live [op] else cuts h live [op] ++ cuts h live ops.
Proof. destruct op as [k p|k p|f]; simpl; repeat case_match; done. Qed.

Lemma closing_app a b : closing (a ++ b) = closing a || closing b.
Proof. apply existsb_app. Qed.

Lemma tracks_ops h sender ops cs s :
  closed (value sender) = false ->
  tracks h sender cs s -> closing (removelast cs) = false ->
  tracks h sender
    (if closing cs then cs else cs ++ cuts h (negb (receiver_count sender =? 0)) ops)
    (foldl hub_op s ops).
Proof.
  intros Hopen. revert cs s. induction ops as [|op ops IH]; intros cs s T Hr.
  { simpl. rewrite app_nil_r. by destruct (closing cs). }
  pose proof (tracks_op h sender cs s op Hopen T Hr) as T1. simpl foldl.
  destruct (closing cs) eqn:E.
  { specialize (IH _ _ T1 Hr). by rewrite E in IH. }
  set (one := cuts h (negb (receiver_count sender =? 0)) [op]) in *.
  assert (closing (removelast (cs ++ one)) = false) as Hr1.
  { assert (one = [] \/ exists c, one = [c]) as [->|[c ->]].
    - unfold one. destruct op; simpl; repeat case_match; eauto.
    - by rewrite app_nil_r.
    - by rewrite removelast_last. }
  specialize (IH _ _ T1 Hr1). rewrite cuts_app. fold one.
  rewrite closing_app, E in IH. simpl in IH. destruct (closing one); [done|].
  by rewrite app_assoc.
Qed.

(** *** Committing *)

Definition pulses_hub (h : nat) (e : HubEffect) : bool :=
  match e with PulseHub k => (k =? h)%nat | _ => false end.

Definition pulses_of (h : nat) (es : list HubEffect) : nat :=
  length (List.filter (pulses_hub h) es).

Lemma pulses_of_app h a b : pulses_of h (a ++ b) = (pulses_of h a + pulses_of h b)%nat.
Proof. unfold pulses_of. by rewrite List.filter_app, length_app. Qed.

Lemma pulses_of_quiet h es : PulseHub h ∉ es -> pulses_of h es = 0%nat.
Proof.
  unfold pulses_of. induction es as [|e es IH]; [done|]. intros H. simpl.
  destruct e as [| | |k]; simpl; try (apply IH; set_solver).
  destruct (Nat.eqb_spec k h); [set_solver|apply IH; set_solver].
Qed.

(** The sender after the installation of [p] on an open hub. *)
Definition installed (p : SnapshotPublication) (tr : Tree) (sender sender' : Hub) : Prop :=
  exists g, value sender' = mkHubState (projection p tr) g (pub_closed p) /\
    (if published p then exists k, MonotonicCounter.mint (generation (value sender)) = Ret (k, g)
     else g = generation (value sender)) /\
    version sender' = version sender /\ receivers sender' = receivers sender /\
    senders sender' = senders sender.

Lemma pub_install_spec p w fx w' sender :
  pub_install p w = Ret (fx, w') -> hubs w !! pub_hub p = Some sender ->
  closed (value sender) = false ->
  exists sender', w' = mkHubWorld (tree w) (<[pub_hub p := sender']> (hubs w)) /\
    installed p (tree w) sender sender' /\ pulses_of (pub_hub p) fx = 1%nat.
Proof.
  unfold pub_install, install_snapshot. intros H Hs Hc. rewrite Hs, Hc in H.
  apply bind_Ret_inv in H as ([fx1 s1] & H1 & H). apply bind_Ret_inv in H1 as (g & Hg & H1).
  simplify_eq/=. eexists. split; [done|]. split.
  - exists g. split; [done|]. split; [|done]. destruct (published p); [|by simplify_eq].
    apply bind_Ret_inv in Hg as ([k g'] & Hg & ?). simplify_eq. eauto.
  - unfold pulses_of. simpl. by rewrite Nat.eqb_refl.
Qed.

Lemma pub_install_other p w fx w' h :
  pub_install p w = Ret (fx, w') -> pub_hub p <> h ->
  tree w' = tree w /\ hubs w' !! h = hubs w !! h /\ pulses_of h fx = 0%nat.
Proof.
  unfold pub_install, install_snapshot. intros H Hp. destruct (hubs w !! pub_hub p) as [s|] eqn:Hs.
  2: { by simplify_eq. }
  apply bind_Ret_inv in H as ([fx1 s1] & H1 & H). simplify_eq/=. split; [done|].
  rewrite lookup_insert_ne by done. split; [done|]. destruct (closed (value s)) eqn:Hc; [by simplify_eq|].
  apply bind_Ret_inv in H1 as (g & _ & H1). simplify_eq/=.
  apply pulses_of_quiet. set_solver.
Qed.

Lemma install_all_other h ps a fx w a' fx' w' :
  install_all ps a fx w = Ret (a', fx', w') -> staged h ps = None ->
  tree w' = tree w /\ hubs w' !! h = hubs w !! h /\ pulses_of h fx' = pulses_of h fx.
Proof.
  revert a fx w; induction ps as [|p ps IH]; intros a fx w H Hn; simpl in H; [by simplify_eq|].
  apply staged_None in Hn. simpl in Hn.
  assert (staged h ps = None) as Hn' by (apply staged_None; set_solver).
  destruct (pub_install p w) as [[o w1]|m|] eqn:E; [| |done].
  - apply (pub_install_other _ _ _ _ h) in E as (Et & Eh & Ep); [|set_solver].
    apply IH in H as (-> & -> & ->); [|done]. rewrite !pulses_of_app, Ep. split; [done|]. split; [done|].
    rewrite (pulses_of_quiet h [DropPublication p]); [lia|set_solver].
  - apply IH in H as (-> & -> & ->); [|done]. rewrite !pulses_of_app.
    split; [done|]. split; [done|]. rewrite (pulses_of_quiet h [_]); [lia|set_solver].
Qed.

Lemma pub_install_total p w m : pub_install p w <> Panics m.
Proof.
  unfold pub_install, install_snapshot. destruct (hubs w !! pub_hub p) as [s|]; [|done].
  destruct (closed (value s)); [done|]. simpl. destruct (published p); [|done].
  unfold MonotonicCounter.mint. by destruct MonotonicCounter.successor eqn:Es;
    unfold MonotonicCounter.successor in Es; repeat case_match.
Qed.

Lemma install_all_staged h ps a fx w a' fx' w' p sender :
  install_all ps a fx w = Ret (a', fx', w') -> NoDup (pub_hub <$> ps) ->
  staged h ps = Some p -> hubs w !! h = Some sender -> closed (value sender) = false ->
  tree w' = tree w /\ pulses_of h fx' = (pulses_of h fx + 1)%nat /\
  exists sender', hubs w' !! h = Some sender' /\ installed p (tree w) sender sender'.
Proof.
  revert a fx w; induction ps as [|q ps IH]; intros a fx w H ND Hst Hs Hc; [done|].
  apply NoDup_cons in ND as [Hn ND]. simpl in H. unfold staged in Hst. simpl in Hst.
  destruct (pub_install q w) as [[o w1]|m|] eqn:E; [|by apply pub_install_total in E|done].
  destruct (Nat.eqb_spec (pub_hub q) h) as [He|He].
  - simplify_eq. destruct (pub_install_spec _ _ _ _ _ E Hs Hc) as (s' & -> & Hi & Hp).
    apply (install_all_other (pub_hub p)) in H as (Ht & Hh & Hpl); [|by apply staged_None].
    rewrite Ht, Hh, Hpl, !pulses_of_app, Hp. simpl. rewrite lookup_insert_eq.
    rewrite (pulses_of_quiet (pub_hub p) [_]) by set_solver. split; [done|]. split; [lia|]. eauto.
  - apply (pub_install_other _ _ _ _ h) in E as (Et & Eh & Ep); [|done].
    apply IH in H as (-> & -> & Hx); [|done|done|by rewrite Eh|done].
    rewrite Et in Hx. rewrite Et, !pulses_of_app, Ep, (pulses_of_quiet h [_]) by set_solver.
    split; [done|]. split; [lia|done].
Qed.

Lemma run_effects_hub h es a w :
  tree (run_effects es a w).2 = tree w /\
  hubs (run_effects es a w).2 !! h = Nat.iter (pulses_of h es) pulse <$> hubs w !! h.
Proof.
  revert a w; induction es as [|e es IH]; intros a w; simpl.
  { split; [done|]. by destruct (hubs w !! h). }
  destruct (hub_perform e w) as [pn w1] eqn:E.
  specialize (IH (Panic.record a pn) w1). destruct (run_effects es _ w1) as [[d a'] w2].
  simpl in *. destruct IH as [-> ->]. unfold pulses_of. simpl.
  destruct e as [| | |k]; simplify_eq/=; try done.
  split; [done|]. destruct (Nat.eqb_spec k h) as [->|Hk].
  - rewrite lookup_alter_eq. destruct (hubs w !! h); [|done]. simpl. by rewrite <- Nat.iter_succ_r.
  - by rewrite lookup_alter_ne.
Qed.

Lemma final_tree_ops ops s : tree (foldl hub_op s ops).2 = final_tree ops (tree s.2).
Proof.
  revert s; induction ops as [|op ops IH]; intros [t w]; [done|]. simpl. rewrite IH. f_equal.
  destruct op as [k p|k p|f]; simpl; [done| |done]. unfold hub_close.
  destruct (hubs w !! k); [by destruct (_ || _)|done].
Qed.

Lemma transact_open h sender ops w w' :
  transact ops w = Ret w' ->
  hubs w !! h = Some sender -> closed (value sender) = false ->
  match cut_publication h (cuts h (negb (receiver_count sender =? 0)) ops) with
  | None => hubs w' !! h = Some sender
  | Some p => exists sender', hubs w' !! h = Some (pulse sender') /\
                installed p (final_tree ops (tree w)) sender sender'
  end.
Proof.
  unfold transact. intros H Hs Hc.
  assert (staging_ok txn_new) as Hok.
  { constructor; simpl; [constructor|set_solver|done]. }
  pose proof (tracks_ops h sender ops [] (txn_new, w) Hc
    ltac:(by constructor) eq_refl) as T. simpl in T.
  pose proof (final_tree_ops ops (txn_new, w)) as Htr. simpl in Htr.
  destruct (foldl hub_op (txn_new, w) ops) as [t w1]. destruct T as [Ho Hh Hst]. simpl in *.
  destruct Ho as [ND Q [Hsu Hre]]. apply bind_Ret_inv in H as (c & H & ?). simplify_eq.
  unfold commit in H. apply bind_Ret_inv in H as ([[a fx] w2] & Hi & H).
  rewrite Hsu, Hre in H. simpl in H.
  pose proof (run_effects_hub h fx a w2) as [_ Hr].
  destruct (run_effects fx a w2) as [[d1 a1] w3]. simplify_eq/=. rewrite Hr. rewrite <- Hst.
  destruct (staged h (snapshots t)) as [p|] eqn:Ep.
  - destruct (install_all_staged _ _ _ _ _ _ _ _ _ _ Hi ND Ep Hh Hc) as (_ & Hp & s' & Hs' & Hin).
    rewrite Hs', Hp, (pulses_of_quiet h (effects t)) by done. exists s'. by rewrite <- Htr.
  - destruct (install_all_other h _ _ _ _ _ _ _ Hi Ep) as (_ & Hw & Hp).
    by rewrite Hw, Hp, Hh, (pulses_of_quiet h (effects t)) by done.
Qed.

(** *** A closed hub *)

Lemma closed_not_staged h sender ops s :
  closed (value sender) = true ->
  staging_ok s.1 -> hubs s.2 !! h = Some sender -> staged h (snapshots s.1) = None ->
  let s' := foldl hub_op s ops in
  staging_ok s'.1 /\ hubs s'.2 !! h = Some sender /\ staged h (snapshots s'.1) = None.
Proof.
  intros Hc. revert s; induction ops as [|op ops IH]; intros [t w] Ho Hh Hn; [done|].
  assert (forall k p, pub_hub p = k -> k <> h ->
    staging_ok (stage_snapshot p t) /\ staged h (snapshots (stage_snapshot p t)) = None) as Hother.
  { intros k p Hk Hne. destruct (stage_snapshot_spec p t Ho) as [? Hs]. split; [done|].
    by rewrite Hs, decide_False by congruence. }
  simpl in *. destruct op as [k p|k p|f]; simpl.
  - unfold hub_publish. destruct (hubs w !! k) as [q|] eqn:Hk; [|by apply IH].
    destruct (_ =? 0); [by apply IH|]. destruct (closed (value q)) eqn:Hq.
    { rewrite orb_true_r. by apply IH. }
    destruct (_ || _); [by apply IH|]. destruct (Hother k (publication_published k p)); [done|congruence|].
    by apply IH.
  - unfold hub_close. destruct (hubs w !! k) as [q|] eqn:Hk.
    + destruct (closed (value q)) eqn:Hq; [rewrite orb_true_r; by apply IH|].
      destruct (_ || _); [by apply IH|]. destruct (Hother k (publication_closed k p)); [done|congruence|].
      by apply IH.
    + apply IH; [done| |done]. simpl. rewrite lookup_insert_ne by congruence. done.
  - by apply IH.
Qed.

Lemma transact_closed h sender ops w w' :
  transact ops w = Ret w' -> hubs w !! h = Some sender -> closed (value sender) = true ->
  hubs w' !! h = Some sender.
Proof.
  unfold transact. intros H Hs Hc.
  pose proof (closed_not_staged h sender ops (txn_new, w) Hc) as Hn.
  destruct (foldl hub_op (txn_new, w) ops) as [t w1]. simpl in Hn.
  destruct Hn as ([ND Q [Hsu Hre]] & Hh & Hn); [|done|done|].
  { constructor; simpl; [constructor|set_solver|done]. }
  apply bind_Ret_inv in H as (c & H & ?). simplify_eq.
  unfold commit in H. apply bind_Ret_inv in H as ([[a fx] w2] & Hi & H).
  rewrite Hsu, Hre in H. simpl in H. pose proof (run_effects_hub h fx a w2) as [_ Hr].
  destruct (run_effects fx a w2) as [[d1 a1] w3]. simplify_eq/=.
  destruct (install_all_other h _ _ _ _ _ _ _ Hi Hn) as (_ & Hw & Hp).
  by rewrite Hr, Hw, Hp, Hh, (pulses_of_quiet h (effects t)) by done.
Qed.

(** ** Histories of hubs and receivers *)

(** [subscribe] in a transaction of its own. *)
Definition subscribe_cmd (h : nat) (initial : S) (w : HubWorld) : outcome (SnapshotReceiver * HubWorld) :=
  '(r, t, w) ← hub_subscribe h initial txn_new w;
  c ← commit false t w;
  Ret (r, world c).

(** What may happen to the hubs while somebody keeps a receiver of [held]. *)
Inductive hub_step (held : nat) (w : HubWorld) : HubWorld -> Prop :=
| step_transact ops w' : transact ops w = Ret w' -> hub_step held w w'
| step_subscribe k initial r w' : subscribe_cmd k initial w = Ret (r, w') -> hub_step held w w'
| step_drop k sender :
    hubs w !! k = Some sender -> (k = held -> 1 < receivers sender) ->
    hub_step held w (mkHubWorld (tree w) (<[k := drop_receiver sender]> (hubs w))).

Lemma commit_deferred t w c :
  commit false t w = Ret c -> snapshots t = [] -> surrender_effects t = [] ->
  shared_releases t = [] -> (forall h, PulseHub h ∉ effects t) ->
  forall h, hubs (world c) !! h = hubs w !! h.
Proof.
  unfold commit. intros H Hs Hsu Hr Hq h. rewrite Hs, Hsu, Hr in H. simpl in H.
  pose proof (run_effects_hub h (effects t) Panic.accumulator_default w) as [_ Hw].
  destruct (run_effects (effects t) _ w) as [[d a] w1]. simplify_eq/=.
  rewrite Hw, pulses_of_quiet by done. by destruct (hubs w !! h).
Qed.

(** A subscription to an initialized hub: with receivers it changes nothing but
    their number; without, it refreshes the snapshot silently unless the hub is
    closed. *)
Lemma subscribe_cmd_spec h initial w r w' k sender :
  subscribe_cmd h initial w = Ret (r, w') -> hubs w !! k = Some sender ->
  exists sender', hubs w' !! k = Some sender' /\ version sender' = version sender /\
    (0 < receivers sender \/ closed (value sender) = true -> value sender' = value sender) /\
    receivers sender <= receivers sender'.
Proof.
  unfold subscribe_cmd, hub_subscribe. intros H Hk.
  apply bind_Ret_inv in H as ([[r0 t] w1] & H1 & H). apply bind_Ret_inv in H as (c & Hc & H).
  simplify_eq. apply bind_Ret_inv in H1 as ([t1 s1] & H1 & H2).
  apply bind_Ret_inv in H2 as ([r1 s2] & H2 & H3). simplify_eq/=.
  apply bind_Ret_inv in H2 as (n & Hn & H2). apply retain_endpoint_Ret in Hn as ->. simplify_eq/=.
  assert (snapshots t = [] /\ surrender_effects t = [] /\ shared_releases t = [] /\
    (forall h, PulseHub h ∉ effects t) /\
    (h = k -> version s1 = version sender /\ receivers s1 = receivers sender /\
      (0 < receivers sender \/ closed (value sender) = true -> value s1 = value sender)))
    as (Ht1 & Ht2 & Ht3 & Hq & Hs).
  { destruct (hubs w !! h) as [s0|] eqn:Hh.
    2: { simplify_eq/=. do 3 (split; [done|]). split; [set_solver|]. intros ->. congruence. }
    unfold receiver_count in H1. destruct (Z.eqb_spec (receivers s0) 0) as [E0|E0].
    2: { simplify_eq/=. do 3 (split; [done|]). split; [set_solver|]. intros ->. by simplify_eq. }
    apply bind_Ret_inv in H1 as ([fx s0'] & H0 & H1). simplify_eq/=.
    unfold install_snapshot in H0. destruct (closed (value s0)) eqn:Hcl; simplify_eq/=.
    - do 3 (split; [done|]). split; [set_solver|]. intros ->. by simplify_eq.
    - apply bind_Ret_inv in H0 as (g & _ & H0). simplify_eq/=.
      do 3 (split; [done|]). split; [set_solver|]. intros ->. simplify_eq/=. split; [done|].
      split; [done|]. intros [?|?]; [lia|congruence]. }
  pose proof (commit_deferred _ _ _ Hc Ht1 Ht2 Ht3 Hq k) as ->. simpl.
  destruct (decide (h = k)) as [<-|Hne].
  - destruct (Hs eq_refl) as (Hv & Hr & Hval). rewrite lookup_insert_eq. eexists. split; [done|]. simpl.
    split; [done|]. split; [done|]. lia.
  - rewrite lookup_insert_ne by done. exists sender. split; [done|]. repeat split; [done..|lia].
Qed.

(** A closed hub is final: no transaction, subscription or dropped receiver
    changes its snapshot, its generation or its closure, or wakes anybody on
    it. *)
Theorem closed_hub_is_final held h sender w w' :
  hubs w !! h = Some sender -> closed (value sender) = true -> rtc (hub_step held) w w' ->
  exists sender', hubs w' !! h = Some sender' /\ value sender' = value sender /\
    version sender' = version sender.
Proof.
  intros Hs Hc R. revert sender Hs Hc. induction R as [w|w w1 w2 H R IH]; intros sender Hs Hc; [eauto|].
  assert (exists s1, hubs w1 !! h = Some s1 /\ value s1 = value sender /\ version s1 = version sender)
    as (s1 & H1 & Hv & Hver).
  { inversion H as [ops w0 Ht|k initial r w0 Ht|k q Hq Hg]; subst.
    - exists sender. split; [by eapply transact_closed|done].
    - destruct (subscribe_cmd_spec _ _ _ _ _ _ _ Ht Hs) as (s1 & ? & ? & Hval & _).
      exists s1. auto 6.
    - destruct (decide (k = h)) as [->|Hk].
      + rewrite Hs in Hq. simplify_eq. simpl. rewrite lookup_insert_eq. eauto.
      + simpl. rewrite lookup_insert_ne by done. eauto. }
  destruct (IH s1 H1) as (s2 & ? & ? & ?); [by rewrite Hv|]. exists s2. split; [done|]. by split; congruence.
Qed.

(** One observation transaction moves a snapshot hub at most one edge.
    Whatever it publishes, closes and mutates, an open hub is afterwards
    unchanged if nothing counted for it; otherwise it holds the last counting
    projection, built from the transaction's final tree, is closed exactly if
    the hub was closed in the transaction, has advanced its generation by one
    exactly if something was published before that, and its version by one. *)
Theorem transaction_moves_hub_one_edge h sender ops w w' :
  transact ops w = Ret w' -> hubs w !! h = Some sender -> closed (value sender) = false ->
  let cs := cuts h (negb (receiver_count sender =? 0)) ops in
  exists sender', hubs w' !! h = Some sender' /\
  match last cs with
  | None => sender' = sender
  | Some (p, closes) =>
      snapshot (value sender') = p (final_tree ops (tree w)) /\
      closed (value sender') = closes /\
      MonotonicCounter.current (generation (value sender')) =
        MonotonicCounter.current (generation (value sender)) +
        (if existsb (fun c => negb c.2) cs then 1 else 0) /\
      version sender' = wrapping_succ (version sender)
  end.
Proof.
  intros H Hs Hc cs. pose proof (transact_open h sender ops w w' H Hs Hc) as Ho. fold cs in Ho.
  unfold cut_publication in Ho. destruct (last cs) as [[p c]|]; [|eauto].
  destruct Ho as (s' & Hs' & g & Hv & Hg & Hver & _). exists (pulse s'). split; [done|].
  simpl in *. rewrite Hv. simpl. split; [done|]. split; [done|]. rewrite Hver. split; [|done].
  destruct (existsb (fun c0 => negb c0.2) cs); [|subst; lia]. destruct Hg as [k Hg].
  by apply mint_Ret in Hg as (-> & _ & ->).
Qed.

(** ** Receivers *)

(** [n] wakes later. *)
Definition advanced (sender sender' : Hub) (n : Z) : Prop :=
  0 <= n /\ version sender' = (version sender + n) mod 2 ^ 64 /\
  (n = 0 -> value sender' = value sender) /\ 0 < receivers sender'.

Lemma wrapping_succ_add v n : wrapping_succ ((v + n) mod 2 ^ 64) = (v + (n + 1)) mod 2 ^ 64.
Proof. unfold wrapping_succ. rewrite Zplus_mod_idemp_l. f_equal. lia. Qed.

(** A hub somebody holds a receiver of changes only with a wake. *)
Lemma hub_step_advances held sender w w' :
  hub_step held w w' -> hubs w !! held = Some sender -> 0 < receivers sender ->
  exists sender', hubs w' !! held = Some sender' /\ 0 < receivers sender' /\
    ((version sender' = version sender /\ value sender' = value sender) \/
     version sender' = wrapping_succ (version sender)).
Proof.
  intros H Hs Hr. inversion H as [ops w0 Ht|k initial r w0 Ht|k q Hq Hg]; subst.
  - destruct (closed (value sender)) eqn:Hc.
    { exists sender. split; [by eapply transact_closed|auto]. }
    pose proof (transact_open _ _ _ _ _ Ht Hs Hc) as Ho.
    destruct cut_publication as [p|]; [|by eauto 6].
    destruct Ho as (s' & Hs' & g & _ & _ & Hv & Hrc & _). exists (pulse s'). simpl.
    rewrite Hv, Hrc. auto.
  - destruct (subscribe_cmd_spec _ _ _ _ _ _ _ Ht Hs) as (s1 & ? & ? & Hval & ?).
    exists s1. split; [done|]. split; [lia|]. left. auto.
  - destruct (decide (k = held)) as [->|Hk].
    + rewrite Hs in Hq. simplify_eq. simpl. rewrite lookup_insert_eq. eexists. split; [done|]. simpl.
      specialize (Hg eq_refl). split; [lia|auto].
    + simpl. rewrite lookup_insert_ne by done. eauto 6.
Qed.

Inductive hub_run (held : nat) (w : HubWorld) : Z -> HubWorld -> Prop :=
| hub_run_nil : hub_run held w 0 w
| hub_run_step n w1 w2 : hub_run held w n w1 -> hub_step held w1 w2 -> hub_run held w (n + 1) w2.

Lemma hub_run_advances held sender w k w' :
  0 <= version sender < 2 ^ 64 -> hub_run held w k w' ->
  hubs w !! held = Some sender -> 0 < receivers sender ->
  exists sender' n, hubs w' !! held = Some sender' /\ n <= k /\ advanced sender sender' n.
Proof.
  intros Hv R Hs Hr. induction R as [|k w1 w2 R IH Hst].
  { exists sender, 0. split; [done|]. split; [done|]. split; [done|]. rewrite Z.add_0_r, Z.mod_small; auto. }
  destruct IH as (s1 & n & H1 & Hn & H0 & Hver & Hval & Hrec).
  destruct (hub_step_advances _ _ _ _ Hst H1 Hrec) as (s2 & H2 & Hr2 & [[Ha Hb]|Ha]).
  - exists s2, n. split; [done|]. split; [lia|]. split; [done|]. rewrite Ha, Hb. auto.
  - exists s2, (n + 1). split; [done|]. split; [lia|]. split; [lia|].
    rewrite Ha, Hver, wrapping_succ_add. split; [done|]. split; [lia|done].
Qed.

(** A snapshot receiver that found nothing new and waits is not forgotten:
    after any history of transactions, subscriptions and dropped receivers, if
    its hub shows a newer generation or has been closed, then its pending wait
    is ready, and the next iteration delivers the newest committed snapshot or
    reports the closure. *)
Theorem snapshot_receiver_catches_up held sender r r' w k w' :
  changed_iteration r sender = ChangedWaits r' ->
  hubs w !! held = Some sender -> 0 < receivers sender -> 0 <= version sender < 2 ^ 64 ->
  hub_run held w k w' -> k < 2 ^ 64 ->
  exists sender', hubs w' !! held = Some sender' /\
    (value sender' = value sender \/
     exists o v, watch_ready sender' (seen (inner r')) = Some (o, v)) /\
    (MonotonicCounter.current (generation (value sender')) <> seen_generation r' ->
       exists r'', changed_iteration r' sender' = ChangedOk (borrow_latest sender') r'' /\
         seen_generation r'' = MonotonicCounter.current (generation (value sender'))) /\
    (MonotonicCounter.current (generation (value sender')) = seen_generation r' ->
       closed (value sender') = true -> exists r'', changed_iteration r' sender' = ChangedClosed r'').
Proof.
  intros Hw Hs Hr Hv R Hk.
  destruct (hub_run_advances _ _ _ _ _ Hv R Hs Hr) as (s' & n & H' & Hn & Hn0 & Hver & Hval & _).
  exists s'. split; [done|]. unfold changed_iteration in *. simpl in *.
  destruct (negb _) eqn:E1 in Hw; [done|]. destruct (closed (value sender)) eqn:E2 in Hw; [done|].
  simplify_eq/=. split; [|split].
  - destruct (decide (n = 0)) as [->|Hne]; [left; auto|]. right. unfold watch_ready.
    destruct (Z.eqb_spec (version s') (version sender)) as [Heq|Hne']; [|by simpl; eauto].
    exfalso. rewrite Hver in Heq.
    assert ((version sender + n) mod 2 ^ 64 = version sender mod 2 ^ 64) as Hm
      by (rewrite (Z.mod_small (version sender)); lia).
    destruct (decide (version sender + n < 2 ^ 64)).
    + rewrite Z.mod_small in Heq; lia.
    + rewrite <- (Z.mod_unique (version sender + n) (2 ^ 64) 1 (version sender + n - 2 ^ 64)) in Heq; lia.
  - intros Hg. rewrite (proj2 (Z.eqb_neq _ _) Hg). simpl. eauto.
  - intros Hg Hc. rewrite (proj2 (Z.eqb_eq _ _) Hg). simpl. rewrite Hc. eauto.
Qed.
End snapshots.

(** ** A hub at work *)

Definition demo_state {A} (m : outcome A) (d : A) : A := match m with Ret a => a | _ => d end.

Definition demo_empty : HubWorld (S := Z) (Tree := Z) := mkHubWorld 5 ∅.

(** A first subscriber of hub 0. *)
Definition demo_subscribed :=
  demo_state (subscribe_cmd 0 5 demo_empty) (mkSnapshotReceiver (mkReceiver 0) 0, demo_empty).

Definition demo_sender : WatchShared (SnapshotHubState (S := Z)) :=
  default (drop_receiver (watch (hub_state_new 0 false)).1) (hubs demo_subscribed.2 !! 0%nat).

Definition demo_ops : list (HubOp (S := Z) (Tree := Z)) :=
  [Publish 0 (fun t => t); Mutate (Z.add 1); Publish 0 (fun t => t * 10); Publish 3 (fun t => t)].

Definition demo_closing : list (HubOp (S := Z) (Tree := Z)) :=
  demo_ops ++ [CloseHub 0 (fun t => - t); Publish 0 (fun t => t)].

Definition demo_published := demo_state (transact demo_ops demo_subscribed.2) demo_empty.
Definition demo_closed := demo_state (transact demo_closing demo_subscribed.2) demo_empty.

Lemma transaction_moves_hub_one_edge_witness :
  exists sender', hubs demo_published !! 0%nat = Some sender' /\
    snapshot (value sender') = 60 /\ version sender' = 1.
Proof.
  destruct (transaction_moves_hub_one_edge 0 demo_sender demo_ops demo_subscribed.2 demo_published)
    as (s' & Hs & H); [reflexivity..|].
  exists s'. split; [exact Hs|]. cbn in H. destruct H as (H1 & _ & _ & H2). split; [exact H1|exact H2].
Defined.

Lemma closed_hub_is_final_witness :
  exists sender', hubs demo_closed !! 0%nat = Some sender' /\ snapshot (value sender') = -6 /\
    exists w sender'', transact demo_ops demo_closed = Ret w /\ hubs w !! 0%nat = Some sender'' /\
      value sender'' = value sender'.
Proof.
  eexists. split; [reflexivity|]. split; [reflexivity|].
  pose (w := demo_state (transact demo_ops demo_closed) demo_empty).
  destruct (closed_hub_is_final 7 0 (default demo_sender (hubs demo_closed !! 0%nat)) demo_closed w)
    as (s' & Hs & Hv & _); [reflexivity|reflexivity| |].
  { apply rtc_once. apply (step_transact 7 demo_closed demo_ops). reflexivity. }
  exists w, s'. split; [reflexivity|]. split; [exact Hs|exact Hv].
Defined.

Definition demo_sixty : WatchShared (SnapshotHubState (S := Z)) :=
  mkWatch (mkHubState 60 (MonotonicCounter.from_current 1) false) 1 1 1.

Lemma demo_published_hub : hubs demo_published !! 0%nat = Some demo_sixty.
Proof. vm_compute. reflexivity. Qed.

Lemma snapshot_receiver_catches_up_witness :
  exists sender', hubs demo_published !! 0%nat = Some sender' /\
    exists r'', changed_iteration demo_subscribed.1 sender' = ChangedOk 60 r''.
Proof.
  destruct (snapshot_receiver_catches_up 0 demo_sender demo_subscribed.1 demo_subscribed.1
    demo_subscribed.2 1 demo_published) as (s' & Hs & _ & H & _); try reflexivity.
  - split; [discriminate|reflexivity].
  - apply (hub_run_step 0 demo_subscribed.2 0 demo_subscribed.2); [constructor|].
    apply (step_transact 0 _ demo_ops). reflexivity.
  - exists s'. split; [exact Hs|]. rewrite demo_published_hub in Hs. injection Hs as <-.
    destruct H as (r'' & Hr & _); [discriminate|]. exists r''. exact Hr.
Defined.
