(* ===== verification/LifecycleHub.v ===== *)
(** * Lifecycle event streams

    [LifecycleHub] and [LifecycleEvents] of
    [crates/shelterwood/src/cells/observe.rs] over the broadcast wrapper of
    [crates/shelterwood-runtime/src/channel.rs].  Tokio's broadcast channel
    itself is a parameter: its documented behaviour is the class [Broadcast]. *)

From S2P Require Import Prelude Identity Watch.

(** Tokio's [broadcast]: every receiver has its own position in the sequence of
    values sent; at most [bc_capacity] of them are retained, a receiver that
    fell behind is told how many it lost and moved to the oldest retained one;
    a send without receivers returns the value. *)
Class Broadcast (T B R : Type) := {
  bc_capacity : nat;
  bc_sent : B -> list T;
  bc_receivers : B -> Z;
  rx_next : R -> nat;
  bc_new : B;
  bc_subscribe : B -> R * B;
  bc_drop_receiver : B -> B;
  bc_send : T -> B -> bool * B;
  (** [Ok(value)], or [None] when empty, or the number of values lost *)
  bc_try_recv : R -> B -> (T + option Z) * R;
  bc_new_sent : bc_sent bc_new = [] /\ bc_receivers bc_new = 0;
  bc_subscribe_spec b r b' : bc_subscribe b = (r, b') ->
    rx_next r = length (bc_sent b) /\ bc_sent b' = bc_sent b /\ bc_receivers b' = bc_receivers b + 1;
  bc_drop_spec b :
    bc_sent (bc_drop_receiver b) = bc_sent b /\ bc_receivers (bc_drop_receiver b) = bc_receivers b - 1;
  bc_send_spec x b ok b' : bc_send x b = (ok, b') ->
    ok = negb (bc_receivers b =? 0) /\ bc_receivers b' = bc_receivers b /\
    bc_sent b' = if ok then bc_sent b ++ [x] else bc_sent b;
  bc_recv_spec r b res r' : bc_try_recv r b = (res, r') ->
    let n := length (bc_sent b) in
    if decide (n <= rx_next r)%nat then res = inr None /\ r' = r
    else if decide (rx_next r < n - bc_capacity)%nat
    then res = inr (Some (Z.of_nat (n - bc_capacity - rx_next r))) /\ rx_next r' = (n - bc_capacity)%nat
    else exists x, res = inl x /\ bc_sent b !! rx_next r = Some x /\ rx_next r' = S (rx_next r) }.

(** [BroadcastReceive] and [BroadcastReceiver::try_receive]; the hub keeps its
    sender, so the channel itself never reports [Closed]. *)
Module BroadcastReceive.
Inductive t (T : Type) := Item (x : T) | Empty | Closed | Lagged (dropped : Z).
Arguments Item {T}. Arguments Empty {T}. Arguments Closed {T}. Arguments Lagged {T}.
End BroadcastReceive.

Module LifecycleItem.
Inductive t (T : Type) := Event (e : T) | Lagged (dropped : Z).
Arguments Event {T}. Arguments Lagged {T}.
End LifecycleItem.

Module LifecycleTryRecvError.
Inductive t := Empty | Closed.
End LifecycleTryRecvError.

Section lifecycle.
Context {T B R : Type} `{!Broadcast T B R}.

Definition try_receive (r : R) (b : B) : BroadcastReceive.t T * R :=
  let '(res, r) := bc_try_recv r b in
  (match res with
   | inl x => BroadcastReceive.Item x
   | inr None => BroadcastReceive.Empty
   | inr (Some dropped) => BroadcastReceive.Lagged dropped
   end, r).

(** [LifecycleSignal] is its [closed] flag. *)
Record LifecycleHub := mkLifecycleHub { events : B; signal : WatchShared bool }.

Record LifecycleEvents := mkLifecycleEvents { rx : R; rx_signal : WatchReceiver }.

Definition lifecycle_default : LifecycleHub :=
  mkLifecycleHub bc_new (drop_receiver (watch false).1).

Definition lifecycle_subscribe (h : LifecycleHub) : outcome (LifecycleEvents * LifecycleHub) :=
  let '(r, b) := bc_subscribe (events h) in
  '(s, w) ← watcher (signal h);
  Ret (mkLifecycleEvents r s, mkLifecycleHub b w).

Definition drop_events (h : LifecycleHub) : LifecycleHub :=
  mkLifecycleHub (bc_drop_receiver (events h)) (drop_receiver (signal h)).

Definition has_receivers (h : LifecycleHub) : bool := negb (receiver_count (signal h) =? 0).
Definition lifecycle_is_closed (h : LifecycleHub) : bool := read_with id (signal h).

(** [publish]: whether the event was published, which owes a pulse of the
    signal after unlock; otherwise the event is dropped then. *)
Definition lifecycle_publish (e : T) (h : LifecycleHub) : bool * LifecycleHub :=
  if negb (has_receivers h) then (false, h)
  else if lifecycle_is_closed h then (false, h)
  else
    let '(ok, b) := bc_send e (events h) in
    (ok, mkLifecycleHub b (signal h)).

(** [close]: whether this call closed the hub, which owes a pulse. *)
Definition lifecycle_close (h : LifecycleHub) : bool * LifecycleHub :=
  if lifecycle_is_closed h then (false, h)
  else (true, mkLifecycleHub (events h) (modify_silently (fun _ => true) (signal h))).

Definition pulse_signal (owed : bool) (h : LifecycleHub) : LifecycleHub :=
  if owed then mkLifecycleHub (events h) (pulse (signal h)) else h.

Definition lifecycle_try_recv (s : LifecycleEvents) (h : LifecycleHub)
  : (LifecycleItem.t T + LifecycleTryRecvError.t) * LifecycleEvents :=
  let closed := borrow_cloned (signal h) in
  let '(item, r) := try_receive (rx s) (events h) in
  (match item with
   | BroadcastReceive.Item e => inl (LifecycleItem.Event e)
   | BroadcastReceive.Lagged d => inl (LifecycleItem.Lagged d)
   | BroadcastReceive.Empty =>
       if closed then inr LifecycleTryRecvError.Closed else inr LifecycleTryRecvError.Empty
   | BroadcastReceive.Closed => inr LifecycleTryRecvError.Closed
   end, mkLifecycleEvents r (rx_signal s)).

(** ** One subscriber's view *)

(** A hub, one subscriber and what it has received, while others come and go;
    [offered] are the events published since the subscription, up to closure. *)
Record Stream := mkStream
  { hub : LifecycleHub;
    subscriber : LifecycleEvents;
    received : list (LifecycleItem.t T);
    offered : list T }.

Inductive stream_step (s : Stream) : Stream -> Prop :=
| stream_publish e ok h :
    lifecycle_publish e (hub s) = (ok, h) ->
    stream_step s (mkStream (pulse_signal ok h) (subscriber s) (received s)
      (if lifecycle_is_closed (hub s) then offered s else offered s ++ [e]))
| stream_close ok h :
    lifecycle_close (hub s) = (ok, h) ->
    stream_step s (mkStream (pulse_signal ok h) (subscriber s) (received s) (offered s))
| stream_receive item l :
    lifecycle_try_recv (subscriber s) (hub s) = (inl item, l) ->
    stream_step s (mkStream (hub s) l (received s ++ [item]) (offered s))
| stream_no_item err l :
    lifecycle_try_recv (subscriber s) (hub s) = (inr err, l) ->
    stream_step s (mkStream (hub s) l (received s) (offered s))
| stream_subscribe l h :
    lifecycle_subscribe (hub s) = Ret (l, h) ->
    stream_step s (mkStream h (subscriber s) (received s) (offered s))
| stream_drop_other :
    1 < receivers (signal (hub s)) ->
    stream_step s (mkStream (drop_events (hub s)) (subscriber s) (received s) (offered s)).

(** Reads items against a sequence of events from one position to another: an
    event must be the next one, a lag marker skips as many as it says. *)
Inductive accounts (sent : list T) : nat -> list (LifecycleItem.t T) -> nat -> Prop :=
| accounts_nil n : accounts sent n [] n
| accounts_event n e items m :
    sent !! n = Some e -> accounts sent (S n) items m ->
    accounts sent n (LifecycleItem.Event e :: items) m
| accounts_lagged n d items m :
    0 < d -> accounts sent (n + Z.to_nat d) items m ->
    accounts sent n (LifecycleItem.Lagged d :: items) m.

Lemma accounts_app sent n a m b k :
  accounts sent n a m -> accounts sent m b k -> accounts sent n (a ++ b) k.
Proof. induction 1; simpl; eauto using accounts. Qed.

Lemma accounts_grow sent more n items m :
  accounts sent n items m -> accounts (sent ++ more) n items m.
Proof. induction 1; eauto using accounts, lookup_app_l_Some. Qed.

Record stream_inv (before : list T) (s : Stream) : Prop := mkStreamInv
  { si_sent : bc_sent (events (hub s)) = before ++ offered s;
    si_counts : bc_receivers (events (hub s)) = receivers (signal (hub s));
    si_held : 0 < receivers (signal (hub s));
    si_position : (rx_next (rx (subscriber s)) <= length (bc_sent (events (hub s))))%nat;
    si_accounts : accounts (before ++ offered s) (length before) (received s)
                    (rx_next (rx (subscriber s))) }.

(** A receive moves the subscriber by what it returns. *)
Lemma try_recv_spec l h res l' :
  lifecycle_try_recv l h = (res, l') ->
  (rx_next (rx l) <= length (bc_sent (events h)))%nat ->
  (rx_next (rx l') <= length (bc_sent (events h)))%nat /\
  match res with
  | inl item => accounts (bc_sent (events h)) (rx_next (rx l)) [item] (rx_next (rx l'))
  | inr err => rx_next (rx l') = rx_next (rx l) /\
      rx_next (rx l) = length (bc_sent (events h)) /\
      err = if lifecycle_is_closed h then LifecycleTryRecvError.Closed else LifecycleTryRecvError.Empty
  end.
Proof.
  unfold lifecycle_try_recv, try_receive. intros H Hle.
  destruct (bc_try_recv (rx l) (events h)) as [r1 r'] eqn:E. apply bc_recv_spec in E.
  cbv zeta in E. case_decide as D1; [|case_decide as D2].
  - destruct E as [-> ->]. unfold lifecycle_is_closed, read_with, id, borrow_cloned in *.
    destruct (value (signal h)); simplify_eq/=; (split; [done|]); split; [done|split; [lia|done]|done|split; [lia|done]].
  - destruct E as [-> Hn]. simplify_eq/=. split; [lia|]. constructor; [lia|].
    rewrite Hn. replace (_ + _)%nat with (length (bc_sent (events h)) - bc_capacity)%nat by lia.
    constructor.
  - destruct E as (x & -> & Hx & Hn). simplify_eq/=. rewrite Hn. split; [lia|].
    econstructor; [done|]. constructor.
Qed.

Lemma stream_step_inv before s s' :
  stream_inv before s -> stream_step s s' -> stream_inv before s'.
Proof.
  intros [h1 h2 h3 h4 h5] H. destruct H as [e ok h H|ok h H|item l H|err l H|l h H|H]; simpl.
  - unfold lifecycle_publish, has_receivers, receiver_count in H.
    rewrite (proj2 (Z.eqb_neq _ _)) in H by lia. simpl in H.
    destruct (lifecycle_is_closed (hub s)) eqn:Ec; [by simplify_eq|].
    destruct (bc_send e (events (hub s))) as [ok' b] eqn:Es. apply bc_send_spec in Es as (Hok & Hr & Hs).
    rewrite (proj2 (Z.eqb_neq _ _)) in Hok by lia. simpl in Hok. subst ok'. simplify_eq/=.
    constructor; simpl; rewrite ?Hs, ?h1, ?app_assoc; try done; [lia| |].
    + rewrite length_app. rewrite h1 in h4. lia.
    + rewrite <- app_assoc. rewrite app_assoc. by apply accounts_grow.
  - unfold lifecycle_close in H. destruct (lifecycle_is_closed (hub s)); by simplify_eq.
  - destruct (try_recv_spec _ _ _ _ H h4) as [Hp Ha]. rewrite h1 in Ha.
    constructor; simpl; try done. by eapply accounts_app.
  - destruct (try_recv_spec _ _ _ _ H h4) as (Hp & He & _). constructor; simpl; try done. by rewrite He.
  - unfold lifecycle_subscribe in H. destruct (bc_subscribe (events (hub s))) as [r b] eqn:Es.
    apply bc_subscribe_spec in Es as (_ & Hs & Hr). apply bind_Ret_inv in H as ([r2 w] & Hw & H).
    apply bind_Ret_inv in Hw as (n & Hn & Hw). apply retain_endpoint_Ret in Hn as ->. simplify_eq/=.
    constructor; simpl; rewrite ?Hs; try done; lia.
  - destruct (bc_drop_spec (events (hub s))) as [Hs Hr]. constructor; simpl; rewrite ?Hs; try done; lia.
Qed.

(** C20: a lifecycle subscription loses nothing silently: after any history of
    publications, closure, receives and other subscribers, the items received
    so far, read in order from the moment of subscription, are exactly the
    events published since then except those a lag marker counted; and when
    the stream reports closure, it has accounted for all of them. *)
Theorem lifecycle_stream_accounts_for_all h0 l h1 s :
  bc_receivers (events h0) = receivers (signal h0) -> 0 <= receivers (signal h0) ->
  lifecycle_subscribe h0 = Ret (l, h1) ->
  rtc stream_step (mkStream h1 l [] []) s ->
  exists pos, accounts (bc_sent (events h0) ++ offered s) (length (bc_sent (events h0))) (received s) pos /\
    forall l', lifecycle_try_recv (subscriber s) (hub s) = (inr LifecycleTryRecvError.Closed, l') ->
      pos = length (bc_sent (events h0) ++ offered s) /\ lifecycle_is_closed (hub s) = true.
Proof.
  intros Hc Hr Hs Hrun.
  assert (stream_inv (bc_sent (events h0)) (mkStream h1 l [] [])) as I.
  { unfold lifecycle_subscribe in Hs. destruct (bc_subscribe (events h0)) as [r b] eqn:Es.
    apply bc_subscribe_spec in Es as (Hn & Hse & Hre). apply bind_Ret_inv in Hs as ([r2 w] & Hw & H).
    apply bind_Ret_inv in Hw as (n & Hn' & Hw). apply retain_endpoint_Ret in Hn' as ->. simplify_eq/=.
    constructor; simpl; rewrite ?Hse, ?app_nil_r; try done; try lia. rewrite Hn. constructor. }
  assert (stream_inv (bc_sent (events h0)) s) as [h2 h3 h4 h5 h6].
  { clear -Hrun I. induction Hrun; eauto using stream_step_inv. }
  exists (rx_next (rx (subscriber s))). split; [done|]. intros l' Hl.
  destruct (try_recv_spec _ _ _ _ Hl h5) as (_ & _ & Hp & He). rewrite <- h2. split; [done|].
  by destruct (lifecycle_is_closed (hub s)).
Qed.
End lifecycle.
Arguments LifecycleHub : clear implicits.
Arguments LifecycleEvents : clear implicits.
Arguments Stream : clear implicits.

(** ** A small channel *)

(** Tokio's behaviour with a ring of two. *)
Definition view_recv {T} (r : nat) (b : list T * Z) : (T + option Z) * nat :=
  let n := length b.1 in
  if decide (n <= r)%nat then (inr None, r)
  else if decide (r < n - 2)%nat then (inr (Some (Z.of_nat (n - 2 - r))), n - 2)%nat
  else match b.1 !! r with Some x => (inl x, S r) | None => (inr None, r) end.

#[export] Program Instance view_broadcast {T} : Broadcast T (list T * Z) nat := {|
  bc_capacity := 2;
  bc_sent b := b.1;
  bc_receivers b := b.2;
  rx_next r := r;
  bc_new := ([], 0);
  bc_subscribe b := (length b.1, (b.1, b.2 + 1));
  bc_drop_receiver b := (b.1, b.2 - 1);
  bc_send x b := if b.2 =? 0 then (false, b) else (true, (b.1 ++ [x], b.2));
  bc_try_recv := view_recv |}.
Next Obligation. done. Qed.
Next Obligation. intros T b r b' H. by simplify_eq/=. Qed.
Next Obligation. done. Qed.
Next Obligation. intros T x b ok b' H. simpl in H. destruct (b.2 =? 0); by simplify_eq/=. Qed.
Next Obligation.
  intros T r b res r' H. unfold view_recv in H. cbv zeta in *. case_decide; [by simplify_eq|]. case_decide; [by simplify_eq|].
  destruct (b.1 !! r) eqn:E; simplify_eq; [eauto|]. apply lookup_ge_None in E. lia.
Qed.

Definition demo_hub : LifecycleHub (list Z * Z) := lifecycle_default.
Definition demo_play (s : Stream Z (list Z * Z) nat) (e : option Z) : Stream Z (list Z * Z) nat :=
  match e with
  | Some e =>
      let '(ok, h) := lifecycle_publish e (hub s) in
      mkStream (pulse_signal ok h) (subscriber s) (received s)
        (if lifecycle_is_closed (hub s) then offered s else offered s ++ [e])
  | None =>
      match lifecycle_try_recv (subscriber s) (hub s) with
      | (inl item, l) => mkStream (hub s) l (received s ++ [item]) (offered s)
      | (inr _, l) => mkStream (hub s) l (received s) (offered s)
      end
  end.

Lemma demo_play_step s e : rtc stream_step s (demo_play s e).
Proof.
  apply rtc_once. destruct e as [e|]; simpl.
  - destruct (lifecycle_publish e (hub s)) as [ok h] eqn:E. by constructor.
  - destruct (lifecycle_try_recv (subscriber s) (hub s)) as [[item|err] l] eqn:E; by econstructor.
Qed.

Definition demo_open : Stream Z (list Z * Z) nat :=
  match lifecycle_subscribe demo_hub with
  | Ret (l, h) => mkStream h l [] []
  | _ => mkStream demo_hub (mkLifecycleEvents 0%nat (mkReceiver 0)) [] []
  end.

Definition demo_stream : Stream Z (list Z * Z) nat :=
  foldl demo_play demo_open [Some 1; None; Some 2; Some 3; Some 4; None; None; None; None].

Lemma demo_stream_reachable : rtc stream_step demo_open demo_stream.
Proof.
  unfold demo_stream. generalize demo_open as s.
  induction [Some 1; None; Some 2; Some 3; Some 4; None; None; None; None] as [|e es IH]; intros s; simpl.
  - reflexivity.
  - etrans; [apply demo_play_step|apply IH].
Qed.

Lemma lifecycle_stream_accounts_for_all_witness :
  received demo_stream = [LifecycleItem.Event 1; LifecycleItem.Lagged 1; LifecycleItem.Event 3;
                          LifecycleItem.Event 4] /\
  exists pos, accounts (offered demo_stream) 0 (received demo_stream) pos.
Proof.
  split; [reflexivity|].
  destruct (lifecycle_stream_accounts_for_all demo_hub (subscriber demo_open) (hub demo_open) demo_stream)
    as (pos & Ha & _); [reflexivity|vm_compute; discriminate|reflexivity|exact demo_stream_reachable|].
  exists pos. exact Ha.
Defined.
