(* ===== verification/Scope.v ===== *)
(** * Scope cells

    [crates/shelterwood/src/cells/scope.rs] and its [control], [projection],
    [publication] and [residency] modules: the restart-stable shared state of
    scopes, its control plane, its resident children and the edges it
    publishes.

    Scopes and members are shared objects, so they live in a forest and are
    named by handles.  Every operation runs under the resident tree's
    observation gate (see [Gate.v] for how threads agree on it) and hands
    deferred work to its transaction: it is a computation in a small monad
    that reads and writes the forest, appends to the transaction's list of
    notes, and may panic.  [Guarded] and [Retained] carriers, which only choose
    where user errors are destroyed, are transparent; locks of single fields,
    always nested in the gate, are too. *)

From S2P Require Import Prelude Identity Exit Policy Restart Epochs Lifecycle Gate Watch.
From S2P Require Import Member Snapshot LifecycleHub.

(** ** Lifecycle events *)

Module LifecycleEventKind.
Inductive t :=
| Added (id : ChildId) (membership : Membership)
| Started (id : ChildId) (membership : Membership) (incarnation : Incarnation)
| Ready (id : ChildId) (membership : Membership) (incarnation : Incarnation)
| Exited (id : ChildId) (membership : Membership) (incarnation : Incarnation) (exit : Exit)
| RestartScheduled (id : ChildId) (membership : Membership) (attempt : RestartAttempt.t) (delay : Z)
| Removed (id : ChildId) (membership : Membership) (last_incarnation : option Incarnation)
| ScopeState (state : ScopeState.t).
End LifecycleEventKind.

(** [RetainedLifecycleEvent], and [LifecycleEvent] once its kind is released. *)
Module LifecycleEvent.
Record t := mk
  { scope_path : list ChildId;
    scope : Membership;
    seq : LifecycleSeq;
    kind : LifecycleEventKind.t }.

Definition new (scope : Membership) (seq : LifecycleSeq) (kind : LifecycleEventKind.t) : t :=
  mk [] scope seq kind.
Definition prepend_scope (id : ChildId) (e : t) : t :=
  mk (id :: scope_path e) (scope e) (seq e) (kind e).
End LifecycleEvent.

(** ** Data *)

Module ScopeRequest.
Record t := mk { epoch : Epoch; consumed : bool }.
End ScopeRequest.

Module ScopeRequestSlot.
Inductive t := Shutdown | Force.
End ScopeRequestSlot.

Module ScopeControlEvent.
Inductive t := WindowStop (membership : Membership) (target : Epoch).
End ScopeControlEvent.

Module ScopeControl.
Record t := mk
  { epochs : ScopeEpochs;
    shutdown : option ScopeRequest.t;
    force : option ScopeRequest.t;
    events : list ScopeControlEvent.t }.

Definition default : t := mk Epochs.default None None [].

Definition set_epochs (e : ScopeEpochs) (c : t) : t := mk e (shutdown c) (force c) (events c).
Definition set_shutdown (r : option ScopeRequest.t) (c : t) : t :=
  mk (epochs c) r (force c) (events c).
Definition set_force (r : option ScopeRequest.t) (c : t) : t :=
  mk (epochs c) (shutdown c) r (events c).
Definition set_events (l : list ScopeControlEvent.t) (c : t) : t :=
  mk (epochs c) (shutdown c) (force c) l.

(** [ScopeRequestSlot::get] and [get_mut]. *)
Definition get (slot : ScopeRequestSlot.t) (c : t) : option ScopeRequest.t :=
  match slot with ScopeRequestSlot.Shutdown => shutdown c | ScopeRequestSlot.Force => force c end.
Definition set (slot : ScopeRequestSlot.t) (r : option ScopeRequest.t) (c : t) : t :=
  match slot with
  | ScopeRequestSlot.Shutdown => set_shutdown r c
  | ScopeRequestSlot.Force => set_force r c
  end.
End ScopeControl.

Module ScopeRecord.
Record t := mk
  { state : ScopeState.t;
    startup : option (result () StartupError);
    total_restarts : TotalRestarts.t }.
Definition initial : t := mk ScopeState.Unstarted None TotalRestarts.ZERO.
Definition set_state (s : ScopeState.t) (r : t) : t := mk s (startup r) (total_restarts r).
Definition set_startup (x : result () StartupError) (r : t) : t :=
  mk (state r) (Some x) (total_restarts r).
Definition set_total (n : TotalRestarts.t) (r : t) : t := mk (state r) (startup r) n.
End ScopeRecord.

(** [ResidentProjection] holds two handles; a [ResidentChild] adds whether its
    [Added] edge was published. *)
Module ResidentProjection.
Record t := new { member : nat; scope : option nat }.
End ResidentProjection.

Module ResidentChild.
Record t := mk { projection : ResidentProjection.t; announced : bool }.
Definition new (p : ResidentProjection.t) : t := mk p false.
Definition member (r : t) : nat := ResidentProjection.member (projection r).
Definition scope (r : t) : option nat := ResidentProjection.scope (projection r).
End ResidentChild.

Module ResidentSlot.
Record t := mk { scope : nat; index : nat; membership : Membership }.
End ResidentSlot.

Module ScopeCell.
Record t (B : Type) := mk
  { member : nat;
    flavor : ScopeFlavor;
    child_identity : ScopeIdentity.t;
    control : ScopeControl.t;
    dynamic_route : option nat;
    intensity : Intensity.t;
    record : WatchShared ScopeRecord.t;
    current_children : list ResidentChild.t;
    parent : option nat;
    lifecycle_seq : AtomicMonotonicCounter.t;
    lifecycle : LifecycleHub B }.
Arguments mk {B}. Arguments member {B}. Arguments flavor {B}. Arguments child_identity {B}.
Arguments control {B}. Arguments dynamic_route {B}. Arguments intensity {B}. Arguments record {B}.
Arguments current_children {B}. Arguments parent {B}. Arguments lifecycle_seq {B}.
Arguments lifecycle {B}.

Section setters.
Context {B : Type}.
Definition set_identity (x : ScopeIdentity.t) (c : t B) : t B :=
  mk (member c) (flavor c) x (control c) (dynamic_route c) (intensity c) (record c)
    (current_children c) (parent c) (lifecycle_seq c) (lifecycle c).
Definition set_control (x : ScopeControl.t) (c : t B) : t B :=
  mk (member c) (flavor c) (child_identity c) x (dynamic_route c) (intensity c) (record c)
    (current_children c) (parent c) (lifecycle_seq c) (lifecycle c).
Definition set_route (x : option nat) (c : t B) : t B :=
  mk (member c) (flavor c) (child_identity c) (control c) x (intensity c) (record c)
    (current_children c) (parent c) (lifecycle_seq c) (lifecycle c).
Definition put_intensity (x : Intensity.t) (c : t B) : t B :=
  mk (member c) (flavor c) (child_identity c) (control c) (dynamic_route c) x (record c)
    (current_children c) (parent c) (lifecycle_seq c) (lifecycle c).
Definition update_record (f : ScopeRecord.t -> ScopeRecord.t) (c : t B) : t B :=
  mk (member c) (flavor c) (child_identity c) (control c) (dynamic_route c) (intensity c)
    (modify_silently f (record c)) (current_children c) (parent c) (lifecycle_seq c) (lifecycle c).
Definition set_children (x : list ResidentChild.t) (c : t B) : t B :=
  mk (member c) (flavor c) (child_identity c) (control c) (dynamic_route c) (intensity c) (record c)
    x (parent c) (lifecycle_seq c) (lifecycle c).
Definition put_parent (x : option nat) (c : t B) : t B :=
  mk (member c) (flavor c) (child_identity c) (control c) (dynamic_route c) (intensity c) (record c)
    (current_children c) x (lifecycle_seq c) (lifecycle c).
Definition set_seq (x : AtomicMonotonicCounter.t) (c : t B) : t B :=
  mk (member c) (flavor c) (child_identity c) (control c) (dynamic_route c) (intensity c) (record c)
    (current_children c) (parent c) x (lifecycle c).
Definition set_lifecycle (x : LifecycleHub B) (c : t B) : t B :=
  mk (member c) (flavor c) (child_identity c) (control c) (dynamic_route c) (intensity c) (record c)
    (current_children c) (parent c) (lifecycle_seq c) x.

Definition current (c : t B) : ScopeRecord.t := read_cloned (record c).
Definition state (c : t B) : ScopeState.t := ScopeRecord.state (current c).
End setters.
End ScopeCell.

(** ** The forest and the monad of locked operations *)

Section cells.
Context {M T F B R : Type} `{!MailboxControl M T F} `{!Broadcast LifecycleEvent.t B R}.

Record Forest := mkForest
  { scopes : gmap nat (ScopeCell.t B);
    members : gmap nat MemberCell.t;
    gates : gmap nat nat;          (** each member's [observation_gate] *)
    controls : gmap nat M }.       (** the mailbox controls members attach *)

(** What an operation hands to its observation transaction, in order. *)
Inductive Note :=
| MemberNote (m : nat) (d : Deferred (MemberEffect.t T F))
| PulseMember (m : nat)
| PulseScope (s : nat)
| PulseSignal (s : nat)
| PublishSnapshot (s : nat)        (** a staged publication of [s]'s hub *)
| CloseSnapshots (s : nat)
| Emitted (s : nat) (seq : Z) (kind : LifecycleEventKind.t)
| RetainScope (s : nat)
| CloseAdmission (route : nat)     (** [DynamicRoute::close_admission] *)
| DropRoute (route : option nat)
| DropKind (kind : LifecycleEventKind.t)
| DropReason (reason : StopReason.t)
| DropExit (exit : Exit)
| SurrenderExit (exit : Exit)
| DropStartup (startup : result () StartupError)
| DisposeResidents (residents : list ResidentChild.t)
| DeferPanic (message : string).

Definition Op (A : Type) : Type := Forest -> outcome (A * list Note * Forest).

#[global] Instance op_ret : MRet Op := fun A a f => Ret (a, [], f).
#[global] Instance op_bind : MBind Op := fun A A' k m f =>
  '(a, n, f) ← m f;
  '(b, n', f) ← k a f;
  Ret (b, n ++ n', f).

Definition note (n : Note) : Op () := fun f => Ret ((), [n], f).
Definition notes (l : list Note) : Op () := fun f => Ret ((), l, f).
Definition lift {A} (m : outcome A) : Op A := fun f => a ← m; Ret (a, [], f).
Definition panic_if (b : bool) (message : string) : Op () := lift (assert_that (negb b) message).

(** A handle keeps its cell alive, so these lookups never fail. *)
Definition get_scope (s : nat) : Op (ScopeCell.t B) :=
  fun f => c ← expect "a scope handle" (scopes f !! s); Ret (c, [], f).
Definition get_member (m : nat) : Op MemberCell.t :=
  fun f => c ← expect "a member handle" (members f !! m); Ret (c, [], f).

Definition modify_scope (s : nat) (g : ScopeCell.t B -> ScopeCell.t B) : Op () :=
  fun f => Ret ((), [], mkForest (alter g s (scopes f)) (members f) (gates f) (controls f)).
Definition put_member (m : nat) (c : MemberCell.t) : Op () :=
  fun f => Ret ((), [], mkForest (scopes f) (<[m := c]> (members f)) (gates f) (controls f)).

(** Member operations, in the forest. *)
Definition transition_locked (m : nat) (tr : MemberTransition.t) : Op bool :=
  c ← get_member m;
  let '(ok, fx, c) := MemberCell.transition_locked tr c in
  _ ← put_member m c;
  _ ← notes (MemberNote m <$> fx);
  mret ok.

Definition terminalize_locked (m : nat) (exit : Exit) (startup : StartupDisposition.t) : Op Exit :=
  fun f =>
    c ← expect "a member handle" (members f !! m);
    let '(winner, fx, c, ms) := MemberCell.terminalize_locked exit startup c (controls f) in
    Ret (winner, MemberNote m <$> fx, mkForest (scopes f) (<[m := c]> (members f)) (gates f) ms).

Definition update_member (m : nat) (g : MemberRecord.t -> MemberRecord.t) : Op () :=
  c ← get_member m;
  let '(fx, c) := MemberCell.update_locked g c in
  _ ← put_member m c;
  notes (MemberNote m <$> fx).

Definition membership_of (m : nat) : Op Membership :=
  c ← get_member m; mret (MemberCell.membership c).
Definition member_stage (m : nat) : Op MemberStage.t :=
  c ← get_member m; mret (MemberCell.stage c).

(** ** [projection.rs] *)

(** The chain of parents: a weak link that no longer resolves ends it.  The
    forest's size bounds its length. *)
Fixpoint ancestors (fuel : nat) (f : Forest) (s : nat) : list nat :=
  match fuel with
  | O => []
  | S fuel =>
      match scopes f !! s ≫= ScopeCell.parent with
      | Some p => if decide (is_Some (scopes f !! p)) then p :: ancestors fuel f p else []
      | None => []
      end
  end.

Definition ancestors_locked (s : nat) : Op (list nat) := fun f =>
  let l := ancestors (size (scopes f)) f s in
  Ret (l, RetainScope <$> l, f).

Definition publish_snapshot_chain_through_locked (s : nat) (ancestors : list nat) : Op () :=
  notes (PublishSnapshot <$> s :: ancestors).

Definition publish_snapshot_chain_locked (s : nat) : Op () :=
  l ← ancestors_locked s;
  publish_snapshot_chain_through_locked s l.

Definition set_intensity (s : nat) (i : Intensity.t) : Op () :=
  _ ← modify_scope s (ScopeCell.put_intensity i);
  publish_snapshot_chain_locked s.

Definition publish_event (s : nat) (e : LifecycleEvent.t) : Op () :=
  c ← get_scope s;
  let '(published, h) := lifecycle_publish e (ScopeCell.lifecycle c) in
  _ ← modify_scope s (ScopeCell.set_lifecycle h);
  notes (if published then [PulseSignal s] else []).

(** The loop over the ancestors, the path growing at its front. *)
Fixpoint publish_ancestors (e : LifecycleEvent.t) (child_id : ChildId) (l : list nat)
  : Op LifecycleEvent.t :=
  match l with
  | [] => mret e
  | a :: l =>
      let e := LifecycleEvent.prepend_scope child_id e in
      c ← get_scope a;
      m ← get_member (ScopeCell.member c);
      _ ← publish_event a e;
      publish_ancestors e (MemberCell.id m) l
  end.

Definition scope_has_receivers (f : Forest) (s : nat) : bool :=
  match scopes f !! s with Some c => has_receivers (ScopeCell.lifecycle c) | None => false end.

Definition mint_seq (s : nat) : Op LifecycleSeq :=
  c ← get_scope s;
  '(seq, counter) ← lift (AtomicMonotonicCounter.mint (ScopeCell.lifecycle_seq c));
  _ ← modify_scope s (ScopeCell.set_seq counter);
  mret seq.

Definition any_receivers (l : list nat) : Op bool := fun f =>
  Ret (existsb (scope_has_receivers f) l, [], f).

Definition emit_locked (s : nat) (kind : LifecycleEventKind.t) : Op () :=
  l ← ancestors_locked s;
  seq ← mint_seq s;
  _ ← note (Emitted s seq kind);
  _ ← publish_snapshot_chain_through_locked s l;
  heard ← any_receivers (s :: l);
  if negb heard then note (DropKind kind)
  else
    c ← get_scope s;
    m ← get_member (ScopeCell.member c);
    let e := LifecycleEvent.new (MemberCell.membership m) seq kind in
    _ ← publish_event s e;
    e ← publish_ancestors e (MemberCell.id m) l;
    note (DropKind (LifecycleEvent.kind e)).

Definition close_observation_locked (s : nat) : Op () :=
  c ← get_scope s;
  if lifecycle_is_closed (ScopeCell.lifecycle c) then mret ()
  else
    _ ← note (CloseSnapshots s);
    let '(modified, h) := lifecycle_close (ScopeCell.lifecycle c) in
    _ ← modify_scope s (ScopeCell.set_lifecycle h);
    notes (if modified then [PulseSignal s] else []).

Definition child_state (r : MemberRecord.t) : ChildState.t :=
  match MemberRecord.stage r with
  | MemberStage.Reserved | MemberStage.Admitted_ => ChildState.Admitted_
  | MemberStage.Starting => ChildState.Starting
  | MemberStage.Running => ChildState.Running
  | MemberStage.Restarting => ChildState.Restarting
  | MemberStage.Stopping => ChildState.Stopping
  | MemberStage.Terminal exit =>
      if MemberRecord.startup_aborted r then ChildState.StartupAborted exit
      else ChildState.Stopped exit
  end.

(** [child_snapshot_locked], given how a nested scope projects. *)
Definition child_snapshot_locked (project : nat -> outcome ScopeSnapshot) (f : Forest)
    (p : ResidentProjection.t) : outcome (ChildSnapshot.t ScopeSnapshot) :=
  c ← expect "a member handle" (members f !! ResidentProjection.member p);
  let r := MemberCell.current c in
  options ← MemberCell.options c;
  nested ← match ResidentProjection.scope p with
           | Some s =>
               if bool_decide (is_Some (MemberRecord.incarnation r))
                  || MemberStage.is_terminal (MemberRecord.stage r)
               then Some <$> project s else Ret None
           | None => Ret None
           end;
  scope_seq ← match ResidentProjection.scope p with
              | Some s =>
                  c ← expect "a scope handle" (scopes f !! s);
                  Ret (Some (AtomicMonotonicCounter.load (ScopeCell.lifecycle_seq c)))
              | None => Ret None
              end;
  Ret (ChildSnapshot.mk (MemberCell.id c) (MemberCell.membership c) (MemberRecord.incarnation r)
         (child_state r) (MemberRecord.last_exit r) (MemberRecord.membership_status r)
         (MemberRecord.restart_count r) (rc_restart options) (rc_retention options)
         (MemberRecord.restart_at r) nested scope_seq).

Fixpoint traverse {X Y} (g : X -> outcome Y) (l : list X) : outcome (list Y) :=
  match l with
  | [] => Ret []
  | x :: l => y ← g x; ys ← traverse g l; Ret (y :: ys)
  end.

(** [project_locked]: residency nests at most as deep as there are scopes. *)
Fixpoint project_locked (fuel : nat) (f : Forest) (s : nat) : outcome ScopeSnapshot :=
  match fuel with
  | O => Panics "residency is acyclic"
  | S fuel =>
      c ← expect "a scope handle" (scopes f !! s);
      let r := ScopeCell.current c in
      children ← traverse
        (fun resident => child_snapshot_locked (project_locked fuel f) f (ResidentChild.projection resident))
        (filter (fun resident => ResidentChild.announced resident = true)
           (ScopeCell.current_children c));
      Ret (mkScopeSnapshot (ScopeRecord.state r) (ScopeCell.flavor c)
             (match ScopeCell.flavor c with Ordered => Some OneForOne | Dynamic => None end)
             (ScopeCell.intensity c) (ScopeRecord.total_restarts r)
             (AtomicMonotonicCounter.load (ScopeCell.lifecycle_seq c)) children)
  end.

Definition snapshot (f : Forest) (s : nat) : outcome ScopeSnapshot :=
  project_locked (S (size (scopes f))) f s.

(** [ScopeCell::new]. *)
Definition scope_new (member : nat) (flavor : ScopeFlavor) (identity : ScopeIdentity.t)
  : ScopeCell.t B :=
  ScopeCell.mk member flavor identity ScopeControl.default None Intensity.default
    (drop_receiver (watch ScopeRecord.initial).1) [] None AtomicMonotonicCounter.new
    lifecycle_default.

(** ** [publication.rs] *)

Definition is_settled (state : ScopeState.t) : bool :=
  match state with ScopeState.Unstarted | ScopeState.Stopped _ => true | _ => false end.

(** A [Stopped] record yields only to a strictly stronger reason. *)
Definition stop_suppressed (reason : StopReason.t) (r : ScopeRecord.t) : bool :=
  match ScopeRecord.state r with
  | ScopeState.Stopped recorded =>
      negb (precedence_gtb (stop_reason_precedence reason) (stop_reason_precedence recorded))
  | _ => false
  end.

Definition stopped_record (reason : StopReason.t) (r : ScopeRecord.t) : ScopeRecord.t :=
  ScopeRecord.mk (ScopeState.Stopped reason)
    (match ScopeRecord.startup r with
     | None => Some (Err StartupError_ShutdownRequested)
     | Some x => Some x
     end) (ScopeRecord.total_restarts r).

Definition publish_stopped_locked (s : nat) (reason : StopReason.t) (terminal_exit : option Exit)
  : Op () :=
  c ← get_scope s;
  let published := negb (stop_suppressed reason (ScopeCell.current c)) in
  _ ← (if published then modify_scope s (ScopeCell.update_record (stopped_record reason))
       else mret ());
  _ ← match terminal_exit with
      | Some exit =>
          _ ← terminalize_locked (ScopeCell.member c) exit StartupDisposition.Unchanged; mret ()
      | None => mret ()
      end;
  _ ← note (PulseMember (ScopeCell.member c));
  if published then
    _ ← note (PulseScope s);
    emit_locked s (LifecycleEventKind.ScopeState (ScopeState.Stopped reason))
  else note (DropReason reason).

Definition set_startup_locked (s : nat) (startup : result () StartupError) : Op () :=
  c ← get_scope s;
  match ScopeRecord.startup (ScopeCell.current c) with
  | Some _ => note (DropStartup startup)
  | None =>
      _ ← modify_scope s (ScopeCell.update_record (ScopeRecord.set_startup startup));
      _ ← note (PulseMember (ScopeCell.member c));
      note (PulseScope s)
  end.

Definition mark_disposal (m : nat) : Op () :=
  c ← get_member m;
  put_member m (MemberCell.set_terminal_disposal_pending true c).

Fixpoint mark_disposals (l : list nat) : Op () :=
  match l with [] => mret () | m :: l => _ ← mark_disposal m; mark_disposals l end.

(** Markers first, then the route, then the record. *)
Definition set_state_locked (s : nat) (state : ScopeState.t) (terminal_disposals : list nat) : Op () :=
  _ ← panic_if (ScopeState.is_stopped state)
        "terminal scope state is published through publish_stopped_locked";
  _ ← mark_disposals terminal_disposals;
  c ← get_scope s;
  _ ← notes match state, ScopeCell.dynamic_route c with
            | (ScopeState.Draining | ScopeState.StartupFailed), Some route => [CloseAdmission route]
            | _, _ => []
            end;
  _ ← modify_scope s (ScopeCell.update_record (ScopeRecord.set_state state));
  _ ← note (PulseScope s);
  _ ← note (PulseMember (ScopeCell.member c));
  emit_locked s (LifecycleEventKind.ScopeState state).

Definition set_state_and_startup (s : nat) (state : ScopeState.t) (startup : result () StartupError)
  : Op () :=
  _ ← panic_if (ScopeState.is_stopped state)
        "terminal scope state is published through publish_stopped_locked";
  _ ← set_startup_locked s startup;
  set_state_locked s state [].

Definition gate_of (m : nat) : Op nat := fun f =>
  g ← expect "a member handle" (gates f !! m); Ret (g, [], f).

Fixpoint all_share (g : nat) (l : list nat) : Op bool :=
  match l with
  | [] => mret true
  | m :: l => g' ← gate_of m; if decide (g' = g) then all_share g l else mret false
  end.

Definition publish_drain (s : nat) (state : ScopeState.t)
    (startup : option (result () StartupError)) (terminal_disposals : list nat) : Op () :=
  _ ← panic_if (match state with ScopeState.Draining => false | _ => true end)
        "assertion failed: matches!(state, ScopeState::Draining)";
  c ← get_scope s;
  g ← gate_of (ScopeCell.member c);
  shared ← all_share g terminal_disposals;
  _ ← panic_if (negb shared)
        "a drain entry may mark only a resident member on its observation gate";
  _ ← match startup with Some startup => set_startup_locked s startup | None => mret () end;
  set_state_locked s state terminal_disposals.

Definition set_removing (r : MemberRecord.t) : MemberRecord.t :=
  MemberRecord.mk (MemberRecord.stage r) (MemberRecord.incarnation r)
    (MemberRecord.last_incarnation r) (MemberRecord.last_exit r) (MemberRecord.restart_count r)
    (MemberRecord.restart_at r) Removing (MemberRecord.startup_aborted r).

Definition set_child_removing_locked (s m : nat) : Op () :=
  c ← get_member m;
  if decide (MemberRecord.membership_status (MemberCell.current c) = Removing) then mret ()
  else
    _ ← update_member m set_removing;
    publish_snapshot_chain_locked s.

Definition transition_child_stage (s m : nat) (tr : MemberTransition.t)
    (event : option LifecycleEventKind.t) : Op bool :=
  ok ← transition_locked m tr;
  if negb ok then
    _ ← notes match event with Some e => [DropKind e] | None => [] end;
    mret false
  else
    _ ← match event with
        | Some e => emit_locked s e
        | None => publish_snapshot_chain_locked s
        end;
    mret true.

(** A shutdown request that no incarnation has consumed or can consume yet. *)
Definition pending_shutdown (c : ScopeControl.t) : option ScopeRequest.t :=
  match ScopeControl.shutdown c with
  | Some r =>
      if negb (ScopeRequest.consumed r)
         && request_is_pending (ScopeControl.epochs c) (ScopeRequest.epoch r)
      then Some r else None
  | None => None
  end.

(** [None] refuses the start for a pending request, before any transition. *)
Definition start_scope_child (s child : nat) (i : Incarnation) (restart_stopped : bool) : Op bool :=
  c ← get_scope child;
  go ← match pending_shutdown (ScopeCell.control c) with
       | None => mret true
       | Some r =>
           if negb restart_stopped then mret false
           else
             '(_, epochs) ← lift (vacate (ScopeControl.epochs (ScopeCell.control c)) (ScopeRequest.epoch r));
             _ ← modify_scope child (fun c => ScopeCell.set_control
                   (ScopeControl.set_shutdown None (ScopeControl.set_epochs epochs (ScopeCell.control c))) c);
             mret true
       end;
  if negb go then mret false
  else
    let m := ScopeCell.member c in
    ok ← transition_locked m (MemberTransition.Starting i);
    _ ← (if negb ok then mret ()
         else
           mc ← get_member m;
           emit_locked s (LifecycleEventKind.Started (MemberCell.id mc) (MemberCell.membership mc) i));
    _ ← panic_if (negb ok) "a scope spawn starts an admitted or restarting member";
    mret ok.

Definition publish_child_restart (s m : nat) (total : TotalRestarts.t) (exit : Exit)
    (tr : MemberTransition.t) (exited scheduled : LifecycleEventKind.t) : Op bool :=
  ok ← transition_locked m tr;
  if negb ok then
    _ ← notes [DropExit exit; DropKind exited; DropKind scheduled];
    mret false
  else
    _ ← note (SurrenderExit exit);
    _ ← modify_scope s (ScopeCell.update_record (ScopeRecord.set_total total));
    _ ← note (PulseScope s);
    _ ← emit_locked s exited;
    _ ← emit_locked s scheduled;
    mret true.

(** The residents of [children] with the membership [m], by position. *)
Definition find_resident (f : Forest) (children : list ResidentChild.t) (m : Membership)
  : option (nat * ResidentChild.t) :=
  list_find (fun r => MemberCell.membership <$> members f !! ResidentChild.member r = Some m) children.

Definition resident_at (s : nat) (m : Membership) : Op (option (nat * ResidentChild.t)) := fun f =>
  c ← expect "a scope handle" (scopes f !! s);
  Ret (find_resident f (ScopeCell.current_children c) m, [], f).

Definition evict_child_identity (s m : nat) : Op () :=
  mc ← get_member m;
  modify_scope s (fun c => ScopeCell.set_identity
    (ScopeIdentity.evict (ScopeCell.child_identity c) (MemberCell.id mc) (MemberCell.membership mc)) c).

Definition when_stopped (s : nat) (op : Op ()) : Op () :=
  c ← get_scope s;
  if ScopeState.is_stopped (ScopeCell.state c) then op else mret ().

Definition terminalize_child (s m : nat) (exit : Exit) (exited : option Incarnation)
    (startup : StartupDisposition.t) : Op bool :=
  mc ← get_member m;
  if MemberStage.is_terminal (MemberCell.stage mc) then
    _ ← note (DropExit exit); mret false
  else
    found ← resident_at s (MemberCell.membership mc);
    match found with
    | None =>
        _ ← panic_if true "a supervised terminal child must remain in parent residency";
        mret false
    | Some (_, resident) =>
        let nested := ResidentChild.scope resident in
        terminal_exit ← terminalize_locked m exit startup;
        _ ← note (SurrenderExit exit);
        _ ← evict_child_identity s m;
        _ ← match nested, MemberRecord.last_incarnation (MemberCell.current mc) with
            | Some n, None => publish_stopped_locked n StopReason.NeverStarted None
            | _, _ => mret ()
            end;
        _ ← match exited with
            | Some i => emit_locked s (LifecycleEventKind.Exited (MemberCell.id mc)
                          (MemberCell.membership mc) i terminal_exit)
            | None => publish_snapshot_chain_locked s
            end;
        _ ← match nested with
            | Some n => when_stopped n (close_observation_locked n)
            | None => mret ()
            end;
        mret true
    end.

Definition scope_is_closed (s : nat) : Op bool :=
  c ← get_scope s; mret (lifecycle_is_closed (ScopeCell.lifecycle c)).

Definition close_never_started_body (s : nat) : Op () :=
  closed ← scope_is_closed s;
  if (closed : bool) then mret ()
  else
    c ← get_scope s;
    _ ← match ScopeCell.state c with
        | ScopeState.Unstarted => publish_stopped_locked s StopReason.NeverStarted None
        | _ => mret ()
        end;
    stage ← member_stage (ScopeCell.member c);
    if MemberStage.is_terminal stage then when_stopped s (close_observation_locked s) else mret ().

Definition terminalize_never_started_locked (s : nat) : Op () :=
  closed ← scope_is_closed s;
  if (closed : bool) then mret ()
  else
    c ← get_scope s;
    _ ← terminalize_locked (ScopeCell.member c) never_started StartupDisposition.Unchanged;
    _ ← publish_stopped_locked s StopReason.NeverStarted None;
    close_observation_locked s.

(** One iteration of [wait_started]'s and of [wait_stopped]'s second loop:
    [None] awaits the next change. *)
Definition wait_started_iteration (c : ScopeCell.t B) : option (result () StartupError) :=
  ScopeRecord.startup (ScopeCell.current c).
Definition wait_stopped_iteration (c : ScopeCell.t B) : option StopReason.t :=
  match ScopeCell.state c with
  | ScopeState.Stopped reason => Some reason
  | ScopeState.Unstarted => Some StopReason.NeverStarted
  | _ => None
  end.

(** ** [control.rs] *)

Definition update_control (s : nat) (g : ScopeControl.t -> ScopeControl.t) : Op () :=
  modify_scope s (fun c => ScopeCell.set_control (g (ScopeCell.control c)) c).

Definition started_record (state : ScopeState.t) : ScopeRecord.t :=
  ScopeRecord.mk state None TotalRestarts.ZERO.

(** The new content of the caller's [owned] slot, which must begin empty. *)
Definition begin_incarnation_into (s : nat) (state : ScopeState.t) (owned : option Epoch)
  : Op (option Epoch) :=
  _ ← panic_if (bool_decide (is_Some owned)) "a scope epoch owner begins empty";
  _ ← panic_if (match state with ScopeState.Starting => false | _ => true end)
        "a fresh incarnation publishes its lifecycle machine's initial state";
  c ← get_scope s;
  _ ← panic_if (negb (is_settled (ScopeCell.state c)))
        "an idle scope projection is Unstarted or Stopped before a fresh incarnation mints";
  '(minted, epochs) ← lift (begin (ScopeControl.epochs (ScopeCell.control c)));
  match minted with
  | None => mret None
  | Some e =>
      _ ← update_control s (ScopeControl.set_epochs epochs);
      _ ← modify_scope s (ScopeCell.update_record (fun _ => started_record state));
      _ ← note (PulseScope s);
      _ ← note (PulseMember (ScopeCell.member c));
      _ ← emit_locked s (LifecycleEventKind.ScopeState state);
      mret (Some e)
  end.

Definition expire (e : Epoch) (r : option ScopeRequest.t) : option ScopeRequest.t :=
  match r with
  | Some r => if ScopeRequest.epoch r <=? e then None else Some r
  | None => None
  end.

Definition finish_incarnation_with_terminal (s : nat) (e : Epoch) (reason : StopReason.t)
    (terminal_exit : option Exit) : Op () :=
  c ← get_scope s;
  '(live, epochs) ← lift (finish (ScopeControl.epochs (ScopeCell.control c)) e);
  if negb live then
    _ ← match terminal_exit with
        | Some exit =>
            _ ← terminalize_locked (ScopeCell.member c) exit StartupDisposition.Unchanged;
            _ ← notes [SurrenderExit exit; PulseMember (ScopeCell.member c); PulseScope s];
            close_observation_locked s
        | None => mret ()
        end;
    note (DropReason reason)
  else
    _ ← update_control s (fun k =>
          ScopeControl.mk epochs (expire e (ScopeControl.shutdown k))
            (expire e (ScopeControl.force k)) (ScopeControl.events k));
    stage ← member_stage (ScopeCell.member c);
    _ ← publish_stopped_locked s reason terminal_exit;
    _ ← (if bool_decide (is_Some terminal_exit) || MemberStage.is_terminal stage
         then close_observation_locked s else mret ());
    _ ← note (DropReason reason);
    notes match terminal_exit with Some exit => [SurrenderExit exit] | None => [] end.

Definition finish_incarnation (s : nat) (e : Epoch) (reason : StopReason.t) : Op () :=
  finish_incarnation_with_terminal s e reason None.

Definition finish_live_root_incarnation (s : nat) (reason : StopReason.t) (exit : Exit) : Op () :=
  c ← get_scope s;
  match live_epoch (ScopeControl.epochs (ScopeCell.control c)) with
  | Some e => finish_incarnation_with_terminal s e reason (Some exit)
  | None =>
      _ ← publish_stopped_locked s reason (Some exit);
      _ ← close_observation_locked s;
      notes [DropReason reason; SurrenderExit exit]
  end.

Definition publish_control_event_locked (s : nat) (event : ScopeControlEvent.t) : Op () :=
  c ← get_scope s;
  _ ← update_control s (fun k => ScopeControl.set_events (ScopeControl.events k ++ [event]) k);
  note (PulseMember (ScopeCell.member c)).

(** [Weak::upgrade] of the parent link. *)
Definition parent (s : nat) : Op (option nat) := fun f =>
  c ← expect "a scope handle" (scopes f !! s);
  Ret (match ScopeCell.parent c with
       | Some p => if decide (is_Some (scopes f !! p)) then Some p else None
       | None => None
       end, [], f).

Definition request_shutdown (s : nat) : Op Epoch :=
  c ← get_scope s;
  target ← lift (request_target (ScopeControl.epochs (ScopeCell.control c)));
  let published := match ScopeControl.shutdown (ScopeCell.control c) with
                   | Some r => ScopeRequest.epoch r <? epoch target
                   | None => true
                   end in
  _ ← (if published then
         _ ← update_control s (ScopeControl.set_shutdown (Some (ScopeRequest.mk (epoch target) false)));
         _ ← note (PulseMember (ScopeCell.member c));
         p ← parent s;
         match p with
         | Some p =>
             if pending_incarnation target then
               m ← membership_of (ScopeCell.member c);
               _ ← note (RetainScope p);
               publish_control_event_locked p (ScopeControlEvent.WindowStop m (epoch target))
             else mret ()
         | None => mret ()
         end
       else mret ());
  mret (epoch target).

Definition take_control_events (s : nat) : Op (list ScopeControlEvent.t) :=
  c ← get_scope s;
  _ ← update_control s (ScopeControl.set_events []);
  mret (ScopeControl.events (ScopeCell.control c)).

Definition pending_incarnation_shutdown (s : nat) : Op (option Epoch) :=
  c ← get_scope s;
  mret (ScopeRequest.epoch <$> pending_shutdown (ScopeCell.control c)).

Definition vacate_pending_shutdown (s : nat) (target : Epoch) : Op bool :=
  c ← get_scope s;
  let k := ScopeCell.control c in
  let pending := match ScopeControl.shutdown k with
                 | Some r => (ScopeRequest.epoch r =? target) && negb (ScopeRequest.consumed r)
                 | None => false
                 end in
  '(vacated, epochs) ← (if pending then lift (vacate (ScopeControl.epochs k) target)
                        else mret (false, ScopeControl.epochs k));
  _ ← (if (vacated : bool) then
         _ ← update_control s (fun k => ScopeControl.set_shutdown None (ScopeControl.set_epochs epochs k));
         note (PulseMember (ScopeCell.member c))
       else mret ());
  mret vacated.

Definition request_targets (e : Epoch) (r : option ScopeRequest.t) : bool :=
  match r with Some r => ScopeRequest.epoch r =? e | None => false end.

Definition has_stop_request (s : nat) (e : Epoch) : Op bool :=
  c ← get_scope s;
  mret (request_targets e (ScopeControl.shutdown (ScopeCell.control c))
        || request_targets e (ScopeControl.force (ScopeCell.control c))).

Definition force_shutdown (s : nat) (e : Epoch) : Op () :=
  c ← get_scope s;
  _ ← (if is_current (ScopeControl.epochs (ScopeCell.control c)) e
       then update_control s (ScopeControl.set_force (Some (ScopeRequest.mk e false)))
       else mret ());
  note (PulseMember (ScopeCell.member c)).

Definition take_request (slot : ScopeRequestSlot.t) (s : nat) (e : Epoch) : Op bool :=
  c ← get_scope s;
  match ScopeControl.get slot (ScopeCell.control c) with
  | Some r =>
      if (ScopeRequest.epoch r =? e) && negb (ScopeRequest.consumed r) then
        _ ← update_control s (ScopeControl.set slot (Some (ScopeRequest.mk e true)));
        mret true
      else mret false
  | None => mret false
  end.

Definition take_shutdown_request := take_request ScopeRequestSlot.Shutdown.
Definition take_force_request := take_request ScopeRequestSlot.Force.

Definition settled (s : nat) (e : option Epoch) : Op bool :=
  c ← get_scope s;
  stage ← member_stage (ScopeCell.member c);
  mret (match e with
        | Some e => finished (ScopeControl.epochs (ScopeCell.control c)) e
        | None => false
        end
        || (MemberStage.is_terminal stage && is_settled (ScopeCell.state c))).

Definition set_dynamic_route_locked (s : nat) (route : option nat) : Op () :=
  c ← get_scope s;
  _ ← modify_scope s (ScopeCell.set_route route);
  _ ← note (DropRoute (ScopeCell.dynamic_route c));
  note (PulseMember (ScopeCell.member c)).

(** ** [residency.rs] *)

Definition push_unannounced (s : nat) (child : ResidentProjection.t) : Op ResidentSlot.t :=
  m ← membership_of (ResidentProjection.member child);
  c ← get_scope s;
  _ ← modify_scope s (fun c =>
        ScopeCell.set_children (ScopeCell.current_children c ++ [ResidentChild.new child]) c);
  mret (ResidentSlot.mk s (length (ScopeCell.current_children c)) m).

(** Whether position [i] still holds the slot's own resident. *)
Definition slot_holds (slot : ResidentSlot.t) : Op bool := fun f =>
  c ← expect "a scope handle" (scopes f !! ResidentSlot.scope slot);
  Ret (match ScopeCell.current_children c !! ResidentSlot.index slot with
       | Some r => bool_decide (MemberCell.membership <$> members f !! ResidentChild.member r
                                = Some (ResidentSlot.membership slot))
       | None => false
       end, [], f).

Definition announce (slot : ResidentSlot.t) : Op bool :=
  holds ← slot_holds slot;
  _ ← (if (holds : bool) then
         modify_scope (ResidentSlot.scope slot) (fun c =>
           ScopeCell.set_children
             (alter (fun r => ResidentChild.mk (ResidentChild.projection r) true)
                (ResidentSlot.index slot) (ScopeCell.current_children c)) c)
       else mret ());
  mret holds.

Definition withdraw (slot : ResidentSlot.t) : Op (option ResidentChild.t * bool) :=
  holds ← slot_holds slot;
  c ← get_scope (ResidentSlot.scope slot);
  let children := ScopeCell.current_children c in
  let is_admission := (length children =? S (ResidentSlot.index slot))%nat && holds in
  _ ← modify_scope (ResidentSlot.scope slot) (ScopeCell.set_children (removelast children));
  mret (last children, is_admission).

Definition sever_parent (r : ResidentChild.t) : Op () :=
  match ResidentChild.scope r with
  | Some n => modify_scope n (ScopeCell.put_parent None)
  | None => mret ()
  end.

Fixpoint sever_parents (l : list ResidentChild.t) : Op () :=
  match l with [] => mret () | r :: l => _ ← sever_parent r; sever_parents l end.

Definition set_parent (s p : nat) : Op () :=
  _ ← modify_scope s (ScopeCell.put_parent (Some p));
  c ← get_scope s;
  match pending_shutdown (ScopeCell.control c) with
  | Some r =>
      m ← membership_of (ScopeCell.member c);
      publish_control_event_locked p (ScopeControlEvent.WindowStop m (ScopeRequest.epoch r))
  | None => mret ()
  end.

(** [MemberCell::install_observation_gate_locked]. *)
Definition install_observation_gate_locked (m previous gate : nat) : Op () := fun f =>
  g ← expect "a member handle" (gates f !! m);
  if decide (g = previous) then
    Ret ((), [], mkForest (scopes f) (members f) (<[m := gate]> (gates f)) (controls f))
  else
    _ ← assert_that (bool_decide (g = gate)) "a resident member must share its tree observation gate";
    Ret ((), [], f).

(** Residency nests at most as deep as there are scopes. *)
Fixpoint adopt_descendants (fuel : nat) (s previous gate : nat) : Op () :=
  match fuel with
  | O => mret ()
  | S fuel =>
      c ← get_scope s;
      (fix go (l : list ResidentChild.t) : Op () :=
         match l with
         | [] => mret ()
         | r :: l =>
             _ ← install_observation_gate_locked (ResidentChild.member r) previous gate;
             _ ← match ResidentChild.scope r with
                 | Some n => adopt_descendants fuel n previous gate
                 | None => mret ()
                 end;
             go l
         end) (ScopeCell.current_children c)
  end.

Definition forest_depth : Op nat := fun f => Ret (size (scopes f), [], f).

(** The attempt of [with_handoff_gate] that admission runs for a member, with
    the subtree handoff of a nested scope. *)
Definition admit_attempt (m : nat) (nested : option nat) (gate : nat) : Op bool :=
  current ← gate_of m;
  mc ← get_member m;
  if negb (MemberCell.would_accept MemberTransition.Admitted_ mc) then mret false
  else
    _ ← (if decide (current = gate) then mret ()
         else
           _ ← install_observation_gate_locked m current gate;
           match nested with
           | Some n => depth ← forest_depth; adopt_descendants depth n current gate
           | None => mret ()
           end);
    admitted ← transition_locked m MemberTransition.Admitted_;
    _ ← notes (if (admitted : bool) then []
               else [DeferPanic "the probed admission cannot be refused under the same held gate"]);
    mret admitted.

(** [adopt_observation_gate]: a live dynamic route is never re-homed. *)
Definition adopt_observation_gate (n s gate : nat) : Op () :=
  if decide (n = s) then note (DeferPanic "a scope cannot adopt from itself")
  else
    p ← get_scope s;
    parents ← gate_of (ScopeCell.member p);
    if decide (gate ≠ parents)
    then note (DeferPanic "observation gates are adopted only in the parent-to-child direction")
    else
    c ← get_scope n;
    current ← gate_of (ScopeCell.member c);
    if decide (current = gate) then mret ()
    else if bool_decide (is_Some (ScopeCell.dynamic_route c))
    then note (DeferPanic "a scope with a live dynamic route is never re-homed")
    else
      _ ← install_observation_gate_locked (ScopeCell.member c) current gate;
      depth ← forest_depth;
      adopt_descendants depth n current gate.

Definition adopt_child_observation_gate (s m : nat) (child : option nat) : Op () :=
  c ← get_scope s;
  gate ← gate_of (ScopeCell.member c);
  match child with
  | Some n => adopt_observation_gate n s gate
  | None =>
      current ← gate_of m;
      if decide (current = gate) then mret () else install_observation_gate_locked m current gate
  end.

Definition admit_observation_gate (n s gate : nat) : Op bool :=
  if decide (n = s) then
    _ ← note (DeferPanic "a scope cannot be admitted into itself"); mret false
  else
    p ← get_scope s;
    parents ← gate_of (ScopeCell.member p);
    if decide (gate ≠ parents) then
      _ ← note (DeferPanic "observation gates are admitted only in the parent-to-child direction");
      mret false
    else
    c ← get_scope n;
    admit_attempt (ScopeCell.member c) (Some n) gate.

Definition admit_child_locked (s : nat) (child : ResidentProjection.t) : Op bool :=
  slot ← push_unannounced s child;
  c ← get_scope s;
  gate ← gate_of (ScopeCell.member c);
  admitted ← match ResidentProjection.scope child with
             | Some n =>
                 admitted ← admit_observation_gate n s gate;
                 _ ← (if (admitted : bool) then set_parent n s else mret ());
                 mret admitted
             | None => admit_attempt (ResidentProjection.member child) None gate
             end;
  if negb admitted then
    '(rejected, own) ← withdraw slot;
    _ ← note (DisposeResidents (ResidentChild.new child :: option_list rejected));
    _ ← notes (if (own : bool) then [] else [DeferPanic "refusal removes the admission-local resident"]);
    mret false
  else
    mc ← get_member (ResidentProjection.member child);
    announced ← announce slot;
    if negb announced then
      _ ← notes [DisposeResidents [ResidentChild.new child];
                 DeferPanic "success announces the admission-local resident"];
      mret false
    else
      _ ← emit_locked s (LifecycleEventKind.Added (MemberCell.id mc) (MemberCell.membership mc));
      mret true.

Definition removed_kind (m : MemberCell.t) : LifecycleEventKind.t :=
  LifecycleEventKind.Removed (MemberCell.id m) (MemberCell.membership m)
    (MemberRecord.last_incarnation (MemberCell.current m)).

Definition prune_child_locked (s m : nat) : Op bool :=
  mc ← get_member m;
  found ← resident_at s (MemberCell.membership mc);
  match found with
  | None => mret false
  | Some (i, resident) =>
      _ ← modify_scope s (fun c => ScopeCell.set_children (delete i (ScopeCell.current_children c)) c);
      _ ← sever_parent resident;
      rm ← get_member (ResidentChild.member resident);
      _ ← note (DisposeResidents [resident]);
      _ ← (if ResidentChild.announced resident then
             emit_locked s (LifecycleEventKind.Removed (MemberCell.id rm) (MemberCell.membership mc)
               (MemberRecord.last_incarnation (MemberCell.current rm)))
           else mret ());
      mret true
  end.

(** The [Removed] kinds of the announced residents, before any is published. *)
Fixpoint removals (l : list ResidentChild.t) : Op (list LifecycleEventKind.t) :=
  match l with
  | [] => mret []
  | r :: l =>
      if ResidentChild.announced r then
        m ← get_member (ResidentChild.member r);
        ks ← removals l;
        mret (removed_kind m :: ks)
      else removals l
  end.

Fixpoint emit_all (s : nat) (l : list LifecycleEventKind.t) : Op () :=
  match l with [] => mret () | k :: l => _ ← emit_locked s k; emit_all s l end.

Definition clear_residents_locked (s : nat) : Op () :=
  c ← get_scope s;
  let residents := ScopeCell.current_children c in
  _ ← modify_scope s (ScopeCell.set_children []);
  _ ← sever_parents residents;
  ks ← removals residents;
  _ ← note (DisposeResidents residents);
  emit_all s ks.

Fixpoint admit_all (s : nat) (l : list ResidentProjection.t) : Op bool :=
  match l with
  | [] => mret true
  | p :: l =>
      ok ← admit_child_locked s p;
      rest ← admit_all s l;
      mret (ok && rest)
  end.

Definition set_admitted_children (s : nat) (children : list ResidentProjection.t) : Op bool :=
  _ ← clear_residents_locked s;
  admit_all s children.

Definition has_resident_child (s m : nat) : Op bool :=
  mm ← membership_of m;
  found ← resident_at s mm;
  mret (match found with Some _ => true | None => false end).

Definition resident_projections (s : nat) : Op (list ResidentProjection.t) :=
  c ← get_scope s;
  mret (ResidentChild.projection <$> ScopeCell.current_children c).
End cells.
Arguments Forest M B : clear implicits.
Arguments Note T F : clear implicits.
