(* ===== verification/ScopeLogic.v ===== *)
(** * Reasoning about locked scope operations

    The operations on the forest as one type, and the proof method for their
    trace properties: a relation between the forest before, the notes handed to
    the transaction and the forest after, which holds of every primitive and
    composes, holds of every operation built from them. *)

From S2P Require Import Prelude Identity Exit Policy Restart Epochs Lifecycle Gate Watch.
From S2P Require Import Member Snapshot LifecycleHub Scope.

Section logic.
Context {M T F B R : Type} `{!MailboxControl M T F} `{!Broadcast LifecycleEvent.t B R}.
Local Abbreviation Forest := (Forest M B).
Local Abbreviation Note := (Note T F).
Local Abbreviation Op := (@Op M T F B).

(** ** Composable trace relations *)

Class TraceRel (Rel : Forest -> list Note -> Forest -> Prop) := {
  rel_refl f : Rel f [] f;
  rel_trans f n g n' h : Rel f n g -> Rel g n' h -> Rel f (n ++ n') h }.

Definition respects {A} (Rel : Forest -> list Note -> Forest -> Prop) (m : Op A) : Prop :=
  forall f a n f', m f = Ret (a, n, f') -> Rel f n f'.

Lemma bind_inv {A C} (m : Op A) (k : A -> Op C) f c n f' :
  (m ≫= k) f = Ret (c, n, f') ->
  exists a n1 f1 n2, m f = Ret (a, n1, f1) /\ k a f1 = Ret (c, n2, f') /\ n = n1 ++ n2.
Proof.
  unfold mbind, op_bind. intros H. apply bind_Ret_inv in H as ([[a n1] f1] & H1 & H).
  apply bind_Ret_inv in H as ([[b n2] f2] & H2 & H). simplify_eq. eauto 10.
Qed.

Section rel.
Context (Rel : Forest -> list Note -> Forest -> Prop) `{!TraceRel Rel}.

Lemma respects_ret {A} (a : A) : respects Rel (mret a : Op A).
Proof. intros f b n f' H. cbv in H. simplify_eq. apply rel_refl. Qed.

Lemma respects_bind {A C} (m : Op A) (k : A -> Op C) :
  respects Rel m -> (forall a, respects Rel (k a)) -> respects Rel (m ≫= k).
Proof.
  intros Hm Hk f c n f' H. apply bind_inv in H as (a & n1 & f1 & n2 & H1 & H2 & ->).
  eapply rel_trans; [by eapply Hm|by eapply Hk].
Qed.

Lemma respects_bind_post {A C} (P : A -> Prop) (m : Op A) (k : A -> Op C) :
  (forall f a n f', m f = Ret (a, n, f') -> P a) ->
  respects Rel m -> (forall a, P a -> respects Rel (k a)) -> respects Rel (m ≫= k).
Proof.
  intros HP Hm Hk f c n f' H. apply bind_inv in H as (a & n1 & f1 & n2 & H1 & H2 & ->).
  eapply rel_trans; [by eapply Hm|]. eapply Hk; [|done]. by eapply HP.
Qed.

(** Reading never changes anything. *)
Definition reads {A} (m : Op A) : Prop := forall f a n f', m f = Ret (a, n, f') -> n = [] /\ f' = f.

Lemma respects_reads {A} (m : Op A) : reads m -> respects Rel m.
Proof. intros Hm f a n f' H. apply Hm in H as [-> ->]. apply rel_refl. Qed.
End rel.

Lemma expect_inv {A} msg (o : option A) a : expect msg o = Ret a -> o = Some a.
Proof. by destruct o; intros; simplify_eq/=. Qed.

Lemma get_scope_inv s f c n f' :
  (get_scope s : Op _) f = Ret (c, n, f') -> scopes f !! s = Some c /\ n = [] /\ f' = f.
Proof.
  intros H. apply bind_Ret_inv in H as (c0 & Hc & H). apply expect_inv in Hc. by simplify_eq.
Qed.

Lemma get_member_inv m f c n f' :
  (get_member m : Op _) f = Ret (c, n, f') -> members f !! m = Some c /\ n = [] /\ f' = f.
Proof.
  intros H. apply bind_Ret_inv in H as (c0 & Hc & H). apply expect_inv in Hc. by simplify_eq.
Qed.

Lemma reads_get_scope s : reads (get_scope s : Op _).
Proof. intros f a n f' H. apply bind_Ret_inv in H as (? & _ & H). by simplify_eq. Qed.
Lemma reads_get_member m : reads (get_member m : Op _).
Proof. intros f a n f' H. apply bind_Ret_inv in H as (? & _ & H). by simplify_eq. Qed.
Lemma reads_lift {A} (m : outcome A) : reads (lift m : Op A).
Proof. intros f a n f' H. apply bind_Ret_inv in H as (? & _ & H). by simplify_eq. Qed.
Lemma reads_gate_of m : reads (gate_of m : Op _).
Proof. intros f a n f' H. apply bind_Ret_inv in H as (? & _ & H). by simplify_eq. Qed.
Lemma reads_any l : reads (any_receivers l : Op _).
Proof. intros f a n f' H. cbv in H. by simplify_eq. Qed.
Lemma reads_resident_at s m : reads (resident_at s m : Op _).
Proof. intros f a n f' H. apply bind_Ret_inv in H as (? & _ & H). by simplify_eq. Qed.
Lemma reads_parent s : reads (parent s : Op _).
Proof. intros f a n f' H. apply bind_Ret_inv in H as (? & _ & H). by simplify_eq. Qed.
Lemma reads_slot_holds s : reads (slot_holds s : Op _).
Proof. intros f a n f' H. apply bind_Ret_inv in H as (? & _ & H). by simplify_eq. Qed.
Lemma reads_depth : reads (forest_depth : Op _).
Proof. intros f a n f' H. cbv in H. by simplify_eq. Qed.

(** ** Framing *)

Definition is_emitted (n : Note) : bool := match n with Emitted _ _ _ => true | _ => false end.

(** Identities of members, which no scope operation changes. *)
Definition identity_of (c : MemberCell.t) : ChildId * Membership :=
  (MemberCell.id c, MemberCell.membership c).

Section frame.
Context {X : Type} (obs : ScopeCell.t B -> X).

(** A step that publishes no edge and keeps what [obs] shows of every scope. *)
Definition quiet (f : Forest) (n : list Note) (f' : Forest) : Prop :=
  (forall s, obs <$> scopes f' !! s = obs <$> scopes f !! s) /\
  (forall m, identity_of <$> members f' !! m = identity_of <$> members f !! m) /\
  Forall (fun x => is_emitted x = false) n.

#[global] Instance quiet_rel : TraceRel quiet.
Proof.
  split; [by intros; split|]. intros f n g n' h (H1 & H2 & H3) (K1 & K2 & K3). split; [|split].
  - intros s. by rewrite K1.
  - intros m. by rewrite K2.
  - by apply Forall_app.
Qed.

Lemma quiet_note n : is_emitted n = false -> respects quiet (note n : Op ()).
Proof.
  intros Hn f a l f' H. cbv in H. simplify_eq. split; [done|]. split; [done|]. by constructor.
Qed.

Lemma quiet_notes l : Forall (fun x => is_emitted x = false) l -> respects quiet (notes l : Op ()).
Proof. intros Hn f a l' f' H. cbv in H. simplify_eq. split; [done|]. by split. Qed.

Lemma quiet_modify s g :
  (forall c, obs (g c) = obs c) -> respects quiet (modify_scope s g : Op ()).
Proof.
  intros Hg f a l f' H. cbv [modify_scope] in H. simplify_eq. split; [|split; [done|constructor]].
  intros s'. simpl. destruct (decide (s' = s)) as [->|Hs].
  - rewrite lookup_alter_eq. destruct (scopes f !! s); simpl; [by rewrite Hg|done].
  - by rewrite lookup_alter_ne.
Qed.

Lemma quiet_members f l f' m c c' :
  scopes f' = scopes f -> members f !! m = Some c -> members f' = <[m := c']> (members f) ->
  identity_of c' = identity_of c -> Forall (fun x => is_emitted x = false) l -> quiet f l f'.
Proof.
  intros Hs Hc Hm Hi Hl. split; [by rewrite Hs|]. split; [|done]. intros m'. rewrite Hm.
  destruct (decide (m' = m)) as [->|Hne]; [by rewrite lookup_insert_eq, Hc; simpl; rewrite Hi|].
  by rewrite lookup_insert_ne.
Qed.

Lemma member_notes_quiet m fx :
  Forall (fun x => is_emitted x = false) (MemberNote m <$> fx).
Proof. induction fx; simpl; by constructor. Qed.

Lemma quiet_transition m tr : respects quiet (transition_locked m tr : Op bool).
Proof.
  intros f a n f' H. unfold transition_locked in H.
  apply bind_inv in H as (c & n1 & f1 & n2 & H1 & H2 & ->).
  apply get_member_inv in H1 as (Em & -> & ->).
  unfold MemberCell.transition_locked in H2.
  destruct (MemberRecord.apply_transition tr (MemberCell.current c)) as [r|]; simpl in H2;
    unfold put_member, notes, mret, op_ret, mbind, op_bind in H2; simpl in H2; simplify_eq;
    rewrite ?app_nil_r; (eapply quiet_members; [done|exact Em|done|done|]); simpl.
  - constructor; [done|]. apply member_notes_quiet.
  - apply member_notes_quiet.
Qed.

Lemma quiet_update_member m g : respects quiet (update_member m g : Op ()).
Proof.
  intros f a n f' H. unfold update_member in H.
  apply bind_inv in H as (c & n1 & f1 & n2 & H1 & H2 & ->).
  apply get_member_inv in H1 as (Em & -> & ->).
  cbv [put_member notes mret op_ret mbind op_bind outcome_bind] in H2; simpl in H2; simplify_eq.
  eapply quiet_members; [done|exact Em|done|done|]. by constructor.
Qed.

Lemma terminalize_identity exit startup c (ms : gmap nat M) :
  identity_of (MemberCell.terminalize_locked exit startup c ms).1.2 = identity_of c.
Proof.
  assert (forall c att, identity_of (MemberCell.publish_terminal exit startup att c ms).1.2 = identity_of c)
    as Hp.
  { intros c' att. unfold MemberCell.publish_terminal. destruct MemberRecord.terminalized as [rc p].
    destruct att as [h|]; [|done]. by destruct (MemberCell.terminate_control h ms). }
  unfold MemberCell.terminalize_locked, MemberCell.claim_mailbox.
  destruct (MemberCell.mailbox_slot c); [by rewrite Hp..|].
  destruct (MemberCell.stage c); rewrite ?Hp; done.
Qed.

Lemma quiet_terminalize m exit startup : respects quiet (terminalize_locked m exit startup : Op Exit).
Proof.
  intros f a n f' H. unfold terminalize_locked in H.
  apply bind_Ret_inv in H as (c0 & Em & H1). apply expect_inv in Em.
  pose proof (terminalize_identity exit startup c0 (controls f)) as Hid.
  destruct MemberCell.terminalize_locked as [[[w fx] c3] ms]. injection H1 as -> <- <-.
  eapply quiet_members; [done|exact Em|done|exact Hid|]. apply member_notes_quiet.
Qed.

Lemma quiet_mark m : respects quiet (mark_disposal m : Op ()).
Proof.
  intros f a n f' H. unfold mark_disposal in H.
  apply bind_inv in H as (c & n1 & f1 & n2 & H1 & H2 & ->).
  apply get_member_inv in H1 as (Em & -> & ->).
  cbv [put_member] in H2. simplify_eq. eapply quiet_members; [done|exact Em|done|done|constructor].
Qed.

Lemma quiet_install m p g : respects quiet (install_observation_gate_locked m p g : Op ()).
Proof.
  intros f a n f' H. unfold install_observation_gate_locked in H.
  apply bind_Ret_inv in H as (c0 & Hc & H1). case_decide; simplify_eq.
  - by split.
  - apply bind_Ret_inv in H1 as (? & _ & H1). simplify_eq. by split.
Qed.

Lemma quiet_ancestors s : respects quiet (ancestors_locked s : Op _).
Proof.
  intros f a n f' H. cbv [ancestors_locked] in H. simplify_eq. split; [done|]. split; [done|].
  induction (ancestors _ _ _); simpl; by constructor.
Qed.
End frame.

(** Fields that none of the trace properties observe. *)
Class Ignores {X} (obs : ScopeCell.t B -> X) := {
  ig_lifecycle x c : obs (ScopeCell.set_lifecycle x c) = obs c;
  ig_intensity x c : obs (ScopeCell.put_intensity x c) = obs c;
  ig_route x c : obs (ScopeCell.set_route x c) = obs c;
  ig_parent x c : obs (ScopeCell.put_parent x c) = obs c;
  ig_identity x c : obs (ScopeCell.set_identity x c) = obs c }.

(** A relation that quiet steps satisfy. *)
Class Frame {X} (obs : ScopeCell.t B -> X) (Rel : Forest -> list Note -> Forest -> Prop) := {
  frame_trace :: TraceRel Rel;
  frame_quiet f n f' : quiet obs f n f' -> Rel f n f' }.

#[global] Instance quiet_frame {X} (obs : ScopeCell.t B -> X) : Frame obs (quiet obs).
Proof. split; [apply _|done]. Qed.

Lemma respects_quiet {A X} (obs : ScopeCell.t B -> X) Rel `{!Frame obs Rel} (m : Op A) :
  respects (quiet obs) m -> respects Rel m.
Proof. intros H f a n f' E. apply frame_quiet. by eapply H. Qed.
End logic.

(** One structural step through an operation. *)
Ltac walk_step :=
  match goal with
  | |- respects _ (mret _) => apply respects_ret; apply _
  | |- respects _ (mbind _ _) => apply respects_bind; [apply _| |intros]
  | |- respects _ (match ?x with _ => _ end) => destruct x
  | |- respects _ (get_scope _) => apply respects_reads; [apply _|apply reads_get_scope]
  | |- respects _ (get_member _) => apply respects_reads; [apply _|apply reads_get_member]
  | |- respects _ (lift _) => apply respects_reads; [apply _|apply reads_lift]
  | |- respects _ (panic_if _ _) => apply respects_reads; [apply _|apply reads_lift]
  | |- respects _ (gate_of _) => apply respects_reads; [apply _|apply reads_gate_of]
  | |- respects _ (any_receivers _) => apply respects_reads; [apply _|apply reads_any]
  | |- respects _ (resident_at _ _) => apply respects_reads; [apply _|apply reads_resident_at]
  | |- respects _ (parent _) => apply respects_reads; [apply _|apply reads_parent]
  | |- respects _ (slot_holds _) => apply respects_reads; [apply _|apply reads_slot_holds]
  | |- respects _ forest_depth => apply respects_reads; [apply _|apply reads_depth]
  end.

Create HintDb scope_rel.

(** Walks an operation, closing its leaves with the registered lemmas. *)
Ltac walk := repeat first [walk_step | solve [eauto 2 with scope_rel nocore]].

Section ignoring.
Context {M T F B R : Type} `{!MailboxControl M T F} `{!Broadcast LifecycleEvent.t B R}.
Local Abbreviation Forest := (Forest M B).
Local Abbreviation Note := (Note T F).
Local Abbreviation Op := (@Op M T F B).
Context {X : Type} (obs : ScopeCell.t B -> X) (Rel : Forest -> list Note -> Forest -> Prop).
Context `{!Ignores obs} `{!Frame obs Rel}.

Lemma frame_note n : is_emitted n = false -> respects Rel (note n : Op ()).
Proof. intros. by apply (respects_quiet obs Rel), quiet_note. Qed.
Lemma frame_notes l : Forall (fun x => is_emitted x = false) l -> respects Rel (notes l : Op ()).
Proof. intros. by apply (respects_quiet obs Rel), quiet_notes. Qed.
Lemma frame_modify s g : (forall c, obs (g c) = obs c) -> respects Rel (modify_scope s g : Op ()).
Proof. intros. by apply (respects_quiet obs Rel), quiet_modify. Qed.
Lemma frame_transition m tr : respects Rel (transition_locked m tr : Op bool).
Proof. apply (respects_quiet obs Rel), quiet_transition. Qed.
Lemma frame_update_member m g : respects Rel (update_member m g : Op ()).
Proof. apply (respects_quiet obs Rel), quiet_update_member. Qed.
Lemma frame_terminalize m e st : respects Rel (terminalize_locked m e st : Op Exit).
Proof. apply (respects_quiet obs Rel), quiet_terminalize. Qed.
Lemma frame_mark m : respects Rel (mark_disposal m : Op ()).
Proof. apply (respects_quiet obs Rel), quiet_mark. Qed.
Lemma frame_install m p g : respects Rel (install_observation_gate_locked m p g : Op ()).
Proof. apply (respects_quiet obs Rel), quiet_install. Qed.
Lemma frame_ancestors s : respects Rel (ancestors_locked s : Op _).
Proof. apply (respects_quiet obs Rel), quiet_ancestors. Qed.
#[local] Hint Resolve frame_transition frame_update_member frame_terminalize frame_mark frame_install
  frame_ancestors : scope_rel.

Lemma frame_publish_through s l :
  respects Rel (publish_snapshot_chain_through_locked s l : Op ()).
Proof. apply frame_notes. induction (s :: l); simpl; by constructor. Qed.
#[local] Hint Resolve frame_publish_through : scope_rel.

Lemma frame_publish_chain s : respects Rel (publish_snapshot_chain_locked s : Op ()).
Proof. unfold publish_snapshot_chain_locked. walk. Qed.

Lemma frame_publish_event s e : respects Rel (publish_event s e : Op ()).
Proof.
  unfold publish_event. walk.
  - apply frame_modify. intros. apply ig_lifecycle.
  - apply frame_notes. case_match; by repeat constructor.
Qed.
#[local] Hint Resolve frame_publish_chain frame_publish_event : scope_rel.

Lemma frame_publish_ancestors e i l : respects Rel (publish_ancestors e i l : Op _).
Proof. revert e i; induction l as [|a l IH]; intros e i; simpl; walk. Qed.

Lemma frame_close s : respects Rel (close_observation_locked s : Op ()).
Proof.
  unfold close_observation_locked. walk.
  - by apply frame_note.
  - apply frame_modify. intros. apply ig_lifecycle.
  - apply frame_notes. case_match; by repeat constructor.
Qed.

Lemma frame_set_intensity s i : respects Rel (set_intensity s i : Op ()).
Proof.
  unfold set_intensity. walk_step; [apply frame_modify; intros; apply ig_intensity|walk].
Qed.

Lemma frame_marks l : respects Rel (mark_disposals l : Op ()).
Proof. induction l; simpl; walk. Qed.

Lemma frame_all_share g l : respects Rel (all_share g l : Op bool).
Proof. induction l; simpl; walk. Qed.

Lemma frame_evict s m : respects Rel (evict_child_identity s m : Op ()).
Proof. unfold evict_child_identity. walk. apply frame_modify. intros. apply ig_identity. Qed.

Lemma frame_sever r : respects Rel (sever_parent r : Op ()).
Proof.
  unfold sever_parent. walk_step; [apply frame_modify; intros; apply ig_parent|walk].
Qed.
#[local] Hint Resolve frame_sever : scope_rel.

Lemma frame_severs l : respects Rel (sever_parents l : Op ()).
Proof. induction l; simpl; walk. Qed.

Lemma frame_adopt_descendants fuel s p g : respects Rel (adopt_descendants fuel s p g : Op ()).
Proof.
  revert s; induction fuel as [|fuel IH]; intros s; simpl; [walk|]. walk_step; [walk_step|].
  induction (ScopeCell.current_children a) as [|r l IHl]; walk.
Qed.
#[local] Hint Resolve frame_adopt_descendants : scope_rel.

Lemma frame_admit_attempt m n g : respects Rel (admit_attempt m n g : Op bool).
Proof.
  unfold admit_attempt. walk; apply frame_notes; case_match; by repeat constructor.
Qed.
#[local] Hint Resolve frame_admit_attempt : scope_rel.

Lemma frame_admit_gate n s g : respects Rel (admit_observation_gate n s g : Op bool).
Proof. unfold admit_observation_gate. walk; by apply frame_note. Qed.

Lemma frame_adopt_gate n s g : respects Rel (adopt_observation_gate n s g : Op ()).
Proof. unfold adopt_observation_gate. walk; by apply frame_note. Qed.
#[local] Hint Resolve frame_adopt_gate : scope_rel.

Lemma frame_adopt_child s m c : respects Rel (adopt_child_observation_gate s m c : Op ()).
Proof. unfold adopt_child_observation_gate. walk. Qed.

Lemma frame_removals l : respects Rel (removals l : Op _).
Proof. induction l; simpl; walk. Qed.

Lemma frame_removing s m : respects Rel (set_child_removing_locked s m : Op ()).
Proof. unfold set_child_removing_locked. walk. Qed.

Lemma frame_route s r : respects Rel (set_dynamic_route_locked s r : Op ()).
Proof.
  unfold set_dynamic_route_locked. walk; [apply frame_modify; intros; apply ig_route| |]; by apply frame_note.
Qed.

Lemma frame_membership m : respects Rel (membership_of m : Op _).
Proof. unfold membership_of. walk. Qed.
Lemma frame_stage m : respects Rel (member_stage m : Op _).
Proof. unfold member_stage. walk. Qed.
End ignoring.

(** ** Operations *)

Section operations.
Context {M T F B R : Type} `{!MailboxControl M T F} `{!Broadcast LifecycleEvent.t B R}.
Local Abbreviation Forest := (Forest M B).
Local Abbreviation Note := (Note T F).
Local Abbreviation Op := (@Op M T F B).

(** What an emission does: one sequence number is minted and one edge noted;
    the rest of it only touches lifecycle hubs. *)
Definition with_seq (s : nat) (cnt : AtomicMonotonicCounter.t) (f : Forest) : Forest :=
  mkForest (alter (ScopeCell.set_seq cnt) s (scopes f)) (members f) (gates f) (controls f).

Lemma emit_inv s k f a n f' :
  (emit_locked s k : Op ()) f = Ret (a, n, f') ->
  exists c seq cnt n1 n2, scopes f !! s = Some c /\
    AtomicMonotonicCounter.mint (ScopeCell.lifecycle_seq c) = Ret (seq, cnt) /\
    n = n1 ++ [Emitted s seq k] ++ n2 /\ Forall (fun x => is_emitted x = false) n1 /\
    forall X (obs : ScopeCell.t B -> X), Ignores obs -> quiet obs (with_seq s cnt f) n2 f'.
Proof.
  intros H. unfold emit_locked in H. apply bind_inv in H as (l & n1 & f1 & n' & H1 & H & ->).
  pose proof (quiet_ancestors (fun _ => tt) _ _ _ _ _ H1) as (_ & _ & Hn1).
  cbv [ancestors_locked] in H1. simplify_eq.
  apply bind_inv in H as (seq & n1 & f2 & n2 & H2 & H & ->).
  unfold mint_seq in H2. apply bind_inv in H2 as (c & m1 & g1 & m2 & Hc & H2 & ->).
  apply get_scope_inv in Hc as (Hc & -> & ->).
  apply bind_inv in H2 as ([q cnt] & m1 & g2 & m3 & Hm & H2 & ->).
  apply bind_Ret_inv in Hm as ([q' cnt'] & Hm & Hq). injection Hq as -> -> <- <-.
  cbv [modify_scope mret op_ret mbind op_bind outcome_bind] in H2. injection H2 as <- <- <-.
  apply bind_inv in H as (u & m1 & g3 & m2 & Hn & H & ->). cbv [note] in Hn. simplify_eq.
  exists c, q, cnt, (RetainScope <$> ancestors (size (scopes f1)) f1 s), m2.
  split; [done|]. split; [done|]. split; [done|]. split; [done|].
  intros X obs Hi. simpl in H. change (mkForest _ _ _ _) with (with_seq s cnt f1) in H.
  revert H. generalize (with_seq s cnt f1) as g. intros g H.
  refine ((_ : respects (quiet obs) _) _ _ _ _ H). clear -Hi MailboxControl0.
  walk; solve [by apply quiet_note | apply (frame_publish_through obs (quiet obs))
    | apply (frame_publish_event obs (quiet obs)) | apply (frame_publish_ancestors obs (quiet obs))].
Qed.

(** The withdrawn residents' edges are all [Removed]. *)
Definition is_removed (k : LifecycleEventKind.t) : bool :=
  match k with LifecycleEventKind.Removed _ _ _ => true | _ => false end.

Lemma removals_removed l f ks n f' :
  (removals l : Op _) f = Ret (ks, n, f') -> Forall (fun k => is_removed k = true) ks.
Proof.
  revert f ks n f'. induction l as [|r l IH]; intros f ks n f' H; simpl in H.
  { cbv in H. simplify_eq. constructor. }
  destruct (ResidentChild.announced r); [|by eapply IH].
  apply bind_inv in H as (m & n1 & f1 & n2 & _ & H & ->).
  apply bind_inv in H as (ks' & n3 & f3 & n4 & H1 & H & ->). cbv [mret op_ret] in H. simplify_eq.
  constructor; [done|by eapply IH].
Qed.

Inductive ScopeOp :=
| OpSetIntensity (s : nat) (i : Intensity.t)
| OpSetState (s : nat) (state : ScopeState.t) (startup : result () StartupError)
| OpDrain (s : nat) (startup : option (result () StartupError)) (disposals : list nat)
| OpSetRemoving (s m : nat)
| OpTransition (s m : nat) (tr : MemberTransition.t) (event : option LifecycleEventKind.t)
| OpStartScope (s child : nat) (i : Incarnation) (restart_stopped : bool)
| OpRestart (s m : nat) (total : TotalRestarts.t) (exit : Exit) (tr : MemberTransition.t)
    (exited scheduled : LifecycleEventKind.t)
| OpTerminalizeChild (s m : nat) (exit : Exit) (exited : option Incarnation)
    (startup : StartupDisposition.t)
| OpSetStartup (s : nat) (startup : result () StartupError)
| OpTerminalizeNeverStarted (s : nat)
| OpCloseNeverStartedBody (s : nat)
| OpBegin (s : nat)
| OpFinish (s : nat) (e : Epoch) (reason : StopReason.t) (exit : option Exit)
| OpFinishLiveRoot (s : nat) (reason : StopReason.t) (exit : Exit)
| OpRequestShutdown (s : nat)
| OpTakeEvents (s : nat)
| OpVacate (s : nat) (e : Epoch)
| OpForce (s : nat) (e : Epoch)
| OpTake (slot : ScopeRequestSlot.t) (s : nat) (e : Epoch)
| OpSetRoute (s : nat) (route : option nat)
| OpAdopt (s m : nat) (child : option nat)
| OpPrune (s m : nat)
| OpAdmit (s : nat) (child : ResidentProjection.t)
| OpSetAdmitted (s : nat) (children : list ResidentProjection.t)
| OpClear (s : nat).

Inductive ScopeResult :=
| ResUnit
| ResBool (b : bool)
| ResEpoch (e : option Epoch)
| ResEvents (l : list ScopeControlEvent.t).

Definition returning {A} (g : A -> ScopeResult) (m : Op A) : Op ScopeResult := a ← m; mret (g a).

Definition unit_op (m : Op ()) : Op ScopeResult := returning (fun _ => ResUnit) m.
Definition bool_op (m : Op bool) : Op ScopeResult := returning ResBool m.

Definition run_op (o : ScopeOp) : Op ScopeResult :=
  match o with
  | OpSetIntensity s i => unit_op (set_intensity s i)
  | OpSetState s state startup => unit_op (set_state_and_startup s state startup)
  | OpDrain s startup disposals => unit_op (publish_drain s ScopeState.Draining startup disposals)
  | OpSetRemoving s m => unit_op (set_child_removing_locked s m)
  | OpTransition s m tr event => bool_op (transition_child_stage s m tr event)
  | OpStartScope s child i b => bool_op (start_scope_child s child i b)
  | OpRestart s m total exit tr exited scheduled =>
      bool_op (publish_child_restart s m total exit tr exited scheduled)
  | OpTerminalizeChild s m exit exited startup =>
      bool_op (terminalize_child s m exit exited startup)
  | OpSetStartup s startup => unit_op (set_startup_locked s startup)
  | OpTerminalizeNeverStarted s => unit_op (terminalize_never_started_locked s)
  | OpCloseNeverStartedBody s => unit_op (close_never_started_body s)
  | OpBegin s => returning ResEpoch (begin_incarnation_into s ScopeState.Starting None)
  | OpFinish s e reason exit => unit_op (finish_incarnation_with_terminal s e reason exit)
  | OpFinishLiveRoot s reason exit => unit_op (finish_live_root_incarnation s reason exit)
  | OpRequestShutdown s => returning (fun e => ResEpoch (Some e)) (request_shutdown s)
  | OpTakeEvents s => returning ResEvents (take_control_events s)
  | OpVacate s e => bool_op (vacate_pending_shutdown s e)
  | OpForce s e => unit_op (force_shutdown s e)
  | OpTake slot s e => bool_op (take_request slot s e)
  | OpSetRoute s route => unit_op (set_dynamic_route_locked s route)
  | OpAdopt s m child => unit_op (adopt_child_observation_gate s m child)
  | OpPrune s m => bool_op (prune_child_locked s m)
  | OpAdmit s child => bool_op (admit_child_locked s child)
  | OpSetAdmitted s children => bool_op (set_admitted_children s children)
  | OpClear s => unit_op (clear_residents_locked s)
  end.

(** The edges a driver passes in are about children's incarnations. *)
Definition incarnation_edge (k : LifecycleEventKind.t) : bool :=
  match k with
  | LifecycleEventKind.Started _ _ _ | LifecycleEventKind.Ready _ _ _
  | LifecycleEventKind.Exited _ _ _ _ | LifecycleEventKind.RestartScheduled _ _ _ _ => true
  | _ => false
  end.

Definition op_ok (o : ScopeOp) : bool :=
  match o with
  | OpTransition _ _ _ (Some k) => incarnation_edge k
  | OpRestart _ _ _ _ _ k k' => incarnation_edge k && incarnation_edge k'
  | _ => true
  end.

(** Runs of operations: results, the notes of all transactions, the forest. *)
Definition scope_exec (f : Forest) (o : ScopeOp) : outcome ((ScopeResult * list Note) * Forest) :=
  '(r, n, f) ← run_op o f; Ret ((r, n), f).

Definition trace (rs : list (ScopeResult * list Note)) : list Note := concat rs.*2.

Lemma run_respects Rel `{!TraceRel Rel} (P : ScopeOp -> bool) :
  (forall o, P o = true -> respects Rel (run_op o)) ->
  forall ops f rs f', Forall (fun o => P o = true) ops ->
    run_ops scope_exec f ops = Ret (rs, f') -> Rel f (trace rs) f'.
Proof.
  intros HP ops. induction ops as [|o ops IH]; intros f rs f' Hok H; simpl in H.
  { simplify_eq. apply rel_refl. }
  inversion Hok as [|? ? Ho Hok']; subst.
  apply bind_Ret_inv in H as ([r f1] & H1 & H). apply bind_Ret_inv in H as ([rs1 f2] & H2 & H).
  simplify_eq. apply bind_Ret_inv in H1 as ([[r1 n1] f3] & H1 & H3). simplify_eq.
  unfold trace. rewrite fmap_cons, concat_cons. eapply rel_trans; [|by eapply IH].
  by apply (HP o Ho) in H1.
Qed.
End operations.

(** Closes a leaf that is quiet for [obs]. *)
Ltac frame_leaf obs Rel :=
  first
  [ apply (frame_note obs Rel); reflexivity
  | apply (frame_notes obs Rel); repeat case_match; by repeat constructor
  | apply (frame_modify obs Rel); intros; reflexivity
  | apply (frame_transition obs Rel) | apply (frame_update_member obs Rel)
  | apply (frame_terminalize obs Rel) | apply (frame_mark obs Rel) | apply (frame_install obs Rel)
  | apply (frame_ancestors obs Rel) | apply (frame_publish_through obs Rel)
  | apply (frame_publish_chain obs Rel) | apply (frame_publish_event obs Rel)
  | apply (frame_close obs Rel) | apply (frame_set_intensity obs Rel) | apply (frame_marks obs Rel)
  | apply (frame_all_share obs Rel) | apply (frame_evict obs Rel) | apply (frame_sever obs Rel)
  | apply (frame_severs obs Rel) | apply (frame_adopt_descendants obs Rel)
  | apply (frame_admit_attempt obs Rel) | apply (frame_admit_gate obs Rel)
  | apply (frame_adopt_gate obs Rel) | apply (frame_adopt_child obs Rel)
  | apply (frame_removals obs Rel) | apply (frame_removing obs Rel) | apply (frame_route obs Rel)
  | apply (frame_membership obs Rel) | apply (frame_stage obs Rel) ].

(** Opens an operation down to its leaves. *)
Ltac open_op :=
  progress unfold run_op, unit_op, bool_op, returning, publish_stopped_locked, set_startup_locked,
    set_state_locked, set_state_and_startup, publish_drain, transition_child_stage,
    start_scope_child, publish_child_restart, when_stopped, terminalize_child, scope_is_closed,
    close_never_started_body, terminalize_never_started_locked, update_control,
    begin_incarnation_into, finish_incarnation_with_terminal, finish_live_root_incarnation,
    publish_control_event_locked, request_shutdown, take_control_events, vacate_pending_shutdown,
    force_shutdown, take_request, push_unannounced, announce, withdraw, set_parent,
    admit_child_locked, prune_child_locked, clear_residents_locked, set_admitted_children.

(** The whole walk: [known] closes the leaves that are not quiet. *)
Ltac walk_op obs Rel known :=
  repeat first [solve [known] | walk_step | solve [frame_leaf obs Rel] | open_op].
