(* ===== verification/ScopeProps.v ===== *)
(** * Scope cells: sequences, states and residency

    Trace properties of the operations of [Scope.v], by the method of
    [ScopeLogic.v]. *)

From S2P Require Import Prelude Identity Exit Policy Restart Epochs Lifecycle Gate Watch.
From S2P Require Import Member Snapshot LifecycleHub Scope ScopeLogic.

Section props.
Context {M T F B R : Type} `{!MailboxControl M T F} `{!Broadcast LifecycleEvent.t B R}.
Local Abbreviation Forest := (Forest M B).
Local Abbreviation Note := (Note T F).
Local Abbreviation Op := (@Op M T F B).

(** The edges scope [s] emitted, with their sequence numbers. *)
Definition emitted (s : nat) (x : Note) : option (Z * LifecycleEventKind.t) :=
  match x with Emitted s' q k => if decide (s' = s) then Some (q, k) else None | _ => None end.

Definition edges (s : nat) (n : list Note) : list (Z * LifecycleEventKind.t) := omap (emitted s) n.

Lemma edges_app s a b : edges s (a ++ b) = edges s a ++ edges s b.
Proof. apply omap_app. Qed.

Lemma edges_quiet s n : Forall (fun x => is_emitted x = false) n -> edges s n = [].
Proof.
  induction 1 as [|x n Hx _ IH]; [done|]. by destruct x.
Qed.

Lemma edges_one s q k s' :
  edges s' [Emitted s q k] = if decide (s = s') then [(q, k)] else [].
Proof. unfold edges. simpl. by case_decide. Qed.

(** ** Lifecycle sequence numbers *)

Definition seq_of (c : ScopeCell.t B) : Z := AtomicMonotonicCounter.value (ScopeCell.lifecycle_seq c).

#[local] Instance ignores_seq : Ignores seq_of.
Proof. by split. Qed.

(** Consecutive numbers from the counter, one per emission. *)
Definition numbered (f : Forest) (n : list Note) (f' : Forest) : Prop :=
  forall s, match seq_of <$> scopes f !! s with
            | Some v => (edges s n).*1 = seqZ (v + 1) (Z.of_nat (length (edges s n))) /\
                        seq_of <$> scopes f' !! s = Some (v + Z.of_nat (length (edges s n)))
            | None => edges s n = [] /\ scopes f' !! s = None
            end.

#[local] Instance numbered_frame : Frame seq_of numbered.
Proof.
  split; [split|].
  - intros f s. simpl. destruct (scopes f !! s); simpl; [|done]. by rewrite Z.add_0_r.
  - intros f n g n' h H K s. specialize (H s). specialize (K s). rewrite edges_app.
    destruct (seq_of <$> scopes f !! s) as [v|].
    + destruct H as [He Hv]. rewrite Hv in K. destruct K as [Ke Kv].
      rewrite fmap_app, length_app, Nat2Z.inj_add, seqZ_app, He, Ke by lia. rewrite Kv. split.
      * do 2 f_equal. lia.
      * f_equal. lia.
    + destruct H as [He Hn]. rewrite Hn in K. simpl in K. by rewrite He.
  - intros f n f' (Hs & _ & Hn) s. rewrite (edges_quiet s n Hn). specialize (Hs s).
    destruct (scopes f !! s); simpl in *; [by rewrite Hs, Z.add_0_r|].
    by destruct (scopes f' !! s).
Qed.

Lemma numbered_emit s k : respects numbered (emit_locked s k : Op ()).
Proof.
  intros f a n f' H. apply emit_inv in H as (c & q & cnt & n1 & n2 & Hc & Hm & -> & Hn1 & Hq).
  destruct (Hq Z seq_of _) as (Hs & _ & Hn2). intros s'. specialize (Hs s').
  rewrite !edges_app, (edges_quiet s' n1), (edges_quiet s' n2), edges_one by done.
  apply atomic_mint_Ret in Hm as (-> & _ & ->). simpl in Hs.
  destruct (decide (s = s')) as [<-|Hne].
  - rewrite lookup_alter_eq in Hs. rewrite Hc in *. simpl in *. rewrite Hs. split; [|done].
    unfold seq_of. by rewrite seqZ_cons by lia.
  - rewrite lookup_alter_ne in Hs by done. destruct (scopes f !! s') as [c'|]; simpl in *.
    + by rewrite Hs, Z.add_0_r.
    + by destruct (scopes f' !! s').
Qed.

Lemma numbered_emit_all s l : respects numbered (emit_all s l : Op ()).
Proof. induction l; simpl; walk_op seq_of numbered ltac:(apply numbered_emit || assumption). Qed.

Lemma numbered_admit s p : respects numbered (admit_child_locked s p : Op bool).
Proof. walk_op seq_of numbered ltac:(apply numbered_emit). Qed.

Lemma numbered_admit_all s l : respects numbered (admit_all s l : Op bool).
Proof. induction l; simpl; walk_op seq_of numbered ltac:(apply numbered_admit || assumption). Qed.

(** Everything but emissions is quiet for the counter. *)
Lemma numbered_run_op o : respects numbered (run_op o).
Proof.
  destruct o; walk_op seq_of numbered
    ltac:(apply numbered_emit || apply numbered_emit_all || apply numbered_admit_all).
Qed.

Lemma snapshot_seq (f : Forest) s sn :
  snapshot f s = Ret sn -> exists c, scopes f !! s = Some c /\ ss_lifecycle_seq sn = seq_of c.
Proof.
  unfold snapshot. simpl. intros H. apply bind_Ret_inv in H as (c & Hc & H). apply expect_inv in Hc.
  apply bind_Ret_inv in H as (cs & _ & H). simplify_eq. eauto.
Qed.

(** The lifecycle edges a scope emits carry consecutive sequence numbers,
    over any sequence of operations on the tree, and the watermark of any
    snapshot taken afterwards is the number of the last one. *)
Theorem lifecycle_seq_gapless ops f rs f' s c :
  run_ops scope_exec f ops = Ret (rs, f') -> scopes f !! s = Some c ->
  exists c', scopes f' !! s = Some c' /\
    (edges s (trace rs)).*1 = seqZ (seq_of c + 1) (seq_of c' - seq_of c) /\
    forall sn, snapshot f' s = Ret sn -> ss_lifecycle_seq sn = seq_of c'.
Proof.
  intros H Hc.
  pose proof (run_respects numbered (fun _ => true) (fun o _ => numbered_run_op o) ops f rs f'
    ltac:(by apply Forall_true) H s) as Hs.
  rewrite Hc in Hs. simpl in Hs. destruct Hs as [He Hv].
  destruct (scopes f' !! s) as [c'|] eqn:Hc'; [|done]. injection Hv as Hv. exists c'. split; [done|].
  split; [rewrite He; f_equal; lia|]. intros sn Hsn. apply snapshot_seq in Hsn as (c2 & ? & ->).
  congruence.
Qed.

(** ** Scope states *)

Definition state_edge (e : Z * LifecycleEventKind.t) : option ScopeState.t :=
  match e.2 with LifecycleEventKind.ScopeState st => Some st | _ => None end.

(** The states scope [s] announced. *)
Definition states (s : nat) (n : list Note) : list ScopeState.t := omap state_edge (edges s n).

Definition latest (st : ScopeState.t) (l : list ScopeState.t) : ScopeState.t :=
  match last l with Some st' => st' | None => st end.

Lemma latest_app st a b : latest st (a ++ b) = latest (latest st a) b.
Proof. unfold latest. rewrite last_app. by destruct (last b). Qed.

Lemma states_app s a b : states s (a ++ b) = states s a ++ states s b.
Proof. unfold states. by rewrite edges_app, omap_app. Qed.

Lemma states_quiet s n : Forall (fun x => is_emitted x = false) n -> states s n = [].
Proof. intros H. unfold states. by rewrite edges_quiet. Qed.

(** The record follows the announcements. *)
Definition agrees_at (s : nat) (f : Forest) (n : list Note) (f' : Forest) : Prop :=
  ScopeCell.state <$> scopes f' !! s =
    (fun c => latest (ScopeCell.state c) (states s n)) <$> scopes f !! s.

Definition agrees (f : Forest) (n : list Note) (f' : Forest) : Prop := forall s, agrees_at s f n f'.

#[local] Instance ignores_state : Ignores (ScopeCell.state (B := B)).
Proof. by split. Qed.

Lemma agrees_at_trans s f n g n' h :
  agrees_at s f n g -> agrees_at s g n' h -> agrees_at s f (n ++ n') h.
Proof.
  unfold agrees_at. intros H K. rewrite K, states_app. destruct (scopes f !! s) as [c|]; simpl in *.
  - destruct (scopes g !! s) as [d|]; [|done]. simpl in *. injection H as H. by rewrite latest_app, H.
  - by destruct (scopes g !! s).
Qed.

Lemma agrees_at_quiet s f n f' : quiet ScopeCell.state f n f' -> agrees_at s f n f'.
Proof.
  intros (Hs & _ & Hn). unfold agrees_at. rewrite (states_quiet s n Hn), Hs.
  by destruct (scopes f !! s).
Qed.

#[local] Instance agrees_frame : Frame ScopeCell.state agrees.
Proof.
  split; [split|].
  - intros f s. unfold agrees_at. by destruct (scopes f !! s).
  - intros f n g n' h H K s. by eapply agrees_at_trans.
  - intros f n f' H s. by apply agrees_at_quiet.
Qed.

Lemma emit_states s k f a n f' :
  (emit_locked s k : Op ()) f = Ret (a, n, f') ->
  (forall s', ScopeCell.state <$> scopes f' !! s' = ScopeCell.state <$> scopes f !! s') /\
  (forall s', states s' n = if decide (s = s') then option_list (state_edge (0, k)) else []).
Proof.
  intros H. apply emit_inv in H as (c & q & cnt & n1 & n2 & Hc & _ & -> & Hn1 & Hq).
  destruct (Hq _ ScopeCell.state _) as (Hs & _ & Hn2). split.
  - intros s'. rewrite Hs. simpl. destruct (decide (s = s')) as [<-|Hne].
    + rewrite lookup_alter_eq. by destruct (scopes f !! s).
    + by rewrite lookup_alter_ne.
  - intros s'. rewrite !states_app, (states_quiet s' n1), (states_quiet s' n2), app_nil_r by done.
    unfold states. rewrite edges_one. case_decide; [|done]. by destruct k.
Qed.

Lemma agrees_emit s k : state_edge (0, k) = None -> respects agrees (emit_locked s k : Op ()).
Proof.
  intros Hk f a n f' H s'. apply emit_states in H as [Hs Hn]. unfold agrees_at.
  rewrite Hs, Hn, Hk. case_decide; by destruct (scopes f !! s').
Qed.

(** A record already written whose announcement is still owed. *)
Definition owes (s : nat) (st : ScopeState.t) (f : Forest) (n : list Note) (f' : Forest) : Prop :=
  (forall s', s' <> s -> agrees_at s' f n f') /\ states s n = [] /\
  ScopeCell.state <$> scopes f' !! s = (fun _ => st) <$> scopes f !! s.

(** [m] announces what is owed. *)
Definition settles {A} (s : nat) (st : ScopeState.t) (m : Op A) : Prop :=
  forall f0 n0 f a n f', owes s st f0 n0 f -> m f = Ret (a, n, f') -> agrees f0 (n0 ++ n) f'.

Lemma settles_emit s st : settles s st (emit_locked s (LifecycleEventKind.ScopeState st) : Op ()).
Proof.
  intros f0 n0 f a n f' (Ho & Hn & Hs) H s'. apply emit_states in H as [Hs' Hn'].
  destruct (decide (s' = s)) as [->|Hne].
  - unfold agrees_at. rewrite Hs', Hs, states_app, Hn, Hn'. by rewrite decide_True.
  - eapply agrees_at_trans; [by apply Ho|]. unfold agrees_at. rewrite Hs', Hn', decide_False by done.
    by destruct (scopes f !! s').
Qed.

Lemma settles_before {A C} s st (m : Op A) (k : A -> Op C) :
  respects (quiet ScopeCell.state) m -> (forall a, settles s st (k a)) -> settles s st (m ≫= k).
Proof.
  intros Hm Hk f0 n0 f a n f' (Ho & Hn & Hs) H. apply bind_inv in H as (b & n1 & f1 & n2 & H1 & H2 & ->).
  rewrite app_assoc. eapply Hk; [|done]. apply Hm in H1. pose proof H1 as (Hq & _ & Hn1). split; [|split].
  - intros s' Hne. eapply agrees_at_trans; [by apply Ho|]. by apply agrees_at_quiet.
  - by rewrite states_app, Hn, (states_quiet s n1).
  - by rewrite Hq.
Qed.

Lemma settles_after {A C} s st (m : Op A) (k : A -> Op C) :
  settles s st m -> (forall a, respects agrees (k a)) -> settles s st (m ≫= k).
Proof.
  intros Hm Hk f0 n0 f a n f' Ho H. apply bind_inv in H as (b & n1 & f1 & n2 & H1 & H2 & ->).
  rewrite app_assoc. eapply (rel_trans (Rel := agrees)); [by eapply Hm|by eapply Hk].
Qed.

Lemma agrees_write {A} s st g (k : () -> Op A) :
  (forall r, ScopeRecord.state (g r) = st) -> settles s st (k ()) ->
  respects agrees (modify_scope s (ScopeCell.update_record g) ≫= k).
Proof.
  intros Hg Hk f a n f' H. apply bind_inv in H as ([] & n1 & f1 & n2 & H1 & H2 & ->).
  eapply Hk; [|done]. cbv [modify_scope] in H1. simplify_eq. split; [|split; [done|]]; simpl.
  - intros s' Hne. unfold agrees_at; simpl. rewrite lookup_alter_ne by done.
    by destruct (scopes f !! s').
  - rewrite lookup_alter_eq. destruct (scopes f !! s); [|done]. simpl. unfold ScopeCell.state, ScopeCell.current.
    simpl. by rewrite Hg.
Qed.

Ltac quietly := repeat first [walk_step | solve [frame_leaf (ScopeCell.state (B := B)) (quiet (M := M) (T := T) (F := F) (ScopeCell.state (B := B)))]].
Ltac settle :=
  repeat match goal with
  | |- settles _ _ (mbind _ (emit_locked _ _)) => fail 1
  | |- settles _ _ (mbind _ _) => apply settles_before; [quietly|intros]
  end.

Lemma agrees_stop s reason exit : respects agrees (publish_stopped_locked s reason exit : Op ()).
Proof.
  unfold publish_stopped_locked. walk_step; [walk_step|]. destruct (stop_suppressed reason _) eqn:E; simpl.
  - walk_op (ScopeCell.state (B := B)) agrees fail.
  - apply (agrees_write s (ScopeState.Stopped reason)); [done|]. settle. apply settles_emit.
Qed.

Lemma agrees_set_state s st l : respects agrees (set_state_locked s st l : Op ()).
Proof.
  unfold set_state_locked. do 4 (walk_step; [walk_op (ScopeCell.state (B := B)) agrees fail|]).
  apply (agrees_write s st); [done|]. settle. apply settles_emit.
Qed.

Lemma agrees_begin s o : respects agrees (begin_incarnation_into s ScopeState.Starting o : Op _).
Proof.
  unfold begin_incarnation_into. do 5 (walk_step; [walk_op (ScopeCell.state (B := B)) agrees fail|]).
  destruct a3 as [[e|] epochs]; [|walk]. walk_step; [walk_op (ScopeCell.state (B := B)) agrees fail|].
  apply (agrees_write s ScopeState.Starting); [done|]. settle. apply settles_after; [apply settles_emit|].
  intros; walk.
Qed.

Lemma agrees_emit_all s l :
  Forall (fun k => is_removed k = true) l -> respects agrees (emit_all s l : Op ()).
Proof.
  induction 1 as [|k l Hk _ IH]; simpl; [walk|]. walk_step; [|done]. apply agrees_emit. by destruct k.
Qed.

Lemma agrees_clear s : respects agrees (clear_residents_locked s : Op ()).
Proof.
  unfold clear_residents_locked. do 3 (walk_step; [walk_op (ScopeCell.state (B := B)) agrees fail|]).
  eapply respects_bind_post; [apply _|apply removals_removed| |].
  - frame_leaf (ScopeCell.state (B := B)) agrees.
  - intros ks Hks. walk_step; [by frame_leaf (ScopeCell.state (B := B)) agrees|]. by apply agrees_emit_all.
Qed.

Lemma agrees_admit s p : respects agrees (admit_child_locked s p : Op bool).
Proof. walk_op (ScopeCell.state (B := B)) agrees ltac:(by apply agrees_emit). Qed.

Lemma agrees_admit_all s l : respects agrees (admit_all s l : Op bool).
Proof.
  induction l; simpl; walk_op (ScopeCell.state (B := B)) agrees ltac:(apply agrees_admit || assumption).
Qed.

Lemma agrees_run_op o : op_ok o = true -> respects agrees (run_op o).
Proof.
  intros Ho.
  assert (forall s k, incarnation_edge k = true -> respects agrees (emit_locked s k : Op ())) as He.
  { intros s k Hk. apply agrees_emit. by destruct k. }
  destruct o; simpl in Ho; try (apply andb_true_iff in Ho as [Ho1 Ho2]);
    walk_op (ScopeCell.state (B := B)) agrees
      ltac:(first [apply agrees_stop | apply agrees_set_state | apply agrees_begin | apply agrees_clear
                  | apply agrees_admit | apply agrees_admit_all | by apply agrees_emit | by apply He]).
Qed.

(** A scope's stream of announced states and its record never disagree:
    after any sequence of operations on the tree, the record shows the last
    state the scope announced, or its previous state if it announced none. *)
Theorem scope_state_stream_agrees ops f rs f' s c :
  Forall (fun o => op_ok o = true) ops ->
  run_ops scope_exec f ops = Ret (rs, f') -> scopes f !! s = Some c ->
  exists c', scopes f' !! s = Some c' /\
    ScopeCell.state c' = latest (ScopeCell.state c) (states s (trace rs)).
Proof.
  intros Hok H Hc. pose proof (run_respects agrees op_ok agrees_run_op ops f rs f' Hok H s) as Hs.
  unfold agrees_at in Hs. rewrite Hc in Hs. simpl in Hs.
  destruct (scopes f' !! s) as [c'|]; [|done]. injection Hs as Hs. eauto.
Qed.

(** ** Competing stop verdicts *)

Fixpoint publish_verdicts (s : nat) (reasons : list StopReason.t) : Op () :=
  match reasons with
  | [] => mret ()
  | r :: reasons => _ ← publish_stopped_locked s r None; publish_verdicts s reasons
  end.

(** The reason on record after one more verdict. *)
Definition recorded (st : ScopeState.t) (r : StopReason.t) : StopReason.t :=
  match st with ScopeState.Stopped r0 => join_reason r0 r | _ => r end.

Definition same_states (f : Forest) (n : list Note) (f' : Forest) : Prop :=
  forall s, ScopeCell.state <$> scopes f' !! s = ScopeCell.state <$> scopes f !! s.

#[local] Instance same_states_frame : Frame ScopeCell.state same_states.
Proof.
  split; [split|].
  - done.
  - intros f n g n' h H K s. by rewrite K.
  - intros f n f' (Hs & _) s. done.
Qed.

Lemma same_states_emit s k : respects same_states (emit_locked s k : Op ()).
Proof. intros f a n f' H s'. by apply emit_states in H as [Hs _]. Qed.

Lemma publish_stopped_state s r exit (f : Forest) c a n f' :
  scopes f !! s = Some c -> (publish_stopped_locked s r exit : Op ()) f = Ret (a, n, f') ->
  exists c', scopes f' !! s = Some c' /\
    ScopeCell.state c' = ScopeState.Stopped (recorded (ScopeCell.state c) r).
Proof.
  intros Hc H. unfold publish_stopped_locked in H.
  apply bind_inv in H as (c0 & n1 & f1 & n2 & H1 & H & ->). apply get_scope_inv in H1 as (Hc0 & -> & ->).
  rewrite Hc in Hc0. injection Hc0 as <-. unfold stop_suppressed in H.
  fold (ScopeCell.state c) in H. unfold recorded, join_reason.
  assert (forall g : Forest, (forall s', ScopeCell.state <$> scopes f' !! s' = ScopeCell.state <$> scopes g !! s') ->
    forall st, ScopeCell.state <$> scopes g !! s = Some st ->
    exists c', scopes f' !! s = Some c' /\ ScopeCell.state c' = st) as Hend.
  { intros g Hg st Hst. specialize (Hg s). rewrite Hst in Hg.
    destruct (scopes f' !! s) as [c'|]; [|done]. injection Hg as Hg. eauto. }
  destruct (negb match ScopeCell.state c with ScopeState.Stopped _ => _ | _ => _ end) eqn:E.
  - apply bind_inv in H as (u & n3 & g & n4 & H1 & H & ->).
    cbv [modify_scope] in H1. simplify_eq/=. eapply Hend.
    + refine ((_ : respects same_states _) _ _ _ _ H).
      walk_op (ScopeCell.state (B := B)) same_states ltac:(apply same_states_emit).
    + simpl. rewrite lookup_alter_eq, Hc. simpl.
      change (Some (ScopeState.Stopped r) = Some (ScopeState.Stopped
        match ScopeCell.state c with ScopeState.Stopped r0 => if precedence_gtb
          (stop_reason_precedence r) (stop_reason_precedence r0) then r else r0 | _ => r end)).
      destruct (ScopeCell.state c); try done. by destruct (precedence_gtb _ _).
  - apply (Hend f).
    + refine ((_ : respects same_states _) _ _ _ _ H).
      walk_op (ScopeCell.state (B := B)) same_states fail.
    + rewrite Hc. simpl. destruct (ScopeCell.state c) as [| | | | |r0] eqn:Es; try done.
      by destruct (precedence_gtb _ _).
Qed.

Lemma verdicts_state s reasons (f : Forest) c a n f' :
  scopes f !! s = Some c -> (publish_verdicts s reasons : Op ()) f = Ret (a, n, f') ->
  exists c', scopes f' !! s = Some c' /\
    ScopeCell.state c' = foldl (fun st r => ScopeState.Stopped (recorded st r)) (ScopeCell.state c) reasons.
Proof.
  revert f c n. induction reasons as [|r reasons IH]; intros f c n Hc H; simpl in *.
  { cbv in H. simplify_eq. eauto. }
  apply bind_inv in H as (u & n1 & f1 & n2 & H1 & H & ->).
  destruct (publish_stopped_state _ _ _ _ _ _ _ _ Hc H1) as (c1 & Hc1 & Hs1).
  destruct (IH _ _ _ Hc1 H) as (c2 & Hc2 & Hs2). exists c2. by rewrite <- Hs1.
Qed.

(** What competes for the record: the reason already on it and the verdicts. *)
Definition candidates (st : ScopeState.t) (reasons : list StopReason.t) : list StopReason.t :=
  match st with ScopeState.Stopped r => r :: reasons | _ => reasons end.

(** A verdict is the greatest of those it competes with, and one of them. *)
Definition greatest (r : StopReason.t) (rs : list StopReason.t) : Prop :=
  r ∈ rs /\ forall r', r' ∈ rs -> reason_level r' <= reason_level r.

Lemma verdicts_greatest st reasons :
  candidates st reasons ≠ [] ->
  exists r, foldl (fun st r => ScopeState.Stopped (recorded st r)) st reasons = match reasons with [] => st | _ => ScopeState.Stopped r end /\
    greatest r (candidates st reasons).
Proof.
  revert st. induction reasons as [|x l IH]; intros st Hne; simpl.
  { destruct st as [| | | | |r0]; simpl in *; try done. exists r0. split; [done|].
    split; [set_solver|]. intros r' ->%list_elem_of_singleton. lia. }
  destruct (IH (ScopeState.Stopped (recorded st x)) ltac:(done)) as (r & -> & Hin & Hmax). simpl in *.
  exists r. split; [destruct l; [|done]; by apply list_elem_of_singleton in Hin as ->|].
  pose proof (Hmax _ (list_elem_of_here _ _)) as Hx. unfold recorded, join_reason in *.
  destruct st as [| | | | |r0]; simpl in *; try (split; [done|]; intros; by apply Hmax).
  pose proof (join_reason_level r0 x) as Hl. unfold join_reason in Hl. split.
  - destruct (precedence_gtb _ _); set_solver.
  - intros r' [->|[->|Hr]%elem_of_cons]%elem_of_cons; [lia..|]. apply Hmax. set_solver.
Qed.

(** C17: competing stop verdicts for one scope resolve by precedence, not by
    arrival order: published in any order, they leave a [Stopped] record whose
    reason is one of the verdicts or the reason already on record, and has the
    greatest precedence among these. *)
Theorem stop_verdicts_order_free s reasons reasons' (f : Forest) c a n f1 a' n' f2 :
  reasons ≡ₚ reasons' -> reasons ≠ [] -> scopes f !! s = Some c ->
  (publish_verdicts s reasons : Op ()) f = Ret (a, n, f1) ->
  (publish_verdicts s reasons' : Op ()) f = Ret (a', n', f2) ->
  exists c1 c2 r1 r2, scopes f1 !! s = Some c1 /\ scopes f2 !! s = Some c2 /\
    ScopeCell.state c1 = ScopeState.Stopped r1 /\ ScopeCell.state c2 = ScopeState.Stopped r2 /\
    reason_level r1 = reason_level r2 /\
    greatest r1 (candidates (ScopeCell.state c) reasons) /\
    greatest r2 (candidates (ScopeCell.state c) reasons).
Proof.
  intros Hp Hne Hc H1 H2.
  destruct (verdicts_state _ _ _ _ _ _ _ Hc H1) as (c1 & Hc1 & Hs1).
  destruct (verdicts_state _ _ _ _ _ _ _ Hc H2) as (c2 & Hc2 & Hs2).
  assert (Hpc : candidates (ScopeCell.state c) reasons ≡ₚ candidates (ScopeCell.state c) reasons').
  { destruct (ScopeCell.state c); simpl; by try apply Permutation_skip. }
  assert (Hne' : reasons' ≠ []) by (intros ->; by apply Permutation_nil_r in Hp).
  assert (Hcn : forall l, l ≠ [] -> candidates (ScopeCell.state c) l ≠ []) by (intros l ?; by destruct (ScopeCell.state c)).
  destruct (verdicts_greatest (ScopeCell.state c) reasons (Hcn _ Hne)) as (r1 & E1 & G1).
  destruct (verdicts_greatest (ScopeCell.state c) reasons' (Hcn _ Hne')) as (r2 & E2 & G2).
  assert (G2' : greatest r2 (candidates (ScopeCell.state c) reasons)).
  { destruct G2 as [Hi Hm]. split; [by rewrite Hpc|]. intros r' Hr'. apply Hm. by rewrite <- Hpc. }
  exists c1, c2, r1, r2. rewrite Hs1, Hs2, E1, E2. split_and!; try done; [by destruct reasons|by destruct reasons'|].
  destruct G1 as [Hi1 Hm1], G2' as [Hi2 Hm2]. specialize (Hm1 _ Hi2). specialize (Hm2 _ Hi1). lia.
Qed.
End props.
