(* ===== verification/ScopeResidency.v ===== *)
(** * Scope cells: residency

    The [Added] and [Removed] edges of a scope pair with its announced
    residents, whatever operations run on the tree. *)

From S2P Require Import Prelude Identity Exit Policy Restart Epochs Lifecycle Gate Watch.
From S2P Require Import Member Snapshot LifecycleHub Scope ScopeLogic ScopeProps.

Section residency.
Context {M T F B R : Type} `{!MailboxControl M T F} `{!Broadcast LifecycleEvent.t B R}.
Local Abbreviation Forest := (Forest M B).
Local Abbreviation Note := (Note T F).
Local Abbreviation Op := (@Op M T F B).

Definition added_edge (e : Z * LifecycleEventKind.t) : option Membership :=
  match e.2 with LifecycleEventKind.Added _ m => Some m | _ => None end.
Definition removed_edge (e : Z * LifecycleEventKind.t) : option Membership :=
  match e.2 with LifecycleEventKind.Removed _ m _ => Some m | _ => None end.

(** The memberships scope [s] announced and withdrew, in order. *)
Definition added (s : nat) (n : list Note) : list Membership := omap added_edge (edges s n).
Definition removed (s : nat) (n : list Note) : list Membership := omap removed_edge (edges s n).

Definition announced_children (c : ScopeCell.t B) : list ResidentChild.t :=
  filter (fun r => ResidentChild.announced r = true) (ScopeCell.current_children c).

Definition membership_in (f : Forest) (r : ResidentChild.t) : option Membership :=
  MemberCell.membership <$> members f !! ResidentChild.member r.

(** The public residents of scope [s]. *)
Definition announced (f : Forest) (s : nat) : list Membership :=
  match scopes f !! s with
  | Some c => omap (membership_in f) (announced_children c)
  | None => []
  end.

Definition stable (f f' : Forest) : Prop :=
  forall m, identity_of <$> members f' !! m = identity_of <$> members f !! m.

Definition paired (f : Forest) (n : list Note) (f' : Forest) : Prop :=
  stable f f' /\ forall s, announced f' s ++ removed s n ≡ₚ announced f s ++ added s n.

Lemma added_app s a b : added s (a ++ b) = added s a ++ added s b.
Proof. unfold added. by rewrite edges_app, omap_app. Qed.
Lemma removed_app s a b : removed s (a ++ b) = removed s a ++ removed s b.
Proof. unfold removed. by rewrite edges_app, omap_app. Qed.
Lemma added_quiet s n : Forall (fun x => is_emitted x = false) n -> added s n = [].
Proof. intros. unfold added. by rewrite edges_quiet. Qed.
Lemma removed_quiet s n : Forall (fun x => is_emitted x = false) n -> removed s n = [].
Proof. intros. unfold removed. by rewrite edges_quiet. Qed.

Lemma membership_stable f f' r : stable f f' -> membership_in f' r = membership_in f r.
Proof.
  intros H. specialize (H (ResidentChild.member r)). unfold membership_in.
  destruct (members f' !! _), (members f !! _); simpl in *; try done. injection H as _ H. by rewrite H.
Qed.

Lemma memberships_stable f f' (l : list ResidentChild.t) :
  stable f f' -> omap (membership_in f') l = omap (membership_in f) l.
Proof.
  intros Hs. apply list_omap_ext. induction l; constructor; [by apply membership_stable|done].
Qed.

Lemma announced_stable f f' s :
  stable f f' -> announced_children <$> scopes f' !! s = announced_children <$> scopes f !! s ->
  announced f' s = announced f s.
Proof.
  intros Hs Hc. unfold announced.
  destruct (scopes f' !! s) as [c'|], (scopes f !! s) as [c|]; simpl in Hc; try done.
  injection Hc as ->. by apply memberships_stable.
Qed.

#[local] Instance ignores_announced : Ignores announced_children.
Proof. by split. Qed.
#[local] Instance ignores_children : Ignores (ScopeCell.current_children (B := B)).
Proof. by split. Qed.

#[local] Instance paired_frame : Frame announced_children paired.
Proof.
  split; [split|].
  - intros f. split; [done|]. intros s. done.
  - intros f n g n' h [Hs H] [Ks K]. split; [intros m; by rewrite Ks|]. intros s.
    rewrite removed_app, added_app. rewrite app_assoc, (Permutation_app_comm (announced h s)), <- app_assoc.
    rewrite K, app_assoc, (Permutation_app_comm _ (announced g s)), H. by rewrite <- app_assoc.
  - intros f n f' (Hc & Hm & Hn). split; [exact Hm|]. intros s.
    by rewrite (removed_quiet s n), (added_quiet s n), (announced_stable f f' s) by done.
Qed.

(** An emission, seen from residency. *)
Lemma emit_residency s k f a n f' :
  (emit_locked s k : Op ()) f = Ret (a, n, f') ->
  stable f f' /\ (forall s', announced f' s' = announced f s') /\
  (forall s', added s' n = if decide (s = s') then option_list (added_edge (0, k)) else []) /\
  (forall s', removed s' n = if decide (s = s') then option_list (removed_edge (0, k)) else []).
Proof.
  intros H. apply emit_inv in H as (c & q & cnt & n1 & n2 & Hc & _ & -> & Hn1 & Hq).
  destruct (Hq _ announced_children _) as (Hs & Hm & Hn2). split; [exact Hm|]. split; [|split].
  - intros s'. apply announced_stable; [exact Hm|]. rewrite Hs. simpl. destruct (decide (s = s')) as [<-|Hne].
    + rewrite lookup_alter_eq. by destruct (scopes f !! s).
    + by rewrite lookup_alter_ne.
  - intros s'. rewrite !added_app, (added_quiet s' n1), (added_quiet s' n2), app_nil_r by done.
    unfold added. rewrite edges_one. case_decide; [|done]. by destruct k.
  - intros s'. rewrite !removed_app, (removed_quiet s' n1), (removed_quiet s' n2), app_nil_r by done.
    unfold removed. rewrite edges_one. case_decide; [|done]. by destruct k.
Qed.

Definition residency_edge (k : LifecycleEventKind.t) : bool :=
  match k with LifecycleEventKind.Added _ _ | LifecycleEventKind.Removed _ _ _ => true | _ => false end.

Lemma paired_emit s k : residency_edge k = false -> respects paired (emit_locked s k : Op ()).
Proof.
  intros Hk f a n f' H. apply emit_residency in H as (Hm & Ha & Had & Hre). split; [exact Hm|].
  intros s'. rewrite Ha, Had, Hre. by destruct k; try done; case_decide.
Qed.

(** ** Clearing and pruning *)

Definition removed_memberships (ks : list LifecycleEventKind.t) : list Membership :=
  omap (fun k => removed_edge (0, k)) ks.

Lemma emit_all_residency s ks f a n f' :
  (emit_all s ks : Op ()) f = Ret (a, n, f') -> Forall (fun k => is_removed k = true) ks ->
  stable f f' /\ (forall s', announced f' s' = announced f s') /\
  (forall s', added s' n = []) /\
  (forall s', removed s' n = if decide (s = s') then removed_memberships ks else []).
Proof.
  revert f n. induction ks as [|k ks IH]; intros f n H Hks; simpl in H.
  { cbv in H. simplify_eq. repeat split; try done. intros s'. by case_decide. }
  inversion Hks as [|? ? Hk Hks']; subst.
  apply bind_inv in H as (u & n1 & f1 & n2 & H1 & H2 & ->).
  apply emit_residency in H1 as (Hm & Ha & Had & Hre). destruct (IH _ _ H2 Hks') as (Hm' & Ha' & Had' & Hre').
  split; [intros m; by rewrite Hm'|]. split; [intros s'; by rewrite Ha'|]. split.
  - intros s'. rewrite added_app, Had, Had'. destruct k; try done. by case_decide.
  - intros s'. rewrite removed_app, Hre, Hre'. case_decide; [|done]. by destruct k.
Qed.

Lemma removals_spec l f ks n f' :
  (removals l : Op _) f = Ret (ks, n, f') ->
  n = [] /\ f' = f /\
  removed_memberships ks = omap (membership_in f) (filter (fun r => ResidentChild.announced r = true) l).
Proof.
  revert f ks n f'. induction l as [|r l IH]; intros f ks n f' H; simpl in H.
  { cbv in H. by simplify_eq. }
  rewrite filter_cons. destruct (ResidentChild.announced r).
  - apply bind_inv in H as (m & n1 & f1 & n2 & H1 & H & ->).
    apply get_member_inv in H1 as (Hr & -> & ->).
    apply bind_inv in H as (ks' & n3 & f3 & n4 & H1 & H & ->).
    apply IH in H1 as (-> & -> & Hk). cbv [mret op_ret] in H. simplify_eq.
    split; [done|]. split; [done|]. rewrite decide_True by done. unfold removed_memberships in *. simpl.
    unfold membership_in at 1. rewrite Hr. simpl. by f_equal.
  - apply IH in H as (-> & -> & Hk). done.
Qed.

(** Replacing a scope's children. *)
Lemma modify_children_inv s g f a n f' :
  (modify_scope s g : Op ()) f = Ret (a, n, f') ->
  n = [] /\ members f' = members f /\ scopes f' = alter g s (scopes f).
Proof. intros H. cbv [modify_scope] in H. by simplify_eq. Qed.

Lemma announced_modified (f f' : Forest) s c l :
  scopes f !! s = Some c -> members f' = members f ->
  scopes f' = alter (ScopeCell.set_children l) s (scopes f) ->
  announced f' s = omap (membership_in f) (filter (fun r => ResidentChild.announced r = true) l) /\
  forall s', s' <> s -> announced f' s' = announced f s'.
Proof.
  intros Hc Hm Hs. unfold announced, membership_in. rewrite Hs, Hm. split.
  - by rewrite lookup_alter_eq, Hc.
  - intros s' Hne. by rewrite lookup_alter_ne.
Qed.

Lemma paired_clear s : respects paired (clear_residents_locked s : Op ()).
Proof.
  intros f a n f' H. unfold clear_residents_locked in H.
  apply bind_inv in H as (c & n1 & f1 & n2 & H1 & H & ->). apply get_scope_inv in H1 as (Hc & -> & ->).
  apply bind_inv in H as (u & n1 & f1 & n3 & H1 & H & ->).
  apply modify_children_inv in H1 as (-> & Hm1 & Hs1).
  destruct (announced_modified f f1 s c [] Hc Hm1 Hs1) as [Ha1 Ho1].
  apply bind_inv in H as (u2 & n1 & f2 & n4 & H2 & H & ->).
  apply (frame_severs announced_children (quiet announced_children)) in H2 as (Hc2 & Hm2 & Hn2).
  apply bind_inv in H as (ks & n5 & f3 & n6 & H3 & H & ->).
  pose proof (removals_removed _ _ _ _ _ H3) as Hks. apply removals_spec in H3 as (-> & -> & Hk).
  apply bind_inv in H as (u3 & n5 & f3 & n7 & H3 & H & ->). cbv [note] in H3. simplify_eq.
  apply emit_all_residency in H as (Hm4 & Ha4 & Had & Hre); [|done].
  assert (stable f f3) as Hst.
  { intros m. rewrite Hm2, Hm1. done. }
  split; [intros m; by rewrite Hm4, Hst|]. intros s'. rewrite !removed_app, !added_app, Had, Hre, Ha4.
  rewrite (removed_quiet s' n1), (added_quiet s' n1) by done.
  rewrite (announced_stable f1 f3 s') by done. cbn [app].
  destruct (decide (s = s')) as [<-|Hne].
  - rewrite Ha1, Hk. simpl. rewrite app_nil_r. unfold announced. rewrite Hc.
    unfold announced_children. by rewrite (memberships_stable f f3).
  - by rewrite Ho1.
Qed.

(** Removing one resident removes its membership, if it was announced. *)
Lemma announced_delete (f : Forest) l i r :
  l !! i = Some r ->
  omap (membership_in f) (filter (fun r => ResidentChild.announced r = true) l) ≡ₚ
  omap (membership_in f) (filter (fun r => ResidentChild.announced r = true) (delete i l)) ++
  (if ResidentChild.announced r then option_list (membership_in f r) else []).
Proof.
  intros Hi. rewrite (delete_Permutation l i r Hi) at 1. rewrite filter_cons.
  destruct (ResidentChild.announced r); simpl; [|by rewrite app_nil_r].
  destruct (membership_in f r); simpl; [|by rewrite app_nil_r].
  by rewrite Permutation_app_comm.
Qed.

Lemma alter_set_children (f : Forest) s c g :
  scopes f !! s = Some c ->
  alter (fun c => ScopeCell.set_children (g (ScopeCell.current_children c)) c) s (scopes f) =
  alter (ScopeCell.set_children (g (ScopeCell.current_children c))) s (scopes f).
Proof.
  intros Hc. apply map_eq. intros k. destruct (decide (k = s)) as [->|Hk].
  - by rewrite !lookup_alter_eq, Hc.
  - by rewrite !lookup_alter_ne.
Qed.

Lemma paired_prune s m : respects paired (prune_child_locked s m : Op bool).
Proof.
  intros f a n f' H. unfold prune_child_locked in H.
  apply bind_inv in H as (mc & n1 & f1 & n2 & H1 & H & ->). apply get_member_inv in H1 as (Hmc & -> & ->).
  apply bind_inv in H as (found & n1 & f1 & n3 & H1 & H & ->).
  apply bind_Ret_inv in H1 as (c & Hc & H1). apply expect_inv in Hc. injection H1 as <- <- <-.
  destruct (find_resident f (ScopeCell.current_children c) (MemberCell.membership mc))
    as [[i r]|] eqn:Ef; [|cbv in H; simplify_eq; apply rel_refl].
  apply list_find_Some in Ef as (Hi & Hr & _).
  apply bind_inv in H as (u & n1 & f2 & n4 & H1 & H & ->).
  apply modify_children_inv in H1 as (-> & Hm1 & Hs1). rewrite (alter_set_children f s c) in Hs1 by done.
  destruct (announced_modified f f2 s c _ Hc Hm1 Hs1) as [Ha1 Ho1].
  apply bind_inv in H as (u2 & n1 & f3 & n5 & H2 & H & ->).
  apply (frame_sever announced_children (quiet announced_children)) in H2 as (Hc2 & Hm2 & Hn2).
  apply bind_inv in H as (rm & n6 & f4 & n7 & H3 & H & ->). apply get_member_inv in H3 as (Hrm & -> & ->).
  apply bind_inv in H as (u3 & n6 & f4 & n8 & H3 & H & ->). cbv [note] in H3. injection H3 as <- <- <-.
  apply bind_inv in H as (u4 & n6 & f4 & n9 & H3 & H & ->). cbv [mret op_ret] in H. injection H as <- <- <-.
  assert (stable f f3) as Hst by (intros k; by rewrite Hm2, Hm1).
  assert (stable f3 f4 /\ (forall s', announced f4 s' = announced f3 s') /\
    (forall s', added s' n6 = []) /\
    (forall s', removed s' n6 = if decide (s = s') then
       if ResidentChild.announced r then [MemberCell.membership mc] else [] else []))
    as (Hm4 & Ha4 & Had & Hre).
  { destruct (ResidentChild.announced r).
    - apply emit_residency in H3 as (? & ? & Had & Hre). split; [done|]. split; [done|].
      split; [intros s'; rewrite Had; by case_decide|]. intros s'. rewrite Hre. by case_decide.
    - cbv [mret op_ret] in H3. simplify_eq. repeat split. intros s'. by case_decide. }
  split; [intros k; by rewrite Hm4, Hst|]. intros s'. rewrite !removed_app, !added_app, Had, Hre, Ha4.
  rewrite (removed_quiet s' n1), (added_quiet s' n1) by done.
  rewrite (announced_stable f2 f3 s') by done. cbn [app].
  destruct (decide (s = s')) as [<-|Hne].
  - rewrite Ha1. unfold announced, announced_children. rewrite Hc, (announced_delete f _ i r Hi).
    unfold membership_in at 3. rewrite Hr. destruct (ResidentChild.announced r); simpl; by rewrite ?app_nil_r.
  - by rewrite Ho1.
Qed.

(** ** Admission *)

(** The part of an admission between the push and the verdict. *)
Definition admission_attempt (s : nat) (child : ResidentProjection.t) (gate : nat) : Op bool :=
  match ResidentProjection.scope child with
  | Some n =>
      admitted ← admit_observation_gate n s gate;
      _ ← (if (admitted : bool) then set_parent n s else mret ());
      mret admitted
  | None => admit_attempt (ResidentProjection.member child) None gate
  end.

Lemma admission_attempt_quiet s child gate :
  respects (quiet (ScopeCell.current_children (B := B))) (admission_attempt s child gate).
Proof.
  unfold admission_attempt.
  walk_op (ScopeCell.current_children (B := B))
    (quiet (M := M) (T := T) (F := F) (ScopeCell.current_children (B := B))) fail.
Qed.

(** After the push, the scope's own new resident sits last, unannounced. *)
Lemma push_inv s child f slot n f' :
  (push_unannounced s child : Op _) f = Ret (slot, n, f') ->
  exists mc c, members f !! ResidentProjection.member child = Some mc /\ scopes f !! s = Some c /\
    slot = ResidentSlot.mk s (length (ScopeCell.current_children c)) (MemberCell.membership mc) /\
    n = [] /\ members f' = members f /\
    scopes f' = alter (ScopeCell.set_children
                  (ScopeCell.current_children c ++ [ResidentChild.new child])) s (scopes f).
Proof.
  intros H. unfold push_unannounced, membership_of in H.
  apply bind_inv in H as (mm & n1 & f1 & n2 & H1 & H & ->).
  apply bind_inv in H1 as (mc & n3 & f3 & n4 & H1 & H2 & ->). apply get_member_inv in H1 as (Hmc & -> & ->).
  cbv [mret op_ret] in H2. injection H2 as <- <- <-.
  apply bind_inv in H as (c & n3 & f3 & n4 & H1 & H & ->). apply get_scope_inv in H1 as (Hc & -> & ->).
  apply bind_inv in H as (u & n3 & f3 & n5 & H1 & H & ->).
  apply modify_children_inv in H1 as (-> & Hm & Hs). cbv [mret op_ret] in H. injection H as <- <- <-.
  exists mc, c. split; [done|]. split; [done|]. split; [done|]. split; [done|]. split; [done|].
  rewrite Hs. by apply (alter_set_children f s c (fun l => l ++ [ResidentChild.new child])).
Qed.

Lemma unannounced_last (f : Forest) l p :
  omap (membership_in f) (filter (fun r => ResidentChild.announced r = true) (l ++ [ResidentChild.new p])) =
  omap (membership_in f) (filter (fun r => ResidentChild.announced r = true) l).
Proof. rewrite filter_app. simpl. by rewrite app_nil_r. Qed.

(** Both verdicts, from a forest in which the pushed resident is last. *)
Section verdict.
Context (s : nat) (child : ResidentProjection.t) (l : list ResidentChild.t) (mm : Membership).
Context (f : Forest) (c : ScopeCell.t B).
Context (Hc : scopes f !! s = Some c).
Context (Hl : ScopeCell.current_children c = l ++ [ResidentChild.new child]).
Context (Hmm : membership_in f (ResidentChild.new child) = Some mm).
Let slot := ResidentSlot.mk s (length l) mm.

Lemma pushed_holds b n f' : (slot_holds slot : Op _) f = Ret (b, n, f') -> b = true /\ n = [] /\ f' = f.
Proof using Hc Hl Hmm.
  unfold slot_holds. simpl. rewrite Hc. simpl. rewrite Hl, list_lookup_middle by done.
  unfold membership_in in Hmm. rewrite Hmm. rewrite bool_decide_eq_true_2 by done. intros H. by simplify_eq.
Qed.

Lemma withdraw_inv r n f' :
  (withdraw slot : Op _) f = Ret (r, n, f') ->
  n = [] /\ members f' = members f /\ scopes f' = alter (ScopeCell.set_children l) s (scopes f).
Proof using Hc Hl Hmm.
  intros H. unfold withdraw in H. apply bind_inv in H as (b & n1 & f1 & n2 & H1 & H & ->).
  apply pushed_holds in H1 as (-> & -> & ->).
  apply bind_inv in H as (c' & n1 & f1 & n3 & H1 & H & ->). apply get_scope_inv in H1 as (Hc' & -> & ->).
  simpl in Hc'. rewrite Hc in Hc'. injection Hc' as <-.
  apply bind_inv in H as (u & n1 & f1 & n4 & H1 & H & ->).
  apply modify_children_inv in H1 as (-> & Hm & Hs). cbv [mret op_ret] in H. injection H as <- <- <-.
  split; [done|]. split; [done|]. rewrite Hs. simpl. by rewrite Hl, removelast_last.
Qed.

Lemma announce_inv b n f' :
  (announce slot : Op _) f = Ret (b, n, f') ->
  b = true /\ n = [] /\ members f' = members f /\
  scopes f' = alter (ScopeCell.set_children (l ++ [ResidentChild.mk child true])) s (scopes f).
Proof using Hc Hl Hmm.
  intros H. unfold announce in H. apply bind_inv in H as (b' & n1 & f1 & n2 & H1 & H & ->).
  apply pushed_holds in H1 as (-> & -> & ->).
  apply bind_inv in H as (u & n1 & f1 & n4 & H1 & H & ->).
  apply modify_children_inv in H1 as (-> & Hm & Hs). cbv [mret op_ret] in H. injection H as <- <- <-.
  split; [done|]. split; [done|]. split; [done|]. rewrite Hs. simpl.
  rewrite (alter_set_children f s c) by done. rewrite Hl.
  by rewrite alter_app_r_alt, Nat.sub_diag by done.
Qed.
End verdict.

(** The part of an admission after the verdict. *)
Definition admission_verdict (s : nat) (child : ResidentProjection.t) (slot : ResidentSlot.t)
    (admitted : bool) : Op bool :=
  if negb admitted then
    '(rejected, own) ← withdraw slot;
    _ ← note (DisposeResidents (ResidentChild.new child :: option_list rejected));
    _ ← notes (if (own : bool) then [] else [DeferPanic "refusal removes the admission-local resident"]);
    mret false
  else
    mc ← get_member (ResidentProjection.member child);
    announced ← announce slot;
    if negb announced then
      _ ← notes [DisposeResidents [ResidentChild.new child];
                 DeferPanic "success announces the admission-local resident"];
      mret false
    else
      _ ← emit_locked s (LifecycleEventKind.Added (MemberCell.id mc) (MemberCell.membership mc));
      mret true.

Lemma admit_child_locked_parts s child :
  admit_child_locked s child =
  (slot ← push_unannounced s child;
   c ← get_scope s;
   gate ← gate_of (ScopeCell.member c);
   admitted ← admission_attempt s child gate;
   admission_verdict s child slot admitted : Op bool).
Proof. reflexivity. Qed.

Lemma verdict_inv s child l mm f c admitted a n f' :
  scopes f !! s = Some c -> ScopeCell.current_children c = l ++ [ResidentChild.new child] ->
  membership_in f (ResidentChild.new child) = Some mm ->
  (admission_verdict s child (ResidentSlot.mk s (length l) mm) admitted) f = Ret (a, n, f') ->
  stable f f' /\ (forall s', s' <> s -> announced f' s' = announced f s') /\
  announced f' s = omap (membership_in f) (filter (fun r => ResidentChild.announced r = true) l)
                   ++ (if admitted then [mm] else []) /\
  (forall s', removed s' n = []) /\
  (forall s', added s' n = if decide (s = s') then if admitted then [mm] else [] else []).
Proof.
  intros Hc Hl Hmm H. destruct admitted; simpl in H.
  - apply bind_inv in H as (mc & n1 & f1 & n2 & H1 & H & ->). apply get_member_inv in H1 as (Hmc & -> & ->).
    assert (MemberCell.membership mc = mm) as <-.
    { unfold membership_in, ResidentChild.member in Hmm; simpl in Hmm. rewrite Hmc in Hmm. by injection Hmm. }
    apply bind_inv in H as (b & n1 & f1 & n3 & H1 & H & ->).
    apply (announce_inv s child l _ f c Hc Hl Hmm) in H1 as (-> & -> & Hm1 & Hs1). simpl in H.
    apply bind_inv in H as (u & n1 & f2 & n4 & H1 & H & ->). cbv [mret op_ret] in H. injection H as <- <- <-.
    apply emit_residency in H1 as (Hst & Ha & Had & Hre).
    destruct (announced_modified f f1 s c _ Hc Hm1 Hs1) as [Ha1 Ho1].
    split; [intros k; by rewrite Hst, Hm1|]. split; [intros s' Hne; by rewrite Ha, Ho1|]. split.
    + rewrite Ha, Ha1, filter_app, omap_app. simpl. change (membership_in f (ResidentChild.mk child true))
        with (membership_in f (ResidentChild.new child)). by rewrite Hmm.
    + rewrite !app_nil_r. split; intros s'; [rewrite Hre|rewrite Had]; by case_decide.
  - apply bind_inv in H as ([rej own] & n1 & f1 & n2 & H1 & H & ->).
    apply (withdraw_inv s child l _ f c Hc Hl Hmm) in H1 as (-> & Hm1 & Hs1).
    destruct (announced_modified f f1 s c _ Hc Hm1 Hs1) as [Ha1 Ho1].
    cbv [note notes mret op_ret mbind op_bind outcome_bind] in H. simplify_eq.
    split; [intros k; by rewrite Hm1|]. split; [done|]. split; [by rewrite Ha1, app_nil_r|].
    split; intros s'; [destruct own; done|]. destruct own; by case_decide.
Qed.

(** What one admission does to the public residents. *)
Lemma paired_admit s child : respects paired (admit_child_locked s child : Op bool).
Proof.
  intros f a n f' H. rewrite admit_child_locked_parts in H.
  apply bind_inv in H as (slot & n1 & f1 & n2 & H1 & H & ->).
  apply push_inv in H1 as (mc & c & Hmc & Hc & -> & -> & Hm1 & Hs1).
  apply bind_inv in H as (c1 & n1 & g1 & n3 & H1 & H & ->). apply get_scope_inv in H1 as (Hc1 & -> & ->).
  apply bind_inv in H as (gate & n1 & g1 & n4 & H1 & H & ->). apply reads_gate_of in H1 as [-> ->].
  apply bind_inv in H as (admitted & n1 & f2 & n5 & H1 & H & ->).
  apply admission_attempt_quiet in H1 as (Hk2 & Hid2 & Hn1).
  assert (stable f f2) as Hst by (intros k; by rewrite Hid2, Hm1).
  rewrite Hs1, lookup_alter_eq, Hc in Hc1. injection Hc1 as <-.
  pose proof (Hk2 s) as Hks. rewrite Hs1, lookup_alter_eq, Hc in Hks. simpl in Hks.
  destruct (scopes f2 !! s) as [c2|] eqn:Hc2; [|done]. simpl in Hks. injection Hks as Hl.
  assert (membership_in f2 (ResidentChild.new child) = Some (MemberCell.membership mc)) as Hmm.
  { rewrite (membership_stable f f2) by done. unfold membership_in, ResidentChild.member; simpl. by rewrite Hmc. }
  assert (forall s', s' <> s -> announced f2 s' = announced f s') as Hother.
  { intros s' Hne. apply announced_stable; [done|]. specialize (Hk2 s').
    rewrite Hs1, lookup_alter_ne in Hk2 by done. unfold announced_children.
    destruct (scopes f2 !! s'), (scopes f !! s'); simpl in *; try done. by injection Hk2 as ->. }
  eapply verdict_inv in H as (Hst' & Ho' & Ha' & Hre & Had); [|done|done|done].
  split; [intros k; by rewrite Hst', Hst|]. intros s'.
  rewrite !removed_app, !added_app, Hre, Had, (removed_quiet s' n1), (added_quiet s' n1) by done.
  destruct (decide (s = s')) as [<-|Hne].
  - rewrite Ha', (memberships_stable f f2) by done. unfold announced, announced_children. rewrite Hc. simpl. by rewrite !app_nil_r.
  - by rewrite Ho', Hother by done.
Qed.

Lemma paired_admit_all s l : respects paired (admit_all s l : Op bool).
Proof.
  induction l; simpl; walk_op announced_children paired ltac:(apply paired_admit || assumption).
Qed.

Lemma paired_run_op o : op_ok o = true -> respects paired (run_op o).
Proof.
  intros Ho.
  assert (forall s k, incarnation_edge k = true -> respects paired (emit_locked s k : Op ())) as He.
  { intros s k Hk. apply paired_emit. by destruct k. }
  destruct o; simpl in Ho; try (apply andb_true_iff in Ho as [Ho1 Ho2]);
    walk_op announced_children paired
      ltac:(first [apply paired_clear | apply paired_prune | apply paired_admit | apply paired_admit_all
                  | by apply paired_emit | by apply He]).
Qed.

(** C18: residency and its edges pair exactly: over any sequence of operations
    on the tree, the memberships a scope announced, less those it withdrew, are
    the public residents it gained; so a membership is withdrawn only if it was
    announced, and every announced resident is still resident or was withdrawn
    once. *)
Theorem added_removed_paired ops (f : Forest) rs f' s :
  Forall (fun o => op_ok o = true) ops ->
  run_ops scope_exec f ops = Ret (rs, f') ->
  announced f' s ++ removed s (trace rs) ≡ₚ announced f s ++ added s (trace rs).
Proof.
  intros Hok H. exact (proj2 (run_respects paired op_ok paired_run_op ops f rs f' Hok H) s).
Qed.
End residency.
