(* ===== verification/ScopeControlProps.v ===== *)
(** * Scope cells: the control plane

    Shutdown requests against scope epochs: what is recorded stays recorded
    until its epoch is over, and is consumed at most once. *)

From S2P Require Import Prelude Identity Exit Policy Restart Epochs Lifecycle Gate Watch.
From S2P Require Import Member Snapshot LifecycleHub Scope ScopeLogic ScopeProps.

(** ** Single scopes *)

(** The epoch a request addresses now: the live one, or the next. *)
Definition next_epoch (last : option Epoch) : Epoch := match last with Some e => e + 1 | None => FIRST end.

Definition addressed (s : ScopeEpochs) : Epoch :=
  match s with Live current _ => current | Idle last => next_epoch last end.

Definition epochs_ok (s : ScopeEpochs) : Prop :=
  match s with
  | Live current last => current = next_epoch last /\ from_option (Z.le 1) True last
  | Idle last => from_option (Z.le 1) True last
  end.

Record control_ok (k : ScopeControl.t) : Prop := mkControlOk
  { ok_epochs : epochs_ok (ScopeControl.epochs k);
    ok_shutdown r : ScopeControl.shutdown k = Some r ->
      ScopeRequest.epoch r = addressed (ScopeControl.epochs k) }.

(** [k'] keeps what [k] promised: finished epochs stay finished, and a recorded
    shutdown request stays recorded, consumed if it was, until its epoch is
    finished. *)
Record keeps (k k' : ScopeControl.t) : Prop := mkKeeps
  { keeps_ok : control_ok k';
    keeps_finished e : finished (ScopeControl.epochs k) e = true ->
      finished (ScopeControl.epochs k') e = true;
    keeps_request r : ScopeControl.shutdown k = Some r ->
      (exists r', ScopeControl.shutdown k' = Some r' /\ ScopeRequest.epoch r' = ScopeRequest.epoch r /\
         (ScopeRequest.consumed r = true -> ScopeRequest.consumed r' = true)) \/
      finished (ScopeControl.epochs k') (ScopeRequest.epoch r) = true }.

Lemma keeps_refl k : control_ok k -> keeps k k.
Proof. intros. split; [done|done|]. eauto 6. Qed.

Lemma keeps_trans k k' k'' : keeps k k' -> keeps k' k'' -> keeps k k''.
Proof.
  intros [? h2 h3] [? h5 h6]. split; [done|auto|]. intros r Hr.
  destruct (h3 r Hr) as [(r' & Hr' & He & Hc)|Hf]; [|auto].
  destruct (h6 r' Hr') as [(r'' & Hr'' & He' & Hc')|Hf]; [|right; congruence].
  left. exists r''. split; [done|]. split; [congruence|auto].
Qed.

Lemma epoch_after_Ret last e : epoch_after last = Ret e -> e = next_epoch last.
Proof.
  unfold epoch_after. destruct last as [l|]; [|intros; by simplify_eq].
  unfold epoch_successor. intros H. by apply successor_Ret in H as [-> _].
Qed.

Lemma finished_next last e : finished (Idle last) e = true -> e < next_epoch last.
Proof. destruct last as [l|]; simpl; [|done]. unfold is_some_and. intros H%Z.geb_le. lia. Qed.

(** A control whose epochs change only by minting, finishing or vacating. *)
Lemma keeps_begin k e epochs :
  control_ok k -> begin (ScopeControl.epochs k) = Ret (Some e, epochs) ->
  keeps k (ScopeControl.set_epochs epochs k).
Proof.
  intros [h1 h2] H. destruct (ScopeControl.epochs k) as [last|cur last] eqn:E; [|done]. simpl in H.
  apply bind_Ret_inv in H as (cur & Hc & H). apply epoch_after_Ret in Hc as ->.
  apply bind_Ret_inv in H as (? & _ & H). simplify_eq. split; simpl.
  - split; simpl; [by split|]. intros r Hr. specialize (h2 r Hr). done.
  - intros e'. by rewrite E.
  - eauto 6.
Qed.

Lemma keeps_finish k e epochs :
  control_ok k -> finish (ScopeControl.epochs k) e = Ret (true, epochs) ->
  keeps k (ScopeControl.mk epochs (expire e (ScopeControl.shutdown k))
             (expire e (ScopeControl.force k)) (ScopeControl.events k)).
Proof.
  intros [h1 h2] H. destruct (ScopeControl.epochs k) as [last|cur last] eqn:E; [done|]. simpl in H.
  destruct (Z.eqb_spec cur e) as [->|]; [|done]. apply bind_Ret_inv in H as (? & Hf & H). simplify_eq.
  simpl in h1. destruct h1 as [-> Hl].
  assert (1 <= next_epoch last) as Hpos by (destruct last; simpl in *; unfold FIRST; lia).
  split; simpl.
  - split; simpl; [done|]. intros r Hr. unfold expire in Hr. destruct (ScopeControl.shutdown k) as [r0|]; [|done].
    specialize (h2 r0 eq_refl). simpl in h2. destruct (Z.leb_spec (ScopeRequest.epoch r0) (next_epoch last)); [done|lia].
  - intros e' He. rewrite E in He. simpl in He. apply (finished_next last) in He.
    unfold is_some_and. apply Z.geb_le. lia.
  - intros r Hr. right. specialize (h2 r Hr). simpl in h2. unfold is_some_and. apply Z.geb_le. lia.
Qed.

Lemma keeps_vacate k e epochs :
  control_ok k -> vacate (ScopeControl.epochs k) e = Ret (true, epochs) ->
  keeps k (ScopeControl.set_shutdown None (ScopeControl.set_epochs epochs k)).
Proof.
  intros [h1 h2] H. destruct (ScopeControl.epochs k) as [last|cur last] eqn:E; [|done]. simpl in H.
  apply bind_Ret_inv in H as (next & Hn & H). apply epoch_after_Ret in Hn as ->.
  destruct (Z.eqb_spec (next_epoch last) e) as [<-|]; simplify_eq. simpl in h1.
  assert (1 <= next_epoch last) as Hpos by (destruct last; simpl in *; unfold FIRST; lia).
  split; simpl.
  - by split; simpl.
  - intros e' He. rewrite E in He. apply finished_next in He. unfold is_some_and. apply Z.geb_le. lia.
  - intros r Hr. right. specialize (h2 r Hr). simpl in h2. unfold is_some_and. apply Z.geb_le. lia.
Qed.

Lemma vacate_pending k r :
  control_ok k -> pending_shutdown k = Some r ->
  forall b epochs, vacate (ScopeControl.epochs k) (ScopeRequest.epoch r) = Ret (b, epochs) -> b = true.
Proof.
  intros [h1 h2] Hp b epochs H. unfold pending_shutdown in Hp.
  destruct (ScopeControl.shutdown k) as [r0|] eqn:Er; [|done].
  destruct (negb (ScopeRequest.consumed r0) && _) eqn:Eb; [|done]. injection Hp as ->.
  apply andb_true_iff in Eb as [_ Eb]. specialize (h2 r eq_refl).
  destruct (ScopeControl.epochs k) as [last|cur last]; [|done]. simpl in *.
  apply bind_Ret_inv in H as (next & Hn & H). apply epoch_after_Ret in Hn as ->.
  rewrite h2, Z.eqb_refl in H. by simplify_eq.
Qed.

Lemma keeps_request_shutdown k t :
  control_ok k -> request_target (ScopeControl.epochs k) = Ret t ->
  match ScopeControl.shutdown k with Some r => ScopeRequest.epoch r <? epoch t | None => true end = true ->
  keeps k (ScopeControl.set_shutdown (Some (ScopeRequest.mk (epoch t) false)) k).
Proof.
  intros [h1 h2] Ht Hp.
  assert (epoch t = addressed (ScopeControl.epochs k)) as He.
  { destruct (ScopeControl.epochs k) as [last|cur last]; simpl in *; [|by simplify_eq].
    apply bind_Ret_inv in Ht as (e & Ha & Ht). apply epoch_after_Ret in Ha as ->. by simplify_eq. }
  split; simpl.
  - split; simpl; [done|]. intros r Hr. by simplify_eq.
  - done.
  - intros r Hr. rewrite Hr in Hp. apply Z.ltb_lt in Hp. specialize (h2 r Hr). lia.
Qed.

Lemma keeps_take k r :
  control_ok k -> ScopeControl.shutdown k = Some r ->
  keeps k (ScopeControl.set_shutdown (Some (ScopeRequest.mk (ScopeRequest.epoch r) true)) k).
Proof.
  intros [h1 h2] Hr. split; simpl; [|done|].
  - split; simpl; [done|]. intros r' Hr'. simplify_eq/=. auto.
  - intros r' Hr'. left. eexists. split; [done|]. simplify_eq. done.
Qed.

Lemma keeps_same k k' :
  control_ok k -> ScopeControl.epochs k' = ScopeControl.epochs k ->
  ScopeControl.shutdown k' = ScopeControl.shutdown k -> keeps k k'.
Proof.
  intros [h1 h2] He Hs. split; rewrite ?He, ?Hs; [|done|eauto 6]. split; rewrite ?He, ?Hs; done.
Qed.

(** ** The forest *)

Section control.
Context {M T F B R : Type} `{!MailboxControl M T F} `{!Broadcast LifecycleEvent.t B R}.
Local Abbreviation Forest := (Forest M B).
Local Abbreviation Note := (Note T F).
Local Abbreviation Op := (@Op M T F B).

Definition request_plane (c : ScopeCell.t B) : ScopeEpochs * option ScopeRequest.t :=
  (ScopeControl.epochs (ScopeCell.control c), ScopeControl.shutdown (ScopeCell.control c)).

#[local] Instance ignores_plane : Ignores request_plane.
Proof. by split. Qed.

Definition keeping (f : Forest) (n : list Note) (f' : Forest) : Prop :=
  forall s c, scopes f !! s = Some c -> control_ok (ScopeCell.control c) ->
    exists c', scopes f' !! s = Some c' /\ keeps (ScopeCell.control c) (ScopeCell.control c').

#[local] Instance keeping_frame : Frame request_plane keeping.
Proof.
  split; [split|].
  - intros f s c Hc Hok. eauto using keeps_refl.
  - intros f n g n' h H K s c Hc Hok. destruct (H s c Hc Hok) as (c1 & Hc1 & K1).
    destruct (K s c1 Hc1 (keeps_ok _ _ K1)) as (c2 & Hc2 & K2). eauto using keeps_trans.
  - intros f n f' (Hs & _ & _) s c Hc Hok. specialize (Hs s). rewrite Hc in Hs. simpl in Hs.
    destruct (scopes f' !! s) as [c'|]; [|done]. injection Hs as H1 H2.
    exists c'. split; [done|]. by apply keeps_same.
Qed.

Lemma keeping_emit s k : respects keeping (emit_locked s k : Op ()).
Proof.
  intros f a n f' H. apply emit_inv in H as (c & q & cnt & n1 & n2 & Hc & _ & -> & Hn1 & Hq).
  destruct (Hq _ request_plane _) as (Hs & Hm & _).
  intros s' c' Hc' Hok. specialize (Hs s'). simpl in Hs.
  assert (request_plane <$> scopes f' !! s' = Some (request_plane c')) as He.
  { rewrite Hs. destruct (decide (s = s')) as [<-|Hne].
    - by rewrite lookup_alter_eq, Hc'.
    - by rewrite lookup_alter_ne, Hc'. }
  destruct (scopes f' !! s') as [c2|]; [|done]. injection He as H1 H2.
  exists c2. split; [done|]. by apply keeps_same.
Qed.

(** An operation started where scope [s] is [c]. *)
Definition keeping_at {A} (s : nat) (c : ScopeCell.t B) (m : Op A) : Prop :=
  forall f a n f', scopes f !! s = Some c -> m f = Ret (a, n, f') -> keeping f n f'.

Lemma keeping_get {A} s (k : ScopeCell.t B -> Op A) :
  (forall c, keeping_at s c (k c)) -> respects keeping (get_scope s ≫= k).
Proof.
  intros Hk f a n f' H. apply bind_inv in H as (c & n1 & f1 & n2 & H1 & H & ->).
  apply get_scope_inv in H1 as (Hc & -> & ->). by eapply Hk.
Qed.

Lemma keeping_any {A} s c (m : Op A) : respects keeping m -> keeping_at s c m.
Proof. intros H f a n f' _ E. by eapply H. Qed.

Lemma keeping_read {A C} s c (m : outcome A) (k : A -> Op C) :
  (forall a, m = Ret a -> keeping_at s c (k a)) -> keeping_at s c (lift m ≫= k).
Proof.
  intros Hk f a n f' Hc H. apply bind_inv in H as (b & n1 & f1 & n2 & H1 & H & ->).
  apply bind_Ret_inv in H1 as (b' & Hm & H1). simplify_eq. by eapply Hk.
Qed.

Lemma keeping_write {A} s c g (k : () -> Op A) :
  (control_ok (ScopeCell.control c) -> keeps (ScopeCell.control c) (g (ScopeCell.control c))) ->
  respects keeping (k ()) -> keeping_at s c (update_control s g ≫= k).
Proof.
  intros Hg Hk f a n f' Hc H. apply bind_inv in H as ([] & n1 & f1 & n2 & H1 & H & ->).
  eapply (rel_trans (Rel := keeping)); [|by eapply Hk]. cbv [update_control modify_scope] in H1. simplify_eq.
  intros s' c' Hc' Hok. simpl. destruct (decide (s' = s)) as [->|Hne].
  - rewrite lookup_alter_eq, Hc. simplify_eq. simpl. eexists; split; [done|]. simpl. auto.
  - rewrite lookup_alter_ne by done. eauto using keeps_refl.
Qed.

Lemma keeping_write_last s c g :
  (control_ok (ScopeCell.control c) -> keeps (ScopeCell.control c) (g (ScopeCell.control c))) ->
  keeping_at s c (update_control s g : Op ()).
Proof.
  intros Hg f a n f' Hc H. cbv [update_control modify_scope] in H. simplify_eq.
  intros s' c' Hc' Hok. simpl. destruct (decide (s' = s)) as [->|Hne].
  - rewrite lookup_alter_eq, Hc. simplify_eq. simpl. eexists; split; [done|]. simpl. auto.
  - rewrite lookup_alter_ne by done. eauto using keeps_refl.
Qed.

Lemma keeping_at_bind {A C} s c (m : Op A) (k : A -> Op C) :
  keeping_at s c m -> (forall a, respects keeping (k a)) -> keeping_at s c (m ≫= k).
Proof.
  intros Hm Hk f a n f' Hc H. apply bind_inv in H as (b & n1 & f1 & n2 & H1 & H & ->).
  eapply (rel_trans (Rel := keeping)); [by eapply Hm|by eapply Hk].
Qed.

Ltac kept known := walk_op request_plane keeping known.

Lemma keeping_stop s reason exit : respects keeping (publish_stopped_locked s reason exit : Op ()).
Proof. kept ltac:(apply keeping_emit). Qed.

Lemma keeping_begin s o : respects keeping (begin_incarnation_into s ScopeState.Starting o : Op _).
Proof.
  unfold begin_incarnation_into. do 2 (walk_step; [kept fail|]). apply keeping_get. intros c.
  apply keeping_read. intros _ _. apply keeping_read. intros [[e|] epochs] He.
  - apply keeping_write; [|kept ltac:(apply keeping_emit)]. intros Hok. by eapply keeps_begin.
  - apply keeping_any. walk.
Qed.

Lemma keeping_finish s e reason exit :
  respects keeping (finish_incarnation_with_terminal s e reason exit : Op ()).
Proof.
  unfold finish_incarnation_with_terminal. apply keeping_get. intros c.
  apply keeping_read. intros [[] epochs] He; simpl.
  - apply keeping_write; [|kept ltac:(apply keeping_stop)]. intros Hok. by eapply keeps_finish.
  - apply keeping_any. kept fail.
Qed.

Lemma keeping_request s : respects keeping (request_shutdown s : Op _).
Proof.
  unfold request_shutdown. apply keeping_get. intros c. apply keeping_read. intros t Ht.
  apply keeping_at_bind; [|intros; walk].
  destruct (match ScopeControl.shutdown (ScopeCell.control c) with Some _ => _ | None => _ end) eqn:Ep.
  - apply keeping_write; [|kept fail]. intros Hok. by apply keeps_request_shutdown.
  - apply keeping_any. walk.
Qed.

Lemma keeping_vacate s e : respects keeping (vacate_pending_shutdown s e : Op bool).
Proof.
  unfold vacate_pending_shutdown. apply keeping_get. intros c. cbv zeta.
  destruct (match ScopeControl.shutdown (ScopeCell.control c) with Some _ => _ | None => _ end).
  - apply keeping_read. intros [[] epochs] He.
    + apply keeping_at_bind; [|intros; walk]. apply keeping_write; [|kept fail].
      intros Hok. by eapply keeps_vacate.
    + apply keeping_any. walk.
  - apply keeping_any. apply respects_bind_post with (P := fun x => x.1 = false); [apply _| | |].
    + intros f a n f' H. cbv in H. by simplify_eq.
    + walk.
    + intros [v epochs] Hv. simpl in Hv. subst v. walk.
Qed.

Lemma keeping_start s child i b : respects keeping (start_scope_child s child i b : Op bool).
Proof.
  unfold start_scope_child. apply keeping_get. intros c. apply keeping_at_bind.
  - destruct (pending_shutdown (ScopeCell.control c)) as [r|] eqn:Ep; [|apply keeping_any; walk].
    destruct (negb b); [apply keeping_any; walk|].
    apply keeping_read. intros [v epochs] Hv.
    apply (keeping_write child c (fun k => ScopeControl.set_shutdown None (ScopeControl.set_epochs epochs k)));
      [|walk]. intros Hok. pose proof (vacate_pending _ _ Hok Ep _ _ Hv) as ->. by eapply keeps_vacate.
  - intros go. kept ltac:(apply keeping_emit).
Qed.

Lemma keeping_force s e : respects keeping (force_shutdown s e : Op ()).
Proof. unfold force_shutdown. kept fail. Qed.

Lemma keeping_take slot s e : respects keeping (take_request slot s e : Op bool).
Proof.
  unfold take_request. apply keeping_get. intros c.
  destruct (ScopeControl.get slot (ScopeCell.control c)) as [r|] eqn:Er; [|apply keeping_any; walk].
  destruct ((ScopeRequest.epoch r =? e) && _) eqn:Eb; [|apply keeping_any; walk].
  apply andb_true_iff in Eb as [Hee _]. apply Z.eqb_eq in Hee. subst e.
  apply keeping_write; [|walk]. intros Hok. destruct slot; simpl in *.
  - by apply keeps_take.
  - by apply keeps_same.
Qed.

Lemma keeping_emit_all s l : respects keeping (emit_all s l : Op ()).
Proof. induction l; simpl; kept ltac:(apply keeping_emit || assumption). Qed.
Lemma keeping_admit s p : respects keeping (admit_child_locked s p : Op bool).
Proof. kept ltac:(apply keeping_emit). Qed.
Lemma keeping_admit_all s l : respects keeping (admit_all s l : Op bool).
Proof. induction l; simpl; kept ltac:(apply keeping_admit || assumption). Qed.

Lemma keeping_run_op o : respects keeping (run_op o).
Proof.
  destruct o; kept
    ltac:(first [apply keeping_begin | apply keeping_finish | apply keeping_request | apply keeping_vacate
                | apply keeping_start | apply keeping_force | apply keeping_take | apply keeping_emit
                | apply keeping_emit_all | apply keeping_admit_all]).
Qed.

Lemma keeping_run ops f rs f' :
  run_ops scope_exec f ops = Ret (rs, f') -> keeping f (trace rs) f'.
Proof.
  exact (run_respects keeping (fun _ => true) (fun o _ => keeping_run_op o) ops f rs f'
           ltac:(by apply Forall_true)).
Qed.

(** What a shutdown request leaves on record. *)
Lemma requested s (f : Forest) c e n f1 c1 :
  scopes f !! s = Some c -> control_ok (ScopeCell.control c) ->
  (request_shutdown s : Op _) f = Ret (e, n, f1) -> scopes f1 !! s = Some c1 ->
  exists r, ScopeControl.shutdown (ScopeCell.control c1) = Some r /\ ScopeRequest.epoch r = e.
Proof.
  intros Hc [h1 h2] H Hc1. unfold request_shutdown in H.
  apply bind_inv in H as (c0 & n1 & g & n2 & H1 & H & ->). apply get_scope_inv in H1 as (Hc0 & -> & ->).
  rewrite Hc in Hc0. injection Hc0 as <-.
  apply bind_inv in H as (t & n1 & g & n3 & H1 & H & ->).
  apply bind_Ret_inv in H1 as (t' & Ht & H1). injection H1 as -> <- <-.
  apply bind_inv in H as (u & n1 & g & n4 & H1 & H & ->). cbv [mret op_ret] in H. injection H as <- <- <-.
  destruct (match ScopeControl.shutdown (ScopeCell.control c) with Some _ => _ | None => _ end) eqn:Ep.
  - apply bind_inv in H1 as (u' & n5 & g1 & n6 & H1 & H & ->).
    assert (respects (quiet request_plane)
      (_ ← note (PulseMember (ScopeCell.member c));
       p ← parent s;
       match p with
       | Some p => if pending_incarnation t then
             m ← membership_of (ScopeCell.member c);
             _ ← note (RetainScope p);
             publish_control_event_locked p (ScopeControlEvent.WindowStop m (epoch t))
           else mret ()
       | None => mret ()
       end : Op ())) as Hq.
    { walk_op request_plane (quiet (M := M) (T := T) (F := F) request_plane) fail. }
    apply Hq in H as (Hs & _). specialize (Hs s). rewrite Hc1 in Hs.
    cbv [update_control modify_scope] in H1. simplify_eq/=. rewrite lookup_alter_eq, Hc in Hs. simpl in Hs.
    injection Hs as _ Hs. rewrite Hs. eauto.
  - cbv [mret op_ret] in H1. injection H1 as <- <- <-. rewrite Hc in Hc1. injection Hc1 as <-.
    destruct (ScopeControl.shutdown (ScopeCell.control c)) as [r|]; [|done].
    apply Z.ltb_ge in Ep. exists r. split; [done|]. specialize (h2 r eq_refl).
    destruct (ScopeControl.epochs (ScopeCell.control c)) as [last|cur last]; simpl in *; [|by simplify_eq].
    apply bind_Ret_inv in Ht as (e' & Ha & Ht). apply epoch_after_Ret in Ha as ->. by simplify_eq.
Qed.

(** C19: an accepted shutdown request is never lost: whatever operations follow
    on the tree, the request stays recorded for its epoch until that epoch is
    finished or vacated, which is when its waiters settle. *)
Theorem shutdown_request_never_lost ops (f : Forest) s c f1 e n rs f' :
  scopes f !! s = Some c -> control_ok (ScopeCell.control c) ->
  (request_shutdown s : Op _) f = Ret (e, n, f1) ->
  run_ops scope_exec f1 ops = Ret (rs, f') ->
  exists c', scopes f' !! s = Some c' /\
    (request_targets e (ScopeControl.shutdown (ScopeCell.control c')) = true \/
     finished (ScopeControl.epochs (ScopeCell.control c')) e = true).
Proof.
  intros Hc Hok Hreq Hrun.
  destruct (keeping_request s _ _ _ _ Hreq s c Hc Hok) as (c1 & Hc1 & K1).
  destruct (keeping_run ops f1 rs f' Hrun s c1 Hc1 (keeps_ok _ _ K1)) as (c2 & Hc2 & K2).
  exists c2. split; [done|].
  assert (exists r, ScopeControl.shutdown (ScopeCell.control c1) = Some r /\ ScopeRequest.epoch r = e)
    as (r & Hr & He) by exact (requested s f c e n f1 c1 Hc Hok Hreq Hc1).
  destruct (keeps_request _ _ K2 r Hr) as [(r' & Hr' & He' & _)|Hf]; [left|right; congruence].
  rewrite Hr'. simpl. apply Z.eqb_eq. congruence.
Qed.

(** The scope's request, spent for epoch [e]. *)
Definition spent (e : Epoch) (k : ScopeControl.t) : Prop :=
  finished (ScopeControl.epochs k) e = true \/
  exists r, ScopeControl.shutdown k = Some r /\ ScopeRequest.epoch r = e /\ ScopeRequest.consumed r = true.

Lemma keeps_spent e k k' : keeps k k' -> spent e k -> spent e k'.
Proof.
  intros [h1 h2 h3] [Hf|(r & Hr & He & Hc)]; [left; auto|].
  destruct (h3 r Hr) as [(r' & Hr' & He' & Hc')|Hf]; [|left; congruence].
  right. exists r'. split; [done|]. split; [congruence|auto].
Qed.

Lemma finished_addressed ep e : epochs_ok ep -> finished ep e = true -> e < addressed ep.
Proof.
  destruct ep as [last|cur last]; simpl; [intros _; apply (finished_next last)|].
  intros [-> _] H. by apply (finished_next last).
Qed.

Lemma take_spent s e (f : Forest) c b n f' :
  scopes f !! s = Some c -> control_ok (ScopeCell.control c) -> spent e (ScopeCell.control c) ->
  (take_shutdown_request s e : Op bool) f = Ret (b, n, f') -> b = false.
Proof.
  intros Hc [h1 h2] Hs H. unfold take_shutdown_request, take_request in H.
  apply bind_inv in H as (c0 & n1 & f1 & n2 & H1 & H & ->). apply get_scope_inv in H1 as (Hc0 & -> & ->).
  rewrite Hc in Hc0. injection Hc0 as <-. simpl in H.
  destruct (ScopeControl.shutdown (ScopeCell.control c)) as [r|] eqn:Er; [|cbv in H; by simplify_eq].
  specialize (h2 r eq_refl).
  assert ((ScopeRequest.epoch r =? e) && negb (ScopeRequest.consumed r) = false) as Hf.
  { destruct Hs as [Hf|(r' & Hr' & He & Hcon)].
    - apply finished_addressed in Hf; [|done]. rewrite (proj2 (Z.eqb_neq _ _)) by lia. done.
    - simplify_eq. by rewrite Hcon, andb_false_r. }
  rewrite Hf in H. cbv in H. by simplify_eq.
Qed.

Lemma take_true_spends s e (f : Forest) c n f' :
  scopes f !! s = Some c -> (take_shutdown_request s e : Op bool) f = Ret (true, n, f') ->
  exists c', scopes f' !! s = Some c' /\ spent e (ScopeCell.control c').
Proof.
  intros Hc H. unfold take_shutdown_request, take_request in H.
  apply bind_inv in H as (c0 & n1 & f1 & n2 & H1 & H & ->). apply get_scope_inv in H1 as (Hc0 & -> & ->).
  rewrite Hc in Hc0. injection Hc0 as <-. simpl in H.
  destruct (ScopeControl.shutdown (ScopeCell.control c)) as [r|]; [|by cbv in H; simplify_eq].
  destruct ((ScopeRequest.epoch r =? e) && negb (ScopeRequest.consumed r)); [|by cbv in H; simplify_eq].
  apply bind_inv in H as (u & n3 & f3 & n4 & H1 & H & ->). cbv [mret op_ret] in H. injection H as <- <-.
  cbv [update_control modify_scope] in H1. simplify_eq/=. rewrite lookup_alter_eq, Hc. simpl.
  eexists; split; [done|]. right. simpl. eauto.
Qed.

(** A shutdown request is consumed at most once: after it was taken for an
    epoch, and whatever happens next on the tree, taking it again for that
    epoch finds nothing. *)
Theorem shutdown_request_taken_once ops (f : Forest) s c e n f1 rs f2 b n' f3 :
  scopes f !! s = Some c -> control_ok (ScopeCell.control c) ->
  (take_shutdown_request s e : Op bool) f = Ret (true, n, f1) ->
  run_ops scope_exec f1 ops = Ret (rs, f2) ->
  (take_shutdown_request s e : Op bool) f2 = Ret (b, n', f3) -> b = false.
Proof.
  intros Hc Hok H1 Hrun H2.
  destruct (keeping_take _ s e _ _ _ _ H1 s c Hc Hok) as (c1 & Hc1 & K1).
  destruct (take_true_spends s e f c n f1 Hc H1) as (c1' & Hc1' & Hs). rewrite Hc1 in Hc1'. injection Hc1' as <-.
  destruct (keeping_run ops f1 rs f2 Hrun s c1 Hc1 (keeps_ok _ _ K1)) as (c2 & Hc2 & K2).
  eapply take_spent; [exact Hc2|exact (keeps_ok _ _ K2)|by eapply keeps_spent|exact H2].
Qed.
End control.
