(* ===== verification/ScopeClosed.v ===== *)
(** * Closed streams belong to terminal memberships

    A scope's snapshot and lifecycle streams end only after its membership is
    terminal, so a waiter that meets the end of a stream reads a terminal
    record.  The invariant also pairs every resident's scope with its member. *)

From S2P Require Import Prelude Identity Exit Policy Epochs Restart Lifecycle Mailbox Watch Gate Member MailboxMember Snapshot LifecycleHub.
From S2P Require Import Scope ScopeLogic ScopeProps ScopeResidency ScopeControlProps.

Section closed.
Context {M T F B R : Type} `{!MailboxControl M T F} `{!Broadcast LifecycleEvent.t B R}.
Local Abbreviation Forest := (Forest M B).
Local Abbreviation Note := (Note T F).
Local Abbreviation Op := (@Op M T F B).

Definition terminal (f : Forest) (m : nat) : Prop :=
  exists c, members f !! m = Some c /\ MemberStage.is_terminal (MemberCell.stage c) = true.

Definition closed (c : ScopeCell.t B) : bool := lifecycle_is_closed (ScopeCell.lifecycle c).

(** A projection's scope is the cell of its own member. *)
Definition projection_ok (f : Forest) (p : ResidentProjection.t) : Prop :=
  forall n, ResidentProjection.scope p = Some n ->
    exists c, scopes f !! n = Some c /\ ScopeCell.member c = ResidentProjection.member p.

Record closed_inv (f : Forest) : Prop := mkClosedInv
  { ci_closed s c : scopes f !! s = Some c -> closed c = true -> terminal f (ScopeCell.member c);
    ci_residents s c r : scopes f !! s = Some c -> r ∈ ScopeCell.current_children c ->
      projection_ok f (ResidentChild.projection r);
    ci_unique m m' c c' : members f !! m = Some c -> members f !! m' = Some c' ->
      MemberCell.membership c = MemberCell.membership c' -> m = m' }.

(** What every operation keeps: terminality, identities, and whose cell a
    scope is. *)
Record steady (f f' : Forest) : Prop := mkSteady
  { sd_terminal m : terminal f m -> terminal f' m;
    sd_identity m : identity_of <$> members f' !! m = identity_of <$> members f !! m;
    sd_cells s : ScopeCell.member <$> scopes f' !! s = ScopeCell.member <$> scopes f !! s }.

Lemma steady_refl f : steady f f.
Proof. by split. Qed.
Lemma steady_trans f g h : steady f g -> steady g h -> steady f h.
Proof.
  intros [H1 H2 H3] [K1 K2 K3]. split; [auto| |].
  - intros m. by rewrite K2.
  - intros s. by rewrite K3.
Qed.

Lemma steady_projection f f' p : steady f f' -> projection_ok f p -> projection_ok f' p.
Proof.
  intros [_ _ H] Hp n Hn. destruct (Hp n Hn) as (c & Hc & Hm). specialize (H n). rewrite Hc in H.
  destruct (scopes f' !! n) as [c'|] eqn:E; simplify_eq/=. exists c'. by split; [|congruence].
Qed.

Lemma steady_unique f f' :
  steady f f' ->
  (forall m m' c c', members f !! m = Some c -> members f !! m' = Some c' ->
     MemberCell.membership c = MemberCell.membership c' -> m = m') ->
  forall m m' c c', members f' !! m = Some c -> members f' !! m' = Some c' ->
    MemberCell.membership c = MemberCell.membership c' -> m = m'.
Proof.
  intros [_ H _] U m m' c c' Hc Hc' E. pose proof (H m) as K. pose proof (H m') as K'.
  rewrite Hc in K. rewrite Hc' in K'. unfold identity_of in *.
  destruct (members f !! m) as [d|] eqn:D; [|done]. destruct (members f !! m') as [d'|] eqn:D'; [|done].
  simpl in *. injection K as _ K. injection K' as _ K'. eapply U; [done..|congruence].
Qed.

Definition settling (f : Forest) (_ : list Note) (f' : Forest) : Prop :=
  closed_inv f -> closed_inv f' /\ steady f f'.

#[global] Instance settling_trace : TraceRel settling.
Proof.
  split; [by intros f H; split; [|apply steady_refl]|].
  intros f n g n' h H1 H2 Hf. destruct (H1 Hf) as [Hg S1]. destruct (H2 Hg) as [Hh S2].
  split; [done|by eapply steady_trans].
Qed.

(** ** Primitives *)

Lemma settling_notes l : respects settling (notes l : Op ()).
Proof. intros f a n f' H. cbv in H. simplify_eq. intros Hf. split; [done|apply steady_refl]. Qed.
Lemma settling_note x : respects settling (note x : Op ()).
Proof. apply (settling_notes [x]). Qed.

(** A change of one scope: it may close a terminal scope and add paired
    residents. *)
Lemma settling_alter s g (f : Forest) (n : list Note) :
  (forall c, scopes f !! s = Some c ->
     ScopeCell.member (g c) = ScopeCell.member c /\
     (closed (g c) = true -> closed c = true \/ terminal f (ScopeCell.member c)) /\
     (forall r, r ∈ ScopeCell.current_children (g c) ->
        projection_ok f (ResidentChild.projection r) \/
        exists r', r' ∈ ScopeCell.current_children c /\
          ResidentChild.projection r' = ResidentChild.projection r)) ->
  settling f n (mkForest (alter g s (scopes f)) (members f) (gates f) (controls f)).
Proof.
  intros Hg [I1 I2 I3]. set (f' := mkForest _ _ _ _).
  assert (steady f f') as Hs.
  { split; [done..|]. intros s'. simpl. destruct (decide (s' = s)) as [->|Hne].
    - rewrite lookup_alter_eq. destruct (scopes f !! s) as [c|] eqn:E; simpl; [|done].
      by destruct (Hg c eq_refl) as [-> _].
    - by rewrite lookup_alter_ne. }
  split; [|done]. split; [| |by eapply steady_unique].
  - intros s' c' Hl Hcl. simpl in Hl. apply (sd_terminal _ _ Hs).
    apply lookup_alter_Some in Hl as [(<- & c & Hl & ->)|[_ Hl]]; [|by eauto].
    destruct (Hg c Hl) as (-> & Hc & _). destruct (Hc Hcl); [by eauto|done].
  - intros s' c' r Hl Hin. eapply steady_projection; [exact Hs|]. simpl in Hl.
    apply lookup_alter_Some in Hl as [(<- & c & Hl & ->)|[_ Hl]]; [|by eapply I2].
    destruct (Hg c Hl) as (_ & _ & Hr). destruct (Hr r Hin) as [Hp|(r' & Hin' & <-)]; [done|].
    by eapply I2.
Qed.

(** A change that closes nothing and adds no resident. *)
Lemma settling_modify s g :
  (forall c, ScopeCell.member (g c) = ScopeCell.member c) ->
  (forall c, ScopeCell.lifecycle (g c) = ScopeCell.lifecycle c) ->
  (forall c r, r ∈ ScopeCell.current_children (g c) ->
     exists r', r' ∈ ScopeCell.current_children c /\
       ResidentChild.projection r' = ResidentChild.projection r) ->
  respects settling (modify_scope s g : Op ()).
Proof.
  intros Hm Hc Hr f a n f' H. cbv [modify_scope] in H. simplify_eq. apply settling_alter.
  intros c _. unfold closed. rewrite Hm, Hc. by split; [|split]; auto.
Qed.

(** Replacing a member by one that is terminal if it was. *)
Lemma settling_put f m c c' gs cs n :
  members f !! m = Some c ->
  (MemberStage.is_terminal (MemberCell.stage c) = true ->
   MemberStage.is_terminal (MemberCell.stage c') = true) ->
  identity_of c' = identity_of c ->
  settling f n (mkForest (scopes f) (<[m := c']> (members f)) gs cs).
Proof.
  intros Hc Ht Hid [I1 I2 I3].
  assert (steady f (mkForest (scopes f) (<[m := c']> (members f)) gs cs)) as Hs.
  { split; [| |done]; simpl.
    - intros m' (d & Hd & Hdt). simpl. destruct (decide (m' = m)) as [->|Hne].
      + simplify_eq. exists c'. simpl. by rewrite lookup_insert_eq; auto.
      + exists d. simpl. by rewrite lookup_insert_ne.
    - intros m'. destruct (decide (m' = m)) as [->|Hne]; [|by rewrite lookup_insert_ne].
      rewrite lookup_insert_eq, Hc. simpl. by rewrite Hid. }
  split; [|done]. split; [| |by eapply steady_unique].
  - intros s d Hl Hcl. eapply sd_terminal; [exact Hs|by eapply I1].
  - intros s d r Hl Hin. eapply steady_projection; [exact Hs|by eapply I2].
Qed.

Lemma transition_terminal tr c :
  MemberStage.is_terminal (MemberCell.stage c) = true ->
  MemberCell.stage (MemberCell.transition_locked (T := T) (F := F) tr c).2 = MemberCell.stage c.
Proof.
  intros H. unfold MemberCell.transition_locked, MemberRecord.apply_transition.
  unfold MemberCell.stage in *. destruct (MemberRecord.stage (MemberCell.current c)) eqn:E; try done.
Qed.

Lemma settling_transition m tr : respects settling (transition_locked m tr : Op bool).
Proof.
  intros f a n f' H. unfold transition_locked in H.
  apply bind_inv in H as (c & n1 & f1 & n2 & H1 & H2 & ->).
  apply get_member_inv in H1 as (Em & -> & ->).
  pose proof (transition_terminal tr c) as Ht.
  assert (identity_of (MemberCell.transition_locked (T := T) (F := F) tr c).2 = identity_of c) as Hi.
  { unfold MemberCell.transition_locked. by destruct MemberRecord.apply_transition. }
  destruct (MemberCell.transition_locked tr c) as [[ok fx] c'].
  cbv [put_member notes mret op_ret mbind op_bind outcome_bind] in H2. simplify_eq.
  eapply settling_put; [exact Em| |unfold identity_of; congruence]. simpl in Ht. intros Hc. by rewrite Ht.
Qed.

Lemma settling_update m g :
  (forall r, MemberRecord.stage (g r) = MemberRecord.stage r) ->
  respects settling (update_member m g : Op ()).
Proof.
  intros Hg f a n f' H. unfold update_member in H.
  apply bind_inv in H as (c & n1 & f1 & n2 & H1 & H2 & ->).
  apply get_member_inv in H1 as (Em & -> & ->).
  cbv [put_member notes mret op_ret mbind op_bind outcome_bind] in H2; simpl in H2. simplify_eq.
  eapply settling_put; [exact Em| |done]. unfold MemberCell.stage, MemberCell.current. simpl. by rewrite Hg.
Qed.

Lemma terminalized_terminal exit startup c (ms : gmap nat M) :
  MemberStage.is_terminal (MemberCell.stage (MemberCell.terminalize_locked exit startup c ms).1.2) = true.
Proof.
  assert (forall c att, MemberStage.is_terminal
    (MemberCell.stage (MemberCell.publish_terminal exit startup att c ms).1.2) = true) as Hp.
  { intros c' att. unfold MemberCell.publish_terminal.
    destruct MemberRecord.terminalized as [rc p] eqn:E.
    assert (MemberStage.is_terminal (MemberRecord.stage rc) = true) as Hr.
    { unfold MemberRecord.terminalized in E. case_match; by simplify_eq/=. }
    destruct att as [h|]; [|done]. by destruct (MemberCell.terminate_control h ms). }
  unfold MemberCell.terminalize_locked, MemberCell.claim_mailbox.
  destruct (MemberCell.mailbox_slot c); [by rewrite Hp..|].
  destruct (MemberCell.stage c) eqn:E; rewrite ?Hp; [done..|]. simpl. by rewrite E.
Qed.

(** Terminalizing makes terminal. *)
Lemma terminalize_inv m exit startup f a n f' :
  (terminalize_locked m exit startup : Op Exit) f = Ret (a, n, f') ->
  settling f n f' /\ terminal f' m /\ scopes f' = scopes f.
Proof.
  intros H. unfold terminalize_locked in H.
  apply bind_Ret_inv in H as (c0 & Em & H1). apply expect_inv in Em.
  pose proof (terminalized_terminal exit startup c0 (controls f)) as Ht.
  pose proof (terminalize_identity exit startup c0 (controls f)) as Hi.
  destruct MemberCell.terminalize_locked as [[[w fx] c3] ms]. injection H1 as -> <- <-.
  split; [by eapply settling_put|]. split; [|done]. exists c3. simpl. by rewrite lookup_insert_eq.
Qed.

Lemma settling_terminalize m e st : respects settling (terminalize_locked m e st : Op Exit).
Proof. intros f a n f' H. by apply terminalize_inv in H as [H _]. Qed.

Lemma settling_mark m : respects settling (mark_disposal m : Op ()).
Proof.
  intros f a n f' H. unfold mark_disposal in H.
  apply bind_inv in H as (c & n1 & f1 & n2 & H1 & H2 & ->).
  apply get_member_inv in H1 as (Em & -> & ->). cbv [put_member] in H2. simplify_eq.
  by eapply settling_put.
Qed.

Lemma settling_gates f gs : settling f [] (mkForest (scopes f) (members f) gs (controls f)).
Proof. intros [I1 I2 I3]. split; [split; [exact I1|exact I2|exact I3]|by split]. Qed.

Lemma settling_install m p g : respects settling (install_observation_gate_locked m p g : Op ()).
Proof.
  intros f a n f' H. unfold install_observation_gate_locked in H.
  apply bind_Ret_inv in H as (c0 & Hc & H1). case_decide; simplify_eq; [apply settling_gates|].
  apply bind_Ret_inv in H1 as (? & _ & H1). simplify_eq. apply rel_refl.
Qed.

Lemma settling_ancestors s : respects settling (ancestors_locked s : Op _).
Proof. intros f a n f' H. cbv [ancestors_locked] in H. simplify_eq. intros Hf. split; [done|apply steady_refl]. Qed.
#[local] Hint Resolve settling_note settling_notes settling_transition settling_terminalize
  settling_mark settling_install settling_ancestors : scope_rel.

(** The other fields of a scope. *)
Ltac modifies := apply settling_modify; [done|done|by eauto].

(** ** Operations that close nothing *)

Lemma publish_keeps_closed e (h : LifecycleHub B) :
  lifecycle_is_closed (lifecycle_publish e h).2 = lifecycle_is_closed h.
Proof.
  unfold lifecycle_publish. case_match; [done|]. case_match; [done|].
  by destruct (bc_send e (events h)).
Qed.

Lemma settling_publish_event s e : respects settling (publish_event s e : Op ()).
Proof.
  unfold publish_event. intros f a n f' H.
  apply bind_inv in H as (c & n1 & f1 & n2 & H1 & H & ->). apply get_scope_inv in H1 as (Hc & -> & ->).
  pose proof (publish_keeps_closed e (ScopeCell.lifecycle c)) as Hk.
  destruct (lifecycle_publish e (ScopeCell.lifecycle c)) as [ok h].
  apply bind_inv in H as (u & n1 & f1 & n3 & H1 & H & ->).
  refine (rel_trans _ _ _ _ _ _ (settling_notes _ _ _ _ _ H)). cbv [modify_scope] in H1.
  simplify_eq. apply settling_alter. intros c' Hc'. simplify_eq. split; [done|]. split; [|by eauto].
  unfold closed. simpl in *. rewrite Hk. by left.
Qed.
#[local] Hint Resolve settling_publish_event : scope_rel.

Lemma settling_publish_ancestors e i l : respects settling (publish_ancestors e i l : Op _).
Proof. revert e i; induction l as [|a l IH]; intros e i; simpl; walk. Qed.
#[local] Hint Resolve settling_publish_ancestors : scope_rel.

Lemma settling_publish_through s l :
  respects settling (publish_snapshot_chain_through_locked s l : Op ()).
Proof. apply settling_notes. Qed.
#[local] Hint Resolve settling_publish_through : scope_rel.

Lemma settling_publish_chain s : respects settling (publish_snapshot_chain_locked s : Op ()).
Proof. unfold publish_snapshot_chain_locked. walk. Qed.

Lemma settling_emit s k : respects settling (emit_locked s k : Op ()).
Proof. unfold emit_locked, mint_seq. walk. modifies. Qed.
#[local] Hint Resolve settling_publish_chain settling_emit : scope_rel.

Lemma settling_emit_all s l : respects settling (emit_all s l : Op ()).
Proof. induction l; simpl; walk. Qed.

Lemma settling_startup s x : respects settling (set_startup_locked s x : Op ()).
Proof. unfold set_startup_locked. walk; modifies. Qed.

Lemma settling_marks l : respects settling (mark_disposals l : Op ()).
Proof. induction l; simpl; walk. Qed.
#[local] Hint Resolve settling_emit_all settling_startup settling_marks : scope_rel.

Lemma settling_set_state s x l : respects settling (set_state_locked s x l : Op ()).
Proof. unfold set_state_locked. walk. modifies. Qed.

Lemma settling_stop s reason e : respects settling (publish_stopped_locked s reason e : Op ()).
Proof. unfold publish_stopped_locked. walk; modifies. Qed.

Lemma settling_all_share g l : respects settling (all_share g l : Op bool).
Proof. induction l; simpl; walk. Qed.

Lemma settling_evict s m : respects settling (evict_child_identity s m : Op ()).
Proof. unfold evict_child_identity. walk. modifies. Qed.

Lemma settling_control s g : respects settling (update_control s g : Op ()).
Proof. unfold update_control. modifies. Qed.

Lemma settling_sever r : respects settling (sever_parent r : Op ()).
Proof. unfold sever_parent. walk. modifies. Qed.
#[local] Hint Resolve settling_set_state settling_stop settling_all_share settling_evict
  settling_control settling_sever : scope_rel.

Lemma settling_severs l : respects settling (sever_parents l : Op ()).
Proof. induction l; simpl; walk. Qed.

Lemma settling_removals l : respects settling (removals l : Op _).
Proof. induction l; simpl; walk. Qed.

Lemma settling_control_event s e : respects settling (publish_control_event_locked s e : Op ()).
Proof. unfold publish_control_event_locked. walk. Qed.

Lemma settling_membership m : respects settling (membership_of m : Op _).
Proof. unfold membership_of. walk. Qed.
Lemma settling_stage m : respects settling (member_stage m : Op _).
Proof. unfold member_stage. walk. Qed.
#[local] Hint Resolve settling_severs settling_removals settling_control_event settling_membership
  settling_stage : scope_rel.

Lemma settling_adopt_descendants fuel s p g : respects settling (adopt_descendants fuel s p g : Op ()).
Proof.
  revert s; induction fuel as [|fuel IH]; intros s; simpl; [walk|]. walk_step; [walk_step|].
  induction (ScopeCell.current_children a) as [|r l IHl]; walk.
Qed.
#[local] Hint Resolve settling_adopt_descendants : scope_rel.

Lemma settling_admit_attempt m n g : respects settling (admit_attempt m n g : Op bool).
Proof. unfold admit_attempt. walk. Qed.

Lemma settling_set_parent n s : respects settling (set_parent n s : Op ()).
Proof. unfold set_parent. walk. modifies. Qed.
#[local] Hint Resolve settling_admit_attempt settling_set_parent : scope_rel.

Lemma settling_admit_gate n s g : respects settling (admit_observation_gate n s g : Op bool).
Proof. unfold admit_observation_gate. walk. Qed.

Lemma settling_adopt_gate n s g : respects settling (adopt_observation_gate n s g : Op ()).
Proof. unfold adopt_observation_gate. walk. Qed.
#[local] Hint Resolve settling_admit_gate settling_adopt_gate : scope_rel.

Lemma settling_clear s : respects settling (clear_residents_locked s : Op ()).
Proof.
  unfold clear_residents_locked. walk. apply settling_modify; [done|done|].
  intros c r Hr. by apply elem_of_nil in Hr.
Qed.

Lemma settling_prune s m : respects settling (prune_child_locked s m : Op bool).
Proof.
  unfold prune_child_locked. walk. apply settling_modify; [done|done|]. simpl. intros c r Hr.
  exists r. split; [|done]. eapply elem_of_submseteq; [exact Hr|].
  apply sublist_submseteq, sublist_delete.
Qed.
#[local] Hint Resolve settling_clear settling_prune : scope_rel.

(** ** Operations that close *)

(** Closing needs the scope's membership to be terminal. *)
Lemma close_settles s f a n f' :
  (close_observation_locked s : Op ()) f = Ret (a, n, f') ->
  (forall c, scopes f !! s = Some c -> terminal f (ScopeCell.member c)) -> settling f n f'.
Proof.
  intros H Ht. unfold close_observation_locked in H.
  apply bind_inv in H as (c & n1 & f1 & n2 & H1 & H & ->). apply get_scope_inv in H1 as (Hc & -> & ->).
  destruct (lifecycle_is_closed (ScopeCell.lifecycle c)); [by eapply (respects_ret settling) in H|].
  apply bind_inv in H as (u & n1 & f1 & n3 & H1 & H & ->). cbv [note] in H1. simplify_eq.
  destruct (lifecycle_close (ScopeCell.lifecycle c)) as [modified h].
  apply bind_inv in H as (u' & n1 & f2 & n4 & H1 & H & ->).
  cbv [modify_scope notes] in H1, H. simplify_eq. apply settling_alter.
  intros c' Hc'. simplify_eq. split; [done|]. split; [|by eauto]. intros _. right. by apply Ht.
Qed.

Lemma steady_member f f' s c c' :
  steady f f' -> scopes f !! s = Some c -> scopes f' !! s = Some c' ->
  ScopeCell.member c' = ScopeCell.member c.
Proof. intros [_ _ H] Hc Hc'. specialize (H s). rewrite Hc, Hc' in H. by simplify_eq/=. Qed.

(** *** Facts that settling steps keep *)

Definition kept (P : Forest -> Prop) : Prop := forall f f', steady f f' -> P f -> P f'.

(** [s]'s cell, if there is one, is [m]'s. *)
Definition cell_of (s m : nat) (f : Forest) : Prop :=
  forall c, scopes f !! s = Some c -> ScopeCell.member c = m.

Definition terminal_scope (s : nat) (f : Forest) : Prop :=
  forall c, scopes f !! s = Some c -> terminal f (ScopeCell.member c).

Lemma kept_cell s m : kept (cell_of s m).
Proof.
  intros f f' Hs Hc c' Hc'. destruct (scopes f !! s) as [c|] eqn:E.
  - rewrite (steady_member _ _ _ _ _ Hs E Hc'). by apply Hc.
  - pose proof (sd_cells _ _ Hs s) as K. by rewrite E, Hc' in K.
Qed.

Lemma kept_terminal m : kept (fun f => terminal f m).
Proof. intros f f' Hs. apply (sd_terminal _ _ Hs). Qed.

Lemma kept_terminal_scope s : kept (terminal_scope s).
Proof.
  intros f f' Hs Hc c' Hc'. apply (sd_terminal _ _ Hs). destruct (scopes f !! s) as [c|] eqn:E.
  - rewrite (steady_member _ _ _ _ _ Hs E Hc'). by apply Hc.
  - pose proof (sd_cells _ _ Hs s) as K. by rewrite E, Hc' in K.
Qed.

Lemma cell_terminal s m f : cell_of s m f -> terminal f m -> terminal_scope s f.
Proof. intros Hc Ht c E. by rewrite (Hc c E). Qed.
#[local] Hint Resolve kept_cell kept_terminal kept_terminal_scope : core.

(** [m] settles from the forests of [P]. *)
Definition under {A} (P : Forest -> Prop) (m : Op A) : Prop :=
  forall f a n f', m f = Ret (a, n, f') -> P f -> settling f n f'.

Lemma under_any {A} P (m : Op A) : respects settling m -> under P m.
Proof. intros Hm f a n f' H _. by eapply Hm. Qed.

(** [m] settles and establishes [Q]. *)
Lemma under_post {A C} P Q (m : Op A) (k : A -> Op C) :
  under P m ->
  (forall f a n f', m f = Ret (a, n, f') -> P f -> steady f f' -> Q a f') ->
  (forall a, under (Q a) (k a)) -> under P (m ≫= k).
Proof.
  intros Hm HQ Hk f c n f' H Hp. apply bind_inv in H as (a & n1 & f1 & n2 & H1 & H2 & ->).
  intros Hf. destruct (Hm _ _ _ _ H1 Hp Hf) as [F1 S1].
  destruct (Hk a _ _ _ _ H2 (HQ _ _ _ _ H1 Hp S1) F1) as [F2 S2].
  split; [done|by eapply steady_trans].
Qed.

Lemma under_bind {A C} P (m : Op A) (k : A -> Op C) :
  kept P -> under P m -> (forall a, under P (k a)) -> under P (m ≫= k).
Proof. intros HP Hm Hk. eapply under_post; [done| |exact Hk]. intros f a n f' _ Hp Hs. by eapply HP. Qed.

Lemma under_get {A} s P (k : ScopeCell.t B -> Op A) :
  (forall c, under (fun f => P f /\ cell_of s (ScopeCell.member c) f) (k c)) ->
  under P (c ← get_scope s; k c).
Proof.
  intros Hk f a n f' H Hp. apply bind_inv in H as (c & n1 & f1 & n2 & H1 & H2 & ->).
  apply get_scope_inv in H1 as (Hc & -> & ->). eapply Hk; [exact H2|]. split; [done|].
  intros c' Hc'. by simplify_eq.
Qed.

Lemma under_weaken {A} (P Q : Forest -> Prop) (m : Op A) :
  (forall f, P f -> Q f) -> under Q m -> under P m.
Proof. intros HPQ Hm f a n f' H Hp. eapply Hm; [exact H|by apply HPQ]. Qed.

Lemma under_settling {A} (m : Op A) : under (fun _ => True) m -> respects settling m.
Proof. intros Hm f a n f' H. by eapply Hm. Qed.

(** *** The closers *)

Lemma under_close s : under (terminal_scope s) (close_observation_locked s : Op ()).
Proof. intros f a n f' H Ht. by eapply close_settles. Qed.

Lemma under_when_stopped s :
  under (terminal_scope s) (when_stopped s (close_observation_locked s) : Op ()).
Proof.
  apply under_bind; [done|apply under_any; walk|]. intros c.
  case_match; [apply under_close|apply under_any; walk].
Qed.

(** Terminalizing the member of [s] makes [s] terminal. *)
Lemma under_terminalize {A} s m e st (k : Exit -> Op A) :
  (forall x, under (terminal_scope s) (k x)) ->
  under (cell_of s m) (x ← terminalize_locked m e st; k x).
Proof.
  intros Hk. apply (under_post _ (fun _ => terminal_scope s)); [apply under_any; walk| |done].
  intros f x n f' H Hc Hs. apply terminalize_inv in H as (_ & Ht & _).
  eapply cell_terminal; [by eapply kept_cell|done].
Qed.

Lemma settling_never_started s : respects settling (terminalize_never_started_locked s : Op ()).
Proof.
  unfold terminalize_never_started_locked, scope_is_closed. apply respects_bind; [apply _|walk|].
  intros closed. destruct closed; [walk|]. apply under_settling, under_get. intros c.
  apply (under_weaken _ (cell_of s (ScopeCell.member c))); [by intros f []|].
  apply under_terminalize. intros _. apply under_bind; [done|apply under_any; walk|intros _].
  apply under_close.
Qed.

(** A stage read names the membership's terminality. *)
Lemma member_stage_inv m f st n f' :
  (member_stage m : Op _) f = Ret (st, n, f') -> MemberStage.is_terminal st = true -> terminal f m.
Proof.
  intros H Ht. unfold member_stage in H. apply bind_inv in H as (c & n1 & f1 & n2 & H1 & H & ->).
  apply get_member_inv in H1 as (Hc & -> & ->). cbv [mret op_ret] in H. simplify_eq. by exists c.
Qed.

Lemma under_stage {A} s m P (k : MemberStage.t -> Op A) :
  kept P ->
  (forall st, under (fun f => P f /\ (MemberStage.is_terminal st = true -> terminal_scope s f)) (k st)) ->
  under (fun f => P f /\ cell_of s m f) (st ← member_stage m; k st).
Proof.
  intros HP Hk. eapply under_post; [apply under_any; walk| |exact Hk]. simpl.
  intros f st n f' H [Hp Hc] Hs. split; [by eapply HP|]. intros Ht.
  eapply cell_terminal; [by eapply kept_cell|]. eapply kept_terminal, member_stage_inv; done.
Qed.

Lemma settling_close_body s : respects settling (close_never_started_body s : Op ()).
Proof.
  unfold close_never_started_body, scope_is_closed. apply respects_bind; [apply _|walk|].
  intros closed. destruct closed; [walk|]. apply under_settling, under_get. intros c.
  apply under_bind; [|apply under_any; walk|intros _].
  { intros f f' Hs [_ Hc]. split; [done|by eapply kept_cell]. }
  apply under_stage; [done|]. intros st. destruct (MemberStage.is_terminal st); [|apply under_any; walk].
  eapply under_weaken; [|apply under_when_stopped]. intros f [_ Ht]. by apply Ht.
Qed.

(** Publishing a stop with a terminal exit makes the scope terminal. *)
Lemma stop_terminal s reason e f a n f' :
  (publish_stopped_locked s reason (Some e) : Op ()) f = Ret (a, n, f') ->
  steady f f' -> closed_inv f -> terminal_scope s f'.
Proof.
  intros H Hs Hf. unfold publish_stopped_locked in H.
  apply bind_inv in H as (c & n1 & f1 & n2 & H1 & H & ->). apply get_scope_inv in H1 as (Hc & -> & ->).
  apply bind_inv in H as (u & n1 & f1 & n3 & H1 & H & ->).
  assert (settling f n1 f1) as Hs1.
  { revert H1. refine ((_ : respects settling _) f u n1 f1). walk. modifies. }
  apply bind_inv in H as (u' & n4 & f2 & n5 & H2 & H & ->).
  apply bind_inv in H2 as (x & n6 & f3 & n7 & H2 & H3 & ->). cbv [mret op_ret] in H3. simplify_eq.
  apply terminalize_inv in H2 as (Hs2 & Ht & _).
  assert (settling f2 n5 f') as Hs3.
  { revert H. refine ((_ : respects settling _) f2 a n5 f'). walk. }
  destruct (Hs2 (proj1 (Hs1 Hf))) as [F2 _]. destruct (Hs3 F2) as [_ S3].
  eapply cell_terminal; [|by apply (sd_terminal _ _ S3)].
  eapply kept_cell; [exact Hs|]. intros c' Hc'. by simplify_eq.
Qed.

Lemma under_stop {A} s reason e P (k : () -> Op A) :
  (forall u, under (terminal_scope s) (k u)) ->
  under P (u ← publish_stopped_locked s reason (Some e); k u).
Proof.
  intros Hk f a n f' H _. apply bind_inv in H as (u & n1 & f1 & n2 & H1 & H2 & ->). intros Hf.
  destruct (settling_stop _ _ _ _ _ _ _ H1 Hf) as [F1 S1].
  destruct (Hk u _ _ _ _ H2 (stop_terminal _ _ _ _ _ _ _ H1 S1 Hf) F1) as [F2 S2].
  split; [done|by eapply steady_trans].
Qed.

Lemma settling_finish s e reason exit :
  respects settling (finish_incarnation_with_terminal s e reason exit : Op ()).
Proof.
  unfold finish_incarnation_with_terminal. apply under_settling, under_get. intros c.
  assert (kept (fun f => True /\ cell_of s (ScopeCell.member c) f)) as HP.
  { intros f f' Hs [_ Hc]. split; [done|by eapply kept_cell]. }
  apply under_bind; [done|apply under_any; walk|]. intros [live epochs]. destruct live; simpl.
  - apply under_bind; [done|apply under_any; walk|intros _]. apply under_stage; [done|]. intros st.
    destruct exit as [x|]; simpl.
    + apply under_stop. intros _. apply under_bind; [done|apply under_close|intros _].
      apply under_any. walk.
    + apply under_bind; [|apply under_any; walk|intros _].
      { intros f f' Hs [_ Ht]. split; [done|]. intros E. eapply kept_terminal_scope; eauto. }
      destruct (MemberStage.is_terminal st); [|apply under_any; walk].
      apply (under_weaken _ (terminal_scope s)); [intros f [_ Ht]; by apply Ht|].
      apply under_bind; [done|apply under_close|intros _]. apply under_any. walk.
  - apply under_bind; [done| |intros _; apply under_any; walk].
    destruct exit as [x|]; [|apply under_any; walk].
    apply (under_weaken _ (cell_of s (ScopeCell.member c))); [by intros f []|].
    apply under_terminalize. intros _. apply under_bind; [done|apply under_any; walk|intros _].
    apply under_close.
Qed.
#[local] Hint Resolve settling_finish settling_never_started settling_close_body : scope_rel.

Lemma settling_finish_root s reason exit :
  respects settling (finish_live_root_incarnation s reason exit : Op ()).
Proof.
  unfold finish_live_root_incarnation. apply under_settling, under_get. intros c.
  case_match; [apply under_any; walk|]. apply under_stop. intros _.
  apply under_bind; [done|apply under_close|intros _]. apply under_any. walk.
Qed.
#[local] Hint Resolve settling_finish_root : scope_rel.

(** The resident a child is terminalized through is the child's own. *)
Lemma resident_cell s m mc i r f c :
  closed_inv f -> scopes f !! s = Some c -> members f !! m = Some mc ->
  find_resident f (ScopeCell.current_children c) (MemberCell.membership mc) = Some (i, r) ->
  forall n, ResidentChild.scope r = Some n -> cell_of n m f.
Proof.
  intros Hf Hc Hm E n Hn. apply list_find_Some in E as (Hr & Hid & _).
  apply list_elem_of_lookup_2 in Hr.
  assert (ResidentChild.member r = m) as Hrm.
  { destruct (members f !! ResidentChild.member r) as [d|] eqn:D; [|done]. simpl in Hid.
    injection Hid as Hid. by eapply (ci_unique _ Hf). }
  destruct (ci_residents _ Hf s c r Hc Hr n Hn) as (d & Hd & Hdm).
  intros d' Hd'. simplify_eq. by rewrite Hdm.
Qed.

Lemma settling_terminalize_child s m exit exited startup :
  respects settling (terminalize_child s m exit exited startup : Op bool).
Proof.
  intros f a n f' H. unfold terminalize_child in H.
  apply bind_inv in H as (mc & n1 & f1 & n2 & H1 & H & ->). apply get_member_inv in H1 as (Hm & -> & ->).
  destruct (MemberStage.is_terminal (MemberCell.stage mc)).
  { revert H. refine ((_ : respects settling _) f a n2 f'). walk. }
  apply bind_inv in H as (found & n1 & f1 & n3 & H1 & H & ->).
  pose proof (reads_resident_at _ _ _ _ _ _ H1) as [-> ->]. unfold resident_at in H1.
  apply bind_Ret_inv in H1 as (c & Hc & H1). apply expect_inv in Hc. injection H1 as <-.
  destruct (find_resident f _ _) as [[i r]|] eqn:E.
  2: { revert H. refine ((_ : respects settling _) f a n3 f'). walk. }
  intros Hf. enough (settling f n3 f') as Hs by (by apply Hs).
  pose proof (resident_cell _ _ _ _ _ _ _ Hf Hc Hm E) as Hr.
  destruct (ResidentChild.scope r) as [nested|].
  - pose proof (Hr _ eq_refl) as Hn. revert H Hn. refine (under_terminalize nested m _ _ _ _ f a n3 f'). intros x.
    do 4 (apply under_bind; [done|apply under_any; walk|intros _]).
    apply under_bind; [done|apply under_when_stopped|intros _]. apply under_any. walk.
  - revert H. refine ((_ : respects settling _) f a n3 f'). walk.
Qed.
#[local] Hint Resolve settling_terminalize_child : scope_rel.

(** ** Admission *)

Lemma settling_withdraw slot : respects settling (withdraw slot : Op _).
Proof.
  unfold withdraw. apply respects_bind; [apply _|walk|intros b]. intros f a n f' H.
  apply bind_inv in H as (c & n1 & f1 & n2 & H1 & H & ->). apply get_scope_inv in H1 as (Hc & -> & ->).
  apply bind_inv in H as (u & n1 & f1 & n3 & H1 & H & ->). cbv [modify_scope mret op_ret] in *.
  simplify_eq. apply settling_alter. intros c' Hc'. simplify_eq. split; [done|]. split; [by left|].
  simpl. intros r Hr. right. exists r. split; [|done].
  destruct (ScopeCell.current_children c) as [|x l] using rev_ind; [by apply elem_of_nil in Hr|].
  rewrite removelast_last in Hr. set_solver.
Qed.

Lemma settling_announce slot : respects settling (announce slot : Op _).
Proof.
  unfold announce. walk. apply settling_modify; [done|done|]. simpl. intros c r Hr.
  apply list_elem_of_lookup in Hr as [i Hi]. rewrite list_lookup_alter in Hi.
  case_decide; [|exists r; split; [by eapply list_elem_of_lookup_2|done]].
  apply fmap_Some in Hi as (r' & E & ->). exists r'. split; [by eapply list_elem_of_lookup_2|done].
Qed.
#[local] Hint Resolve settling_withdraw settling_announce : scope_rel.

Lemma settling_push s child f a n f' :
  (push_unannounced s child : Op _) f = Ret (a, n, f') -> projection_ok f child -> settling f n f'.
Proof.
  intros H Hp. unfold push_unannounced, membership_of in H.
  apply bind_inv in H as (mm & n1 & f1 & n2 & H1 & H & ->).
  apply bind_inv in H1 as (mc & n3 & f3 & n4 & H1 & H2 & ->).
  apply get_member_inv in H1 as (_ & -> & ->). cbv [mret op_ret] in H2. injection H2 as <- <- <-.
  apply bind_inv in H as (c & n1 & f1 & n3 & H1 & H & ->). apply get_scope_inv in H1 as (Hc & -> & ->).
  cbv [modify_scope mret op_ret mbind op_bind outcome_bind] in H. simplify_eq. apply settling_alter.
  intros c' Hc'. split; [done|]. split; [by left|]. simpl. intros r Hr.
  apply elem_of_app in Hr as [Hr| ->%list_elem_of_singleton]; [by eauto|by left].
Qed.

Lemma settling_admit s child f a n f' :
  (admit_child_locked s child : Op bool) f = Ret (a, n, f') -> projection_ok f child -> settling f n f'.
Proof.
  intros H Hp. unfold admit_child_locked in H.
  apply bind_inv in H as (slot & n1 & f1 & n2 & H1 & H & ->).
  eapply rel_trans; [by eapply settling_push|]. revert H. refine ((_ : respects settling _) f1 a n2 f').
  walk.
Qed.

Lemma settling_admit_all s l f a n f' :
  (admit_all s l : Op bool) f = Ret (a, n, f') -> Forall (projection_ok f) l -> settling f n f'.
Proof.
  revert f a n f'. induction l as [|p l IH]; intros f a n f' H Hl; simpl in H.
  { by eapply (respects_ret settling) in H. }
  inversion Hl as [|? ? Hp Hl']; subst.
  apply bind_inv in H as (ok & n1 & f1 & n2 & H1 & H & ->).
  apply bind_inv in H as (rest & n3 & f2 & n4 & H2 & H & ->). cbv [mret op_ret] in H. simplify_eq.
  rewrite app_nil_r. intros Hf. destruct (settling_admit _ _ _ _ _ _ H1 Hp Hf) as [F1 S1].
  destruct (IH _ _ _ _ H2) as [F2 S2]; [|done|].
  { eapply Forall_impl; [exact Hl'|]. intros q. by apply steady_projection. }
  split; [done|by eapply steady_trans].
Qed.

(** ** Every operation *)

(** Admissions are of a child with its own scope. *)
Definition admits_paired (f : Forest) (o : ScopeOp) : Prop :=
  match o with
  | OpAdmit _ child => projection_ok f child
  | OpSetAdmitted _ children => Forall (projection_ok f) children
  | _ => True
  end.

Lemma admits_steady f f' o : steady f f' -> admits_paired f o -> admits_paired f' o.
Proof.
  intros Hs. destruct o; simpl; [done..|by apply steady_projection| |done].
  intros H. eapply Forall_impl; [exact H|]. intros q. by apply steady_projection.
Qed.

Lemma settling_run_op o f a n f' :
  run_op o f = Ret (a, n, f') -> admits_paired f o -> settling f n f'.
Proof.
  intros H Ho. destruct o; simpl in Ho.
  all: try (revert H; refine ((_ : respects settling _) f a n f'); simpl;
    unfold unit_op, bool_op, returning, set_intensity, set_state_and_startup, publish_drain,
      set_child_removing_locked, transition_child_stage, start_scope_child, publish_child_restart,
      begin_incarnation_into, request_shutdown, take_control_events, vacate_pending_shutdown,
      force_shutdown, take_request, set_dynamic_route_locked, adopt_child_observation_gate;
    walk; solve [modifies | by apply settling_update]).
  - simpl in H. apply bind_inv in H as (b & n1 & f1 & n2 & H1 & H & ->).
    cbv [mret op_ret] in H. injection H as <- <- <-. rewrite app_nil_r. by eapply settling_admit.
  - simpl in H. apply bind_inv in H as (b & n1 & f1 & n2 & H1 & H & ->).
    cbv [mret op_ret] in H. injection H as <- <- <-. rewrite app_nil_r. intros Hf.
    apply bind_inv in H1 as (u & n3 & f2 & n4 & H1 & H2 & ->).
    destruct (settling_clear _ _ _ _ _ H1 Hf) as [F2 S2].
    destruct (settling_admit_all _ _ _ _ _ _ H2) as [F1 S1]; [|done|split; [done|by eapply steady_trans]].
    eapply Forall_impl; [exact Ho|]. intros q. by apply steady_projection.
Qed.

Lemma settling_run ops f rs f' :
  Forall (admits_paired f) ops -> run_ops scope_exec f ops = Ret (rs, f') -> settling f (trace rs) f'.
Proof.
  revert f rs f'. induction ops as [|o ops IH]; intros f rs f' Hok H; simpl in H.
  { simplify_eq. apply rel_refl. }
  inversion Hok as [|? ? Ho Hok']; subst.
  apply bind_Ret_inv in H as ([r f1] & H1 & H). apply bind_Ret_inv in H as ([rs1 f2] & H2 & H).
  injection H as <- <-. apply bind_Ret_inv in H1 as ([[r1 n1] f3] & H1 & H3). injection H3 as <- <-.
  unfold trace. rewrite fmap_cons, concat_cons. intros Hf.
  destruct (settling_run_op _ _ _ _ _ H1 Ho Hf) as [F1 S1].
  destruct (IH f3 rs1 f2) as [F2 S2]; [|done..|].
  { eapply Forall_impl; [exact Hok'|]. intros q. by apply admits_steady. }
  split; [done|by eapply steady_trans].
Qed.

(** The end of a scope's streams is a terminal verdict: over any sequence of
    operations from a forest with unique memberships, a scope whose lifecycle
    stream is closed belongs to a terminal membership, and once terminal it
    stays so, so a watcher that meets the end of the stream reads a final
    record. *)
Theorem closed_stream_terminal ops (f : Forest) rs f' s c :
  closed_inv f -> Forall (admits_paired f) ops ->
  run_ops scope_exec f ops = Ret (rs, f') ->
  scopes f' !! s = Some c -> lifecycle_is_closed (ScopeCell.lifecycle c) = true ->
  exists m, members f' !! ScopeCell.member c = Some m /\
    MemberStage.is_terminal (MemberCell.stage m) = true.
Proof.
  intros Hf Hok H Hc Hcl. destruct (settling_run ops f rs f' Hok H Hf) as [F' _].
  exact (ci_closed _ F' s c Hc Hcl).
Qed.

(** ** Deciding the invariant *)

Definition terminalb (f : Forest) (m : nat) : bool :=
  match members f !! m with
  | Some c => MemberStage.is_terminal (MemberCell.stage c)
  | None => false
  end.

Definition projection_okb (f : Forest) (p : ResidentProjection.t) : bool :=
  match ResidentProjection.scope p with
  | Some n =>
      match scopes f !! n with
      | Some c => bool_decide (ScopeCell.member c = ResidentProjection.member p)
      | None => false
      end
  | None => true
  end.

Definition closed_invb (f : Forest) : bool :=
  forallb (fun kc : nat * ScopeCell.t B =>
    implb (closed kc.2) (terminalb f (ScopeCell.member kc.2)) &&
    forallb (fun r => projection_okb f (ResidentChild.projection r)) (ScopeCell.current_children kc.2))
    (map_to_list (scopes f)) &&
  bool_decide (NoDup (MemberCell.membership <$> (map_to_list (members f)).*2)).

Lemma projection_okb_ok f p : projection_okb f p = true -> projection_ok f p.
Proof.
  unfold projection_okb. intros H n Hn. rewrite Hn in H.
  destruct (scopes f !! n) as [c|]; [|done]. exists c. split; [done|]. by apply bool_decide_eq_true in H.
Qed.

Lemma memberships_unique (l : list (nat * MemberCell.t)) m m' c c' :
  NoDup (MemberCell.membership <$> l.*2) -> (m, c) ∈ l -> (m', c') ∈ l ->
  MemberCell.membership c = MemberCell.membership c' -> (m, c) = (m', c').
Proof.
  intros Hnd [i Hi]%list_elem_of_lookup [j Hj]%list_elem_of_lookup E.
  assert (i = j) as ->; [|congruence].
  eapply (NoDup_lookup _ i j (MemberCell.membership c) Hnd); rewrite !list_lookup_fmap;
    [by rewrite Hi|by rewrite Hj, E].
Qed.

Lemma closed_invb_ok f : closed_invb f = true -> closed_inv f.
Proof.
  intros [Hs Hu]%andb_true_iff. rewrite forallb_forall in Hs. apply bool_decide_eq_true in Hu.
  assert (forall s c, scopes f !! s = Some c ->
    implb (closed c) (terminalb f (ScopeCell.member c)) = true /\
    forallb (fun r => projection_okb f (ResidentChild.projection r)) (ScopeCell.current_children c) = true)
    as Hk.
  { intros s c Hc. apply andb_true_iff. apply (Hs (s, c)).
    by apply list_elem_of_In, elem_of_map_to_list. }
  split.
  - intros s c Hc Hcl. destruct (Hk s c Hc) as [H _]. rewrite Hcl in H. unfold terminalb in H.
    unfold terminal. simpl in H. destruct (members f !! ScopeCell.member c) as [m|]; [|done]. by exists m.
  - intros s c r Hc Hr. apply projection_okb_ok. destruct (Hk s c Hc) as [_ H].
    rewrite forallb_forall in H. by apply H, list_elem_of_In.
  - intros m m' c c' Hc Hc' E. assert ((m, c) = (m', c')) as Heq; [|congruence].
    by eapply memberships_unique; [exact Hu|apply elem_of_map_to_list..|].
Qed.
End closed.

(** ** A scope tree at work

    The scope theorems applied to a root scope with a worker and a nested
    scope. *)

Definition DemoForest : Type := Forest (MailboxCell Z) (list LifecycleEvent.t * Z).

Definition grant (id : ChildId) (lineage : Z) : MintedMembership.t :=
  MintedMembership.new id (mkMembership (mkFence (mkLineage lineage) (mkGeneration 1))).

Definition demo_options : ResolvedCommonOptions :=
  resolve_common (mkCommonOptions None None None None None Inherit None) resolved_defaults_default
    OneShot Immediate.

Definition demo_member (id : ChildId) (lineage : Z) : MemberCell.t :=
  let c := MemberCell.new (grant id lineage) in
  match MemberCell.set_options demo_options c with Ret c => c | _ => c end.

(** Scope 0 is the root, scope 1 will be nested in it; members 0 and 1 are
    theirs, member 2 is a worker.  Every member starts on a gate of its own. *)
Definition demo_forest : DemoForest :=
  mkForest
    {[ 0%nat := scope_new 0 Ordered ScopeIdentity.new; 1%nat := scope_new 1 Ordered ScopeIdentity.new ]}
    {[ 0%nat := demo_member "root" 1; 1%nat := demo_member "nested" 2; 2%nat := demo_member "worker" 3 ]}
    {[ 0%nat := 10%nat; 1%nat := 11%nat; 2%nat := 12%nat ]} ∅.

Definition demo_worker : Incarnation :=
  mkIncarnation (mkMembership (mkFence (mkLineage 3) (mkGeneration 1))) (mkGeneration 1).

Definition demo_script : list ScopeOp :=
  [OpBegin 0; OpAdmit 0 (ResidentProjection.new 2 None); OpAdmit 0 (ResidentProjection.new 1 (Some 1%nat));
   OpAdmit 0 (ResidentProjection.new 2 None);
   OpTransition 0 2 (MemberTransition.Starting demo_worker)
     (Some (LifecycleEventKind.Started "worker" (mkMembership (mkFence (mkLineage 3) (mkGeneration 1))) demo_worker));
   OpTerminalizeChild 0 2 (completed NotObserved) (Some demo_worker) StartupDisposition.NotAborted;
   OpPrune 0 2; OpFinish 0 1 StopReason.Finished None].

Definition demo_end : list (ScopeResult * list (Note (MailboxTeardown Z) (FlushAction Z))) * DemoForest :=
  match run_ops scope_exec demo_forest demo_script with Ret x => x | _ => ([], demo_forest) end.

Definition demo_results : list ScopeResult := demo_end.1.*1.

Lemma demo_runs : run_ops scope_exec demo_forest demo_script = Ret (demo_end.1, demo_end.2).
Proof. vm_compute. reflexivity. Qed.

Lemma demo_script_ok : Forall (fun o => op_ok o = true) demo_script.
Proof. repeat constructor. Qed.

Definition demo_root : ScopeCell.t (list LifecycleEvent.t * Z) := scope_new 0 Ordered ScopeIdentity.new.

Lemma demo_root_found : scopes demo_forest !! 0%nat = Some demo_root.
Proof. reflexivity. Qed.

Lemma lifecycle_seq_gapless_witness :
  exists c', scopes demo_end.2 !! 0%nat = Some c' /\
    (edges 0 (trace demo_end.1)).*1 = seqZ 1 (seq_of c' - 0).
Proof.
  destruct (lifecycle_seq_gapless demo_script demo_forest demo_end.1 demo_end.2 0 demo_root demo_runs
    demo_root_found) as (c' & Hc & He & _).
  exists c'. split; [exact Hc|exact He].
Defined.

Lemma scope_state_stream_agrees_witness :
  exists c', scopes demo_end.2 !! 0%nat = Some c' /\
    ScopeCell.state c' = latest ScopeState.Unstarted (states 0 (trace demo_end.1)).
Proof.
  exact (scope_state_stream_agrees demo_script demo_forest demo_end.1 demo_end.2 0 demo_root
    demo_script_ok demo_runs demo_root_found).
Defined.

Lemma demo_public_residents :
  announced demo_forest 0 = [] /\ length (added 0 (trace demo_end.1)) = 2%nat /\
  length (removed 0 (trace demo_end.1)) = 1%nat.
Proof. vm_compute. repeat split. Qed.

Lemma added_removed_paired_witness :
  announced demo_end.2 0 ++ removed 0 (trace demo_end.1) ≡ₚ
  announced demo_forest 0 ++ added 0 (trace demo_end.1).
Proof.
  exact (added_removed_paired demo_script demo_forest demo_end.1 demo_end.2 0 demo_script_ok demo_runs).
Defined.

(** Two verdicts, in both orders. *)
Definition demo_verdicts (l : list StopReason.t)
  : () * list (Note (MailboxTeardown Z) (FlushAction Z)) * DemoForest :=
  match publish_verdicts 0 l demo_forest with Ret x => x | _ => ((), [], demo_forest) end.

Definition demo_reasons : list StopReason.t := [StopReason.Finished; StopReason.ShutdownRequested].
Definition demo_swapped : list StopReason.t := [StopReason.ShutdownRequested; StopReason.Finished].

Lemma demo_verdicts_run :
  publish_verdicts 0 demo_reasons demo_forest =
    Ret ((), (demo_verdicts demo_reasons).1.2, (demo_verdicts demo_reasons).2) /\
  publish_verdicts 0 demo_swapped demo_forest =
    Ret ((), (demo_verdicts demo_swapped).1.2, (demo_verdicts demo_swapped).2).
Proof. vm_compute. split; reflexivity. Qed.

Lemma stop_verdicts_order_free_witness :
  exists c1 c2 r1 r2, scopes (demo_verdicts demo_reasons).2 !! 0%nat = Some c1 /\
    scopes (demo_verdicts demo_swapped).2 !! 0%nat = Some c2 /\
    ScopeCell.state c1 = ScopeState.Stopped r1 /\ ScopeCell.state c2 = ScopeState.Stopped r2 /\
    reason_level r1 = reason_level r2 /\ r1 ∈ demo_reasons.
Proof.
  destruct demo_verdicts_run as [H1 H2].
  destruct (stop_verdicts_order_free 0 demo_reasons demo_swapped demo_forest demo_root _ _ _ _ _ _
    (Permutation_swap _ _ _) ltac:(discriminate) demo_root_found H1 H2)
    as (c1 & c2 & r1 & r2 & Hc1 & Hc2 & Hs1 & Hs2 & Hl & [Hin _] & _).
  exists c1, c2, r1, r2. split_and!; [exact Hc1|exact Hc2|exact Hs1|exact Hs2|exact Hl|exact Hin].
Defined.

(** A shutdown request before the first incarnation. *)
Definition demo_request : Epoch * list (Note (MailboxTeardown Z) (FlushAction Z)) * DemoForest :=
  match request_shutdown 0 demo_forest with Ret x => x | _ => (0, [], demo_forest) end.

Definition demo_after_request : list ScopeOp :=
  [OpBegin 0; OpRequestShutdown 0; OpFinish 0 7 StopReason.Finished None].

Definition demo_requested_end :=
  match run_ops scope_exec demo_request.2 demo_after_request with Ret x => x | _ => ([], demo_forest) end.

Lemma demo_request_runs :
  request_shutdown 0 demo_forest = Ret (demo_request.1.1, demo_request.1.2, demo_request.2) /\
  run_ops scope_exec demo_request.2 demo_after_request = Ret (demo_requested_end.1, demo_requested_end.2).
Proof. vm_compute. split; reflexivity. Qed.

Lemma demo_root_ok : control_ok (ScopeCell.control demo_root).
Proof. split; done. Qed.

Lemma shutdown_request_never_lost_witness :
  exists c', scopes demo_requested_end.2 !! 0%nat = Some c' /\
    (request_targets demo_request.1.1 (ScopeControl.shutdown (ScopeCell.control c')) = true \/
     finished (ScopeControl.epochs (ScopeCell.control c')) demo_request.1.1 = true).
Proof.
  destruct demo_request_runs as [H1 H2].
  exact (shutdown_request_never_lost demo_after_request demo_forest 0 demo_root _ _ _ _ _
    demo_root_found demo_root_ok H1 H2).
Defined.

(** The request taken in the first incarnation, and asked for again. *)
Definition demo_live : list (ScopeResult * list (Note (MailboxTeardown Z) (FlushAction Z))) * DemoForest :=
  match run_ops scope_exec demo_forest [OpBegin 0; OpRequestShutdown 0] with
  | Ret x => x | _ => ([], demo_forest) end.
Definition demo_live_root : ScopeCell.t (list LifecycleEvent.t * Z) :=
  from_option id demo_root (scopes demo_live.2 !! 0%nat).
Definition demo_taken : bool * list (Note (MailboxTeardown Z) (FlushAction Z)) * DemoForest := match take_shutdown_request 0 1 demo_live.2 with
  | Ret x => x | _ => (false, [], demo_live.2) end.
Definition demo_between := match run_ops scope_exec demo_taken.2
  [OpRequestShutdown 0; OpFinish 0 1 StopReason.ShutdownRequested None; OpBegin 0; OpRequestShutdown 0]
  with Ret x => x | _ => ([], demo_forest) end.
Definition demo_again : bool * list (Note (MailboxTeardown Z) (FlushAction Z)) * DemoForest := match take_shutdown_request 0 1 demo_between.2 with
  | Ret x => x | _ => (true, [], demo_forest) end.

Lemma demo_take_runs :
  scopes demo_live.2 !! 0%nat = Some demo_live_root /\
  take_shutdown_request 0 1 demo_live.2 = Ret (true, demo_taken.1.2, demo_taken.2) /\
  run_ops scope_exec demo_taken.2
    [OpRequestShutdown 0; OpFinish 0 1 StopReason.ShutdownRequested None; OpBegin 0; OpRequestShutdown 0] =
    Ret (demo_between.1, demo_between.2) /\
  take_shutdown_request 0 1 demo_between.2 = Ret (demo_again.1.1, demo_again.1.2, demo_again.2).
Proof. vm_compute. repeat split. Qed.

Lemma demo_live_ok : control_ok (ScopeCell.control demo_live_root).
Proof. vm_compute. split; simpl; [done|]. intros r H. by simplify_eq. Qed.

Lemma shutdown_request_taken_once_witness : demo_again.1.1 = false.
Proof.
  destruct demo_take_runs as (Hc & H1 & H2 & H3).
  exact (shutdown_request_taken_once _ demo_live.2 0 demo_live_root 1 _ _ _ _ _ _ _
    Hc demo_live_ok H1 H2 H3).
Defined.
