(* ===== verification/Plan.v ===== *)
(** * Declaration slots, builders and plans

    [plan.rs] and the definition source of [definition.rs]: a slot joins a
    member cell, an optional scope cell and the construction a caller defines;
    a builder reserves slots and is lowered once into a plan that owns every
    construction; whoever is dropped while still owing terminality publishes
    its slots as never started.

    The user's factories and bodies are a parameter [P].  Constructions handed
    to isolated disposal are notes, as is the panic a caller meets after a lock
    was released. *)

From S2P Require Import Prelude Identity Exit Policy Restart Epochs Lifecycle Gate Watch.
From S2P Require Import Member Snapshot LifecycleHub Scope.

(** ** [definition.rs] *)

Module DefinitionSource.
Inductive t (R O : Type) :=
| Restartable (source : R)
| OneShot (source : O)
| Spent.
Arguments Restartable {R O} _.
Arguments OneShot {R O} _.
Arguments Spent {R O}.

Section source.
Context {R O : Type}.

Definition is_one_shot (s : t R O) : bool :=
  match s with OneShot _ | Spent => true | Restartable _ => false end.

Definition mode (s : t R O) : ChildMode :=
  if is_one_shot s then Policy.OneShot else Policy.Restartable.

Definition restartable (s : t R O) : option R :=
  match s with Restartable p => Some p | _ => None end.

Definition take_one_shot (s : t R O) : option O * t R O :=
  match s with
  | OneShot p => (Some p, Spent)
  | Restartable p => (None, Restartable p)
  | Spent => (None, Spent)
  end.
End source.
End DefinitionSource.

(** ** Slots *)

Module ChildConstruction.
Inductive t (P : Type) :=
| Raw (source : DefinitionSource.t P P) (options : CommonOptions) (readiness : Readiness)
| Task (source : DefinitionSource.t P P) (options : CommonOptions)
| Scope (source : DefinitionSource.t P P) (options : CommonOptions) (defaults : DefaultsInheritance).
Arguments Raw {P} _ _ _.
Arguments Task {P} _ _.
Arguments Scope {P} _ _ _.
End ChildConstruction.

Module DefinitionState.
Inductive t (P : Type) :=
| Undefined
| Defined (definition : ChildConstruction.t P)
| Lowered.
Arguments Undefined {P}.
Arguments Defined {P} _.
Arguments Lowered {P}.
End DefinitionState.

Module SlotCell.
Record t (P : Type) := mk
  { member : nat; scope : option nat; definition : DefinitionState.t P }.
Arguments mk {P} _ _ _.
Arguments member {P} _.
Arguments scope {P} _.
Arguments definition {P} _.

Definition new {P} (member : nat) (scope : option nat) : t P :=
  mk member scope DefinitionState.Undefined.
Definition set_definition {P} (d : DefinitionState.t P) (s : t P) : t P :=
  mk (member s) (scope s) d.
End SlotCell.

Inductive StaticReserveError := StaticEmptyId | StaticDuplicateId (id : ChildId).

(** [resolve_defined_policy]. *)
Definition resolve_defined_policy {P} (d : ChildConstruction.t P) (defaults : ResolvedDefaults)
  : ResolvedCommonOptions :=
  match d with
  | ChildConstruction.Raw source options readiness =>
      resolve_common options defaults (DefinitionSource.mode source) readiness
  | ChildConstruction.Task source options =>
      resolve_common options defaults (DefinitionSource.mode source) Immediate
  | ChildConstruction.Scope source o _ =>
      resolve_common
        (mkCommonOptions (co_restart o) (co_shutdown o) (co_mailbox o) (co_mailbox_shutdown o)
           None (co_readiness_deadline o) (co_retention o))
        defaults (DefinitionSource.mode source) Manual
  end.

(** [ScopeDefaults::default]. *)
Definition scope_defaults_default : ScopeDefaults := mkScopeDefaults None None None None Inherit.

Definition non_empty_id (id : ChildId) : option ChildId :=
  if decide (id = EmptyString) then None else Some id.

(** ** The world of cells and slots *)

(** A handle no entry of the map uses. *)
Definition fresh_index {X} (m : gmap nat X) : nat :=
  map_fold (fun k _ n => Nat.max (S k) n) 0%nat m.
(** A gate no member is on. *)
Definition fresh_gate (m : gmap nat nat) : nat :=
  map_fold (fun _ g n => Nat.max (S g) n) 0%nat m.

Section plan.
Context {M T F B R P : Type} `{!MailboxControl M T F} `{!Broadcast LifecycleEvent.t B R}.
Local Abbreviation Forest := (Forest M B).
Local Abbreviation Note := (Note T F).
Local Abbreviation Op := (@Op M T F B).
Local Abbreviation Construction := (ChildConstruction.t P).

Record World := mkWorld
  { forest : Forest;
    slots : gmap nat (SlotCell.t P);
    next_lineage : AtomicMonotonicCounter.t }.

Inductive PlanNote :=
| CellNote (n : Note)
| Disposed (definition : Construction)   (** handed to isolated disposal *)
| Unwinds (message : string).            (** the panic the caller meets *)

Definition PlanOp (A : Type) : Type := World -> outcome (A * list PlanNote * World).

#[global] Instance plan_ret : MRet PlanOp := fun A a w => Ret (a, [], w).
#[global] Instance plan_bind : MBind PlanOp := fun A A' k m w =>
  '(a, n, w) ← m w;
  '(b, n', w) ← k a w;
  Ret (b, n ++ n', w).

Definition set_forest (f : Forest) (w : World) : World := mkWorld f (slots w) (next_lineage w).
Definition cell {A} (m : Op A) : PlanOp A := fun w =>
  match m (forest w) with
  | Ret (a, n, f) => Ret (a, CellNote <$> n, set_forest f w)
  | Panics message => Panics message
  | ProcessAborts => ProcessAborts
  end.
Definition plan_lift {A} (m : outcome A) : PlanOp A := fun w => a ← m; Ret (a, [], w).
Definition plan_notes (l : list PlanNote) : PlanOp () := fun w => Ret ((), l, w).

Fixpoint plan_each {X} (g : X -> PlanOp ()) (l : list X) : PlanOp () :=
  match l with
  | [] => mret ()
  | x :: l => _ ← g x; plan_each g l
  end.

Definition get_slot (i : nat) : PlanOp (SlotCell.t P) := fun w =>
  s ← expect "a slot handle" (slots w !! i); Ret (s, [], w).
Definition put_definition (i : nat) (d : DefinitionState.t P) : PlanOp () := fun w =>
  Ret ((), [], mkWorld (forest w) (alter (SlotCell.set_definition d) i (slots w)) (next_lineage w)).

(** ** Minting cells *)

(** [ScopeCell::mint_membership]. *)
Definition mint_membership (parent : nat) (id : ChildId) : PlanOp MintedMembership.t := fun w =>
  c ← expect "a scope handle" (scopes (forest w) !! parent);
  '(m, next, i) ← ScopeIdentity.mint_membership (next_lineage w) (ScopeCell.child_identity c) id;
  cell (_ ← modify_scope parent (ScopeCell.set_identity i); mret m)
    (mkWorld (forest w) (slots w) next).

(** [MemberCell::new] on a gate of its own. *)
Definition alloc_member (identity : MintedMembership.t) : PlanOp nat := fun w =>
  let f := forest w in
  let m := fresh_index (members f) in
  Ret (m, [], set_forest (mkForest (scopes f) (<[m := MemberCell.new identity]> (members f))
                            (<[m := fresh_gate (gates f)]> (gates f)) (controls f)) w).

Definition alloc_scope (m : nat) (flavor : ScopeFlavor) : PlanOp nat := fun w =>
  let f := forest w in
  let s := fresh_index (scopes f) in
  Ret (s, [], set_forest (mkForest (<[s := scope_new m flavor ScopeIdentity.new]> (scopes f))
                            (members f) (gates f) (controls f)) w).

Definition alloc_slot (m : nat) (scope : option nat) : PlanOp nat := fun w =>
  let i := fresh_index (slots w) in
  Ret (i, [], mkWorld (forest w) (<[i := SlotCell.new m scope]> (slots w)) (next_lineage w)).

Definition mint_reserved_slot (parent : nat) (id : ChildId) (child_scope : option ScopeFlavor)
  : PlanOp nat :=
  identity ← mint_membership parent id;
  m ← alloc_member identity;
  scope ← match child_scope with
          | Some flavor => s ← alloc_scope m flavor; mret (Some s)
          | None => mret None
          end;
  alloc_slot m scope.

(** ** Slot operations *)

(** A second definition is disposed of and panics its caller, the slot kept. *)
Definition define (i : nat) (definition : Construction) : PlanOp () :=
  s ← get_slot i;
  match SlotCell.definition s with
  | DefinitionState.Undefined => put_definition i (DefinitionState.Defined definition)
  | _ => plan_notes [Disposed definition; Unwinds "a child slot was defined more than once"]
  end.

(** [Err] is [DefinitionAlreadyLowered]. *)
Definition take_definition (i : nat) : PlanOp (result (option Construction) ()) :=
  s ← get_slot i;
  match SlotCell.definition s with
  | DefinitionState.Defined d => _ ← put_definition i DefinitionState.Lowered; mret (Ok (Some d))
  | DefinitionState.Undefined => mret (Ok None)
  | DefinitionState.Lowered => mret (Err ())
  end.

Definition publish_never_started (s : SlotCell.t P) : Op () :=
  match SlotCell.scope s with
  | Some n => terminalize_never_started_locked n
  | None =>
      _ ← terminalize_locked (SlotCell.member s) never_started StartupDisposition.Unchanged;
      mret ()
  end.

(** [terminalize_never_started], [terminalize_never_started_contained] and
    [terminalize_never_started_locked]: publication, then eviction. *)
Definition terminalize_never_started (owner i : nat) : PlanOp () :=
  s ← get_slot i;
  cell (_ ← publish_never_started s; evict_child_identity owner (SlotCell.member s)).

Definition take_never_started_locked (owner i : nat) : PlanOp (option Construction) :=
  d ← take_definition i;
  _ ← terminalize_never_started owner i;
  mret (match d with Ok d => d | Err _ => None end).

Definition resolve_policy_for_lowering (i : nat) (defaults : ResolvedDefaults)
  : PlanOp (result (option ResolvedCommonOptions) ()) :=
  s ← get_slot i;
  mret (match SlotCell.definition s with
        | DefinitionState.Undefined => Ok None
        | DefinitionState.Defined d => Ok (Some (resolve_defined_policy d defaults))
        | DefinitionState.Lowered => Err ()
        end).

Definition resolve_and_take_defined (i : nat) (defaults : ResolvedDefaults)
  : PlanOp (option (Construction * ResolvedCommonOptions)) :=
  s ← get_slot i;
  match SlotCell.definition s with
  | DefinitionState.Defined d =>
      _ ← put_definition i DefinitionState.Lowered;
      mret (Some (d, resolve_defined_policy d defaults))
  | _ => mret None
  end.

(** ** Plans *)

Record ChildPlan := mkChildPlan
  { cp_slot : nat; cp_construction : Construction; cp_options : ResolvedCommonOptions }.

(** [ChildPlan::with_options] also publishes the options on the member. *)
Definition with_options (i : nat) (construction : Construction) (options : ResolvedCommonOptions)
  : PlanOp ChildPlan :=
  s ← get_slot i;
  _ ← cell (c ← get_member (SlotCell.member s);
            c ← lift (MemberCell.set_options options c);
            put_member (SlotCell.member s) c);
  mret (mkChildPlan i construction options).

Record ScopePlan := mkScopePlan
  { sp_root : nat;
    sp_intensity : Intensity.t;
    sp_defaults : ResolvedDefaults;
    sp_children : list ChildPlan;
    terminality_owed : bool }.

Definition terminalize_plan (plan : ScopePlan) : PlanOp () :=
  if terminality_owed plan then
    _ ← plan_each (fun c => terminalize_never_started (sp_root plan) (cp_slot c)) (sp_children plan);
    cell (_ ← clear_residents_locked (sp_root plan);
          terminalize_never_started_locked (sp_root plan))
  else mret ().

(** [Drop] of a plan: its children's constructions go to isolated disposal. *)
Definition drop_plan (plan : ScopePlan) : PlanOp () :=
  _ ← terminalize_plan plan;
  plan_notes ((fun c => Disposed (cp_construction c)) <$> sp_children plan).

Definition finish_transfer (plan : ScopePlan) : PlanOp () :=
  _ ← plan_lift (assert_that (bool_decide (length (sp_children plan) = 0%nat))
        "runtime transfer completes only after every child owns terminality");
  drop_plan (mkScopePlan (sp_root plan) (sp_intensity plan) (sp_defaults plan)
               (sp_children plan) false).

(** ** Builders *)

Record BuilderCore := mkBuilder
  { b_root : nat;
    b_intensity : Intensity.t;
    b_defaults : ScopeDefaults;
    b_slots : list nat;
    b_ids : gset ChildId;
    adopting_root : option nat;
    armed : bool }.

Definition set_builder_intensity (i : Intensity.t) (b : BuilderCore) : BuilderCore :=
  mkBuilder (b_root b) i (b_defaults b) (b_slots b) (b_ids b) (adopting_root b) (armed b).
Definition set_builder_defaults (d : ScopeDefaults) (b : BuilderCore) : BuilderCore :=
  mkBuilder (b_root b) (b_intensity b) d (b_slots b) (b_ids b) (adopting_root b) (armed b).

(** The root's membership comes from an identity domain nothing else uses. *)
Definition builder_new (flavor : ScopeFlavor) : PlanOp BuilderCore := fun w =>
  '(identity, next, _) ← ScopeIdentity.mint_membership (next_lineage w) ScopeIdentity.new "$root";
  (m ← alloc_member identity;
   s ← alloc_scope m flavor;
   mret (mkBuilder s Intensity.default scope_defaults_default [] ∅ None true)) (mkWorld (forest w) (slots w) next).

Definition reserve (b : BuilderCore) (id : ChildId) (scope : option ScopeFlavor)
  : PlanOp (result nat StaticReserveError * BuilderCore) :=
  match non_empty_id id with
  | None => mret (Err StaticEmptyId, b)
  | Some id =>
      if decide (id ∈ b_ids b) then mret (Err (StaticDuplicateId id), b)
      else
        i ← mint_reserved_slot (b_root b) id scope;
        mret (Ok i, mkBuilder (b_root b) (b_intensity b) (b_defaults b) (b_slots b ++ [i])
                      ({[id]} ∪ b_ids b) (adopting_root b) (armed b))
  end.

(** [terminalize]: the slots against the identity map their lineages entered. *)
Definition builder_terminalize (b : BuilderCore) : PlanOp () :=
  let identity_root := unwrap_or (adopting_root b) (b_root b) in
  _ ← plan_each (terminalize_never_started identity_root) (b_slots b);
  cell (terminalize_never_started_locked (b_root b)).

(** [Drop] of a builder.  A definition stays with whoever still holds its slot. *)
Definition drop_builder (b : BuilderCore) : PlanOp () :=
  if armed b then builder_terminalize b else mret ().

Definition begin_failed_disposal (b : BuilderCore) : PlanOp () :=
  plan_each (fun i =>
    d ← take_definition i;
    plan_notes (match d with Ok (Some d) => [Disposed d] | _ => [] end)) (b_slots b).

Definition resolve_slot (defaults : ResolvedDefaults) (i : nat)
  : PlanOp (result ResolvedCommonOptions ChildId) :=
  r ← resolve_policy_for_lowering i defaults;
  match r with
  | Ok (Some options) => mret (Ok options)
  | Ok None =>
      s ← get_slot i;
      c ← cell (get_member (SlotCell.member s));
      mret (Err (MemberCell.id c))
  | Err _ => plan_lift (Panics "a tree must be lowered at most once")
  end.

Fixpoint resolve_all (defaults : ResolvedDefaults) (l : list nat)
  : PlanOp (list (result ResolvedCommonOptions ChildId)) :=
  match l with
  | [] => mret []
  | i :: l => r ← resolve_slot defaults i; rs ← resolve_all defaults l; mret (r :: rs)
  end.

Definition unresolved (l : list (result ResolvedCommonOptions ChildId)) : list ChildId :=
  omap (fun r => match r with Err id => Some id | Ok _ => None end) l.
Definition resolutions (l : list (result ResolvedCommonOptions ChildId))
  : list ResolvedCommonOptions :=
  omap (fun r => match r with Ok o => Some o | Err _ => None end) l.

(** One slot's reconciliation with the override's identity map. *)
Definition reconcile (root i : nat) : PlanOp () :=
  s ← get_slot i;
  cell (c ← get_member (SlotCell.member s);
        '(provisional, c) ← lift (MemberCell.take_provisional_membership c);
        _ ← put_member (SlotCell.member s) c;
        rc ← get_scope root;
        '(verdict, identity) ←
          lift (ScopeIdentity.adopt_or_mint_membership (ScopeCell.child_identity rc) provisional);
        _ ← modify_scope root (ScopeCell.set_identity identity);
        match verdict with
        | Adopted => mret ()
        | Minted minted =>
            c ← lift (MemberCell.rebase_membership minted c);
            put_member (SlotCell.member s) c
        end).

Fixpoint lower_children (l : list (nat * ResolvedCommonOptions)) : PlanOp (list ChildPlan) :=
  match l with
  | [] => mret []
  | (i, options) :: l =>
      d ← take_definition i;
      d ← plan_lift (match d with
                     | Ok (Some d) => Ret d
                     | Ok None => Panics "validated slot must have a definition"
                     | Err _ => Panics "a tree must be lowered at most once"
                     end);
      c ← with_options i d options;
      cs ← lower_children l;
      mret (c :: cs)
  end.

(** [lower] consumes the builder: its [Drop] runs on the error path, still
    armed, and does nothing once a plan owns the slots.  [adopting_root] is set
    between the two, for an unwind in the middle of the reconciliation. *)
Definition lower (b : BuilderCore) (inherited : ResolvedDefaults) (root_override : option nat)
  : PlanOp (result ScopePlan (list ChildId)) :=
  let root := unwrap_or root_override (b_root b) in
  let defaults := overlay inherited (b_defaults b) in
  resolved ← resolve_all defaults (b_slots b);
  if decide (unresolved resolved = []) then
    _ ← (if decide (root = b_root b) then mret () else plan_each (reconcile root) (b_slots b));
    _ ← cell (set_intensity root (b_intensity b));
    children ← lower_children (zip (b_slots b) (resolutions resolved));
    mret (Ok (mkScopePlan root (b_intensity b) defaults children true))
  else
    _ ← begin_failed_disposal b;
    _ ← drop_builder b;
    mret (Err (unresolved resolved)).
End plan.

Arguments World : clear implicits.
Arguments PlanNote : clear implicits.
Arguments ChildPlan : clear implicits.
Arguments ScopePlan : clear implicits.
