(* ===== verification/PlanProps.v ===== *)
(** * Correctness of slots, builders and plans

    Every construction a caller defines has exactly one owner, whatever is
    lowered, dropped, taken or cancelled; lowering is all or nothing. *)

From S2P Require Import Prelude Identity Exit Policy Epochs Restart Lifecycle Mailbox Watch Gate Member MailboxMember Snapshot LifecycleHub.
From S2P Require Import Scope ScopeLogic ScopeClosed Plan.

Section props.
Context {M T F B R P : Type} `{!MailboxControl M T F} `{!Broadcast LifecycleEvent.t B R}.
Local Abbreviation Forest := (Forest M B).
Local Abbreviation Note := (Note T F).
Local Abbreviation Op := (@Op M T F B).
Local Abbreviation World := (World M B P).
Local Abbreviation PlanNote := (PlanNote T F P).
Local Abbreviation PlanOp := (@PlanOp M T F B P).
Local Abbreviation Construction := (ChildConstruction.t P).

Lemma plan_bind_inv {A C} (m : PlanOp A) (k : A -> PlanOp C) w c n w' :
  (m ≫= k) w = Ret (c, n, w') ->
  exists a n1 w1 n2, m w = Ret (a, n1, w1) /\ k a w1 = Ret (c, n2, w') /\ n = n1 ++ n2.
Proof.
  unfold mbind, plan_bind. intros H. apply bind_Ret_inv in H as ([[a n1] w1] & H1 & H).
  apply bind_Ret_inv in H as ([[b n2] w2] & H2 & H). simplify_eq. eauto 10.
Qed.

Lemma cell_inv {A} (m : Op A) (w : World) a (n : list PlanNote) w' :
  (cell m : PlanOp A) w = Ret (a, n, w') ->
  exists n' f', m (forest w) = Ret (a, n', f') /\ n = CellNote <$> n' /\ w' = set_forest f' w.
Proof. unfold cell. destruct (m (forest w)) as [[[b l] f']| |]; intros [= -> <- <-]; eauto. Qed.

Lemma get_slot_inv i w s n w' :
  (get_slot i : PlanOp _) w = Ret (s, n, w') -> slots w !! i = Some s /\ n = [] /\ w' = w.
Proof.
  intros H. apply bind_Ret_inv in H as (c0 & Hc & H). apply expect_inv in Hc. by simplify_eq.
Qed.

Lemma plan_lift_inv {A} (m : outcome A) w a n w' :
  (plan_lift m : PlanOp A) w = Ret (a, n, w') -> m = Ret a /\ n = [] /\ w' = w.
Proof. intros H. apply bind_Ret_inv in H as (c0 & Hc & H). by simplify_eq. Qed.

(** ** Where constructions are *)

Definition content (d : DefinitionState.t P) : list Construction :=
  match d with DefinitionState.Defined c => [c] | _ => [] end.

(** The constructions the slots hold. *)
Definition held_in (m : gmap nat (SlotCell.t P)) : list Construction :=
  concat ((fun s => content (SlotCell.definition s)) <$> (map_to_list m).*2).
Definition held (w : World) : list Construction := held_in (slots w).

Definition disposed (n : list PlanNote) : list Construction :=
  omap (fun x => match x with Disposed d => Some d | _ => None end) n.

Lemma disposed_app a b : disposed (a ++ b) = disposed a ++ disposed b.
Proof. apply omap_app. Qed.

Lemma disposed_cells (n : list Note) : disposed (CellNote <$> n : list PlanNote) = [].
Proof. by induction n. Qed.

Lemma held_in_lookup m i s :
  m !! i = Some s -> held_in m ≡ₚ content (SlotCell.definition s) ++ held_in (delete i m).
Proof.
  intros H. unfold held_in. rewrite <- (insert_delete_id m i s H) at 1.
  rewrite map_to_list_insert by apply lookup_delete_eq. done.
Qed.

Lemma held_in_insert m i s :
  m !! i = None -> held_in (<[i := s]> m) ≡ₚ content (SlotCell.definition s) ++ held_in m.
Proof. intros H. unfold held_in. by rewrite map_to_list_insert. Qed.

Lemma held_in_alter m i s d :
  m !! i = Some s ->
  content (SlotCell.definition s) ++ held_in (alter (SlotCell.set_definition d) i m) ≡ₚ
  content d ++ held_in m.
Proof.
  intros H. rewrite (held_in_lookup m i s H).
  rewrite (held_in_lookup (alter _ _ _) i (SlotCell.set_definition d s))
    by (by rewrite lookup_alter_eq, H).
  rewrite delete_alter_eq. simpl. by rewrite Permutation_app_swap_app.
Qed.

(** ** Ownership

    [owns g m o]: run with the constructions [g] at hand, [m] leaves those of
    its result [o] at hand; all others are in the slots or disposed of. *)
Definition owns {A} (g : list Construction) (m : PlanOp A) (o : A -> list Construction) : Prop :=
  forall w a n w', m w = Ret (a, n, w') -> g ++ held w ≡ₚ held w' ++ disposed n ++ o a.

Lemma plan_owns_ret {A} g (a : A) o : g = o a -> owns g (mret a : PlanOp A) o.
Proof. intros -> w b n w' H. cbv in H. simplify_eq. apply Permutation_app_comm. Qed.

Lemma plan_owns_bind {A C} g (m : PlanOp A) (k : A -> PlanOp C) o o' :
  owns g m o -> (forall a, owns (o a) (k a) o') -> owns g (m ≫= k) o'.
Proof.
  intros Hm Hk w c n w' H. apply plan_bind_inv in H as (a & n1 & w1 & n2 & H1 & H2 & ->).
  rewrite (Hm _ _ _ _ H1), disposed_app. specialize (Hk _ _ _ _ _ H2).
  rewrite <- app_assoc, (Permutation_app_swap_app (held w')), <- Hk.
  rewrite Permutation_app_comm, <- app_assoc. done.
Qed.

Lemma plan_owns_frame {A} x g (m : PlanOp A) o : owns g m o -> owns (x ++ g) m (fun a => x ++ o a).
Proof.
  intros Hm w a n w' H. rewrite <- app_assoc, (Hm _ _ _ _ H).
  rewrite Permutation_app_comm, <- !app_assoc. do 2 f_equiv. apply Permutation_app_comm.
Qed.

Lemma owns_cell {A} (m : Op A) : owns [] (cell m : PlanOp A) (fun _ => []).
Proof.
  intros w a n w' H. apply cell_inv in H as (n' & f' & _ & -> & ->).
  by rewrite disposed_cells, app_nil_r.
Qed.

Lemma plan_owns_lift {A} g (m : outcome A) o :
  (forall a, m = Ret a -> g = o a) -> owns g (plan_lift m : PlanOp A) o.
Proof.
  intros Hm w a n w' H. apply plan_lift_inv in H as (H & -> & ->). rewrite (Hm a H).
  apply Permutation_app_comm.
Qed.

Lemma owns_get_slot i : owns [] (get_slot i : PlanOp _) (fun _ => []).
Proof. intros w a n w' H. apply get_slot_inv in H as (_ & -> & ->). by rewrite app_nil_r. Qed.

Lemma owns_notes l : owns (disposed l) (plan_notes l : PlanOp ()) (fun _ => []).
Proof. intros w a n w' H. cbv [plan_notes] in H. simplify_eq. rewrite app_nil_r. apply Permutation_app_comm. Qed.

Lemma plan_owns_each {X} (g : X -> list Construction) (k : X -> PlanOp ()) l :
  (forall x, owns (g x) (k x) (fun _ => [])) -> owns (l ≫= g) (plan_each k l) (fun _ => []).
Proof.
  intros Hk. induction l as [|x l IH]; simpl; [by apply plan_owns_ret|].

  eapply (plan_owns_bind _ _ _ (fun _ => l ≫= g)); [|done].
  intros w a n w' H. rewrite <- app_assoc, Permutation_app_swap_app, (Hk x _ _ _ _ H), app_nil_r.
  rewrite Permutation_app_comm, <- app_assoc. done.
Qed.

Lemma owns_take_definition i :
  owns [] (take_definition i : PlanOp _)
    (fun r => match r with Ok (Some d) => [d] | _ => [] end).
Proof.
  intros w a n w' H. unfold take_definition in H.
  apply plan_bind_inv in H as (s & n1 & w1 & n2 & H1 & H & ->).
  apply get_slot_inv in H1 as (Hs & -> & ->).
  destruct (SlotCell.definition s) as [|d|] eqn:Ed;
    cbv [put_definition mret plan_ret mbind plan_bind outcome_bind] in H; simplify_eq; simpl;
    rewrite ?app_nil_r; try done.
  unfold held; simpl. pose proof (held_in_alter (slots w) i s DefinitionState.Lowered Hs) as Ha.
  rewrite Ed in Ha. simpl in Ha. rewrite <- Ha. apply Permutation_cons_append.
Qed.

Lemma owns_terminalize owner i :
  owns [] (terminalize_never_started owner i : PlanOp ()) (fun _ => []).
Proof. eapply plan_owns_bind; [apply owns_get_slot|intros; apply owns_cell]. Qed.

Lemma owns_take_never_started owner i :
  owns [] (take_never_started_locked owner i : PlanOp _) option_list.
Proof.
  eapply plan_owns_bind; [apply owns_take_definition|]. intros d.
  eapply plan_owns_bind; [by rewrite <- (app_nil_r (match d with Ok _ => _ | _ => _ end));
    apply plan_owns_frame, owns_terminalize|].
  intros u. apply plan_owns_ret. rewrite app_nil_r. by destruct d as [[d|]|].
Qed.

Lemma owns_resolve_and_take i defaults :
  owns [] (resolve_and_take_defined i defaults : PlanOp _)
    (fun r => option_list (fst <$> r)).
Proof.
  intros w a n w' H. unfold resolve_and_take_defined in H.
  apply plan_bind_inv in H as (s & n1 & w1 & n2 & H1 & H & ->).
  apply get_slot_inv in H1 as (Hs & -> & ->).
  destruct (SlotCell.definition s) as [|d|] eqn:Ed;
    cbv [put_definition mret plan_ret mbind plan_bind outcome_bind] in H; simplify_eq; simpl;
    rewrite ?app_nil_r; try done.
  unfold held; simpl. pose proof (held_in_alter (slots w) i s DefinitionState.Lowered Hs) as Ha.
  rewrite Ed in Ha. simpl in Ha. rewrite <- Ha. apply Permutation_cons_append.
Qed.

Lemma owns_define i d : owns [d] (define i d : PlanOp ()) (fun _ => []).
Proof.
  intros w a n w' H. unfold define in H.
  apply plan_bind_inv in H as (s & n1 & w1 & n2 & H1 & H & ->).
  apply get_slot_inv in H1 as (Hs & -> & ->).
  destruct (SlotCell.definition s) as [|d'|] eqn:Ed; cbv [put_definition plan_notes] in H;
    simplify_eq; simpl; try apply Permutation_cons_append.
  unfold held; simpl. pose proof (held_in_alter (slots w) i s (DefinitionState.Defined d) Hs) as Ha.
  rewrite Ed in Ha. simpl in Ha. by rewrite Ha, app_nil_r.
Qed.

Lemma owns_with_options i d o :
  owns [d] (with_options i d o : PlanOp _) (fun c => [cp_construction c]).
Proof.
  eapply (plan_owns_bind _ _ _ (fun _ => [d])); [exact (plan_owns_frame [d] [] _ _ (owns_get_slot i))|].
  intros s. eapply (plan_owns_bind _ _ _ (fun _ => [d])); [exact (plan_owns_frame [d] [] _ _ (owns_cell _))|].
  intros []. by apply plan_owns_ret.
Qed.

(** An operation that leaves the slots and disposes of nothing. *)
Definition keeps_slots {A} (m : PlanOp A) : Prop :=
  forall w a n w', m w = Ret (a, n, w') -> slots w' = slots w /\ disposed n = [].

Lemma owns_keeps {A} (m : PlanOp A) g : keeps_slots m -> owns g m (fun _ => g).
Proof.
  intros Hm w a n w' H. apply Hm in H as [Hs ->]. unfold held. rewrite Hs. apply Permutation_app_comm.
Qed.

Lemma keeps_ret {A} (a : A) : keeps_slots (mret a : PlanOp A).
Proof. intros w b n w' H. cbv in H. by simplify_eq. Qed.
Lemma keeps_bind {A C} (m : PlanOp A) (k : A -> PlanOp C) :
  keeps_slots m -> (forall a, keeps_slots (k a)) -> keeps_slots (m ≫= k).
Proof.
  intros Hm Hk w c n w' H. apply plan_bind_inv in H as (a & n1 & w1 & n2 & H1 & H2 & ->).
  apply Hm in H1 as [E1 D1]. apply Hk in H2 as [E2 D2]. rewrite disposed_app, D1, D2. by rewrite E2.
Qed.
Lemma keeps_cell {A} (m : Op A) : keeps_slots (cell m : PlanOp A).
Proof.
  intros w a n w' H. apply cell_inv in H as (n' & f' & _ & -> & ->). split; [done|apply disposed_cells].
Qed.
Lemma keeps_get_slot i : keeps_slots (get_slot i : PlanOp _).
Proof. intros w a n w' H. by apply get_slot_inv in H as (_ & -> & ->). Qed.
Lemma keeps_lift {A} (m : outcome A) : keeps_slots (plan_lift m : PlanOp A).
Proof. intros w a n w' H. by apply plan_lift_inv in H as (_ & -> & ->). Qed.
Lemma keeps_alloc_member i : keeps_slots (alloc_member i : PlanOp nat).
Proof. intros w a n w' H. cbv [alloc_member] in H. by simplify_eq. Qed.
Lemma keeps_alloc_scope m fl : keeps_slots (alloc_scope m fl : PlanOp nat).
Proof. intros w a n w' H. cbv [alloc_scope] in H. by simplify_eq. Qed.
Lemma keeps_mint parent id : keeps_slots (mint_membership parent id : PlanOp _).
Proof.
  intros w a n w' H. unfold mint_membership in H.
  apply bind_Ret_inv in H as (c & _ & H). apply bind_Ret_inv in H as ([[m next] i] & _ & H).
  by apply keeps_cell in H.
Qed.
Lemma keeps_each {X} (k : X -> PlanOp ()) l :
  (forall x, keeps_slots (k x)) -> keeps_slots (plan_each k l).
Proof. intros Hk. induction l; simpl; [apply keeps_ret|by apply keeps_bind]. Qed.
Lemma keeps_terminalize owner i : keeps_slots (terminalize_never_started owner i : PlanOp ()).
Proof. apply keeps_bind; [apply keeps_get_slot|intros; apply keeps_cell]. Qed.
Lemma keeps_resolve d i : keeps_slots (resolve_slot d i : PlanOp _).
Proof.
  apply keeps_bind; [apply keeps_bind; [apply keeps_get_slot|intros; apply keeps_ret]|].
  intros [[o|]|u]; [apply keeps_ret| |apply keeps_lift].
  apply keeps_bind; [apply keeps_get_slot|intros s].
  apply keeps_bind; [apply keeps_cell|intros; apply keeps_ret].
Qed.
Lemma keeps_resolve_all d l : keeps_slots (resolve_all d l : PlanOp _).
Proof.
  induction l; simpl; [apply keeps_ret|]. apply keeps_bind; [apply keeps_resolve|intros r].
  apply keeps_bind; [done|intros; apply keeps_ret].
Qed.
Lemma keeps_reconcile root i : keeps_slots (reconcile root i : PlanOp ()).
Proof. apply keeps_bind; [apply keeps_get_slot|intros; apply keeps_cell]. Qed.
Lemma keeps_drop_builder b : keeps_slots (drop_builder b : PlanOp ()).
Proof.
  unfold drop_builder, builder_terminalize. case_match; [|apply keeps_ret].
  apply keeps_bind; [apply keeps_each; intros; apply keeps_terminalize|intros; apply keeps_cell].
Qed.
Lemma keeps_terminalize_plan p : keeps_slots (terminalize_plan p : PlanOp ()).
Proof.
  unfold terminalize_plan. case_match; [|apply keeps_ret].
  apply keeps_bind; [apply keeps_each; intros; apply keeps_terminalize|intros; apply keeps_cell].
Qed.

(** ** Handles are fresh *)

Lemma fresh_index_bound {X} (m : gmap nat X) k x : m !! k = Some x -> (k < fresh_index m)%nat.
Proof.
  unfold fresh_index. revert k x. 
  refine (map_fold_weak_ind (fun n m => forall k x, m !! k = Some x -> (k < n)%nat) _ _ _ _ m).
  - intros k x H. by rewrite lookup_empty in H.
  - intros i y m' n Hi IH k x H. apply lookup_insert_Some in H as [[-> _]|[_ H]]; [lia|].
    apply IH in H. lia.
Qed.

Lemma fresh_index_None {X} (m : gmap nat X) : m !! fresh_index m = None.
Proof.
  destruct (m !! fresh_index m) eqn:E; [|done]. apply fresh_index_bound in E. lia.
Qed.

Lemma owns_mint_reserved parent id scope :
  owns [] (mint_reserved_slot parent id scope : PlanOp nat) (fun _ => []).
Proof.
  eapply plan_owns_bind; [apply owns_keeps, keeps_mint|intros identity].
  eapply plan_owns_bind; [apply owns_keeps, keeps_alloc_member|intros m].
  eapply (plan_owns_bind _ _ _ (fun _ => [])); [apply owns_keeps; destruct scope; [|apply keeps_ret]|].
  { apply keeps_bind; [apply keeps_alloc_scope|intros; apply keeps_ret]. }
  intros sc w a n w' H. cbv [alloc_slot] in H. simplify_eq. simpl.
  unfold held. simpl. by rewrite held_in_insert, app_nil_r by apply fresh_index_None.
Qed.

Lemma owns_reserve b id scope : owns [] (reserve b id scope : PlanOp _) (fun _ => []).
Proof.
  unfold reserve. destruct (non_empty_id id); [|by apply plan_owns_ret].
  case_decide; [by apply plan_owns_ret|].
  eapply plan_owns_bind; [apply owns_mint_reserved|intros; by apply plan_owns_ret].
Qed.

Lemma owns_failed_disposal b : owns [] (begin_failed_disposal b : PlanOp ()) (fun _ => []).
Proof.
  unfold begin_failed_disposal. induction (b_slots b) as [|i l IH]; simpl; [by apply plan_owns_ret|].
  eapply (plan_owns_bind _ _ _ (fun _ => [])); [|intros; apply IH].
  eapply plan_owns_bind; [apply owns_take_definition|]. intros [[d|]|u]; simpl;
    [apply (owns_notes [Disposed d])|apply (owns_notes [])..].
Qed.

Lemma owns_lower_children l :
  owns [] (lower_children l : PlanOp _) (fun cs => cp_construction <$> cs).
Proof.
  induction l as [|[i o] l IH]; simpl; [by apply plan_owns_ret|].
  eapply plan_owns_bind; [apply owns_take_definition|intros r].
  eapply (plan_owns_bind _ _ _ (fun d => [d])).
  { apply plan_owns_lift. intros d H. destruct r as [[d'|]|]; by simplify_eq. }
  intros d. eapply plan_owns_bind; [apply owns_with_options|intros c].
  eapply plan_owns_bind; [exact (plan_owns_frame [cp_construction c] [] _ _ IH)|].
  intros cs. by apply plan_owns_ret.
Qed.

Lemma owns_lower b inherited override :
  owns [] (lower b inherited override : PlanOp _)
    (fun r => match r with Ok p => cp_construction <$> sp_children p | Err _ => [] end).
Proof.
  unfold lower. eapply (plan_owns_bind _ _ _ (fun _ => [])); [apply owns_keeps, keeps_resolve_all|intros rs].
  case_decide.
  - eapply (plan_owns_bind _ _ _ (fun _ => [])).
    { apply owns_keeps. case_decide; [apply keeps_ret|apply keeps_each; intros; apply keeps_reconcile]. }
    intros ?. eapply (plan_owns_bind _ _ _ (fun _ => [])); [apply owns_keeps, keeps_cell|intros ?].
    eapply plan_owns_bind; [apply owns_lower_children|intros cs; by apply plan_owns_ret].
  - eapply plan_owns_bind; [apply owns_failed_disposal|intros ?].
    eapply (plan_owns_bind _ _ _ (fun _ => [])); [apply owns_keeps, keeps_drop_builder|intros ?].
    by apply plan_owns_ret.
Qed.

Lemma owns_drop_plan p :
  owns (cp_construction <$> sp_children p) (drop_plan p : PlanOp ()) (fun _ => []).
Proof.
  unfold drop_plan. eapply plan_owns_bind; [apply owns_keeps, keeps_terminalize_plan|intros ?].
  simpl. replace (cp_construction <$> sp_children p)
    with (disposed ((fun c => Disposed (cp_construction c)) <$> sp_children p : list PlanNote));
    [apply owns_notes|].
  induction (sp_children p); simpl; [done|by f_equal].
Qed.

(** ** Histories

    A yard holds the builders and plans in flight and the constructions that
    child runtimes took over. *)
Record Yard := mkYard
  { world : World;
    builders : gmap nat BuilderCore;
    plans : gmap nat (ScopePlan P);
    running : list Construction }.

Inductive YardOp :=
| YNew (flavor : ScopeFlavor)
| YReserve (b : nat) (id : ChildId) (scope : option ScopeFlavor)
| YDefine (i : nat) (d : Construction)
| YLower (b : nat) (inherited : ResolvedDefaults) (root_override : option nat)
| YDropBuilder (b : nat)
| YDropPlan (p : nat)
| YStartChild (p : nat)                (** a runtime takes the plan's next child *)
| YFinishTransfer (p : nat)
| YAdmit (i : nat) (defaults : ResolvedDefaults)   (** a dynamic admission claims a slot *)
| YCancel (owner i : nat).                         (** a reservation is withdrawn *)

Definition builder_at (y : Yard) (b : nat) : outcome BuilderCore :=
  expect "a builder" (builders y !! b).
Definition plan_at (y : Yard) (p : nat) : outcome (ScopePlan P) := expect "a plan" (plans y !! p).

Definition drop_child (p : ScopePlan P) : ScopePlan P :=
  mkScopePlan (sp_root p) (sp_intensity p) (sp_defaults p) (tail (sp_children p))
    (terminality_owed p).

Definition yard_exec (y : Yard) (o : YardOp) : outcome (list PlanNote * Yard) :=
  match o with
  | YNew flavor =>
      '(b, n, w) ← (builder_new flavor : PlanOp _) (world y);
      Ret (n, mkYard w (<[fresh_index (builders y) := b]> (builders y)) (plans y) (running y))
  | YReserve b id scope =>
      core ← builder_at y b;
      '(_, core, n, w) ← (reserve core id scope : PlanOp _) (world y);
      Ret (n, mkYard w (<[b := core]> (builders y)) (plans y) (running y))
  | YDefine i d =>
      '(_, n, w) ← (define i d : PlanOp _) (world y);
      Ret (n, mkYard w (builders y) (plans y) (running y))
  | YLower b inherited root_override =>
      core ← builder_at y b;
      '(r, n, w) ← (lower core inherited root_override : PlanOp _) (world y);
      Ret (n, mkYard w (delete b (builders y))
                (match r with
                 | Ok p => <[fresh_index (plans y) := p]> (plans y)
                 | Err _ => plans y
                 end) (running y))
  | YDropBuilder b =>
      core ← builder_at y b;
      '(_, n, w) ← (drop_builder core : PlanOp _) (world y);
      Ret (n, mkYard w (delete b (builders y)) (plans y) (running y))
  | YDropPlan p =>
      plan ← plan_at y p;
      '(_, n, w) ← (drop_plan plan : PlanOp _) (world y);
      Ret (n, mkYard w (builders y) (delete p (plans y)) (running y))
  | YStartChild p =>
      plan ← plan_at y p;
      Ret ([], mkYard (world y) (builders y) (<[p := drop_child plan]> (plans y))
                 (option_list (cp_construction <$> head (sp_children plan)) ++ running y))
  | YFinishTransfer p =>
      plan ← plan_at y p;
      '(_, n, w) ← (finish_transfer plan : PlanOp _) (world y);
      Ret (n, mkYard w (builders y) (delete p (plans y)) (running y))
  | YAdmit i defaults =>
      '(r, n, w) ← (resolve_and_take_defined i defaults : PlanOp _) (world y);
      Ret (n, mkYard w (builders y) (plans y) (option_list (fst <$> r) ++ running y))
  | YCancel owner i =>
      '(d, n, w) ← (take_never_started_locked owner i : PlanOp _) (world y);
      Ret (n ++ (Disposed <$> option_list d), mkYard w (builders y) (plans y) (running y))
  end.

Definition planned (m : gmap nat (ScopePlan P)) : list Construction :=
  concat ((fun p => cp_construction <$> sp_children p) <$> (map_to_list m).*2).

(** Every construction with an owner. *)
Definition owned (y : Yard) : list Construction := held (world y) ++ planned (plans y) ++ running y.

(** The constructions a history was given. *)
Definition offered (ops : list YardOp) : list Construction :=
  omap (fun o => match o with YDefine _ d => Some d | _ => None end) ops.

Lemma offered_app a b : offered (a ++ b) = offered a ++ offered b.
Proof. apply omap_app. Qed.

Lemma planned_lookup m p plan :
  m !! p = Some plan -> planned m ≡ₚ (cp_construction <$> sp_children plan) ++ planned (delete p m).
Proof.
  intros H. unfold planned. rewrite <- (insert_delete_id m p plan H) at 1.
  rewrite map_to_list_insert by apply lookup_delete_eq. done.
Qed.

Lemma planned_insert m p plan :
  m !! p = None -> planned (<[p := plan]> m) ≡ₚ (cp_construction <$> sp_children plan) ++ planned m.
Proof. intros H. unfold planned. by rewrite map_to_list_insert. Qed.

Lemma disposed_moved l : disposed (Disposed <$> l : list PlanNote) = l.
Proof. induction l; simpl; [done|by f_equal]. Qed.

(** One operation's account, in the context [rest] of the other owners. *)
Lemma account (off g hw hw' dn out rest rest1 rest' : list Construction) :
  g ++ hw ≡ₚ hw' ++ dn ++ out -> off ++ rest ≡ₚ g ++ rest1 -> out ++ rest1 ≡ₚ rest' ->
  off ++ hw ++ rest ≡ₚ (hw' ++ rest') ++ dn.
Proof.
  intros H1 H2 H3. rewrite <- H3. trans ((off ++ rest) ++ hw); [solve_Permutation|].
  rewrite H2. trans ((g ++ hw) ++ rest1); [solve_Permutation|]. rewrite H1. solve_Permutation.
Qed.

Lemma owns_builder_new fl : owns [] (builder_new fl : PlanOp _) (fun _ => []).
Proof.
  intros w b n w' H. apply bind_Ret_inv in H as ([[identity next] i] & _ & H).
  assert (keeps_slots (m ← alloc_member identity; s ← alloc_scope m fl;
    mret (mkBuilder s Intensity.default scope_defaults_default [] ∅ None true) : PlanOp _)) as Hk.
  { apply keeps_bind; [apply keeps_alloc_member|intros m].
    apply keeps_bind; [apply keeps_alloc_scope|intros; apply keeps_ret]. }
  by apply (owns_keeps _ [] Hk) in H.
Qed.

Lemma yard_exec_owned y o n y' :
  yard_exec y o = Ret (n, y') -> offered [o] ++ owned y ≡ₚ owned y' ++ disposed n.
Proof.
  unfold owned. destruct o as [fl|b id sc|i d|b inh ov|b|p|p|p|i df|ow i]; simpl; intros H;
    try (apply bind_Ret_inv in H as (x & Hx & H); try apply expect_inv in Hx).
  - destruct x as [[core l] w]. simplify_eq. simpl. apply owns_builder_new in Hx.
    by eapply (account [] []).
  - apply bind_Ret_inv in H as ([[[r core] l] w] & H1 & H). simplify_eq.
    apply owns_reserve in H1. by eapply (account [] []).
  - destruct x as [[[] l] w]. simplify_eq. apply owns_define in Hx.
    eapply (account [d] [d]); [exact Hx|done|done].
  - apply bind_Ret_inv in H as ([[r l] w] & H1 & H). simplify_eq. apply owns_lower in H1.
    eapply (account [] []); [exact H1|done|]. simpl. destruct r as [plan|]; [|done].
    rewrite planned_insert by apply fresh_index_None. solve_Permutation.
  - apply bind_Ret_inv in H as ([[[] l] w] & H1 & H). simplify_eq.
    apply (owns_keeps _ [] (keeps_drop_builder x)) in H1. by eapply (account [] []).
  - apply bind_Ret_inv in H as ([[[] l] w] & H1 & H). simplify_eq. apply owns_drop_plan in H1.
    eapply (account [] _ _ _ _ _ _ (planned (delete p (plans y)) ++ running y));
      [exact H1|simpl; rewrite (planned_lookup _ _ _ Hx); solve_Permutation|done].
  - simplify_eq. simpl. rewrite app_nil_r. f_equiv. rewrite (planned_lookup _ _ _ Hx).
    rewrite <- insert_delete_eq, planned_insert by apply lookup_delete_eq.
    simpl. destruct (sp_children x) as [|c cs]; simpl; [done|].
    by rewrite <- Permutation_middle.
  - apply bind_Ret_inv in H as ([[[] l] w] & H1 & H). simplify_eq. unfold finish_transfer in H1.
    apply plan_bind_inv in H1 as (u & n1 & w1 & n2 & H1 & H2 & ->).
    apply plan_lift_inv in H1 as (_ & -> & ->). apply owns_drop_plan in H2. simpl in H2.
    eapply (account [] _ _ _ _ _ _ (planned (delete p (plans y)) ++ running y));
      [exact H2|simpl; rewrite (planned_lookup _ _ _ Hx); solve_Permutation|done].
  - destruct x as [[r l] w]. simplify_eq. apply owns_resolve_and_take in Hx.
    eapply (account [] []); [exact Hx|done|]. simpl. solve_Permutation.
  - destruct x as [[r l] w]. simplify_eq. apply owns_take_never_started in Hx.
    rewrite disposed_app, disposed_moved. simpl in *. rewrite Hx. solve_Permutation.
Qed.

(** C22: every construction has exactly one owner.  Over any history of
    reservations, definitions, lowerings, transfers to a runtime, dynamic
    admissions, cancellations and drops, the constructions given are those in
    the slots, in the plans and with the runtimes, plus those handed to
    disposal: none is lost, duplicated or disposed of twice. *)
Theorem constructions_conserved ops y ns y' :
  run_ops yard_exec y ops = Ret (ns, y') ->
  offered ops ++ owned y ≡ₚ owned y' ++ disposed (concat ns).
Proof.
  revert y ns. induction ops as [|o ops IH]; intros y ns H; simpl in H.
  { simplify_eq. simpl. by rewrite app_nil_r. }
  apply bind_Ret_inv in H as ([n y1] & H1 & H). apply bind_Ret_inv in H as ([l y2] & H2 & H).
  simplify_eq. cbn [concat]. rewrite disposed_app. apply yard_exec_owned in H1. apply IH in H2.
  change (offered (o :: ops)) with (offered ([o] ++ ops)). rewrite offered_app. trans (offered ops ++ (offered [o] ++ owned y)); [solve_Permutation|].
  rewrite H1. trans ((offered ops ++ owned y1) ++ disposed n); [solve_Permutation|].
  rewrite H2. solve_Permutation.
Qed.

(** ** Lowering *)

Lemma plan_ret_inv {A} (a b : A) w n w' :
  (mret a : PlanOp A) w = Ret (b, n, w') -> b = a /\ n = [] /\ w' = w.
Proof. intros H. cbv in H. by simplify_eq. Qed.

(** What one slot resolves to. *)
Definition resolution (w : World) (defaults : ResolvedDefaults) (i : nat)
    (r : result ResolvedCommonOptions ChildId) : Prop :=
  exists s, slots w !! i = Some s /\
  match r with
  | Ok o => exists d, SlotCell.definition s = DefinitionState.Defined d /\
                      o = resolve_defined_policy d defaults
  | Err id => SlotCell.definition s = DefinitionState.Undefined /\
              exists c, members (forest w) !! SlotCell.member s = Some c /\ id = MemberCell.id c
  end.

Lemma resolve_slot_inv defaults i w r n w' :
  (resolve_slot defaults i : PlanOp _) w = Ret (r, n, w') -> resolution w defaults i r /\ n = [] /\ w' = w.
Proof.
  intros H. unfold resolve_slot, resolve_policy_for_lowering in H.
  apply plan_bind_inv in H as (x & n1 & w1 & n2 & H1 & H & ->).
  apply plan_bind_inv in H1 as (s & n3 & w3 & n4 & H1 & H2 & ->).
  apply get_slot_inv in H1 as (Hs & -> & ->). apply plan_ret_inv in H2 as (-> & -> & ->).
  destruct (SlotCell.definition s) as [|d|] eqn:Ed.
  - apply plan_bind_inv in H as (s' & n1 & w1 & n3 & H1 & H & ->).
    apply get_slot_inv in H1 as (Hs' & -> & ->). simplify_eq.
    apply plan_bind_inv in H as (c & n1 & w1 & n4 & H1 & H & ->).
    apply cell_inv in H1 as (l & f' & Hm & -> & ->). apply get_member_inv in Hm as (Hm & -> & ->).
    apply plan_ret_inv in H as (-> & -> & ->). split; [|by destruct w]. exists s. eauto.
  - apply plan_ret_inv in H as (-> & -> & ->). split; [|done]. exists s. eauto.
  - apply plan_lift_inv in H as (H & _). done.
Qed.

Lemma resolve_all_inv defaults l w rs n w' :
  (resolve_all defaults l : PlanOp _) w = Ret (rs, n, w') ->
  Forall2 (resolution w defaults) l rs /\ n = [] /\ w' = w.
Proof.
  revert rs n w'. induction l as [|i l IH]; intros rs n w' H; simpl in H.
  { apply plan_ret_inv in H as (-> & -> & ->). by split. }
  apply plan_bind_inv in H as (r & n1 & w1 & n2 & H1 & H & ->).
  apply resolve_slot_inv in H1 as (Hr & -> & ->).
  apply plan_bind_inv in H as (rs' & n1 & w1 & n3 & H1 & H & ->).
  apply IH in H1 as (Hrs & -> & ->). apply plan_ret_inv in H as (-> & -> & ->).
  split; [by constructor|done].
Qed.

(** The construction a slot holds. *)
Definition content_at (w : World) (i : nat) : list Construction :=
  match slots w !! i with Some s => content (SlotCell.definition s) | None => [] end.

Definition lowered_at (w : World) (i : nat) : Prop :=
  exists s, slots w !! i = Some s /\ SlotCell.definition s = DefinitionState.Lowered.

(** Taking a slot's definition leaves the other slots. *)
Lemma take_definition_inv i w r n w' :
  (take_definition i : PlanOp _) w = Ret (r, n, w') ->
  n = [] /\ (forall j, j <> i -> slots w' !! j = slots w !! j) /\ content_at w' i = [] /\
  content_at w i = match r with Ok (Some d) => [d] | _ => [] end /\
  (forall d, r = Ok (Some d) -> lowered_at w' i).
Proof.
  intros H. unfold take_definition in H. apply plan_bind_inv in H as (s & n1 & w1 & n2 & H1 & H & ->).
  apply get_slot_inv in H1 as (Hs & -> & ->). unfold content_at, lowered_at. rewrite Hs.
  destruct (SlotCell.definition s) as [|d|] eqn:Ed.
  - apply plan_ret_inv in H as (-> & -> & ->). by rewrite Hs, Ed.
  - apply plan_bind_inv in H as (u & n1 & w1 & n3 & H1 & H & ->). cbv [put_definition] in H1.
    apply plan_ret_inv in H as (-> & -> & ->). injection H1 as <- <- <-. simpl.
    rewrite lookup_alter_eq, Hs. simpl. split; [done|]. split; [|split; [done|split; [done|]]].
    + intros j Hj. by rewrite lookup_alter_ne.
    + intros d' _. by exists (SlotCell.set_definition DefinitionState.Lowered s).
  - apply plan_ret_inv in H as (-> & -> & ->). by rewrite Hs, Ed.
Qed.

Lemma content_at_eq w w' i : slots w' !! i = slots w !! i -> content_at w' i = content_at w i.
Proof. unfold content_at. by intros ->. Qed.

Lemma bind_ext_in {X Y} (g h : X -> list Y) (l : list X) :
  (forall x, x ∈ l -> g x = h x) -> l ≫= g = l ≫= h.
Proof.
  induction l as [|x l IH]; intros Hgh; simpl; [done|]. rewrite (Hgh x) by apply list_elem_of_here.
  f_equal. apply IH. intros y Hy. apply Hgh. by apply list_elem_of_further.
Qed.

(** The failed path takes every definition, in order. *)
Lemma failed_disposal_inv b w u n w' :
  NoDup (b_slots b) -> (begin_failed_disposal b : PlanOp ()) w = Ret (u, n, w') ->
  disposed n = b_slots b ≫= content_at w /\ Forall (fun i => content_at w' i = []) (b_slots b).
Proof.
  unfold begin_failed_disposal. intros Hnd H.
  enough (disposed n = b_slots b ≫= content_at w /\ Forall (fun i => content_at w' i = []) (b_slots b) /\
          forall j, j ∉ b_slots b -> slots w' !! j = slots w !! j) by naive_solver.
  revert w u n H. induction Hnd as [|i l Hi Hnd IH]; intros w u n H; simpl in H.
  { apply plan_ret_inv in H as (-> & -> & ->). by repeat split. }
  apply plan_bind_inv in H as (v & n1 & w1 & n2 & H1 & H & ->).
  apply plan_bind_inv in H1 as (r & n3 & w3 & n4 & H1 & H2 & ->).
  apply take_definition_inv in H1 as (-> & Ho & Hc' & Hc & _). cbv [plan_notes] in H2.
  injection H2 as <- <- <-. apply IH in H as (Hd & Hf & Hk). rewrite disposed_app, Hd. split; [|split].
  - simpl. rewrite Hc. f_equal; [by destruct r as [[d|]|]|]. apply bind_ext_in. intros j Hj. apply content_at_eq, Ho. by intros ->.
  - constructor; [|done]. rewrite (content_at_eq w3) by by apply Hk. done.
  - intros j [Hj Hl]%not_elem_of_cons. by rewrite Hk, Ho.
Qed.

Lemma lower_children_inv l w cs n w' :
  NoDup l.*1 -> (lower_children l : PlanOp _) w = Ret (cs, n, w') ->
  cp_slot <$> cs = l.*1 /\ cp_options <$> cs = l.*2 /\
  Forall (fun c => content_at w (cp_slot c) = [cp_construction c]) cs /\
  Forall (lowered_at w') l.*1 /\ (forall j, j ∉ l.*1 -> slots w' !! j = slots w !! j) /\ disposed n = [].
Proof.
  revert w cs n. induction l as [|[i o] l IH]; intros w cs n Hnd H; simpl in H.
  { apply plan_ret_inv in H as (-> & -> & ->). by repeat split. }
  inversion Hnd as [|? ? Hi Hnd']; subst.
  apply plan_bind_inv in H as (r & n1 & w1 & n2 & H1 & H & ->).
  apply take_definition_inv in H1 as (-> & Ho & _ & Hc & Hl).
  apply plan_bind_inv in H as (d & n1 & w2 & n3 & H1 & H & ->).
  apply plan_lift_inv in H1 as (Hr & -> & ->).
  assert (r = Ok (Some d)) as -> by (by destruct r as [[d'|]|]; simplify_eq). clear Hr.
  apply plan_bind_inv in H as (c & n1 & w2 & n4 & H1 & H & ->).
  assert (slots w2 = slots w1 /\ disposed n1 = [] /\ c = mkChildPlan i d o) as (Hw2 & Hn1 & ->).
  { unfold with_options in H1. apply plan_bind_inv in H1 as (s & m1 & v1 & m2 & H1 & H2 & ->).
    apply get_slot_inv in H1 as (_ & -> & ->).
    apply plan_bind_inv in H2 as (u & m1 & v1 & m3 & H1 & H2 & ->).
    apply keeps_cell in H1 as [Hv1 Hm1]. apply plan_ret_inv in H2 as (-> & -> & ->).
    by rewrite Hv1, app_nil_r. }
  apply plan_bind_inv in H as (cs' & n5 & w3 & n6 & H & H2 & ->).
  apply plan_ret_inv in H2 as (-> & -> & ->).
  apply IH in H as (E1 & E2 & E3 & E4 & E5 & E6); [|done]. rewrite !fmap_cons.
  split; [by f_equal|]. split; [by f_equal|]. rewrite !disposed_app, Hn1, E6. split; [|split; [|split; [|done]]].
  - constructor; [done|]. apply Forall_forall. intros c Hcin. rewrite Forall_forall in E3.
    rewrite <- (E3 c Hcin). apply content_at_eq. rewrite Hw2. symmetry. apply Ho. intros Heq.
    apply Hi. simpl. rewrite <- Heq. change (cp_slot c ∈ l.*1). rewrite <- E1.
    by apply list_elem_of_fmap_2.
  - constructor; [|done]. destruct (Hl d eq_refl) as (s & Hs & Hd). exists s.
    by rewrite E5, Hw2 by done.
  - intros j [Hj Hjl]%not_elem_of_cons. by rewrite E5, Hw2, Ho.
Qed.

(** The id of a slot without a definition. *)
Definition undefined_at (w : World) (i : nat) : list ChildId :=
  match slots w !! i with
  | Some s =>
      match SlotCell.definition s with
      | DefinitionState.Undefined =>
          option_list (MemberCell.id <$> members (forest w) !! SlotCell.member s)
      | _ => []
      end
  | None => []
  end.

Lemma unresolved_undefined w defaults l rs :
  Forall2 (resolution w defaults) l rs -> unresolved rs = l ≫= undefined_at w.
Proof.
  induction 1 as [|i r l rs (s & Hs & Hr) _ IH]; [done|]. simpl. unfold undefined_at at 1. rewrite Hs.
  destruct r as [o|id]; simpl.
  - destruct Hr as (d & -> & _). exact IH.
  - destruct Hr as (-> & c & -> & ->). simpl. by f_equal.
Qed.

(** Once all are resolved, each option is its own slot's. *)
Lemma all_resolved w defaults l rs :
  Forall2 (resolution w defaults) l rs -> unresolved rs = [] ->
  Forall2 (fun i o => exists d, content_at w i = [d] /\ o = resolve_defined_policy d defaults)
    l (resolutions rs).
Proof.
  induction 1 as [|i r l rs (s & Hs & Hr) _ IH]; intros Hu; [constructor|].
  destruct r as [o|id]; [|done]. destruct Hr as (d & Hd & ->). simpl. constructor; [|by apply IH].
  exists d. unfold content_at. by rewrite Hs, Hd.
Qed.

Lemma lowered_children w w1 defaults l os cs :
  Forall2 (fun i o => exists d, content_at w i = [d] /\ o = resolve_defined_policy d defaults) l os ->
  slots w1 = slots w -> cp_slot <$> cs = l -> cp_options <$> cs = os ->
  Forall (fun c => content_at w1 (cp_slot c) = [cp_construction c]) cs ->
  Forall2 (fun i c => cp_slot c = i /\ content_at w i = [cp_construction c] /\
                      cp_options c = resolve_defined_policy (cp_construction c) defaults) l cs.
Proof.
  intros H Hs <- <-. induction cs as [|c cs IH]; intros Hc; [constructor|].
  inversion H as [|? ? ? ? (d & Hd & Ho) H']; inversion Hc as [|? ? E Hc']; subst.
  constructor; [|by apply IH]. rewrite (content_at_eq w) in E by by rewrite Hs.
  rewrite E in Hd. injection Hd as <-. by rewrite E.
Qed.

(** Lowering is all or nothing.  A success takes every slot's definition
    into the plan, in reservation order, with the options its own policy
    resolves to under the builder's defaults, and disposes of nothing; a failure
    names exactly the undefined slots, in order, hands every definition there
    was to disposal, in order, and leaves none in a slot. *)
Theorem lower_all_or_nothing b inherited override w r n w' :
  NoDup (b_slots b) ->
  (lower b inherited override : PlanOp _) w = Ret (r, n, w') ->
  match r with
  | Ok p =>
      b_slots b ≫= undefined_at w = [] /\
      Forall2 (fun i c => cp_slot c = i /\ content_at w i = [cp_construction c] /\
                 cp_options c = resolve_defined_policy (cp_construction c)
                                  (overlay inherited (b_defaults b)))
        (b_slots b) (sp_children p) /\
      Forall (lowered_at w') (b_slots b) /\ disposed n = [] /\ terminality_owed p = true
  | Err ids =>
      ids = b_slots b ≫= undefined_at w /\ ids <> [] /\
      disposed n = b_slots b ≫= content_at w /\
      Forall (fun i => content_at w' i = []) (b_slots b)
  end.
Proof.
  intros Hnd H. unfold lower in H. apply plan_bind_inv in H as (rs & n1 & w1 & n2 & H1 & H & ->).
  apply resolve_all_inv in H1 as (Hrs & -> & ->).
  pose proof (unresolved_undefined _ _ _ _ Hrs) as Hu. case_decide as Hd.
  - apply plan_bind_inv in H as (u & n1 & w1 & n3 & H1 & H & ->).
    assert (slots w1 = slots w /\ disposed n1 = []) as [Hw1 Hn1].
    { revert H1. refine ((_ : keeps_slots _) w u n1 w1).
      case_decide; [apply keeps_ret|apply keeps_each; intros; apply keeps_reconcile]. }
    apply plan_bind_inv in H as (u' & n4 & w2 & n5 & H2 & H & ->). apply keeps_cell in H2 as [Hw2 Hn4].
    apply plan_bind_inv in H as (cs & n6 & w3 & n7 & H3 & H & ->).
    apply plan_ret_inv in H as (-> & -> & ->). simpl.
    pose proof (all_resolved _ _ _ _ Hrs Hd) as Ha. pose proof (Forall2_length _ _ _ Ha) as Hlen.
    apply lower_children_inv in H3 as (E1 & E2 & E3 & E4 & _ & E6);
      [|by rewrite fst_zip by lia].
    rewrite fst_zip in E1, E4 by lia. rewrite snd_zip in E2 by lia.
    split; [by rewrite <- Hu|]. split; [|split; [done|]].
    + eapply lowered_children; [exact Ha| |exact E1|exact E2|exact E3]. by rewrite Hw2.
    + by rewrite !disposed_app, Hn1, Hn4, E6.
  - apply plan_bind_inv in H as (u & n1 & w1 & n3 & H1 & H & ->).
    apply failed_disposal_inv in H1 as [Hdis Hc]; [|done].
    apply plan_bind_inv in H as (u' & n4 & w2 & n5 & H2 & H & ->).
    apply keeps_drop_builder in H2 as [Hw2 Hn4]. apply plan_ret_inv in H as (-> & -> & ->).
    split; [done|]. split; [done|]. rewrite !disposed_app, Hdis, Hn4. simpl.
    split; [by rewrite app_nil_r|]. eapply Forall_impl; [exact Hc|]. intros i E. simpl in E.
    rewrite <- E. apply content_at_eq. by rewrite Hw2.
Qed.
End props.

(** ** What a dropped owner owes

    A builder that is dropped or fails to lower, and a plan dropped before a
    runtime took it over, publish every slot they own, and their own scope, as
    terminal: no handle that was given out waits forever. *)

Section terminal.
Context {M T F B R P : Type} `{!MailboxControl M T F} `{!Broadcast LifecycleEvent.t B R}.
Local Abbreviation Forest := (Forest M B).
Local Abbreviation Note := (Note T F).
Local Abbreviation Op := (@Op M T F B).
Local Abbreviation World := (World M B P).
Local Abbreviation PlanNote := (PlanNote T F P).
Local Abbreviation PlanOp := (@PlanOp M T F B P).

(** A slot's scope is its member's. *)
Definition slot_paired (w : World) (i : nat) : Prop :=
  forall s, slots w !! i = Some s ->
    projection_ok (forest w) (ResidentProjection.new (SlotCell.member s) (SlotCell.scope s)).

(** The slot's membership has ended. *)
Definition slot_terminal (w : World) (i : nat) : Prop :=
  exists s, slots w !! i = Some s /\ terminal (forest w) (SlotCell.member s).

(** A step on the cells alone, which keeps the slots. *)
Record cells_step (w w' : World) : Prop := mkCellsStep
  { cs_slots : slots w' = slots w;
    cs_inv : closed_inv (forest w');
    cs_steady : steady (forest w) (forest w') }.

Lemma cells_refl w : closed_inv (forest w) -> cells_step w w.
Proof. intros H. split; [done|done|apply steady_refl]. Qed.

Lemma cells_trans w w1 w2 : cells_step w w1 -> cells_step w1 w2 -> cells_step w w2.
Proof.
  intros [H1 H2 H3] [K1 K2 K3]. split; [by rewrite K1|done|by eapply steady_trans].
Qed.

Lemma cells_paired w w' i : cells_step w w' -> slot_paired w i -> slot_paired w' i.
Proof.
  intros [H1 _ H3] Hp s Hs. rewrite H1 in Hs. eapply steady_projection; [exact H3|by apply Hp].
Qed.

Lemma cells_terminal w w' i : cells_step w w' -> slot_terminal w i -> slot_terminal w' i.
Proof.
  intros [H1 _ H3] (s & Hs & Ht). exists s. split; [by rewrite H1|by apply (sd_terminal _ _ H3)].
Qed.

Lemma cell_step {A} (m : Op A) w a (n : list PlanNote) w' :
  (cell m : PlanOp A) w = Ret (a, n, w') -> respects settling m -> closed_inv (forest w) ->
  cells_step w w'.
Proof.
  intros H Hm Hw. apply cell_inv in H as (n' & f' & H & -> & ->).
  destruct (Hm _ _ _ _ H Hw) as [Hf Hs]. by split.
Qed.

(** A scope published as never started is terminal, whether or not it was. *)
Lemma never_started_scope s f a n f' :
  (terminalize_never_started_locked s : Op ()) f = Ret (a, n, f') -> closed_inv f ->
  terminal_scope s f'.
Proof.
  intros H Hf. pose proof (settling_never_started _ _ _ _ _ H Hf) as [Hf' Hs].
  unfold terminalize_never_started_locked, scope_is_closed in H.
  apply bind_inv in H as (b & n1 & f1 & n2 & H1 & H & ->).
  apply bind_inv in H1 as (c & n3 & f3 & n4 & H1 & H2 & ->). apply get_scope_inv in H1 as (Hc & -> & ->).
  cbv [mret op_ret] in H2. injection H2 as <- <- <-.
  destruct (lifecycle_is_closed (ScopeCell.lifecycle c)) eqn:Ecl.
  - cbv [mret op_ret] in H. injection H as <- <- <-. intros c' Hc'. simplify_eq.
    by eapply (ci_closed _ Hf).
  - apply bind_inv in H as (c' & n1 & f1 & n3 & H1 & H & ->). apply get_scope_inv in H1 as (Hc' & -> & ->).
    rewrite Hc in Hc'. injection Hc' as <-. apply bind_inv in H as (x & n1 & f1 & n4 & H1 & H & ->).
    apply terminalize_inv in H1 as (Hs1 & Ht & Hsc). destruct (Hs1 Hf) as [Hf1 S1].
    eapply cell_terminal with (m := ScopeCell.member c).
    + intros d Hd. exact (steady_member _ _ _ _ _ Hs Hc Hd).
    + apply bind_inv in H as (u & l1 & f2 & l2 & H1 & H & ->).
      destruct (settling_stop _ _ _ _ _ _ _ H1 Hf1) as [Hf2 S2]. apply (sd_terminal _ _ S2) in Ht.
      assert (terminal_scope s f2) as Ht2.
      { intros d Hd. by rewrite (steady_member _ _ _ _ _ (steady_trans _ _ _ S1 S2) Hc Hd). }
      destruct (close_settles _ _ _ _ _ H Ht2 Hf2) as [_ S3]. by apply (sd_terminal _ _ S3).
Qed.

Lemma never_started_slot owner i w u n w' :
  (terminalize_never_started owner i : PlanOp ()) w = Ret (u, n, w') ->
  closed_inv (forest w) -> slot_paired w i -> cells_step w w' /\ slot_terminal w' i.
Proof.
  intros H Hw Hp. unfold terminalize_never_started in H.
  apply plan_bind_inv in H as (s & n1 & w1 & n2 & H1 & H & ->). apply get_slot_inv in H1 as (Hs & -> & ->).
  apply cell_inv in H as (l & f' & H & -> & ->).
  apply bind_inv in H as (v & l1 & f1 & l2 & H1 & H & ->).
  assert (closed_inv f1 /\ steady (forest w) f1 /\ terminal f1 (SlotCell.member s)) as (F1 & S1 & Ht).
  { unfold publish_never_started in H1. specialize (Hp s Hs). unfold projection_ok in Hp. simpl in Hp.
    destruct (SlotCell.scope s) as [k|].
    - destruct (Hp k eq_refl) as (c & Hc & Hm).
      destruct (settling_never_started _ _ _ _ _ H1 Hw) as [F1 S1]. split; [done|]. split; [done|].
      pose proof (never_started_scope _ _ _ _ _ H1 Hw) as Ht. pose proof (sd_cells _ _ S1 k) as Hk.
      rewrite Hc in Hk. destruct (scopes f1 !! k) as [c1|] eqn:E1; [|done]. simpl in Hk.
      injection Hk as Hk. rewrite <- Hm, <- Hk. by apply Ht.
    - apply bind_inv in H1 as (x & m1 & g1 & m2 & H1 & H2 & ->). cbv [mret op_ret] in H2.
      injection H2 as <- <- <-. apply terminalize_inv in H1 as (Hs1 & Ht & _).
      destruct (Hs1 Hw) as [F1 S1]. done. }
  destruct (settling_evict _ _ _ _ _ _ H F1) as [F2 S2].
  split; [split; [done|done|by eapply steady_trans]|].
  exists s. split; [done|]. by apply (sd_terminal _ _ S2).
Qed.

Lemma never_started_slots owner l w u n w' :
  (plan_each (terminalize_never_started owner) l : PlanOp ()) w = Ret (u, n, w') ->
  closed_inv (forest w) -> Forall (slot_paired w) l ->
  cells_step w w' /\ Forall (slot_terminal w') l.
Proof.
  revert w u n. induction l as [|i l IH]; intros w u n H Hw Hp; simpl in H.
  { apply plan_ret_inv in H as (-> & -> & ->). split; [by apply cells_refl|constructor]. }
  inversion Hp as [|? ? Hi Hl]; subst.
  apply plan_bind_inv in H as (v & n1 & w1 & n2 & H1 & H & ->).
  destruct (never_started_slot _ _ _ _ _ _ H1 Hw Hi) as [C1 T1].
  destruct (IH _ _ _ H (cs_inv _ _ C1)) as [C2 T2].
  { eapply Forall_impl; [exact Hl|]. intros j. by apply cells_paired. }
  split; [by eapply cells_trans|]. constructor; [by eapply cells_terminal|done].
Qed.

(** ** Builders and plans *)

Lemma drop_builder_terminal b w u n w' :
  (drop_builder b : PlanOp ()) w = Ret (u, n, w') -> armed b = true ->
  closed_inv (forest w) -> Forall (slot_paired w) (b_slots b) ->
  cells_step w w' /\ Forall (slot_terminal w') (b_slots b) /\ terminal_scope (b_root b) (forest w').
Proof.
  intros H Ha Hw Hp. unfold drop_builder, builder_terminalize in H. rewrite Ha in H.
  apply plan_bind_inv in H as (v & n1 & w1 & n2 & H1 & H & ->).
  apply never_started_slots in H1 as [C1 T1]; [|done|done].
  pose proof (cell_step _ _ _ _ _ H (settling_never_started _) (cs_inv _ _ C1)) as C2.
  apply cell_inv in H as (l & f' & H & -> & ->).
  split; [by eapply cells_trans|]. split.
  - eapply Forall_impl; [exact T1|]. intros j. by apply cells_terminal.
  - exact (never_started_scope _ _ _ _ _ H (cs_inv _ _ C1)).
Qed.

Lemma plan_each_fmap {X Y} (g : X -> Y) (k : Y -> PlanOp ()) l :
  plan_each (fun x => k (g x)) l = plan_each k (g <$> l).
Proof. induction l as [|x l IH]; [done|]. rewrite fmap_cons. simpl. by rewrite IH. Qed.

Lemma drop_plan_terminal p w u n w' :
  (drop_plan p : PlanOp ()) w = Ret (u, n, w') -> terminality_owed p = true ->
  closed_inv (forest w) -> Forall (slot_paired w) (cp_slot <$> sp_children p) ->
  cells_step w w' /\ Forall (slot_terminal w') (cp_slot <$> sp_children p) /\
  terminal_scope (sp_root p) (forest w').
Proof.
  intros H Ho Hw Hp. unfold drop_plan, terminalize_plan in H. rewrite Ho in H.
  apply plan_bind_inv in H as (v & n1 & w1 & n2 & H1 & H & ->). cbv [plan_notes] in H.
  injection H as <- <- <-. apply plan_bind_inv in H1 as (v1 & n3 & w3 & n4 & H1 & H & ->).
  rewrite plan_each_fmap in H1. apply never_started_slots in H1 as [C1 T1]; [|done|done].
  apply cell_inv in H as (l & f' & H & -> & ->). apply bind_inv in H as (v2 & l1 & f1 & l2 & H1 & H & ->).
  destruct (settling_clear _ _ _ _ _ H1 (cs_inv _ _ C1)) as [F1 S1].
  destruct (settling_never_started _ _ _ _ _ H F1) as [F2 S2].
  assert (cells_step w3 (set_forest f' w3)) as C2 by (split; [done|done|by eapply steady_trans]).
  split; [by eapply cells_trans|]. split.
  - eapply Forall_impl; [exact T1|]. intros j. by apply cells_terminal.
  - exact (never_started_scope _ _ _ _ _ H F1).
Qed.

(** Whoever owes terminality. *)
Inductive Owner := Building (b : BuilderCore) | Planned (p : ScopePlan P).

Definition owes_terminality (o : Owner) : bool :=
  match o with Building b => armed b | Planned p => terminality_owed p end.
Definition owner_slots (o : Owner) : list nat :=
  match o with Building b => b_slots b | Planned p => cp_slot <$> sp_children p end.
Definition owner_root (o : Owner) : nat :=
  match o with Building b => b_root b | Planned p => sp_root p end.
Definition abandon (o : Owner) : PlanOp () :=
  match o with Building b => drop_builder b | Planned p => drop_plan p end.

(** C23: a handle that was given out never waits for an owner that is gone.  A
    builder or plan dropped while it owes terminality leaves every slot it owns
    terminal, and its own scope too; terminal memberships stay terminal and the
    tree's closed streams keep belonging to terminal memberships. *)
Theorem abandoned_owner_terminal o w u n w' :
  owes_terminality o = true -> closed_inv (forest w) -> Forall (slot_paired w) (owner_slots o) ->
  abandon o w = Ret (u, n, w') ->
  Forall (slot_terminal w') (owner_slots o) /\ terminal_scope (owner_root o) (forest w') /\
  (forall m, terminal (forest w) m -> terminal (forest w') m) /\ closed_inv (forest w').
Proof.
  intros Ho Hw Hp H. destruct o as [b|p]; simpl in *.
  - destruct (drop_builder_terminal _ _ _ _ _ H Ho Hw Hp) as ([_ Hi Hs] & Ht & Hr).
    split; [done|]. split; [done|]. split; [apply (sd_terminal _ _ Hs)|done].
  - destruct (drop_plan_terminal _ _ _ _ _ H Ho Hw Hp) as ([_ Hi Hs] & Ht & Hr).
    split; [done|]. split; [done|]. split; [apply (sd_terminal _ _ Hs)|done].
Qed.
End terminal.

(** ** A tree being declared

    The theorems on plans and closed streams applied to a builder with a worker
    and a nested scope. *)

Local Abbreviation DemoWorld := (World (MailboxCell Z) (list LifecycleEvent.t * Z) string).
Local Abbreviation DemoYard := (@Yard (MailboxCell Z) (list LifecycleEvent.t * Z) string).
Local Abbreviation DemoNote := (PlanNote (MailboxTeardown Z) (FlushAction Z) string).

Definition demo_empty_world : DemoWorld :=
  mkWorld (mkForest ∅ ∅ ∅ ∅) ∅ AtomicMonotonicCounter.new.
Definition demo_yard : DemoYard := mkYard demo_empty_world ∅ ∅ [].

Definition demo_no_options : CommonOptions := mkCommonOptions None None None None None Inherit None.

Definition demo_body (name : string) : ChildConstruction.t string :=
  ChildConstruction.Task (DefinitionSource.OneShot name) demo_no_options.
Definition demo_factory (name : string) : ChildConstruction.t string :=
  ChildConstruction.Scope (DefinitionSource.Restartable name) demo_no_options InheritDefaults.

(** A worker and a nested scope, both defined, one of them twice. *)
Definition demo_declaring : list (YardOp (P := string)) :=
  [YNew Ordered; YReserve 0 "worker" None; YReserve 0 "nested" (Some Ordered);
   YReserve 0 "worker" None; YDefine 0 (demo_body "first"); YDefine 0 (demo_body "second");
   YDefine 1 (demo_factory "tree")].
(** Lowered, one child taken by a runtime, then dropped. *)
Definition demo_lowering : list (YardOp (P := string)) :=
  [YLower 0 resolved_defaults_default None; YStartChild 0; YDropPlan 0].

Definition demo_yard_run (l : list (YardOp (P := string))) : list (list DemoNote) * DemoYard :=
  match run_ops yard_exec demo_yard l with Ret x => x | _ => ([], demo_yard) end.

Definition demo_declared : list (list DemoNote) * DemoYard := demo_yard_run demo_declaring.
Definition demo_history : list (list DemoNote) * DemoYard :=
  demo_yard_run (demo_declaring ++ demo_lowering).

Lemma demo_history_runs :
  run_ops yard_exec demo_yard (demo_declaring ++ demo_lowering) = Ret (demo_history.1, demo_history.2).
Proof. vm_compute. reflexivity. Qed.

Lemma demo_history_owners :
  running demo_history.2 = [demo_body "first"] /\
  disposed (concat demo_history.1) = [demo_body "second"; demo_factory "tree"].
Proof. vm_compute. split; reflexivity. Qed.

Lemma constructions_conserved_witness :
  offered (demo_declaring ++ demo_lowering) ++ owned demo_yard ≡ₚ
  owned demo_history.2 ++ disposed (concat demo_history.1).
Proof.
  exact (constructions_conserved (demo_declaring ++ demo_lowering) demo_yard demo_history.1 demo_history.2
    demo_history_runs).
Defined.

Definition demo_builder : BuilderCore :=
  match builders demo_declared.2 !! 0%nat with
  | Some b => b
  | None => mkBuilder 0 Intensity.default scope_defaults_default [] ∅ None false
  end.

Definition demo_declared_world : DemoWorld := world demo_declared.2.

Lemma demo_builder_slots : b_slots demo_builder = [0%nat; 1%nat] /\ armed demo_builder = true.
Proof. vm_compute. split; reflexivity. Qed.

Lemma demo_slots_distinct : NoDup (b_slots demo_builder).
Proof. rewrite (proj1 demo_builder_slots). apply NoDup_ListNoDup. repeat constructor; simpl; lia. Qed.

Definition demo_lowered : result (ScopePlan string) (list ChildId) * list DemoNote * DemoWorld :=
  match lower demo_builder resolved_defaults_default None demo_declared_world with
  | Ret x => x
  | _ => (Err [], [], demo_declared_world)
  end.

Lemma demo_lowered_runs :
  lower demo_builder resolved_defaults_default None demo_declared_world =
  Ret (demo_lowered.1.1, demo_lowered.1.2, demo_lowered.2).
Proof. vm_compute. reflexivity. Qed.

Lemma lower_all_or_nothing_witness :
  exists p, demo_lowered.1.1 = Ok p /\
    Forall2 (fun i c => cp_slot c = i /\ content_at demo_declared_world i = [cp_construction c] /\
               cp_options c = resolve_defined_policy (cp_construction c)
                                (overlay resolved_defaults_default (b_defaults demo_builder)))
      (b_slots demo_builder) (sp_children p).
Proof.
  pose proof (lower_all_or_nothing demo_builder resolved_defaults_default None demo_declared_world
    demo_lowered.1.1 demo_lowered.1.2 demo_lowered.2 demo_slots_distinct demo_lowered_runs) as H.
  destruct demo_lowered.1.1 as [p|ids].
  - exists p. split; [reflexivity|]. exact (proj1 (proj2 H)).
  - exfalso. destruct H as (H & Hne & _). apply Hne. rewrite H. vm_compute. reflexivity.
Defined.

(** The declared tree is abandoned before it is lowered. *)
Definition demo_abandoned : () * list DemoNote * DemoWorld :=
  match abandon (Building demo_builder) demo_declared_world with
  | Ret x => x
  | _ => ((), [], demo_declared_world)
  end.

Lemma demo_abandoned_runs :
  abandon (Building demo_builder) demo_declared_world =
  Ret (demo_abandoned.1.1, demo_abandoned.1.2, demo_abandoned.2).
Proof. vm_compute. reflexivity. Qed.

Lemma demo_slots_paired : Forall (slot_paired demo_declared_world) (b_slots demo_builder).
Proof.
  rewrite (proj1 demo_builder_slots).
  repeat constructor; intros s Hs; apply projection_okb_ok; vm_compute in Hs; injection Hs as <-;
    vm_compute; reflexivity.
Qed.

Lemma abandoned_owner_terminal_witness :
  Forall (slot_terminal demo_abandoned.2) (b_slots demo_builder) /\
  terminal_scope (b_root demo_builder) (forest demo_abandoned.2).
Proof.
  destruct (abandoned_owner_terminal (Building demo_builder) demo_declared_world _ _ _
    (proj2 demo_builder_slots) (closed_invb_ok (forest demo_declared_world) eq_refl)
    demo_slots_paired demo_abandoned_runs) as (Hs & Hr & _).
  split; [exact Hs|exact Hr].
Defined.

(** A root that finishes for good closes its streams. *)
Definition demo_closing : list ScopeOp :=
  [OpBegin 0; OpAdmit 0 (ResidentProjection.new 1 (Some 1%nat));
   OpFinish 0 1 StopReason.Finished (Some (completed NotObserved)); OpTerminalizeNeverStarted 1].

Definition demo_closed := match run_ops scope_exec demo_forest demo_closing with
  | Ret x => x | _ => ([], demo_forest) end.

Lemma demo_closing_runs :
  run_ops scope_exec demo_forest demo_closing = Ret (demo_closed.1, demo_closed.2).
Proof. vm_compute. reflexivity. Qed.

Lemma demo_closing_paired : Forall (admits_paired demo_forest) demo_closing.
Proof.
  repeat constructor. apply projection_okb_ok. vm_compute. reflexivity.
Qed.

Lemma closed_stream_terminal_witness :
  exists c m, scopes demo_closed.2 !! 0%nat = Some c /\
    members demo_closed.2 !! ScopeCell.member c = Some m /\
    MemberStage.is_terminal (MemberCell.stage m) = true.
Proof.
  assert (exists c, scopes demo_closed.2 !! 0%nat = Some c /\
    lifecycle_is_closed (ScopeCell.lifecycle c) = true) as (c & Hc & Hcl).
  { eexists. split; vm_compute; reflexivity. }
  destruct (closed_stream_terminal demo_closing demo_forest demo_closed.1 demo_closed.2 0 c
    (closed_invb_ok demo_forest eq_refl) demo_closing_paired demo_closing_runs Hc Hcl) as (m & Hm & Ht).
  exists c, m. split; [exact Hc|]. split; [exact Hm|exact Ht].
Defined.
