(* ===== verification/Effects.v ===== *)
(** * Stateful operations with notes

    The monad of the control plane and the driver: an operation passes a state,
    may panic or abort, and leaves notes of what it hands to others, in order.
    A relation that every step respects is respected by a whole operation. *)

From S2P Require Import Prelude.

Definition Tx (S N A : Type) : Type := S -> outcome (A * list N * S).

#[export] Instance tx_ret {S N} : MRet (Tx S N) := fun A a s => Ret (a, [], s).
#[export] Instance tx_bind {S N} : MBind (Tx S N) := fun A A' k m s =>
  '(a, n, s) ← m s;
  '(b, n', s) ← k a s;
  Ret (b, n ++ n', s).

Section ops.
Context {S N : Type}.

Definition tx_get : Tx S N S := fun s => Ret (s, [], s).
Definition tx_modify (g : S -> S) : Tx S N () := fun s => Ret ((), [], g s).
Definition tx_notes (l : list N) : Tx S N () := fun s => Ret ((), l, s).
Definition tx_lift {A} (m : outcome A) : Tx S N A := fun s => a ← m; Ret (a, [], s).
Definition tx_assert (b : bool) (message : string) : Tx S N () := tx_lift (assert_that b message).

(** In order, each element once. *)
Fixpoint tx_each {X} (g : X -> Tx S N ()) (l : list X) : Tx S N () :=
  match l with
  | [] => mret ()
  | x :: l => _ ← g x; tx_each g l
  end.
End ops.

(** An operation on a part of the state. *)
Definition tx_zoom {S S' N N' A} (get : S -> S') (put : S' -> S -> S) (f : N' -> N)
    (m : Tx S' N' A) : Tx S N A := fun s =>
  match m (get s) with
  | Ret (a, n, s') => Ret (a, f <$> n, put s' s)
  | Panics message => Panics message
  | ProcessAborts => ProcessAborts
  end.

Section logic.
Context {S N : Type}.

Lemma tx_bind_inv {A C} (m : Tx S N A) (k : A -> Tx S N C) s c n s' :
  (m ≫= k) s = Ret (c, n, s') ->
  exists a n1 s1 n2, m s = Ret (a, n1, s1) /\ k a s1 = Ret (c, n2, s') /\ n = n1 ++ n2.
Proof.
  unfold mbind, tx_bind. intros H. apply bind_Ret_inv in H as ([[a n1] s1] & H1 & H).
  apply bind_Ret_inv in H as ([[b n2] s2] & H2 & H). simplify_eq. eauto 10.
Qed.

Lemma tx_ret_inv {A} (a b : A) (s : S) (n : list N) s' :
  (mret a : Tx S N A) s = Ret (b, n, s') -> b = a /\ n = [] /\ s' = s.
Proof. intros H. cbv in H. by simplify_eq. Qed.

Lemma tx_lift_inv {A} (m : outcome A) (s : S) a (n : list N) s' :
  tx_lift m s = Ret (a, n, s') -> m = Ret a /\ n = [] /\ s' = s.
Proof. intros H. apply bind_Ret_inv in H as (a' & Hm & H). by simplify_eq. Qed.

Lemma tx_zoom_inv {S' N' A} (get : S -> S') put (g : N' -> N) (m : Tx S' N' A) s a n s' :
  tx_zoom get put g m s = Ret (a, n, s') ->
  exists n' t, m (get s) = Ret (a, n', t) /\ n = g <$> n' /\ s' = put t s.
Proof. unfold tx_zoom. destruct (m (get s)) as [[[b l] t]| |]; intros [= -> <- <-]; eauto. Qed.

(** ** Relations that compose *)

Class StepRel (Rel : S -> list N -> S -> Prop) := {
  step_refl s : Rel s [] s;
  step_trans s n t n' u : Rel s n t -> Rel t n' u -> Rel s (n ++ n') u }.

Definition steps {A} (Rel : S -> list N -> S -> Prop) (m : Tx S N A) : Prop :=
  forall s a n s', m s = Ret (a, n, s') -> Rel s n s'.

Context (Rel : S -> list N -> S -> Prop) `{!StepRel Rel}.

Lemma steps_ret {A} (a : A) : steps Rel (mret a : Tx S N A).
Proof. intros s b n s' H. apply tx_ret_inv in H as (-> & -> & ->). apply step_refl. Qed.

Lemma steps_bind {A C} (m : Tx S N A) (k : A -> Tx S N C) :
  steps Rel m -> (forall a, steps Rel (k a)) -> steps Rel (m ≫= k).
Proof.
  intros Hm Hk s c n s' H. apply tx_bind_inv in H as (a & n1 & s1 & n2 & H1 & H2 & ->).
  eapply step_trans; [by eapply Hm|by eapply Hk].
Qed.

Lemma steps_get : steps Rel (tx_get : Tx S N S).
Proof. intros s a n s' H. cbv in H. simplify_eq. apply step_refl. Qed.

Lemma steps_lift {A} (m : outcome A) : steps Rel (tx_lift m).
Proof. intros s a n s' H. apply tx_lift_inv in H as (_ & -> & ->). apply step_refl. Qed.

Lemma steps_each {X} (g : X -> Tx S N ()) l : (forall x, steps Rel (g x)) -> steps Rel (tx_each g l).
Proof. intros Hg. induction l; simpl; [apply steps_ret|by apply steps_bind]. Qed.
End logic.

(** One structural step through an operation. *)
Ltac tx_step :=
  match goal with
  | |- steps _ (mret _) => apply steps_ret; apply _
  | |- steps _ (mbind _ _) => apply steps_bind; [apply _| |intros]
  | |- steps _ (match ?x with _ => _ end) => destruct x
  | |- steps _ tx_get => apply steps_get; apply _
  | |- steps _ (tx_lift _) => apply steps_lift; apply _
  | |- steps _ (tx_assert _ _) => apply steps_lift; apply _
  | |- steps _ (tx_each _ _) => apply steps_each; [apply _|intros]
  end.

Create HintDb tx_rel.

(** Walks an operation, closing its leaves with the registered lemmas. *)
Ltac tx_walk := repeat first [tx_step | solve [eauto 2 with tx_rel nocore]].

(** ** Ledgers

    Items a state holds, that notes bring in and take out.  [owns g m o]: run
    with the items [g] at hand, [m] leaves those of its result [o a] at hand,
    and every other one is held by the state or was taken out. *)
Class Ledger (S N X : Type) := {
  holds : S -> list X;
  gained : N -> list X;
  spent : N -> list X }.

Definition gains {S N X} `{!Ledger S N X} (n : list N) : list X := n ≫= gained.
Definition spends {S N X} `{!Ledger S N X} (n : list N) : list X := n ≫= spent.

Section ledger.
Context {S N X : Type} `{L : !Ledger S N X}.

Definition owns {A} (g : list X) (m : Tx S N A) (o : A -> list X) : Prop :=
  forall s a n s', m s = Ret (a, n, s') ->
    g ++ holds s ++ gains n ≡ₚ holds s' ++ spends n ++ o a.

Lemma gains_app a b : gains (a ++ b) = gains a ++ gains b.
Proof. apply bind_app. Qed.
Lemma spends_app a b : spends (a ++ b) = spends a ++ spends b.
Proof. apply bind_app. Qed.

Lemma owns_ret {A} g (a : A) o : g = o a -> owns g (mret a : Tx S N A) o.
Proof.
  intros -> s b n s' H. apply tx_ret_inv in H as (-> & -> & ->). simpl. rewrite app_nil_r.
  apply Permutation_app_comm.
Qed.

Lemma owns_bind {A C} g (m : Tx S N A) (k : A -> Tx S N C) o o' :
  owns g m o -> (forall a, owns (o a) (k a) o') -> owns g (m ≫= k) o'.
Proof.
  intros Hm Hk s c n s' H. apply tx_bind_inv in H as (a & n1 & s1 & n2 & H1 & H2 & ->).
  specialize (Hm _ _ _ _ H1). specialize (Hk _ _ _ _ _ H2). rewrite gains_app, spends_app.
  trans ((g ++ holds s ++ gains n1) ++ gains n2); [solve_Permutation|]. rewrite Hm.
  trans (spends n1 ++ (o a ++ holds s1 ++ gains n2)); [solve_Permutation|]. rewrite Hk.
  solve_Permutation.
Qed.

Lemma owns_frame {A} x g (m : Tx S N A) o : owns g m o -> owns (x ++ g) m (fun a => x ++ o a).
Proof.
  intros Hm s a n s' H. specialize (Hm _ _ _ _ H).
  trans (x ++ (g ++ holds s ++ gains n)); [solve_Permutation|]. rewrite Hm. solve_Permutation.
Qed.

Lemma owns_consume {A} x g (m : Tx S N A) : owns g m (fun _ => []) -> owns (x ++ g) m (fun _ => x).
Proof.
  intros Hm s a n s' H. apply (owns_frame x) in Hm. specialize (Hm _ _ _ _ H). by rewrite app_nil_r in Hm.
Qed.

Lemma owns_perm {A} g g' (m : Tx S N A) o : g ≡ₚ g' -> owns g m o -> owns g' m o.
Proof. intros Hg Hm s a n s' H. rewrite <- Hg. by eapply Hm. Qed.

(** An operation that moves no item. *)
Definition still {A} (m : Tx S N A) : Prop :=
  forall s a n s', m s = Ret (a, n, s') -> holds s' ≡ₚ holds s /\ gains n = [] /\ spends n = [].

Lemma owns_still {A} (m : Tx S N A) g : still m -> owns g m (fun _ => g).
Proof.
  intros Hm s a n s' H. apply Hm in H as (Hs & -> & ->). rewrite Hs, app_nil_r. simpl.
  apply Permutation_app_comm.
Qed.

(** One operation, then a pure answer. *)
Lemma owns_bind_ret {A C} g (m : Tx S N A) (k : A -> C) o :
  owns g m (fun a => o (k a)) -> owns g (a ← m; mret (k a)) o.
Proof. intros Hm. eapply owns_bind; [exact Hm|]. intros a. by apply owns_ret. Qed.

Lemma still_ret {A} (a : A) : still (mret a : Tx S N A).
Proof. intros s b n s' H. by apply tx_ret_inv in H as (-> & -> & ->). Qed.
Lemma still_get : still (tx_get : Tx S N S).
Proof. intros s b n s' H. cbv in H. by simplify_eq. Qed.
Lemma still_lift {A} (m : outcome A) : still (tx_lift m : Tx S N A).
Proof. intros s b n s' H. by apply tx_lift_inv in H as (_ & -> & ->). Qed.
Lemma still_bind {A C} (m : Tx S N A) (k : A -> Tx S N C) :
  still m -> (forall a, still (k a)) -> still (m ≫= k).
Proof.
  intros Hm Hk s c n s' H. apply tx_bind_inv in H as (a & n1 & s1 & n2 & H1 & H2 & ->).
  apply Hm in H1 as (E1 & G1 & P1). apply Hk in H2 as (E2 & G2 & P2).
  rewrite gains_app, spends_app, G1, G2, P1, P2. split; [by rewrite E2|done].
Qed.

Lemma owns_lift {A} g (m : outcome A) o :
  (forall a, m = Ret a -> g = o a) -> owns g (tx_lift m : Tx S N A) o.
Proof.
  intros Hm s a n s' H. apply tx_lift_inv in H as (H & -> & ->). rewrite (Hm a H). simpl.
  rewrite app_nil_r. apply Permutation_app_comm.
Qed.

Lemma owns_each {Y} (g : Y -> list X) (k : Y -> Tx S N ()) l :
  (forall y, owns (g y) (k y) (fun _ => [])) -> owns (l ≫= g) (tx_each k l) (fun _ => []).
Proof.
  intros Hk. induction l as [|y l IH]; simpl; [by apply owns_ret|].
  eapply (owns_bind _ _ _ (fun _ => l ≫= g)); [|intros; exact IH].
  intros s a n s' H. specialize (Hk y _ _ _ _ H).
  trans ((l ≫= g) ++ (g y ++ holds s ++ gains n)); [solve_Permutation|]. rewrite Hk. solve_Permutation.
Qed.
End ledger.

(** One structural step through an operation that moves nothing. *)
Ltac still_step :=
  match goal with
  | |- still (mret _) => apply still_ret
  | |- still (mbind _ _) => apply still_bind; [|intros]
  | |- still (match ?x with _ => _ end) => destruct x
  | |- still tx_get => apply still_get
  | |- still (tx_lift _) => apply still_lift
  | |- still (tx_assert _ _) => apply still_lift
  end.
Create HintDb tx_still.
Ltac still_walk := repeat first [still_step | solve [eauto 2 with tx_still nocore]].
