(* ===== verification/Dynamic.v ===== *)
(** * Dynamic membership control

    [driver/admission_control.rs] and the errors of [cells/admission.rs]: the
    synchronous control plane through which callers reserve, admit, cancel and
    remove members of a live dynamic scope, and the obligations it owes them.

    A [Store] holds what callers, drivers and tasks share: the cells and slots,
    latches, the event lanes of drivers, the controls that scopes route to, and
    the constructions in isolated disposal with what runs once they are gone.
    A caller waits on a numbered response; answering it is a note.  Dropping an
    undischarged obligation answers it too, so a drop is an operation here.
    Work that a transaction defers runs where its operation ends, in the order
    it was deferred, after the wakes of the cells. *)

From S2P Require Import Prelude Identity Exit Policy Restart Epochs Lifecycle Supervisor Gate Watch.
From S2P Require Import Member Snapshot LifecycleHub Scope Plan Effects.

(** ** [cells/admission.rs] *)

Module NotAdmittingCause.
Inductive t := Terminal | Draining | StartupFailed | NoLiveIncarnation | ReservationEnded.
#[export] Instance eq_dec : EqDecision t.
Proof. solve_decision. Defined.
End NotAdmittingCause.
Export (hints) NotAdmittingCause.

Module ReserveError.
Inductive t :=
| NoRuntime
| EmptyId
| DuplicateId (id : ChildId)
| RemovalInProgress (id : ChildId)
| NotAdmitting (cause : NotAdmittingCause.t).
End ReserveError.

Module RemoveOutcome.
Inductive t := Removed | AlreadyAbsent.
End RemoveOutcome.

Definition LOST_ADMISSION_RESPONSE_ERROR : ReserveError.t :=
  ReserveError.NotAdmitting NotAdmittingCause.Terminal.
Definition LATCHED_REMOVAL_OUTCOME : RemoveOutcome.t := RemoveOutcome.Removed.

Definition checked_id (id : ChildId) : result ChildId ReserveError.t :=
  match non_empty_id id with Some id => Ok id | None => Err ReserveError.EmptyId end.

(** ** Entries *)

Module DynamicMembershipState.
Inductive t :=
| Reserved
| Resident (key : ChildKey) (fused_cancel : option nat)
| Removing (key : ChildKey).
End DynamicMembershipState.

Module DynamicEntry.
Record t := mk
  { slot : nat; state : DynamicMembershipState.t; removal : list nat (** responses owed *) }.

Definition reserved (slot : nat) : t := mk slot DynamicMembershipState.Reserved [].
Definition resident (slot : nat) (key : ChildKey) (fused_cancel : option nat) : t :=
  mk slot (DynamicMembershipState.Resident key fused_cancel) [].

Definition is_reserved (e : t) : bool :=
  match state e with DynamicMembershipState.Reserved => true | _ => false end.
Definition is_removing (e : t) : bool :=
  match state e with DynamicMembershipState.Removing _ => true | _ => false end.

Definition key (e : t) : option ChildKey :=
  match state e with
  | DynamicMembershipState.Reserved => None
  | DynamicMembershipState.Resident key _ | DynamicMembershipState.Removing key => Some key
  end.
Definition matches_key (key' : ChildKey) (e : t) : bool := bool_decide (key e = Some key').

Definition promote (key : ChildKey) (fused_cancel : option nat) (e : t) : t :=
  mk (slot e) (DynamicMembershipState.Resident key fused_cancel) (removal e).

Definition mark_removing (e : t) : option ChildKey * t :=
  match state e with
  | DynamicMembershipState.Resident key _ =>
      (Some key, mk (slot e) (DynamicMembershipState.Removing key) (removal e))
  | _ => (None, e)
  end.

Definition removal_latched (is_fired : nat -> bool) (e : t) : bool :=
  match state e with
  | DynamicMembershipState.Reserved => false
  | DynamicMembershipState.Resident _ fused_cancel => is_some_and fused_cancel is_fired
  | DynamicMembershipState.Removing _ => true
  end.

(** [RemovalResponses::subscribe]: abandoned senders are discarded first. *)
Definition abandoned (is_closed : nat -> bool) (e : t) : list nat :=
  filter (fun r => is_closed r = true) (removal e).
Definition subscribe (is_closed : nat -> bool) (response : nat) (e : t) : t :=
  mk (slot e) (state e) (filter (fun r => is_closed r = false) (removal e) ++ [response]).
End DynamicEntry.

Module DynamicControl.
Record t := mk
  { requests : nat; accepting : bool; entries : gmap ChildId DynamicEntry.t }.

Definition new (requests : nat) : t := mk requests true ∅.
Definition set_entries (m : gmap ChildId DynamicEntry.t) (c : t) : t :=
  mk (requests c) (accepting c) m.
Definition insert (id : ChildId) (e : DynamicEntry.t) (c : t) : t :=
  set_entries (<[id := e]> (entries c)) c.
Definition remove (id : ChildId) (c : t) : t := set_entries (delete id (entries c)) c.
Definition close_admission (c : t) : t := mk (requests c) false (entries c).
End DynamicControl.

(** ** Requests and events *)

Module AdmissionRequest.
Record t := mk { slot : nat; fused_cancel : option nat; response : nat }.
End AdmissionRequest.

Module ChildEvent.
Inductive t :=
| Ready (child : ChildKey) (incarnation : Incarnation)
| SelfStop (child : ChildKey) (incarnation : Incarnation)
| Exited (child : ChildKey) (incarnation : Incarnation) (recorded : option RecordedOutcome.t)
    (join : JoinOutcome) (cancellation : Cancellation) (readiness_signal_seen : bool)
| ConstructionDisposed (child : ChildKey).
End ChildEvent.

Module DriverEvent.
Inductive t :=
| Child (event : ChildEvent.t)
| Admission (request : AdmissionRequest.t)
| Removal (key : ChildKey).
End DriverEvent.

Inductive Answer :=
| AnswerRemoval (outcome : RemoveOutcome.t)
| AnswerAdmission (result : result () ReserveError.t).

(** What runs once a construction is gone. *)
Inductive Completion :=
| DropEntry (entry : option DynamicEntry.t)
| RejectAdmission (request : AdmissionRequest.t) (removed : option DynamicEntry.t)
    (error : ReserveError.t)
| SendDisposed (lane member : nat) (child : ChildKey).

Record DynamicReservation := mkReservation { r_scope : nat; r_slot : nat; r_control : nat }.

Section dynamic.
Context {M T F B R P : Type} `{!MailboxControl M T F} `{!Broadcast LifecycleEvent.t B R}.
Local Abbreviation Forest := (Forest M B).
Local Abbreviation Op := (@Op M T F B).
Local Abbreviation World := (World M B P).
Local Abbreviation PlanNote := (PlanNote T F P).
Local Abbreviation PlanOp := (@PlanOp M T F B P).
Local Abbreviation Construction := (ChildConstruction.t P).

Record Store := mkStore
  { st_world : World;
    st_latches : gmap nat bool;               (** fired? *)
    st_gated : gmap nat Z;                    (** completion-gated latches *)
    st_lanes : gmap nat (list DriverEvent.t); (** queues whose receiver is alive *)
    st_controls : gmap nat DynamicControl.t;
    st_disposals : gmap nat (Construction * Completion);
    st_responses : nat;                       (** responses issued so far *)
    st_abandoned : gset nat }.                (** responses nobody waits on *)

Inductive StoreNote :=
| Declared (n : PlanNote)
| Issued (response : nat)                   (** a one-shot was made *)
| Sent (response : nat) (answer : Answer)
| Forgotten (response : nat)                (** its receiver is gone, its sender dropped *)
| Notify (latch : nat)
| NotifyGated (latch : nat) (completed : bool).

Definition StoreOp (A : Type) : Type := Tx Store StoreNote A.

Definition set_world w s := mkStore w (st_latches s) (st_gated s) (st_lanes s) (st_controls s)
  (st_disposals s) (st_responses s) (st_abandoned s).
Definition set_latches l s := mkStore (st_world s) l (st_gated s) (st_lanes s) (st_controls s)
  (st_disposals s) (st_responses s) (st_abandoned s).
Definition set_gated g s := mkStore (st_world s) (st_latches s) g (st_lanes s) (st_controls s)
  (st_disposals s) (st_responses s) (st_abandoned s).
Definition set_lanes l s := mkStore (st_world s) (st_latches s) (st_gated s) l (st_controls s)
  (st_disposals s) (st_responses s) (st_abandoned s).
Definition set_controls c s := mkStore (st_world s) (st_latches s) (st_gated s) (st_lanes s) c
  (st_disposals s) (st_responses s) (st_abandoned s).
Definition set_disposals d s := mkStore (st_world s) (st_latches s) (st_gated s) (st_lanes s) (st_controls s)
  d (st_responses s) (st_abandoned s).
Definition set_responses n s := mkStore (st_world s) (st_latches s) (st_gated s) (st_lanes s) (st_controls s)
  (st_disposals s) n (st_abandoned s).
Definition set_abandoned a s := mkStore (st_world s) (st_latches s) (st_gated s) (st_lanes s) (st_controls s)
  (st_disposals s) (st_responses s) a.

(** Plan and cell operations on the store. *)
Definition plan {A} (m : PlanOp A) : StoreOp A :=
  tx_zoom st_world set_world Declared (m : Tx World PlanNote A).
Definition cells {A} (m : Op A) : StoreOp A := plan (cell m).

Definition latch_fired (s : Store) (l : nat) : bool := unwrap_or (st_latches s !! l) false.
Definition response_closed (s : Store) (r : nat) : bool := bool_decide (r ∈ st_abandoned s).

Definition get_control (c : nat) : StoreOp DynamicControl.t :=
  s ← tx_get; tx_lift (expect "a dynamic control" (st_controls s !! c)).
Definition put_control (c : nat) (d : DynamicControl.t) : StoreOp () :=
  tx_modify (fun s => set_controls (<[c := d]> (st_controls s)) s).

(** The one-shot whose sender this is; only its receiver's owner waits. *)
Definition fresh_response : StoreOp nat :=
  s ← tx_get;
  _ ← tx_modify (set_responses (S (st_responses s)));
  _ ← tx_notes [Issued (st_responses s)];
  mret (st_responses s).

Definition send (r : nat) (a : Answer) : StoreOp () := tx_notes [Sent r a].

(** [Latch::fire_silently]: whether this call fired it. *)
Definition latch_fire_silently (l : nat) : StoreOp bool :=
  s ← tx_get;
  if latch_fired s l then mret false
  else
    _ ← tx_modify (set_latches (<[l := true]> (st_latches s)));
    mret true.

(** The member of a slot, and its identity. *)
Definition slot_member (i : nat) : StoreOp (SlotCell.t P * MemberCell.t) :=
  c ← plan (get_slot i);
  m ← cells (get_member (SlotCell.member c));
  mret (c, m).

(** ** Obligations *)

(** [complete_removals], also what an entry's drop runs. *)
Definition complete_removals (e : DynamicEntry.t) : StoreOp () :=
  tx_each (fun r => send r (AnswerRemoval LATCHED_REMOVAL_OUTCOME)) (DynamicEntry.removal e).
Definition drop_entry (e : option DynamicEntry.t) : StoreOp () :=
  match e with Some e => complete_removals e | None => mret () end.

Definition completed_removal (o : RemoveOutcome.t) : StoreOp nat :=
  r ← fresh_response;
  _ ← send r (AnswerRemoval o);
  mret r.

Definition complete_admission (request : AdmissionRequest.t) (x : result () ReserveError.t)
  : StoreOp () := send (AdmissionRequest.response request) (AnswerAdmission x).

(** An event that is dropped unhandled: an admission answers as lost. *)
Definition drop_event (event : DriverEvent.t) : StoreOp () :=
  match event with
  | DriverEvent.Admission request =>
      complete_admission request (Err LOST_ADMISSION_RESPONSE_ERROR)
  | _ => mret ()
  end.

(** [UnboundedMpscSender::send] on a lane: [false] when its receiver is gone,
    and the event is dropped. *)
Definition send_event (lane : nat) (event : DriverEvent.t) : StoreOp bool :=
  s ← tx_get;
  match st_lanes s !! lane with
  | Some q =>
      _ ← tx_modify (set_lanes (<[lane := q ++ [event]]> (st_lanes s)));
      mret true
  | None => _ ← drop_event event; mret false
  end.

(** Dropping a lane's receiver drops what it still queues. *)
Definition drop_lane (lane : nat) : StoreOp () :=
  s ← tx_get;
  _ ← tx_modify (set_lanes (delete lane (st_lanes s)));
  tx_each drop_event (unwrap_or (st_lanes s !! lane) []).

Definition run_completion (c : Completion) : StoreOp () :=
  match c with
  | DropEntry entry => drop_entry entry
  | RejectAdmission request removed error =>
      _ ← drop_entry removed;
      complete_admission request (Err error)
  | SendDisposed lane member child =>
      ok ← send_event lane (DriverEvent.Child (ChildEvent.ConstructionDisposed child));
      cells (notes (if (ok : bool) then [PulseMember member] else []))
  end.

(** [runtime::dispose_then]: the job owns the construction, then completes. *)
Definition dispose_then (d : Construction) (c : Completion) : StoreOp () :=
  s ← tx_get;
  tx_modify (set_disposals (<[fresh_index (st_disposals s) := (d, c)]> (st_disposals s))).

Definition dispose_definition_then (d : option Construction) (c : Completion) : StoreOp () :=
  match d with
  | Some d => dispose_then d c
  | None => run_completion c
  end.

(** A disposal job ends: the construction is destroyed, then it completes. *)
Definition finish_disposal (i : nat) : StoreOp () :=
  s ← tx_get;
  match st_disposals s !! i with
  | Some (d, c) =>
      _ ← tx_modify (set_disposals (delete i (st_disposals s)));
      _ ← tx_notes [Declared (Disposed d)];
      run_completion c
  | None => mret ()
  end.

(** A caller drops the future that waits on a response. *)
Definition abandon_response (r : nat) : StoreOp () :=
  tx_modify (fun s => set_abandoned ({[r]} ∪ st_abandoned s) s).

(** ** Control operations *)

(** Whether an entry's slot is this membership's. *)
Definition entry_is (m : Membership) (e : DynamicEntry.t) : StoreOp bool :=
  '(_, c) ← slot_member (DynamicEntry.slot e);
  mret (bool_decide (MemberCell.membership c = m)).

(** [Arc::downcast] always succeeds: only controls are routed to. *)
Definition in_scope (scope : nat) : StoreOp (option nat) :=
  c ← cells (get_scope scope);
  mret (ScopeCell.dynamic_route c).

(** [register_initial]: the initial children, resident with their keys; an entry
    the insertion displaces is dropped. *)
Definition register_initial (control : nat) (l : list (nat * ChildKey)) : StoreOp () :=
  tx_each (fun '(slot, key) =>
    '(_, m) ← slot_member slot;
    c ← get_control control;
    _ ← put_control control
          (DynamicControl.insert (MemberCell.id m) (DynamicEntry.resident slot key None) c);
    drop_entry (DynamicControl.entries c !! MemberCell.id m)) l.

Definition reserve (control scope : nat) (id : ChildId) (child_scope : option ScopeFlavor)
  : StoreOp (result nat ReserveError.t) :=
  c ← get_control control;
  if negb (DynamicControl.accepting c)
  then mret (Err (ReserveError.NotAdmitting NotAdmittingCause.Draining))
  else
    match DynamicControl.entries c !! id with
    | Some existing =>
        s ← tx_get;
        mret (Err (if DynamicEntry.removal_latched (latch_fired s) existing
                   then ReserveError.RemovalInProgress id else ReserveError.DuplicateId id))
    | None =>
        slot ← plan (mint_reserved_slot scope id child_scope);
        cell ← plan (get_slot slot);
        _ ← cells (adopt_child_observation_gate scope (SlotCell.member cell) (SlotCell.scope cell));
        _ ← put_control control (DynamicControl.insert id (DynamicEntry.reserved slot) c);
        mret (Ok slot)
    end.

Definition control_signal_fused_cancel (control scope slot latch : nat) : StoreOp () :=
  fired ← latch_fire_silently latch;
  if negb fired then mret ()
  else
    _ ← tx_notes [Notify latch];
    '(_, m) ← slot_member slot;
    c ← get_control control;
    match DynamicControl.entries c !! MemberCell.id m with
    | None => mret ()
    | Some entry =>
        own ← entry_is (MemberCell.membership m) entry;
        match (if (own : bool) then DynamicEntry.mark_removing entry else (None, entry)) with
        | (Some key, entry) =>
            _ ← put_control control (DynamicControl.insert (MemberCell.id m) entry c);
            cell ← plan (get_slot slot);
            _ ← cells (set_child_removing_locked scope (SlotCell.member cell));
            _ ← send_event (DynamicControl.requests c) (DriverEvent.Removal key);
            mret ()
        | (None, _) => mret ()
        end
    end.

Definition control_remove (control scope : nat) (id : ChildId) (exact : option Membership)
  : StoreOp nat :=
  c ← get_control control;
  match DynamicControl.entries c !! id with
  | None => completed_removal RemoveOutcome.AlreadyAbsent
  | Some entry =>
      own ← match exact with Some m => entry_is m entry | None => mret true end;
      if negb own then completed_removal RemoveOutcome.AlreadyAbsent
      else
        response ← fresh_response;
        s ← tx_get;
        let forget := tx_notes (Forgotten <$> DynamicEntry.abandoned (response_closed s) entry) in
        let entry := DynamicEntry.subscribe (response_closed s) response entry in
        if DynamicEntry.is_reserved entry then
          _ ← put_control control (DynamicControl.remove id c);
          _ ← forget;
          definition ← plan (take_never_started_locked scope (DynamicEntry.slot entry));
          _ ← dispose_definition_then definition (DropEntry (Some entry));
          mret response
        else
          let '(key, entry) := DynamicEntry.mark_removing entry in
          _ ← put_control control (DynamicControl.insert id entry c);
          _ ← forget;
          _ ← match key with
              | Some key =>
                  cell ← plan (get_slot (DynamicEntry.slot entry));
                  _ ← cells (set_child_removing_locked scope (SlotCell.member cell));
                  _ ← send_event (DynamicControl.requests c) (DriverEvent.Removal key);
                  mret ()
              | None => mret ()
              end;
          mret response
  end.

(** The loop of [close] over the entries taken, in some order of the map: the
    admitted ones, and the disposals deferred to the transaction's commit. *)
Fixpoint close_entries (scope : nat) (l : list (ChildId * DynamicEntry.t))
  : StoreOp (gmap ChildId DynamicEntry.t * list (option Construction * DynamicEntry.t)) :=
  match l with
  | [] => mret (∅, [])
  | (id, entry) :: l =>
      if DynamicEntry.is_reserved entry then
        definition ← plan (take_never_started_locked scope (DynamicEntry.slot entry));
        '(retained, deferred) ← close_entries scope l;
        mret (retained, (definition, entry) :: deferred)
      else
        '(retained, deferred) ← close_entries scope l;
        mret (<[id := entry]> retained, deferred)
  end.

Definition close (control scope : nat)
  : StoreOp (gmap ChildId DynamicEntry.t * list (option Construction * DynamicEntry.t)) :=
  c ← get_control control;
  _ ← put_control control (DynamicControl.set_entries ∅ (DynamicControl.close_admission c));
  close_entries scope (map_to_list (DynamicControl.entries c)).

(** What [close] deferred, when the transaction commits. *)
Definition commit_disposals (l : list (option Construction * DynamicEntry.t)) : StoreOp () :=
  tx_each (fun '(definition, entry) => dispose_definition_then definition (DropEntry (Some entry))) l.

(** [DynamicRoute::close_admission]. *)
Definition route_close_admission (control : nat) : StoreOp () :=
  c ← get_control control;
  put_control control (DynamicControl.close_admission c).

(** [DynamicReservation::start_admission]; [available] is whether a runtime is. *)
Definition start_admission (available : bool) (r : DynamicReservation) (fused_cancel : option nat)
  : StoreOp (result nat ReserveError.t) :=
  if negb available then mret (Err ReserveError.NoRuntime)
  else
    response ← fresh_response;
    c ← get_control (r_control r);
    _ ← send_event (DynamicControl.requests c)
          (DriverEvent.Admission (AdmissionRequest.mk (r_slot r) fused_cancel response));
    mret (Ok response).

Definition cancel_dynamic_reservation_parts (scope control slot : nat)
  : StoreOp (option Construction * option DynamicEntry.t) :=
  c ← get_control control;
  '(_, m) ← slot_member slot;
  let id := MemberCell.id m in
  let entry := DynamicControl.entries c !! id in
  own ← match entry with Some e => entry_is (MemberCell.membership m) e | None => mret false end;
  match entry with
  | Some e =>
      if own && DynamicEntry.is_reserved e then
        _ ← put_control control (DynamicControl.remove id c);
        definition ← plan (take_never_started_locked scope slot);
        mret (definition, Some e)
      else mret (None, None)
  | None => mret (None, None)
  end.

(** [DynamicReservation::cancel]. *)
Definition cancel (r : DynamicReservation) : StoreOp () :=
  '(definition, removed) ← cancel_dynamic_reservation_parts (r_scope r) (r_control r) (r_slot r);
  dispose_definition_then definition (DropEntry removed).

Definition reserve_dynamic_in (scope : nat) (id : ChildId) (child_scope : option ScopeFlavor)
  : StoreOp (result DynamicReservation ReserveError.t) :=
  let refuse cause := mret (Err (ReserveError.NotAdmitting cause)) in
  c ← cells (get_scope scope);
  stage ← cells (member_stage (ScopeCell.member c));
  if MemberStage.is_terminal stage then refuse NotAdmittingCause.Terminal
  else
    control ← in_scope scope;
    match control with
    | None => refuse NotAdmittingCause.NoLiveIncarnation
    | Some control =>
        match ScopeCell.state c with
        | ScopeState.Starting | ScopeState.Running =>
            slot ← reserve control scope id child_scope;
            mret match slot with
                 | Ok slot => Ok (mkReservation scope slot control)
                 | Err e => Err e
                 end
        | ScopeState.Draining => refuse NotAdmittingCause.Draining
        | ScopeState.StartupFailed => refuse NotAdmittingCause.StartupFailed
        | ScopeState.Unstarted | ScopeState.Stopped _ => refuse NotAdmittingCause.NoLiveIncarnation
        end
    end.

Definition reserve_dynamic (available : bool) (scope : nat) (id : ChildId)
    (child_scope : option ScopeFlavor) : StoreOp (result DynamicReservation ReserveError.t) :=
  match checked_id id with
  | Err e => mret (Err e)
  | Ok id =>
      if negb available then mret (Err ReserveError.NoRuntime)
      else reserve_dynamic_in scope id child_scope
  end.

Definition remove_dynamic (scope : nat) (id : ChildId) (exact : option Membership) : StoreOp nat :=
  c ← cells (get_scope scope);
  match ScopeCell.state c with
  | ScopeState.Draining | ScopeState.Stopped _ => completed_removal RemoveOutcome.AlreadyAbsent
  | _ =>
      control ← in_scope scope;
      match control with
      | None => completed_removal RemoveOutcome.AlreadyAbsent
      | Some control => control_remove control scope id exact
      end
  end.
End dynamic.

Arguments Store : clear implicits.
Arguments StoreNote : clear implicits.
