(* ===== verification/DynamicProps.v ===== *)
(** * Correctness of the dynamic control plane

    Every response a caller was given is answered exactly once, or owed by
    exactly one obligation; a removal is requested of the driver once. *)

From S2P Require Import Prelude Identity Exit Policy Restart Epochs Lifecycle Supervisor Gate Watch.
From S2P Require Import Member Snapshot LifecycleHub Scope ScopeLogic Plan PlanProps Effects Dynamic.

Section props.
Context {M T F B R P : Type} `{!MailboxControl M T F} `{!Broadcast LifecycleEvent.t B R}.
Local Abbreviation World := (World M B P).
Local Abbreviation PlanNote := (PlanNote T F P).
Local Abbreviation PlanOp := (@PlanOp M T F B P).
Local Abbreviation Construction := (ChildConstruction.t P).
Local Abbreviation Store := (Store M B P).
Local Abbreviation StoreNote := (StoreNote T F P).
Local Abbreviation StoreOp := (@StoreOp M T F B P).

(** ** Who owes a response *)

Definition values {K V} `{Countable K} {X} (f : V -> list X) (m : gmap K V) : list X :=
  (map_to_list m).*2 ≫= f.

Lemma values_insert {K V} `{Countable K} {X} (f : V -> list X) (m : gmap K V) k v :
  m !! k = None -> values f (<[k := v]> m) ≡ₚ f v ++ values f m.
Proof. intros Hk. unfold values. by rewrite map_to_list_insert. Qed.

Lemma values_lookup {K V} `{Countable K} {X} (f : V -> list X) (m : gmap K V) k v :
  m !! k = Some v -> values f m ≡ₚ f v ++ values f (delete k m).
Proof.
  intros Hk. rewrite <- (insert_delete_id m k v Hk) at 1.
  by rewrite values_insert by apply lookup_delete_eq.
Qed.

Lemma values_update {K V} `{Countable K} {X} (f : V -> list X) (m : gmap K V) k v v' :
  m !! k = Some v -> f v ++ values f (<[k := v']> m) ≡ₚ f v' ++ values f m.
Proof.
  intros Hk. rewrite (values_lookup f m k v Hk), (values_lookup f (<[k := v']> m) k v')
    by apply lookup_insert_eq.
  rewrite delete_insert_eq. apply Permutation_app_swap_app.
Qed.

Definition entry_owes (e : DynamicEntry.t) : list nat := DynamicEntry.removal e.
Definition control_owes (c : DynamicControl.t) : list nat := values entry_owes (DynamicControl.entries c).
Definition event_owes (e : DriverEvent.t) : list nat :=
  match e with DriverEvent.Admission r => [AdmissionRequest.response r] | _ => [] end.
Definition lane_owes (l : list DriverEvent.t) : list nat := l ≫= event_owes.
Definition removed_owes (e : option DynamicEntry.t) : list nat := option_list e ≫= entry_owes.
Definition completion_owes (c : Completion) : list nat :=
  match c with
  | DropEntry e => removed_owes e
  | RejectAdmission r e _ => AdmissionRequest.response r :: removed_owes e
  | SendDisposed _ _ _ => []
  end.

Definition owed (s : Store) : list nat :=
  values control_owes (st_controls s) ++ values lane_owes (st_lanes s) ++
  values (fun d : Construction * Completion => completion_owes d.2) (st_disposals s).

Definition issues (n : StoreNote) : list nat := match n with Issued r => [r] | _ => [] end.
Definition settles (n : StoreNote) : list nat :=
  match n with Sent r _ | Forgotten r => [r] | _ => [] end.
Definition issued (n : list StoreNote) : list nat := n ≫= issues.
Definition settled_responses (n : list StoreNote) : list nat := n ≫= settles.

#[export] Instance response_ledger : Ledger Store StoreNote nat :=
  {| holds := owed; gained := issues; spent := settles |}.

Lemma declared_moves (n : list PlanNote) :
  issued (Declared <$> n) = [] /\ settled_responses (Declared <$> n) = [].
Proof. induction n; done. Qed.

Lemma still_plan {A} (m : PlanOp A) : still (plan m : StoreOp A).
Proof.
  intros s a n s' H. apply tx_zoom_inv in H as (n' & w & _ & -> & ->).
  destruct (declared_moves n') as [Hi Hs]. done.
Qed.
Lemma still_cells {A} (m : @Op M T F B A) : still (cells m : StoreOp A).
Proof. apply still_plan. Qed.
Lemma still_get_control c : still (get_control c : StoreOp _).
Proof. unfold get_control. still_walk. Qed.
Lemma still_slot_member i : still (slot_member i : StoreOp _).
Proof. unfold slot_member. repeat first [still_step|apply still_plan|apply still_cells]. Qed.
Lemma still_fire l : still (latch_fire_silently l : StoreOp bool).
Proof.
  intros s a n s' H. unfold latch_fire_silently in H.
  apply tx_bind_inv in H as (s1 & n1 & s2 & n2 & H1 & H & ->). cbv [tx_get] in H1. simplify_eq.
  destruct (latch_fired s2 l); cbv [tx_modify mret tx_ret mbind tx_bind outcome_bind] in H; by simplify_eq.
Qed.
Lemma still_notify l : still (tx_notes [Notify l] : StoreOp ()).
Proof. intros s a n s' H. cbv [tx_notes] in H. by simplify_eq. Qed.
#[local] Hint Resolve still_ret still_get still_plan still_cells still_get_control still_slot_member still_fire
  still_notify : tx_still.
Lemma still_entry_is m e : still (entry_is m e : StoreOp bool).
Proof. unfold entry_is. still_walk. Qed.
Lemma still_in_scope s : still (in_scope s : StoreOp _).
Proof. unfold in_scope. still_walk. Qed.
#[local] Hint Resolve still_entry_is still_in_scope : tx_still.

(** ** Primitives *)

Lemma owns_fresh : owns [] (fresh_response : StoreOp nat) (fun r => [r]).
Proof.
  intros s a n s' H. cbv [fresh_response tx_get tx_modify tx_notes mret tx_ret mbind tx_bind
    outcome_bind] in H. simplify_eq. simpl. done.
Qed.

Lemma owns_send r a : owns [r] (send r a : StoreOp ()) (fun _ => []).
Proof. intros s u n s' H. cbv [send tx_notes] in H. simplify_eq. simpl. rewrite app_nil_r. solve_Permutation. Qed.

Lemma owns_complete_removals e : owns (entry_owes e) (complete_removals e : StoreOp ()) (fun _ => []).
Proof.
  unfold complete_removals, entry_owes.
  replace (DynamicEntry.removal e) with (DynamicEntry.removal e ≫= fun r => [r]) at 1.
  - apply owns_each. intros r. apply owns_send.
  - induction (DynamicEntry.removal e); simpl; [done|by f_equal].
Qed.

Lemma owns_drop_entry e : owns (removed_owes e) (drop_entry e : StoreOp ()) (fun _ => []).
Proof.
  destruct e as [e|]; simpl; [|by apply owns_ret]. unfold removed_owes. simpl. rewrite app_nil_r.
  apply owns_complete_removals.
Qed.

Lemma owns_drop_event e : owns (event_owes e) (drop_event e : StoreOp ()) (fun _ => []).
Proof. destruct e; simpl; [by apply owns_ret|apply owns_send|by apply owns_ret]. Qed.

Lemma owns_send_event lane e : owns (event_owes e) (send_event lane e : StoreOp bool) (fun _ => []).
Proof.
  unfold send_event. intros s a n s' H.
  apply tx_bind_inv in H as (s0 & n1 & s1 & n2 & H1 & H & ->). cbv [tx_get] in H1. simplify_eq.
  destruct (st_lanes s1 !! lane) as [q|] eqn:E.
  - cbv [tx_modify mret tx_ret mbind tx_bind outcome_bind] in H. simplify_eq. simpl.
    unfold owed; simpl. rewrite !app_nil_r.
    pose proof (values_update lane_owes _ _ q (q ++ [e]) E) as Hu. unfold lane_owes at 1 3 in Hu.
    rewrite bind_app in Hu. simpl in Hu. rewrite app_nil_r, <- app_assoc in Hu.
    apply Permutation_app_inv_l in Hu. rewrite Hu. solve_Permutation.
  - revert H. refine ((_ : owns _ _ _) s1 a n2 s'). by apply owns_bind_ret, owns_drop_event.
Qed.

Lemma tx_get_inv (s s0 : Store) (n : list StoreNote) s' :
  (tx_get : StoreOp Store) s = Ret (s0, n, s') -> s0 = s /\ n = [] /\ s' = s.
Proof. intros H. cbv in H. by simplify_eq. Qed.

Lemma owns_drop_lane lane : owns [] (drop_lane lane : StoreOp ()) (fun _ => []).
Proof.
  unfold drop_lane. intros s a n s' H.
  apply tx_bind_inv in H as (s0 & n1 & s1 & n2 & H1 & H & ->). apply tx_get_inv in H1 as (-> & -> & ->).
  apply tx_bind_inv in H as (u & n1 & s1 & n3 & H1 & H & ->). cbv [tx_modify] in H1. simplify_eq.
  apply (owns_each event_owes _ _ owns_drop_event) in H. simpl. rewrite <- H. simpl.
  unfold owed; simpl. destruct (st_lanes s !! lane) as [q|] eqn:E; simpl.
  - rewrite (values_lookup lane_owes _ _ _ E). fold (lane_owes q). solve_Permutation.
  - by rewrite delete_id.
Qed.

Lemma owns_run_completion c : owns (completion_owes c) (run_completion c : StoreOp ()) (fun _ => []).
Proof.
  destruct c as [e|r e err|lane m k]; simpl; [apply owns_drop_entry| |].
  - eapply (owns_bind _ _ _ (fun _ => [AdmissionRequest.response r])); [|intros; apply owns_send].
    exact (owns_frame [AdmissionRequest.response r] _ _ _ (owns_drop_entry e)).
  - eapply (owns_bind _ _ _ (fun _ => [])); [exact (owns_send_event lane (DriverEvent.Child _))|].
    intros ok. apply owns_still, still_cells.
Qed.

Lemma owns_dispose_then d c : owns (completion_owes c) (dispose_then d c : StoreOp ()) (fun _ => []).
Proof.
  intros s a n s' H. cbv [dispose_then tx_get tx_modify mbind tx_bind outcome_bind] in H. simplify_eq.
  simpl. unfold owed; simpl. rewrite values_insert by apply fresh_index_None. simpl.
  rewrite !app_nil_r. solve_Permutation.
Qed.

Lemma owns_dispose_definition d c :
  owns (completion_owes c) (dispose_definition_then d c : StoreOp ()) (fun _ => []).
Proof. destruct d; [apply owns_dispose_then|apply owns_run_completion]. Qed.

Lemma owns_finish_disposal i : owns [] (finish_disposal i : StoreOp ()) (fun _ => []).
Proof.
  unfold finish_disposal. intros s a n s' H.
  apply tx_bind_inv in H as (s0 & n1 & s1 & n2 & H1 & H & ->). apply tx_get_inv in H1 as (-> & -> & ->).
  destruct (st_disposals s !! i) as [[d c]|] eqn:E; [|by eapply (owns_ret [] tt (fun _ => [])) in H].
  apply tx_bind_inv in H as (u & n1 & s1 & n3 & H1 & H & ->). cbv [tx_modify] in H1. simplify_eq.
  apply tx_bind_inv in H as (u' & n1 & s1 & n4 & H1 & H & ->). cbv [tx_notes] in H1. simplify_eq.
  apply owns_run_completion in H. simpl. rewrite <- H. unfold owed; simpl.
  rewrite (values_lookup (fun d : Construction * Completion => completion_owes d.2) _ _ _ E). simpl.
  solve_Permutation.
Qed.

(** ** Entries of a control *)

(** Writing a control whose entries now owe [g'] where they owed [g]. *)
Lemma owns_put_control control c c' g g' (s : Store) u n s' :
  st_controls s !! control = Some c ->
  control_owes c' ++ g ≡ₚ g' ++ control_owes c ->
  (put_control control c' : StoreOp ()) s = Ret (u, n, s') ->
  g' ++ holds s ++ gains n ≡ₚ holds s' ++ spends n ++ g.
Proof.
  intros Hc Hg H. cbv [put_control tx_modify] in H. simplify_eq. simpl. unfold owed; simpl.
  pose proof (values_update control_owes _ _ c c' Hc) as Hu.
  apply (Permutation_app_inv_l (control_owes c)). rewrite !app_nil_r.
  trans ((g' ++ control_owes c) ++ values control_owes (st_controls s) ++ values lane_owes (st_lanes s) ++
         values (fun d : Construction * Completion => completion_owes d.2) (st_disposals s));
    [solve_Permutation|]. rewrite <- Hg.
  trans (g ++ (control_owes c' ++ values control_owes (st_controls s)) ++ values lane_owes (st_lanes s) ++
         values (fun d : Construction * Completion => completion_owes d.2) (st_disposals s));
    [solve_Permutation|]. rewrite <- Hu. solve_Permutation.
Qed.

Lemma get_control_inv control (s : Store) c n s' :
  (get_control control : StoreOp _) s = Ret (c, n, s') ->
  st_controls s !! control = Some c /\ n = [] /\ s' = s.
Proof.
  intros H. unfold get_control in H. apply tx_bind_inv in H as (s0 & n1 & s1 & n2 & H1 & H & ->).
  apply tx_get_inv in H1 as (-> & -> & ->). apply tx_lift_inv in H as (H & -> & ->).
  by apply expect_inv in H.
Qed.

Lemma control_owes_insert id e c :
  DynamicControl.entries c !! id = None ->
  control_owes (DynamicControl.insert id e c) ≡ₚ entry_owes e ++ control_owes c.
Proof. intros H. unfold control_owes. simpl. by rewrite values_insert. Qed.

Lemma control_owes_update id e e' c :
  DynamicControl.entries c !! id = Some e ->
  entry_owes e ++ control_owes (DynamicControl.insert id e' c) ≡ₚ entry_owes e' ++ control_owes c.
Proof. intros H. unfold control_owes. simpl. by rewrite values_update. Qed.

Lemma control_owes_remove id e c :
  DynamicControl.entries c !! id = Some e ->
  entry_owes e ++ control_owes (DynamicControl.remove id c) ≡ₚ control_owes c.
Proof. intros H. unfold control_owes. simpl. by rewrite (values_lookup entry_owes _ _ _ H). Qed.

(** Closing admission moves no obligation. *)
Lemma control_owes_close c : control_owes (DynamicControl.close_admission c) = control_owes c.
Proof. done. Qed.

(** *** Work between reading a control and writing it back *)

Definition keeps_controls {A} (m : StoreOp A) : Prop :=
  forall s a n s', m s = Ret (a, n, s') -> st_controls s' = st_controls s.

Lemma kc_plan {A} (m : PlanOp A) : keeps_controls (plan m : StoreOp A).
Proof. intros s a n s' H. by apply tx_zoom_inv in H as (n' & w & _ & _ & ->). Qed.
Lemma kc_cells {A} (m : @Op M T F B A) : keeps_controls (cells m : StoreOp A).
Proof. apply kc_plan. Qed.
Lemma kc_ret {A} (a : A) : keeps_controls (mret a : StoreOp A).
Proof. intros s b n s' H. by apply tx_ret_inv in H as (_ & _ & ->). Qed.
Lemma kc_get : keeps_controls (tx_get : StoreOp Store).
Proof. intros s b n s' H. by apply tx_get_inv in H as (_ & _ & ->). Qed.
Lemma kc_notes l : keeps_controls (tx_notes l : StoreOp ()).
Proof. intros s b n s' H. cbv [tx_notes] in H. by simplify_eq. Qed.
Lemma kc_bind {A C} (m : StoreOp A) (k : A -> StoreOp C) :
  keeps_controls m -> (forall a, keeps_controls (k a)) -> keeps_controls (m ≫= k).
Proof.
  intros Hm Hk s c n s' H. apply tx_bind_inv in H as (a & n1 & s1 & n2 & H1 & H2 & ->).
  apply Hm in H1. apply Hk in H2. by rewrite H2.
Qed.
Lemma kc_slot_member i : keeps_controls (slot_member i : StoreOp _).
Proof.
  apply kc_bind; [apply kc_plan|intros c]. apply kc_bind; [apply kc_plan|intros; apply kc_ret].
Qed.
Lemma kc_entry_is m e : keeps_controls (entry_is m e : StoreOp bool).
Proof. apply kc_bind; [apply kc_slot_member|intros []; apply kc_ret]. Qed.
Lemma kc_fresh : keeps_controls (fresh_response : StoreOp nat).
Proof.
  intros s b n s' H. cbv [fresh_response tx_get tx_modify tx_notes mret tx_ret mbind tx_bind outcome_bind] in H.
  by simplify_eq.
Qed.
#[local] Hint Resolve kc_plan kc_cells kc_ret kc_get kc_notes kc_slot_member kc_entry_is kc_fresh : tx_still.

(** [owns] where [control]'s state is known to be [c]. *)
Definition owns_at {A} (control : nat) (c : DynamicControl.t) (g : list nat) (m : StoreOp A)
    (o : A -> list nat) : Prop :=
  forall s a n s', st_controls s !! control = Some c -> m s = Ret (a, n, s') ->
    g ++ holds s ++ gains n ≡ₚ holds s' ++ spends n ++ o a.

Lemma at_any {A} control c g (m : StoreOp A) o : owns g m o -> owns_at control c g m o.
Proof. intros Hm s a n s' _ H. by eapply Hm. Qed.

Lemma at_read {A} control (k : DynamicControl.t -> StoreOp A) g o :
  (forall c, owns_at control c g (k c) o) -> owns g (c ← get_control control; k c) o.
Proof.
  intros Hk s a n s' H. apply tx_bind_inv in H as (c & n1 & s1 & n2 & H1 & H & ->).
  apply get_control_inv in H1 as (Hc & -> & ->). by eapply Hk.
Qed.

Lemma at_bind {A C} control c g (m : StoreOp A) (k : A -> StoreOp C) o1 o :
  owns_at control c g m o1 -> (forall a, owns (o1 a) (k a) o) -> owns_at control c g (m ≫= k) o.
Proof.
  intros Hm Hk s b n s' Hc H. apply tx_bind_inv in H as (a & n1 & s1 & n2 & H1 & H2 & ->).
  specialize (Hm _ _ _ _ Hc H1). specialize (Hk _ _ _ _ _ H2). rewrite gains_app, spends_app.
  trans ((g ++ holds s ++ gains n1) ++ gains n2); [solve_Permutation|]. rewrite Hm.
  trans (spends n1 ++ (o1 a ++ holds s1 ++ gains n2)); [solve_Permutation|]. rewrite Hk. solve_Permutation.
Qed.

Lemma at_keep {A C} control c g (m : StoreOp A) (k : A -> StoreOp C) o1 o :
  keeps_controls m -> owns g m o1 -> (forall a, owns_at control c (o1 a) (k a) o) ->
  owns_at control c g (m ≫= k) o.
Proof.
  intros Hc Hm Hk s b n s' E H. apply tx_bind_inv in H as (a & n1 & s1 & n2 & H1 & H2 & ->).
  pose proof (Hc _ _ _ _ H1) as Es. specialize (Hm _ _ _ _ H1).
  assert (st_controls s1 !! control = Some c) as E1 by (by rewrite Es).
  specialize (Hk _ _ _ _ _ E1 H2). rewrite gains_app, spends_app.
  trans ((g ++ holds s ++ gains n1) ++ gains n2); [solve_Permutation|]. rewrite Hm.
  trans (spends n1 ++ (o1 a ++ holds s1 ++ gains n2)); [solve_Permutation|]. rewrite Hk. solve_Permutation.
Qed.

Lemma at_still {A C} control c g (m : StoreOp A) (k : A -> StoreOp C) o :
  keeps_controls m -> still m -> (forall a, owns_at control c g (k a) o) ->
  owns_at control c g (m ≫= k) o.
Proof. intros Hc Hm Hk. eapply at_keep; [done|by apply owns_still|done]. Qed.

Lemma at_put control c c' g g' :
  control_owes c' ++ g ≡ₚ g' ++ control_owes c ->
  owns_at control c g' (put_control control c' : StoreOp ()) (fun _ => g).
Proof. intros Hg s u n s' Hc H. by eapply owns_put_control. Qed.

Lemma at_pure {A} control c g (m : StoreOp A) : still m -> owns_at control c g m (fun _ => g).
Proof. intros Hm. by apply at_any, owns_still. Qed.

(** One step of reading the cells. *)
Ltac at_step := apply at_still; [solve [eauto 2 with tx_still nocore]|solve [eauto 2 with tx_still nocore]|].

(** ** The operations *)

Lemma owns_reserve_control control scope id sc :
  owns [] (Dynamic.reserve control scope id sc : StoreOp _) (fun _ => []).
Proof.
  apply at_read. intros c. destruct (negb (DynamicControl.accepting c)); [apply at_pure; still_walk|].
  destruct (DynamicControl.entries c !! id) as [e|] eqn:Ee; [apply at_pure; still_walk|].
  at_step; intros slot. at_step; intros cl. at_step; intros ?.
  eapply (at_bind _ _ _ _ _ (fun _ => [])); [|intros; by apply owns_ret]. apply at_put.
  by rewrite control_owes_insert, app_nil_r.
Qed.

Lemma owns_event {A} lane e (x : A) :
  owns (event_owes e) (_ ← send_event lane e; mret x : StoreOp A) (fun _ => []).
Proof. eapply owns_bind; [apply owns_send_event|intros; by apply owns_ret]. Qed.

Lemma owns_fused_cancel control scope slot latch :
  owns [] (control_signal_fused_cancel control scope slot latch : StoreOp ()) (fun _ => []).
Proof.
  unfold control_signal_fused_cancel.
  eapply (owns_bind _ _ _ (fun _ => [])); [apply owns_still, still_fire|intros fired].
  destruct fired; simpl; [|by apply owns_ret].
  eapply (owns_bind _ _ _ (fun _ => [])); [apply owns_still, still_notify|intros _].
  eapply (owns_bind _ _ _ (fun _ => [])); [apply owns_still, still_slot_member|intros [cl m]].
  apply at_read. intros c.
  destruct (DynamicControl.entries c !! MemberCell.id m) as [e|] eqn:Ee; [|apply at_pure; still_walk].
  at_step; intros own. destruct own; [|apply at_pure; still_walk].
  destruct (DynamicEntry.mark_removing e) as [[key|] e'] eqn:Em; [|apply at_pure; still_walk].
  assert (entry_owes e' = entry_owes e) as He.
  { unfold DynamicEntry.mark_removing in Em. unfold entry_owes. destruct (DynamicEntry.state e); by simplify_eq. }
  eapply (at_bind _ _ _ _ _ (fun _ => [])).
  { apply at_put. pose proof (control_owes_update _ _ e' _ Ee) as Hu. rewrite He in Hu.
    apply Permutation_app_inv_l in Hu. by rewrite Hu, app_nil_r. }
  intros _. eapply (owns_bind _ _ _ (fun _ => [])); [apply owns_still, still_plan|intros cl'].
  eapply (owns_bind _ _ _ (fun _ => [])); [apply owns_still, still_cells|intros _].
  apply (owns_event _ (DriverEvent.Removal key)).
Qed.

Lemma owns_completed_removal o : owns [] (completed_removal o : StoreOp nat) (fun _ => []).
Proof.
  eapply owns_bind; [apply owns_fresh|intros r].
  eapply owns_bind; [apply owns_send|intros u]. by apply owns_ret.
Qed.

Lemma subscribe_owes closed r e :
  entry_owes (DynamicEntry.subscribe closed r e) ++ DynamicEntry.abandoned closed e ≡ₚ
  r :: entry_owes e.
Proof.
  unfold entry_owes, DynamicEntry.abandoned. simpl. rewrite <- app_assoc. simpl.
  rewrite <- Permutation_middle. constructor.
  induction (DynamicEntry.removal e) as [|x l IH]; [done|]. rewrite !filter_cons.
  destruct (closed x); simpl; [|by constructor]. rewrite <- Permutation_middle. by constructor.
Qed.

Lemma spends_forgotten l : spends (Forgotten <$> l : list StoreNote) = l.
Proof. induction l; simpl; [done|by f_equal]. Qed.
Lemma gains_forgotten l : gains (Forgotten <$> l : list StoreNote) = [].
Proof. by induction l. Qed.

Lemma owns_forget x l : owns (x ++ l) (tx_notes (Forgotten <$> l) : StoreOp ()) (fun _ => x).
Proof.
  intros s u n s' H. cbv [tx_notes] in H. simplify_eq. rewrite spends_forgotten, gains_forgotten.
  rewrite app_nil_r. solve_Permutation.
Qed.

Lemma mark_removing_owes e : entry_owes (DynamicEntry.mark_removing e).2 = entry_owes e.
Proof. unfold DynamicEntry.mark_removing. by destruct (DynamicEntry.state e). Qed.

Lemma owns_removing control scope slot key :
  owns [] (cell ← plan (get_slot slot);
           _ ← cells (set_child_removing_locked scope (SlotCell.member cell));
           _ ← send_event control (DriverEvent.Removal key);
           mret () : StoreOp ()) (fun _ => []).
Proof.
  eapply (owns_bind _ _ _ (fun _ => [])); [apply owns_still, still_plan|intros cl].
  eapply (owns_bind _ _ _ (fun _ => [])); [apply owns_still, still_cells|intros u].
  apply (owns_event _ (DriverEvent.Removal key)).
Qed.

Lemma owns_control_remove control scope id exact :
  owns [] (control_remove control scope id exact : StoreOp nat) (fun _ => []).
Proof.
  apply at_read. intros c.
  destruct (DynamicControl.entries c !! id) as [e|] eqn:Ee; [|apply at_any, owns_completed_removal].
  apply at_still; [destruct exact; [apply kc_entry_is|apply kc_ret]|destruct exact; still_walk|intros own].
  destruct own; simpl; [|apply at_any, owns_completed_removal].
  eapply at_keep; [apply kc_fresh|apply owns_fresh|intros r]. at_step; intros s0.
  set (closed := response_closed s0). set (e1 := DynamicEntry.subscribe closed r e).
  pose proof (subscribe_owes closed r e) as Hsub. fold e1 in Hsub.
  destruct (DynamicEntry.is_reserved e1).
  - eapply (at_bind _ _ _ _ _ (fun _ => entry_owes e1 ++ DynamicEntry.abandoned closed e)).
    { apply at_put. rewrite Hsub, <- (control_owes_remove _ _ _ Ee). solve_Permutation. }
    intros u. eapply owns_bind; [apply owns_forget|intros v].
    eapply (owns_bind _ _ _ (fun _ => entry_owes e1)); [apply owns_still, still_plan|intros d].
    eapply (owns_bind _ _ _ (fun _ => [])); [|intros; by apply owns_ret].
    replace (entry_owes e1) with (completion_owes (DropEntry (Some e1))) by (simpl; apply app_nil_r).
    apply owns_dispose_definition.
  - pose proof (mark_removing_owes e1) as Hm. destruct (DynamicEntry.mark_removing e1) as [key e2].
    simpl in Hm.
    eapply (at_bind _ _ _ _ _ (fun _ => DynamicEntry.abandoned closed e)).
    { apply at_put. apply (Permutation_app_inv_l (entry_owes e)).
      rewrite app_assoc, (control_owes_update _ _ e2 _ Ee), Hm.
      trans ((entry_owes e1 ++ DynamicEntry.abandoned closed e) ++ control_owes c); [solve_Permutation|].
      rewrite Hsub. solve_Permutation. }
    intros u. eapply (owns_bind _ _ _ (fun _ => [])); [exact (owns_forget [] _)|intros v].
    eapply (owns_bind _ _ _ (fun _ => [])); [|intros; by apply owns_ret].
    destruct key as [key|]; [apply owns_removing|by apply owns_ret].
Qed.

Definition deferred_owes (l : list (option Construction * DynamicEntry.t)) : list nat :=
  l ≫= fun d => entry_owes d.2.

Lemma close_entries_keys scope l s m ds n s' :
  (close_entries scope l : StoreOp _) s = Ret (m, ds, n, s') -> forall id e, m !! id = Some e -> id ∈ l.*1.
Proof.
  revert s m ds n s'. induction l as [|[id e] l IH]; intros s m ds n s' H; simpl in H.
  { apply tx_ret_inv in H as ([= -> ->] & _). intros id e He. by rewrite lookup_empty in He. }
  destruct (DynamicEntry.is_reserved e).
  - apply tx_bind_inv in H as (d & n1 & s1 & n2 & _ & H & ->).
    apply tx_bind_inv in H as ([m' ds'] & n3 & s2 & n4 & H1 & H & ->).
    apply tx_ret_inv in H as ([= -> ->] & _).
    intros id' e' He. apply list_elem_of_further. by eapply IH.
  - apply tx_bind_inv in H as ([m' ds'] & n1 & s1 & n2 & H1 & H & ->).
    apply tx_ret_inv in H as ([= -> ->] & _).
    intros id' e' He. apply lookup_insert_Some in He as [[-> _]|[_ He]]; [apply list_elem_of_here|].
    apply list_elem_of_further. by eapply IH.
Qed.

Lemma owns_close_entries scope l :
  NoDup l.*1 ->
  owns (l.*2 ≫= entry_owes) (close_entries scope l : StoreOp _)
    (fun r => values entry_owes r.1 ++ deferred_owes r.2).
Proof.
  induction l as [|[id e] l IH]; intros Hnd; simpl; [by apply owns_ret|].
  inversion Hnd as [|? ? Hid Hnd']; subst. specialize (IH Hnd').
  destruct (DynamicEntry.is_reserved e).
  - eapply (owns_bind _ _ _ (fun _ => entry_owes e ++ (l.*2 ≫= entry_owes)));
      [apply owns_still, still_plan|intros d].
    eapply owns_bind; [exact (owns_frame (entry_owes e) _ _ _ IH)|intros [m ds]].
    eapply owns_perm; [|by apply (owns_ret _ _ (fun r => values entry_owes r.1 ++ deferred_owes r.2))].
    simpl. solve_Permutation.
  - intros s [m ds] n s' H. apply tx_bind_inv in H as ([m' ds'] & n1 & s1 & n2 & H1 & H & ->).
    apply tx_ret_inv in H as ([= -> ->] & -> & ->). rewrite !app_nil_r. simpl.
    rewrite values_insert; [|apply eq_None_not_Some; intros [x Hx]; apply Hid; by eapply close_entries_keys].
    apply IH in H1. simpl in H1. rewrite <- app_assoc, H1. solve_Permutation.
Qed.

Lemma owns_close control scope :
  owns [] (Dynamic.close control scope : StoreOp _)
    (fun r => values entry_owes r.1 ++ deferred_owes r.2).
Proof.
  apply at_read. intros c. eapply (at_bind _ _ _ _ _ (fun _ => control_owes c)).
  { apply at_put. unfold control_owes at 1. simpl. unfold values at 1. by rewrite map_to_list_empty. }
  intros u. apply owns_close_entries, NoDup_fst_map_to_list.
Qed.

Lemma owns_commit_disposals l : owns (deferred_owes l) (commit_disposals l : StoreOp ()) (fun _ => []).
Proof.
  apply (owns_each (fun d => entry_owes d.2)). intros [d e]. simpl.
  replace (entry_owes e) with (completion_owes (DropEntry (Some e))) by (simpl; apply app_nil_r).
  apply owns_dispose_definition.
Qed.

Lemma owns_route_close control : owns [] (route_close_admission control : StoreOp ()) (fun _ => []).
Proof. apply at_read. intros c. apply at_put. by rewrite control_owes_close, app_nil_r. Qed.

Lemma owns_start_admission available r fused :
  owns [] (start_admission available r fused : StoreOp _) (fun _ => []).
Proof.
  unfold start_admission. destruct available; simpl; [|by apply owns_ret].
  eapply owns_bind; [apply owns_fresh|intros response].
  eapply owns_bind; [apply owns_still, still_get_control|intros c].
  apply (owns_event _ (DriverEvent.Admission (AdmissionRequest.mk (r_slot r) fused response))).
Qed.

Lemma owns_cancel_parts scope control slot :
  owns [] (cancel_dynamic_reservation_parts scope control slot : StoreOp _)
    (fun r => removed_owes r.2).
Proof.
  apply at_read. intros c. at_step; intros [cl m]. simpl.
  destruct (DynamicControl.entries c !! MemberCell.id m) as [e|] eqn:Ee; simpl.
  - at_step; intros own. destruct (own && DynamicEntry.is_reserved e); [|by apply at_any, owns_ret].
    eapply (at_bind _ _ _ _ _ (fun _ => entry_owes e)).
    { apply at_put. rewrite <- (control_owes_remove _ _ _ Ee). solve_Permutation. }
    intros u. eapply (owns_bind _ _ _ (fun _ => entry_owes e)); [apply owns_still, still_plan|intros d].
    apply owns_ret. unfold removed_owes. simpl. by rewrite app_nil_r.
  - at_step; intros own. by apply at_any, owns_ret.
Qed.

Lemma owns_cancel r : owns [] (Dynamic.cancel r : StoreOp ()) (fun _ => []).
Proof.
  eapply owns_bind; [apply owns_cancel_parts|intros [d e]]. simpl.
  exact (owns_dispose_definition d (DropEntry e)).
Qed.

Lemma owns_reserve_dynamic available scope id sc :
  owns [] (reserve_dynamic available scope id sc : StoreOp _) (fun _ => []).
Proof.
  unfold reserve_dynamic. destruct (checked_id id); [|by apply owns_ret].
  destruct available; simpl; [|by apply owns_ret]. unfold reserve_dynamic_in.
  eapply (owns_bind _ _ _ (fun _ => [])); [apply owns_still, still_cells|intros c].
  eapply (owns_bind _ _ _ (fun _ => [])); [apply owns_still, still_cells|intros stage].
  destruct (MemberStage.is_terminal stage); [by apply owns_ret|].
  eapply (owns_bind _ _ _ (fun _ => [])); [apply owns_still, still_in_scope|intros [control|]];
    [|by apply owns_ret].
  destruct (ScopeCell.state c); try by apply owns_ret.
  all: eapply (owns_bind _ _ _ (fun _ => [])); [apply owns_reserve_control|intros; by apply owns_ret].
Qed.

Lemma owns_remove_dynamic scope id exact :
  owns [] (remove_dynamic scope id exact : StoreOp nat) (fun _ => []).
Proof.
  eapply (owns_bind _ _ _ (fun _ => [])); [apply owns_still, still_cells|intros c].
  destruct (ScopeCell.state c); try apply owns_completed_removal.
  all: eapply (owns_bind _ _ _ (fun _ => [])); [apply owns_still, still_in_scope|intros [control|]];
    [apply owns_control_remove|apply owns_completed_removal].
Qed.

Lemma owns_register_initial control l :
  owns [] (register_initial control l : StoreOp ()) (fun _ => []).
Proof.
  unfold register_initial. induction l as [|[slot key] l IH]; simpl; [by apply owns_ret|].
  eapply (owns_bind _ _ _ (fun _ => [])); [|intros; exact IH].
  eapply (owns_bind _ _ _ (fun _ => [])); [apply owns_still, still_slot_member|intros [cl m]].
  apply at_read. intros c. simpl. set (e := DynamicEntry.resident slot key None).
  eapply (at_bind _ _ _ _ _ (fun _ => removed_owes (DynamicControl.entries c !! MemberCell.id m)));
    [|intros; apply owns_drop_entry].
  apply at_put. destruct (DynamicControl.entries c !! MemberCell.id m) as [e0|] eqn:Ee; simpl.
  - unfold removed_owes. simpl. rewrite app_nil_r.
    rewrite Permutation_app_comm, (control_owes_update _ _ e _ Ee). done.
  - rewrite control_owes_insert by done. unfold removed_owes. simpl. by rewrite app_nil_r.
Qed.
End props.
