(* ===== verification/DynamicClaims.v ===== *)
(** * Promises of the dynamic control plane

    Histories of caller and environment steps on a store: every response is
    owed by one obligation or settled once.  A refused reservation names the
    condition that refuses it and changes nothing. *)

From S2P Require Import Prelude Identity Exit Policy Epochs Restart Lifecycle Supervisor Mailbox Watch Gate Member MailboxMember Snapshot.
From S2P Require Import LifecycleHub Scope ScopeLogic ScopeClosed Plan PlanProps Effects Dynamic DynamicProps.

(** ** Histories *)

(** What callers, disposal jobs and a dying driver do to the store. *)
Inductive ControlStep :=
| CReserve (available : bool) (scope : nat) (id : ChildId) (child_scope : option ScopeFlavor)
| CAdmit (available : bool) (r : DynamicReservation) (fused_cancel : option nat)
| CCancel (r : DynamicReservation)
| CRemove (scope : nat) (id : ChildId) (exact : option Membership)
| CFusedCancel (control scope slot latch : nat)
| CCloseAdmission (control : nat)
| CRegister (control : nat) (l : list (nat * ChildKey))
| CClose (control scope : nat)
| CAbandon (response : nat)
| CDisposed (job : nat)
| CDropLane (lane : nat).

Section claims.
Context {M T F B R P : Type} `{!MailboxControl M T F} `{!Broadcast LifecycleEvent.t B R}.
Local Abbreviation PlanOp := (@PlanOp M T F B P).
Local Abbreviation Store := (Store M B P).
Local Abbreviation StoreNote := (StoreNote T F P).
Local Abbreviation StoreOp := (@StoreOp M T F B P).

(** A closed control's entries are dropped once its members are terminal. *)
Definition close_and_drop (control scope : nat) : StoreOp () :=
  '(retained, deferred) ← Dynamic.close control scope;
  _ ← commit_disposals deferred;
  tx_each (fun e => drop_entry (Some e)) (map_to_list retained).*2.

Definition control_step (o : ControlStep) : StoreOp () :=
  match o with
  | CReserve available scope id child_scope =>
      _ ← reserve_dynamic available scope id child_scope; mret ()
  | CAdmit available r fused => _ ← start_admission available r fused; mret ()
  | CCancel r => Dynamic.cancel r
  | CRemove scope id exact => _ ← remove_dynamic scope id exact; mret ()
  | CFusedCancel control scope slot latch => control_signal_fused_cancel control scope slot latch
  | CCloseAdmission control => route_close_admission control
  | CRegister control l => register_initial control l
  | CClose control scope => close_and_drop control scope
  | CAbandon r => abandon_response r
  | CDisposed i => finish_disposal i
  | CDropLane lane => drop_lane lane
  end.

Definition control_exec (s : Store) (o : ControlStep) : outcome (list StoreNote * Store) :=
  '(_, n, s) ← control_step o s; Ret (n, s).

Lemma owns_close_and_drop control scope :
  owns [] (close_and_drop control scope : StoreOp ()) (fun _ => []).
Proof.
  eapply owns_bind; [apply owns_close|intros [m ds]].
  eapply (owns_bind _ _ _ (fun _ => values entry_owes m)); simpl.
  - apply owns_consume, owns_commit_disposals.
  - intros _. apply owns_each. intros e. pose proof (owns_drop_entry (M:=M) (T:=T) (F:=F) (B:=B) (P:=P) (Some e)) as H.
    unfold removed_owes in H. simpl in H. by rewrite app_nil_r in H.
Qed.

Lemma owns_control_step o : owns [] (control_step o : StoreOp ()) (fun _ => []).
Proof.
  destruct o; simpl; try (apply owns_bind_ret);
    eauto using owns_reserve_dynamic, owns_start_admission, owns_cancel, owns_remove_dynamic,
      owns_fused_cancel, owns_route_close, owns_register_initial, owns_close_and_drop,
      owns_finish_disposal, owns_drop_lane.
  intros s u n s' H. cbv [abandon_response tx_modify] in H. by simplify_eq.
Qed.

Definition forgotten (n : list StoreNote) : list nat :=
  omap (fun x => match x with Forgotten r => Some r | _ => None end) n.

(** Responses are numbered in the order they are issued, and one is forgotten
    without an answer only when its receiver is gone. *)
Definition numbered (s : Store) (n : list StoreNote) (s' : Store) : Prop :=
  (st_responses s <= st_responses s')%nat /\
  issued n = seq (st_responses s) (st_responses s' - st_responses s) /\
  st_abandoned s' = st_abandoned s /\
  forall r, r ∈ forgotten n -> r ∈ st_abandoned s.

#[local] Instance numbered_rel : StepRel numbered.
Proof.
  constructor.
  - intros s. split_and!; [done|by rewrite Nat.sub_diag|done|]. intros r Hr. by apply elem_of_nil in Hr.
  - intros s n t n' u (Hle & Hn & Ha & Hf) (Hle' & Hn' & Ha' & Hf'). split_and!; [lia| |congruence|].
    2:{ intros r. unfold forgotten in *. rewrite omap_app, elem_of_app. rewrite Ha in Hf'. naive_solver. }
    unfold issued in *. rewrite bind_app, Hn, Hn'.
    replace (st_responses u - st_responses s)%nat with
      ((st_responses t - st_responses s) + (st_responses u - st_responses t))%nat by lia.
    rewrite seq_app. do 2 f_equal. lia.
Qed.

(** Steps that issue and forget nothing. *)
Lemma numbered_quiet {A} (m : StoreOp A) :
  (forall s a n s', m s = Ret (a, n, s') -> st_responses s' = st_responses s /\ issued n = [] /\
     st_abandoned s' = st_abandoned s /\ forgotten n = []) ->
  steps numbered m.
Proof.
  intros Hm s a n s' H. apply Hm in H as (Hs & Hn & Ha & Hf). unfold numbered. rewrite Hs, Hn, Ha, Hf, Nat.sub_diag.
  split_and!; [done..|]. intros r Hr. by apply elem_of_nil in Hr.
Qed.

Lemma numbered_plan {A} (m : PlanOp A) : steps numbered (plan m : StoreOp A).
Proof.
  apply numbered_quiet. intros s a n s' H. apply tx_zoom_inv in H as (n' & w & _ & -> & ->).
  split_and!; [done|apply declared_moves|done|]. by induction n'.
Qed.
Lemma numbered_cells {A} (m : @Op M T F B A) : steps numbered (cells m : StoreOp A).
Proof. apply numbered_plan. Qed.
Lemma numbered_modify g :
  (forall s, st_responses (g s) = st_responses s /\ st_abandoned (g s) = st_abandoned s) ->
  steps numbered (tx_modify g : StoreOp ()).
Proof.
  intros Hg. apply numbered_quiet. intros s a n s' H. cbv [tx_modify] in H. simplify_eq.
  destruct (Hg s). by split_and!.
Qed.
Lemma numbered_notes l : issued l = [] -> forgotten l = [] -> steps numbered (tx_notes l : StoreOp ()).
Proof. intros Hl Hf. apply numbered_quiet. intros s a n s' H. cbv [tx_notes] in H. by simplify_eq. Qed.
Lemma numbered_fresh : steps numbered (fresh_response : StoreOp nat).
Proof.
  intros s a n s' H. cbv [fresh_response tx_get tx_modify tx_notes mret tx_ret mbind tx_bind
    outcome_bind] in H. simplify_eq. unfold numbered. simpl. split_and!; [lia| |done|].
  - by replace (S (st_responses s) - st_responses s)%nat with 1%nat by lia.
  - intros r Hr. by apply elem_of_nil in Hr.
Qed.
#[local] Hint Resolve numbered_plan numbered_cells numbered_fresh : tx_rel.
#[local] Hint Extern 1 (steps numbered (tx_modify _)) => by apply numbered_modify : tx_rel.
#[local] Hint Extern 1 (steps numbered (tx_notes _)) => by apply numbered_notes : tx_rel.

Lemma numbered_send_event lane e : steps numbered (send_event lane e : StoreOp bool).
Proof. unfold send_event, drop_event, complete_admission, send. tx_walk. Qed.
Lemma numbered_drop_entry e : steps numbered (drop_entry e : StoreOp ()).
Proof. unfold drop_entry, complete_removals, send. tx_walk. Qed.
#[local] Hint Resolve numbered_send_event numbered_drop_entry : tx_rel.
Lemma numbered_completion c : steps numbered (run_completion c : StoreOp ()).
Proof. unfold run_completion, complete_admission, send. tx_walk. Qed.
#[local] Hint Resolve numbered_completion : tx_rel.
Lemma numbered_dispose d c : steps numbered (dispose_definition_then d c : StoreOp ()).
Proof. unfold dispose_definition_then, dispose_then. tx_walk. Qed.
Lemma numbered_entry_is m e : steps numbered (entry_is m e : StoreOp bool).
Proof. unfold entry_is, slot_member. tx_walk. Qed.
Lemma numbered_get_control c : steps numbered (get_control c : StoreOp _).
Proof. unfold get_control. tx_walk. Qed.
Lemma numbered_put_control c d : steps numbered (put_control c d : StoreOp _).
Proof. unfold put_control. tx_walk. Qed.
Lemma numbered_completed o : steps numbered (completed_removal o : StoreOp nat).
Proof. unfold completed_removal, send. tx_walk. Qed.
#[local] Hint Resolve numbered_dispose numbered_entry_is numbered_get_control numbered_put_control
  numbered_completed : tx_rel.

Lemma numbered_close_entries scope l : steps numbered (close_entries scope l : StoreOp _).
Proof. induction l as [|[id e] l IH]; simpl; tx_walk. Qed.
#[local] Hint Resolve numbered_close_entries : tx_rel.

(** A removal forgets the waiters whose receiver is gone as it looks. *)
Lemma numbered_control_remove control scope id exact :
  steps numbered (control_remove control scope id exact : StoreOp nat).
Proof.
  unfold control_remove. apply steps_bind; [apply _|by auto with tx_rel|]. intros c.
  destruct (DynamicControl.entries c !! id) as [e|]; [|by auto with tx_rel].
  apply steps_bind; [apply _|tx_walk|]. intros own. destruct (negb own); [by auto with tx_rel|].
  apply steps_bind; [apply _|by auto with tx_rel|]. intros r s a n s' H.
  apply tx_bind_inv in H as (s0 & n1 & s1 & n2 & H1 & H & ->). cbv [tx_get] in H1. injection H1 as <- <- <-.
  rename s into s0. set (closed := response_closed s0) in H. simpl.
  assert (Hfor : forall s2 u n s3, st_abandoned s2 = st_abandoned s0 ->
    (tx_notes (Forgotten <$> DynamicEntry.abandoned closed e) : StoreOp ()) s2 = Ret (u, n, s3) -> numbered s2 n s3).
  { intros s2 u n0 s3 Ha Hn. cbv [tx_notes] in Hn. simplify_eq. unfold numbered.
    rewrite Nat.sub_diag, Ha. split_and!; [done| |done|].
    { exact (gains_forgotten (M := M) (B := B) _). }
    intros q Hq. unfold forgotten in Hq. apply list_elem_of_omap in Hq as (x & Hx & Hq).
    apply list_elem_of_fmap in Hx as (q' & -> & Hx). simplify_eq. unfold DynamicEntry.abandoned in Hx.
    apply list_elem_of_filter in Hx as [Hx _]. unfold closed, response_closed in Hx. by apply bool_decide_eq_true in Hx. }
  assert (Hput : forall (k : () -> StoreOp nat) x, (forall u, steps numbered (k u)) ->
    forall s2 a n s3, (_ ← put_control control x; _ ← tx_notes (Forgotten <$> DynamicEntry.abandoned closed e); k ()) s2
      = Ret (a, n, s3) -> st_abandoned s2 = st_abandoned s0 -> numbered s2 n s3).
  { intros k x Hk s2 b l s3 He Ha. apply tx_bind_inv in He as (u & l1 & s4 & l2 & H1 & He & ->).
    apply numbered_put_control in H1 as H1'. apply tx_bind_inv in He as (u2 & l3 & s5 & l4 & H2 & He & ->).
    assert (Ha4 : st_abandoned s4 = st_abandoned s0) by (destruct H1' as (_ & _ & -> & _); done).
    eapply step_trans; [done|]. eapply step_trans; [by eapply Hfor|by eapply Hk]. }
  destruct (DynamicEntry.is_reserved _); [|destruct (DynamicEntry.mark_removing _) as [key e']];
    (eapply (Hput (fun _ => _)); [|exact H|done]); intros; tx_walk.
Qed.
#[local] Hint Resolve numbered_control_remove : tx_rel.

Lemma numbered_step o : (forall r, o ≠ CAbandon r) -> steps numbered (control_step o : StoreOp ()).
Proof.
  intros Ho. destruct o; simpl; try (by edestruct Ho);
    unfold reserve_dynamic, reserve_dynamic_in, Dynamic.reserve, start_admission, Dynamic.cancel,
      cancel_dynamic_reservation_parts, remove_dynamic, control_signal_fused_cancel,
      route_close_admission, register_initial, close_and_drop, Dynamic.close, commit_disposals,
      finish_disposal, drop_lane, latch_fire_silently, slot_member, in_scope,
      drop_event, complete_admission, send; tx_walk.
Qed.

(** One step of a history: the ledger balances, responses keep their numbers,
    and only a caller's own step abandons a response. *)
Lemma control_exec_ledger s o n s' :
  control_exec s o = Ret (n, s') ->
  owed s ++ issued n ≡ₚ owed s' ++ settled_responses n /\
  (st_responses s <= st_responses s')%nat /\
  issued n = seq (st_responses s) (st_responses s' - st_responses s) /\
  (forall r, r ∈ st_abandoned s' -> r ∈ st_abandoned s \/ o = CAbandon r) /\
  (forall r, r ∈ forgotten n -> r ∈ st_abandoned s).
Proof.
  unfold control_exec. intros H. apply bind_Ret_inv in H as ([[u l] s1] & H1 & H). simplify_eq. split.
  { apply owns_control_step in H1. simpl in H1. rewrite app_nil_r in H1. exact H1. }
  assert ((exists r, o = CAbandon r) \/ forall r, o ≠ CAbandon r) as [[r ->]|Ho] by (destruct o; eauto; by right).
  - cbv [control_step abandon_response tx_modify] in H1. simplify_eq/=. rewrite Nat.sub_diag.
    split_and!; [done|done|set_solver|]. intros q Hq. by apply elem_of_nil in Hq.
  - apply numbered_step in H1 as (? & ? & Ha & ?); [|done]. rewrite Ha. by split_and!; auto.
Qed.

(** C24: every response handed to a caller is settled exactly once.  Over any
    history of reservations, admissions, cancellations, removals, fused
    cancellations, teardowns, abandoned futures and disposal jobs, the responses
    issued are, each once, either still owed by one obligation of the store (an
    entry, a queued admission, a disposal's completion) or settled.  A settled
    response was sent an answer, unless its own caller had abandoned it. *)
Theorem responses_settled_once ops s ns s' :
  owed s = [] -> st_abandoned s = ∅ ->
  run_ops control_exec s ops = Ret (ns, s') ->
  owed s' ++ settled_responses (concat ns) ≡ₚ
    seq (st_responses s) (st_responses s' - st_responses s) /\
  NoDup (owed s' ++ settled_responses (concat ns)) /\
  (forall r, r ∈ settled_responses (concat ns) ->
     (exists answer, Sent r answer ∈ concat ns) \/ CAbandon r ∈ ops).
Proof.
  intros Hs Ha H.
  assert (owed s ++ issued (concat ns) ≡ₚ owed s' ++ settled_responses (concat ns) /\
    (st_responses s <= st_responses s')%nat /\
    issued (concat ns) = seq (st_responses s) (st_responses s' - st_responses s) /\
    (forall r, r ∈ forgotten (concat ns) -> r ∈ st_abandoned s \/ CAbandon r ∈ ops)) as (Hp & _ & Hn & Hf).
  { clear Hs Ha. revert s ns H. induction ops as [|o ops IH]; intros s ns H; simpl in H.
    { simplify_eq. rewrite Nat.sub_diag. split_and!; [done..|]. intros r Hr. by apply elem_of_nil in Hr. }
    apply bind_Ret_inv in H as ([n s1] & H1 & H). apply bind_Ret_inv in H as ([l s2] & H2 & H).
    simplify_eq. apply control_exec_ledger in H1 as (P1 & L1 & N1 & A1 & F1). apply IH in H2 as (P2 & L2 & N2 & F2).
    cbn [concat]. unfold issued, settled_responses, forgotten in *. split_and!; [|lia|..].
    - rewrite !bind_app, app_assoc, P1. trans ((owed s1 ++ (concat l ≫= issues)) ++ (n ≫= settles));
        [solve_Permutation|]. rewrite P2. solve_Permutation.
    - rewrite bind_app, N1, N2, <- (Nat.sub_add _ _ L1) at 1.
      replace (st_responses s' - st_responses s)%nat with
        ((st_responses s1 - st_responses s) + (st_responses s' - st_responses s1))%nat by lia.
      rewrite seq_app. do 2 f_equal; lia.
    - intros r. rewrite omap_app, elem_of_app. intros [Hr|Hr]; [by left; apply F1|].
      destruct (F2 _ Hr) as [Hr'|]; [|by right; right]. destruct (A1 _ Hr') as [|<-]; [by left|right; by left]. }
  rewrite Hs, Hn in Hp. simpl in Hp. split_and!; [by symmetry|rewrite <- Hp; apply NoDup_seq|].
  intros r (x & Hx & Hr)%list_elem_of_bind. destruct x; simpl in Hx; try by apply elem_of_nil in Hx.
  - apply list_elem_of_singleton in Hx as ->. eauto.
  - apply list_elem_of_singleton in Hx as ->. destruct (Hf response) as [Hin|]; [|rewrite Ha in Hin; set_solver|by right].
    apply list_elem_of_omap. by exists (Forgotten response).
Qed.

(** ** Reservations *)

(** The first condition that refuses a reservation, in the order of precedence. *)
Definition reserve_refusal (available : bool) (s : Store) (c : ScopeCell.t B) (stage : MemberStage.t)
    (id : ChildId) : option ReserveError.t :=
  if decide (id = EmptyString) then Some ReserveError.EmptyId
  else if negb available then Some ReserveError.NoRuntime
  else if MemberStage.is_terminal stage then Some (ReserveError.NotAdmitting NotAdmittingCause.Terminal)
  else
    match ScopeCell.dynamic_route c, ScopeCell.state c with
    | None, _ | _, ScopeState.Unstarted | _, ScopeState.Stopped _ =>
        Some (ReserveError.NotAdmitting NotAdmittingCause.NoLiveIncarnation)
    | _, ScopeState.Draining => Some (ReserveError.NotAdmitting NotAdmittingCause.Draining)
    | _, ScopeState.StartupFailed => Some (ReserveError.NotAdmitting NotAdmittingCause.StartupFailed)
    | Some k, _ =>
        control ← st_controls s !! k;
        if negb (DynamicControl.accepting control)
        then Some (ReserveError.NotAdmitting NotAdmittingCause.Draining)
        else
          e ← DynamicControl.entries control !! id;
          Some (if DynamicEntry.removal_latched (latch_fired s) e
                then ReserveError.RemovalInProgress id else ReserveError.DuplicateId id)
    end.

(** A reservation's entry, under an id that was free, in the routed control. *)
Definition reserved_in (s : Store) (c : ScopeCell.t B) (id : ChildId) (r : DynamicReservation)
    (s' : Store) : Prop :=
  exists control, ScopeCell.dynamic_route c = Some (r_control r) /\
    st_controls s !! r_control r = Some control /\ DynamicControl.entries control !! id = None /\
    slots (st_world s) !! r_slot r = None /\
    st_controls s' = <[r_control r :=
      DynamicControl.insert id (DynamicEntry.reserved (r_slot r)) control]> (st_controls s).

Lemma cells_inv {A} (m : @Op M T F B A) (s : Store) a (n : list StoreNote) s' :
  (cells m : StoreOp A) s = Ret (a, n, s') ->
  exists n' f, m (forest (st_world s)) = Ret (a, n', f) /\
    n = Declared <$> (CellNote <$> n') /\ s' = set_world (set_forest f (st_world s)) s.
Proof.
  intros H. apply tx_zoom_inv in H as (n1 & w & H & -> & ->).
  apply cell_inv in H as (n' & f & H & -> & ->). eauto.
Qed.

Lemma set_same_forest (s : Store) : set_world (set_forest (forest (st_world s)) (st_world s)) s = s.
Proof. by destruct s as [[]]. Qed.

Lemma cells_scope_inv i (s : Store) c n s' :
  (cells (get_scope i) : StoreOp _) s = Ret (c, n, s') ->
  scopes (forest (st_world s)) !! i = Some c /\ n = [] /\ s' = s.
Proof.
  intros H. apply cells_inv in H as (n' & f & H & -> & ->). apply get_scope_inv in H as (Hc & -> & ->).
  by rewrite set_same_forest.
Qed.

Lemma cells_stage_inv i (s : Store) st n s' :
  (cells (member_stage i) : StoreOp _) s = Ret (st, n, s') ->
  exists m, members (forest (st_world s)) !! i = Some m /\ MemberCell.stage m = st /\ n = [] /\ s' = s.
Proof.
  intros H. apply cells_inv in H as (n' & f & H & -> & ->). unfold member_stage in H.
  apply ScopeLogic.bind_inv in H as (m & n1 & f1 & n2 & H1 & H2 & ->).
  apply get_member_inv in H1 as (Hm & -> & ->). cbv [mret op_ret] in H2. simplify_eq.
  exists m. by rewrite set_same_forest.
Qed.

Lemma mint_reserved_slot_fresh parent id sc w i n w' :
  (mint_reserved_slot parent id sc : PlanOp nat) w = Ret (i, n, w') -> slots w !! i = None.
Proof.
  intros H. unfold mint_reserved_slot in H.
  apply plan_bind_inv in H as (identity & n1 & w1 & n2 & H1 & H & ->).
  apply plan_bind_inv in H as (m & n3 & w2 & n4 & H2 & H & ->).
  apply plan_bind_inv in H as (scope & n5 & w3 & n6 & H3 & H & ->).
  cbv [alloc_slot] in H. simplify_eq.
  assert (slots w3 = slots w) as <-; [|apply fresh_index_None].
  trans (slots w2); [destruct sc; [apply plan_bind_inv in H3 as (x & ? & ? & ? & H3 & H4 & ->)|];
    cbv [alloc_scope mret plan_ret] in *; by simplify_eq|].
  cbv [alloc_member] in H2. simplify_eq. simpl.
  unfold mint_membership in H1. apply bind_Ret_inv in H1 as (c & _ & H1).
  apply bind_Ret_inv in H1 as ([[? ?] ?] & _ & H1).
  by apply cell_inv in H1 as (? & ? & _ & _ & ->).
Qed.

Lemma reserve_control_inv control scope id sc (s : Store) r n s' :
  (Dynamic.reserve control scope id sc : StoreOp _) s = Ret (r, n, s') ->
  exists c, st_controls s !! control = Some c /\
    if negb (DynamicControl.accepting c)
    then r = Err (ReserveError.NotAdmitting NotAdmittingCause.Draining) /\ n = [] /\ s' = s
    else match DynamicControl.entries c !! id with
         | Some e => r = Err (if DynamicEntry.removal_latched (latch_fired s) e
                              then ReserveError.RemovalInProgress id else ReserveError.DuplicateId id) /\
                     n = [] /\ s' = s
         | None => exists slot, r = Ok slot /\ slots (st_world s) !! slot = None /\
             st_controls s' = <[control := DynamicControl.insert id (DynamicEntry.reserved slot) c]> (st_controls s)
         end.
Proof.
  intros H. apply tx_bind_inv in H as (c & n1 & s1 & n2 & H1 & H & ->).
  apply get_control_inv in H1 as (Hc & -> & ->). exists c. split; [done|].
  destruct (negb (DynamicControl.accepting c)); [by apply tx_ret_inv in H as (-> & -> & ->)|].
  destruct (DynamicControl.entries c !! id) as [e|].
  { apply tx_bind_inv in H as (s0 & n1 & s1 & n3 & H1 & H & ->). apply tx_get_inv in H1 as (-> & -> & ->).
    by apply tx_ret_inv in H as (-> & -> & ->). }
  apply tx_bind_inv in H as (slot & n1 & s1 & n3 & H1 & H & ->). exists slot.
  apply tx_bind_inv in H as (cl & n4 & s2 & n5 & H2 & H & ->).
  apply tx_bind_inv in H as (u & n6 & s3 & n7 & H3 & H & ->).
  apply tx_bind_inv in H as (u' & n8 & s4 & n9 & H4 & H & ->). apply tx_ret_inv in H as (-> & -> & ->).
  split; [done|]. apply kc_plan in H1 as E1. apply kc_plan in H2. apply kc_cells in H3.
  cbv [put_control tx_modify] in H4. simplify_eq. simpl.
  rewrite H3, H2, E1. split; [|done].
  apply tx_zoom_inv in H1 as (n' & w & H1 & _ & _). by eapply mint_reserved_slot_fresh.
Qed.

(** [reserve_dynamic] answers exactly the first refusing condition: an
    empty id, no runtime, a terminal scope, no live incarnation, a draining or
    failed one, closed admission, an id whose removal is latched, or a taken id,
    and then changes nothing.  Otherwise a slot that was not in use is reserved
    under the free id in the control of the live incarnation. *)
Theorem reserve_dynamic_classified available scope id sc (s : Store) c m r n s' :
  scopes (forest (st_world s)) !! scope = Some c ->
  members (forest (st_world s)) !! ScopeCell.member c = Some m ->
  (reserve_dynamic available scope id sc : StoreOp _) s = Ret (r, n, s') ->
  match reserve_refusal available s c (MemberCell.stage m) id with
  | Some e => r = Err e /\ n = [] /\ s' = s
  | None => exists reservation, r = Ok reservation /\ r_scope reservation = scope /\
              reserved_in s c id reservation s'
  end.
Proof.
  intros Hc Hm H. unfold reserve_dynamic, checked_id, non_empty_id in H. unfold reserve_refusal.
  destruct (decide (id = EmptyString)); [by apply tx_ret_inv in H as (-> & -> & ->)|].
  destruct available; simpl in *; [|by apply tx_ret_inv in H as (-> & -> & ->)].
  unfold reserve_dynamic_in in H.
  apply tx_bind_inv in H as (c' & n1 & s1 & n2 & H1 & H & ->).
  apply cells_scope_inv in H1 as (Hc' & -> & ->). rewrite Hc in Hc'. injection Hc' as <-.
  apply tx_bind_inv in H as (st & n1 & s1 & n3 & H1 & H & ->).
  apply cells_stage_inv in H1 as (m' & Hm' & <- & -> & ->). simplify_eq.
  destruct (MemberStage.is_terminal _); [by apply tx_ret_inv in H as (-> & -> & ->)|].
  apply tx_bind_inv in H as (o & n1 & s1 & n4 & H1 & H & ->).
  apply tx_bind_inv in H1 as (c1 & n5 & s2 & n6 & H1 & H2 & ->).
  apply cells_scope_inv in H1 as (Hc' & -> & ->). rewrite Hc in Hc'. injection Hc' as <-.
  apply tx_ret_inv in H2 as (-> & -> & ->).
  destruct (ScopeCell.dynamic_route c) as [k|] eqn:Ek; [|by apply tx_ret_inv in H as (-> & -> & ->)].
  destruct (ScopeCell.state c); try by apply tx_ret_inv in H as (-> & -> & ->).
  all: apply tx_bind_inv in H as (o & n1 & s1 & n5 & H1 & H & ->);
    apply tx_ret_inv in H as (-> & -> & ->); apply reserve_control_inv in H1 as (d & Hd & H1);
    rewrite Hd; simpl; destruct (negb (DynamicControl.accepting d)) eqn:?;
    [by destruct H1 as (-> & -> & ->)|]; destruct (DynamicControl.entries d !! id) eqn:?; simpl;
    [by destruct H1 as (-> & -> & ->)|]; destruct H1 as (slot & -> & Hs & Hs');
    eexists; split_and!; [done|done|]; exists d; done.
Qed.
End claims.

(** ** A live dynamic scope

    The control-plane theorems applied to a scope with a live control, and
    callers that reserve, define, admit, remove and abandon. *)

Local Abbreviation DemoStore := (Store (MailboxCell Z) (list LifecycleEvent.t * Z) string).
Local Abbreviation DemoStoreNote := (StoreNote (MailboxTeardown Z) (FlushAction Z) string).
Local Abbreviation DemoStoreOp :=
  (@StoreOp (MailboxCell Z) (MailboxTeardown Z) (FlushAction Z) (list LifecycleEvent.t * Z) string).

Definition demo_bare_store : DemoStore :=
  mkStore demo_empty_world ∅ ∅ {[ 0%nat := [] ]} {[ 0%nat := DynamicControl.new 0 ]} ∅ 0 ∅.

(** Scope 0 begins an incarnation that routes to control 0. *)
Definition demo_going_live : DemoStoreOp () :=
  _ ← plan (builder_new Policy.Dynamic);
  _ ← cells (begin_incarnation_into 0 ScopeState.Starting None);
  cells (set_dynamic_route_locked 0 (Some 0%nat)).

Definition demo_live_store : DemoStore :=
  match demo_going_live demo_bare_store with Ret (_, _, s) => s | _ => demo_bare_store end.

Definition demo_seat : DynamicReservation := mkReservation 0 0 0.

(** Two seats; an admission of the first is queued, the seat is removed twice by
    a caller who drops one of the futures, the second seat once; then the driver
    dies without having handled the admission. *)
Definition demo_control_script : list ControlStep :=
  [CReserve true 0 "a" None; CReserve true 0 "b" None; CReserve true 0 "a" None;
   CAdmit true demo_seat None; CRemove 0 "a" None; CAbandon 1; CRemove 0 "a" None;
   CRemove 0 "b" None; CRemove 0 "c" None; CDropLane 0; CCloseAdmission 0; CClose 0 0].

Definition demo_controlled : list (list DemoStoreNote) * DemoStore :=
  match run_ops control_exec demo_live_store demo_control_script with
  | Ret x => x
  | _ => ([], demo_live_store)
  end.

Lemma demo_controlled_runs :
  run_ops control_exec demo_live_store demo_control_script = Ret (demo_controlled.1, demo_controlled.2).
Proof. vm_compute. reflexivity. Qed.

(** The admission is answered by the dead lane, after the removals. *)
Lemma demo_settlements :
  settled_responses (concat demo_controlled.1) = [1; 2; 3; 4; 0]%nat.
Proof. vm_compute. reflexivity. Qed.

Lemma demo_nothing_owed : owed demo_live_store = [].
Proof. vm_compute. reflexivity. Qed.

Lemma responses_settled_once_witness :
  owed demo_controlled.2 ++ settled_responses (concat demo_controlled.1) ≡ₚ [0; 1; 2; 3; 4]%nat /\
  NoDup (owed demo_controlled.2 ++ settled_responses (concat demo_controlled.1)) /\
  (forall r, r ∈ settled_responses (concat demo_controlled.1) ->
     (exists answer, Sent r answer ∈ concat demo_controlled.1) \/ CAbandon r ∈ demo_control_script).
Proof.
  exact (responses_settled_once demo_control_script demo_live_store demo_controlled.1
    demo_controlled.2 demo_nothing_owed ltac:(vm_compute; reflexivity) demo_controlled_runs).
Defined.

(** A taken id, and a free one. *)
Definition demo_scope_cell : ScopeCell.t (list LifecycleEvent.t * Z) :=
  match scopes (forest (st_world demo_live_store)) !! 0%nat with Some c => c | None => demo_root end.
Definition demo_scope_member : MemberCell.t :=
  match members (forest (st_world demo_live_store)) !! 0%nat with
  | Some m => m | None => demo_member "root" 1 end.

Definition demo_reserving (id : ChildId) (s : DemoStore)
  : result DynamicReservation ReserveError.t * list DemoStoreNote * DemoStore :=
  match (reserve_dynamic true 0 id None : DemoStoreOp _) s with
  | Ret x => x | _ => (Err ReserveError.NoRuntime, [], s) end.

Lemma demo_reserving_runs :
  (reserve_dynamic true 0 "a" None : DemoStoreOp _) demo_live_store =
  Ret (demo_reserving "a" demo_live_store).
Proof. vm_compute. reflexivity. Qed.

Lemma reserve_dynamic_classified_witness :
  exists reservation, (demo_reserving "a" demo_live_store).1.1 = Ok reservation /\
    reserved_in demo_live_store demo_scope_cell "a" reservation (demo_reserving "a" demo_live_store).2.
Proof.
  destruct (reserve_dynamic_classified true 0 "a" None demo_live_store demo_scope_cell demo_scope_member
    (demo_reserving "a" demo_live_store).1.1 (demo_reserving "a" demo_live_store).1.2
    (demo_reserving "a" demo_live_store).2) as (r & Hr & _ & H);
    [vm_compute; reflexivity|vm_compute; reflexivity|vm_compute; reflexivity|].
  exists r. split; [exact Hr|exact H].
Defined.

(** The same id again is refused, and nothing changes. *)
Lemma demo_duplicate :
  (demo_reserving "a" (demo_reserving "a" demo_live_store).2).1.1 = Err (ReserveError.DuplicateId "a").
Proof. vm_compute. reflexivity. Qed.
