(* ===== verification/DriverState.v ===== *)
(** * State of the scope driver

    The data of [driver.rs] and [driver/*.rs]: a child's runtime resources, the
    latches of one incarnation, what a spawned task runs, and the runtime shell
    of one scope incarnation.

    A driver runs between two awaits as one operation on its own state and the
    shared [Store]; spawned tasks, disposal jobs and the clock are its
    environment.  Launching or aborting a task is a note, and so is every
    request to the reducer.  The n-th reading of the clock and the n-th jitter
    sample are parameters. *)

From S2P Require Import Prelude Time Identity Exit Float64 Policy Readiness StopLadder Restart.
From S2P Require Import Epochs Lifecycle DeadlineQueue Supervisor SupervisorInv Gate Watch Latch.
From S2P Require Import Member Snapshot LifecycleHub Scope Plan Effects Dynamic.

(** What the driver needs of the mailbox trait object: [Tok] is a bind token,
    [D] the unread payload a closed binding leaves. *)
Class MailboxDriver (M F Tok D : Type) := {
  mb_configure : ResolvedMailbox -> M -> outcome (Tok * list F * M);
  mb_bind : Tok -> Incarnation -> M -> outcome (() * list F * M);
  mb_freeze : Incarnation -> M -> () * list F * M;
  mb_close : Incarnation -> M -> option (Tok * D) * list F * M }.

Module DeadlineKind.
Inductive t :=
| Readiness (child : ChildKey) (incarnation : Incarnation)
| Restart (child : ChildKey)
| Stop (child : ChildKey) (incarnation : Incarnation).
End DeadlineKind.

(** ** Latches of one incarnation *)

Record AncestorCommandLatches := mkAncestor
  { an_framework_shutdown : nat; an_abort : nat; an_abort_ack : nat }.

Record NestedScopeLatches := mkNested
  { ns_parent_ready : nat; ns_child_shutdown : nat; ns_ancestor : AncestorCommandLatches }.

Module ScopeRole.
Inductive t := Root | Nested (latches : NestedScopeLatches).
Definition is_root (r : t) : bool := match r with Root => true | Nested _ => false end.
Definition parent_ready (r : t) : option nat :=
  match r with Root => None | Nested l => Some (ns_parent_ready l) end.
Definition ancestor (r : t) : option AncestorCommandLatches :=
  match r with Root => None | Nested l => Some (ns_ancestor l) end.
End ScopeRole.

Record SpawnLatches := mkSpawnLatches
  { sl_shutdown : nat; sl_abort : nat; sl_ready : nat; sl_local_stop : nat;
    sl_framework_shutdown : option nat; sl_framework_abort : option nat;
    sl_framework_abort_ack : option nat }.

(** [SpawnLatches::nested_scope]. *)
Definition nested_scope (l : SpawnLatches) : outcome NestedScopeLatches :=
  shutdown ← expect "scope incarnations own a framework-shutdown latch" (sl_framework_shutdown l);
  abort ← expect "scope incarnations own a framework-abort latch" (sl_framework_abort l);
  ack ← expect "scope incarnations own a framework-abort acknowledgement"
          (sl_framework_abort_ack l);
  Ret (mkNested (sl_ready l) (sl_shutdown l) (mkAncestor shutdown abort ack)).

(** ** What a task runs *)

Module RawSpawn.
Inductive t (P : Type) := Restartable (factory : P) | OneShot (instance : P).
Arguments Restartable {P} _.
Arguments OneShot {P} _.
End RawSpawn.

Record RawRunContext := mkRawContext
  { rx_id : ChildId; rx_incarnation : Incarnation; rx_member : nat; rx_scope : nat;
    rx_shutdown : nat; rx_abort : nat; rx_ready : nat; rx_local_stop : nat;
    rx_mailbox_shutdown : MailboxShutdown }.

Record TaskContext := mkTaskContext
  { tc_id : ChildId; tc_incarnation : Incarnation; tc_shutdown : nat; tc_abort : nat; tc_ready : nat }.

(** A scope body also owns the obligation to close its scope if it never runs. *)
Module SpawnBody.
Inductive t (P : Type) :=
| Raw (spawn : RawSpawn.t P) (context : RawRunContext) (readiness : Readiness)
| TaskRestartable (factory : P) (context : TaskContext)
| TaskOnce (body : P) (context : TaskContext)
| ScopeRestartable (factory : P) (scope : nat) (inherited : ResolvedDefaults)
    (latches : NestedScopeLatches)
| ScopeOnce (tree : P) (scope : nat) (inherited : ResolvedDefaults) (latches : NestedScopeLatches).
Arguments Raw {P} _ _ _.
Arguments TaskRestartable {P} _ _.
Arguments TaskOnce {P} _ _.
Arguments ScopeRestartable {P} _ _ _ _.
Arguments ScopeOnce {P} _ _ _ _.
End SpawnBody.

(** [ChildTaskLaunch]. *)
Record ChildTaskLaunch (P : Type) := mkLaunch
  { ln_events : nat; ln_key : ChildKey; ln_incarnation : Incarnation; ln_body : SpawnBody.t P;
    ln_watch_readiness : bool; ln_shutdown : nat; ln_ready : nat; ln_local_stop : nat }.
Arguments mkLaunch {P} _ _ _ _ _ _ _ _.
Arguments ln_key {P} _.

(** ** Children *)

Record ActiveChild := mkActive
  { ac_incarnation : Incarnation;
    ac_started_at : Z;
    ac_shutdown : nat;
    ac_abort : nat;
    ac_ladder : option StopLadder;
    ac_forced_outcome : option RecordedOutcome.t;
    ac_hard_abort_phase : option GracePhase;
    ac_readiness : ReadinessGate;
    ac_readiness_deadline : option Z;
    ac_ready_signal : nat;
    ac_framework_shutdown : option nat;
    ac_framework_abort : option nat;
    ac_framework_abort_ack : option nat;
    ac_stop_deadline : option Z }.

Section active.
Implicit Types a : ActiveChild.
Definition set_ladder (v : option StopLadder) a := mkActive (ac_incarnation a) (ac_started_at a)
  (ac_shutdown a) (ac_abort a) v (ac_forced_outcome a) (ac_hard_abort_phase a) (ac_readiness a)
  (ac_readiness_deadline a) (ac_ready_signal a) (ac_framework_shutdown a) (ac_framework_abort a)
  (ac_framework_abort_ack a) (ac_stop_deadline a).
Definition set_forced (v : option RecordedOutcome.t) a := mkActive (ac_incarnation a)
  (ac_started_at a) (ac_shutdown a) (ac_abort a) (ac_ladder a) v (ac_hard_abort_phase a)
  (ac_readiness a) (ac_readiness_deadline a) (ac_ready_signal a) (ac_framework_shutdown a)
  (ac_framework_abort a) (ac_framework_abort_ack a) (ac_stop_deadline a).
Definition set_hard_abort (v : option GracePhase) a := mkActive (ac_incarnation a) (ac_started_at
  a) (ac_shutdown a) (ac_abort a) (ac_ladder a) (ac_forced_outcome a) v (ac_readiness a)
  (ac_readiness_deadline a) (ac_ready_signal a) (ac_framework_shutdown a) (ac_framework_abort a)
  (ac_framework_abort_ack a) (ac_stop_deadline a).
Definition set_readiness (v : ReadinessGate) a := mkActive (ac_incarnation a) (ac_started_at a)
  (ac_shutdown a) (ac_abort a) (ac_ladder a) (ac_forced_outcome a) (ac_hard_abort_phase a) v
  (ac_readiness_deadline a) (ac_ready_signal a) (ac_framework_shutdown a) (ac_framework_abort a)
  (ac_framework_abort_ack a) (ac_stop_deadline a).
Definition set_readiness_deadline (v : option Z) a := mkActive (ac_incarnation a) (ac_started_at
  a) (ac_shutdown a) (ac_abort a) (ac_ladder a) (ac_forced_outcome a) (ac_hard_abort_phase a)
  (ac_readiness a) v (ac_ready_signal a) (ac_framework_shutdown a) (ac_framework_abort a)
  (ac_framework_abort_ack a) (ac_stop_deadline a).
Definition set_stop_deadline (v : option Z) a := mkActive (ac_incarnation a) (ac_started_at a)
  (ac_shutdown a) (ac_abort a) (ac_ladder a) (ac_forced_outcome a) (ac_hard_abort_phase a)
  (ac_readiness a) (ac_readiness_deadline a) (ac_ready_signal a) (ac_framework_shutdown a)
  (ac_framework_abort a) (ac_framework_abort_ack a) v.
End active.

(** [ch_terminality] is the owed [Obligation<ChildTerminality>]; its scope is
    the driver's root and its slot [ch_slot]. *)
Record ChildRuntime (P Tok : Type) := mkChildRuntime
  { ch_slot : nat;
    ch_mailbox : option nat;
    ch_mailbox_bind : option Tok;
    ch_terminality : bool;
    ch_construction : option (ChildConstruction.t P);
    ch_options : ResolvedCommonOptions;
    ch_incarnations : IncarnationCounter.t;
    ch_restarts : RestartState;
    ch_restart_deadline : option Z;
    ch_active : option ActiveChild }.
Arguments mkChildRuntime {P Tok} _ _ _ _ _ _ _ _ _ _.
Arguments ch_slot {P Tok} _.
Arguments ch_mailbox {P Tok} _.
Arguments ch_mailbox_bind {P Tok} _.
Arguments ch_terminality {P Tok} _.
Arguments ch_construction {P Tok} _.
Arguments ch_options {P Tok} _.
Arguments ch_incarnations {P Tok} _.
Arguments ch_restarts {P Tok} _.
Arguments ch_restart_deadline {P Tok} _.
Arguments ch_active {P Tok} _.

Section child.
Context {P Tok : Type}.
Implicit Types c : ChildRuntime P Tok.
Definition set_bind (v : option Tok) c := mkChildRuntime (ch_slot c) (ch_mailbox c) v
  (ch_terminality c) (ch_construction c) (ch_options c) (ch_incarnations c) (ch_restarts c)
  (ch_restart_deadline c) (ch_active c).
Definition set_terminality (v : bool) c := mkChildRuntime (ch_slot c) (ch_mailbox c)
  (ch_mailbox_bind c) v (ch_construction c) (ch_options c) (ch_incarnations c) (ch_restarts c)
  (ch_restart_deadline c) (ch_active c).
Definition set_construction (v : option (ChildConstruction.t P)) c := mkChildRuntime (ch_slot c)
  (ch_mailbox c) (ch_mailbox_bind c) (ch_terminality c) v (ch_options c) (ch_incarnations c)
  (ch_restarts c) (ch_restart_deadline c) (ch_active c).
Definition set_incarnations (v : IncarnationCounter.t) c := mkChildRuntime (ch_slot c) (ch_mailbox
  c) (ch_mailbox_bind c) (ch_terminality c) (ch_construction c) (ch_options c) v (ch_restarts c)
  (ch_restart_deadline c) (ch_active c).
Definition set_restarts (v : RestartState) c := mkChildRuntime (ch_slot c) (ch_mailbox c)
  (ch_mailbox_bind c) (ch_terminality c) (ch_construction c) (ch_options c) (ch_incarnations c) v
  (ch_restart_deadline c) (ch_active c).
Definition set_restart_deadline (v : option Z) c := mkChildRuntime (ch_slot c) (ch_mailbox c)
  (ch_mailbox_bind c) (ch_terminality c) (ch_construction c) (ch_options c) (ch_incarnations c)
  (ch_restarts c) v (ch_active c).
Definition set_active (v : option ActiveChild) c := mkChildRuntime (ch_slot c) (ch_mailbox c)
  (ch_mailbox_bind c) (ch_terminality c) (ch_construction c) (ch_options c) (ch_incarnations c)
  (ch_restarts c) (ch_restart_deadline c) v.
End child.

(** ** The runtime shell *)

Record ScopeRuntime (P Tok : Type) := mkRuntime
  { sr_root : nat;
    sr_defaults : ResolvedDefaults;
    sr_intensity_policy : Intensity.t;
    sr_intensity : IntensityState;
    sr_children : gmap ChildKey (ChildRuntime P Tok);
    sr_supervisor : SupervisorState;
    sr_effects : list Effect;
    sr_events : nat;                              (** lanes *)
    sr_disposal_events : nat;
    sr_deadlines : DeadlineQueue DeadlineKind.t;
    sr_role : ScopeRole.t;
    sr_dynamic : option nat;                      (** the control *)
    sr_pending_removals : list DynamicEntry.t;
    sr_epoch : Epoch;
    sr_shutdown_seen : bool;
    sr_abort_seen : bool;
    sr_completion : option StopReason.t;
    sr_finished : option StopReason.t }.
Arguments mkRuntime {P Tok} _ _ _ _ _ _ _ _ _ _ _ _ _ _ _ _ _ _.
Arguments sr_root {P Tok} _.
Arguments sr_defaults {P Tok} _.
Arguments sr_intensity_policy {P Tok} _.
Arguments sr_intensity {P Tok} _.
Arguments sr_children {P Tok} _.
Arguments sr_supervisor {P Tok} _.
Arguments sr_effects {P Tok} _.
Arguments sr_events {P Tok} _.
Arguments sr_disposal_events {P Tok} _.
Arguments sr_deadlines {P Tok} _.
Arguments sr_role {P Tok} _.
Arguments sr_dynamic {P Tok} _.
Arguments sr_pending_removals {P Tok} _.
Arguments sr_epoch {P Tok} _.
Arguments sr_shutdown_seen {P Tok} _.
Arguments sr_abort_seen {P Tok} _.
Arguments sr_completion {P Tok} _.
Arguments sr_finished {P Tok} _.

Module Runtime.
Section runtime.
Context {P Tok : Type}.
Implicit Types r : ScopeRuntime P Tok.
Definition set_intensity (v : IntensityState) r := mkRuntime (sr_root r) (sr_defaults r)
  (sr_intensity_policy r) v (sr_children r) (sr_supervisor r) (sr_effects r) (sr_events r)
  (sr_disposal_events r) (sr_deadlines r) (sr_role r) (sr_dynamic r) (sr_pending_removals r)
  (sr_epoch r) (sr_shutdown_seen r) (sr_abort_seen r) (sr_completion r) (sr_finished r).
Definition set_children (v : gmap ChildKey (ChildRuntime P Tok)) r := mkRuntime (sr_root r)
  (sr_defaults r) (sr_intensity_policy r) (sr_intensity r) v (sr_supervisor r) (sr_effects r)
  (sr_events r) (sr_disposal_events r) (sr_deadlines r) (sr_role r) (sr_dynamic r)
  (sr_pending_removals r) (sr_epoch r) (sr_shutdown_seen r) (sr_abort_seen r) (sr_completion r)
  (sr_finished r).
Definition set_supervisor (v : SupervisorState) r := mkRuntime (sr_root r) (sr_defaults r)
  (sr_intensity_policy r) (sr_intensity r) (sr_children r) v (sr_effects r) (sr_events r)
  (sr_disposal_events r) (sr_deadlines r) (sr_role r) (sr_dynamic r) (sr_pending_removals r)
  (sr_epoch r) (sr_shutdown_seen r) (sr_abort_seen r) (sr_completion r) (sr_finished r).
Definition set_effects (v : list Effect) r := mkRuntime (sr_root r) (sr_defaults r)
  (sr_intensity_policy r) (sr_intensity r) (sr_children r) (sr_supervisor r) v (sr_events r)
  (sr_disposal_events r) (sr_deadlines r) (sr_role r) (sr_dynamic r) (sr_pending_removals r)
  (sr_epoch r) (sr_shutdown_seen r) (sr_abort_seen r) (sr_completion r) (sr_finished r).
Definition set_deadlines (v : DeadlineQueue DeadlineKind.t) r := mkRuntime (sr_root r)
  (sr_defaults r) (sr_intensity_policy r) (sr_intensity r) (sr_children r) (sr_supervisor r)
  (sr_effects r) (sr_events r) (sr_disposal_events r) v (sr_role r) (sr_dynamic r)
  (sr_pending_removals r) (sr_epoch r) (sr_shutdown_seen r) (sr_abort_seen r) (sr_completion r)
  (sr_finished r).
Definition set_pending_removals (v : list DynamicEntry.t) r := mkRuntime (sr_root r) (sr_defaults
  r) (sr_intensity_policy r) (sr_intensity r) (sr_children r) (sr_supervisor r) (sr_effects r)
  (sr_events r) (sr_disposal_events r) (sr_deadlines r) (sr_role r) (sr_dynamic r) v (sr_epoch r)
  (sr_shutdown_seen r) (sr_abort_seen r) (sr_completion r) (sr_finished r).
Definition set_shutdown_seen (v : bool) r := mkRuntime (sr_root r) (sr_defaults r)
  (sr_intensity_policy r) (sr_intensity r) (sr_children r) (sr_supervisor r) (sr_effects r)
  (sr_events r) (sr_disposal_events r) (sr_deadlines r) (sr_role r) (sr_dynamic r)
  (sr_pending_removals r) (sr_epoch r) v (sr_abort_seen r) (sr_completion r) (sr_finished r).
Definition set_abort_seen (v : bool) r := mkRuntime (sr_root r) (sr_defaults r)
  (sr_intensity_policy r) (sr_intensity r) (sr_children r) (sr_supervisor r) (sr_effects r)
  (sr_events r) (sr_disposal_events r) (sr_deadlines r) (sr_role r) (sr_dynamic r)
  (sr_pending_removals r) (sr_epoch r) (sr_shutdown_seen r) v (sr_completion r) (sr_finished r).
Definition set_completion (v : option StopReason.t) r := mkRuntime (sr_root r) (sr_defaults r)
  (sr_intensity_policy r) (sr_intensity r) (sr_children r) (sr_supervisor r) (sr_effects r)
  (sr_events r) (sr_disposal_events r) (sr_deadlines r) (sr_role r) (sr_dynamic r)
  (sr_pending_removals r) (sr_epoch r) (sr_shutdown_seen r) (sr_abort_seen r) v (sr_finished r).
Definition set_finished (v : option StopReason.t) r := mkRuntime (sr_root r) (sr_defaults r)
  (sr_intensity_policy r) (sr_intensity r) (sr_children r) (sr_supervisor r) (sr_effects r)
  (sr_events r) (sr_disposal_events r) (sr_deadlines r) (sr_role r) (sr_dynamic r)
  (sr_pending_removals r) (sr_epoch r) (sr_shutdown_seen r) (sr_abort_seen r) (sr_completion r) v.
End runtime.
End Runtime.

(** ** Operations *)

Section driver.
Context {M T F B R P Tok D : Type} `{!MailboxControl M T F} `{!Broadcast LifecycleEvent.t B R}.
Context `{!MailboxDriver M F Tok D} {clock : Clock}.
Context (now_at : nat -> Z) (sample_at : nat -> Z) (powi : f64 -> Z -> f64).
Local Abbreviation Op := (@Op M T F B).
Local Abbreviation Construction := (ChildConstruction.t P).
Local Abbreviation Store := (Store M B P).
Local Abbreviation StoreNote := (StoreNote T F P).
Local Abbreviation StoreOp := (@StoreOp M T F B P).
Local Abbreviation ChildRuntime := (ChildRuntime P Tok).
Local Abbreviation ScopeRuntime := (ScopeRuntime P Tok).

Record Driver := mkDriver
  { store : Store; scope : ScopeRuntime;
    readings : nat;                    (** of the clock, so far *)
    samples : nat }.                   (** of the jitter source, so far *)

Inductive DriverNote :=
| Shared (n : StoreNote)
| Reduced (o : sup_op) (effects : list Effect)   (** a request to the reducer *)
| Launched (launch : ChildTaskLaunch P)
| AbortTask (child : ChildKey) (incarnation : Incarnation)
| MailboxFlush (effects : list F)
| MailboxDisposed (payload : D)
| Detached (d : Construction).                   (** [dispose_detached] *)

Definition DriverOp (A : Type) : Type := Tx Driver DriverNote A.

Definition set_store s d := mkDriver s (scope d) (readings d) (samples d).
Definition set_scope r d := mkDriver (store d) r (readings d) (samples d).

Definition shared {A} (m : StoreOp A) : DriverOp A := tx_zoom store set_store Shared m.
Definition cell_op {A} (m : Op A) : DriverOp A := shared (cells m).

Definition self : DriverOp ScopeRuntime := d ← tx_get; mret (scope d).
Definition modify_self (g : ScopeRuntime -> ScopeRuntime) : DriverOp () :=
  tx_modify (fun d => set_scope (g (scope d)) d).

(** [runtime::now]. *)
Definition now : DriverOp Z :=
  d ← tx_get;
  _ ← tx_modify (fun d => mkDriver (store d) (scope d) (S (readings d)) (samples d));
  mret (now_at (readings d)).

(** [self.jitter.sample(0..u64::MAX)]. *)
Definition sample : DriverOp JitterSample.t :=
  d ← tx_get;
  _ ← tx_modify (fun d => mkDriver (store d) (scope d) (readings d) (S (samples d)));
  mret (JitterSample.from_u64_ratio (sample_at (samples d)) u64_max).

(** *** Latches *)

Definition latch_new : StoreOp nat :=
  s ← tx_get;
  let l := fresh_index (st_latches s) in
  _ ← tx_modify (set_latches (<[l := false]> (st_latches s)));
  mret l.

Definition latch_fire (l : nat) : StoreOp bool :=
  fired ← latch_fire_silently l;
  _ ← tx_notes (if (fired : bool) then [Notify l] else []);
  mret fired.

Definition latch_is_fired (l : nat) : StoreOp bool := s ← tx_get; mret (latch_fired s l).

Definition gated_new : StoreOp nat :=
  s ← tx_get;
  let l := fresh_index (st_gated s) in
  _ ← tx_modify (set_gated (<[l := COMPLETION_GATE_OPEN]> (st_gated s)));
  mret l.

Definition gate_of_latch (s : Store) (l : nat) : Z := unwrap_or (st_gated s !! l) COMPLETION_GATE_OPEN.

Definition gated_fired (l : nat) : StoreOp bool :=
  s ← tx_get;
  mret (gated_is_fired (mkGated (gate_of_latch s l) false false)).

(** [CompletionGatedLatch::fire] and [complete], each as one step. *)
Definition gated_fire (l : nat) : StoreOp bool :=
  s ← tx_get;
  if gate_of_latch s l =? COMPLETION_GATE_OPEN then
    _ ← tx_modify (set_gated (<[l := COMPLETION_GATE_FIRED]> (st_gated s)));
    _ ← tx_notes [NotifyGated l false];
    mret true
  else mret false.

Definition gated_complete (l : nat) : StoreOp bool :=
  s ← tx_get;
  match complete_target (gate_of_latch s l) with
  | Some (inl verdict) => mret verdict
  | Some (inr (next, verdict)) =>
      _ ← tx_modify (set_gated (<[l := next]> (st_gated s)));
      _ ← tx_notes [NotifyGated l true];
      mret verdict
  | None => tx_lift (Panics "completion gate state is one of four values")
  end.

Definition fire (l : nat) : DriverOp () := _ ← shared (latch_fire l); mret ().
Definition fire_optional (l : option nat) : DriverOp () :=
  match l with Some l => fire l | None => mret () end.

(** [fire_shutdown_edges]: the evidence first, the framework's observer next,
    the user's waiters last. *)
Definition fire_shutdown_edges (shutdown : nat) (framework_shutdown : option nat) : DriverOp () :=
  notify ← shared (latch_fire_silently shutdown);
  _ ← fire_optional framework_shutdown;
  shared (tx_notes (if (notify : bool) then [Notify shutdown] else [])).

Definition spawn_latches (scope_child : bool) : DriverOp SpawnLatches :=
  let optional : StoreOp (option nat) :=
    if scope_child then l ← latch_new; mret (Some l) else mret None in
  shared (
    shutdown ← latch_new;
    abort ← latch_new;
    ready ← gated_new;
    local_stop ← latch_new;
    framework_shutdown ← optional;
    framework_abort ← optional;
    framework_abort_ack ← optional;
    mret (mkSpawnLatches shutdown abort ready local_stop framework_shutdown framework_abort
            framework_abort_ack)).

(** *** The mailbox *)

(** One control call on mailbox [h], whose effect queue then flushes. *)
Definition mailbox_call {A} (h : nat) (g : M -> outcome (A * list F * M)) : DriverOp A :=
  d ← tx_get;
  let f := forest (st_world (store d)) in
  m ← tx_lift (expect "a mailbox handle" (controls f !! h));
  '(a, fx, m) ← tx_lift (g m);
  _ ← cell_op (fun f => Ret ((), [],
        mkForest (scopes f) (members f) (gates f) (<[h := m]> (controls f))));
  _ ← tx_notes [MailboxFlush fx];
  mret a.

Definition mailbox_freeze (h : option nat) (i : Incarnation) : DriverOp () :=
  match h with
  | Some h => mailbox_call h (fun m => Ret (mb_freeze i m))
  | None => mret ()
  end.

(** The bind token of the closed binding; its payload is disposed of detached. *)
Definition mailbox_close (h : option nat) (i : Incarnation) : DriverOp (option Tok) :=
  match h with
  | Some h =>
      closed ← mailbox_call h (fun m => Ret (mb_close i m));
      match closed with
      | Some (token, teardown) => _ ← tx_notes [MailboxDisposed teardown]; mret (Some token)
      | None => mret None
      end
  | None => mret None
  end.

(** Freeze and close with one effect queue. *)
Definition mailbox_teardown (h : option nat) (i : Incarnation) : DriverOp () :=
  match h with
  | Some h =>
      closed ← mailbox_call h (fun m =>
        let '(_, frozen, m) := mb_freeze i m in
        let '(c, closing, m) := mb_close i m in
        Ret (c, frozen ++ closing, m));
      tx_notes match closed with Some (_, teardown) => [MailboxDisposed teardown] | None => [] end
  | None => mret ()
  end.

(** *** Cells *)

(** A state transition of the scope also closes the admission it routes to. *)
Definition closed_routes (n : list StoreNote) : list nat :=
  omap (fun x => match x with Declared (CellNote (CloseAdmission r)) => Some r | _ => None end) n.

Definition routed {A} (m : Op A) : StoreOp A := fun s =>
  '(a, n, s) ← cells m s;
  '(_, n', s) ← (tx_each route_close_admission (closed_routes n) : StoreOp ()) s;
  Ret (a, n ++ n', s).

(** The member of a slot and its cell. *)
Definition member_of (slot : nat) : DriverOp (nat * MemberCell.t) :=
  '(c, m) ← shared (slot_member slot);
  mret (SlotCell.member c, m).

Definition slot_scope (slot : nat) : DriverOp (option nat) :=
  c ← shared (plan (get_slot slot)); mret (SlotCell.scope c).

(** *** Children, deadlines and the reducer *)

Definition find_child (key : ChildKey) : DriverOp (option ChildRuntime) :=
  r ← self; mret (sr_children r !! key).
Definition get_child (key : ChildKey) (message : string) : DriverOp ChildRuntime :=
  c ← find_child key; tx_lift (expect message c).
Definition modify_child (key : ChildKey) (g : ChildRuntime -> ChildRuntime) : DriverOp () :=
  modify_self (fun r => Runtime.set_children (alter g key (sr_children r)) r).
Definition modify_active (key : ChildKey) (g : ActiveChild -> ActiveChild) : DriverOp () :=
  modify_child key (fun c => set_active (g <$> ch_active c) c).

Definition active_of (key : ChildKey) : DriverOp (option ActiveChild) :=
  c ← find_child key; mret (c ≫= ch_active).
(** The active child if it runs this incarnation. *)
Definition live_child (key : ChildKey) (i : Incarnation) : DriverOp (option ActiveChild) :=
  a ← active_of key;
  mret match a with
       | Some a => if decide (ac_incarnation a = i) then Some a else None
       | None => None
       end.

Definition cancel_deadline (h : option Z) : DriverOp () :=
  match h with
  | Some h => modify_self (fun r => Runtime.set_deadlines (DeadlineQueue.cancel (sr_deadlines r) h).2 r)
  | None => mret ()
  end.
Definition push_deadline (at_ : Z) (kind : DeadlineKind.t) : DriverOp Z :=
  r ← self;
  '(h, q) ← tx_lift (DeadlineQueue.push (sr_deadlines r) at_ kind);
  _ ← modify_self (Runtime.set_deadlines q);
  mret h.

(** A reducer request: what it leaves goes to the pending effects. *)
Definition reduced {A} (o : sup_op) (m : SupervisorState -> outcome (A * list Effect * SupervisorState))
  : DriverOp A :=
  r ← self;
  '(a, effects, sup) ← tx_lift (m (sr_supervisor r));
  _ ← modify_self (fun r =>
        Runtime.set_effects (sr_effects r ++ effects) (Runtime.set_supervisor sup r));
  _ ← tx_notes [Reduced o effects];
  mret a.

Definition reduce (event : Event) : DriverOp () :=
  reduced (OpStep event) (fun s => let '(effects, s) := step s event in Ret ((), effects, s)).
Definition supervisor_admit (m : Membership) (initial : bool) : DriverOp ChildKey :=
  reduced (OpAdmit m initial) (fun s => '(key, s) ← admit_child s m initial; Ret (key, [], s)).
Definition supervisor_fail_startup : DriverOp (option ScopeState.t) :=
  reduced OpFailStartup (fun s => let '(state, s) := Supervisor.fail_startup s in Ret (state, [], s)).
Definition supervisor_begin_drain (reason : StopReason.t) : DriverOp (option (bool * ScopeState.t)) :=
  reduced (OpBeginDrain reason) (fun s => Supervisor.begin_drain s reason).
Definition supervisor_force : DriverOp (option (bool * ScopeState.t)) :=
  reduced OpForce Supervisor.force.

Definition supervised : DriverOp SupervisorState := r ← self; mret (sr_supervisor r).
End driver.

Arguments Driver : clear implicits.
Arguments DriverNote : clear implicits.
