(* ===== verification/Driver.v ===== *)
(** * The scope driver

    [driver.rs] and [driver/*.rs]: the runtime shell of one scope incarnation
    performs what the reducer commands on the cells, mailboxes, latches and
    tasks, and reports their edges back.

    The methods that the source defines by mutual recursion (flushing commands,
    settling, terminal disposal) take their recursive calls as an argument;
    [perform] ties the knot with fuel, and running out of it is a panic with a
    message of its own. *)

From S2P Require Import Prelude BTree Time Identity Exit Float64 Policy Readiness StopLadder Restart.
From S2P Require Import Epochs Lifecycle DeadlineQueue Supervisor SupervisorInv Gate Watch Latch.
From S2P Require Import Member Snapshot LifecycleHub Scope Plan Effects Dynamic DriverState.

(** The recursive entry points. *)
Inductive Call :=
| Flush
| SettleAll
| Dispose (key : ChildKey) (exit : Exit) (exited : option Incarnation)
    (startup : StartupDisposition.t).

#[export] Instance retention_eq_dec : EqDecision Retention.
Proof. solve_decision. Defined.
#[export] Instance disposition_eq_dec : EqDecision StartupDisposition.t.
Proof. solve_decision. Defined.

Definition OUT_OF_FUEL : string := "driver fuel exhausted".

(** ** What needs no recursion *)

Section driver.
Context {M T F B R P Tok D : Type} `{!MailboxControl M T F} `{!Broadcast LifecycleEvent.t B R}.
Context `{!MailboxDriver M F Tok D} {clock : Clock}.
Context (now_at : nat -> Z) (sample_at : nat -> Z) (powi : f64 -> Z -> f64).
Local Abbreviation Op := (@Op M T F B).
Local Abbreviation Construction := (ChildConstruction.t P).
Local Abbreviation Store := (Store M B P).
Local Abbreviation StoreOp := (@StoreOp M T F B P).
Local Abbreviation ChildRuntime := (ChildRuntime P Tok).
Local Abbreviation ScopeRuntime := (ScopeRuntime P Tok).
Local Abbreviation Driver := (Driver M B P Tok).
Local Abbreviation DriverOp := (@DriverOp M T F B P Tok D).
Local Abbreviation now := (now now_at).

(** *** [child.rs] *)

Definition discharge_child_terminality (root slot : nat) : StoreOp () :=
  '(c, m) ← slot_member slot;
  let record := MemberCell.current m in
  if MemberStage.is_terminal (MemberRecord.stage record) then mret ()
  else
    let never_started := negb (bool_decide (is_Some (MemberRecord.last_incarnation record))) in
    let '(exit, exited) :=
      if never_started then (Exit.never_started, None)
      else ((classify_exit None JoinCancelled None Observed).1, MemberRecord.incarnation record) in
    resident ← cells (has_resident_child root (SlotCell.member c));
    if never_started && negb resident then plan (terminalize_never_started root slot)
    else
      _ ← cells (terminalize_child root (SlotCell.member c) exit exited StartupDisposition.NotAborted);
      mret ().

Definition discharge_terminality (c : ChildRuntime) : DriverOp () :=
  r ← self;
  if ch_terminality c then shared (discharge_child_terminality (sr_root r) (ch_slot c)) else mret ().

(** A dropped child: the obligation's fallback, then its construction. *)
Definition drop_child (c : ChildRuntime) : DriverOp () :=
  _ ← discharge_terminality c;
  tx_notes match ch_construction c with Some d => [Detached d] | None => [] end.

Definition take_incarnation_counter (slot : nat) : DriverOp IncarnationCounter.t :=
  '(m, c) ← member_of slot;
  '(counter, c) ← tx_lift (MemberCell.take_incarnation_counter c);
  _ ← cell_op (put_member m c);
  mret counter.

(** [ChildRuntime::from_plan]. *)
Definition from_plan (plan : ChildPlan P) : DriverOp ChildRuntime :=
  incarnations ← take_incarnation_counter (cp_slot plan);
  '(_, m) ← member_of (cp_slot plan);
  let mailbox := MemberCell.mailbox m in
  bind ← match mailbox with
         | Some h => t ← mailbox_call h (mb_configure (rc_mailbox (cp_options plan))); mret (Some t)
         | None => mret None
         end;
  mret (mkChildRuntime (cp_slot plan) mailbox bind true (Some (cp_construction plan))
          (cp_options plan) incarnations restart_state_new None None).

(** [ChildRuntime::terminalize], completing the obligation once it is terminal. *)
Definition terminalize (key : ChildKey) (c : ChildRuntime) (exit : Exit)
    (exited : option Incarnation) (startup : StartupDisposition.t) : DriverOp bool :=
  r ← self;
  '(m, _) ← member_of (ch_slot c);
  changed ← cell_op (terminalize_child (sr_root r) m exit exited startup);
  '(_, mc) ← member_of (ch_slot c);
  _ ← (if MemberStage.is_terminal (MemberCell.stage mc)
       then modify_child key (set_terminality false) else mret ());
  mret changed.

Definition publish_terminal (key : ChildKey) (exit : Exit) (exited : option Incarnation)
    (startup : StartupDisposition.t) : DriverOp bool :=
  child ← get_child key "terminalized child remains registered";
  changed ← terminalize key child exit exited startup;
  '(m, mc) ← member_of (ch_slot child);
  _ ← cell_op (put_member m (MemberCell.set_terminal_disposal_pending false mc));
  mret changed.

Definition join_terminal (key : ChildKey) : DriverOp () :=
  _ ← reduce (Terminalized key);
  sup ← supervised;
  tx_assert (joined sup key) "the release edge must leave the reducer's membership joined".

Definition terminal_startup_disposition (key : ChildKey) : DriverOp StartupDisposition.t :=
  sup ← supervised;
  mret (if is_initial sup key && negb (ScopeLifecycle.startup_complete (lifecycle sup))
           && negb (ScopeLifecycle.is_draining (lifecycle sup))
           && negb (bool_decide (membership_status sup key = Restart.Removing))
           && negb (initial_ready sup key)
        then StartupDisposition.Aborted else StartupDisposition.NotAborted).

(** *** [removal.rs] *)

(** The control's entry under the child's id, when its slot is the child's
    membership and its key [key]. *)
Definition own_entry (control : nat) (key : ChildKey) (m : MemberCell.t)
  : StoreOp (option DynamicEntry.t) :=
  c ← get_control control;
  match DynamicControl.entries c !! MemberCell.id m with
  | Some e =>
      own ← entry_is (MemberCell.membership m) e;
      mret (if own && DynamicEntry.matches_key key e then Some e else None)
  | None => mret None
  end.

Definition removal_latched (key : ChildKey) : DriverOp bool :=
  r ← self;
  if decide (membership_status (sr_supervisor r) key = Restart.Removing) then mret true
  else
    match sr_children r !! key, sr_dynamic r with
    | Some child, Some control =>
        '(_, m) ← member_of (ch_slot child);
        shared (e ← own_entry control key m;
                s ← tx_get;
                mret (is_some_and e (DynamicEntry.removal_latched (latch_fired s))))
    | _, _ => mret false
    end.

(** A released entry completes its responses; during startup only after the
    batch has settled. *)
Definition release_removed_entry (entry : DynamicEntry.t) : DriverOp () :=
  sup ← supervised;
  if ScopeLifecycle.is_starting (lifecycle sup)
  then modify_self (fun r => Runtime.set_pending_removals (sr_pending_removals r ++ [entry]) r)
  else shared (drop_entry (Some entry)).

Definition publish_startup_removals : DriverOp () :=
  r ← self;
  _ ← modify_self (Runtime.set_pending_removals []);
  shared (tx_each (fun e => drop_entry (Some e)) (sr_pending_removals r)).

Definition reclaim_child (key : ChildKey) : DriverOp () :=
  child ← find_child key;
  match child with
  | None => mret ()
  | Some child =>
      sup ← supervised;
      _ ← tx_assert (joined sup key) "reclaim runs only after joined terminal completion";
      _ ← modify_self (fun r => Runtime.set_children (delete key (sr_children r)) r);
      _ ← cancel_deadline (ch_restart_deadline child);
      _ ← match ch_active child with
          | Some active =>
              _ ← cancel_deadline (ac_readiness_deadline active);
              cancel_deadline (ac_stop_deadline active)
          | None => mret ()
          end;
      _ ← reduce (Reclaim key);
      drop_child child
  end.

(** Residency is withdrawn while the id is still claimed. *)
Definition finalize_removal (key : ChildKey) : DriverOp () :=
  r ← self;
  match sr_dynamic r with
  | None => mret ()
  | Some control =>
      child ← get_child key "no entry found for key";
      '(m, mc) ← member_of (ch_slot child);
      entry ← shared (
        e ← own_entry control key mc;
        match e with
        | Some e =>
            if DynamicEntry.is_removing e then
              _ ← cells (prune_child_locked (sr_root r) m);
              c ← get_control control;
              _ ← put_control control (DynamicControl.remove (MemberCell.id mc) c);
              mret (Some e)
            else mret None
        | None => mret None
        end);
      match entry with
      | Some entry => _ ← reclaim_child key; release_removed_entry entry
      | None => mret ()
      end
  end.

Definition prune_terminal (key : ChildKey) : DriverOp () :=
  r ← self;
  child ← get_child key "no entry found for key";
  '(m, mc) ← member_of (ch_slot child);
  removed ← shared (
    e ← match sr_dynamic r with
        | Some control => own_entry control key mc
        | None => mret None
        end;
    _ ← cells (prune_child_locked (sr_root r) m);
    match e, sr_dynamic r with
    | Some e, Some control =>
        c ← get_control control;
        _ ← put_control control (DynamicControl.remove (MemberCell.id mc) c);
        mret (Some e)
    | _, _ => mret None
    end);
  sc ← cell_op (get_scope (sr_root r));
  _ ← (if decide (ScopeCell.flavor sc = Dynamic) then reclaim_child key else mret ());
  match removed with
  | Some entry => release_removed_entry entry
  | None => mret ()
  end.

(** *** [events.rs], the queries *)

Definition restarts_a_stopped_incarnation (key : ChildKey) : DriverOp bool :=
  child ← find_child key;
  match child with
  | Some child =>
      d ← tx_lift (dispatch_exit (completed Observed) (rc_restart (ch_options child)) false
                     Restart.Active);
      mret match d with ScheduleRestart => true | Restart.Terminal => false end
  | None => mret false
  end.

(** Every level-triggered stop source. *)
Definition construction_is_suppressed (key : ChildKey) : DriverOp bool :=
  r ← self;
  request ← cell_op (has_stop_request (sr_root r) (sr_epoch r));
  ancestor ← match ScopeRole.ancestor (sr_role r) with
             | Some l =>
                 s ← shared tx_get;
                 mret (latch_fired s (an_framework_shutdown l) || latch_fired s (an_abort l))
             | None => mret false
             end;
  latched ← removal_latched key;
  mret (ScopeLifecycle.is_draining (lifecycle (sr_supervisor r)) || hard_forced (sr_supervisor r)
        || request || ancestor || latched).

(** *** [stop.rs] *)

(** The actions of [while let Some(action) = ladder.advance(now)].  A ladder has
    four rungs, and each action leaves one behind. *)
Fixpoint climb (fuel : nat) (l : StopLadder) (now : Z) : list StopAction * StopLadder :=
  match fuel with
  | O => ([], l)
  | S fuel =>
      match advance l now with
      | (Some a, l) => let '(acts, l) := climb fuel l now in (a :: acts, l)
      | (None, l) => ([], l)
      end
  end.
Definition LADDER_RUNGS : nat := 4.

Definition perform_action (key : ChildKey) (active : ActiveChild) (action : StopAction) : DriverOp () :=
  match action with
  | Cancel => fire_shutdown_edges (ac_shutdown active) (ac_framework_shutdown active)
  | Escalate => fire (ac_abort active)
  | AbortFramework phase =>
      _ ← modify_active key (fun a =>
            set_forced (match ac_forced_outcome a with
                        | None => Some (RecordedOutcome.aborted phase) | o => o end)
              (set_hard_abort (Some phase) a));
      abort ← tx_lift (expect "framework action belongs only to a framework driver"
                         (ac_framework_abort active));
      fire abort
  | HardAbort phase =>
      _ ← modify_active key (set_hard_abort (Some phase));
      tx_notes [AbortTask key (ac_incarnation active)]
  end.

Definition advance_ladder (key : ChildKey) (at_ : Z) : DriverOp () :=
  active ← active_of key;
  match active with
  | None => mret ()
  | Some active =>
      _ ← modify_active key (set_stop_deadline None);
      _ ← cancel_deadline (ac_stop_deadline active);
      match ac_ladder active with
      | None => mret ()
      | Some ladder =>
          acked ← match ac_framework_abort_ack active with
                  | Some l => shared (latch_is_fired l)
                  | None => mret false
                  end;
          let ladder := if (acked : bool) then acknowledge_framework_abort ladder else ladder in
          let '(actions, ladder) := climb (S LADDER_RUNGS) ladder at_ in
          _ ← modify_active key (fun a => set_ladder ((fun _ => ladder) <$> ac_ladder a) a);
          _ ← tx_each (perform_action key active) actions;
          match StopLadder.deadline ladder with
          | Some deadline =>
              h ← push_deadline deadline (DeadlineKind.Stop key (ac_incarnation active));
              modify_active key (set_stop_deadline (Some h))
          | None => mret ()
          end
      end
  end.

(** ** Methods that recurse *)

Section open.
Variable call : Call -> DriverOp ().

(** [terminate_inactive]: the last exit, or [NeverStarted]. *)
Definition terminate_inactive (key : ChildKey) (startup : StartupDisposition.t) : DriverOp () :=
  child ← find_child key;
  match child with
  | None => mret ()
  | Some child =>
      _ ← modify_child key (set_restart_deadline None);
      _ ← cancel_deadline (ch_restart_deadline child);
      '(_, m) ← member_of (ch_slot child);
      let exit := unwrap_or (MemberRecord.last_exit (MemberCell.current m)) Exit.never_started in
      call (Dispose key exit None startup)
  end.

Definition begin_stop_child (key : ChildKey) (forced : option RecordedOutcome.t) : DriverOp () :=
  r ← self;
  match sr_children r !! key with
  | None => mret ()
  | Some child =>
      if joined (sr_supervisor r) key || is_disposing (sr_supervisor r) key then mret ()
      else
        match ch_active child with
        | None => terminate_inactive key StartupDisposition.NotAborted
        | Some active =>
            match ac_ladder active with
            | Some _ =>
                tx_assert (negb (bool_decide (is_Some forced)))
                  "a readiness timeout cannot follow an armed stop ladder"
            | None =>
                _ ← reduce (StopStarted key);
                '(m, _) ← member_of (ch_slot child);
                stopping ← cell_op (transition_child_stage (sr_root r) m MemberTransition.Stopping None);
                _ ← tx_assert stopping "a stop ladder begins on a starting or running member";
                _ ← mailbox_freeze (ch_mailbox child) (ac_incarnation active);
                _ ← cancel_deadline (ac_readiness_deadline active);
                let ladder := if bool_decide (is_Some (ac_framework_abort active))
                              then for_framework_driver (rc_shutdown (ch_options child))
                              else ladder_new (rc_shutdown (ch_options child)) in
                _ ← modify_active key (fun a =>
                      let a := set_readiness_deadline None (set_forced forced a) in
                      let a := if bool_decide (is_Some forced) then a
                               else set_readiness (gate_step (ac_readiness a) EvShutdown).2 a in
                      set_ladder (Some ladder) a);
                at_ ← now;
                advance_ladder key at_
            end
        end
  end.

(** *** [startup.rs] *)

(** Whether the child became ready. *)
Definition apply_readiness_effect (key : ChildKey) (incarnation : Incarnation)
    (effect : ReadinessEffect) : DriverOp bool :=
  match effect with
  | ArmDeadline deadline =>
      h ← push_deadline deadline (DeadlineKind.Readiness key incarnation);
      live ← live_child key incarnation;
      _ ← match live with
          | Some _ => modify_active key (set_readiness_deadline (Some h))
          | None => cancel_deadline (Some h)
          end;
      mret false
  | BecameReady =>
      live ← live_child key incarnation;
      match live with
      | None => mret false
      | Some active =>
          latched ← removal_latched key;
          _ ← (if (latched : bool) then reduce (RemovalSampled key) else mret ());
          _ ← reduce (Supervisor.Ready key);
          sup ← supervised;
          child ← find_child key;
          match child with
          | None => mret false
          | Some child =>
              _ ← modify_active key (set_readiness_deadline None);
              _ ← cancel_deadline (ac_readiness_deadline active);
              _ ← shared (gated_fire (ac_ready_signal active));
              if decide (membership_status sup key = Restart.Removing) then mret false
              else
                r ← self;
                '(m, mc) ← member_of (ch_slot child);
                ready ← cell_op (transition_child_stage (sr_root r) m MemberTransition.Running
                          (Some (LifecycleEventKind.Ready (MemberCell.id mc) (MemberCell.membership mc)
                                   incarnation)));
                _ ← tx_assert ready "readiness promotes a starting member";
                mret true
          end
      end
  | TimedOut deadline =>
      _ ← begin_stop_child key (Some (RecordedOutcome.readiness_timed_out deadline));
      mret false
  | EffDisarmed => mret false
  end.

Definition publish_startup_complete (state : ScopeState.t) : DriverOp () :=
  r ← self;
  _ ← shared (routed (set_state_and_startup (sr_root r) state (Ok ())));
  match ScopeRole.parent_ready (sr_role r) with
  | Some l => _ ← shared (gated_fire l); mret ()
  | None => mret ()
  end.

(** *** [shutdown.rs] *)

Fixpoint members_of (r : ScopeRuntime) (keys : list ChildKey) : DriverOp (list nat) :=
  match keys with
  | [] => mret []
  | k :: keys =>
      match sr_children r !! k with
      | Some c =>
          '(m, _) ← member_of (ch_slot c);
          ms ← members_of r keys;
          mret (m :: ms)
      | None => members_of r keys
      end
  end.

(** The members a drain's first commands terminate without an incarnation. *)
Definition drain_entry_terminal_disposals (r : ScopeRuntime) (effects : list Effect)
  : DriverOp (list nat) :=
  let entered key := negb (joined (sr_supervisor r) key || is_disposing (sr_supervisor r) key)
                     && is_some_and (sr_children r !! key)
                          (fun c => negb (bool_decide (is_Some (ch_active c)))) in
  let keys := omap (fun e => match e with
                             | StopChild k | ForceChild k => then_some (entered k) k
                             | _ => None
                             end) effects in
  let sorted := bt_keys (list_to_map ((fun k => (k, ())) <$> keys) : gmap ChildKey ()) in
  members_of r sorted.

Definition begin_drain_transition (reason : StopReason.t) (startup : option (result () StartupError))
  : DriverOp () :=
  r ← self;
  let before := length (sr_effects r) in
  drain ← supervisor_begin_drain reason;
  match drain with
  | None => mret ()
  | Some (startup_pending, state) =>
      _ ← tx_assert (bool_decide (is_Some startup) || negb startup_pending)
            "assertion failed: startup.is_some() || !startup_pending";
      _ ← reduce Settle;
      r ← self;
      disposals ← drain_entry_terminal_disposals r (drop before (sr_effects r));
      _ ← shared (routed (publish_drain (sr_root r) state startup disposals));
      _ ← call Flush;
      call SettleAll
  end.

Definition begin_drain (reason : StopReason.t) : DriverOp () :=
  sup ← supervised;
  begin_drain_transition reason
    (if ScopeLifecycle.is_starting (lifecycle sup) then Some (Err StartupError_ShutdownRequested) else None).

Definition begin_drain_with_startup (reason : StopReason.t) (startup : result () StartupError)
  : DriverOp () := begin_drain_transition reason (Some startup).

(** *** Terminal disposal *)

(** The release edge: the retained construction is destroyed. *)
Definition handle_construction_disposed (key : ChildKey) : DriverOp () :=
  r ← self;
  if negb (is_disposing (sr_supervisor r) key) || negb (bool_decide (is_Some (sr_children r !! key)))
  then mret ()
  else
    _ ← join_terminal key;
    sup ← supervised;
    if decide (membership_status sup key = Restart.Removing) then call Flush
    else
      child ← get_child key "no entry found for key";
      if decide (rc_retention (ch_options child) = Remove) then prune_terminal key else mret ().

Definition startup_failure_of (m : MemberCell.t) (exit : Exit) : StartupFailure :=
  mkStartupFailure (CauseChild (MemberCell.id m) (MemberCell.membership m) exit).

Definition fail_startup (key : ChildKey) (exit : Exit) : DriverOp () :=
  child ← get_child key "no entry found for key";
  '(_, m) ← member_of (ch_slot child);
  let failure := startup_failure_of m exit in
  state ← supervisor_fail_startup;
  match state with
  | None => mret ()
  | Some state =>
      r ← self;
      sc ← cell_op (get_scope (sr_root r));
      _ ← (if decide (ScopeCell.flavor sc = Ordered) then
             tx_each (fun later =>
               sup ← supervised;
               if negb (spawned_once sup later) && negb (is_disposing sup later)
                  && negb (joined sup later)
               then call (Dispose later Exit.never_started None StartupDisposition.NotAborted)
               else mret ()) (keys_after (sr_supervisor r) key)
           else mret ());
      if ScopeRole.is_root (sr_role r) then
        shared (routed (set_state_and_startup (sr_root r) state
                          (Err (StartupError_StartupFailed failure))))
      else begin_drain_with_startup (StopReason.StartupFailed failure)
             (Err (StartupError_StartupFailed failure))
  end.

Definition begin_terminal_disposal (key : ChildKey) (exit : Exit) (exited : option Incarnation)
    (startup : StartupDisposition.t) : DriverOp () :=
  r ← self;
  let sup := sr_supervisor r in
  if negb (contains sup key) || is_disposing sup key || joined sup key
     || negb (bool_decide (is_Some (sr_children r !! key)))
  then mret ()
  else
    _ ← reduce (DisposalStarted key);
    sup ← supervised;
    _ ← tx_assert (is_disposing sup key)
          "terminal disposal must leave the reducer's incarnation disposing";
    let publication := if bool_decide (is_Some exited) || spawned_once sup key
                       then startup else StartupDisposition.NotAborted in
    _ ← publish_terminal key exit exited publication;
    sup ← supervised;
    _ ← (if bool_decide (startup = StartupDisposition.Aborted)
            && negb (bool_decide (membership_status sup key = Restart.Removing))
            && negb (ScopeLifecycle.is_draining (lifecycle sup))
         then fail_startup key exit else mret ());
    child ← find_child key;
    match child with
    | None => mret ()
    | Some child =>
        _ ← modify_child key (set_construction None);
        r ← self;
        let detach := tx_notes (Detached <$> option_list (ch_construction child)) in
        if negb (is_disposing (sr_supervisor r) key) then detach
        else
          match ch_construction child with
          | None => handle_construction_disposed key
          | Some d =>
              if hard_forced (sr_supervisor r) then
                _ ← detach;
                handle_construction_disposed key
              else
                sc ← cell_op (get_scope (sr_root r));
                shared (dispose_then d
                  (SendDisposed (sr_disposal_events r) (ScopeCell.member sc) key))
          end
    end.

(** *** Spawning *)

Definition construction_is_scope (d : Construction) : bool :=
  match d with ChildConstruction.Scope _ _ _ => true | _ => false end.

Definition inherited_defaults (policy : DefaultsInheritance) (defaults : ResolvedDefaults)
  : ResolvedDefaults :=
  match policy with
  | InheritDefaults => defaults
  | ResetDefaults => resolved_defaults_default
  end.

(** The body to run, whether it spends the construction, and what is left. *)
Definition dispatch_child_construction (child : ChildRuntime) (m : nat) (id : ChildId)
    (root : nat) (nested : option nat) (defaults : ResolvedDefaults) (incarnation : Incarnation)
    (latches : SpawnLatches) : outcome (SpawnBody.t P * bool * Construction) :=
  construction ← expect "isolated user value was already taken" (ch_construction child);
  match construction with
  | ChildConstruction.Raw source options readiness =>
      let context := mkRawContext id incarnation m root (sl_shutdown latches) (sl_abort latches)
        (sl_ready latches) (sl_local_stop latches) (rc_mailbox_shutdown (ch_options child)) in
      let spent := DefinitionSource.is_one_shot source in
      '(spawn, source) ←
        match DefinitionSource.restartable source with
        | Some factory => Ret (RawSpawn.Restartable factory, source)
        | None =>
            let '(instance, source) := DefinitionSource.take_one_shot source in
            instance ← expect "one-shot raw actor construction invoked more than once" instance;
            Ret (RawSpawn.OneShot instance, source)
        end;
      Ret (SpawnBody.Raw spawn context (rc_readiness (ch_options child)), spent,
           ChildConstruction.Raw source options readiness)
  | ChildConstruction.Task source options =>
      let context := mkTaskContext id incarnation (sl_shutdown latches) (sl_abort latches)
        (sl_ready latches) in
      match DefinitionSource.restartable source with
      | Some factory => Ret (SpawnBody.TaskRestartable factory context, false, construction)
      | None =>
          let '(body, source) := DefinitionSource.take_one_shot source in
          body ← expect "one-shot task construction invoked more than once" body;
          Ret (SpawnBody.TaskOnce body context, true, ChildConstruction.Task source options)
      end
  | ChildConstruction.Scope source options policy =>
      let inherited := inherited_defaults policy defaults in
      scope ← expect "scope construction needs a scope cell" nested;
      match DefinitionSource.restartable source with
      | Some factory =>
          l ← nested_scope latches;
          Ret (SpawnBody.ScopeRestartable factory scope inherited l, false, construction)
      | None =>
          let '(tree, source) := DefinitionSource.take_one_shot source in
          tree ← expect "one-shot subtree construction invoked more than once" tree;
          l ← nested_scope latches;
          Ret (SpawnBody.ScopeOnce tree scope inherited l, true,
               ChildConstruction.Scope source options policy)
      end
  end.

(** The task runs, the child owns it, and the reducer hears of it. *)
Definition start_task (launch : ChildTaskLaunch P) (active : ActiveChild) : DriverOp () :=
  _ ← tx_notes [Launched launch];
  _ ← modify_child (ln_key launch) (set_active (Some active));
  reduce (Spawned (ln_key launch)).

(** The part of [spawn_child] after the start is certain. *)
Definition launch_child (key : ChildKey) (incarnation : Incarnation) : DriverOp () :=
  child ← get_child key "the spawnable child remains registered";
  _ ← modify_child key (set_restart_deadline None);
  _ ← cancel_deadline (ch_restart_deadline child);
  construction ← tx_lift (expect "isolated user value was already taken" (ch_construction child));
  latches ← spawn_latches (construction_is_scope construction);
  r ← self;
  '(m, mc) ← member_of (ch_slot child);
  nested ← slot_scope (ch_slot child);
  '(body, spent, construction) ← tx_lift (dispatch_child_construction child m (MemberCell.id mc)
     (sr_root r) nested (sr_defaults r) incarnation latches);
  started_at ← now;
  _ ← match ch_mailbox child with
      | Some h =>
          token ← tx_lift (expect "configuration or close supplies each bind token"
                             (ch_mailbox_bind child));
          _ ← modify_child key (set_bind None);
          mailbox_call h (mb_bind token incarnation)
      | None => mret ()
      end;
  _ ← (if bool_decide (is_Some nested) then mret ()
       else
         started ← cell_op (transition_child_stage (sr_root r) m (MemberTransition.Starting incarnation)
                     (Some (LifecycleEventKind.Started (MemberCell.id mc) (MemberCell.membership mc)
                              incarnation)));
         tx_assert started "a spawn starts an admitted or restarting member's projection");
  let deadline :=
    readiness_deadline_duration (rc_readiness_deadline (ch_options child)) ≫=
      fun d => Deadline.instant (Deadline.after started_at d) in
  let '(readiness, readiness_effect) := configure (rc_readiness (ch_options child)) deadline in
  _ ← modify_child key (set_construction (if (spent : bool) then None else Some construction));
  _ ← start_task (mkLaunch (sr_events r) key incarnation body (needs_signal_watch readiness)
                    (sl_shutdown latches) (sl_ready latches) (sl_local_stop latches))
        (mkActive incarnation started_at (sl_shutdown latches) (sl_abort latches) None None None
           readiness None (sl_ready latches) (sl_framework_shutdown latches)
           (sl_framework_abort latches) (sl_framework_abort_ack latches) None);
  match readiness_effect with
  | Some effect => _ ← apply_readiness_effect key incarnation effect; mret ()
  | None => mret ()
  end.

Definition spawn_child (key : ChildKey) : DriverOp () :=
  latched ← removal_latched key;
  if (latched : bool) then reduce (RemovalSampled key)
  else
    r ← self;
    match sr_children r !! key with
    | None => mret ()
    | Some child =>
        let sup := sr_supervisor r in
        if ScopeLifecycle.is_draining (lifecycle sup) || bool_decide (is_Some (ch_active child))
           || joined sup key || is_disposing sup key
        then mret ()
        else
          nested ← slot_scope (ch_slot child);
          restart_stopped ← restarts_a_stopped_incarnation key;
          '(incarnation, counter) ← tx_lift (IncarnationCounter.mint (ch_incarnations child));
          _ ← modify_child key (set_incarnations counter);
          started ← match nested with
                    | Some n => cell_op (start_scope_child (sr_root r) n incarnation
                                           restart_stopped)
                    | None => mret true
                    end;
          if negb started then
            startup ← terminal_startup_disposition key;
            terminate_inactive key startup
          else launch_child key incarnation
    end.

Definition force_child (key : ChildKey) : DriverOp () :=
  at_ ← now;
  _ ← begin_stop_child key None;
  _ ← modify_active key (fun a => set_ladder ((fun l => StopLadder.force l at_) <$> ac_ladder a) a);
  _ ← advance_ladder key at_;
  sup ← supervised;
  if is_disposing sup key then handle_construction_disposed key else mret ().

(** *** Commands of the reducer *)

Definition perform_effect (effect : Effect) : DriverOp () :=
  match effect with
  | StartChild child => spawn_child child
  | StopChild child => begin_stop_child child None
  | ForceChild child => force_child child
  | FinalizeRemoval child => finalize_removal child
  | StartupCompleted state => publish_startup_complete state
  | Finished reason =>
      modify_self (fun r => Runtime.set_finished
        (match sr_finished r with Some f => Some f | None => Some reason end) r)
  end.

Definition flush_supervisor_effects : DriverOp () :=
  r ← self;
  match sr_effects r with
  | [] => mret ()
  | effects =>
      _ ← modify_self (Runtime.set_effects []);
      _ ← tx_each perform_effect effects;
      call Flush
  end.

Definition settle_supervisor : DriverOp () :=
  _ ← reduce Settle;
  r ← self;
  match sr_effects r with
  | [] => mret ()
  | _ =>
      _ ← call Flush;
      r ← self;
      if bool_decide (is_Some (sr_finished r)) then mret () else call SettleAll
  end.

Definition enter (c : Call) : DriverOp () :=
  match c with
  | Flush => flush_supervisor_effects
  | SettleAll => settle_supervisor
  | Dispose key exit exited startup => begin_terminal_disposal key exit exited startup
  end.
End open.

Fixpoint perform (fuel : nat) (c : Call) : DriverOp () :=
  match fuel with
  | O => tx_lift (Panics OUT_OF_FUEL)
  | S fuel => enter (perform fuel) c
  end.
End driver.
