(* ===== verification/DriverEvents.v ===== *)
(** * Handlers of the scope driver

    What the driver does on each event of a batch: exits, readiness,
    self-stops, deadlines, window stops, removals and admissions. *)

From S2P Require Import Prelude BTree Time Identity Exit Float64 Policy Readiness StopLadder Restart.
From S2P Require Import Epochs Lifecycle DeadlineQueue Supervisor SupervisorInv Gate Watch Latch.
From S2P Require Import Member Snapshot LifecycleHub Scope Plan Effects Dynamic DriverState Driver.

Section handlers.
Context {M T F B R P Tok D : Type} `{!MailboxControl M T F} `{!Broadcast LifecycleEvent.t B R}.
Context `{!MailboxDriver M F Tok D} {clock : Clock}.
Context (now_at : nat -> Z) (sample_at : nat -> Z) (powi : f64 -> Z -> f64).
Local Abbreviation StoreOp := (@StoreOp M T F B P).
Local Abbreviation ChildRuntime := (ChildRuntime P Tok).
Local Abbreviation DriverOp := (@DriverOp M T F B P Tok D).
Local Abbreviation now := (now now_at).
Variable call : Call -> DriverOp ().

Definition insert_child (child : ChildRuntime) (initial : bool) : DriverOp ChildKey :=
  '(_, m) ← member_of (ch_slot child);
  key ← supervisor_admit (MemberCell.membership m) initial;
  _ ← modify_self (fun r => Runtime.set_children (<[key := child]> (sr_children r)) r);
  mret key.

(** *** [events.rs] *)

Definition dispatch_membership_status (key : ChildKey) : DriverOp MembershipStatus :=
  latched ← removal_latched key;
  _ ← (if (latched : bool) then reduce (RemovalSampled key) else mret ());
  sup ← supervised;
  mret (membership_status sup key).

Definition resolve_window_stop (key : ChildKey) (target : Epoch) : DriverOp () :=
  suppressed ← construction_is_suppressed key;
  r ← self;
  if joined (sr_supervisor r) key || is_disposing (sr_supervisor r) key || suppressed then mret ()
  else
    match sr_children r !! key with
    | None => mret ()
    | Some child =>
        if bool_decide (is_Some (ch_active child)) then mret ()
        else
          nested ← slot_scope (ch_slot child);
          match nested with
          | None => mret ()
          | Some n =>
              pending ← cell_op (pending_incarnation_shutdown n);
              if decide (pending ≠ Some target) then mret ()
              else
                restarts ← restarts_a_stopped_incarnation key;
                if (restarts : bool) then _ ← cell_op (vacate_pending_shutdown n target); mret ()
                else if spawned_once (sr_supervisor r) key then
                  startup ← terminal_startup_disposition key;
                  terminate_inactive call key startup
                else mret ()
          end
    end.

(** A readiness event of the live incarnation: whether it became ready. *)
Definition step_readiness (key : ChildKey) (incarnation : Incarnation) (event : ReadinessEvent)
  : DriverOp bool :=
  live ← live_child key incarnation;
  match live with
  | None => mret false
  | Some active =>
      let '(effect, gate) := gate_step (ac_readiness active) event in
      _ ← modify_active key (set_readiness gate);
      match effect with
      | Some effect => apply_readiness_effect now_at call key incarnation effect
      | None => mret false
      end
  end.

Definition settle_if (became_ready : bool) : DriverOp () :=
  if became_ready then call SettleAll else mret ().

Definition handle_ready (key : ChildKey) (incarnation : Incarnation) : DriverOp () :=
  became_ready ← step_readiness key incarnation EvSignal;
  settle_if became_ready.

Definition handle_self_stop (key : ChildKey) (incarnation : Incarnation) : DriverOp () :=
  live ← live_child key incarnation;
  _ ← match live with
      | Some active =>
          fired ← shared (gated_fired (ac_ready_signal active));
          if (fired : bool) then handle_ready key incarnation else mret ()
      | None => mret ()
      end;
  live ← live_child key incarnation;
  match live with
  | Some _ => begin_stop_child now_at call key None
  | None => mret ()
  end.

Definition handle_deadline (deadline : DeadlineKind.t) : DriverOp () :=
  match deadline with
  | DeadlineKind.Readiness key incarnation =>
      live ← live_child key incarnation;
      match live with
      | None => mret ()
      | Some active =>
          _ ← modify_active key (set_readiness_deadline None);
          at_ ← now;
          fired ← shared (gated_fired (ac_ready_signal active));
          became_ready ← step_readiness key incarnation (EvDeadline at_ fired);
          settle_if became_ready
      end
  | DeadlineKind.Restart key =>
      suppressed ← construction_is_suppressed key;
      if (suppressed : bool) then modify_child key (set_restart_deadline None)
      else
        _ ← spawn_child now_at call key;
        call SettleAll
  | DeadlineKind.Stop key incarnation =>
      live ← live_child key incarnation;
      match live with
      | Some _ => at_ ← now; advance_ladder key at_
      | None => mret ()
      end
  end.

(** *** [child.rs], the exit funnel *)

(** The restart branch of [handle_exit]. *)
Definition schedule_child_restart (key : ChildKey) (incarnation : Incarnation) (exit : Exit)
  : DriverOp () :=
  child ← get_child key "the exiting child remains registered";
  jitter ← sample sample_at;
  at_ ← now;
  r ← self;
  '(decision, restarts, intensity) ← tx_lift (schedule_restart powi (ch_restarts child)
     (sr_intensity r) (sr_intensity_policy r) (rc_restart (ch_options child)) at_ jitter);
  _ ← modify_child key (set_restarts restarts);
  _ ← modify_self (Runtime.set_intensity intensity);
  '(m, mc) ← member_of (ch_slot child);
  let id := MemberCell.id mc in
  let membership := MemberCell.membership mc in
  published ← cell_op (publish_child_restart (sr_root r) m (decision_total_restarts decision) exit
    (MemberTransition.RestartScheduled exit (decision_restart_count decision)
       (decision_restart_at decision))
    (LifecycleEventKind.Exited id membership incarnation exit)
    (LifecycleEventKind.RestartScheduled id membership (decision_attempt decision)
       (decision_delay decision)));
  _ ← tx_assert published "a restart is scheduled from an active incarnation's exit";
  let trip := decision_intensity_trip decision in
  _ ← match trip, decision_restart_at decision with
      | None, Some restart_at =>
          h ← push_deadline restart_at (DeadlineKind.Restart key);
          modify_child key (set_restart_deadline (Some h))
      | _, _ => mret ()
      end;
  sup ← supervised;
  _ ← reduce (RestartPending key);
  match trip with
  | Some trip =>
      if ScopeLifecycle.is_starting (lifecycle sup)
      then begin_drain_with_startup call (StopReason.IntensityTripped trip)
             (Err (StartupError_IntensityTripped trip))
      else begin_drain call (StopReason.IntensityTripped trip)
  | None => mret ()
  end.

(** The exiting incarnation's resources are released; its exit. *)
Definition retire_incarnation (key : ChildKey) (active : ActiveChild)
    (recorded : option RecordedOutcome.t) (join : JoinOutcome) (cancellation : Cancellation)
  : DriverOp Exit :=
  child ← get_child key "the exiting child remains registered";
  _ ← modify_child key (set_active None);
  _ ← cancel_deadline (ac_readiness_deadline active);
  _ ← cancel_deadline (ac_stop_deadline active);
  token ← mailbox_close (ch_mailbox child) (ac_incarnation active);
  _ ← match token with
      | Some t => modify_child key (set_bind (Some t))
      | None => mret ()
      end;
  let recorded := (reconcile_recorded_outcomes recorded (ac_forced_outcome active)).1 in
  let exit := (classify_exit recorded join (ac_hard_abort_phase active) cancellation).1 in
  stopped_at ← now;
  r ← self;
  _ ← modify_child key (fun c => set_restarts
        (settle_if_stable (ch_restarts c) (mkRun (ac_started_at active) stopped_at)
           (Intensity.within (sr_intensity_policy r))).2 c);
  _ ← reduce (IncarnationComplete key);
  mret exit.

(** A window stop that arrived while the incarnation was still active. *)
Definition recheck_window_stop (key : ChildKey) : DriverOp () :=
  child ← find_child key;
  match child with
  | None => mret ()
  | Some child =>
      nested ← slot_scope (ch_slot child);
      match nested with
      | None => mret ()
      | Some n =>
          target ← cell_op (pending_incarnation_shutdown n);
          match target with
          | Some target => resolve_window_stop key target
          | None => mret ()
          end
      end
  end.

Definition handle_exit (key : ChildKey) (incarnation : Incarnation)
    (recorded : option RecordedOutcome.t) (join : JoinOutcome) (cancellation : Cancellation)
    (readiness_signal_seen : bool) : DriverOp () :=
  became_ready ← step_readiness key incarnation (EvExit readiness_signal_seen);
  _ ← settle_if became_ready;
  live ← live_child key incarnation;
  match live with
  | None => mret ()
  | Some active =>
      exit ← retire_incarnation key active recorded join cancellation;
      status ← dispatch_membership_status key;
      startup ← terminal_startup_disposition key;
      child ← get_child key "the exiting child remains registered";
      sup ← supervised;
      dispatch ← tx_lift (dispatch_exit exit (rc_restart (ch_options child))
                            (ScopeLifecycle.is_draining (lifecycle sup)) status);
      _ ← match dispatch with
          | Restart.Terminal => begin_terminal_disposal call key exit (Some incarnation) startup
          | ScheduleRestart => schedule_child_restart key incarnation exit
          end;
      recheck_window_stop key
  end.

(** *** [removal.rs] and [admission_control.rs] *)

Definition handle_removal (key : ChildKey) : DriverOp () :=
  latched ← removal_latched key;
  if (latched : bool) then
    _ ← reduce (RemovalLatched key);
    call Flush
  else mret ().

Definition reject_reserved_admission (request : AdmissionRequest.t) (control : nat)
    (cause : NotAdmittingCause.t) : DriverOp () :=
  r ← self;
  '(definition, removed) ← shared (cancel_dynamic_reservation_parts (sr_root r) control
                                     (AdmissionRequest.slot request));
  shared (dispose_definition_then definition
            (RejectAdmission request removed (ReserveError.NotAdmitting cause))).

(** Whether the control still holds this slot's reservation. *)
Definition find_reservation (control : nat) (m : MemberCell.t)
  : StoreOp (DynamicControl.t * option DynamicEntry.t) :=
  c ← get_control control;
  match DynamicControl.entries c !! MemberCell.id m with
  | Some e =>
      own ← entry_is (MemberCell.membership m) e;
      mret (c, if own && DynamicEntry.is_reserved e then Some e else None)
  | None => mret (c, None)
  end.

(** The verdict of the gated section: the key of the installed child, or the
    claimed reservation of a refused one. *)
Definition settle_install (request : AdmissionRequest.t) (control : nat) (child : ChildRuntime)
    (root : nat) (projection : ResidentProjection.t) (id : ChildId) (c : DynamicControl.t)
    (reserved : option DynamicEntry.t) : DriverOp (ChildKey + option DynamicEntry.t) :=
  s ← shared tx_get;
  let ended := is_some_and (AdmissionRequest.fused_cancel request) (latch_fired s) in
  match reserved, ended with
  | Some entry, false =>
      key ← insert_child child false;
      _ ← shared (put_control control (DynamicControl.insert id
            (DynamicEntry.promote key (AdmissionRequest.fused_cancel request) entry) c));
      admitted ← cell_op (admit_child_locked root projection);
      _ ← tx_assert admitted "a promoted reservation is admitted from `Reserved` exactly once";
      mret (inl key)
  | _, _ =>
      _ ← match reserved with
          | Some _ => shared (put_control control (DynamicControl.remove id c))
          | None => mret ()
          end;
      _ ← shared (plan (terminalize_never_started root (AdmissionRequest.slot request)));
      mret (inr reserved)
  end.

(** The gated section of [handle_admission]. *)
Definition install_admission (request : AdmissionRequest.t) (control : nat) (child : ChildRuntime)
  : DriverOp (ChildKey + option DynamicEntry.t) :=
  r ← self;
  let slot := AdmissionRequest.slot request in
  cell ← shared (plan (get_slot slot));
  '(m, mc) ← member_of slot;
  '(c, reserved) ← shared (find_reservation control mc);
  settle_install request control child (sr_root r) (ResidentProjection.new m (SlotCell.scope cell))
    (MemberCell.id mc) c reserved.

Definition not_admitting (sup : SupervisorState) (ended : bool) : option NotAdmittingCause.t :=
  if ScopeLifecycle.is_draining (lifecycle sup) then Some NotAdmittingCause.Draining
  else if ScopeLifecycle.startup_failed (lifecycle sup) then Some NotAdmittingCause.StartupFailed
  else if ended then Some NotAdmittingCause.ReservationEnded
  else None.

Definition handle_admission (request : AdmissionRequest.t) : DriverOp () :=
  r ← self;
  control ← tx_lift (expect "admission requests arrive only on a dynamic scope's control lane"
                       (sr_dynamic r));
  s ← shared tx_get;
  match not_admitting (sr_supervisor r)
          (is_some_and (AdmissionRequest.fused_cancel request) (latch_fired s)) with
  | Some cause => reject_reserved_admission request control cause
  | None =>
      let slot := AdmissionRequest.slot request in
      claimed ← shared (plan (resolve_and_take_defined slot (sr_defaults r)));
      match claimed with
      | None => reject_reserved_admission request control NotAdmittingCause.ReservationEnded
      | Some (definition, resolved) =>
          lowered ← shared (plan (with_options slot definition resolved));
          child ← from_plan lowered;
          installed ← install_admission request control child;
          match installed with
          | inl key =>
              _ ← shared (complete_admission request (Ok ()));
              spawn_child now_at call key
          | inr removed =>
              shared (dispose_definition_then (ch_construction child)
                (RejectAdmission request removed
                   (ReserveError.NotAdmitting NotAdmittingCause.ReservationEnded)))
          end
      end
  end.

(** *** [shutdown.rs] *)

Definition force_all : DriverOp () :=
  r ← self;
  let before := length (sr_effects r) in
  forced ← supervisor_force;
  _ ← match forced with
      | Some (startup_pending, state) =>
          r ← self;
          disposals ← drain_entry_terminal_disposals r (drop before (sr_effects r));
          shared (routed (publish_drain (sr_root r) state
                            (if (startup_pending : bool) then Some (Err StartupError_ShutdownRequested)
                             else None) disposals))
      | None => mret ()
      end;
  _ ← call Flush;
  call SettleAll.

Definition accept_shutdown_request : DriverOp () :=
  r ← self;
  _ ← match sr_role r with
      | ScopeRole.Nested l =>
          _ ← fire (ns_child_shutdown l);
          modify_self (Runtime.set_shutdown_seen true)
      | ScopeRole.Root => mret ()
      end;
  begin_drain call StopReason.ShutdownRequested.
End handlers.
