(* ===== verification/DriverLoop.v ===== *)
(** * The driver's loop

    [driver/events.rs] and [driver/incarnation.rs]: bounded collection from the
    event lanes, arbitration and dispatch of a batch, the wait, and an
    incarnation from its plan to its epilogue. *)

From S2P Require Import Prelude BTree Time Identity Exit Float64 Policy Readiness StopLadder Restart.
From S2P Require Import Epochs Lifecycle DeadlineQueue Supervisor SupervisorInv Gate Watch Latch.
From S2P Require Import Member Snapshot LifecycleHub Scope Plan Effects Dynamic DriverState Driver.
From S2P Require Import DriverEvents.

Module Pending.
Inductive t :=
| Shutdown
| WindowStop (child : ChildKey) (target : Epoch)
| AncestorShutdown
| AncestorAbort
| Force
| Child (event : ChildEvent.t)
| Admission (request : AdmissionRequest.t)
| Removal (key : ChildKey)
| Deadline (deadline : DeadlineKind.t).

Definition class (p : t) : ArbitrationClass :=
  match p with
  | Shutdown | AncestorShutdown | AncestorAbort | Force => ScopeShutdown
  | WindowStop _ _ => BackoffDue
  | Child (ChildEvent.SelfStop _ _) | Removal _ => MembershipRemoval
  | Child (ChildEvent.Ready _ _) => ReadinessSignal
  | Child (ChildEvent.Exited _ _ _ _ _ _) | Child (ChildEvent.ConstructionDisposed _) => ChildExit
  | Admission _ => Restart.Admission
  | Deadline (DeadlineKind.Readiness _ _) => ReadinessDeadlineClass
  | Deadline (DeadlineKind.Restart _) => BackoffDue
  | Deadline (DeadlineKind.Stop _ _) => StopDeadline
  end.

Definition classified (p : t) : ArbitrationClass * t := (class p, p).

Definition from (event : DriverEvent.t) : t :=
  match event with
  | DriverEvent.Child event => Child event
  | DriverEvent.Admission request => Admission request
  | DriverEvent.Removal key => Removal key
  end.
End Pending.

Definition MIN_EVENT_BATCH_LIMIT : Z := 64.

(** Which source ended a wait. *)
Module ScopeWake.
Inductive t :=
| Signal
| ParentShutdown
| Message (event : option DriverEvent.t)
| ControlMessage (event : option DriverEvent.t)
| Deadline.
End ScopeWake.

Section lanes.
Context {M T F B P : Type}.
Local Abbreviation StoreOp := (@StoreOp M T F B P).

Definition try_recv (lane : nat) : StoreOp (option DriverEvent.t) :=
  s ← tx_get;
  match st_lanes s !! lane with
  | Some (e :: q) => _ ← tx_modify (set_lanes (<[lane := q]> (st_lanes s))); mret (Some e)
  | _ => mret None
  end.

(** [limit] events, and one more that shows the lane was not drained. *)
Fixpoint collect_driver_events (lane : nat) (limit : nat)
  : StoreOp (list (ArbitrationClass * Pending.t) * bool) :=
  e ← try_recv lane;
  match e with
  | None => mret ([], false)
  | Some e =>
      let p := Pending.classified (Pending.from e) in
      match limit with
      | O => mret ([p], true)
      | S limit =>
          '(l, full) ← collect_driver_events lane limit;
          mret (p :: l, full)
      end
  end.

Definition collect_event_lanes (primary : nat) (control : option nat) (disposal : nat) (limit : nat)
  : StoreOp (list (ArbitrationClass * Pending.t) * bool) :=
  '(l1, full1) ← collect_driver_events primary limit;
  '(l2, full2) ← match control with
                 | Some lane => collect_driver_events lane limit
                 | None => mret ([], false)
                 end;
  '(l3, full3) ← collect_driver_events disposal limit;
  mret (l1 ++ l2 ++ l3, full1 || full2 || full3).
End lanes.

(** [while let Some(deadline) = deadlines.pop_due(now)]: each iteration takes an
    entry off the heap. *)
Fixpoint pop_all {K} (fuel : nat) (q : DeadlineQueue K) (now : Z) : outcome (list K * DeadlineQueue K) :=
  match fuel with
  | O => Ret ([], q)
  | S fuel =>
      '(k, q) ← pop_due q now;
      match k with
      | Some k => '(ks, q) ← pop_all fuel q now; Ret (k :: ks, q)
      | None => Ret ([], q)
      end
  end.

Section loop.
Context {M T F B R P Tok D : Type} `{!MailboxControl M T F} `{!Broadcast LifecycleEvent.t B R}.
Context `{!MailboxDriver M F Tok D} {clock : Clock}.
Context (now_at : nat -> Z) (sample_at : nat -> Z) (powi : f64 -> Z -> f64).
Local Abbreviation StoreOp := (@StoreOp M T F B P).
Local Abbreviation Store := (Store M B P).
Local Abbreviation ChildRuntime := (ChildRuntime P Tok).
Local Abbreviation ScopeRuntime := (ScopeRuntime P Tok).
Local Abbreviation Driver := (Driver M B P Tok).
Local Abbreviation DriverOp := (@DriverOp M T F B P Tok D).
Local Abbreviation now := (now now_at).
Local Abbreviation Batch := (list (ArbitrationClass * Pending.t)).
Variable call : Call -> DriverOp ().

Definition control_event_work (sup : SupervisorState) (event : ScopeControlEvent.t) : Batch :=
  match event with
  | ScopeControlEvent.WindowStop m target =>
      match key_for sup m with
      | Some child => [Pending.classified (Pending.WindowStop child target)]
      | None => []
      end
  end.

(** An ancestor's latch, reported once. *)
Definition ancestor_fired (pick : AncestorCommandLatches -> nat) (r : ScopeRuntime) (s : Store) : bool :=
  is_some_and (ScopeRole.ancestor (sr_role r)) (fun l => latch_fired s (pick l)).

(** Everything one turn collects, in collection order, and whether a lane may
    still have a queued suffix. *)
Definition collect (limit : nat) : DriverOp (Batch * bool) :=
  r ← self;
  shutdown ← cell_op (take_shutdown_request (sr_root r) (sr_epoch r));
  events ← cell_op (take_control_events (sr_root r));
  s ← shared tx_get;
  let ancestor_shutdown := negb (sr_shutdown_seen r) && ancestor_fired an_framework_shutdown r s in
  _ ← (if ancestor_shutdown then modify_self (Runtime.set_shutdown_seen true) else mret ());
  let ancestor_abort := negb (sr_abort_seen r) && ancestor_fired an_abort r s in
  _ ← (if ancestor_abort then modify_self (Runtime.set_abort_seen true) else mret ());
  force ← cell_op (take_force_request (sr_root r) (sr_epoch r));
  control ← match sr_dynamic r with
            | Some c => d ← shared (get_control c); mret (Some (DynamicControl.requests d))
            | None => mret None
            end;
  '(lanes, full) ← shared (collect_event_lanes (sr_events r) control (sr_disposal_events r) limit);
  at_ ← now;
  r' ← self;
  '(due, q) ← tx_lift (pop_all (S (length (DeadlineQueue.entries (sr_deadlines r')))) (sr_deadlines r') at_);
  _ ← modify_self (Runtime.set_deadlines q);
  let one (b : bool) p := if b then [Pending.classified p] else [] in
  mret (one shutdown Pending.Shutdown ++ (events ≫= control_event_work (sr_supervisor r))
          ++ one ancestor_shutdown Pending.AncestorShutdown
          ++ one ancestor_abort Pending.AncestorAbort ++ one force Pending.Force
          ++ lanes ++ ((fun d => Pending.classified (Pending.Deadline d)) <$> due),
        full).

Definition dispatch (event : Pending.t) : DriverOp () :=
  match event with
  | Pending.Shutdown => accept_shutdown_request call
  | Pending.WindowStop child target => resolve_window_stop call child target
  | Pending.AncestorShutdown => begin_drain call StopReason.ShutdownRequested
  | Pending.AncestorAbort =>
      r ← self;
      _ ← fire_optional (an_abort_ack <$> ScopeRole.ancestor (sr_role r));
      force_all call
  | Pending.Force => force_all call
  | Pending.Removal key => handle_removal call key
  | Pending.Admission request => handle_admission now_at call request
  | Pending.Child (ChildEvent.Ready child i) => handle_ready now_at call child i
  | Pending.Child (ChildEvent.SelfStop child i) => handle_self_stop now_at call child i
  | Pending.Child (ChildEvent.Exited child i recorded join cancellation seen) =>
      handle_exit now_at sample_at powi call child i recorded join cancellation seen
  | Pending.Child (ChildEvent.ConstructionDisposed child) => handle_construction_disposed call child
  | Pending.Deadline deadline => handle_deadline now_at call deadline
  end.

Definition take_completion : DriverOp (option StopReason.t) :=
  r ← self;
  match sr_finished r with
  | Some reason =>
      _ ← modify_self (fun r => Runtime.set_completion (Some reason) (Runtime.set_finished None r));
      mret (Some reason)
  | None => mret None
  end.

(** The dispatch of an arbitrated batch and its epilogue. *)
Definition run_batch (pending : Batch) : DriverOp (option StopReason.t) :=
  _ ← tx_each (fun p => dispatch p.2) (arbitrate pending);
  _ ← call SettleAll;
  _ ← publish_startup_removals;
  take_completion.

Inductive Turn :=
| Idle                                  (** nothing pending: wait *)
| Ran (lane_batch_full : bool)          (** yields first when a lane was full *)
| Ended (reason : StopReason.t).

(** One iteration of the loop: [carried] is what a wake left pending. *)
Definition turn (limit : nat) (carried : Batch) : DriverOp Turn :=
  '(collected, full) ← collect limit;
  match carried ++ collected with
  | [] => mret Idle
  | pending =>
      reason ← run_batch pending;
      mret match reason with Some reason => Ended reason | None => Ran full end
  end.

(** One poll of [wait_scope]: ties resolve in the order of its sources. *)
Definition poll_wait (signal_changed elapsed : bool) : DriverOp (option ScopeWake.t) :=
  r ← self;
  s ← shared tx_get;
  let command := (negb (sr_shutdown_seen r) && ancestor_fired an_framework_shutdown r s)
                 || (negb (sr_abort_seen r) && ancestor_fired an_abort r s) in
  let receive (lane : nat) (k : option DriverEvent.t -> ScopeWake.t) (next : DriverOp (option ScopeWake.t)) :=
    match st_lanes s !! lane with
    | None => mret (Some (k None))
    | Some [] => next
    | Some _ => e ← shared (try_recv lane); mret (Some (k e))
    end in
  let deadline := mret (if (elapsed : bool) then Some ScopeWake.Deadline else None) in
  if (signal_changed : bool) then mret (Some ScopeWake.Signal)
  else if command then mret (Some ScopeWake.ParentShutdown)
  else
    control ← match sr_dynamic r with
              | Some c => d ← shared (get_control c); mret (Some (DynamicControl.requests d))
              | None => mret None
              end;
    receive (sr_events r) ScopeWake.Message
      match control with
      | Some lane => receive lane ScopeWake.ControlMessage deadline
      | None => deadline
      end.

(** [wait_for_scope_wake]: what a wake leaves pending, or the completion of a
    scope whose lane is gone. *)
Definition wake (w : ScopeWake.t) : DriverOp (option StopReason.t * Batch) :=
  match w with
  | ScopeWake.Signal | ScopeWake.ParentShutdown | ScopeWake.Deadline => mret (None, [])
  | ScopeWake.Message None | ScopeWake.ControlMessage None =>
      _ ← modify_self (Runtime.set_completion (Some StopReason.ShutdownRequested));
      mret (Some StopReason.ShutdownRequested, [])
  | ScopeWake.Message (Some event) | ScopeWake.ControlMessage (Some event) =>
      mret (None, [Pending.classified (Pending.from event)])
  end.

(** ** The epilogue *)

(** One child of [Drop for ScopeRuntime]. *)
Definition retire_child (key : ChildKey) : DriverOp () :=
  sup ← supervised;
  _ ← (if is_disposing sup key then handle_construction_disposed call key else mret ());
  child ← find_child key;
  match child with
  | None => mret ()
  | Some child =>
      _ ← match ch_active child with
          | Some active =>
              _ ← modify_child key (set_active None);
              _ ← mailbox_teardown (ch_mailbox child) (ac_incarnation active);
              _ ← fire_shutdown_edges (ac_shutdown active) (ac_framework_shutdown active);
              _ ← fire (ac_abort active);
              tx_notes [AbortTask key (ac_incarnation active)]
          | None => mret ()
          end;
      _ ← modify_child key (set_terminality false);
      discharge_terminality child
  end.

Definition drop_runtime : DriverOp () :=
  r ← self;
  entries ← match sr_dynamic r with
            | Some control =>
                '(retained, deferred) ← shared (Dynamic.close control (sr_root r));
                _ ← cell_op (set_dynamic_route_locked (sr_root r) None);
                _ ← shared (commit_disposals deferred);
                mret (map_to_list retained).*2
            | None => mret []
            end;
  _ ← tx_each retire_child (bt_keys (sr_children r));
  _ ← cell_op (clear_residents_locked (sr_root r));
  _ ← publish_startup_removals;
  _ ← shared (tx_each (fun e => drop_entry (Some e)) entries);
  r ← self;
  _ ← modify_self (Runtime.set_children ∅);
  _ ← tx_each (fun key => match sr_children r !! key with
                          | Some c => drop_child c
                          | None => mret ()
                          end) (bt_keys (sr_children r));
  r ← self;
  let reason := unwrap_or (match sr_completion r with
                           | Some reason => Some reason
                           | None => ScopeLifecycle.draining_reason (lifecycle (sr_supervisor r))
                           end) StopReason.ShutdownRequested in
  _ ← modify_self (Runtime.set_completion None);
  cell_op (finish_incarnation (sr_root r) (sr_epoch r) reason).

(** The receivers go after the scope that owned their senders. *)
Definition drop_receivers : DriverOp () :=
  r ← self;
  _ ← shared (drop_lane (sr_disposal_events r));
  _ ← match sr_dynamic r with
      | Some c => d ← shared (get_control c); shared (drop_lane (DynamicControl.requests d))
      | None => mret ()
      end;
  shared (drop_lane (sr_events r)).

(** ** The prologue *)

Definition event_batch_limit (children : nat) : nat :=
  Z.to_nat (Z.max (Z.min (Z.of_nat children * 3) u64_max) MIN_EVENT_BATCH_LIMIT).

Definition new_lane : StoreOp nat :=
  s ← tx_get;
  let lane := fresh_index (st_lanes s) in
  _ ← tx_modify (set_lanes (<[lane := []]> (st_lanes s)));
  mret lane.
Definition new_control (requests : nat) : StoreOp nat :=
  s ← tx_get;
  let c := fresh_index (st_controls s) in
  _ ← tx_modify (set_controls (<[c := DynamicControl.new requests]> (st_controls s)));
  mret c.

(** [ScopeEpochGuard::begin]: the epoch, unless the epoch plane is busy. *)
Definition begin_epoch (root : nat) : StoreOp (option Epoch) :=
  cells (begin_incarnation_into root (ScopeLifecycle.state ScopeLifecycle.starting) None).

(** [run_scope_incarnation] up to [ScopeRuntime::new], with no child yet. *)
Definition open_incarnation (p : ScopePlan P) (role : ScopeRole.t) (epoch : Epoch)
  : StoreOp ScopeRuntime :=
  c ← cells (get_scope (sp_root p));
  _ ← (if ScopeRole.is_root role then
         running ← cells (transition_locked (ScopeCell.member c) MemberTransition.Running);
         tx_assert running "a root incarnation promotes its own never-admitted reservation"
       else mret ());
  events ← new_lane;
  disposal ← new_lane;
  dynamic ← (if decide (ScopeCell.flavor c = Dynamic) then
               requests ← new_lane;
               control ← new_control requests;
               mret (Some control)
             else mret None);
  mret (mkRuntime (sp_root p) (sp_defaults p) (sp_intensity p) intensity_state_default ∅
          (supervisor_new (ScopeCell.flavor c) ScopeLifecycle.starting) [] events disposal
          empty_queue role dynamic [] epoch false false None None).

(** The plan's children, one at a time. *)
Definition transfer_children (children : list (ChildPlan P)) : DriverOp () :=
  tx_each (fun plan => child ← from_plan plan; _ ← insert_child child true; mret ()) children.

Definition resident_projection (slot : nat) : DriverOp ResidentProjection.t :=
  c ← shared (plan (get_slot slot));
  mret (ResidentProjection.new (SlotCell.member c) (SlotCell.scope c)).

Fixpoint resident_projections_of (slots : list nat) : DriverOp (list ResidentProjection.t) :=
  match slots with
  | [] => mret []
  | i :: slots =>
      p ← resident_projection i;
      ps ← resident_projections_of slots;
      mret (p :: ps)
  end.

(** The children's slots in key order. *)
Definition child_slots (r : ScopeRuntime) : list (nat * ChildKey) :=
  omap (fun key => (fun c => (ch_slot c, key)) <$> sr_children r !! key) (bt_keys (sr_children r)).

Definition publish_initial_children : DriverOp () :=
  r ← self;
  _ ← match sr_dynamic r with
      | Some control => cell_op (set_dynamic_route_locked (sr_root r) (Some control))
      | None => mret ()
      end;
  residents ← resident_projections_of (child_slots r).*1;
  admitted ← cell_op (set_admitted_children (sr_root r) residents);
  tx_assert admitted "initial children are admitted from their reservation exactly once".

(** [run_scope_incarnation] up to its loop, for a root that was promoted: the
    completion when the drain of an early request already finished it. *)
Definition begin_run (p : ScopePlan P) : DriverOp (option StopReason.t) :=
  _ ← transfer_children (sp_children p);
  r ← self;
  _ ← match sr_dynamic r with
      | Some control => shared (register_initial control (child_slots r))
      | None => mret ()
      end;
  _ ← shared (plan (finish_transfer (mkScopePlan (sp_root p) (sp_intensity p) (sp_defaults p) []
                                       (terminality_owed p))));
  _ ← publish_initial_children;
  requested ← cell_op (take_shutdown_request (sr_root r) (sr_epoch r));
  _ ← (if (requested : bool) then accept_shutdown_request call else mret ());
  _ ← call SettleAll;
  take_completion.
End loop.
