(* ===== verification/DriverPanics.v ===== *)
(** * Where a panic comes from

    The driver's structural assertions have messages of their own: nothing it
    calls on the cells, plans, controls and engine machines panics with one of
    them. *)

From S2P Require Import Prelude BTree Time Identity Exit Float64 Policy Readiness StopLadder Restart.
From S2P Require Import Epochs Lifecycle DeadlineQueue Supervisor SupervisorInv Gate Watch Latch.
From S2P Require Import Member Snapshot LifecycleHub Scope Plan Effects Dynamic DriverState.

(** The driver's assertions about its reducer and its children. *)
Definition GUARDED : list string :=
  ["terminal disposal must leave the reducer's incarnation disposing";
   "the release edge must leave the reducer's membership joined";
   "reclaim runs only after joined terminal completion";
   "terminalized child remains registered";
   "the spawnable child remains registered";
   "the exiting child remains registered";
   "no entry found for key";
   "assertion failed: startup.is_some() || !startup_pending"].

Definition unguarded (message : string) : bool := negb (existsb (String.eqb message) GUARDED).

Definition mild {X} (o : outcome X) : Prop :=
  match o with Panics message => unguarded message = true | _ => True end.
Definition gentle {S X} (m : S -> outcome X) : Prop := forall s, mild (m s).

Lemma mild_bind {X Y} (o : outcome X) (k : X -> outcome Y) :
  mild o -> (forall x, mild (k x)) -> mild (o ≫= k).
Proof. destruct o; simpl; auto. Qed.
Lemma mild_expect {X} message (o : option X) : unguarded message = true -> mild (expect message o).
Proof. by destruct o. Qed.
Lemma mild_assert b message : unguarded message = true -> mild (assert_that b message).
Proof. by destruct b. Qed.

Section binds.
Context {M T F B R P : Type} `{!MailboxControl M T F} `{!Broadcast LifecycleEvent.t B R}.
Local Abbreviation Op := (@Op M T F B).
Local Abbreviation PlanOp := (@PlanOp M T F B P).

Lemma gentle_bind {S N A C} (m : Tx S N A) (k : A -> Tx S N C) :
  gentle m -> (forall a, gentle (k a)) -> gentle (m ≫= k).
Proof.
  intros Hm Hk s. apply mild_bind; [apply Hm|]. intros [[a n] s1].
  apply mild_bind; [apply Hk|]. by intros [[b n'] s2].
Qed.
Lemma gentle_op_bind {A C} (m : Op A) (k : A -> Op C) :
  gentle m -> (forall a, gentle (k a)) -> gentle (m ≫= k).
Proof. apply (gentle_bind (S := Forest M B) (N := Note T F)). Qed.
Lemma gentle_plan_bind {A C} (m : PlanOp A) (k : A -> PlanOp C) :
  gentle m -> (forall a, gentle (k a)) -> gentle (m ≫= k).
Proof. apply (gentle_bind (S := World M B P) (N := PlanNote T F P)). Qed.

Lemma gentle_lift {S N A} (o : outcome A) : mild o -> gentle (tx_lift o : Tx S N A).
Proof. intros Ho s. by apply mild_bind. Qed.
Lemma gentle_op_lift {A} (o : outcome A) : mild o -> gentle (lift o : Op A).
Proof. intros Ho s. by apply mild_bind. Qed.
Lemma gentle_plan_lift {A} (o : outcome A) : mild o -> gentle (plan_lift o : PlanOp A).
Proof. intros Ho s. by apply mild_bind. Qed.
Lemma gentle_cell {A} (m : Op A) : gentle m -> gentle (cell m : PlanOp A).
Proof. intros Hm w. specialize (Hm (forest w)). unfold cell. by destruct (m (forest w)) as [[[? ?] ?]| |]. Qed.
Lemma gentle_zoom {S S' N N' A} (get : S -> S') put (f : N' -> N) (m : Tx S' N' A) :
  gentle m -> gentle (tx_zoom get put f m).
Proof. intros Hm s. specialize (Hm (get s)). unfold tx_zoom. by destruct (m (get s)) as [[[? ?] ?]| |]. Qed.
Lemma gentle_tx_each {S N X} (g : X -> Tx S N ()) l : (forall x, gentle (g x)) -> gentle (tx_each g l).
Proof. intros Hg. induction l; [done|]. simpl. apply gentle_bind; auto. Qed.
Lemma gentle_plan_each {X} (g : X -> PlanOp ()) l : (forall x, gentle (g x)) -> gentle (plan_each g l).
Proof. intros Hg. induction l; [done|]. simpl. apply gentle_plan_bind; auto. Qed.
End binds.

Create HintDb gentle.
Create HintDb mild.

Ltac head_of t := match t with ?f _ => head_of f | _ => t end.
Ltac unfold_head t := let h := head_of t in unfold h; cbv beta.

Ltac mild_step :=
  match goal with
  | |- mild (Ret _) => exact I
  | |- mild ProcessAborts => exact I
  | |- mild (Panics _) => reflexivity
  | |- mild (mret _) => exact I
  | |- mild (mbind _ _) => apply mild_bind; [|intros]
  | |- mild (match ?x with _ => _ end) => destruct x
  | |- mild (expect _ _) => apply mild_expect; reflexivity
  | |- mild (assert_that _ _) => apply mild_assert; reflexivity
  end.
Ltac mild_walk :=
  repeat first [mild_step | solve [eauto 2 with mild nocore]
               | match goal with |- mild ?m => unfold_head m end].

(** Walks an operation, unfolding what has no lemma. *)
Ltac gentle_step :=
  match goal with
  | |- gentle (mret _) => intros ?; exact I
  | |- gentle (mbind _ _) => first [apply gentle_bind|apply gentle_op_bind|apply gentle_plan_bind]; [|intros]
  | |- gentle (match ?x with _ => _ end) => destruct x
  | |- gentle (tx_lift _) => apply gentle_lift; mild_walk
  | |- gentle (tx_assert _ _) => apply gentle_lift; mild_walk
  | |- gentle (lift _) => apply gentle_op_lift; mild_walk
  | |- gentle (panic_if _ _) => apply gentle_op_lift; mild_walk
  | |- gentle (plan_lift _) => apply gentle_plan_lift; mild_walk
  | |- gentle (cell _) => apply gentle_cell
  | |- gentle (plan _) => apply gentle_zoom
  | |- gentle (cells _) => apply gentle_zoom, gentle_cell
  | |- gentle (tx_each _ _) => apply gentle_tx_each; intros
  | |- gentle (plan_each _ _) => apply gentle_plan_each; intros
  | |- gentle tx_get => intros ?; exact I
  | |- gentle (tx_modify _) => intros ?; exact I
  | |- gentle (tx_notes _) => intros ?; exact I
  | |- gentle (fun _ => _) => intros ?; mild_walk
  end.
Ltac gentle_walk :=
  repeat first [gentle_step | solve [eauto 2 with gentle nocore]
               | match goal with |- gentle ?m => unfold_head m end].

Section cells.
Context {M T F B R P : Type} `{!MailboxControl M T F} `{!Broadcast LifecycleEvent.t B R}.
Local Abbreviation Op := (@Op M T F B).
Local Abbreviation PlanOp := (@PlanOp M T F B P).
Local Abbreviation StoreOp := (@StoreOp M T F B P).

Lemma gentle_get_scope s : gentle (get_scope s : Op _).
Proof. gentle_walk. Qed.
Lemma gentle_get_member m : gentle (get_member m : Op _).
Proof. gentle_walk. Qed.
Hint Resolve gentle_get_scope gentle_get_member : gentle.
Lemma gentle_transition_locked m tr : gentle (transition_locked m tr : Op _).
Proof. gentle_walk. Qed.
Lemma gentle_terminalize_locked m e s : gentle (terminalize_locked m e s : Op _).
Proof. gentle_walk. Qed.
Lemma gentle_publish_event s e : gentle (publish_event s e : Op _).
Proof. gentle_walk. Qed.
Hint Resolve gentle_transition_locked gentle_terminalize_locked gentle_publish_event : gentle.
Lemma gentle_publish_ancestors l : forall e i, gentle (publish_ancestors e i l : Op _).
Proof. induction l; intros; simpl; gentle_walk. Qed.
Hint Resolve gentle_publish_ancestors : gentle.
Lemma gentle_emit_locked s k : gentle (emit_locked s k : Op _).
Proof. gentle_walk. Qed.
Hint Resolve gentle_emit_locked : gentle.

Lemma gentle_set_state_locked s st l : gentle (set_state_locked s st l : Op _).
Proof.
  assert (forall l, gentle (mark_disposals l : Op ())) by (induction l0; simpl; gentle_walk).
  gentle_walk.
Qed.
Lemma gentle_set_startup_locked s x : gentle (set_startup_locked s x : Op _).
Proof. gentle_walk. Qed.
Hint Resolve gentle_set_state_locked gentle_set_startup_locked : gentle.
Lemma gentle_set_state_and_startup s st x : gentle (set_state_and_startup s st x : Op _).
Proof. gentle_walk. Qed.
Lemma gentle_publish_drain s st x l : gentle (publish_drain s st x l : Op _).
Proof.
  assert (forall g l, gentle (all_share g l : Op bool)) by (induction l0; simpl; gentle_walk).
  gentle_walk.
Qed.
Lemma gentle_transition_child_stage s m tr e : gentle (transition_child_stage s m tr e : Op _).
Proof. gentle_walk. Qed.
Lemma gentle_start_scope_child s c i b : gentle (start_scope_child s c i b : Op _).
Proof. gentle_walk. Qed.
Lemma gentle_publish_child_restart s m n e tr k k' : gentle (publish_child_restart s m n e tr k k' : Op _).
Proof. gentle_walk. Qed.
Lemma gentle_terminalize_child s m e i st : gentle (terminalize_child s m e i st : Op _).
Proof. gentle_walk. Qed.
Lemma gentle_prune_child_locked s m : gentle (prune_child_locked s m : Op _).
Proof. gentle_walk. Qed.
Lemma gentle_has_resident_child s m : gentle (has_resident_child s m : Op _).
Proof. gentle_walk. Qed.
Lemma gentle_finish_incarnation s e r : gentle (finish_incarnation s e r : Op _).
Proof. gentle_walk. Qed.
Lemma gentle_clear_residents_locked s : gentle (clear_residents_locked s : Op _).
Proof.
  assert (forall l, gentle (removals l : Op (list LifecycleEventKind.t))) by (induction l; simpl; gentle_walk).
  assert (forall l, gentle (emit_all s l : Op ())) by (induction l; simpl; gentle_walk).
  assert (forall l, gentle (sever_parents l : Op ())) by (induction l; simpl; gentle_walk).
  gentle_walk.
Qed.
Lemma gentle_adopt_descendants n : forall s p g, gentle (adopt_descendants n s p g : Op _).
Proof.
  induction n as [|n IH]; intros s p g; [gentle_walk|]. simpl. apply gentle_op_bind; [gentle_walk|].
  intros c. induction (ScopeCell.current_children c); gentle_walk.
Qed.
Hint Resolve gentle_adopt_descendants : gentle.
Lemma gentle_admit_child_locked s c : gentle (admit_child_locked s c : Op _).
Proof. gentle_walk. Qed.
Hint Resolve gentle_set_state_and_startup gentle_publish_drain gentle_transition_child_stage
  gentle_start_scope_child gentle_publish_child_restart gentle_terminalize_child
  gentle_prune_child_locked gentle_has_resident_child gentle_finish_incarnation
  gentle_clear_residents_locked gentle_admit_child_locked : gentle.
Lemma gentle_set_admitted_children s l : gentle (set_admitted_children s l : Op _).
Proof.
  assert (forall l, gentle (admit_all s l : Op bool)) by (induction l0; simpl; gentle_walk).
  gentle_walk.
Qed.
Lemma gentle_take_request slot s e : gentle (take_request slot s e : Op _).
Proof. gentle_walk. Qed.
Lemma gentle_take_control_events s : gentle (take_control_events s : Op _).
Proof. gentle_walk. Qed.
Lemma gentle_has_stop_request s e : gentle (has_stop_request s e : Op _).
Proof. gentle_walk. Qed.
Lemma gentle_pending_incarnation_shutdown s : gentle (pending_incarnation_shutdown s : Op _).
Proof. gentle_walk. Qed.
Lemma gentle_vacate_pending_shutdown s e : gentle (vacate_pending_shutdown s e : Op _).
Proof. gentle_walk. Qed.
Lemma gentle_set_dynamic_route_locked s r : gentle (set_dynamic_route_locked s r : Op _).
Proof. gentle_walk. Qed.

(** ** Slots and the control plane *)

Lemma gentle_terminalize_never_started s i : gentle (terminalize_never_started s i : PlanOp _).
Proof. gentle_walk. Qed.
Hint Resolve gentle_terminalize_never_started : gentle.
Lemma gentle_resolve_and_take_defined i d : gentle (resolve_and_take_defined i d : PlanOp _).
Proof. gentle_walk. Qed.
Lemma gentle_with_options i d o : gentle (with_options i d o : PlanOp _).
Proof. gentle_walk. Qed.
Lemma gentle_finish_transfer p : gentle (finish_transfer p : PlanOp _).
Proof. gentle_walk. Qed.
Lemma gentle_slot_member i : gentle (slot_member i : StoreOp _).
Proof. gentle_walk. Qed.
Lemma gentle_get_control i : gentle (get_control i : StoreOp _).
Proof. gentle_walk. Qed.
Lemma gentle_entry_is m e : gentle (entry_is m e : StoreOp _).
Proof. gentle_walk. Qed.
Lemma gentle_drop_entry e : gentle (drop_entry e : StoreOp _).
Proof. gentle_walk. Qed.
Lemma gentle_route_close_admission i : gentle (route_close_admission i : StoreOp _).
Proof. gentle_walk. Qed.
Lemma gentle_complete_admission r x : gentle (complete_admission r x : StoreOp _).
Proof. gentle_walk. Qed.
Hint Resolve gentle_slot_member gentle_get_control gentle_entry_is gentle_drop_entry
  gentle_route_close_admission gentle_complete_admission : gentle.
Lemma gentle_cancel_parts s c i : gentle (cancel_dynamic_reservation_parts s c i : StoreOp _).
Proof. gentle_walk. Qed.
Lemma gentle_dispose_definition_then d k : gentle (dispose_definition_then d k : StoreOp _).
Proof. gentle_walk. Qed.
Lemma gentle_register_initial c l : gentle (register_initial c l : StoreOp _).
Proof. gentle_walk. Qed.
Lemma gentle_close c s : gentle (Dynamic.close c s : StoreOp _).
Proof.
  assert (forall l, gentle (close_entries s l : StoreOp _)) by (induction l as [|[? ?]]; simpl; gentle_walk).
  gentle_walk.
Qed.
Lemma gentle_commit_disposals l : gentle (commit_disposals l : StoreOp _).
Proof. gentle_walk. Qed.
Lemma gentle_routed {A} (m : Op A) : gentle m -> gentle (routed m : StoreOp A).
Proof.
  intros Hm s. apply mild_bind; [by apply gentle_zoom, gentle_cell|]. intros [[a n] s1].
  apply mild_bind; [|by intros [[? ?] ?]]. apply gentle_tx_each. intros. apply gentle_route_close_admission.
Qed.
End cells.

#[export] Hint Resolve gentle_get_scope gentle_get_member gentle_transition_locked
  gentle_terminalize_locked gentle_publish_event gentle_publish_ancestors gentle_emit_locked
  gentle_set_state_locked gentle_set_startup_locked gentle_set_state_and_startup
  gentle_publish_drain gentle_transition_child_stage gentle_start_scope_child
  gentle_publish_child_restart gentle_terminalize_child gentle_prune_child_locked
  gentle_has_resident_child gentle_finish_incarnation gentle_clear_residents_locked
  gentle_adopt_descendants gentle_admit_child_locked gentle_set_admitted_children
  gentle_take_request gentle_take_control_events gentle_has_stop_request
  gentle_pending_incarnation_shutdown gentle_vacate_pending_shutdown
  gentle_set_dynamic_route_locked gentle_terminalize_never_started
  gentle_resolve_and_take_defined gentle_with_options gentle_finish_transfer gentle_slot_member
  gentle_get_control gentle_entry_is gentle_drop_entry gentle_route_close_admission
  gentle_complete_admission gentle_cancel_parts gentle_dispose_definition_then
  gentle_register_initial gentle_close gentle_commit_disposals gentle_routed : gentle.

(** What the driver asks of a mailbox panics only with messages of its own. *)
Class MildMailbox (M F Tok D : Type) `{!MailboxDriver M F Tok D} := {
  mild_configure k (m : M) : mild (mb_configure k m);
  mild_bind_mailbox t i (m : M) : mild (mb_bind t i m) }.
#[export] Hint Resolve mild_configure mild_bind_mailbox : mild.
