(* ===== verification/Mirror.v ===== *)
(** * What the driver and its reducer agree on

    The part of a driver's state its reducer speaks of, and how the requests
    to the reducer preserve their agreement. *)

From S2P Require Import Prelude BTree Identity Exit Policy Restart Lifecycle.
From S2P Require Import Supervisor SupervisorLemmas SupervisorInv SupervisorProps.

(** The reducer, its pending commands, which children run, which of them have a
    stop ladder, and whether the scope has a control. *)
Record Shape := mkShape
  { sh_sup : SupervisorState; sh_effects : list Effect; sh_act : gmap ChildKey bool;
    sh_lad : gmap ChildKey bool; sh_dynamic : bool }.

Definition active_record (r : ChildRecord) : bool :=
  match incarnation_of r with
  | IncarnationState.Active | IncarnationState.Stopping => true
  | _ => false
  end.

(** A registered child runs exactly when its record says so; only [x] may be
    between its exit and what follows it. *)
Definition mirrors (x : option ChildKey) (k : ChildKey) (r : option ChildRecord) (b : option bool) : Prop :=
  match r, b with
  | Some r, Some b =>
      b = active_record r /\ (incarnation_of r = IncarnationState.Complete -> x = Some k)
  | None, None => True
  | _, _ => False
  end.

Definition owed_final (r : option ChildRecord) : nat := Nat.b2n (is_some_and r removed_joined).

(** A finish of a dynamic scope is the end of a drain. *)
Definition calm (s : SupervisorState) : Prop :=
  flavor s = Dynamic -> finish_emitted s = true -> ScopeLifecycle.is_draining (lifecycle s) = true.

(** A member the reducer has commanded to stop: its removal is committed, or the
    scope drains and all its members stop at once, or it is this one's turn. *)
Definition doomed (s : SupervisorState) (k : ChildKey) (r : ChildRecord) : Prop :=
  (exists i, child_state_of r = ChildState.Removing i) \/
  ScopeLifecycle.is_draining (lifecycle s) = true /\
    (hard_forced s = true \/ flavor s = Dynamic \/ ordered_stop_waiting s = Some k).

(** Its incarnation is being stopped or has ended for good, or is between its
    exit and what follows it. *)
Definition stopping_record (r : ChildRecord) : bool :=
  match incarnation_of r with
  | IncarnationState.Stopping | IncarnationState.Complete | IncarnationState.Disposing
  | IncarnationState.Joined => true
  | _ => false
  end.

Definition commanded (k : ChildKey) (es : list Effect) : Prop := StopChild k ∈ es \/ ForceChild k ∈ es.

(** Among the pending commands [P] is one for each commanded member that is not
    stopping yet. *)
Definition heeded (P : list Effect) (s : SupervisorState) : Prop :=
  forall k r, children s !! k = Some r -> doomed s k r -> stopping_record r = true \/ commanded k P.

(** A child with a stop ladder runs, and its record is stopping. *)
Definition laddered_ok (s : SupervisorState) (act lad : gmap ChildKey bool) : Prop :=
  forall k, lad !! k = Some true -> act !! k = Some true /\
    exists r, children s !! k = Some r /\ incarnation_of r = IncarnationState.Stopping.

(** A forced scope drains. *)
Definition forced_drains (s : SupervisorState) : Prop :=
  hard_forced s = true -> ScopeLifecycle.is_draining (lifecycle s) = true.

(** [T] holds the commands already taken off the queue but not performed. *)
Record good (x : option ChildKey) (T : list Effect) (sh : Shape) : Prop := mkGood
  { good_inv : inv (sh_sup sh);
    good_calm : calm (sh_sup sh);
    good_dynamic : sh_dynamic sh = true -> flavor (sh_sup sh) = Dynamic;
    good_mirror : forall k, mirrors x k (children (sh_sup sh) !! k) (sh_act sh !! k);
    good_finals : forall k,
      (count (is_finalize k) (T ++ sh_effects sh) <= owed_final (children (sh_sup sh) !! k))%nat;
    good_forced : forced_drains (sh_sup sh);
    good_heeded : heeded (T ++ sh_effects sh) (sh_sup sh);
    good_ladders : laddered_ok (sh_sup sh) (sh_act sh) (sh_lad sh) }.

(** *** One request *)

Lemma forced_drains_exec s o es s' : exec s o = Ret (es, s') -> forced_drains s -> forced_drains s'.
Proof.
  unfold forced_drains. intros H%exec_viewed Hc. destruct H.
  - apply admit_Ret in H as (_ & _ & ->). done.
  - destruct H0; [done..|]. unfold reclaimed. by destruct (bool_decide _).
  - assert (hard_forced s' = hard_forced s) as ->.
    { transitivity (hard_forced s2); [by destruct H1|]. transitivity (hard_forced s1); [by destruct H0|by destruct H]. }
    intros Hf. specialize (Hc Hf). apply startup_pass_frame in H as (_ & _ & _ & _ & _ & _ & L1).
    apply stop_pass_frame in H0 as (_ & _ & _ & _ & L2 & _). apply finish_pass_frame in H1 as (_ & _ & _ & L3 & _).
    rewrite L3, L2. destruct L1 as [->|[Hs _]]; [done|]. by rewrite Hs in Hc.
  - assert (hard_forced (Supervisor.fail_startup s).2 = hard_forced s) as -> by by destruct (fail_startup_frame s) as [l ->].
    rewrite fail_startup_lifecycle. simpl. intros Hf. specialize (Hc Hf). by destruct (lifecycle s).
  - apply begin_drain_Ret in H as (_ & d & -> & _). done.
  - apply begin_drain_Ret in H as (_ & d & -> & _). done.
Qed.

Lemma calm_exec s o es s' : exec s o = Ret (es, s') -> calm s -> calm s'.
Proof.
  unfold calm. intros H%exec_viewed Hc. destruct H.
  - apply admit_Ret in H as (_ & _ & ->). done.
  - apply event_step_frame in H0 as Hf. destruct Hf as (-> & -> & _). intros Hd. apply Hc.
    destruct H0; [done..|]. rewrite <- Hd. symmetry. apply reclaimed_frame.
  - apply startup_pass_frame in H as (_ & _ & F1 & E1 & _ & _ & L1).
    apply stop_pass_frame in H0 as (_ & _ & F2 & E2 & L2 & _). intros Hd.
    destruct H1; simpl in *.
    + intros He. rewrite L2. destruct L1 as [->|[Hs ->]]; [apply Hc; congruence|].
      rewrite E2, E1 in He. rewrite F2, F1 in Hd. specialize (Hc Hd He). by rewrite Hs in Hc.
    + intros _. destruct H1 as [Hr|(_ & Ho & _)]; [by destruct (lifecycle s2)|congruence].
  - rewrite fail_startup_lifecycle. simpl. intros Hd He. specialize (Hc Hd He).
    by destruct (lifecycle s).
  - apply begin_drain_Ret in H as (_ & d & -> & _). done.
  - apply begin_drain_Ret in H as (_ & d & -> & _). done.
Qed.

Lemma put_keys s k r j : children s !! k = Some r ->
  forall r', is_Some (children s !! j) -> is_Some (children (put k r' s) !! j).
Proof. intros Hr r' Hj. simpl. apply lookup_insert_is_Some. destruct (decide (k = j)); auto. Qed.

Lemma transition_keys s k l i j :
  is_Some (children s !! j) -> is_Some (children (transition_incarnation s k l i).2 !! j).
Proof.
  unfold transition_incarnation. destruct (children s !! k) eqn:E; [|done].
  destruct (_ || _); [done|]. by eapply put_keys.
Qed.

(** Only a reclaim forgets a member. *)
Lemma step_keys s e j :
  (forall k, e ≠ Reclaim k) -> is_Some (children s !! j) -> is_Some (children (step s e).2 !! j).
Proof.
  intros Hn Hj. unfold step. destruct e as [k|k|k|k|k|k|k|k|k|k|]; simpl; try by apply transition_keys.
  - destruct (children s !! k) eqn:E; [|done]. destruct (startable _); [|done]. by eapply put_keys.
  - destruct (children s !! k) eqn:E; [|done]. destruct (_ || _); [done|]. by eapply put_keys.
  - pose proof (transition_keys s k [IncarnationState.Complete] IncarnationState.RestartPending j Hj) as H.
    destruct (transition_incarnation _ _ _ _) as [[] s1]; [|done]. simpl in H.
    destruct (children s1 !! k) eqn:E; [|done]. destruct (ScopeLifecycle.is_starting _); [|done].
    by eapply put_keys.
  - pose proof (transition_keys s k [IncarnationState.Disposing] IncarnationState.Joined j Hj) as H.
    destruct (transition_incarnation _ _ _ _) as [[] s1]; [|done].
    by destruct (child_state s1 k) as [[]|].
  - unfold sample_removal. destruct (children s !! k) eqn:E; [|done]. by eapply put_keys.
  - destruct (children s !! k) as [r|] eqn:E; [|done].
    destruct (child_state_of r); [..|done]; destruct (bool_decide _); by eapply put_keys.
  - by destruct (Hn k).
  - destruct (settle s) as [es s'] eqn:E.
    apply settle_passes in E as (? & ? & ? & ? & ? & H1 & H2 & H3 & _).
    pose proof (settle_frame _ _ _ _ _ _ _ H1 H2 H3) as (Hc & _). simpl. by rewrite Hc.
Qed.

(** Every finalization a request owes is issued by it. *)
Lemma finals_exec s o es s' j :
  exec s o = Ret (es, s') -> inv s -> (forall k, o ≠ OpStep (Reclaim k)) ->
  (count (is_finalize j) es + owed_final (children s !! j) = owed_final (children s' !! j))%nat.
Proof.
  intros Hx Hi Hn. pose proof Hx as H%exec_viewed.
  assert (Hsame : forall es s', (forall e, e ∈ es -> is_finalize j e = false) -> children s' = children s ->
    (count (is_finalize j) es + owed_final (children s !! j) = owed_final (children s' !! j))%nat).
  { intros es0 s0 He ->. by rewrite count_zero. }
  destruct H.
  - apply admit_Ret in H as (-> & Hle & ->). simpl.
    destruct (decide (counter s + 1 = j)) as [<-|Hj]; [|by rewrite lookup_insert_ne].
    rewrite lookup_insert_eq. destruct (children s !! _) as [r|] eqn:Er; [|done].
    destruct (inv_keys s Hi (counter s + 1)); [eauto|lia].
  - destruct H0 as [|r es r' Hr Hrec|r Hr Hj]; [by apply Hsame; [intros ? ?%elem_of_nil|]| |].
    + simpl. rewrite lookup_insert. case_decide as Hd.
      * subst j. rewrite Hr. simpl. unfold owed_final. simpl. by apply record_step_finalize in Hrec.
      * by rewrite (record_step_finalize_other _ _ _ _ _ j Hrec).
    + destruct (reclaimed_frame k r s) as (Hc & _). simpl in Hx. injection Hx as Hx.
      pose proof (step_keys s e k) as Hk. rewrite Hx in Hk. simpl in Hk. rewrite Hc, lookup_delete_eq in Hk. destruct Hk as [? Hk]; [|eauto|discriminate Hk]. intros j' ->. by apply (Hn j').
  - pose proof (settle_frame _ _ _ _ _ _ _ H H0 H1) as (? & _). apply Hsame; [|done]. intros e He.
    destruct (settle_effects _ _ _ _ _ _ _ _ H H0 H1 He) as [[_ [?| ->]]|[[_ [? ->]]|[_ [? ->]]]];
      [by destruct e|done..].
  - destruct (fail_startup_frame s) as [l ->]. apply Hsame; [by intros ? ?%elem_of_nil|done].
  - apply begin_drain_frame in H as Hf. apply Hsame; [|naive_solver]. intros e He.
    by destruct (begin_drain_effects _ _ _ _ _ _ H He) as [? ->].
  - apply begin_drain_frame in H as Hf. apply Hsame; [|naive_solver]. intros e He.
    by destruct (force_effects _ _ _ _ _ H He) as [? [-> | ->]].
Qed.

(** *** Commands to stop *)

Lemma commanded_app k P P' : commanded k (P ++ P') <-> commanded k P \/ commanded k P'.
Proof. unfold commanded. rewrite !elem_of_app. tauto. Qed.

(** Only one event restarts a member. *)
Lemma step_restarting s e k r' :
  children (step s e).2 !! k = Some r' -> incarnation_of r' = IncarnationState.RestartPending ->
  e = RestartPending k \/
  exists r, children s !! k = Some r /\ incarnation_of r = IncarnationState.RestartPending.
Proof.
  assert (Hput : forall j q q', children s !! j = Some q -> incarnation_of q' = incarnation_of q ->
    children (put j q' s) !! k = Some r' -> incarnation_of r' = IncarnationState.RestartPending ->
    exists r, children s !! k = Some r /\ incarnation_of r = IncarnationState.RestartPending).
  { intros j q q' Hq Hs H Hi. simpl in H. apply lookup_insert_Some in H as [[<- <-]|[_ H]]; [|eauto].
    exists q. split; [done|congruence]. }
  assert (Htr : forall j l i, i ≠ IncarnationState.RestartPending ->
    children (transition_incarnation s j l i).2 !! k = Some r' -> incarnation_of r' = IncarnationState.RestartPending ->
    exists r, children s !! k = Some r /\ incarnation_of r = IncarnationState.RestartPending).
  { intros j l i Hne H Hi. unfold transition_incarnation in H. destruct (children s !! j) as [q|] eqn:Hq; [|eauto].
    destruct (_ || _); [eauto|]. simpl in H. apply lookup_insert_Some in H as [[<- <-]|[_ H]]; [|eauto].
    destruct Hne. rewrite <- Hi. symmetry. apply incarnation_with. }
  unfold step. destruct e as [j|j|j|j|j|j|j|j|j|j|]; simpl; intros H Hi;
    try (right; eapply Htr; [|exact H|exact Hi]; discriminate).
  - right. destruct (children s !! j) as [q|] eqn:Hq; [|eauto]. destruct (startable q); [|eauto]. simpl in H.
    apply lookup_insert_Some in H as [[<- <-]|[_ H]]; [|eauto]. unfold incarnation_of in Hi. simpl in Hi.
    by rewrite incarnation_with in Hi.
  - right. destruct (children s !! j) as [q|] eqn:Hq; [|eauto]. destruct (_ || _); [eauto|]. eapply (Hput j q); [done| |exact H|exact Hi]; done.
  - destruct (decide (j = k)) as [->|Hj]; [by left|]. right.
    destruct (transition_incarnation s j [IncarnationState.Complete] IncarnationState.RestartPending) as [b s1] eqn:E.
    assert (Hs1 : children s1 !! k = children s !! k).
    { unfold transition_incarnation in E. destruct (children s !! j); [|by simplify_eq].
      destruct (_ || _); simplify_eq; [done|]. simpl. by rewrite lookup_insert_ne. }
    destruct b; [|simpl in H; rewrite Hs1 in H; eauto]. destruct (children s1 !! j) as [q|]; [|simpl in H; rewrite Hs1 in H; eauto].
    destruct (ScopeLifecycle.is_starting _); simpl in H; [|rewrite Hs1 in H; eauto].
    rewrite lookup_insert_ne, Hs1 in H by done. eauto.
  - right. pose proof (Htr j [IncarnationState.Disposing] IncarnationState.Joined ltac:(discriminate)) as Ht.
    destruct (transition_incarnation _ _ _ _) as [[] s1]; simpl in *; [|eauto].
    apply Ht; [|done]. by destruct (child_state s1 j) as [[]|].
  - right. unfold sample_removal in H. destruct (children s !! j) as [q|] eqn:Hq; [|eauto].
    eapply (Hput j q); [done| |exact H|exact Hi]. apply incarnation_sampled.
  - right. destruct (children s !! j) as [q|] eqn:Hq; [|eauto]. unfold incarnation_of in *.
    destruct (child_state_of q) eqn:Es; [..|eauto]; destruct (bool_decide _);
      (eapply (Hput j q); [done| |exact H|exact Hi]); unfold incarnation_of; by rewrite Es.
  - right. destruct (children s !! j) as [q|] eqn:Hq; [|eauto]. destruct (negb _); [eauto|].
    destruct (bool_decide _); simpl in H; apply lookup_delete_Some in H as [_ H]; eauto.
  - right. destruct (settle s) as [es s'] eqn:E. simpl in H.
    apply settle_passes in E as (? & ? & ? & ? & ? & H1 & H2 & H3 & _).
    pose proof (settle_frame _ _ _ _ _ _ _ H1 H2 H3) as (Hc & _). rewrite Hc in H. eauto.
Qed.

(** One event of a member: a stopping one keeps stopping, a committed removal is
    commanded. *)
Lemma record_step_heeded b k r es r' :
  record_step b k r es r' ->
  (incarnation_of r' = IncarnationState.RestartPending -> incarnation_of r = IncarnationState.RestartPending) ->
  (stopping_record r = true -> stopping_record r' = true) /\
  ((exists i, child_state_of r' = ChildState.Removing i) ->
   (exists i, child_state_of r = ChildState.Removing i) \/ stopping_record r' = true \/ commanded k es).
Proof.
  intros H Hn. unfold stopping_record, commanded, incarnation_of, startable in *.
  destruct H; simpl in *; rewrite ?incarnation_with, ?incarnation_sampled in *.
  - unfold startable in H. split; [|by intros [? ?]]. by destruct (child_state_of r) as [[]| |].
  - split; [done|auto].
  - split; [|destruct (child_state_of r); simpl in *; naive_solver].
    unfold incarnation_of in *. intros Hs. destruct H; try done. by specialize (Hn eq_refl).
  - unfold incarnation_of in *. rewrite H0 in Hn. by specialize (Hn eq_refl).
  - rewrite H. split; [done|eauto].
  - split; [done|]. destruct (child_state_of r); simpl; naive_solver.
  - split; [done|]. intros _. right. unfold incarnation_of.
    destruct (bool_decide _) eqn:E; [apply bool_decide_eq_true in E; left; by rewrite E|]. right. left. set_solver.
Qed.

(** A running member with a stop ladder exits or keeps stopping. *)
Lemma record_step_stopping b k r es r' :
  record_step b k r es r' -> incarnation_of r = IncarnationState.Stopping -> active_record r' = true ->
  incarnation_of r' = IncarnationState.Stopping.
Proof.
  unfold active_record, incarnation_of, startable. intros H Hi. destruct H; simpl in *; rewrite ?incarnation_with, ?incarnation_sampled in *.
  - unfold startable in H. by destruct (child_state_of r) as [[]| |].
  - done.
  - unfold incarnation_of in H. rewrite Hi in H. by inversion H; subst.
  - done.
  - by rewrite H in Hi.
  - done.
  - done.
Qed.

Lemma settle_doomed s e1 s1 e2 s2 e3 s' k r :
  startup_pass s e1 s1 -> stop_pass s1 e2 s2 -> finish_pass s2 e3 s' ->
  doomed s' k r -> doomed s k r \/ StopChild k ∈ e2.
Proof.
  intros H1 H2 H3 [Hr|[Hd Hw]]; [by left; left|].
  assert (Hf : lifecycle s' = lifecycle s2 /\ hard_forced s' = hard_forced s2 /\ flavor s' = flavor s2 /\
    ordered_stop_waiting s' = ordered_stop_waiting s2) by by destruct H3.
  destruct Hf as (F1 & F2 & F3 & F4). rewrite F1 in Hd. rewrite F2, F3, F4 in Hw. clear F1 F2 F3 F4.
  assert (Hl : lifecycle s2 = lifecycle s1 /\ hard_forced s2 = hard_forced s1 /\ flavor s2 = flavor s1) by by destruct H2.
  destruct Hl as (F1 & F2 & F3). rewrite F1 in Hd. rewrite F2, F3 in Hw. clear F1 F2 F3.
  assert (Hs : hard_forced s1 = hard_forced s /\ flavor s1 = flavor s /\
    ordered_stop_waiting s1 = ordered_stop_waiting s) by by destruct H1.
  assert (El : lifecycle s1 = lifecycle s).
  { apply startup_pass_frame in H1 as (_ & _ & _ & _ & _ & _ & [->|[_ E]]); [done|]. by rewrite E in Hd. }
  destruct Hs as (Eh & Ef & Ew). rewrite El in Hd. rewrite Eh, Ef in Hw.
  destruct Hw as [Hw|[Hw|Hw]]; [left; right; auto..|].
  destruct H2; simpl in Hw; try done.
  - left; right. rewrite Ew in Hw. auto.
  - left; right. rewrite Ew in Hw. auto.
  - right. injection Hw as ->. by left.
Qed.

Lemma fail_startup_draining l :
  ScopeLifecycle.is_draining (ScopeLifecycle.fail_startup l).2 = ScopeLifecycle.is_draining l.
Proof. by destruct l. Qed.

(** An event of a member: what it dooms it commands, or finds stopping. *)
Lemma heeded_event s e k0 es s' P :
  step s e = (es, s') -> event_step s k0 es s' ->
  (forall k r, e = RestartPending k -> children s !! k = Some r -> ~ doomed s k r) ->
  heeded P s -> heeded (P ++ es) s'.
Proof.
  intros Hx He Hr Hh k r' Hk Hd. rewrite commanded_app.
  assert (Hsame : children s' !! k = children s !! k -> doomed s k r' -> stopping_record r' = true \/ commanded k P \/ commanded k es).
  { intros E Hd'. rewrite E in Hk. destruct (Hh _ _ Hk Hd'); auto. }
  pose proof (event_step_frame _ _ _ _ He) as (_ & El & _ & _ & Ew & _).
  assert (hard_forced s' = hard_forced s /\ flavor s' = flavor s) as [Eh Ef].
  { destruct He; [done..|]. unfold reclaimed. by destruct (bool_decide _). }
  unfold doomed in Hd. rewrite El, Eh, Ef, Ew in Hd.
  destruct (decide (k = k0)) as [->|Hne].
  2:{ apply Hsame; [|exact Hd]. destruct He as [|q es q' Hq _|q Hq _]; simpl; [done|by rewrite lookup_insert_ne|].
      destruct (reclaimed_frame k0 q s) as (-> & _). by rewrite lookup_delete_ne. }
  pose proof (step_restarting s e k0 r') as Hrs. rewrite Hx in Hrs. simpl in Hrs.
  destruct He as [|q es q' Hq Hrec|q Hq _]; [by apply Hsame| |].
  2:{ destruct (reclaimed_frame k0 q s) as (Ec & _). rewrite Ec, lookup_delete_eq in Hk. done. }
  simpl in Hk. rewrite lookup_insert_eq in Hk. injection Hk as ->.
  destruct (decide (incarnation_of r' = IncarnationState.RestartPending /\ incarnation_of q ≠ IncarnationState.RestartPending))
    as [[Hp Hnp]|Hp].
  - destruct Hrs as [->|(q0 & Hq0 & Hi0)]; [simpl; by rewrite lookup_insert_eq|done| |congruence].
    destruct (Hr k0 q eq_refl Hq). destruct Hd as [Hd|Hd]; [left|by right].
    destruct Hd as [i Hd]. unfold incarnation_of in Hp, Hnp.
    destruct Hrec; simpl in *; try done; eauto; destruct (child_state_of r); simpl in *; simplify_eq; eauto.
  - destruct (record_step_heeded _ _ _ _ _ Hrec) as [Hst Hcm].
    { intros E. destruct (decide (incarnation_of q = IncarnationState.RestartPending)); [done|]. by destruct Hp. }
    assert (doomed s k0 q \/ stopping_record r' = true \/ commanded k0 es) as [Hd'|[?|?]];
      [|destruct (Hh _ _ Hq Hd'); auto|auto..].
    destruct Hd as [Hd|Hd]; [|by left; right]. destruct (Hcm Hd) as [?|?]; [left; by left|auto].
Qed.

(** Every member a request dooms is stopping, or commanded to stop. *)
Lemma heeded_exec s o es s' P :
  exec s o = Ret (es, s') -> inv s -> legal s o = true -> forced_drains s ->
  (forall k r, o = OpStep (RestartPending k) -> children s !! k = Some r -> ~ doomed s k r) ->
  heeded P s -> heeded (P ++ es) s'.
Proof.
  intros Hx Hi Hl Hfo Hr Hh k r' Hk Hd. rewrite commanded_app.
  assert (Hsame : children s' !! k = children s !! k -> doomed s k r' -> stopping_record r' = true \/ commanded k P \/ commanded k es).
  { intros E Hd'. rewrite E in Hk. destruct (Hh _ _ Hk Hd'); auto. }
  assert (Hunj : forall mk s0, (forall j, mk j = StopChild j \/ mk j = ForceChild j) -> children s0 = children s ->
    children s !! k = Some r' -> stopping_record r' = true \/ commanded k (unjoined mk s0)).
  { intros mk s0 Hmk Hc Hk'. destruct (decide (incarnation_of r' = IncarnationState.Joined)) as [Hj|Hj].
    - left. unfold stopping_record. by rewrite Hj.
    - right. assert (mk k ∈ unjoined mk s0).
      { apply unjoined_shape. exists k. split; [done|]. apply is_incomplete_true. rewrite Hc. eauto. }
      unfold commanded. destruct (Hmk k) as [E|E]; rewrite E in H; auto. }
  pose proof Hx as H%exec_viewed. destruct H as [m initial k0 s' Ha|e k0 es s' Hek He|e1 s1 e2 s2 e3 s' H1 H2 H3| |reason r es s' Hb|r es s' Hb].
  - apply admit_Ret in Ha as (-> & _ & ->). simpl in Hk. apply lookup_insert_Some in Hk as [[<- <-]|[Hne Hk]].
    + simpl in Hl. apply andb_true_iff in Hl as [[Hl _]%andb_true_iff _]. apply negb_true_iff in Hl.
      destruct Hd as [[i Hd]|[Hd _]]; simpl in Hd; congruence.
    + apply Hsame; [simpl; by rewrite lookup_insert_ne|]. exact Hd.
  - simpl in Hx. injection Hx as Hx. rewrite <- commanded_app. eapply (heeded_event s e k0); [done..| |done|done|done].
    intros j q ->. by apply Hr.
  - pose proof (settle_frame _ _ _ _ _ _ _ H1 H2 H3) as (Hc & _).
    destruct (settle_doomed _ _ _ _ _ _ _ _ _ H1 H2 H3 Hd) as [?|Hin]; [apply Hsame; [by rewrite Hc|done]|].
    right; right. left. rewrite !elem_of_app. auto.
  - apply Hsame; [by destruct (fail_startup_frame s) as [l ->]|]. revert Hd. unfold doomed, Supervisor.fail_startup.
    pose proof (fail_startup_draining (lifecycle s)) as Hfd.
    destruct (ScopeLifecycle.fail_startup (lifecycle s)) as [x l]. simpl in *. by rewrite Hfd.
  - apply begin_drain_frame in Hb as Hf. destruct Hf as (Hc & _ & Ef & _ & _ & _ & Ew).
    apply begin_drain_Ret in Hb as (_ & d & Es & Hb). rewrite Es in Ef, Ew, Hd.
    destruct (ScopeLifecycle.is_draining (lifecycle s)) eqn:El.
    + apply Hsame; [by rewrite Hc|]. destruct Hd as [Hd|[_ Hd]]; [by left|right; split; [done|exact Hd]].
    + destruct Hb as (_ & -> & _). rewrite Hc in Hk. destruct Hd as [Hd|[_ [Hd|[Hd|Hd]]]]; simpl in Hd.
      * apply Hsame; [by rewrite Hc|by left].
      * by rewrite (Hfo Hd) in El.
      * rewrite Hd. destruct (Hunj StopChild s ltac:(auto) eq_refl Hk); auto.
      * destruct (inv_waiting s Hi _ Hd) as [Hw _]. congruence.
  - apply begin_drain_frame in Hb as Hf. destruct Hf as (Hc & _). rewrite Hc in Hk.
    destruct (Hunj ForceChild s' ltac:(auto) Hc Hk) as [?|?]; [by left|]. right; right. apply commanded_app. auto.
Qed.

(** A member whose end has begun: its record is disposing, joined or gone. *)
Definition ended_record (r : ChildRecord) : bool :=
  match incarnation_of r with IncarnationState.Disposing | IncarnationState.Joined => true | _ => false end.
Definition ended (s : SupervisorState) (k : ChildKey) : Prop :=
  k <= counter s /\ forall r, children s !! k = Some r -> ended_record r = true.

Lemma record_step_ended b k r es r' : record_step b k r es r' -> ended_record r = true -> ended_record r' = true.
Proof.
  unfold ended_record, incarnation_of. intros H He. destruct H; simpl in *; rewrite ?incarnation_with, ?incarnation_sampled in *.
  - unfold startable in H. by destruct (child_state_of r) as [[]| |].
  - done.
  - unfold incarnation_of in H. by destruct H.
  - unfold incarnation_of in H0. by rewrite H0 in He.
  - done.
  - done.
  - done.
Qed.

Lemma ended_exec s o es s' k : exec s o = Ret (es, s') -> ended s k -> ended s' k.
Proof.
  intros H%exec_viewed [Hk He]. unfold ended.
  assert (Hsame : children s' = children s -> keys s' = keys s -> ended s' k).
  { intros E1 E2. unfold ended, counter. by rewrite E1, E2. }
  destruct H.
  - apply admit_Ret in H as (-> & Hle & ->). split; [unfold counter in *; simpl; lia|]. intros r Hr. simpl in Hr.
    rewrite lookup_insert_ne in Hr by lia. eauto.
  - pose proof (event_step_frame _ _ _ _ H0) as (_ & _ & E2 & _). split; [unfold counter in *; by rewrite E2|].
    intros r Hr. destruct H0 as [|q es q' Hq Hrec|q Hq _]; [eauto| |].
    + simpl in Hr. apply lookup_insert_Some in Hr as [[-> ->]|[_ Hr]]; [|eauto]. eapply record_step_ended; eauto.
    + destruct (reclaimed_frame k0 q s) as (Ec & _). rewrite Ec in Hr. apply lookup_delete_Some in Hr as [_ Hr]. eauto.
  - pose proof (settle_frame _ _ _ _ _ _ _ H H0 H1) as (E1 & E2 & _). by apply Hsame.
  - destruct (fail_startup_frame s) as [l E]. rewrite E in *. by apply Hsame.
  - apply begin_drain_frame in H as (E1 & E2 & _). by apply Hsame.
  - apply begin_drain_frame in H as (E1 & E2 & _). by apply Hsame.
Qed.

(** A member once commanded to stop: from then on its record is doomed or joined,
    until it is gone. *)
Definition bound (s : SupervisorState) (k : ChildKey) (r : ChildRecord) : Prop :=
  doomed s k r \/ incarnation_of r = IncarnationState.Joined.
Definition told (s : SupervisorState) (k : ChildKey) : Prop :=
  k <= counter s /\ forall r, children s !! k = Some r -> bound s k r.

Lemma record_step_removing b k r es r' i :
  record_step b k r es r' -> child_state_of r = ChildState.Removing i -> exists j, child_state_of r' = ChildState.Removing j.
Proof. intros H Hi. unfold startable in *. destruct H; simpl in *; unfold startable in *; rewrite ?Hi in *; simpl in *; eauto; done. Qed.
Lemma record_step_joined b k r es r' :
  record_step b k r es r' -> incarnation_of r = IncarnationState.Joined -> incarnation_of r' = IncarnationState.Joined.
Proof.
  unfold incarnation_of. intros H Hi. destruct H; simpl in *; rewrite ?incarnation_with, ?incarnation_sampled; try done.
  - unfold startable in H. by destruct (child_state_of r) as [[]| |].
  - unfold incarnation_of in H. rewrite Hi in H. by inversion H.
  - unfold incarnation_of in H0. by rewrite Hi in H0.
Qed.

(** What a settlement does to the member whose stop the scope waits for. *)
Lemma settle_bound s e1 s1 e2 s2 e3 s' k r :
  startup_pass s e1 s1 -> stop_pass s1 e2 s2 -> finish_pass s2 e3 s' -> children s !! k = Some r ->
  bound s k r \/ StopChild k ∈ e2 -> bound s' k r.
Proof.
  intros H1 H2 H3 Hk Hb. pose proof (startup_pass_frame _ _ _ H1) as (Hc1 & _ & _ & _ & _ & _ & L1).
  assert (Hf3 : lifecycle s' = lifecycle s2 /\ hard_forced s' = hard_forced s2 /\ flavor s' = flavor s2 /\
    ordered_stop_waiting s' = ordered_stop_waiting s2) by by destruct H3.
  assert (Hf2 : lifecycle s2 = lifecycle s1 /\ hard_forced s2 = hard_forced s1 /\ flavor s2 = flavor s1) by by destruct H2.
  assert (Hf1 : hard_forced s1 = hard_forced s /\ flavor s1 = flavor s /\
    ordered_stop_waiting s1 = ordered_stop_waiting s) by by destruct H1.
  unfold bound, doomed. destruct Hf3 as (-> & -> & -> & ->). destruct Hf2 as (El & Eh & Ef). rewrite El, Eh, Ef.
  destruct Hf1 as (Eh1 & Ef1 & Ew1). rewrite Eh1, Ef1.
  destruct Hb as [[[Hr|[Hd Hw]]|Hj]|Hin]; [by left; left| |by right|].
  - assert (Hl1 : lifecycle s1 = lifecycle s) by (destruct L1 as [->|[Hs _]]; [done|by rewrite Hs in Hd]).
    rewrite Hl1. destruct Hw as [Hw|[Hw|Hw]]; [left; right; auto..|]. rewrite <- Ew1 in Hw.
    destruct H2 as [_|w _ _ _ _|c j _ _ Hn _ _ _ _|_ _ Hn _]; [left; right; auto..|right|right];
      specialize (Hn k Hw); destruct (decide (incarnation_of r = IncarnationState.Joined)) as [E|E]; try done;
      (assert (is_incomplete s1 k = true) by (apply is_incomplete_true; rewrite Hc1; eauto)); congruence.
  - destruct H2 as [| |c j _ Hd _ _ _ _ _|]; try by apply elem_of_nil in Hin.
    apply list_elem_of_singleton in Hin as [= ->]. left; right. auto.
Qed.

Lemma commanded_nil k : ~ commanded k [].
Proof. by intros [?%elem_of_nil|?%elem_of_nil]. Qed.
Lemma commanded_unjoined s mk k :
  inv s -> (forall j, mk j = StopChild j \/ mk j = ForceChild j) -> commanded k (unjoined mk s) -> k <= counter s.
Proof.
  intros Hi Hmk Hc. assert (exists j, (StopChild k = mk j \/ ForceChild k = mk j) /\ is_incomplete s j = true) as (j & Hj & Hin).
  { destruct Hc as [Hc|Hc]; apply unjoined_shape in Hc as (j & ? & ?); eauto. }
  assert (j = k) as -> by (destruct (Hmk j) as [E|E]; rewrite E in Hj; naive_solver).
  apply is_incomplete_true in Hin as (r & Hr & _). apply (inv_keys s Hi). eauto.
Qed.

(** An event that commands a stop has committed the member's removal. *)
Lemma event_commands s k0 es s' k :
  event_step s k0 es s' -> commanded k es ->
  k = k0 /\ is_Some (children s !! k) /\ exists r i, children s' !! k = Some r /\ child_state_of r = ChildState.Removing i.
Proof.
  intros He Hc. destruct He as [|q es q' Hq Hrec|q Hq _]; try by apply commanded_nil in Hc.
  destruct Hrec; try by apply commanded_nil in Hc.
  - by destruct Hc as [?%list_elem_of_singleton|?%list_elem_of_singleton].
  - destruct Hc as [Hc%list_elem_of_singleton|Hc%list_elem_of_singleton]; destruct (bool_decide _); simplify_eq.
    split_and!; [done|eauto|]. do 2 eexists. simpl. by rewrite lookup_insert_eq.
Qed.
Lemma told_event s k0 es s' k :
  event_step s k0 es s' -> inv s -> told s k \/ commanded k es -> told s' k.
Proof.
  intros He Hi Ht. pose proof (event_step_frame _ _ _ _ He) as (_ & El & Ek & _ & Ew & _).
  assert (hard_forced s' = hard_forced s /\ flavor s' = flavor s) as [Eh Ef].
  { destruct He; [done..|]. unfold reclaimed. by destruct (bool_decide _). }
  destruct Ht as [[Hk Ht]|Hc].
  2:{ destruct (event_commands _ _ _ _ _ He Hc) as (-> & Hk & r & i & Hr & Hrm).
    split; [unfold counter; rewrite Ek; by apply (inv_keys s Hi)|]. intros r' Hr'. left; left. exists i. congruence. }
  split; [unfold counter; by rewrite Ek|]. intros r' Hr'. unfold bound, doomed. rewrite El, Eh, Ef, Ew.
  destruct He as [|q es q' Hq Hrec|q Hq _]; [exact (Ht _ Hr')| |].
  - simpl in Hr'. apply lookup_insert_Some in Hr' as [[-> ->]|[_ Hr']]; [|exact (Ht _ Hr')].
    destruct (Ht _ Hq) as [[[i Hrm]|Hd]|Hj]; [|by left; right|right; by eapply record_step_joined].
    left; left. by eapply record_step_removing.
  - destruct (reclaimed_frame k0 q s) as (Ec & _). rewrite Ec in Hr'. apply lookup_delete_Some in Hr' as [_ Hr']. exact (Ht _ Hr').
Qed.
Lemma told_settle s e1 s1 e2 s2 e3 s' k :
  startup_pass s e1 s1 -> stop_pass s1 e2 s2 -> finish_pass s2 e3 s' -> inv s ->
  told s k \/ commanded k (e1 ++ e2 ++ e3) -> told s' k.
Proof.
  intros H1 H2 H3 Hi Ht. pose proof (settle_frame _ _ _ _ _ _ _ H1 H2 H3) as (Hc & Hkeys & _).
  assert (Hcmd : commanded k (e1 ++ e2 ++ e3) -> StopChild k ∈ e2).
  { intros [Hin|Hin]; destruct (settle_effects _ _ _ _ _ _ _ _ H1 H2 H3 Hin) as [[_ [?|?]]|[[? [? ?]]|[_ [? ?]]]]; by simplify_eq. }
  split.
  - unfold counter. rewrite Hkeys. destruct Ht as [[Hk _]|Hin%Hcmd]; [done|].
    destruct H2 as [| |c j _ _ _ _ _ Hj _|]; try by apply elem_of_nil in Hin.
    apply list_elem_of_singleton in Hin as [= ->]. apply is_incomplete_true in Hj as (r & Hr & _).
    pose proof (startup_pass_frame _ _ _ H1) as (Hc1 & _). rewrite Hc1 in Hr. apply (inv_keys s Hi). eauto.
  - intros r Hr. rewrite Hc in Hr. eapply settle_bound; [done..|].
    destruct Ht as [[_ Ht]|Hin]; [left; by apply Ht|right; by apply Hcmd].
Qed.
Lemma told_drain s reason x es s' k :
  begin_drain s reason = Ret (x, es, s') -> inv s -> told s k \/ commanded k es -> told s' k.
Proof.
  intros (_ & d & -> & Hb)%begin_drain_Ret Hi [[Hk Ht]|Hc].
  - split; [exact Hk|]. intros r Hr. unfold bound, doomed. simpl.
    destruct (Ht r Hr) as [[?|[_ Hw]]|?]; [by left; left| |by right]. left; right. auto.
  - destruct (ScopeLifecycle.is_draining _); destruct Hb as (_ & -> & _); [by apply commanded_nil in Hc|].
    destruct (flavor s) eqn:Ef; [by apply commanded_nil in Hc|].
    split; [eapply (commanded_unjoined s StopChild); [done|auto|exact Hc]|]. intros r Hr. left; right. simpl. auto.
Qed.
Lemma told_force s x es s' k :
  begin_drain (set_hard_forced true s) StopReason.ShutdownRequested = Ret (x, es, s') -> inv s -> inv s' ->
  told s k \/ commanded k (es ++ unjoined ForceChild s') -> told s' k.
Proof.
  intros Hb Hi Hi' Ht.
  assert (Hs : inv (set_hard_forced true s)) by (destruct Hi; by split).
  apply begin_drain_Ret in Hb as Hf. destruct Hf as (_ & d & Es & _).
  assert (Hd : ScopeLifecycle.is_draining (lifecycle s') = true /\ hard_forced s' = true) by by rewrite Es.
  split; [|intros r Hr; left; right; naive_solver]. destruct Ht as [[Hk _]|[Hc|Hc]%commanded_app].
  - by rewrite Es.
  - by destruct (told_drain _ _ _ _ _ k Hb Hs) as [? _]; [auto|].
  - eapply (commanded_unjoined s' ForceChild); [done|auto|exact Hc].
Qed.

Lemma told_exec s o es s' k :
  exec s o = Ret (es, s') -> legal s o = true -> inv s -> told s k \/ commanded k es -> told s' k.
Proof.
  intros Hx Hl Hi Ht. pose proof (inv_exec _ _ _ _ Hl Hx Hi) as Hi'. apply exec_viewed in Hx. destruct Hx.
  - destruct Ht as [[Hk Ht]|?%commanded_nil]; [|done]. apply admit_Ret in H as (-> & Hc & ->).
    split; [unfold counter in *; simpl; lia|]. intros r Hr. simpl in Hr. rewrite lookup_insert_ne in Hr by lia. exact (Ht r Hr).
  - by eapply told_event.
  - by eapply told_settle.
  - destruct Ht as [[Hk Ht]|?%commanded_nil]; [|done]. pose proof (fail_startup_draining (lifecycle s)) as Hd.
    unfold Supervisor.fail_startup in *. destruct (ScopeLifecycle.fail_startup (lifecycle s)) as [x l]. simpl in *.
    split; [exact Hk|]. intros r Hr. unfold bound, doomed. simpl. rewrite Hd. exact (Ht r Hr).
  - by eapply told_drain.
  - by eapply told_force.
Qed.

Lemma commanded_told fl tr s k : run fl tr s -> commanded k (effects tr) -> told s k.
Proof.
  induction 1 as [|tr s o es s' Hr IH Hl He].
  - by intros [?%elem_of_nil|?%elem_of_nil].
  - rewrite effects_snoc, commanded_app. intros Hc. eapply told_exec; [done|done|by eapply run_inv|].
    destruct Hc; auto.
Qed.

(** A child with a stop ladder that still runs after a request is still stopping. *)
Lemma laddered_exec x s o es s' (act act' lad lad' : gmap ChildKey bool) :
  exec s o = Ret (es, s') -> inv s -> laddered_ok s act lad ->
  (forall k, mirrors x k (children s' !! k) (act' !! k)) ->
  (forall k, lad' !! k = Some true -> lad !! k = Some true /\ act' !! k = Some true) -> laddered_ok s' act' lad'.
Proof.
  intros He Hi Hok Hm Hlad k Hk. destruct (Hlad k Hk) as [Hk' Ha]. split; [done|].
  destruct (Hok k Hk') as (_ & r & Hr & Hs). specialize (Hm k). rewrite Ha in Hm. unfold mirrors in Hm.
  destruct (children s' !! k) as [r'|] eqn:Hr'; [|done]. destruct Hm as [Hm _]. exists r'. split; [done|].
  assert (Hsame : children s' = children s -> incarnation_of r' = IncarnationState.Stopping).
  { intros E. rewrite E, Hr in Hr'. by injection Hr' as <-. }
  apply exec_viewed in He. destruct He.
  - apply admit_Ret in H as (-> & Hle & ->). simpl in Hr'. destruct (decide (counter s + 1 = k)) as [E|E].
    + destruct (inv_keys s Hi k); [eauto|lia].
    + rewrite lookup_insert_ne in Hr' by done. congruence.
  - destruct H0 as [|q es q' Hq Hrec|q Hq Hj]; [congruence| |].
    + simpl in Hr'. apply lookup_insert_Some in Hr' as [[-> ->]|[_ Hr']]; [|congruence].
      rewrite Hq in Hr. injection Hr as ->. by eapply record_step_stopping.
    + destruct (reclaimed_frame k0 q s) as (Ec & _). rewrite Ec in Hr'. apply lookup_delete_Some in Hr' as [_ Hr']. congruence.
  - apply Hsame. by destruct (settle_frame _ _ _ _ _ _ _ H H0 H1).
  - apply Hsame. by destruct (fail_startup_frame s) as [l ->].
  - apply Hsame. by apply begin_drain_frame in H as [? _].
  - apply Hsame. by apply begin_drain_frame in H as [? _].
Qed.

(** The agreement after a request that forgets no member. *)
Lemma good_exec x x' T sh o es s' (act' lad' : gmap ChildKey bool) :
  exec (sh_sup sh) o = Ret (es, s') -> legal (sh_sup sh) o = true ->
  (forall k, o ≠ OpStep (Reclaim k)) ->
  (forall k r, o = OpStep (RestartPending k) -> children (sh_sup sh) !! k = Some r -> ~ doomed (sh_sup sh) k r) ->
  good x T sh ->
  (forall k, mirrors x' k (children s' !! k) (act' !! k)) ->
  (forall k, lad' !! k = Some true -> sh_lad sh !! k = Some true /\ act' !! k = Some true) ->
  good x' T (mkShape s' (sh_effects sh ++ es) act' lad' (sh_dynamic sh)).
Proof.
  intros He Hl Hn Hrs [Hi Hc Hd _ Hf Hfo Hh Hla] Hm Hlad. split; simpl; try done.
  - by eapply inv_exec.
  - by eapply calm_exec.
  - intros Hy. rewrite (exec_flavor _ _ _ _ He). auto.
  - intros k. pose proof (finals_exec _ _ _ _ k He Hi Hn). specialize (Hf k).
    rewrite !count_app in *. lia.
  - by eapply forced_drains_exec.
  - rewrite app_assoc. by eapply heeded_exec.
  - by eapply laddered_exec.
Qed.

Lemma mirrors_record x k r b :
  b = active_record r -> incarnation_of r ≠ IncarnationState.Complete -> mirrors x k (Some r) (Some b).
Proof. intros -> Hr. split; [done|]. by intros. Qed.

(** What two records of one member must share for the agreement to carry over. *)
Definition same_activity (r r' : ChildRecord) : Prop :=
  active_record r' = active_record r /\
  (incarnation_of r' = IncarnationState.Complete -> incarnation_of r = IncarnationState.Complete).

Definition same_activities (s s' : SupervisorState) : Prop :=
  forall k, match children s !! k, children s' !! k with
            | Some r, Some r' => same_activity r r'
            | None, None => True
            | _, _ => False
            end.

Lemma mirrors_same x s s' (act : gmap ChildKey bool) :
  same_activities s s' -> (forall k, mirrors x k (children s !! k) (act !! k)) ->
  forall k, mirrors x k (children s' !! k) (act !! k).
Proof.
  intros Hs Hm k. specialize (Hs k). specialize (Hm k).
  destruct (children s !! k), (children s' !! k); try done. simpl in *.
  destruct (act !! k); [|done]. destruct Hs as [-> Hs], Hm as [-> Hm]. auto.
Qed.

Lemma same_activities_refl s : same_activities s s.
Proof. intros k. by destruct (children s !! k). Qed.
Lemma same_activities_put s k r r' :
  children s !! k = Some r -> same_activity r r' -> same_activities s (put k r' s).
Proof.
  intros Hr Hs j. simpl. rewrite lookup_insert. case_decide as Hj.
  - subst j. by rewrite Hr.
  - by destruct (children s !! j).
Qed.

Lemma with_incarnation_activity r i :
  incarnation_of (with_state r (ChildState.with_incarnation (child_state_of r) i)) = i.
Proof. apply incarnation_with. Qed.

(** A transition between two states of the same activity. *)
Lemma transition_same s k l i :
  (forall j, j ∈ l -> j = i \/
     (i ≠ IncarnationState.Complete /\
      match j with IncarnationState.Active | IncarnationState.Stopping => true | _ => false end =
      match i with IncarnationState.Active | IncarnationState.Stopping => true | _ => false end)) ->
  same_activities s (transition_incarnation s k l i).2.
Proof.
  intros Hl. unfold transition_incarnation. destruct (children s !! k) as [r|] eqn:Er;
    [|apply same_activities_refl].
  destruct (record_joined r); [apply same_activities_refl|]. simpl.
  destruct (bool_decide _) eqn:E; [|apply same_activities_refl].
  apply bool_decide_eq_true in E. simpl. eapply same_activities_put; [done|].
  unfold same_activity, active_record. rewrite with_incarnation_activity.
  destruct (Hl _ E) as [<-|[Hi Ha]]; [done|]. by rewrite Ha.
Qed.

(** Events that neither start nor end an incarnation. *)
Definition neutral (e : Event) : bool :=
  match e with
  | Ready _ | StopStarted _ | Terminalized _ | RemovalSampled _ | RemovalLatched _ | Settle => true
  | _ => false
  end.

Lemma same_state r r' : incarnation_of r' = incarnation_of r -> same_activity r r'.
Proof. unfold same_activity, active_record. by intros ->. Qed.

Lemma neutral_same s e : neutral e = true -> same_activities s (step s e).2.
Proof.
  pose proof same_activities_refl as Hr. intros Hn. unfold step.
  destruct e as [k|k|k|k|k|k|k|k|k|k|]; try done; simpl.
  - destruct (children s !! k) eqn:E; [|done]. destruct (_ || _); [done|]. by eapply same_activities_put.
  - apply transition_same. intros j ->%list_elem_of_singleton. auto.
  - pose proof (transition_same s k [IncarnationState.Disposing] IncarnationState.Joined) as H.
    destruct (transition_incarnation _ _ _ _) as [[] s1]; simpl in H;
      [destruct (child_state s1 k) as [[]|]|]; apply H; intros j ->%list_elem_of_singleton; auto.
  - unfold sample_removal. destruct (children s !! k) eqn:E; [|done].
    eapply same_activities_put; [done|]. apply same_state. apply incarnation_sampled.
  - destruct (children s !! k) as [r|] eqn:E; [|done]. unfold incarnation_of in *.
    destruct (child_state_of r) eqn:Es; [..|done]; destruct (bool_decide _);
      (eapply same_activities_put; [done|]); apply same_state; unfold incarnation_of; by rewrite Es.
  - destruct (settle s) as [es s'] eqn:E. simpl.
    apply settle_passes in E as (? & ? & ? & ? & ? & H1 & H2 & H3 & _).
    pose proof (settle_frame _ _ _ _ _ _ _ H1 H2 H3) as (Hc & _). intros k. rewrite Hc.
    by destruct (children s !! k).
Qed.

(** The shape after a request; a child that starts or ends has no ladder. *)
Definition requested (es : list Effect) (s : SupervisorState) (sh : Shape) : Shape :=
  mkShape s (sh_effects sh ++ es) (sh_act sh) (sh_lad sh) (sh_dynamic sh).
Definition stepped (e : Event) (sh : Shape) : Shape :=
  requested (step (sh_sup sh) e).1 (step (sh_sup sh) e).2 sh.
Definition with_active (k : ChildKey) (b : bool) (sh : Shape) : Shape :=
  mkShape (sh_sup sh) (sh_effects sh) (alter (fun _ => b) k (sh_act sh)) (alter (fun _ => false) k (sh_lad sh))
    (sh_dynamic sh).
Definition with_ladder (k : ChildKey) (sh : Shape) : Shape :=
  mkShape (sh_sup sh) (sh_effects sh) (sh_act sh) (alter (fun _ => true) k (sh_lad sh)) (sh_dynamic sh).

Lemma exec_step s e : exec s (OpStep e) = Ret ((step s e).1, (step s e).2).
Proof. simpl. by destruct (step s e). Qed.

Lemma good_neutral x T sh e : neutral e = true -> good x T sh -> good x T (stepped e sh).
Proof.
  intros Hn Hg. eapply good_exec; [apply exec_step|done|by intros k [= ->]|by intros k r [= ->]|done| |].
  - eapply mirrors_same; [by apply neutral_same|]. apply Hg.
  - intros k Hk. split; [done|]. by apply (good_ladders _ _ _ Hg).
Qed.

Lemma good_weaken x T sh : good None T sh -> good x T sh.
Proof.
  intros [? ? ? Hm ? ? ? ?]. split; try done. intros k. specialize (Hm k). unfold mirrors in *.
  repeat case_match; try done. destruct Hm as [-> Hm]. split; [done|]. intros Hc. by specialize (Hm Hc).
Qed.

(** A performed command is off the list: a stop command once its member is
    stopping or gone. *)
Definition performed (e : Effect) (s : SupervisorState) : Prop :=
  match e with
  | StopChild k | ForceChild k => forall r, children s !! k = Some r -> stopping_record r = true
  | _ => True
  end.
Lemma good_drop x e T sh : good x (e :: T) sh -> performed e (sh_sup sh) -> good x T sh.
Proof.
  intros [? ? ? ? Hf ? Hh ?] Hp. split; try done.
  - intros k. specialize (Hf k). unfold count in *. simpl in Hf.
    destruct (is_finalize k e); simpl in Hf; lia.
  - intros k r Hk Hd. destruct (Hh k r Hk Hd) as [?|Hc]; [by left|]. unfold commanded in *. simpl in Hc.
    rewrite !elem_of_cons in Hc. destruct Hc as [[<-|?]|[<-|?]]; auto; left; by apply Hp.
Qed.

(** Taking the queue hands its commands to the performer. *)
Lemma good_take x T sh :
  good x T sh ->
  good x (sh_effects sh ++ T) (mkShape (sh_sup sh) [] (sh_act sh) (sh_lad sh) (sh_dynamic sh)).
Proof.
  intros [? ? ? ? Hf ? Hh ?]. split; try done.
  - intros k. specialize (Hf k). simpl in *. rewrite !count_app in *. simpl. unfold count at 3. simpl. lia.
  - intros k r Hk Hd. simpl. destruct (Hh k r Hk Hd) as [?|Hc]; [by left|]. right. rewrite app_nil_r.
    rewrite commanded_app in *. tauto.
Qed.

Section agree.
Context (T : list Effect) (sh : Shape).
Local Abbreviation sup := (sh_sup sh).

Lemma good_record x k r : good x T sh -> children sup !! k = Some r ->
  sh_act sh !! k = Some (active_record r) /\ (incarnation_of r = IncarnationState.Complete -> x = Some k).
Proof.
  intros Hg Hr. pose proof (good_mirror _ _ _ Hg k) as Hm. rewrite Hr in Hm. simpl in Hm.
  destruct (sh_act sh !! k); [|done]. by destruct Hm as [-> ?].
Qed.

Lemma good_registered x k b : good x T sh -> sh_act sh !! k = Some b ->
  exists r, children sup !! k = Some r /\ b = active_record r /\
    (incarnation_of r = IncarnationState.Complete -> x = Some k).
Proof.
  intros Hg Hb. pose proof (good_mirror _ _ _ Hg k) as Hm. rewrite Hb in Hm. unfold mirrors in Hm.
  destruct (children sup !! k) as [r|]; [|done]. destruct Hm. eauto.
Qed.

(** *** Events of one member *)

(** A moved record, with the new activity of its child. *)
Lemma good_moved x x' e k r r' b :
  good x T sh -> children sup !! k = Some r -> (step sup e).2 = put k r' sup ->
  (forall j, e ≠ Reclaim j) -> (forall j, e = RestartPending j -> j = k /\ ~ doomed sup k r) -> b = active_record r' ->
  (incarnation_of r' = IncarnationState.Complete -> x' = Some k) ->
  (forall j, j ≠ k -> x = Some j -> x' = Some j) ->
  good x' T (stepped e (with_active k b sh)).
Proof.
  intros Hg Hr Hs Hn Hre Hb Hc Hx. eapply (good_exec x x' T sh); [apply exec_step|done| | |done| |].
  - intros j [= ->]. by apply (Hn j).
  - intros j q [= ->] Hq. destruct (Hre j eq_refl) as [-> Hnd]. rewrite Hr in Hq. by injection Hq as <-.
  - intros j. simpl. rewrite Hs. simpl. destruct (good_record _ _ _ Hg Hr) as [Ha _].
    destruct (decide (j = k)) as [->|Hj].
    + rewrite lookup_insert_eq, lookup_alter_eq, Ha. simpl. auto.
    + rewrite lookup_insert_ne, lookup_alter_ne by done. pose proof (good_mirror _ _ _ Hg j) as Hm.
      unfold mirrors in *. repeat case_match; try done. destruct Hm as [-> Hm]. eauto.
  - intros j Hj. simpl in Hj. destruct (decide (j = k)) as [->|Hjk].
    + rewrite lookup_alter_eq in Hj. by destruct (sh_lad sh !! k).
    + rewrite lookup_alter_ne in Hj by done. simpl. rewrite lookup_alter_ne by done. split; [done|].
      by apply (good_ladders _ _ _ Hg).
Qed.

Lemma transition_moves k l i r :
  children sup !! k = Some r -> incarnation_of r ∈ l -> incarnation_of r ≠ IncarnationState.Joined ->
  transition_incarnation sup k l i =
    (true, put k (with_state r (ChildState.with_incarnation (child_state_of r) i)) sup).
Proof.
  intros Hr Hl Hj. unfold transition_incarnation. rewrite Hr.
  unfold record_joined, ChildState.joined. fold (incarnation_of r).
  rewrite bool_decide_false by done. simpl. by rewrite bool_decide_true.
Qed.

Lemma with_active_same x k : good x T sh -> sh_act sh !! k = Some false -> with_active k false sh = sh.
Proof.
  intros Hg Hb. pose proof (good_ladders _ _ _ Hg k) as Hl. rewrite Hb in Hl.
  destruct sh as [s e a l d]. unfold with_active. simpl in *. f_equal; apply map_eq; intros j;
    (destruct (decide (j = k)) as [->|Hj]; [rewrite lookup_alter_eq|by rewrite lookup_alter_ne]).
  - by rewrite Hb.
  - destruct (l !! k) as [[]|]; [|done..]. destruct (Hl eq_refl) as [? _]. congruence.
Qed.

Lemma is_disposing_record s k r :
  children s !! k = Some r ->
  is_disposing s k = bool_decide (incarnation_of r = IncarnationState.Disposing).
Proof. intros Hr. unfold is_disposing, child_state. by rewrite Hr. Qed.
Lemma joined_record s k r :
  children s !! k = Some r -> joined s k = bool_decide (incarnation_of r = IncarnationState.Joined).
Proof. intros Hr. unfold joined, child_state. by rewrite Hr. Qed.

(** A child that does not run starts its disposal. *)
Lemma good_disposal x k :
  good x T sh -> (forall j, x = Some j -> j = k) -> contains sup k = true ->
  is_disposing sup k = false -> joined sup k = false -> sh_act sh !! k ≠ Some true ->
  good None T (stepped (DisposalStarted k) sh) /\ is_disposing (step sup (DisposalStarted k)).2 k = true.
Proof.
  intros Hg Hx [r Hr]%bool_decide_eq_true Hd Hj Ha. rewrite (is_disposing_record _ _ _ Hr) in Hd.
  rewrite (joined_record _ _ _ Hr) in Hj. apply bool_decide_eq_false in Hd, Hj.
  destruct (good_record _ _ _ Hg Hr) as [Hb _]. rewrite Hb in Ha.
  assert (Hin : incarnation_of r ∈ [IncarnationState.Unstarted; IncarnationState.Complete;
                                    IncarnationState.RestartPending]).
  { unfold active_record in Ha. rewrite !elem_of_cons. destruct (incarnation_of r); naive_solver. }
  assert (Hs : (step sup (DisposalStarted k)).2 =
    put k (with_state r (ChildState.with_incarnation (child_state_of r) IncarnationState.Disposing)) sup).
  { simpl. by rewrite (transition_moves _ _ _ _ Hr Hin Hj). }
  split.
  - rewrite <- (with_active_same x k Hg) by (rewrite Hb; destruct (active_record r); naive_solver).
    eapply (good_moved x None); [done|done|exact Hs|done|done| | |].
    + unfold active_record. by rewrite with_incarnation_activity.
    + by rewrite with_incarnation_activity.
    + intros j Hjk Hxj. by apply Hx in Hxj.
  - rewrite Hs. erewrite is_disposing_record by (simpl; by rewrite lookup_insert_eq).
    rewrite with_incarnation_activity. by apply bool_decide_eq_true.
Qed.

Lemma terminalized_joins k :
  is_disposing sup k = true -> joined (step sup (Terminalized k)).2 k = true.
Proof.
  intros Hd. destruct (children sup !! k) as [r|] eqn:Hr; [|unfold is_disposing, child_state in Hd; by rewrite Hr in Hd].
  rewrite (is_disposing_record _ _ _ Hr), bool_decide_eq_true in Hd. simpl.
  rewrite (transition_moves _ _ _ _ Hr); [|rewrite Hd; by left|by rewrite Hd].
  assert (forall es : list Effect, joined (es, put k (with_state r
    (ChildState.with_incarnation (child_state_of r) IncarnationState.Joined)) sup).2 k = true).
  { intros es. simpl. erewrite joined_record by (simpl; by rewrite lookup_insert_eq).
    rewrite with_incarnation_activity. by apply bool_decide_eq_true. }
  by destruct (child_state _ k) as [[]|].
Qed.

(** What may be spawned: [spawn_child]'s guard leaves only startable members. *)
Lemma guard_startable k r :
  good None T sh -> children sup !! k = Some r -> sh_act sh !! k = Some false ->
  membership_status sup k ≠ Restart.Removing -> joined sup k = false -> is_disposing sup k = false ->
  startable r = true.
Proof.
  intros Hg Hr Ha Hm Hj Hd. rewrite (joined_record _ _ _ Hr) in Hj. rewrite (is_disposing_record _ _ _ Hr) in Hd.
  apply bool_decide_eq_false in Hj, Hd. destruct (good_record _ _ _ Hg Hr) as [Hb Hc]. rewrite Ha in Hb.
  injection Hb as Hb. unfold membership_status, child_state in Hm. rewrite Hr in Hm. simpl in Hm.
  unfold startable, active_record, incarnation_of in *.
  destruct (child_state_of r) as [i|i|i]; [|done..]. destruct i; try done. discriminate (Hc eq_refl).
Qed.

Lemma good_spawned k r :
  good None T sh -> children sup !! k = Some r -> startable r = true ->
  good None T (stepped (Spawned k) (with_active k true sh)) /\ (step sup (Spawned k)).1 = [].
Proof.
  intros Hg Hr Hs.
  assert (He : step sup (Spawned k) = ([], put k (mkChild (membership r)
    (ChildState.with_incarnation (child_state_of r) IncarnationState.Active) (startup r) true) sup)).
  { simpl. by rewrite Hr, Hs. }
  rewrite He. split; [|done].
  eapply (good_moved None None); [done|done|by rewrite He|done|done| | |done].
  - unfold active_record, incarnation_of. simpl. by rewrite incarnation_with.
  - unfold incarnation_of. simpl. by rewrite incarnation_with.
Qed.

(** A running child's exit leaves it between incarnations. *)
Lemma good_complete k :
  good None T sh -> sh_act sh !! k = Some true ->
  good (Some k) T (stepped (IncarnationComplete k) (with_active k false sh)).
Proof.
  intros Hg Ha. destruct (good_registered _ _ _ Hg Ha) as (r & Hr & Hb & _).
  assert (Hs : (step sup (IncarnationComplete k)).2 =
    put k (with_state r (ChildState.with_incarnation (child_state_of r) IncarnationState.Complete)) sup).
  { simpl. rewrite (transition_moves _ _ _ _ Hr); [done| |]; unfold active_record in Hb;
      destruct (incarnation_of r); try done; set_solver. }
  eapply (good_moved None (Some k)); [done|done|exact Hs|done|done| |done|done].
  unfold active_record. by rewrite with_incarnation_activity.
Qed.

(** A member that is not between incarnations needs no exemption. *)
Lemma good_settled k :
  good (Some k) T sh ->
  (forall r, children sup !! k = Some r -> incarnation_of r ≠ IncarnationState.Complete) -> good None T sh.
Proof.
  intros [? ? ? Hm ? ? ? ?] Hk. split; try done. intros j. specialize (Hm j). unfold mirrors in *.
  destruct (children sup !! j) as [r|] eqn:Hr; [|done]. destruct (sh_act sh !! j); [|done].
  destruct Hm as [-> Hm]. split; [done|]. intros Hc. pose proof (Hm Hc) as [= <-]. by destruct (Hk r).
Qed.

Lemma stepped_ignored e : step sup e = ([], sup) -> stepped e sh = sh.
Proof.
  intros He. unfold stepped, requested. rewrite He. simpl. rewrite app_nil_r. by destruct sh.
Qed.

Lemma restarted k r :
  children sup !! k = Some r -> incarnation_of r = IncarnationState.Complete ->
  exists r', (step sup (RestartPending k)).2 = put k r' sup /\ incarnation_of r' = IncarnationState.RestartPending.
Proof.
  intros Hr Hi. simpl. rewrite (transition_moves _ _ _ _ Hr); [|rewrite Hi; by left|by rewrite Hi].
  cbn [put set_children children lifecycle]. rewrite lookup_insert_eq.
  destruct (ScopeLifecycle.is_starting _); cbn [snd].
  - eexists. split; [apply put_put|]. apply incarnation_with.
  - eexists. split; [done|]. apply incarnation_with.
Qed.

Lemma good_restart k :
  good (Some k) T sh -> (forall r, children sup !! k = Some r -> ~ doomed sup k r) ->
  good None T (stepped (RestartPending k) sh).
Proof.
  intros Hg Hnd. destruct (children sup !! k) as [r|] eqn:Hr.
  2:{ rewrite stepped_ignored by (simpl; unfold transition_incarnation; by rewrite Hr).
      eapply good_settled; [done|]. congruence. }
  destruct (decide (incarnation_of r = IncarnationState.Complete)) as [Hi|Hi].
  - destruct (restarted k r Hr Hi) as (r' & Hs & Hi').
    destruct (good_record _ _ _ Hg Hr) as [Hb _]. unfold active_record in Hb. rewrite Hi in Hb.
    rewrite <- (with_active_same _ k Hg Hb).
    eapply (good_moved (Some k) None); [done|done|exact Hs|done| | | |].
    + intros j [= <-]. auto.
    + unfold active_record. by rewrite Hi'.
    + by rewrite Hi'.
    + intros j Hj [= <-]. done.
  - rewrite stepped_ignored; [eapply good_settled; [done|]; congruence|].
    simpl. unfold transition_incarnation. rewrite Hr. destruct (record_joined r); [done|]. simpl.
    rewrite bool_decide_false; [done|]. by intros ?%list_elem_of_singleton.
Qed.

(** A joined member with no finalization pending is forgotten by both. *)
Lemma good_reclaimed x k :
  good x T sh -> joined sup k = true -> count (is_finalize k) (T ++ sh_effects sh) = 0%nat ->
  good x T (stepped (Reclaim k)
    (mkShape sup (sh_effects sh) (delete k (sh_act sh)) (delete k (sh_lad sh)) (sh_dynamic sh))).
Proof.
  intros Hg Hj Hf. destruct (children sup !! k) as [r|] eqn:Hr; [|unfold joined, child_state in Hj; by rewrite Hr in Hj].
  rewrite (joined_record _ _ _ Hr), bool_decide_eq_true in Hj.
  assert (Hs : step sup (Reclaim k) = ([], reclaimed k r sup)).
  { simpl. rewrite Hr. unfold record_joined, ChildState.joined. fold (incarnation_of r).
    rewrite bool_decide_true by done. simpl. unfold reclaimed. by destruct (bool_decide _). }
  destruct (reclaimed_frame k r sup) as (Hc & _ & Hfl & _). unfold stepped, requested. simpl sh_sup. rewrite Hs.
  pose proof (exec_step sup (Reclaim k)) as He. rewrite Hs in He.
  destruct Hg as [Hi Hcalm Hd Hm Hfin Hfo Hh Hla].
  assert (Hm' : forall j, mirrors x j (children (reclaimed k r sup) !! j) (delete k (sh_act sh) !! j)).
  { intros j. rewrite Hc. destruct (decide (j = k)) as [->|Hjk]; [by rewrite !lookup_delete_eq|].
    by rewrite !lookup_delete_ne. }
  split; simpl.
  - by eapply (inv_exec _ (OpStep (Reclaim k))).
  - by eapply calm_exec.
  - rewrite Hfl. done.
  - exact Hm'.
  - intros j. rewrite Hc, app_nil_r. destruct (decide (j = k)) as [->|Hjk]; [rewrite Hf; lia|].
    by rewrite lookup_delete_ne.
  - by eapply forced_drains_exec.
  - rewrite app_assoc. by eapply (heeded_exec _ (OpStep (Reclaim k))).
  - eapply laddered_exec; [exact He|done|done|done|]. intros j [Hjk Hl]%lookup_delete_Some.
    rewrite lookup_delete_ne by done. split; [done|]. by apply Hla.
Qed.

(** *** The other requests *)

(** A request that changes no record. *)
Lemma good_phase x o es s' :
  good x T sh -> exec sup o = Ret (es, s') -> legal sup o = true -> children s' = children sup ->
  (forall e, o ≠ OpStep e) -> good x T (requested es s' sh).
Proof.
  intros Hg He Hl Hc Hn. eapply good_exec; [done|done|intros k; apply Hn|intros k r E; by destruct (Hn (RestartPending k))|done| |].
  - rewrite Hc. apply Hg.
  - intros k Hk. split; [done|]. by apply (good_ladders _ _ _ Hg).
Qed.

Lemma good_admitted m initial k s' :
  good None T sh -> legal sup (OpAdmit m initial) = true -> admit_child sup m initial = Ret (k, s') ->
  good None T (mkShape s' (sh_effects sh ++ []) (<[k := false]> (sh_act sh)) (<[k := false]> (sh_lad sh)) (sh_dynamic sh)).
Proof.
  intros Hg Hl Ha.
  assert (He : exec sup (OpAdmit m initial) = Ret ([], s')) by (simpl; by rewrite Ha).
  eapply (good_exec None); [done|done|done|done|done| |].
  - apply admit_Ret in Ha as (-> & Hle & ->). intros j. simpl.
    destruct (decide (j = counter sup + 1)) as [->|Hj]; [by rewrite !lookup_insert_eq|].
    rewrite !lookup_insert_ne by done. apply Hg.
  - intros j Hj. apply lookup_insert_Some in Hj as [[_ ?]|[Hne Hj]]; [done|]. rewrite lookup_insert_ne by done.
    split; [done|]. by apply (good_ladders _ _ _ Hg).
Qed.

(** A stop that starts on a running child leaves its record stopping. *)
Lemma stop_started_stops k r :
  children sup !! k = Some r -> active_record r = true ->
  exists r', children (step sup (StopStarted k)).2 !! k = Some r' /\ incarnation_of r' = IncarnationState.Stopping.
Proof.
  intros Hr Ha. unfold active_record in Ha. simpl. destruct (incarnation_of r) eqn:Hi; try done.
  - rewrite (transition_moves _ _ _ _ Hr); [|rewrite Hi; by left|by rewrite Hi]. simpl.
    eexists. rewrite lookup_insert_eq. split; [done|]. apply with_incarnation_activity.
  - exists r. split; [|done]. unfold transition_incarnation. rewrite Hr. destruct (record_joined r); [done|]. simpl.
    rewrite bool_decide_false; [done|]. rewrite Hi. by intros ?%list_elem_of_singleton.
Qed.

(** A running child whose record is stopping gets its ladder. *)
Lemma good_laddered x k r :
  good x T sh -> children sup !! k = Some r -> incarnation_of r = IncarnationState.Stopping ->
  good x T (with_ladder k sh).
Proof.
  intros Hg Hr Hi. pose proof (good_record _ _ _ Hg Hr) as [Ha _]. unfold active_record in Ha. rewrite Hi in Ha.
  destruct Hg as [? ? ? ? ? ? ? Hla]. split; try done. intros j Hj. simpl in *. destruct (decide (j = k)) as [->|Hjk]; [eauto|].
  rewrite lookup_alter_ne in Hj by done. by apply Hla.
Qed.
End agree.
