(* ===== verification/DriverLogic.v ===== *)
(** * Reasoning about driver operations

    The notes of a driver replay as legal runs of its reducer, and a weakest
    precondition over the part of its state that the reducer speaks of. *)

From S2P Require Import Prelude BTree Time Identity Exit Float64 Policy Epochs Readiness DeadlineQueue StopLadder Restart Lifecycle Supervisor.
From S2P Require Import SupervisorLemmas SupervisorInv SupervisorProps Latch Watch Gate Member Snapshot LifecycleHub Scope Plan Effects Dynamic DriverState.
From S2P Require Import Driver DriverEvents DriverLoop DriverPanics Mirror.

Section logic.
Context {M T F B R P Tok D : Type} `{!MailboxControl M T F} `{!Broadcast LifecycleEvent.t B R}.
Context `{!MailboxDriver M F Tok D} `{!MildMailbox M F Tok D} {clock : Clock}.
Context (now_at : nat -> Z) (sample_at : nat -> Z).
Local Abbreviation Op := (@Op M T F B).
Local Abbreviation StoreOp := (@StoreOp M T F B P).
Local Abbreviation ChildRuntime := (ChildRuntime P Tok).
Local Abbreviation ScopeRuntime := (ScopeRuntime P Tok).
Local Abbreviation Driver := (Driver M B P Tok).
Local Abbreviation DriverNote := (DriverNote T F P D).
Local Abbreviation DriverOp := (@DriverOp M T F B P Tok D).

Definition is_active (c : ChildRuntime) : bool := bool_decide (is_Some (ch_active c)).
Definition is_laddered (c : ChildRuntime) : bool :=
  is_some_and (ch_active c) (fun a => bool_decide (is_Some (ac_ladder a))).
Definition shape_of (r : ScopeRuntime) : Shape :=
  mkShape (sr_supervisor r) (sr_effects r) (is_active <$> sr_children r) (is_laddered <$> sr_children r)
    (bool_decide (is_Some (sr_dynamic r))).
Definition shape (d : Driver) : Shape := shape_of (scope d).

(** ** Replay *)

Definition silent (x : DriverNote) : bool :=
  match x with Reduced _ _ | Launched _ => false | _ => true end.

(** The requests are legal and their commands the reducer's; a task is launched
    for a startable member of a scope that does not drain, and the reducer
    hears of exactly the launched tasks. *)
Inductive replays : SupervisorState -> list DriverNote -> SupervisorState -> Prop :=
| replays_done s : replays s [] s
| replays_request s o es s1 n s' :
    (forall k, o ≠ OpStep (Spawned k)) -> legal s o = true -> exec s o = Ret (es, s1) ->
    replays s1 n s' -> replays s (Reduced o es :: n) s'
| replays_launch s l r s1 n s' :
    children s !! ln_key l = Some r -> startable r = true ->
    ScopeLifecycle.is_draining (lifecycle s) = false ->
    exec s (OpStep (Spawned (ln_key l))) = Ret ([], s1) -> replays s1 n s' ->
    replays s (Launched l :: Reduced (OpStep (Spawned (ln_key l))) [] :: n) s'
| replays_other s x n s' : silent x = true -> replays s n s' -> replays s (x :: n) s'.

Lemma replays_app s n s1 n' s' : replays s n s1 -> replays s1 n' s' -> replays s (n ++ n') s'.
Proof. induction 1; intros; simpl; [done|econstructor; eauto..]. Qed.
Lemma replays_silent s n : forallb silent n = true -> replays s n s.
Proof.
  induction n; simpl; [constructor|]. intros [? ?]%andb_true_iff. by constructor; [|apply IHn].
Qed.

(** ** Quiet operations

    They keep the shape, make no request and launch nothing. *)
Definition quiet {A} (m : DriverOp A) : Prop :=
  forall d, match m d with
            | Ret (a, n, d') => shape d' = shape d /\ forallb silent n = true
            | Panics message => unguarded message = true
            | ProcessAborts => True
            end.

Lemma quiet_ret {A} (a : A) : quiet (mret a).
Proof. by intros d. Qed.
Lemma quiet_bind {A C} (m : DriverOp A) (k : A -> DriverOp C) :
  quiet m -> (forall a, quiet (k a)) -> quiet (m ≫= k).
Proof.
  intros Hm Hk d. specialize (Hm d). unfold mbind, tx_bind. destruct (m d) as [[[a n] d1]| |]; [|done..].
  simpl. specialize (Hk a d1). destruct (k a d1) as [[[c n'] d2]| |]; [|done..]. simpl.
  destruct Hm as [Hm ?], Hk as [Hk ?]. split; [congruence|]. rewrite forallb_app. by apply andb_true_iff.
Qed.
Lemma quiet_lift {A} (o : outcome A) : mild o -> quiet (tx_lift o).
Proof. intros Ho d. unfold tx_lift. by destruct o. Qed.
Lemma quiet_get : quiet (tx_get : DriverOp Driver).
Proof. by intros d. Qed.
Lemma quiet_leave n : forallb silent n = true -> quiet (tx_notes n : DriverOp ()).
Proof. by intros Hn d. Qed.
Lemma quiet_each {X} (g : X -> DriverOp ()) l : (forall x, quiet (g x)) -> quiet (tx_each g l).
Proof. intros Hg. induction l; simpl; [apply quiet_ret|by apply quiet_bind]. Qed.
Lemma quiet_shared {A} (m : StoreOp A) : gentle m -> quiet (shared m : DriverOp A).
Proof.
  intros Hm d. specialize (Hm (store d)). unfold shared, tx_zoom.
  destruct (m (store d)) as [[[a n] s]| |]; [|done..]. split; [done|].
  clear Hm. induction n; simpl; auto.
Qed.
Lemma quiet_cell_op {A} (m : Op A) : gentle m -> quiet (cell_op m : DriverOp A).
Proof. intros Hm. by apply quiet_shared, gentle_zoom, gentle_cell. Qed.
Lemma quiet_modify_self g : (forall r, shape_of (g r) = shape_of r) -> quiet (modify_self g : DriverOp ()).
Proof. intros Hg d. by split; [apply Hg|]. Qed.
Lemma quiet_self : quiet (self : DriverOp _).
Proof. by intros d. Qed.
Lemma shape_modify_child k g (r : ScopeRuntime) :
  (forall c, is_active (g c) = is_active c) ->
  shape_of (Runtime.set_children (alter g k (sr_children r)) r) =
  mkShape (sr_supervisor r) (sr_effects r) (is_active <$> sr_children r)
    (is_laddered <$> alter g k (sr_children r)) (bool_decide (is_Some (sr_dynamic r))).
Proof.
  intros Hg. unfold shape_of. simpl. f_equal. apply map_eq. intros j.
  rewrite !lookup_fmap. destruct (decide (j = k)) as [->|Hj]; [|by rewrite lookup_alter_ne].
  rewrite lookup_alter_eq. destruct (sr_children r !! k); simpl; [by rewrite Hg|done].
Qed.
Lemma quiet_modify_child k g :
  (forall c, is_active (g c) = is_active c) -> (forall c, is_laddered (g c) = is_laddered c) ->
  quiet (modify_child k g : DriverOp ()).
Proof.
  intros Hg Hl. apply quiet_modify_self. intros r. rewrite shape_modify_child by done. unfold shape_of. f_equal.
  apply map_eq. intros j. rewrite !lookup_fmap. destruct (decide (j = k)) as [->|Hj]; [|by rewrite lookup_alter_ne].
  rewrite lookup_alter_eq. destruct (sr_children r !! k); simpl; [by rewrite Hl|done].
Qed.
Definition keeps_ladder (g : ActiveChild -> ActiveChild) : Prop :=
  forall a, bool_decide (is_Some (ac_ladder (g a))) = bool_decide (is_Some (ac_ladder a)).
Lemma quiet_modify_active k g : keeps_ladder g -> quiet (modify_active k g : DriverOp ()).
Proof.
  intros Hg. apply quiet_modify_child; intros c.
  - unfold is_active. simpl. by destruct (ch_active c).
  - unfold is_laddered. simpl. destruct (ch_active c); simpl; [apply Hg|done].
Qed.
End logic.

Create HintDb quiet.

(** Walks an operation of quiet parts. *)
Ltac quiet_step :=
  match goal with
  | |- quiet (mret _) => apply quiet_ret
  | |- quiet (mbind _ _) => apply quiet_bind; [|intros]
  | |- quiet (match ?x with _ => _ end) => destruct x
  | |- quiet (tx_lift _) => apply quiet_lift; mild_walk
  | |- quiet (tx_assert _ _) => apply quiet_lift; mild_walk
  | |- quiet tx_get => apply quiet_get
  | |- quiet (tx_notes _) => apply quiet_leave; repeat case_match; done
  | |- quiet (tx_each _ _) => apply quiet_each; intros
  | |- quiet (shared _) => apply quiet_shared; gentle_walk
  | |- quiet (cell_op _) => apply quiet_cell_op; gentle_walk
  | |- quiet self => apply quiet_self
  | |- quiet (modify_active _ _) => apply quiet_modify_active; intros ?; simpl; first [done|by destruct (ac_ladder _)]
  | |- quiet (modify_child _ _) => apply quiet_modify_child; done
  | |- quiet (modify_self _) => apply quiet_modify_self; done
  end.
Ltac quiet_walk :=
  repeat first [quiet_step | solve [eauto 2 with quiet nocore]
               | match goal with |- quiet ?m => unfold_head m end].

Section quiet.
Context {M T F B R P Tok D : Type} `{!MailboxControl M T F} `{!Broadcast LifecycleEvent.t B R}.
Context `{!MailboxDriver M F Tok D} `{!MildMailbox M F Tok D} {clock : Clock}.
Context (now_at : nat -> Z) (sample_at : nat -> Z).
Local Abbreviation DriverOp := (@DriverOp M T F B P Tok D).

Lemma quiet_now : quiet (now now_at : DriverOp _).
Proof. by intros d. Qed.
Lemma quiet_sample : quiet (sample sample_at : DriverOp _).
Proof. by intros d. Qed.
Lemma quiet_member_of i : quiet (member_of i : DriverOp _).
Proof. quiet_walk. Qed.
Lemma quiet_slot_scope i : quiet (slot_scope i : DriverOp _).
Proof. quiet_walk. Qed.
Lemma quiet_find_child k : quiet (find_child k : DriverOp _).
Proof. quiet_walk. Qed.
Lemma quiet_live_child k i : quiet (live_child k i : DriverOp _).
Proof. quiet_walk. Qed.
Lemma quiet_cancel_deadline h : quiet (cancel_deadline h : DriverOp _).
Proof. quiet_walk. Qed.
Lemma quiet_push_deadline t k : quiet (push_deadline t k : DriverOp _).
Proof. quiet_walk. Qed.
Lemma quiet_mailbox_call {A} h (g : M -> outcome (A * list F * M)) :
  (forall m, mild (g m)) -> quiet (mailbox_call h g : DriverOp A).
Proof. intros Hg. quiet_walk. Qed.
Hint Resolve quiet_now quiet_sample quiet_member_of quiet_slot_scope quiet_find_child quiet_live_child
  quiet_cancel_deadline quiet_push_deadline : quiet.
Lemma quiet_mailbox_freeze h i : quiet (mailbox_freeze h i : DriverOp _).
Proof. destruct h; simpl; [apply quiet_mailbox_call; intros; exact I|quiet_walk]. Qed.
Lemma quiet_mailbox_close h i : quiet (mailbox_close h i : DriverOp _).
Proof.
  destruct h; simpl; [|quiet_walk]. apply quiet_bind; [apply quiet_mailbox_call; intros; exact I|].
  intros. quiet_walk.
Qed.
Lemma quiet_mailbox_teardown h i : quiet (mailbox_teardown h i : DriverOp _).
Proof.
  destruct h; simpl; [|quiet_walk]. apply quiet_bind; [|intros; quiet_walk].
  apply quiet_mailbox_call. intros m. destruct (mb_freeze i m) as [[? ?] m'].
  by destruct (mb_close i m') as [[? ?] ?].
Qed.
Hint Resolve quiet_mailbox_freeze quiet_mailbox_close quiet_mailbox_teardown : quiet.
Lemma quiet_fire l : quiet (fire l : DriverOp _).
Proof. quiet_walk. Qed.
Lemma quiet_fire_shutdown_edges l f : quiet (fire_shutdown_edges l f : DriverOp _).
Proof. quiet_walk. Qed.
Lemma quiet_spawn_latches b : quiet (spawn_latches b : DriverOp _).
Proof. quiet_walk. Qed.
Hint Resolve quiet_fire quiet_fire_shutdown_edges quiet_spawn_latches : quiet.
Lemma quiet_discharge_terminality c : quiet (discharge_terminality c : DriverOp _).
Proof. quiet_walk. Qed.
Hint Resolve quiet_discharge_terminality : quiet.
Lemma quiet_drop_child c : quiet (drop_child c : DriverOp _).
Proof. quiet_walk. Qed.
Lemma quiet_from_plan p : quiet (from_plan p : DriverOp _).
Proof.
  pose proof mild_configure. pose proof @quiet_mailbox_call. quiet_walk.
Qed.
Lemma quiet_terminalized k c e i s : quiet (terminalize k c e i s : DriverOp _).
Proof. quiet_walk. Qed.
Lemma quiet_terminal_startup_disposition k : quiet (terminal_startup_disposition k : DriverOp _).
Proof. quiet_walk. Qed.
Lemma quiet_removal_latched k : quiet (removal_latched k : DriverOp _).
Proof. quiet_walk. Qed.
Lemma quiet_release_removed_entry e : quiet (release_removed_entry e : DriverOp _).
Proof. quiet_walk. Qed.
Lemma quiet_publish_startup_removals : quiet (publish_startup_removals : DriverOp _).
Proof. quiet_walk. Qed.
Hint Resolve quiet_drop_child quiet_from_plan quiet_terminalized quiet_terminal_startup_disposition
  quiet_removal_latched quiet_release_removed_entry quiet_publish_startup_removals : quiet.
Lemma quiet_restarts_a_stopped_incarnation k : quiet (restarts_a_stopped_incarnation k : DriverOp _).
Proof. quiet_walk. Qed.
Lemma quiet_construction_is_suppressed k : quiet (construction_is_suppressed k : DriverOp _).
Proof. quiet_walk. Qed.
Lemma quiet_perform_action k a x : quiet (perform_action k a x : DriverOp _).
Proof. quiet_walk. Qed.
Hint Resolve quiet_restarts_a_stopped_incarnation quiet_construction_is_suppressed
  quiet_perform_action : quiet.
Lemma quiet_advance_ladder k t : quiet (advance_ladder k t : DriverOp _).
Proof. quiet_walk. Qed.
Lemma quiet_publish_startup_complete s : quiet (publish_startup_complete s : DriverOp _).
Proof. quiet_walk. Qed.
Lemma quiet_drain_entry_terminal_disposals r l : quiet (drain_entry_terminal_disposals r l : DriverOp _).
Proof.
  assert (forall ks, quiet (members_of r ks : DriverOp (list nat))) by (induction ks; simpl; quiet_walk).
  quiet_walk.
Qed.
Hint Resolve quiet_advance_ladder quiet_publish_startup_complete
  quiet_drain_entry_terminal_disposals : quiet.
Lemma quiet_reject_reserved_admission q c x : quiet (reject_reserved_admission q c x : DriverOp _).
Proof. quiet_walk. Qed.
Lemma quiet_collect n : quiet (collect now_at n : DriverOp _).
Proof.
  assert (forall K (q : DeadlineQueue K) t fuel, mild (pop_all fuel q t)).
  { intros K q t fuel. revert q. induction fuel; intros q; simpl; [done|mild_walk]. }
  assert (forall lane n, gentle (collect_driver_events lane n : @StoreOp M T F B P _)).
  { intros lane n'. induction n'; simpl; gentle_walk. }
  quiet_walk.
Qed.
Lemma quiet_take_completion : quiet (take_completion : DriverOp _).
Proof. quiet_walk. Qed.
Lemma quiet_wake w : quiet (wake w : DriverOp _).
Proof. quiet_walk. Qed.
Lemma quiet_publish_initial_children : quiet (publish_initial_children : DriverOp _).
Proof.
  assert (forall l, quiet (resident_projections_of l : DriverOp _)) by (induction l; simpl; quiet_walk).
  quiet_walk.
Qed.
End quiet.

#[export] Hint Resolve quiet_now quiet_sample quiet_member_of quiet_slot_scope quiet_find_child
  quiet_live_child quiet_cancel_deadline quiet_push_deadline quiet_mailbox_freeze quiet_mailbox_close
  quiet_mailbox_teardown quiet_fire quiet_fire_shutdown_edges quiet_spawn_latches
  quiet_discharge_terminality quiet_drop_child quiet_from_plan quiet_terminalized
  quiet_terminal_startup_disposition quiet_removal_latched quiet_release_removed_entry
  quiet_publish_startup_removals quiet_restarts_a_stopped_incarnation
  quiet_construction_is_suppressed quiet_perform_action quiet_advance_ladder
  quiet_publish_startup_complete quiet_drain_entry_terminal_disposals
  quiet_reject_reserved_admission quiet_collect quiet_take_completion quiet_wake
  quiet_publish_initial_children : quiet.

(** ** A weakest precondition for driver operations

    [wp m Q sh]: from a state of shape [sh], [m] replays on the reducer and ends
    in a shape where [Q] holds, unless it panics with a message that is not one
    of the driver's structural assertions. *)

Section wp.
Context {M T F B R P Tok D : Type} `{!MailboxControl M T F} `{!Broadcast LifecycleEvent.t B R}.
Context `{!MailboxDriver M F Tok D} `{!MildMailbox M F Tok D} {clock : Clock}.
Local Abbreviation ChildRuntime := (ChildRuntime P Tok).
Local Abbreviation ScopeRuntime := (ScopeRuntime P Tok).
Local Abbreviation DriverOp := (@DriverOp M T F B P Tok D).

Definition wp {A} (m : DriverOp A) (Q : A -> Shape -> Prop) (sh : Shape) : Prop :=
  forall d, shape d = sh ->
  match m d with
  | Ret (a, n, d') => replays (sh_sup sh) n (sh_sup (shape d')) /\ Q a (shape d')
  | Panics message => unguarded message = true
  | ProcessAborts => True
  end.

Lemma wp_ret {A} (a : A) Q sh : Q a sh -> wp (mret a) Q sh.
Proof. intros HQ d <-. split; [constructor|done]. Qed.

Lemma wp_bind {A C} (m : DriverOp A) (k : A -> DriverOp C) Q sh :
  wp m (fun a => wp (k a) Q) sh -> wp (m ≫= k) Q sh.
Proof.
  intros Hm d Hd. specialize (Hm d Hd). unfold mbind, tx_bind. destruct (m d) as [[[a n] d1]| |]; [|done..].
  simpl. destruct Hm as [Hn Hk]. specialize (Hk d1 eq_refl). destruct (k a d1) as [[[c n'] d2]| |]; [|done..].
  simpl. destruct Hk. split; [by eapply replays_app|done].
Qed.

Lemma wp_mono {A} (m : DriverOp A) Q Q' sh :
  wp m Q sh -> (forall a sh', Q a sh' -> Q' a sh') -> wp m Q' sh.
Proof. intros Hm HQ d Hd. specialize (Hm d Hd). destruct (m d) as [[[a n] d1]| |]; [|done..]. naive_solver. Qed.

Lemma wp_quiet {A} (m : DriverOp A) Q sh : quiet m -> (forall a, Q a sh) -> wp m Q sh.
Proof.
  intros Hm HQ d <-. specialize (Hm d). destruct (m d) as [[[a n] d1]| |]; [|done..].
  destruct Hm as [Hs Hn]. rewrite Hs. split; [by apply replays_silent|done].
Qed.

(** ** Reads *)

Lemma wp_self Q sh : (forall r, shape_of r = sh -> Q r sh) -> wp (self : DriverOp _) Q sh.
Proof. intros HQ d <-. split; [constructor|]. by apply HQ. Qed.
Lemma wp_supervised Q sh : Q (sh_sup sh) sh -> wp (supervised : DriverOp _) Q sh.
Proof. intros HQ d <-. by split; [constructor|]. Qed.
Lemma wp_find_child k Q sh :
  (forall c : option ChildRuntime, is_active <$> c = sh_act sh !! k -> Q c sh) -> wp (find_child k : DriverOp _) Q sh.
Proof. intros HQ d <-. split; [constructor|]. apply HQ. by rewrite <- lookup_fmap. Qed.

Lemma wp_lift {A} (o : outcome A) Q sh :
  mild o -> (forall a, o = Ret a -> Q a sh) -> wp (tx_lift o : DriverOp A) Q sh.
Proof. intros Ho HQ d <-. destruct o; [|done..]. split; [constructor|]. by apply HQ. Qed.
Lemma wp_assert (b : bool) message Q sh :
  b = true \/ unguarded message = true -> (b = true -> Q () sh) -> wp (tx_assert b message : DriverOp _) Q sh.
Proof.
  intros Hb HQ d <-. destruct b; simpl; [split; [constructor|by apply HQ]|by destruct Hb].
Qed.
Lemma wp_get_child k message Q sh :
  is_Some (sh_act sh !! k) -> (forall c : ChildRuntime, sh_act sh !! k = Some (is_active c) -> Q c sh) ->
  wp (get_child k message : DriverOp _) Q sh.
Proof.
  intros Hk HQ. apply wp_bind, wp_find_child. intros [c|] Hc; rewrite <- Hc in *; [|by destruct Hk].
  apply wp_lift; [done|]. intros a [= <-]. by apply HQ.
Qed.
Lemma wp_active_of k Q sh :
  (forall a, (is_Some a -> sh_act sh !! k = Some true) -> Q a sh) -> wp (active_of k : DriverOp _) Q sh.
Proof.
  intros HQ. apply wp_bind, wp_find_child. intros c Hc. apply wp_ret, HQ. rewrite <- Hc.
  destruct c as [c|]; simpl; [|by intros [? ?]]. intros Ha. do 2 f_equal. unfold is_active. by apply bool_decide_eq_true.
Qed.
Lemma wp_live_child k i Q sh :
  (forall a, (is_Some a -> sh_act sh !! k = Some true) -> Q a sh) -> wp (live_child k i : DriverOp _) Q sh.
Proof.
  intros HQ. apply wp_bind, wp_active_of. intros a Ha. apply wp_ret, HQ. destruct a as [a|]; [|done].
  intros _. apply Ha. eauto.
Qed.

(** ** Writes *)

Lemma wp_reduced {A} o (m : SupervisorState -> outcome (A * list Effect * SupervisorState)) Q sh :
  (forall k, o ≠ OpStep (Spawned k)) -> mild (m (sh_sup sh)) ->
  (forall a es s', m (sh_sup sh) = Ret (a, es, s') ->
     exec (sh_sup sh) o = Ret (es, s') /\ legal (sh_sup sh) o = true /\ Q a (requested es s' sh)) ->
  wp (reduced o m : DriverOp A) Q sh.
Proof.
  intros Ho Hm HQ d Hd. unfold reduced, self, mbind, tx_bind, tx_get, tx_lift. simpl.
  change (sr_supervisor (scope d)) with (sh_sup (shape d)). rewrite Hd.
  destruct (m (sh_sup sh)) as [[[a es] s']| |]; [|done..]. simpl.
  destruct (HQ a es s' eq_refl) as (He & Hl & HQ'). split.
  - eapply replays_request; [done..|constructor].
  - rewrite <- Hd in HQ'. exact HQ'.
Qed.

Lemma wp_reduce e Q sh :
  (forall k, e ≠ Spawned k) -> Q () (stepped e sh) -> wp (reduce e : DriverOp ()) Q sh.
Proof.
  intros He HQ. apply wp_reduced.
  - intros k [= ->]. by apply (He k).
  - by destruct (step (sh_sup sh) e).
  - intros a es s' Hs. rewrite exec_step. unfold stepped in HQ.
    destruct (step (sh_sup sh) e) as [es' s'']. by injection Hs as <- <- <-.
Qed.

Definition unladdered (a : option ActiveChild) : Prop := forall x, a = Some x -> ac_ladder x = None.
Lemma shape_set_active k (a : option ActiveChild) (r : ScopeRuntime) :
  unladdered a ->
  shape_of (Runtime.set_children (alter (set_active a) k (sr_children r)) r) =
  with_active k (bool_decide (is_Some a)) (shape_of r).
Proof.
  intros Ha. unfold shape_of, with_active. simpl. f_equal; apply map_eq; intros j; rewrite lookup_fmap;
    (destruct (decide (j = k)) as [->|Hj]; [rewrite !lookup_alter_eq, lookup_fmap|by rewrite !lookup_alter_ne, lookup_fmap]);
    destruct (sr_children r !! k); simpl; try done.
  f_equal. unfold is_laddered. simpl. destruct a as [x|]; simpl; [|done]. by rewrite (Ha x).
Qed.
Lemma wp_set_active k a Q sh :
  unladdered a ->
  Q () (with_active k (bool_decide (is_Some a)) sh) -> wp (modify_child k (set_active a) : DriverOp ()) Q sh.
Proof.
  intros Ha HQ d <-. split; [constructor|]. unfold shape. simpl. by rewrite shape_set_active.
Qed.

(** A running child gets a ladder. *)
Lemma wp_set_ladder k g Q sh :
  (forall a, bool_decide (is_Some (ac_ladder (g a))) = true) -> sh_act sh !! k = Some true ->
  Q () (with_ladder k sh) -> wp (modify_active k g : DriverOp ()) Q sh.
Proof.
  intros Hg Hk HQ d <-. split; [constructor|].
  assert (E : shape (set_scope (Runtime.set_children (alter (fun c => set_active (g <$> ch_active c) c) k (sr_children (scope d))) (scope d)) d)
    = with_ladder k (shape d)); [|unfold modify_active, modify_child; by rewrite <- E in HQ].
  unfold shape. cbn [set_scope scope]. rewrite shape_modify_child.
  - unfold with_ladder, shape_of. simpl. f_equal. apply map_eq. intros j. rewrite lookup_fmap.
    destruct (decide (j = k)) as [->|Hj]; [rewrite !lookup_alter_eq, lookup_fmap|by rewrite !lookup_alter_ne, lookup_fmap].
    unfold shape in Hk. simpl in Hk. rewrite lookup_fmap in Hk. destruct (sr_children (scope d) !! k) as [c|]; [|done].
    simpl in *. f_equal. unfold is_laddered, is_active in *. simpl. injection Hk as Hk. destruct (ch_active c); [apply Hg|done].
  - intros c. unfold is_active. simpl. by destruct (ch_active c).
Qed.

Lemma wp_start_task launch active r Q sh :
  children (sh_sup sh) !! ln_key launch = Some r -> startable r = true ->
  ScopeLifecycle.is_draining (lifecycle (sh_sup sh)) = false ->
  (step (sh_sup sh) (Spawned (ln_key launch))).1 = [] -> ac_ladder active = None ->
  Q () (stepped (Spawned (ln_key launch)) (with_active (ln_key launch) true sh)) ->
  wp (start_task launch active : DriverOp ()) Q sh.
Proof.
  intros Hr Hs Hd He Hla HQ d <-. unfold stepped, requested in HQ. unfold shape in *.
  cbn [sh_sup shape_of with_active] in *. unfold start_task, reduce, reduced, modify_child, modify_self, self.
  unfold mbind, tx_bind, tx_get, tx_lift, tx_notes, tx_modify.
  cbn [mret tx_ret outcome_ret mbind outcome_bind scope set_scope Runtime.set_children sr_supervisor].
  destruct (step (sr_supervisor (scope d)) (Spawned (ln_key launch))) as [es s'] eqn:E.
  cbn [fst snd] in *. subst es. split.
  - eapply replays_launch; [done..| |constructor]. unfold exec. by rewrite E.
  - change true with (bool_decide (is_Some (Some active))) in HQ.
    rewrite <- shape_set_active in HQ; [exact HQ|]. by intros x [= <-].
Qed.

(** ** Loops *)

Lemma wp_each {X} (g : X -> DriverOp ()) l (I : list X -> Shape -> Prop) sh :
  I l sh -> (forall x l sh, I (x :: l) sh -> wp (g x) (fun _ => I l) sh) ->
  wp (tx_each g l) (fun _ => I []) sh.
Proof.
  intros Hl Hg. revert sh Hl. induction l as [|x l IH]; intros sh Hl; simpl; [by apply wp_ret|].
  apply wp_bind. eapply wp_mono; [by apply Hg|]. intros [] sh' HI. by apply IH.
Qed.
End wp.
