(* ===== verification/DriverRefine.v ===== *)
(** * The driver keeps its reducer's side of the contract

    Every operation of the driver preserves its agreement with the reducer. *)

From S2P Require Import Prelude BTree Time Identity Exit Float64 Policy Epochs Readiness DeadlineQueue StopLadder Restart Lifecycle Supervisor.
From S2P Require Import SupervisorLemmas SupervisorInv SupervisorProps Latch Watch Gate Member Snapshot LifecycleHub Scope Plan Effects Dynamic DriverState.
From S2P Require Import Driver DriverEvents DriverLoop DriverPanics Mirror DriverLogic.

(** One step through an operation. *)
Ltac wp_quiet_step := apply wp_quiet; [solve [quiet_walk]|intros].
Ltac wp_step :=
  lazymatch goal with
  | |- wp (mret _) _ _ => apply wp_ret
  | |- wp (mbind _ _) _ _ => apply wp_bind
  | |- wp self _ _ => apply wp_self; intros
  | |- wp supervised _ _ => apply wp_supervised
  | |- wp (find_child _) _ _ => apply wp_find_child; intros
  | |- wp (active_of _) _ _ => apply wp_active_of; intros
  | |- wp (live_child _ _) _ _ => apply wp_live_child; intros
  | |- wp (reduce _) _ _ => apply wp_reduce; [done|]
  | |- wp (tx_assert _ _) _ _ => apply wp_assert; [right; reflexivity|intros]
  | |- wp (match ?x with _ => _ end) _ _ => destruct x eqn:?
  | |- _ => wp_quiet_step
  end.
Ltac good_done := repeat (apply good_neutral; [reflexivity|]); done.
Ltac wp_walk := repeat (cbv beta zeta; wp_step).

Section refine.
Context {M T F B R P Tok D : Type} `{!MailboxControl M T F} `{!Broadcast LifecycleEvent.t B R}.
Context `{!MailboxDriver M F Tok D} `{!MildMailbox M F Tok D} {clock : Clock}.
Context (now_at : nat -> Z) (sample_at : nat -> Z) (powi : f64 -> Z -> f64).
Local Abbreviation DriverOp := (@DriverOp M T F B P Tok D).

(** [m] preserves the agreement, whatever its caller still has to perform. *)
Definition keeps {A} (m : DriverOp A) : Prop :=
  forall E sh, good None E sh -> wp m (fun _ => good None E) sh.

Definition admissible (c : Call) (sh : Shape) : Prop :=
  match c with Dispose k _ _ _ => sh_act sh !! k ≠ Some true | _ => True end.

Definition contract (call : Call -> DriverOp ()) : Prop :=
  forall c E sh, good None E sh -> admissible c sh -> wp (call c) (fun _ => good None E) sh.

Lemma keeps_quiet {A} (m : DriverOp A) : quiet m -> keeps m.
Proof. intros Hm E sh Hg. by apply wp_quiet. Qed.

(** A disposal of a member ends it. *)
Definition finishes (call : Call -> DriverOp ()) : Prop :=
  forall k e i st E sh, good None E sh -> sh_act sh !! k ≠ Some true -> is_Some (children (sh_sup sh) !! k) ->
  wp (call (Dispose k e i st)) (fun _ sh' => ended (sh_sup sh') k) sh.

(** What has begun to end stays so. *)
Lemma replays_ended s (n : list (DriverNote T F P D)) s' k : replays s n s' -> ended s k -> ended s' k.
Proof. induction 1; eauto using ended_exec. Qed.
Lemma wp_ended {A} (m : DriverOp A) Q sh k :
  ended (sh_sup sh) k -> wp m Q sh -> wp m (fun a sh' => Q a sh' /\ ended (sh_sup sh') k) sh.
Proof.
  intros He Hm d Hd. specialize (Hm d Hd). destruct (m d) as [[[a n] d']| |]; [|done..]. destruct Hm as [Hr HQ].
  split_and!; [done|done|]. by eapply replays_ended.
Qed.
Lemma wp_and {A} (m : DriverOp A) Q Q' sh :
  wp m Q sh -> wp m Q' sh -> wp m (fun a sh' => Q a sh' /\ Q' a sh') sh.
Proof.
  intros H H' d Hd. specialize (H d Hd). specialize (H' d Hd). destruct (m d) as [[[a n] d']| |]; [|done..]. naive_solver.
Qed.
Lemma ended_performed s k : ended s k -> performed (StopChild k) s.
Proof.
  intros [_ He] r Hr. specialize (He r Hr). unfold ended_record, stopping_record in *. by destruct (incarnation_of r).
Qed.
Lemma disposing_ended s k : inv s -> is_disposing s k || joined s k = true -> ended s k.
Proof.
  intros Hi Hb. destruct (children s !! k) as [r|] eqn:Hr.
  2:{ unfold is_disposing, joined, Supervisor.child_state in Hb. by rewrite Hr in Hb. }
  split; [apply (inv_keys s Hi); eauto|]. intros q Hq. rewrite Hr in Hq. injection Hq as <-.
  rewrite (is_disposing_record _ _ _ Hr), (joined_record _ _ _ Hr) in Hb. unfold ended_record.
  apply orb_true_iff in Hb as [Hb%bool_decide_eq_true|Hb%bool_decide_eq_true]; by rewrite Hb.
Qed.

(** ** What needs no recursion *)

Lemma keeps_reduce e : neutral e = true -> keeps (reduce e : DriverOp ()).
Proof. intros Hn E sh Hg. apply wp_reduce; [by intros k ->|]. by apply good_neutral. Qed.

Lemma publish_terminal_wp k e i s Q sh :
  is_Some (sh_act sh !! k) -> (forall b, Q b sh) -> wp (publish_terminal k e i s : DriverOp bool) Q sh.
Proof.
  intros Hk HQ. apply wp_bind, wp_get_child; [done|]. intros c _. wp_walk. apply HQ.
Qed.

(** The release edge of a disposing member. *)
Lemma join_terminal_wp k Q sh :
  is_disposing (sh_sup sh) k = true -> Q () (stepped (Terminalized k) sh) ->
  wp (join_terminal k : DriverOp ()) Q sh.
Proof.
  intros Hd HQ. apply wp_bind, wp_reduce; [done|]. apply wp_bind, wp_supervised.
  apply wp_assert; [|done]. left. by apply terminalized_joins.
Qed.

Lemma shape_delete k (r : ScopeRuntime P Tok) :
  shape_of (Runtime.set_children (delete k (sr_children r)) r) =
  mkShape (sr_supervisor r) (sr_effects r) (delete k (is_active <$> sr_children r))
    (delete k (is_laddered <$> sr_children r)) (bool_decide (is_Some (sr_dynamic r))).
Proof. unfold shape_of. simpl. by rewrite !fmap_delete. Qed.

Lemma wp_delete_child k Q sh :
  Q () (mkShape (sh_sup sh) (sh_effects sh) (delete k (sh_act sh)) (delete k (sh_lad sh)) (sh_dynamic sh)) ->
  wp (modify_self (fun r => Runtime.set_children (delete k (sr_children r)) r) : DriverOp ()) Q sh.
Proof. intros HQ d <-. split; [constructor|]. unfold shape. simpl. by rewrite shape_delete. Qed.

(** A joined member whose finalization is not pending is reclaimed. *)
Lemma reclaim_child_wp k E sh :
  good None E sh -> joined (sh_sup sh) k = true ->
  count (is_finalize k) (E ++ sh_effects sh) = 0%nat ->
  wp (reclaim_child k : DriverOp ()) (fun _ => good None E) sh.
Proof.
  intros Hg Hj Hc. apply wp_bind, wp_find_child. intros [c|] Ha; [|by apply wp_ret].
  apply wp_bind, wp_supervised. apply wp_bind, wp_assert; [by left|]. intros _.
  apply wp_bind, wp_delete_child. wp_walk; by apply good_reclaimed.
Qed.

(** A member the reducer owes a finalization is registered and joined. *)
Lemma owed_final_joined x k E sh :
  good x E sh -> (0 < count (is_finalize k) (E ++ sh_effects sh))%nat ->
  is_Some (sh_act sh !! k) /\ joined (sh_sup sh) k = true /\
  count (is_finalize k) (E ++ sh_effects sh) = 1%nat.
Proof.
  intros Hg Hc. pose proof (good_finals _ _ _ Hg k) as Hf. unfold owed_final in Hf.
  destruct (children (sh_sup sh) !! k) as [r|] eqn:Hr; simpl in Hf; [|lia].
  destruct (removed_joined r) eqn:Hj; simpl in Hf; [|lia]. split_and!; [|..|lia].
  - destruct (good_record _ _ _ _ _ Hg Hr) as [-> _]. eauto.
  - rewrite (joined_record _ _ _ Hr), bool_decide_eq_true. unfold removed_joined in Hj.
    unfold incarnation_of. by destruct (child_state_of r) as [[]|[]|[]].
Qed.

Lemma finalize_removal_wp k E sh :
  good None (FinalizeRemoval k :: E) sh ->
  wp (finalize_removal k : DriverOp ()) (fun _ => good None E) sh.
Proof.
  intros Hg. pose proof (good_drop _ _ _ _ Hg I) as Hg'.
  destruct (owed_final_joined None k (FinalizeRemoval k :: E) sh Hg) as (Hk & Hj & H1).
  { unfold count. simpl. rewrite Z.eqb_refl. simpl. lia. }
  assert (count (is_finalize k) (E ++ sh_effects sh) = 0%nat).
  { revert H1. unfold count. simpl. rewrite Z.eqb_refl. simpl. lia. }
  apply wp_bind, wp_self. intros r Hr. destruct (sr_dynamic r) as [c|]; [|by apply wp_ret].
  apply wp_bind, wp_get_child; [done|]. intros ch _. wp_step. wp_step. destruct a as [m mc].
  wp_step. wp_step. destruct a as [e|]; [|by apply wp_ret].
  apply wp_bind. eapply wp_mono; [by apply reclaim_child_wp|]. intros [] sh' Hs. by wp_step.
Qed.

(** A joined member that no removal claimed is withdrawn. *)
Lemma prune_terminal_wp k E sh :
  good None E sh -> joined (sh_sup sh) k = true ->
  Supervisor.membership_status (sh_sup sh) k ≠ Restart.Removing -> is_Some (sh_act sh !! k) ->
  wp (prune_terminal k : DriverOp ()) (fun _ => good None E) sh.
Proof.
  intros Hg Hj Hm Hk. assert (Hc : count (is_finalize k) (E ++ sh_effects sh) = 0%nat).
  { pose proof (good_finals _ _ _ Hg k) as Hf. unfold owed_final in Hf.
    unfold Supervisor.membership_status, Supervisor.child_state in Hm.
    destruct (children (sh_sup sh) !! k) as [r|]; [|done]. simpl in *. unfold removed_joined in Hf.
    destruct (child_state_of r); simpl in *; [lia|done..]. }
  apply wp_bind, wp_self. intros r _. apply wp_bind, wp_get_child; [done|]. intros ch _.
  wp_step. wp_step. destruct a as [m mc]. wp_step. wp_step. wp_step. wp_step. cbv beta.
  apply wp_bind. eapply (wp_mono _ (fun _ => good None E)).
  { case_decide; [by apply reclaim_child_wp|by apply wp_ret]. }
  intros [] sh' Hs. by wp_walk.
Qed.

(** ** Methods that recurse *)

Section open.
Context (call : Call -> DriverOp ()) (Hcall : contract call) (Hends : finishes call).

Lemma terminate_inactive_wp k st E sh :
  good None E sh -> sh_act sh !! k ≠ Some true ->
  wp (terminate_inactive call k st) (fun _ => good None E) sh.
Proof.
  intros Hg Ha. apply wp_bind, wp_find_child. intros [c|] _; [|by apply wp_ret]. wp_walk.
  by apply Hcall.
Qed.

Lemma terminate_inactive_ends k st E sh :
  good None E sh -> sh_act sh !! k ≠ Some true -> is_Some (children (sh_sup sh) !! k) -> is_Some (sh_act sh !! k) ->
  wp (terminate_inactive call k st) (fun _ sh' => ended (sh_sup sh') k) sh.
Proof.
  intros Hg Ha Hr Hk. apply wp_bind, wp_find_child. intros [c|] Hc; [|rewrite <- Hc in Hk; by destruct Hk]. wp_walk.
  by eapply Hends.
Qed.

(** A stop command leaves its member stopping, ended or gone. *)
Lemma begin_stop_child_wp k f E sh :
  good None E sh ->
  wp (begin_stop_child now_at call k f) (fun _ sh' => good None E sh' /\ performed (StopChild k) (sh_sup sh')) sh.
Proof.
  intros Hg. apply wp_bind, wp_self. intros r <-. destruct (sr_children r !! k) as [c|] eqn:Hc.
  2:{ apply wp_ret. split; [done|]. intros q Hq. destruct (good_record _ _ _ _ _ Hg Hq) as [Ha _].
    simpl in Ha. by rewrite lookup_fmap, Hc in Ha. }
  assert (Hact : sh_act (shape_of r) !! k = Some (is_active c)) by (simpl; by rewrite lookup_fmap, Hc).
  destruct (good_registered _ _ _ _ _ Hg Hact) as (q & Hq & Hb & _).
  destruct (_ || _) eqn:Hor.
  { apply wp_ret. split; [done|]. apply ended_performed, disposing_ended; [apply Hg|]. by rewrite orb_comm. }
  destruct (ch_active c) as [a|] eqn:Ha.
  2:{ assert (is_active c = false) as Hna by (unfold is_active; by rewrite Ha). rewrite Hna in Hact.
    apply wp_and; [apply terminate_inactive_wp; [done|congruence]|].
    eapply wp_mono; [eapply terminate_inactive_ends; [done|congruence|eauto|rewrite Hact; eauto]|].
    intros u sh' He. by apply ended_performed. }
  assert (is_active c = true) as Hia by (unfold is_active; by rewrite Ha). rewrite Hia in *.
  destruct (ac_ladder a) as [l|] eqn:Hl.
  { apply wp_assert; [right; reflexivity|]. intros _. split; [done|]. intros q' Hq'.
    destruct (good_ladders _ _ _ Hg k) as (_ & r2 & Hr2 & Hs2).
    { simpl. rewrite lookup_fmap, Hc. simpl. unfold is_laddered. rewrite Ha. simpl. by rewrite Hl. }
    assert (q' = r2) as -> by congruence. unfold stopping_record. by rewrite Hs2. }
  apply wp_bind, wp_reduce; [done|]. destruct (stop_started_stops (shape_of r) k q Hq ltac:(done)) as (q' & Hq' & Hs').
  apply (good_neutral _ _ _ (StopStarted k)) in Hg; [|done]. set (sh := stepped _ _) in *.
  assert (Hp : performed (StopChild k) (sh_sup sh)).
  { intros r2 Hr2. change (children (sh_sup sh) !! k = Some q') in Hq'. assert (r2 = q') as -> by congruence.
    unfold stopping_record. by rewrite Hs'. }
  wp_walk. all: apply wp_set_ladder; [done|exact Hact|]. all: wp_walk; (split; [by eapply good_laddered|exact Hp]).
Qed.

Lemma keeps_begin_stop_child k f : keeps (begin_stop_child now_at call k f).
Proof. intros E sh Hg. eapply wp_mono; [by apply begin_stop_child_wp|]. by intros _ sh' [? _].
Qed.

Lemma keeps_apply_readiness_effect k i e : keeps (apply_readiness_effect now_at call k i e).
Proof.
  intros E sh Hg. destruct e; simpl; try (wp_walk; good_done).
  apply wp_bind. eapply wp_mono; [by apply keeps_begin_stop_child|]. intros. by wp_walk.
Qed.

(** *** Drains *)

Lemma begin_drain_pending s reason b st es s' :
  Supervisor.begin_drain s reason = Ret (Some (b, st), es, s') ->
  b = ScopeLifecycle.is_starting (lifecycle s).
Proof.
  unfold Supervisor.begin_drain, ScopeLifecycle.begin_drain, assert_that.
  destruct (ScopeLifecycle.is_never_started reason); [done|]. simpl.
  destruct (lifecycle s); simpl; try by destruct (flavor s); intros [= <- _ _ _].
  by destruct (precedence_gtb _ _).
Qed.

Lemma keeps_begin_drain_transition reason st :
  reason ≠ StopReason.NeverStarted ->
  forall E sh, good None E sh ->
  (st = None -> ScopeLifecycle.is_starting (lifecycle (sh_sup sh)) = false) ->
  wp (begin_drain_transition call reason st) (fun _ => good None E) sh.
Proof.
  intros Hn E sh Hg Hst. assert (Hl : legal (sh_sup sh) (OpBeginDrain reason) = true) by (by destruct reason).
  apply wp_bind, wp_self. intros r _. apply wp_bind, wp_reduced.
  - done.
  - destruct (begin_drain_ok (sh_sup sh) reason Hn) as (x & es & s' & ->). done.
  - intros x es s' Hx. assert (He : exec (sh_sup sh) (OpBeginDrain reason) = Ret (es, s')) by (simpl; by rewrite Hx).
    split_and!; [done..|].
    assert (Hg' : good None E (requested es s' sh)).
    { eapply good_phase; [done|done|done| |done]. by apply begin_drain_frame in Hx as (? & _). }
    destruct x as [[b state]|]; [|by apply wp_ret]. apply begin_drain_pending in Hx. subst b.
    apply wp_bind, wp_assert.
    { left. destruct st; [done|]. simpl. by rewrite Hst. }
    intros _. apply wp_bind, wp_reduce; [done|]. apply (good_neutral _ _ _ Settle) in Hg'; [|done].
    apply wp_bind, wp_self. intros r' _. do 4 wp_step. apply wp_bind.
    eapply wp_mono; [by apply (Hcall Flush)|]. intros [] sh' Hs. by apply (Hcall SettleAll).
Qed.

Lemma keeps_begin_drain reason : reason ≠ StopReason.NeverStarted -> keeps (begin_drain call reason).
Proof.
  intros Hn E sh Hg. apply wp_bind, wp_supervised. apply keeps_begin_drain_transition; [done..|].
  by destruct (ScopeLifecycle.is_starting _).
Qed.
Lemma keeps_begin_drain_with_startup reason st :
  reason ≠ StopReason.NeverStarted -> keeps (begin_drain_with_startup call reason st).
Proof. intros Hn E sh Hg. by apply keeps_begin_drain_transition. Qed.

(** *** Terminal disposal *)

Lemma keeps_handle_construction_disposed k : keeps (handle_construction_disposed call k).
Proof.
  intros E sh Hg. apply wp_bind, wp_self. intros r <-.
  destruct (is_disposing (sr_supervisor r) k) eqn:Hd; simpl; [|by apply wp_ret].
  destruct (bool_decide (is_Some (sr_children r !! k))) eqn:Hc; simpl; [|by apply wp_ret].
  apply bool_decide_eq_true in Hc.
  apply wp_bind, join_terminal_wp; [done|]. apply wp_bind, wp_supervised.
  pose proof (good_neutral _ _ _ (Terminalized k) eq_refl Hg) as Hg'. case_decide as Hm.
  - by apply (Hcall Flush).
  - assert (Hk : is_Some (sh_act (stepped (Terminalized k) (shape_of r)) !! k)).
    { simpl. rewrite lookup_fmap. destruct Hc as [c ->]. simpl. eauto. }
    apply wp_bind, wp_get_child; [done|]. intros c _. case_decide; [|by apply wp_ret].
    apply prune_terminal_wp; [done| |done|done]. by apply terminalized_joins.
Qed.

(** A member that was never spawned does not run. *)
Lemma unspawned_inactive E sh k :
  good None E sh -> spawned_once (sh_sup sh) k = false -> sh_act sh !! k ≠ Some true.
Proof.
  intros Hg Hs Ha. destruct (good_registered _ _ _ _ _ Hg Ha) as (r & Hr & Hb & _).
  unfold spawned_once in Hs. rewrite Hr in Hs. simpl in Hs.
  destruct (inv_records _ (good_inv _ _ _ Hg) _ _ Hr) as (H1 & _). unfold active_record in Hb.
  destruct (H1 Hs) as [Hi|[Hi|Hi]]; by rewrite Hi in Hb.
Qed.

Lemma keeps_fail_startup k e E sh :
  good None E sh -> is_Some (sh_act sh !! k) -> wp (fail_startup call k e) (fun _ => good None E) sh.
Proof.
  intros Hg Hk. apply wp_bind, wp_get_child; [done|]. intros c _. do 3 wp_step. cbv zeta.
  apply wp_bind, wp_reduced; [done|by destruct (Supervisor.fail_startup _)|]. intros x es s' Hx.
  assert (He : exec (sh_sup sh) OpFailStartup = Ret (es, s')).
  { simpl. by destruct (Supervisor.fail_startup _); simplify_eq/=. }
  split_and!; [done..|]. assert (Hg' : good None E (requested es s' sh)).
  { eapply good_phase; [done|done|done| |done]. simpl in He. injection He as _ <-.
    by destruct (fail_startup_frame (sh_sup sh)) as [l ->]. }
  destruct x as [state|]; [|by apply wp_ret]. apply wp_bind, wp_self. intros r _. do 2 wp_step. apply wp_bind.
  eapply (wp_mono _ (fun _ => good None E)).
  { case_decide; [|by apply wp_ret]. apply (wp_each _ _ (fun _ => good None E)); [done|].
    intros later l sh' Hs. apply wp_bind, wp_supervised. destruct (_ && _ && _) eqn:Hb; [|by apply wp_ret].
    apply (Hcall (Dispose _ _ _ _)); [done|]. apply andb_true_iff in Hb as [[Hb _]%andb_true_iff _].
    eapply unspawned_inactive; [done|]. by destruct (spawned_once _ _). }
  intros [] sh' Hs. destruct (ScopeRole.is_root _); [by wp_step|]. by apply keeps_begin_drain_with_startup.
Qed.

(** [x] names the member whose exit this disposal follows, if any. *)
Lemma begin_terminal_disposal_wp x k e i st E sh :
  good x E sh -> (forall j, x = Some j -> j = k) -> sh_act sh !! k ≠ Some true ->
  (x = Some k -> is_Some (sh_act sh !! k)) ->
  wp (begin_terminal_disposal call k e i st) (fun _ sh' => good None E sh' /\
    (is_Some (children (sh_sup sh) !! k) -> ended (sh_sup sh') k)) sh.
Proof.
  intros Hg Hx Ha Hk. apply wp_bind, wp_self. intros r <-. cbv zeta.
  destruct (_ || _ || _ || _) eqn:Hb.
  - apply wp_ret. split.
    2:{ intros [q Hq]. apply disposing_ended; [apply Hg|]. destruct (good_record _ _ _ _ _ Hg Hq) as [Hq' _].
      unfold contains in Hb. simpl in Hq, Hq'. rewrite lookup_fmap in Hq'. rewrite Hq in Hb.
      by destruct (sr_children r !! k); [rewrite orb_false_r in Hb|]. }
    destruct x as [j|]; [|done]. specialize (Hx _ eq_refl) as ->. destruct (Hk eq_refl) as [b Hb'].
    eapply good_settled; [done|]. intros q Hq Hc. change (sh_sup _) with (sr_supervisor r) in Hq.
    assert (Hs : is_Some (sr_children r !! k)).
    { simpl in Hb'. rewrite lookup_fmap in Hb'. destruct (sr_children r !! k); [eauto|done]. }
    unfold contains in Hb. rewrite (bool_decide_true (is_Some (sr_children r !! k))) in Hb by done.
    rewrite (bool_decide_true (is_Some (children _ !! k))) in Hb by (by rewrite Hq).
    rewrite (is_disposing_record _ _ _ Hq), (joined_record _ _ _ Hq), Hc in Hb. done.
  - apply orb_false_iff in Hb as [[[Hb1 Hb2]%orb_false_iff Hb3]%orb_false_iff Hb4].
    apply negb_false_iff in Hb1, Hb4. apply bool_decide_eq_true in Hb4.
    destruct (good_disposal E (shape_of r) x k Hg Hx Hb1 Hb2 Hb3 Ha) as [Hg1 Hd1].
    apply wp_bind, wp_reduce; [done|]. apply wp_bind, wp_supervised. apply wp_bind, wp_assert; [by left|]. intros _.
    assert (Hk1 : is_Some (sh_act (stepped (DisposalStarted k) (shape_of r)) !! k)).
    { simpl. rewrite lookup_fmap. destruct Hb4 as [c ->]. simpl. eauto. }
    apply wp_bind, publish_terminal_wp; [done|]. intros _. apply wp_bind, wp_supervised. apply wp_bind.
    eapply wp_mono; [apply (wp_ended _ (fun _ => good None E) _ k)|]; [apply disposing_ended; [apply Hg1|by apply orb_true_iff; left]| |].
    { destruct (_ && _); [by apply keeps_fail_startup|by apply wp_ret]. }
    intros [] sh' [Hs He]. eapply (wp_mono _ (fun _ sh' => good None E sh' /\ ended (sh_sup sh') k));
      [|by intros u sh1 [? ?]]. apply wp_ended; [done|].
    apply wp_bind, wp_find_child. intros [c|] _; [|by apply wp_ret]. wp_step. wp_step.
    apply wp_bind, wp_self. intros r' <-. cbv zeta. destruct (ch_construction c); simpl option_list;
      (destruct (negb _); [by wp_step|]); [|by apply keeps_handle_construction_disposed].
    destruct (hard_forced _); [|by wp_walk]. do 2 wp_step. by apply keeps_handle_construction_disposed.
Qed.

(** *** Spawning *)

Lemma launch_child_wp k i r E sh :
  good None E sh -> is_Some (sh_act sh !! k) -> children (sh_sup sh) !! k = Some r ->
  startable r = true -> ScopeLifecycle.is_draining (lifecycle (sh_sup sh)) = false ->
  wp (launch_child now_at call k i) (fun _ => good None E) sh.
Proof.
  intros Hg Hk Hr Hs Hd. destruct (good_spawned E sh k r Hg Hr Hs) as [Hg' He].
  assert (forall fx, wp match fx with
    | Some effect => _ ← apply_readiness_effect now_at call k i effect; mret ()
    | None => mret () end (fun _ => good None E) (stepped (Spawned k) (with_active k true sh))).
  { intros [fx|]; [|by apply wp_ret]. apply wp_bind.
    eapply wp_mono; [by apply keeps_apply_readiness_effect|]. intros. by apply wp_ret. }
  apply wp_bind, wp_get_child; [done|]. intros c _. wp_walk; (eapply wp_start_task; [done..|]); done.
Qed.

Lemma keeps_spawn_child k : keeps (spawn_child now_at call k).
Proof.
  intros E sh Hg. apply wp_bind. unfold removal_latched. apply wp_bind, wp_self. intros r0 <-.
  case_decide as Hm.
  { apply wp_ret. apply wp_reduce; [done|]. by apply good_neutral. }
  apply wp_quiet; [quiet_walk|]. intros latched. destruct latched.
  { apply wp_reduce; [done|]. by apply good_neutral. }
  apply wp_bind, wp_self. intros r Hr. destruct (sr_children r !! k) as [c|] eqn:Hc; [|by apply wp_ret].
  cbv zeta. destruct (_ || _ || _ || _) eqn:Hb; [by apply wp_ret|].
  apply orb_false_iff in Hb as [[[Hd Ha]%orb_false_iff Hj]%orb_false_iff Hdis].
  change (sr_supervisor r) with (sh_sup (shape_of r)) in *. rewrite Hr in *.
  assert (Hact : sh_act (shape_of r0) !! k = Some false).
  { rewrite <- Hr. simpl. rewrite lookup_fmap, Hc. simpl. unfold is_active. by rewrite Ha. }
  destruct (good_registered _ _ _ _ _ Hg Hact) as (rec & Hrec & _).
  pose proof (guard_startable _ _ _ _ Hg Hrec Hact Hm Hj Hdis) as Hs.
  wp_walk; try (apply terminate_inactive_wp; [done|]; rewrite Hact; done);
    (eapply launch_child_wp; [done|rewrite Hact; eauto|done..]).
Qed.

(** A forced member is stopped first. *)
Lemma force_child_wp k E sh :
  good None E sh ->
  wp (force_child now_at call k) (fun _ sh' => good None E sh' /\ performed (ForceChild k) (sh_sup sh')) sh.
Proof.
  intros Hg. apply wp_bind. wp_step. apply wp_bind. eapply wp_mono; [by apply begin_stop_child_wp|].
  intros [] sh' [Hs Hp]. do 2 (apply wp_bind; wp_quiet_step). apply wp_bind, wp_supervised.
  destruct (is_disposing _ k) eqn:Hd; [|by apply wp_ret]. eapply wp_mono.
  - apply (wp_ended _ (fun _ => good None E) _ k); [|by apply keeps_handle_construction_disposed]. apply disposing_ended; [apply Hs|].
    by rewrite Hd.
  - intros u sh1 [Hs1 He]. split; [done|]. by apply ended_performed.
Qed.

(** *** Commands *)

Lemma perform_effect_wp e E sh :
  good None (e :: E) sh -> wp (perform_effect now_at call e) (fun _ => good None E) sh.
Proof.
  intros Hg. destruct e as [k|k|k|k|s|r]; simpl.
  - eapply wp_mono; [by apply keeps_spawn_child|]. intros u sh' Hs. by apply good_drop in Hs.
  - eapply wp_mono; [by apply begin_stop_child_wp|]. intros u sh' [Hs Hp]. by apply good_drop in Hs.
  - eapply wp_mono; [by apply force_child_wp|]. intros u sh' [Hs Hp]. by apply good_drop in Hs.
  - by apply finalize_removal_wp.
  - apply good_drop in Hg; [|done]. by wp_step.
  - apply good_drop in Hg; [|done]. by wp_step.
Qed.

Lemma wp_take_effects Q sh :
  Q () (mkShape (sh_sup sh) [] (sh_act sh) (sh_lad sh) (sh_dynamic sh)) ->
  wp (modify_self (Runtime.set_effects []) : DriverOp ()) Q sh.
Proof. intros HQ d <-. by split; [constructor|]. Qed.

Lemma keeps_flush : keeps (flush_supervisor_effects now_at call).
Proof.
  intros E sh Hg. apply wp_bind, wp_self. intros r <-.
  assert (wp (_ ← modify_self (Runtime.set_effects []);
    _ ← tx_each (perform_effect now_at call) (sr_effects r); call Flush) (fun _ => good None E) (shape_of r)).
  { apply wp_bind, wp_take_effects, wp_bind. apply good_take in Hg.
    eapply wp_mono; [apply (wp_each _ _ (fun l => good None (l ++ E))); [exact Hg|]|].
    - intros e l sh Hs. by apply perform_effect_wp.
    - intros [] sh Hs. by apply (Hcall Flush). }
  destruct (sr_effects r); [by apply wp_ret|done].
Qed.

Lemma keeps_settle : keeps (settle_supervisor call).
Proof.
  intros E sh Hg. apply wp_bind, wp_reduce; [done|]. apply (good_neutral _ _ _ Settle) in Hg; [|done].
  apply wp_bind, wp_self. intros r Hr. destruct (sr_effects r); [by apply wp_ret|].
  apply wp_bind. eapply wp_mono; [by apply (Hcall Flush)|]. intros [] sh' Hs. apply wp_bind, wp_self. intros r' _.
  destruct (bool_decide _); [by apply wp_ret|]. by apply (Hcall SettleAll).
Qed.

Lemma enter_contract : contract (enter now_at call).
Proof.
  intros c E sh Hg Hc. destruct c; simpl; [by apply keeps_flush|by apply keeps_settle|].
  eapply wp_mono; [by apply (begin_terminal_disposal_wp None)|]. by intros u sh' [? _].
Qed.
Lemma enter_finishes : finishes (enter now_at call).
Proof.
  intros k e i st E sh Hg Ha Hk. simpl. eapply wp_mono; [by apply (begin_terminal_disposal_wp None _ _ _ _ E)|].
  intros u sh' [_ He]. auto.
Qed.
End open.

Lemma perform_contract_finishes fuel : contract (perform now_at fuel) /\ finishes (perform now_at fuel).
Proof.
  induction fuel as [|fuel [IH IH']]; simpl; split.
  - intros c E sh Hg Hc. by apply wp_lift.
  - intros k e i st E sh Hg Ha Hk. by apply wp_lift.
  - by apply enter_contract.
  - by apply enter_finishes.
Qed.
Lemma perform_contract fuel : contract (perform now_at fuel).
Proof. apply perform_contract_finishes. Qed.
Lemma perform_finishes fuel : finishes (perform now_at fuel).
Proof. apply perform_contract_finishes. Qed.
End refine.

(** ** The driver's handlers keep the agreement with the reducer *)

Section handlers.
Context {M T F B R P Tok D : Type} `{!MailboxControl M T F} `{!Broadcast LifecycleEvent.t B R}.
Context `{!MailboxDriver M F Tok D} `{!MildMailbox M F Tok D} {clock : Clock}.
Context (now_at : nat -> Z) (sample_at : nat -> Z) (powi : f64 -> Z -> f64).
Local Abbreviation DriverOp := (@DriverOp M T F B P Tok D).
Context (call : Call -> DriverOp ()) (Hcall : contract call) (Hends : finishes call).

Lemma keeps_resolve_window_stop k e : keeps (resolve_window_stop call k e).
Proof.
  intros E sh Hg. unfold resolve_window_stop. do 2 wp_step. apply wp_bind, wp_self. intros r <-.
  destruct (_ || _ || _); [by apply wp_ret|]. destruct (sr_children r !! k) as [c|] eqn:Hc; [|by apply wp_ret].
  destruct (bool_decide _) eqn:Ha; [by apply wp_ret|].
  wp_walk; try done. apply terminate_inactive_wp; [done..|]. simpl. rewrite lookup_fmap, Hc. simpl.
  unfold is_active. by rewrite Ha.
Qed.

Lemma keeps_step_readiness k i e : keeps (step_readiness now_at call k i e).
Proof. intros E sh Hg. unfold step_readiness. wp_walk; try done. by apply keeps_apply_readiness_effect. Qed.

Lemma keeps_settle_if b : keeps (settle_if call b).
Proof. intros E sh Hg. destruct b; [by apply (Hcall SettleAll)|by apply wp_ret]. Qed.

Lemma keeps_then {A C} (m : DriverOp A) (k : A -> DriverOp C) :
  keeps m -> (forall a, keeps (k a)) -> keeps (m ≫= k).
Proof. intros Hm Hk E sh Hg. apply wp_bind. eapply wp_mono; [by apply Hm|]. intros a sh' Hs. by apply Hk. Qed.

Lemma keeps_handle_ready k i : keeps (handle_ready now_at call k i).
Proof. apply keeps_then; [apply keeps_step_readiness|apply keeps_settle_if]. Qed.

Lemma keeps_handle_self_stop k i : keeps (handle_self_stop now_at call k i).
Proof.
  apply keeps_then; [apply keeps_quiet; quiet_walk|]. intros live. apply keeps_then.
  - destruct live; [|apply keeps_quiet; quiet_walk]. apply keeps_then; [apply keeps_quiet; quiet_walk|].
    intros []; [apply keeps_handle_ready|apply keeps_quiet; quiet_walk].
  - intros _. apply keeps_then; [apply keeps_quiet; quiet_walk|].
    intros []; [by apply keeps_begin_stop_child|apply keeps_quiet; quiet_walk].
Qed.

Lemma keeps_handle_deadline x : keeps (handle_deadline now_at call x).
Proof.
  destruct x as [k i|k|k i]; simpl.
  - apply keeps_then; [apply keeps_quiet; quiet_walk|]. intros [a|]; [|apply keeps_quiet; quiet_walk].
    do 3 (apply keeps_then; [apply keeps_quiet; quiet_walk|]; intros).
    apply keeps_then; [apply keeps_step_readiness|apply keeps_settle_if].
  - apply keeps_then; [apply keeps_quiet; quiet_walk|]. intros []; [apply keeps_quiet; quiet_walk|].
    apply keeps_then; [by apply keeps_spawn_child|]. intros _ E sh Hg. by apply (Hcall SettleAll).
  - apply keeps_quiet. quiet_walk.
Qed.

Lemma keeps_handle_removal k : keeps (handle_removal call k).
Proof.
  apply keeps_then; [apply keeps_quiet; quiet_walk|]. intros []; [|apply keeps_quiet; quiet_walk].
  apply keeps_then; [by apply keeps_reduce|]. intros _ E sh Hg. by apply (Hcall Flush).
Qed.

Lemma keeps_force_all : keeps (force_all call).
Proof.
  intros E sh Hg. apply wp_bind, wp_self. intros r _. apply wp_bind, wp_reduced; [done| |].
  { unfold Supervisor.force. destruct (begin_drain_ok (set_hard_forced true (sh_sup sh)) StopReason.ShutdownRequested)
      as (x & es & s' & ->); done. }
  intros x es s' Hx. assert (He : exec (sh_sup sh) OpForce = Ret (es, s')) by (simpl; by rewrite Hx).
  split_and!; [done..|]. assert (Hg' : good None E (requested es s' sh)).
  { eapply good_phase; [done|done|done| |done].
    apply force_Ret in Hx as (es0 & Hx & _). by apply begin_drain_frame in Hx as (? & _). }
  apply wp_bind, wp_quiet; [quiet_walk|]. intros _. apply wp_bind.
  eapply wp_mono; [by apply (Hcall Flush)|]. intros [] sh' Hs. by apply (Hcall SettleAll).
Qed.

Lemma keeps_accept_shutdown_request : keeps (accept_shutdown_request call).
Proof.
  do 2 (apply keeps_then; [apply keeps_quiet; quiet_walk|]; intros). by apply keeps_begin_drain.
Qed.

(** ** Exits *)

Lemma retire_incarnation_wp k a rec j can E sh :
  good None E sh -> sh_act sh !! k = Some true ->
  wp (retire_incarnation now_at k a rec j can : DriverOp Exit)
    (fun _ sh' => good (Some k) E sh' /\ sh_act sh' !! k = Some false) sh.
Proof.
  intros Hg Ha. apply wp_bind, wp_get_child; [eauto|]. intros c _. apply wp_bind, wp_set_active; [done|]. wp_walk;
    (split; [by apply good_complete|]); simpl; by rewrite lookup_alter_eq, Ha.
Qed.

Lemma schedule_child_restart_wp k i e E sh :
  good (Some k) E sh -> is_Some (sh_act sh !! k) ->
  (forall r, children (sh_sup sh) !! k = Some r -> ~ doomed (sh_sup sh) k r) ->
  wp (schedule_child_restart now_at sample_at powi call k i e) (fun _ => good None E) sh.
Proof.
  intros Hg Hk Hnd. apply wp_bind, wp_get_child; [done|]. intros c _. apply good_restart in Hg; [|done].
  wp_walk; try done; first [by apply keeps_begin_drain_with_startup|by apply keeps_begin_drain].
Qed.

Lemma dispatch_membership_status_wp k x E sh :
  good x E sh ->
  wp (dispatch_membership_status k : DriverOp _) (fun st sh' => good x E sh' /\ sh_act sh' = sh_act sh /\
    st = Supervisor.membership_status (sh_sup sh') k) sh.
Proof. intros Hg. unfold dispatch_membership_status. wp_walk; (split_and!; [good_done|done|done]). Qed.

(** A member is restarted only when nothing has commanded it to stop. *)
Lemma dispatched_not_doomed e p s k r :
  dispatch_exit e p (ScopeLifecycle.is_draining (lifecycle s)) (Supervisor.membership_status s k) = Ret ScheduleRestart ->
  children s !! k = Some r -> ~ doomed s k r.
Proof.
  unfold dispatch_exit, assert_that. intros Hd Hr [[i Hi]|[Hi _]].
  - unfold Supervisor.membership_status, Supervisor.child_state in Hd. rewrite Hr in Hd. simpl in Hd. rewrite Hi in Hd.
    simpl in Hd. rewrite orb_true_r in Hd.
    by destruct (exit_kind e).
  - rewrite Hi in Hd. by destruct (exit_kind e).
Qed.

Lemma keeps_recheck_window_stop k : keeps (recheck_window_stop call k).
Proof. intros E sh Hg. unfold recheck_window_stop. wp_walk; try done. by apply keeps_resolve_window_stop. Qed.

Lemma keeps_handle_exit k i rec j can seen :
  keeps (handle_exit now_at sample_at powi call k i rec j can seen).
Proof.
  apply keeps_then; [apply keeps_step_readiness|]. intros b.
  apply keeps_then; [apply keeps_settle_if|]. intros _ E sh Hg. apply wp_bind, wp_live_child.
  intros [a|] Ha; [|by apply wp_ret]. specialize (Ha (ltac:(eauto))). apply wp_bind.
  eapply wp_mono; [by apply retire_incarnation_wp|]. intros ex sh1 [Hg1 Ha1]. apply wp_bind.
  eapply wp_mono; [by apply dispatch_membership_status_wp|]. intros st sh2 (Hg2 & Ha2 & ->). rewrite <- Ha2 in Ha1.
  clear Ha2. rename Ha1 into Ha2.
  do 2 wp_step. apply wp_bind, wp_get_child; [rewrite Ha2; eauto|]. intros c _.
  apply wp_bind, wp_supervised. apply wp_bind, wp_lift; [mild_walk|]. intros dispatch Hdis. apply wp_bind.
  eapply (wp_mono _ (fun _ => good None E)); [|intros; by apply keeps_recheck_window_stop].
  destruct dispatch.
  - eapply wp_mono; [apply (begin_terminal_disposal_wp now_at call Hcall (Some k)); [done| |by rewrite Ha2|rewrite Ha2; eauto]|].
    + by intros ? [= <-].
    + by intros u sh' [? _].
  - apply schedule_child_restart_wp; [done|rewrite Ha2; eauto|]. intros r Hr. by eapply dispatched_not_doomed.
Qed.
End handlers.
