(* ===== verification/DriverAdmission.v ===== *)
(** * Admission of a child

    A slot names the same membership from the moment its admission is handled
    to its registration with the reducer, so a fresh membership is registered
    once. *)

From S2P Require Import Prelude BTree Time Identity Exit Float64 Policy Readiness StopLadder Restart.
From S2P Require Import Epochs Lifecycle DeadlineQueue Supervisor SupervisorLemmas SupervisorInv.
From S2P Require Import SupervisorProps Mirror Gate Watch Latch.
From S2P Require Import Member Snapshot LifecycleHub Scope Plan Effects Dynamic DriverState Driver.
From S2P Require Import DriverEvents DriverLoop DriverPanics DriverLogic DriverRefine.
From S2P Require Import DriverRefine.

Section names.
Context {M T F B R P Tok D : Type} `{!MailboxControl M T F} `{!Broadcast LifecycleEvent.t B R}.
Context `{!MailboxDriver M F Tok D} `{!MildMailbox M F Tok D} {clock : Clock}.
Context (now_at : nat -> Z) (sample_at : nat -> Z) (powi : f64 -> Z -> f64).
Local Abbreviation Op := (@Op M T F B).
Local Abbreviation PlanOp := (@PlanOp M T F B P).
Local Abbreviation StoreOp := (@StoreOp M T F B P).
Local Abbreviation Store := (Store M B P).
Local Abbreviation World := (World M B P).
Local Abbreviation Driver := (Driver M B P Tok).
Local Abbreviation DriverNote := (DriverNote T F P D).
Local Abbreviation DriverOp := (@DriverOp M T F B P Tok D).

(** ** What a slot names *)

Definition named (w : World) (slot : nat) : option Membership :=
  c ← slots w !! slot; MemberCell.membership <$> members (forest w) !! SlotCell.member c.
Definition membership_at (s : Store) (slot : nat) : option Membership := named (st_world s) slot.

Lemma named_put_definition w i d slot :
  named (mkWorld (forest w) (alter (SlotCell.set_definition d) i (slots w)) (next_lineage w)) slot = named w slot.
Proof.
  unfold named. simpl. destruct (decide (slot = i)) as [->|Hi]; [|by rewrite lookup_alter_ne].
  rewrite lookup_alter_eq. by destruct (slots w !! i).
Qed.
Lemma named_put_member w m c c' slot :
  members (forest w) !! m = Some c -> MemberCell.membership c' = MemberCell.membership c ->
  named (set_forest (mkForest (scopes (forest w)) (<[m := c']> (members (forest w))) (gates (forest w))
                       (controls (forest w))) w) slot = named w slot.
Proof.
  intros Hm Hc. unfold named. simpl. destruct (slots w !! slot) as [s|]; [|done]. simpl.
  destruct (decide (SlotCell.member s = m)) as [->|Hne]; [|by rewrite lookup_insert_ne].
  rewrite lookup_insert_eq, Hm. simpl. by rewrite Hc.
Qed.

(** Driver operations that keep every name. *)
Definition names_kept (d : Driver) (n : list DriverNote) (d' : Driver) : Prop :=
  forall slot, membership_at (store d') slot = membership_at (store d) slot.
#[local] Instance names_kept_rel : StepRel names_kept.
Proof. split; [done|]. intros d n e n' f H1 H2 slot. by rewrite H2, H1. Qed.

Lemma names_shared {A} (m : StoreOp A) :
  (forall s a n s', m s = Ret (a, n, s') -> forall slot, membership_at s' slot = membership_at s slot) ->
  steps names_kept (shared m : DriverOp A).
Proof. intros Hm d a n d' H. apply tx_zoom_inv in H as (n' & s & H & _ & ->). intros slot. by eapply Hm. Qed.

Lemma names_plan {A} (m : PlanOp A) :
  (forall w a n w', m w = Ret (a, n, w') -> forall slot, named w' slot = named w slot) ->
  steps names_kept (shared (plan m) : DriverOp A).
Proof.
  intros Hm. apply names_shared. intros s a n s' H slot.
  apply tx_zoom_inv in H as (n' & w & H & _ & ->). by eapply Hm.
Qed.

(** What reads only. *)
Lemma names_get_slot i : steps names_kept (shared (plan (get_slot i)) : DriverOp _).
Proof. apply names_plan. intros w a n w' H slot. apply bind_Ret_inv in H as (c & _ & H). by simplify_eq. Qed.
Lemma slot_member_reads i s a n s' :
  (slot_member i : StoreOp _) s = Ret (a, n, s') ->
  s' = s /\ membership_at s i = Some (MemberCell.membership a.2) /\
  members (forest (st_world s)) !! SlotCell.member a.1 = Some a.2.
Proof.
  intros H. apply tx_bind_inv in H as (c & n1 & s1 & n2 & H1 & H2 & _).
  apply tx_zoom_inv in H1 as (n1' & w & H1 & _ & ->).
  apply bind_Ret_inv in H1 as (c' & Hc & H1). simplify_eq.
  apply tx_bind_inv in H2 as (m & n3 & s2 & n4 & H3 & H4 & _).
  apply tx_ret_inv in H4 as (-> & _ & ->). apply tx_zoom_inv in H3 as (n3' & w & H3 & _ & ->).
  unfold cell, get_member in H3. simpl in *.
  destruct (members (forest (st_world s)) !! SlotCell.member c) as [m'|] eqn:Em; [|done]. simpl in H3. simplify_eq.
  unfold membership_at, named. destruct (slots (st_world s) !! i) as [c'|] eqn:Ec; [|done]. simpl in *. simplify_eq.
  rewrite Em. by destruct s as [[[]] ].
Qed.

Lemma names_resolve i x : steps names_kept (shared (plan (resolve_and_take_defined i x)) : DriverOp _).
Proof.
  apply names_plan. intros w a n w' H slot. apply bind_Ret_inv in H as ([[c n1] w1] & H1 & H).
  apply bind_Ret_inv in H1 as (c' & _ & H1). simplify_eq.
  destruct (SlotCell.definition c); unfold mret, plan_ret, put_definition, mbind, plan_bind in H;
    simpl in H; simplify_eq; try done. apply named_put_definition.
Qed.

Lemma with_options_kept i c o w a n w' :
  (with_options i c o : PlanOp _) w = Ret (a, n, w') ->
  cp_slot a = i /\ forall slot, named w' slot = named w slot.
Proof.
  intros H. apply bind_Ret_inv in H as ([[s n1] w1] & H1 & H).
  apply bind_Ret_inv in H1 as (s' & _ & H1). simplify_eq.
  apply bind_Ret_inv in H as ([[b n2] w2] & H2 & H). apply bind_Ret_inv in H2 as ([[[] n3] w3] & H3 & H2).
  unfold mret, plan_ret in H2. simpl in H2. simplify_eq. split; [done|]. revert H3.
  unfold cell, mbind, op_bind, get_member, lift, put_member. simpl.
  destruct (members (forest w1) !! SlotCell.member s) as [m|] eqn:Em; [|done]. simpl.
  destruct (MemberCell.set_options o m) as [m'| |] eqn:Eo; [|done..]. simpl. intros [= _ <-] slot.
  eapply named_put_member; [done|]. unfold MemberCell.set_options, assert_that in Eo.
  by destruct (bool_decide _); simplify_eq/=.
Qed.

Lemma member_of_reads i d x n d' :
  (member_of i : DriverOp _) d = Ret (x, n, d') ->
  d' = d /\ membership_at (store d) i = Some (MemberCell.membership x.2) /\
  members (forest (st_world (store d))) !! x.1 = Some x.2.
Proof.
  intros H. apply tx_bind_inv in H as ([c m] & n1 & d1 & n2 & H1 & H2 & ->).
  apply tx_zoom_inv in H1 as (n1' & st & H1 & _ & ->). apply slot_member_reads in H1 as (-> & H1 & Hm).
  apply tx_ret_inv in H2 as (-> & _ & ->). split; [by destruct d|done].
Qed.

Lemma names_take_counter i : steps names_kept (take_incarnation_counter i : DriverOp _).
Proof.
  intros d k n d' H. apply tx_bind_inv in H as ([m mc] & n1 & d1 & n2 & H1 & H2 & ->).
  apply member_of_reads in H1 as (-> & _ & Hm).
  apply tx_bind_inv in H2 as ([k' mc'] & n3 & d2 & n4 & H2 & H3 & ->). apply tx_lift_inv in H2 as (H2 & _ & ->).
  apply tx_bind_inv in H3 as ([] & n5 & d3 & n6 & H3 & H4 & ->). apply tx_ret_inv in H4 as (_ & _ & ->).
  apply tx_zoom_inv in H3 as (n7 & st & H3 & _ & ->). apply tx_zoom_inv in H3 as (n8 & w & H3 & _ & ->).
  unfold cell, put_member in H3. simplify_eq. intros slot. eapply named_put_member; [exact Hm|].
  unfold MemberCell.take_incarnation_counter in H2. by destruct (MemberCell.incarnations mc); simplify_eq/=.
Qed.

Lemma names_mailbox_call {A} h (g : M -> outcome (A * list F * M)) :
  steps names_kept (mailbox_call h g : DriverOp A).
Proof.
  unfold mailbox_call. tx_walk.
  - apply names_plan. intros w b n w' H slot. unfold cell in H. by simplify_eq.
  - intros d b n d' H. by cbv in H; simplify_eq.
Qed.

(** A lowered plan becomes an idle child of the same slot. *)
Lemma from_plan_kept p d c n d' :
  (from_plan p : DriverOp _) d = Ret (c, n, d') ->
  ch_slot c = cp_slot p /\ ch_active c = None /\ names_kept d n d'.
Proof.
  intros H. split_and!.
  3:{ revert H. assert (Hs : steps names_kept (from_plan p : DriverOp _)); [|by apply Hs].
      unfold from_plan. apply steps_bind; [apply _|apply names_take_counter|]. intros k.
      apply steps_bind; [apply _| |].
      - intros e x n' e' Hx. apply member_of_reads in Hx as (-> & _). intros slot. done.
      - intros [m mc]. cbv zeta. pose proof @names_mailbox_call. tx_walk. }
  all: apply tx_bind_inv in H as (k & n1 & d1 & n2 & _ & H & _);
    apply tx_bind_inv in H as ([m mc] & n3 & d2 & n4 & _ & H & _);
    apply tx_bind_inv in H as (b & n5 & d3 & n6 & _ & H & _); by apply tx_ret_inv in H as (-> & _ & _).
Qed.

Lemma admit_child_mild sup m initial message :
  admit_child sup m initial = Panics message -> unguarded message = true.
Proof.
  intros H. assert (Hm : mild (admit_child sup m initial)) by (unfold admit_child; mild_walk).
  by rewrite H in Hm.
Qed.

(** ** Reasoning at one state *)

Definition wpd {A} (m : DriverOp A) (Q : A -> Driver -> Prop) (d : Driver) : Prop :=
  match m d with
  | Ret (a, n, d') => replays (sh_sup (shape d)) n (sh_sup (shape d')) /\ Q a d'
  | Panics message => unguarded message = true
  | ProcessAborts => True
  end.

Lemma wpd_bind {A C} (m : DriverOp A) (k : A -> DriverOp C) Q d :
  wpd m (fun a => wpd (k a) Q) d -> wpd (m ≫= k) Q d.
Proof.
  unfold wpd, mbind, tx_bind. destruct (m d) as [[[a n] d1]| |]; [|done..]. simpl. intros [Hn Hk].
  destruct (k a d1) as [[[c n'] d2]| |]; [|done..]. destruct Hk. split; [by eapply replays_app|done].
Qed.
Lemma wpd_wp {A} (m : DriverOp A) Q d : wp m Q (shape d) -> wpd m (fun a d' => Q a (shape d')) d.
Proof. intros Hm. apply (Hm d eq_refl). Qed.
Lemma wpd_mono {A} (m : DriverOp A) (Q Q' : A -> Driver -> Prop) d :
  wpd m Q d -> (forall a d', Q a d' -> Q' a d') -> wpd m Q' d.
Proof. unfold wpd. destruct (m d) as [[[a n] d1]| |]; naive_solver. Qed.
Lemma wpd_quiet {A} (m : DriverOp A) (Q : A -> Driver -> Prop) d :
  quiet m -> (forall a n d', m d = Ret (a, n, d') -> shape d' = shape d -> Q a d') -> wpd m Q d.
Proof.
  intros Hm HQ. specialize (Hm d). unfold wpd. destruct (m d) as [[[a n] d1]| |]; [|done..].
  destruct Hm as [Hs Hn]. rewrite Hs. split; [by apply replays_silent|by eapply HQ].
Qed.
Lemma wpd_ret {A} (a : A) (Q : A -> Driver -> Prop) d : Q a d -> wpd (mret a) Q d.
Proof. by split; [constructor|]. Qed.

(** ** Registration *)

(** No registered member has the slot's membership. *)
Definition fresh (d : Driver) (slot : nat) : Prop :=
  forall m, membership_at (store d) slot = Some m -> child_keys (sr_supervisor (scope d)) !! m = None.

(** The slot is as fresh as before. *)
Lemma fresh_kept d n d' slot :
  names_kept d n d' -> shape d' = shape d -> fresh d slot -> fresh d' slot.
Proof.
  intros Hn Hs Hf m. rewrite Hn. change (sr_supervisor (scope d')) with (sh_sup (shape d')). rewrite Hs. apply Hf.
Qed.

Lemma insert_child_wpd (child : ChildRuntime P Tok) initial E d :
  good None E (shape d) -> ch_active child = None -> fresh d (ch_slot child) ->
  ScopeLifecycle.is_draining (lifecycle (sr_supervisor (scope d))) = false ->
  finish_emitted (sr_supervisor (scope d)) = false ->
  wpd (insert_child child initial : DriverOp _) (fun _ d' => good None E (shape d') /\
    lifecycle (sr_supervisor (scope d')) = lifecycle (sr_supervisor (scope d)) /\
    finish_emitted (sr_supervisor (scope d')) = finish_emitted (sr_supervisor (scope d)) /\
    store d' = store d) d.
Proof.
  intros Hg Ha Hf Hd He. apply wpd_bind, wpd_quiet; [quiet_walk|]. intros [m mc] n d' Hm _.
  apply member_of_reads in Hm as (-> & Hm & _). simpl in Hm. apply wpd_bind.
  assert (Hl : legal (sr_supervisor (scope d)) (OpAdmit (MemberCell.membership mc) initial) = true).
  { unfold legal. rewrite Hd, He. simpl. apply bool_decide_eq_true. by apply Hf. }
  unfold wpd at 1. unfold supervisor_admit, reduced, self, mbind, tx_bind, tx_get, tx_lift. simpl.
  destruct (admit_child _ _ _) as [[key s']| |] eqn:Ek; simpl; [|apply admit_child_mild in Ek; done|done].
  pose proof (good_admitted E (shape d) _ _ _ _ Hg Hl Ek) as Hg'. pose proof Ek as (_ & _ & Hs)%admit_Ret. split.
  - eapply replays_request; [done|exact Hl| |constructor]. simpl. by rewrite Ek.
  - unfold wpd. simpl. split; [constructor|]. split_and!; [|by rewrite Hs..|done].
    replace (shape _) with (mkShape s' (sh_effects (shape d) ++ []) (<[key := false]> (sh_act (shape d)))
      (<[key := false]> (sh_lad (shape d))) (sh_dynamic (shape d))); [done|].
    unfold shape, shape_of. simpl. rewrite !fmap_insert. unfold is_active at 2, is_laddered at 2. by rewrite Ha.
Qed.

Context (call : Call -> DriverOp ()) (Hcall : contract call) (Hends : finishes call).

(** Operations that only read. *)
Definition unchanged {S N} (s : S) (n : list N) (s' : S) : Prop := s' = s.
#[local] Instance unchanged_rel {S N} : StepRel (@unchanged S N).
Proof. split; [done|]. unfold unchanged. intros; congruence. Qed.
Lemma reads_shared {A} (m : StoreOp A) : steps unchanged m -> steps unchanged (shared m : DriverOp A).
Proof.
  intros Hm d a n d' H. apply tx_zoom_inv in H as (n' & s & H & _ & ->). apply Hm in H as ->. by destruct d.
Qed.
Lemma reads_get_slot i : steps unchanged (plan (get_slot i) : StoreOp _).
Proof.
  intros s a n s' H. apply tx_zoom_inv in H as (n' & w & H & _ & ->).
  apply bind_Ret_inv in H as (c & _ & H). simplify_eq. by destruct s.
Qed.
Lemma reads_find_reservation c m : steps unchanged (find_reservation c m : StoreOp _).
Proof.
  unfold find_reservation, get_control, entry_is. tx_walk.
  intros ? ? ? ? H. by apply slot_member_reads in H as (-> & _).
Qed.

(** A read, then the rest at the same state. *)
Lemma wpd_read {A C} (m : DriverOp A) (k : A -> DriverOp C) Q d :
  quiet m -> steps unchanged m -> (forall a, wpd (k a) Q d) -> wpd (m ≫= k) Q d.
Proof. intros Hm Hs HQ. apply wpd_bind, wpd_quiet; [done|]. intros x n d' Hx _. rewrite (Hs _ _ _ _ Hx). apply HQ. Qed.

(** A fresh reservation is registered, or refused without a trace in the reducer. *)
Lemma install_admission_wpd request control (child : ChildRuntime P Tok) E d :
  good None E (shape d) -> ch_active child = None -> fresh d (ch_slot child) ->
  ScopeLifecycle.is_draining (lifecycle (sr_supervisor (scope d))) = false ->
  finish_emitted (sr_supervisor (scope d)) = false ->
  wpd (install_admission request control child : DriverOp _) (fun _ d' => good None E (shape d')) d.
Proof.
  intros Hg Ha Hf Hd He. unfold install_admission. apply wpd_read; [quiet_walk| |intros r].
  { intros e x n e' H. cbv in H. by simplify_eq. }
  cbv zeta. apply wpd_read; [quiet_walk|apply reads_shared, reads_get_slot|intros cell].
  apply wpd_read; [quiet_walk| |intros [m mc]].
  { intros e x n e' H. by apply member_of_reads in H as (-> & _). }
  apply wpd_read; [quiet_walk|apply reads_shared, reads_find_reservation|intros [c reserved]].
  unfold settle_install. apply wpd_read; [quiet_walk| |intros s].
  { apply reads_shared. intros e x n e' H. cbv in H. by simplify_eq. }
  destruct reserved as [entry|]; [destruct (is_some_and _ _)|].
  2:{ apply wpd_bind. eapply wpd_mono; [by apply insert_child_wpd|]. intros key d' (Hg' & _).
      apply (wpd_wp _ (fun _ => good None E)). by wp_walk. }
  all: apply (wpd_wp _ (fun _ => good None E)); by wp_walk.
Qed.

Lemma handle_admission_wpd request E d :
  good None E (shape d) -> fresh d (AdmissionRequest.slot request) ->
  wpd (handle_admission now_at call request) (fun _ d' => good None E (shape d')) d.
Proof.
  intros Hg Hf. unfold handle_admission. apply wpd_bind, wpd_quiet; [quiet_walk|]. intros r n1 d1 Hr _.
  assert (r = scope d /\ d1 = d) as [-> ->].
  { unfold self, mbind, tx_bind, tx_get in Hr. simpl in Hr. by simplify_eq. }
  apply wpd_bind, wpd_quiet; [quiet_walk|]. intros control n2 d2 Hc _.
  apply tx_lift_inv in Hc as (Hc & _ & ->). apply wpd_read; [quiet_walk| |intros s].
  { apply reads_shared. intros e x n e' H. cbv in H. by simplify_eq. }
  unfold not_admitting. destruct (ScopeLifecycle.is_draining _) eqn:Hd; [cbv iota; apply (wpd_wp _ (fun _ => good None E)); by wp_walk|].
  destruct (ScopeLifecycle.startup_failed _); [cbv iota; apply (wpd_wp _ (fun _ => good None E)); by wp_walk|].
  destruct (is_some_and _ _); [cbv iota; apply (wpd_wp _ (fun _ => good None E)); by wp_walk|].
  assert (He : finish_emitted (sr_supervisor (scope d)) = false).
  { destruct (finish_emitted _) eqn:He; [|done]. rewrite (good_calm _ _ _ Hg) in Hd; [done| |done].
    apply (good_dynamic _ _ _ Hg). simpl. destruct (sr_dynamic (scope d)); [|done]. by apply bool_decide_eq_true. }
  apply wpd_bind, wpd_quiet; [quiet_walk|]. intros claimed n3 d3 H3 S3.
  apply (names_resolve _ _) in H3. destruct claimed as [[definition resolved]|];
    [|apply (wpd_wp _ (fun _ => good None E)); rewrite S3; by wp_walk].
  apply wpd_bind, wpd_quiet; [quiet_walk|]. intros lowered n4 d4 H4 S4.
  apply tx_zoom_inv in H4 as (n4' & st & H4 & _ & ->). apply tx_zoom_inv in H4 as (n4'' & w & H4 & _ & ->).
  apply with_options_kept in H4 as [Hslot H4].
  apply wpd_bind, wpd_quiet; [quiet_walk|]. intros child n5 d5 H5 S5.
  apply from_plan_kept in H5 as (Hch & Hact & H5). rewrite Hslot in Hch.
  assert (Hs : shape d5 = shape d) by congruence. apply wpd_bind. rewrite <- Hs in Hg.
  change (sr_supervisor (scope d)) with (sh_sup (shape d)) in Hd, He. rewrite <- Hs in Hd, He.
  eapply wpd_mono; [apply install_admission_wpd; [exact Hg|done| |done|done]|].
  { rewrite Hch. apply (fresh_kept d []); [|done|done]. intros slot. rewrite H5. unfold membership_at. simpl.
    rewrite H4. apply H3. }
  intros [key|removed] d6 Hg6; apply (wpd_wp _ (fun _ => good None E)); wp_walk; [|done].
  by apply keeps_spawn_child.
Qed.
End names.
