(* ===== verification/DriverRun.v ===== *)
(** * Runs of the driver

    A scope incarnation as its driver runs it: the plan's children are
    registered, then the loop's operations alternate with whatever the tasks
    and other drivers do to the shared store.  In every run the requests are a
    legal run of the reducer, the children mirror its records, and the
    structural assertions hold. *)

From S2P Require Import Prelude BTree Time Identity Exit Float64 Policy Readiness StopLadder Restart.
From S2P Require Import Epochs Lifecycle DeadlineQueue Supervisor SupervisorLemmas SupervisorInv.
From S2P Require Import SupervisorProps Mirror Gate Watch Latch.
From S2P Require Import Member Snapshot LifecycleHub Scope Plan Effects Dynamic DriverState Driver.
From S2P Require Import DriverEvents DriverLoop DriverPanics DriverLogic DriverRefine.
From S2P Require Import DriverRefine DriverAdmission.

(** ** Nothing stays queued

    An operation of the loop that finds the command queue empty leaves it empty:
    what it has the reducer emit it also flushes. *)

Section clears.
Context {M T F B R P Tok D : Type} `{!MailboxControl M T F} `{!Broadcast LifecycleEvent.t B R}.
Context `{!MailboxDriver M F Tok D} {clock : Clock}.
Local Abbreviation Driver := (Driver M B P Tok).
Local Abbreviation DriverNote := (DriverNote T F P D).
Local Abbreviation StoreOp := (@StoreOp M T F B P).
Local Abbreviation DriverOp := (@DriverOp M T F B P Tok D).

Definition queue (d : Driver) : list Effect := sr_effects (scope d).
Definition cleared (d : Driver) (_ : list DriverNote) (d' : Driver) : Prop := queue d = [] -> queue d' = [].
#[export] Instance cleared_rel : StepRel cleared.
Proof. split; unfold cleared; eauto. Qed.

(** [m] ends with an empty queue, whatever it finds. *)
Definition empties {A} (m : DriverOp A) : Prop := forall d a n d', m d = Ret (a, n, d') -> queue d' = [].

Lemma empties_clears {A} (m : DriverOp A) : empties m -> steps cleared m.
Proof. intros Hm d a n d' H _. by eapply Hm. Qed.
Lemma empties_bind {A C} (m : DriverOp A) (k : A -> DriverOp C) : (forall a, empties (k a)) -> empties (m ≫= k).
Proof. intros Hk d c n d' H. apply tx_bind_inv in H as (a & n1 & d1 & n2 & _ & H & _). by eapply Hk. Qed.
Lemma empties_then {A C} (m : DriverOp A) (k : A -> DriverOp C) :
  empties m -> (forall a, steps cleared (k a)) -> empties (m ≫= k).
Proof.
  intros Hm Hk d c n d' H. apply tx_bind_inv in H as (a & n1 & d1 & n2 & H1 & H & _).
  eapply Hk; [done|]. by eapply Hm.
Qed.

Lemma clears_shared {A} (m : StoreOp A) : steps cleared (shared m : DriverOp A).
Proof. intros d a n d' H Hq. apply tx_zoom_inv in H as (n' & s & _ & _ & ->). exact Hq. Qed.
Lemma clears_notes l : steps cleared (tx_notes l : DriverOp ()).
Proof. intros d a n d' H Hq. cbv [tx_notes] in H. by simplify_eq. Qed.
Lemma clears_modify_self g : (forall r, sr_effects r = [] -> sr_effects (g r) = []) -> steps cleared (modify_self g : DriverOp ()).
Proof. intros Hg d a n d' H. cbv [modify_self tx_modify] in H. simplify_eq. intros Hq. by apply Hg. Qed.
Lemma clears_modify_driver g : (forall d : Driver, scope (g d) = scope d) -> steps cleared (tx_modify g : DriverOp ()).
Proof. intros Hg d a n d' H. cbv [tx_modify] in H. simplify_eq. unfold cleared, queue. by rewrite Hg. Qed.

Lemma reduced_inv {A} o m (d : Driver) (a : A) n d' :
  (reduced o m : DriverOp A) d = Ret (a, n, d') ->
  exists es s', m (sr_supervisor (scope d)) = Ret (a, es, s') /\ queue d' = queue d ++ es /\ sr_supervisor (scope d') = s'.
Proof.
  unfold reduced, self, mbind, tx_bind, tx_get, tx_lift. simpl.
  destruct (m (sr_supervisor (scope d))) as [[[x es] s']| |]; simpl; [|done..]. intros [= -> _ <-]. eauto.
Qed.
Lemma clears_reduced {A} o (m : SupervisorState -> outcome (A * list Effect * SupervisorState)) :
  (forall s a es s', m s = Ret (a, es, s') -> es = []) -> steps cleared (reduced o m : DriverOp A).
Proof. intros Hm d a n d' H Hq. apply reduced_inv in H as (es & s' & H & -> & _). by rewrite Hq, (Hm _ _ _ _ H). Qed.

(** Events that command nothing. *)
Definition silent_event (e : Event) : bool :=
  match e with Terminalized _ | RemovalLatched _ | Settle => false | _ => true end.
Lemma silent_step s e : silent_event e = true -> (step s e).1 = [].
Proof.
  intros He. unfold step. destruct e; try done; simpl; unfold sample_removal; repeat (case_match; try done).
Qed.
Lemma clears_reduce e : silent_event e = true -> steps cleared (reduce e : DriverOp ()).
Proof.
  intros He. apply clears_reduced. intros s a es s' H. pose proof (silent_step s e He) as Hs.
  destruct (step s e). by simplify_eq/=.
Qed.
End clears.

Create HintDb clears.
Ltac clears_step :=
  match goal with
  | |- steps _ (let _ := _ in _) => cbv zeta
  | |- steps _ (cell_op _) => apply clears_shared
  | |- steps _ (shared _) => apply clears_shared
  | |- steps _ (modify_self _) => apply clears_modify_self; done
  | |- steps _ (tx_modify _) => apply clears_modify_driver; done
  | |- steps _ (tx_notes _) => apply clears_notes
  | |- steps _ (reduce _) => apply clears_reduce; reflexivity
  | _ => tx_step
  end.
Ltac clears_walk :=
  repeat first [solve [eauto 2 with clears nocore] | clears_step
               | match goal with |- steps _ ?m => unfold_head m end].

Section clear_ops.
Context {M T F B R P Tok D : Type} `{!MailboxControl M T F} `{!Broadcast LifecycleEvent.t B R}.
Context `{!MailboxDriver M F Tok D} {clock : Clock}.
Context (now_at : nat -> Z) (sample_at : nat -> Z) (powi : f64 -> Z -> f64).
Local Abbreviation DriverOp := (@DriverOp M T F B P Tok D).
Local Abbreviation cleared := (@cleared M T F B P Tok D).

Lemma clears_members_of r ks : steps cleared (members_of r ks : DriverOp (list nat)).
Proof. induction ks; simpl; clears_walk. Qed.
Lemma clears_removal_latched k : steps cleared (removal_latched k : DriverOp _).
Proof. clears_walk. Qed.
Lemma clears_publish_terminal k e i st : steps cleared (publish_terminal k e i st : DriverOp _).
Proof. clears_walk. Qed.
Lemma clears_reclaim_child k : steps cleared (reclaim_child k : DriverOp _).
Proof. clears_walk. Qed.
Lemma clears_suppressed k : steps cleared (construction_is_suppressed k : DriverOp _).
Proof. clears_walk. Qed.
Lemma clears_advance_ladder k t : steps cleared (advance_ladder k t : DriverOp _).
Proof. clears_walk. Qed.
Hint Resolve clears_members_of clears_removal_latched clears_publish_terminal clears_reclaim_child
  clears_suppressed clears_advance_ladder : clears.
Lemma clears_finalize_removal k : steps cleared (finalize_removal k : DriverOp ()).
Proof. clears_walk. Qed.
Lemma clears_prune_terminal k : steps cleared (prune_terminal k : DriverOp ()).
Proof. clears_walk. Qed.
Lemma clears_fail_startup_request : steps cleared (supervisor_fail_startup : DriverOp _).
Proof. apply clears_reduced. intros s a es s' H. by destruct (Supervisor.fail_startup s); simplify_eq/=. Qed.
Lemma clears_admit m i : steps cleared (supervisor_admit m i : DriverOp _).
Proof.
  apply clears_reduced. intros s a es s' H. by apply bind_Ret_inv in H as ([k s1] & _ & H); simplify_eq/=.
Qed.
Hint Resolve clears_finalize_removal clears_prune_terminal clears_fail_startup_request clears_admit : clears.
Lemma clears_insert_child c i : steps cleared (insert_child c i : DriverOp _).
Proof. clears_walk. Qed.
Hint Resolve clears_insert_child : clears.

Section open.
Context (call : Call -> DriverOp ()) (Hcall : forall c, steps cleared (call c)).
Context (Hflush : empties (call Flush)).
Hint Resolve Hcall : clears.

Lemma flush_settles : empties (_ ← call Flush; call SettleAll).
Proof. by apply empties_then. Qed.

Lemma clears_begin_stop_child k f : steps cleared (begin_stop_child now_at call k f).
Proof. clears_walk. Qed.
Lemma clears_apply_readiness_effect k i e : steps cleared (apply_readiness_effect now_at call k i e).
Proof. pose proof clears_begin_stop_child. clears_walk. Qed.
Hint Resolve clears_begin_stop_child clears_apply_readiness_effect : clears.
Lemma clears_begin_drain_transition r st : steps cleared (begin_drain_transition call r st).
Proof.
  apply steps_bind; [apply _|clears_walk|]. intros q d a n d' H Hq.
  apply tx_bind_inv in H as (x & n1 & d1 & n2 & H1 & H & _). apply reduced_inv in H1 as (es & s' & H1 & Hq1 & _).
  destruct x as [[p state]|].
  - revert H. apply (empties_bind (tx_assert _ _)). intros _. do 4 (apply empties_bind; intros). apply flush_settles.
  - apply tx_ret_inv in H as (_ & _ & ->). rewrite Hq1, Hq. simpl.
    apply begin_drain_Ret in H1 as (_ & dr & _ & H1).
    destruct (ScopeLifecycle.is_draining _); [by destruct H1 as (_ & -> & _)|]. by destruct H1 as (H1 & _).
Qed.
Hint Resolve clears_begin_drain_transition : clears.

(** A release edge commands only the finalization of a committed removal. *)
Lemma terminalized_emits s k :
  (step s (Terminalized k)).1 = [] \/ Supervisor.membership_status (step s (Terminalized k)).2 k = Restart.Removing.
Proof.
  simpl. destruct (transition_incarnation _ _ _ _) as [[] s1]; [|by left].
  unfold Supervisor.membership_status, Supervisor.child_state. destruct (children s1 !! k) as [r|] eqn:Hr; [|by left].
  simpl. destruct (child_state_of r) eqn:Hs; [by left|by left|]. right. simpl. rewrite Hr. simpl. by rewrite Hs.
Qed.
Lemma clears_construction_disposed k : steps cleared (handle_construction_disposed call k).
Proof.
  apply steps_bind; [apply _|clears_walk|]. intros q. destruct (_ || _); [clears_walk|].
  intros d a n d' H Hq. apply tx_bind_inv in H as (x & n1 & d1 & n2 & H1 & H & _).
  apply tx_bind_inv in H1 as (y & n3 & d2 & n4 & H1 & H2 & _). apply reduced_inv in H1 as (es & s' & H1 & Hq1 & Hs1).
  assert (d1 = d2) as ->. { apply tx_bind_inv in H2 as (z & ? & ? & ? & Hz & H2 & _). cbv in Hz. simplify_eq. by apply tx_lift_inv in H2 as (_ & _ & ->). }
  apply tx_bind_inv in H as (z & n5 & d3 & n6 & Hz & H & _).
  assert (z = s' /\ d3 = d2) as [-> ->] by (cbv [supervised self mbind tx_bind tx_get mret tx_ret outcome_bind outcome_ret] in Hz; by simplify_eq).
  case_decide as Hm; [by eapply Hflush|]. assert (queue d2 = []) as Hq2.
  { pose proof (terminalized_emits (sr_supervisor (scope d)) k) as He. destruct (step _ _) as [es0 s0].
    injection H1 as _ <- <-. destruct He as [He|He]; [|done]. simpl in He. by rewrite Hq1, Hq, He. }
  revert H Hq2. match goal with |- ?m _ = _ -> _ => assert (steps cleared m) as Hc by clears_walk end.
  intros H Hq2. by eapply Hc.
Qed.
Hint Resolve clears_construction_disposed : clears.
Lemma clears_fail_startup k e : steps cleared (Driver.fail_startup call k e).
Proof. clears_walk. Qed.
Hint Resolve clears_fail_startup : clears.
Lemma clears_begin_terminal_disposal k e i st : steps cleared (begin_terminal_disposal call k e i st).
Proof. clears_walk. Qed.
Lemma clears_launch_child k i : steps cleared (launch_child now_at call k i).
Proof. clears_walk. Qed.
Hint Resolve clears_begin_terminal_disposal clears_launch_child : clears.
Lemma clears_spawn_child k : steps cleared (spawn_child now_at call k).
Proof. clears_walk. Qed.
Hint Resolve clears_spawn_child : clears.
Lemma clears_perform_effect e : steps cleared (perform_effect now_at call e).
Proof. destruct e; simpl; clears_walk. Qed.
Hint Resolve clears_perform_effect : clears.

Lemma empties_flush : empties (flush_supervisor_effects now_at call).
Proof.
  intros d a n d' H. apply tx_bind_inv in H as (r & n1 & d1 & n2 & H1 & H & _).
  assert (r = scope d /\ d1 = d) as [-> ->] by (cbv [self mbind tx_bind tx_get mret tx_ret outcome_bind outcome_ret] in H1; by simplify_eq).
  destruct (sr_effects (scope d)) eqn:Hq; [by apply tx_ret_inv in H as (_ & _ & ->)|].
  revert H. do 2 (apply empties_bind; intros). exact Hflush.
Qed.
Lemma clears_settle : steps cleared (settle_supervisor call).
Proof.
  intros d a n d' H _. apply tx_bind_inv in H as (u & n1 & d1 & n2 & _ & H & _).
  apply tx_bind_inv in H as (r & n3 & d2 & n4 & H1 & H & _).
  assert (r = scope d1 /\ d2 = d1) as [-> ->] by (cbv [self mbind tx_bind tx_get mret tx_ret outcome_bind outcome_ret] in H1; by simplify_eq).
  destruct (sr_effects (scope d1)) eqn:Hq; [by apply tx_ret_inv in H as (_ & _ & ->)|].
  revert H. apply empties_then; [done|]. intros. clears_walk.
Qed.
Lemma clears_enter c : steps cleared (enter now_at call c).
Proof.
  destruct c; simpl; [apply empties_clears, empties_flush|apply clears_settle|apply clears_begin_terminal_disposal].
Qed.
End open.

Lemma perform_clears fuel :
  (forall c, steps cleared (perform now_at fuel c : DriverOp ())) /\ empties (perform now_at fuel Flush : DriverOp ()).
Proof.
  induction fuel as [|fuel [IH IH']]; simpl; split.
  - intros c. clears_walk.
  - by intros d a n d' [? _]%tx_lift_inv.
  - by apply clears_enter.
  - by apply empties_flush.
Qed.
End clear_ops.

Section run.
Context {M T F B R P Tok D : Type} `{!MailboxControl M T F} `{!Broadcast LifecycleEvent.t B R}.
Context `{!MailboxDriver M F Tok D} `{!MildMailbox M F Tok D} {clock : Clock}.
Context (now_at : nat -> Z) (sample_at : nat -> Z) (powi : f64 -> Z -> f64).
Local Abbreviation Driver := (Driver M B P Tok).
Local Abbreviation DriverNote := (DriverNote T F P D).
Local Abbreviation DriverOp := (@DriverOp M T F B P Tok D).

(** ** Runs *)

(** The operations of an incarnation after its children are registered. *)
Inductive LoopStep :=
| PublishInitial
| Collect (limit : nat)
| Dispatch (event : Pending.t)
| SettleStep
| PublishRemovals
| TakeCompletion
| Wake (w : ScopeWake.t).

Definition discard {A} (m : DriverOp A) : DriverOp () := _ ← m; mret ().

Definition loop_step (fuel : nat) (s : LoopStep) : DriverOp () :=
  match s with
  | PublishInitial => publish_initial_children
  | Collect limit => discard (collect now_at limit)
  | Dispatch event => dispatch now_at sample_at powi (perform now_at fuel) event
  | SettleStep => perform now_at fuel SettleAll
  | PublishRemovals => publish_startup_removals
  | TakeCompletion => discard take_completion
  | Wake w => discard (wake w)
  end.

(** An admission is of a membership the reducer does not hold. *)
Definition ready_for (d : Driver) (s : LoopStep) : Prop :=
  match s with
  | Dispatch (Pending.Admission request) => fresh d (AdmissionRequest.slot request)
  | _ => True
  end.

Definition transfer_child (p : ChildPlan P) : DriverOp () :=
  child ← from_plan p; _ ← insert_child child true; mret ().

Definition opened (fl : ScopeFlavor) (d : Driver) : Prop :=
  shape d = mkShape (supervisor_new fl ScopeLifecycle.starting) [] ∅ ∅ (bool_decide (fl = Dynamic)).

(** The plan's children are registered one at a time. *)
Inductive loading (fl : ScopeFlavor) : list DriverNote -> Driver -> Prop :=
| loading_open d : opened fl d -> loading fl [] d
| loading_child n d p n' d' :
    loading fl n d -> fresh d (cp_slot p) -> transfer_child p d = Ret ((), n', d') ->
    loading fl (n ++ n') d'.

Inductive driven (fl : ScopeFlavor) : list DriverNote -> Driver -> Prop :=
| driven_loaded n d : loading fl n d -> driven fl n d
| driven_step fuel n d s n' d' :
    driven fl n d -> ready_for d s -> loop_step fuel s d = Ret ((), n', d') -> driven fl (n ++ n') d'
| driven_env n d s : driven fl n d -> driven fl n (set_store s d).

(** ** The queue between operations *)

Section handlers.
Context (call : Call -> DriverOp ()) (Hcall : forall c, steps cleared (call c)) (Hflush : empties (call Flush)).
Hint Resolve Hcall clears_members_of clears_removal_latched clears_suppressed clears_advance_ladder clears_insert_child
  clears_begin_stop_child clears_apply_readiness_effect clears_begin_drain_transition clears_construction_disposed
  clears_begin_terminal_disposal clears_spawn_child : clears.

Lemma clears_handle_removal k : steps cleared (handle_removal call k).
Proof.
  apply steps_bind; [apply _|clears_walk|]. intros []; [|clears_walk]. by apply empties_clears, empties_bind.
Qed.
Lemma clears_force_all : steps cleared (force_all call).
Proof. apply empties_clears. do 3 (apply empties_bind; intros). by apply flush_settles. Qed.
Lemma clears_resolve_window_stop k e : steps cleared (resolve_window_stop call k e).
Proof. clears_walk. Qed.
Hint Resolve clears_handle_removal clears_force_all clears_resolve_window_stop : clears.
Lemma clears_handle_exit k i rec j can seen :
  steps cleared (handle_exit now_at sample_at powi call k i rec j can seen).
Proof. clears_walk. Qed.
Lemma clears_handle_admission q : steps cleared (handle_admission now_at call q).
Proof. clears_walk. Qed.
Hint Resolve clears_handle_exit clears_handle_admission : clears.
Lemma clears_dispatch e : steps cleared (dispatch now_at sample_at powi call e).
Proof. destruct e as [| | | | |[]|request|[]|]; simpl; clears_walk. Qed.
End handlers.

Lemma quiet_clears {A} (m : DriverOp A) : quiet m -> steps cleared m.
Proof.
  intros Hm d a n d' H. specialize (Hm d). rewrite H in Hm. destruct Hm as [Hm _].
  intros Hq. change (sh_effects (shape d') = []). by rewrite Hm.
Qed.
Lemma loop_step_clears fuel s : steps cleared (loop_step fuel s : DriverOp ()).
Proof.
  destruct (perform_clears (M := M) (T := T) (B := B) (P := P) (Tok := Tok) now_at fuel) as [Hc Hf]. destruct s; simpl;
    first [by apply clears_dispatch|apply Hc|apply quiet_clears; unfold discard; quiet_walk].
Qed.

(** ** Every operation keeps the agreement *)

Lemma wpd_keeps {A} (m : DriverOp A) E d :
  keeps m -> good None E (shape d) -> wpd m (fun _ d' => good None E (shape d')) d.
Proof. intros Hm Hg. apply (wpd_wp _ (fun _ => good None E)). by apply Hm. Qed.

Lemma keeps_discard {A} (m : DriverOp A) : quiet m -> keeps (discard m).
Proof. intros Hm. apply keeps_quiet. apply quiet_bind; [done|]. intros. apply quiet_ret. Qed.

Lemma loop_step_wpd fuel s d E :
  good None E (shape d) -> ready_for d s ->
  wpd (loop_step fuel s) (fun _ d' => good None E (shape d')) d.
Proof.
  assert (Hc : contract (perform now_at fuel : Call -> DriverOp ())) by apply (perform_contract now_at sample_at).
  assert (Hf : finishes (perform now_at fuel : Call -> DriverOp ())) by apply (perform_finishes now_at sample_at).
  intros Hg Hr. destruct s; simpl in *;
    lazymatch goal with
    | |- wpd (dispatch _ _ _ _ _) _ _ => idtac
    | _ => apply wpd_keeps; [|done]
    end.
  - apply keeps_quiet. quiet_walk.
  - apply keeps_discard. quiet_walk.
  - destruct event as [| | | | |[]|request| |]; simpl;
      lazymatch goal with
      | |- wpd (handle_admission _ _ _) _ _ => by eapply handle_admission_wpd
      | _ => apply wpd_keeps; [|done]
      end.
    + by apply keeps_accept_shutdown_request.
    + by eapply keeps_resolve_window_stop.
    + by apply keeps_begin_drain.
    + apply keeps_then; [apply keeps_quiet; quiet_walk|]. intros r.
      apply keeps_then; [apply keeps_quiet; quiet_walk|]. intros _. by apply keeps_force_all.
    + by apply keeps_force_all.
    + by apply keeps_handle_ready.
    + by apply keeps_handle_self_stop.
    + by apply keeps_handle_exit.
    + by apply keeps_handle_construction_disposed.
    + by apply keeps_handle_removal.
    + by apply keeps_handle_deadline.
  - intros E' sh Hs. by apply Hc.
  - apply keeps_quiet. quiet_walk.
  - apply keeps_discard. quiet_walk.
  - apply keeps_discard. quiet_walk.
Qed.

Lemma transfer_child_wpd p d E :
  good None E (shape d) -> fresh d (cp_slot p) ->
  ScopeLifecycle.is_draining (lifecycle (sr_supervisor (scope d))) = false ->
  finish_emitted (sr_supervisor (scope d)) = false ->
  wpd (transfer_child p) (fun _ d' => good None E (shape d') /\
    lifecycle (sr_supervisor (scope d')) = lifecycle (sr_supervisor (scope d)) /\
    finish_emitted (sr_supervisor (scope d')) = finish_emitted (sr_supervisor (scope d))) d.
Proof.
  intros Hg Hf Hd He. apply wpd_bind, wpd_quiet; [quiet_walk|]. intros child n d1 H S1.
  apply from_plan_kept in H as (Hs & Ha & Hn). pose proof (fresh_kept _ _ _ _ Hn S1 Hf) as Hf1.
  assert (Hsup : sr_supervisor (scope d1) = sr_supervisor (scope d)) by exact (f_equal sh_sup S1).
  rewrite <- S1 in Hg. rewrite <- Hsup in *. apply wpd_bind.
  eapply wpd_mono; [apply insert_child_wpd; [exact Hg|done|by rewrite Hs|done|done]|].
  intros key d2 (Hg2 & Hl2 & He2 & _). by apply wpd_ret.
Qed.

Lemma opened_good fl d : opened fl d -> good None [] (shape d).
Proof.
  intros ->. split; simpl.
  - apply inv_new.
  - done.
  - apply bool_decide_eq_true.
  - intros k. by rewrite !lookup_empty.
  - intros k. by rewrite lookup_empty.
  - done.
  - intros k r Hr. simpl in Hr. by rewrite lookup_empty in Hr.
  - intros k Hk. by rewrite lookup_empty in Hk.
Qed.

Lemma wpd_Ret {A} (m : DriverOp A) Q d a n d' :
  wpd m Q d -> m d = Ret (a, n, d') -> replays (sh_sup (shape d)) n (sh_sup (shape d')) /\ Q a d'.
Proof. unfold wpd. intros Hw He. by rewrite He in Hw. Qed.

Lemma loading_good fl n d :
  loading fl n d ->
  replays (supervisor_new fl ScopeLifecycle.starting) n (sh_sup (shape d)) /\ good None [] (shape d) /\
  ScopeLifecycle.is_draining (lifecycle (sr_supervisor (scope d))) = false /\
  finish_emitted (sr_supervisor (scope d)) = false.
Proof.
  induction 1 as [d Ho|n d p n' d' _ (Hr & Hg & Hd & He) Hf Ht].
  - pose proof (opened_good _ _ Ho). unfold opened in Ho.
    assert (Hs : sr_supervisor (scope d) = supervisor_new fl ScopeLifecycle.starting) by exact (f_equal sh_sup Ho).
    rewrite Hs, Ho. split_and!; [constructor|by rewrite <- Ho|done..].
  - destruct (wpd_Ret _ _ _ _ _ _ (transfer_child_wpd p d [] Hg Hf Hd He) Ht) as (Hr' & Hg' & Hl & He').
    split_and!; [by eapply replays_app|done|by rewrite Hl|by rewrite He'].
Qed.

(** A run replays on the reducer and keeps the agreement. *)
Lemma driven_good fl n d :
  driven fl n d ->
  replays (supervisor_new fl ScopeLifecycle.starting) n (sh_sup (shape d)) /\ good None [] (shape d).
Proof.
  induction 1 as [n d Hl|fuel n d s n' d' _ [Hr Hg] Hf Hs|n d s _ IH]; [|..].
  - apply loading_good in Hl. naive_solver.
  - destruct (wpd_Ret _ _ _ _ _ _ (loop_step_wpd fuel s d [] Hg Hf) Hs) as [Hr' Hg'].
    split; [by eapply replays_app|done].
  - exact IH.
Qed.

(** ** Theorems *)

(** The requests among the notes, with the commands each one drew. *)
Definition requests (n : list DriverNote) : list (sup_op * list Effect) :=
  omap (fun x => match x with Reduced o es => Some (o, es) | _ => None end) n.
Definition answers (tr : list entry) : list (sup_op * list Effect) :=
  (fun x => (entry_op x, entry_effects x)) <$> tr.

Lemma replays_run fl s n s' :
  replays s n s' -> forall tr, run fl tr s -> exists tr', run fl (tr ++ tr') s' /\ answers tr' = requests n.
Proof.
  induction 1 as [s|s o es s1 n s' Ho Hl He _ IH|s l r s1 n s' Hr Hs Hd He _ IH|s x n s' Hx _ IH]; intros tr Ht.
  - exists []. by rewrite app_nil_r.
  - destruct (IH (tr ++ [mkEntry s o es])) as (tr' & Hr & Ha); [by econstructor|].
    exists (mkEntry s o es :: tr'). rewrite <- app_assoc in Hr. split; [done|]. simpl. by rewrite <- Ha.
  - destruct (IH (tr ++ [mkEntry s (OpStep (Spawned (ln_key l))) []])) as (tr' & Hr' & Ha); [by econstructor|].
    exists (mkEntry s (OpStep (Spawned (ln_key l))) [] :: tr'). rewrite <- app_assoc in Hr'.
    split; [done|]. simpl. by rewrite <- Ha.
  - destruct (IH tr Ht) as (tr' & Hr & Ha). exists tr'. split; [done|]. rewrite Ha. by destruct x.
Qed.

(** Between two operations no command waits in the queue. *)
Lemma loading_queue fl n d : loading fl n d -> queue d = [].
Proof.
  induction 1 as [d Ho|n d p n' d' _ IH _ Ht]; [exact (f_equal sh_effects Ho)|].
  assert (Hc : steps cleared (transfer_child p : DriverOp ())); [|by eapply Hc].
  unfold transfer_child. apply steps_bind; [apply _|apply quiet_clears; quiet_walk|]. intros child.
  apply steps_bind; [apply _|apply clears_insert_child|intros; apply steps_ret, _].
Qed.
Lemma driven_queue fl n d : driven fl n d -> queue d = [].
Proof.
  induction 1 as [n d Hl|fuel n d s n' d' _ IH _ Hs|n d s _ IH]; [by eapply loading_queue| |exact IH].
  by eapply loop_step_clears.
Qed.

(** C6: the driver refines the reducer: whatever the tasks and other drivers do
    to the shared store between its operations, the requests a driver has made
    are, with the commands they drew, a legal run of the reducer that ends in
    the state the driver holds; between two operations no command is left in
    the queue, and every member the reducer has commanded to stop or force, at
    any point of the run, is stopping, disposing, joined or gone. *)
Theorem driver_refines_reducer fl n d :
  driven fl n d ->
  exists tr, run fl tr (sr_supervisor (scope d)) /\ answers tr = requests n /\
    sr_effects (scope d) = [] /\
    forall k r, StopChild k ∈ SupervisorProps.effects tr \/ ForceChild k ∈ SupervisorProps.effects tr ->
      children (sr_supervisor (scope d)) !! k = Some r ->
      incarnation_of r = IncarnationState.Stopping \/ incarnation_of r = IncarnationState.Disposing \/
      incarnation_of r = IncarnationState.Joined.
Proof.
  intros Hd. pose proof (driven_queue _ _ _ Hd) as Hq. apply driven_good in Hd as [Hr Hg].
  destruct (replays_run fl _ _ _ Hr []) as (tr & Ht & Ha); [constructor|]. exists tr. split_and!; [done..|].
  intros k r Hc Hk. destruct (commanded_told _ _ _ _ Ht Hc) as [_ Hb].
  destruct (Hb r Hk) as [Hdo|Hj]; [|auto]. destruct (good_record _ _ _ _ _ Hg Hk) as [_ Hcomplete].
  destruct (good_heeded _ _ _ Hg k r Hk Hdo) as [Hs|Hpending].
  - unfold stopping_record in Hs. destruct (incarnation_of r); try done; auto. discriminate (Hcomplete eq_refl).
  - simpl in Hpending. unfold queue in Hq. rewrite Hq in Hpending. by apply commanded_nil in Hpending.
Qed.

(** C25: the children a driver has registered are the members its reducer holds;
    a child owns a task exactly while its record is active or stopping, and
    between two operations no record is left between an exit and what follows
    it. *)
Theorem children_mirror_records fl n d k :
  driven fl n d ->
  match sr_children (scope d) !! k, children (sr_supervisor (scope d)) !! k with
  | Some c, Some r =>
      (is_Some (ch_active c) <-> incarnation_of r = IncarnationState.Active \/
                                 incarnation_of r = IncarnationState.Stopping) /\
      incarnation_of r ≠ IncarnationState.Complete
  | None, None => True
  | _, _ => False
  end.
Proof.
  intros [_ Hg]%driven_good. pose proof (good_mirror _ _ _ Hg k) as Hm. simpl in Hm.
  rewrite lookup_fmap in Hm. unfold mirrors in Hm.
  destruct (children _ !! k) as [r|], (sr_children _ !! k) as [c|]; simpl in Hm; try done.
  destruct Hm as [Hb Hc]. split; [|intros H; by apply Hc in H].
  unfold is_active, active_record in Hb. destruct (incarnation_of r);
    first [apply bool_decide_eq_true in Hb|apply bool_decide_eq_false in Hb]; naive_solver.
Qed.

Lemma replays_launched s (n : list DriverNote) s' n1 l n2 :
  replays s n s' -> n = n1 ++ Launched l :: n2 ->
  exists s1 r n3, replays s n1 s1 /\ children s1 !! ln_key l = Some r /\ startable r = true /\
    ScopeLifecycle.is_draining (lifecycle s1) = false /\
    n2 = Reduced (OpStep (Spawned (ln_key l))) [] :: n3.
Proof.
  intros H. revert n1. induction H as [s|s o es s1 n s' Ho Hl He Hn IH|s l' r s1 n s' Hr Hs Hd He Hn IH|s x n s' Hx Hn IH];
    intros n1 En.
  - by destruct n1.
  - destruct n1 as [|y n1]; simpl in En; simplify_eq. destruct (IH _ eq_refl) as (s2 & r & n3 & ? & ?).
    exists s2, r, n3. split; [by eapply replays_request|done].
  - destruct n1 as [|y [|z n1]]; simpl in En; simplify_eq.
    + exists s, r, n. split; [constructor|done].
    + destruct (IH _ eq_refl) as (s2 & r2 & n3 & ? & ?). exists s2, r2, n3. split; [|done]. eapply (replays_launch s l' r); eauto.
  - destruct n1 as [|y n1]; simpl in En; simplify_eq. destruct (IH _ eq_refl) as (s2 & r & n3 & ? & ?).
    exists s2, r, n3. split; [by apply replays_other|done].
Qed.

(** A task is launched only for a member that is startable in a scope that
    does not drain, and the very next thing the driver does is to tell the
    reducer. *)
Theorem launches_startable fl n d n1 l n2 :
  driven fl n d -> n = n1 ++ Launched l :: n2 ->
  exists s r n3, replays (supervisor_new fl ScopeLifecycle.starting) n1 s /\
    children s !! ln_key l = Some r /\ startable r = true /\
    ScopeLifecycle.is_draining (lifecycle s) = false /\
    n2 = Reduced (OpStep (Spawned (ln_key l))) [] :: n3.
Proof. intros [Hr _]%driven_good Hn. by eapply replays_launched. Qed.

(** C26: no structural assertion of the driver fails: in every run, for every
    operation of the loop, a panic is never one of the messages by which the
    driver asserts that a terminal member disposes, joins and is reclaimed in
    order, that its children are registered, and that a drain answers startup. *)
Theorem structural_assertions_hold fl n d fuel s message :
  driven fl n d -> ready_for d s -> loop_step fuel s d = Panics message -> message ∉ GUARDED.
Proof.
  intros [_ Hg]%driven_good Hf Hp. pose proof (loop_step_wpd fuel s d [] Hg Hf) as Hw. unfold wpd in Hw.
  rewrite Hp in Hw. unfold unguarded in Hw. apply negb_true_iff in Hw. intros Hin.
  assert (existsb (String.eqb message) GUARDED = true); [|congruence].
  apply existsb_exists. exists message. split; [by apply list_elem_of_In|apply String.eqb_refl].
Qed.

(** ** Scripts: runs that compute *)

Definition freshb (d : Driver) (slot : nat) : bool :=
  match membership_at (store d) slot with
  | Some m => bool_decide (child_keys (sr_supervisor (scope d)) !! m = None)
  | None => true
  end.
Definition ready_forb (d : Driver) (s : LoopStep) : bool :=
  match s with
  | Dispatch (Pending.Admission request) => freshb d (AdmissionRequest.slot request)
  | _ => true
  end.

Lemma freshb_fresh d slot : freshb d slot = true -> fresh d slot.
Proof. unfold freshb, fresh. intros H m Hm. rewrite Hm in H. by apply bool_decide_eq_true in H. Qed.
Lemma ready_forb_ready d s : ready_forb d s = true -> ready_for d s.
Proof. destruct s as [| |[]| | | |]; simpl; try done. apply freshb_fresh. Qed.

Fixpoint load (n : list DriverNote) (d : Driver) (plans : list (ChildPlan P))
  : option (list DriverNote * Driver) :=
  match plans with
  | [] => Some (n, d)
  | p :: plans =>
      if freshb d (cp_slot p) then
        match transfer_child p d with
        | Ret (_, n', d') => load (n ++ n') d' plans
        | _ => None
        end
      else None
  end.

Inductive ScriptStep := Do (s : LoopStep) | Env (g : Store M B P -> Store M B P).

Fixpoint drive (fuel : nat) (n : list DriverNote) (d : Driver) (script : list ScriptStep)
  : option (list DriverNote * Driver) :=
  match script with
  | [] => Some (n, d)
  | Do s :: script =>
      if ready_forb d s then
        match loop_step fuel s d with
        | Ret (_, n', d') => drive fuel (n ++ n') d' script
        | _ => None
        end
      else None
  | Env g :: script => drive fuel n (set_store (g (store d)) d) script
  end.

Lemma load_loading fl plans n d n' d' :
  loading fl n d -> load n d plans = Some (n', d') -> loading fl n' d'.
Proof.
  revert n d. induction plans as [|p plans IH]; intros n d Hl H; simpl in H; [by simplify_eq|].
  destruct (freshb d (cp_slot p)) eqn:Hf; [|done]. destruct (transfer_child p d) as [[[[] n1] d1]| |] eqn:Ht; [|done..].
  eapply IH; [|done]. econstructor; [done|by apply freshb_fresh|done].
Qed.
Lemma drive_driven fl fuel script n d n' d' :
  driven fl n d -> drive fuel n d script = Some (n', d') -> driven fl n' d'.
Proof.
  revert n d. induction script as [|[s|g] script IH]; intros n d Hd H; simpl in H; [by simplify_eq| |].
  - destruct (ready_forb d s) eqn:Hf; [|done]. destruct (loop_step fuel s d) as [[[[] n1] d1]| |] eqn:Ht; [|done..].
    eapply IH; [|done]. econstructor; [done|by apply ready_forb_ready|done].
  - eapply IH; [|done]. by constructor.
Qed.

(** What a plan's children and a script lead to, as far as they go. *)
Definition loaded (plans : list (ChildPlan P)) (d : Driver) : list DriverNote * Driver :=
  unwrap_or (load [] d plans) ([], d).
Definition scripted (fuel : nat) (plans : list (ChildPlan P)) (d : Driver) (script : list ScriptStep)
  : list DriverNote * Driver :=
  let start := loaded plans d in unwrap_or (drive fuel start.1 start.2 script) start.

Lemma scripted_driven fl fuel plans d script :
  opened fl d -> driven fl (scripted fuel plans d script).1 (scripted fuel plans d script).2.
Proof.
  intros Ho. assert (Hl : loading fl (loaded plans d).1 (loaded plans d).2).
  { unfold loaded. destruct (load [] d plans) as [[n d1]|] eqn:E; simpl; [|by constructor].
    eapply load_loading; [|exact E]. by constructor. }
  unfold scripted. destruct (loaded plans d) as [n d1]. simpl in *.
  destruct (drive fuel n d1 script) as [[n' d']|] eqn:E; simpl; [|by apply driven_loaded].
  eapply drive_driven; [|exact E]. by apply driven_loaded.
Qed.
End run.
