(* ===== verification/DriverMailbox.v ===== *)
(** * The mailbox as the driver sees it

    The mailbox cell implements what the driver asks of a mailbox, and none of
    its panics is one of the driver's assertions. *)

From S2P Require Import Prelude BTree Time Identity Exit Float64 Policy Readiness StopLadder Restart.
From S2P Require Import Epochs Lifecycle DeadlineQueue Supervisor Gate Watch Latch Mailbox.
From S2P Require Import Member Snapshot LifecycleHub Scope Plan Effects Dynamic DriverState DriverPanics.

#[export] Instance mailbox_driver {A} :
    MailboxDriver (MailboxCell A) (FlushAction A) MailboxBindToken (list (Envelope A)) := {|
  mb_configure k m := Mailbox.configure m k;
  mb_bind t i m := Mailbox.bind m t i;
  mb_freeze i m := Mailbox.freeze m i;
  mb_close i m :=
    let '(closed, fx, m) := Mailbox.close m i in
    ((fun c => (close_bind c, close_disposal c)) <$> closed, fx, m) |}.


Lemma mild_push_accepted {A} (t : MailboxTxn A) k m : mild (push_accepted t k m).
Proof. mild_walk. Qed.
#[local] Hint Resolve mild_push_accepted : mild.
Lemma mild_promote_loop {A} fuel b (t : MailboxTxn A) : mild (promote_loop fuel b t).
Proof. revert t. induction fuel; intros t; simpl; [done|mild_walk]. Qed.
#[local] Hint Resolve mild_promote_loop : mild.

#[export] Instance mild_mailbox {A} :
  MildMailbox (MailboxCell A) (FlushAction A) MailboxBindToken (list (Envelope A)).
Proof.
  split; intros; simpl.
  - unfold configure. mild_walk.
  - unfold bind. mild_walk.
Qed.
