(* ===== verification/DriverLedger.v ===== *)
(** * Responses the driver owes

    The obligations of the control plane across a driver's turns and its
    teardown: a response is owed by exactly one holder until it is settled. *)

From S2P Require Import Prelude BTree Time Identity Exit Float64 Policy Readiness StopLadder Restart.
From S2P Require Import Epochs Lifecycle DeadlineQueue Supervisor SupervisorInv Gate Watch Latch.
From S2P Require Import Member Snapshot LifecycleHub Scope Plan Effects Dynamic DynamicProps.
From S2P Require Import DriverState Driver DriverEvents DriverLoop DriverPanics.

(** ** Operations with nothing in hand *)

Section even.
Context {S N X : Type} `{L : !Ledger S N X}.

Definition even {A} (m : Tx S N A) : Prop := owns [] m (fun _ => []).

Lemma even_ret {A} (a : A) : even (mret a : Tx S N A).
Proof. by apply owns_ret. Qed.
Lemma even_bind {A C} (m : Tx S N A) (k : A -> Tx S N C) : even m -> (forall a, even (k a)) -> even (m ≫= k).
Proof. intros Hm Hk. by eapply owns_bind. Qed.
Lemma even_lift {A} (o : outcome A) : even (tx_lift o : Tx S N A).
Proof. by apply owns_lift. Qed.
Lemma even_get : even (tx_get : Tx S N S).
Proof. apply (owns_still _ []), still_get. Qed.
Lemma even_each {Y} (k : Y -> Tx S N ()) l : (forall y, even (k y)) -> even (tx_each k l).
Proof. intros Hk. induction l; simpl; [apply even_ret|by apply even_bind]. Qed.
Lemma even_modify g : (forall s, holds (g s) = holds s) -> even (tx_modify g : Tx S N ()).
Proof.
  intros Hg s a n s' H. unfold tx_modify in H. simplify_eq. unfold gains, spends. simpl. by rewrite Hg, !app_nil_r.
Qed.
Lemma even_notes l : gains l = [] -> spends l = [] -> even (tx_notes l : Tx S N ()).
Proof. intros Hg Hs s a n s' H. unfold tx_notes in H. simplify_eq. by rewrite Hg, Hs. Qed.

(** A settled operation in front of one that holds [g]. *)
Lemma owns_after {A C} g (m : Tx S N A) (k : A -> Tx S N C) o :
  even m -> (forall a, owns g (k a) o) -> owns g (m ≫= k) o.
Proof.
  intros Hm Hk. eapply (owns_bind _ _ _ (fun _ => g)); [|done].
  pose proof (owns_consume g [] m Hm) as Hf. by rewrite app_nil_r in Hf.
Qed.
End even.

Section ledger.
Context {M T F B R P Tok D : Type} `{!MailboxControl M T F} `{!Broadcast LifecycleEvent.t B R}.
Context `{!MailboxDriver M F Tok D} {clock : Clock}.
Local Abbreviation PlanOp := (@PlanOp M T F B P).
Local Abbreviation StoreOp := (@StoreOp M T F B P).
Local Abbreviation Driver := (Driver M B P Tok).
Local Abbreviation DriverNote := (DriverNote T F P D).
Local Abbreviation DriverOp := (@DriverOp M T F B P Tok D).

Definition pending_owes (l : list DynamicEntry.t) : list nat := l ≫= entry_owes.

(** What a driver and the store owe. *)
#[export] Instance driver_ledger : Ledger Driver DriverNote nat :=
  {| holds d := owed (store d) ++ pending_owes (sr_pending_removals (scope d));
     gained x := match x with Shared n => issues n | _ => [] end;
     spent x := match x with Shared n => settles n | _ => [] end |}.

Lemma gains_shared (n : list (StoreNote T F P)) : 
  gains (S := Driver) (Shared <$> n : list DriverNote) = gains (S := Store M B P) n.
Proof. unfold gains. induction n; simpl; [done|]. by f_equal. Qed.
Lemma spends_shared (n : list (StoreNote T F P)) : 
  spends (S := Driver) (Shared <$> n : list DriverNote) = spends (S := Store M B P) n.
Proof. unfold spends. induction n; simpl; [done|]. by f_equal. Qed.

Lemma owns_shared {A} g (m : StoreOp A) o : owns g m o -> owns g (shared m : DriverOp A) o.
Proof.
  intros Hm d a n d' H. apply tx_zoom_inv in H as (n' & s & H & -> & ->). specialize (Hm _ _ _ _ H).
  rewrite gains_shared, spends_shared. simpl in *.
  trans ((g ++ owed (store d) ++ gains (S := Store M B P) n') ++ pending_owes (sr_pending_removals (scope d))); [solve_Permutation|].
  rewrite Hm. solve_Permutation.
Qed.
Lemma even_plan {A} (m : PlanOp A) : even (plan m : StoreOp A).
Proof. apply (owns_still _ []), still_plan. Qed.
Lemma even_modify_self g :
  (forall r, sr_pending_removals (g r) = sr_pending_removals r) -> even (modify_self g : DriverOp ()).
Proof. intros Hg. apply even_modify. intros d. simpl. by rewrite Hg. Qed.
End ledger.

Create HintDb even.

(** Walks an operation that leaves nothing in hand. *)
Ltac even_step :=
  match goal with
  | |- even (mret _) => apply even_ret
  | |- even (mbind _ _) => apply even_bind; [|intros]
  | |- even (match ?x with _ => _ end) => destruct x
  | |- even (tx_lift _) => apply even_lift
  | |- even (tx_assert _ _) => apply even_lift
  | |- even tx_get => apply even_get
  | |- even (tx_each _ _) => apply even_each; intros
  | |- even (tx_notes _) => solve [apply even_notes; repeat case_match; done]
  | |- even (plan _) => apply even_plan
  | |- even (cells _) => apply even_plan
  | |- even (cell_op _) => apply owns_shared; apply even_plan
  | |- even (shared _) => apply owns_shared; match goal with |- owns [] ?m _ => change (even m) end
  | |- even (modify_self _) => apply even_modify_self; done
  | |- even (tx_modify _) => apply even_modify; done
  end.
Ltac even_walk :=
  repeat first [even_step | solve [eauto 2 with even nocore]
               | match goal with |- even ?m => unfold_head m end].

Section ops.
Context {M T F B R P Tok D : Type} `{!MailboxControl M T F} `{!Broadcast LifecycleEvent.t B R}.
Context `{!MailboxDriver M F Tok D} {clock : Clock}.
Context (now_at : nat -> Z) (sample_at : nat -> Z) (powi : f64 -> Z -> f64).
Local Abbreviation StoreOp := (@StoreOp M T F B P).
Local Abbreviation DriverOp := (@DriverOp M T F B P Tok D).

Lemma even_routed {A} (m : @Op M T F B A) : even (routed m : StoreOp A).
Proof.
  intros s a n s' H. apply bind_Ret_inv in H as ([[a1 n1] s1] & H1 & H).
  apply bind_Ret_inv in H as ([[u n2] s2] & H2 & H). simplify_eq.
  apply (even_plan (cell m)) in H1.
  assert (He : even (tx_each route_close_admission (closed_routes n1) : StoreOp ())).
  { apply even_each. intros c. apply owns_route_close. }
  apply He in H2. rewrite gains_app, spends_app. simpl in *. rewrite !app_nil_r in *.
  rewrite app_assoc, H1, <- app_assoc. rewrite (Permutation_app_comm (spends n1)), app_assoc, H2.
  solve_Permutation.
Qed.
Lemma even_dispose_sent d lane m k : even (dispose_then d (SendDisposed lane m k) : StoreOp ()).
Proof. apply (owns_dispose_then d (SendDisposed lane m k)). Qed.
Lemma even_register_initial c l : even (register_initial c l : StoreOp ()).
Proof. apply owns_register_initial. Qed.
Lemma even_slot_member i : even (slot_member i : StoreOp _).
Proof. even_walk. Qed.
Lemma even_entry_is m e : even (entry_is m e : StoreOp _).
Proof. even_walk. Qed.
Hint Resolve even_routed even_dispose_sent even_register_initial even_slot_member even_entry_is : even.

Lemma even_removal_latched k : even (removal_latched k : DriverOp _).
Proof. even_walk. Qed.
Lemma even_drop_child c : even (drop_child c : DriverOp _).
Proof. even_walk. Qed.
Lemma even_from_plan p : even (from_plan p : DriverOp _).
Proof. even_walk. Qed.
Lemma even_publish_terminal k e i st : even (publish_terminal k e i st : DriverOp _).
Proof. even_walk. Qed.
Lemma even_reclaim_child k : even (reclaim_child k : DriverOp _).
Proof. even_walk. Qed.
Lemma even_construction_is_suppressed k : even (construction_is_suppressed k : DriverOp _).
Proof. even_walk. Qed.
Lemma even_advance_ladder k t : even (advance_ladder k t : DriverOp _).
Proof. even_walk. Qed.
Hint Resolve even_removal_latched even_drop_child even_from_plan even_publish_terminal even_reclaim_child
  even_construction_is_suppressed even_advance_ladder : even.

Lemma even_detached l : even (tx_notes (Detached <$> l) : DriverOp ()).
Proof. apply even_notes; by induction l. Qed.
Hint Resolve even_detached : even.

(** ** Released entries *)

Lemma owns_release e : owns (entry_owes e) (release_removed_entry e : DriverOp ()) (fun _ => []).
Proof.
  apply owns_after; [even_walk|]. intros sup. destruct (ScopeLifecycle.is_starting _).
  - intros d u n d' H. unfold modify_self, tx_modify in H. simplify_eq. simpl. unfold pending_owes, gains, spends.
    rewrite bind_app. simpl. rewrite !app_nil_r. solve_Permutation.
  - apply owns_shared. rewrite <- (app_nil_r (entry_owes e)). apply (owns_drop_entry (Some e)).
Qed.
Lemma owns_released e : owns (removed_owes e)
  (match e with Some e => release_removed_entry e | None => mret () end : DriverOp ()) (fun _ => []).
Proof.
  destruct e as [e|]; [|by apply owns_ret]. unfold removed_owes. simpl. rewrite app_nil_r. apply owns_release.
Qed.

Lemma even_publish_startup_removals : even (publish_startup_removals : DriverOp ()).
Proof.
  intros d u n d' H. apply tx_bind_inv in H as (r & n1 & d1 & n2 & H1 & H & ->).
  assert (r = scope d /\ n1 = [] /\ d1 = d) as (-> & -> & ->).
  { unfold self, mbind, tx_bind, tx_get in H1. simpl in H1. by simplify_eq. }
  apply tx_bind_inv in H as ([] & n3 & d2 & n4 & H2 & H & ->). unfold modify_self, tx_modify in H2. simplify_eq.
  assert (Ho : owns (pending_owes (sr_pending_removals (scope d)))
    (tx_each (fun e => drop_entry (Some e)) (sr_pending_removals (scope d)) : StoreOp ()) (fun _ => [])).
  { apply (owns_each entry_owes). intros e. rewrite <- (app_nil_r (entry_owes e)). apply (owns_drop_entry (Some e)). }
  apply (owns_shared (Tok := Tok) (D := D)) in Ho. apply Ho in H. simpl in *. rewrite !app_nil_r in *.
  rewrite <- H. solve_Permutation.
Qed.
Hint Resolve even_publish_startup_removals : even.

Lemma still_own_entry control k m : still (own_entry control k m : StoreOp _).
Proof.
  apply still_bind; [apply still_get_control|]. intros c. destruct (_ !! _); [|apply still_ret].
  apply still_bind; [apply still_entry_is|]. intros. apply still_ret.
Qed.
Lemma own_entry_found control k m (s : Store M B P) e n s' :
  (own_entry control k m : StoreOp _) s = Ret (Some e, n, s') ->
  exists c, st_controls s' !! control = Some c /\ DynamicControl.entries c !! MemberCell.id m = Some e.
Proof.
  intros H. apply tx_bind_inv in H as (c & n1 & s1 & n2 & H1 & H & ->).
  apply get_control_inv in H1 as (Hc & -> & ->). exists c.
  destruct (DynamicControl.entries c !! MemberCell.id m) as [e'|]; [|by apply tx_ret_inv in H as (? & _)].
  apply tx_bind_inv in H as (own & n3 & s2 & n4 & H2 & H & ->). apply kc_entry_is in H2.
  apply tx_ret_inv in H as (H & _ & ->). rewrite H2. destruct (_ && _); by simplify_eq.
Qed.

(** Reading again a control that is known. *)
Lemma at_get {A} control c g (k : DynamicControl.t -> StoreOp A) o :
  owns_at control c g (k c) o -> owns_at control c g (c ← get_control control; k c) o.
Proof.
  intros Hk s a n s' Hc H. apply tx_bind_inv in H as (c' & n1 & s1 & n2 & H1 & H & ->).
  apply get_control_inv in H1 as (Hc' & -> & ->). simplify_eq. by eapply Hk.
Qed.

(** The entry under a known id is taken out of its control. *)
Lemma at_take control c id e :
  DynamicControl.entries c !! id = Some e ->
  owns_at control c [] (c ← get_control control; _ ← put_control control (DynamicControl.remove id c); mret (Some e)
                        : StoreOp _) removed_owes.
Proof.
  intros He. apply at_get. eapply (at_bind _ _ _ _ _ (fun _ => removed_owes (Some e))).
  - apply at_put. unfold removed_owes. simpl. rewrite app_nil_r, <- (control_owes_remove _ _ _ He). solve_Permutation.
  - intros u. by apply owns_ret.
Qed.

(** What follows finding one's own entry. *)
Lemma owns_own_entry {A} control k m (f : option DynamicEntry.t -> StoreOp A) o :
  owns [] (f None) o ->
  (forall c e, DynamicControl.entries c !! MemberCell.id m = Some e -> owns_at control c [] (f (Some e)) o) ->
  owns [] (e ← own_entry control k m; f e) o.
Proof.
  intros Hn Hs s a n s' H. apply tx_bind_inv in H as (e & n1 & s1 & n2 & H1 & H & ->).
  pose proof (still_own_entry _ _ _ _ _ _ _ H1) as (Hh & Hg & Hp). rewrite gains_app, spends_app, Hg, Hp. simpl.
  destruct e as [e|].
  - apply own_entry_found in H1 as (c & Hc & He). rewrite <- Hh. by apply (Hs c e He s1).
  - rewrite <- Hh. by apply (Hn s1).
Qed.

Lemma even_finalize_removal k : even (finalize_removal k : DriverOp ()).
Proof.
  apply even_bind; [even_walk|]. intros r. destruct (sr_dynamic r) as [control|]; [|even_walk].
  apply even_bind; [even_walk|]. intros child. apply even_bind; [even_walk|]. intros [m mc].
  eapply (owns_bind _ _ _ removed_owes).
  - apply owns_shared, owns_own_entry; [by apply owns_ret|]. intros c e He.
    destruct (DynamicEntry.is_removing e); [|by apply at_any, owns_ret].
    apply at_still; [apply kc_cells|apply still_cells|]. intros _. by apply at_take.
  - intros [e|]; [|by apply owns_ret]. unfold removed_owes. simpl. rewrite app_nil_r.
    apply owns_after; [apply even_reclaim_child|]. intros _. apply owns_release.
Qed.

Lemma even_prune_terminal k : even (prune_terminal k : DriverOp ()).
Proof.
  do 2 (apply even_bind; [even_walk|]; intros). apply even_bind; [even_walk|]. intros [m mc].
  eapply (owns_bind _ _ _ removed_owes).
  - apply owns_shared. destruct (sr_dynamic a) as [control|].
    + apply owns_own_entry.
      * apply owns_after; [even_walk|]. intros _. by apply owns_ret.
      * intros c e He. apply at_still; [apply kc_cells|apply still_cells|]. intros _. by apply at_take.
    + apply owns_after; [even_walk|]. intros e. apply owns_after; [even_walk|]. intros _.
      destruct e; by apply owns_ret.
  - intros removed. apply owns_after; [even_walk|]. intros sc. apply owns_after; [even_walk|]. intros _.
    apply owns_released.
Qed.
Hint Resolve even_finalize_removal even_prune_terminal : even.

(** ** Methods that recurse *)

Section open.
Context (call : Call -> DriverOp ()) (Hcall : forall c, even (call c)).
Hint Resolve Hcall : even.

Lemma even_begin_stop_child k f : even (begin_stop_child now_at call k f).
Proof. even_walk. Qed.
Hint Resolve even_begin_stop_child : even.
Lemma even_apply_readiness_effect k i e : even (apply_readiness_effect now_at call k i e).
Proof. even_walk. Qed.
Lemma even_begin_drain_transition r st : even (begin_drain_transition call r st).
Proof.
  assert (forall r ks, even (members_of r ks : DriverOp (list nat))) by (intros q; induction ks; simpl; even_walk).
  even_walk.
Qed.
Lemma even_handle_construction_disposed k : even (handle_construction_disposed call k).
Proof. even_walk. Qed.
Hint Resolve even_apply_readiness_effect even_begin_drain_transition even_handle_construction_disposed : even.
Lemma even_fail_startup k e : even (Driver.fail_startup call k e).
Proof. even_walk. Qed.
Hint Resolve even_fail_startup : even.
Lemma even_begin_terminal_disposal k e i st : even (begin_terminal_disposal call k e i st).
Proof. even_walk. Qed.
Hint Resolve even_begin_terminal_disposal : even.
Lemma even_launch_child k i : even (launch_child now_at call k i).
Proof. even_walk. Qed.
Hint Resolve even_launch_child : even.
Lemma even_spawn_child k : even (spawn_child now_at call k).
Proof. even_walk. Qed.
Hint Resolve even_spawn_child : even.
Lemma even_enter c : even (enter now_at call c).
Proof. destruct c; simpl; even_walk. Qed.
End open.

Lemma even_perform fuel c : even (perform now_at fuel c : DriverOp ()).
Proof. revert c. induction fuel as [|fuel IH]; intros c; simpl; [even_walk|]. by apply even_enter. Qed.

(** ** Handlers *)

Section handlers.
Context (call : Call -> DriverOp ()) (Hcall : forall c, even (call c)).
Hint Resolve Hcall even_begin_stop_child even_apply_readiness_effect even_begin_drain_transition
  even_handle_construction_disposed even_begin_terminal_disposal even_spawn_child : even.

Lemma even_handle_exit k i rec j can seen :
  even (handle_exit now_at sample_at powi call k i rec j can seen).
Proof. even_walk. Qed.
Lemma even_force_all : even (force_all call).
Proof.
  assert (forall r ks, even (members_of r ks : DriverOp (list nat))) by (intros q; induction ks; simpl; even_walk).
  even_walk.
Qed.
Hint Resolve even_handle_exit even_force_all : even.

Lemma owns_reject request control cause :
  owns [AdmissionRequest.response request] (reject_reserved_admission request control cause : DriverOp ()) (fun _ => []).
Proof.
  apply owns_after; [even_walk|]. intros r.
  eapply (owns_bind _ _ _ (fun x => AdmissionRequest.response request :: removed_owes x.2)).
  - apply owns_shared, (owns_perm ([AdmissionRequest.response request] ++ [])); [done|].
    refine (owns_frame [AdmissionRequest.response request] [] (cancel_dynamic_reservation_parts _ _ _)
      (fun x => removed_owes x.2) _). apply owns_cancel_parts.
  - intros [definition removed]. apply owns_shared.
    exact (owns_dispose_definition definition (RejectAdmission request removed (ReserveError.NotAdmitting cause))).
Qed.

Lemma promote_owes key fused e : entry_owes (DynamicEntry.promote key fused e) = entry_owes e.
Proof. by destruct e. Qed.

Local Abbreviation hold := (holds (N := DriverNote T F P D)).
Local Abbreviation gain := (gains (S := Driver M B P Tok)).
Local Abbreviation spend := (spends (S := Driver M B P Tok)).

(** [owns] where the driver's control is known to be [c]. *)
Definition knows {A} (control : nat) (c : DynamicControl.t) (g : list nat) (m : DriverOp A)
    (o : A -> list nat) : Prop :=
  forall d a n d', st_controls (store d) !! control = Some c -> m d = Ret (a, n, d') ->
    g ++ hold d ++ gain n
    ≡ₚ hold d' ++ spend n ++ o a.

Lemma knows_any {A} control c g (m : DriverOp A) o : owns g m o -> knows control c g m o.
Proof. intros Hm d a n d' _ H. by eapply Hm. Qed.
Lemma knows_shared {A} control c g (m : StoreOp A) o :
  owns_at control c g m o -> knows control c g (shared m) o.
Proof.
  intros Hm d a n d' Hc H. apply tx_zoom_inv in H as (n' & s & H & -> & ->). specialize (Hm _ _ _ _ Hc H).
  rewrite gains_shared, spends_shared. simpl in *.
  trans ((g ++ owed (store d) ++ gains (S := Store M B P) n') ++ pending_owes (sr_pending_removals (scope d)));
    [solve_Permutation|]. rewrite Hm. solve_Permutation.
Qed.
Lemma knows_bind {A C} control c g (m : DriverOp A) (k : A -> DriverOp C) o1 o :
  knows control c g m o1 -> (forall a, owns (o1 a) (k a) o) -> knows control c g (m ≫= k) o.
Proof.
  intros Hm Hk d b n d' Hc H. apply tx_bind_inv in H as (a & n1 & d1 & n2 & H1 & H2 & ->).
  specialize (Hm _ _ _ _ Hc H1). specialize (Hk _ _ _ _ _ H2). rewrite gains_app, spends_app.
  trans ((g ++ hold d ++ gain n1) ++ gain n2); [solve_Permutation|]. rewrite Hm.
  trans (spend n1 ++ (o1 a ++ hold d1 ++ gain n2)); [solve_Permutation|]. rewrite Hk. solve_Permutation.
Qed.
Lemma knows_keep {A C} control c g (m : DriverOp A) (k : A -> DriverOp C) o :
  (forall d a n d', m d = Ret (a, n, d') -> st_controls (store d') = st_controls (store d)) -> even m ->
  (forall a, knows control c g (k a) o) -> knows control c g (m ≫= k) o.
Proof.
  intros Hs Hm Hk d b n d' Hc H. apply tx_bind_inv in H as (a & n1 & d1 & n2 & H1 & H2 & ->).
  rewrite <- (Hs _ _ _ _ H1) in Hc. apply Hm in H1. specialize (Hk _ _ _ _ _ Hc H2). rewrite gains_app, spends_app.
  simpl in H1. rewrite app_nil_r in H1.
  trans (g ++ (hold d ++ gain n1) ++ gain n2); [solve_Permutation|]. rewrite H1.
  trans (spend n1 ++ (g ++ hold d1 ++ gain n2)); [solve_Permutation|]. rewrite Hk. solve_Permutation.
Qed.

Lemma find_reservation_found control m (s : Store M B P) c e n s' :
  (find_reservation control m : StoreOp _) s = Ret ((c, e), n, s') ->
  st_controls s' !! control = Some c /\
  forall x, e = Some x -> DynamicControl.entries c !! MemberCell.id m = Some x.
Proof.
  intros H. apply tx_bind_inv in H as (c' & n1 & s1 & n2 & H1 & H & ->).
  apply get_control_inv in H1 as (Hc & -> & ->).
  destruct (DynamicControl.entries c' !! MemberCell.id m) as [e'|] eqn:Ee;
    [|apply tx_ret_inv in H as ([= -> ->] & _ & ->); done].
  apply tx_bind_inv in H as (own & n3 & s2 & n4 & H2 & H & ->). apply kc_entry_is in H2.
  apply tx_ret_inv in H as ([= -> ->] & _ & ->). rewrite H2. split; [done|]. intros x Hx. destruct (_ && _); by simplify_eq.
Qed.
Lemma even_find_reservation control m : even (find_reservation control m : StoreOp _).
Proof. even_walk. Qed.

Lemma insert_child_controls (child : ChildRuntime P Tok) b d k n d' :
  (insert_child child b : DriverOp _) d = Ret (k, n, d') -> st_controls (store d') = st_controls (store d).
Proof.
  intros H. apply tx_bind_inv in H as ([m mc] & n1 & d1 & n2 & H1 & H & ->).
  assert (E1 : st_controls (store d1) = st_controls (store d)).
  { apply tx_bind_inv in H1 as ([sl mc'] & n3 & d2 & n4 & H1 & H2 & ->). apply tx_ret_inv in H2 as (_ & _ & ->).
    apply tx_zoom_inv in H1 as (? & ? & H1 & _ & ->). by apply kc_slot_member in H1. }
  apply tx_bind_inv in H as (key & n3 & d2 & n4 & H2 & H & ->).
  apply tx_bind_inv in H as ([] & n5 & d3 & n6 & H3 & H & ->). apply tx_ret_inv in H as (_ & _ & ->).
  unfold modify_self, tx_modify in H3. simplify_eq. simpl. rewrite <- E1.
  apply tx_bind_inv in H2 as (r & n7 & d4 & n8 & H2 & H & ->). unfold self, mbind, tx_bind, tx_get in H2. simpl in H2.
  simplify_eq. apply tx_bind_inv in H as ([[? ?] ?] & n9 & d5 & n10 & H2 & H & ->).
  apply tx_lift_inv in H2 as (_ & _ & ->).
  unfold modify_self, tx_modify, tx_notes, mbind, tx_bind in H. simpl in H. by simplify_eq.
Qed.

(** What a refused install leaves in hand: its claimed reservation. *)
Definition refused_owes (x : ChildKey + option DynamicEntry.t) : list nat :=
  match x with inl _ => [] | inr removed => removed_owes removed end.

Lemma knows_settle_install request control child root p id c reserved :
  (forall x, reserved = Some x -> DynamicControl.entries c !! id = Some x) ->
  knows control c [] (settle_install request control child root p id c reserved) refused_owes.
Proof.
  intros Hr. apply knows_keep; [|even_walk|].
  { intros e y n' e' He. apply tx_zoom_inv in He as (? & ? & He & _ & ->). by apply kc_get in He. }
  intros s. cbv zeta. destruct reserved as [entry|]; [destruct (is_some_and _ _)|].
  - eapply (knows_bind _ _ _ _ _ (fun _ => removed_owes (Some entry))).
    + apply knows_shared, at_put. unfold removed_owes. simpl.
      rewrite app_nil_r, <- (control_owes_remove _ _ _ (Hr _ eq_refl)). solve_Permutation.
    + intros _. apply owns_after; [even_walk|]. intros _. by apply owns_ret.
  - apply knows_keep; [intros e y n' e' He; by apply insert_child_controls in He|even_walk|intros key].
    eapply (knows_bind _ _ _ _ _ (fun _ => [])).
    + apply knows_shared, at_put. apply (Permutation_app_inv_l (entry_owes entry)).
      rewrite app_nil_r, (control_owes_update _ _ _ _ (Hr _ eq_refl)), promote_owes. done.
    + intros _. do 2 (apply owns_after; [even_walk|]; intros). by apply owns_ret.
  - apply knows_any. do 2 (apply owns_after; [even_walk|]; intros _). by apply owns_ret.
Qed.

Lemma owns_install request control child :
  owns [] (install_admission request control child : DriverOp _) refused_owes.
Proof.
  unfold install_admission. do 3 (apply owns_after; [even_walk|]; intros). destruct a1 as [m mc].
  intros d x n d' H. apply tx_bind_inv in H as ([c reserved] & n1 & d1 & n2 & H1 & H & ->).
  pose proof (owns_shared (Tok := Tok) (D := D) _ _ _ (even_find_reservation control mc) _ _ _ _ H1) as E1.
  apply tx_zoom_inv in H1 as (n1' & s1 & H1 & _ & ->). apply find_reservation_found in H1 as [Hc Hr].
  pose proof (knows_settle_install _ _ _ _ _ _ _ _ Hr (set_store s1 d) _ _ _ Hc H) as K.
  rewrite gains_app, spends_app. rewrite !app_nil_l, app_nil_r in E1. rewrite app_nil_l in K |- *.
  trans ((hold d ++ gain n1) ++ gain n2); [by rewrite app_assoc|]. rewrite E1.
  trans (spend n1 ++ (hold (set_store s1 d) ++ gain n2)); [solve_Permutation|]. rewrite K. solve_Permutation.
Qed.

Lemma owns_handle_admission request :
  owns [AdmissionRequest.response request] (handle_admission now_at call request) (fun _ => []).
Proof.
  unfold handle_admission. do 3 (apply owns_after; [even_walk|]; intros).
  destruct (not_admitting _ _) as [cause|]; [apply owns_reject|].
  apply owns_after; [even_walk|]. intros [[definition resolved]|]; [|apply owns_reject].
  do 2 (apply owns_after; [even_walk|]; intros).
  eapply (owns_bind _ _ _ (fun x => AdmissionRequest.response request :: refused_owes x)).
  - apply (owns_perm ([AdmissionRequest.response request] ++ [])); [done|].
    refine (owns_frame [AdmissionRequest.response request] [] (install_admission request _ _) refused_owes _).
    apply owns_install.
  - intros [key|removed]; simpl.
    + eapply owns_bind; [apply owns_shared, owns_send|]. intros []. apply even_spawn_child; auto.
    + apply owns_shared. exact (owns_dispose_definition _ (RejectAdmission request removed _)).
Qed.

(** ** Dispatch *)

Definition pending_event_owes (p : Pending.t) : list nat :=
  match p with Pending.Admission request => [AdmissionRequest.response request] | _ => [] end.
Definition batch_owes (l : list (ArbitrationClass * Pending.t)) : list nat :=
  l ≫= fun p => pending_event_owes p.2.

Lemma owns_dispatch p : owns (pending_event_owes p) (dispatch now_at sample_at powi call p) (fun _ => []).
Proof.
  destruct p as [| | | | |[]|request| |deadline]; simpl pending_event_owes;
    try (match goal with |- owns [] ?m _ => change (even m) end; even_walk; fail).
  apply owns_handle_admission.
Qed.

Lemma batch_owes_perm l l' : l ≡ₚ l' -> batch_owes l ≡ₚ batch_owes l'.
Proof. intros Hl. unfold batch_owes. by rewrite Hl. Qed.

Lemma owns_run_batch pending :
  owns (batch_owes pending) (run_batch now_at sample_at powi call pending) (fun _ => []).
Proof.
  eapply owns_bind.
  - eapply owns_perm; [|apply (owns_each (fun p : ArbitrationClass * Pending.t => pending_event_owes p.2));
      intros p; apply owns_dispatch].
    apply batch_owes_perm, sort_by_key_perm.
  - intros u. match goal with |- owns _ ?m _ => change (even m) end.
    pose proof even_publish_startup_removals. even_walk.
Qed.

(** ** Collection *)

Lemma owns_try_recv lane :
  owns [] (try_recv lane : StoreOp _) (fun e => option_list e ≫= event_owes).
Proof.
  intros s a n s' H. apply tx_bind_inv in H as (s0 & n1 & s1 & n2 & H1 & H & ->).
  apply tx_get_inv in H1 as (-> & -> & ->). destruct (st_lanes s !! lane) as [[|e q]|] eqn:E.
  1,3: apply tx_ret_inv in H as (-> & -> & ->); by rewrite !app_nil_r.
  cbv [tx_modify mret tx_ret mbind tx_bind outcome_bind] in H. simplify_eq. simpl.
  unfold owed; simpl. rewrite !app_nil_r.
  rewrite (values_lookup lane_owes _ _ (e :: q) E), (values_lookup lane_owes (<[lane := q]> _) lane q)
    by apply lookup_insert_eq. rewrite delete_insert_eq. unfold lane_owes at 1. simpl. fold (lane_owes q).
  solve_Permutation.
Qed.

Lemma from_owes e : pending_event_owes (Pending.from e) = event_owes e.
Proof. by destruct e. Qed.

Lemma owns_collect_events lane limit :
  owns [] (collect_driver_events lane limit : StoreOp _) (fun x => batch_owes x.1).
Proof.
  induction limit as [|limit IH]; simpl.
  all: eapply owns_bind; [apply owns_try_recv|]; intros [e|]; simpl; [|by apply owns_ret].
  { apply owns_ret. unfold batch_owes. simpl. by rewrite from_owes. }
  eapply (owns_bind _ _ _ (fun x => event_owes e ++ batch_owes x.1)).
  { rewrite app_nil_r. pose proof (owns_frame (event_owes e) [] _ _ IH) as Hf. by rewrite app_nil_r in Hf. }
  intros [l full]. apply owns_ret. unfold batch_owes. simpl. by rewrite from_owes.
Qed.

Lemma batch_owes_app l l' : batch_owes (l ++ l') = batch_owes l ++ batch_owes l'.
Proof. apply bind_app. Qed.
Lemma control_events_owe sup l : batch_owes (l ≫= control_event_work sup) = [].
Proof.
  induction l as [|[m target] l IH]; [done|]. rewrite bind_cons, batch_owes_app, IH. simpl.
  by destruct (key_for sup m).
Qed.
Lemma deadlines_owe l : batch_owes ((fun d => Pending.classified (Pending.Deadline d)) <$> l) = [].
Proof. by induction l. Qed.
Lemma one_owes (b : bool) p :
  pending_event_owes p = [] -> batch_owes (if b then [Pending.classified p] else []) = [].
Proof. intros Hp. destruct b; [|done]. unfold batch_owes. simpl. by rewrite Hp. Qed.

Lemma owns_collect_lanes primary control disposal limit :
  owns [] (collect_event_lanes primary control disposal limit : StoreOp _) (fun x => batch_owes x.1).
Proof.
  eapply owns_bind; [apply owns_collect_events|]. intros [l1 f1]. simpl.
  eapply (owns_bind _ _ _ (fun x => batch_owes l1 ++ batch_owes x.1)).
  { eapply owns_perm; [rewrite <- (app_nil_r (batch_owes l1)); done|].
    apply (owns_frame (batch_owes l1) []). destruct control; [apply owns_collect_events|by apply owns_ret]. }
  intros [l2 f2]. simpl.
  eapply (owns_bind _ _ _ (fun x => (batch_owes l1 ++ batch_owes l2) ++ batch_owes x.1)).
  { eapply owns_perm; [rewrite <- (app_nil_r (batch_owes l1 ++ batch_owes l2)); done|].
    apply (owns_frame _ []). apply owns_collect_events. }
  intros [l3 f3]. apply owns_ret. simpl. by rewrite !batch_owes_app, app_assoc.
Qed.

Lemma owns_collect limit : owns [] (collect now_at limit : DriverOp _) (fun x => batch_owes x.1).
Proof.
  unfold collect. do 8 (apply owns_after; [even_walk|]; intros).
  eapply owns_bind; [apply owns_shared, owns_collect_lanes|]. intros [lanes full].
  do 2 (apply owns_after; [even_walk|]; intros). apply owns_after; [even_walk|]. intros [due q].
  apply owns_after; [even_walk|]. intros. apply owns_ret. simpl.
  rewrite !batch_owes_app, control_events_owe, deadlines_owe, !one_owes by done. by rewrite app_nil_r.
Qed.

Lemma owns_turn limit carried :
  owns (batch_owes carried) (turn now_at sample_at powi call limit carried) (fun _ => []).
Proof.
  eapply (owns_bind _ _ _ (fun x => batch_owes carried ++ batch_owes x.1)).
  { eapply owns_perm; [rewrite <- (app_nil_r (batch_owes carried)); done|].
    apply (owns_frame _ []), owns_collect. }
  intros [collected full]. simpl. rewrite <- batch_owes_app.
  destruct (carried ++ collected) as [|p l]; [by apply owns_ret|].
  eapply owns_bind; [apply owns_run_batch|]. intros. by apply owns_ret.
Qed.

Lemma owns_poll_wait changed elapsed :
  owns [] (poll_wait changed elapsed : DriverOp _)
    (fun w => match w with
              | Some (ScopeWake.Message (Some e)) | Some (ScopeWake.ControlMessage (Some e)) => event_owes e
              | _ => []
              end).
Proof.
  assert (Hr : forall lane (k : option DriverEvent.t -> ScopeWake.t),
    k = ScopeWake.Message \/ k = ScopeWake.ControlMessage ->
    owns [] (e ← shared (try_recv lane); mret (Some (k e)) : DriverOp _)
      (fun w => match w with
                | Some (ScopeWake.Message (Some e)) | Some (ScopeWake.ControlMessage (Some e)) => event_owes e
                | _ => []
                end)).
  { intros lane k Hk. eapply owns_bind; [apply owns_shared, owns_try_recv|]. intros [e|].
    all: apply owns_ret; destruct Hk as [-> | ->]; simpl; by rewrite ?app_nil_r. }
  unfold poll_wait. do 2 (apply owns_after; [even_walk|]; intros).
  destruct changed; [by apply owns_ret|]. destruct (_ || _); [by apply owns_ret|].
  apply owns_after; [even_walk|]. intros control.
  destruct (st_lanes a0 !! sr_events a) as [[|]|]; [|auto|by apply owns_ret].
  destruct control as [lane|]; [|destruct elapsed; by apply owns_ret].
  destruct (st_lanes a0 !! lane) as [[|]|]; [|auto|by apply owns_ret]. destruct elapsed; by apply owns_ret.
Qed.

(** ** The epilogue *)

Lemma owns_drop_runtime : even (drop_runtime call : DriverOp ()).
Proof.
  unfold drop_runtime. apply owns_after; [even_walk|]. intros r.
  eapply (owns_bind _ _ _ (fun entries => entries ≫= entry_owes)).
  { destruct (sr_dynamic r) as [control|]; [|by apply owns_ret].
    eapply owns_bind; [apply owns_shared, owns_close|]. intros [retained deferred]. simpl.
    apply owns_after; [even_walk|]. intros.
    eapply (owns_bind _ _ _ (fun _ => values entry_owes retained)).
    - apply owns_shared, (owns_consume (values entry_owes retained)), owns_commit_disposals.
    - intros. by apply owns_ret. }
  intros entries. apply owns_after; [even_walk|]. intros.
  apply owns_after; [even_walk|]. intros. apply owns_after; [apply even_publish_startup_removals|]. intros.
  eapply (owns_bind _ _ _ (fun _ => []));
    [|intros; match goal with |- owns [] ?m _ => change (even m) end; even_walk].
  apply owns_shared, (owns_each entry_owes). intros e. eapply owns_perm; [|apply owns_drop_entry].
  unfold removed_owes. simpl. by rewrite app_nil_r.
Qed.

Lemma even_drop_receivers : even (drop_receivers : DriverOp ()).
Proof.
  assert (Hl : forall lane, even (drop_lane lane : StoreOp ())) by apply owns_drop_lane. even_walk.
Qed.
End handlers.
End ops.
