(* ===== verification/DriverEpilogue.v ===== *)
(** * What a finished driver leaves

    A driver's own operations only take entries out of a control, never move
    a scope to other lanes or another control; after the epilogue the control
    is empty, the lanes are gone and no removal is pending. *)

From S2P Require Import Prelude BTree Time Identity Exit Float64 Policy Readiness StopLadder Restart.
From S2P Require Import Epochs Lifecycle DeadlineQueue Supervisor SupervisorInv Gate Watch Latch.
From S2P Require Import Member Snapshot LifecycleHub Scope Plan Effects Dynamic DynamicProps.
From S2P Require Import DynamicClaims DriverState Driver DriverEvents DriverLoop DriverPanics DriverLedger.

Section shrinks.
Context {M T F B R P Tok D : Type} `{!MailboxControl M T F} `{!Broadcast LifecycleEvent.t B R}.
Context `{!MailboxDriver M F Tok D} {clock : Clock}.
Local Abbreviation PlanOp := (@PlanOp M T F B P).
Local Abbreviation StoreOp := (@StoreOp M T F B P).
Local Abbreviation Driver := (Driver M B P Tok).
Local Abbreviation DriverNote := (DriverNote T F P D).
Local Abbreviation DriverOp := (@DriverOp M T F B P Tok D).

(** A control that kept its lane and lost entries at most. *)
Definition control_shrinks (c c' : option DynamicControl.t) : Prop :=
  match c, c' with
  | Some c, Some c' =>
      DynamicControl.requests c' = DynamicControl.requests c /\
      DynamicControl.entries c' ⊆ DynamicControl.entries c
  | None, None => True
  | _, _ => False
  end.
Definition store_shrinks (s : Store M B P) (n : list (StoreNote T F P)) (s' : Store M B P) : Prop :=
  forall i, control_shrinks (st_controls s !! i) (st_controls s' !! i).
Definition lanes_of (r : ScopeRuntime P Tok) : nat * nat * option nat :=
  (sr_events r, sr_disposal_events r, sr_dynamic r).
Definition shrinks (d : Driver) (n : list DriverNote) (d' : Driver) : Prop :=
  lanes_of (scope d') = lanes_of (scope d) /\ store_shrinks (store d) [] (store d').

Lemma control_shrinks_refl c : control_shrinks c c.
Proof. by destruct c. Qed.
Lemma control_shrinks_trans c1 c2 c3 :
  control_shrinks c1 c2 -> control_shrinks c2 c3 -> control_shrinks c1 c3.
Proof.
  destruct c1, c2, c3; simpl; try done. intros [H1 H2] [H3 H4]. split; [congruence|by etrans].
Qed.
#[export] Instance store_shrinks_rel : StepRel store_shrinks.
Proof.
  split; [intros s i; apply control_shrinks_refl|].
  intros s n t n' u H1 H2 i. by eapply control_shrinks_trans.
Qed.
#[export] Instance shrinks_rel : StepRel shrinks.
Proof.
  split; [intros d; split; [done|apply (step_refl (Rel := store_shrinks))]|].
  intros d n e n' f [H1 H2] [H3 H4]. split; [by rewrite H3|]. exact (step_trans _ [] _ [] _ H2 H4).
Qed.

Lemma shrinks_shared {A} (m : StoreOp A) : steps store_shrinks m -> steps shrinks (shared m : DriverOp A).
Proof. intros Hm d a n d' H. apply tx_zoom_inv in H as (n' & s & H & _ & ->). split; [done|]. exact (Hm _ _ _ _ H). Qed.
Lemma shrinks_plan {A} (m : PlanOp A) : steps store_shrinks (plan m : StoreOp A).
Proof.
  intros s a n s' H. apply tx_zoom_inv in H as (n' & w & _ & _ & ->). intros i. apply control_shrinks_refl.
Qed.
Lemma shrinks_modify g : (forall s, st_controls (g s) = st_controls s) ->
  steps store_shrinks (tx_modify g : StoreOp ()).
Proof.
  intros Hg s a n s' H. cbv [tx_modify] in H. simplify_eq. intros i. rewrite Hg. apply control_shrinks_refl.
Qed.
Lemma shrinks_modify_self g : (forall r, lanes_of (g r) = lanes_of r) ->
  steps shrinks (modify_self g : DriverOp ()).
Proof.
  intros Hg d a n d' H. cbv [modify_self tx_modify] in H. simplify_eq. split; [apply Hg|apply (step_refl (Rel := store_shrinks))].
Qed.
Lemma shrinks_modify_driver g : (forall d : Driver, scope (g d) = scope d /\ store (g d) = store d) ->
  steps shrinks (tx_modify g : DriverOp ()).
Proof.
  intros Hg d a n d' H. cbv [tx_modify] in H. simplify_eq. destruct (Hg d) as [H1 H2].
  split; [by rewrite H1|]. rewrite H2. apply (step_refl (Rel := store_shrinks)).
Qed.
Lemma shrinks_notes l : steps shrinks (tx_notes l : DriverOp ()).
Proof. intros d a n d' H. cbv [tx_notes] in H. simplify_eq. split; [done|apply (step_refl (Rel := store_shrinks))]. Qed.
Lemma store_shrinks_notes l : steps store_shrinks (tx_notes l : StoreOp ()).
Proof. intros d a n d' H. cbv [tx_notes] in H. simplify_eq. apply (step_refl (Rel := store_shrinks)). Qed.

(** Entries are taken out of a control under its lock. *)
Lemma shrinks_take {A} control (f : DynamicControl.t -> DynamicControl.t) (k : DynamicControl.t -> () -> StoreOp A) :
  (forall c, DynamicControl.requests (f c) = DynamicControl.requests c /\
             DynamicControl.entries (f c) ⊆ DynamicControl.entries c) ->
  (forall c u, steps store_shrinks (k c u)) ->
  steps store_shrinks (c ← get_control control; u ← put_control control (f c); k c u).
Proof.
  intros Hf Hk s a n s' H. apply tx_bind_inv in H as (c & n1 & s1 & n2 & H1 & H & ->).
  apply get_control_inv in H1 as (Hc & -> & ->). apply tx_bind_inv in H as (u & n3 & s2 & n4 & H1 & H & ->).
  refine (step_trans (Rel := store_shrinks) s [] s2 n4 s' _ (Hk _ _ _ _ _ _ H)).
  cbv [put_control tx_modify] in H1. simplify_eq. intros i. simpl.
  destruct (decide (i = control)) as [->|]; [|rewrite lookup_insert_ne by done; apply control_shrinks_refl].
  rewrite Hc, lookup_insert_eq. apply Hf.
Qed.
Lemma store_shrinks_route_close control : steps store_shrinks (route_close_admission control : StoreOp ()).
Proof.
  intros s a n s' H. apply tx_bind_inv in H as (c & n1 & s1 & n2 & H1 & H & ->).
  apply get_control_inv in H1 as (Hc & -> & ->). cbv [put_control tx_modify] in H. simplify_eq. intros i. simpl.
  destruct (decide (i = control)) as [->|]; [|rewrite lookup_insert_ne by done; apply control_shrinks_refl].
  by rewrite Hc, lookup_insert_eq.
Qed.
End shrinks.

Create HintDb shrinks.
Ltac shrinks_step :=
  match goal with
  | |- steps store_shrinks (mbind (fun c => mbind _ (put_control _ _)) (get_control _)) =>
      apply shrinks_take; [intros; split; [done|apply delete_subseteq]|intros]
  | |- steps _ (let _ := _ in _) => cbv zeta
  | |- steps _ (plan _) => apply shrinks_plan
  | |- steps _ (cells _) => apply shrinks_plan
  | |- steps _ (cell_op _) => apply shrinks_shared, shrinks_plan
  | |- steps _ (shared _) => apply shrinks_shared
  | |- steps _ (modify_self _) => apply shrinks_modify_self; done
  | |- steps _ (tx_modify _) => first [apply shrinks_modify; done|apply shrinks_modify_driver; done]
  | |- steps _ (tx_notes _) => first [apply shrinks_notes|apply store_shrinks_notes]
  | _ => tx_step
  end.
Ltac shrinks_walk :=
  repeat first [solve [eauto 2 with shrinks nocore] | shrinks_step
               | match goal with |- steps _ ?m => unfold_head m end].

Section ops.
Context {M T F B R P Tok D : Type} `{!MailboxControl M T F} `{!Broadcast LifecycleEvent.t B R}.
Context `{!MailboxDriver M F Tok D} {clock : Clock}.
Context (now_at : nat -> Z) (sample_at : nat -> Z) (powi : f64 -> Z -> f64).
Local Abbreviation StoreOp := (@StoreOp M T F B P).
Local Abbreviation DriverOp := (@DriverOp M T F B P Tok D).
Local Abbreviation shrinks := (shrinks (T := T) (F := F) (D := D)).

Lemma shrinks_routed {A} (m : @Op M T F B A) : steps store_shrinks (routed m : StoreOp A).
Proof.
  intros s a n s' H. apply bind_Ret_inv in H as ([[a1 n1] s1] & H1 & H).
  apply bind_Ret_inv in H as ([[u n2] s2] & H2 & H). simplify_eq. apply shrinks_plan in H1.
  apply (steps_each store_shrinks) in H2; [|apply store_shrinks_route_close].
  intros i. eapply control_shrinks_trans; [apply H1|apply H2].
Qed.
Lemma shrinks_dispose d c : steps store_shrinks (dispose_then d c : StoreOp ()).
Proof. shrinks_walk. Qed.
Hint Resolve shrinks_routed shrinks_dispose : shrinks.

Lemma shrinks_drop_entry e : steps store_shrinks (drop_entry e : StoreOp ()).
Proof. shrinks_walk. Qed.
Lemma shrinks_removal_latched k : steps shrinks (removal_latched k : DriverOp _).
Proof. shrinks_walk. Qed.
Lemma shrinks_drop_child c : steps shrinks (drop_child c : DriverOp _).
Proof. shrinks_walk. Qed.
Lemma shrinks_publish_terminal k e i st : steps shrinks (publish_terminal k e i st : DriverOp _).
Proof. shrinks_walk. Qed.
Hint Resolve shrinks_drop_entry shrinks_removal_latched shrinks_drop_child shrinks_publish_terminal : shrinks.
Lemma shrinks_reclaim_child k : steps shrinks (reclaim_child k : DriverOp _).
Proof. shrinks_walk. Qed.
Lemma shrinks_suppressed k : steps shrinks (construction_is_suppressed k : DriverOp _).
Proof. shrinks_walk. Qed.
Lemma shrinks_advance_ladder k t : steps shrinks (advance_ladder k t : DriverOp _).
Proof. shrinks_walk. Qed.
Hint Resolve shrinks_reclaim_child shrinks_suppressed shrinks_advance_ladder : shrinks.
Lemma shrinks_finalize_removal k : steps shrinks (finalize_removal k : DriverOp ()).
Proof. shrinks_walk. Qed.
Lemma shrinks_prune_terminal k : steps shrinks (prune_terminal k : DriverOp ()).
Proof. shrinks_walk. Qed.
Hint Resolve shrinks_finalize_removal shrinks_prune_terminal : shrinks.

Section open.
Context (call : Call -> DriverOp ()) (Hcall : forall c, steps shrinks (call c)).
Hint Resolve Hcall : shrinks.

Lemma shrinks_begin_stop_child k f : steps shrinks (begin_stop_child now_at call k f).
Proof. shrinks_walk. Qed.
Lemma shrinks_apply_readiness_effect k i e : steps shrinks (apply_readiness_effect now_at call k i e).
Proof. shrinks_walk. Qed.
Lemma shrinks_begin_drain_transition r st : steps shrinks (begin_drain_transition call r st).
Proof.
  assert (forall q ks, steps shrinks (members_of q ks : DriverOp (list nat))) by
    (intros q; induction ks; simpl; shrinks_walk).
  shrinks_walk.
Qed.
Hint Resolve shrinks_begin_stop_child shrinks_apply_readiness_effect shrinks_begin_drain_transition : shrinks.
Lemma shrinks_construction_disposed k : steps shrinks (handle_construction_disposed call k).
Proof. shrinks_walk. Qed.
Hint Resolve shrinks_construction_disposed : shrinks.
Lemma shrinks_fail_startup k e : steps shrinks (Driver.fail_startup call k e).
Proof. shrinks_walk. Qed.
Hint Resolve shrinks_fail_startup : shrinks.
Lemma shrinks_begin_terminal_disposal k e i st : steps shrinks (begin_terminal_disposal call k e i st).
Proof. shrinks_walk. Qed.
Hint Resolve shrinks_begin_terminal_disposal : shrinks.
Lemma shrinks_launch_child k i : steps shrinks (launch_child now_at call k i).
Proof. shrinks_walk. Qed.
Hint Resolve shrinks_launch_child : shrinks.
Lemma shrinks_spawn_child k : steps shrinks (spawn_child now_at call k).
Proof. shrinks_walk. Qed.
Hint Resolve shrinks_spawn_child : shrinks.
Lemma shrinks_enter c : steps shrinks (enter now_at call c).
Proof. destruct c; simpl; shrinks_walk. Qed.
End open.

Lemma shrinks_perform fuel c : steps shrinks (perform now_at fuel c : DriverOp ()).
Proof. revert c. induction fuel as [|fuel IH]; intros c; simpl; [shrinks_walk|]. by apply shrinks_enter. Qed.
Hint Resolve shrinks_perform shrinks_construction_disposed : shrinks.

(** ** The epilogue *)

Definition epilogue (fuel : nat) : DriverOp () :=
  _ ← drop_runtime (perform now_at fuel);
  drop_receivers.

Lemma close_empties control scope (s : Store M B P) r n s' :
  (Dynamic.close control scope : StoreOp _) s = Ret (r, n, s') ->
  exists c c', st_controls s !! control = Some c /\ st_controls s' !! control = Some c' /\
    DynamicControl.requests c' = DynamicControl.requests c /\ DynamicControl.entries c' = ∅.
Proof.
  intros H. apply tx_bind_inv in H as (c & n1 & s1 & n2 & H1 & H & ->).
  apply get_control_inv in H1 as (Hc & -> & ->). apply tx_bind_inv in H as (u & n3 & s2 & n4 & H1 & H & ->).
  cbv [put_control tx_modify] in H1. simplify_eq.
  assert (Hs : forall l, keeps_controls (close_entries scope l : StoreOp _)).
  { induction l as [|[id e] l IH]; simpl; [apply kc_ret|].
    destruct (DynamicEntry.is_reserved e); [apply kc_bind; [apply kc_plan|intros]|];
      apply kc_bind; try done; intros []; apply kc_ret. }
  apply Hs in H. rewrite H. simpl. rewrite lookup_insert_eq. eauto 10.
Qed.

Lemma close_shrinks control scope : steps store_shrinks (Dynamic.close control scope : StoreOp _).
Proof.
  assert (Hs : forall l, steps store_shrinks (close_entries scope l : StoreOp _)) by
    (induction l as [|[id e] l IH]; simpl; shrinks_walk).
  apply (shrinks_take control (fun c => DynamicControl.set_entries ∅ (DynamicControl.close_admission c))
    (fun c _ => close_entries scope (map_to_list (DynamicControl.entries c)))); [|by intros].
  intros c. split; [done|apply map_empty_subseteq].
Qed.

(** An empty control stays empty. *)
Definition vacated (d : Driver M B P Tok) : Prop :=
  forall control, sr_dynamic (scope d) = Some control ->
  exists c, st_controls (store d) !! control = Some c /\ DynamicControl.entries c = ∅.

Lemma vacated_steps {A} (m : DriverOp A) d a n d' :
  steps shrinks m -> m d = Ret (a, n, d') -> vacated d -> vacated d'.
Proof.
  intros Hm H Hv control Hc. apply Hm in H as [Hl Hs]. pose proof (f_equal snd Hl) as Hd.
  simpl in Hd.  destruct (Hv control) as (c & Hx & He); [congruence|]. specialize (Hs control). rewrite Hx in Hs. simpl in Hs.
  destruct (st_controls (store d') !! control) as [c'|]; [|done]. exists c'. split; [done|].
  destruct Hs as [_ Hs]. rewrite He in Hs. apply (anti_symm (⊆)); [done|apply map_empty_subseteq].
Qed.

Lemma drop_runtime_vacates fuel d n d' :
  drop_runtime (perform now_at fuel : Call -> DriverOp ()) d = Ret ((), n, d') ->
  vacated d' /\ shrinks d [] d'.
Proof.
  intros H. apply tx_bind_inv in H as (r & n1 & d1 & n2 & H1 & H & ->).
  unfold self, mbind, tx_bind, tx_get in H1. simpl in H1. simplify_eq.
  apply tx_bind_inv in H as (entries & n3 & d2 & n4 & H1 & H & ->).
  assert (vacated d2 /\ shrinks d1 [] d2) as [Hv Hs].
  { destruct (sr_dynamic (scope d1)) as [control|] eqn:Ed.
    - apply tx_bind_inv in H1 as ([retained deferred] & n5 & d3 & n6 & H1 & H2 & ->).
      apply tx_zoom_inv in H1 as (n7 & s & H1 & _ & ->).
      assert (Hc : vacated (set_store s d1) /\ shrinks d1 [] (set_store s d1)).
      { pose proof (close_shrinks _ _ _ _ _ _ H1). apply close_empties in H1 as (c & c' & _ & Hc & _ & He). split.
        - intros i Hi. simpl in Hi. simplify_eq. eauto.
        - by split. }
      assert (Hw : steps shrinks (_ ← cell_op (set_dynamic_route_locked (sr_root (scope d1)) None);
        _ ← shared (commit_disposals deferred); mret (map_to_list retained).*2 : DriverOp _)) by shrinks_walk.
      destruct Hc as [Hv Hs]. split; [by eapply vacated_steps|].
      apply Hw in H2. exact (step_trans _ [] _ [] _ Hs H2).
    - apply tx_ret_inv in H1 as (_ & _ & ->). split; [intros i Hi; congruence|apply step_refl]. }
  match type of H with ?m _ = _ => assert (Hw : steps shrinks (m : DriverOp ())) by shrinks_walk end.
  split; [by eapply vacated_steps|]. apply Hw in H. exact (step_trans _ [] _ [] _ Hs H).
Qed.

(** A part of the scope that an operation leaves alone. *)
Definition leaves {A X} (f : ScopeRuntime P Tok -> X) (m : DriverOp A) : Prop :=
  steps (fun d _ d' => f (scope d') = f (scope d)) m.
Lemma leaves_bind {A C X} (f : ScopeRuntime P Tok -> X) (m : DriverOp A) (k : A -> DriverOp C) :
  leaves f m -> (forall a, leaves f (k a)) -> leaves f (m ≫= k).
Proof. intros Hm Hk. apply steps_bind; [|done..]. split; [done|congruence]. Qed.
Lemma leaves_ret {A X} (f : ScopeRuntime P Tok -> X) (a : A) : leaves f (mret a : DriverOp A).
Proof. intros d b n d' H. by apply tx_ret_inv in H as (_ & _ & ->). Qed.
Lemma leaves_shared {A X} (f : ScopeRuntime P Tok -> X) (m : StoreOp A) : leaves f (shared m : DriverOp A).
Proof. intros d b n d' H. by apply tx_zoom_inv in H as (n' & s & _ & _ & ->). Qed.
Lemma leaves_notes {X} (f : ScopeRuntime P Tok -> X) l : leaves f (tx_notes l : DriverOp ()).
Proof. intros d b n d' H. unfold tx_notes in H. by simplify_eq. Qed.
Lemma leaves_self {X} (f : ScopeRuntime P Tok -> X) : leaves f (self : DriverOp _).
Proof. intros d b n d' H. cbv in H. by simplify_eq. Qed.
Lemma leaves_modify {X} (f : ScopeRuntime P Tok -> X) g :
  (forall r, f (g r) = f r) -> leaves f (modify_self g : DriverOp ()).
Proof. intros Hg d b n d' H. unfold modify_self, tx_modify in H. simplify_eq. apply Hg. Qed.
Lemma leaves_each {X Y} (f : ScopeRuntime P Tok -> X) (k : Y -> DriverOp ()) l :
  (forall y, leaves f (k y)) -> leaves f (tx_each k l).
Proof. intros Hk. induction l; simpl; [apply leaves_ret|by apply leaves_bind]. Qed.
Lemma leaves_discharge {X} (f : ScopeRuntime P Tok -> X) c : leaves f (drop_child c : DriverOp ()).
Proof.
  apply leaves_bind; [|intros; apply leaves_notes]. apply leaves_bind; [apply leaves_self|].
  intros r. destruct (ch_terminality c); [apply leaves_shared|apply leaves_ret].
Qed.

Lemma publish_startup_removals_empties d u n d' :
  (publish_startup_removals : DriverOp ()) d = Ret (u, n, d') -> sr_pending_removals (scope d') = [].
Proof.
  intros H. apply tx_bind_inv in H as (r & n1 & d1 & n2 & H1 & H & ->).
  apply tx_bind_inv in H as (v & n3 & d2 & n4 & H2 & H & ->). unfold modify_self, tx_modify in H2. simplify_eq.
  by apply (leaves_shared sr_pending_removals) in H.
Qed.

Lemma drop_runtime_publishes fuel d u n d' :
  drop_runtime (perform now_at fuel : Call -> DriverOp ()) d = Ret (u, n, d') ->
  sr_pending_removals (scope d') = [].
Proof.
  intros H. do 4 (apply tx_bind_inv in H as (? & ? & ? & ? & _ & H & _)).
  apply tx_bind_inv in H as (? & ? & d1 & ? & H1 & H & _). apply publish_startup_removals_empties in H1.
  rewrite <- H1. revert H. match goal with |- ?m _ = _ -> _ => assert (Hl : leaves sr_pending_removals m) end;
    [|apply Hl].
  repeat first [apply leaves_self|apply leaves_shared|apply leaves_discharge|apply leaves_ret
               |apply leaves_each; intros|apply leaves_modify; done|apply leaves_bind; [|intros]|case_match].
Qed.

Lemma drop_lane_deletes lane (s : Store M B P) u n s' :
  (drop_lane lane : StoreOp ()) s = Ret (u, n, s') -> st_lanes s' = delete lane (st_lanes s).
Proof.
  intros H. apply tx_bind_inv in H as (s0 & n1 & s1 & n2 & H1 & H & ->). apply tx_get_inv in H1 as (-> & -> & ->).
  apply tx_bind_inv in H as (v & n3 & s2 & n4 & H1 & H & ->). unfold tx_modify in H1. simplify_eq.
  assert (Hk : forall l, steps (fun s _ s' => st_lanes s' = st_lanes s) (tx_each drop_event l : StoreOp ())).
  { intros l. apply steps_each; [split; [done|congruence]|]. intros e t a n t' Ht.
    destruct e; simpl in Ht; try (by apply tx_ret_inv in Ht as (_ & _ & ->)).
    unfold complete_admission, send, tx_notes in Ht. by simplify_eq. }
  apply Hk in H. exact H.
Qed.

Lemma drop_lane_shared lane d u n d' :
  (shared (drop_lane lane) : DriverOp ()) d = Ret (u, n, d') ->
  scope d' = scope d /\ st_lanes (store d') = delete lane (st_lanes (store d)) /\
  st_controls (store d') = st_controls (store d).
Proof.
  intros H. apply tx_zoom_inv in H as (n' & s & H & _ & ->). split; [done|].
  split; [by apply drop_lane_deletes in H|].
  apply tx_bind_inv in H as (s0 & n1 & s1 & n2 & H1 & H & _). apply tx_get_inv in H1 as (-> & _ & ->).
  apply tx_bind_inv in H as (v & n3 & s2 & n4 & H1 & H & _). unfold tx_modify in H1. simplify_eq.
  assert (Hk : forall l, keeps_controls (tx_each drop_event l : StoreOp ())).
  { induction l as [|e l IH]; [apply kc_ret|]. apply kc_bind; [|done].
    destruct e; [apply kc_ret|apply kc_notes|apply kc_ret]. }
  apply Hk in H. exact H.
Qed.

(** The lanes a driver reads are gone and its control, which kept its lane, has
    no entry. *)
Definition retired (d d' : Driver M B P Tok) : Prop :=
  st_lanes (store d') !! sr_events (scope d) = None /\
  st_lanes (store d') !! sr_disposal_events (scope d) = None /\
  forall control, sr_dynamic (scope d) = Some control ->
  exists c, st_controls (store d') !! control = Some c /\ DynamicControl.entries c = ∅ /\
    st_lanes (store d') !! DynamicControl.requests c = None.

Lemma drop_receivers_retires d u n d' :
  vacated d -> (drop_receivers : DriverOp ()) d = Ret (u, n, d') -> scope d' = scope d /\ retired d d'.
Proof.
  intros Hv H. apply tx_bind_inv in H as (r & n1 & d1 & n2 & H1 & H & ->).
  unfold self, mbind, tx_bind, tx_get in H1. simpl in H1. simplify_eq.
  apply tx_bind_inv in H as (v & n3 & d2 & n4 & H1 & H & ->). apply drop_lane_shared in H1 as (E1 & L1 & C1).
  apply tx_bind_inv in H as (w & n5 & d3 & n6 & H1 & H & ->). apply drop_lane_shared in H as (E3 & L3 & C3).
  assert (scope d3 = scope d2 /\ st_controls (store d3) = st_controls (store d2) /\
    (st_lanes (store d3) !! sr_disposal_events (scope d1) = None) /\
    forall control c, sr_dynamic (scope d1) = Some control -> st_controls (store d2) !! control = Some c ->
      st_lanes (store d3) !! DynamicControl.requests c = None) as (E2 & C2 & L2 & L2').
  { destruct (sr_dynamic (scope d1)) as [control|].
    - apply tx_bind_inv in H1 as (c & n7 & d4 & n8 & H1 & H & ->). apply tx_zoom_inv in H1 as (n9 & s & H1 & _ & ->).
      apply get_control_inv in H1 as (Hc & -> & ->). apply drop_lane_shared in H as (E2 & L2 & C2).
      simpl in *. split_and!; [done|done|rewrite L2, L1, lookup_delete_None, lookup_delete_eq; auto|].
      intros i c' [= <-] Hc'. simplify_eq. rewrite L2. apply lookup_delete_eq.
    - apply tx_ret_inv in H1 as (_ & _ & ->). split_and!; [done|done|rewrite L1; apply lookup_delete_eq|done]. }
  split; [congruence|]. unfold retired. rewrite L3, C3, C2, C1. split_and!; [apply lookup_delete_eq| |].
  - apply lookup_delete_None. auto.
  - intros control Hd. destruct (Hv control Hd) as (c & Hc & He). exists c. split_and!; [done|done|].
    apply lookup_delete_None. right. apply (L2' control); [done|by rewrite C1].
Qed.

(** ** Theorems *)

(** The responses callers still wait for: those of queued requests, of entries
    in a control, of disposals, and of the removals a starting scope defers. *)
Definition outstanding (d : Driver M B P Tok) : list nat :=
  owed (store d) ++ pending_owes (sr_pending_removals (scope d)).
Definition driver_issued (n : list (DriverNote T F P D)) : list nat :=
  n ≫= fun x => match x with Shared n => issues n | _ => [] end.
Definition driver_settled (n : list (DriverNote T F P D)) : list nat :=
  n ≫= fun x => match x with Shared n => settles n | _ => [] end.

(** *** An incarnation's loop, among its callers *)

(** Where the loop is: about to run a turn, waiting, or complete. *)
Inductive LoopState :=
| Running (carried : list (ArbitrationClass * Pending.t))
| Waiting
| Done (reason : StopReason.t).

(** What happens next: a caller or a disposal job acts on the control plane,
    someone acts on the tree, a task reports, or the loop is polled. *)
Inductive Move :=
| Client (o : ControlStep)
| Tree (m : @PlanOp M T F B P ())
| Report (lane : nat) (event : ChildEvent.t)
| Poll (signal_changed elapsed : bool).

Definition loop_poll (fuel limit : nat) (signal_changed elapsed : bool) (st : LoopState)
  : DriverOp LoopState :=
  match st with
  | Running carried =>
      t ← turn now_at sample_at powi (perform now_at fuel) limit carried;
      mret match t with Idle => Waiting | Ran _ => Running [] | Ended reason => Done reason end
  | Waiting =>
      w ← poll_wait signal_changed elapsed;
      match w with
      | Some w =>
          '(reason, carried) ← wake w;
          mret match reason with Some reason => Done reason | None => Running carried end
      | None => mret Waiting
      end
  | Done reason => mret (Done reason)
  end.

Fixpoint serve (fuel limit : nat) (moves : list Move) (st : LoopState) : DriverOp LoopState :=
  match moves with
  | [] => mret st
  | Client o :: moves => _ ← shared (control_step o); serve fuel limit moves st
  | Tree m :: moves => _ ← shared (plan m); serve fuel limit moves st
  | Report lane event :: moves =>
      _ ← shared (send_event lane (DriverEvent.Child event)); serve fuel limit moves st
  | Poll changed elapsed :: moves =>
      st ← loop_poll fuel limit changed elapsed st; serve fuel limit moves st
  end.

Definition loop_owes (st : LoopState) : list nat :=
  match st with Running carried => batch_owes carried | _ => [] end.

Lemma owns_wake w :
  owns (match w with
        | ScopeWake.Message (Some e) | ScopeWake.ControlMessage (Some e) => event_owes e
        | _ => []
        end) (wake w : DriverOp _) (fun x => match x.1 with Some _ => [] | None => batch_owes x.2 end).
Proof.
  destruct w as [| |[e|]|[e|]|]; simpl; try (by apply owns_ret).
  all: try (by apply owns_ret; unfold batch_owes; simpl; rewrite app_nil_r, from_owes).
  all: apply owns_after; [even_walk|]; intros; by apply owns_ret.
Qed.

Lemma owns_loop_poll fuel limit changed elapsed st :
  owns (loop_owes st) (loop_poll fuel limit changed elapsed st) loop_owes.
Proof.
  destruct st as [carried| |reason]; simpl; [| |by apply owns_ret].
  - eapply owns_bind; [apply owns_turn, even_perform|]. intros t. apply owns_ret. by destruct t.
  - eapply owns_bind; [apply owns_poll_wait|]. intros [w|]; [|by apply owns_ret]. simpl.
    eapply owns_bind; [apply owns_wake|]. intros [[reason|] carried]; by apply owns_ret.
Qed.

Lemma owns_serve fuel limit moves st : owns (loop_owes st) (serve fuel limit moves st) loop_owes.
Proof.
  revert st. induction moves as [|[o|m|lane event|changed elapsed] moves IH]; intros st; simpl;
    [by apply owns_ret|..].
  - apply owns_after; [apply owns_shared, owns_control_step|]. intros. apply IH.
  - apply owns_after; [even_walk|]. intros. apply IH.
  - apply owns_after; [apply owns_shared, (owns_send_event lane (DriverEvent.Child event))|]. intros. apply IH.
  - eapply owns_bind; [apply owns_loop_poll|]. intros st'. apply IH.
Qed.

(** C27: a driver leaves no caller waiting.  However callers, disposal jobs,
    task reports and the polls of a scope's loop interleave, once the loop has completed and its
    epilogue has run, the lanes it read are gone, its control is empty, no
    removal is deferred, and the responses that were outstanding or issued
    meanwhile are, as multisets, those that were settled and those held outside
    the driver, by a disposal in flight or another scope. *)
Theorem driver_settles_responses fuel limit moves d reason n1 d1 n2 d' :
  serve fuel limit moves (Running []) d = Ret (Done reason, n1, d1) ->
  epilogue fuel d1 = Ret ((), n2, d') ->
  outstanding d ++ driver_issued (n1 ++ n2) ≡ₚ owed (store d') ++ driver_settled (n1 ++ n2) /\
  sr_pending_removals (scope d') = [] /\ retired d1 d'.
Proof.
  intros Hs H. assert (He : even (epilogue fuel)).
  { apply even_bind; [apply owns_drop_runtime, even_perform|intros; apply even_drop_receivers]. }
  pose proof (He _ _ _ _ H) as Ho. apply tx_bind_inv in H as ([] & n3 & d2 & n4 & H1 & H2 & ->).
  pose proof (drop_runtime_publishes _ _ _ _ _ H1) as Hp. apply drop_runtime_vacates in H1 as (Hv & Hl & _).
  apply drop_receivers_retires in H2 as [Hd Hr]; [|done]. rewrite Hd. split_and!; [|done|].
  - pose proof (owns_serve _ _ _ _ _ _ _ _ Hs) as H1. simpl in H1, Ho. rewrite Hd, Hp in Ho. simpl in Ho.
    rewrite !app_nil_r in *. change (outstanding d ++ driver_issued n1 ≡ₚ outstanding d1 ++ driver_settled n1) in H1.
    change (outstanding d1 ++ driver_issued (n3 ++ n4) ≡ₚ owed (store d') ++ driver_settled (n3 ++ n4)) in Ho.
    unfold driver_issued, driver_settled in *. rewrite !(bind_app _ n1), app_assoc, H1.
    rewrite (Permutation_app_comm (outstanding d1)), <- app_assoc, Ho. solve_Permutation.
  - unfold retired, lanes_of in *. by simplify_eq Hl; intros <- <- <-.
Qed.
End ops.
