(* ===== verification/DriverDemo.v ===== *)
(** * A driver at work

    An ordered root with two workers is declared, lowered, run to completion
    and torn down. *)

From S2P Require Import Prelude BTree Time Identity Exit Float64 Policy Readiness StopLadder Restart.
From S2P Require Import Epochs Lifecycle DeadlineQueue Supervisor SupervisorInv Gate Watch Latch.
From S2P Require Import Mailbox Member MailboxMember Snapshot LifecycleHub Scope ScopeLogic ScopeClosed.
From S2P Require Import Plan PlanProps Effects Dynamic DriverState Driver DriverEvents DriverLoop.
From S2P Require Import DynamicProps DriverPanics DriverLogic DriverAdmission DriverRun DriverMailbox.
From S2P Require Import DriverLedger DriverEpilogue.

Local Abbreviation DemoStore := (Store (MailboxCell Z) (list LifecycleEvent.t * Z) string).
Local Abbreviation DemoStoreOp :=
  (@StoreOp (MailboxCell Z) (MailboxTeardown Z) (FlushAction Z) (list LifecycleEvent.t * Z) string).
Local Abbreviation DemoDriver :=
  (Driver (MailboxCell Z) (list LifecycleEvent.t * Z) string MailboxBindToken).
Local Abbreviation DemoDriverNote :=
  (DriverNote (MailboxTeardown Z) (FlushAction Z) string (list (Envelope Z))).
Local Abbreviation DemoDriverOp :=
  (@DriverOp (MailboxCell Z) (MailboxTeardown Z) (FlushAction Z) (list LifecycleEvent.t * Z) string
     MailboxBindToken (list (Envelope Z))).

Local Abbreviation DemoMove :=
  (@Move (MailboxCell Z) (MailboxTeardown Z) (FlushAction Z) (list LifecycleEvent.t * Z) string).

(** A clock that advances a millisecond per reading. *)
Definition demo_now (n : nat) : Z := Z.of_nat n * 1000000.
Definition demo_sample (n : nat) : Z := 0.
#[local] Instance demo_clock : Clock := unix_clock.

(** Two one-shot tasks under an ordered root. *)
Definition demo_root_plan : DemoStoreOp (result (ScopePlan string) (list ChildId)) :=
  b ← plan (builder_new Ordered);
  '(r1, b) ← plan (Plan.reserve b "first" None);
  '(r2, b) ← plan (Plan.reserve b "second" None);
  _ ← plan (define 0 (demo_body "first"));
  _ ← plan (define 1 (demo_body "second"));
  plan (lower b resolved_defaults_default None).

Definition demo_fuel : nat := 40.
Definition demo_powi (b : f64) (e : Z) : f64 := b.

Definition demo_open : DemoStoreOp (option (ScopePlan string *
    ScopeRuntime string MailboxBindToken)) :=
  lowered ← demo_root_plan;
  match lowered with
  | Ok p =>
      epoch ← begin_epoch (sp_root p);
      match epoch with
      | Some e => r ← open_incarnation p ScopeRole.Root e; mret (Some (p, r))
      | None => mret None
      end
  | Err _ => mret None
  end.

Definition demo_store0 : DemoStore := mkStore demo_empty_world ∅ ∅ ∅ ∅ ∅ 0 ∅.


(** A runtime that was never opened. *)
Definition demo_closed : ScopeRuntime string MailboxBindToken :=
  mkRuntime 0 resolved_defaults_default Intensity.default intensity_state_default ∅
    (supervisor_new Ordered ScopeLifecycle.starting) [] 0 0 empty_queue ScopeRole.Root None []
    FIRST false false None None.

Definition demo_opened : list (ChildPlan string) * DemoDriver :=
  match demo_open demo_store0 with
  | Ret (Some (p, r), _, s) => (sp_children p, mkDriver s r 0 0)
  | _ => ([], mkDriver demo_store0 demo_closed 0 0)
  end.

(** The first incarnation of the worker whose membership has lineage [n], as its
    task reports that it returned. *)
Definition demo_incarnation (n : Z) : Incarnation :=
  mkIncarnation (mkMembership (mkFence (mkLineage n) (mkGeneration 1))) (mkGeneration 1).
Definition demo_exited (k : ChildKey) (n : Z) : LoopStep :=
  Dispatch (Pending.Child (ChildEvent.Exited k (demo_incarnation n)
    (Some (RecordedOutcome.returned (Ok ()))) JoinOk NotObserved false)).

Definition demo_script (l : list LoopStep) : list DemoDriverNote * DemoDriver :=
  scripted demo_now demo_sample demo_powi demo_fuel demo_opened.1 demo_opened.2 (Do <$> l).

(** The workers start in order and return, and the scope finishes. *)
Definition demo_started : list LoopStep := [PublishInitial; SettleStep; Collect 64].
Definition demo_returned : list LoopStep :=
  demo_started ++ [demo_exited 1 2; demo_exited 2 3; SettleStep; PublishRemovals].

Lemma demo_opened_ok : opened Ordered demo_opened.2.
Proof. vm_compute. reflexivity. Qed.

Lemma demo_drives l :
  driven demo_now demo_sample demo_powi Ordered (demo_script l).1 (demo_script l).2.
Proof. apply scripted_driven, demo_opened_ok. Qed.

(** The scope is told to shut down: it stops its last worker first. *)
Definition demo_draining : list LoopStep := demo_started ++ [Dispatch Pending.AncestorShutdown].

Lemma driver_refines_reducer_witness :
  ((requests (demo_script demo_draining).1 ≫= snd) = [StartChild 1; StartChild 2; StartupCompleted ScopeState.Running; StopChild 2]) /\
  exists tr, run Ordered tr (sr_supervisor (scope (demo_script demo_draining).2)) /\
    answers tr = requests (demo_script demo_draining).1 /\
    sr_effects (scope (demo_script demo_draining).2) = [] /\
    forall k r, StopChild k ∈ SupervisorProps.effects tr \/ ForceChild k ∈ SupervisorProps.effects tr ->
      children (sr_supervisor (scope (demo_script demo_draining).2)) !! k = Some r ->
      incarnation_of r = IncarnationState.Stopping \/ incarnation_of r = IncarnationState.Disposing \/
      incarnation_of r = IncarnationState.Joined.
Proof.
  split; [vm_compute; reflexivity|]. apply (driver_refines_reducer demo_now demo_sample demo_powi). apply demo_drives.
Defined.

Lemma children_mirror_records_witness :
  match sr_children (scope (demo_script demo_started).2) !! 1,
        children (sr_supervisor (scope (demo_script demo_started).2)) !! 1 with
  | Some c, Some r =>
      (is_Some (ch_active c) <-> incarnation_of r = IncarnationState.Active \/
                                 incarnation_of r = IncarnationState.Stopping) /\
      incarnation_of r ≠ IncarnationState.Complete
  | None, None => True
  | _, _ => False
  end.
Proof. apply (children_mirror_records demo_now demo_sample demo_powi Ordered (demo_script demo_started).1). apply demo_drives. Defined.

(** The first task a driver launched, and how many notes came before it. *)
Fixpoint first_launch (n : list DemoDriverNote) : option (nat * ChildTaskLaunch string) :=
  match n with
  | [] => None
  | Launched l :: _ => Some (0%nat, l)
  | _ :: n => (fun x => (S x.1, x.2)) <$> first_launch n
  end.

Lemma first_launch_split n i l :
  first_launch n = Some (i, l) -> n = firstn i n ++ Launched l :: skipn (S i) n.
Proof.
  revert i. induction n as [|x n IH]; intros i H; [done|].
  destruct x; simpl in H; try (destruct (first_launch n) as [[j l']|]; simpl in H; simplify_eq; simpl; f_equal; by apply IH).
Qed.

Lemma launches_startable_witness :
  match first_launch (demo_script demo_started).1 with
  | Some (i, l) => exists s r n3,
      replays (supervisor_new Ordered ScopeLifecycle.starting) (firstn i (demo_script demo_started).1) s /\
      children s !! ln_key l = Some r /\ startable r = true /\
      ScopeLifecycle.is_draining (lifecycle s) = false /\
      skipn (S i) (demo_script demo_started).1 = Reduced (OpStep (Spawned (ln_key l))) [] :: n3
  | None => False
  end.
Proof.
  assert (H : is_Some (first_launch (demo_script demo_started).1)) by (vm_compute; eauto).
  destruct (first_launch (demo_script demo_started).1) as [[i l]|] eqn:E; [|by destruct H].
  apply (launches_startable demo_now demo_sample demo_powi Ordered (demo_script demo_started).1
           (demo_script demo_started).2); [apply demo_drives|by apply first_launch_split].
Defined.

(** An admission sent to an ordered scope is refused by a panic of its own. *)
Definition demo_stray : LoopStep := Dispatch (Pending.Admission (AdmissionRequest.mk 7 None 0)).

Lemma structural_assertions_hold_witness :
  "admission requests arrive only on a dynamic scope's control lane" ∉ GUARDED.
Proof.
  apply (structural_assertions_hold demo_now demo_sample demo_powi Ordered (demo_script demo_started).1
           (demo_script demo_started).2 demo_fuel demo_stray).
  - apply demo_drives.
  - apply freshb_fresh. vm_compute. reflexivity.
  - vm_compute. reflexivity.
Defined.

(** ** A dynamic root: a worker is admitted while the driver runs *)

Definition demo_dynamic : list (ChildPlan string) * DemoDriver :=
  let open_dynamic : DemoStoreOp (option (ScopePlan string * ScopeRuntime string MailboxBindToken)) :=
    b ← plan (builder_new Dynamic);
    lowered ← plan (lower b resolved_defaults_default None);
    match lowered with
    | Ok p =>
        epoch ← begin_epoch (sp_root p);
        match epoch with
        | Some e => r ← open_incarnation p ScopeRole.Root e; mret (Some (p, r))
        | None => mret None
        end
    | Err _ => mret None
    end in
  match open_dynamic demo_store0 with
  | Ret (Some (p, r), _, s) => (sp_children p, mkDriver s r 0 0)
  | _ => ([], mkDriver demo_store0 demo_closed 0 0)
  end.

Definition demo_admit (root : nat) : DemoStoreOp () :=
  r ← reserve_dynamic true root "late" None;
  match r with
  | Ok r => _ ← plan (define (r_slot r) (demo_body "late")); _ ← start_admission true r None; mret ()
  | Err _ => mret ()
  end.

(** The scope has started and the request is queued. *)
Definition demo_requested : DemoDriver :=
  let d := (scripted demo_now demo_sample demo_powi demo_fuel demo_dynamic.1 demo_dynamic.2
              (Do <$> [PublishInitial; SettleStep])).2 in
  match demo_admit (sr_root (scope d)) (store d) with
  | Ret (_, _, s) => set_store s d
  | _ => d
  end.

(** The loop answers the request, waits, is asked to stop, stops the worker and
    completes when its task has exited. *)
Definition demo_serve (moves : list DemoMove) : outcome (LoopState * list DemoDriverNote * DemoDriver) :=
  serve demo_now demo_sample demo_powi demo_fuel 64 moves (Running []) demo_requested.

Definition demo_moves : list DemoMove :=
  [Poll false false; Poll false false;
   Tree (cell (_ ← request_shutdown 0; mret ())); Poll true false; Poll false false;
   Report 0 (ChildEvent.Exited 1 (demo_incarnation 2) (Some (RecordedOutcome.returned (Ok ()))) JoinOk Observed false);
   Poll true false; Poll false false].

Definition completed_loop (o : outcome (LoopState * list DemoDriverNote * DemoDriver))
  : outcome (StopReason.t * list DemoDriverNote * DemoDriver) :=
  match o with
  | Ret (Done reason, n, d) => Ret (reason, n, d)
  | _ => Panics "still running"
  end.
Lemma completed_loop_inv o reason n d : completed_loop o = Ret (reason, n, d) -> o = Ret (Done reason, n, d).
Proof. destruct o as [[[[] ?] ?]| |]; simpl; intros H; by simplify_eq. Qed.

Definition demo_served : outcome (StopReason.t * list DemoDriverNote * DemoDriver) :=
  completed_loop (demo_serve demo_moves).

(** The response of the queued admission, and how the loop ended. *)
Example demo_serve_answers :
  outstanding demo_requested = [0%nat] /\
  match demo_served with
  | Ret (reason, n, d) => reason = StopReason.ShutdownRequested /\ driver_settled n = [0%nat]
  | _ => False
  end.
Proof. vm_compute. auto. Qed.

Lemma driver_settles_responses_witness :
  match demo_served with
  | Ret (_, n1, d1) =>
      match epilogue demo_now demo_fuel d1 : outcome (() * list DemoDriverNote * DemoDriver) with
      | Ret (_, n2, d') =>
          outstanding demo_requested ++ driver_issued (n1 ++ n2) ≡ₚ
            owed (store d') ++ driver_settled (n1 ++ n2) /\
          sr_pending_removals (scope d') = [] /\ retired d1 d'
      | _ => False
      end
  | _ => False
  end.
Proof.
  assert (H : match demo_served with
              | Ret (_, _, d1) =>
                  match epilogue demo_now demo_fuel d1 : outcome (() * list DemoDriverNote * DemoDriver) with
                  | Ret _ => True | _ => False end
              | _ => False end) by (vm_compute; exact I).
  destruct demo_served as [[[reason n1] d1]| |] eqn:E; [|done..].
  destruct (epilogue demo_now demo_fuel d1) as [[[[] n2] d']| |] eqn:E2; [|done..].
  apply (driver_settles_responses demo_now demo_sample demo_powi demo_fuel 64 demo_moves demo_requested reason n1 d1 n2 d');
    [apply completed_loop_inv; exact E|exact E2].
Defined.
